(* ===== verification/_CoqProject ===== *)
-Q . S2P
Prelude.v
IOBuffer.v
RingBuffer.v
StdMap.v
NetBuffer.v
Packet.v
PacketTheorems.v
LruCache.v
LruCacheFacts.v
StrUtil.v
StrUtilFacts.v
UrlCode.v
UrlCodeFacts.v
BinTree.v
BinarySearchTree.v
AvlTree.v
SplayTree.v
Treap.v
HeapContract.v
LeftistHeap.v
PairingHeap.v
BinomialQueue.v
Arrays.v
BinaryHeap.v
AsyncTimer.v
SortContract.v
InsertionSort.v
HeapSort.v
MergeSort.v
QuickSort.v
HashContract.v
SeparateChaining.v
QuadraticProbing.v
Monitor.v
BlockingQueue.v
BoundedBlockingQueue.v
CountDownLatch.v
ThreadPool.v
Printf.v
HttpContext.v
HttpParser.v
HttpServer.v
TcpConnection.v
TcpConnectionFacts.v
Date.v
Hoare.v
TimerQueue.v
TimerQueueSteps.v
EventLoop.v
PollerContract.v
PollPoller.v
EPollPoller.v
Pollers.v
Connector.v
TcpClient.v
EventLoopThreadPool.v
TcpServer.v
TcpServerSteps.v
TcpServerTheorems.v
NodeStore.v
RedBlackTree.v
RedBlackHeap.v
RedBlackInsert.v
RedBlackObject.v
RedBlackTheorems.v
LogStream.v
AsyncLogging.v
AsyncLoggingTheorems.v
ProtobufCodec.v
ProtobufCodecTheorems.v
RpcChannel.v
RpcChannelTheorems.v
DsaaTheorems.v
TimeZone.v
TimeZoneTheorems.v
LogFile.v
DisjSets.v
LinkedList.v
Vector.v
CuckooHashTable.v
