(* ===== verification/Prelude.v ===== *)
(** * A verification library for cppBase

    The repository collects a small base library ([src/cppBase]), an annotated
    copy of the muduo network library ([src/muduo]) and the data structures of
    Weiss's book ([src/project/data_structures_and_algorithms/.../codeC++11],
    DSAA below).  This development models the parts that carry logic of their
    own and proves what they promise to their clients.  Every definition is
    translated from the code by hand and can be evaluated.

    ** Conventions

    - A machine integer is a [Z]; where the code can wrap around, the model
      says so with [wrap]/[swrap] ([u8] ... [i64] below).  Indices of DSAA
      ([int]) are natural numbers or unbounded integers; sizes beyond [int] are
      not modelled.  Bytes are [Z] in [0, 256).
    - [option] results: [None] is undefined behaviour (an access outside of a
      vector, a null pointer) or the end of the fuel.  The functional theorems
      show that the result is [Some].
    - [act S E A] (below) is a computation on the object [S] that may return,
      throw an [E], fail an assertion ([Abort]) or be undefined ([Ub]).
    - A loop whose end is not structural takes fuel.  The bound is written at
      the definition (a length, a size, a height) and the theorems show that it
      is enough; the searches for a prime table size have no such bound and
      their theorems show that enough fuel exists.
    - Moving an object copies it: no modelled function reads a moved-from
      object before it is overwritten.  Allocation succeeds.
    - Contracts are separate from implementations: a contract is a small
      executable specification with a [Class] that an implementation
      instantiates; a run of any list of calls on the implementation answers as
      the run on the specification.

    ** Files

    Shared: [Prelude] (this file: machine integers, lists indexed by [Z], the
    effect monad, memory blocks, decimal numerals, automation), [Hoare] (total
    correctness of computations: what a call returns and leaves behind, with a
    rule for each combinator), [StdMap] ([std::map], [std::multimap] as sorted
    association lists, the ordering class [KeyOrder]), [Arrays] ([std::vector]
    under indexed writes, exchanges and slices), [Printf] (%d and snprintf).

    cppBase/core
    - [IOBuffer]: iobuffer.h, the growing buffer: it is a queue of bytes.
    - [RingBuffer]: RingBuffer.h: it is a bounded FIFO queue.
    - [Packet], [PacketTheorems]: packet.h, the wire format, one
      instance of [Marshal] per overloaded operator.  What is packed is
      unpacked, for every type that packet.h marshals ([Packable]) a message that
      was cut or has bytes appended is rejected; also the position that
      PackBuffer::replace ignores.

    cppBase/utility
    - [LruCache], [LruCacheFacts]: lrucache.h with list nodes that have an
      identity, and iterators that denote them: it is a recency list; erase of a
      key that is present is undefined.
    - [StrUtil], [StrUtilFacts]: strutil.cpp.  The integer printers give
      decimal numerals, at all widths; split joins back, and diverges on an
      empty delimiter; splitLine.
    - [UrlCode], [UrlCodeFacts]: url_code.cpp: URL coding and base64 round
      trips, the URL-safe alphabet, IsUTF8.
    - [AsyncTimer]: AsyncTimer.cpp, its calls as steps on the two maps: in
      every reachable state (with positive intervals) a check runs exactly what
      is due, once per due entry, in the order of the due times, and schedules
      the timers again; it diverges on an interval that is not positive.

    muduo/base, threads
    - [Monitor]: Mutex.h and Condition.h.  Any number of threads call the
      member functions of an object with one mutex; a step of a thread is one
      access to the object; waiting threads are woken by notify, notifyAll or
      spuriously.  A proof rule for invariants, and one for liveness: all calls
      return, under any schedule.  [covered] counts that no wake-up is lost.
    - [BlockingQueue], [BoundedBlockingQueue], [CountDownLatch], [ThreadPool]:
      the classes, each with its sequential contract, of which every history is
      a run, and a liveness theorem.  stop() of a pool strands a producer that
      waits for room.

    muduo/base, logging
    - [LogStream]: a log line in a fixed buffer, with the conversions
      of numbers: it takes the texts of its items, whole or not at all.
    - [AsyncLogging], [AsyncLoggingTheorems]: the logger
      with a backend thread: nothing is reordered, each accepted line is written
      or reported as dropped within 60 steps of the backend; and what stop() loses.
    - [LogFile]: LogFile.cc and the append stream of FileUtil.cc, over a disk: the
      files that were rolled hold all lines, in order, in the order of the times in
      their names; when exactly a file is rolled, for its size or for a new day,
      and when it is flushed.

    muduo/base, values
    - [Date]: Date.cc: the Julian day number counts the days of the calendar.
    - [TimeZone], [TimeZoneTheorems]: TimeZone.cc over [Date]: UTC and local time
      are round trips, also in the hour that is repeated, and zone files are read
      back; a zone that could not be read is used all the same.

    muduo/net
    - [NetBuffer]: Buffer.h, Buffer.cc, Endian.h: it is a queue of bytes
      with room in front, inside its vector; numbers in network order are
      read back.
    - [TcpConnection], [TcpConnectionFacts]: TcpConnection.cc with Channel and
      the functor queue of EventLoop, over [NetBuffer].  The system calls'
      results are arguments of the steps.  An invariant of all reachable states:
      order and completeness of the bytes, when the channel waits for writing,
      when the write side is shut down, which callbacks were made, and that no
      assertion fails; then three ways in which the class can be used wrongly.
    - [HttpContext]: HttpRequest.h and HttpContext.cc, the parser over
      [NetBuffer].  [HttpParser]: the requests, how they are scanned line by
      line, and that the parser reads every request back, in whatever
      pieces it arrives; a bad request makes an assertion fail later.
    - [HttpServer]: HttpResponse and the message callback of HttpServer: every
      request is answered once.
    - [ProtobufCodec], [ProtobufCodecTheorems]: frames of
      messages over [NetBuffer]: what is sent is delivered, in whatever pieces it
      arrives; a bad frame is reported after the messages before it.
    - [RpcChannel], [RpcChannelTheorems]: RpcChannel.cc, two ends that call each
      other from any threads: every call is completed once, with its own answer.
    - [EventLoop]: EventLoop.cc, the loop and the queue of functors that other
      threads fill: what is queued is run, by an interleaving of atomic accesses;
      and the calls that come too early or too late.
    - [TimerQueue], [TimerQueueSteps]: TimerQueue.cc with its
      two sets over a heap of timers: in every reachable state exactly the due
      timers run, no timer is used after it is deleted; then the misuses.
    - [PollerContract]: what a loop expects of a poller (a class over a memory of
      channels).  [PollPoller], [EPollPoller]: the two pollers.  [Pollers]: on
      every history of calls they keep the contract and agree with each other, up
      to the number of channels that one epoll_wait returns.
    - [Connector], [TcpClient]: a connection that is made again after it breaks:
      no assertion fails and the client does not get stuck, for a user who calls
      connect() once and a loop whose iterations are shorter than the timers; then four ways in which it goes wrong.
    - [EventLoopThreadPool], [TcpServer], [TcpServerSteps], [TcpServerTheorems]: the server over the connections of
      [TcpConnection]: it keeps the promises that [TcpConnectionFacts] asks of
      the environment of a connection, in all interleavings of its threads.

    DSAA, sorted sets ([BinTree] holds the trees, the contract [SetContract]
    and the shared traversals)
    - [BinarySearchTree], [AvlTree] (with the balance invariant), [SplayTree],
      [Treap] (with the heap order of the priorities; the random draws are an
      argument).
    - [NodeStore]: nodes linked by pointers, as cells of a memory.
      [RedBlackTree]: insertion from the top with the four pointers that follow
      the path, over a node store; [RedBlackHeap] (the tree and the path as
      data, the calls on the cells of a place),
      [RedBlackInsert] (a step of the descent), [RedBlackObject] (insert),
      [RedBlackTheorems]: a red-black sorted set, without leaks,
      and copies that are independent.

    DSAA, priority queues (contract [HeapContract]: a sorted list with
    duplicates)
    - [LeftistHeap], [PairingHeap] (with decreaseKey), [BinomialQueue],
      [BinaryHeap] (inside its vector).

    DSAA, Sort.h (contract [SortContract]: the one sorted list of the items)
    - [InsertionSort] (insertion sorts and Shellsort), [HeapSort],
      [MergeSort], [QuickSort] (quicksort and SORT, quickSelect).

    DSAA, hash tables (contract [HashContract]: a finite set; the hash function
    is a parameter, for which nothing is assumed; Module [Primes] of [HashContract]:
    isPrime and nextPrime by trial division, correct and terminating)
    - [SeparateChaining], [QuadraticProbing] (probing ends because the table has
      a prime size and is at most half full).
    - [CuckooHashTable] (a set as long as it returns, for any functions and draws;
      when it returns, and keys for which it never does).

    DSAA, sequences and disjoint sets
    - [LinkedList]: List.h over a memory of nodes: sequences of named items, so that
      iterators stay with their items; nothing is leaked.
    - [Vector]: Vector.h over a memory of arrays, with its exceptions; push_back of an
      item of the full vector itself reads freed memory.
    - [DisjSets]: union by rank and path compression over one vector: searches end
      within 1 + log2 n calls and answer the classes of the unions.

    DSAA, together
    - [DsaaTheorems]: the search trees, the priority queues, the sorting routines
      and the hash tables, each compared with the others.

    ** Not modelled

    Left out: input and output (sockets, redis, the head of a log line), the
    creation of threads, generated code, vendored libraries, example and test
    programs, the older copy codeC++ of DSAA. What the kernel, the clock and the
    user's callbacks do is an argument of the steps. [AsyncTimer] takes a call
    under the mutex as one step; its thread function and clock are not modelled.
    Of strutil.cpp the wrappers of libc are missing. In [TcpConnection] the memory
    of the shared objects is not modelled; what a user calls from inside a
    callback counts as a later step. In [TcpServer] a loop may run the functors of
    a connection and those of the server in any order, and the start of a thread
    is one step; the destructor of TcpClient is missing. Of DSAA the example
    programs (KdTree, RadixSort, SuffixArray, WordLadder) are left out. *)
From stdpp Require Export base tactics numbers option list list_numbers gmap strings sorting relations.
From Stdlib Require Export ZArith Lia.

#[export] Set Default Goal Selector "!".
#[global] Open Scope Z_scope.

(** ** Machine integers

    An unsigned [w]-bit integer is a [Z] in [0, 2^w); the arithmetic that the
    compiler performs modulo [2^w] is written with the wrapping functions. *)

Definition wrap (w z : Z) : Z := z mod 2 ^ w.
Abbreviation u8 := (wrap 8).
Abbreviation u16 := (wrap 16).
Abbreviation u32 := (wrap 32).
Abbreviation u64 := (wrap 64).

(** Two's-complement reading of the low [w] bits. *)
Definition swrap (w z : Z) : Z := (z + 2 ^ (w - 1)) mod 2 ^ w - 2 ^ (w - 1).
Abbreviation i8 := (swrap 8).
Abbreviation i32 := (swrap 32).
Abbreviation i64 := (swrap 64).

Definition is_uint (w z : Z) : Prop := 0 <= z < 2 ^ w.
Abbreviation is_byte := (is_uint 8).

#[export] Instance is_uint_dec w z : Decision (is_uint w z).
Proof. unfold is_uint. apply _. Defined.

Create HintDb cpp.
Create Rewrite HintDb cpp.
Create Rewrite HintDb zlist.

Lemma wrap_range w z : 0 <= w → is_uint w (wrap w z).
Proof. intros. apply Z.mod_pos_bound. lia. Qed.

Lemma wrap_small w z : is_uint w z → wrap w z = z.
Proof. intros. by apply Z.mod_small. Qed.

Lemma swrap_small w z : 0 < w → - 2 ^ (w - 1) <= z < 2 ^ (w - 1) → swrap w z = z.
Proof.
  intros Hw Hz. unfold swrap.
  assert (2 ^ w = 2 * 2 ^ (w - 1)) as E.
  { replace w with (Z.succ (w - 1)) at 1 by lia. rewrite Z.pow_succ_r; lia. }
  rewrite Z.mod_small; lia.
Qed.

#[export] Hint Resolve wrap_range : cpp.
#[export] Hint Rewrite wrap_small using (first [assumption | unfold is_uint; lia]) : cpp.

(** Turn the [is_uint] facts of the context into inequalities on literals. *)
Ltac uint_bounds :=
  unfold is_uint in *;
  change (2 ^ 8) with 256 in *; change (2 ^ 16) with 65536 in *;
  change (2 ^ 31) with 2147483648 in *; change (2 ^ 32) with 4294967296 in *;
  change (2 ^ 63) with 9223372036854775808 in *;
  change (2 ^ 64) with 18446744073709551616 in *.
Ltac ulia := uint_bounds; lia.

(** ** Properties of bytes by enumeration

    A property of one (or two) bytes that a boolean function decides holds
    when the function accepts all of them. *)

Definition all_bytes : list Z := seqZ 0 256.

Lemma elem_of_all_bytes b : is_byte b → b ∈ all_bytes.
Proof. intros. apply elem_of_seqZ. ulia. Qed.

Lemma byte_enum (P : Z → bool) :
  forallb P all_bytes = true → ∀ b, is_byte b → P b = true.
Proof.
  intros H b Hb. rewrite forallb_forall in H.
  apply H, list_elem_of_In, elem_of_all_bytes, Hb.
Qed.

Lemma byte_enum2 (P : Z → Z → bool) :
  forallb (λ a, forallb (P a) all_bytes) all_bytes = true →
  ∀ a b, is_byte a → is_byte b → P a b = true.
Proof.
  intros H a b Ha Hb. pose proof (byte_enum _ H a Ha) as H'.
  by apply (byte_enum (P a) H').
Qed.

(** The same for the numbers below a bound. *)
Lemma range_enum (n : Z) (P : Z → bool) :
  forallb P (seqZ 0 n) = true → ∀ v, 0 <= v < n → P v = true.
Proof.
  intros H v Hv. rewrite forallb_forall in H. apply H, list_elem_of_In, elem_of_seqZ. lia.
Qed.

(** Prove [f b = g b] on a byte [b] by evaluation of both sides. *)
Ltac by_bytes b :=
  match goal with
  | Hb : is_byte b |- ?L = ?R =>
      let P := constr:(fun x : Z => ltac:(
        let L' := (eval pattern b in L) in let R' := (eval pattern b in R) in
        match L' with ?F _ => match R' with ?G _ => exact (bool_decide (F x = G x)) end end)) in
      apply (proj1 (bool_decide_eq_true _));
      refine (byte_enum P _ b Hb); vm_compute; reflexivity
  end.

(** ** Lists indexed by [Z]

    Sizes and positions are [size_t] in the code: [Z] in the model. *)

Definition zlen {A} (l : list A) : Z := Z.of_nat (length l).
Definition ztake {A} (n : Z) (l : list A) : list A := take (Z.to_nat n) l.
Definition zdrop {A} (n : Z) (l : list A) : list A := drop (Z.to_nat n) l.
Definition zget {A} (l : list A) (i : Z) : option A :=
  if i <? 0 then None else l !! Z.to_nat i.

Section zlist.
Context {A : Type}.
Implicit Types l k : list A.

Lemma zlen_nonneg l : 0 <= zlen l.
Proof. unfold zlen. lia. Qed.
Lemma zlen_nil : zlen (@nil A) = 0.
Proof. done. Qed.
Lemma zlen_cons x l : zlen (x :: l) = 1 + zlen l.
Proof. unfold zlen. simpl. lia. Qed.
Lemma zlen_app l k : zlen (l ++ k) = zlen l + zlen k.
Proof. unfold zlen. rewrite length_app. lia. Qed.
Lemma zlen_replicate n (x : A) : zlen (replicate n x) = Z.of_nat n.
Proof. unfold zlen. by rewrite length_replicate. Qed.
Lemma zlen_ztake n l : 0 <= n → zlen (ztake n l) = n `min` zlen l.
Proof. unfold zlen, ztake. rewrite length_take. lia. Qed.
Lemma zlen_zdrop n l : 0 <= n → zlen (zdrop n l) = 0 `max` (zlen l - n).
Proof. unfold zlen, zdrop. rewrite length_drop. lia. Qed.

Lemma ztake_0 l : ztake 0 l = [].
Proof. done. Qed.
Lemma zdrop_0 l : zdrop 0 l = l.
Proof. done. Qed.
Lemma ztake_app l k n : n = zlen l → ztake n (l ++ k) = l.
Proof. intros ->. unfold ztake, zlen. rewrite Nat2Z.id. apply take_app_length. Qed.
Lemma zdrop_app l k n : n = zlen l → zdrop n (l ++ k) = k.
Proof. intros ->. unfold zdrop, zlen. rewrite Nat2Z.id. apply drop_app_length. Qed.
Lemma ztake_all l n : zlen l <= n → ztake n l = l.
Proof. intros. apply take_ge. unfold zlen in *. lia. Qed.
Lemma zdrop_all l n : zlen l <= n → zdrop n l = [].
Proof. intros. apply drop_ge. unfold zlen in *. lia. Qed.
Lemma ztake_zdrop n l : ztake n l ++ zdrop n l = l.
Proof. apply take_drop. Qed.
Lemma zdrop_zdrop l n m : 0 <= n → 0 <= m → zdrop n (zdrop m l) = zdrop (m + n) l.
Proof. intros. unfold zdrop. rewrite drop_drop. f_equal. lia. Qed.
Lemma ztake_ztake_le n m l : 0 <= n <= m → ztake n (ztake m l) = ztake n l.
Proof. intros. unfold ztake. rewrite take_take. f_equal. lia. Qed.
Lemma ztake_zdrop_comm n m l :
  0 <= n → 0 <= m → ztake n (zdrop m l) = zdrop m (ztake (m + n) l).
Proof. intros. unfold ztake, zdrop. rewrite take_drop_commute. do 2 f_equal. lia. Qed.
Lemma zlen_insert n (x : A) l : zlen (<[n:=x]> l) = zlen l.
Proof. unfold zlen. by rewrite length_insert. Qed.
Lemma zget_lt l i x : zget l i = Some x → 0 <= i < zlen l.
Proof.
  unfold zget, zlen. case_match; [done|]. intros H1%lookup_lt_Some.
  apply Z.ltb_ge in H. lia.
Qed.
Lemma zget_is_Some l i : 0 <= i < zlen l → is_Some (zget l i).
Proof.
  unfold zget, zlen. intros. rewrite (proj2 (Z.ltb_ge i 0)) by lia.
  apply lookup_lt_is_Some. lia.
Qed.
End zlist.

Lemma zget_insert_ne {A} (l : list A) i j x :
  0 <= i → i ≠ j → zget (<[Z.to_nat i := x]> l) j = zget l j.
Proof.
  intros. unfold zget. destruct (j <? 0) eqn:?; [done|].
  rewrite list_lookup_insert_ne; [done|lia].
Qed.

Lemma zget_insert_eq {A} (l : list A) i x :
  0 <= i < zlen l → zget (<[Z.to_nat i := x]> l) i = Some x.
Proof.
  unfold zlen. intros. unfold zget. rewrite (proj2 (Z.ltb_ge _ _)) by lia.
  rewrite list_lookup_insert_eq; [done|lia].
Qed.

Lemma zget_app_l {A} (l k : list A) i x : zget l i = Some x → zget (l ++ k) i = Some x.
Proof. unfold zget. case_match; [done|]. by apply lookup_app_l_Some. Qed.

Lemma zget_snoc {A} (l : list A) x i y :
  zget (l ++ [x]) i = Some y → zget l i = Some y ∨ (i = zlen l ∧ y = x).
Proof.
  unfold zget, zlen. case_match eqn:Hi; [done|]. apply Z.ltb_ge in Hi.
  rewrite lookup_app_Some. intros [?|[? ?]]; [by left|right].
  destruct (Z.to_nat i - length l)%nat as [|k] eqn:E; simpl in *; [|done].
  simplify_eq. split; [lia|done].
Qed.

#[export] Hint Rewrite @zlen_nil @zlen_cons @zlen_app @zlen_replicate @zlen_insert
  @ztake_0 @zdrop_0 : zlist.
#[export] Hint Rewrite @zlen_ztake @zlen_zdrop using lia : zlist.
#[export] Hint Resolve zlen_nonneg : cpp.

(** [lia] with the lengths of concatenations and slices normalised. *)
Ltac zlia :=
  autorewrite with zlist in *;
  repeat match goal with
  | |- context [zlen ?l] =>
      lazymatch goal with H : 0 <= zlen l |- _ => fail | _ => pose proof (zlen_nonneg l) end
  | _ : context [zlen ?l] |- _ =>
      lazymatch goal with H : 0 <= zlen l |- _ => fail | _ => pose proof (zlen_nonneg l) end
  end; lia.

(** ** Effects

    A C++ member function is a computation on the state of its object that
    returns a value, throws an exception, fails an assertion, or runs into
    undefined behaviour (an access outside the memory it owns, a use of an
    invalidated iterator).  The state at the end of the call is kept on every
    path: an exception does not roll back what was done before it. *)

Inductive outcome (E A : Type) : Type :=
| Val (a : A)
| Exn (e : E)
| Abort
| Ub.
Arguments Val {E A} a.
Arguments Exn {E A} e.
Arguments Abort {E A}.
Arguments Ub {E A}.

#[export] Instance outcome_eq_dec `{EqDecision E, EqDecision A} : EqDecision (outcome E A).
Proof. solve_decision. Defined.

Definition act (S E A : Type) : Type := S → outcome E A * S.

Definition act_ret {S E A} (a : A) : act S E A := λ s, (Val a, s).
Definition act_bind {S E A B} (m : act S E A) (f : A → act S E B) : act S E B := λ s,
  match m s with
  | (Val a, s') => f a s'
  | (Exn e, s') => (Exn e, s')
  | (Abort, s') => (Abort, s')
  | (Ub, s') => (Ub, s')
  end.
Definition throw {S E A} (e : E) : act S E A := λ s, (Exn e, s).
Definition undefined {S E A} : act S E A := λ s, (Ub, s).
Definition get_state {S E} : act S E S := λ s, (Val s, s).
Definition put_state {S E} (s : S) : act S E () := λ _, (Val (), s).
Definition gets {S E A} (f : S → A) : act S E A := λ s, (Val (f s), s).
Definition modify {S E} (f : S → S) : act S E () := λ s, (Val (), f s).
Definition cpp_assert {S E} (b : bool) : act S E () := λ s, (if b then Val () else Abort, s).

Declare Scope cpp_scope.
Delimit Scope cpp_scope with cpp.
Notation "x <- m ;; k" := (act_bind m (λ x, k))
  (at level 100, m at next level, right associativity) : cpp_scope.
Notation "m ;;; k" := (act_bind m (λ _, k))
  (at level 100, right associativity) : cpp_scope.
Notation "'when' b 'do' m" := (if b then m else act_ret ())
  (at level 95, b at level 79, m at level 96) : cpp_scope.
Open Scope cpp_scope.

(** Run a list of actions one after the other. *)
Fixpoint act_mapM_ {S E A} (f : A → act S E ()) (l : list A) : act S E () :=
  match l with
  | [] => act_ret ()
  | x :: l => f x ;;; act_mapM_ f l
  end.

(** [returns m s a s']: called in state [s], [m] returns [a] and leaves [s']. *)
Definition returns {S E A} (m : act S E A) (s : S) (a : A) (s' : S) : Prop := m s = (Val a, s').

(** The call does not run into undefined behaviour. *)
Definition safe {S E A} (m : act S E A) (s : S) : Prop := (m s).1 ≠ Ub.

Lemma act_bind_val {S E A B} (m : act S E A) (f : A → act S E B) s a s' :
  m s = (Val a, s') → act_bind m f s = f a s'.
Proof. intros H. unfold act_bind. by rewrite H. Qed.

Lemma act_bind_assoc {S E A B C} (m : act S E A) (f : A → act S E B) (g : B → act S E C) s :
  act_bind (act_bind m f) g s = act_bind m (λ a, act_bind (f a) g) s.
Proof. unfold act_bind. by destruct (m s) as [[]?]. Qed.

Lemma act_mapM_app {S E A} (f : A → act S E ()) l k s :
  act_mapM_ f (l ++ k) s = (act_mapM_ f l ;;; act_mapM_ f k) s.
Proof.
  revert s. induction l as [|x l IH]; intros s; [done|].
  simpl. unfold act_bind. destruct (f x s) as [[]?]; [|done..].
  rewrite IH. done.
Qed.

(** Step through a bind whose first computation evaluates. *)
Ltac act_step := erewrite act_bind_val; [|first [reflexivity | eassumption | eauto with cpp]].

(** ** Memory blocks

    A block obtained from [malloc] is the list of its cells; a cell is [None]
    until a byte is stored in it.  Reads and writes outside of the block are
    undefined behaviour ([None] results). *)

Definition mem : Type := list (option Z).

Definition mem_alloc (n : Z) : mem := replicate (Z.to_nat n) None.

Definition mem_write (m : mem) (off : Z) (bs : mem) : option mem :=
  if bool_decide (0 <= off ∧ off + zlen bs <= zlen m)
  then Some (ztake off m ++ bs ++ zdrop (off + zlen bs) m)
  else None.

Definition mem_slice (m : mem) (off n : Z) : option mem :=
  if bool_decide (0 <= off ∧ 0 <= n ∧ off + n <= zlen m)
  then Some (ztake n (zdrop off m)) else None.

(** [realloc] keeps the old cells and leaves the new ones unset. *)
Definition mem_realloc (m : mem) (n : Z) : mem :=
  ztake n m ++ mem_alloc (n - zlen m).

Lemma zlen_mem_alloc n : 0 <= n → zlen (mem_alloc n) = n.
Proof. intros. unfold mem_alloc. rewrite zlen_replicate. lia. Qed.

Lemma zlen_mem_realloc m n : 0 <= n → zlen (mem_realloc m n) = n.
Proof.
  intros. unfold mem_realloc, mem_alloc. pose proof (zlen_nonneg m).
  rewrite zlen_app, zlen_ztake, zlen_replicate by lia. lia.
Qed.

Lemma mem_realloc_take m n k : 0 <= k <= n → k <= zlen m → ztake k (mem_realloc m n) = ztake k m.
Proof.
  intros. unfold mem_realloc, ztake. rewrite take_app_le.
  - rewrite take_take. f_equal. lia.
  - rewrite length_take. unfold zlen in *. lia.
Qed.

Lemma mem_write_spec m off bs :
  0 <= off → off + zlen bs <= zlen m →
  ∃ m', mem_write m off bs = Some m' ∧ zlen m' = zlen m ∧
        ztake (off + zlen bs) m' = ztake off m ++ bs ∧
        (∀ k, k <= off → ztake k m' = ztake k m) ∧
        zdrop (off + zlen bs) m' = zdrop (off + zlen bs) m.
Proof.
  intros H1 H2. unfold mem_write. rewrite bool_decide_true by done. eexists. split; [done|].
  pose proof (zlen_nonneg bs).
  assert (zlen (ztake off m ++ bs) = off + zlen bs) as E by (autorewrite with zlist; lia).
  rewrite (assoc_L (++)). split_and!.
  - rewrite zlen_app, E, zlen_zdrop by lia. lia.
  - by rewrite ztake_app.
  - intros k Hk. unfold ztake. rewrite take_app_le.
    + rewrite take_app_le, take_take by (rewrite length_take; unfold zlen in *; lia).
      f_equal. lia.
    + rewrite length_app, length_take. unfold zlen in *. lia.
  - by rewrite zdrop_app.
Qed.

Lemma mem_write_oob m off bs : zlen m < off + zlen bs → mem_write m off bs = None.
Proof. intros. unfold mem_write. rewrite bool_decide_false; [done|lia]. Qed.

(** ** Integers as bytes, least significant first *)

Fixpoint le_bytes (n : nat) (w : Z) : list Z :=
  match n with
  | O => []
  | S n => w mod 256 :: le_bytes n (w / 256)
  end.

Fixpoint le_val (bs : list Z) : Z :=
  match bs with
  | [] => 0
  | b :: bs => b + 256 * le_val bs
  end.

Lemma length_le_bytes n w : length (le_bytes n w) = n.
Proof. revert w. induction n; intros; simpl; auto. Qed.

Lemma zlen_le_bytes n w : zlen (le_bytes n w) = Z.of_nat n.
Proof. unfold zlen. by rewrite length_le_bytes. Qed.

Lemma le_bytes_bytes n w : Forall is_byte (le_bytes n w).
Proof.
  revert w. induction n; intros; simpl; constructor; [|done].
  apply Z.mod_pos_bound. lia.
Qed.

Lemma le_val_bytes n w : is_uint (8 * Z.of_nat n) w → le_val (le_bytes n w) = w.
Proof.
  revert w. induction n as [|n IH]; intros w Hw; unfold is_uint in *.
  - simpl in *. lia.
  - simpl. rewrite IH.
    + pose proof (Z.div_mod w 256). lia.
    + replace (8 * Z.of_nat (S n)) with (8 + 8 * Z.of_nat n) in Hw by lia.
      rewrite Z.pow_add_r in Hw by lia. change (2 ^ 8) with 256 in Hw.
      split; [apply Z.div_pos; lia | apply Z.div_lt_upper_bound; lia].
Qed.

Lemma le_val_range bs : Forall is_byte bs → is_uint (8 * zlen bs) (le_val bs).
Proof.
  induction 1 as [|b bs Hb _ IH]; unfold is_uint in *; [done|].
  rewrite zlen_cons. replace (8 * (1 + zlen bs)) with (8 + 8 * zlen bs) by lia.
  pose proof (zlen_nonneg bs).
  rewrite Z.pow_add_r by lia. change (2 ^ 8) with 256 in *. simpl. lia.
Qed.

Lemma le_bytes_val bs : Forall is_byte bs → le_bytes (length bs) (le_val bs) = bs.
Proof.
  induction 1 as [|b bs Hb _ IH]; simpl; [done|].
  rewrite (Z.mul_comm 256), Z.mod_add, Z.div_add by lia.
  rewrite Z.mod_small, Z.div_small by ulia. by rewrite Z.add_0_l, IH.
Qed.

#[export] Hint Rewrite zlen_le_bytes : zlist.
#[global] Arguments le_bytes : simpl never.
#[global] Arguments le_val : simpl never.
#[global] Arguments zlen : simpl never.
#[global] Arguments wrap : simpl never.

(** ** Text: character codes of a string literal *)

Fixpoint bytes_of (s : string) : list Z :=
  match s with
  | EmptyString => []
  | String a s => Z.of_N (Ascii.N_of_ascii a) :: bytes_of s
  end.

(** ** Decimal numerals *)

Definition is_digit (c : Z) : Prop := 48 <= c <= 57.

(** The number that a string of decimal digits denotes. *)
Definition dec_val (s : list Z) : Z := foldl (λ a c, a * 10 + (c - 48)) 0 s.

(** [s] is the decimal numeral of [n], without leading zeros. *)
Record is_decimal (n : Z) (s : list Z) : Prop := {
  dec_digits : Forall is_digit s;
  dec_value : dec_val s = n;
  dec_lead : ∃ c t, s = c :: t ∧ (c = 48 → t = []);
}.

Lemma dec_val_acc a s : foldl (λ a c, a * 10 + (c - 48)) a s = a * 10 ^ zlen s + dec_val s.
Proof.
  unfold dec_val. revert a. induction s as [|c s IH]; intros a; cbn [foldl].
  - rewrite zlen_nil. lia.
  - rewrite IH, (IH (0 * 10 + (c - 48))), zlen_cons, Z.pow_add_r by auto with cpp zarith. lia.
Qed.

Lemma dec_val_app s t : dec_val (s ++ t) = dec_val s * 10 ^ zlen t + dec_val t.
Proof. unfold dec_val at 1. rewrite foldl_app. apply dec_val_acc. Qed.

(** A numeral followed by [k] more digits. *)
Lemma is_decimal_app n m k s t :
  is_decimal n s → 0 < n → Forall is_digit t → zlen t = k → dec_val t = m →
  is_decimal (n * 10 ^ k + m) (s ++ t).
Proof.
  intros [Hd Hv (c & s' & -> & Hc)] Hn Ht <- <-. split.
  - by apply Forall_app.
  - by rewrite dec_val_app, Hv.
  - exists c, (s' ++ t). split; [done|]. intros ->. rewrite (Hc eq_refl) in Hv.
    unfold dec_val in Hv. simpl in Hv. lia.
Qed.
