(* ===== verification/IOBuffer.v ===== *)
(** * IOBuffer: the growing read/write buffer of cppBase/core/iobuffer.h

    [iobuffer] is the object ([buf], [cap], [readpos], [writepos]); one
    definition per member function.  [ByteQueue] is what the class promises:
    a queue of bytes.  The refinement theorem runs any sequence of calls on
    both and finds the same contents, as long as the sizes stay below 2^64. *)
From S2P Require Import Prelude.

Module IOBuffer.

Record iobuffer := mk_iobuffer {
  buf : mem;
  cap : Z;
  readpos : Z;
  writepos : Z;
}.

(** The class throws nothing: the exception type is empty. *)
Definition io (A : Type) : Type := act iobuffer Empty_set A.

(** [IOBuffer(size_t n = 256)]; [malloc] is taken to succeed. *)
Definition construct (n : Z) : iobuffer :=
  {| buf := mem_alloc n; cap := n; readpos := 0; writepos := 0 |}.

Definition size (b : iobuffer) : Z := u64 (writepos b - readpos b).

(** [data()] with the length [size()]: the bytes a reader may look at. *)
Definition data (b : iobuffer) : option mem := mem_slice (buf b) (readpos b) (size b).

Definition has_read (s : Z) : io () :=
  modify (λ b, {| buf := buf b; cap := cap b; readpos := u64 (readpos b + s);
                  writepos := writepos b |}) ;;;
  b <- get_state ;;
  cpp_assert (readpos b <=? writepos b).

Definition write_size (b : iobuffer) : Z := u64 (cap b - writepos b).

(** The caller stores [bs] at [write_data()], inside [write_size()]. *)
Definition write_data (bs : list Z) : io () :=
  b <- get_state ;;
  match mem_write (buf b) (writepos b) (Some <$> bs) with
  | Some m => put_state {| buf := m; cap := cap b; readpos := readpos b; writepos := writepos b |}
  | None => undefined
  end.

Definition has_write (s : Z) : io () :=
  modify (λ b, {| buf := buf b; cap := cap b; readpos := readpos b;
                  writepos := u64 (writepos b + s) |}) ;;;
  b <- get_state ;;
  cpp_assert (writepos b <=? cap b).

(** [grow]: move the unread bytes to the front, then reallocate if needed. *)
Definition grow_shift : io () :=
  b <- get_state ;;
  when 0 <? readpos b do
    ((when readpos b <? writepos b do
       match mem_slice (buf b) (readpos b) (writepos b - readpos b) with
       | Some bs =>
           match mem_write (buf b) 0 bs with
           | Some m => put_state {| buf := m; cap := cap b; readpos := readpos b;
                                    writepos := writepos b |}
           | None => undefined
           end
       | None => undefined
       end) ;;;
     modify (λ b, {| buf := buf b; cap := cap b; readpos := 0;
                     writepos := u64 (writepos b - readpos b) |})).

Definition grow_realloc (n : Z) : io () :=
  b <- get_state ;;
  when cap b <? u64 (writepos b + n) do
    (let ns := Z.max (u64 (writepos b + n)) (u64 (cap b * 2)) in
     put_state {| buf := mem_realloc (buf b) ns; cap := ns; readpos := readpos b;
                  writepos := writepos b |}).

Definition grow (n : Z) : io () := grow_shift ;;; grow_realloc n.

Definition append (bs : list Z) : io () :=
  b <- get_state ;;
  (when cap b <? u64 (writepos b + zlen bs) do grow (zlen bs)) ;;;
  b <- get_state ;;
  match mem_write (buf b) (writepos b) (Some <$> bs) with
  | Some m => put_state {| buf := m; cap := cap b; readpos := readpos b;
                           writepos := u64 (writepos b + zlen bs) |}
  | None => undefined
  end.

Definition clear : io () :=
  modify (λ b, {| buf := buf b; cap := cap b; readpos := 0; writepos := 0 |}).

(** ** Invariant and abstraction *)

Record wf (b : iobuffer) : Prop := {
  wf_cap : cap b = zlen (buf b);
  wf_pos : 0 <= readpos b <= writepos b;
  wf_end : writepos b <= cap b;
  wf_max : cap b < 2 ^ 64;
}.

(** The cells between [readpos] and [writepos]. *)
Definition contents (b : iobuffer) : mem := zdrop (readpos b) (ztake (writepos b) (buf b)).

(** The unread part holds exactly the bytes [q], all of them stored. *)
Definition holds (b : iobuffer) (q : list Z) : Prop := wf b ∧ contents b = Some <$> q.

Lemma construct_holds n : 0 <= n < 2 ^ 64 → holds (construct n) [].
Proof.
  intros. split; [constructor; simpl; rewrite ?zlen_mem_alloc; lia|].
  unfold contents. simpl. by rewrite ztake_0.
Qed.

Lemma holds_size b q : holds b q → writepos b - readpos b = zlen q.
Proof.
  intros [[] E]. apply (f_equal zlen) in E. unfold contents in E.
  rewrite zlen_zdrop, zlen_ztake in E by lia. unfold zlen in *. rewrite length_fmap in E. lia.
Qed.

Lemma size_spec b q : holds b q → size b = zlen q.
Proof.
  intros H. pose proof (holds_size b q H). destruct H as [[] _]. unfold size.
  rewrite wrap_small; ulia.
Qed.

Lemma data_spec b q : holds b q → data b = Some (Some <$> q).
Proof.
  intros H. pose proof (holds_size b q H). unfold data. rewrite (size_spec b q H).
  destruct H as [[] E]. pose proof (zlen_nonneg q). unfold mem_slice.
  rewrite bool_decide_true by lia. f_equal. rewrite ztake_zdrop_comm by lia.
  rewrite <- E. unfold contents. do 2 f_equal. lia.
Qed.

Lemma grow_shift_spec b q :
  holds b q →
  ∃ b', returns grow_shift b () b' ∧ holds b' q ∧ readpos b' = 0 ∧ writepos b' <= writepos b.
Proof.
  intros H. pose proof (holds_size b q H) as Hs. pose proof (zlen_nonneg q).
  destruct H as [[Hc Hp He Hm] E].
  unfold returns, grow_shift. act_step. destruct (0 <? readpos b) eqn:Hr.
  2: { eexists. split; [reflexivity|]. unfold holds. split_and!; [done|done|lia|lia]. }
  destruct (readpos b <? writepos b) eqn:Hw.
  - unfold mem_slice. rewrite bool_decide_true by lia.
    assert (ztake (writepos b - readpos b) (zdrop (readpos b) (buf b)) = Some <$> q) as E'.
    { rewrite <- E, ztake_zdrop_comm by lia. unfold contents. do 2 f_equal. lia. }
    rewrite E'. assert (zlen (Some <$> q) = zlen q) as El by (unfold zlen; by rewrite length_fmap).
    destruct (mem_write_spec (buf b) 0 (Some <$> q)) as (m & -> & Hl & Ht & _ & _); [lia..|].
    eexists. split; [reflexivity|]. simpl.
    assert (u64 (writepos b - readpos b) = zlen q) as Eu by (rewrite wrap_small; ulia).
    rewrite Eu. split_and!; [split; [constructor; simpl; lia|]|done|lia].
    unfold contents. simpl. rewrite zdrop_0. rewrite Z.add_0_l, El in Ht. done.
  - eexists. split; [reflexivity|]. simpl.
    assert (q = []) as -> by (destruct q; [done|unfold zlen in *; simpl in *; lia]).
    replace (writepos b - readpos b) with 0 by (unfold zlen in *; simpl in *; lia).
    change (u64 0) with 0.
    split_and!; [split; [constructor; simpl; lia|]|done|lia].
    unfold contents. simpl. by rewrite ztake_0.
Qed.

Lemma grow_realloc_spec b q n :
  holds b q → readpos b = 0 → 0 <= n → zlen q + n < 2 ^ 64 →
  ∃ b', returns (grow_realloc n) b () b' ∧ holds b' q ∧ writepos b' + n <= cap b' ∧
        writepos b' <= writepos b.
Proof.
  intros H Hr Hn Hm. pose proof (holds_size b q H) as Hs. pose proof (zlen_nonneg q).
  pose proof H as [[Hc Hp He Hx] E].
  assert (u64 (writepos b + n) = writepos b + n) as Eu by (rewrite wrap_small; ulia).
  unfold returns, grow_realloc. act_step. rewrite Eu. destruct (cap b <? writepos b + n) eqn:Hlt.
  2: { eexists. split; [reflexivity|]. split_and!; [done|lia|lia]. }
  eexists. split; [reflexivity|]. simpl.
  pose proof (wrap_range 64 (cap b * 2)) as Hb.
  split_and!; [split; [constructor; simpl; rewrite ?zlen_mem_realloc; ulia|]|lia|lia].
  unfold contents in *. simpl. rewrite mem_realloc_take by ulia. done.
Qed.

Lemma grow_spec b q n :
  holds b q → 0 <= n → zlen q + n < 2 ^ 64 →
  ∃ b', returns (grow n) b () b' ∧ holds b' q ∧ writepos b' + n <= cap b' ∧
        writepos b' <= writepos b.
Proof.
  intros H Hn Hm. destruct (grow_shift_spec b q H) as (b1 & R1 & H1 & E1 & W1).
  destruct (grow_realloc_spec b1 q n H1 E1 Hn Hm) as (b2 & R2 & H2 & E2 & W2).
  exists b2. split_and!; [|done|done|lia]. unfold returns, grow in *. by rewrite (act_bind_val _ _ _ _ _ R1).
Qed.

Lemma write_at_end b q bs :
  holds b q → writepos b + zlen bs <= cap b →
  ∃ m, mem_write (buf b) (writepos b) (Some <$> bs) = Some m ∧
       holds {| buf := m; cap := cap b; readpos := readpos b;
                writepos := writepos b + zlen bs |} (q ++ bs).
Proof.
  intros H Hle. pose proof (holds_size b q H) as Hs. destruct H as [[Hc Hp He Hx] E].
  assert (zlen (Some <$> bs) = zlen bs) as El by (unfold zlen; by rewrite length_fmap).
  pose proof (zlen_nonneg bs).
  destruct (mem_write_spec (buf b) (writepos b) (Some <$> bs)) as (m & -> & Hl & Ht & _ & _); [lia..|].
  exists m. split; [done|]. split; [constructor; simpl; lia|].
  unfold contents in *. simpl. rewrite El in Ht. rewrite Ht, fmap_app, <- E.
  unfold zdrop. rewrite drop_app_le; [done|].
  unfold ztake. rewrite length_take. unfold zlen in *. lia.
Qed.

Lemma append_spec b q bs :
  holds b q → zlen q + zlen bs < 2 ^ 64 → writepos b + zlen bs < 2 ^ 64 →
  ∃ b', returns (append bs) b () b' ∧ holds b' (q ++ bs) ∧
        writepos b' <= writepos b + zlen bs.
Proof.
  intros H Hm Hm'. pose proof (zlen_nonneg bs). pose proof (zlen_nonneg q).
  pose proof H as [[Hc Hp He Hx] E].
  assert (u64 (writepos b + zlen bs) = writepos b + zlen bs) as Eu by (rewrite wrap_small; ulia).
  unfold returns, append. act_step. rewrite Eu.
  assert (∃ b1, (when cap b <? writepos b + zlen bs do grow (zlen bs)) b = (Val (), b1) ∧
          holds b1 q ∧ writepos b1 + zlen bs <= cap b1 ∧ writepos b1 <= writepos b)
    as (b1 & R1 & Hb1 & E1 & W1).
  { destruct (cap b <? writepos b + zlen bs) eqn:Hlt.
    - apply grow_spec; [done|lia..].
    - exists b. split_and!; [done|done|lia|lia]. }
  rewrite (act_bind_val _ _ _ _ _ R1). act_step.
  destruct (write_at_end b1 q bs Hb1 E1) as (m & -> & H2).
  eexists. split; [reflexivity|]. simpl.
  rewrite wrap_small by (destruct Hb1 as [[] _]; ulia). split; [done|lia].
Qed.

Lemma has_read_spec b q n :
  holds b q → 0 <= n <= zlen q →
  ∃ b', returns (has_read n) b () b' ∧ holds b' (zdrop n q) ∧ writepos b' = writepos b.
Proof.
  intros H Hn. pose proof (holds_size b q H) as Hs. destruct H as [[Hc Hp He Hx] E].
  unfold returns, has_read. act_step. act_step. simpl. unfold cpp_assert.
  assert (u64 (readpos b + n) = readpos b + n) as -> by (rewrite wrap_small; ulia).
  rewrite (proj2 (Z.leb_le _ _)) by lia. eexists. split; [reflexivity|].
  split; [|done]. split; [constructor; simpl; lia|]. unfold contents in *. simpl.
  rewrite <- zdrop_zdrop, E by lia. unfold zdrop. by rewrite fmap_drop.
Qed.

Lemma write_data_spec b q bs :
  holds b q → writepos b + zlen bs <= cap b →
  ∃ b', returns (write_data bs ;;; has_write (zlen bs)) b () b' ∧ holds b' (q ++ bs) ∧
        writepos b' = writepos b + zlen bs.
Proof.
  intros H Hle. destruct (write_at_end b q bs H Hle) as (m & E & H').
  pose proof (zlen_nonneg bs). destruct H as [[Hc Hp He Hx] _].
  eexists. split; [|split; [exact H'|done]].
  unfold returns, write_data, has_write. rewrite act_bind_assoc. act_step. rewrite E. do 3 act_step.
  simpl. unfold cpp_assert. rewrite wrap_small by ulia. by rewrite (proj2 (Z.leb_le _ _)) by lia.
Qed.

(** ** The abstract specification and the refinement *)

Inductive call : Type :=
| CallAppend (bs : list Z)
| CallHasRead (n : Z)
| CallGrow (n : Z)
| CallReceive (n : Z) (bs : list Z)
| CallClear.

(** How a reader of a socket uses the free space: it asks for room for [n]
    bytes, [bs] are stored there, and [has_write] takes them in. *)
Definition receive (n : Z) (bs : list Z) : io () :=
  grow n ;;;
  b <- get_state ;;
  cpp_assert (zlen bs <=? write_size b) ;;;
  write_data bs ;;;
  has_write (zlen bs).

Definition run_call (c : call) : io () :=
  match c with
  | CallAppend bs => append bs
  | CallHasRead n => has_read n
  | CallGrow n => grow n
  | CallReceive n bs => receive n bs
  | CallClear => clear
  end.

End IOBuffer.

Module ByteQueue.

(** What a call does to the queue of unread bytes; [None] when its
    precondition fails (reading more than there is). *)
Definition step (c : IOBuffer.call) (q : list Z) : option (list Z) :=
  match c with
  | IOBuffer.CallAppend bs => Some (q ++ bs)
  | IOBuffer.CallHasRead n => if bool_decide (0 <= n <= zlen q) then Some (zdrop n q) else None
  | IOBuffer.CallGrow n => if bool_decide (0 <= n) then Some q else None
  | IOBuffer.CallReceive n bs => if bool_decide (zlen bs <= n) then Some (q ++ bs) else None
  | IOBuffer.CallClear => Some []
  end.

Fixpoint steps (cs : list IOBuffer.call) (q : list Z) : option (list Z) :=
  match cs with
  | [] => Some q
  | c :: cs => match step c q with Some q' => steps cs q' | None => None end
  end.

(** Bytes that a call asks room for. *)
Definition demand (c : IOBuffer.call) : Z :=
  match c with
  | IOBuffer.CallAppend bs => zlen bs
  | IOBuffer.CallGrow n => Z.max 0 n
  | IOBuffer.CallReceive n _ => Z.max 0 n
  | _ => 0
  end.

Fixpoint total_demand (cs : list IOBuffer.call) : Z :=
  match cs with
  | [] => 0
  | c :: cs => demand c + total_demand cs
  end.

End ByteQueue.

(** ** Refinement *)

Module IOBufferRefinement.
Import IOBuffer.

Lemma run_call_refines c b q q' :
  holds b q → writepos b + ByteQueue.demand c < 2 ^ 64 → ByteQueue.step c q = Some q' →
  ∃ b', returns (run_call c) b () b' ∧ holds b' q' ∧
        writepos b' <= writepos b + ByteQueue.demand c.
Proof.
  intros H Hd Hs. pose proof (holds_size b q H) as Hq. pose proof (wf_pos b (proj1 H)).
  destruct c as [bs|n|n|n bs|]; simpl in *.
  - simplify_eq. apply append_spec; [done|lia..].
  - case_bool_decide; simplify_eq. destruct (has_read_spec b q n) as (b' & ? & ? & ?); [done..|].
    exists b'. split_and!; [done|done|lia].
  - case_bool_decide; simplify_eq.
    destruct (grow_spec b q' n) as (b' & ? & ? & ? & ?); [done|lia|lia|].
    exists b'. split_and!; [done|done|lia].
  - case_bool_decide; simplify_eq. pose proof (zlen_nonneg bs).
    destruct (grow_spec b q n) as (b1 & R1 & Hb1 & E1 & W1); [done|lia|lia|].
    destruct (write_data_spec b1 q bs Hb1) as (b2 & R2 & Hb2 & W2); [lia|].
    exists b2. split_and!; [|done|lia]. unfold returns, receive in *.
    rewrite (act_bind_val _ _ _ _ _ R1). act_step. unfold write_size.
    pose proof Hb1 as [[] _]. rewrite wrap_small by ulia.
    by rewrite (proj2 (Z.leb_le _ _)) by lia.
  - simplify_eq. eexists. split; [reflexivity|]. simpl. split; [|lia].
    destruct H as [[] _]. split; [constructor; simpl; lia|done].
Qed.

Lemma run_calls_refine cs b q q' :
  holds b q → writepos b + ByteQueue.total_demand cs < 2 ^ 64 →
  ByteQueue.steps cs q = Some q' →
  ∃ b', returns (act_mapM_ run_call cs) b () b' ∧ holds b' q'.
Proof.
  revert b q. induction cs as [|c cs IH]; intros b q H Hd Hs; simpl in *.
  - simplify_eq. by exists b.
  - destruct (ByteQueue.step c q) as [q1|] eqn:Hc; [|done].
    assert (0 <= ByteQueue.total_demand cs).
    { clear. induction cs as [|[] cs IH]; simpl; zlia. }
    destruct (run_call_refines c b q q1 H) as (b1 & R & H1 & W); [lia|done|].
    destruct (IH b1 q1 H1) as (b2 & R2 & H2); [lia|done|].
    exists b2. split; [|done]. unfold returns in *. by rewrite (act_bind_val _ _ _ _ _ R).
Qed.



End IOBufferRefinement.
