(* ===== verification/RingBuffer.v ===== *)
(** * RingBuffer: the bounded queue of cppBase/core/RingBuffer.h

    A ring of [m_nSize + 1] slots, one of which stays free so that the two
    indices tell a full ring from an empty one.  [Fifo] is the promise: a
    queue of at most [m_nSize] pointers.  The name and the log line written
    when the queue is full are not modelled. *)
From S2P Require Import Prelude.

Module RingBuffer.

Section ring.
Context {V : Type}.

Record ring := mk_ring {
  m_nRIndex : Z;
  m_nWIndex : Z;
  m_nSize : Z;
  m_arSlots : option (list (option V));   (** [None]: the null pointer *)
}.

(** A ring method throws nothing. *)
Definition rb (A : Type) : Type := act ring Empty_set A.

Definition construct (size : Z) : ring :=
  {| m_nRIndex := 0; m_nWIndex := 0; m_nSize := size; m_arSlots := None |}.

(** [new void*[m_nSize + 1]], the sum in 32 bits; allocation succeeds. *)
Definition initialize : rb bool :=
  modify (λ r, {| m_nRIndex := m_nRIndex r; m_nWIndex := m_nWIndex r; m_nSize := m_nSize r;
                  m_arSlots := Some (replicate (Z.to_nat (u32 (m_nSize r + 1))) None) |}) ;;;
  act_ret true.

Definition getWritableSlotCount (r : ring) : Z :=
  if m_nWIndex r <? m_nRIndex r
  then u32 (m_nRIndex r - m_nWIndex r - 1)
  else u32 (m_nSize r - m_nWIndex r + m_nRIndex r).

Definition getReadableSlotCount (r : ring) : Z := u32 (m_nSize r - getWritableSlotCount r).

Definition isWritable (r : ring) : bool := 0 <? getWritableSlotCount r.
Definition isReadable (r : ring) : bool := 0 <? getReadableSlotCount r.

Definition next (r : ring) (i : Z) : Z := if i <? m_nSize r then i + 1 else 0.

Definition write (p : V) : rb bool :=
  r <- get_state ;;
  if isWritable r then
    match m_arSlots r with
    | Some slots =>
        if bool_decide (0 <= m_nWIndex r < zlen slots) then
          put_state {| m_nRIndex := m_nRIndex r; m_nWIndex := next r (m_nWIndex r);
                       m_nSize := m_nSize r;
                       m_arSlots := Some (<[Z.to_nat (m_nWIndex r) := Some p]> slots) |} ;;;
          act_ret true
        else undefined
    | None => undefined
    end
  else act_ret false.

(** The slot at the read index; an unset slot or no array is undefined. *)
Definition slot (r : ring) : rb V :=
  match m_arSlots r with
  | Some slots =>
      match zget slots (m_nRIndex r) with
      | Some (Some p) => act_ret p
      | _ => undefined
      end
  | None => undefined
  end.

(** [peek(&p)] and [read(&p)]: [Some p] is the result [true] with [*p] set. *)
Definition peek : rb (option V) :=
  r <- get_state ;;
  if isReadable r then (p <- slot r ;; act_ret (Some p)) else act_ret None.

Definition read : rb (option V) :=
  r <- get_state ;;
  if isReadable r then
    p <- slot r ;;
    put_state {| m_nRIndex := next r (m_nRIndex r); m_nWIndex := m_nWIndex r;
                 m_nSize := m_nSize r; m_arSlots := m_arSlots r |} ;;;
    act_ret (Some p)
  else act_ret None.

End ring.
Arguments ring : clear implicits.
Arguments rb : clear implicits.
End RingBuffer.

Module Fifo.
Section fifo.
Context {V : Type}.
Implicit Types q : list V.

Inductive call : Type := CallWrite (p : V) | CallPeek | CallRead.
Inductive reply : Type := Wrote (ok : bool) | Got (p : option V).

(** The specification: a queue bounded by [n]. *)
Definition step (n : Z) (c : call) (q : list V) : reply * list V :=
  match c with
  | CallWrite p => if zlen q <? n then (Wrote true, q ++ [p]) else (Wrote false, q)
  | CallPeek => (Got (head q), q)
  | CallRead => (Got (head q), tail q)
  end.

Fixpoint steps (n : Z) (cs : list call) (q : list V) : list reply * list V :=
  match cs with
  | [] => ([], q)
  | c :: cs =>
      let '(r, q1) := step n c q in
      let '(rs, q2) := steps n cs q1 in
      (r :: rs, q2)
  end.
End fifo.
Arguments call : clear implicits.
Arguments reply : clear implicits.
End Fifo.

Module RingBufferRefinement.
Import RingBuffer.
Section proofs.
Context {V : Type}.
Implicit Types (r : ring V) (q : list V).

Definition run_call (c : Fifo.call V) : rb V (Fifo.reply V) :=
  match c with
  | Fifo.CallWrite p => ok <- write p ;; act_ret (Fifo.Wrote ok)
  | Fifo.CallPeek => p <- peek ;; act_ret (Fifo.Got p)
  | Fifo.CallRead => p <- read ;; act_ret (Fifo.Got p)
  end.

Fixpoint run_calls (cs : list (Fifo.call V)) : rb V (list (Fifo.reply V)) :=
  match cs with
  | [] => act_ret []
  | c :: cs => x <- run_call c ;; xs <- run_calls cs ;; act_ret (x :: xs)
  end.

(** Slot [i] places after the read index. *)
Definition place (r : ring V) (i : Z) : Z :=
  let j := m_nRIndex r + i in
  if j <=? m_nSize r then j else j - (m_nSize r + 1).

(** The ring [r] of capacity [n] stores the queue [q]. *)
Record stores (n : Z) (r : ring V) (q : list V) : Prop := {
  st_size : m_nSize r = n;
  st_n : 0 <= n < 2 ^ 32 - 1;
  st_r : 0 <= m_nRIndex r <= n;
  st_len : zlen q <= n;
  st_w : m_nWIndex r = place r (zlen q);
  st_slots : ∃ slots, m_arSlots r = Some slots ∧ zlen slots = n + 1 ∧
     ∀ i p, zget q i = Some p → zget slots (place r i) = Some (Some p);
}.

Lemma place_range n r q i : stores n r q → 0 <= i <= n → 0 <= place r i <= n.
Proof. intros [] Hi. unfold place. destruct (_ <=? _) eqn:?; lia. Qed.

Lemma place_inj n r q i j :
  stores n r q → 0 <= i <= n → 0 <= j <= n → place r i = place r j → i = j.
Proof.
  intros [] Hi Hj. unfold place.
  destruct (_ <=? _) eqn:?, (m_nRIndex r + j <=? _) eqn:?; lia.
Qed.

Lemma writable_count n r q : stores n r q → getWritableSlotCount r = n - zlen q.
Proof.
  intros []. pose proof (zlen_nonneg q). unfold getWritableSlotCount. rewrite st_w0. unfold place.
  destruct (m_nRIndex r + zlen q <=? m_nSize r) eqn:?; destruct (_ <? m_nRIndex r) eqn:?;
    rewrite wrap_small; ulia.
Qed.

Lemma readable_count n r q : stores n r q → getReadableSlotCount r = zlen q.
Proof.
  intros H. unfold getReadableSlotCount. rewrite (writable_count n r q H). destruct H.
  pose proof (zlen_nonneg q). rewrite wrap_small; ulia.
Qed.

Lemma next_place n r q i :
  stores n r q → 0 <= i < n → next r (place r i) = place r (i + 1).
Proof.
  intros [] Hi. unfold next, place.
  destruct (m_nRIndex r + i <=? m_nSize r) eqn:?;
  destruct (m_nRIndex r + (i + 1) <=? m_nSize r) eqn:?; case_match; lia.
Qed.

Lemma initialize_stores n :
  0 <= n < 2 ^ 32 - 1 →
  ∃ r, returns (initialize (V:=V)) (construct n) true r ∧ stores n r [].
Proof.
  intros Hn. eexists. split; [reflexivity|]. simpl.
  constructor; simpl; [lia..| | |].
  - rewrite zlen_nil. lia.
  - unfold place. simpl. change (zlen []) with 0. case_match; lia.
  - eexists. split_and!; [done| |].
    + rewrite zlen_replicate, wrap_small by ulia. lia.
    + intros i p. unfold zget. by case_match.
Qed.

Lemma write_refines n r q p :
  stores n r q →
  ∃ r', returns (write p) r (zlen q <? n) r' ∧
        stores n r' (if zlen q <? n then q ++ [p] else q).
Proof.
  intros H. unfold returns, write. act_step. unfold isWritable. rewrite (writable_count n r q H).
  destruct (zlen q <? n) eqn:Hq; cycle 1.
  { rewrite (proj2 (Z.ltb_ge _ _)) by lia. eexists. split; [reflexivity|done]. }
  rewrite (proj2 (Z.ltb_lt _ _)) by lia. apply Z.ltb_lt in Hq.
  pose proof (zlen_nonneg q). pose proof (place_range n r q (zlen q) H) as Hp.
  pose proof (next_place n r q (zlen q) H) as Hnext.
  pose proof (place_inj n r q) as Hinj.
  destruct (st_slots _ _ _ H) as (slots & Es & Hl & Hslots). rewrite Es.
  destruct H as [H1 H2 H3 H4 Hw H5].
  rewrite bool_decide_true by lia. eexists. split; [reflexivity|].
  constructor; simpl; [done|done|done| | |].
  - rewrite zlen_app. simpl. zlia.
  - rewrite zlen_app, Hw, Hnext by lia. done.
  - eexists. split_and!; [done|by rewrite zlen_insert|]. intros i x Hx.
    change (place _ i) with (place r i).
    rewrite Hw. apply zget_snoc in Hx as [Hx|[-> ->]].
    + pose proof (zget_lt _ _ _ Hx). rewrite zget_insert_ne; [by apply Hslots|lia|].
      intros E. apply Hinj in E; [lia|constructor; eauto|lia..].
    + apply zget_insert_eq. lia.
Qed.

Lemma slot_head n r x q : stores n r (x :: q) → slot r r = (Val x, r).
Proof.
  intros [H1 H2 H3 H4 Hw (slots & Es & Hl & Hslots)]. unfold slot. rewrite Es.
  specialize (Hslots 0 x eq_refl). unfold place in Hslots.
  rewrite (proj2 (Z.leb_le _ _)) in Hslots by lia. rewrite Z.add_0_r in Hslots.
  by rewrite Hslots.
Qed.

Lemma peek_refines n r q : stores n r q → returns peek r (head q) r.
Proof.
  intros H. unfold returns, peek. act_step. unfold isReadable.
  rewrite (readable_count n r q H). destruct q as [|x q]; [done|].
  rewrite (proj2 (Z.ltb_lt _ _)) by zlia. by erewrite act_bind_val by (eapply slot_head; done).
Qed.

Lemma read_refines n r q :
  stores n r q → ∃ r', returns read r (head q) r' ∧ stores n r' (tail q).
Proof.
  intros H. unfold returns, read. act_step. unfold isReadable.
  rewrite (readable_count n r q H). destruct q as [|x q]; [by eexists|].
  rewrite (proj2 (Z.ltb_lt _ _)) by zlia. erewrite act_bind_val by (eapply slot_head; done).
  eexists. split; [reflexivity|].
  pose proof (next_place n r _ 0 H) as Hnext.
  destruct H as [H1 H2 H3 H4 Hw (slots & Es & Hl & Hslots)].
  rewrite zlen_cons in *. pose proof (zlen_nonneg q).
  set (r' := {| m_nRIndex := next r (m_nRIndex r); m_nWIndex := m_nWIndex r;
                m_nSize := m_nSize r; m_arSlots := m_arSlots r |}).
  assert (∀ i, 0 <= i < n → place r' i = place r (1 + i)) as Hpl.
  { intros i Hi. unfold place, next in *. simpl.
    destruct (m_nRIndex r <? m_nSize r) eqn:?;
      repeat case_match; try lia. }
  constructor; simpl; [done|done| |lia| |].
  - unfold next. case_match; lia.
  - rewrite Hw. symmetry. rewrite Hpl; [done|lia].
  - exists slots. split_and!; [done|done|]. intros i y Hy. pose proof (zget_lt _ _ _ Hy).
    rewrite Hpl by lia. apply Hslots.
    unfold zget in *. rewrite (proj2 (Z.ltb_ge (1 + i) 0)) by lia.
    rewrite (proj2 (Z.ltb_ge i 0)) in Hy by lia.
    replace (Z.to_nat (1 + i)) with (S (Z.to_nat i)) by lia. done.
Qed.

Lemma ring_calls_refine n cs r q :
  stores n r q →
  ∃ r', returns (run_calls cs) r (Fifo.steps n cs q).1 r' ∧ stores n r' (Fifo.steps n cs q).2.
Proof.
  revert r q. induction cs as [|c cs IH]; intros r q H; [by exists r|].
  assert (∃ r1, returns (run_call c) r (Fifo.step n c q).1 r1 ∧ stores n r1 (Fifo.step n c q).2)
    as (r1 & R1 & H1).
  { unfold returns. destruct c as [p| |]; simpl.
    - destruct (write_refines n r q p H) as (r1 & R & ?). exists r1.
      rewrite (act_bind_val _ _ _ _ _ R). by destruct (zlen q <? n).
    - exists r. by rewrite (act_bind_val _ _ _ _ _ (peek_refines n r q H)).
    - destruct (read_refines n r q H) as (r1 & R & ?). exists r1.
      by rewrite (act_bind_val _ _ _ _ _ R). }
  simpl. destruct (Fifo.step n c q) as [x q1] eqn:E. simpl in *.
  destruct (IH r1 q1 H1) as (r2 & R2 & H2). exists r2.
  destruct (Fifo.steps n cs q1) as [xs q2]. simpl in *. split; [|done].
  unfold returns in *. rewrite (act_bind_val _ _ _ _ _ R1). by rewrite (act_bind_val _ _ _ _ _ R2).
Qed.

(** C17: for every capacity below 2^32-1 and every sequence of write, peek and
    read calls, an initialized RingBuffer gives the answers of a FIFO queue
    bounded by that capacity: a write fails exactly when the capacity is
    reached, a read or peek returns the oldest pointer or fails exactly when
    the queue is empty, and no call touches a slot outside of the array. *)
Theorem ringbuffer_refines_fifo n (cs : list (Fifo.call V)) :
  0 <= n < 2 ^ 32 - 1 →
  ∃ r, returns (initialize ;;; run_calls cs) (construct n) (Fifo.steps n cs []).1 r ∧
       getReadableSlotCount r = zlen (Fifo.steps n cs []).2.
Proof.
  intros Hn. destruct (initialize_stores n Hn) as (r0 & R0 & H0).
  destruct (ring_calls_refine n cs r0 [] H0) as (r & R & H).
  exists r. split; [|by eapply readable_count].
  unfold returns in *. by rewrite (act_bind_val _ _ _ _ _ R0).
Qed.
End proofs.

Lemma ringbuffer_refines_fifo_witness :
  let cs := [Fifo.CallWrite 7; Fifo.CallWrite 8; Fifo.CallWrite 9; Fifo.CallPeek; Fifo.CallRead;
             Fifo.CallWrite 10; Fifo.CallRead; Fifo.CallRead; Fifo.CallRead] in
  (Fifo.steps 2 cs []).1 =
    [Fifo.Wrote true; Fifo.Wrote true; Fifo.Wrote false; Fifo.Got (Some 7); Fifo.Got (Some 7);
     Fifo.Wrote true; Fifo.Got (Some 8); Fifo.Got (Some 10); Fifo.Got None] ∧
  ∃ r, returns (initialize ;;; run_calls cs) (construct 2) (Fifo.steps 2 cs []).1 r ∧
       getReadableSlotCount r = zlen (Fifo.steps 2 cs []).2.
Proof. split; [reflexivity|]. apply ringbuffer_refines_fifo. lia. Defined.

End RingBufferRefinement.
