(* ===== verification/StdMap.v ===== *)
(** * std::map, std::set and std::multimap as sorted association lists

    The ordered containers of the standard library, as far as the modelled
    code uses them: a container is the list of its entries in iteration
    order.  [KeyOrder] is the comparison [std::less] of the key type. *)
From S2P Require Import Prelude.

Class KeyOrder (K : Type) := {
  klt : K → K → bool;
  klt_irrefl k : klt k k = false;
  klt_trans k1 k2 k3 : klt k1 k2 = true → klt k2 k3 = true → klt k1 k3 = true;
  klt_total k1 k2 : klt k1 k2 = false → klt k2 k1 = false → k1 = k2;
}.

#[export] Instance Z_key_order : KeyOrder Z.
Proof. refine {| klt := Z.ltb |}; intros; lia. Defined.

(** [std::string] compares its bytes as unsigned numbers, left to right. *)
Fixpoint bytes_lt (s t : list Z) : bool :=
  match s, t with
  | _, [] => false
  | [], _ :: _ => true
  | a :: s, b :: t => if a <? b then true else if b <? a then false else bytes_lt s t
  end.

Lemma bytes_lt_trans s1 s2 s3 :
  bytes_lt s1 s2 = true → bytes_lt s2 s3 = true → bytes_lt s1 s3 = true.
Proof.
  revert s2 s3. induction s1 as [|a s1 IH]; intros [|b s2] [|c s3]; simpl; try done.
  repeat case_match; try done; try lia. apply IH.
Qed.

Lemma bytes_lt_total s1 s2 : bytes_lt s1 s2 = false → bytes_lt s2 s1 = false → s1 = s2.
Proof.
  revert s2. induction s1 as [|a s1 IH]; intros [|b s2]; simpl; try done.
  repeat case_match; try done; try lia. intros. f_equal; [lia|auto].
Qed.

#[export] Instance bytes_key_order : KeyOrder (list Z).
Proof.
  refine {| klt := bytes_lt |}.
  - induction k as [|a k IH]; simpl; [done|]. by rewrite Z.ltb_irrefl.
  - apply bytes_lt_trans.
  - apply bytes_lt_total.
Defined.

#[export] Instance key_eq_dec `{KeyOrder K} : EqDecision K.
Proof.
  intros k1 k2. destruct (klt k1 k2) eqn:E1.
  - right. intros ->. rewrite klt_irrefl in E1. done.
  - destruct (klt k2 k1) eqn:E2.
    + right. intros ->. rewrite klt_irrefl in E2. done.
    + left. by apply klt_total.
Defined.

Module StdMap.
Section map.
Context {K V : Type} `{KeyOrder K}.
Implicit Types m : list (K * V).

Fixpoint find (k : K) m : option V :=
  match m with
  | [] => None
  | (k', v) :: m => if klt k' k then find k m else if klt k k' then None else Some v
  end.

(** [m.insert(pair)]: an existing entry stays. *)
Fixpoint insert (k : K) (v : V) m : list (K * V) :=
  match m with
  | [] => [(k, v)]
  | (k', v') :: m' =>
      if klt k' k then (k', v') :: insert k v m' else if klt k k' then (k, v) :: m else m
  end.

(** [m[k] = v] *)
Fixpoint assign (k : K) (v : V) m : list (K * V) :=
  match m with
  | [] => [(k, v)]
  | (k', v') :: m' =>
      if klt k' k then (k', v') :: assign k v m'
      else if klt k k' then (k, v) :: m else (k, v) :: m'
  end.

Fixpoint erase (k : K) m : list (K * V) :=
  match m with
  | [] => []
  | (k', v') :: m' =>
      if klt k' k then (k', v') :: erase k m' else if klt k k' then m else m'
  end.

(** [multimap::insert]: after the entries with an equal key. *)
Fixpoint multi_insert (k : K) (v : V) m : list (K * V) :=
  match m with
  | [] => [(k, v)]
  | (k', v') :: m' => if klt k k' then (k, v) :: m else (k', v') :: multi_insert k v m'
  end.

(** The keys increase strictly ([std::map]) along the list. *)
Inductive sorted : list (K * V) → Prop :=
| sorted_nil : sorted []
| sorted_cons k v m :
    Forall (λ e, klt k e.1 = true) m → sorted m → sorted ((k, v) :: m).

(** The keys never decrease ([std::multimap]). *)
Inductive multi_sorted : list (K * V) → Prop :=
| multi_sorted_nil : multi_sorted []
| multi_sorted_cons k v m :
    Forall (λ e, klt e.1 k = false) m → multi_sorted m → multi_sorted ((k, v) :: m).

Lemma klt_asym k1 k2 : klt k1 k2 = true → klt k2 k1 = false.
Proof.
  intros H1. destruct (klt k2 k1) eqn:H2; [|done].
  pose proof (klt_trans _ _ _ H1 H2) as H3. by rewrite klt_irrefl in H3.
Qed.

Lemma insert_last k v m :
  Forall (λ e, klt e.1 k = true) m → insert k v m = m ++ [(k, v)].
Proof. induction 1 as [|[k' v'] m Hk _ IH]; simpl in *; [done|]. by rewrite Hk, IH. Qed.

Lemma sorted_snoc_inv m k v :
  sorted (m ++ [(k, v)]) → sorted m ∧ Forall (λ e, klt e.1 k = true) m.
Proof.
  induction m as [|[k' v'] m IH]; simpl; inversion 1 as [|??? Hf Hs]; subst.
  - split; constructor.
  - apply IH in Hs as [Hs Hl]. apply Forall_app in Hf as [Hf Hf']. apply Forall_cons in Hf' as [Hf' _].
    simpl in *. split; [by constructor|]. constructor; done.
Qed.

(** Inserting the entries of a map in iteration order rebuilds the map. *)
Lemma foldl_insert_sorted m :
  sorted m → foldl (λ acc e, insert e.1 e.2 acc) [] m = m.
Proof.
  induction m as [|[k v] m IH] using rev_ind; intros Hs; [done|].
  apply sorted_snoc_inv in Hs as [Hs Hl].
  rewrite foldl_app, IH by done. simpl. by apply insert_last.
Qed.

Lemma insert_forall (P : K → Prop) k v m :
  P k → Forall (λ e, P e.1) m → Forall (λ e, P e.1) (insert k v m).
Proof.
  intros Hk. induction 1 as [|[k' v'] m Hm Hf IH]; simpl; [by constructor|].
  repeat case_match; repeat constructor; done.
Qed.

Lemma assign_forall (P : K → Prop) k v m :
  P k → Forall (λ e, P e.1) m → Forall (λ e, P e.1) (assign k v m).
Proof.
  intros Hk. induction 1 as [|[k' v'] m Hm Hf IH]; simpl; [by constructor|].
  repeat case_match; repeat constructor; done.
Qed.

Lemma forall_klt_trans k k' m :
  klt k k' = true → Forall (λ e, klt k' e.1 = true) m → Forall (λ e, klt k e.1 = true) m.
Proof. intros Hk Hf. eapply Forall_impl; [exact Hf|]. intros [k1 v1]. by apply klt_trans. Qed.

Lemma insert_sorted k v m : sorted m → sorted (insert k v m).
Proof.
  induction 1 as [|k' v' m Hf Hs IH]; simpl; [repeat constructor|].
  destruct (klt k' k) eqn:E1; [|destruct (klt k k') eqn:E2].
  - constructor; [|done]. by apply (insert_forall (λ x, klt k' x = true)).
  - constructor; [|by constructor]. constructor; [done|]. by eapply forall_klt_trans.
  - by constructor.
Qed.

Lemma assign_sorted k v m : sorted m → sorted (assign k v m).
Proof.
  induction 1 as [|k' v' m Hf Hs IH]; simpl; [repeat constructor|].
  destruct (klt k' k) eqn:E1; [|destruct (klt k k') eqn:E2].
  - constructor; [|done]. by apply (assign_forall (λ x, klt k' x = true)).
  - constructor; [|by constructor]. constructor; [done|]. by eapply forall_klt_trans.
  - rewrite (klt_total k' k) in Hf by done. by constructor.
Qed.

Lemma erase_incl k m e : e ∈ erase k m → e ∈ m.
Proof.
  induction m as [|[k' v'] m IH]; simpl; [done|].
  repeat case_match; rewrite ?elem_of_cons; naive_solver.
Qed.

Lemma erase_sorted k m : sorted m → sorted (erase k m).
Proof.
  induction 1 as [|k' v' m Hf Hs IH]; simpl; [constructor|].
  repeat case_match; [|by constructor|done]. constructor; [|done].
  rewrite Forall_forall in *. intros e He. by apply Hf, (erase_incl k).
Qed.

Lemma find_below k m : Forall (λ e, klt k e.1 = true) m → find k m = None.
Proof.
  destruct 1 as [|[k' v'] m Hk]; simpl in *; [done|].
  by rewrite (klt_asym k k'), Hk.
Qed.

Lemma find_assign k v j m :
  sorted m → find j (assign k v m) = if decide (j = k) then Some v else find j m.
Proof.
  induction 1 as [|k' v' m Hf Hs IH]; simpl.
  - destruct (klt k j) eqn:E1; [|destruct (klt j k) eqn:E2].
    + rewrite decide_False; [done|]. intros ->. by rewrite klt_irrefl in E1.
    + rewrite decide_False; [done|]. intros ->. by rewrite klt_irrefl in E2.
    + rewrite decide_True; [done|]. by apply klt_total.
  - destruct (klt k' k) eqn:E1; [|destruct (klt k k') eqn:E2]; simpl.
    + destruct (klt k' j) eqn:E3; [done|].
      rewrite decide_False; [done|]. intros ->. congruence.
    + destruct (klt k j) eqn:E3; [|destruct (klt j k) eqn:E4].
      * rewrite decide_False; [done|]. intros ->. by rewrite klt_irrefl in E3.
      * rewrite decide_False by (intros ->; by rewrite klt_irrefl in E4).
        assert (klt j k' = true) as E5 by (by eapply klt_trans).
        by rewrite (klt_asym _ _ E5), E5.
      * rewrite decide_True; [done|]. by apply klt_total.
    + assert (k' = k) as -> by by apply klt_total.
      destruct (klt k j) eqn:E3; [|destruct (klt j k) eqn:E4].
      * rewrite decide_False; [done|]. intros ->. by rewrite klt_irrefl in E3.
      * rewrite decide_False; [done|]. intros ->. by rewrite klt_irrefl in E4.
      * rewrite decide_True; [done|]. by apply klt_total.
Qed.

Lemma find_erase k j m :
  sorted m → find j (erase k m) = if decide (j = k) then None else find j m.
Proof.
  induction 1 as [|k' v' m Hf Hs IH]; simpl; [by case_decide|].
  destruct (klt k' k) eqn:E1; [|destruct (klt k k') eqn:E2]; simpl.
  - destruct (klt k' j) eqn:E3; [done|].
    rewrite decide_False; [done|]. intros ->. congruence.
  - case_decide as Hd; [subst|done]. by rewrite E1, E2.
  - assert (k' = k) as -> by by apply klt_total.
    case_decide as Hd; [subst; by apply find_below|].
    destruct (klt k j) eqn:E3; [done|]. destruct (klt j k) eqn:E4.
    + apply find_below. by eapply forall_klt_trans.
    + destruct Hd. by apply klt_total.
Qed.

Lemma multi_insert_perm k v m : multi_insert k v m ≡ₚ (k, v) :: m.
Proof.
  induction m as [|[k' v'] m IH]; simpl; [done|]. case_match; [done|].
  rewrite IH. apply Permutation_swap.
Qed.

Lemma multi_insert_sorted k v m : multi_sorted m → multi_sorted (multi_insert k v m).
Proof.
  induction 1 as [|k' v' m Hf Hs IH]; simpl; [repeat constructor|].
  destruct (klt k k') eqn:E.
  - constructor; [|by constructor]. constructor; [by apply klt_asym|].
    eapply Forall_impl; [exact Hf|]. intros [k1 v1] H1. simpl in *.
    destruct (klt k1 k) eqn:E1; [|done].
    by rewrite (klt_trans _ _ _ E1 E) in H1.
  - constructor; [|done]. rewrite (multi_insert_perm k v m). by constructor.
Qed.

End map.
End StdMap.
