(* ===== verification/NetBuffer.v ===== *)
(** * NetBuffer: the network buffer of muduo/net/Buffer.h and Buffer.cc

    [buffer] is the object: the vector [buffer_] and the two indices; one
    definition per member function.  A pointer into the buffer is its offset
    in [buffer_].  Failing assertions abort; reads and writes outside of the
    vector are undefined behaviour.  [ByteDeque] is what the class promises:
    a queue of bytes with room for a header in front of it. *)
From S2P Require Import Prelude.

(** ** Byte order: muduo/net/Endian.h on a little-endian host *)
Module Endian.

Definition bswap (n : nat) (x : Z) : Z := le_val (rev (le_bytes n x)).

Definition hostToNetwork64 (x : Z) : Z := bswap 8 x.
Definition hostToNetwork32 (x : Z) : Z := bswap 4 x.
Definition hostToNetwork16 (x : Z) : Z := bswap 2 x.
Definition networkToHost64 (x : Z) : Z := bswap 8 x.
Definition networkToHost32 (x : Z) : Z := bswap 4 x.
Definition networkToHost16 (x : Z) : Z := bswap 2 x.

(** The bytes of a number in network order, and the signed number that
    bytes in network order denote. *)
Definition be_bytes (n : nat) (x : Z) : list Z := rev (le_bytes n x).
Definition be_int (bs : list Z) : Z := swrap (8 * zlen bs) (le_val (rev bs)).

Lemma length_be_bytes n x : length (be_bytes n x) = n.
Proof. unfold be_bytes. by rewrite length_rev, length_le_bytes. Qed.
Lemma zlen_be_bytes n x : zlen (be_bytes n x) = Z.of_nat n.
Proof. unfold zlen. by rewrite length_be_bytes. Qed.

Lemma be_bytes_bytes n x : Forall is_byte (be_bytes n x).
Proof. apply Forall_rev, le_bytes_bytes. Qed.

(** The object representation of a swapped number. *)
Lemma bswap_bytes n x : le_bytes n (bswap n x) = be_bytes n x.
Proof.
  unfold bswap. fold (be_bytes n x). rewrite <- (length_be_bytes n x) at 1.
  apply le_bytes_val, be_bytes_bytes.
Qed.

Lemma bswap_val bs : Forall is_byte bs → bswap (length bs) (le_val bs) = le_val (rev bs).
Proof. intros Hb. unfold bswap. by rewrite le_bytes_val. Qed.

Lemma le_bytes_mod n x : le_bytes n (x mod 2 ^ (8 * Z.of_nat n)) = le_bytes n x.
Proof.
  revert x. induction n as [|n IH]; intros x; [done|].
  assert (∀ y, le_bytes (S n) y = y mod 256 :: le_bytes n (y / 256)) as E by done. rewrite !E.
  replace (8 * Z.of_nat (S n)) with (8 + 8 * Z.of_nat n) by lia.
  rewrite Z.pow_add_r by lia. change (2 ^ 8) with 256. set (p := 2 ^ (8 * Z.of_nat n)).
  assert (0 < p) by (unfold p; lia).
  rewrite Z.rem_mul_r, (Z.mul_comm 256 ((x / 256) mod p)) by lia. apply (f_equal2 cons).
  - by rewrite Z_mod_plus_full, Z.mod_mod by lia.
  - rewrite <- (IH (x / 256)). f_equal. rewrite Z.div_add by lia.
    by rewrite (Z.div_small (x mod 256)) by (apply Z.mod_pos_bound; lia).
Qed.

(** Reading back what was written, as a signed number of [n] bytes. *)
Lemma be_round_trip n x :
  (0 < n)%nat → - 2 ^ (8 * Z.of_nat n - 1) <= x < 2 ^ (8 * Z.of_nat n - 1) →
  be_int (be_bytes n x) = x.
Proof.
  intros Hn Hx. unfold be_int. rewrite zlen_be_bytes. unfold be_bytes. rewrite rev_involutive.
  rewrite <- le_bytes_mod, le_val_bytes by (apply Z.mod_pos_bound; lia).
  unfold swrap. rewrite Zplus_mod_idemp_l. apply swrap_small; [lia|done].
Qed.

Lemma be_bytes_int bs : Forall is_byte bs → be_bytes (length bs) (be_int bs) = bs.
Proof.
  intros Hb. unfold be_bytes, be_int. change (8 * zlen bs) with (8 * Z.of_nat (length bs)). rewrite <- le_bytes_mod.
  unfold swrap. set (w := 8 * Z.of_nat (length bs)). rewrite Zminus_mod, Z.mod_mod, <-Zminus_mod by (unfold w; lia).
  rewrite Z.add_simpl_r. unfold w. rewrite le_bytes_mod, <-length_rev.
  rewrite le_bytes_val; [apply rev_involutive|by apply Forall_rev].
Qed.
End Endian.

Module Buffer.
Import Endian.

Definition kCheapPrepend : Z := 8.
Definition kInitialSize : Z := 1024.

Record buffer := mk_buffer {
  buffer_ : list Z;
  readerIndex_ : Z;
  writerIndex_ : Z;
}.

Definition io (A : Type) : Type := act buffer Empty_set A.

(** [buffer_( kCheapPrepend + initialSize )] fills the vector with zeros. *)
Definition construct (initialSize : Z) : buffer :=
  {| buffer_ := replicate (Z.to_nat (kCheapPrepend + initialSize)) 0;
     readerIndex_ := kCheapPrepend; writerIndex_ := kCheapPrepend |}.

Definition readableBytes (b : buffer) : Z := u64 (writerIndex_ b - readerIndex_ b).
Definition writableBytes (b : buffer) : Z := u64 (zlen (buffer_ b) - writerIndex_ b).
Definition prependableBytes (b : buffer) : Z := readerIndex_ b.

(** [begin() + readerIndex_] and [begin() + writerIndex_] *)
Definition peek (b : buffer) : Z := readerIndex_ b.
Definition beginWrite (b : buffer) : Z := writerIndex_ b.

(** The [n] bytes at an offset, and [std::copy] to an offset. *)
Definition load (v : list Z) (off n : Z) : option (list Z) :=
  if bool_decide (0 <= off ∧ 0 <= n ∧ off + n <= zlen v) then Some (ztake n (zdrop off v)) else None.
Definition store (v : list Z) (off : Z) (bs : list Z) : option (list Z) :=
  if bool_decide (0 <= off ∧ off + zlen bs <= zlen v)
  then Some (ztake off v ++ bs ++ zdrop (off + zlen bs) v) else None.

Definition load_at (off n : Z) : io (list Z) :=
  b <- get_state ;;
  match load (buffer_ b) off n with Some bs => act_ret bs | None => undefined end.

Definition store_at (off : Z) (bs : list Z) : io () :=
  b <- get_state ;;
  match store (buffer_ b) off bs with
  | Some v => put_state {| buffer_ := v; readerIndex_ := readerIndex_ b;
                           writerIndex_ := writerIndex_ b |}
  | None => undefined
  end.

Definition set_indices (r w : Z) : io () :=
  modify (λ b, {| buffer_ := buffer_ b; readerIndex_ := r; writerIndex_ := w |}).

(** *** Searching *)

(** [std::search] for the two bytes of [kCRLF], [memchr] for a newline *)
Fixpoint search_crlf (l : list Z) : option Z :=
  match l with
  | [] => None
  | c :: l' =>
      match l' with
      | d :: _ => if (c =? 13) && (d =? 10) then Some 0 else Z.succ <$> search_crlf l'
      | [] => None
      end
  end.

Fixpoint memchr (c : Z) (l : list Z) : option Z :=
  match l with
  | [] => None
  | d :: l => if d =? c then Some 0 else Z.succ <$> memchr c l
  end.

Definition findCRLF_from (start : Z) : io (option Z) :=
  b <- get_state ;;
  cpp_assert (peek b <=? start) ;;;
  cpp_assert (start <=? beginWrite b) ;;;
  bs <- load_at start (beginWrite b - start) ;;
  act_ret (Z.add start <$> search_crlf bs).

Definition findCRLF : io (option Z) :=
  b <- get_state ;;
  bs <- load_at (peek b) (beginWrite b - peek b) ;;
  act_ret (Z.add (peek b) <$> search_crlf bs).

Definition findEOL : io (option Z) :=
  b <- get_state ;;
  bs <- load_at (peek b) (readableBytes b) ;;
  act_ret (Z.add (peek b) <$> memchr 10 bs).

Definition findEOL_from (start : Z) : io (option Z) :=
  b <- get_state ;;
  cpp_assert (peek b <=? start) ;;;
  cpp_assert (start <=? beginWrite b) ;;;
  bs <- load_at start (beginWrite b - start) ;;
  act_ret (Z.add start <$> memchr 10 bs).

(** *** Retrieving *)

Definition retrieveAll : io () := set_indices kCheapPrepend kCheapPrepend.

Definition retrieve (len : Z) : io () :=
  b <- get_state ;;
  cpp_assert (len <=? readableBytes b) ;;;
  if len <? readableBytes b
  then set_indices (u64 (readerIndex_ b + len)) (writerIndex_ b)
  else retrieveAll.

Definition retrieveUntil (end_ : Z) : io () :=
  b <- get_state ;;
  cpp_assert (peek b <=? end_) ;;;
  cpp_assert (end_ <=? beginWrite b) ;;;
  retrieve (end_ - peek b).

Definition retrieveAsString (len : Z) : io (list Z) :=
  b <- get_state ;;
  cpp_assert (len <=? readableBytes b) ;;;
  result <- load_at (peek b) len ;;
  retrieve len ;;;
  act_ret result.

Definition retrieveAllAsString : io (list Z) :=
  b <- get_state ;;
  retrieveAsString (readableBytes b).

(** [static_cast<int>( readableBytes() )] is the length. *)
Definition toStringPiece : io (list Z) :=
  b <- get_state ;;
  load_at (peek b) (i32 (readableBytes b)).

(** *** Writing *)

Definition vector_resize (n : Z) (v : list Z) : list Z :=
  ztake n v ++ replicate (Z.to_nat (n - zlen v)) 0.

Definition makeSpace (len : Z) : io () :=
  b <- get_state ;;
  if u64 (writableBytes b + prependableBytes b) <? u64 (len + kCheapPrepend)
  then put_state {| buffer_ := vector_resize (u64 (writerIndex_ b + len)) (buffer_ b);
                    readerIndex_ := readerIndex_ b; writerIndex_ := writerIndex_ b |}
  else
    cpp_assert (kCheapPrepend <? readerIndex_ b) ;;;
    (bs <- load_at (readerIndex_ b) (writerIndex_ b - readerIndex_ b) ;;
     store_at kCheapPrepend bs ;;;
     set_indices kCheapPrepend (u64 (kCheapPrepend + readableBytes b)) ;;;
     b' <- get_state ;;
     cpp_assert (readableBytes b =? readableBytes b')).

Definition ensureWritableBytes (len : Z) : io () :=
  b <- get_state ;;
  (when writableBytes b <? len do makeSpace len) ;;;
  b <- get_state ;;
  cpp_assert (len <=? writableBytes b).

Definition hasWritten (len : Z) : io () :=
  b <- get_state ;;
  cpp_assert (len <=? writableBytes b) ;;;
  set_indices (readerIndex_ b) (u64 (writerIndex_ b + len)).

Definition unwrite (len : Z) : io () :=
  b <- get_state ;;
  cpp_assert (len <=? readableBytes b) ;;;
  set_indices (readerIndex_ b) (u64 (writerIndex_ b - len)).

Definition append (bs : list Z) : io () :=
  ensureWritableBytes (zlen bs) ;;;
  b <- get_state ;;
  store_at (beginWrite b) bs ;;;
  hasWritten (zlen bs).

Definition prepend (bs : list Z) : io () :=
  b <- get_state ;;
  cpp_assert (zlen bs <=? prependableBytes b) ;;;
  set_indices (u64 (readerIndex_ b - zlen bs)) (writerIndex_ b) ;;;
  store_at (readerIndex_ b - zlen bs) bs.

(** The buffer is swapped with a new one that holds the same bytes. *)
Definition shrink (reserve : Z) : io () :=
  b <- get_state ;;
  piece <- toStringPiece ;;
  put_state (construct kInitialSize) ;;;
  ensureWritableBytes (u64 (readableBytes b + reserve)) ;;;
  append piece.

(** *** Numbers in network order *)

Inductive width : Type := W8 | W16 | W32 | W64.
Definition sizeof (w : width) : nat := match w with W8 => 1 | W16 => 2 | W32 => 4 | W64 => 8 end.

Definition hostToNetwork (w : width) (x : Z) : Z :=
  match w with
  | W8 => x
  | W16 => hostToNetwork16 x
  | W32 => hostToNetwork32 x
  | W64 => hostToNetwork64 x
  end.
Definition networkToHost (w : width) (x : Z) : Z :=
  match w with
  | W8 => x
  | W16 => networkToHost16 x
  | W32 => networkToHost32 x
  | W64 => networkToHost64 x
  end.

(** [appendInt64], [appendInt32], [appendInt16], [appendInt8]; likewise below *)
Definition appendInt (w : width) (x : Z) : io () := append (le_bytes (sizeof w) (hostToNetwork w x)).

Definition peekInt (w : width) : io Z :=
  b <- get_state ;;
  cpp_assert (Z.of_nat (sizeof w) <=? readableBytes b) ;;;
  bs <- load_at (peek b) (Z.of_nat (sizeof w)) ;;
  act_ret (swrap (8 * Z.of_nat (sizeof w)) (networkToHost w (le_val bs))).

Definition retrieveInt (w : width) : io () := retrieve (Z.of_nat (sizeof w)).

Definition readInt (w : width) : io Z :=
  result <- peekInt w ;;
  retrieveInt w ;;;
  act_ret result.

Definition prependInt (w : width) (x : Z) : io () := prepend (le_bytes (sizeof w) (hostToNetwork w x)).

(** What TcpConnection::send(Buffer* ) takes out of the buffer. *)
Definition take_all : io (list Z) :=
  b <- get_state ;;
  bs <- load_at (peek b) (readableBytes b) ;;
  retrieveAll ;;;
  act_ret bs.

(** *** Reading from a socket *)

(** What [readv] did: an error, or bytes that it stored in the two areas. *)
Inductive readv_result : Type :=
| ReadError
| ReadBytes (bs : list Z).

Definition extrabuf_size : Z := 65536.

(** The kernel fills the writable bytes first, then [extrabuf]. *)
Definition readFd (res : readv_result) : io Z :=
  b <- get_state ;;
  let writable := writableBytes b in
  let limit := if writable <? extrabuf_size then writable + extrabuf_size else writable in
  match res with
  | ReadError => act_ret (-1)
  | ReadBytes bs =>
      if limit <? zlen bs then undefined
      else
        store_at (writerIndex_ b) (ztake writable bs) ;;;
        (if zlen bs <=? writable
         then set_indices (readerIndex_ b) (u64 (writerIndex_ b + zlen bs))
         else set_indices (readerIndex_ b) (zlen (buffer_ b)) ;;; append (zdrop writable bs)) ;;;
        act_ret (zlen bs)
  end.

(** *** What a client calls; pointers are relative to [peek()] *)

Inductive call : Type :=
| Append (bs : list Z)
| AppendInt (w : width) (x : Z)
| Prepend (bs : list Z)
| PrependInt (w : width) (x : Z)
| EnsureWritable (n : Z)
| Unwrite (n : Z)
| Retrieve (n : Z)
| RetrieveUntil (off : Z)
| RetrieveInt (w : width)
| RetrieveAll
| RetrieveAsString (n : Z)
| RetrieveAllAsString
| PeekInt (w : width)
| ReadInt (w : width)
| FindCRLF
| FindCRLFFrom (off : Z)
| FindEOL
| FindEOLFrom (off : Z)
| ToStringPiece
| Shrink (n : Z)
| ReadFd (res : readv_result).

Inductive answer : Type :=
| Done
| Number (x : Z)
| Bytes (bs : list Z)
| Position (p : option Z).

Definition position (m : io (option Z)) : io answer :=
  b <- get_state ;;
  p <- m ;;
  act_ret (Position ((λ i, i - peek b) <$> p)).

Definition run_call (c : call) : io answer :=
  match c with
  | Append bs => append bs ;;; act_ret Done
  | AppendInt w x => appendInt w x ;;; act_ret Done
  | Prepend bs => prepend bs ;;; act_ret Done
  | PrependInt w x => prependInt w x ;;; act_ret Done
  | EnsureWritable n => ensureWritableBytes n ;;; act_ret Done
  | Unwrite n => unwrite n ;;; act_ret Done
  | Retrieve n => retrieve n ;;; act_ret Done
  | RetrieveUntil off => b <- get_state ;; retrieveUntil (peek b + off) ;;; act_ret Done
  | RetrieveInt w => retrieveInt w ;;; act_ret Done
  | RetrieveAll => retrieveAll ;;; act_ret Done
  | RetrieveAsString n => bs <- retrieveAsString n ;; act_ret (Bytes bs)
  | RetrieveAllAsString => bs <- retrieveAllAsString ;; act_ret (Bytes bs)
  | PeekInt w => x <- peekInt w ;; act_ret (Number x)
  | ReadInt w => x <- readInt w ;; act_ret (Number x)
  | FindCRLF => position findCRLF
  | FindCRLFFrom off => b <- get_state ;; position (findCRLF_from (peek b + off))
  | FindEOL => position findEOL
  | FindEOLFrom off => b <- get_state ;; position (findEOL_from (peek b + off))
  | ToStringPiece => bs <- toStringPiece ;; act_ret (Bytes bs)
  | Shrink n => shrink n ;;; act_ret Done
  | ReadFd res => n <- readFd res ;; act_ret (Number n)
  end.

Fixpoint run_calls (cs : list call) : io (list answer) :=
  match cs with
  | [] => act_ret []
  | c :: cs =>
      a <- run_call c ;;
      r <- run_calls cs ;;
      act_ret (a :: r)
  end.

(** ** Reading and writing parts of the vector *)

Lemma assert_step {A} (c : bool) (m : io A) b : c = true → (cpp_assert c ;;; m) b = m b.
Proof. by intros ->. Qed.

Lemma load_app l m r n : n = zlen m → load (l ++ m ++ r) (zlen l) n = Some m.
Proof.
  intros ->. unfold load. pose proof (zlen_nonneg l). pose proof (zlen_nonneg m).
  pose proof (zlen_nonneg r). rewrite bool_decide_true by (rewrite !zlen_app; lia).
  rewrite zdrop_app by done. by rewrite ztake_app.
Qed.

Lemma store_app l m r bs : zlen bs = zlen m → store (l ++ m ++ r) (zlen l) bs = Some (l ++ bs ++ r).
Proof.
  intros E. unfold store. pose proof (zlen_nonneg l). pose proof (zlen_nonneg r).
  rewrite bool_decide_true by (rewrite !zlen_app; lia). rewrite ztake_app by done.
  do 3 f_equal. rewrite (assoc_L (++)). apply zdrop_app. rewrite zlen_app. lia.
Qed.

Lemma zsplit (v : list Z) n : 0 <= n <= zlen v → ∃ l r, v = l ++ r ∧ zlen l = n.
Proof.
  intros Hn. exists (ztake n v), (zdrop n v). rewrite ztake_zdrop. split; [done|].
  rewrite zlen_ztake by lia. lia.
Qed.

Lemma load_inv v off n m :
  load v off n = Some m → ∃ l r, v = l ++ m ++ r ∧ zlen l = off ∧ zlen m = n.
Proof.
  unfold load. case_bool_decide as Hb; [|done]. intros [= <-].
  exists (ztake off v), (zdrop n (zdrop off v)). rewrite ztake_zdrop, ztake_zdrop.
  split; [done|]. rewrite !zlen_ztake, zlen_zdrop by lia. lia.
Qed.

(** ** The representation of a queue of bytes with room in front of it *)

Record holds (b : buffer) (q : list Z) (room : Z) : Prop := {
  h_room : 0 <= room <= readerIndex_ b;
  h_writer : writerIndex_ b = readerIndex_ b + zlen q;
  h_end : writerIndex_ b <= zlen (buffer_ b);
  h_min : kCheapPrepend <= zlen (buffer_ b);
  h_max : zlen (buffer_ b) < 2 ^ 31;
  h_bytes : load (buffer_ b) (readerIndex_ b) (zlen q) = Some q;
}.

(** The same as a concatenation. *)
Lemma holds_shape b q room :
  holds b q room → ∃ pre post,
    b = {| buffer_ := pre ++ q ++ post; readerIndex_ := zlen pre; writerIndex_ := zlen pre + zlen q |} ∧
    0 <= room <= zlen pre ∧ kCheapPrepend <= zlen pre + zlen q + zlen post < 2 ^ 31.
Proof.
  destruct b as [v r w]. intros [Hr Hw He Hmin Hmax Hb]. cbn [buffer_ readerIndex_ writerIndex_] in *.
  apply load_inv in Hb as (pre & post & -> & <- & _). exists pre, post.
  rewrite !zlen_app in *. split; [by rewrite Hw|lia].
Qed.

Lemma shape_holds pre q post room :
  0 <= room <= zlen pre → kCheapPrepend <= zlen pre + zlen q + zlen post < 2 ^ 31 →
  holds {| buffer_ := pre ++ q ++ post; readerIndex_ := zlen pre;
           writerIndex_ := zlen pre + zlen q |} q room.
Proof.
  intros Hr Hb. pose proof (zlen_nonneg post).
  split; cbn [buffer_ readerIndex_ writerIndex_]; rewrite ?zlen_app; try lia. by apply load_app.
Qed.

Lemma empty_holds v :
  kCheapPrepend <= zlen v < 2 ^ 31 →
  holds {| buffer_ := v; readerIndex_ := kCheapPrepend; writerIndex_ := kCheapPrepend |} [] kCheapPrepend.
Proof.
  unfold kCheapPrepend. intros Hv. destruct (zsplit v 8) as (l & r & -> & E); [lia|].
  rewrite zlen_app in Hv.
  assert (holds _ [] 8) as H
    by (apply (shape_holds l [] r); rewrite ?zlen_nil; unfold kCheapPrepend; lia).
  simpl in H. by rewrite zlen_nil, Z.add_0_r, E in H.
Qed.

Lemma buffer_construct_holds n :
  0 <= n → n + 8 < 2 ^ 31 →
  holds (construct n) [] kCheapPrepend ∧ writableBytes (construct n) = n ∧
  zlen (buffer_ (construct n)) = 8 + n.
Proof.
  intros Hn Hm. unfold construct, kCheapPrepend.
  assert (zlen (replicate (Z.to_nat (8 + n)) 0) = 8 + n) as E by (rewrite zlen_replicate; lia).
  split; [|split].
  - apply empty_holds. rewrite E. unfold kCheapPrepend. lia.
  - unfold writableBytes. cbn [buffer_ writerIndex_]. rewrite E. rewrite wrap_small; ulia.
  - done.
Qed.

Lemma readable_spec b q room : holds b q room → readableBytes b = zlen q.
Proof.
  intros []. unfold readableBytes. pose proof (zlen_nonneg q). rewrite wrap_small; ulia.
Qed.

Lemma writable_spec b q room :
  holds b q room → writableBytes b = zlen (buffer_ b) - writerIndex_ b ∧ 0 <= writableBytes b.
Proof.
  intros []. unfold writableBytes. pose proof (zlen_nonneg q). rewrite wrap_small; ulia.
Qed.

Lemma holds_room b q room room' : holds b q room → 0 <= room' <= room → holds b q room'.
Proof. intros [] Hr. split; try done. lia. Qed.

(** Reading at an offset inside the readable bytes. *)
Lemma load_at_spec b q room off n :
  holds b q room → 0 <= off → 0 <= n → off + n <= zlen q →
  returns (load_at (readerIndex_ b + off) n) b (ztake n (zdrop off q)) b.
Proof.
  intros H Ho Hn Hl. apply holds_shape in H as (pre & post & -> & _).
  unfold returns, load_at, act_bind, get_state. cbn [buffer_ readerIndex_].
  destruct (zsplit q off) as (q1 & q2 & -> & E1); [lia|]. rewrite zlen_app in Hl.
  destruct (zsplit q2 n) as (q3 & q4 & -> & E3); [lia|].
  replace (pre ++ (q1 ++ q3 ++ q4) ++ post) with ((pre ++ q1) ++ q3 ++ (q4 ++ post))
    by (by rewrite <- !(assoc_L (++))).
  replace (zlen pre + off) with (zlen (pre ++ q1)) by (rewrite zlen_app; lia).
  rewrite load_app by done. rewrite zdrop_app, ztake_app by done. done.
Qed.

(** Any offset, seen from the start. *)
Lemma load_peek b q room n :
  holds b q room → 0 <= n <= zlen q → returns (load_at (peek b) n) b (ztake n q) b.
Proof.
  intros H Hn. pose proof (load_at_spec b q room 0 n H) as E.
  rewrite Z.add_0_r, zdrop_0 in E. apply E; lia.
Qed.

(** ** Retrieving *)

Lemma set_empty b q room :
  holds b q room →
  holds {| buffer_ := buffer_ b; readerIndex_ := kCheapPrepend; writerIndex_ := kCheapPrepend |} []
    kCheapPrepend.
Proof. intros []. by apply empty_holds. Qed.

Definition room_after (n : Z) (q : list Z) (room : Z) : Z :=
  if n <? zlen q then room + n else kCheapPrepend.

Lemma retrieve_spec b q room n :
  holds b q room → 0 <= n <= zlen q →
  ∃ b', returns (retrieve n) b () b' ∧ holds b' (zdrop n q) (room_after n q room) ∧
    zlen (buffer_ b') = zlen (buffer_ b).
Proof.
  intros H Hn. pose proof (readable_spec b q room H) as Er. unfold returns, retrieve. act_step.
  rewrite assert_step by (apply Z.leb_le; lia). rewrite Er. unfold room_after.
  destruct (Z.ltb_spec n (zlen q)) as [Hlt|Hge].
  - eexists. split; [reflexivity|]. cbn [buffer_]. split; [|done].
    apply holds_shape in H as (pre & post & -> & Hr & Hb). cbn [buffer_ readerIndex_ writerIndex_].
    destruct (zsplit q n) as (q1 & q2 & -> & E); [lia|]. rewrite zdrop_app by done.
    rewrite zlen_app in *. pose proof (zlen_nonneg post). pose proof (zlen_nonneg q2).
    rewrite wrap_small by ulia.
    pose proof (shape_holds (pre ++ q1) q2 post (room + n)) as Hh. rewrite zlen_app, E in Hh.
    rewrite <- !(assoc_L (++)) in *. rewrite Z.add_assoc, E. apply Hh; lia.
  - eexists. split; [reflexivity|]. cbn [buffer_]. split; [|done].
    rewrite zdrop_all by lia. by apply (set_empty b q room).
Qed.

Lemma take_all_spec b q room : holds b q room → ∃ b', take_all b = (Val q, b').
Proof.
  intros Hb. unfold take_all. act_step. rewrite (readable_spec _ _ _ Hb).
  pose proof (zlen_nonneg q).
  pose proof (load_peek b q room (zlen q) Hb ltac:(lia)) as Hl. rewrite ztake_all in Hl by lia.
  rewrite (act_bind_val _ _ _ _ _ Hl). act_step. by eexists.
Qed.

(** ** Writing *)

Lemma grow_holds b q room n :
  holds b q room → 0 <= n → writerIndex_ b + n < 2 ^ 31 → zlen (buffer_ b) <= writerIndex_ b + n →
  holds {| buffer_ := vector_resize (writerIndex_ b + n) (buffer_ b);
           readerIndex_ := readerIndex_ b; writerIndex_ := writerIndex_ b |} q room ∧
  zlen (vector_resize (writerIndex_ b + n) (buffer_ b)) = writerIndex_ b + n.
Proof.
  intros H Hn Hm Hl. apply holds_shape in H as (pre & post & -> & Hr & Hb).
  cbn [buffer_ readerIndex_ writerIndex_] in *. unfold vector_resize. rewrite ztake_all by done.
  rewrite !zlen_app in Hl. pose proof (zlen_nonneg q). pose proof (zlen_nonneg post).
  set (z := replicate _ 0). assert (zlen z = n - zlen post) as Ez.
  { unfold z. rewrite zlen_replicate, !zlen_app. lia. }
  rewrite <- !(assoc_L (++)). split.
  - apply shape_holds; rewrite ?zlen_app; lia.
  - rewrite !zlen_app. lia.
Qed.

Lemma makeSpace_spec b q room len :
  holds b q room → 0 <= len → writableBytes b < len → writerIndex_ b + len < 2 ^ 31 →
  ∃ b', returns (makeSpace len) b () b' ∧ holds b' q (room `min` kCheapPrepend) ∧
    writerIndex_ b' + len <= zlen (buffer_ b') ∧
    zlen (buffer_ b') <= zlen (buffer_ b) `max` (writerIndex_ b + len).
Proof.
  intros H Hn Hw Hm. destruct (writable_spec b q room H) as [Ew Hw0].
  pose proof (readable_spec b q room H) as Er. pose proof (zlen_nonneg q).
  pose proof (h_room _ _ _ H). pose proof (h_writer _ _ _ H). pose proof (h_end _ _ _ H).
  unfold returns, makeSpace. act_step. unfold prependableBytes.
  rewrite !wrap_small by (unfold kCheapPrepend; ulia).
  destruct (Z.ltb_spec (writableBytes b + readerIndex_ b) (len + kCheapPrepend)) as [Hlt|Hge].
  - eexists. split; [reflexivity|]. destruct (grow_holds b q room len) as [Hg El]; [done|lia..|].
    cbn [buffer_ writerIndex_]. rewrite El. split_and!; [|lia|lia].
    apply (holds_room _ _ room); [done|unfold kCheapPrepend; lia].
  - unfold kCheapPrepend in Hge. rewrite assert_step by (apply Z.ltb_lt; unfold kCheapPrepend; lia).
    apply holds_shape in H as (pre & post & -> & Hr & Hb). cbn [buffer_ readerIndex_ writerIndex_] in *.
    rewrite Er. unfold load_at, store_at, set_indices, act_bind, get_state, modify, act_ret.
    cbn [buffer_ readerIndex_ writerIndex_].
    rewrite load_app by lia. destruct (zsplit pre 8) as (p1 & p2 & -> & E1); [lia|].
    destruct (zsplit (p2 ++ q) (zlen q)) as (m & m' & Em & Lm).
    { rewrite zlen_app. pose proof (zlen_nonneg p2). lia. }
    replace ((p1 ++ p2) ++ q ++ post) with (p1 ++ m ++ (m' ++ post))
      by (rewrite <- (assoc_L (++) p1), (assoc_L (++) p2), Em; by rewrite <- !(assoc_L (++))).
    assert (store (p1 ++ m ++ m' ++ post) kCheapPrepend q = Some (p1 ++ q ++ m' ++ post)) as Es
      by (unfold kCheapPrepend; rewrite <- E1; by apply store_app).
    cbn [buffer_ readerIndex_ writerIndex_]. rewrite Es.
    cbv [put_state]. cbn [buffer_ readerIndex_ writerIndex_]. rewrite !zlen_app in *.
    assert (zlen p2 + zlen q = zlen m + zlen m') as El by (rewrite <- !zlen_app; by rewrite Em).
    pose proof (zlen_nonneg post). pose proof (zlen_nonneg m').
    assert (holds _ q (room `min` 8)) as Hh' by (apply (shape_holds p1 q (m' ++ post));
      rewrite ?zlen_app; unfold kCheapPrepend; lia).
    rewrite E1 in Hh'. change kCheapPrepend with 8.
    eexists. split; [unfold cpp_assert; rewrite (readable_spec _ _ _ Hh'), Z.eqb_refl; reflexivity|].
    cbn [buffer_ writerIndex_]. rewrite !zlen_app. split_and!; [done|lia|lia].
Qed.

Lemma ensure_spec b q room len :
  holds b q room → 0 <= len → writerIndex_ b + len < 2 ^ 31 →
  ∃ b', returns (ensureWritableBytes len) b () b' ∧ holds b' q (room `min` kCheapPrepend) ∧
    writerIndex_ b' + len <= zlen (buffer_ b') ∧
    zlen (buffer_ b') <= zlen (buffer_ b) `max` (writerIndex_ b + len).
Proof.
  intros H Hn Hm. destruct (writable_spec b q room H) as [Ew Hw0]. pose proof (h_room _ _ _ H).
  assert (∃ b', (when writableBytes b <? len do makeSpace len) b = (Val (), b') ∧
    holds b' q (room `min` kCheapPrepend) ∧ writerIndex_ b' + len <= zlen (buffer_ b') ∧
    zlen (buffer_ b') <= zlen (buffer_ b) `max` (writerIndex_ b + len)) as (b' & R & H' & Hl & Hz).
  { destruct (Z.ltb_spec (writableBytes b) len).
    - destruct (makeSpace_spec b q room len) as (b' & R & Hs); [done..|]. by exists b'.
    - exists b. split_and!; [done| |lia|lia]. apply (holds_room _ _ room); [done|].
      unfold kCheapPrepend. lia. }
  exists b'. split; [|done]. unfold returns, ensureWritableBytes. act_step.
  rewrite (act_bind_val _ _ _ _ _ R). act_step. destruct (writable_spec _ _ _ H') as [Ew' _].
  unfold cpp_assert. by rewrite (proj2 (Z.leb_le _ _)) by lia.
Qed.

(** Bytes stored behind the readable ones become readable. *)
Lemma write_end b q room bs :
  holds b q room → writerIndex_ b + zlen bs <= zlen (buffer_ b) →
  ∃ v, store (buffer_ b) (writerIndex_ b) bs = Some v ∧ zlen v = zlen (buffer_ b) ∧
    holds {| buffer_ := v; readerIndex_ := readerIndex_ b; writerIndex_ := writerIndex_ b + zlen bs |}
      (q ++ bs) room.
Proof.
  intros H Hl. apply holds_shape in H as (pre & post & -> & Hr & Hb).
  cbn [buffer_ readerIndex_ writerIndex_] in *. rewrite !zlen_app in Hl.
  pose proof (zlen_nonneg bs). destruct (zsplit post (zlen bs)) as (p1 & p2 & -> & E); [lia|].
  exists (pre ++ (q ++ bs) ++ p2). rewrite !zlen_app in *. split_and!; [|lia|].
  - replace (pre ++ q ++ p1 ++ p2) with ((pre ++ q) ++ p1 ++ p2) by (by rewrite <- (assoc_L (++))).
    rewrite <- zlen_app, store_app by done. by rewrite <- !(assoc_L (++)).
  - rewrite <- Z.add_assoc, <- zlen_app. apply shape_holds; rewrite ?zlen_app; lia.
Qed.

Lemma buffer_append_spec b q room bs :
  holds b q room → writerIndex_ b + zlen bs < 2 ^ 31 →
  ∃ b', returns (append bs) b () b' ∧ holds b' (q ++ bs) (room `min` kCheapPrepend) ∧
    zlen (buffer_ b') <= zlen (buffer_ b) `max` (writerIndex_ b + zlen bs).
Proof.
  intros H Hm. pose proof (zlen_nonneg bs).
  destruct (ensure_spec b q room (zlen bs)) as (b1 & R1 & H1 & Hl & Hz); [done..|].
  destruct (write_end b1 q _ bs H1 Hl) as (v & Ev & Lv & Hv).
  unfold returns, append. rewrite (act_bind_val _ _ _ _ _ R1). act_step.
  unfold store_at. unfold beginWrite. rewrite act_bind_assoc. act_step. rewrite Ev.
  erewrite act_bind_val by reflexivity. unfold hasWritten. act_step.
  pose proof (h_room _ _ _ H1). pose proof (h_writer _ _ _ H1). pose proof (zlen_nonneg q).
  pose proof (h_max _ _ _ H1).
  rewrite assert_step.
  - eexists. split; [reflexivity|]. cbn [buffer_ readerIndex_ writerIndex_].
    rewrite wrap_small by ulia. split; [done|lia].
  - apply Z.leb_le. unfold writableBytes. cbn [buffer_ writerIndex_]. rewrite Lv.
    rewrite wrap_small by ulia. lia.
Qed.

Lemma unwrite_spec b q room n :
  holds b q room → 0 <= n <= zlen q →
  ∃ b', returns (unwrite n) b () b' ∧ holds b' (ztake (zlen q - n) q) room ∧
    zlen (buffer_ b') = zlen (buffer_ b).
Proof.
  intros H Hn. pose proof (readable_spec _ _ _ H) as Er. unfold returns, unwrite. act_step.
  rewrite assert_step by (apply Z.leb_le; lia). eexists. split; [reflexivity|].
  cbn [buffer_]. split; [|done]. apply holds_shape in H as (pre & post & -> & Hr & Hb).
  cbn [buffer_ readerIndex_ writerIndex_]. destruct (zsplit q (zlen q - n)) as (q1 & q2 & -> & E); [lia|].
  rewrite zlen_app in *. rewrite ztake_app by lia. pose proof (zlen_nonneg post).
  rewrite wrap_small by ulia. replace (zlen pre + (zlen q1 + zlen q2) - n) with (zlen pre + zlen q1) by lia.
  rewrite <- (assoc_L (++) q1). apply shape_holds; rewrite ?zlen_app; lia.
Qed.

Lemma prepend_spec b q room bs :
  holds b q room → zlen bs <= room →
  ∃ b', returns (prepend bs) b () b' ∧ holds b' (bs ++ q) (room - zlen bs) ∧
    zlen (buffer_ b') = zlen (buffer_ b).
Proof.
  intros H Hn. pose proof (zlen_nonneg bs). unfold returns, prepend. act_step.
  unfold prependableBytes. pose proof (h_room _ _ _ H). rewrite assert_step by (apply Z.leb_le; lia).
  apply holds_shape in H as (pre & post & -> & Hr & Hb). cbn [buffer_ readerIndex_ writerIndex_] in *.
  destruct (zsplit pre (zlen pre - zlen bs)) as (p1 & p2 & -> & E); [lia|].
  rewrite zlen_app in *. pose proof (zlen_nonneg q). pose proof (zlen_nonneg post).
  rewrite wrap_small by ulia.
  replace (zlen p1 + zlen p2 - zlen bs) with (zlen p1) by lia.
  unfold set_indices, store_at, act_bind, modify, get_state. cbn [buffer_ readerIndex_ writerIndex_].
  rewrite <- (assoc_L (++) p1). rewrite store_app by lia. eexists. split; [reflexivity|].
  cbn [buffer_ readerIndex_ writerIndex_]. split; [|rewrite !zlen_app; lia].
  rewrite (assoc_L (++) bs). replace (zlen p1 + zlen p2 + zlen q) with (zlen p1 + zlen (bs ++ q))
    by (rewrite zlen_app; lia).
  apply shape_holds; rewrite ?zlen_app; lia.
Qed.

Lemma shrink_spec b q room n :
  holds b q room → 0 <= n → zlen (buffer_ b) + n + 1032 < 2 ^ 31 →
  ∃ b', returns (shrink n) b () b' ∧ holds b' q kCheapPrepend ∧
    zlen (buffer_ b') <= zlen (buffer_ b) + n + 1032.
Proof.
  intros H Hn Hm. pose proof (zlen_nonneg q). pose proof (readable_spec _ _ _ H) as Er.
  pose proof (h_room _ _ _ H). pose proof (h_writer _ _ _ H). pose proof (h_end _ _ _ H).
  destruct (buffer_construct_holds kInitialSize) as (Hc & _ & L0); [unfold kInitialSize; lia..|].
  change (8 + kInitialSize) with 1032 in L0.
  destruct (ensure_spec _ _ _ (zlen q + n) Hc) as (b1 & R1 & Hb1 & Hl1 & Hz1);
    [lia|change (8 + (zlen q + n) < 2 ^ 31); lia|].
  change (writerIndex_ (construct kInitialSize)) with 8 in Hz1.
  unfold kCheapPrepend in *.
  destruct (buffer_append_spec b1 [] _ q Hb1) as (b2 & R2 & Hb2 & Hz2).
  { pose proof (h_max _ _ _ Hb1). lia. }
  exists b2. split; [|split; [done|lia]]. unfold returns, shrink, toStringPiece. act_step.
  rewrite act_bind_assoc. act_step. rewrite Er, swrap_small by ulia.
  pose proof (load_peek b q room (zlen q) H) as Rl. rewrite ztake_all in Rl by lia.
  rewrite (act_bind_val _ _ _ _ _ (Rl ltac:(lia))). erewrite act_bind_val by reflexivity.
  rewrite wrap_small by ulia. by rewrite (act_bind_val _ _ _ _ _ R1).
Qed.

Lemma readFd_spec b q room bs :
  holds b q room → zlen (buffer_ b) + zlen bs < 2 ^ 31 →
  zlen bs <= writableBytes b + (if writableBytes b <? extrabuf_size then extrabuf_size else 0) →
  ∃ b', returns (readFd (ReadBytes bs)) b (zlen bs) b' ∧ holds b' (q ++ bs) (room `min` kCheapPrepend) ∧
    zlen (buffer_ b') <= zlen (buffer_ b) + zlen bs.
Proof.
  intros H Hm Hlim. destruct (writable_spec _ _ _ H) as [Ew Hw]. pose proof (zlen_nonneg bs).
  pose proof (h_room _ _ _ H). pose proof (h_writer _ _ _ H). pose proof (zlen_nonneg q).
  unfold returns, readFd. act_step. cbv zeta.
  rewrite (proj2 (Z.ltb_ge _ _)) by (destruct (writableBytes b <? extrabuf_size); lia).
  destruct (Z.leb_spec (zlen bs) (writableBytes b)) as [Hle|Hgt].
  - rewrite ztake_all by done. destruct (write_end b q room bs) as (v & Ev & Lv & Hv); [done|lia|].
    unfold store_at. rewrite act_bind_assoc. act_step. rewrite Ev. erewrite act_bind_val by reflexivity.
    eexists. split; [reflexivity|]. cbn [buffer_ readerIndex_ writerIndex_].
    rewrite wrap_small by ulia. split; [|lia].
    apply (holds_room _ _ room); [done|unfold kCheapPrepend; lia].
  - assert (zlen (ztake (writableBytes b) bs) = writableBytes b) as Lt by (rewrite zlen_ztake by lia; lia).
    destruct (write_end b q room (ztake (writableBytes b) bs)) as (v & Ev & Lv & Hv); [done|lia|].
    rewrite Lt in Hv. replace (writerIndex_ b + writableBytes b) with (zlen (buffer_ b)) in Hv by lia.
    destruct (buffer_append_spec _ _ _ (zdrop (writableBytes b) bs) Hv) as (b2 & R2 & Hb2 & Hz2).
    { cbn [writerIndex_]. rewrite zlen_zdrop by lia. lia. }
    exists b2. cbn [buffer_ writerIndex_] in Hz2. rewrite zlen_zdrop in Hz2 by lia.
    rewrite <- (assoc_L (++)), ztake_zdrop in Hb2. split; [|split; [done|lia]].
    unfold store_at. rewrite act_bind_assoc. act_step. rewrite Ev. erewrite act_bind_val by reflexivity.
    rewrite act_bind_assoc. erewrite act_bind_val by reflexivity. cbn [buffer_ readerIndex_].
    by rewrite (act_bind_val _ _ _ _ _ R2).
Qed.

(** ** Numbers *)

Lemma host_bytes w x : le_bytes (sizeof w) (hostToNetwork w x) = be_bytes (sizeof w) x.
Proof. destruct w; [done|apply bswap_bytes..]. Qed.

Lemma network_val w bs :
  Forall is_byte bs → length bs = sizeof w → networkToHost w (le_val bs) = le_val (rev bs).
Proof.
  intros Hb Hl. destruct w; cbn [sizeof networkToHost] in *.
  - by destruct bs as [|c [|d bs]].
  - unfold networkToHost16. rewrite <- Hl. by apply bswap_val.
  - unfold networkToHost32. rewrite <- Hl. by apply bswap_val.
  - unfold networkToHost64. rewrite <- Hl. by apply bswap_val.
Qed.

Lemma peekInt_spec b q room w :
  holds b q room → Forall is_byte q → Z.of_nat (sizeof w) <= zlen q →
  returns (peekInt w) b (be_int (ztake (Z.of_nat (sizeof w)) q)) b.
Proof.
  intros H Hq Hl. pose proof (readable_spec _ _ _ H) as Er. unfold returns, peekInt. act_step.
  rewrite assert_step by (apply Z.leb_le; lia).
  rewrite (act_bind_val _ _ _ _ _ (load_peek b q room (Z.of_nat (sizeof w)) H ltac:(lia))). unfold act_ret.
  set (bs := ztake _ q). assert (zlen bs = Z.of_nat (sizeof w)) as Lb.
  { unfold bs. rewrite zlen_ztake by lia. lia. }
  do 2 f_equal. unfold be_int. rewrite Lb. f_equal. apply network_val; [|unfold zlen in Lb; lia].
  by apply Forall_take.
Qed.

(** ** Searching *)

(** The first position below [n] with a property. *)
Definition first_index (P : nat → Prop) `{∀ i, Decision (P i)} (n : nat) : option Z :=
  Z.of_nat <$> head (filter P (seq 0 n)).

Lemma first_index_S (P : nat → Prop) `{∀ i, Decision (P i)} n :
  first_index P (S n) = if decide (P 0%nat) then Some 0 else Z.succ <$> first_index (λ i, P (S i)) n.
Proof.
  unfold first_index. cbn [seq]. rewrite filter_cons. destruct (decide (P 0%nat)); [done|].
  rewrite <- fmap_S_seq.
  assert (∀ l, filter P (S <$> l) = S <$> filter (λ i, P (S i)) l) as ->.
  { induction l as [|i l IH]; [done|]. cbn [fmap list_fmap]. rewrite !filter_cons.
    destruct (decide (P (S i))); cbn [fmap list_fmap]; by rewrite <- IH. }
  destruct (filter (λ i, P (S i)) (seq 0 n)) as [|i l]; [done|]. simpl. f_equal. lia.
Qed.

Lemma search_crlf_first l :
  search_crlf l = first_index (λ i, take 2 (drop i l) = [13; 10]) (length l).
Proof.
  induction l as [|c l IH]; [done|]. cbn [search_crlf length]. rewrite first_index_S.
  cbn [drop]. rewrite <- IH. destruct l as [|d l].
  - rewrite decide_False; done.
  - destruct (Z.eqb_spec c 13) as [->|Hc]; [destruct (Z.eqb_spec d 10) as [->|Hd]|];
      cbn [andb]; [by rewrite decide_True| |]; rewrite decide_False; try done; intros [=]; congruence.
Qed.

Lemma memchr_first c l : memchr c l = first_index (λ i, l !! i = Some c) (length l).
Proof.
  induction l as [|d l IH]; [done|]. cbn [memchr length]. rewrite first_index_S, IH.
  destruct (Z.eqb_spec d c) as [->|Hd]; [by rewrite decide_True|]. rewrite decide_False; [done|].
  intros [=]. congruence.
Qed.
End Buffer.

(** ** The abstract specification *)

Module ByteDeque.
Import Endian Buffer.

(** The unread bytes and a number of bytes that can be put in front of them. *)
Definition state : Type := list Z * Z.

Definition when_ (P : Prop) `{Decision P} {A} (x : A) : option A :=
  if bool_decide P then Some x else None.

Definition size_of (w : width) : Z := Z.of_nat (sizeof w).

(** What a call answers and does; [None] when its precondition fails. *)
Definition step (c : call) (s : state) : option (answer * state) :=
  let '(q, room) := s in
  let room' := room `min` kCheapPrepend in
  match c with
  | Append bs => when_ (Forall is_byte bs) (Done, (q ++ bs, room'))
  | AppendInt w x => Some (Done, (q ++ be_bytes (sizeof w) x, room'))
  | Prepend bs => when_ (Forall is_byte bs ∧ zlen bs <= room) (Done, (bs ++ q, room - zlen bs))
  | PrependInt w x =>
      when_ (size_of w <= room) (Done, (be_bytes (sizeof w) x ++ q, room - size_of w))
  | EnsureWritable n => when_ (0 <= n) (Done, (q, room'))
  | Unwrite n => when_ (0 <= n <= zlen q) (Done, (ztake (zlen q - n) q, room))
  | Retrieve n | RetrieveUntil n =>
      when_ (0 <= n <= zlen q) (Done, (zdrop n q, room_after n q room))
  | RetrieveInt w =>
      when_ (size_of w <= zlen q) (Done, (zdrop (size_of w) q, room_after (size_of w) q room))
  | RetrieveAll => Some (Done, ([], kCheapPrepend))
  | RetrieveAsString n =>
      when_ (0 <= n <= zlen q) (Bytes (ztake n q), (zdrop n q, room_after n q room))
  | RetrieveAllAsString => Some (Bytes q, ([], kCheapPrepend))
  | PeekInt w => when_ (size_of w <= zlen q) (Number (be_int (ztake (size_of w) q)), (q, room))
  | ReadInt w =>
      when_ (size_of w <= zlen q)
        (Number (be_int (ztake (size_of w) q)),
         (zdrop (size_of w) q, room_after (size_of w) q room))
  | FindCRLF =>
      Some (Position (first_index (λ i, take 2 (drop i q) = [13; 10]) (length q)), (q, room))
  | FindCRLFFrom off =>
      let t := zdrop off q in
      when_ (0 <= off <= zlen q)
        (Position (Z.add off <$> first_index (λ i, take 2 (drop i t) = [13; 10]) (length t)), (q, room))
  | FindEOL => Some (Position (first_index (λ i, q !! i = Some 10) (length q)), (q, room))
  | FindEOLFrom off =>
      let t := zdrop off q in
      when_ (0 <= off <= zlen q)
        (Position (Z.add off <$> first_index (λ i, t !! i = Some 10) (length t)), (q, room))
  | ToStringPiece => Some (Bytes q, (q, room))
  | Shrink n => when_ (0 <= n) (Done, (q, kCheapPrepend))
  | ReadFd ReadError => Some (Number (-1), (q, room))
  | ReadFd (ReadBytes bs) =>
      when_ (Forall is_byte bs ∧ zlen bs <= extrabuf_size) (Number (zlen bs), (q ++ bs, room'))
  end.

Fixpoint steps (cs : list call) (s : state) : option (list answer * state) :=
  match cs with
  | [] => Some ([], s)
  | c :: cs =>
      match step c s with
      | None => None
      | Some (a, s) =>
          match steps cs s with
          | None => None
          | Some (r, s) => Some (a :: r, s)
          end
      end
  end.

(** How much a call may let the vector grow. *)
Definition demand (c : call) : Z :=
  match c with
  | Append bs | ReadFd (ReadBytes bs) => zlen bs
  | AppendInt w _ => size_of w
  | EnsureWritable n => Z.max 0 n
  | Shrink n => Z.max 0 n + 1032
  | _ => 0
  end.

Fixpoint total_demand (cs : list call) : Z :=
  match cs with
  | [] => 0
  | c :: cs => demand c + total_demand cs
  end.

Lemma demand_nonneg c : 0 <= demand c.
Proof.
  destruct c; cbn [demand]; try lia; try apply zlen_nonneg; [destruct w; done|].
  destruct res; [lia|apply zlen_nonneg].
Qed.
Lemma total_demand_nonneg cs : 0 <= total_demand cs.
Proof. induction cs as [|c cs IH]; simpl; [lia|]. pose proof (demand_nonneg c). lia. Qed.
End ByteDeque.

(** ** Refinement *)

Module NetBufferRefinement.
Import Endian Buffer ByteDeque.

(** The buffer holds the bytes of the queue and has the room. *)
Definition rep (b : buffer) (s : state) : Prop := holds b s.1 s.2 ∧ Forall is_byte s.1.

(** [m] runs as the specification says, and the vector grows by at most [d]. *)
Definition runs {A} (m : io A) (b : buffer) (a : A) (s : state) (d : Z) : Prop :=
  ∃ b', returns m b a b' ∧ holds b' s.1 s.2 ∧ zlen (buffer_ b') <= zlen (buffer_ b) + d.

Lemma runs_ret {A B} (m : io A) (f : A → B) b a s d :
  runs m b a s d → runs (x <- m ;; act_ret (f x)) b (f a) s d.
Proof.
  intros (b' & R & H). exists b'. split; [|done]. unfold returns in *.
  by rewrite (act_bind_val _ _ _ _ _ R).
Qed.

Lemma runs_pure {A} (m : io A) b a q room :
  holds b q room → returns m b a b → runs m b a (q, room) 0.
Proof. intros H R. exists b. split_and!; [done..|lia]. Qed.

Lemma runs_weaken {A} (m : io A) b a s d d' : runs m b a s d → d <= d' → runs m b a s d'.
Proof. intros (b' & ? & ? & ?) Hd. exists b'. split_and!; [done..|lia]. Qed.

Lemma retrieve_runs b q room n :
  holds b q room → 0 <= n <= zlen q → runs (retrieve n) b () (zdrop n q, room_after n q room) 0.
Proof.
  intros H Hn. destruct (retrieve_spec b q room n H Hn) as (b' & ? & ? & ?).
  exists b'. split_and!; [done..|lia].
Qed.

Lemma append_runs b q room bs :
  holds b q room → zlen (buffer_ b) + zlen bs < 2 ^ 31 →
  runs (append bs) b () (q ++ bs, room `min` kCheapPrepend) (zlen bs).
Proof.
  intros H Hm. pose proof (h_end _ _ _ H). pose proof (zlen_nonneg bs).
  destruct (buffer_append_spec b q room bs H) as (b' & ? & ? & ?); [lia|].
  exists b'. split_and!; [done..|lia].
Qed.

Lemma prepend_runs b q room bs :
  holds b q room → zlen bs <= room → runs (prepend bs) b () (bs ++ q, room - zlen bs) 0.
Proof.
  intros H Hn. destruct (prepend_spec b q room bs H Hn) as (b' & ? & ? & ?).
  exists b'. split_and!; [done..|lia].
Qed.

Lemma retrieveAsString_runs b q room n :
  holds b q room → 0 <= n <= zlen q →
  runs (retrieveAsString n) b (ztake n q) (zdrop n q, room_after n q room) 0.
Proof.
  intros H Hn. destruct (retrieve_runs b q room n H Hn) as (b' & R & ?). exists b'. split; [|done].
  unfold returns, retrieveAsString in *. act_step. pose proof (readable_spec _ _ _ H).
  rewrite assert_step by (apply Z.leb_le; lia).
  rewrite (act_bind_val _ _ _ _ _ (load_peek b q room n H Hn)). by rewrite (act_bind_val _ _ _ _ _ R).
Qed.

(** The searches. *)
Lemma relative start off (p : option Z) :
  (λ i, i - start) <$> (Z.add (start + off) <$> p) = Z.add off <$> p.
Proof. destruct p; simpl; [f_equal; lia|done]. Qed.

Lemma position_runs (m : io (option Z)) b q room off p :
  holds b q room → returns m b (Z.add (peek b + off) <$> p) b →
  runs (position m) b (Position (Z.add off <$> p)) (q, room) 0.
Proof.
  intros H R. apply runs_pure; [done|]. unfold returns, position in *. act_step.
  rewrite (act_bind_val _ _ _ _ _ R). unfold act_ret. by rewrite relative.
Qed.

Lemma load_rest b q room off :
  holds b q room → 0 <= off <= zlen q →
  returns (load_at (peek b + off) (beginWrite b - (peek b + off))) b (zdrop off q) b.
Proof.
  intros H Hn. pose proof (load_at_spec b q room off (zlen q - off) H) as R.
  rewrite ztake_all in R by (rewrite zlen_zdrop by lia; lia). pose proof (h_writer _ _ _ H).
  unfold peek, beginWrite. replace (writerIndex_ b - _) with (zlen q - off) by lia. apply R; lia.
Qed.

Lemma findCRLF_from_returns b q room off :
  holds b q room → 0 <= off <= zlen q →
  returns (findCRLF_from (peek b + off)) b (Z.add (peek b + off) <$> search_crlf (zdrop off q)) b.
Proof.
  intros H Hn. pose proof (h_writer _ _ _ H). unfold returns, findCRLF_from. act_step.
  rewrite assert_step by (apply Z.leb_le; lia).
  rewrite assert_step by (apply Z.leb_le; unfold peek, beginWrite; lia).
  by rewrite (act_bind_val _ _ _ _ _ (load_rest b q room off H Hn)).
Qed.

Lemma findEOL_from_returns b q room off :
  holds b q room → 0 <= off <= zlen q →
  returns (findEOL_from (peek b + off)) b (Z.add (peek b + off) <$> memchr 10 (zdrop off q)) b.
Proof.
  intros H Hn. pose proof (h_writer _ _ _ H). unfold returns, findEOL_from. act_step.
  rewrite assert_step by (apply Z.leb_le; lia).
  rewrite assert_step by (apply Z.leb_le; unfold peek, beginWrite; lia).
  by rewrite (act_bind_val _ _ _ _ _ (load_rest b q room off H Hn)).
Qed.

Lemma find_all_returns b q room :
  holds b q room →
  returns findCRLF b (Z.add (peek b + 0) <$> search_crlf q) b ∧
  returns findEOL b (Z.add (peek b + 0) <$> memchr 10 q) b.
Proof.
  intros H. pose proof (zlen_nonneg q) as Hq. pose proof (h_writer _ _ _ H).
  pose proof (load_rest b q room 0 H ltac:(lia)) as R. rewrite Z.add_0_r, zdrop_0 in *.
  split; unfold returns, findCRLF, findEOL in *; act_step.
  - by rewrite (act_bind_val _ _ _ _ _ R).
  - rewrite (readable_spec b q room H). unfold peek, beginWrite in *.
    replace (zlen q) with (writerIndex_ b - readerIndex_ b) by lia.
    by rewrite (act_bind_val _ _ _ _ _ R).
Qed.

Lemma add_0_fmap (p : option Z) : Z.add 0 <$> p = p.
Proof. by destruct p. Qed.

Lemma when_inv (P : Prop) `{Decision P} {A} (x y : A) : when_ P x = Some y → P ∧ x = y.
Proof. unfold when_. case_bool_decide; intros [= ->]; done. Qed.

(** Split a successful step into its precondition and its result. *)
Ltac invert_step :=
  repeat match goal with
  | H : when_ _ _ = Some _ |- _ => apply when_inv in H as [? ?]
  | H : _ ∧ _ |- _ => destruct H
  end; simplify_eq.

Lemma step_bytes c s a s' : Forall is_byte s.1 → step c s = Some (a, s') → Forall is_byte s'.1.
Proof.
  destruct s as [q room]. cbn [fst]. intros Hq Hs.
  assert (∀ n, Forall is_byte (zdrop n q)) by (intros; by apply Forall_drop).
  assert (∀ n, Forall is_byte (ztake n q)) by (intros; by apply Forall_take).
  assert (∀ n x, Forall is_byte (be_bytes n x)) by apply be_bytes_bytes.
  destruct c as [| | | | | | | | | | | | | | | | | | | |[|bs]]; cbn [step] in Hs; invert_step;
    cbn [fst]; rewrite ?Forall_app; auto.
Qed.

Lemma size_of_pos w : 0 < size_of w.
Proof. by destruct w. Qed.

Lemma number_runs b q room w :
  rep b (q, room) → size_of w <= zlen q →
  returns (peekInt w) b (be_int (ztake (size_of w) q)) b ∧
  runs (readInt w) b (be_int (ztake (size_of w) q))
    (zdrop (size_of w) q, room_after (size_of w) q room) 0.
Proof.
  intros [H Hq] Hl. cbn [fst snd] in *. pose proof (size_of_pos w).
  pose proof (peekInt_spec b q room w H Hq Hl) as R. split; [done|].
  destruct (retrieve_runs b q room (size_of w) H ltac:(lia)) as (b' & R' & Hb). exists b'.
  split; [|done]. unfold returns, readInt, retrieveInt in *. rewrite (act_bind_val _ _ _ _ _ R).
  by rewrite (act_bind_val _ _ _ _ _ R').
Qed.

(** The calls that only look. *)
Lemma run_query_refines c b q room a s' :
  rep b (q, room) → step c (q, room) = Some (a, s') →
  match c with
  | PeekInt _ | FindCRLF | FindCRLFFrom _ | FindEOL | FindEOLFrom _ | ToStringPiece
  | ReadFd ReadError => runs (run_call c) b a s' (demand c)
  | _ => True
  end.
Proof.
  intros Hr Hs. pose proof Hr as [H Hq]. cbn [fst snd] in *. pose proof (zlen_nonneg q).
  destruct c as [| | | | | | | | | | | |w| | |off| |off| | |[|bs]]; try exact I;
    cbn [step demand run_call] in *; invert_step.
  - apply runs_ret, runs_pure; [done|]. exact (proj1 (number_runs b q room w Hr ltac:(done))).
  - rewrite <- search_crlf_first. rewrite <- (add_0_fmap (search_crlf q)).
    apply position_runs; [done|]. exact (proj1 (find_all_returns b q room H)).
  - rewrite <- search_crlf_first. destruct (position_runs (findCRLF_from (peek b + off)) b q room off
      (search_crlf (zdrop off q)) H) as (b' & R & Hb); [by apply (findCRLF_from_returns b q room)|].
    exists b'. split; [|done]. unfold returns in *. by act_step.
  - rewrite <- memchr_first. rewrite <- (add_0_fmap (memchr 10 q)).
    apply position_runs; [done|]. exact (proj2 (find_all_returns b q room H)).
  - rewrite <- memchr_first. destruct (position_runs (findEOL_from (peek b + off)) b q room off
      (memchr 10 (zdrop off q)) H) as (b' & R & Hb); [by apply (findEOL_from_returns b q room)|].
    exists b'. split; [|done]. unfold returns in *. by act_step.
  - apply (runs_ret _ Bytes), runs_pure; [done|]. pose proof (load_peek b q room (zlen q) H) as R.
    rewrite ztake_all in R by lia. unfold returns, toStringPiece in *. act_step.
    rewrite (readable_spec b q room H). pose proof (h_max _ _ _ H). pose proof (h_end _ _ _ H).
    pose proof (h_writer _ _ _ H). pose proof (h_room _ _ _ H).
    rewrite swrap_small by ulia. apply R. lia.
  - exists b. split_and!; [by unfold returns; act_step|done|lia].
Qed.

Lemma buffer_run_call_refines c b s a s' :
  rep b s → zlen (buffer_ b) + demand c < 2 ^ 31 → step c s = Some (a, s') →
  runs (run_call c) b a s' (demand c).
Proof.
  destruct s as [q room]. intros Hr Hd Hs. pose proof (run_query_refines c b q room a s' Hr Hs) as HQ.
  pose proof Hr as [H Hq]. cbn [fst snd] in *. pose proof (zlen_nonneg q).
  destruct c as [bs|w x|bs|w x|n|n|n|n|w| |n| |w|w| |off| |off| |n|[|bs]]; try exact HQ; clear HQ;
    cbn [step demand run_call] in *; invert_step.
  - apply (runs_ret _ (λ _, Done) _ ()). by apply append_runs.
  - apply (runs_ret _ (λ _, Done) _ ()). unfold appendInt. rewrite host_bytes.
    unfold size_of in *. rewrite <- (zlen_be_bytes (sizeof w) x) in *. by apply append_runs.
  - apply (runs_ret _ (λ _, Done) _ ()). by apply prepend_runs.
  - apply (runs_ret _ (λ _, Done) _ ()). unfold prependInt. rewrite host_bytes.
    unfold size_of in *. rewrite <- (zlen_be_bytes (sizeof w) x) in *. by apply prepend_runs.
  - apply (runs_ret _ (λ _, Done) _ ()). pose proof (h_end _ _ _ H).
    destruct (ensure_spec b q room n H) as (b' & ? & ? & ? & ?); [lia..|].
    exists b'. split_and!; [done..|lia].
  - apply (runs_ret _ (λ _, Done) _ ()). destruct (unwrite_spec b q room n H) as (b' & ? & ? & ?); [lia|].
    exists b'. split_and!; [done..|lia].
  - apply (runs_ret _ (λ _, Done) _ ()). by apply retrieve_runs.
  - pose proof (h_writer _ _ _ H). destruct (retrieve_runs b q room n) as (b' & R & Hb); [done..|].
    exists b'. split; [|done]. unfold returns, retrieveUntil in *. act_step. rewrite act_bind_assoc.
    act_step. unfold peek, beginWrite. rewrite !act_bind_assoc.
    rewrite assert_step by (apply Z.leb_le; lia). rewrite act_bind_assoc.
    rewrite assert_step by (apply Z.leb_le; lia).
    replace (readerIndex_ b + n - readerIndex_ b) with n by lia. by rewrite (act_bind_val _ _ _ _ _ R).
  - apply (runs_ret _ (λ _, Done) _ ()). pose proof (size_of_pos w). apply retrieve_runs; [done|lia].
  - exists {| buffer_ := buffer_ b; readerIndex_ := kCheapPrepend; writerIndex_ := kCheapPrepend |}.
    split_and!; [reflexivity|by apply (set_empty b q room)|cbn; lia].
  - apply (runs_ret _ Bytes). by apply retrieveAsString_runs.
  - apply (runs_ret _ Bytes). destruct (retrieveAsString_runs b q room (zlen q)) as (b' & R & Hb); [done|lia|].
    rewrite ztake_all in R by lia. rewrite zdrop_all in Hb by lia.
    unfold room_after in Hb. rewrite Z.ltb_irrefl in Hb. exists b'. split; [|done].
    unfold returns, retrieveAllAsString in *. act_step. by rewrite (readable_spec b q room H).
  - apply (runs_ret _ Number). exact (proj2 (number_runs b q room w Hr ltac:(done))).
  - apply (runs_ret _ (λ _, Done) _ ()). destruct (shrink_spec b q room n H) as (b' & ? & ? & ?); [lia..|].
    exists b'. split_and!; [done..|lia].
  - apply (runs_ret _ Number). pose proof (writable_spec _ _ _ H) as [_ ?].
    destruct (readFd_spec b q room bs H) as (b' & ? & ? & ?); [lia| |].
    { unfold extrabuf_size in *. destruct (Z.ltb_spec (writableBytes b) 65536); lia. }
    exists b'. split_and!; [done..|lia].
Qed.

Lemma buffer_run_calls_refine cs : ∀ b s r s',
  rep b s → zlen (buffer_ b) + total_demand cs < 2 ^ 31 → steps cs s = Some (r, s') →
  ∃ b', returns (run_calls cs) b r b' ∧ rep b' s'.
Proof.
  induction cs as [|c cs IH]; intros b s r s' Hr Hd Hs; cbn [steps total_demand run_calls] in *.
  { simplify_eq. by exists b. }
  destruct (step c s) as [[a s1]|] eqn:Ec; [|done].
  destruct (steps cs s1) as [[r1 s2]|] eqn:Es; [|done]. simplify_eq.
  pose proof (total_demand_nonneg cs). pose proof (demand_nonneg c).
  destruct (buffer_run_call_refines c b s a s1 Hr) as (b1 & R1 & H1 & Z1); [lia|done|].
  destruct (IH b1 s1 r1 s') as (b2 & R2 & H2); [|lia|done|].
  { split; [done|]. apply (step_bytes c s a); [apply Hr|done]. }
  exists b2. split; [|done]. unfold returns in *. rewrite (act_bind_val _ _ _ _ _ R1).
  by rewrite (act_bind_val _ _ _ _ _ R2).
Qed.

(** C13: any sequence of calls that keeps to the preconditions (no more is
    retrieved than there is, at most the eight cheap bytes and what was
    retrieved are prepended) runs on a Buffer without undefined behaviour or
    failed assertion as long as less than 2^31 bytes are asked for: the
    answers are those of the queue of bytes, numbers in network order, found
    positions the first ones, and the readable bytes are its contents. *)
Theorem buffer_refines_byte_deque cs initialSize r q room :
  0 <= initialSize → initialSize + 8 + total_demand cs < 2 ^ 31 →
  steps cs ([], kCheapPrepend) = Some (r, (q, room)) →
  ∃ b, returns (run_calls cs) (construct initialSize) r b ∧
    returns toStringPiece b q b ∧ readableBytes b = zlen q ∧ room <= prependableBytes b.
Proof.
  intros Hi Hd Hs. pose proof (total_demand_nonneg cs) as Hn.
  destruct (buffer_construct_holds initialSize) as (Hc & _ & Lc); [lia..|].
  destruct (buffer_run_calls_refine cs (construct initialSize) ([], kCheapPrepend) r (q, room))
    as (b & R & Hb); [by split|lia|done|].
  exists b. split; [done|]. pose proof Hb as [H Hq]. cbn [fst snd] in *.
  split; [|split; [by apply (readable_spec b q room)|by apply (h_room _ _ _ H)]].
  destruct (run_query_refines ToStringPiece b q room (Bytes q) (q, room) Hb eq_refl) as (b' & R' & _).
  unfold returns, run_call in R'. unfold returns, toStringPiece in *.
  pose proof (load_peek b q room (zlen q) H) as Rl. rewrite ztake_all in Rl by lia.
  act_step. rewrite (readable_spec b q room H). pose proof (h_max _ _ _ H). pose proof (h_end _ _ _ H).
  pose proof (h_writer _ _ _ H). pose proof (h_room _ _ _ H). pose proof (zlen_nonneg q).
  rewrite swrap_small by ulia. apply Rl. lia.
Qed.

Lemma buffer_refines_byte_deque_witness :
  ∃ b, returns (run_calls [Append (bytes_of "GET /"); AppendInt W16 3338; FindCRLF; PrependInt W32 (-2);
           ReadInt W32; Retrieve 5; ReadInt W8; Shrink 0; ReadFd (ReadBytes [7; 8])])
      (construct 2) [Done; Done; Position (Some 5); Done; Number (-2); Done; Number 13; Done; Number 2] b ∧
    returns toStringPiece b [10; 7; 8] b ∧ readableBytes b = 3 ∧ 8 <= prependableBytes b.
Proof.
  apply (buffer_refines_byte_deque _ 2 _ [10; 7; 8] 8);
    [discriminate|vm_compute; reflexivity|vm_compute; reflexivity].
Defined.

(** numbers survive the buffer: for every width, what appendInt wrote
    into an empty buffer readInt reads back, with its sign, and takes away. *)
Theorem appendInt_readInt_round_trip w x initialSize :
  0 <= initialSize → initialSize + 16 < 2 ^ 31 →
  - 2 ^ (8 * size_of w - 1) <= x < 2 ^ (8 * size_of w - 1) →
  ∃ b, returns (run_calls [AppendInt w x; PeekInt w; ReadInt w; RetrieveAllAsString])
    (construct initialSize) [Done; Number x; Number x; Bytes []] b.
Proof.
  intros Hi Hd Hx.
  destruct (buffer_run_calls_refine [AppendInt w x; PeekInt w; ReadInt w; RetrieveAllAsString]
    (construct initialSize) ([], kCheapPrepend) [Done; Number x; Number x; Bytes []] ([], kCheapPrepend))
    as (b & R & _); [| | |by exists b].
  - destruct (buffer_construct_holds initialSize) as (Hc & _ & _); [lia..|]. by split.
  - destruct (buffer_construct_holds initialSize) as (_ & _ & ->); [lia..|].
    cbn [total_demand demand]. assert (size_of w <= 8) by by destruct w. lia.
  - assert (zlen (be_bytes (sizeof w) x) = size_of w) as L by apply zlen_be_bytes.
    assert (be_int (be_bytes (sizeof w) x) = x) as E by (apply be_round_trip; [destruct w; simpl; lia|done]).
    do 2 (cbn [steps step app]; unfold when_; rewrite ?bool_decide_true by lia).
    cbn [steps step]. by rewrite ztake_all, zdrop_all, E by lia.
Qed.

Lemma appendInt_readInt_round_trip_witness :
  ∃ b, returns (run_calls [AppendInt W16 (-300); PeekInt W16; ReadInt W16; RetrieveAllAsString])
    (construct 0) [Done; Number (-300); Number (-300); Bytes []] b.
Proof.
  apply (appendInt_readInt_round_trip W16 (-300) 0); [discriminate|reflexivity|].
  split; [discriminate|reflexivity].
Defined.
End NetBufferRefinement.
