(* ===== verification/Packet.v ===== *)
(** * Packet: the wire format of cppBase/core/packet.h

    [PackBuffer] is the growing output buffer over an explicit memory block,
    [Pack] writes base types, strings and containers to it, [Unpack] reads
    them back from a received byte string.  The operators [<<] and [>>] are
    the class [Marshal]: one instance per overload of the header file.
    [MarshalOk] is the interface between the overloads: each encodes to some
    bytes, and reading these bytes back gives the value. *)
From S2P Require Import Prelude StdMap.

Module Packet.

Inductive packet_error : Type :=
| PackError (what : string)
| UnpackError (what : string).

(** ** PackBuffer *)

Record packbuffer := mk_packbuffer {
  buf : mem;       (** the block; no cells for the null pointer *)
  len : Z;
  cap : Z;
}.

Definition pack (A : Type) : Type := act packbuffer packet_error A.

Definition packbuffer_new (n : Z) : packbuffer :=
  {| buf := mem_alloc n; len := 0; cap := n |}.

(** The caller takes the block over. *)
Definition release : pack mem :=
  b <- get_state ;;
  put_state {| buf := []; len := 0; cap := 0 |} ;;;
  act_ret (buf b).

(** [data()] and [size()] together: the packed bytes. *)
Definition data (b : packbuffer) : option mem := mem_slice (buf b) 0 (len b).

Definition reserve (n : Z) : pack () :=
  b <- get_state ;;
  if n <=? cap b then act_ret ()
  else put_state {| buf := mem_realloc (buf b) n; len := len b; cap := n |}.

Definition append (bs : list Z) : pack () :=
  b <- get_state ;;
  (when cap b <? u64 (len b + zlen bs) do
     reserve (Z.max (u64 (len b + zlen bs)) (u64 (cap b * 2)))) ;;;
  b <- get_state ;;
  match mem_write (buf b) (len b) (Some <$> bs) with
  | Some m => put_state {| buf := m; len := u64 (len b + zlen bs); cap := cap b |}
  | None => undefined
  end.

Definition seek (pos : Z) : pack () :=
  b <- get_state ;;
  if cap b <? pos then throw (PackError "seek buffer overflow")
  else put_state {| buf := buf b; len := pos; cap := cap b |}.

(** The bytes go to the start of the block, whatever [pos] is. *)
Definition replace (pos : Z) (rep : list Z) : pack () :=
  b <- get_state ;;
  if len b <? u64 (pos + zlen rep) then throw (PackError "replace buffer overflow")
  else
    match mem_write (buf b) 0 (Some <$> rep) with
    | Some m => put_state {| buf := m; len := len b; cap := cap b |}
    | None => undefined
    end.

Definition clear : pack () :=
  modify (λ b, {| buf := buf b; len := 0; cap := cap b |}).

(** ** Header *)

Definition HEADER_SIZE : Z := 10.

Record header := mk_header {
  length : Z;      (** uint32_t *)
  uri : Z;         (** uint32_t *)
  resCode : Z;     (** uint16_t *)
}.

Definition header_new : header := {| length := 0; uri := 0; resCode := 200 |}.

Definition getRawHeader (h : header) : list Z :=
  le_bytes 4 (length h) ++ le_bytes 4 (uri h) ++ le_bytes 2 (resCode h).

Definition parseRawHeader (bs : list Z) : header :=
  {| length := le_val (ztake 4 bs);
     uri := le_val (ztake 4 (zdrop 4 bs));
     resCode := le_val (ztake 2 (zdrop 8 bs)) |}.

(** ** Pack: base types and strings *)

Definition push (bs : list Z) : pack () := append bs.
Definition push_uint8 (v : Z) : pack () := push (le_bytes 1 v).
Definition push_uint16 (v : Z) : pack () := push (le_bytes 2 v).
Definition push_uint32 (v : Z) : pack () := push (le_bytes 4 v).
Definition push_uint64 (v : Z) : pack () := push (le_bytes 8 v).

Definition push_varstr (s : list Z) : pack () :=
  if 65535 <? zlen s then throw (PackError "push_varstr: varstr too big")
  else push_uint16 (u16 (zlen s)) ;;; push s.

Definition push_varstr32 (s : list Z) : pack () :=
  if 4294967295 <? zlen s then throw (PackError "push_varstr32: varstr too big")
  else push_uint32 (u32 (zlen s)) ;;; push s.

(** ** Unpack: the state is the unread rest [m_data, m_data + m_size) *)

Definition unpack (A : Type) : Type := act (list Z) packet_error A.

(** A read of [k] bytes with the check of [m_size] and its error. *)
Definition pop_bytes (k : Z) (err : string) : unpack (list Z) :=
  bs <- get_state ;;
  if zlen bs <? k then throw (UnpackError err)
  else put_state (zdrop k bs) ;;; act_ret (ztake k bs).

Definition pop_uint8 : unpack Z :=
  bs <- pop_bytes 1 "pop_uint8: not enough data" ;; act_ret (le_val bs).
Definition pop_uint16 : unpack Z :=
  bs <- pop_bytes 2 "pop_uint16: not enough data" ;; act_ret (le_val bs).
Definition pop_uint32 : unpack Z :=
  bs <- pop_bytes 4 "pop_uint32: not enough data" ;; act_ret (le_val bs).
Definition pop_uint64 : unpack Z :=
  bs <- pop_bytes 8 "pop_uint64: not enough data" ;; act_ret (le_val bs).

Definition peek_uint32 : unpack Z :=
  bs <- get_state ;;
  if zlen bs <? 4 then throw (UnpackError "peek_uint32: not enough data")
  else act_ret (le_val (ztake 4 bs)).

Definition pop_fetch_ptr (k : Z) : unpack (list Z) :=
  pop_bytes k "pop_fetch_ptr: not enough data".

Definition pop_fetch (k : Z) : unpack (list Z) := pop_fetch_ptr k.

(** A [Varstr] is the bytes it points to. *)
Definition pop_varstr_ptr : unpack (list Z) := n <- pop_uint16 ;; pop_fetch_ptr n.
Definition pop_varstr32_ptr : unpack (list Z) := n <- pop_uint32 ;; pop_fetch_ptr n.
Definition pop_varstr : unpack (list Z) := pop_varstr_ptr.
Definition pop_varstr32 : unpack (list Z) := pop_varstr32_ptr.

Definition finish : unpack () :=
  bs <- get_state ;;
  if zlen bs =? 0 then act_ret () else throw (UnpackError "finish: too much data").

(** [header(h)]: [None] is the result [false]. *)
Definition get_header : unpack (option header) :=
  bs <- get_state ;;
  if zlen bs <? HEADER_SIZE then act_ret None else act_ret (Some (parseRawHeader bs)).

Definition pop_header : unpack () :=
  bs <- get_state ;;
  when HEADER_SIZE <=? zlen bs do put_state (zdrop HEADER_SIZE bs).

(** ** The overloads of [<<] and [>>] *)

Class Marshal (T : Type) := {
  dflt : T;                              (** the value of a fresh object *)
  marshal : T → pack ();                 (** [p << x] *)
  unmarshal : T → unpack T;              (** [p >> x], from the old value of [x] *)
  marshal_count_check : Z → Z → unpack ();
}.

(** [sizeof(T)] in the checks of the element count is left to the platform. *)
Class SizeOf (T : Type) := sizeof : Z.

(** The specialisations for the base types: the elements need [w] bytes each. *)
Definition count_check_base (w : Z) (err : string) (count size : Z) : unpack () :=
  let allsize := u64 (count * w) in
  when size <? allsize do throw (UnpackError err).

Definition count_check_any (T : Type) `{SizeOf T} (count size : Z) : unpack () :=
  let allsize := u64 (count * sizeof) in
  when 128 * 1024 * 1024 <? allsize do
    throw (UnpackError "marshal count check unknown error").

Record uint (w : Z) := Uint { uval : Z }.
Arguments Uint {w} uval.
Arguments uval {w} _.
Record cppstring := Str { chars : list Z }.
Record stdmap (K V : Type) := Map { entries : list (K * V) }.
Arguments Map {K V} _.
Arguments entries {K V} _.
Record stdset (T : Type) := Set_ { elems : list (T * ()) }.
Arguments Set_ {T} _.
Arguments elems {T} _.

(** The operators on the base types and on strings. *)
Definition out_bool (sign : bool) : pack () := push_uint8 (if sign then 1 else 0).
Definition out_uint8 (x : uint 8) : pack () := push_uint8 (uval x).
Definition out_uint16 (x : uint 16) : pack () := push_uint16 (uval x).
Definition out_uint32 (x : uint 32) : pack () := push_uint32 (uval x).
Definition out_uint64 (x : uint 64) : pack () := push_uint64 (uval x).
Definition out_string (str : cppstring) : pack () := push_varstr (chars str).

Definition in_uint32 : unpack (uint 32) := v <- pop_uint32 ;; act_ret (Uint v).
Definition in_uint64 : unpack (uint 64) := v <- pop_uint64 ;; act_ret (Uint v).
Definition in_string : unpack cppstring := s <- pop_varstr ;; act_ret (Str s).
Definition in_uint16 : unpack (uint 16) := v <- pop_uint16 ;; act_ret (Uint v).
Definition in_uint8 : unpack (uint 8) := v <- pop_uint8 ;; act_ret (Uint v).
Definition in_bool : unpack bool := v <- pop_uint8 ;; act_ret (if v =? 0 then false else true).

Definition count_check_bool : Z → Z → unpack () :=
  count_check_base 1 "marshal count check bool error".
Definition count_check_uint8 : Z → Z → unpack () :=
  count_check_base 1 "marshal count check uint8_t error".
Definition count_check_uint16 : Z → Z → unpack () :=
  count_check_base 2 "marshal count check uint16_t error".
Definition count_check_uint32 : Z → Z → unpack () :=
  count_check_base 4 "marshal count check uint32_t error".
Definition count_check_uint64 : Z → Z → unpack () :=
  count_check_base 8 "marshal count check uint64_t error".

#[export] Instance marshal_bool : Marshal bool := {
  dflt := false; marshal := out_bool; unmarshal _ := in_bool;
  marshal_count_check := count_check_bool }.
#[export] Instance marshal_uint8 : Marshal (uint 8) := {
  dflt := Uint 0; marshal := out_uint8; unmarshal _ := in_uint8;
  marshal_count_check := count_check_uint8 }.
#[export] Instance marshal_uint16 : Marshal (uint 16) := {
  dflt := Uint 0; marshal := out_uint16; unmarshal _ := in_uint16;
  marshal_count_check := count_check_uint16 }.
#[export] Instance marshal_uint32 : Marshal (uint 32) := {
  dflt := Uint 0; marshal := out_uint32; unmarshal _ := in_uint32;
  marshal_count_check := count_check_uint32 }.
#[export] Instance marshal_uint64 : Marshal (uint 64) := {
  dflt := Uint 0; marshal := out_uint64; unmarshal _ := in_uint64;
  marshal_count_check := count_check_uint64 }.
#[export] Instance marshal_string `{SizeOf cppstring} : Marshal cppstring := {
  dflt := Str []; marshal := out_string; unmarshal _ := in_string;
  marshal_count_check := count_check_any cppstring }.

Definition out_pair `{Marshal T1, Marshal T2} (p : T1 * T2) : pack () :=
  marshal p.1 ;;; marshal p.2.
Definition in_pair `{Marshal T1, Marshal T2} (p : T1 * T2) : unpack (T1 * T2) :=
  x <- unmarshal p.1 ;; y <- unmarshal p.2 ;; act_ret (x, y).

#[export] Instance marshal_pair `{Marshal T1, Marshal T2, SizeOf (T1 * T2)} : Marshal (T1 * T2) := {
  dflt := (dflt, dflt); marshal := out_pair; unmarshal := in_pair;
  marshal_count_check := count_check_any (T1 * T2) }.

(** [marshal_container]: the count, then the elements in iteration order. *)
Definition marshal_container `{Marshal T} (c : list T) : pack () :=
  push_uint32 (u32 (zlen c)) ;;; act_mapM_ marshal c.

(** [unmarshal_container] through a [back_insert_iterator] of [c]. *)
Fixpoint unmarshal_into `{Marshal T} (count : nat) (c : list T) : unpack (list T) :=
  match count with
  | O => act_ret c
  | S count => x <- unmarshal dflt ;; unmarshal_into count (c ++ [x])
  end.

Definition unmarshal_container `{Marshal T} (c : list T) : unpack (list T) :=
  count <- pop_uint32 ;; unmarshal_into (Z.to_nat count) c.

(** The loop of the map and set readers: read an entry, then insert it. *)
Fixpoint unmarshal_insert `{KeyOrder K, Marshal T} {V} (key : T → K * V) (count : nat)
    (c : list (K * V)) : unpack (list (K * V)) :=
  match count with
  | O => act_ret c
  | S count =>
      x <- unmarshal dflt ;;
      unmarshal_insert key count (StdMap.insert (key x).1 (key x).2 c)
  end.

Definition out_map `{Marshal K, Marshal V, SizeOf (K * V)} (c : stdmap K V) : pack () :=
  push_uint32 (u32 (zlen (entries c))) ;;; act_mapM_ marshal (entries c).
Definition in_map `{KeyOrder K, Marshal K, Marshal V, SizeOf (K * V)} (c : stdmap K V) :
    unpack (stdmap K V) :=
  count <- pop_uint32 ;;
  c <- unmarshal_insert (T:=K * V) id (Z.to_nat count) (entries c) ;; act_ret (Map c).

#[export] Instance marshal_map `{KeyOrder K, Marshal K, Marshal V, SizeOf (K * V),
    SizeOf (stdmap K V)} : Marshal (stdmap K V) := {
  dflt := Map []; marshal := out_map; unmarshal := in_map;
  marshal_count_check := count_check_any (stdmap K V) }.

Definition out_set `{Marshal T} (c : stdset T) : pack () :=
  push_uint32 (u32 (zlen (elems c).*1)) ;;; act_mapM_ marshal (elems c).*1.
Definition in_set `{KeyOrder T, Marshal T} (c : stdset T) : unpack (stdset T) :=
  count <- pop_uint32 ;;
  c <- unmarshal_insert (λ x : T, (x, ())) (Z.to_nat count) (elems c) ;; act_ret (Set_ c).

#[export] Instance marshal_set `{KeyOrder T, Marshal T, SizeOf (stdset T)} : Marshal (stdset T) := {
  dflt := Set_ []; marshal := out_set; unmarshal := in_set;
  marshal_count_check := count_check_any (stdset T) }.

(** [c.resize(count)] *)
Definition vector_resize `{Marshal T} (c : list T) (count : nat) : list T :=
  take count c ++ replicate (count - List.length c) dflt.

(** [for (i = 0; i < count; ++i) s >> c[i]] over the resized vector. *)
Fixpoint unmarshal_elements `{Marshal T} (c : list T) : unpack (list T) :=
  match c with
  | [] => act_ret []
  | x :: c => y <- unmarshal x ;; ys <- unmarshal_elements c ;; act_ret (y :: ys)
  end.

Definition out_vector `{Marshal T} (c : list T) : pack () :=
  push_uint32 (u32 (zlen c)) ;;; act_mapM_ marshal c.
Definition in_vector `{Marshal T} (c : list T) : unpack (list T) :=
  count <- pop_uint32 ;;
  if count =? 0 then act_ret c
  else
    s <- get_state ;;
    marshal_count_check (T:=T) count (u32 (zlen s)) ;;;
    unmarshal_elements (vector_resize c (Z.to_nat count)).

#[export] Instance marshal_vector `{Marshal T, SizeOf (list T)} : Marshal (list T) := {
  dflt := []; marshal := out_vector; unmarshal := in_vector;
  marshal_count_check := count_check_any (list T) }.

(** [Pack::marshall(u, m)]: the body, then the header in front of it. *)
Definition marshall `{Marshal T} (u : Z) (m : T) : pack () :=
  seek HEADER_SIZE ;;;
  marshal m ;;;
  b <- get_state ;;
  replace 0 (getRawHeader {| length := u32 (len b); uri := u; resCode := resCode header_new |}).

Definition body_size (b : packbuffer) : Z := u64 (len b - HEADER_SIZE).
Definition body_data (b : packbuffer) : option mem := mem_slice (buf b) HEADER_SIZE (body_size b).

End Packet.
