(* ===== verification/PacketTheorems.v ===== *)
(** * Properties of the wire format: round trip, truncation, replace

    [MarshalOk] and [MarshalShort] are the interfaces between the overloads, with
    an instance for each.  [Packable] is the closed family of the types they
    make up, every nesting of the base types, strings, pairs, vectors, maps and
    sets: [packable_ok] and [packable_short] derive both interfaces for each. *)
From S2P Require Import Prelude StdMap Packet.

(** ** Correctness of the wire format (cppBase/core/packet.h)

    [MarshalOk] is proved for every overload of [Packet], so that the round
    trip of a message is derived for any nesting of the types. *)
Import Packet.

Module PacketFacts.

(** ** The output buffer *)

(** The buffer is well formed and its packed cells are [q]. *)
Record pb_holds (b : packbuffer) (q : mem) : Prop := {
  pb_cap : cap b = zlen (buf b);
  pb_len : 0 <= len b <= cap b;
  pb_max : cap b < 2 ^ 64;
  pb_data : ztake (len b) (buf b) = q;
}.

Lemma pb_holds_len b q : pb_holds b q → len b = zlen q.
Proof. intros [Hc Hl Hm <-]. rewrite zlen_ztake; lia. Qed.

Lemma pb_holds_data b q : pb_holds b q → data b = Some q.
Proof.
  intros [Hc Hl Hm <-]. unfold data, mem_slice. rewrite bool_decide_true by lia.
  by rewrite zdrop_0.
Qed.

Lemma pb_new_holds n : 0 <= n < 2 ^ 64 → pb_holds (packbuffer_new n) [].
Proof. intros. constructor; simpl; rewrite ?zlen_mem_alloc; first [lia | done]. Qed.

Lemma zlen_fmap {A B} (f : A → B) l : zlen (f <$> l) = zlen l.
Proof. unfold zlen. by rewrite length_fmap. Qed.

Lemma reserve_ok b q n :
  pb_holds b q → n < 2 ^ 64 →
  ∃ b', returns (reserve n) b () b' ∧ pb_holds b' q ∧ cap b' = Z.max n (cap b).
Proof.
  intros [Hc Hl Hm Hq] Hn. unfold returns, reserve. act_step.
  destruct (n <=? cap b) eqn:E.
  - exists b. split_and!; [done|by constructor|lia].
  - eexists. split; [reflexivity|]. simpl. split; [|lia].
    constructor; simpl; rewrite ?zlen_mem_realloc; [lia..|].
    by rewrite mem_realloc_take by lia.
Qed.

Lemma append_ok b q bs :
  pb_holds b q → zlen q + zlen bs < 2 ^ 64 →
  ∃ b', returns (append bs) b () b' ∧ pb_holds b' (q ++ (Some <$> bs)).
Proof.
  intros H Hm. pose proof (pb_holds_len b q H) as Hlen.
  pose proof (zlen_nonneg bs). pose proof (zlen_nonneg q).
  assert (u64 (len b + zlen bs) = len b + zlen bs) as Eu by (rewrite wrap_small; ulia).
  unfold returns, append. act_step. rewrite Eu.
  assert (∃ b1, (when cap b <? len b + zlen bs do
                   reserve (Z.max (len b + zlen bs) (u64 (cap b * 2)))) b = (Val (), b1) ∧
                pb_holds b1 q ∧ len b + zlen bs <= cap b1) as (b1 & R1 & Hb1 & E1).
  { destruct (cap b <? len b + zlen bs) eqn:E.
    - pose proof (wrap_range 64 (cap b * 2)) as Hw.
      destruct (reserve_ok b q (Z.max (len b + zlen bs) (u64 (cap b * 2)))) as (b1 & ? & ? & ?);
        [done|ulia|]. exists b1. split_and!; [done|done|lia].
    - exists b. split_and!; [done|done|lia]. }
  rewrite (act_bind_val _ _ _ _ _ R1). act_step.
  rewrite <- (pb_holds_len b1 q Hb1) in Hlen. destruct Hb1 as [Hc Hl Hx Hq].
  destruct (mem_write_spec (buf b1) (len b1) (Some <$> bs)) as (m & -> & Hlm & Ht & _ & _);
    rewrite ?zlen_fmap in *; [lia..|].
  eexists. split; [reflexivity|]. rewrite wrap_small by ulia.
  constructor; simpl; [lia..|]. by rewrite Ht, Hq.
Qed.

Lemma replace0_ok b (q1 q2 : mem) rep :
  pb_holds b (q1 ++ q2) → zlen rep = zlen q1 →
  ∃ b', returns (replace 0 rep) b () b' ∧ pb_holds b' ((Some <$> rep) ++ q2).
Proof.
  intros H Hr. pose proof (pb_holds_len b _ H) as Hlen. rewrite zlen_app in Hlen.
  pose proof (zlen_nonneg rep). pose proof (zlen_nonneg q2). destruct H as [Hc Hl Hm Hq].
  unfold returns, replace. act_step. rewrite Z.add_0_l, wrap_small by ulia.
  rewrite (proj2 (Z.ltb_ge _ _)) by lia.
  unfold mem_write. rewrite zlen_fmap, Z.add_0_l, bool_decide_true by lia.
  eexists. split; [reflexivity|]. rewrite ztake_0. simpl.
  constructor; simpl; [rewrite zlen_app, zlen_fmap, zlen_zdrop; lia|done|done|].
  unfold ztake, zdrop in *. rewrite take_app_ge by (rewrite length_fmap; unfold zlen in *; lia).
  f_equal. rewrite length_fmap, take_drop_commute.
  replace (Z.to_nat (zlen rep) + (Z.to_nat (len b) - List.length rep))%nat
    with (Z.to_nat (len b)) by (unfold zlen in *; lia).
  rewrite Hq. apply drop_app_length'. unfold zlen in *. lia.
Qed.

(** ** Reading back *)

Lemma pop_bytes_ok k err bs rest :
  k = zlen bs → returns (pop_bytes k err) (bs ++ rest) bs rest.
Proof.
  intros ->. unfold returns, pop_bytes. act_step.
  rewrite (proj2 (Z.ltb_ge _ _)) by zlia. act_step.
  by rewrite zdrop_app, ztake_app.
Qed.

Lemma pop_bytes_short k err bs :
  zlen bs < k → pop_bytes k err bs = (Exn (UnpackError err), bs).
Proof. intros. unfold pop_bytes. act_step. by rewrite (proj2 (Z.ltb_lt _ _)). Qed.

Lemma pop_uint_ok n err v rest :
  is_uint (8 * Z.of_nat n) v →
  (bs <- pop_bytes (Z.of_nat n) err ;; act_ret (le_val bs)) (le_bytes n v ++ rest) = (Val v, rest).
Proof.
  intros Hv. erewrite act_bind_val.
  2: { apply pop_bytes_ok. by rewrite zlen_le_bytes. }
  by rewrite le_val_bytes.
Qed.

Lemma pop_uint8_ok v rest : is_uint 8 v → returns pop_uint8 (le_bytes 1 v ++ rest) v rest.
Proof. apply (pop_uint_ok 1). Qed.
Lemma pop_uint16_ok v rest : is_uint 16 v → returns pop_uint16 (le_bytes 2 v ++ rest) v rest.
Proof. apply (pop_uint_ok 2). Qed.
Lemma pop_uint32_ok v rest : is_uint 32 v → returns pop_uint32 (le_bytes 4 v ++ rest) v rest.
Proof. apply (pop_uint_ok 4). Qed.
Lemma pop_uint64_ok v rest : is_uint 64 v → returns pop_uint64 (le_bytes 8 v ++ rest) v rest.
Proof. apply (pop_uint_ok 8). Qed.

Lemma pop_varstr_ok s rest :
  zlen s <= 65535 → returns pop_varstr ((le_bytes 2 (zlen s) ++ s) ++ rest) s rest.
Proof.
  intros Hs. pose proof (zlen_nonneg s). unfold returns, pop_varstr, pop_varstr_ptr.
  rewrite <- (assoc_L (++)). erewrite act_bind_val by (apply pop_uint16_ok; ulia).
  by apply pop_bytes_ok.
Qed.

Lemma returns_bind {S E A B} (m : act S E A) (f : A → act S E B) s a s1 b s2 :
  returns m s a s1 → returns (f a) s1 b s2 → returns (act_bind m f) s b s2.
Proof. unfold returns. intros H1 H2. by rewrite (act_bind_val _ _ _ _ _ H1). Qed.

(** ** The interface: a value is encoded and read back *)

Class MarshalOk (T : Type) `{Marshal T} := {
  valid : T → Prop;
  encode : T → list Z;
  count_ok : Z → Prop;
  marshal_ok x b q :
    valid x → pb_holds b q → zlen q + zlen (encode x) < 2 ^ 64 →
    ∃ b', returns (marshal x) b () b' ∧ pb_holds b' (q ++ (Some <$> encode x));
  unmarshal_ok x rest :
    valid x → zlen (encode x ++ rest) < 2 ^ 32 →
    returns (unmarshal dflt) (encode x ++ rest) x rest;
  count_check_ok (xs : list T) rest :
    Forall valid xs → count_ok (zlen xs) → zlen (concat (encode <$> xs) ++ rest) < 2 ^ 32 →
    returns (marshal_count_check (T:=T) (zlen xs) (u32 (zlen (concat (encode <$> xs) ++ rest))))
            (concat (encode <$> xs) ++ rest) () (concat (encode <$> xs) ++ rest);
}.

Lemma append_bind_ok {A} (f : () → pack A) (P : packbuffer → Prop) b q bs a :
  pb_holds b q → zlen q + zlen bs < 2 ^ 64 →
  (∀ b1, pb_holds b1 (q ++ (Some <$> bs)) → ∃ b2, returns (f ()) b1 a b2 ∧ P b2) →
  ∃ b2, returns (act_bind (append bs) f) b a b2 ∧ P b2.
Proof.
  intros Hb Hm Hf. destruct (append_ok b q bs Hb Hm) as (b1 & R1 & Hb1).
  destruct (Hf b1 Hb1) as (b2 & R2 & HP). exists b2. split; [|done].
  by eapply returns_bind.
Qed.

(** The check of a base type passes when [w] bytes per element are there. *)
Lemma count_check_base_ok {T} (enc : T → list Z) w err (xs : list T) rest s :
  0 <= w → w < 2 ^ 31 → (∀ x, zlen (enc x) = w) → zlen (concat (enc <$> xs) ++ rest) < 2 ^ 32 →
  returns (count_check_base w err (zlen xs) (u32 (zlen (concat (enc <$> xs) ++ rest)))) s () s.
Proof.
  intros Hw Hw' He Hm. pose proof (zlen_nonneg rest).
  assert (zlen (concat (enc <$> xs)) = zlen xs * w) as Hl.
  { clear Hm. induction xs as [|x xs IH]; [done|]. csimpl. rewrite zlen_app, zlen_cons, He, IH. lia. }
  pose proof (zlen_nonneg xs). rewrite zlen_app in *. rewrite Hl in *.
  unfold returns, count_check_base. rewrite !wrap_small by (unfold is_uint; nia).
  by rewrite (proj2 (Z.ltb_ge _ _)) by lia.
Qed.

Lemma count_check_any_ok (T : Type) `{SizeOf T} count size s :
  0 <= count → 0 <= sizeof (T:=T) → count * sizeof (T:=T) <= 128 * 1024 * 1024 →
  returns (count_check_any T count size) s () s.
Proof.
  intros. unfold returns, count_check_any. rewrite wrap_small by ulia.
  by rewrite (proj2 (Z.ltb_ge _ _)).
Qed.

(** The limit of the unknown types: [count * sizeof(T)] up to 128 MB. *)
Definition fits_128MB (T : Type) `{SizeOf T} (count : Z) : Prop :=
  0 <= sizeof (T:=T) ∧ count * sizeof (T:=T) <= 128 * 1024 * 1024.

#[export] Instance bool_ok : MarshalOk bool.
Proof.
  refine {| valid _ := True; encode (x : bool) := le_bytes 1 (if x then 1 else 0); count_ok _ := True |}.
  - intros x b q _. apply append_ok.
  - intros x rest _ _. eapply returns_bind; [apply pop_uint8_ok; by destruct x|]. by destruct x.
  - intros. by apply count_check_base_ok.
Defined.

#[export] Instance uint8_ok : MarshalOk (uint 8).
Proof.
  refine {| valid x := is_uint 8 (uval x); encode x := le_bytes 1 (uval x); count_ok _ := True |}.
  - intros x b q _. apply append_ok.
  - intros [v] rest Hv _. by eapply returns_bind; [apply pop_uint8_ok|].
  - intros. by apply count_check_base_ok.
Defined.

#[export] Instance uint16_ok : MarshalOk (uint 16).
Proof.
  refine {| valid x := is_uint 16 (uval x); encode x := le_bytes 2 (uval x); count_ok _ := True |}.
  - intros x b q _. apply append_ok.
  - intros [v] rest Hv _. by eapply returns_bind; [apply pop_uint16_ok|].
  - intros. by apply count_check_base_ok.
Defined.

#[export] Instance uint32_ok : MarshalOk (uint 32).
Proof.
  refine {| valid x := is_uint 32 (uval x); encode x := le_bytes 4 (uval x); count_ok _ := True |}.
  - intros x b q _. apply append_ok.
  - intros [v] rest Hv _. by eapply returns_bind; [apply pop_uint32_ok|].
  - intros. by apply count_check_base_ok.
Defined.

#[export] Instance uint64_ok : MarshalOk (uint 64).
Proof.
  refine {| valid x := is_uint 64 (uval x); encode x := le_bytes 8 (uval x); count_ok _ := True |}.
  - intros x b q _. apply append_ok.
  - intros [v] rest Hv _. by eapply returns_bind; [apply pop_uint64_ok|].
  - intros. by apply count_check_base_ok.
Defined.

#[export] Instance string_ok `{SizeOf cppstring} : MarshalOk cppstring.
Proof.
  refine {| valid x := zlen (chars x) <= 65535;
            encode x := le_bytes 2 (zlen (chars x)) ++ chars x;
            count_ok := fits_128MB cppstring |}.
  - intros [s] b q Hs Hb Hm. cbn [chars fst snd] in *. cbn [marshal marshal_string chars].
    unfold out_string, push_varstr. cbn [chars].
    pose proof (zlen_nonneg s). rewrite (proj2 (Z.ltb_ge _ _)) by lia.
    rewrite zlen_app in Hm. rewrite wrap_small by ulia.
    unfold push_uint16, push. eapply append_bind_ok; [done|lia|]. intros b1 Hb1.
    rewrite fmap_app, (assoc_L (++)). apply append_ok; [done|].
    rewrite zlen_app, zlen_fmap. lia.
  - intros [s] rest Hs _. cbn [chars fst snd] in *. by eapply returns_bind; [apply pop_varstr_ok|].
  - intros xs rest _ [? ?] _. apply count_check_any_ok; [apply zlen_nonneg|done..].
Defined.

#[export] Instance pair_ok `{MarshalOk T1, MarshalOk T2, SizeOf (T1 * T2)} : MarshalOk (T1 * T2).
Proof.
  refine {| valid p := valid p.1 ∧ valid p.2; encode p := encode p.1 ++ encode p.2;
            count_ok := fits_128MB (T1 * T2) |}.
  - intros [x y] b q [Hx Hy] Hb Hm. cbn [chars fst snd] in *. rewrite zlen_app in Hm.
    pose proof (zlen_nonneg (encode y)).
    destruct (marshal_ok x b q Hx Hb) as (b1 & R1 & Hb1); [lia|].
    destruct (marshal_ok y b1 _ Hy Hb1) as (b2 & R2 & Hb2); [rewrite zlen_app, zlen_fmap; lia|].
    exists b2. split; [by eapply returns_bind|]. by rewrite fmap_app, (assoc_L (++)).
  - intros [x y] rest [Hx Hy] Hm. cbn [chars fst snd] in *. rewrite <- (assoc_L (++)) in *.
    eapply returns_bind; [by apply unmarshal_ok|].
    eapply returns_bind; [apply unmarshal_ok; [done|]|done].
    rewrite zlen_app in Hm. pose proof (zlen_nonneg (encode x)). lia.
  - intros xs rest _ [? ?] _. apply count_check_any_ok; [apply zlen_nonneg|done..].
Defined.

(** ** Containers *)

Section containers.
Context `{MT : Marshal T, !MarshalOk T}.

Definition encode_all (xs : list T) : list Z := concat (encode <$> xs).
Definition encode_container (xs : list T) : list Z := le_bytes 4 (zlen xs) ++ encode_all xs.

Lemma marshal_all_ok xs b q :
  Forall valid xs → pb_holds b q → zlen q + zlen (encode_all xs) < 2 ^ 64 →
  ∃ b', returns (act_mapM_ marshal xs) b () b' ∧ pb_holds b' (q ++ (Some <$> encode_all xs)).
Proof.
  intros Hv. revert b q. unfold encode_all.
  induction Hv as [|x xs Hx _ IH]; intros b q Hb Hm; csimpl in *.
  - exists b. split; [done|]. by rewrite app_nil_r.
  - rewrite zlen_app in Hm. pose proof (zlen_nonneg (concat (encode <$> xs))).
    destruct (marshal_ok x b q Hx Hb) as (b1 & R1 & Hb1); [lia|].
    destruct (IH b1 _ Hb1) as (b2 & R2 & Hb2); [rewrite zlen_app, zlen_fmap; lia|].
    exists b2. split; [by eapply returns_bind|]. by rewrite fmap_app, (assoc_L (++)).
Qed.

Lemma marshal_container_ok xs b q :
  Forall valid xs → zlen xs < 2 ^ 32 → pb_holds b q →
  zlen q + zlen (encode_container xs) < 2 ^ 64 →
  ∃ b', returns (marshal_container xs) b () b' ∧ pb_holds b' (q ++ (Some <$> encode_container xs)).
Proof.
  intros Hv Hc Hb Hm. unfold encode_container in *. rewrite zlen_app in Hm.
  pose proof (zlen_nonneg (encode_all xs)). pose proof (zlen_nonneg xs).
  unfold marshal_container. rewrite wrap_small by ulia. unfold push_uint32, push.
  eapply append_bind_ok; [done|lia|]. intros b1 Hb1. rewrite fmap_app, (assoc_L (++)).
  apply marshal_all_ok; [done..|]. rewrite zlen_app, zlen_fmap. lia.
Qed.

Lemma encode_all_cons_bound x xs rest n :
  zlen (encode_all (x :: xs) ++ rest) < n → zlen (encode_all xs ++ rest) < n.
Proof.
  unfold encode_all. csimpl. rewrite <- (assoc_L (++)), zlen_app.
  pose proof (zlen_nonneg (encode x)). lia.
Qed.

Lemma unmarshal_into_ok xs c rest :
  Forall valid xs → zlen (encode_all xs ++ rest) < 2 ^ 32 →
  returns (unmarshal_into (List.length xs) c) (encode_all xs ++ rest) (c ++ xs) rest.
Proof.
  intros Hv. revert c. induction Hv as [|x xs Hx _ IH]; intros c Hm; simpl.
  - by rewrite app_nil_r.
  - eapply returns_bind.
    + unfold encode_all in *. csimpl in *. rewrite <- (assoc_L (++)) in *. by apply unmarshal_ok.
    + replace (c ++ x :: xs) with ((c ++ [x]) ++ xs) by by rewrite <- (assoc_L (++)).
      apply IH. by eapply encode_all_cons_bound.
Qed.

Lemma unmarshal_insert_ok `{KeyOrder K} {V} (key : T → K * V) xs c rest :
  Forall valid xs → zlen (encode_all xs ++ rest) < 2 ^ 32 →
  returns (unmarshal_insert key (List.length xs) c) (encode_all xs ++ rest)
    (foldl (λ acc x, StdMap.insert (key x).1 (key x).2 acc) c xs) rest.
Proof.
  intros Hv. revert c. induction Hv as [|x xs Hx _ IH]; intros c Hm; simpl; [done|].
  eapply returns_bind.
  - unfold encode_all in *. csimpl in *. rewrite <- (assoc_L (++)) in *. by apply unmarshal_ok.
  - apply IH. by eapply encode_all_cons_bound.
Qed.

Lemma unmarshal_elements_ok xs rest :
  Forall valid xs → zlen (encode_all xs ++ rest) < 2 ^ 32 →
  returns (unmarshal_elements (replicate (List.length xs) dflt)) (encode_all xs ++ rest) xs rest.
Proof.
  induction 1 as [|x xs Hx _ IH]; intros Hm; simpl; [done|].
  eapply returns_bind.
  - unfold encode_all in *. csimpl in *. rewrite <- (assoc_L (++)) in *. by apply unmarshal_ok.
  - eapply returns_bind; [|done]. apply IH. by eapply encode_all_cons_bound.
Qed.

Lemma container_bound xs rest n :
  zlen (encode_container xs ++ rest) < n → zlen (encode_all xs ++ rest) < n.
Proof. unfold encode_container. rewrite !zlen_app, zlen_le_bytes. lia. Qed.

(** Reading the count leaves the elements. *)
Lemma pop_count_ok xs rest :
  zlen xs < 2 ^ 32 →
  returns pop_uint32 (encode_container xs ++ rest) (zlen xs) (encode_all xs ++ rest).
Proof.
  intros. pose proof (zlen_nonneg xs). unfold encode_container. rewrite <- (assoc_L (++)).
  apply pop_uint32_ok. ulia.
Qed.
End containers.

#[export] Instance vector_ok `{MarshalOk T, SizeOf (list T)} : MarshalOk (list T).
Proof.
  refine {| valid xs := Forall valid xs ∧ zlen xs < 2 ^ 32 ∧ count_ok (T:=T) (zlen xs);
            encode := encode_container; count_ok := fits_128MB (list T) |}.
  - intros xs b q (Hv & Hc & _). by apply marshal_container_ok.
  - intros xs rest (Hv & Hc & Ho) Hm. simpl.
    eapply returns_bind; [by apply pop_count_ok|]. simpl.
    apply container_bound in Hm. pose proof (zlen_nonneg xs).
    destruct (zlen xs =? 0) eqn:E.
    + destruct xs; [done|]. rewrite zlen_cons in E. pose proof (zlen_nonneg xs). lia.
    + eapply returns_bind; [reflexivity|]. simpl.
      eapply returns_bind; [by apply count_check_ok|].
      unfold vector_resize, zlen. rewrite Nat2Z.id, take_nil. simpl. rewrite Nat.sub_0_r.
      by apply unmarshal_elements_ok.
  - intros xs rest _ [? ?] _. apply count_check_any_ok; [apply zlen_nonneg|done..].
Defined.

#[export] Instance map_ok `{KeyOrder K, MarshalOk K, MarshalOk V, SizeOf (K * V),
    SizeOf (stdmap K V)} : MarshalOk (stdmap K V).
Proof.
  refine {| valid m := Forall valid (entries m) ∧ zlen (entries m) < 2 ^ 32 ∧
                       StdMap.sorted (entries m);
            encode m := encode_container (entries m); count_ok := fits_128MB (stdmap K V) |}.
  - intros [l] b q (Hv & Hc & _). exact (marshal_container_ok (T:=K * V) l b q Hv Hc).
  - intros [l] rest (Hv & Hc & Hs) Hm. cbn [entries] in *.
    eapply returns_bind; [by apply pop_count_ok|]. simpl.
    apply container_bound in Hm.
    replace (Z.to_nat (zlen l)) with (List.length l) by (unfold zlen; lia).
    eapply returns_bind; [exact (unmarshal_insert_ok (T:=K * V) id l [] rest Hv Hm)|].
    unfold id. by rewrite StdMap.foldl_insert_sorted.
  - intros xs rest _ [? ?] _. apply count_check_any_ok; [apply zlen_nonneg|done..].
Defined.

#[export] Instance set_ok `{KeyOrder T, MarshalOk T, SizeOf (stdset T)} : MarshalOk (stdset T).
Proof.
  refine {| valid s := Forall valid (elems s).*1 ∧ zlen (elems s) < 2 ^ 32 ∧
                       StdMap.sorted (elems s);
            encode s := encode_container (elems s).*1; count_ok := fits_128MB (stdset T) |}.
  - intros [l] b q (Hv & Hc & _). simpl in *. apply marshal_container_ok; [done|].
    by rewrite zlen_fmap.
  - intros [l] rest (Hv & Hc & Hs) Hm. simpl in *.
    eapply returns_bind; [apply pop_count_ok; by rewrite zlen_fmap|]. simpl.
    apply container_bound in Hm.
    replace (Z.to_nat (zlen l.*1)) with (List.length l.*1) by (unfold zlen; lia).
    eapply returns_bind; [exact (unmarshal_insert_ok (λ x : T, (x, ())) l.*1 [] rest Hv Hm)|].
    replace (foldl _ [] l.*1) with l; [done|].
    rewrite <- (StdMap.foldl_insert_sorted l Hs) at 1. clear.
    generalize (@nil (T * ())). induction l as [|[x []] l IH]; intros c; [done|]. apply IH.
  - intros xs rest _ [? ?] _. apply count_check_any_ok; [apply zlen_nonneg|done..].
Defined.

End PacketFacts.

Import Packet PacketFacts.

Module PacketTheorems.

(** ** Truncated input *)

(** The call throws an [UnpackError]. *)
Definition rejects {A} (m : unpack A) (p : list Z) : Prop :=
  ∃ w s, m p = (Exn (UnpackError w), s).

Lemma rejects_bind_l {A B} (m : unpack A) (f : A → unpack B) p :
  rejects m p → rejects (act_bind m f) p.
Proof. intros (w & s & E). exists w, s. unfold act_bind. by rewrite E. Qed.

Lemma rejects_bind_r {A B} (m : unpack A) (f : A → unpack B) p a p' :
  returns m p a p' → rejects (f a) p' → rejects (act_bind m f) p.
Proof.
  intros R (w & s & E). exists w, s. by rewrite (act_bind_val _ _ _ _ _ R).
Qed.

Lemma rejects_pop_bytes {B} k err (f : list Z → unpack B) p :
  zlen p < k → rejects (act_bind (pop_bytes k err) f) p.
Proof. intros. apply rejects_bind_l. eexists _, _. by apply pop_bytes_short. Qed.

(** Cutting a concatenation short: inside the first part, or after it. *)
Lemma prefix_app_cases (a b p k : list Z) :
  a ++ b = p ++ k → k ≠ [] →
  (∃ k', k' ≠ [] ∧ a = p ++ k') ∨ (∃ p', p = a ++ p' ∧ b = p' ++ k).
Proof.
  intros E Hk. apply app_eq_inv in E as [(k' & E1 & E2)|(k' & E1 & E2)].
  - destruct k' as [|z k'].
    + right. exists []. rewrite !app_nil_r in *. subst. done.
    + left. by exists (z :: k').
  - right. by exists k'.
Qed.

Class MarshalShort (T : Type) `{MarshalOk T} := {
  unmarshal_short x p k :
    valid x → encode x = p ++ k → k ≠ [] → zlen (encode x) < 2 ^ 32 →
    rejects (unmarshal dflt) p;
  count_check_or_error count size p :
    returns (marshal_count_check (T:=T) count size) p () p ∨
    rejects (marshal_count_check (T:=T) count size) p;
}.

Lemma count_check_base_cases w err count size p :
  returns (count_check_base w err count size) p () p ∨ rejects (count_check_base w err count size) p.
Proof.
  unfold count_check_base. destruct (size <? _); [right|left; done]. by eexists _, _.
Qed.

Lemma count_check_any_cases (T : Type) `{SizeOf T} count size p :
  returns (count_check_any T count size) p () p ∨ rejects (count_check_any T count size) p.
Proof. unfold count_check_any. destruct (_ <? _); [right|left; done]. by eexists _, _. Qed.

Lemma strict_prefix_zlen (e p k : list Z) : e = p ++ k → k ≠ [] → zlen p < zlen e.
Proof. intros -> Hk. destruct k; [done|]. zlia. Qed.

Ltac short_base :=
  intros x p k _ He Hk _; apply (strict_prefix_zlen _ _ _ He) in Hk;
  apply rejects_bind_l, rejects_pop_bytes; cbn in Hk; unfold zlen in *; simpl in Hk; lia.

#[export] Instance bool_short : MarshalShort bool.
Proof. split; [short_base|]. intros. apply count_check_base_cases. Qed.
#[export] Instance uint8_short : MarshalShort (uint 8).
Proof. split; [short_base|]. intros. apply count_check_base_cases. Qed.
#[export] Instance uint16_short : MarshalShort (uint 16).
Proof. split; [short_base|]. intros. apply count_check_base_cases. Qed.
#[export] Instance uint32_short : MarshalShort (uint 32).
Proof. split; [short_base|]. intros. apply count_check_base_cases. Qed.
#[export] Instance uint64_short : MarshalShort (uint 64).
Proof. split; [short_base|]. intros. apply count_check_base_cases. Qed.

(** A count or length field that is cut short is rejected. *)
Lemma rejects_uint {B} n err (f : Z → unpack B) v p k :
  le_bytes n v = p ++ k → k ≠ [] →
  rejects (act_bind (bs <- pop_bytes (Z.of_nat n) err ;; act_ret (le_val bs)) f) p.
Proof.
  intros E Hk. apply rejects_bind_l, rejects_pop_bytes.
  apply (strict_prefix_zlen _ _ _ E) in Hk. by rewrite zlen_le_bytes in Hk.
Qed.

#[export] Instance string_short `{SizeOf cppstring} : MarshalShort cppstring.
Proof.
  split; [|intros; apply count_check_any_cases].
  intros [s] p k Hv He Hk _. cbn [chars encode string_ok valid] in *.
  apply rejects_bind_l. pose proof (zlen_nonneg s).
  apply prefix_app_cases in He as [(k' & Hk' & He)|(p' & -> & He)]; [|..|done].
  - by apply (rejects_uint 2 _ _ _ _ k' He).
  - eapply rejects_bind_r; [apply pop_uint16_ok; ulia|].
    apply (strict_prefix_zlen _ _ _ He) in Hk. eexists _, _. by apply pop_bytes_short.
Qed.

#[export] Instance pair_short `{MarshalShort T1, MarshalShort T2, SizeOf (T1 * T2)} :
  MarshalShort (T1 * T2).
Proof.
  split; [|intros; apply count_check_any_cases].
  intros [x y] p k [Hx Hy] He Hk Hm. cbn [encode pair_ok fst snd] in *. rewrite zlen_app in Hm.
  pose proof (zlen_nonneg (encode x)). pose proof (zlen_nonneg (encode y)).
  apply prefix_app_cases in He as [(k' & Hk' & He)|(p' & -> & He)]; [|..|done].
  - apply rejects_bind_l. cbn. eapply unmarshal_short; [exact Hx|done..|lia].
  - eapply rejects_bind_r; [apply unmarshal_ok; [exact Hx|]|].
    { apply (strict_prefix_zlen _ _ _ He) in Hk. rewrite zlen_app. lia. }
    apply rejects_bind_l. eapply unmarshal_short; [exact Hy|done..|lia].
Qed.

Section containers.
Context `{MS : MarshalShort T}.

Lemma encode_all_short xs p k :
  Forall valid xs → encode_all xs = p ++ k → k ≠ [] → zlen (encode_all xs) < 2 ^ 32 →
  rejects (unmarshal_elements (replicate (List.length xs) dflt)) p ∧
  ∀ {K V} `{KeyOrder K} (key : T → K * V) c, rejects (unmarshal_insert key (List.length xs) c) p.
Proof.
  intros Hv. revert p. induction Hv as [|x xs Hx _ IH]; intros p He Hk Hm.
  { unfold encode_all in He. symmetry in He. apply app_nil in He as [_ ->]. done. }
  unfold encode_all in *. csimpl in *. rewrite zlen_app in Hm.
  pose proof (zlen_nonneg (encode x)). pose proof (zlen_nonneg (concat (encode <$> xs))).
  apply prefix_app_cases in He as [(k' & Hk' & He)|(p' & -> & He)]; [|..|done].
  - assert (rejects (unmarshal dflt) p) by (eapply unmarshal_short; [exact Hx|done..|lia]).
    split; [|intros]; by apply rejects_bind_l.
  - assert (returns (unmarshal dflt) (encode x ++ p') x p').
    { apply unmarshal_ok; [done|]. pose proof (strict_prefix_zlen _ _ _ He Hk).
      rewrite zlen_app. lia. }
    destruct (IH p' He Hk) as [IH1 IH2]; [lia|].
    split; [|intros]; eapply rejects_bind_r; [done| |done|].
    + by apply rejects_bind_l.
    + apply IH2.
Qed.

Lemma encode_container_short {B} (f : Z → unpack B) xs p k :
  encode_container xs = p ++ k → k ≠ [] → zlen xs < 2 ^ 32 →
  (∀ p', encode_all xs = p' ++ k → rejects (f (zlen xs)) p') →
  rejects (act_bind pop_uint32 f) p.
Proof.
  intros He Hk Hc Hf. unfold encode_container in He. pose proof (zlen_nonneg xs).
  apply prefix_app_cases in He as [(k' & Hk' & He)|(p' & -> & He)]; [|..|done].
  - by apply (rejects_uint 4 _ _ _ _ k' He).
  - eapply rejects_bind_r; [apply pop_uint32_ok; ulia|]. by apply Hf.
Qed.

Lemma encode_all_lt xs n : zlen (encode_container xs) < n → zlen (encode_all xs) < n.
Proof. unfold encode_container. rewrite zlen_app, zlen_le_bytes. lia. Qed.
End containers.

#[export] Instance vector_short `{MarshalShort T, SizeOf (list T)} : MarshalShort (list T).
Proof.
  split; [|intros; apply count_check_any_cases].
  intros xs p k (Hv & Hc & Ho) He Hk Hm. cbn [encode vector_ok] in *.
  apply encode_all_lt in Hm. eapply encode_container_short; [done..|]. intros p' E.
  destruct (zlen xs =? 0) eqn:E0.
  { destruct xs; [|rewrite zlen_cons in E0; pose proof (zlen_nonneg xs); lia].
    unfold encode_all in E. symmetry in E. by apply app_nil in E as [_ ->]. }
  eapply rejects_bind_r; [reflexivity|].
  destruct (count_check_or_error (zlen xs) (u32 (zlen p')) p') as [R|R].
  2: { by apply rejects_bind_l. }
  eapply rejects_bind_r; [exact R|]. unfold vector_resize, zlen. rewrite Nat2Z.id.
  cbn [dflt marshal_vector]. rewrite take_nil. simpl. rewrite Nat.sub_0_r.
  by apply (encode_all_short xs p' k).
Qed.

#[export] Instance map_short `{KeyOrder K, MarshalShort K, MarshalShort V, SizeOf (K * V),
    SizeOf (stdmap K V)} : MarshalShort (stdmap K V).
Proof.
  split; [|intros; apply count_check_any_cases].
  intros [l] p k (Hv & Hc & Hs) He Hk Hm. cbn [encode map_ok entries] in *.
  apply encode_all_lt in Hm.
  eapply (encode_container_short (T:=K * V)); [done..|]. intros p' E.
  apply rejects_bind_l. replace (Z.to_nat (zlen l)) with (List.length l) by (unfold zlen; lia).
  destruct (encode_all_short (T:=K * V) l p' k Hv E Hk Hm) as [_ R]. apply R.
Qed.

#[export] Instance set_short `{KeyOrder T, MarshalShort T, SizeOf (stdset T)} :
  MarshalShort (stdset T).
Proof.
  split; [|intros; apply count_check_any_cases].
  intros [l] p k (Hv & Hc & Hs) He Hk Hm. cbn [encode set_ok elems] in *.
  apply encode_all_lt in Hm.
  eapply encode_container_short; [done..|by rewrite zlen_fmap|]. intros p' E.
  apply rejects_bind_l.
  replace (Z.to_nat (zlen l.*1)) with (List.length l.*1) by (unfold zlen; lia).
  destruct (encode_all_short l.*1 p' k Hv E Hk Hm) as [_ R]. apply R.
Qed.

(** ** The types the overloads of packet.h marshal

    A closed family: [Packable T M] says that [T] with the operators [M] is a
    base type, a string, or a pair, vector, map or set of such types. The sizes
    of the types and the order of the keys are those of the platform. *)
Inductive Packable : ∀ T : Type, Marshal T → Type :=
  | pk_bool : Packable bool marshal_bool
  | pk_uint8 : Packable (uint 8) marshal_uint8
  | pk_uint16 : Packable (uint 16) marshal_uint16
  | pk_uint32 : Packable (uint 32) marshal_uint32
  | pk_uint64 : Packable (uint 64) marshal_uint64
  | pk_string `{SizeOf cppstring} : Packable cppstring marshal_string
  | pk_pair {T1 M1 T2 M2} `{SizeOf (T1 * T2)} :
      Packable T1 M1 → Packable T2 M2 → Packable (T1 * T2) marshal_pair
  | pk_vector {T M} `{SizeOf (list T)} : Packable T M → Packable (list T) marshal_vector
  | pk_map {K MK V MV} `{KeyOrder K, SizeOf (K * V), SizeOf (stdmap K V)} :
      Packable K MK → Packable V MV → Packable (stdmap K V) marshal_map
  | pk_set {T M} `{KeyOrder T, SizeOf (stdset T)} : Packable T M → Packable (stdset T) marshal_set.

Existing Class Packable.

#[export] Instance packable_ok {T M} (P : Packable T M) : @MarshalOk T M.
Proof. induction P; apply _. Defined.

#[export] Instance packable_short {T M} (P : Packable T M) : @MarshalShort T M (packable_ok P).
Proof. induction P; apply _. Qed.

(** ** Whole messages *)

Lemma zlen_getRawHeader h : zlen (getRawHeader h) = HEADER_SIZE.
Proof. unfold getRawHeader. by rewrite !zlen_app, !zlen_le_bytes. Qed.

Lemma parseRawHeader_ok h rest :
  is_uint 32 (length h) → is_uint 32 (uri h) → is_uint 16 (resCode h) →
  parseRawHeader (getRawHeader h ++ rest) = h.
Proof.
  intros H1 H2 H3. destruct h as [l u r]. unfold parseRawHeader, getRawHeader. cbn [length uri resCode] in *.
  rewrite <- !(assoc_L (++)).
  replace (zdrop 8 _) with (le_bytes 2 r ++ rest)
    by (symmetry; rewrite (assoc_L (++)); apply zdrop_app; by rewrite zlen_app, !zlen_le_bytes).
  rewrite (zdrop_app (le_bytes 4 l)) by by rewrite zlen_le_bytes.
  rewrite !ztake_app by by rewrite zlen_le_bytes.
  by rewrite !le_val_bytes.
Qed.

Lemma marshall_ok `{MarshalOk T} u (m : T) :
  valid m → HEADER_SIZE + zlen (encode m) < 2 ^ 32 →
  ∃ b, returns (marshall u m) (packbuffer_new 256) () b ∧
       data b = Some (Some <$> getRawHeader {| length := HEADER_SIZE + zlen (encode m);
                                               uri := u; resCode := 200 |} ++ encode m).
Proof.
  intros Hv Hm. unfold HEADER_SIZE in *. pose proof (zlen_nonneg (encode m)).
  set (b0 := {| buf := mem_alloc 256; len := 10; cap := 256 |}).
  assert (returns (seek HEADER_SIZE) (packbuffer_new 256) () b0) as R0 by reflexivity.
  assert (pb_holds b0 (replicate 10 None)) as Hb0 by (constructor; [done|simpl; lia|done|done]).
  destruct (marshal_ok m b0 _ Hv Hb0) as (b1 & R1 & Hb1); [change (zlen (replicate 10 None)) with 10; lia|].
  pose proof (pb_holds_len _ _ Hb1) as Hl. rewrite zlen_app, zlen_fmap in Hl.
  change (zlen (replicate 10 None)) with 10 in Hl.
  destruct (replace0_ok b1 (replicate 10 None) (Some <$> encode m)
    (getRawHeader {| length := 10 + zlen (encode m); uri := u; resCode := 200 |}) Hb1)
    as (b2 & R2 & Hb2); [by rewrite zlen_getRawHeader|].
  exists b2. split; [|by rewrite (pb_holds_data _ _ Hb2), fmap_app].
  eapply returns_bind; [exact R0|]. eapply returns_bind; [exact R1|].
  eapply returns_bind; [reflexivity|]. simpl. rewrite Hl, wrap_small by ulia. exact R2.
Qed.

Lemma get_header_short bs : zlen bs < HEADER_SIZE → returns get_header bs None bs.
Proof. intros. unfold returns, get_header. act_step. by rewrite (proj2 (Z.ltb_lt _ _)). Qed.

Lemma get_header_ok h rest :
  is_uint 32 (length h) → is_uint 32 (uri h) → is_uint 16 (resCode h) →
  returns get_header (getRawHeader h ++ rest) (Some h) (getRawHeader h ++ rest).
Proof.
  intros. unfold returns, get_header. act_step. pose proof (zlen_nonneg rest).
  rewrite zlen_app, zlen_getRawHeader, (proj2 (Z.ltb_ge _ _)) by lia.
  by rewrite parseRawHeader_ok.
Qed.

Lemma pop_header_ok h rest : returns pop_header (getRawHeader h ++ rest) () rest.
Proof.
  unfold returns, pop_header. act_step. pose proof (zlen_nonneg rest).
  rewrite zlen_app, zlen_getRawHeader, (proj2 (Z.leb_le _ _)) by lia.
  by rewrite zdrop_app by by rewrite zlen_getRawHeader.
Qed.

Lemma finish_too_much bs : bs ≠ [] → rejects finish bs.
Proof.
  intros Hb. unfold rejects, finish. act_step. destruct bs; [done|].
  rewrite zlen_cons, (proj2 (Z.eqb_neq _ _)) by (pose proof (zlen_nonneg bs); lia).
  by eexists _, _.
Qed.

(** C14: for every type built from the marshalled base types, strings, pairs,
    vectors, maps and sets, and every valid value [m], Pack::marshall writes a
    fully initialised message; on it Unpack::header yields the message length,
    the uri and result code 200, and popping the header, reading the value and
    calling finish() gives [m] back with nothing left. *)
Theorem pack_unpack_roundtrip `{MarshalOk T} u (m : T) :
  valid m → is_uint 32 u → HEADER_SIZE + zlen (encode m) < 2 ^ 32 →
  ∃ b msg,
    returns (marshall u m) (packbuffer_new 256) () b ∧
    data b = Some (Some <$> msg) ∧ zlen msg = HEADER_SIZE + zlen (encode m) ∧
    returns get_header msg (Some {| length := zlen msg; uri := u; resCode := 200 |}) msg ∧
    returns (pop_header ;;; x <- unmarshal dflt ;; finish ;;; act_ret x) msg m [].
Proof.
  intros Hv Hu Hm. destruct (marshall_ok u m Hv Hm) as (b & R & D).
  set (h := {| length := HEADER_SIZE + zlen (encode m); uri := u; resCode := 200 |}) in *.
  pose proof (zlen_getRawHeader h) as Hh. pose proof (zlen_nonneg (encode m)).
  exists b, (getRawHeader h ++ encode m).
  assert (zlen (getRawHeader h ++ encode m) = HEADER_SIZE + zlen (encode m)) as Hz
    by (rewrite zlen_app; lia).
  split_and!; [done|done|done| |].
  - unfold returns, get_header. act_step. rewrite Hz. rewrite (proj2 (Z.ltb_ge _ _)) by lia.
    rewrite parseRawHeader_ok; unfold HEADER_SIZE in *; [done|simpl; ulia..].
  - apply (returns_bind _ _ _ () (encode m)).
    { unfold returns, pop_header. act_step. rewrite Hz, (proj2 (Z.leb_le _ _)) by lia.
      by rewrite zdrop_app. }
    assert (returns (unmarshal dflt) (encode m ++ []) m []) as Ru.
    { apply unmarshal_ok; [done|]. rewrite app_nil_r. unfold HEADER_SIZE in Hm. lia. }
    rewrite app_nil_r in Ru. eapply returns_bind; [exact Ru|]. reflexivity.
Qed.

(** The sizes of libstdc++ on x86-64. *)
#[local] Instance sizeof_string : SizeOf cppstring := 32.
#[local] Instance sizeof_entry : SizeOf (cppstring * list (uint 16)) := 56.
#[local] Instance sizeof_vector : SizeOf (list (uint 16)) := 24.
#[local] Instance sizeof_map : SizeOf (stdmap cppstring (list (uint 16))) := 48.

#[local] Instance cppstring_order : KeyOrder cppstring.
Proof.
  refine {| klt s t := klt (chars s) (chars t) |}.
  - intros. apply klt_irrefl.
  - intros. by eapply klt_trans.
  - intros [s] [t] H1 H2. f_equal. by apply klt_total.
Defined.

Definition sample : stdmap cppstring (list (uint 16)) :=
  Map [(Str [97], [Uint 1; Uint 515]); (Str [97; 98], []); (Str [98], [Uint 65535])].

Lemma sample_valid : valid sample.
Proof.
  split_and!; [|done|].
  - repeat constructor; done.
  - repeat constructor.
Qed.

Lemma pack_unpack_roundtrip_witness :
  ∃ b msg,
    returns (marshall 7 sample) (packbuffer_new 256) () b ∧
    data b = Some (Some <$> msg) ∧ zlen msg = HEADER_SIZE + zlen (encode sample) ∧
    returns get_header msg (Some {| length := zlen msg; uri := 7; resCode := 200 |}) msg ∧
    returns (pop_header ;;; x <- unmarshal dflt ;; finish ;;; act_ret x) msg sample [].
Proof. apply pack_unpack_roundtrip; [exact sample_valid|done|vm_compute; done]. Defined.

(** C15: for every type packet.h marshals ([Packable]: the base types,
    strings, and all nestings of pairs, vectors, maps and sets) and every valid
    value [m], a message Pack::marshall writes is read only if it is whole. Cut
    inside the header, Unpack::header answers false; cut anywhere behind it,
    the header still names the full length and popping the header and reading
    the value throws an UnpackError, and so does reading a cut body alone; with
    bytes appended the value is read and finish() throws an UnpackError. *)
Theorem truncated_message_rejected {T M} (P : Packable T M) u (m : T) :
  valid m → is_uint 32 u → HEADER_SIZE + zlen (encode m) < 2 ^ 32 →
  ∃ b msg,
    returns (marshall u m) (packbuffer_new 256) () b ∧ data b = Some (Some <$> msg) ∧
    (∀ p k, msg = p ++ k → k ≠ [] →
      if zlen p <? HEADER_SIZE then returns get_header p None p
      else returns get_header p (Some {| length := zlen msg; uri := u; resCode := 200 |}) p ∧
           zlen p < zlen msg ∧ rejects (pop_header ;;; unmarshal (T:=T) dflt) p) ∧
    (∀ p k, encode m = p ++ k → k ≠ [] → rejects (unmarshal (T:=T) dflt) p) ∧
    (∀ k, k ≠ [] → zlen (msg ++ k) < 2 ^ 32 →
      returns (pop_header ;;; unmarshal (T:=T) dflt) (msg ++ k) m k ∧ rejects finish k).
Proof.
  intros Hv Hu Hm. destruct (marshall_ok u m Hv Hm) as (b & R & D).
  set (h := {| length := HEADER_SIZE + zlen (encode m); uri := u; resCode := 200 |}) in *.
  exists b, (getRawHeader h ++ encode m). pose proof (zlen_nonneg (encode m)).
  assert (zlen (getRawHeader h ++ encode m) = HEADER_SIZE + zlen (encode m)) as Hz
    by (rewrite zlen_app, zlen_getRawHeader; lia).
  assert (∀ p k, encode m = p ++ k → k ≠ [] → rejects (unmarshal (T:=T) dflt) p) as Hb.
  { intros p k He Hk. apply (unmarshal_short m p k Hv He Hk). unfold HEADER_SIZE in Hm. lia. }
  split_and!; [done|done| |exact Hb|].
  - intros p k He Hk. apply prefix_app_cases in He as [(k' & Hk' & He)|(p' & -> & He)]; [|..|done].
    + apply (strict_prefix_zlen _ _ _ He) in Hk'. rewrite zlen_getRawHeader in Hk'.
      rewrite (proj2 (Z.ltb_lt _ _)) by done. by apply get_header_short.
    + pose proof (zlen_nonneg p'). rewrite zlen_app, zlen_getRawHeader.
      rewrite (proj2 (Z.ltb_ge _ _)) by lia. split_and!.
      * rewrite Hz. apply get_header_ok; unfold HEADER_SIZE in *; simpl; ulia.
      * apply (strict_prefix_zlen _ _ _ He) in Hk. lia.
      * eapply rejects_bind_r; [apply pop_header_ok|]. by apply (Hb p' k).
  - intros k Hk Hmk. rewrite <- (assoc_L (++)) in *. split.
    + eapply returns_bind; [apply pop_header_ok|]. apply unmarshal_ok; [done|].
      rewrite zlen_app, zlen_getRawHeader in Hmk. unfold HEADER_SIZE in Hmk. lia.
    + by apply finish_too_much.
Qed.

Lemma truncated_message_rejected_witness :
  ∃ b msg,
    returns (marshall 7 sample) (packbuffer_new 256) () b ∧ data b = Some (Some <$> msg) ∧
    (∀ p k, msg = p ++ k → k ≠ [] →
      if zlen p <? HEADER_SIZE then returns get_header p None p
      else returns get_header p (Some {| length := zlen msg; uri := 7; resCode := 200 |}) p ∧
           zlen p < zlen msg ∧
           rejects (pop_header ;;; unmarshal (T:=stdmap cppstring (list (uint 16))) dflt) p) ∧
    (∀ p k, encode sample = p ++ k → k ≠ [] →
      rejects (unmarshal (T:=stdmap cppstring (list (uint 16))) dflt) p) ∧
    (∀ k, k ≠ [] → zlen (msg ++ k) < 2 ^ 32 →
      returns (pop_header ;;; unmarshal (T:=stdmap cppstring (list (uint 16))) dflt)
        (msg ++ k) sample k ∧
      rejects finish k).
Proof.
  apply (truncated_message_rejected (pk_map pk_string (pk_vector pk_uint16)));
    [exact sample_valid|done|vm_compute; done].
Defined.

(** PackBuffer::replace ignores the position it is given: whenever the
    range check lets [replace pos rep] through, the outcome and the final
    buffer are those of [replace 0 rep], so for [pos > 0] the bytes land at
    the start of the buffer and overwrite what is there. *)
Theorem replace_ignores_position b q pos rep :
  pb_holds b q → 0 <= pos → pos + zlen rep <= zlen q →
  replace pos rep b = replace 0 rep b ∧
  ∃ b', returns (replace pos rep) b () b' ∧
        data b' = Some ((Some <$> rep) ++ zdrop (zlen rep) q).
Proof.
  intros H Hp Hr. pose proof (pb_holds_len _ _ H) as Hl. pose proof (zlen_nonneg rep).
  assert (replace pos rep b = replace 0 rep b) as E.
  { destruct H as [Hc Hlb Hm Hq]. unfold replace. do 2 (symmetry; act_step).
    rewrite !wrap_small by ulia. by rewrite !(proj2 (Z.ltb_ge _ _)) by lia. }
  split; [done|]. unfold returns. rewrite E.
  assert (pb_holds b (ztake (zlen rep) q ++ zdrop (zlen rep) q)) as H' by by rewrite ztake_zdrop.
  destruct (replace0_ok b _ _ rep H') as (b' & R & Hb'); [rewrite zlen_ztake; lia|].
  exists b'. split; [done|]. by apply pb_holds_data.
Qed.

Lemma replace_ignores_position_witness :
  let b := {| buf := Some <$> [1; 2; 3; 4; 5]; len := 5; cap := 5 |} in
  replace 3 [9; 9] b = replace 0 [9; 9] b ∧
  ∃ b', returns (replace 3 [9; 9]) b () b' ∧
        data b' = Some ((Some <$> [9; 9]) ++ zdrop (zlen [9; 9]) (Some <$> [1; 2; 3; 4; 5])).
Proof.
  apply (replace_ignores_position _ (Some <$> [1; 2; 3; 4; 5]));
    [constructor; vm_compute; try done; split; done|done|vm_compute; done].
Defined.

(** Reading into objects that are not fresh: a vector keeps its old elements
    when the message holds an empty vector. *)
Lemma unmarshal_empty_vector_keeps_old `{MarshalOk T, SizeOf (list T)} (old : list T) rest :
  returns (unmarshal old) (encode_container (T:=T) [] ++ rest) old rest.
Proof.
  eapply returns_bind; [by apply (pop_count_ok (T:=T) [])|]. reflexivity.
Qed.

End PacketTheorems.
