(* ===== verification/LruCache.v ===== *)
(** * lru_cache: the recency cache of cppBase/utility/lrucache.h

    The cache keeps its entries in a [std::list] and an [unordered_map] from
    keys to list iterators.  A list node has an identity here, so that an
    iterator stored in the map denotes one node wherever the list moves it.
    [Recency] is the promise: the entries, most recently used first, at most
    [capacity] of them. *)
From S2P Require Import Prelude.

Module LruCache.
(** An iterator is the identity of its node. *)
Abbreviation iterator := nat.

Section lru.
Context {K V : Type} `{Countable K}.

Record lru_cache := mk_lru {
  _list : list (iterator * (K * V));
  _map : gmap K iterator;
  _capacity : Z;
  _fresh : iterator;        (** no node has this identity or a later one *)
}.

Inductive range_error : Type := NoSuchKey.

Definition lru (A : Type) : Type := act lru_cache range_error A.

Definition construct (capacity : Z) : lru_cache :=
  {| _list := []; _map := ∅; _capacity := capacity; _fresh := 0%nat |}.

(** Dereferencing an iterator of the list. *)
Fixpoint deref (l : list (iterator * (K * V))) (it : iterator) : option (K * V) :=
  match l with
  | [] => None
  | (i, e) :: l => if decide (i = it) then Some e else deref l it
  end.

(** [list::erase(it)]; an iterator that denotes no node is undefined. *)
Fixpoint list_erase (l : list (iterator * (K * V))) (it : iterator) : list (iterator * (K * V)) :=
  match l with
  | [] => []
  | (i, e) :: l => if decide (i = it) then l else (i, e) :: list_erase l it
  end.

Definition list_push_front (e : K * V) : lru iterator := λ s,
  (Val (_fresh s),
   {| _list := (_fresh s, e) :: _list s; _map := _map s; _capacity := _capacity s;
      _fresh := S (_fresh s) |}).

Definition erase_node (it : iterator) : lru () :=
  s <- get_state ;;
  match deref (_list s) it with
  | Some _ => put_state {| _list := list_erase (_list s) it; _map := _map s;
                           _capacity := _capacity s; _fresh := _fresh s |}
  | None => undefined
  end.

(** [splice(begin(), _list, it)]: the node moves to the front. *)
Definition splice_front (it : iterator) : lru () :=
  s <- get_state ;;
  match deref (_list s) it with
  | Some e => put_state {| _list := (it, e) :: list_erase (_list s) it; _map := _map s;
                           _capacity := _capacity s; _fresh := _fresh s |}
  | None => undefined
  end.

Definition set_map (f : gmap K iterator → gmap K iterator) : lru () :=
  modify (λ s, {| _list := _list s; _map := f (_map s); _capacity := _capacity s;
                  _fresh := _fresh s |}).

Definition size (s : lru_cache) : Z := Z.of_nat (base.size (_map s)).

(** The last entry goes; on an empty list this is undefined. *)
Definition evict : lru () :=
  s <- get_state ;;
  match last (_list s) with
  | Some (_, (k, _)) =>
      set_map (delete k) ;;;
      modify (λ s, {| _list := removelast (_list s); _map := _map s;
                      _capacity := _capacity s; _fresh := _fresh s |})
  | None => undefined
  end.

Definition put (key : K) (value : V) : lru () :=
  s <- get_state ;;
  let it := _map s !! key in
  front <- list_push_front (key, value) ;;
  match it with
  | Some node => erase_node node ;;; set_map (delete key)
  | None => act_ret ()
  end ;;;
  set_map (<[key := front]>) ;;;
  s <- get_state ;;
  when _capacity s <? size s do evict.

Definition get (key : K) : lru V :=
  s <- get_state ;;
  match _map s !! key with
  | None => throw NoSuchKey
  | Some it =>
      splice_front it ;;;
      s <- get_state ;;
      match deref (_list s) it with
      | Some (_, v) => act_ret v
      | None => undefined
      end
  end.

(** [None] is the end iterator. *)
Definition get_iter (key : K) : lru (option iterator) :=
  s <- get_state ;;
  match _map s !! key with
  | None => act_ret None
  | Some it => splice_front it ;;; act_ret (Some it)
  end.

Definition find (key : K) (s : lru_cache) : option iterator := _map s !! key.

(** [begin()]; on an empty list it is [end()]. *)
Definition begin (s : lru_cache) : option iterator := fst <$> head (_list s).

Definition exists_ (key : K) (s : lru_cache) : bool := bool_decide (is_Some (_map s !! key)).

(** [_map.erase(it)] ends the life of the map node; [it->second] is then a
    read of freed memory. *)
Definition erase (key : K) : lru Z :=
  s <- get_state ;;
  match _map s !! key with
  | None => act_ret 0
  | Some _ => set_map (delete key) ;;; undefined
  end.

Definition clear : lru () :=
  modify (λ s, {| _list := []; _map := ∅; _capacity := _capacity s; _fresh := _fresh s |}).

End lru.
Arguments lru_cache K V {_ _}.
Arguments lru K V {_ _} A.
End LruCache.

Module Recency.
Section recency.
Context {K V : Type} `{EqDecision K}.
Implicit Types l : list (K * V).

Definition without (k : K) l : list (K * V) := filter (λ e, e.1 ≠ k) l.

Definition lookup_entry (k : K) l : option V := snd <$> head (filter (λ e, e.1 = k) l).

Definition put_spec (cap : nat) (k : K) (v : V) l : list (K * V) := take cap ((k, v) :: without k l).

Definition touch (k : K) l : list (K * V) :=
  match lookup_entry k l with
  | Some v => (k, v) :: without k l
  | None => l
  end.
End recency.
End Recency.
