(* ===== verification/LruCacheFacts.v ===== *)
(** * Correctness of lru_cache (cppBase/utility/lrucache.h)

    The refinement of [Recency], and the undefined behaviour of [erase]. *)
From S2P Require Import Prelude LruCache.
Import LruCache Recency.

Module LruCacheFacts.
Section facts.
Context {K V : Type} `{Countable K}.
Abbreviation node := (iterator * (K * V))%type.
Abbreviation cache := (lru_cache K V).
Implicit Types (s : cache) (l : list node) (k : K) (v : V) (it : iterator) (q : list (K * V)).

Definition keymap l : gmap K iterator := list_to_map ((λ n, (n.2.1, n.1)) <$> l).
Definition keys l : list K := (λ n, n.2.1) <$> l.

(** The cache is well formed and holds the entries [q], newest first. *)
Record holds s q : Prop := {
  h_ids : NoDup (_list s).*1;
  h_keys : NoDup (keys (_list s));
  h_fresh : Forall (λ n, n.1 < _fresh s)%nat (_list s);
  h_map : _map s = keymap (_list s);
  h_cap : Z.of_nat (length (_list s)) <= _capacity s;
  h_entries : (_list s).*2 = q;
}.

Lemma keymap_cons n l : keymap (n :: l) = <[n.2.1 := n.1]> (keymap l).
Proof. done. Qed.

Lemma keymap_None l k : k ∉ keys l → keymap l !! k = None.
Proof.
  induction l as [|n l IH]; [intros; apply lookup_empty|].
  intros Hk. rewrite keymap_cons. unfold keys in *. csimpl in *.
  apply not_elem_of_cons in Hk as [Hne Hk]. rewrite lookup_insert_ne by done. by apply IH.
Qed.

Lemma keymap_Some l k it : keymap l !! k = Some it → ∃ v, (it, (k, v)) ∈ l.
Proof.
  induction l as [|[i [k' v']] l IH]; [unfold keymap; simpl; by rewrite lookup_empty|].
  rewrite keymap_cons, lookup_insert. simpl. case_decide as Hd; subst.
  - intros [= ->]. exists v'. left.
  - intros [v Hv]%IH. exists v. by right.
Qed.

Lemma keymap_elem l it k v : NoDup (keys l) → (it, (k, v)) ∈ l → keymap l !! k = Some it.
Proof.
  induction l as [|[i [k' v']] l IH]; [by intros _ ?%elem_of_nil|].
  unfold keys. csimpl. rewrite NoDup_cons. intros [Hk Hn] Hin. rewrite keymap_cons. simpl.
  apply elem_of_cons in Hin as [[= -> -> ->]|Hin]; [by rewrite lookup_insert_eq|].
  rewrite lookup_insert_ne; [by apply IH|]. intros ->. destruct Hk.
  apply list_elem_of_fmap. by exists (it, (k, v)).
Qed.

Lemma keymap_filter l k : keymap (filter (λ n, n.2.1 ≠ k) l) = delete k (keymap l).
Proof.
  induction l as [|[i [k' v']] l IH].
  - unfold keymap. simpl. by rewrite delete_empty.
  - rewrite filter_cons, keymap_cons. simpl. case_decide as Hd.
    + rewrite keymap_cons. simpl. by rewrite IH, delete_insert_ne.
    + subst. by rewrite IH, delete_insert_eq.
Qed.

Lemma keymap_snoc l n : n.2.1 ∉ keys l → keymap l = delete n.2.1 (keymap (l ++ [n])).
Proof.
  intros Hk. rewrite <- keymap_filter, filter_app, filter_cons, decide_False by (by intros []).
  rewrite app_nil_r. f_equal. clear -Hk. induction l as [|m l IH]; [done|].
  unfold keys in *. csimpl in *. apply not_elem_of_cons in Hk as [Hne Hk].
  rewrite filter_cons, decide_True by done. f_equal. by apply IH.
Qed.

Lemma keymap_size l : NoDup (keys l) → base.size (keymap l) = length l.
Proof.
  intros Hn. unfold keymap. rewrite map_size_list_to_map.
  - by rewrite length_fmap.
  - by rewrite <- list_fmap_compose.
Qed.

Lemma deref_elem l it k v : NoDup l.*1 → (it, (k, v)) ∈ l → deref l it = Some (k, v).
Proof.
  induction l as [|[i e] l IH]; [by intros _ ?%elem_of_nil|]. csimpl.
  rewrite NoDup_cons. intros [Hi Hn] Hin.
  apply elem_of_cons in Hin as [[= -> <-]|Hin]; [by rewrite decide_True|].
  rewrite decide_False; [by apply IH|]. intros ->. destruct Hi.
  apply list_elem_of_fmap. by exists (it, (k, v)).
Qed.

Lemma filter_absent l k : k ∉ keys l → filter (λ n, n.2.1 ≠ k) l = l.
Proof.
  induction l as [|n l IH]; [done|]. unfold keys. csimpl. rewrite not_elem_of_cons.
  intros [Hne Hk]. rewrite filter_cons, decide_True by done. f_equal. by apply IH.
Qed.

Lemma list_erase_filter l it k v :
  NoDup l.*1 → NoDup (keys l) → (it, (k, v)) ∈ l →
  list_erase l it = filter (λ n, n.2.1 ≠ k) l.
Proof.
  induction l as [|[i [k' v']] l IH]; [by intros _ _ ?%elem_of_nil|]. unfold keys. csimpl.
  rewrite !NoDup_cons. intros [Hi Hn] [Hk Hnk] Hin. rewrite filter_cons. simpl.
  apply elem_of_cons in Hin as [[= <- <- <-]|Hin].
  - rewrite decide_True, decide_False by (done || (by intros [])). symmetry. by apply filter_absent.
  - rewrite decide_False, decide_True.
    + f_equal. by apply IH.
    + simpl. intros ->. destruct Hk. apply list_elem_of_fmap. by exists (it, (k, v)).
    + intros ->. destruct Hi. apply list_elem_of_fmap. by exists (it, (k, v)).
Qed.

Lemma filter_entries l k : (filter (λ n, n.2.1 ≠ k) l).*2 = without k l.*2.
Proof.
  unfold without. induction l as [|n l IH]; [done|]. csimpl. rewrite !filter_cons. simpl.
  case_decide; csimpl; by rewrite IH.
Qed.

Lemma sublist_ids l k : NoDup l.*1 → NoDup (filter (λ n, n.2.1 ≠ k) l).*1.
Proof.
  induction l as [|n l IH]; [done|]. csimpl. rewrite NoDup_cons. intros [Hi Hn].
  rewrite filter_cons. case_decide; [|by apply IH]. csimpl. apply NoDup_cons.
  split; [|by apply IH]. intros Hin. destruct Hi.
  apply list_elem_of_fmap in Hin as (m & -> & Hm). apply list_elem_of_filter in Hm as [_ Hm].
  by apply list_elem_of_fmap_2.
Qed.

Lemma filter_keys l k : NoDup (keys l) →
  NoDup (keys (filter (λ n, n.2.1 ≠ k) l)) ∧ k ∉ keys (filter (λ n, n.2.1 ≠ k) l).
Proof.
  intros Hn. split.
  - unfold keys in *. induction l as [|n l IH]; [done|]. csimpl in *. rewrite NoDup_cons in Hn.
    destruct Hn as [Hi Hn]. rewrite filter_cons. case_decide; [|by apply IH]. csimpl.
    apply NoDup_cons. split; [|by apply IH]. intros Hin. destruct Hi.
    apply list_elem_of_fmap in Hin as (m & -> & Hm). apply list_elem_of_filter in Hm as [_ Hm].
    by apply (list_elem_of_fmap_2 (λ n, n.2.1)).
  - unfold keys. intros Hin. apply list_elem_of_fmap in Hin as (m & -> & Hm).
    by apply list_elem_of_filter in Hm as [Hne _].
Qed.

Lemma filter_fresh l k f :
  Forall (λ n, n.1 < f)%nat l → Forall (λ n, n.1 < f)%nat (filter (λ n, n.2.1 ≠ k) l).
Proof.
  rewrite !Forall_forall. intros Hf n Hn. apply list_elem_of_filter in Hn as [_ Hn]. by apply Hf.
Qed.

Lemma fresh_not_in l f : Forall (λ n, n.1 < f)%nat l → f ∉ l.*1.
Proof.
  intros Hf Hin. apply list_elem_of_fmap in Hin as (n & -> & Hn).
  rewrite Forall_forall in Hf. specialize (Hf n Hn). simpl in Hf. lia.
Qed.

Lemma construct_holds_nil cap : 0 <= cap → holds (construct cap) [].
Proof. intros. constructor; simpl; (constructor || done). Qed.

(** The node in front of the entries without its key: what [put] and the
    look-ups build before any eviction. *)
Record fronted s it k v l : Prop := {
  f_list : _list s = (it, (k, v)) :: filter (λ n, n.2.1 ≠ k) l;
  f_map : _map s = <[k := it]> (delete k (keymap l));
}.

Lemma fronted_keymap s it k v l : fronted s it k v l → _map s = keymap (_list s).
Proof. intros [-> ->]. by rewrite keymap_cons, keymap_filter. Qed.

(** [put] up to the eviction. *)
Lemma put_front s q k v :
  holds s q →
  ∃ s', fronted s' (_fresh s) k v (_list s) ∧ _capacity s' = _capacity s ∧
        _fresh s' = S (_fresh s) ∧
        put k v s = (when _capacity s' <? size s' do evict) s'.
Proof.
  intros [Hi Hk Hf Hm Hc He].
  set (l := _list s) in *. set (new := (_fresh s, (k, v))).
  destruct (_map s !! k) as [it|] eqn:Hmk.
  - rewrite Hm in Hmk. destruct (keymap_Some _ _ _ Hmk) as [v0 Hin].
    assert (it < _fresh s)%nat as Hlt.
    { rewrite Forall_forall in Hf. by apply (Hf _ Hin). }
    exists {| _list := new :: list_erase l it; _map := <[k := _fresh s]> (delete k (_map s));
              _capacity := _capacity s; _fresh := S (_fresh s) |}.
    split_and!; [|done|done|].
    + split; simpl; [|by rewrite Hm]. f_equal. by eapply list_erase_filter.
    + unfold put. act_step. rewrite Hm, Hmk. act_step. rewrite act_bind_assoc.
      unfold erase_node. rewrite act_bind_assoc. act_step. simpl.
      rewrite !decide_False by lia. rewrite (deref_elem (_list s) it k v0) by done.
      act_step. simpl. act_step. act_step. act_step. by rewrite Hm.
  - rewrite Hm in Hmk. assert (k ∉ keys l) as Hnk.
    { intros Hin. apply list_elem_of_fmap in Hin as ([i [k' v']] & -> & Hin).
      simpl in Hmk. by rewrite (keymap_elem l i k' v') in Hmk. }
    exists {| _list := new :: l; _map := <[k := _fresh s]> (_map s);
              _capacity := _capacity s; _fresh := S (_fresh s) |}.
    split_and!; [|done|done|].
    + split; simpl; [by rewrite filter_absent|]. by rewrite delete_id, Hm.
    + unfold put. act_step. rewrite Hm, Hmk. act_step. act_step. act_step. act_step. by rewrite Hm.
Qed.

Lemma put_refines s q k v :
  0 <= _capacity s → holds s q →
  ∃ s', returns (put k v) s () s' ∧ _capacity s' = _capacity s ∧
        holds s' (put_spec (Z.to_nat (_capacity s)) k v q).
Proof.
  intros Hcap Hh. destruct (put_front s q k v Hh) as (s1 & Hfr & Hc1 & Hf1 & E).
  destruct Hh as [Hi Hk Hf Hm Hc He]. pose proof (fronted_keymap _ _ _ _ _ Hfr) as Hm1.
  destruct Hfr as [Hl1 _]. set (l := filter (λ n, n.2.1 ≠ k) (_list s)) in *.
  destruct (filter_keys (_list s) k Hk) as [Hk1 Hnk].
  assert (NoDup (keys (_list s1))) as Hks.
  { rewrite Hl1. unfold keys in *. csimpl. by apply NoDup_cons. }
  assert (NoDup (_list s1).*1) as His.
  { rewrite Hl1. csimpl. apply NoDup_cons. split; [|by apply sublist_ids].
    by apply fresh_not_in, filter_fresh. }
  assert (Forall (λ n, n.1 < _fresh s1)%nat (_list s1)) as Hfs.
  { rewrite Hl1, Hf1. constructor; [simpl; lia|].
    apply (filter_fresh _ k) in Hf. eapply Forall_impl; [exact Hf|]. simpl. lia. }
  assert ((_list s1).*2 = (k, v) :: without k q) as Hes.
  { rewrite Hl1, <- He. csimpl. f_equal. apply filter_entries. }
  assert (size s1 = Z.of_nat (length (_list s1))) as Hsz.
  { unfold size. by rewrite Hm1, keymap_size. }
  assert (length l <= length (_list s))%nat as Hle by apply length_filter.
  unfold returns. rewrite E. destruct (_capacity s1 <? size s1) eqn:Hov.
  - apply Z.ltb_lt in Hov.
    destruct (_list s1) as [|n0 l0] eqn:El using rev_ind; [done|]. clear IHl0.
    exists {| _list := l0; _map := keymap l0; _capacity := _capacity s1; _fresh := _fresh s1 |}.
    rewrite length_app in Hsz. simpl in Hsz.
    assert (length l0 = Z.to_nat (_capacity s)) as Hl0.
    { assert (length l0 + 1 = S (length l))%nat by
        (rewrite <- (Nat.add_1_r (length l)); apply (f_equal length) in Hl1;
         rewrite length_app in Hl1; simpl in Hl1; lia). lia. }
    assert (n0.2.1 ∉ keys l0) as Hn0.
    { unfold keys in Hks. rewrite fmap_app in Hks. apply NoDup_app in Hks as (_ & Hd & _).
      intros Hin. apply (Hd _ Hin). left. }
    split_and!; [|done|].
    + unfold evict. act_step. rewrite El, last_snoc. destruct n0 as [i [k0 v0]]. act_step.
      unfold modify. simpl. rewrite El, Hm1, removelast_last, (keymap_snoc l0 (i, (k0, v0))) by done.
      done.
    + constructor; simpl.
      * rewrite fmap_app in His. by apply NoDup_app in His as (? & _ & _).
      * unfold keys in Hks. rewrite fmap_app in Hks. by apply NoDup_app in Hks as (? & _ & _).
      * by apply Forall_app in Hfs as [? _].
      * done.
      * lia.
      * unfold put_spec. rewrite <- Hes, fmap_app.
        rewrite take_app_length'; [done|by rewrite length_fmap].
  - apply Z.ltb_ge in Hov. exists s1. split_and!; [done|done|].
    constructor; [done..|lia|]. unfold put_spec. rewrite <- Hes.
    rewrite take_ge; [done|]. rewrite length_fmap. lia.
Qed.

Lemma lookup_entry_elem l it k v :
  NoDup (keys l) → (it, (k, v)) ∈ l → lookup_entry k l.*2 = Some v.
Proof.
  intros Hk Hin. unfold lookup_entry.
  induction l as [|[i [k' v']] l IH]; [by apply elem_of_nil in Hin|].
  unfold keys in *. csimpl in *. apply NoDup_cons in Hk as [Hk Hn]. rewrite filter_cons. simpl.
  apply elem_of_cons in Hin as [[= <- <- <-]|Hin]; [by rewrite decide_True|].
  rewrite decide_False; [by apply IH|]. intros ->. destruct Hk.
  apply list_elem_of_fmap. by exists (it, (k, v)).
Qed.

(** Looking an entry up moves it to the front. *)
Lemma splice_refines s q k it :
  holds s q → _map s !! k = Some it →
  ∃ s' v, returns (splice_front it) s () s' ∧ _capacity s' = _capacity s ∧
          lookup_entry k q = Some v ∧ deref (_list s') it = Some (k, v) ∧
          holds s' ((k, v) :: without k q).
Proof.
  intros [Hi Hk Hf Hm Hc He] Hmk. pose proof Hmk as Hmk'. rewrite Hm in Hmk'.
  destruct (keymap_Some _ _ _ Hmk') as [v Hin].
  eexists _, v. split_and!.
  - unfold returns, splice_front. act_step. rewrite (deref_elem _ it k v) by done. reflexivity.
  - done.
  - rewrite <- He. by eapply lookup_entry_elem.
  - simpl. by rewrite decide_True.
  - rewrite (list_erase_filter _ it k v) by done.
    destruct (filter_keys (_list s) k Hk) as [Hk1 Hnk].
    assert (length (filter (λ n, n.2.1 ≠ k) (_list s)) < length (_list s))%nat as Hlt.
    { apply length_filter_lt with (it, (k, v)); [done|]. simpl. by intros []. }
    constructor; simpl.
    + apply NoDup_cons. split; [|by apply sublist_ids]. intros Hin'.
      apply list_elem_of_fmap in Hin' as ([i [k' v']] & -> & Hm').
      apply list_elem_of_filter in Hm' as [Hne Hm']. simpl in *.
      pose proof (deref_elem _ i k' v' Hi Hm') as D1. rewrite (deref_elem _ i k v Hi Hin) in D1.
      simplify_eq.
    + unfold keys. csimpl. by apply NoDup_cons.
    + constructor; [|by apply filter_fresh]. rewrite Forall_forall in Hf. by apply (Hf _ Hin).
    + rewrite keymap_cons, keymap_filter, <- Hm. simpl. by rewrite insert_delete_eq, insert_id.
    + lia.
    + by rewrite filter_entries, He.
Qed.

Lemma map_lookup_spec s q k :
  holds s q → is_Some (_map s !! k) ↔ is_Some (lookup_entry k q).
Proof.
  intros Hh. split.
  - intros [it Hit]. destruct (splice_refines s q k it Hh Hit) as (? & v & _ & _ & -> & _). by eexists.
  - destruct Hh as [Hi Hk Hf Hm Hc He]. rewrite Hm, <- He. intros [v Hv].
    unfold lookup_entry in Hv. destruct (filter _ (_list s).*2) as [|e q'] eqn:Ef; [done|].
    assert (e ∈ filter (λ e, e.1 = k) (_list s).*2) as Hin by (rewrite Ef; left).
    apply list_elem_of_filter in Hin as [<- Hin].
    apply list_elem_of_fmap in Hin as ([it [k' v']] & -> & Hin).
    exists it. by apply (keymap_elem _ it k' v').
Qed.

Lemma size_holds s q : holds s q → size s = Z.of_nat (length q).
Proof.
  intros [Hi Hk Hf Hm Hc He]. unfold size. by rewrite Hm, keymap_size, <- He, length_fmap.
Qed.

(** ** The refinement

    A client makes calls and catches the [range_error] of a missing key. An
    iterator it gets is compared with [end()] and dereferenced if it differs;
    [Crash] is undefined behaviour, after which nothing runs. *)

Inductive call : Type :=
| Put (k : K) (v : V)
| Get (k : K)
| GetIter (k : K)
| Find (k : K)
| Begin
| Exists (k : K)
| Erase (k : K)
| Size
| Clear.

Inductive reply : Type :=
| Done
| Value (v : V)
| Missing
| At (e : K * V)
| End
| Bool (b : bool)
| Count (n : Z)
| Crash.

(** [it == end()], or the entry [*it]. *)
Definition at_iter (it : option iterator) (s : cache) : reply :=
  match it with
  | None => End
  | Some i => if deref (_list s) i is Some e then At e else Crash
  end.

(** An entry of the promise, or [end()]. *)
Definition at_entry (e : option (K * V)) : reply := if e is Some e then At e else End.

Definition run_call (c : call) (s : cache) : reply * cache :=
  match c with
  | Put k v => let '(o, s') := put k v s in (if o is Val _ then Done else Crash, s')
  | Get k => let '(o, s') := get k s in
             (match o with Val v => Value v | Exn _ => Missing | _ => Crash end, s')
  | GetIter k => let '(o, s') := get_iter k s in
                 (if o is Val it then at_iter it s' else Crash, s')
  | Find k => (at_iter (find k s) s, s)
  | Begin => (at_iter (begin s) s, s)
  | Exists k => (Bool (exists_ k s), s)
  | Erase k => let '(o, s') := erase k s in (if o is Val n then Count n else Crash, s')
  | Size => (Count (size s), s)
  | Clear => let '(o, s') := clear s in (if o is Val _ then Done else Crash, s')
  end.

Definition spec_call (cap : nat) (c : call) q : reply * list (K * V) :=
  match c with
  | Put k v => (Done, put_spec cap k v q)
  | Get k => (if lookup_entry k q is Some v then Value v else Missing, touch k q)
  | GetIter k => (at_entry (pair k <$> lookup_entry k q), touch k q)
  | Find k => (at_entry (pair k <$> lookup_entry k q), q)
  | Begin => (at_entry (head q), q)
  | Exists k => (Bool (bool_decide (is_Some (lookup_entry k q))), q)
  | Erase k => (if bool_decide (is_Some (lookup_entry k q)) then Crash else Count 0, q)
  | Size => (Count (Z.of_nat (length q)), q)
  | Clear => (Done, [])
  end.

Fixpoint run_calls {S} (step : call → S → reply * S) (cs : list call) (s : S) : list reply * S :=
  match cs with
  | [] => ([], s)
  | c :: cs =>
      let '(r, s1) := step c s in
      if r is Crash then ([r], s1)
      else let '(rs, s2) := run_calls step cs s1 in (r :: rs, s2)
  end.

Lemma get_cases s q k :
  holds s q →
  match lookup_entry k q with
  | Some v => ∃ s', returns (get k) s v s' ∧ _capacity s' = _capacity s ∧
                    holds s' ((k, v) :: without k q)
  | None => get k s = (Exn NoSuchKey, s)
  end.
Proof.
  intros Hh. pose proof (map_lookup_spec s q k Hh) as Hl. unfold returns, get.
  destruct (_map s !! k) as [it|] eqn:Hm.
  - destruct (splice_refines s q k it Hh Hm) as (s' & v & R & Hc & -> & Hd & Hh').
    exists s'. split_and!; [|done..]. act_step. rewrite Hm. act_step. act_step. by rewrite Hd.
  - destruct (lookup_entry k q) as [v|]; [by destruct (proj2 Hl) as [? ?]; [by eexists|]|].
    act_step. by rewrite Hm.
Qed.

Lemma get_refines s q k :
  holds s q →
  (run_call (Get k) s).1 = (spec_call 0 (Get k) q).1 ∧
  _capacity (run_call (Get k) s).2 = _capacity s ∧
  holds (run_call (Get k) s).2 (touch k q).
Proof.
  intros Hh. pose proof (get_cases s q k Hh) as Hg. unfold touch. cbn [run_call spec_call].
  destruct (lookup_entry k q) as [v|].
  - destruct Hg as (s' & R & Hc & Hh'). unfold returns in R. by rewrite R.
  - by rewrite Hg.
Qed.

Lemma get_iter_refines s q k :
  holds s q →
  (run_call (GetIter k) s).1 = (spec_call 0 (GetIter k) q).1 ∧
  _capacity (run_call (GetIter k) s).2 = _capacity s ∧
  holds (run_call (GetIter k) s).2 (touch k q).
Proof.
  intros Hh. pose proof (map_lookup_spec s q k Hh) as Hl. unfold touch.
  cbn [run_call spec_call]. unfold get_iter, act_bind, get_state.
  destruct (_map s !! k) as [it|] eqn:Hm.
  - destruct (splice_refines s q k it Hh Hm) as (s' & v & R & Hc & -> & Hd & Hh').
    unfold returns in R. rewrite R. cbn. by rewrite Hd.
  - by destruct (lookup_entry k q) as [v|]; [destruct (proj2 Hl) as [? ?]; [by eexists|]|].
Qed.

(** [find] gives an iterator of the entry and leaves the order alone. *)
Lemma find_refines s q k :
  holds s q → at_iter (find k s) s = at_entry (pair k <$> lookup_entry k q).
Proof.
  intros Hh. pose proof (map_lookup_spec s q k Hh) as Hl. unfold find.
  destruct (_map s !! k) as [it|] eqn:Hm.
  - destruct Hh as [Hi Hk _ Hm' _ <-]. rewrite Hm' in Hm.
    destruct (keymap_Some _ _ _ Hm) as [v Hin]. cbn.
    by rewrite (deref_elem _ it k v), (lookup_entry_elem _ it k v).
  - by destruct (lookup_entry k q) as [v|]; [destruct (proj2 Hl) as [? ?]; [by eexists|]|].
Qed.

Lemma begin_refines s q : holds s q → at_iter (begin s) s = at_entry (head q).
Proof.
  intros [_ _ _ _ _ <-]. unfold begin, at_iter. destruct (_list s) as [|[i e] l]; [done|].
  simpl. by rewrite decide_True.
Qed.

Lemma erase_reply s q k :
  holds s q →
  (run_call (Erase k) s).1 = (spec_call 0 (Erase k) q).1 ∧
  ((run_call (Erase k) s).1 ≠ Crash → (run_call (Erase k) s).2 = s).
Proof.
  intros Hh. pose proof (map_lookup_spec s q k Hh) as Hl.
  cbn [run_call spec_call]. unfold erase, act_bind, get_state.
  destruct (_map s !! k) as [it|].
  - rewrite bool_decide_true; [done|]. apply Hl. by eexists.
  - rewrite bool_decide_false; [done|]. intros Hs. by destruct (proj2 Hl Hs).
Qed.

Lemma lru_call_refines c s q :
  0 <= _capacity s → holds s q →
  (run_call c s).1 = (spec_call (Z.to_nat (_capacity s)) c q).1 ∧
  ((run_call c s).1 ≠ Crash →
   _capacity (run_call c s).2 = _capacity s ∧
   holds (run_call c s).2 (spec_call (Z.to_nat (_capacity s)) c q).2).
Proof.
  intros Hcap Hh. destruct c as [k v|k|k|k| |k|k| |].
  - destruct (put_refines s q k v Hcap Hh) as (s' & R & Hc & Hh').
    unfold run_call. unfold returns in R. by rewrite R.
  - destruct (get_refines s q k Hh) as (? & ? & ?). done.
  - destruct (get_iter_refines s q k Hh) as (? & ? & ?). done.
  - split; [|done]. by apply find_refines.
  - split; [|done]. by apply begin_refines.
  - split; [|done]. simpl. f_equal. unfold exists_. apply bool_decide_ext.
    by apply map_lookup_spec.
  - destruct (erase_reply s q k Hh) as [? Hs]. split; [done|]. intros Hc. by rewrite (Hs Hc).
  - split; [|done]. simpl. f_equal. by apply size_holds.
  - split; [done|]. simpl. destruct Hh. split; [done|]. constructor; simpl; (constructor || done).
Qed.

Lemma run_calls_refines cs s q :
  0 <= _capacity s → holds s q →
  let impl := run_calls run_call cs s in
  let spec := run_calls (spec_call (Z.to_nat (_capacity s))) cs q in
  impl.1 = spec.1 ∧ (Crash ∉ spec.1 → _capacity impl.2 = _capacity s ∧ holds impl.2 spec.2).
Proof.
  revert s q. induction cs as [|c cs IH]; intros s q Hcap Hh; [done|]. simpl.
  pose proof (lru_call_refines c s q Hcap Hh) as (Hr & Hn).
  destruct (run_call c s) as [r s1], (spec_call _ c q) as [r' q1]. simpl in *. subst r'.
  assert (r = Crash ∨ r ≠ Crash) as [->|Hne] by (destruct r; (by left) || (by right)).
  { split; [done|]. intros []. by left. }
  destruct (Hn Hne) as [Hc Hh1]. destruct (IH s1 q1) as [IH1 IH2]; [lia|done|]. rewrite Hc in *.
  destruct (run_calls run_call cs s1) as [rs s2], (run_calls _ cs q1) as [rs' q2].
  destruct r; simpl in *; try done; subst; split; try done;
    intros Hx; apply IH2; intros Hy; apply Hx; by right.
Qed.

(** C19: for every capacity and every sequence of put, get, get_iter, find,
    begin, exists, erase, size and clear calls, lru_cache answers as the
    recency list of at most [capacity] entries does: put, get and get_iter move
    the entry to the front, find and exists do not, the iterators denote the
    entry of the key (begin the newest), put evicts the least recently used
    entry once the capacity is exceeded, get of a missing key throws. The one
    undefined behaviour is erase of a key that is present; as long as no call
    does that, the entries and their order are the list's. *)
Theorem lru_refines_recency cap cs :
  0 <= cap →
  let impl := run_calls run_call cs (construct cap) in
  let spec := run_calls (spec_call (Z.to_nat cap)) cs [] in
  impl.1 = spec.1 ∧
  (Crash ∉ spec.1 → (_list impl.2).*2 = spec.2 ∧ Z.of_nat (length spec.2) <= cap).
Proof.
  intros Hcap.
  destruct (run_calls_refines cs (construct cap) [] Hcap) as [Hr Hh]; [by apply construct_holds_nil|].
  simpl in *. split; [done|]. intros Hn. destruct (Hh Hn) as [E [? ? ? ? Hc <-]].
  rewrite length_fmap. split; [done|]. simpl in E. lia.
Qed.

(** Erase of a key that is present reads [it->second] after
    [_map.erase(it)] has ended the life of the map node: the call is
    undefined behaviour in every reachable cache; a missing key returns 0. *)
Theorem lru_erase_present_undefined s q k :
  holds s q →
  (erase k s).1 = if bool_decide (is_Some (lookup_entry k q)) then Ub else Val 0.
Proof.
  intros Hh. pose proof (map_lookup_spec s q k Hh) as Hl. unfold erase, act_bind, get_state.
  destruct (_map s !! k) as [it|].
  - rewrite bool_decide_true; [done|]. apply Hl. by eexists.
  - rewrite bool_decide_false; [done|]. intros Hs. by destruct (proj2 Hl Hs).
Qed.
End facts.

Lemma lru_refines_recency_witness :
  let cs := [Put 1 10; Put 2 20; Find 1; Begin; Get 1; Put 3 30; Get 2; GetIter 2; Exists 1;
             Erase 2; Size] in
  let impl := run_calls run_call cs (construct 2) in
  let spec := run_calls (spec_call (Z.to_nat 2)) cs [] in
  impl.1 = [Done; Done; At (1, 10); At (2, 20); Value 10; Done; Missing; End; Bool true;
            Count 0; Count 2] ∧
  (impl.1 = spec.1 ∧
   (Crash ∉ spec.1 → (_list impl.2).*2 = spec.2 ∧ Z.of_nat (length spec.2) <= 2)).
Proof. split; [reflexivity|]. by apply (lru_refines_recency (K:=Z) 2). Defined.

Lemma lru_erase_present_undefined_witness :
  (erase 1 (run_call (Put 1 10) (construct (V:=Z) 2)).2).1 = @Ub range_error Z.
Proof.
  rewrite (lru_erase_present_undefined _ [(1, 10)]); [reflexivity|].
  by apply (lru_call_refines (Put 1 10) (construct 2) []); [|apply construct_holds_nil|].
Defined.

End LruCacheFacts.
