(* ===== verification/StrUtil.v ===== *)
(** * String utilities of cppBase/utility/strutil.h and strutil.cpp

    Strings are lists of character codes 0..255.  The integer printers return
    the characters that they store from the buffer's start.  Character
    classes are those of the "C" locale. *)
From S2P Require Import Prelude.

Module StrUtil.

(** ** Integers to text *)

Definition cDigitsLut : list Z := bytes_of
  ("00010203040506070809" ++ "10111213141516171819" ++ "20212223242526272829" ++
   "30313233343536373839" ++ "40414243444546474849" ++ "50515253545556575859" ++
   "60616263646566676869" ++ "70717273747576777879" ++ "80818283848586878889" ++
   "90919293949596979899")%string.

(** A read outside of the table gives -1, which is no character. *)
Definition lut (i : Z) : Z := default (-1) (zget cDigitsLut i).

(** [if (b) *buffer++ = c;] *)
Definition put_if (b : bool) (c : Z) : list Z := if b then [c] else [].

(** [value < 10000]: up to four digits *)
Definition toa_lt_1e4 (value : Z) : list Z :=
  let d1 := Z.shiftl (value / 100) 1 in
  let d2 := Z.shiftl (value mod 100) 1 in
  put_if (1000 <=? value) (lut d1) ++
  put_if (100 <=? value) (lut (d1 + 1)) ++
  put_if (10 <=? value) (lut d2) ++
  [lut (d2 + 1)].

(** [value < 100000000]: bbbbcccc *)
Definition toa_lt_1e8 (value : Z) : list Z :=
  let b := value / 10000 in
  let c := value mod 10000 in
  let d1 := Z.shiftl (b / 100) 1 in
  let d2 := Z.shiftl (b mod 100) 1 in
  let d3 := Z.shiftl (c / 100) 1 in
  let d4 := Z.shiftl (c mod 100) 1 in
  put_if (10000000 <=? value) (lut d1) ++
  put_if (1000000 <=? value) (lut (d1 + 1)) ++
  put_if (100000 <=? value) (lut d2) ++
  [lut (d2 + 1); lut d3; lut (d3 + 1); lut d4; lut (d4 + 1)].

(** All eight digits of [value] *)
Definition toa_8 (value : Z) : list Z :=
  let b := value / 10000 in
  let c := value mod 10000 in
  let d1 := Z.shiftl (b / 100) 1 in
  let d2 := Z.shiftl (b mod 100) 1 in
  let d3 := Z.shiftl (c / 100) 1 in
  let d4 := Z.shiftl (c mod 100) 1 in
  [lut d1; lut (d1 + 1); lut d2; lut (d2 + 1); lut d3; lut (d3 + 1); lut d4; lut (d4 + 1)].

Definition u32toa (value : Z) : list Z :=
  if value <? 10000 then toa_lt_1e4 value
  else if value <? 100000000 then toa_lt_1e8 value
  else
    let a := value / 100000000 in
    let value := value mod 100000000 in
    (if 10 <=? a
     then [lut (Z.shiftl a 1); lut (Z.shiftl a 1 + 1)]
     else [48 + a]) ++ toa_8 value.

Definition u64toa (value : Z) : list Z :=
  let kTen8 := 100000000 in
  let kTen9 := kTen8 * 10 in
  let kTen10 := kTen8 * 100 in
  let kTen11 := kTen8 * 1000 in
  let kTen12 := kTen8 * 10000 in
  let kTen13 := kTen8 * 100000 in
  let kTen14 := kTen8 * 1000000 in
  let kTen15 := kTen8 * 10000000 in
  let kTen16 := kTen8 * kTen8 in
  if value <? kTen8 then
    let v := u32 value in
    if v <? 10000 then toa_lt_1e4 v else toa_lt_1e8 v
  else if value <? kTen16 then
    let v0 := u32 (value / kTen8) in
    let v1 := u32 (value mod kTen8) in
    let b0 := v0 / 10000 in
    let c0 := v0 mod 10000 in
    let d1 := Z.shiftl (b0 / 100) 1 in
    let d2 := Z.shiftl (b0 mod 100) 1 in
    let d3 := Z.shiftl (c0 / 100) 1 in
    let d4 := Z.shiftl (c0 mod 100) 1 in
    put_if (kTen15 <=? value) (lut d1) ++
    put_if (kTen14 <=? value) (lut (d1 + 1)) ++
    put_if (kTen13 <=? value) (lut d2) ++
    put_if (kTen12 <=? value) (lut (d2 + 1)) ++
    put_if (kTen11 <=? value) (lut d3) ++
    put_if (kTen10 <=? value) (lut (d3 + 1)) ++
    put_if (kTen9 <=? value) (lut d4) ++
    put_if (kTen8 <=? value) (lut (d4 + 1)) ++
    toa_8 v1
  else
    let a := u32 (value / kTen16) in
    let value := value mod kTen16 in
    (if a <? 10 then [48 + a]
     else if a <? 100 then [lut (Z.shiftl a 1); lut (Z.shiftl a 1 + 1)]
     else if a <? 1000 then
       let i := Z.shiftl (a mod 100) 1 in [48 + a / 100; lut i; lut (i + 1)]
     else
       let i := Z.shiftl (a / 100) 1 in
       let j := Z.shiftl (a mod 100) 1 in
       [lut i; lut (i + 1); lut j; lut (j + 1)]) ++
    toa_8 (u32 (value / kTen8)) ++ toa_8 (u32 (value mod kTen8)).

(** [u = ~u + 1] on a negative value, in the unsigned type *)
Definition i32toa (value : Z) : list Z :=
  let u := u32 value in
  if value <? 0 then 45 :: u32toa (u32 (u32 (Z.lnot u) + 1)) else u32toa u.

Definition i64toa (value : Z) : list Z :=
  let u := u64 value in
  if value <? 0 then 45 :: u64toa (u64 (u64 (Z.lnot u) + 1)) else u64toa u.

Definition to_string_bool (n : bool) : list Z := bytes_of (if n then "true" else "false").
Definition to_string_char (n : Z) : list Z := u32toa (u8 n).
Definition to_string_uchar (n : Z) : list Z := u32toa n.

(** ** Hexadecimal dumps *)

Definition HexTable : list Z := bytes_of "0123456789abcdef".
Definition hex_digit (i : Z) : Z := default (-1) (zget HexTable i).

(** Two digits per byte for the first [len / 2] bytes. *)
Definition dumpHex (bin : list Z) (len : Z) : list Z :=
  flat_map (λ b, [hex_digit (Z.land (Z.shiftr b 4) 15); hex_digit (Z.land b 15)])
           (ztake (len / 2) bin).

Definition dumpHexString (bin : list Z) : list Z :=
  flat_map (λ b, [hex_digit (Z.land (Z.shiftr b 4) 15); hex_digit (Z.land b 15)]) bin.

(** ** Searching: std::string::find and its relatives *)

Fixpoint is_prefix (p s : list Z) : bool :=
  match p, s with
  | [], _ => true
  | a :: p, b :: s => (a =? b) && is_prefix p s
  | _ :: _, [] => false
  end.

(** [s.find(delim, pos)] on the rest of [s] from [pos]: the offset of the
    first occurrence, [None] for [npos]. *)
Fixpoint find_from (delim s : list Z) : option Z :=
  if is_prefix delim s then Some 0
  else match s with
       | [] => None
       | _ :: s => match find_from delim s with Some i => Some (1 + i) | None => None end
       end.

(** [find_first_of] and [find_first_not_of] *)
Fixpoint find_char (P : Z → bool) (s : list Z) : option Z :=
  match s with
  | [] => None
  | c :: s => if P c then Some 0
              else match find_char P s with Some i => Some (1 + i) | None => None end
  end.

(** The loop of [split] from position [pos]; [s] is the rest of the string.
    [None]: the fuel ran out. *)
Fixpoint split_loop (fuel : nat) (delim s : list Z) (ret : list (list Z)) : option (list (list Z)) :=
  match fuel with
  | O => None
  | S fuel =>
      if zlen s =? 0 then Some ret
      else match find_from delim s with
           | Some i => split_loop fuel delim (zdrop (i + zlen delim) s) (ret ++ [ztake i s])
           | None => Some (ret ++ [s])
           end
  end.

Definition split (s delim : list Z) : option (list (list Z)) := split_loop (S (length s)) delim s [].

Definition is_crlf (c : Z) : bool := (c =? 13) || (c =? 10).

Fixpoint splitLine_loop (fuel : nat) (s : list Z) (ret : list (list Z)) : option (list (list Z)) :=
  match fuel with
  | O => None
  | S fuel =>
      if zlen s =? 0 then Some ret
      else match find_char is_crlf s with
           | Some i =>
               let ret := ret ++ [ztake i s] in
               match find_char (λ c, negb (is_crlf c)) (zdrop i s) with
               | Some j => splitLine_loop fuel (zdrop (i + j) s) ret
               | None => Some ret
               end
           | None => Some (ret ++ [s])
           end
  end.

Definition splitLine (s : list Z) : option (list (list Z)) := splitLine_loop (S (length s)) s [].

(** ** Trimming and case *)

Definition isspace (c : Z) : bool := (c =? 32) || ((9 <=? c) && (c <=? 13)).

(** The first loop of [trim] finds [s], the second [e] going down to [s]. *)
Fixpoint trim_start (str : list Z) : Z :=
  match str with
  | [] => 0
  | c :: str => if isspace c then 1 + trim_start str else 0
  end.

Fixpoint trim_end (str : list Z) (e : nat) (s : Z) : Z :=
  match e with
  | O => 0
  | S e' =>
      if Z.of_nat e <=? s then Z.of_nat e
      else match str !! e' with
           | Some c => if isspace c then trim_end str e' s else Z.of_nat e
           | None => Z.of_nat e
           end
  end.

Definition trim (str : list Z) : list Z :=
  if zlen str =? 0 then []
  else
    let s := trim_start str in
    let e := trim_end str (length str) s in
    if s <? e then ztake (e - s) (zdrop s str) else [].

Definition toupper (c : Z) : Z := if (97 <=? c) && (c <=? 122) then c - 32 else c.
Definition tolower (c : Z) : Z := if (65 <=? c) && (c <=? 90) then c + 32 else c.
Definition to_upper (str : list Z) : list Z := toupper <$> str.
Definition to_lower (str : list Z) : list Z := tolower <$> str.

(** [memcmp(str, pattern, strlen(pattern))] with the terminating zero of
    [str]; a longer comparison reads past it. *)
Definition startWith (str pattern : list Z) : bool :=
  is_prefix pattern (str ++ [0]).

Definition endWith (str pattern : list Z) : option bool :=
  if zlen str <? zlen pattern then None
  else Some (bool_decide (zdrop (zlen str - zlen pattern) str = pattern)).

End StrUtil.
