(* ===== verification/StrUtilFacts.v ===== *)
(** * Correctness of the string utilities (cppBase/utility/strutil.cpp) *)
From S2P Require Import Prelude StrUtil.
Import StrUtil.

Module StrUtilFacts.

(** ** The digit printers *)

Lemma lut_pair d :
  0 <= d < 100 →
  lut (Z.shiftl d 1) = 48 + d / 10 ∧ lut (Z.shiftl d 1 + 1) = 48 + d mod 10.
Proof.
  intros Hd.
  pose proof (range_enum 100 (λ d, (lut (Z.shiftl d 1) =? 48 + d / 10) &&
    (lut (Z.shiftl d 1 + 1) =? 48 + d mod 10)) ltac:(vm_compute; reflexivity) d Hd) as E.
  cbv beta in E. by rewrite andb_true_iff, !Z.eqb_eq in E.
Qed.

Lemma lut_even d : 0 <= d < 100 → lut (Z.shiftl d 1) = 48 + d / 10.
Proof. apply lut_pair. Qed.
Lemma lut_odd d : 0 <= d < 100 → lut (Z.shiftl d 1 + 1) = 48 + d mod 10.
Proof. apply lut_pair. Qed.

(** Bounds of quotients and remainders, for [lia]. *)
Ltac divmod := Z.div_mod_to_equations; lia.

Ltac digit_list :=
  repeat (constructor; [unfold is_digit; divmod|]); constructor.

Ltac decimal_list :=
  cbn [app put_if]; split;
    [digit_list
    |unfold dec_val; cbn [foldl]; divmod
    |eexists _, _; split; [reflexivity|]; first [done | intros; exfalso; divmod]].

Lemma toa_8_digits v :
  0 <= v < 100000000 →
  Forall is_digit (toa_8 v) ∧ zlen (toa_8 v) = 8 ∧ dec_val (toa_8 v) = v.
Proof.
  intros Hv. unfold toa_8. rewrite !lut_even, !lut_odd by divmod. split_and!.
  - digit_list.
  - done.
  - unfold dec_val. cbn [foldl]. divmod.
Qed.

Lemma toa_lt_1e4_decimal v : 0 <= v < 10000 → is_decimal v (toa_lt_1e4 v).
Proof.
  intros Hv. unfold toa_lt_1e4. rewrite !lut_even, !lut_odd by divmod.
  destruct (Z.leb_spec 1000 v), (Z.leb_spec 100 v), (Z.leb_spec 10 v); try lia; decimal_list.
Qed.

Lemma toa_lt_1e8_decimal v : 10000 <= v < 100000000 → is_decimal v (toa_lt_1e8 v).
Proof.
  intros Hv. unfold toa_lt_1e8. rewrite !lut_even, !lut_odd by divmod.
  destruct (Z.leb_spec 10000000 v), (Z.leb_spec 1000000 v), (Z.leb_spec 100000 v);
    try lia; decimal_list.
Qed.

Lemma u32toa_decimal v : is_uint 32 v → is_decimal v (u32toa v).
Proof.
  intros Hv. uint_bounds. unfold u32toa.
  destruct (Z.ltb_spec v 10000); [apply toa_lt_1e4_decimal; lia|].
  destruct (Z.ltb_spec v 100000000); [apply toa_lt_1e8_decimal; lia|].
  destruct (toa_8_digits (v mod 100000000)) as (Hd & Hl & Hx); [divmod|].
  replace v with (v / 100000000 * 10 ^ 8 + v mod 100000000) at 1 by divmod.
  apply is_decimal_app; [|divmod|done..].
  destruct (Z.leb_spec 10 (v / 100000000)).
  - rewrite lut_even, lut_odd by divmod. decimal_list.
  - decimal_list.
Qed.

(** The eight leading digits of the 9..16 digit branch of [u64toa]. *)
Definition lead_8 (v : Z) : list Z :=
  let b := v / 10000 in
  let c := v mod 10000 in
  let d1 := Z.shiftl (b / 100) 1 in
  let d2 := Z.shiftl (b mod 100) 1 in
  let d3 := Z.shiftl (c / 100) 1 in
  let d4 := Z.shiftl (c mod 100) 1 in
  put_if (10000000 <=? v) (lut d1) ++
  put_if (1000000 <=? v) (lut (d1 + 1)) ++
  put_if (100000 <=? v) (lut d2) ++
  put_if (10000 <=? v) (lut (d2 + 1)) ++
  put_if (1000 <=? v) (lut d3) ++
  put_if (100 <=? v) (lut (d3 + 1)) ++
  put_if (10 <=? v) (lut d4) ++
  put_if (1 <=? v) (lut (d4 + 1)).

Lemma lead_8_decimal v : 1 <= v < 100000000 → is_decimal v (lead_8 v).
Proof.
  intros Hv. unfold lead_8. rewrite !lut_even, !lut_odd by divmod.
  rewrite (proj2 (Z.leb_le 1 v)) by lia.
  destruct (Z.leb_spec 10000000 v); [|destruct (Z.leb_spec 1000000 v);
    [|destruct (Z.leb_spec 100000 v); [|destruct (Z.leb_spec 10000 v);
    [|destruct (Z.leb_spec 1000 v); [|destruct (Z.leb_spec 100 v);
    [|destruct (Z.leb_spec 10 v)]]]]]];
  rewrite ?(proj2 (Z.leb_le _ v)) by lia; decimal_list.
Qed.

Lemma u64toa_middle v :
  100000000 <= v < 10000000000000000 →
  u64toa v = lead_8 (v / 100000000) ++ toa_8 (v mod 100000000).
Proof.
  intros Hv. unfold u64toa, lead_8.
  rewrite (proj2 (Z.ltb_ge v 100000000)), (proj2 (Z.ltb_lt v (100000000 * 100000000))) by lia.
  rewrite !(wrap_small 32) by (uint_bounds; divmod). rewrite <- !(assoc_L (++)).
  repeat (f_equal; try (f_equal; apply eq_bool_prop_intro; rewrite !Is_true_true, !Z.leb_le; divmod)).
Qed.

Lemma u64toa_decimal v : is_uint 64 v → is_decimal v (u64toa v).
Proof.
  intros Hv. uint_bounds. destruct (Z.ltb_spec v 100000000).
  { unfold u64toa. rewrite (proj2 (Z.ltb_lt v _)) by lia. rewrite wrap_small by ulia.
    destruct (Z.ltb_spec v 10000); [apply toa_lt_1e4_decimal; lia|apply toa_lt_1e8_decimal; lia]. }
  destruct (Z.ltb_spec v 10000000000000000).
  { rewrite u64toa_middle by lia.
    destruct (toa_8_digits (v mod 100000000)) as (Hd & Hl & Hx); [divmod|].
    replace v with (v / 100000000 * 10 ^ 8 + v mod 100000000) at 1 by divmod.
    apply is_decimal_app; [apply lead_8_decimal|..]; (done || divmod). }
  unfold u64toa. rewrite !(proj2 (Z.ltb_ge v _)) by lia.
  change (100000000 * 100000000) with 10000000000000000.
  rewrite !(wrap_small 32) by (uint_bounds; divmod).
  set (a := v / 10000000000000000). set (r := v mod 10000000000000000).
  assert (0 <= r < 10000000000000000 ∧ 1 <= a <= 1844 ∧ v = a * 10 ^ 16 + r) as (Hr & Ha & Ev)
    by (subst a r; divmod).
  clearbody a r. rewrite Ev.
  destruct (toa_8_digits (r / 100000000)) as (Hd0 & Hl0 & Hx0); [divmod|].
  destruct (toa_8_digits (r mod 100000000)) as (Hd1 & Hl1 & Hx1); [divmod|].
  apply is_decimal_app; [|lia|by apply Forall_app|by rewrite zlen_app, Hl0, Hl1|].
  - destruct (Z.ltb_spec a 10); [decimal_list|].
    destruct (Z.ltb_spec a 100); [rewrite lut_even, lut_odd by divmod; decimal_list|].
    destruct (Z.ltb_spec a 1000); rewrite !lut_even, !lut_odd by divmod; decimal_list.
  - rewrite dec_val_app, Hl1, Hx0, Hx1. divmod.
Qed.

(** [~u + 1] in [w] bits negates a negative number. *)
Lemma wrap_negate w v :
  1 < w → - 2 ^ (w - 1) <= v < 0 → wrap w (wrap w (Z.lnot (wrap w v)) + 1) = - v.
Proof.
  intros Hw Hv. assert (2 ^ w = 2 * 2 ^ (w - 1)) as Ew.
  { replace w with (Z.succ (w - 1)) at 1 by lia. rewrite Z.pow_succ_r; lia. }
  unfold wrap, Z.lnot. set (m := 2 ^ w) in *.
  assert (v mod m = v + m) as ->.
  { rewrite <- (Z.mod_add v 1), Z.mod_small; lia. }
  assert (Z.pred (- (v + m)) mod m = - v - 1) as ->.
  { rewrite <- (Z.mod_add _ 1), Z.mod_small; lia. }
  rewrite Z.mod_small; lia.
Qed.

(** The integer printers give decimal numerals: u32toa and u64toa print
    every 32-bit and 64-bit value as digits that read back, without leading zeros;
    i32toa and i64toa print a minus sign exactly for negative values and then the
    numeral of the absolute value, the most negative value included. *)
Lemma toa_prints_decimals :
  (∀ v, is_uint 32 v → is_decimal v (u32toa v)) ∧
  (∀ v, is_uint 64 v → is_decimal v (u64toa v)) ∧
  (∀ v, - 2 ^ 31 <= v < 2 ^ 31 →
     ∃ s, is_decimal (Z.abs v) s ∧ i32toa v = if v <? 0 then 45 :: s else s) ∧
  (∀ v, - 2 ^ 63 <= v < 2 ^ 63 →
     ∃ s, is_decimal (Z.abs v) s ∧ i64toa v = if v <? 0 then 45 :: s else s).
Proof.
  split; [apply u32toa_decimal|]. split; [apply u64toa_decimal|].
  split; intros v Hv; [unfold i32toa|unfold i64toa]; destruct (Z.ltb_spec v 0).
  - rewrite wrap_negate by (simpl; lia). eexists. split; [|done].
    rewrite Z.abs_neq by lia. apply u32toa_decimal. ulia.
  - rewrite wrap_small by ulia. eexists. split; [|done].
    rewrite Z.abs_eq by lia. apply u32toa_decimal. ulia.
  - rewrite wrap_negate by (simpl; lia). eexists. split; [|done].
    rewrite Z.abs_neq by lia. apply u64toa_decimal. ulia.
  - rewrite wrap_small by ulia. eexists. split; [|done].
    rewrite Z.abs_eq by lia. apply u64toa_decimal. ulia.
Qed.

(** ** Searching *)

Definition occurs (p s : list Z) : Prop := ∃ a b, s = a ++ p ++ b.

Lemma is_prefix_spec p s : is_prefix p s = true ↔ ∃ b, s = p ++ b.
Proof.
  revert s. induction p as [|a p IH]; intros s; simpl.
  - split; [by eexists|done].
  - destruct s as [|b s]; [split; [done|by intros [? ?]]|].
    rewrite andb_true_iff, Z.eqb_eq, IH. split.
    + intros [-> [t ->]]. by exists t.
    + intros [t [= -> ->]]. by eauto.
Qed.

Lemma find_from_Some delim s i :
  find_from delim s = Some i →
  0 <= i ∧ i + zlen delim <= zlen s ∧ s = ztake i s ++ delim ++ zdrop (i + zlen delim) s ∧
  ∀ a b, s = a ++ delim ++ b → i <= zlen a.
Proof.
  revert i. induction s as [|c s IH]; intros i; cbn [find_from].
  - destruct (is_prefix delim []) eqn:Hp; [|done]. intros [= <-].
    apply is_prefix_spec in Hp as [b Hb]. symmetry in Hb. apply app_nil in Hb as [-> ->].
    split_and!; [done..|]. intros. apply zlen_nonneg.
  - destruct (is_prefix delim (c :: s)) eqn:Hp.
    + intros [= <-]. apply is_prefix_spec in Hp as [b Hb]. rewrite Hb.
      split_and!; [done|zlia| |intros; apply zlen_nonneg].
      rewrite ztake_0. simpl. by rewrite zdrop_app.
    + destruct (find_from delim s) as [j|] eqn:Hf; [|done]. intros [= <-].
      destruct (IH j eq_refl) as (H1 & H2 & H3 & H4). pose proof (zlen_nonneg delim).
      split_and!; [lia|rewrite zlen_cons; lia| |].
      * unfold ztake, zdrop in *. replace (Z.to_nat (1 + j)) with (S (Z.to_nat j)) by lia.
        replace (Z.to_nat (1 + j + zlen delim)) with (S (Z.to_nat (j + zlen delim))) by lia.
        simpl. by f_equal.
      * intros [|a0 a] b E; simpl in E.
        { assert (is_prefix delim (c :: s) = true) as Hp' by (apply is_prefix_spec; eauto).
          congruence. }
        simplify_eq. rewrite zlen_cons. specialize (H4 a b eq_refl). lia.
Qed.

Lemma find_from_None delim s : find_from delim s = None → ¬ occurs delim s.
Proof.
  induction s as [|c s IH]; cbn [find_from].
  - destruct (is_prefix delim []) eqn:Hp; [done|]. intros _ (a & b & E).
    symmetry in E. apply app_nil in E as [-> E]. apply app_nil in E as [-> ->]. done.
  - destruct (is_prefix delim (c :: s)) eqn:Hp; [done|].
    destruct (find_from delim s) eqn:Hf; [done|]. intros _ ([|a0 a] & b & E); simpl in E.
    + assert (is_prefix delim (c :: s) = true) by (apply is_prefix_spec; eauto). congruence.
    + simplify_eq. apply IH; [done|]. by exists a, b.
Qed.

(** The part before the first occurrence does not contain the delimiter. *)
Lemma find_from_before delim s i :
  delim ≠ [] → find_from delim s = Some i → ¬ occurs delim (ztake i s).
Proof.
  intros Hd Hf (a & b & E). destruct (find_from_Some _ _ _ Hf) as (H1 & H2 & H3 & H4).
  assert (i <= zlen a) as Hle.
  { apply (H4 a (b ++ delim ++ zdrop (i + zlen delim) s)). rewrite H3 at 1. rewrite E.
    by rewrite <- !(assoc_L (++)). }
  apply (f_equal zlen) in E. rewrite zlen_ztake, !zlen_app in E by lia.
  destruct delim; [done|]. zlia.
Qed.

(** ** split *)

Fixpoint join (d : list Z) (l : list (list Z)) : list Z :=
  match l with
  | [] => []
  | [x] => x
  | x :: l => x ++ d ++ join d l
  end.

(** The pieces and the delimiters between them make up the string; a trailing
    delimiter yields no piece. *)
Definition splits (delim s : list Z) (l : list (list Z)) : Prop :=
  Forall (λ f, ¬ occurs delim f) l ∧ (join delim l = s ∨ (l ≠ [] ∧ join delim l ++ delim = s)).

Lemma join_cons d x l : l ≠ [] → join d (x :: l) = x ++ d ++ join d l.
Proof. by destruct l. Qed.

Lemma split_loop_spec fuel delim s ret :
  delim ≠ [] → (length s < fuel)%nat →
  ∃ l, split_loop fuel delim s ret = Some (ret ++ l) ∧ splits delim s l.
Proof.
  intros Hd. revert s ret. induction fuel as [|fuel IH]; intros s ret Hl; [lia|].
  simpl. destruct (zlen s =? 0) eqn:E0.
  { destruct s; [|rewrite zlen_cons in E0; pose proof (zlen_nonneg s); lia].
    exists []. rewrite app_nil_r. split; [done|]. split; [constructor|by left]. }
  destruct (find_from delim s) as [i|] eqn:Hf; cycle 1.
  { exists [s]. split; [done|]. split; [|by left].
    constructor; [by apply find_from_None|constructor]. }
  destruct (find_from_Some _ _ _ Hf) as (H1 & H2 & H3 & _).
  assert (0 < zlen delim) as Hdl by (destruct delim; [done|]; zlia).
  destruct (IH (zdrop (i + zlen delim) s) (ret ++ [ztake i s])) as (l & E & Hall & Hj).
  { unfold zdrop. rewrite length_drop. unfold zlen in *. lia. }
  exists (ztake i s :: l). rewrite E, <- (assoc_L (++)). split; [done|].
  split; [constructor; [by apply (find_from_before _ _ _ Hd)|done]|].
  destruct l as [|x l].
  - destruct Hj as [Hj|[? _]]; [|done]. right. split; [done|]. simpl in *.
    rewrite H3 at 2. rewrite <- Hj. by rewrite app_nil_r.
  - rewrite join_cons by done. rewrite <- !(assoc_L (++)).
    destruct Hj as [Hj|[_ Hj]]; [left|right; split; [done|]].
    + by rewrite Hj.
    + by rewrite Hj.
Qed.

(** With a non-empty delimiter split terminates, no piece contains the
    delimiter, and joining the pieces with it gives the string back, up to
    one delimiter at the very end of the string, which adds no empty piece. *)
Lemma split_joins_back s delim :
  delim ≠ [] →
  ∃ l, split s delim = Some l ∧ Forall (λ f, ¬ occurs delim f) l ∧
       (join delim l = s ∨ (l ≠ [] ∧ join delim l ++ delim = s)).
Proof. intros Hd. apply (split_loop_spec _ _ _ [] Hd). lia. Qed.

(** With an empty delimiter and a non-empty string the loop of split
    never ends: whatever the number of iterations, it is still running, and
    each iteration has appended an empty piece. *)
Lemma split_empty_delim_diverges s fuel ret :
  s ≠ [] → split_loop fuel [] s ret = None.
Proof.
  intros Hs. revert ret. induction fuel as [|fuel IH]; intros ret; [done|]. simpl.
  destruct s as [|c s]; [done|]. rewrite zlen_cons.
  destruct (1 + zlen s =? 0) eqn:E; [pose proof (zlen_nonneg s); lia|].
  simpl. apply IH.
Qed.

(** ** splitLine *)

Lemma find_char_Some P s i :
  find_char P s = Some i →
  0 <= i < zlen s ∧ Forall (λ c, P c = false) (ztake i s) ∧
  ∃ c, s = ztake i s ++ c :: zdrop (i + 1) s ∧ P c = true.
Proof.
  revert i. induction s as [|c s IH]; intros i; simpl; [done|].
  pose proof (zlen_nonneg s). rewrite zlen_cons. destruct (P c) eqn:E.
  - intros [= <-]. split_and!; [lia|lia|constructor|]. by exists c.
  - destruct (find_char P s) as [j|]; [|done]. intros [= <-].
    destruct (IH j eq_refl) as (Hj & Hf & d & Es & Hd).
    unfold ztake, zdrop in *. replace (Z.to_nat (1 + j)) with (S (Z.to_nat j)) by lia.
    replace (Z.to_nat (1 + j + 1)) with (S (Z.to_nat (j + 1))) by lia.
    split_and!; [lia|lia|by constructor|]. exists d. simpl. split; [by f_equal|done].
Qed.

Lemma find_char_None P s : find_char P s = None → Forall (λ c, P c = false) s.
Proof.
  induction s as [|c s IH]; simpl; [constructor|].
  destruct (P c) eqn:E; [done|]. destruct (find_char P s); [done|]. constructor; auto.
Qed.

(** The characters of [s] that are no line break. *)
Definition text (s : list Z) : list Z := filter (λ c, is_crlf c = false) s.

Lemma text_app s t : text (s ++ t) = text s ++ text t.
Proof. apply filter_app. Qed.

Lemma text_all s : Forall (λ c, is_crlf c = false) s → text s = s.
Proof. unfold text. induction 1; rewrite ?filter_cons, ?decide_True by done; by f_equal. Qed.

Lemma text_none s : Forall (λ c, is_crlf c = true) s → text s = [].
Proof.
  unfold text. induction 1 as [|c s Hc _ IH]; [done|].
  rewrite filter_cons, decide_False; [done|]. by rewrite Hc.
Qed.

Definition line_of (f : list Z) : Prop := Forall (λ c, is_crlf c = false) f.

Lemma splitLine_loop_spec fuel s ret :
  (length s < fuel)%nat →
  ∃ l, splitLine_loop fuel s ret = Some (ret ++ l) ∧ Forall line_of l ∧ concat l = text s ∧
       (∀ c s', s = c :: s' → is_crlf c = false → Forall (λ f, f ≠ []) l).
Proof.
  revert s ret. induction fuel as [|fuel IH]; intros s ret Hl; [lia|]. simpl.
  destruct (zlen s =? 0) eqn:E0.
  { destruct s; [|rewrite zlen_cons in E0; pose proof (zlen_nonneg s); lia].
    exists []. rewrite app_nil_r. done. }
  destruct (find_char is_crlf s) as [i|] eqn:Hf; cycle 1.
  { exists [s]. apply find_char_None in Hf. split_and!; [done| | |].
    - by constructor.
    - simpl. by rewrite app_nil_r, text_all.
    - intros c s' -> _. by repeat constructor. }
  destruct (find_char_Some _ _ _ Hf) as (Hi & Hfree & d & Es & Hd).
  assert (∀ c s', s = c :: s' → is_crlf c = false → ztake i s ≠ []) as Hne.
  { intros c s' -> Hc Hn. destruct (Z.eq_dec i 0) as [->|].
    - rewrite ztake_0 in Es. simpl in Es. congruence.
    - unfold ztake in Hn. by destruct (Z.to_nat i) eqn:?; [lia|]. }
  destruct (find_char _ (zdrop i s)) as [j|] eqn:Hg.
  - destruct (find_char_Some _ _ _ Hg) as (Hj & Hbrk & e & Eg & He).
    rewrite zlen_zdrop in Hj by lia.
    assert (0 < j) as Hj0.
    { destruct (Z.eq_dec j 0) as [->|]; [|lia]. exfalso.
      rewrite ztake_0 in Eg. simpl in Eg. rewrite Es in Eg.
      rewrite zdrop_app in Eg by (rewrite zlen_ztake; lia). simplify_eq.
      by rewrite Hd in He. }
    destruct (IH (zdrop (i + j) s) (ret ++ [ztake i s])) as (l & E & Hlines & Ht & Hn).
    { unfold zdrop. rewrite length_drop. unfold zlen in *. lia. }
    exists (ztake i s :: l). rewrite E, <- (assoc_L (++)). split_and!; [done| | |].
    + by constructor.
    + cbn [concat]. rewrite Ht. rewrite <- (ztake_zdrop i s) at 3. rewrite text_app.
      rewrite (text_all (ztake i s)) by done. f_equal.
      assert (text (ztake j (zdrop i s)) = []) as Hb.
      { apply text_none. eapply Forall_impl; [exact Hbrk|]. simpl. intros c.
        by destruct (is_crlf c). }
      rewrite <- (ztake_zdrop j (zdrop i s)), text_app, Hb, zdrop_zdrop by lia. done.
    + intros c s' E' Hc. constructor; [by eapply Hne|]. apply (Hn e (zdrop (j + 1) (zdrop i s))).
      * rewrite <- zdrop_zdrop by lia. rewrite Eg at 1. rewrite zdrop_app; [done|].
        rewrite zlen_ztake, zlen_zdrop by lia. lia.
      * simpl in He. by destruct (is_crlf e).
  - exists [ztake i s]. split_and!; [done| | |].
    + by constructor.
    + apply find_char_None in Hg. simpl. rewrite app_nil_r.
      assert (text (zdrop i s) = []) as Hb.
      { apply text_none. eapply Forall_impl; [exact Hg|]. simpl. intros c.
        by destruct (is_crlf c). }
      rewrite <- (ztake_zdrop i s) at 2. by rewrite text_app, Hb, text_all, app_nil_r.
    + intros c s' E' Hc. constructor; [by eapply Hne|constructor].
Qed.

(** SplitLine terminates, its lines hold no carriage return or line feed,
    together they hold exactly the other characters in order, and unless the
    text starts with a line break no line is empty. *)
Lemma splitLine_lines s :
  ∃ l, splitLine s = Some l ∧ Forall line_of l ∧ concat l = text s ∧
       (∀ c s', s = c :: s' → is_crlf c = false → Forall (λ f, f ≠ []) l).
Proof. apply (splitLine_loop_spec _ _ []). lia. Qed.

(** ** The theorem *)


End StrUtilFacts.
