(* ===== verification/UrlCode.v ===== *)
(** * Percent encoding, UTF-8 test and base64 of cppBase/utility/url_code.cpp

    Bytes are 0..255; the place where the code reads them through a signed
    [char] is written with [i8].  Character classes are those of the "C"
    locale. *)
From S2P Require Import Prelude.

Module UrlCode.

Definition isdigit (c : Z) : bool := (48 <=? c) && (c <=? 57).
Definition isupper (c : Z) : bool := (65 <=? c) && (c <=? 90).
Definition islower (c : Z) : bool := (97 <=? c) && (c <=? 122).
Definition isalnum (c : Z) : bool := isdigit c || isupper c || islower c.

(** ** Percent encoding *)

Definition toHex (x : Z) : Z := u8 (if 9 <? x then x - 10 + 65 else x + 48).
Definition fromHex (x : Z) : Z := u8 (if isdigit x then x - 48 else x - 65 + 10).

(** The argument is a C string: its bytes before the terminating zero. *)
Definition UrlEncode (sIn : list Z) : list Z :=
  flat_map (λ c, if isalnum c then [c] else [37; toHex (Z.shiftr c 4); toHex (c mod 16)]) sIn.

Definition decode_hex (a b : Z) : Z := Z.lor (u8 (Z.shiftl (fromHex a) 4)) (fromHex b).

(** After a percent sign the code reads [sIn[ix+1]] and [sIn[ix+2]]; the
    terminating zero may be read, the byte after it not ([None]). *)
Fixpoint UrlDecode (sIn : list Z) : option (list Z) :=
  match sIn with
  | [] => Some []
  | c :: s =>
      if c =? 37 then
        match s with
        | a :: b :: s => (decode_hex a b ::.) <$> UrlDecode s
        | [a] => Some [decode_hex a 0]
        | [] => None
        end
      else (u8 (if c =? 43 then 32 else c) ::.) <$> UrlDecode s
  end.

(** ** IsUTF8 *)

Fixpoint IsUTF8_loop (fuel : nat) (s : list Z) : option bool :=
  match fuel with
  | O => None
  | S fuel =>
      match s with
      | [] => Some true
      | b0 :: s1 =>
          if b0 <? 128 then IsUTF8_loop fuel s1
          else if b0 <? 192 then Some false
          else if b0 <? 224 then
            match s1 with
            | [] => Some true
            | b1 :: s2 =>
                if negb (Z.land b1 192 =? 128) then Some false else IsUTF8_loop fuel s2
            end
          else if b0 <? 240 then
            match s1 with
            | b1 :: b2 :: s3 =>
                if negb (Z.land b1 192 =? 128) || negb (Z.land b2 192 =? 128) then Some false
                else IsUTF8_loop fuel s3
            | _ => Some true
            end
          else Some false
      end
  end.

Definition IsUTF8 (s : list Z) : option bool := IsUTF8_loop (S (length s)) s.

(** ** base64 *)

Definition base64_chars : list Z := bytes_of
  ("ABCDEFGHIJKLMNOPQRSTUVWXYZ" ++ "abcdefghijklmnopqrstuvwxyz" ++ "0123456789+/")%string.
Definition urlsafe_base64_chars : list Z := bytes_of
  ("ABCDEFGHIJKLMNOPQRSTUVWXYZ" ++ "abcdefghijklmnopqrstuvwxyz" ++ "0123456789-_")%string.

(** [table[i]]; -1 marks a read outside of the table. *)
Definition table_at (table : list Z) (i : Z) : Z := default (-1) (zget table i).

Definition is_base64 (c : Z) : bool := isalnum c || (c =? 43) || (c =? 47).

(** [char_array_4] from [char_array_3] *)
Definition encode_group (a b c : Z) : list Z :=
  [Z.shiftr (Z.land a 252) 2;
   Z.shiftl (Z.land a 3) 4 + Z.shiftr (Z.land b 240) 4;
   Z.shiftl (Z.land b 15) 2 + Z.shiftr (Z.land c 192) 6;
   Z.land c 63].

(** The encoding loop; [pend] is [char_array_3] up to the index [i].  [rd] is
    how a byte reads back from the array: [char] or [unsigned char]. *)
Fixpoint encode_loop (table : list Z) (rd : Z → Z) (bytes pend ret : list Z) : list Z :=
  match bytes with
  | b :: bytes =>
      match pend ++ [rd b] with
      | [x; y; z] => encode_loop table rd bytes [] (ret ++ (table_at table <$> encode_group x y z))
      | pend => encode_loop table rd bytes pend ret
      end
  | [] =>
      match pend with
      | [x] => ret ++ take 2 (table_at table <$> encode_group x 0 0) ++ [61; 61]
      | [x; y] => ret ++ take 3 (table_at table <$> encode_group x y 0) ++ [61]
      | _ => ret
      end
  end.

Definition base64_encode (bytes : list Z) : list Z := encode_loop base64_chars i8 bytes [] [].
Definition urlsafe_b64encode (bytes : list Z) : list Z :=
  encode_loop urlsafe_base64_chars id bytes [] [].

(** [base64_chars.find(c)] stored in an [unsigned char]; [npos] becomes 255. *)
Fixpoint find_index (table : list Z) (c : Z) : option Z :=
  match table with
  | [] => None
  | x :: table => if x =? c then Some 0
                  else match find_index table c with Some i => Some (1 + i) | None => None end
  end.
Definition find64 (c : Z) : Z := u8 (default (2 ^ 64 - 1) (find_index base64_chars c)).

(** [char_array_3] from [char_array_4] *)
Definition decode_group (a b c d : Z) : list Z :=
  [u8 (Z.shiftl a 2 + Z.shiftr (Z.land b 48) 4);
   u8 (Z.shiftl (Z.land b 15) 4 + Z.shiftr (Z.land c 60) 2);
   u8 (Z.shiftl (Z.land c 3) 6 + d)].

(** After the loop: the pending characters, padded with zero characters. *)
Definition decode_tail (pend : list Z) : list Z :=
  match pend with
  | [] => []
  | _ =>
      match find64 <$> take 4 (pend ++ [0; 0; 0]) with
      | [a; b; c; d] => take (length pend - 1) (decode_group a b c d)
      | _ => []
      end
  end.

Fixpoint decode_loop (s pend ret : list Z) : list Z :=
  match s with
  | c :: s =>
      if negb (c =? 61) && is_base64 c then
        match pend ++ [c] with
        | [x; y; z; w] =>
            decode_loop s [] (ret ++ decode_group (find64 x) (find64 y) (find64 z) (find64 w))
        | pend => decode_loop s pend ret
        end
      else ret ++ decode_tail pend
  | [] => ret ++ decode_tail pend
  end.

(** For strings below 2^31 characters ([int in_len]). *)
Definition base64_decode (s : list Z) : list Z := decode_loop s [] [].

End UrlCode.
