(* ===== verification/UrlCodeFacts.v ===== *)
(** * Correctness of the codecs of cppBase/utility/url_code.cpp *)
From S2P Require Import Prelude UrlCode.
Import UrlCode.

Module UrlCodeFacts.

(** ** Percent encoding *)

Lemma percent_byte c : is_byte c → decode_hex (toHex (Z.shiftr c 4)) (toHex (c mod 16)) = c.
Proof. intros H. by_bytes c. Qed.

Lemma alnum_plain c : is_byte c → (negb (isalnum c) || (negb (c =? 37) && negb (c =? 43))) = true.
Proof. intros H. by_bytes c. Qed.

(** Percent encoding round trip: UrlDecode gives back every C string
    from its UrlEncode, without reading past the end, and the encoding
    consists of letters, digits and percent signs only. *)
Lemma url_decodes_encoded s :
  Forall is_byte s →
  UrlDecode (UrlEncode s) = Some s ∧ Forall (λ c, isalnum c = true ∨ c = 37) (UrlEncode s).
Proof.
  induction 1 as [|c s Hc _ [IH1 IH2]]; [done|]. simpl.
  destruct (isalnum c) eqn:Ha.
  - pose proof (alnum_plain c Hc) as Hp. rewrite Ha in Hp. simpl in Hp.
    apply andb_true_iff in Hp as [H1 H2]. apply negb_true_iff in H1, H2.
    split; [|constructor; auto]. simpl. rewrite H1, H2, IH1. simpl.
    by rewrite wrap_small.
  - split.
    + cbn [app UrlDecode]. rewrite Z.eqb_refl, IH1. simpl. by rewrite percent_byte.
    + assert (isalnum (toHex (Z.shiftr c 4)) && isalnum (toHex (c mod 16)) = true) as Hh
        by by_bytes c.
      apply andb_true_iff in Hh as [? ?]. repeat (constructor; [auto|]). done.
Qed.

(** Lower-case hexadecimal digits set bit 5 of the byte: %4f decodes to
    'o', not to 'O'. *)
Lemma url_decode_lowercase :
  UrlDecode (bytes_of "%4F") = Some (bytes_of "O") ∧ UrlDecode (bytes_of "%4f") = Some (bytes_of "o").
Proof. split; reflexivity. Qed.

(** A percent sign at the end of the string reads past its terminator. *)
Lemma url_decode_trailing_percent s :
  Forall (λ c, c ≠ 37) s → UrlDecode (s ++ [37]) = None.
Proof.
  induction 1 as [|c s Hc _ IH]; [done|]. simpl.
  rewrite (proj2 (Z.eqb_neq c 37)) by done. by rewrite IH.
Qed.

(** ** base64 *)

Lemma encode_loop_acc table rd bs pend ret :
  encode_loop table rd bs pend ret = ret ++ encode_loop table rd bs pend [].
Proof.
  revert pend ret. induction bs as [|b bs IH]; intros pend ret; simpl.
  - destruct pend as [|x [|y [|z pend]]]; by rewrite ?app_nil_r.
  - destruct (pend ++ [rd b]) as [|x [|y [|z [|w l]]]]; try apply IH.
    rewrite IH. symmetry. rewrite IH. by rewrite (assoc_L (++)).
Qed.

Lemma decode_loop_acc s pend ret : decode_loop s pend ret = ret ++ decode_loop s pend [].
Proof.
  revert pend ret. induction s as [|c s IH]; intros pend ret; simpl; [done|].
  destruct (negb (c =? 61) && is_base64 c); [|done].
  destruct (pend ++ [c]) as [|x [|y [|z [|w [|v l]]]]]; try apply IH.
  rewrite IH. symmetry. rewrite IH. by rewrite (assoc_L (++)).
Qed.

(** Reading a byte as signed char does not change the group. *)
Lemma signed_bits b m : is_byte b → is_byte m → Z.land (i8 b) m = Z.land b m.
Proof.
  intros Hb Hm.
  pose proof (byte_enum2 (λ b m, Z.land (i8 b) m =? Z.land b m) ltac:(vm_compute; reflexivity) b m Hb Hm)
    as E. by apply Z.eqb_eq.
Qed.

Definition encode_group_div (a b c : Z) : list Z :=
  [a / 4; a mod 4 * 16 + b / 16; b mod 16 * 4 + c / 64; c mod 64].

Lemma byte_split b : is_byte b →
  Z.shiftr (Z.land b 252) 2 = b / 4 ∧ Z.shiftl (Z.land b 3) 4 = b mod 4 * 16 ∧
  Z.shiftr (Z.land b 240) 4 = b / 16 ∧ Z.shiftl (Z.land b 15) 2 = b mod 16 * 4 ∧
  Z.shiftr (Z.land b 192) 6 = b / 64 ∧ Z.land b 63 = b mod 64.
Proof. intros H. split_and!; by_bytes b. Qed.

Lemma encode_group_eq a b c :
  is_byte a → is_byte b → is_byte c → encode_group a b c = encode_group_div a b c.
Proof.
  intros Ha Hb Hc. unfold encode_group, encode_group_div.
  destruct (byte_split a Ha) as (-> & -> & _), (byte_split b Hb) as (_ & _ & -> & -> & _).
  by destruct (byte_split c Hc) as (_ & _ & _ & _ & -> & ->).
Qed.

Lemma encode_group_signed a b c :
  is_byte a → is_byte b → is_byte c →
  encode_group (i8 a) (i8 b) (i8 c) = encode_group a b c.
Proof. intros. unfold encode_group. by rewrite !signed_bits by done. Qed.

Lemma encode_group_range a b c :
  is_byte a → is_byte b → is_byte c → Forall (λ v, 0 <= v < 64) (encode_group a b c).
Proof.
  intros Ha Hb Hc. rewrite encode_group_eq by done. unfold encode_group_div. uint_bounds.
  repeat (constructor; [Z.div_mod_to_equations; lia|]). constructor.
Qed.

(** A 6-bit value goes through the alphabet and back. *)
Lemma char64 v : 0 <= v < 64 →
  let c := table_at base64_chars v in
  find64 c = v ∧ negb (c =? 61) && is_base64 c = true.
Proof.
  intros Hv.
  pose proof (range_enum 64 (λ v, let c := table_at base64_chars v in
    (find64 c =? v) && (negb (c =? 61) && is_base64 c)) ltac:(vm_compute; reflexivity) v Hv) as E.
  cbv beta zeta in *. by rewrite andb_true_iff, Z.eqb_eq in E.
Qed.

Lemma decode_bits a b c d :
  0 <= a < 64 → 0 <= b < 64 → 0 <= c < 64 → 0 <= d < 64 →
  decode_group a b c d = [a * 4 + b / 16; b mod 16 * 16 + c / 4; c mod 4 * 64 + d].
Proof.
  intros Ha Hb Hc Hd. unfold decode_group.
  assert (∀ x, 0 <= x < 64 → Z.shiftr (Z.land x 48) 4 = x / 16 ∧
    Z.shiftl (Z.land x 15) 4 = x mod 16 * 16 ∧ Z.shiftr (Z.land x 60) 2 = x / 4 ∧
    Z.shiftl (Z.land x 3) 6 = x mod 4 * 64 ∧ Z.shiftl x 2 = x * 4) as Hx.
  { intros x Hx.
    pose proof (range_enum 64 (λ x, (Z.shiftr (Z.land x 48) 4 =? x / 16) &&
      (Z.shiftl (Z.land x 15) 4 =? x mod 16 * 16) && (Z.shiftr (Z.land x 60) 2 =? x / 4) &&
      (Z.shiftl (Z.land x 3) 6 =? x mod 4 * 64) && (Z.shiftl x 2 =? x * 4))
      ltac:(vm_compute; reflexivity) x Hx) as E. cbv beta in E.
    rewrite !andb_true_iff, !Z.eqb_eq in E. tauto. }
  destruct (Hx a Ha) as (_ & _ & _ & _ & ->), (Hx b Hb) as (-> & -> & _ & _ & _),
    (Hx c Hc) as (_ & _ & -> & -> & _).
  rewrite !wrap_small by (uint_bounds; Z.div_mod_to_equations; lia). done.
Qed.

Lemma decode_encode_group a b c :
  is_byte a → is_byte b → is_byte c →
  match encode_group a b c with
  | [w; x; y; z] => decode_group w x y z = [a; b; c]
  | _ => False
  end.
Proof.
  intros Ha Hb Hc. pose proof (encode_group_range a b c Ha Hb Hc) as Hr.
  rewrite encode_group_eq in * by done. unfold encode_group_div in *. cbv beta iota.
  rewrite !Forall_cons in Hr. destruct Hr as (H1 & H2 & H3 & H4 & _).
  rewrite decode_bits by done. uint_bounds.
  repeat f_equal; Z.div_mod_to_equations; lia.
Qed.

(** Decoding one full group of characters. *)
Lemma decode_loop_group a b c s :
  is_byte a → is_byte b → is_byte c →
  decode_loop ((table_at base64_chars <$> encode_group a b c) ++ s) [] [] =
  [a; b; c] ++ decode_loop s [] [].
Proof.
  intros Ha Hb Hc. pose proof (encode_group_range a b c Ha Hb Hc) as Hr.
  pose proof (decode_encode_group a b c Ha Hb Hc) as Hd.
  destruct (encode_group a b c) as [|w [|x [|y [|z [|? ?]]]]]; try done.
  rewrite !Forall_cons in Hr. destruct Hr as (H1 & H2 & H3 & H4 & _).
  destruct (char64 w H1) as [Fw Cw], (char64 x H2) as [Fx Cx], (char64 y H3) as [Fy Cy],
    (char64 z H4) as [Fz Cz].
  csimpl. cbn [decode_loop]. rewrite Cw, Cx, Cy, Cz. cbn [app].
  rewrite decode_loop_acc, Fw, Fx, Fy, Fz, Hd. done.
Qed.

Lemma byte_0 : is_byte 0.
Proof. done. Qed.

Lemma decode_loop_two a :
  is_byte a →
  decode_loop (take 2 (table_at base64_chars <$> encode_group a 0 0) ++ [61; 61]) [] [] = [a].
Proof. intros Ha. unfold encode_group. cbn [take fmap list_fmap app]. by_bytes a. Qed.

Lemma decode_loop_three a b :
  is_byte a → is_byte b →
  decode_loop (take 3 (table_at base64_chars <$> encode_group a b 0) ++ [61]) [] [] = [a; b].
Proof.
  intros Ha Hb.
  refine (bool_decide_eq_true_1 _ (byte_enum2 (λ a b, bool_decide
    (decode_loop (take 3 (table_at base64_chars <$> encode_group a b 0) ++ [61]) [] [] = [a; b]))
    _ a b Ha Hb)). vm_compute. reflexivity.
Qed.

(** Induction on a byte string three bytes at a time. *)
Lemma list_ind3 (P : list Z → Prop) :
  P [] → (∀ a, P [a]) → (∀ a b, P [a; b]) → (∀ a b c l, P l → P (a :: b :: c :: l)) → ∀ l, P l.
Proof.
  intros H0 H1 H2 H3. fix IH 1. intros [|a [|b [|c l]]]; [done..|]. apply H3, IH.
Qed.

(** base64_decode gives back every byte string from its base64_encode,
    although the encoder reads the bytes as signed characters. *)
Lemma base64_decodes_encoded bs : Forall is_byte bs → base64_decode (base64_encode bs) = bs.
Proof.
  unfold base64_decode, base64_encode. induction bs as [|a|a b|a b c bs IH] using list_ind3; intros Hbs.
  - done.
  - apply Forall_cons in Hbs as [Ha _]. cbn [encode_loop app].
    replace (encode_group (i8 a) 0 0) with (encode_group a 0 0)
      by (unfold encode_group; by rewrite !signed_bits by done).
    exact (decode_loop_two a Ha).
  - rewrite !Forall_cons in Hbs. destruct Hbs as (Ha & Hb & _). cbn [encode_loop app].
    replace (encode_group (i8 a) (i8 b) 0) with (encode_group a b 0)
      by (unfold encode_group; by rewrite !signed_bits by done).
    exact (decode_loop_three a b Ha Hb).
  - rewrite !Forall_cons in Hbs. destruct Hbs as (Ha & Hb & Hc & Hbs). cbn [encode_loop app].
    rewrite encode_loop_acc, encode_group_signed by done. cbn [app].
    rewrite decode_loop_group by done. by rewrite IH.
Qed.

(** The two alphabets differ in the last two characters. *)
Definition to_urlsafe (c : Z) : Z := if c =? 43 then 45 else if c =? 47 then 95 else c.

Lemma table_urlsafe v : 0 <= v < 64 →
  table_at urlsafe_base64_chars v = to_urlsafe (table_at base64_chars v).
Proof.
  intros Hv. apply Z.eqb_eq.
  apply (range_enum 64 (λ v, table_at urlsafe_base64_chars v =? to_urlsafe (table_at base64_chars v)));
    [vm_compute; reflexivity|done].
Qed.

Lemma group_urlsafe l : Forall (λ v, 0 <= v < 64) l →
  table_at urlsafe_base64_chars <$> l = to_urlsafe <$> (table_at base64_chars <$> l).
Proof. induction 1 as [|v l Hv _ IH]; csimpl; [done|]. by rewrite IH, table_urlsafe. Qed.

(** The URL-safe encoder gives the standard encoding with '-' for '+'
    and '_' for '/', although one reads the bytes as unsigned and the other
    as signed characters. *)
Lemma urlsafe_encode_translates bs :
  Forall is_byte bs → urlsafe_b64encode bs = to_urlsafe <$> base64_encode bs.
Proof.
  unfold urlsafe_b64encode, base64_encode.
  induction bs as [|a|a b|a b c bs IH] using list_ind3; intros Hbs.
  - done.
  - apply Forall_cons in Hbs as [Ha _]. cbn [encode_loop app]. unfold id.
    replace (encode_group (i8 a) 0 0) with (encode_group a 0 0)
      by (unfold encode_group; by rewrite !signed_bits by done).
    rewrite group_urlsafe by by apply encode_group_range. rewrite fmap_app, fmap_take. done.
  - rewrite !Forall_cons in Hbs. destruct Hbs as (Ha & Hb & _). cbn [encode_loop app]. unfold id.
    replace (encode_group (i8 a) (i8 b) 0) with (encode_group a b 0)
      by (unfold encode_group; by rewrite !signed_bits by done).
    rewrite group_urlsafe by by apply encode_group_range. rewrite fmap_app, fmap_take. done.
  - rewrite !Forall_cons in Hbs. destruct Hbs as (Ha & Hb & Hc & Hbs). cbn [encode_loop app].
    rewrite encode_loop_acc, (encode_loop_acc base64_chars), encode_group_signed by done.
    change (encode_group (id a) (id b) (id c)) with (encode_group a b c). cbn [app].
    rewrite group_urlsafe by by apply encode_group_range. by rewrite IH, fmap_app.
Qed.

(** C30: The encodings round trip.  UrlDecode gives back every C string from its UrlEncode, without reading past the
    end, and the encoding consists of letters, digits and percent signs only; base64_decode gives back every byte string from
    its base64_encode, although the encoder reads the bytes as signed characters, and the URL-safe encoder, which reads
    them as unsigned, gives the same text in the other alphabet. *)
Theorem url_code_round_trips bs : Forall is_byte bs →
  UrlDecode (UrlEncode bs) = Some bs ∧ Forall (λ c, isalnum c = true ∨ c = 37) (UrlEncode bs) ∧
  base64_decode (base64_encode bs) = bs ∧ urlsafe_b64encode bs = to_urlsafe <$> base64_encode bs.
Proof.
  intros Hbs. destruct (url_decodes_encoded bs Hbs) as [H1 H2].
  split_and!; [done..|by apply base64_decodes_encoded|by apply urlsafe_encode_translates].
Qed.

Lemma url_code_round_trips_witness :
  UrlDecode (UrlEncode (bytes_of "a b/%é")) = Some (bytes_of "a b/%é") ∧
  base64_decode (bytes_of "YSBiLyXDqQ==") = bytes_of "a b/%é".
Proof.
  destruct (url_code_round_trips (bytes_of "a b/%é")) as (H1 & _ & H3 & _).
  { repeat (constructor; [by vm_compute|]). constructor. }
  split; [exact H1|exact H3].
Defined.

(** ** IsUTF8 *)

(** The UTF-8 encoding of a code point up to U+FFFF. *)
Definition utf8 (cp : Z) : list Z :=
  if cp <? 128 then [cp]
  else if cp <? 2048 then [192 + cp / 64; 128 + cp mod 64]
  else [224 + cp / 4096; 128 + cp / 64 mod 64; 128 + cp mod 64].

Lemma continuation_byte x : 0 <= x < 64 → Z.land (128 + x) 192 = 128.
Proof.
  intros Hx. assert (is_byte (128 + x)) as Hb by ulia.
  pose proof (byte_enum (λ b, (b <? 128) || (192 <=? b) || (Z.land b 192 =? 128))
    ltac:(vm_compute; reflexivity) _ Hb) as E. simpl in E.
  rewrite (proj2 (Z.ltb_ge _ _)), (proj2 (Z.leb_gt _ _)) in E by lia. by apply Z.eqb_eq in E.
Qed.

Lemma IsUTF8_loop_utf8 fuel cp s :
  0 <= cp < 65536 → IsUTF8_loop (S fuel) (utf8 cp ++ s) = IsUTF8_loop fuel s.
Proof.
  intros Hcp. unfold utf8.
  destruct (Z.ltb_spec cp 128); [|destruct (Z.ltb_spec cp 2048)].
  - simpl. by rewrite (proj2 (Z.ltb_lt cp 128)).
  - cbn [app IsUTF8_loop].
    rewrite !(proj2 (Z.ltb_ge (192 + cp / 64) _)), (proj2 (Z.ltb_lt (192 + cp / 64) _))
      by (Z.div_mod_to_equations; lia).
    rewrite continuation_byte by (Z.div_mod_to_equations; lia). done.
  - cbn [app IsUTF8_loop].
    rewrite !(proj2 (Z.ltb_ge (224 + cp / 4096) _)), (proj2 (Z.ltb_lt (224 + cp / 4096) _))
      by (Z.div_mod_to_equations; lia).
    rewrite !continuation_byte by (Z.div_mod_to_equations; lia). done.
Qed.

Lemma utf8_length cp : (1 <= length (utf8 cp))%nat.
Proof. unfold utf8. repeat case_match; simpl; lia. Qed.

Lemma IsUTF8_loop_mono fuel fuel' s b :
  IsUTF8_loop fuel s = Some b → (fuel <= fuel')%nat → IsUTF8_loop fuel' s = Some b.
Proof.
  revert fuel' s. induction fuel as [|fuel IH]; intros fuel' s H Hle; [done|].
  destruct fuel' as [|fuel']; [lia|]. simpl in *.
  repeat case_match; try done; apply IH; (done || lia).
Qed.

Lemma IsUTF8_loop_total fuel s : (length s < fuel)%nat → is_Some (IsUTF8_loop fuel s).
Proof.
  revert s. induction fuel as [|fuel IH]; intros s Hs; [lia|]. simpl.
  repeat case_match; try (by eexists); subst; apply IH; simpl in *; lia.
Qed.

(** IsUTF8 always terminates; it accepts the UTF-8 encoding of every text
    of code points up to U+FFFF, also when the text is cut inside its last
    character, and rejects a text that holds a four-byte character. *)
Theorem IsUTF8_basic_plane cps cut :
  Forall (λ cp, 0 <= cp < 65536) cps →
  (∀ s, is_Some (IsUTF8 s)) ∧
  IsUTF8 (flat_map utf8 cps) = Some true ∧
  (∀ cp, 0 <= cp < 65536 → (cut < length (utf8 cp))%nat →
     IsUTF8 (flat_map utf8 cps ++ take cut (utf8 cp)) = Some true) ∧
  (∀ b s, 240 <= b → IsUTF8 (flat_map utf8 cps ++ b :: s) = Some false).
Proof.
  intros Hcps.
  assert (∀ t r, is_Some (IsUTF8_loop (S (length t)) t) → IsUTF8 t = r →
    IsUTF8 (flat_map utf8 cps ++ t) = r) as Hgen.
  { intros t r [b Hb] <-. unfold IsUTF8 at 2. rewrite Hb.
    unfold IsUTF8. apply (IsUTF8_loop_mono (length cps + S (length t))).
    - induction Hcps as [|cp cps Hcp _ IH]; [done|].
      cbn [flat_map length]. rewrite <- (assoc_L (++)). rewrite Nat.add_succ_l.
      by rewrite IsUTF8_loop_utf8.
    - rewrite length_app. clear. induction cps as [|cp cps IH]; simpl; [lia|].
      rewrite length_app. pose proof (utf8_length cp). lia. }
  assert (∀ s, is_Some (IsUTF8_loop (S (length s)) s)) as Htot
    by (intros s; apply IsUTF8_loop_total; lia).
  split_and!.
  - apply Htot.
  - rewrite <- (app_nil_r (flat_map _ _)). by apply Hgen.
  - intros cp Hcp Hcut. apply Hgen; [apply Htot|]. unfold utf8 in *.
    destruct (Z.ltb_spec cp 128); [|destruct (Z.ltb_spec cp 2048)]; simpl in Hcut.
    + by replace cut with 0%nat by lia.
    + destruct cut as [|[|cut]]; [done| |lia]. unfold IsUTF8. simpl.
      by rewrite !(proj2 (Z.ltb_ge (192 + cp / 64) _)), (proj2 (Z.ltb_lt (192 + cp / 64) _))
        by (Z.div_mod_to_equations; lia).
    + destruct cut as [|[|[|cut]]]; [done| | |lia]; unfold IsUTF8; simpl;
      by rewrite !(proj2 (Z.ltb_ge (224 + cp / 4096) _)), (proj2 (Z.ltb_lt (224 + cp / 4096) _))
        by (Z.div_mod_to_equations; lia).
  - intros b s Hb. apply Hgen; [apply Htot|]. unfold IsUTF8. simpl.
    by rewrite !(proj2 (Z.ltb_ge b _)) by lia.
Qed.

Lemma IsUTF8_basic_plane_witness :
  (∀ s, is_Some (IsUTF8 s)) ∧ IsUTF8 (flat_map utf8 [65; 233; 8364]) = Some true ∧
  (∀ cp, 0 <= cp < 65536 → (1 < length (utf8 cp))%nat →
     IsUTF8 (flat_map utf8 [65; 233; 8364] ++ take 1 (utf8 cp)) = Some true) ∧
  (∀ b s, 240 <= b → IsUTF8 (flat_map utf8 [65; 233; 8364] ++ b :: s) = Some false).
Proof. apply IsUTF8_basic_plane. repeat (constructor; [lia|]). constructor. Defined.

End UrlCodeFacts.
