(* ===== verification/BinTree.v ===== *)
(** * Binary trees and the sorted sets they represent

    The search trees of codeC++11 (BinarySearchTree.h, AvlTree.h, SplayTree.h,
    Treap.h) link nodes with an element and two children, some with one
    more field.  [tree] is a linked node with its subtrees; the null pointer,
    and the sentinel [nullNode] where the class has one, is [Nil].

    [SetImpl] is the contract of these classes: whatever calls a client
    makes, the answers are those of a sorted list without duplicates. *)
From S2P Require Import Prelude StdMap.

Inductive tree (A K : Type) : Type :=
| Nil
| Node (info : A) (left : tree A K) (element : K) (right : tree A K).
Arguments Nil {A K}.
Arguments Node {A K} info left element right.

Module BinTree.
Section tree.
Context {A K : Type}.
Implicit Types t l r : tree A K.

Fixpoint elements t : list K :=
  match t with
  | Nil => []
  | Node _ l x r => elements l ++ x :: elements r
  end.

Fixpoint size t : Z :=
  match t with
  | Nil => 0
  | Node _ l _ r => size l + 1 + size r
  end.

(** [t->element]; [None] is the null pointer. *)
Definition root_element t : option K :=
  match t with Nil => None | Node _ _ x _ => Some x end.

Definition is_nil t : bool := match t with Nil => true | _ => false end.

Lemma is_nil_elements t : is_nil t = true ↔ elements t = [].
Proof. destruct t; simpl; split; try done. intros H. by destruct (elements t1). Qed.

Lemma size_elements t : size t = zlen (elements t).
Proof. induction t as [|a l IHl x r IHr]; cbn [size elements]; [done|]. zlia. Qed.
Lemma size_nonneg t : 0 <= size t.
Proof. rewrite size_elements. auto with cpp. Qed.
(** Searching and walking: what the classes do in the same way. *)
Fixpoint leftmost t : tree A K :=
  match t with
  | Nil => Nil
  | Node _ Nil _ _ => t
  | Node _ l _ _ => leftmost l
  end.

Fixpoint rightmost t : tree A K :=
  match t with
  | Nil => Nil
  | Node _ _ _ Nil => t
  | Node _ _ _ r => rightmost r
  end.

Lemma leftmost_element t : root_element (leftmost t) = head (elements t).
Proof.
  induction t as [|i l IHl a r IHr]; [done|]. destruct l as [|j ll b lr]; [done|].
  change (leftmost (Node i (Node j ll b lr) a r)) with (leftmost (Node j ll b lr)).
  rewrite IHl. cbn [elements]. by destruct (elements ll).
Qed.

Lemma rightmost_element t : root_element (rightmost t) = last (elements t).
Proof.
  induction t as [|i l IHl a r IHr]; [done|]. destruct r as [|j rl b rr].
  - cbn [elements rightmost root_element]. by rewrite last_snoc.
  - change (rightmost (Node i l a (Node j rl b rr))) with (rightmost (Node j rl b rr)).
    rewrite IHr. change (elements (Node i l a (Node j rl b rr)))
      with (elements l ++ [a] ++ elements (Node j rl b rr)).
    rewrite (assoc_L (++)), last_app. cbn [elements].
    by destruct (last (elements rl ++ b :: elements rr)) eqn:E;
      [|apply last_None in E; destruct (elements rl)].
Qed.

Lemma elements_head t : is_nil t = false → is_Some (head (elements t)).
Proof. destruct t; [done|]. simpl. by destruct (elements t1); eexists. Qed.
Lemma elements_last t : is_nil t = false → is_Some (last (elements t)).
Proof.
  destruct t as [|i l a r]; [done|]. intros _. destruct (last _) eqn:E; [by eexists|].
  apply last_None in E. simpl in E. by destruct (elements l).
Qed.
Lemma is_nil_spec t : is_nil t = match elements t with [] => true | _ => false end.
Proof. destruct t; simpl; [done|]. by destruct (elements t1). Qed.
End tree.
#[export] Hint Rewrite @leftmost_element @rightmost_element : cpp.
End BinTree.

(** ** Sorted lists without duplicates *)
Module SortedSet.
Section set.
Context {K : Type} `{KeyOrder K}.
Implicit Types (l r s : list K) (x y a : K).

Definition lt (x y : K) : Prop := klt x y = true.

Fixpoint ins x s : list K :=
  match s with
  | [] => [x]
  | y :: s' => if klt x y then x :: s else if klt y x then y :: ins x s' else s
  end.

Fixpoint del x s : list K :=
  match s with
  | [] => []
  | y :: s' => if klt x y then s else if klt y x then y :: del x s' else s'
  end.

Fixpoint mem x s : bool :=
  match s with
  | [] => false
  | y :: s => if decide (x = y) then true else mem x s
  end.

Definition sorted s : Prop := StronglySorted lt s.

#[export] Instance lt_trans : Transitive lt.
Proof. intros x y z. apply klt_trans. Qed.
#[export] Instance lt_irrefl : Irreflexive lt.
Proof. intros x. unfold lt. red. by rewrite klt_irrefl. Qed.
Lemma lt_asym x y : lt x y → klt y x = false.
Proof.
  intros Hxy. destruct (klt y x) eqn:E; [|done].
  destruct (irreflexivity lt x). by transitivity y.
Qed.
Lemma lt_neq x y : lt x y → x ≠ y.
Proof. intros Hxy ->. by destruct (irreflexivity lt y). Qed.

(** The three outcomes of the two comparisons of a search. *)
Lemma cmp_cases x y :
  (klt x y = true ∧ lt x y) ∨ (klt x y = false ∧ klt y x = true ∧ lt y x) ∨
  (klt x y = false ∧ klt y x = false ∧ x = y).
Proof.
  destruct (klt x y) eqn:E; [by left|]. right. destruct (klt y x) eqn:E'; [by left|right].
  split_and!; [done..|]. by apply klt_total.
Qed.

Lemma mem_elem x s : mem x s = true ↔ x ∈ s.
Proof.
  induction s as [|y s IH]; simpl; [by rewrite elem_of_nil|].
  rewrite elem_of_cons, <- IH. destruct (decide (x = y)); tauto.
Qed.
Lemma mem_app x l r : mem x (l ++ r) = mem x l || mem x r.
Proof. induction l as [|y l IH]; simpl; [done|]. by destruct (decide _). Qed.
Lemma mem_lt x s : Forall (lt x) s → mem x s = false.
Proof.
  induction 1 as [|y s Hy _ IH]; simpl; [done|]. rewrite decide_False; [done|by apply lt_neq].
Qed.
Lemma mem_gt x s : Forall (λ y, lt y x) s → mem x s = false.
Proof.
  induction 1 as [|y s Hy _ IH]; simpl; [done|].
  rewrite decide_False; [done|]. intros ->. by apply lt_neq in Hy.
Qed.

Lemma sorted_mid l a r :
  sorted (l ++ a :: r) ↔
  sorted l ∧ sorted r ∧ Forall (λ y, lt y a) l ∧ Forall (lt a) r.
Proof.
  unfold sorted. rewrite StronglySorted_app, StronglySorted_cons, !Forall_forall.
  split; [|intros (Hl & Hr & Hla & Har); split_and!; try done].
  - intros (Hlr & Hl & Har & Hr). split_and!; [done..| |done].
    intros y Hy. apply Hlr; set_solver.
  - intros y z Hy [->|Hz]%elem_of_cons; [by apply Hla|].
    transitivity a; [by apply Hla|by apply Har].
Qed.

Lemma below_trans x a l : lt a x → Forall (λ y, lt y a) l → Forall (λ y, lt y x) l.
Proof. intros Ha Hl. eapply Forall_impl; [exact Hl|]. intros y Hy. by transitivity a. Qed.
Lemma above_trans x a r : lt x a → Forall (lt a) r → Forall (lt x) r.
Proof. intros Ha Hr. eapply Forall_impl; [exact Hr|]. intros y Hy. by transitivity a. Qed.

(** Insertion, deletion and search go to one side of an element. *)
Lemma ins_left x l a r : lt x a → ins x (l ++ a :: r) = ins x l ++ a :: r.
Proof.
  intros Hx. induction l as [|y l IH]; simpl; [by rewrite Hx|].
  destruct (klt x y); [done|]. by destruct (klt y x); [rewrite IH|].
Qed.
Lemma ins_below x l s : Forall (λ y, lt y x) l → ins x (l ++ s) = l ++ ins x s.
Proof.
  induction 1 as [|y l Hy _ IH]; simpl; [done|]. rewrite (lt_asym y x Hy), Hy. by rewrite IH.
Qed.
Lemma ins_right x l a r :
  sorted (l ++ a :: r) → lt a x → ins x (l ++ a :: r) = l ++ a :: ins x r.
Proof.
  intros (_ & _ & Hl & _)%sorted_mid Ha.
  rewrite ins_below by by apply (below_trans x a). simpl. by rewrite (lt_asym a x Ha), Ha.
Qed.
Lemma ins_mid l a r : sorted (l ++ a :: r) → ins a (l ++ a :: r) = l ++ a :: r.
Proof.
  intros (_ & _ & Hl & _)%sorted_mid. rewrite ins_below by done. simpl. by rewrite klt_irrefl.
Qed.

Lemma ins_above x s : Forall (lt x) s → ins x s = x :: s.
Proof. destruct 1 as [|y s Hy _]; simpl; [done|]. by rewrite Hy. Qed.

Lemma del_above x s : Forall (lt x) s → del x s = s.
Proof. destruct 1 as [|y s Hy _]; simpl; [done|]. by rewrite Hy. Qed.
Lemma del_left x l a r : lt x a → del x (l ++ a :: r) = del x l ++ a :: r.
Proof.
  intros Hx. induction l as [|y l IH]; simpl; [by rewrite Hx|].
  destruct (klt x y); [done|]. by destruct (klt y x); [rewrite IH|].
Qed.
Lemma del_below x l s : Forall (λ y, lt y x) l → del x (l ++ s) = l ++ del x s.
Proof.
  induction 1 as [|y l Hy _ IH]; simpl; [done|]. rewrite (lt_asym y x Hy), Hy. by rewrite IH.
Qed.
Lemma del_right x l a r :
  sorted (l ++ a :: r) → lt a x → del x (l ++ a :: r) = l ++ a :: del x r.
Proof.
  intros (_ & _ & Hl & _)%sorted_mid Ha.
  rewrite del_below by by apply (below_trans x a). simpl. by rewrite (lt_asym a x Ha), Ha.
Qed.
Lemma del_mid l a r : sorted (l ++ a :: r) → del a (l ++ a :: r) = l ++ r.
Proof.
  intros (_ & _ & Hl & _)%sorted_mid. rewrite del_below by done. simpl. by rewrite klt_irrefl.
Qed.

Lemma mem_left x l a r : sorted (l ++ a :: r) → lt x a → mem x (l ++ a :: r) = mem x l.
Proof.
  intros (_ & _ & _ & Hr)%sorted_mid Hx. rewrite mem_app. simpl.
  rewrite decide_False by by apply lt_neq. rewrite (mem_lt x r) by by apply (above_trans x a).
  by rewrite orb_false_r.
Qed.
Lemma mem_right x l a r : sorted (l ++ a :: r) → lt a x → mem x (l ++ a :: r) = mem x r.
Proof.
  intros (_ & _ & Hl & _)%sorted_mid Hx. rewrite mem_app. simpl.
  rewrite decide_False by (intros ->; by apply lt_neq in Hx).
  by rewrite (mem_gt x l) by by apply (below_trans x a).
Qed.
Lemma mem_mid l a r : mem a (l ++ a :: r) = true.
Proof. apply mem_elem. set_solver. Qed.

Lemma ins_elem x y s : y ∈ ins x s → y = x ∨ y ∈ s.
Proof.
  induction s as [|z s IH]; simpl; [rewrite list_elem_of_singleton; auto|].
  destruct (klt x z); [|destruct (klt z x)]; rewrite ?elem_of_cons; intuition.
Qed.
Lemma ins_forall (P : K → Prop) x s : P x → Forall P s → Forall P (ins x s).
Proof. rewrite !Forall_forall. intros Hx Hs y [->|Hy]%ins_elem; auto. Qed.
Lemma ins_sorted x s : sorted s → sorted (ins x s).
Proof.
  unfold sorted. induction 1 as [|y s Hs IH Hy]; simpl; [by repeat constructor|].
  destruct (cmp_cases x y) as [[-> Hx]|[(-> & -> & Hx)|(-> & -> & ->)]].
  - constructor; [by constructor|]. constructor; [done|]. by apply (above_trans x y).
  - constructor; [done|]. by apply ins_forall.
  - by constructor.
Qed.
Lemma del_incl x y s : y ∈ del x s → y ∈ s.
Proof.
  induction s as [|z s IH]; simpl; [done|].
  destruct (klt x z); [|destruct (klt z x)]; rewrite ?elem_of_cons; intuition.
Qed.
Lemma del_sorted x s : sorted s → sorted (del x s).
Proof.
  unfold sorted. induction 1 as [|y s Hs IH Hy]; simpl; [constructor|].
  repeat case_match; try done; constructor; try done.
  rewrite Forall_forall in *. intros z Hz%del_incl. auto.
Qed.
End set.
End SortedSet.

(** ** The contract of the search-tree classes *)

Module SetContract.
Export BinTree SortedSet.

Section contract.
Context {K : Type} `{KeyOrder K}.

(** The public operations. *)
Inductive call : Type :=
| Insert (x : K)
| Remove (x : K)
| Contains (x : K)
| FindMin
| FindMax
| IsEmpty
| MakeEmpty
| PrintTree.

(** The result of a call; [Lines None] is the line "Empty tree". *)
Inductive answer : Type :=
| Done
| Answer (b : bool)
| Item (x : K)
| Underflow
| Lines (items : option (list K)).

Definition item_or_underflow (x : option K) : answer :=
  match x with Some x => Item x | None => Underflow end.

Definition spec (c : call) (s : list K) : answer * list K :=
  match c with
  | Insert x => (Done, ins x s)
  | Remove x => (Done, del x s)
  | Contains x => (Answer (mem x s), s)
  | FindMin => (item_or_underflow (head s), s)
  | FindMax => (item_or_underflow (last s), s)
  | IsEmpty => (Answer (match s with [] => true | _ => false end), s)
  | MakeEmpty => (Done, [])
  | PrintTree => (Lines (match s with [] => None | _ => Some s end), s)
  end.

Fixpoint spec_run (cs : list call) (s : list K) : list answer * list K :=
  match cs with
  | [] => ([], s)
  | c :: cs => let '(a, s) := spec c s in let '(r, s) := spec_run cs s in (a :: r, s)
  end.

Lemma spec_sorted c s : sorted s → sorted (spec c s).2.
Proof. destruct c; simpl; auto using ins_sorted, del_sorted. constructor. Qed.

(** An implementation over states [T]: [exec] runs a call, [None] when it
    dereferences the null pointer; [ok] is its invariant. *)
Class SetImpl (T : Type) := {
  exec : call → T → option (answer * T);
  contents : T → list K;
  ok : T → Prop;
  ok_sorted t : ok t → sorted (contents t);
  exec_ok c t : ok t → ∃ t', exec c t = Some ((spec c (contents t)).1, t') ∧
                             ok t' ∧ contents t' = (spec c (contents t)).2;
}.

Fixpoint exec_run `{Impl : SetImpl T} (cs : list call) (t : T) : option (list answer * T) :=
  match cs with
  | [] => Some ([], t)
  | c :: cs =>
      '(a, t) ← exec c t;
      '(r, t) ← exec_run cs t;
      Some (a :: r, t)
  end.

Lemma exec_run_ok `{SetImpl T} cs t :
  ok t →
  ∃ t', exec_run cs t = Some ((spec_run cs (contents t)).1, t') ∧
        ok t' ∧ contents t' = (spec_run cs (contents t)).2.
Proof.
  revert t. induction cs as [|c cs IH]; intros t Ht; [by eauto|].
  destruct (exec_ok c t Ht) as (t1 & E & Ht1 & C1). simpl. rewrite E. simpl.
  destruct (IH t1 Ht1) as (t2 & E2 & Ht2 & C2). rewrite E2. simpl.
  destruct (spec c (contents t)) as [a s]. simpl in *. rewrite C1 in *.
  destruct (spec_run cs s) as [r s']. by eauto.
Qed.
End contract.
Arguments call K : clear implicits.
Arguments answer K : clear implicits.
Arguments SetImpl K {_} T.
(** The answers of the read-only calls, from the elements of the tree. *)
Section answers.
Context {A K : Type} `{KeyOrder K}.
Implicit Types t : tree A K.

Fixpoint search (x : K) t : bool :=
  match t with
  | Nil => false
  | Node _ l a r =>
      if klt x a then search x l
      else if klt a x then search x r
      else true
  end.

Lemma search_elements x t : sorted (elements t) → search x t = mem x (elements t).
Proof.
  induction t as [|i l IHl a r IHr]; [done|]. intros Hs. cbn [elements search] in *.
  pose proof Hs as (Hl & Hr & _)%sorted_mid.
  destruct (cmp_cases x a) as [[-> Hx]|[(-> & -> & Hx)|(-> & -> & ->)]].
  - by rewrite mem_left, IHl.
  - by rewrite mem_right, IHr.
  - by rewrite mem_mid.
Qed.

Lemma item_leftmost t :
  (if is_nil t then Some Underflow else Item <$> root_element (leftmost t)) =
  Some (item_or_underflow (head (elements t))).
Proof.
  rewrite leftmost_element. destruct (is_nil t) eqn:E.
  - apply is_nil_elements in E. by rewrite E.
  - by destruct (elements_head t E) as [x ->].
Qed.

Lemma item_rightmost t :
  (if is_nil t then Some Underflow else Item <$> root_element (rightmost t)) =
  Some (item_or_underflow (last (elements t))).
Proof.
  rewrite rightmost_element. destruct (is_nil t) eqn:E.
  - apply is_nil_elements in E. by rewrite E.
  - by destruct (elements_last t E) as [x ->].
Qed.

Lemma lines_elements t :
  (if is_nil t then None else Some (elements t)) =
  match elements t with [] => None | _ => Some (elements t) end.
Proof. destruct t as [|i l a r]; simpl; [done|]. by destruct (elements l). Qed.
End answers.
End SetContract.
