(* ===== verification/BinarySearchTree.v ===== *)
(** * BinarySearchTree: codeC++11/BinarySearchTree.h

    The unbalanced search tree.  A function that takes [BinaryNode * & t]
    returns the subtree that it leaves in [t]; the subtrees of a node are not
    shared, so a node is its subtree.  The overloads for rvalues do the same. *)
From S2P Require Import Prelude StdMap BinTree.
Import BinTree SetContract.

Module BinarySearchTree.
Section bst.
Context {K : Type} `{KeyOrder K}.

Abbreviation BinaryNode := (tree () K).
Implicit Types t : BinaryNode.

(** ** The private functions on subtrees *)

Fixpoint insert_at (x : K) t : BinaryNode :=
  match t with
  | Nil => Node () Nil x Nil
  | Node _ l element r =>
      if klt x element then Node () (insert_at x l) element r
      else if klt element x then Node () l element (insert_at x r)
      else t
  end.

(** The node with the smallest item: the subtree whose root it is. *)
Fixpoint findMin_at t : BinaryNode :=
  match t with
  | Nil => Nil
  | Node _ Nil _ _ => t
  | Node _ l _ _ => findMin_at l
  end.

(** The loop [while (t->r != nullptr) t = t->r]. *)
Fixpoint findMax_at t : BinaryNode :=
  match t with
  | Nil => Nil
  | Node _ _ _ Nil => t
  | Node _ _ _ r => findMax_at r
  end.

(** [findMin(r)->element] dereferences a node of the non-empty [r]. *)
Fixpoint remove_at (x : K) t : option BinaryNode :=
  match t with
  | Nil => Some Nil
  | Node _ l element r =>
      if klt x element then
        l ← remove_at x l; Some (Node () l element r)
      else if klt element x then
        r ← remove_at x r; Some (Node () l element r)
      else if negb (is_nil l) && negb (is_nil r) then
        element ← root_element (findMin_at r);
        r ← remove_at element r;
        Some (Node () l element r)
      else Some (if negb (is_nil l) then l else r)
  end.

Fixpoint contains_at (x : K) t : bool :=
  match t with
  | Nil => false
  | Node _ l element r =>
      if klt x element then contains_at x l
      else if klt element x then contains_at x r
      else true
  end.

(** The lines that are printed. *)
Fixpoint printTree_at t : list K :=
  match t with
  | Nil => []
  | Node _ l element r => printTree_at l ++ [element] ++ printTree_at r
  end.

(** Both subtrees are released, then the node. *)
Fixpoint makeEmpty_at t : BinaryNode :=
  match t with
  | Nil => Nil
  | Node _ l _ r =>
      let l := makeEmpty_at l in
      let r := makeEmpty_at r in Nil
  end.

Fixpoint clone t : BinaryNode :=
  match t with
  | Nil => Nil
  | Node _ l element r => Node () (clone l) element (clone r)
  end.

(** ** The public functions; [root] is the state *)

Definition isEmpty (root : BinaryNode) : bool := is_nil root.

(** [None]: a null pointer is dereferenced. *)
Definition findMin (root : BinaryNode) : option (answer K) :=
  if isEmpty root then Some Underflow
  else Item <$> root_element (findMin_at root).

Definition findMax (root : BinaryNode) : option (answer K) :=
  if isEmpty root then Some Underflow
  else Item <$> root_element (findMax_at root).

Definition contains (x : K) (root : BinaryNode) : bool := contains_at x root.
Definition printTree (root : BinaryNode) : option (list K) :=
  if isEmpty root then None else Some (printTree_at root).
Definition makeEmpty (root : BinaryNode) : BinaryNode := makeEmpty_at root.
Definition insert (x : K) (root : BinaryNode) : BinaryNode := insert_at x root.
Definition remove (x : K) (root : BinaryNode) : option BinaryNode := remove_at x root.

Definition call_tree (c : call K) (root : BinaryNode) : option (answer K * BinaryNode) :=
  match c with
  | Insert x => Some (Done, insert x root)
  | Remove x => root ← remove x root; Some (Done, root)
  | Contains x => Some (Answer (contains x root), root)
  | FindMin => a ← findMin root; Some (a, root)
  | FindMax => a ← findMax root; Some (a, root)
  | IsEmpty => Some (Answer (isEmpty root), root)
  | MakeEmpty => Some (Done, makeEmpty root)
  | PrintTree => Some (Lines (printTree root), root)
  end.

(** ** Correctness *)

Definition bst t : Prop := sorted (elements t).

Lemma bst_insert_elements x t : bst t → elements (insert_at x t) = ins x (elements t).
Proof.
  unfold bst. induction t as [|[] l IHl a r IHr]; [done|]. intros Hs. cbn [elements insert_at] in *.
  pose proof Hs as (Hl & Hr & _)%sorted_mid.
  destruct (cmp_cases x a) as [[-> Hx]|[(-> & -> & Hx)|(-> & -> & ->)]]; cbn [elements].
  - by rewrite ins_left, IHl.
  - by rewrite ins_right, IHr.
  - by rewrite ins_mid.
Qed.

Lemma remove_elements x t :
  bst t → ∃ t', remove_at x t = Some t' ∧ elements t' = del x (elements t).
Proof.
  unfold bst. revert x.
  induction t as [|[] l IHl a r IHr]; intros x Hs; [by eexists|]. cbn [elements remove_at] in *.
  pose proof Hs as (Hl & Hr & _)%sorted_mid.
  destruct (cmp_cases x a) as [[-> Hx]|[(-> & -> & Hx)|(-> & -> & ->)]].
  - destruct (IHl x Hl) as (l' & -> & El). eexists. split; [done|]. cbn [elements].
    by rewrite del_left, El.
  - destruct (IHr x Hr) as (r' & -> & Er). eexists. split; [done|]. cbn [elements].
    by rewrite del_right, Er.
  - rewrite del_mid by done. destruct (is_nil l) eqn:El; simpl.
    + apply is_nil_elements in El. rewrite El. by eexists.
    + destruct (is_nil r) eqn:Er; simpl.
      * apply is_nil_elements in Er. rewrite Er, app_nil_r. by eexists.
      * change (findMin_at r) with (leftmost r). rewrite leftmost_element. destruct (elements r) as [|b s] eqn:E.
        { apply is_nil_elements in E. congruence. }
        simpl. destruct (IHr b) as (r' & -> & E'); [done|]. eexists. split; [done|].
        cbn [elements]. rewrite E'. f_equal. cbn [del]. by rewrite klt_irrefl.
Qed.

Lemma bst_printTree_elements t : printTree_at t = elements t.
Proof. induction t as [|[] l IHl a r IHr]; simpl; [done|]. by rewrite IHl, IHr. Qed.

Lemma makeEmpty_elements t : makeEmpty_at t = Nil.
Proof. by destruct t. Qed.

Lemma bst_clone_eq t : clone t = t.
Proof. induction t as [|[] l IHl a r IHr]; simpl; [done|]. by rewrite IHl, IHr. Qed.

Lemma bst_call_tree_ok c t :
  bst t → ∃ t', call_tree c t = Some ((spec c (elements t)).1, t') ∧
                bst t' ∧ elements t' = (spec c (elements t)).2.
Proof.
  intros Ht. destruct c; cbn [call_tree spec fst snd].
  - eexists. split; [done|]. unfold insert, bst. rewrite bst_insert_elements by done.
    split; [by apply ins_sorted|done].
  - unfold remove. destruct (remove_elements x t Ht) as (t' & -> & E). eexists. split; [done|].
    unfold bst. rewrite E. split; [by apply del_sorted|done].
  - exists t. rewrite <- search_elements by done. done.
  - exists t. change (findMin t) with (if is_nil t then Some Underflow else
      Item <$> root_element (leftmost t)). by rewrite item_leftmost.
  - exists t. change (findMax t) with (if is_nil t then Some Underflow else
      Item <$> root_element (rightmost t)). by rewrite item_rightmost.
  - exists t. unfold isEmpty. by rewrite is_nil_spec.
  - exists Nil. unfold makeEmpty. rewrite makeEmpty_elements. split_and!; [done|constructor|done].
  - exists t. unfold printTree, isEmpty. by rewrite bst_printTree_elements, lines_elements.
Qed.

#[export] Instance bst_set : SetImpl K BinaryNode := {
  exec := call_tree;
  contents := elements;
  ok := bst;
  ok_sorted t Ht := Ht;
  exec_ok := bst_call_tree_ok;
}.
End bst.

(** BinarySearchTree is a sorted set: from the empty tree, whatever calls
    a client makes, none dereferences a null pointer, the answers are those
    of a sorted list without duplicates, and its copy has the same items. *)
Lemma bst_implements_sorted_set `{KeyOrder K} (cs : list (call K)) :
  ∃ root, exec_run cs (Nil : tree () K) = Some ((spec_run cs []).1, root) ∧
          elements root = (spec_run cs []).2 ∧ sorted (elements root) ∧ clone root = root.
Proof.
  destruct (exec_run_ok (T:=tree () K) cs Nil) as (root & E & Hok & C); [constructor|].
  exists root. split_and!; [exact E|exact C|exact Hok|apply bst_clone_eq].
Qed.

End BinarySearchTree.
