(* ===== verification/AvlTree.v ===== *)
(** * AvlTree: codeC++11/AvlTree.h

    The height-balanced search tree.  The extra field of a node is its
    [height].  [balance] and the rotations dereference children: they return
    [None] on a null pointer. *)
From S2P Require Import Prelude StdMap BinTree.
Import SetContract.

Module AvlTree.
Section avl.
Context {K : Type} `{KeyOrder K}.

Abbreviation AvlNode := (tree Z K).
Implicit Types t : AvlNode.

Definition ALLOWED_IMBALANCE : Z := 1.

(** ** Rotations *)

Definition height t : Z := match t with Nil => -1 | Node h _ _ _ => h end.
Definition max (lhs rhs : Z) : Z := if rhs <? lhs then lhs else rhs.

Definition rotateWithLeftChild (k2 : AvlNode) : option AvlNode :=
  match k2 with
  | Node _ (Node _ l k1 m) e2 r =>
      let h2 := max (height m) (height r) + 1 in
      let h1 := max (height l) h2 + 1 in
      Some (Node h1 l k1 (Node h2 m e2 r))
  | _ => None
  end.

Definition rotateWithRightChild (k1 : AvlNode) : option AvlNode :=
  match k1 with
  | Node _ l e1 (Node _ m k2 r) =>
      let h1 := max (height l) (height m) + 1 in
      let h2 := max (height r) h1 + 1 in
      Some (Node h2 (Node h1 l e1 m) k2 r)
  | _ => None
  end.

Definition doubleWithLeftChild (k3 : AvlNode) : option AvlNode :=
  match k3 with
  | Nil => None
  | Node h l e r => l ← rotateWithRightChild l; rotateWithLeftChild (Node h l e r)
  end.

Definition doubleWithRightChild (k1 : AvlNode) : option AvlNode :=
  match k1 with
  | Nil => None
  | Node h l e r => r ← rotateWithLeftChild r; rotateWithRightChild (Node h l e r)
  end.

Definition update_height t : option AvlNode :=
  match t with
  | Nil => None
  | Node _ l e r => Some (Node (max (height l) (height r) + 1) l e r)
  end.

(** The children of a node, [None] for the null pointer. *)
Definition children t : option (AvlNode * AvlNode) :=
  match t with Nil => None | Node _ l _ r => Some (l, r) end.

Definition balance t : option AvlNode :=
  match t with
  | Nil => Some Nil
  | Node _ l _ r =>
      t ← (if ALLOWED_IMBALANCE <? height l - height r then
             '(ll, lr) ← children l;
             if height lr <=? height ll then rotateWithLeftChild t else doubleWithLeftChild t
           else if ALLOWED_IMBALANCE <? height r - height l then
             '(rl, rr) ← children r;
             if height rl <=? height rr then rotateWithRightChild t else doubleWithRightChild t
           else Some t);
      update_height t
  end.

(** ** The private functions on subtrees *)

Fixpoint insert_at (x : K) t : option AvlNode :=
  match t with
  | Nil => balance (Node 0 Nil x Nil)
  | Node h l element r =>
      t ← (if klt x element then l ← insert_at x l; Some (Node h l element r)
           else if klt element x then r ← insert_at x r; Some (Node h l element r)
           else Some t);
      balance t
  end.

Fixpoint findMin_at t : AvlNode :=
  match t with
  | Nil => Nil
  | Node _ Nil _ _ => t
  | Node _ l _ _ => findMin_at l
  end.

Fixpoint findMax_at t : AvlNode :=
  match t with
  | Nil => Nil
  | Node _ _ _ Nil => t
  | Node _ _ _ r => findMax_at r
  end.

Fixpoint remove_at (x : K) t : option AvlNode :=
  match t with
  | Nil => Some Nil
  | Node h l element r =>
      t ← (if klt x element then l ← remove_at x l; Some (Node h l element r)
           else if klt element x then r ← remove_at x r; Some (Node h l element r)
           else if negb (is_nil l) && negb (is_nil r) then
             element ← root_element (findMin_at r);
             r ← remove_at element r;
             Some (Node h l element r)
           else Some (if negb (is_nil l) then l else r));
      balance t
  end.

Fixpoint contains_at (x : K) t : bool :=
  match t with
  | Nil => false
  | Node _ l element r =>
      if klt x element then contains_at x l
      else if klt element x then contains_at x r
      else true
  end.

Fixpoint printTree_at t : list K :=
  match t with
  | Nil => []
  | Node _ l element r => printTree_at l ++ [element] ++ printTree_at r
  end.

Fixpoint makeEmpty_at t : AvlNode :=
  match t with
  | Nil => Nil
  | Node _ l _ r => let l := makeEmpty_at l in let r := makeEmpty_at r in Nil
  end.

Fixpoint clone t : AvlNode :=
  match t with
  | Nil => Nil
  | Node h l element r => Node h (clone l) element (clone r)
  end.

(** ** The public functions *)

Definition isEmpty (root : AvlNode) : bool := is_nil root.
Definition findMin (root : AvlNode) : option (answer K) :=
  if isEmpty root then Some Underflow else Item <$> root_element (findMin_at root).
Definition findMax (root : AvlNode) : option (answer K) :=
  if isEmpty root then Some Underflow else Item <$> root_element (findMax_at root).
Definition contains (x : K) (root : AvlNode) : bool := contains_at x root.
Definition printTree (root : AvlNode) : option (list K) :=
  if isEmpty root then None else Some (printTree_at root).
Definition makeEmpty (root : AvlNode) : AvlNode := makeEmpty_at root.
Definition insert (x : K) (root : AvlNode) : option AvlNode := insert_at x root.
Definition remove (x : K) (root : AvlNode) : option AvlNode := remove_at x root.

Definition call_tree (c : call K) (root : AvlNode) : option (answer K * AvlNode) :=
  match c with
  | Insert x => root ← insert x root; Some (Done, root)
  | Remove x => root ← remove x root; Some (Done, root)
  | Contains x => Some (Answer (contains x root), root)
  | FindMin => a ← findMin root; Some (a, root)
  | FindMax => a ← findMax root; Some (a, root)
  | IsEmpty => Some (Answer (isEmpty root), root)
  | MakeEmpty => Some (Done, makeEmpty root)
  | PrintTree => Some (Lines (printTree root), root)
  end.

(** ** Balance *)

#[local] Arguments balance : simpl never.

(** Every stored height is the height, and siblings differ by one at most. *)
Fixpoint avl t : Prop :=
  match t with
  | Nil => True
  | Node h l _ r =>
      avl l ∧ avl r ∧ -1 <= height l - height r <= 1 ∧ h = Z.max (height l) (height r) + 1
  end.

Lemma max_eq a b : max a b = Z.max a b.
Proof. unfold max. destruct (Z.ltb_spec b a); lia. Qed.

Lemma height_ge t : avl t → -1 <= height t.
Proof. induction t as [|h l IHl a r IHr]; simpl; [done|].
  intros (Hl%IHl & Hr%IHr & _ & ->). lia.
Qed.

Ltac heights :=
  repeat match goal with
  | H : avl ?t |- _ => lazymatch goal with G : -1 <= height t |- _ => fail | _ =>
                         pose proof (height_ge t H) end
  end.

(** What [balance] makes of two AVL trees whose heights differ by at most
    two: an AVL tree with the same elements. *)
Record rebalanced (l : AvlNode) (a : K) (r t' : AvlNode) : Prop := {
  reb_avl : avl t';
  reb_elements : elements t' = elements l ++ a :: elements r;
  reb_low : Z.max (height l) (height r) <= height t';
  reb_high : height t' <= Z.max (height l) (height r) + 1;
  reb_same : -1 <= height l - height r <= 1 → height t' = Z.max (height l) (height r) + 1;
}.

Lemma update_height_ok h l a r :
  avl l → avl r → -1 <= height l - height r <= 1 →
  ∃ t', update_height (Node h l a r) = Some t' ∧ rebalanced l a r t'.
Proof.
  intros Hl Hr Hd. eexists. split; [done|]. rewrite max_eq.
  split; simpl; try done; lia.
Qed.

Lemma balance_left h l a r :
  avl l → avl r → height l - height r = 2 →
  ∃ t', balance (Node h l a r) = Some t' ∧ rebalanced l a r t'.
Proof.
  intros Hl Hr Hd. heights. unfold balance.
  rewrite (proj2 (Z.ltb_lt _ _)) by (unfold ALLOWED_IMBALANCE; lia).
  destruct l as [|hl ll b lr]; [simpl in *; lia|].
  destruct Hl as (Hll & Hlr & Hdl & Ehl). cbn [height children] in *. heights.
  simpl. destruct (Z.leb_spec (height lr) (height ll)).
  - simpl. rewrite !max_eq. eexists. split; [done|].
    split; simpl; rewrite <- ?(assoc_L (++)); simpl; split_and?; try done; try lia.
  - destruct lr as [|hm m1 c m2]; [simpl in *; lia|].
    destruct Hlr as (Hm1 & Hm2 & Hdm & Ehm). cbn [height] in *. heights.
    simpl. rewrite !max_eq. eexists. split; [done|].
    split; simpl; rewrite <- ?(assoc_L (++)); simpl; rewrite <- ?(assoc_L (++));
      split_and?; try done; try lia.
Qed.

Lemma balance_right h l a r :
  avl l → avl r → height r - height l = 2 →
  ∃ t', balance (Node h l a r) = Some t' ∧ rebalanced l a r t'.
Proof.
  intros Hl Hr Hd. heights. unfold balance.
  rewrite (proj2 (Z.ltb_ge _ _)), (proj2 (Z.ltb_lt _ _)) by (unfold ALLOWED_IMBALANCE; lia).
  destruct r as [|hr rl b rr]; [simpl in *; lia|].
  destruct Hr as (Hrl & Hrr & Hdr & Ehr). cbn [height children] in *. heights.
  simpl. destruct (Z.leb_spec (height rl) (height rr)).
  - simpl. rewrite !max_eq. eexists. split; [done|].
    split; simpl; rewrite <- ?(assoc_L (++)); simpl; split_and?; try done; try lia.
  - destruct rl as [|hm m1 c m2]; [simpl in *; lia|].
    destruct Hrl as (Hm1 & Hm2 & Hdm & Ehm). cbn [height] in *. heights.
    simpl. rewrite !max_eq. eexists. split; [done|].
    split; simpl; rewrite <- ?(assoc_L (++)); simpl; rewrite <- ?(assoc_L (++));
      split_and?; try done; try lia.
Qed.

Lemma balance_ok h l a r :
  avl l → avl r → -2 <= height l - height r <= 2 →
  ∃ t', balance (Node h l a r) = Some t' ∧ rebalanced l a r t'.
Proof.
  intros Hl Hr Hd.
  destruct (decide (height l - height r = 2)); [by apply balance_left|].
  destruct (decide (height r - height l = 2)); [by apply balance_right|].
  unfold balance. rewrite !(proj2 (Z.ltb_ge _ _)) by (unfold ALLOWED_IMBALANCE; lia).
  apply update_height_ok; [done..|lia].
Qed.

(** A tree in balance stays as it is. *)
Lemma balance_avl t : avl t → balance t = Some t.
Proof.
  destruct t as [|h l a r]; [done|]. intros (Hl & Hr & Hd & ->). unfold balance.
  rewrite !(proj2 (Z.ltb_ge _ _)) by (unfold ALLOWED_IMBALANCE; lia).
  simpl. by rewrite max_eq.
Qed.

(** ** Insertion and removal *)

Lemma avl_insert_ok x t :
  avl t → sorted (elements t) →
  ∃ t', insert_at x t = Some t' ∧ avl t' ∧ elements t' = ins x (elements t) ∧
        height t <= height t' <= height t + 1.
Proof.
  induction t as [|h l IHl a r IHr]; intros Ha Hs.
  { exists (Node 0 Nil x Nil). split_and!; simpl; done || lia. }
  destruct Ha as (Hl & Hr & Hd & Hh). cbn [elements insert_at] in *.
  pose proof Hs as (Hsl & Hsr & _)%sorted_mid.
  destruct (cmp_cases x a) as [[-> Hx]|[(-> & -> & Hx)|(-> & -> & ->)]].
  - destruct (IHl Hl Hsl) as (l' & -> & Hl' & El & Hhl). simpl.
    destruct (balance_ok h l' a r) as (t' & -> & []); [done..|lia|].
    exists t'. split_and!; [done..| |simpl; lia|simpl; lia]. by rewrite ins_left, <- El.
  - destruct (IHr Hr Hsr) as (r' & -> & Hr' & Er & Hhr). simpl.
    destruct (balance_ok h l a r') as (t' & -> & []); [done..|lia|].
    exists t'. split_and!; [done..| |simpl; lia|simpl; lia]. by rewrite ins_right, <- Er.
  - simpl. rewrite (balance_avl (Node h l a r)) by done. eexists. split; [done|].
    cbn [elements]. rewrite ins_mid by done. split_and!; simpl; done || lia.
Qed.

Lemma avl_remove_ok x t :
  avl t → sorted (elements t) →
  ∃ t', remove_at x t = Some t' ∧ avl t' ∧ elements t' = del x (elements t) ∧
        height t - 1 <= height t' <= height t.
Proof.
  revert x. induction t as [|h l IHl a r IHr]; intros x Ha Hs.
  { eexists. split_and!; simpl; done || lia. }
  destruct Ha as (Hl & Hr & Hd & Hh). cbn [elements remove_at] in *. heights.
  pose proof Hs as (Hsl & Hsr & _)%sorted_mid.
  destruct (cmp_cases x a) as [[-> Hx]|[(-> & -> & Hx)|(-> & -> & ->)]].
  - destruct (IHl x Hl Hsl) as (l' & -> & Hl' & El & Hhl). simpl.
    destruct (balance_ok h l' a r) as (t' & -> & []); [done..|lia|].
    exists t'. split_and!; [done..| |simpl; lia|simpl; lia]. by rewrite del_left, <- El.
  - destruct (IHr x Hr Hsr) as (r' & -> & Hr' & Er & Hhr). simpl.
    destruct (balance_ok h l a r') as (t' & -> & []); [done..|lia|].
    exists t'. split_and!; [done..| |simpl; lia|simpl; lia]. by rewrite del_right, <- Er.
  - rewrite del_mid by done. destruct l as [|hl ll b lr]; simpl.
    + rewrite (balance_avl r) by done. exists r. split_and!; [done..|simpl in *; lia|simpl in *; lia].
    + destruct (is_nil r) eqn:Er; simpl.
      * rewrite (balance_avl (Node hl ll b lr)) by done. destruct r; [|done].
        exists (Node hl ll b lr). rewrite app_nil_r. split_and!; [done..|simpl in *; lia|simpl in *; lia].
      * change (findMin_at r) with (leftmost r). rewrite leftmost_element.
        destruct (elements r) as [|c s] eqn:E; [apply is_nil_elements in E; congruence|].
        simpl. destruct (IHr c Hr Hsr) as (r' & -> & Hr' & E' & Hhr). simpl.
        destruct (balance_ok h (Node hl ll b lr) c r') as (t' & -> & []); [done..|simpl in *; lia|].
        exists t'. cbn [height] in *. split_and!; [done|done| |lia|lia].
        rewrite reb_elements0, E'. cbn [del elements]. by rewrite klt_irrefl.
Qed.

(** The number of nodes is exponential in the height. *)
Lemma avl_size t : avl t → 2 ^ ((height t + 1) / 2) <= size t + 1.
Proof.
  intros Ha. pose proof (height_ge t Ha) as Hge.
  assert (∀ n t, avl t → height t = Z.of_nat n - 1 → 2 ^ ((height t + 1) / 2) <= size t + 1) as Hn.
  { clear. induction n as [n IH] using lt_wf_ind. intros [|h l a r] Ha Hh; [done|].
    destruct Ha as (Hl & Hr & Hd & Eh). cbn [height size] in *. heights.
    pose proof (size_nonneg l). pose proof (size_nonneg r).
    destruct n as [|[|n]]; [lia| |].
    - replace h with 0 by lia. change (2 ^ ((0 + 1) / 2)) with 1. lia.
    - assert (∀ s, avl s → Z.of_nat n - 1 <= height s <= Z.of_nat n →
        2 ^ (Z.of_nat n / 2) <= size s + 1) as Hs.
      { intros s Hs Hb. transitivity (2 ^ ((height s + 1) / 2)).
        - apply Z.pow_le_mono_r; [lia|]. apply Z.div_le_mono; lia.
        - apply (IH (Z.to_nat (height s + 1))); [lia|done|lia]. }
      pose proof (Hs l Hl ltac:(lia)). pose proof (Hs r Hr ltac:(lia)).
      replace (h + 1) with (Z.of_nat n + 1 * 2) by lia. rewrite Z.div_add by lia.
      rewrite Z.pow_add_r by (try apply Z.div_pos; lia). lia. }
  apply (Hn (Z.to_nat (height t + 1))); [done|lia].
Qed.

Lemma avl_height_log t : avl t → height t <= 2 * Z.log2 (size t + 1).
Proof.
  intros Ha. pose proof (avl_size t Ha) as Hs. pose proof (size_nonneg t).
  apply Z.log2_le_mono in Hs. rewrite Z.log2_pow2 in Hs
    by (apply Z.div_pos; [pose proof (height_ge t Ha)|]; lia).
  Z.div_mod_to_equations. lia.
Qed.

Lemma avl_printTree_elements t : printTree_at t = elements t.
Proof. induction t as [|h l IHl a r IHr]; simpl; [done|]. by rewrite IHl, IHr. Qed.
Lemma avl_clone_eq t : clone t = t.
Proof. induction t as [|h l IHl a r IHr]; simpl; [done|]. by rewrite IHl, IHr. Qed.

Definition avl_ok t : Prop := avl t ∧ sorted (elements t).

Lemma avl_call_tree_ok c t :
  avl_ok t → ∃ t', call_tree c t = Some ((spec c (elements t)).1, t') ∧
                   avl_ok t' ∧ elements t' = (spec c (elements t)).2.
Proof.
  unfold avl_ok. intros [Ha Ht]. destruct c; cbn [call_tree spec fst snd].
  - unfold insert. destruct (avl_insert_ok x t Ha Ht) as (t' & -> & Ha' & E & _). simpl.
    exists t'. rewrite E. auto using ins_sorted.
  - unfold remove. destruct (avl_remove_ok x t Ha Ht) as (t' & -> & Ha' & E & _). simpl.
    exists t'. rewrite E. auto using del_sorted.
  - exists t. rewrite <- search_elements by done. done.
  - exists t. change (findMin t) with (if is_nil t then Some Underflow else
      Item <$> root_element (leftmost t)). by rewrite item_leftmost.
  - exists t. change (findMax t) with (if is_nil t then Some Underflow else
      Item <$> root_element (rightmost t)). by rewrite item_rightmost.
  - exists t. unfold isEmpty. by rewrite is_nil_spec.
  - exists Nil. destruct t; repeat constructor.
  - exists t. unfold printTree, isEmpty. by rewrite avl_printTree_elements, lines_elements.
Qed.

#[export] Instance avl_set : SetImpl K AvlNode := {
  exec := call_tree;
  contents := elements;
  ok := avl_ok;
  ok_sorted t Ht := proj2 Ht;
  exec_ok := avl_call_tree_ok;
}.
End avl.

(** C25: AvlTree is a sorted set whose height stays logarithmic: from the
    empty tree, whatever calls a client makes, remove included (the comment at
    the top of AvlTree.h calls it unimplemented), no null pointer is
    dereferenced, the answers are those of a sorted list without duplicates,
    every node is balanced and stores its height, and the height is at most
    twice the binary logarithm of the number of items plus one. *)
Theorem avl_refines_sorted_set `{KeyOrder K} (cs : list (call K)) :
  ∃ root, exec_run cs (Nil : tree Z K) = Some ((spec_run cs []).1, root) ∧
          elements root = (spec_run cs []).2 ∧ sorted (elements root) ∧ avl root ∧
          height root <= 2 * Z.log2 (size root + 1) ∧ clone root = root.
Proof.
  destruct (exec_run_ok (T:=tree Z K) cs Nil) as (root & E & [Ha Hs] & C); [by repeat constructor|].
  exists root. split_and!; [exact E|exact C|exact Hs|exact Ha|by apply avl_height_log|apply avl_clone_eq].
Qed.

End AvlTree.
