(* ===== verification/SplayTree.v ===== *)
(** * SplayTree: codeC++11/SplayTree.h

    The self-adjusting search tree.  [splay] is the top-down splay of the
    code: its loop takes the tree apart into a left tree, linked from
    [header.right] to [leftTreeMax], a right tree, linked from [header.left]
    to [rightTreeMin], and the rest [t].  [None] is a use of [nullNode] as a
    node, or a loop that has not ended within the fuel, the number of nodes. *)
From S2P Require Import Prelude StdMap BinTree.
Import SetContract.

Module SplayTree.
Section splay.
Context {K : Type} `{KeyOrder K}.

Abbreviation BinaryNode := (tree () K).
Implicit Types t l r : BinaryNode.

(** ** Tree manipulations *)

Definition rotateWithLeftChild (k2 : BinaryNode) : option BinaryNode :=
  match k2 with
  | Node _ (Node _ l k1 m) e2 r => Some (Node () l k1 (Node () m e2 r))
  | _ => None
  end.

Definition rotateWithRightChild (k1 : BinaryNode) : option BinaryNode :=
  match k1 with
  | Node _ l e1 (Node _ m k2 r) => Some (Node () (Node () l e1 m) k2 r)
  | _ => None
  end.

(** [nullNode->element = x]: the sentinel matches. *)
Definition element_or (x : K) t : K := match t with Nil => x | Node _ _ e _ => e end.

(** The left tree: nodes whose right child is the next link, last one first;
    the right tree likewise. *)
Abbreviation left_tree := (list (BinaryNode * K)).
Abbreviation right_tree := (list (K * BinaryNode)).

(** The loop of [splay]. *)
Fixpoint splay_loop (fuel : nat) (x : K) t (L : left_tree) (R : right_tree) :
    option (BinaryNode * left_tree * right_tree) :=
  match fuel, t with
  | O, _ | _, Nil => None
  | S fuel, Node _ l e r =>
      if klt x e then
        t ← (if klt x (element_or x l) then rotateWithLeftChild t else Some t);
        match t with
        | Nil => None
        | Node _ l e r =>
            if is_nil l then Some (t, L, R)
            else splay_loop fuel x l L ((e, r) :: R)
        end
      else if klt e x then
        t ← (if klt (element_or x r) x then rotateWithRightChild t else Some t);
        match t with
        | Nil => None
        | Node _ l e r =>
            if is_nil r then Some (t, L, R)
            else splay_loop fuel x r ((l, e) :: L) R
        end
      else Some (t, L, R)
  end.

(** [leftTreeMax->right = t] and [rightTreeMin->left = t]: the trees that hang
    off the header. *)
Fixpoint close_left (L : left_tree) t : BinaryNode :=
  match L with
  | [] => t
  | (l, e) :: L => close_left L (Node () l e t)
  end.
Fixpoint close_right (R : right_tree) t : BinaryNode :=
  match R with
  | [] => t
  | (e, r) :: R => close_right R (Node () t e r)
  end.

Definition splay (x : K) t : option BinaryNode :=
  '(t, L, R) ← splay_loop (Z.to_nat (size t)) x t [] [];
  match t with
  | Nil => None
  | Node _ l e r => Some (Node () (close_left L l) e (close_right R r))
  end.

(** ** The public functions *)

Definition isEmpty (root : BinaryNode) : bool := is_nil root.

(** The loop [while (ptr->left != nullNode) ptr = ptr->left]. *)
Fixpoint min_ptr t : BinaryNode :=
  match t with
  | Nil => Nil
  | Node _ Nil _ _ => t
  | Node _ l _ _ => min_ptr l
  end.
Fixpoint max_ptr t : BinaryNode :=
  match t with
  | Nil => Nil
  | Node _ _ _ Nil => t
  | Node _ _ _ r => max_ptr r
  end.

Definition findMin (root : BinaryNode) : option (answer K * BinaryNode) :=
  if isEmpty root then Some (Underflow, root)
  else
    x ← root_element (min_ptr root);
    root ← splay x root;
    Some (Item x, root).

Definition findMax (root : BinaryNode) : option (answer K * BinaryNode) :=
  if isEmpty root then Some (Underflow, root)
  else
    x ← root_element (max_ptr root);
    root ← splay x root;
    Some (Item x, root).

Definition contains (x : K) (root : BinaryNode) : option (bool * BinaryNode) :=
  if isEmpty root then Some (false, root)
  else
    root ← splay x root;
    e ← root_element root;
    Some (bool_decide (e = x), root).

(** The function-static [newNode] only saves an allocation. *)
Definition insert (x : K) (root : BinaryNode) : option BinaryNode :=
  if is_nil root then Some (Node () Nil x Nil)
  else
    root ← splay x root;
    match root with
    | Nil => None
    | Node _ l e r =>
        if klt x e then Some (Node () l x (Node () Nil e r))
        else if klt e x then Some (Node () (Node () l e Nil) x r)
        else Some root
    end.

Definition remove (x : K) (root : BinaryNode) : option BinaryNode :=
  '(found, root) ← contains x root;
  if negb found then Some root
  else
    match root with
    | Nil => None
    | Node _ l e r =>
        if is_nil l then Some r
        else
          newTree ← splay x l;
          match newTree with
          | Nil => None
          | Node _ nl ne nr => Some (Node () nl ne r)
          end
    end.

(** [while (!isEmpty()) { findMax(); remove(root->element); }] *)
Fixpoint makeEmpty_loop (fuel : nat) (root : BinaryNode) : option BinaryNode :=
  if isEmpty root then Some root
  else
    match fuel with
    | O => None
    | S fuel =>
        '(_, root) ← findMax root;
        x ← root_element root;
        root ← remove x root;
        makeEmpty_loop fuel root
    end.
Definition makeEmpty (root : BinaryNode) : option BinaryNode :=
  makeEmpty_loop (Z.to_nat (size root)) root.

Fixpoint printTree_at t : list K :=
  match t with
  | Nil => []
  | Node _ l element r => printTree_at l ++ [element] ++ printTree_at r
  end.
Definition printTree (root : BinaryNode) : option (list K) :=
  if isEmpty root then None else Some (printTree_at root).

Fixpoint clone t : BinaryNode :=
  match t with
  | Nil => Nil
  | Node _ l element r => Node () (clone l) element (clone r)
  end.

Definition call_tree (c : call K) (root : BinaryNode) : option (answer K * BinaryNode) :=
  match c with
  | Insert x => root ← insert x root; Some (Done, root)
  | Remove x => root ← remove x root; Some (Done, root)
  | Contains x => '(b, root) ← contains x root; Some (Answer b, root)
  | FindMin => findMin root
  | FindMax => findMax root
  | IsEmpty => Some (Answer (isEmpty root), root)
  | MakeEmpty => root ← makeEmpty root; Some (Done, root)
  | PrintTree => Some (Lines (printTree root), root)
  end.

(** ** Splaying keeps the items and brings [x], or a neighbour, to the root *)

Fixpoint left_items (L : left_tree) : list K :=
  match L with
  | [] => []
  | (l, e) :: L => left_items L ++ elements l ++ [e]
  end.
Fixpoint right_items (R : right_tree) : list K :=
  match R with
  | [] => []
  | (e, r) :: R => e :: elements r ++ right_items R
  end.

Lemma close_left_elements L t : elements (close_left L t) = left_items L ++ elements t.
Proof.
  revert t. induction L as [|[l e] L IH]; intros t; simpl; [done|].
  rewrite IH. simpl. by rewrite <- !(assoc_L (++)).
Qed.
Lemma close_right_elements R t : elements (close_right R t) = elements t ++ right_items R.
Proof.
  revert t. induction R as [|[e r] R IH]; intros t; simpl; [by rewrite app_nil_r|].
  rewrite IH. simpl. by rewrite <- (assoc_L (++)).
Qed.

(** Where the loop may stop, and where it goes on. *)
Record splayed (x : K) (s : list K) l (e : K) r (L : left_tree) (R : right_tree) : Prop := {
  spl_items : left_items L ++ (elements l ++ e :: elements r) ++ right_items R = s;
  spl_left : lt x e → Forall (λ y, lt y x) (left_items L ++ elements l);
  spl_right : lt e x → Forall (lt x) (elements r ++ right_items R);
}.

Lemma rotate_left_ok x l e r :
  klt x e = true → sorted (elements l ++ e :: elements r) →
  ∃ l' e' r', (if klt x (element_or x l) then rotateWithLeftChild (Node () l e r)
               else Some (Node () l e r)) = Some (Node () l' e' r') ∧
    elements l' ++ e' :: elements r' = elements l ++ e :: elements r ∧ lt x e' ∧
    size l' <= size l.
Proof.
  intros Hx Hs. destruct l as [|[] ll le lr]; simpl.
  - rewrite klt_irrefl. exists Nil, e, r. split_and!; done.
  - destruct (klt x le) eqn:E; do 3 eexists; split_and!; try done; simpl.
    + by rewrite <- (assoc_L (++)).
    + pose proof (size_nonneg lr). lia.
Qed.

Lemma rotate_right_ok x l e r :
  klt e x = true → sorted (elements l ++ e :: elements r) →
  ∃ l' e' r', (if klt (element_or x r) x then rotateWithRightChild (Node () l e r)
               else Some (Node () l e r)) = Some (Node () l' e' r') ∧
    elements l' ++ e' :: elements r' = elements l ++ e :: elements r ∧ lt e' x ∧
    size r' <= size r.
Proof.
  intros Hx Hs. destruct r as [|[] rl re rr]; simpl.
  - rewrite klt_irrefl. exists l, e, Nil. split_and!; done.
  - destruct (klt re x) eqn:E; do 3 eexists; split_and!; try done; simpl.
    + by rewrite <- (assoc_L (++)).
    + pose proof (size_nonneg rl). lia.
Qed.

Lemma splay_loop_ok fuel x t L R s :
  size t <= Z.of_nat fuel → is_nil t = false → sorted s →
  left_items L ++ elements t ++ right_items R = s →
  Forall (λ y, lt y x) (left_items L) → Forall (lt x) (right_items R) →
  ∃ l e r L' R', splay_loop fuel x t L R = Some (Node () l e r, L', R') ∧
                 splayed x s l e r L' R'.
Proof.
  revert t L R. induction fuel as [|fuel IH]; intros [|[] l e r] L R Hf Hn Hs Es HL HR; try done.
  { cbn [size] in Hf. pose proof (size_nonneg l). pose proof (size_nonneg r). lia. }
  cbn [elements size] in *. pose proof Hs as Ht. rewrite <- Es in Ht.
  apply StronglySorted_app_1_r, StronglySorted_app_1_l in Ht.
  cbn [splay_loop]. destruct (cmp_cases x e) as [[E Hx]|[(E & E' & Hx)|(E & E' & ->)]].
  - rewrite E. destruct (rotate_left_ok x l e r E Ht) as (l' & e' & r' & -> & Ee & Hx' & Hsz).
    assert (size l' <= Z.of_nat fuel) as Hf' by (pose proof (size_nonneg r); lia).
    simpl. rewrite <- Ee in *. destruct (is_nil l') eqn:En.
    + destruct l'; [|done]. repeat eexists; [done|..].
      * intros _. rewrite app_nil_r. done.
      * intros Hx''. by destruct (SortedSet.lt_irrefl x); transitivity e'.
    + apply IH; [|done|done|..].
      * done.
      * simpl. rewrite <- Es, <- !(assoc_L (++)). done.
      * done.
      * simpl. constructor; [done|]. apply Forall_app. split; [|done].
        rewrite <- Es in Hs.
        apply StronglySorted_app_1_r, StronglySorted_app_1_l, sorted_mid in Hs.
        destruct Hs as (_ & _ & _ & Hr). by apply (above_trans x e').
  - rewrite E, E'. destruct (rotate_right_ok x l e r E' Ht) as (l' & e' & r' & -> & Ee & Hx' & Hsz).
    assert (size r' <= Z.of_nat fuel) as Hf' by (pose proof (size_nonneg l); lia).
    simpl. rewrite <- Ee in *. destruct (is_nil r') eqn:En.
    + destruct r'; [|done]. repeat eexists; [done|..].
      * intros Hx''. by destruct (SortedSet.lt_irrefl x); transitivity e'.
      * intros _. done.
    + apply IH; [|done|done|..].
      * done.
      * simpl. rewrite <- Es, <- !(assoc_L (++)). done.
      * simpl. apply Forall_app. split; [done|]. apply Forall_app. split; [|by constructor].
        rewrite <- Es in Hs.
        apply StronglySorted_app_1_r, StronglySorted_app_1_l, sorted_mid in Hs.
        destruct Hs as (_ & _ & Hl & _). by apply (below_trans x e').
      * done.
  - rewrite E. repeat eexists; [done|..]; intros Hx; by destruct (SortedSet.lt_irrefl e).
Qed.

Lemma splay_ok x t :
  sorted (elements t) → is_nil t = false →
  ∃ l e r, splay x t = Some (Node () l e r) ∧ elements l ++ e :: elements r = elements t ∧
           (lt x e → Forall (λ y, lt y x) (elements l)) ∧
           (lt e x → Forall (lt x) (elements r)).
Proof.
  intros Hs Hn.
  destruct (splay_loop_ok (Z.to_nat (size t)) x t [] [] (elements t))
    as (l & e & r & L & R & E & [Hi Hl Hr]); simpl; auto using app_nil_r.
  { pose proof (size_nonneg t). lia. }
  unfold splay. rewrite E. simpl. repeat eexists.
  - rewrite close_left_elements, close_right_elements, <- Hi, <- !(assoc_L (++)). done.
  - by rewrite close_left_elements.
  - by rewrite close_right_elements.
Qed.

(** ** The public functions on a sorted tree *)

Lemma contains_ok x t :
  sorted (elements t) →
  ∃ t', contains x t = Some (mem x (elements t), t') ∧ elements t' = elements t ∧
        (mem x (elements t) = true → root_element t' = Some x).
Proof.
  intros Hs. unfold contains, isEmpty. destruct (is_nil t) eqn:En.
  { apply is_nil_elements in En. rewrite En. by exists t. }
  destruct (splay_ok x t Hs En) as (l & e & r & -> & E & Hl & Hr). simpl.
  rewrite <- E in *. clear E. exists (Node () l e r). split; [|split; [done|]].
  - repeat f_equal. rewrite mem_app. cbn [mem].
    pose proof Hs as (_ & _ & Hle & Her)%sorted_mid.
    destruct (cmp_cases x e) as [[_ Hx]|[(_ & _ & Hx)|(_ & _ & ->)]].
    + rewrite (mem_gt x (elements l)), (mem_lt x (elements r)) by eauto using above_trans.
      apply lt_neq in Hx. rewrite decide_False, bool_decide_false by done. done.
    + rewrite (mem_gt x (elements l)), (mem_lt x (elements r)) by eauto using below_trans.
      apply lt_neq in Hx. rewrite decide_False, bool_decide_false by done. done.
    + rewrite decide_True, bool_decide_true by done. by rewrite orb_true_r.
  - rewrite mem_app. cbn [mem]. destruct (decide (x = e)) as [->|Hne]; [done|].
    pose proof Hs as (_ & _ & Hle & Her)%sorted_mid.
    destruct (cmp_cases x e) as [[_ Hx]|[(_ & _ & Hx)|(_ & _ & ?)]]; [..|done].
    + by rewrite (mem_gt x (elements l)), (mem_lt x (elements r)) by eauto using above_trans.
    + by rewrite (mem_gt x (elements l)), (mem_lt x (elements r)) by eauto using below_trans.
Qed.

Lemma splay_insert_ok x t :
  sorted (elements t) → ∃ t', insert x t = Some t' ∧ elements t' = ins x (elements t).
Proof.
  intros Hs. unfold insert. destruct (is_nil t) eqn:En.
  { apply is_nil_elements in En. rewrite En. by eexists. }
  destruct (splay_ok x t Hs En) as (l & e & r & -> & E & Hl & Hr). simpl.
  rewrite <- E in *. clear E.
  destruct (cmp_cases x e) as [[-> Hx]|[(-> & -> & Hx)|(-> & -> & ->)]].
  - eexists. split; [done|]. rewrite ins_below by auto. simpl. unfold lt in Hx. by rewrite Hx.
  - eexists. split; [done|]. simpl. pose proof Hs as (_ & _ & Hle & _)%sorted_mid.
    replace (elements l ++ e :: elements r) with ((elements l ++ [e]) ++ elements r)
      by by rewrite <- (assoc_L (++)).
    rewrite ins_below by (apply Forall_app; eauto using below_trans).
    by rewrite ins_above by auto.
  - eexists. split; [done|]. by rewrite ins_mid.
Qed.

Lemma splay_remove_ok x t :
  sorted (elements t) → ∃ t', remove x t = Some t' ∧ elements t' = del x (elements t).
Proof.
  intros Hs. unfold remove.
  destruct (contains_ok x t Hs) as (t1 & -> & E1 & Hroot). simpl. rewrite <- E1 in *. clear E1 t.
  destruct (mem x (elements t1)) eqn:Em; simpl.
  - specialize (Hroot eq_refl). destruct t1 as [|[] l e r]; [done|]. simplify_eq/=.
    rewrite del_mid by done. destruct (is_nil l) eqn:El.
    { apply is_nil_elements in El. rewrite El. by eexists. }
    pose proof Hs as (Hsl & _ & Hl & _)%sorted_mid.
    destruct (splay_ok x l Hsl El) as (nl & ne & nr & -> & E & _ & Hr). simpl.
    eexists. split; [done|]. simpl. rewrite <- E in *.
    apply Forall_app in Hl as [_ [Hne Hnr]%Forall_cons]. specialize (Hr Hne).
    destruct (elements nr) as [|y s]; [by rewrite <- (assoc_L (++))|].
    apply Forall_cons in Hnr as [H1 _], Hr as [H2 _].
    by destruct (SortedSet.lt_irrefl x); transitivity y.
  - eexists. split; [done|]. symmetry. clear Hroot.
    induction (elements t1) as [|y s IH]; [done|]. simpl in *. apply StronglySorted_cons in Hs as [Hy Hs].
    destruct (decide (x = y)); [done|]. destruct (cmp_cases x y) as [[-> Hx]|[(-> & -> & Hx)|(_ & _ & ?)]]; [done|..|done].
    by rewrite IH.
Qed.

Lemma findMin_ok t :
  sorted (elements t) →
  ∃ t', findMin t = Some (item_or_underflow (head (elements t)), t') ∧ elements t' = elements t.
Proof.
  intros Hs. unfold findMin, isEmpty. change (min_ptr t) with (leftmost t).
  destruct (is_nil t) eqn:En.
  { apply is_nil_elements in En. rewrite En. by exists t. }
  rewrite leftmost_element. destruct (elements_head t En) as [x Hx]. rewrite Hx. simpl.
  destruct (splay_ok x t Hs En) as (l & e & r & -> & E & _). simpl. by eexists.
Qed.

Lemma findMax_ok t :
  sorted (elements t) →
  ∃ t', findMax t = Some (item_or_underflow (last (elements t)), t') ∧ elements t' = elements t.
Proof.
  intros Hs. unfold findMax, isEmpty. change (max_ptr t) with (rightmost t).
  destruct (is_nil t) eqn:En.
  { apply is_nil_elements in En. rewrite En. by exists t. }
  rewrite rightmost_element. destruct (elements_last t En) as [x Hx]. rewrite Hx. simpl.
  destruct (splay_ok x t Hs En) as (l & e & r & -> & E & _). simpl. by eexists.
Qed.

(** Each round of [makeEmpty] removes one node. *)
Lemma makeEmpty_loop_ok fuel t :
  sorted (elements t) → size t <= Z.of_nat fuel → makeEmpty_loop fuel t = Some Nil.
Proof.
  revert t. induction fuel as [|fuel IH]; intros t Hs Hf; destruct (is_nil t) eqn:En.
  1, 3: destruct t; [done|done].
  { destruct t as [|[] l e r]; [done|]. cbn [size] in Hf.
    pose proof (size_nonneg l). pose proof (size_nonneg r). lia. }
  cbn [makeEmpty_loop]. unfold isEmpty. rewrite En.
  destruct (findMax_ok t Hs) as (t1 & -> & E1). simpl. rewrite size_elements, <- E1 in *.
  destruct t1 as [|[] l e r].
  { simpl in E1. symmetry in E1. apply is_nil_elements in E1. congruence. }
  simpl. destruct (splay_remove_ok e (Node () l e r)) as (t2 & -> & E2); [done|]. simpl in *.
  rewrite del_mid in E2 by done. apply IH.
  - rewrite E2. apply StronglySorted_app in Hs as (Hlr & Hl & [_ Hr]%StronglySorted_cons).
    apply StronglySorted_app. split_and!; [|done..]. intros. apply Hlr; set_solver.
  - rewrite size_elements, E2. autorewrite with zlist in *. lia.
Qed.

Lemma splay_printTree_elements t : printTree_at t = elements t.
Proof. induction t as [|[] l IHl a r IHr]; simpl; [done|]. by rewrite IHl, IHr. Qed.
Lemma splay_clone_eq t : clone t = t.
Proof. induction t as [|[] l IHl a r IHr]; simpl; [done|]. by rewrite IHl, IHr. Qed.

Lemma splay_call_tree_ok c t :
  sorted (elements t) → ∃ t', call_tree c t = Some ((spec c (elements t)).1, t') ∧
                   sorted (elements t') ∧ elements t' = (spec c (elements t)).2.
Proof.
  intros Hs. destruct c; cbn [call_tree spec fst snd].
  - destruct (splay_insert_ok x t Hs) as (t' & -> & E). exists t'. rewrite E. auto using ins_sorted.
  - destruct (splay_remove_ok x t Hs) as (t' & -> & E). exists t'. rewrite E. auto using del_sorted.
  - destruct (contains_ok x t Hs) as (t' & -> & E & _). exists t'. by rewrite E.
  - destruct (findMin_ok t Hs) as (t' & -> & E). exists t'. by rewrite E.
  - destruct (findMax_ok t Hs) as (t' & -> & E). exists t'. by rewrite E.
  - exists t. unfold isEmpty. by rewrite is_nil_spec.
  - unfold makeEmpty. rewrite makeEmpty_loop_ok; [|done|pose proof (size_nonneg t); lia].
    exists Nil. repeat constructor.
  - exists t. unfold printTree, isEmpty. by rewrite splay_printTree_elements, lines_elements.
Qed.

#[export] Instance splay_set : SetImpl K BinaryNode := {
  exec := call_tree;
  contents := elements;
  ok t := sorted (elements t);
  ok_sorted t Ht := Ht;
  exec_ok := splay_call_tree_ok;
}.
End splay.

(** SplayTree is a sorted set: from the empty tree, whatever calls a
    client makes, every splay and every makeEmpty ends within the number of
    nodes and never uses the sentinel as a node, and the answers are those of
    a sorted list without duplicates; a search for an item that is present
    leaves it at the root. *)
Lemma splay_implements_sorted_set `{KeyOrder K} (cs : list (call K)) (x : K) :
  ∃ root, exec_run cs (Nil : tree () K) = Some ((spec_run cs []).1, root) ∧
          elements root = (spec_run cs []).2 ∧ sorted (elements root) ∧ clone root = root ∧
          ∃ root', contains x root = Some (mem x (elements root), root') ∧
                   (mem x (elements root) = true → root_element root' = Some x).
Proof.
  destruct (exec_run_ok (T:=tree () K) cs Nil) as (root & E & Hs & C); [constructor|].
  destruct (contains_ok x root Hs) as (root' & E' & _ & Hx).
  exists root. split_and!; [exact E|exact C|exact Hs|apply splay_clone_eq|by eauto].
Qed.

End SplayTree.
