(* ===== verification/Treap.v ===== *)
(** * Treap: codeC++11/Treap.h

    The randomised search tree: a search tree on the items and a heap on the
    priorities.  [nextInt n] is the result of the [n]-th call of
    [randomNums.nextInt()]; the theorems hold whatever the generator draws,
    as long as it never draws [INT_MAX], the priority of the sentinel. *)
From S2P Require Import Prelude StdMap BinTree.
Import SetContract.

Module Treap.
Section treap.
Context {K : Type} `{KeyOrder K} (nextInt : nat → Z).

Abbreviation TreapNode := (tree Z K).
Implicit Types t l r : TreapNode.

Definition INT_MAX : Z := 2 ^ 31 - 1.

(** [t->priority], with that of [nullNode] *)
Definition priority t : Z := match t with Nil => INT_MAX | Node p _ _ _ => p end.

(** ** Rotations

    Rotating with a missing right child makes the sentinel the root and hangs
    the node on it, where [remove] deletes it: the result is the empty tree.
    With a missing left child [remove] would delete the sentinel itself. *)
Definition rotateWithLeftChild (k2 : TreapNode) : option TreapNode :=
  match k2 with
  | Node p2 (Node p1 l k1 m) e2 r => Some (Node p1 l k1 (Node p2 m e2 r))
  | _ => None
  end.

Definition rotateWithRightChild (k1 : TreapNode) : option TreapNode :=
  match k1 with
  | Node p1 l e1 (Node p2 m k2 r) => Some (Node p2 (Node p1 l e1 m) k2 r)
  | Node _ _ _ Nil => Some Nil
  | Nil => None
  end.

(** ** The private functions on subtrees; [n] numbers have been drawn. *)

Fixpoint insert_at (x : K) t (n : nat) : option (TreapNode * nat) :=
  match t with
  | Nil => Some (Node (nextInt n) Nil x Nil, S n)
  | Node p l element r =>
      if klt x element then
        '(l, n) ← insert_at x l n;
        t ← (if priority l <? p then rotateWithLeftChild (Node p l element r)
             else Some (Node p l element r));
        Some (t, n)
      else if klt element x then
        '(r, n) ← insert_at x r n;
        t ← (if priority r <? p then rotateWithRightChild (Node p l element r)
             else Some (Node p l element r));
        Some (t, n)
      else Some (t, n)
  end.

(** [None] also when the fuel ends. *)
Fixpoint remove_at (fuel : nat) (x : K) t : option TreapNode :=
  match t, fuel with
  | Nil, _ => Some Nil
  | _, O => None
  | Node p l element r, S fuel =>
      if klt x element then l ← remove_at fuel x l; Some (Node p l element r)
      else if klt element x then r ← remove_at fuel x r; Some (Node p l element r)
      else
        t ← (if priority l <? priority r then rotateWithLeftChild t else rotateWithRightChild t);
        if is_nil t then Some Nil else remove_at fuel x t
  end.

Fixpoint makeEmpty_at t : TreapNode :=
  match t with
  | Nil => Nil
  | Node _ l _ r => let l := makeEmpty_at l in let r := makeEmpty_at r in Nil
  end.

Fixpoint printTree_at t : list K :=
  match t with
  | Nil => []
  | Node _ l element r => printTree_at l ++ [element] ++ printTree_at r
  end.

Fixpoint clone t : TreapNode :=
  match t with
  | Nil => Nil
  | Node p l element r => Node p (clone l) element (clone r)
  end.

(** ** The public functions *)

Record treap := mk_treap { root : TreapNode; drawn : nat }.

Definition construct : treap := {| root := Nil; drawn := 0 |}.

Definition isEmpty (s : treap) : bool := is_nil (root s).

Fixpoint min_ptr t : TreapNode :=
  match t with
  | Nil => Nil
  | Node _ Nil _ _ => t
  | Node _ l _ _ => min_ptr l
  end.
Definition findMin (s : treap) : option (answer K) :=
  if isEmpty s then Some Underflow else Item <$> root_element (min_ptr (root s)).

Fixpoint max_ptr t : TreapNode :=
  match t with
  | Nil => Nil
  | Node _ _ _ Nil => t
  | Node _ _ _ r => max_ptr r
  end.
Definition findMax (s : treap) : option (answer K) :=
  if isEmpty s then Some Underflow else Item <$> root_element (max_ptr (root s)).

(** The loop of [contains]: the sentinel matches [x]. *)
Fixpoint contains_loop (x : K) (current : TreapNode) : bool :=
  match current with
  | Nil => false
  | Node _ l element r =>
      if klt x element then contains_loop x l
      else if klt element x then contains_loop x r
      else true
  end.
Definition contains (x : K) (s : treap) : bool := contains_loop x (root s).

Definition printTree (s : treap) : option (list K) :=
  if isEmpty s then None else Some (printTree_at (root s)).

Definition makeEmpty (s : treap) : treap :=
  {| root := makeEmpty_at (root s); drawn := drawn s |}.

Definition insert (x : K) (s : treap) : option treap :=
  '(t, n) ← insert_at x (root s) (drawn s); Some {| root := t; drawn := n |}.

Definition remove (x : K) (s : treap) : option treap :=
  t ← remove_at (S (2 * Z.to_nat (size (root s)))) x (root s);
  Some {| root := t; drawn := drawn s |}.

Definition call_treap (c : call K) (s : treap) : option (answer K * treap) :=
  match c with
  | Insert x => s ← insert x s; Some (Done, s)
  | Remove x => s ← remove x s; Some (Done, s)
  | Contains x => Some (Answer (contains x s), s)
  | FindMin => a ← findMin s; Some (a, s)
  | FindMax => a ← findMax s; Some (a, s)
  | IsEmpty => Some (Answer (isEmpty s), s)
  | MakeEmpty => Some (Done, makeEmpty s)
  | PrintTree => Some (Lines (printTree s), s)
  end.

(** A run of calls of a client. *)
Fixpoint run (cs : list (call K)) (s : treap) : option (list (answer K) * treap) :=
  match cs with
  | [] => Some ([], s)
  | c :: cs =>
      '(a, s) ← call_treap c s;
      '(r, s) ← run cs s;
      Some (a :: r, s)
  end.

(** ** Heap order *)

Fixpoint heap t : Prop :=
  match t with
  | Nil => True
  | Node p l _ r => heap l ∧ heap r ∧ p < INT_MAX ∧ p <= priority l ∧ p <= priority r
  end.

Context (nextInt_small : ∀ n, nextInt n < INT_MAX).

Lemma insert_heap x t n :
  heap t →
  ∃ t' n', insert_at x t n = Some (t', n') ∧ heap t' ∧
    (priority t <= priority t' ∨
     ∃ p l y r, t' = Node p l y r ∧ priority t <= priority l ∧ priority t <= priority r).
Proof.
  revert n. induction t as [|p l IHl a r IHr]; intros n Ht; cbn [insert_at].
  { pose proof (nextInt_small n). do 2 eexists. split; [done|]. simpl. split; [split_and!; done || lia|].
    right. do 4 eexists. split; [done|]. simpl. lia. }
  destruct Ht as (Hl & Hr & Hp & Hpl & Hpr).
  destruct (klt x a); [|destruct (klt a x)].
  - destruct (IHl n Hl) as (l' & n' & -> & Hl' & Hc). simpl.
    destruct (Z.ltb_spec (priority l') p).
    + destruct Hc as [?|(p1 & ll & y & lr & -> & ? & ?)]; [lia|]. simpl in *.
      do 2 eexists. split; [done|]. simpl. split; [split_and!; tauto || lia|].
      right. do 4 eexists. split; [done|]. simpl. lia.
    + do 2 eexists. split; [done|]. simpl. split; [done|]. left. done.
  - destruct (IHr n Hr) as (r' & n' & -> & Hr' & Hc). simpl.
    destruct (Z.ltb_spec (priority r') p).
    + destruct Hc as [?|(p1 & ll & y & lr & -> & ? & ?)]; [lia|]. simpl in *.
      do 2 eexists. split; [done|]. simpl. split; [split_and!; tauto || lia|].
      right. do 4 eexists. split; [done|]. simpl. lia.
    + do 2 eexists. split; [done|]. simpl. split; [done|]. left. done.
  - do 2 eexists. split; [done|]. simpl. split; [done|]. left. done.
Qed.

#[local] Arguments rotateWithLeftChild : simpl never.
#[local] Arguments rotateWithRightChild : simpl never.

Lemma rotate_left_elements t t' : rotateWithLeftChild t = Some t' → elements t' = elements t.
Proof.
  destruct t as [|? [|? l k m] e r]; try done. intros [= <-]. simpl. by rewrite <- (assoc_L (++)).
Qed.
Lemma rotate_right_elements t t' :
  rotateWithRightChild t = Some t' → is_nil t' = false → elements t' = elements t.
Proof.
  destruct t as [|? l e [|? m k r]]; try done; intros [= <-]; [done|].
  simpl. by rewrite <- (assoc_L (++)).
Qed.

Lemma treap_insert_elements x t n t' n' :
  insert_at x t n = Some (t', n') → sorted (elements t) → elements t' = ins x (elements t).
Proof.
  revert n t' n'. induction t as [|p l IHl a r IHr]; intros n t' n' E Hs.
  { simpl in E. by simplify_eq. }
  cbn [insert_at elements] in *. pose proof Hs as (Hl & Hr & _)%sorted_mid.
  destruct (cmp_cases x a) as [[Ex Hx]|[(Ex & Ex' & Hx)|(Ex & Ex' & ->)]]; rewrite ?Ex, ?Ex' in E.
  - destruct (insert_at x l n) as [[l' m]|] eqn:El; [|done]. simpl in E.
    rewrite ins_left by done. rewrite <- (IHl _ _ _ El Hl).
    destruct (priority l' <? p); [|by simplify_eq/=].
    destruct (rotateWithLeftChild _) eqn:Er; simplify_eq/=.
    by apply rotate_left_elements in Er.
  - destruct (insert_at x r n) as [[r' m]|] eqn:El; [|done]. simpl in E.
    rewrite ins_right by done. rewrite <- (IHr _ _ _ El Hr).
    destruct (priority r' <? p); [|by simplify_eq/=].
    destruct (rotateWithRightChild _) eqn:Er; simplify_eq/=.
    apply rotate_right_elements in Er; [done|]. destruct t'; [|done].
    destruct r'; [|done]. simpl in *.
    assert (elements (@Nil Z K) = ins x (elements r)) as E by by eapply IHr.
    simpl in E. destruct (elements r) as [|y s]; simpl in E; [done|]. by repeat case_match.
  - simplify_eq/=. by rewrite ins_mid.
Qed.

Lemma heap_priority t : heap t → priority t <= INT_MAX ∧ (is_nil t = false → priority t < INT_MAX).
Proof. destruct t; simpl; [done|]. intros (_ & _ & ? & _). split; [lia|done]. Qed.

(** Removing the root item: it sinks until it is a leaf. *)
Lemma remove_root fuel p l x r :
  heap l → heap r → sorted (elements l ++ x :: elements r) →
  2 * (size l + size r) + 3 <= Z.of_nat fuel →
  ∃ t', remove_at fuel x (Node p l x r) = Some t' ∧ heap t' ∧
        elements t' = elements l ++ elements r ∧ Z.min (priority l) (priority r) <= priority t'.
Proof.
  assert (∀ n l r fuel, heap l → heap r → sorted (elements l ++ x :: elements r) →
    size l + size r <= Z.of_nat n → 2 * Z.of_nat n + 3 <= Z.of_nat fuel →
    ∃ t', remove_at fuel x (Node p l x r) = Some t' ∧ heap t' ∧
          elements t' = elements l ++ elements r ∧ Z.min (priority l) (priority r) <= priority t') as Hn.
  { clear. induction n as [|n IH]; intros l r [|[|fuel]] Hl Hr Hs Hn Hf; try lia.
    - pose proof (size_nonneg l). pose proof (size_nonneg r).
      assert (l = Nil ∧ r = Nil) as [-> ->].
      { destruct l as [|? ll ? lr], r as [|? rl ? rr]; cbn [size] in *; try done;
          try pose proof (size_nonneg ll); try pose proof (size_nonneg lr);
          try pose proof (size_nonneg rl); try pose proof (size_nonneg rr); lia. }
      cbn [remove_at]. rewrite klt_irrefl. exists Nil. done.
    - pose proof (heap_priority l Hl) as [Hpl Hpl']. pose proof (heap_priority r Hr) as [Hpr Hpr'].
      cbn [remove_at]. rewrite klt_irrefl. destruct (Z.ltb_spec (priority l) (priority r)).
      + destruct l as [|p1 ll y lr]; [simpl in *; lia|]. unfold rotateWithLeftChild.
        cbn [mbind option_bind is_nil remove_at].
        cbn [elements heap size priority] in *. destruct Hl as (Hll & Hlr & Hp1 & Hpll & Hplr).
        rewrite <- (assoc_L (++)) in Hs. cbn in Hs. apply sorted_mid in Hs as (_ & Hs & _ & Hy).
        assert (lt y x) as Hyx by (rewrite Forall_forall in Hy; apply Hy; set_solver).
        rewrite (lt_asym y x Hyx), Hyx.
        destruct (IH lr r fuel) as (r' & E & Hr1 & Er & Hp); [done..| | |].
        { pose proof (size_nonneg ll). lia. }
        { lia. }
        cbn [remove_at] in E. rewrite E. eexists. split; [done|]. cbn [elements heap priority].
        rewrite Er, <- (assoc_L (++)). split_and!; try done; lia.
      + destruct r as [|p2 rl z rr].
        { destruct l; [|simpl in *; specialize (Hpl' eq_refl); lia]. unfold rotateWithRightChild.
          exists Nil. done. }
        unfold rotateWithRightChild. cbn [mbind option_bind is_nil remove_at].
        cbn [elements heap size priority] in *. destruct Hr as (Hrl & Hrr & Hp2 & Hprl & Hprr).
        replace (elements l ++ x :: elements rl ++ z :: elements rr)
          with ((elements l ++ x :: elements rl) ++ z :: elements rr) in Hs
          by by rewrite <- (assoc_L (++)).
        apply sorted_mid in Hs as (Hs & _ & Hz & _).
        assert (lt x z) as Hxz by (rewrite Forall_forall in Hz; apply Hz; set_solver).
        unfold lt in Hxz. rewrite Hxz.
        destruct (IH l rl fuel) as (l' & E & Hl1 & El & Hp); [done..| | |].
        { pose proof (size_nonneg rr). lia. }
        { lia. }
        cbn [remove_at] in E. rewrite E. eexists. split; [done|]. cbn [elements heap priority].
        rewrite El, <- (assoc_L (++)). split_and!; try done; lia. }
  intros Hl Hr Hs Hf. pose proof (size_nonneg l). pose proof (size_nonneg r).
  apply (Hn (Z.to_nat (size l + size r))); try done; lia.
Qed.

Lemma treap_remove_ok fuel x t :
  heap t → sorted (elements t) → 2 * size t + 1 <= Z.of_nat fuel →
  ∃ t', remove_at fuel x t = Some t' ∧ heap t' ∧ elements t' = del x (elements t) ∧
        priority t <= priority t'.
Proof.
  revert fuel. induction t as [|p l IHl a r IHr]; intros fuel Ht Hs Hf.
  { destruct fuel; [simpl in *; lia|]. by eexists. }
  destruct Ht as (Hl & Hr & Hp & Hpl & Hpr). cbn [elements size priority] in *.
  pose proof (size_nonneg l). pose proof (size_nonneg r).
  pose proof Hs as (Hsl & Hsr & _)%sorted_mid.
  destruct (cmp_cases x a) as [[Ex Hx]|[(Ex & Ex' & Hx)|(_ & _ & ->)]].
  - destruct fuel as [|fuel]; [lia|]. cbn [remove_at]. rewrite Ex.
    destruct (IHl fuel) as (l' & -> & Hl' & El & Hpl'); [done..|lia|].
    eexists. split; [done|]. cbn [heap elements priority]. rewrite del_left, El by done.
    split_and!; try done; lia.
  - destruct fuel as [|fuel]; [lia|]. cbn [remove_at]. rewrite Ex, Ex'.
    destruct (IHr fuel) as (r' & -> & Hr' & Er & Hpr'); [done..|lia|].
    eexists. split; [done|]. cbn [heap elements priority]. rewrite del_right, Er by done.
    split_and!; try done; lia.
  - rewrite del_mid by done.
    destruct (remove_root fuel p l a r) as (t' & -> & Ht' & Et & Hpt); [done..|lia|].
    exists t'. split_and!; try done; lia.
Qed.

Lemma treap_printTree_elements t : printTree_at t = elements t.
Proof. induction t as [|p l IHl a r IHr]; simpl; [done|]. by rewrite IHl, IHr. Qed.
Lemma treap_clone_eq t : clone t = t.
Proof. induction t as [|p l IHl a r IHr]; simpl; [done|]. by rewrite IHl, IHr. Qed.

Definition treap_ok (s : treap) : Prop := heap (root s) ∧ sorted (elements (root s)).

Lemma call_treap_ok c s :
  treap_ok s →
  ∃ s', call_treap c s = Some ((spec c (elements (root s))).1, s') ∧
        treap_ok s' ∧ elements (root s') = (spec c (elements (root s))).2.
Proof.
  unfold treap_ok. destruct s as [t n]. intros [Ht Hs]. cbn [root] in *.
  destruct c; cbn [call_treap spec fst snd].
  - unfold insert. cbn [root drawn].
    destruct (insert_heap x t n Ht) as (t' & n' & E & Ht' & _). rewrite E.
    apply treap_insert_elements in E; [|done]. eexists. split; [done|]. cbn [root]. rewrite E.
    auto using ins_sorted.
  - unfold remove. cbn [root drawn].
    destruct (treap_remove_ok (S (2 * Z.to_nat (size t))) x t Ht Hs) as (t' & -> & Ht' & E & _).
    { pose proof (size_nonneg t). lia. }
    eexists. split; [done|]. cbn [root]. rewrite E. auto using del_sorted.
  - exists {| root := t; drawn := n |}. split; [|done]. unfold contains. cbn [root].
    rewrite <- search_elements by done. done.
  - exists {| root := t; drawn := n |}. split; [|done]. change (findMin _) with (if is_nil t then Some Underflow else
      Item (K:=K) <$> root_element (leftmost t)). by rewrite item_leftmost.
  - exists {| root := t; drawn := n |}. split; [|done]. change (findMax _) with (if is_nil t then Some Underflow else
      Item (K:=K) <$> root_element (rightmost t)). by rewrite item_rightmost.
  - exists {| root := t; drawn := n |}. split; [|done]. unfold isEmpty. cbn [root]. by rewrite is_nil_spec.
  - eexists. split; [done|]. unfold makeEmpty. cbn [root]. destruct t; repeat constructor.
  - exists {| root := t; drawn := n |}. split; [|done]. unfold printTree, isEmpty. cbn [root].
    by rewrite treap_printTree_elements, lines_elements.
Qed.

#[local] Instance treap_set : SetImpl K treap := {
  exec := call_treap;
  contents s := elements (root s);
  ok := treap_ok;
  ok_sorted s Hs := proj2 Hs;
  exec_ok := call_treap_ok;
}.

Lemma run_calls cs :
  ∃ s, run cs construct = Some ((spec_run cs []).1, s) ∧ treap_ok s ∧
       elements (root s) = (spec_run cs []).2.
Proof.
  assert (∀ s, run cs s = exec_run cs s) as ->.
  { induction cs as [|c cs IH]; intros s; simpl; [done|].
    destruct (call_treap c s) as [[a s']|]; simpl; [by rewrite IH|done]. }
  destruct (exec_run_ok cs construct) as (s & E & Hok & C); [by repeat constructor|].
  by exists s.
Qed.
End treap.

(** Treap is a sorted set whatever the generator draws below INT_MAX:
    from the empty treap, no call uses the sentinel as a node, every removal
    ends within twice the number of nodes, the answers are those of a sorted
    list without duplicates, and the nodes are in heap order of their
    priorities. *)
Lemma treap_implements_sorted_set `{KeyOrder K} (nextInt : nat → Z) (cs : list (call K)) :
  (∀ n, nextInt n < INT_MAX) →
  ∃ s, run nextInt cs construct = Some ((spec_run cs []).1, s) ∧
       elements (root s) = (spec_run cs []).2 ∧ sorted (elements (root s)) ∧
       heap (root s) ∧ clone (root s) = root s.
Proof.
  intros Hn. destruct (run_calls nextInt Hn cs) as (s & E & [Hh Hs] & C).
  exists s. split_and!; [exact E|exact C|exact Hs|exact Hh|apply treap_clone_eq].
Qed.

(** A draw of INT_MAX breaks the removal: the rotation takes the sentinel for
    the smaller child and the left subtree is lost with the node. *)
Lemma treap_max_priority_loses_items :
  run (λ _, INT_MAX) [Insert 4; Insert 2; Remove 4; Contains 2] construct =
    Some ([Done; Done; Done; Answer false], {| root := Nil; drawn := 2 |}).
Proof. vm_compute. reflexivity. Qed.

End Treap.
