(* ===== verification/HeapContract.v ===== *)
(** * Priority queues: the contract of the heaps of codeC++11

    BinaryHeap.h, LeftistHeap.h, BinomialQueue.h and PairingHeap.h promise the
    same: duplicates are kept and the smallest item comes out first.  The
    promise is a sorted list with duplicates; [HeapImpl] states it for an
    implementation, whatever calls a client makes. *)
From S2P Require Import Prelude StdMap.

Module HeapContract.
Section order.
Context {K : Type} `{KeyOrder K}.
Implicit Types (x y : K) (s : list K).

(** [x <= y] of the code: not [y < x]. *)
Definition le x y : Prop := klt y x = false.

Lemma le_refl x : le x x.
Proof. apply klt_irrefl. Qed.
Lemma le_trans x y z : le x y → le y z → le x z.
Proof.
  unfold le. intros Hxy Hyz. destruct (klt z x) eqn:E; [|done].
  destruct (klt y z) eqn:E'; [|by rewrite (klt_total y z E' Hyz), E in Hxy].
  by rewrite (klt_trans y z x E' E) in Hxy.
Qed.
Lemma le_antisym x y : le x y → le y x → x = y.
Proof. intros. by apply klt_total. Qed.
Lemma lt_le x y : klt x y = true → le x y.
Proof.
  intros Hxy. unfold le. destruct (klt y x) eqn:E; [|done].
  pose proof (klt_trans _ _ _ Hxy E) as Hxx. by rewrite klt_irrefl in Hxx.
Qed.
Lemma le_cases x y : (klt x y = true ∧ le x y) ∨ (klt x y = false ∧ le y x).
Proof. destruct (klt x y) eqn:E; [left; auto using lt_le|right; done]. Qed.

#[export] Instance le_dec x y : Decision (le x y).
Proof. unfold le. apply _. Defined.
#[export] Instance le_transitive : Transitive le.
Proof. intros x y z. apply le_trans. Qed.

Definition sorted s : Prop := StronglySorted le s.

Fixpoint ins x s : list K :=
  match s with
  | [] => [x]
  | y :: s' => if klt y x then y :: ins x s' else x :: s
  end.

Lemma ins_perm x s : ins x s ≡ₚ x :: s.
Proof.
  induction s as [|y s IH]; simpl; [done|]. destruct (klt y x); [|done].
  rewrite IH. constructor.
Qed.
Lemma insd_sorted x s : sorted s → sorted (ins x s).
Proof.
  unfold sorted. induction 1 as [|y s Hs IH Hy]; simpl; [repeat constructor|].
  destruct (le_cases y x) as [[-> Hyx]|[-> Hxy]].
  - constructor; [done|]. rewrite ins_perm. by constructor.
  - constructor; [by constructor|]. constructor; [done|].
    eapply Forall_impl; [exact Hy|]. intros z. by apply le_trans.
Qed.

(** The head of a sorted list is its smallest element. *)
Lemma sorted_min x l s :
  sorted s → x :: l ≡ₚ s → Forall (le x) l → ∃ s', s = x :: s' ∧ l ≡ₚ s' ∧ sorted s'.
Proof.
  intros Hs Hp Hx. destruct s as [|y s]; [by apply Permutation_nil_r in Hp|].
  apply StronglySorted_cons in Hs as [Hy Hs].
  assert (x = y) as <-.
  { assert (x ∈ y :: s) as Hin by (rewrite <- Hp; constructor).
    assert (y ∈ x :: l) as Hin' by (rewrite Hp; constructor).
    rewrite Forall_forall in Hx, Hy.
    apply elem_of_cons in Hin as [->|Hin]; [done|].
    apply elem_of_cons in Hin' as [->|Hin']; [done|].
    apply le_antisym; auto. }
  exists s. split_and!; [done|by apply Permutation_cons_inv in Hp|done].
Qed.
End order.

Section contract.
Context {K : Type} `{KeyOrder K}.

Inductive call : Type :=
| Insert (x : K)
| FindMin
| DeleteMin
| DeleteMinItem   (** [deleteMin( minItem )] *)
| IsEmpty
| MakeEmpty.

Inductive answer : Type :=
| Done
| Item (x : K)
| Underflow
| Answer (b : bool).

Definition spec (c : call) (s : list K) : answer * list K :=
  match c with
  | Insert x => (Done, ins x s)
  | FindMin => (match s with x :: _ => Item x | [] => Underflow end, s)
  | DeleteMin => match s with _ :: s => (Done, s) | [] => (Underflow, s) end
  | DeleteMinItem => match s with x :: s => (Item x, s) | [] => (Underflow, s) end
  | IsEmpty => (Answer (match s with [] => true | _ => false end), s)
  | MakeEmpty => (Done, [])
  end.

Lemma queue_spec_sorted c s : sorted s → sorted (spec c s).2.
Proof.
  destruct c; simpl; auto using insd_sorted; try (intros; constructor);
    destruct s; simpl; try done; by intros [_ ?]%StronglySorted_cons.
Qed.

Fixpoint spec_run (cs : list call) (s : list K) : list answer * list K :=
  match cs with
  | [] => ([], s)
  | c :: cs => let '(a, s) := spec c s in let '(r, s) := spec_run cs s in (a :: r, s)
  end.

(** An implementation over states [T]: [exec] runs a call, [None] when it
    runs into undefined behaviour; [items] are its items in some order. *)
Class HeapImpl (T : Type) := {
  exec : call → T → option (answer * T);
  items : T → list K;
  ok : T → Prop;
  exec_ok c t s : ok t → sorted s → items t ≡ₚ s →
    ∃ t', exec c t = Some ((spec c s).1, t') ∧ ok t' ∧ items t' ≡ₚ (spec c s).2;
}.

Fixpoint exec_run `{Impl : HeapImpl T} (cs : list call) (t : T) : option (list answer * T) :=
  match cs with
  | [] => Some ([], t)
  | c :: cs =>
      '(a, t) ← exec c t;
      '(r, t) ← exec_run cs t;
      Some (a :: r, t)
  end.

Lemma queue_run_ok `{HeapImpl T} cs t s :
  ok t → sorted s → items t ≡ₚ s →
  ∃ t', exec_run cs t = Some ((spec_run cs s).1, t') ∧ ok t' ∧ items t' ≡ₚ (spec_run cs s).2.
Proof.
  revert t s. induction cs as [|c cs IH]; intros t s Ht Hs Hp; [by eauto|].
  destruct (exec_ok c t s Ht Hs Hp) as (t1 & E & Ht1 & P1). simpl. rewrite E. simpl.
  apply (queue_spec_sorted c) in Hs. destruct (spec c s) as [a s1]. simpl in *.
  destruct (IH t1 s1 Ht1 Hs P1) as (t2 & -> & Ht2 & P2). simpl.
  destruct (spec_run cs s1) as [r s2]. by eauto.
Qed.
End contract.
Arguments call K : clear implicits.
Arguments answer K : clear implicits.
Arguments HeapImpl K {_} T.
End HeapContract.
