(* ===== verification/LeftistHeap.v ===== *)
(** * LeftistHeap: codeC++11/LeftistHeap.h

    A heap-ordered binary tree whose nodes store their null path length
    [npl].  [merge] and [merge1] call each other; [None] is a null pointer
    dereference or the end of the fuel, which counts the calls of [merge]. *)
From S2P Require Import Prelude StdMap BinTree HeapContract.
Import BinTree HeapContract.

Module LeftistHeap.
Section leftist.
Context {K : Type} `{KeyOrder K}.

Abbreviation LeftistNode := (tree Z K).
Implicit Types t h l r : LeftistNode.

(** [t->npl]; [None] for the null pointer. *)
Definition npl t : option Z := match t with Nil => None | Node n _ _ _ => Some n end.

Definition swapChildren t : option LeftistNode :=
  match t with Nil => None | Node n l e r => Some (Node n r e l) end.

(** [merge1] with the recursive call of [merge] as an argument. *)
Definition merge1 (merge : LeftistNode → LeftistNode → option LeftistNode) h1 h2 :
    option LeftistNode :=
  match h1 with
  | Nil => None
  | Node n Nil e r => Some (Node n h2 e r)
  | Node n l e r =>
      r ← merge r h2;
      nl ← npl l;
      nr ← npl r;
      t ← (if nl <? nr then swapChildren (Node n l e r) else Some (Node n l e r));
      match t with
      | Nil => None
      | Node _ l e r => nr ← npl r; Some (Node (nr + 1) l e r)
      end
  end.

Fixpoint merge (fuel : nat) h1 h2 : option LeftistNode :=
  match fuel with
  | O => None
  | S fuel =>
      match h1, h2 with
      | Nil, _ => Some h2
      | _, Nil => Some h1
      | Node _ _ e1 _, Node _ _ e2 _ =>
          if klt e1 e2 then merge1 (merge fuel) h1 h2 else merge1 (merge fuel) h2 h1
      end
  end.

(** More calls than the nodes of both heaps. *)
Definition merge_nodes h1 h2 : option LeftistNode :=
  merge (S (Z.to_nat (size h1 + size h2))) h1 h2.

Fixpoint reclaimMemory t : LeftistNode :=
  match t with
  | Nil => Nil
  | Node _ l _ r => let l := reclaimMemory l in let r := reclaimMemory r in Nil
  end.

Fixpoint clone t : LeftistNode :=
  match t with
  | Nil => Nil
  | Node n l element r => Node n (clone l) element (clone r)
  end.

(** ** The public functions *)

Definition isEmpty (root : LeftistNode) : bool := is_nil root.

Definition findMin (root : LeftistNode) : option (answer K) :=
  if isEmpty root then Some Underflow else Item <$> root_element root.

Definition insert (x : K) (root : LeftistNode) : option LeftistNode :=
  merge_nodes (Node 0 Nil x Nil) root.

Definition deleteMin (root : LeftistNode) : option (answer K * LeftistNode) :=
  if isEmpty root then Some (Underflow, root)
  else
    match root with
    | Nil => None
    | Node _ l _ r => root ← merge_nodes l r; Some (Done, root)
    end.

(** [minItem = findMin(); deleteMin();]; an exception of the first leaves. *)
Definition deleteMin_item (root : LeftistNode) : option (answer K * LeftistNode) :=
  minItem ← findMin root;
  match minItem with
  | Item x => '(_, root) ← deleteMin root; Some (Item x, root)
  | a => Some (a, root)
  end.

Definition makeEmpty (root : LeftistNode) : LeftistNode := reclaimMemory root.

(** [merge(rhs)]: this heap and [rhs] afterwards; [same] when they are one. *)
Definition merge_heaps (same : bool) (root rhs : LeftistNode) :
    option (LeftistNode * LeftistNode) :=
  if same then Some (root, rhs)
  else root ← merge_nodes root rhs; Some (root, Nil).

Definition call_heap (c : call K) (root : LeftistNode) : option (answer K * LeftistNode) :=
  match c with
  | Insert x => root ← insert x root; Some (Done, root)
  | FindMin => a ← findMin root; Some (a, root)
  | DeleteMin => deleteMin root
  | DeleteMinItem => deleteMin_item root
  | IsEmpty => Some (Answer (isEmpty root), root)
  | MakeEmpty => Some (Done, makeEmpty root)
  end.

(** ** The invariant *)

Definition null_path t : Z := default (-1) (npl t).

(** Heap order, and the left null path is the longer one. *)
Fixpoint leftist t : Prop :=
  match t with
  | Nil => True
  | Node n l e r =>
      leftist l ∧ leftist r ∧ Forall (le e) (elements l ++ elements r) ∧
      null_path r <= null_path l ∧ n = null_path r + 1
  end.

Lemma null_path_ge t : leftist t → -1 <= null_path t.
Proof.
  induction t as [|n l IHl e r IHr]; simpl; [unfold null_path; done|].
  intros (_ & Hr%IHr & _ & _ & ->). unfold null_path at 1. simpl. lia.
Qed.

(** Two to the null path length bounds the nodes. *)
Lemma leftist_size t : leftist t → 2 ^ (null_path t + 1) <= size t + 1.
Proof.
  induction t as [|n l IHl e r IHr]; intros Ht; [done|].
  destruct Ht as (Hl & Hr & _ & Hle & ->). specialize (IHl Hl). specialize (IHr Hr).
  change (null_path (Node (null_path r + 1) l e r)) with (null_path r + 1). cbn [size].
  pose proof (null_path_ge r Hr).
  assert (2 ^ (null_path r + 1) <= 2 ^ (null_path l + 1)) by (apply Z.pow_le_mono_r; lia).
  replace (null_path r + 1 + 1) with (Z.succ (null_path r + 1)) by lia.
  rewrite Z.pow_succ_r by lia. lia.
Qed.

Lemma null_path_log t : leftist t → null_path t + 1 <= Z.log2 (size t + 1).
Proof.
  intros Ht. pose proof (leftist_size t Ht) as Hs%Z.log2_le_mono.
  rewrite Z.log2_pow2 in Hs; [done|]. pose proof (null_path_ge t Ht). lia.
Qed.

(** The result of a merge. *)
Record merged h1 h2 h : Prop := {
  mrg_leftist : leftist h;
  mrg_items : elements h ≡ₚ elements h1 ++ elements h2;
}.

Lemma root_le t e : leftist t → (∀ y, root_element t = Some y → le e y) → Forall (le e) (elements t).
Proof.
  destruct t as [|n l y r]; simpl; [constructor|]. intros (_ & _ & Hy & _) He.
  specialize (He y eq_refl). apply Forall_app in Hy as [Hl Hr].
  apply Forall_app. split; [|constructor; [done|]].
  - eapply Forall_impl; [exact Hl|]. intros z. by apply le_trans.
  - eapply Forall_impl; [exact Hr|]. intros z. by apply le_trans.
Qed.

Lemma merge1_ok (f : LeftistNode → LeftistNode → option LeftistNode) n l e r h2 :
  leftist (Node n l e r) → leftist h2 → is_nil h2 = false → Forall (le e) (elements h2) →
  (l = Nil ∨ ∃ h, f r h2 = Some h ∧ merged r h2 h) →
  ∃ h, merge1 f (Node n l e r) h2 = Some h ∧ merged (Node n l e r) h2 h.
Proof.
  intros (Hl & Hr & He & Hle & ->) Hh2 Hn He2 Hf. destruct l as [|nl ll a lr].
  - assert (r = Nil) as ->.
    { destruct r as [|nr rl b rr]; [done|]. destruct Hr as (_ & Hrr & _ & _ & ->).
      apply null_path_ge in Hrr. unfold null_path in Hle, Hrr. simpl in *. lia. }
    eexists. split; [done|]. split; simpl.
    + rewrite app_nil_r. split_and!; try done. pose proof (null_path_ge h2 Hh2).
      unfold null_path at 1. simpl. done.
    + by rewrite Permutation_app_comm.
  - destruct Hf as [|(h & E & [Hh Hp])]; [done|]. unfold merge1. rewrite E. simpl.
    destruct h as [|nh hl b hr].
    { simpl in Hp. symmetry in Hp. apply Permutation_nil_r, app_nil in Hp as [_ Hp].
      apply is_nil_elements in Hp. congruence. }
    set (L := Node nl ll a lr) in *. set (R := Node nh hl b hr) in *. simpl npl.
    assert (Forall (le e) (elements R)) as HeR.
    { rewrite Hp. apply Forall_app in He as [_ He]. by apply Forall_app. }
    apply Forall_app in He as [HeL _]. simpl.
    destruct (Z.ltb_spec nl nh); simpl; eexists; (split; [done|]); split.
    + refine (conj Hh (conj Hl (conj _ (conj _ _)))); [by apply Forall_app| |done].
      unfold null_path. simpl. lia.
    + change (elements (Node (nl + 1) R e L)) with (elements R ++ e :: elements L).
      change (elements (Node (null_path r + 1) L e r)) with (elements L ++ e :: elements r).
      rewrite Hp. solve_Permutation.
    + refine (conj Hl (conj Hh (conj _ (conj _ _)))); [by apply Forall_app| |done].
      unfold null_path. simpl. lia.
    + change (elements (Node (nh + 1) L e R)) with (elements L ++ e :: elements R).
      change (elements (Node (null_path r + 1) L e r)) with (elements L ++ e :: elements r).
      rewrite Hp. solve_Permutation.
Qed.

(** The fuel that is needed: the two right paths. *)
Lemma merge_ok fuel h1 h2 :
  leftist h1 → leftist h2 → null_path h1 + null_path h2 + 2 < Z.of_nat fuel →
  ∃ h, merge fuel h1 h2 = Some h ∧ merged h1 h2 h.
Proof.
  revert h1 h2. induction fuel as [|fuel IH]; intros h1 h2 H1 H2 Hf.
  { pose proof (null_path_ge h1 H1). pose proof (null_path_ge h2 H2). lia. }
  destruct h1 as [|n1 l1 e1 r1]; [by exists h2|].
  destruct h2 as [|n2 l2 e2 r2].
  { exists (Node n1 l1 e1 r1). split; [done|]. split; [done|]. by rewrite app_nil_r. }
  cbn [merge]. destruct (le_cases e1 e2) as [[-> He]|[-> He]].
  - apply merge1_ok; [done..| |].
    + apply root_le; [done|]. by intros y [= <-].
    + destruct H1 as (Hl & Hr & _ & Hle & ->). right. apply IH; [done..|].
      unfold null_path in Hf at 1. simpl in Hf. lia.
  - destruct (merge1_ok (merge fuel) n2 l2 e2 r2 (Node n1 l1 e1 r1)) as (h & E & [Hh Hp]);
      [done..| | |].
    + apply root_le; [done|]. by intros y [= <-].
    + destruct H2 as (Hl & Hr & _ & Hle & ->). right. apply IH; [done..|].
      unfold null_path in Hf at 2. simpl in Hf. lia.
    + exists h. split; [done|]. split; [done|]. by rewrite Hp, Permutation_app_comm.
Qed.

Lemma merge1_mono f g h1 h2 h :
  (∀ r1 r2 h, f r1 r2 = Some h → g r1 r2 = Some h) →
  merge1 f h1 h2 = Some h → merge1 g h1 h2 = Some h.
Proof.
  intros Hfg. destruct h1 as [|n l e r]; [done|]. destruct l as [|nl ll a lr]; [done|].
  unfold merge1. destruct (f r h2) as [r'|] eqn:E; [|done]. by rewrite (Hfg _ _ _ E).
Qed.

Lemma merge_mono fuel fuel' h1 h2 h :
  (fuel <= fuel')%nat → merge fuel h1 h2 = Some h → merge fuel' h1 h2 = Some h.
Proof.
  revert fuel' h1 h2 h. induction fuel as [|fuel IH]; intros fuel' h1 h2 h Hle E; [done|].
  destruct fuel' as [|fuel']; [lia|].
  destruct h1 as [|n1 l1 e1 r1]; [done|]. destruct h2 as [|n2 l2 e2 r2]; [done|].
  cbn [merge] in *. destruct (klt e1 e2); (eapply merge1_mono; [|exact E]);
    intros r1' r2' h'; apply IH; lia.
Qed.

(** Merging takes logarithmically many calls. *)
Lemma merge_log h1 h2 :
  leftist h1 → leftist h2 →
  ∃ h, merge_nodes h1 h2 = Some h ∧ merged h1 h2 h ∧
       merge (Z.to_nat (Z.log2 (size h1 + 1) + Z.log2 (size h2 + 1) + 1)) h1 h2 = Some h.
Proof.
  intros H1 H2. pose proof (null_path_log h1 H1). pose proof (null_path_log h2 H2).
  pose proof (null_path_ge h1 H1). pose proof (null_path_ge h2 H2).
  pose proof (size_nonneg h1). pose proof (size_nonneg h2).
  destruct (merge_ok (Z.to_nat (Z.log2 (size h1 + 1) + Z.log2 (size h2 + 1) + 1)) h1 h2 H1 H2)
    as (h & E & Hm); [lia|].
  exists h. split_and!; [|done|done]. unfold merge_nodes. eapply merge_mono; [|exact E].
  pose proof (Z.log2_lt_lin (size h1 + 1)). pose proof (Z.log2_lt_lin (size h2 + 1)). lia.
Qed.

Lemma leftist_reclaim_nil t : reclaimMemory t = Nil.
Proof. by destruct t. Qed.
Lemma leftist_clone_eq t : clone t = t.
Proof. induction t as [|n l IHl e r IHr]; simpl; [done|]. by rewrite IHl, IHr. Qed.

Lemma root_sorted n l e r s :
  leftist (Node n l e r) → sorted s → elements (Node n l e r) ≡ₚ s →
  ∃ s', s = e :: s' ∧ elements l ++ elements r ≡ₚ s'.
Proof.
  intros (_ & _ & He & _) Hs Hp. simpl in Hp. rewrite <- Permutation_middle in Hp.
  destruct (sorted_min e (elements l ++ elements r) s) as (s' & -> & Hp' & _); eauto.
Qed.

Lemma leftist_call_heap_ok c t s :
  leftist t → sorted s → elements t ≡ₚ s →
  ∃ t', call_heap c t = Some ((spec c s).1, t') ∧ leftist t' ∧ elements t' ≡ₚ (spec c s).2.
Proof.
  intros Ht Hs Hp. destruct c; cbn [call_heap spec fst snd].
  - destruct (merge_log (Node 0 Nil x Nil) t) as (h & E & [Hh Hi] & _); [by repeat constructor|done|].
    unfold insert. rewrite E. exists h. split_and!; [done..|].
    rewrite Hi, Hp, ins_perm. done.
  - exists t. destruct t as [|n l e r].
    + simpl in Hp. by apply Permutation_nil_l in Hp as <-.
    + destruct (root_sorted n l e r s) as (s' & -> & _); [done..|]. split_and!; done.
  - destruct t as [|n l e r].
    + simpl in Hp. apply Permutation_nil_l in Hp as <-. by exists Nil.
    + destruct (root_sorted n l e r s) as (s' & -> & Hp'); [done..|].
      destruct Ht as (Hl & Hr & _). destruct (merge_log l r Hl Hr) as (h & E & [Hh Hi] & _).
      exists h. unfold deleteMin. simpl. rewrite E. split_and!; [done..|]. by rewrite Hi.
  - destruct t as [|n l e r].
    + simpl in Hp. apply Permutation_nil_l in Hp as <-. by exists Nil.
    + destruct (root_sorted n l e r s) as (s' & -> & Hp'); [done..|].
      destruct Ht as (Hl & Hr & _). destruct (merge_log l r Hl Hr) as (h & E & [Hh Hi] & _).
      exists h. unfold deleteMin_item, deleteMin. simpl. rewrite E. split_and!; [done..|].
      by rewrite Hi.
  - exists t. unfold isEmpty. split_and!; [|done..]. destruct t as [|n l e r].
    + simpl in Hp. by apply Permutation_nil_l in Hp as <-.
    + destruct (root_sorted n l e r s) as (s' & -> & _); done.
  - exists Nil. unfold makeEmpty. by rewrite leftist_reclaim_nil.
Qed.

#[export] Instance leftist_impl : HeapImpl K LeftistNode := {
  exec := call_heap;
  items := elements;
  ok := leftist;
  exec_ok := leftist_call_heap_ok;
}.
End leftist.

(** LeftistHeap is a priority queue with a logarithmic merge: after any
    calls of a client on two empty heaps, no null pointer was dereferenced and
    the answers are those of a sorted list with duplicates; merging the two
    heaps then gives a leftist heap with the items of both and leaves the
    other one empty, within log n1 + log n2 + 1 calls of the recursion. *)
Lemma leftist_implements_priority_queue `{KeyOrder K} (cs1 cs2 : list (call K)) :
  ∃ h1 h2 h, exec_run cs1 (Nil : tree Z K) = Some ((spec_run cs1 []).1, h1) ∧
    exec_run cs2 (Nil : tree Z K) = Some ((spec_run cs2 []).1, h2) ∧
    elements h1 ≡ₚ (spec_run cs1 []).2 ∧ clone h1 = h1 ∧
    merge_heaps false h1 h2 = Some (h, Nil) ∧ leftist h ∧
    elements h ≡ₚ (spec_run cs1 []).2 ++ (spec_run cs2 []).2 ∧
    merge (Z.to_nat (Z.log2 (size h1 + 1) + Z.log2 (size h2 + 1) + 1)) h1 h2 = Some h.
Proof.
  destruct (queue_run_ok (T:=tree Z K) cs1 Nil []) as (h1 & E1 & L1 & P1); [done|constructor|done|].
  destruct (queue_run_ok (T:=tree Z K) cs2 Nil []) as (h2 & E2 & L2 & P2); [done|constructor|done|].
  simpl in *. destruct (merge_log h1 h2 L1 L2) as (h & E & [Hh Hp] & Ef).
  exists h1, h2, h. split_and!; try done; [apply leftist_clone_eq| |by rewrite Hp, P1, P2].
  unfold merge_heaps. by rewrite E.
Qed.

End LeftistHeap.
