(* ===== verification/PairingHeap.v ===== *)
(** * PairingHeap: codeC++11/PairingHeap.h

    A heap-ordered multiway tree, linked by first child and next sibling: the
    left subtree of a node is its [leftChild], the right one its
    [nextSibling], and the extra field is the node's identity, the [Position]
    that [insert] returns.  The [prev] links, which only say where a node
    hangs, are left implicit.  [None] is a null or dangling pointer. *)
From S2P Require Import Prelude StdMap BinTree HeapContract.
Import BinTree HeapContract.

Module PairingHeap.
Section pairing.
Context {K : Type} `{KeyOrder K}.

Abbreviation PairNode := (tree nat K).
Implicit Types t c s : PairNode.

(** ** Linking *)

(** The new [first]. *)
Definition compareAndLink (first second : PairNode) : option PairNode :=
  match second with
  | Nil => Some first
  | Node i2 c2 e2 s2 =>
      match first with
      | Nil => None
      | Node i1 c1 e1 s1 =>
          if klt e2 e1
          then Some (Node i2 (Node i1 c1 e1 c2) e2 s2)
          else Some (Node i1 (Node i2 c2 e2 c1) e1 s2)
      end
  end.

(** The first loop of [combineSiblings]: the subtrees, with their links broken. *)
Fixpoint store_siblings (firstSibling : PairNode) : list PairNode :=
  match firstSibling with
  | Nil => []
  | Node i c e s => Node i c e Nil :: store_siblings s
  end.

(** [compareAndLink( treeArray[ i ], treeArray[ j ] )] *)
Definition link_at (arr : list PairNode) (i j : nat) : option (list PairNode) :=
  first ← arr !! i;
  second ← arr !! j;
  t ← compareAndLink first second;
  Some (<[i := t]> arr).

(** Left to right, two at a time; the index at the end is returned, too. *)
Fixpoint combine_pairs (fuel : nat) (n i : nat) (arr : list PairNode) :
    option (nat * list PairNode) :=
  if (i + 1 <? n)%nat then
    match fuel with
    | O => None
    | S fuel => arr ← link_at arr i (i + 1); combine_pairs fuel n (i + 2) arr
    end
  else Some (i, arr).

(** Right to left: the last tree into the one before it. *)
Fixpoint combine_last (fuel : nat) (j : nat) (arr : list PairNode) : option (list PairNode) :=
  if (2 <=? j)%nat then
    match fuel with
    | O => None
    | S fuel => arr ← link_at arr (j - 2) j; combine_last fuel (j - 2) arr
    end
  else Some arr.

(** [numSiblings] is the number of subtrees, at least two; an odd last one is
    linked when [j == numSiblings - 3]. *)
Definition combineSiblings (firstSibling : PairNode) : option PairNode :=
  match firstSibling with
  | Nil => None
  | Node _ _ _ Nil => Some firstSibling
  | _ =>
      let arr := store_siblings firstSibling in
      let n := length arr in
      '(i, arr) ← combine_pairs n n 0 arr;
      let j := (i - 2)%nat in
      arr ← (if (j + 3 =? n)%nat then link_at arr j (j + 2) else Some arr);
      arr ← combine_last n j arr;
      arr !! 0%nat
  end.

(** ** The public functions *)

Record heap := mk_heap { root : PairNode; fresh : nat }.

Definition construct : heap := {| root := Nil; fresh := 0 |}.

Definition isEmpty (h : heap) : bool := is_nil (root h).

Definition findMin (h : heap) : option (answer K) :=
  if isEmpty h then Some Underflow else Item <$> root_element (root h).

(** The position of the new node and the heap. *)
Definition insert (x : K) (h : heap) : option (nat * heap) :=
  let newNode := Node (fresh h) Nil x Nil in
  r ← (if is_nil (root h) then Some newNode else compareAndLink (root h) newNode);
  Some (fresh h, {| root := r; fresh := S (fresh h) |}).

Definition deleteMin (h : heap) : option (answer K * heap) :=
  if isEmpty h then Some (Underflow, h)
  else
    match root h with
    | Nil => None
    | Node _ leftChild _ _ =>
        r ← (if is_nil leftChild then Some Nil else combineSiblings leftChild);
        Some (Done, {| root := r; fresh := fresh h |})
    end.

Definition deleteMin_item (h : heap) : option (answer K * heap) :=
  minItem ← findMin h;
  match minItem with
  | Item x => '(_, h) ← deleteMin h; Some (Item x, h)
  | a => Some (a, h)
  end.

Fixpoint reclaimMemory t : PairNode :=
  match t with
  | Nil => Nil
  | Node _ c _ s => let c := reclaimMemory c in let s := reclaimMemory s in Nil
  end.
Definition makeEmpty (h : heap) : heap := {| root := reclaimMemory (root h); fresh := fresh h |}.

(** [p->element]; [None]: no node of this identity lives in the heap. *)
Fixpoint element_at (p : nat) t : option K :=
  match t with
  | Nil => None
  | Node i c e s =>
      if decide (i = p) then Some e
      else match element_at p c with Some x => Some x | None => element_at p s end
  end.

(** Unhook [p]: its place goes to its next sibling; [p] keeps its children. *)
Fixpoint unlink (p : nat) t : option (PairNode * PairNode) :=
  match t with
  | Nil => None
  | Node i c e s =>
      if decide (i = p) then Some (s, Node i c e Nil)
      else match unlink p c with
           | Some (c, n) => Some (Node i c e s, n)
           | None => '(s, n) ← unlink p s; Some (Node i c e s, n)
           end
  end.

Definition set_element (x : K) t : PairNode :=
  match t with Nil => Nil | Node i c _ s => Node i c x s end.

Definition is_root (p : nat) (h : heap) : bool :=
  match root h with Nil => false | Node i _ _ _ => bool_decide (i = p) end.

(** [false]: the invalid_argument exception is thrown. *)
Definition decreaseKey (p : nat) (newVal : K) (h : heap) : option (bool * heap) :=
  old ← element_at p (root h);
  if klt old newVal then Some (false, h)
  else if is_root p h then
    Some (true, {| root := set_element newVal (root h); fresh := fresh h |})
  else
    '(rest, n) ← unlink p (root h);
    r ← compareAndLink rest (set_element newVal n);
    Some (true, {| root := r; fresh := fresh h |}).

(** The copy and the next free identity. *)
Fixpoint clone t (n : nat) : PairNode * nat :=
  match t with
  | Nil => (Nil, n)
  | Node _ c e s =>
      let '(c', n1) := clone c (S n) in
      let '(s', n2) := clone s n1 in
      (Node n c' e s', n2)
  end.

Definition call_heap (c : call K) (h : heap) : option (answer K * heap) :=
  match c with
  | Insert x => '(_, h) ← insert x h; Some (Done, h)
  | FindMin => a ← findMin h; Some (a, h)
  | DeleteMin => deleteMin h
  | DeleteMinItem => deleteMin_item h
  | IsEmpty => Some (Answer (isEmpty h), h)
  | MakeEmpty => Some (Done, makeEmpty h)
  end.

(** ** Heap order *)

(** A node is below all nodes of the subtree of its children. *)
Fixpoint ordered t : Prop :=
  match t with
  | Nil => True
  | Node _ c e s => Forall (le e) (elements c) ∧ ordered c ∧ ordered s
  end.

(** A tree of the array: ordered, a node, without a sibling. *)
Definition single t : Prop :=
  match t with
  | Nil => False
  | Node _ c e s => Forall (le e) (elements c) ∧ ordered c ∧ s = Nil
  end.

Lemma single_ordered t : single t → ordered t.
Proof. destruct t; simpl; [done|]. intros (? & ? & ->). done. Qed.

Lemma single_min i c e s : single (Node i c e s) → Forall (le e) (elements (Node i c e s)).
Proof.
  intros (Hc & _ & ->). simpl. apply Forall_app. split; [done|]. constructor; [apply le_refl|done].
Qed.

(** The entries of a heap: the nodes' identities and items. *)
Fixpoint entries t : list (nat * K) :=
  match t with
  | Nil => []
  | Node i c e s => entries c ++ (i, e) :: entries s
  end.

Lemma entries_elements t : (entries t).*2 = elements t.
Proof. induction t as [|i c IHc e s IHs]; simpl; [done|]. rewrite fmap_app. csimpl. by rewrite IHc, IHs. Qed.

Lemma link_ok first second :
  single first → single second →
  ∃ t, compareAndLink first second = Some t ∧ single t ∧
       entries t ≡ₚ entries first ++ entries second.
Proof.
  destruct first as [|i1 c1 e1 s1], second as [|i2 c2 e2 s2]; try done. intros H1 H2.
  pose proof (single_min _ _ _ _ H1) as M1. pose proof (single_min _ _ _ _ H2) as M2.
  destruct H1 as (F1 & O1 & ->), H2 as (F2 & O2 & ->). simpl in *.
  apply Forall_app in M1 as [_ M1], M2 as [_ M2].
  destruct (klt e2 e1) eqn:E; eexists; (split; [done|]); simpl.
  - apply lt_le in E. split; [split_and!; try done|solve_Permutation].
    apply Forall_app. split; [|constructor; done].
    eapply Forall_impl; [exact F1|]. intros y. by apply le_trans.
  - split; [split_and!; try done|solve_Permutation].
    apply Forall_app. split; [|constructor; done].
    eapply Forall_impl; [exact F2|]. intros y. by apply le_trans.
Qed.

(** ** Two-pass merging *)

Definition all_entries (arr : list PairNode) : list (nat * K) := concat (entries <$> arr).

Lemma store_siblings_ok t :
  ordered t → Forall single (store_siblings t) ∧ all_entries (store_siblings t) ≡ₚ entries t.
Proof.
  unfold all_entries. induction t as [|i c _ e s IH]; simpl; [done|]. intros (Hc & Oc & Os).
  destruct (IH Os) as [IH1 IH2]. split; [constructor; [done|exact IH1]|].
  rewrite <- (assoc_L (++)). simpl. by rewrite IH2.
Qed.

(** The elements at even positions: where the first pass leaves its results. *)
Fixpoint evens {A} (l : list A) : list A :=
  match l with
  | a :: _ :: l => a :: evens l
  | _ => l
  end.

Lemma evens_app {A} (l k : list A) m : length l = (2 * m)%nat → evens (l ++ k) = evens l ++ evens k.
Proof.
  revert l. induction m as [|m IH]; intros [|a [|b l]] Hl; simpl in *; try done; try lia.
  rewrite IH; [done|lia].
Qed.
Lemma evens_pair {A} (l : list A) a b m : length l = (2 * m)%nat → evens (l ++ [a; b]) = evens l ++ [a].
Proof. intros. by rewrite (evens_app l _ m). Qed.
Lemma evens_one {A} (l : list A) a m : length l = (2 * m)%nat → evens (l ++ [a]) = evens l ++ [a].
Proof. intros. by rewrite (evens_app l _ m). Qed.

Lemma all_entries_app l k : all_entries (l ++ k) = all_entries l ++ all_entries k.
Proof. unfold all_entries. by rewrite fmap_app, concat_app. Qed.
Lemma all_entries_cons t l : all_entries (t :: l) = entries t ++ all_entries l.
Proof. done. Qed.

Lemma link_at_ok arr l1 a l2 b l3 :
  arr = l1 ++ a :: l2 ++ b :: l3 → Forall single arr →
  ∃ t, link_at arr (length l1) (length l1 + S (length l2)) = Some (l1 ++ t :: l2 ++ b :: l3) ∧
       Forall single (l1 ++ t :: l2 ++ b :: l3) ∧ entries t ≡ₚ entries a ++ entries b.
Proof.
  intros -> Hs. apply Forall_app in Hs as [Hs1 [Ha Hs2]%Forall_cons].
  pose proof Hs2 as [_ [Hb _]%Forall_cons]%Forall_app.
  destruct (link_ok a b Ha Hb) as (t & E & Ht & Pt). exists t. unfold link_at.
  rewrite (list_lookup_middle l1 (l2 ++ b :: l3) a _ eq_refl). simpl.
  replace ((l1 ++ a :: l2 ++ b :: l3) !! (length l1 + S (length l2))%nat) with (Some b).
  2:{ rewrite lookup_app_r by lia. replace (_ + _ - _)%nat with (S (length l2)) by lia. simpl.
      by rewrite list_lookup_middle. }
  simpl. rewrite E. simpl. split_and!; [|apply Forall_app; split|done].
  - f_equal. replace (length l1) with (length l1 + 0)%nat by lia. by rewrite insert_app_r.
  - done.
  - by constructor.
Qed.

Lemma list_split {A} (l : list A) i :
  (i < length l)%nat → ∃ l1 a l2, l = l1 ++ a :: l2 ∧ length l1 = i.
Proof.
  intros Hi. destruct (lookup_lt_is_Some_2 l i Hi) as [a Ha].
  exists (take i l), a, (drop (S i) l). split; [by rewrite take_drop_middle|].
  rewrite length_take. lia.
Qed.
Lemma list_split2 {A} (l : list A) i :
  (i + 1 < length l)%nat → ∃ l1 a b l2, l = l1 ++ a :: b :: l2 ∧ length l1 = i.
Proof.
  intros Hi. destruct (list_split l i) as (l1 & a & [|b l2] & -> & <-); [lia| |by eauto 6].
  rewrite length_app in Hi. simpl in Hi. lia.
Qed.

(** The subtrees that are left after [i] steps of the first pass. *)
Definition live (i : nat) (arr : list PairNode) : list PairNode := evens (take i arr) ++ drop i arr.

#[local] Arguments Nat.mul : simpl never.
#[local] Arguments Nat.div : simpl never.

Lemma combine_pairs_ok fuel m arr :
  Forall single arr → (2 * m <= length arr)%nat → (length arr < 2 * m + fuel + 2)%nat →
  ∃ arr', combine_pairs fuel (length arr) (2 * m) arr = Some (2 * (length arr / 2), arr')%nat ∧
          length arr' = length arr ∧ Forall single arr' ∧
          all_entries (live (2 * (length arr / 2)) arr') ≡ₚ all_entries (live (2 * m) arr).
Proof.
  revert m arr. induction fuel as [|fuel IH]; intros m arr Hs Hm Hf; cbn [combine_pairs];
    destruct (Nat.ltb_spec (2 * m + 1) (length arr)) as [Hlt|Hge]; [lia| | |].
  1, 3: assert (length arr / 2 = m)%nat as -> by
    (symmetry; apply (Nat.div_unique _ _ _ (length arr - 2 * m)); lia); by exists arr.
  destruct (list_split2 arr (2 * m)) as (l1 & a & b & l3 & Earr & Hl1); [lia|].
  destruct (link_at_ok arr l1 a [] b l3 Earr Hs) as (t & E & Hs' & Pt). simpl in *.
  rewrite Hl1 in E. rewrite E. simpl.
  assert (length (l1 ++ t :: b :: l3) = length arr) as El by (subst arr; by rewrite !length_app).
  destruct (IH (S m) (l1 ++ t :: b :: l3)) as (arr' & E' & El' & Hs'' & P); [done|..].
  { rewrite El. lia. }
  { rewrite El. lia. }
  replace (2 * m + 2)%nat with (2 * S m)%nat by lia. rewrite El in *. rewrite E'.
  exists arr'. split_and!; [done..|]. rewrite P. subst arr. unfold live.
  replace (2 * S m)%nat with (length (l1 ++ [t; b])) by (rewrite length_app; simpl; lia).
  replace (l1 ++ t :: b :: l3) with ((l1 ++ [t; b]) ++ l3) by by rewrite <- (assoc_L (++)).
  rewrite take_app_length, drop_app_length, (evens_pair l1 t b m) by done.
  rewrite <- Hl1, take_app_length, drop_app_length.
  rewrite !all_entries_app, !all_entries_cons, Pt. unfold all_entries at 2. simpl.
  solve_Permutation.
Qed.

Lemma combine_last_ok fuel m arr :
  Forall single arr → (2 * m < length arr)%nat → (m <= fuel)%nat →
  ∃ arr' t, combine_last fuel (2 * m) arr = Some arr' ∧ arr' !! 0%nat = Some t ∧ single t ∧
            entries t ≡ₚ all_entries (evens (take (2 * m + 1) arr)).
Proof.
  revert m arr. induction fuel as [|fuel IH]; intros m arr Hs Hm Hf; cbn [combine_last];
    destruct (Nat.leb_spec 2 (2 * m)) as [Hle|Hlt]; [lia| | |].
  1, 3: assert (m = 0)%nat as -> by lia; destruct arr as [|t arr]; [simpl in *; lia|];
    apply Forall_cons in Hs as [Ht _]; exists (t :: arr), t; split_and!; try done;
    change (take (2 * 0 + 1) (t :: arr)) with [t];
    unfold all_entries; simpl; by rewrite app_nil_r.
  destruct m as [|m]; [lia|]. replace (2 * S m - 2)%nat with (2 * m)%nat by lia.
  destruct (list_split2 arr (2 * m)) as (l1 & a & x & l' & Earr & Hl1); [lia|].
  destruct l' as [|b l3].
  { subst arr. rewrite length_app in Hm. simpl in Hm. lia. }
  destruct (link_at_ok arr l1 a [x] b l3 Earr Hs) as (t & E & Hs' & Pt).
  simpl in E, Hs'.
  rewrite Hl1 in E. replace (2 * S m)%nat with (2 * m + 2)%nat by lia. rewrite E. simpl.
  destruct (IH m (l1 ++ t :: x :: b :: l3)) as (arr' & r & E' & Er & Hr & Pr); [done| |lia|].
  { rewrite length_app. simpl. lia. }
  exists arr', r. split_and!; [exact E'|done|done|]. rewrite Pr. subst arr.
  replace (2 * m + 1)%nat with (length (l1 ++ [t])) by (rewrite length_app; simpl; lia).
  replace (2 * m + 2 + 1)%nat with (length (l1 ++ [a; x; b])) by (rewrite length_app; simpl; lia).
  replace (l1 ++ t :: x :: b :: l3) with ((l1 ++ [t]) ++ x :: b :: l3) by by rewrite <- (assoc_L (++)).
  replace (l1 ++ a :: x :: b :: l3) with ((l1 ++ [a; x; b]) ++ l3) by by rewrite <- (assoc_L (++)).
  rewrite !take_app_length.
  rewrite (evens_one l1 t m), (evens_app l1 [a; x; b] m) by done.
  simpl. rewrite !all_entries_app, !all_entries_cons, Pt. unfold all_entries at 2. simpl.
  solve_Permutation.
Qed.

Lemma length_store t : is_nil t = false → (1 <= length (store_siblings t))%nat.
Proof. destruct t; simpl; [done|lia]. Qed.

Lemma combineSiblings_ok t :
  ordered t → is_nil t = false →
  ∃ r, combineSiblings t = Some r ∧ single r ∧ entries r ≡ₚ entries t.
Proof.
  intros Ht Hn. destruct t as [|i c e s]; [done|]. destruct s as [|i' c' e' s'].
  { exists (Node i c e Nil). split_and!; [done|by destruct Ht as (? & ? & _)|done]. }
  set (t := Node i c e (Node i' c' e' s')) in *.
  destruct (store_siblings_ok t Ht) as [Hs P].
  change (combineSiblings t) with
    ('(i, arr) ← combine_pairs (length (store_siblings t)) (length (store_siblings t)) 0
                   (store_siblings t);
     arr ← (if (i - 2 + 3 =? length (store_siblings t))%nat
            then link_at arr (i - 2) (i - 2 + 2) else Some arr);
     arr ← combine_last (length (store_siblings t)) (i - 2) arr;
     arr !! 0%nat).
  assert (2 <= length (store_siblings t))%nat as Hlen by (simpl; lia).
  generalize dependent (store_siblings t). intros arr Hs P Hlen. clear Hn Ht.
  destruct (combine_pairs_ok (length arr) 0 arr) as (arr1 & E1 & L1 & Hs1 & P1); [done|lia|lia|].
  change (2 * 0)%nat with 0%nat in E1. rewrite E1. simpl.
  pose proof (Nat.div_mod (length arr) 2 ltac:(lia)) as Hdm.
  pose proof (Nat.mod_upper_bound (length arr) 2 ltac:(lia)).
  destruct (length arr / 2)%nat as [|m] eqn:Em; [lia|].
  replace (2 * S m - 2)%nat with (2 * m)%nat by lia.
  assert (∃ arr2, (if (2 * m + 3 =? length arr)%nat then link_at arr1 (2 * m) (2 * m + 2)
                   else Some arr1) = Some arr2 ∧ Forall single arr2 ∧ length arr2 = length arr ∧
                  all_entries (evens (take (2 * m + 1) arr2)) ≡ₚ all_entries (live (2 * S m) arr1))
    as (arr2 & -> & Hs2 & L2 & P2).
  { unfold live. clear P1 P E1.
    destruct (list_split2 arr1 (2 * m)) as (l1 & a & b & l3 & Earr & Hl1); [lia|].
    replace (2 * S m)%nat with (length (l1 ++ [a; b])) by (rewrite length_app; simpl; lia).
    replace (2 * m + 1)%nat with (length (l1 ++ [a])) by (rewrite length_app; simpl; lia).
    assert (length arr = 2 * m + 2 + length l3)%nat as El.
    { rewrite <- L1, Earr, length_app. simpl. lia. }
    destruct (Nat.eqb_spec (2 * m + 3) (length arr)) as [Hodd|Heven].
    - destruct l3 as [|d [|? ?]]; simpl in El; [lia| |lia].
      destruct (link_at_ok arr1 l1 a [b] d [] Earr Hs1) as (r & E & Hs2 & Pr).
      simpl in E. rewrite Hl1 in E. rewrite E. eexists. split_and!; [done|done| |].
      + rewrite length_app. simpl. lia.
      + subst arr1. replace (length (l1 ++ [a])) with (length (l1 ++ [r])) by (rewrite !length_app; done).
        simpl in *. replace (l1 ++ [r; b; d]) with ((l1 ++ [r]) ++ [b; d]) by by rewrite <- (assoc_L (++)).
        replace (l1 ++ a :: b :: [d]) with ((l1 ++ [a; b]) ++ [d]) by by rewrite <- (assoc_L (++)).
        rewrite !take_app_length, drop_app_length, (evens_one l1 r m), (evens_pair l1 a b m) by done.
        rewrite !all_entries_app, !all_entries_cons, Pr. unfold all_entries; simpl.
        solve_Permutation.
    - destruct l3; [|simpl in El; lia]. exists arr1. split_and!; [done..|]. subst arr1.
      replace (l1 ++ [a; b]) with ((l1 ++ [a]) ++ [b]) at 1 by by rewrite <- (assoc_L (++)).
      rewrite take_app_length, (take_ge _ (length (l1 ++ [a; b]))), drop_ge, app_nil_r by done.
      by rewrite (evens_pair l1 a b m), (evens_one l1 a m). }
  simpl. destruct (combine_last_ok (length arr) m arr2) as (arr3 & r & E3 & Er & Hr & Pr);
    [done|lia|lia|].
  rewrite E3. simpl. exists r. split_and!; [done..|]. rewrite Pr, P2, P1. exact P.
Qed.

(** ** The public functions *)

Record heap_ok (h : heap) : Prop := {
  hok_root : root h = Nil ∨ single (root h);
  hok_ids : NoDup (entries (root h)).*1;
  hok_fresh : Forall (λ e, (e.1 < fresh h)%nat) (entries (root h));
}.

(** An operation that takes entries away keeps the invariant. *)
Lemma heap_ok_shrink h r rest :
  heap_ok h → r = Nil ∨ single r → rest ++ entries r ≡ₚ entries (root h) →
  heap_ok {| root := r; fresh := fresh h |}.
Proof.
  intros [_ Hi Hf] Hr Hp. split; [done|..]; cbn [root fresh]; rewrite <- Hp in *.
  - rewrite fmap_app in Hi. by apply NoDup_app in Hi as (_ & _ & ?).
  - by apply Forall_app in Hf as [_ ?].
Qed.

Lemma pairing_insert_ok x h :
  heap_ok h →
  ∃ h', insert x h = Some (fresh h, h') ∧ heap_ok h' ∧
        entries (root h') ≡ₚ (fresh h, x) :: entries (root h).
Proof.
  intros [Hr Hi Hf]. unfold insert.
  assert (∃ r, (if is_nil (root h) then Some (Node (fresh h) Nil x Nil)
                else compareAndLink (root h) (Node (fresh h) Nil x Nil)) = Some r ∧ single r ∧
               entries r ≡ₚ (fresh h, x) :: entries (root h)) as (r & -> & Sr & Pr).
  { destruct Hr as [->|Hs].
    - exists (Node (fresh h) Nil x Nil). by repeat constructor.
    - destruct (link_ok (root h) (Node (fresh h) Nil x Nil) Hs) as (r & E & Sr & Pr); [done|].
      exists r. assert (is_nil (root h) = false) as -> by by destruct (root h).
      split_and!; [done..|]. rewrite Pr. simpl. solve_Permutation. }
  simpl. eexists. split; [done|]. split; [|done]. split; cbn [root fresh].
  - by right.
  - rewrite Pr. csimpl. constructor; [|done]. intros ([i e] & E & Hin)%list_elem_of_fmap.
    rewrite Forall_forall in Hf. apply Hf in Hin. simpl in *. lia.
  - rewrite Pr. constructor; [simpl; lia|]. eapply Forall_impl; [exact Hf|]. simpl. lia.
Qed.

Lemma root_min i c e s l :
  single (Node i c e s) → sorted l → elements (Node i c e s) ≡ₚ l →
  ∃ l', l = e :: l' ∧ elements c ≡ₚ l'.
Proof.
  intros (He & _ & ->) Hl Hp. simpl in Hp. rewrite Permutation_app_comm in Hp. simpl in Hp.
  destruct (sorted_min e (elements c) l) as (l' & -> & Hp' & _); eauto.
Qed.

Lemma deleteMin_ok i c e s h :
  heap_ok h → root h = Node i c e s →
  ∃ h', deleteMin h = Some (Done, h') ∧ heap_ok h' ∧ entries (root h') ≡ₚ entries c.
Proof.
  intros Hok Er. pose proof Hok as [[Hr|Hs] _ _]; [congruence|]. rewrite Er in Hs.
  destruct Hs as (He & Hc & ->). unfold deleteMin, isEmpty. rewrite Er. simpl.
  assert (∃ r, (if is_nil c then Some Nil else combineSiblings c) = Some r ∧
               (r = Nil ∨ single r) ∧ entries r ≡ₚ entries c) as (r & -> & Sr & Pr).
  { destruct (is_nil c) eqn:En.
    - destruct c; [|done]. exists Nil. auto.
    - destruct (combineSiblings_ok c Hc En) as (r & -> & Sr & Pr). eauto. }
  simpl. eexists. split; [done|]. split; [|done].
  apply (heap_ok_shrink h r [(i, e)]); [done..|]. rewrite Er, Pr. simpl. solve_Permutation.
Qed.

Lemma pairing_reclaim_nil t : reclaimMemory t = Nil.
Proof. by destruct t. Qed.

Lemma pairing_call_heap_ok (c : call K) h l :
  heap_ok h → sorted l → elements (root h) ≡ₚ l →
  ∃ h', call_heap c h = Some ((spec c l).1, h') ∧ heap_ok h' ∧
        elements (root h') ≡ₚ (spec c l).2.
Proof.
  intros Hok Hl Hp. pose proof Hok as [Hr _ _].
  assert (root h = Nil ∧ l = [] ∨ ∃ i ch e s l', root h = Node i ch e s ∧ l = e :: l' ∧
          elements ch ≡ₚ l') as Hcase.
  { destruct (root h) as [|i ch e s].
    - left. split; [done|]. simpl in Hp. by apply Permutation_nil_l in Hp.
    - right. destruct Hr as [?|Hs]; [done|]. destruct (root_min _ _ _ _ l Hs Hl Hp) as (l' & ? & ?).
      by repeat eexists. }
  destruct c; cbn [call_heap spec fst snd].
  - destruct (pairing_insert_ok x h Hok) as (h' & -> & Hok' & P). exists h'. split_and!; [done..|].
    rewrite <- entries_elements, P, ins_perm, <- Hp, <- entries_elements. done.
  - exists h. unfold findMin, isEmpty.
    by destruct Hcase as [[E ->]|(i & ch & e & s & l' & E & -> & _)]; (split; [rewrite E|]).
  - destruct Hcase as [[E ->]|(i & ch & e & s & l' & E & -> & P)].
    + exists h. unfold deleteMin, isEmpty. split; [by rewrite E|done].
    + destruct (deleteMin_ok i ch e s h Hok E) as (h' & -> & Hok' & P'). exists h'.
      split_and!; [done..|]. by rewrite <- entries_elements, P', entries_elements.
  - unfold deleteMin_item, findMin, isEmpty.
    destruct Hcase as [[E ->]|(i & ch & e & s & l' & E & -> & P)].
    + exists h. split; [by rewrite E|done].
    + rewrite E. simpl. destruct (deleteMin_ok i ch e s h Hok E) as (h' & -> & Hok' & P').
      exists h'. split_and!; [done..|]. by rewrite <- entries_elements, P', entries_elements.
  - exists h. unfold isEmpty.
    by destruct Hcase as [[E ->]|(i & ch & e & s & l' & E & -> & P)]; (split; [rewrite E|]).
  - eexists. split; [done|]. unfold makeEmpty. rewrite pairing_reclaim_nil. split; [|done].
    split; [by left|constructor|constructor].
Qed.

(** ** decreaseKey *)

Lemma element_at_elem p t x : element_at p t = Some x → (p, x) ∈ entries t.
Proof.
  induction t as [|i c IHc e s IHs]; simpl; [done|]. destruct (decide (i = p)) as [->|].
  - intros [= ->]. apply elem_of_app. right. constructor.
  - rewrite elem_of_app, elem_of_cons. destruct (element_at p c); [intros [= ->]; auto|auto].
Qed.
Lemma element_at_None p t : element_at p t = None → unlink p t = None.
Proof.
  induction t as [|i c IHc e s IHs]; simpl; [done|]. destruct (decide (i = p)); [done|].
  destruct (element_at p c); [done|]. intros Es. by rewrite IHc, IHs.
Qed.

Lemma unlink_ok p t x :
  ordered t → element_at p t = Some x →
  ∃ t' c, unlink p t = Some (t', Node p c x Nil) ∧ ordered t' ∧ single (Node p c x Nil) ∧
          entries t ≡ₚ entries t' ++ entries (Node p c x Nil).
Proof.
  induction t as [|i c IHc e s IHs]; simpl; [done|]. intros (He & Hc & Hs) E.
  destruct (decide (i = p)) as [->|Hne].
  - simplify_eq. exists s, c. split_and!; try done. solve_Permutation.
  - destruct (element_at p c) as [y|] eqn:Ec.
    + simplify_eq. destruct (IHc Hc eq_refl) as (c' & d & -> & Hc' & Hd & P).
      exists (Node i c' e s), d. split; [done|]. split; [|split].
      * simpl. split_and!; [|done..]. rewrite <- !entries_elements in *.
        rewrite P, fmap_app in He. by apply Forall_app in He as [? _].
      * exact Hd.
      * simpl in *. rewrite P. solve_Permutation.
    + rewrite (element_at_None p c Ec). destruct (IHs Hs E) as (s' & d & -> & Hs' & Hd & P).
      exists (Node i c e s'), d. split; [done|]. split; [done|]. split; [exact Hd|].
      simpl in *. rewrite P. solve_Permutation.
Qed.

Lemma decreaseKey_ok p newVal h x :
  heap_ok h → element_at p (root h) = Some x → klt x newVal = false →
  ∃ h' rest, decreaseKey p newVal h = Some (true, h') ∧ heap_ok h' ∧
    entries (root h) ≡ₚ (p, x) :: rest ∧ entries (root h') ≡ₚ (p, newVal) :: rest.
Proof.
  intros Hok Ex Hle. unfold decreaseKey. rewrite Ex. simpl. rewrite Hle.
  pose proof Hok as [[Hr|Hs] Hi Hf]; [by rewrite Hr in Ex|].
  assert (∃ r rest, (if is_root p h then Some (set_element newVal (root h))
            else '(t, n) ← unlink p (root h); compareAndLink t (set_element newVal n)) = Some r ∧
          single r ∧ entries (root h) ≡ₚ (p, x) :: rest ∧ entries r ≡ₚ (p, newVal) :: rest)
    as (r & rest & Er & Sr & P1 & P2).
  { unfold is_root. destruct (root h) as [|i c e s] eqn:Eroot; [done|].
    destruct (bool_decide_reflect (i = p)) as [->|Hne].
    - simpl in Ex. rewrite decide_True in Ex by done. simplify_eq.
      destruct Hs as (He & Hc & ->). exists (Node p c newVal Nil), (entries c). split_and!; try done.
      + simpl. split_and!; try done. eapply Forall_impl; [exact He|]. intros y. by apply le_trans.
      + simpl. solve_Permutation.
      + simpl. solve_Permutation.
    - pose proof Hs as (He & Hc & ->). simpl in Ex. rewrite decide_False in Ex by done.
      destruct (element_at p c) as [y|] eqn:Ec; [|done]. simplify_eq.
      destruct (unlink_ok p c x Hc Ec) as (c' & d & E & Hc' & (Hd & Od & _) & P).
      simpl. rewrite decide_False, E by done. simpl.
      destruct (link_ok (Node i c' e Nil) (Node p d newVal Nil)) as (r & Er & Sr & Pr).
      { simpl. split_and!; [|done..]. rewrite <- !entries_elements in *.
        rewrite P, fmap_app in He. by apply Forall_app in He as [? _]. }
      { simpl. split_and!; try done. eapply Forall_impl; [exact Hd|]. intros y. by apply le_trans. }
      exists r, ((i, e) :: entries c' ++ entries d). split_and!; [done..| |].
      + rewrite P. simpl. solve_Permutation.
      + rewrite Pr. simpl. solve_Permutation. }
  exists {| root := r; fresh := fresh h |}, rest. split_and!; [|split|done..].
  - destruct (is_root p h); [by simplify_eq|].
    destruct (unlink p (root h)) as [[t n]|]; [|done]. simpl in *. by rewrite Er.
  - by right.
  - cbn [root]. rewrite P2. rewrite P1 in Hi. done.
  - cbn [root fresh]. rewrite P2. rewrite P1 in Hf. apply Forall_cons in Hf as [? ?]. by constructor.
Qed.

Lemma clone_elements t n : elements (clone t n).1 = elements t.
Proof.
  revert n. induction t as [|i c IHc e s IHs]; intros n; simpl; [done|].
  specialize (IHc (S n)). destruct (clone c (S n)) as [c' n1].
  specialize (IHs n1). destruct (clone s n1) as [s' n2]. simpl in *. by rewrite IHc, IHs.
Qed.

#[export] Instance pairing_impl : HeapImpl K heap := {
  exec := call_heap;
  items h := elements (root h);
  ok := heap_ok;
  exec_ok := pairing_call_heap_ok;
}.
End pairing.

(** PairingHeap is a priority queue with positions: after any calls of a
    client the answers were those of a sorted list with duplicates, without a
    null pointer dereference; the copy has the same items; and decreaseKey at
    the position of an item changes just this item, which keeps its position,
    or throws and changes nothing when the new value is larger. *)
Lemma pairing_implements_priority_queue `{KeyOrder K} (cs : list (call K)) :
  ∃ h : heap, exec_run cs construct = Some ((spec_run cs []).1, h) ∧
    elements (root h) ≡ₚ (spec_run cs []).2 ∧
    elements (clone (root h) (fresh h)).1 = elements (root h) ∧
    ∀ p x newVal, element_at p (root h) = Some x →
      if klt x newVal then decreaseKey p newVal h = Some (false, h)
      else ∃ h' rest, decreaseKey p newVal h = Some (true, h') ∧ heap_ok h' ∧
             entries (root h) ≡ₚ (p, x) :: rest ∧ entries (root h') ≡ₚ (p, newVal) :: rest.
Proof.
  destruct (queue_run_ok (T:=heap) cs construct []) as (h & E & Hok & P);
    [by repeat constructor|constructor|done|].
  exists h. split_and!; [done..|apply clone_elements|]. intros p x newVal Ex.
  destruct (klt x newVal) eqn:El; [|by eapply decreaseKey_ok].
  unfold decreaseKey. rewrite Ex. simpl. by rewrite El.
Qed.

End PairingHeap.
