(* ===== verification/BinomialQueue.v ===== *)
(** * BinomialQueue: codeC++11/BinomialQueue.h

    A vector of heap-ordered binomial trees, at most one of each order, linked
    by first child and next sibling: the left subtree of a node is its
    [leftChild], the right one its [nextSibling].  [None] is a null pointer
    dereference, an index outside of the vector, or the end of the fuel.  The
    [int] counters are unbounded here: the queues hold less than 2^30 items. *)
From S2P Require Import Prelude StdMap BinTree HeapContract.
Import BinTree HeapContract.

Module BinomialQueue.
Section binomial.
Context {K : Type} `{KeyOrder K}.

Abbreviation BinomialNode := (tree () K).
Implicit Types t c s : BinomialNode.

Record queue := mk_queue {
  theTrees : list BinomialNode;
  currentSize : Z;
}.

Definition DEFAULT_TREES : nat := 1.

Definition construct : queue :=
  {| theTrees := replicate DEFAULT_TREES Nil; currentSize := 0 |}.
Definition construct_item (item : K) : queue :=
  {| theTrees := [Node () Nil item Nil]; currentSize := 1 |}.

Definition isEmpty (q : queue) : bool := currentSize q =? 0.

Definition capacity (trees : list BinomialNode) : Z := Z.shiftl 1 (zlen trees) - 1.

(** [t2->nextSibling = t1->leftChild; t1->leftChild = t2] *)
Definition link t1 t2 : option BinomialNode :=
  match t1, t2 with
  | Node _ c1 e1 s1, Node _ c2 e2 _ => Some (Node () (Node () c2 e2 c1) e1 s1)
  | _, _ => None
  end.

(** The recursive call swaps the trees once. *)
Fixpoint combineTrees (fuel : nat) t1 t2 : option BinomialNode :=
  match fuel with
  | O => None
  | S fuel =>
      e1 ← root_element t1;
      e2 ← root_element t2;
      if klt e2 e1 then combineTrees fuel t2 t1 else link t1 t2
  end.

(** ** merge *)

(** One round of the loop at index [i]: the new [theTrees[i]], whether
    [rhs.theTrees[i]] is cleared, and the new [carry]. *)
Definition merge_step t1 t2 carry : option (BinomialNode * bool * BinomialNode) :=
  match is_nil t1, is_nil t2, is_nil carry with
  | true, true, true => Some (t1, false, carry)
  | false, true, true => Some (t1, false, carry)
  | true, false, true => Some (t2, true, carry)
  | true, true, false => Some (carry, false, Nil)
  | false, false, true => carry ← combineTrees 2 t1 t2; Some (Nil, true, carry)
  | false, true, false => carry ← combineTrees 2 t1 carry; Some (Nil, false, carry)
  | true, false, false => carry ← combineTrees 2 t2 carry; Some (t1, true, carry)
  | false, false, false => c ← combineTrees 2 t1 t2; Some (carry, true, c)
  end.

Fixpoint merge_loop (fuel : nat) (i : nat) (j n : Z) (trees rhs : list BinomialNode) carry :
    option (list BinomialNode * list BinomialNode) :=
  if j <=? n then
    match fuel with
    | O => None
    | S fuel =>
        t1 ← trees !! i;
        let t2 := default Nil (rhs !! i) in
        match merge_step t1 t2 carry with
        | None => None
        | Some (t, clear, carry) =>
            merge_loop fuel (S i) (j * 2) n (<[i := t]> trees)
              (if clear then <[i := Nil]> rhs else rhs) carry
        end
    end
  else Some (trees, rhs).

(** This queue and [rhs] afterwards, for two different queues. *)
Definition merge (q rhs : queue) : option (queue * queue) :=
  let n := currentSize q + currentSize rhs in
  let trees :=
    if capacity (theTrees q) <? n then
      let newNumTrees := S (length (theTrees q) `max` length (theTrees rhs)) in
      theTrees q ++ replicate (newNumTrees - length (theTrees q)) Nil
    else theTrees q in
  '(trees, rtrees) ← merge_loop (length trees) 0 1 n trees (theTrees rhs) Nil;
  Some ({| theTrees := trees; currentSize := n |},
        {| theTrees := (λ _, Nil) <$> rtrees; currentSize := 0 |}).

(** ** The other public functions *)

(** The two loops of [findMinIndex]. *)
Fixpoint first_tree (i : nat) (trees : list BinomialNode) : option nat :=
  match trees with
  | [] => None
  | t :: trees => if is_nil t then first_tree (S i) trees else Some i
  end.
Fixpoint min_tree (trees : list BinomialNode) (i minIndex : nat) (rest : list BinomialNode) :
    option nat :=
  match rest with
  | [] => Some minIndex
  | t :: rest =>
      match root_element t with
      | None => min_tree trees (S i) minIndex rest
      | Some e =>
          m ← trees !! minIndex;
          e' ← root_element m;
          min_tree trees (S i) (if klt e e' then i else minIndex) rest
      end
  end.
Definition findMinIndex (trees : list BinomialNode) : option nat :=
  i ← first_tree 0 trees;
  min_tree trees i i (drop i trees).

Definition findMin (q : queue) : option (answer K) :=
  if isEmpty q then Some Underflow
  else
    i ← findMinIndex (theTrees q);
    t ← theTrees q !! i;
    Item <$> root_element t.

Definition insert (x : K) (q : queue) : option queue :=
  '(q, _) ← merge q (construct_item x); Some q.

(** The loop over [j]: the children of the deleted root become trees. *)
Fixpoint split_children (j : nat) deletedTree (trees : list BinomialNode) :
    option (list BinomialNode) :=
  match j with
  | O => Some trees
  | S j =>
      match deletedTree with
      | Nil => None
      | Node _ c e s => split_children j s (<[j := Node () c e Nil]> trees)
      end
  end.

Definition deleteMin_item (q : queue) : option (answer K * queue) :=
  if isEmpty q then Some (Underflow, q)
  else
    minIndex ← findMinIndex (theTrees q);
    oldRoot ← theTrees q !! minIndex;
    match oldRoot with
    | Nil => None
    | Node _ deletedTree minItem _ =>
        dtrees ← split_children minIndex deletedTree (replicate minIndex Nil);
        let dsize := Z.shiftl 1 (Z.of_nat minIndex) - 1 in
        '(q, _) ← merge {| theTrees := <[minIndex := Nil]> (theTrees q);
                           currentSize := currentSize q - (dsize + 1) |}
                        {| theTrees := dtrees; currentSize := dsize |};
        Some (Item minItem, q)
    end.

Definition deleteMin (q : queue) : option (answer K * queue) :=
  '(a, q) ← deleteMin_item q;
  Some (match a with Item _ => Done | a => a end, q).

Fixpoint makeEmpty_node t : BinomialNode :=
  match t with
  | Nil => Nil
  | Node _ c _ s => let c := makeEmpty_node c in let s := makeEmpty_node s in Nil
  end.
Definition makeEmpty (q : queue) : queue :=
  {| theTrees := makeEmpty_node <$> theTrees q; currentSize := 0 |}.

Fixpoint clone_node t : BinomialNode :=
  match t with
  | Nil => Nil
  | Node _ c e s => Node () (clone_node c) e (clone_node s)
  end.
Definition clone (rhs : queue) : queue :=
  {| theTrees := clone_node <$> theTrees rhs; currentSize := currentSize rhs |}.

Definition call_queue (c : call K) (q : queue) : option (answer K * queue) :=
  match c with
  | Insert x => q ← insert x q; Some (Done, q)
  | FindMin => a ← findMin q; Some (a, q)
  | DeleteMin => deleteMin q
  | DeleteMinItem => deleteMin_item q
  | IsEmpty => Some (Answer (isEmpty q), q)
  | MakeEmpty => Some (Done, makeEmpty q)
  end.

(** ** Binomial trees *)

(** [t] holds the [k] children of a node with item [e]: binomial trees of
    orders k-1, ..., 0, linked as siblings. *)
Fixpoint children (e : K) (k : nat) t : Prop :=
  match k, t with
  | O, Nil => True
  | S k, Node _ c e' s => le e e' ∧ children e' k c ∧ children e k s
  | _, _ => False
  end.

(** A binomial tree of order [k], a root. *)
Definition binomial (k : nat) t : Prop :=
  match t with
  | Nil => False
  | Node _ c e s => children e k c ∧ s = Nil
  end.

(** One tree of each order from [k] on, or none. *)
Fixpoint forest (k : nat) (trees : list BinomialNode) : Prop :=
  match trees with
  | [] => True
  | t :: trees => (t = Nil ∨ binomial k t) ∧ forest (S k) trees
  end.

Definition tree_items (trees : list BinomialNode) : list K := concat (elements <$> trees).

Lemma children_size e k t : children e k t → zlen (elements t) = 2 ^ Z.of_nat k - 1.
Proof.
  revert e t. induction k as [|k IH]; intros e [|[] c e' s]; try done.
  intros (_ & Hc & Hs). apply IH in Hc, Hs. cbn [elements]. autorewrite with zlist.
  rewrite Hc, Hs, Nat2Z.inj_succ, Z.pow_succ_r by lia. lia.
Qed.

Lemma children_le e k t : children e k t → Forall (le e) (elements t).
Proof.
  revert e t. induction k as [|k IH]; intros e [|[] c e' s]; try done.
  intros (He & Hc & Hs). apply IH in Hc, Hs. cbn [elements].
  apply Forall_app. split; [|by constructor].
  eapply Forall_impl; [exact Hc|]. intros y. by apply le_trans.
Qed.

Lemma binomial_size k t : binomial k t → zlen (elements t) = 2 ^ Z.of_nat k.
Proof.
  destruct t as [|[] c e s]; [done|]. intros [Hc ->]. apply children_size in Hc.
  cbn [elements]. autorewrite with zlist. rewrite Hc. lia.
Qed.

Lemma combine_ok k t1 t2 :
  binomial k t1 → binomial k t2 →
  ∃ t, combineTrees 2 t1 t2 = Some t ∧ binomial (S k) t ∧
       elements t ≡ₚ elements t1 ++ elements t2.
Proof.
  destruct t1 as [|[] c1 e1 s1], t2 as [|[] c2 e2 s2]; try done.
  intros [H1 ->] [H2 ->]. cbn [combineTrees root_element mbind option_bind].
  destruct (le_cases e2 e1) as [[E Hle]|[E Hle]]; rewrite E.
  - unfold le in Hle. rewrite Hle. eexists. split; [done|]. simpl. split; [done|solve_Permutation].
  - eexists. split; [done|]. simpl. split; [done|solve_Permutation].
Qed.

Lemma merge_step_ok k t1 t2 carry :
  t1 = Nil ∨ binomial k t1 → t2 = Nil ∨ binomial k t2 → carry = Nil ∨ binomial k carry →
  ∃ t clear carry', merge_step t1 t2 carry = Some (t, clear, carry') ∧
    (t = Nil ∨ binomial k t) ∧ (carry' = Nil ∨ binomial (S k) carry') ∧
    elements t ++ elements carry' ≡ₚ elements t1 ++ elements t2 ++ elements carry.
Proof.
  intros H1 H2 H3. unfold merge_step.
  assert (∀ t, t = Nil ∨ binomial k t → is_nil t = true ∧ t = Nil ∨ is_nil t = false ∧ binomial k t)
    as Hd by (intros [|[] ? ? ?] [|]; auto; done).
  destruct (Hd _ H1) as [[-> ->]|[-> B1]], (Hd _ H2) as [[-> ->]|[-> B2]],
    (Hd _ H3) as [[-> ->]|[-> B3]]; clear Hd.
  1, 2, 3, 5: do 3 eexists; split; [done|]; simpl; rewrite ?app_nil_r; auto.
  - destruct (combine_ok k t2 carry B2 B3) as (t & -> & Bt & P). simpl.
    do 3 eexists. split; [done|]. simpl. auto.
  - destruct (combine_ok k t1 carry B1 B3) as (t & -> & Bt & P). simpl.
    do 3 eexists. split; [done|]. simpl. auto.
  - destruct (combine_ok k t1 t2 B1 B2) as (t & -> & Bt & P). simpl.
    do 3 eexists. split; [done|]. simpl. rewrite app_nil_r. auto.
  - destruct (combine_ok k t1 t2 B1 B2) as (t & -> & Bt & P). simpl.
    do 3 eexists. split; [done|]. split_and!; [by right..|]. rewrite P. solve_Permutation.
Qed.

(** ** The merge loop *)

Lemma forest_app k l1 l2 : forest k (l1 ++ l2) ↔ forest k l1 ∧ forest (k + length l1) l2.
Proof.
  revert k. induction l1 as [|t l1 IH]; intros k; simpl.
  - rewrite Nat.add_0_r. tauto.
  - rewrite IH. replace (S k + length l1)%nat with (k + S (length l1))%nat by lia. tauto.
Qed.

Lemma forest_nils k n : forest k (replicate n Nil).
Proof. revert k. induction n; simpl; auto. Qed.

Lemma forest_lookup k trees i t :
  forest k trees → trees !! i = Some t → t = Nil ∨ binomial (k + i) t.
Proof.
  revert k i. induction trees as [|t' trees IH]; intros k [|i]; simpl; try done.
  - intros [Ht _] [= ->]. by rewrite Nat.add_0_r.
  - intros [_ Hf] Hi. rewrite Nat.add_succ_r. by apply (IH (S k)).
Qed.

Lemma tree_items_app l1 l2 : tree_items (l1 ++ l2) = tree_items l1 ++ tree_items l2.
Proof. unfold tree_items. by rewrite fmap_app, concat_app. Qed.
Lemma tree_items_cons t l : tree_items (t :: l) = elements t ++ tree_items l.
Proof. done. Qed.
Lemma tree_items_nils n : tree_items (replicate n Nil) = [].
Proof. induction n; [done|exact IHn]. Qed.

(** Trees of orders that are too large for the number of items are absent. *)
Lemma forest_small k trees :
  forest k trees → zlen (tree_items trees) < 2 ^ Z.of_nat k → tree_items trees = [].
Proof.
  revert k. induction trees as [|t trees IH]; intros k; [done|].
  rewrite tree_items_cons. intros [[->|Ht] Hf] Hn; autorewrite with zlist in Hn.
  - apply (IH (S k)); [done|]. rewrite Nat2Z.inj_succ, Z.pow_succ_r by lia.
    simpl in Hn. pose proof (Z.pow_pos_nonneg 2 (Z.of_nat k)). lia.
  - apply binomial_size in Ht. zlia.
Qed.

(** The trees of all orders below [i] are at most so many items. *)
Lemma forest_bound k trees :
  forest k trees → zlen (tree_items trees) <= 2 ^ Z.of_nat (k + length trees) - 2 ^ Z.of_nat k.
Proof.
  revert k. induction trees as [|t trees IH]; intros k; simpl.
  { rewrite Nat.add_0_r. zlia. }
  intros [Ht Hf]. apply IH in Hf. rewrite tree_items_cons. autorewrite with zlist.
  replace (k + S (length trees))%nat with (S k + length trees)%nat by lia.
  rewrite (Nat2Z.inj_succ k), Z.pow_succ_r in Hf by lia.
  assert (zlen (elements t) <= 2 ^ Z.of_nat k).
  { destruct Ht as [->|Ht]; [|by rewrite (binomial_size k)].
    simpl. pose proof (Z.pow_pos_nonneg 2 (Z.of_nat k)). zlia. }
  lia.
Qed.

Lemma merge_loop_ok T : ∀ fuel i n pre rhs carry,
  length pre = i → forest i T → forest i (drop i rhs) → carry = Nil ∨ binomial i carry →
  n = zlen (tree_items pre) + zlen (tree_items T) + zlen (tree_items (drop i rhs)) +
      zlen (elements carry) →
  n < 2 ^ Z.of_nat (i + length T) → (length T <= fuel)%nat →
  ∃ T' rhs', merge_loop fuel i (2 ^ Z.of_nat i) n (pre ++ T) rhs carry = Some (pre ++ T', rhs') ∧
    forest i T' ∧ length rhs' = length rhs ∧ length T' = length T ∧
    tree_items T' ≡ₚ tree_items T ++ tree_items (drop i rhs) ++ elements carry.
Proof.
  induction T as [|t1 T IH]; intros fuel i n pre rhs carry Hi HT HR Hc Hn Hb Hf.
  - simpl in Hb. rewrite Nat.add_0_r in Hb. exists [], rhs.
    assert (elements carry = []) as ->.
    { destruct Hc as [->|Hc]; [done|]. apply binomial_size in Hc. zlia. }
    rewrite (forest_small i (drop i rhs)) by (done || zlia).
    destruct fuel; simpl; rewrite (proj2 (Z.leb_gt _ _)) by done; done.
  - destruct HT as [Ht1 HT]. destruct (Z.leb_spec (2 ^ Z.of_nat i) n) as [Hle|Hgt].
    + destruct fuel as [|fuel]; [simpl in Hf; lia|]. cbn [merge_loop].
      rewrite (proj2 (Z.leb_le _ _)) by done. rewrite (list_lookup_middle _ _ _ i) by done. simpl.
      assert (∃ t2, default Nil (rhs !! i) = t2 ∧ (t2 = Nil ∨ binomial i t2) ∧
        forest (S i) (drop (S i) rhs) ∧
        tree_items (drop i rhs) = elements t2 ++ tree_items (drop (S i) rhs))
        as (t2 & E2 & Ht2 & HR' & Ei2).
      { destruct (rhs !! i) as [t2|] eqn:El; simpl; eexists; (split; [done|]).
        - rewrite (drop_S rhs t2 i El) in *. destruct HR. by split_and!.
        - apply lookup_ge_None in El. rewrite !drop_ge by lia. split_and!; [by left|done..]. }
      rewrite E2. destruct (merge_step_ok i t1 t2 carry Ht1 Ht2 Hc)
        as (t & clear & carry' & -> & Ht & Hc' & P).
      set (rhs2 := if clear then <[i:=Nil]> rhs else rhs).
      assert (drop (S i) rhs2 = drop (S i) rhs ∧ length rhs2 = length rhs) as [Ed El].
      { unfold rhs2. destruct clear; [|done]. rewrite length_insert, drop_insert_lt by lia. done. }
      rewrite insert_app_r_alt, Hi, Nat.sub_diag by lia. simpl.
      replace (pre ++ t :: T) with ((pre ++ [t]) ++ T) by by rewrite <- (assoc_L (++)).
      destruct (IH fuel (S i) n (pre ++ [t]) rhs2 carry') as (T' & rhs' & E & HT' & Er & ElT & P').
      * rewrite length_app. simpl. lia.
      * done.
      * by rewrite Ed.
      * done.
      * rewrite Ed, Hn, Ei2, tree_items_app, !tree_items_cons.
        apply Permutation_length in P. rewrite !length_app in P. autorewrite with zlist. unfold zlen in *. simpl. lia.
      * simpl in Hb. by rewrite Nat.add_succ_r in Hb.
      * simpl in Hf. lia.
      * rewrite Nat2Z.inj_succ, Z.pow_succ_r in E by lia.
        rewrite (Z.mul_comm 2) in E. rewrite E.
        exists (t :: T'), rhs'. rewrite <- (assoc_L (++)). simpl. split_and!; [done..|lia|lia|].
        rewrite !tree_items_cons, P', Ed, Ei2.
        transitivity ((elements t ++ elements carry') ++ tree_items T ++ tree_items (drop (S i) rhs));
          [solve_Permutation|]. rewrite P. solve_Permutation.
    + exists (t1 :: T), rhs. rewrite (forest_small i (drop i rhs)) by (done || zlia).
      assert (elements carry = []) as ->.
      { destruct Hc as [->|Hc]; [done|]. apply binomial_size in Hc. zlia. }
      rewrite app_nil_r.
      destruct fuel; simpl; rewrite (proj2 (Z.leb_gt _ _)) by done; done.
Qed.

(** ** Queues *)

Record queue_ok (q : queue) : Prop := {
  qok_forest : forest 0 (theTrees q);
  qok_size : currentSize q = zlen (tree_items (theTrees q));
}.

Lemma all_nil_items (trees : list BinomialNode) : tree_items ((λ _, Nil) <$> trees) = [].
Proof. induction trees; [done|]. csimpl. by rewrite tree_items_cons. Qed.

Lemma binomial_merge_ok q rhs :
  queue_ok q → queue_ok rhs →
  ∃ q' rhs', merge q rhs = Some (q', rhs') ∧ queue_ok q' ∧
    tree_items (theTrees q') ≡ₚ tree_items (theTrees q) ++ tree_items (theTrees rhs) ∧
    currentSize rhs' = 0 ∧ tree_items (theTrees rhs') = [].
Proof.
  intros [F1 N1] [F2 N2]. unfold merge.
  set (n := currentSize q + currentSize rhs).
  pose proof (forest_bound 0 _ F1) as B1. pose proof (forest_bound 0 _ F2) as B2. simpl in B1, B2.
  assert (∃ T, (if capacity (theTrees q) <? n
    then theTrees q ++ replicate (S (length (theTrees q) `max` length (theTrees rhs)) -
           length (theTrees q)) Nil else theTrees q) = T ∧ forest 0 T ∧
    tree_items T = tree_items (theTrees q) ∧ n < 2 ^ Z.of_nat (length T)) as (T & -> & FT & IT & BT).
  { unfold capacity, zlen. rewrite Z.shiftl_1_l.
    destruct (Z.ltb_spec (2 ^ Z.of_nat (length (theTrees q)) - 1) n); eexists; (split; [done|]).
    - rewrite tree_items_app, tree_items_nils, app_nil_r, forest_app. split_and!; [done| |done|].
      + apply forest_nils.
      + rewrite length_app, length_replicate.
        replace (_ + _)%nat with (S (length (theTrees q) `max` length (theTrees rhs))) by lia.
        rewrite Nat2Z.inj_succ, Z.pow_succ_r by lia.
        assert (2 ^ Z.of_nat (length (theTrees q)) <=
                2 ^ Z.of_nat (length (theTrees q) `max` length (theTrees rhs)))
          by (apply Z.pow_le_mono_r; lia).
        assert (2 ^ Z.of_nat (length (theTrees rhs)) <=
                2 ^ Z.of_nat (length (theTrees q) `max` length (theTrees rhs)))
          by (apply Z.pow_le_mono_r; lia). lia.
    - split_and!; [done..|lia]. }
  destruct (merge_loop_ok T (length T) 0 n [] (theTrees rhs) Nil)
    as (T' & rhs' & E & F' & _ & _ & P); try done; [by left| |].
  { unfold n. rewrite IT, N1, N2, drop_0. change (tree_items []) with (@nil K).
    cbn [elements]. rewrite !zlen_nil. lia. }
  change (2 ^ Z.of_nat 0) with 1 in E. simpl in E. rewrite E. simpl.
  rewrite drop_0, app_nil_r, IT in P. do 2 eexists. split; [done|]. cbn [theTrees currentSize].
  split_and!; [split|done|done|apply all_nil_items]; cbn [theTrees currentSize]; [done|].
  apply Permutation_length in P. unfold zlen. rewrite P, length_app. unfold zlen in *. lia.
Qed.

(** The smallest root is the smallest item. *)
Lemma root_min_items trees k e :
  forest k trees → (∀ t e', t ∈ trees → root_element t = Some e' → le e e') →
  Forall (le e) (tree_items trees).
Proof.
  revert k. induction trees as [|t trees IH]; intros k; [constructor|].
  rewrite tree_items_cons. intros [Ht Hf] Hmin. apply Forall_app. split.
  - destruct Ht as [->|Ht]; [constructor|]. destruct t as [|[] c e' s]; [done|].
    destruct Ht as [Hc ->]. assert (le e e') as He by (eapply Hmin; [constructor|done]).
    apply children_le in Hc. simpl. apply Forall_app. split; [|by constructor].
    eapply Forall_impl; [exact Hc|]. intros y. by apply le_trans.
  - apply (IH (S k) Hf). intros t' e' Hin. apply Hmin. by constructor.
Qed.

Lemma drop_cons_inv {A} (l : list A) i x k :
  drop i l = x :: k → l !! i = Some x ∧ drop (S i) l = k.
Proof.
  intros Hd. split.
  - pose proof (lookup_drop l i 0) as E. by rewrite Nat.add_0_r, Hd in E.
  - replace (S i) with (i + 1)%nat by lia. by rewrite <- drop_drop, Hd.
Qed.

Lemma min_tree_ok trees i m rest tm em :
  drop i trees = rest → trees !! m = Some tm → root_element tm = Some em →
  ∃ m' tm' em', min_tree trees i m rest = Some m' ∧ trees !! m' = Some tm' ∧
    root_element tm' = Some em' ∧ le em' em ∧
    ∀ t e, t ∈ rest → root_element t = Some e → le em' e.
Proof.
  revert i m tm em. induction rest as [|t rest IH]; intros i m tm em Hd Hm He.
  { exists m, tm, em. split_and!; try done; [apply le_refl|]. intros ? ? Hin. by apply elem_of_nil in Hin. }
  destruct (drop_cons_inv _ _ _ _ Hd) as [Hi Hd'].
  simpl. destruct (root_element t) as [e|] eqn:Et.
  - rewrite Hm. simpl. rewrite He. simpl. destruct (le_cases e em) as [[-> Hle]|[-> Hle]].
    + destruct (IH (S i) i t e Hd' Hi Et) as (m' & tm' & em' & ? & ? & ? & Hl & Hr).
      exists m', tm', em'. split_and!; try done; [by apply (le_trans _ e)|].
      intros t' e' [->|Hin]%elem_of_cons Ht'; [by simplify_eq|by eapply Hr].
    + destruct (IH (S i) m tm em Hd' Hm He) as (m' & tm' & em' & ? & ? & ? & Hl & Hr).
      exists m', tm', em'. split_and!; try done.
      intros t' e' [->|Hin]%elem_of_cons Ht'; [simplify_eq; by apply (le_trans _ em)|by eapply Hr].
  - destruct (IH (S i) m tm em Hd' Hm He) as (m' & tm' & em' & ? & ? & ? & Hl & Hr).
    exists m', tm', em'. split_and!; try done.
    intros t' e' [->|Hin]%elem_of_cons Ht'; [congruence|by eapply Hr].
Qed.

Lemma first_tree_ok trees i :
  tree_items trees ≠ [] →
  ∃ k t, first_tree i trees = Some (i + k)%nat ∧ trees !! k = Some t ∧ is_nil t = false ∧
         Forall (λ t, t = Nil) (take k trees).
Proof.
  revert i. induction trees as [|t trees IH]; intros i Hne; [done|]. simpl.
  destruct (is_nil t) eqn:En.
  - destruct t; [|done]. destruct (IH (S i)) as (k & t & E & Ht & Hn & Hf); [done|].
    exists (S k), t. rewrite Nat.add_succ_r. split_and!; try done; by constructor.
  - exists 0%nat, t. rewrite Nat.add_0_r. by split_and!.
Qed.

Lemma findMinIndex_ok trees :
  forest 0 trees → tree_items trees ≠ [] →
  ∃ m c e s, findMinIndex trees = Some m ∧ trees !! m = Some (Node () c e s) ∧
             Forall (le e) (tree_items trees).
Proof.
  intros Hf Hne. unfold findMinIndex.
  destruct (first_tree_ok trees 0 Hne) as (k & t & E & Ht & Hn & Hpre). simpl in E. rewrite E. simpl.
  destruct t as [|[] c0 e0 s0]; [done|].
  destruct (min_tree_ok trees k k (drop k trees) _ e0 eq_refl Ht eq_refl)
    as (m & tm & em & -> & Hm & Hem & _ & Hmin).
  destruct tm as [|[] c e s]; [done|]. injection Hem as [= ->]. exists m, c, em, s.
  split_and!; [done..|]. apply (root_min_items _ 0); [done|]. intros t e' Hin He'.
  rewrite <- (take_drop k trees) in Hin. apply elem_of_app in Hin as [Hin|Hin].
  - rewrite Forall_forall in Hpre. by rewrite (Hpre t Hin) in He'.
  - by eapply Hmin.
Qed.

(** The children of a root become the trees below its order. *)
Lemma split_children_ok e j t trees :
  children e j t → (j <= length trees)%nat →
  ∃ pre, split_children j t trees = Some (pre ++ drop j trees) ∧ length pre = j ∧
         forest 0 pre ∧ tree_items pre ≡ₚ elements t.
Proof.
  revert t trees. induction j as [|j IH]; intros [|[] c e' s] trees Hc Hj; try done.
  { by exists []. }
  destruct Hc as (He & Hc & Hs). simpl.
  destruct (IH s (<[j := Node () c e' Nil]> trees) Hs) as (pre & -> & Hl & Hf & P).
  { rewrite length_insert. lia. }
  exists (pre ++ [Node () c e' Nil]). split_and!.
  - f_equal. rewrite <- (assoc_L (++)). f_equal.
    destruct (drop j (<[j := Node () c e' Nil]> trees)) as [|t' rest] eqn:Ed.
    + apply (f_equal length) in Ed. rewrite length_drop, length_insert in Ed. simpl in Ed. lia.
    + destruct (drop_cons_inv _ _ _ _ Ed) as [Hj' <-].
      rewrite list_lookup_insert_eq in Hj' by lia. simplify_eq. simpl.
      by rewrite drop_insert_lt by lia.
  - rewrite length_app. simpl. lia.
  - rewrite forest_app. split; [done|]. simpl. rewrite Hl. auto.
  - rewrite tree_items_app, tree_items_cons, P. simpl. unfold tree_items. simpl.
    solve_Permutation.
Qed.

Lemma construct_ok : queue_ok construct.
Proof. split; simpl; [auto|done]. Qed.

Lemma binomial_insert_ok x q :
  queue_ok q →
  ∃ q', insert x q = Some q' ∧ queue_ok q' ∧
        tree_items (theTrees q') ≡ₚ x :: tree_items (theTrees q).
Proof.
  intros Hq. assert (queue_ok (construct_item x)) as Hx by (split; simpl; [auto|done]).
  destruct (binomial_merge_ok q (construct_item x) Hq Hx) as (q' & rhs' & E & Hq' & P & _).
  exists q'. unfold insert. rewrite E. split_and!; [done..|]. rewrite P.
  by rewrite Permutation_app_comm.
Qed.

Lemma tree_items_insert trees i t u :
  trees !! i = Some t → tree_items trees ++ elements u ≡ₚ elements t ++ tree_items (<[i := u]> trees).
Proof.
  revert i. induction trees as [|t' trees IH]; intros [|i]; simpl; try done.
  - intros [= ->]. rewrite !tree_items_cons. solve_Permutation.
  - intros Hi. apply IH in Hi. rewrite !tree_items_cons.
    transitivity (elements t' ++ (tree_items trees ++ elements u)); [solve_Permutation|].
    rewrite Hi. solve_Permutation.
Qed.

Lemma forest_insert k trees i :
  forest k trees → forest k (<[i := Nil]> trees).
Proof.
  revert k i. induction trees as [|t trees IH]; intros k [|i]; simpl; auto.
  - intros [_ Hf]. auto.
  - intros [Ht Hf]. auto.
Qed.

(** Taking the smallest item out of a queue that is not empty. *)
Lemma deleteMin_item_ok q :
  queue_ok q → tree_items (theTrees q) ≠ [] →
  ∃ x q', findMin q = Some (Item x) ∧ deleteMin_item q = Some (Item x, q') ∧ queue_ok q' ∧
    tree_items (theTrees q) ≡ₚ x :: tree_items (theTrees q') ∧
    Forall (le x) (tree_items (theTrees q)).
Proof.
  intros [Hf Hn] Hne. unfold findMin, deleteMin_item, isEmpty.
  assert ((currentSize q =? 0) = false) as ->.
  { apply Z.eqb_neq. rewrite Hn. destruct (tree_items _); [done|]. zlia. }
  destruct (findMinIndex_ok (theTrees q) Hf Hne) as (m & c & e & s & -> & Hm & Hmin). simpl.
  rewrite Hm. simpl. destruct (forest_lookup 0 _ m _ Hf Hm) as [?|[Hc ->]]; [done|]. simpl in Hc.
  destruct (split_children_ok e m c (replicate m Nil) Hc) as (pre & -> & Hl & Hfp & Pp).
  { by rewrite length_replicate. }
  rewrite drop_ge, app_nil_r by by rewrite length_replicate. simpl.
  set (q1 := {| theTrees := <[m:=Nil]> (theTrees q);
                currentSize := currentSize q - (Z.shiftl 1 (Z.of_nat m) - 1 + 1) |}).
  set (q2 := {| theTrees := pre; currentSize := Z.shiftl 1 (Z.of_nat m) - 1 |}).
  pose proof (tree_items_insert _ _ _ Nil Hm) as Pi. simpl in Pi. rewrite app_nil_r in Pi.
  apply children_size in Hc.
  assert (queue_ok q1) as Hq1.
  { split; [by apply forest_insert|]. unfold q1. cbn [theTrees currentSize].
    apply Permutation_length in Pi. rewrite Hn, Z.shiftl_1_l. unfold zlen in *.
    rewrite Pi, !length_app. simpl. lia. }
  assert (queue_ok q2) as Hq2.
  { split; [done|]. unfold q2. cbn [theTrees currentSize]. rewrite Z.shiftl_1_l.
    apply Permutation_length in Pp. unfold zlen in *. rewrite Pp. lia. }
  destruct (binomial_merge_ok q1 q2 Hq1 Hq2) as (q' & rhs' & -> & Hq' & P & _). simpl.
  exists e, q'. split_and!; try done. rewrite P. simpl. rewrite Pp, Pi. solve_Permutation.
Qed.

Lemma makeEmpty_items trees : tree_items (makeEmpty_node <$> trees) = [] ∧ forest 0 (makeEmpty_node <$> trees).
Proof.
  assert (makeEmpty_node <$> trees = replicate (length trees) Nil) as ->.
  { induction trees as [|t trees IH]; csimpl; [done|]. rewrite IH. by destruct t. }
  split; [apply tree_items_nils|apply forest_nils].
Qed.

Lemma clone_node_eq t : clone_node t = t.
Proof. induction t as [|[] c IHc e s IHs]; simpl; [done|]. by rewrite IHc, IHs. Qed.
Lemma clone_queue_eq q : clone q = q.
Proof.
  destruct q as [trees n]. unfold clone. cbn [theTrees currentSize]. f_equal.
  induction trees as [|t trees IH]; csimpl; [done|]. by rewrite clone_node_eq, IH.
Qed.

Lemma call_queue_ok (c : call K) q l :
  queue_ok q → sorted l → tree_items (theTrees q) ≡ₚ l →
  ∃ q', call_queue c q = Some ((spec c l).1, q') ∧ queue_ok q' ∧
        tree_items (theTrees q') ≡ₚ (spec c l).2.
Proof.
  intros Hq Hl Hp.
  assert (l = [] ∧ currentSize q = 0 ∨
    ∃ x l' q', l = x :: l' ∧ currentSize q ≠ 0 ∧ findMin q = Some (Item x) ∧
      deleteMin_item q = Some (Item x, q') ∧ queue_ok q' ∧ tree_items (theTrees q') ≡ₚ l') as Hcase.
  { pose proof Hq as [_ Hn]. destruct (tree_items (theTrees q)) as [|y s] eqn:Ei.
    - left. apply Permutation_nil_l in Hp as <-. by rewrite Hn.
    - right. destruct (deleteMin_item_ok q Hq) as (x & q' & E1 & E2 & Hq' & P & Hmin).
      { by rewrite Ei. }
      rewrite Ei in P, Hmin. rewrite P in Hp, Hmin. apply Forall_cons in Hmin as [_ Hmin].
      destruct (sorted_min x (tree_items (theTrees q')) l Hl Hp Hmin) as (l' & -> & Hp' & _).
      exists x, l', q'. split_and!; try done. rewrite Hn. zlia. }
  destruct c; cbn [call_queue spec fst snd].
  - destruct (binomial_insert_ok x q Hq) as (q' & -> & Hq' & P). exists q'. simpl.
    split_and!; [done..|]. by rewrite P, Hp, ins_perm.
  - exists q. destruct Hcase as [[-> E]|(x & l' & q' & -> & _ & E & _)].
    + unfold findMin, isEmpty. rewrite E. by split.
    + rewrite E. by split.
  - destruct Hcase as [[-> E]|(x & l' & q' & -> & _ & _ & E & Hq' & P)]; unfold deleteMin.
    + exists q. unfold deleteMin_item, isEmpty. rewrite E. by split.
    + exists q'. by rewrite E.
  - destruct Hcase as [[-> E]|(x & l' & q' & -> & _ & _ & E & Hq' & P)].
    + exists q. unfold deleteMin_item, isEmpty. rewrite E. by split.
    + exists q'. by rewrite E.
  - exists q. unfold isEmpty. split; [|by split].
    destruct Hcase as [[-> E]|(x & l' & q' & -> & E & _)]; [by rewrite E|].
    apply Z.eqb_neq in E. by rewrite E.
  - eexists. split; [done|]. destruct (makeEmpty_items (theTrees q)) as [E F].
    split; [split|]; cbn [makeEmpty theTrees currentSize]; by rewrite ?E.
Qed.

#[export] Instance binomial_impl : HeapImpl K queue := {
  exec := call_queue;
  items q := tree_items (theTrees q);
  ok := queue_ok;
  exec_ok := call_queue_ok;
}.
End binomial.

(** BinomialQueue is a priority queue: after any calls of a client on two
    empty queues, no null pointer or index outside of the vectors was used
    and the answers are those of a sorted list with duplicates; merging the
    queues then gives one binomial tree at most of each order and the items
    of both, and leaves the other queue empty; a copy has the same items. *)
Lemma binomial_implements_priority_queue `{KeyOrder K} (cs1 cs2 : list (call K)) :
  ∃ q1 q2 q q' : queue, exec_run cs1 construct = Some ((spec_run cs1 []).1, q1) ∧
    exec_run cs2 construct = Some ((spec_run cs2 []).1, q2) ∧
    tree_items (theTrees q1) ≡ₚ (spec_run cs1 []).2 ∧ clone q1 = q1 ∧
    merge q1 q2 = Some (q, q') ∧ forest 0 (theTrees q) ∧
    tree_items (theTrees q) ≡ₚ (spec_run cs1 []).2 ++ (spec_run cs2 []).2 ∧
    isEmpty q' = true ∧ tree_items (theTrees q') = [].
Proof.
  destruct (queue_run_ok (T:=queue) cs1 construct []) as (q1 & E1 & O1 & P1);
    [apply construct_ok|constructor|done|].
  destruct (queue_run_ok (T:=queue) cs2 construct []) as (q2 & E2 & O2 & P2);
    [apply construct_ok|constructor|done|].
  destruct (binomial_merge_ok q1 q2 O1 O2) as (q & q' & E & [F _] & P & Z0 & N0).
  exists q1, q2, q, q'. split_and!; try done; [apply clone_queue_eq|by rewrite P, P1, P2|].
  unfold isEmpty. by rewrite Z0.
Qed.

End BinomialQueue.
