(* ===== verification/Arrays.v ===== *)
(** * Arrays: std::vector under indexed reads and writes

    A vector is the list of its elements.  A write outside of it is undefined
    behaviour ([None]), like a read ([!!]).  [aswap] exchanges two elements:
    what a sift or a partition step does to the vector. *)
From S2P Require Import Prelude.

Section arrays.
Context {A : Type}.
Implicit Types l : list A.

(** [l[i] = x] *)
Definition aset l (i : nat) (x : A) : option (list A) :=
  if (i <? length l)%nat then Some (<[i := x]> l) else None.

(** [std::swap( l[i], l[j] )] *)
Definition aswap l (i j : nat) : option (list A) :=
  x ← l !! i;
  y ← l !! j;
  l ← aset l i y;
  aset l j x.

Lemma aset_lt l i x : (i < length l)%nat → aset l i x = Some (<[i := x]> l).
Proof. intros. unfold aset. by rewrite (proj2 (Nat.ltb_lt _ _)). Qed.

Context `{Inhabited A}.

Lemma aget_lt l i : (i < length l)%nat → l !! i = Some (l !!! i).
Proof. apply list_lookup_lookup_total_lt. Qed.

(** The exchange as a total function. *)
Definition tswap l (i j : nat) : list A := <[j := l !!! i]> (<[i := l !!! j]> l).

Lemma aswap_lt l i j : (i < length l)%nat → (j < length l)%nat → aswap l i j = Some (tswap l i j).
Proof.
  intros Hi Hj. unfold aswap. rewrite !aget_lt by done. simpl. rewrite aset_lt by done. simpl.
  by rewrite aset_lt by by rewrite length_insert.
Qed.

Lemma length_tswap l i j : length (tswap l i j) = length l.
Proof. unfold tswap. by rewrite !length_insert. Qed.

Lemma lookup_total_insert l i j x :
  (j < length l)%nat → <[i := x]> l !!! j = if decide (i = j) then x else l !!! j.
Proof.
  intros Hj. rewrite list_lookup_total_alt. destruct (decide (i = j)) as [->|Hne].
  - by rewrite list_lookup_insert_eq.
  - by rewrite list_lookup_insert_ne, <- list_lookup_total_alt.
Qed.

Lemma lookup_tswap l i j k :
  (i < length l)%nat → (j < length l)%nat → (k < length l)%nat →
  tswap l i j !!! k = if decide (k = j) then l !!! i else if decide (k = i) then l !!! j else l !!! k.
Proof.
  intros Hi Hj Hk. unfold tswap. rewrite lookup_total_insert by by rewrite length_insert.
  rewrite lookup_total_insert by done. repeat case_decide; subst; done.
Qed.

Lemma tswap_insert l i j x :
  i ≠ j → (i < length l)%nat → (j < length l)%nat →
  <[j := x]> (<[i := l !!! j]> l) = tswap (<[i := x]> l) i j.
Proof.
  intros Hne Hi Hj. unfold tswap. rewrite !lookup_total_insert by done.
  rewrite decide_True, decide_False by done. f_equal. by rewrite list_insert_insert_eq.
Qed.

Lemma list_split_at l i :
  (i < length l)%nat → ∃ l1 l2, l = l1 ++ (l !!! i) :: l2 ∧ length l1 = i.
Proof.
  intros Hi. exists (take i l), (drop (S i) l). split.
  - symmetry. apply take_drop_middle. by apply aget_lt.
  - rewrite length_take. lia.
Qed.

Lemma tswap_perm_lt l i j : (i < j)%nat → (j < length l)%nat → tswap l i j ≡ₚ l.
Proof.
  intros Hij Hj. destruct (list_split_at l i) as (l1 & l' & E & Hl1); [lia|].
  assert (∃ l2 l3, l' = l2 ++ (l !!! j) :: l3 ∧ j = (length l1 + S (length l2))%nat)
    as (l2 & l3 & -> & Ej).
  { assert (l' !! (j - i - 1)%nat = Some (l !!! j)) as Hj'.
    { rewrite <- aget_lt by done. rewrite E, lookup_app_r by lia.
      replace (j - length l1)%nat with (S (j - i - 1)) by lia. done. }
    exists (take (j - i - 1) l'), (drop (S (j - i - 1)) l'). split.
    - symmetry. by apply take_drop_middle.
    - rewrite length_take. apply lookup_lt_Some in Hj'. lia. }
  unfold tswap. generalize dependent (l !!! i). generalize dependent (l !!! j). intros y x ->.
  subst i j. rewrite (insert_app_r_alt _ _ (length l1)), Nat.sub_diag by lia. simpl.
  rewrite insert_app_r. simpl. rewrite (insert_app_r_alt l2), Nat.sub_diag by lia. simpl.
  solve_Permutation.
Qed.

Lemma tswap_same l i : (i < length l)%nat → tswap l i i = l.
Proof.
  intros Hi. unfold tswap. rewrite list_insert_id; [|by rewrite list_lookup_insert_eq].
  apply list_insert_id. by apply aget_lt.
Qed.

Lemma tswap_sym l i j :
  (i < length l)%nat → (j < length l)%nat → tswap l i j = tswap l j i.
Proof.
  intros Hi Hj. destruct (decide (i = j)) as [->|Hne]; [done|].
  unfold tswap. by rewrite list_insert_insert_ne by done.
Qed.

Lemma tswap_perm l i j : (i < length l)%nat → (j < length l)%nat → tswap l i j ≡ₚ l.
Proof.
  intros Hi Hj. destruct (lt_eq_lt_dec i j) as [[Hlt| ->]|Hgt].
  - by apply tswap_perm_lt.
  - by rewrite tswap_same.
  - rewrite tswap_sym by done. by apply tswap_perm_lt.
Qed.

(** The elements at the positions [lo, ..., hi - 1]. *)
Definition slice (lo hi : nat) l : list A := drop lo (take hi l).

Lemma length_slice lo hi l : (hi <= length l)%nat → length (slice lo hi l) = (hi - lo)%nat.
Proof. intros. unfold slice. rewrite length_drop, length_take. lia. Qed.

Lemma slice_insert lo hi l i x :
  (lo <= i < hi)%nat → slice lo hi (<[i := x]> l) = <[(i - lo)%nat := x]> (slice lo hi l).
Proof. intros Hi. unfold slice. by rewrite take_insert_lt, drop_insert_ge by lia. Qed.

Lemma slice_insert_out lo hi l i x :
  (i < lo ∨ hi <= i)%nat → slice lo hi (<[i := x]> l) = slice lo hi l.
Proof.
  intros [Hi|Hi]; unfold slice; [|by rewrite take_insert_ge].
  destruct (decide (i < hi)%nat).
  - by rewrite take_insert_lt, drop_insert_lt by lia.
  - by rewrite take_insert_ge by lia.
Qed.

Lemma slice_lookup lo hi l i :
  (lo + i < hi)%nat → (hi <= length l)%nat → slice lo hi l !!! i = l !!! (lo + i)%nat.
Proof.
  intros Hi Hh. unfold slice. rewrite !list_lookup_total_alt, lookup_drop.
  by rewrite lookup_take_lt by lia.
Qed.

Lemma slice_swap lo hi l i j :
  (lo <= i < hi)%nat → (lo <= j < hi)%nat → (hi <= length l)%nat →
  slice lo hi (tswap l i j) ≡ₚ slice lo hi l.
Proof.
  intros Hi Hj Hh. unfold tswap. rewrite !slice_insert by lia.
  replace (l !!! i) with (slice lo hi l !!! (i - lo)%nat) by (rewrite slice_lookup by lia; f_equal; lia).
  replace (l !!! j) with (slice lo hi l !!! (j - lo)%nat) by (rewrite slice_lookup by lia; f_equal; lia).
  apply tswap_perm; rewrite length_slice by done; lia.
Qed.

Lemma slice_split lo mid hi l :
  (lo <= mid <= hi)%nat → (hi <= length l)%nat → slice lo hi l = slice lo mid l ++ slice mid hi l.
Proof.
  intros Hm Hh. unfold slice. rewrite <- (take_drop mid (take hi l)) at 1.
  rewrite drop_app_le by (rewrite !length_take; lia). by rewrite take_take, Nat.min_l by lia.
Qed.

Lemma slice_one lo l : (lo < length l)%nat → slice lo (S lo) l = [l !!! lo].
Proof.
  intros Hlo. unfold slice. rewrite (take_S_r _ _ (l !!! lo)) by by apply aget_lt.
  rewrite drop_app_le by (rewrite length_take; lia).
  rewrite drop_ge; [done|]. rewrite length_take. lia.
Qed.

Lemma slice_nil lo hi l : (hi <= lo)%nat → slice lo hi l = [].
Proof. intros. unfold slice. apply drop_ge. rewrite length_take. lia. Qed.

Lemma slice_all l : slice 0 (length l) l = l.
Proof. unfold slice. by rewrite firstn_all. Qed.

(** The list [tmp] with [out] written over it from position [p]. *)
Definition put (p : nat) (out tmp : list A) : list A :=
  take p tmp ++ out ++ drop (p + length out) tmp.

Lemma put_step p x (out tmp : list A) :
  (p < length tmp)%nat → put (S p) out (<[p := x]> tmp) = put p (x :: out) tmp.
Proof.
  intros Hp. unfold put. rewrite (take_S_r _ _ x) by by rewrite list_lookup_insert_eq.
  rewrite take_insert_ge, drop_insert_lt by lia. rewrite <- (assoc_L (++)). simpl.
  by rewrite Nat.add_succ_r.
Qed.

Lemma put_nil p (tmp : list A) : put p [] tmp = tmp.
Proof. unfold put. simpl. by rewrite Nat.add_0_r, take_drop. Qed.

Lemma length_put p (out tmp : list A) :
  (p + length out <= length tmp)%nat → length (put p out tmp) = length tmp.
Proof. intros. unfold put. rewrite !length_app, length_take, length_drop. lia. Qed.

Lemma slice_app_mid (l m r : list A) : slice (length l) (length l + length m) (l ++ m ++ r) = m.
Proof.
  unfold slice. rewrite (assoc_L (++)). rewrite take_app_le by (rewrite length_app; lia).
  rewrite take_ge by (rewrite length_app; lia). by rewrite drop_app_length.
Qed.

Lemma slice_cons_inv lo hi l x r :
  slice lo hi l = x :: r → l !! lo = Some x ∧ slice (S lo) hi l = r ∧ (lo < hi)%nat.
Proof.
  unfold slice. intros E. assert (take hi l !! lo = Some x) as El.
  { rewrite <- (Nat.add_0_r lo), <- lookup_drop. by rewrite E. }
  apply lookup_take_Some in El as [El Hlt]. split; [done|]. split; [|done].
  apply (f_equal (drop 1)) in E. rewrite drop_drop in E. rewrite Nat.add_1_r in E. exact E.
Qed.

Lemma slice_empty_inv lo hi l : (hi <= length l)%nat → slice lo hi l = [] → (hi <= lo)%nat.
Proof. intros Hh E. apply (f_equal length) in E. rewrite length_slice in E by done. simpl in E. lia. Qed.

(** [b] is [a] with the elements at [lo, ..., hi - 1] exchanged. *)
Record within (lo hi : nat) (a b : list A) : Prop := {
  within_length : length b = length a;
  within_before : take lo b = take lo a;
  within_after : drop hi b = drop hi a;
  within_items : slice lo hi b ≡ₚ slice lo hi a;
}.

#[export] Instance within_preorder lo hi : PreOrder (within lo hi).
Proof.
  split; [by intros a; split|]. intros a b c [] []. split; congruence || by etrans.
Qed.

Lemma within_swap lo hi a i j :
  (lo <= i < hi)%nat → (lo <= j < hi)%nat → (hi <= length a)%nat → within lo hi a (tswap a i j).
Proof.
  intros Hi Hj Hh. split; [apply length_tswap| | |by apply slice_swap]; unfold tswap.
  - by rewrite !take_insert_ge by lia.
  - by rewrite !drop_insert_lt by lia.
Qed.

Lemma within_weaken lo hi hi' a b :
  (lo <= hi <= hi')%nat → (hi' <= length a)%nat → within lo hi a b → within lo hi' a b.
Proof.
  intros Hh Hl [Lb Tb Db Pb]. split; [done|done| |].
  - replace hi' with (hi + (hi' - hi))%nat by lia. by rewrite <- !drop_drop, Db.
  - rewrite !(slice_split lo hi hi') by lia. rewrite Pb. unfold slice.
    by rewrite !skipn_firstn_comm, Db.
Qed.

Lemma within_lookup lo hi a b i :
  within lo hi a b → (i < lo)%nat → b !!! i = a !!! i.
Proof.
  intros [_ Ht _ _] Hi. rewrite !list_lookup_total_alt.
  by rewrite <- (lookup_take_lt b lo), Ht, lookup_take_lt by done.
Qed.

Lemma slice_decomp lo hi l :
  (lo <= hi)%nat → (hi <= length l)%nat → l = take lo l ++ slice lo hi l ++ drop hi l.
Proof.
  intros Hl Hh. unfold slice. rewrite (assoc_L (++)).
  replace (take lo l) with (take lo (take hi l)) by (rewrite take_take; f_equal; lia).
  by rewrite !take_drop.
Qed.

Lemma elem_of_slice lo hi l x :
  (hi <= length l)%nat → x ∈ slice lo hi l → ∃ i, (lo <= i < hi)%nat ∧ x = l !!! i.
Proof.
  intros Hh [i Hi]%list_elem_of_lookup. exists (lo + i)%nat.
  pose proof (lookup_lt_Some _ _ _ Hi) as Hlt. rewrite length_slice in Hlt by done.
  split; [lia|]. rewrite <- (slice_lookup lo hi) by lia. rewrite list_lookup_total_alt. by rewrite Hi.
Qed.
End arrays.
