(* ===== verification/BinaryHeap.v ===== *)
(** * BinaryHeap: codeC++11/BinaryHeap.h

    The implicit heap: the items are array[1], ..., array[currentSize], and the
    children of position i are at 2i and 2i+1.  Moving an element copies it
    here: the moved-from value is overwritten before it is read again.
    [None] is an access outside of the vector or the end of the fuel. *)
From Stdlib Require Import ZifyNat.
From S2P Require Import Prelude StdMap HeapContract Arrays.
Import HeapContract.

Module BinaryHeap.

(** Positions are halved: let [lia] see through the division. *)
#[local] Ltac Zify.zify_post_hook ::= Z.to_euclidean_division_equations.

#[local] Arguments Nat.div : simpl never.
#[local] Arguments Nat.mul : simpl never.

Section heap.
(** [dflt] is the default-constructed element. *)
Context {K : Type} `{KeyOrder K} (dflt : K).

Record heap := mk_heap {
  currentSize : nat;
  array : list K;
}.

Definition construct (capacity : nat) : heap :=
  {| currentSize := 0; array := replicate (capacity + 1) dflt |}.

Definition isEmpty (h : heap) : bool := (currentSize h =? 0)%nat.

(** ** Percolation *)

(** The loop of [percolateDown]: the smaller child moves up into the hole. *)
Fixpoint percolate_down (fuel n hole : nat) (tmp : K) (arr : list K) : option (list K) :=
  if (hole * 2 <=? n)%nat then
    match fuel with
    | O => None
    | S fuel =>
        let child := (hole * 2)%nat in
        child ← (if (child =? n)%nat then Some child
                 else r ← arr !! S child; l ← arr !! child;
                      Some (if klt r l then S child else child));
        c ← arr !! child;
        if klt c tmp
        then arr ← aset arr hole c; percolate_down fuel n child tmp arr
        else aset arr hole tmp
    end
  else aset arr hole tmp.

Definition percolateDown (hole n : nat) (arr : list K) : option (list K) :=
  tmp ← arr !! hole;
  percolate_down n n hole tmp arr.

(** [for( int i = currentSize / 2; i > 0; --i )] *)
Fixpoint build_loop (i n : nat) (arr : list K) : option (list K) :=
  match i with
  | O => Some arr
  | S j => arr ← percolateDown i n arr; build_loop j n arr
  end.

Definition buildHeap (h : heap) : option heap :=
  arr ← build_loop (currentSize h / 2) (currentSize h) (array h);
  Some {| currentSize := currentSize h; array := arr |}.

Fixpoint copy_items (i : nat) (items arr : list K) : option (list K) :=
  match items with
  | [] => Some arr
  | x :: items => arr ← aset arr (i + 1) x; copy_items (S i) items arr
  end.

Definition construct_items (items : list K) : option heap :=
  arr ← copy_items 0 items (replicate (length items + 10) dflt);
  buildHeap {| currentSize := length items; array := arr |}.

(** The loop of [insert]: larger parents move down into the hole. *)
Fixpoint percolate_up (fuel hole : nat) (x : K) (arr : list K) : option (nat * list K) :=
  match fuel with
  | O => None
  | S fuel =>
      p ← arr !! (hole / 2)%nat;
      if klt x p then arr ← aset arr hole p; percolate_up fuel (hole / 2) x arr
      else Some (hole, arr)
  end.

(** [array.resize( array.size( ) * 2 )] when the array is full *)
Definition grow (h : heap) : list K :=
  if (currentSize h =? length (array h) - 1)%nat
  then array h ++ replicate (length (array h)) dflt
  else array h.

Definition insert (x : K) (h : heap) : option heap :=
  let hole := S (currentSize h) in
  arr ← aset (grow h) 0 x;
  '(hole, arr) ← percolate_up (S hole) hole x arr;
  x0 ← arr !! 0%nat;
  arr ← aset arr hole x0;
  Some {| currentSize := S (currentSize h); array := arr |}.

(** The overload for rvalues stops at the root by itself. *)
Fixpoint percolate_up_move (fuel hole : nat) (x : K) (arr : list K) : option (nat * list K) :=
  match fuel with
  | O => None
  | S fuel =>
      if (1 <? hole)%nat then
        p ← arr !! (hole / 2)%nat;
        if klt x p then arr ← aset arr hole p; percolate_up_move fuel (hole / 2) x arr
        else Some (hole, arr)
      else Some (hole, arr)
  end.

Definition insert_move (x : K) (h : heap) : option heap :=
  let hole := S (currentSize h) in
  '(hole, arr) ← percolate_up_move (S hole) hole x (grow h);
  arr ← aset arr hole x;
  Some {| currentSize := S (currentSize h); array := arr |}.

(** ** The other public functions *)

Definition findMin (h : heap) : option (answer K) :=
  if isEmpty h then Some Underflow else Item <$> array h !! 1%nat.

Definition deleteMin (h : heap) : option (answer K * heap) :=
  if isEmpty h then Some (Underflow, h)
  else
    x ← array h !! currentSize h;
    arr ← aset (array h) 1 x;
    arr ← percolateDown 1 (currentSize h - 1) arr;
    Some (Done, {| currentSize := currentSize h - 1; array := arr |}).

Definition deleteMin_item (h : heap) : option (answer K * heap) :=
  if isEmpty h then Some (Underflow, h)
  else
    minItem ← array h !! 1%nat;
    x ← array h !! currentSize h;
    arr ← aset (array h) 1 x;
    arr ← percolateDown 1 (currentSize h - 1) arr;
    Some (Item minItem, {| currentSize := currentSize h - 1; array := arr |}).

Definition makeEmpty (h : heap) : heap := {| currentSize := 0; array := array h |}.

Definition call_heap (c : call K) (h : heap) : option (answer K * heap) :=
  match c with
  | Insert x => h ← insert x h; Some (Done, h)
  | FindMin => a ← findMin h; Some (a, h)
  | DeleteMin => deleteMin h
  | DeleteMinItem => deleteMin_item h
  | IsEmpty => Some (Answer (isEmpty h), h)
  | MakeEmpty => Some (Done, makeEmpty h)
  end.

(** ** Heap order *)

#[local] Instance K_inhabited : Inhabited K := populate dflt.
Implicit Types (a b arr : list K) (n hole : nat).

(** Every position whose parent is [k] or later is not below its parent. *)
Definition ordered_from (k n : nat) a : Prop :=
  ∀ i, (2 <= i <= n)%nat → (k <= i / 2)%nat → le (a !!! (i / 2)%nat) (a !!! i).

(** The same but for the children of [hole], which are not below the parent of
    [hole]. *)
Record down_inv (k n hole : nat) a : Prop := {
  down_order i : (2 <= i <= n)%nat → (k <= i / 2)%nat → (i / 2)%nat ≠ hole →
    le (a !!! (i / 2)%nat) (a !!! i);
  down_above i : (2 <= i <= n)%nat → (i / 2)%nat = hole → (2 <= hole)%nat → (k <= hole / 2)%nat →
    le (a !!! (hole / 2)%nat) (a !!! i);
}.

(** The same but for [hole] itself, whose children are not below its parent. *)
Record up_inv (n hole : nat) a : Prop := {
  up_order i : (2 <= i <= n)%nat → i ≠ hole → le (a !!! (i / 2)%nat) (a !!! i);
  up_above i : (2 <= i <= n)%nat → (i / 2)%nat = hole → (2 <= hole)%nat →
    le (a !!! (hole / 2)%nat) (a !!! i);
}.

Lemma down_swap k n hole c a :
  (1 <= hole)%nat → (k <= hole)%nat → (n < length a)%nat → (c <= n)%nat → (c / 2 = hole)%nat →
  (2 <= c)%nat → down_inv k n hole a → le (a !!! c) (a !!! hole) →
  (∀ i, (2 <= i <= n)%nat → (i / 2)%nat = hole → le (a !!! c) (a !!! i)) →
  down_inv k n c (tswap a hole c).
Proof.
  intros H1 Hk Hn Hc Hp H2 [Ho Ha] Hle Hmin. split; intros i Hi.
  - intros Hki Hic. rewrite !lookup_tswap by lia.
    rewrite (decide_False (P := (i / 2)%nat = c)) by done.
    destruct (decide (i / 2 = hole)%nat) as [E|E].
    + destruct (decide (i = c)) as [->|]; [done|].
      rewrite decide_False by lia. by apply Hmin.
    + rewrite decide_False by (intros ->; lia). destruct (decide (i = hole)) as [->|].
      * apply Ha; [lia..|done].
      * by apply Ho.
  - intros E _ _. rewrite !lookup_tswap by lia. rewrite Hp.
    rewrite (decide_False (P := hole = c)), decide_True by lia.
    rewrite decide_False, decide_False by lia. rewrite <- E. apply Ho; lia.
Qed.

Lemma down_done k n hole a :
  down_inv k n hole a →
  (∀ i, (2 <= i <= n)%nat → (i / 2)%nat = hole → le (a !!! hole) (a !!! i)) → ordered_from k n a.
Proof.
  intros [Ho _] Hh i Hi Hk. destruct (decide (i / 2 = hole)%nat) as [E|E]; [|by apply Ho].
  rewrite E. by apply Hh.
Qed.

(** What a percolation makes of the array: the items up to [n] are exchanged. *)
Record percolated (k n : nat) a b : Prop := {
  pc_length : length b = length a;
  pc_items : slice 1 (S n) b ≡ₚ slice 1 (S n) a;
  pc_order : ordered_from k n b;
}.

Lemma percolate_down_ok fuel k n hole tmp arr :
  (1 <= hole)%nat → (k <= hole)%nat → (n < length arr)%nat → (hole < length arr)%nat →
  (n < hole + fuel)%nat ∨ (n < hole * 2)%nat →
  down_inv k n hole (<[hole := tmp]> arr) → (n = 0 ∨ hole <= n)%nat →
  ∃ b, percolate_down fuel n hole tmp arr = Some b ∧ percolated k n (<[hole := tmp]> arr) b.
Proof.
  revert hole arr. induction fuel as [|fuel IH]; intros hole arr H1 Hk Hn Hl Hf Hinv Hh;
    cbn [percolate_down]; destruct (Nat.leb_spec (hole * 2) n) as [Hle|Hgt]; [lia| | |].
  1, 3: rewrite aset_lt by done; eexists; split; [done|]; split; [done..|];
    apply (down_done _ _ hole); [done|]; intros; lia.
  assert (∃ c, (if (hole * 2 =? n)%nat then Some (hole * 2)%nat
     else r ← arr !! S (hole * 2); l ← arr !! (hole * 2)%nat;
          Some (if klt r l then S (hole * 2) else hole * 2)%nat) = Some c ∧
    (2 <= c <= n)%nat ∧ (c / 2 = hole)%nat ∧
    ∀ i, (2 <= i <= n)%nat → (i / 2)%nat = hole → le (arr !!! c) (arr !!! i))
    as (c & -> & Hc & Hp & Hmin).
  { destruct (Nat.eqb_spec (hole * 2) n) as [E|E].
    - exists (hole * 2)%nat. split_and!; [done|lia..|]. intros i Hi Ei.
      replace i with (hole * 2)%nat by lia. apply le_refl.
    - rewrite !aget_lt by lia. simpl. eexists. split; [done|].
      destruct (le_cases (arr !!! S (hole * 2)) (arr !!! (hole * 2)%nat)) as [[-> L]|[-> L]];
        (split; [lia|split; [lia|]]); intros i Hi Ei;
        (assert (i = hole * 2 ∨ i = S (hole * 2))%nat as [-> | ->] by lia); try done; apply le_refl. }
  simpl. rewrite aget_lt by lia. simpl. rewrite aset_lt by done.
  set (b := <[hole:=tmp]> arr) in *.
  assert (∀ i, (i <= n)%nat → i ≠ hole → b !!! i = arr !!! i) as Hb.
  { intros i Hi Hne. unfold b. rewrite lookup_total_insert by lia. by rewrite decide_False. }
  assert (b !!! hole = tmp) as Hbh.
  { unfold b. rewrite lookup_total_insert by lia. by rewrite decide_True. }
  destruct (le_cases (arr !!! c) tmp) as [[-> L]|[-> L]].
  - simpl. assert (<[c:=tmp]> (<[hole:=arr !!! c]> arr) = tswap b hole c) as E
      by (unfold b; apply tswap_insert; lia).
    destruct (IH c (<[hole := arr !!! c]> arr)) as (r & -> & [Lr Pr Or]).
    + lia.
    + lia.
    + by rewrite length_insert.
    + rewrite length_insert. lia.
    + lia.
    + rewrite E. apply down_swap; rewrite ?Hbh, ?Hb by lia; try done; try lia.
      * unfold b. by rewrite length_insert.
      * intros i Hi Ei. rewrite Hb by lia. by apply Hmin.
    + lia.
    + exists r. split; [done|]. rewrite E in *. split; [|rewrite Pr|done].
      * by rewrite Lr, length_tswap.
      * apply slice_swap; unfold b; rewrite ?length_insert; lia.
  - rewrite aset_lt by done. eexists. split; [done|]. split; [done..|]. apply (down_done _ _ hole); [done|].
    intros i Hi Ei. change (<[hole:=tmp]> arr) with b. rewrite Hbh, Hb by lia.
    apply (le_trans _ (arr !!! c)); [done|]. by apply Hmin.
Qed.

Lemma percolateDown_ok k n arr :
  (1 <= k)%nat → (n < length arr)%nat → (k < length arr)%nat → (n = 0 ∨ k <= n)%nat →
  ordered_from (S k) n arr →
  ∃ b, percolateDown k n arr = Some b ∧ percolated k n arr b.
Proof.
  intros Hk Hn Hl Hkn Ho. unfold percolateDown. rewrite aget_lt by done. simpl.
  assert (<[k := arr !!! k]> arr = arr) as E by (apply list_insert_id, aget_lt; done).
  destruct (percolate_down_ok n k n k (arr !!! k) arr) as (b & -> & Hb); try done; try lia.
  - rewrite E. split; [|lia]. intros i Hi Hki Hne. apply Ho; lia.
  - exists b. by rewrite E in Hb.
Qed.

(** ** Building the heap *)

Lemma build_loop_ok i n arr :
  (i <= n / 2)%nat → (n < length arr)%nat → ordered_from (S i) n arr →
  ∃ b, build_loop i n arr = Some b ∧ percolated 1 n arr b.
Proof.
  revert arr. induction i as [|i IH]; intros arr Hi Hn Ho.
  { exists arr. split; [done|]. by split. }
  cbn [build_loop].
  destruct (percolateDown_ok (S i) n arr) as (b & -> & [Lb Pb Ob]); [lia..|done|]. simpl.
  destruct (IH b) as (b' & -> & [Lb' Pb' Ob']); [lia|lia|done|].
  exists b'. split; [done|]. split; [lia|by rewrite Pb', Pb|done].
Qed.

Lemma copy_items_ok i items arr :
  (i + length items < length arr)%nat →
  ∃ b, copy_items i items arr = Some b ∧ length b = length arr ∧
       take (i + 1) b = take (i + 1) arr ∧ slice (i + 1) (i + 1 + length items) b = items.
Proof.
  revert i arr. induction items as [|x items IH]; intros i arr Hl; cbn [copy_items length] in *.
  { exists arr. split_and!; [done..|]. apply slice_nil. lia. }
  rewrite aset_lt by lia. simpl.
  destruct (IH (S i) (<[(i + 1)%nat := x]> arr)) as (b & -> & Lb & Tb & Sb).
  { rewrite length_insert. lia. }
  rewrite length_insert in Lb. exists b. split_and!; [done..| |].
  - apply (f_equal (take (i + 1))) in Tb. rewrite !take_take in Tb.
    rewrite !Nat.min_l in Tb by lia. by rewrite take_insert_ge in Tb by lia.
  - rewrite (slice_split _ (S (i + 1))) by lia. rewrite slice_one by lia. simpl.
    replace (S i + 1)%nat with (S (i + 1)) in * by lia.
    replace (i + 1 + S (length items))%nat with (S (i + 1) + length items)%nat by lia.
    rewrite Sb. f_equal.
    apply (f_equal (λ l, l !!! (i + 1)%nat)) in Tb. rewrite !list_lookup_total_alt in Tb.
    rewrite !lookup_take_lt, <- !list_lookup_total_alt in Tb by lia.
    rewrite Tb, lookup_total_insert by lia. by rewrite decide_True.
Qed.

(** ** Percolating up *)

Lemma up_swap n hole a :
  (2 <= hole <= n)%nat → (n < length a)%nat → up_inv n hole a → le (a !!! hole) (a !!! (hole / 2)%nat) →
  up_inv n (hole / 2) (tswap a hole (hole / 2)).
Proof.
  intros Hh Hn [Ho Ha] Hle. split; intros i Hi.
  - intros Hne. rewrite !lookup_tswap by lia. rewrite (decide_False (P := i = (hole / 2)%nat)) by done.
    destruct (decide (i = hole)) as [->|Hih].
    + by rewrite decide_True by done.
    + destruct (decide (i / 2 = hole / 2)%nat) as [E|E].
      * apply (le_trans _ (a !!! (hole / 2)%nat)); [done|]. rewrite <- E. by apply Ho.
      * destruct (decide (i / 2 = hole)%nat) as [E'|E']; [apply Ha; [done|done|lia]|by apply Ho].
  - intros E H2. rewrite !lookup_tswap by lia.
    rewrite (decide_False (P := (hole / 2 / 2)%nat = (hole / 2)%nat)) by lia.
    rewrite (decide_False (P := (hole / 2 / 2)%nat = hole)) by lia.
    rewrite (decide_False (P := i = (hole / 2)%nat)) by lia.
    assert (le (a !!! (hole / 2 / 2)%nat) (a !!! (hole / 2)%nat)) as Hp by (apply Ho; lia).
    destruct (decide (i = hole)) as [->|Hih]; [done|].
    apply (le_trans _ (a !!! (hole / 2)%nat)); [done|]. rewrite <- E. by apply Ho.
Qed.

Lemma percolate_up_ok fuel n hole x arr :
  (1 <= hole <= n)%nat → (n < length arr)%nat → (hole <= fuel)%nat →
  up_inv n hole (<[hole := x]> arr) →
  ∃ hole' arr', percolate_up_move fuel hole x arr = Some (hole', arr') ∧ (1 <= hole' <= n)%nat ∧
    percolated 1 n (<[hole := x]> arr) (<[hole' := x]> arr').
Proof.
  revert hole arr. induction fuel as [|fuel IH]; intros hole arr Hh Hn Hf Hinv; [lia|].
  cbn [percolate_up_move]. set (b := <[hole:=x]> arr) in *.
  assert (b !!! hole = x) as Hbh.
  { unfold b. rewrite lookup_total_insert by lia. by rewrite decide_True. }
  destruct (Nat.ltb_spec 1 hole) as [Hlt|Hge].
  - rewrite aget_lt by lia. simpl.
    assert (b !!! (hole / 2)%nat = arr !!! (hole / 2)%nat) as Hbp.
    { unfold b. rewrite lookup_total_insert by lia. rewrite decide_False by lia. done. }
    destruct (le_cases x (arr !!! (hole / 2)%nat)) as [[-> L]|[-> L]].
    + rewrite aset_lt by lia. simpl.
      assert (<[(hole / 2)%nat := x]> (<[hole:=arr !!! (hole / 2)%nat]> arr) = tswap b hole (hole / 2))
        as E by (unfold b; apply tswap_insert; lia).
      destruct (IH (hole / 2)%nat (<[hole := arr !!! (hole / 2)%nat]> arr))
        as (hole' & arr' & -> & Hh' & [Lr Pr Or]).
      * lia.
      * by rewrite length_insert.
      * lia.
      * rewrite E. apply up_swap; [lia| |done|by rewrite Hbh, Hbp].
        unfold b. by rewrite length_insert.
      * exists hole', arr'. split_and!; [done|lia|lia|]. rewrite E in *.
        split; [by rewrite Lr, length_tswap| |done].
        rewrite Pr. apply slice_swap; unfold b; rewrite ?length_insert; lia.
    + exists hole, arr. split_and!; [done|lia|lia|]. split; [done..|]. intros i Hi _.
      destruct (decide (i = hole)) as [->|Hne]; [|by apply (up_order n hole b)].
      change (<[hole:=x]> arr) with b. by rewrite Hbh, Hbp.
  - exists hole, arr. split_and!; [done|lia|lia|]. split; [done..|]. intros i Hi _.
    apply (up_order n hole b); [done|done|lia].
Qed.

(** The sentinel in array[0] stops the other overload at the root. *)
Lemma percolate_up_sentinel fuel hole x arr :
  (1 <= hole)%nat → arr !! 0%nat = Some x →
  percolate_up fuel hole x arr = percolate_up_move fuel hole x arr ∧
  ∀ hole' arr', percolate_up_move fuel hole x arr = Some (hole', arr') → arr' !! 0%nat = Some x.
Proof.
  revert hole arr. induction fuel as [|fuel IH]; intros hole arr Hh H0; [done|].
  cbn [percolate_up percolate_up_move]. destruct (Nat.ltb_spec 1 hole) as [Hlt|Hge].
  - destruct (arr !! (hole / 2)%nat) as [p|]; [|done]. simpl.
    destruct (klt x p); [|by split; intros; simplify_eq].
    unfold aset. destruct (hole <? length arr)%nat; [|done]. simpl.
    apply IH; [lia|]. by rewrite list_lookup_insert_ne by lia.
  - replace hole with 1%nat by lia. change (1 / 2)%nat with 0%nat. rewrite H0. simpl.
    rewrite klt_irrefl. split; [done|]. intros. by simplify_eq.
Qed.

(** ** The public functions *)

#[local] Arguments percolate_up : simpl never.
#[local] Arguments percolate_up_move : simpl never.

Definition heap_items (h : heap) : list K := slice 1 (S (currentSize h)) (array h).

Record heap_ok (h : heap) : Prop := {
  hok_size : (currentSize h < length (array h))%nat;
  hok_order : ordered_from 1 (currentSize h) (array h);
}.

Lemma ordered_from_ext k n a b :
  (∀ i, (1 <= i <= n)%nat → (k <= i)%nat → b !!! i = a !!! i) →
  ordered_from k n a → ordered_from k n b.
Proof. intros E Ho i Hi Hk. rewrite !E by lia. by apply Ho. Qed.

Lemma grow_ok h :
  heap_ok h →
  (S (currentSize h) < length (grow h))%nat ∧ ordered_from 1 (currentSize h) (grow h) ∧
  slice 1 (S (currentSize h)) (grow h) = heap_items h.
Proof.
  intros [Hl Ho]. unfold grow, heap_items.
  destruct (Nat.eqb_spec (currentSize h) (length (array h) - 1)); [|split_and!; [lia|done..]].
  rewrite length_app, length_replicate. split_and!; [lia| |].
  - eapply ordered_from_ext; [|exact Ho]. intros i Hi _.
    rewrite !list_lookup_total_alt. by rewrite lookup_app_l by lia.
  - unfold slice. by rewrite take_app_le by lia.
Qed.

Lemma insert_core n x arr :
  (S n < length arr)%nat → ordered_from 1 n arr →
  ∃ hole arr', percolate_up_move (S (S n)) (S n) x arr = Some (hole, arr') ∧
    (hole < length arr')%nat ∧ (S n < length (<[hole := x]> arr'))%nat ∧
    ordered_from 1 (S n) (<[hole := x]> arr') ∧
    slice 1 (S (S n)) (<[hole := x]> arr') ≡ₚ x :: slice 1 (S n) arr.
Proof.
  intros Hl Ho. destruct (percolate_up_ok (S (S n)) (S n) (S n) x arr)
    as (hole & arr' & E & Hh & [Lr Pr Or]); [lia..| |].
  - split; [|lia]. intros i Hi Hne. rewrite !lookup_total_insert by lia.
    rewrite !decide_False by lia. apply Ho; lia.
  - rewrite !length_insert in Lr. exists hole, arr'. split_and!; [done|lia| |done|].
    + rewrite length_insert. lia.
    + rewrite Pr. rewrite (slice_split 1 (S n)) by (rewrite ?length_insert; lia).
      rewrite slice_insert_out, slice_one by (rewrite ?length_insert; lia).
      rewrite lookup_total_insert by lia. rewrite decide_True by done. solve_Permutation.
Qed.

Lemma insert_move_ok x h :
  heap_ok h → ∃ h', insert_move x h = Some h' ∧ heap_ok h' ∧ heap_items h' ≡ₚ x :: heap_items h.
Proof.
  intros Hok. destruct (grow_ok h Hok) as (Hl & Ho & <-).
  destruct (insert_core _ x _ Hl Ho) as (hole & arr' & E & Hh & Hl' & Ho' & P).
  unfold insert_move. rewrite E. simpl. rewrite aset_lt by done. simpl.
  eexists. split; [done|]. split; [split; simpl; [lia|done]|exact P].
Qed.

Lemma heap_insert_ok x h :
  heap_ok h → ∃ h', insert x h = Some h' ∧ heap_ok h' ∧ heap_items h' ≡ₚ x :: heap_items h.
Proof.
  intros Hok. destruct (grow_ok h Hok) as (Hl & Ho & <-). unfold insert.
  rewrite aset_lt by lia. simpl.
  destruct (insert_core (currentSize h) x (<[0%nat := x]> (grow h)))
    as (hole & arr' & E & Hh & Hl' & Ho' & P).
  { by rewrite length_insert. }
  { eapply ordered_from_ext; [|exact Ho]. intros i Hi _.
    rewrite lookup_total_insert by lia. by rewrite decide_False by lia. }
  rewrite (slice_insert_out 1 _ _ 0) in P by lia.
  destruct (percolate_up_sentinel (S (S (currentSize h))) (S (currentSize h)) x
    (<[0%nat := x]> (grow h))) as [-> H0]; [lia|by apply list_lookup_insert_eq; lia|].
  rewrite E. simpl. rewrite (H0 _ _ E). simpl. rewrite aset_lt by done. simpl.
  eexists. split; [done|]. split; [split; simpl; [lia|done]|exact P].
Qed.

(** The root is the smallest item. *)
Lemma heap_root_le n a i : ordered_from 1 n a → (1 <= i <= n)%nat → le (a !!! 1%nat) (a !!! i).
Proof.
  intros Ho. induction i as [i IH] using lt_wf_ind. intros Hi.
  destruct (decide (i = 1)%nat) as [->|]; [apply le_refl|].
  apply (le_trans _ (a !!! (i / 2)%nat)); [apply IH; lia|apply Ho; lia].
Qed.

Lemma remove_root_ok h :
  heap_ok h → currentSize h ≠ 0%nat →
  ∃ x h', array h !! 1%nat = Some x ∧
    deleteMin h = Some (Done, h') ∧ deleteMin_item h = Some (Item x, h') ∧ heap_ok h' ∧
    heap_items h ≡ₚ x :: heap_items h' ∧ Forall (le x) (heap_items h).
Proof.
  destruct h as [n a]. intros [Hl Ho] Hn. unfold deleteMin, deleteMin_item, isEmpty, heap_items.
  cbn [currentSize array] in *. rewrite (proj2 (Nat.eqb_neq _ _)) by done.
  rewrite !aget_lt by lia. simpl. rewrite aset_lt by lia. simpl.
  destruct (percolateDown_ok 1 (n - 1) (<[1%nat := a !!! n]> a)) as (b & -> & [Lb Pb Ob]).
  { lia. } { rewrite length_insert. lia. } { rewrite length_insert. lia. } { lia. }
  { intros i Hi Hk. rewrite !lookup_total_insert by lia. rewrite !decide_False by lia. apply Ho; lia. }
  rewrite length_insert in Lb. simpl. replace (S (n - 1)) with n in * by lia.
  do 2 eexists. split_and!; [done..|split; cbn [currentSize array]; [lia|done]| |].
  - cbn [currentSize array]. replace (S (n - 1)) with n by lia. rewrite Pb.
    rewrite (slice_split 1 2) by lia. rewrite slice_one by lia. simpl. constructor.
    destruct (decide (n = 1)%nat) as [->|]; [by rewrite !slice_nil by lia|].
    rewrite (slice_split 2 n (S n)), slice_one by lia.
    rewrite (slice_split 1 2 n), (slice_one 1) by (rewrite ?length_insert; lia).
    rewrite slice_insert_out, lookup_total_insert by lia. rewrite decide_True by done.
    solve_Permutation.
  - apply Forall_forall. intros y (i & Hi & ->)%elem_of_slice; [|lia].
    apply (heap_root_le n); [done|lia].
Qed.

Lemma binary_call_ok (c : call K) h l :
  heap_ok h → sorted l → heap_items h ≡ₚ l →
  ∃ h', call_heap c h = Some ((spec c l).1, h') ∧ heap_ok h' ∧ heap_items h' ≡ₚ (spec c l).2.
Proof.
  intros Hok Hl Hp.
  assert (l = [] ∧ isEmpty h = true ∨
    ∃ x l' h', l = x :: l' ∧ isEmpty h = false ∧ array h !! 1%nat = Some x ∧
      deleteMin h = Some (Done, h') ∧ deleteMin_item h = Some (Item x, h') ∧ heap_ok h' ∧
      heap_items h' ≡ₚ l') as Hcase.
  { unfold isEmpty. destruct (Nat.eqb_spec (currentSize h) 0) as [E|E].
    - left. split; [|done]. unfold heap_items in Hp. rewrite E, slice_nil in Hp by lia.
      by apply Permutation_nil_l in Hp.
    - right. destruct (remove_root_ok h Hok E) as (x & h' & E1 & E2 & E3 & Hok' & P & Hmin).
      rewrite P in Hp, Hmin. apply Forall_cons in Hmin as [_ Hmin].
      destruct (sorted_min x (heap_items h') l Hl Hp Hmin) as (l' & -> & Hp' & _).
      exists x, l', h'. by split_and!. }
  destruct c; cbn [call_heap spec fst snd].
  - destruct (heap_insert_ok x h Hok) as (h' & -> & Hok' & P). exists h'. simpl.
    split_and!; [done..|]. by rewrite P, Hp, ins_perm.
  - exists h. split; [|by split]. unfold findMin.
    destruct Hcase as [[-> ->]|(x & l' & h' & -> & -> & -> & _)]; done.
  - destruct Hcase as [[-> E]|(x & l' & h' & -> & _ & _ & E & _ & Hok' & P)].
    + exists h. unfold deleteMin. rewrite E. by split.
    + exists h'. by rewrite E.
  - destruct Hcase as [[-> E]|(x & l' & h' & -> & _ & _ & _ & E & Hok' & P)].
    + exists h. unfold deleteMin_item. rewrite E. by split.
    + exists h'. by rewrite E.
  - exists h. split; [|by split]. destruct Hcase as [[-> ->]|(x & l' & h' & -> & -> & _)]; done.
  - eexists. split; [done|]. unfold heap_items, makeEmpty. cbn [currentSize array].
    rewrite slice_nil by lia. split; [|done]. split; cbn [currentSize array]; [|intros i Hi; lia].
    destruct Hok. lia.
Qed.

#[local] Instance binary_impl : HeapImpl K heap := {
  exec := call_heap;
  items := heap_items;
  ok := heap_ok;
  exec_ok := binary_call_ok;
}.

Lemma construct_items_ok its :
  ∃ h, construct_items its = Some h ∧ heap_ok h ∧ heap_items h ≡ₚ its.
Proof.
  unfold construct_items.
  destruct (copy_items_ok 0 its (replicate (length its + 10) dflt)) as (a & -> & La & _ & Sa).
  { rewrite length_replicate. lia. }
  rewrite length_replicate in La. simpl. unfold buildHeap. cbn [currentSize array].
  destruct (build_loop_ok (length its / 2) (length its) a) as (b & -> & [Lb Pb Ob]); [lia..| |].
  { intros i Hi Hk. lia. }
  simpl. eexists. split; [done|]. split; [split; simpl; [lia|done]|].
  unfold heap_items. cbn [currentSize array]. rewrite Pb. by rewrite <- Sa at 2.
Qed.

(** A run of calls of a client. *)
Definition run (cs : list (call K)) (h : heap) : option (list (answer K) * heap) := exec_run cs h.

Lemma run_ok cs h l :
  heap_ok h → sorted l → heap_items h ≡ₚ l →
  ∃ h', run cs h = Some ((spec_run cs l).1, h') ∧ heap_ok h' ∧ heap_items h' ≡ₚ (spec_run cs l).2.
Proof. exact (queue_run_ok (T:=heap) cs h l). Qed.

Lemma construct_capacity_ok capacity :
  heap_ok (construct capacity) ∧ heap_items (construct capacity) = [].
Proof.
  split; [split|].
  - simpl. rewrite length_replicate. lia.
  - intros i Hi. simpl in Hi. lia.
  - apply slice_nil. simpl. lia.
Qed.

Lemma ins_all_ok its : sorted (foldr ins [] its) ∧ foldr ins [] its ≡ₚ its.
Proof.
  induction its as [|x its [IH1 IH2]]; simpl; [by repeat constructor|].
  split; [by apply insd_sorted|by rewrite ins_perm, IH2].
Qed.
End heap.

(** BinaryHeap is a priority queue: whatever calls a client makes on a
    heap made empty or from items, no access leaves the vector, the answers
    are those of a sorted list with duplicates, and the items stay in heap
    order; the overload of insert for rvalues, which stops at the root
    without the sentinel, adds its item as well. *)
Lemma binaryheap_implements_priority_queue `{KeyOrder K} (dflt : K) (capacity : nat)
    (its : list K) (cs : list (call K)) :
  ∃ h h0 h1 : heap, run dflt cs (construct dflt capacity) = Some ((spec_run cs []).1, h) ∧
    construct_items dflt its = Some h0 ∧
    run dflt cs h0 = Some ((spec_run cs (foldr ins [] its)).1, h1) ∧
    heap_items h ≡ₚ (spec_run cs []).2 ∧ heap_items h1 ≡ₚ (spec_run cs (foldr ins [] its)).2 ∧
    heap_ok dflt h ∧ heap_ok dflt h1 ∧
    ∀ x, ∃ h', insert_move dflt x h = Some h' ∧ heap_ok dflt h' ∧ heap_items h' ≡ₚ x :: heap_items h.
Proof.
  destruct (construct_capacity_ok dflt capacity) as [Hc Ec].
  destruct (run_ok dflt cs (construct dflt capacity) []) as (h & E & Hok & P);
    [done|constructor|by rewrite Ec|].
  destruct (construct_items_ok dflt its) as (h0 & E0 & Hok0 & P0).
  destruct (ins_all_ok its) as [Si Pi].
  destruct (run_ok dflt cs h0 (foldr ins [] its)) as (h1 & E1 & Hok1 & P1);
    [done..|by rewrite P0, Pi|].
  exists h, h0, h1. split_and!; try done. intros x. by apply insert_move_ok.
Qed.
End BinaryHeap.
