(* ===== verification/AsyncTimer.v ===== *)
(** * AsyncTimer: the timer thread of cppBase/utility/AsyncTimer.cpp

    [_timers] maps due times to names, [_events] names to what is to be run.
    Every function but [loop] holds the mutex while it works on the two maps,
    so a call is one step on them; [check] returns the callbacks that it runs
    after the unlock.  Times are those that the clock gave the call. *)
From S2P Require Import Prelude StdMap.

Module AsyncTimer.

(** A callback is a number; names are byte strings. *)
Abbreviation TimerCallback := nat.
Abbreviation name := (list Z).

Record WaitEvent := mk_event {
  isTimer : bool;
  interval : Z;
  callback : TimerCallback;
}.

Record timer := mk_timer {
  _start : bool;
  _timers : list (Z * name);
  _events : list (name * WaitEvent);
}.

Definition construct : timer := {| _start := false; _timers := []; _events := [] |}.

Definition start (s : timer) : timer :=
  {| _start := true; _timers := _timers s; _events := _events s |}.
Definition stop (s : timer) : timer :=
  {| _start := false; _timers := _timers s; _events := _events s |}.
Definition isRun (s : timer) : bool := _start s.

Definition addTimer (n : name) (interval : Z) (cb : TimerCallback) (now : Z) (s : timer) : timer :=
  let ev := {| isTimer := true; interval := interval; callback := cb |} in
  {| _start := _start s;
     _timers := StdMap.multi_insert (now + interval) n (_timers s);
     _events := StdMap.assign n ev (_events s) |}.

Definition delTimer (n : name) (s : timer) : timer :=
  {| _start := _start s; _timers := _timers s; _events := StdMap.erase n (_events s) |}.

Definition addAfter (n : name) (wait : Z) (cb : TimerCallback) (now : Z) (s : timer) : timer :=
  let ev := {| isTimer := false; interval := 0; callback := cb |} in
  {| _start := _start s;
     _timers := StdMap.multi_insert (now + wait) n (_timers s);
     _events := StdMap.assign n ev (_events s) |}.

Definition delAfter (n : name) (s : timer) : timer :=
  {| _start := _start s; _timers := _timers s; _events := StdMap.erase n (_events s) |}.

(** The loop of [check] under the lock; [events] is what it has collected.
    [None]: the fuel ran out. *)
Fixpoint check_loop (fuel : nat) (now : Z) (timers : list (Z * name))
    (events : list (name * WaitEvent)) (fired : list WaitEvent) :
    option (list (Z * name) * list (name * WaitEvent) * list WaitEvent) :=
  match timers with
  | [] => Some (timers, events, fired)
  | (t, n) :: rest =>
      if now <? t then Some (timers, events, fired)
      else
        match fuel with
        | O => None
        | S fuel =>
            match StdMap.find n events with
            | None => check_loop fuel now rest events fired
            | Some ev =>
                if isTimer ev
                then check_loop fuel now (StdMap.multi_insert (now + interval ev) n rest)
                       events (fired ++ [ev])
                else check_loop fuel now rest (StdMap.erase n events) (fired ++ [ev])
            end
        end
  end.

(** The result of [check], the callbacks that it runs in order, the state. *)
Definition check (fuel : nat) (now : Z) (s : timer) : option (bool * list TimerCallback * timer) :=
  if negb (_start s) then Some (false, [], s)
  else
    match check_loop fuel now (_timers s) (_events s) [] with
    | None => None
    | Some (timers, events, fired) =>
        Some (true, callback <$> fired, {| _start := _start s; _timers := timers; _events := events |})
    end.

(** ** What a check does, entry by entry *)

(** The names that are due, in the order of their entries: which events fire,
    which entries are scheduled again, which events stay. *)
Fixpoint fire (now : Z) (due : list (Z * name)) (events : list (name * WaitEvent)) :
    list WaitEvent * list (Z * name) * list (name * WaitEvent) :=
  match due with
  | [] => ([], [], events)
  | (_, n) :: due =>
      match StdMap.find n events with
      | None => fire now due events
      | Some ev =>
          let '(f, r, e) := fire now due (if isTimer ev then events else StdMap.erase n events) in
          (ev :: f, (if isTimer ev then [(now + interval ev, n)] else []) ++ r, e)
      end
  end.

(** Entries with later keys go behind the due ones. *)
Lemma multi_insert_app (k : Z) (n : name) (l m : list (Z * name)) :
  Forall (λ e, e.1 <= k) l → StdMap.multi_insert k n (l ++ m) = l ++ StdMap.multi_insert k n m.
Proof.
  induction 1 as [|[t x] l Ht _ IH]; simpl in *; [done|].
  rewrite (proj2 (Z.ltb_ge _ _)) by done. by rewrite IH.
Qed.

Definition positive (events : list (name * WaitEvent)) : Prop :=
  Forall (λ e, isTimer e.2 = true → 0 < interval e.2) events.

Lemma find_In (n : name) (events : list (name * WaitEvent)) ev :
  StdMap.find n events = Some ev → (n, ev) ∈ events.
Proof.
  induction events as [|[n' ev'] events IH]; simpl; [done|].
  destruct (bytes_lt n' n) eqn:E1; [intros; right; auto|].
  destruct (bytes_lt n n') eqn:E2; [done|]. intros [= ->].
  rewrite (bytes_lt_total n' n) by done. left.
Qed.

Lemma positive_erase n events : positive events → positive (StdMap.erase n events).
Proof. unfold positive. rewrite !Forall_forall. intros Hp e He%StdMap.erase_incl. auto. Qed.

Lemma check_loop_ok now due : ∀ fuel rest events fired,
  (length due <= fuel)%nat → Forall (λ e, e.1 <= now) due → Forall (λ e, now < e.1) rest →
  positive events →
  let '(f, r, e) := fire now due events in
  check_loop fuel now (due ++ rest) events fired =
    Some (foldl (λ m e, StdMap.multi_insert e.1 e.2 m) rest r, e, fired ++ f) ∧
  Forall (λ e, now < e.1) r ∧ positive e.
Proof.
  induction due as [|[t n] due IH]; intros fuel rest events fired Hf Hd Hr Hp; simpl.
  - rewrite app_nil_r. split; [|by split]. destruct Hr as [|[t n] rest Ht _]; [by destruct fuel|].
    simpl in Ht. destruct fuel; simpl; by rewrite (proj2 (Z.ltb_lt _ _)).
  - apply Forall_cons in Hd as [Ht Hd]. simpl in Ht.
    destruct fuel as [|fuel]; [simpl in Hf; lia|]. simpl in Hf. cbn [check_loop].
    rewrite (proj2 (Z.ltb_ge _ _)) by done.
    destruct (StdMap.find n events) as [ev|] eqn:En; [|apply IH; try done; lia].
    destruct (isTimer ev) eqn:Et.
    + assert (0 < interval ev) as Hi.
      { apply find_In in En. unfold positive in Hp. rewrite Forall_forall in Hp. by apply (Hp _ En). }
      rewrite multi_insert_app.
      2:{ eapply Forall_impl; [exact Hd|]. simpl. lia. }
      specialize (IH fuel (StdMap.multi_insert (now + interval ev) n rest) events (fired ++ [ev])).
      destruct (fire now due events) as [[f r] e].
      destruct IH as (E & Hr' & Hp'); [lia|done| |done|].
      { rewrite StdMap.multi_insert_perm. constructor; [simpl; lia|done]. }
      simpl. rewrite E, <- (assoc_L (++)). split_and!; try done. constructor; [simpl; lia|done].
    + specialize (IH fuel rest (StdMap.erase n events) (fired ++ [ev])).
      pose proof (positive_erase n events Hp).
      destruct (fire now due (StdMap.erase n events)) as [[f r] e].
      destruct IH as (E & Hr' & Hp'); [lia|done..|].
      simpl. by rewrite E, <- (assoc_L (++)).
Qed.

(** What [fire] does, name by name. *)
Record fire_spec (due : list (Z * name)) (events : list (name * WaitEvent))
    (f : list WaitEvent) (r : list (Z * name)) (e : list (name * WaitEvent)) : Prop := {
  fire_sorted : StdMap.sorted e;
  fire_kept n ev : StdMap.find n e = Some ev ↔
    StdMap.find n events = Some ev ∧ (isTimer ev = true ∨ n ∉ due.*2);
  fire_fired ev : ev ∈ f ↔ ∃ n, n ∈ due.*2 ∧ StdMap.find n events = Some ev;
  fire_again n ev :
    n ∈ due.*2 → StdMap.find n events = Some ev → isTimer ev = true → n ∈ r.*2;
}.

Lemma fire_spec_skip t n due events f r e :
  StdMap.find n events = None → fire_spec due events f r e → fire_spec ((t, n) :: due) events f r e.
Proof.
  intros En [H0 H1 H2 H3]. split; [done|..]; simpl.
  - intros n' ev'. rewrite H1, not_elem_of_cons. split.
    + intros [Hf [Ht|Hn]]; split; auto. right. split; [congruence|done].
    + intros [Hf [Ht|[_ Hn]]]; auto.
  - intros ev'. rewrite H2. setoid_rewrite elem_of_cons. split.
    + intros (n' & Hn & Hf). eauto.
    + intros (n' & [->|Hn] & Hf); [congruence|eauto].
  - intros n' ev' [->|Hn]%elem_of_cons Hf Ht; [congruence|by eapply H3].
Qed.

Lemma fire_spec_timer t t' n ev due events f r e :
  StdMap.find n events = Some ev → isTimer ev = true → fire_spec due events f r e →
  fire_spec ((t, n) :: due) events (ev :: f) ((t', n) :: r) e.
Proof.
  intros En Et [H0 H1 H2 H3]. split; [done|..]; simpl.
  - intros n' ev'. rewrite H1, not_elem_of_cons. split.
    + intros [Hf [Ht'|Hn]]; split; auto. destruct (decide (n' = n)) as [->|]; [left; congruence|auto].
    + intros [Hf [Ht'|[_ Hn]]]; auto.
  - intros ev'. rewrite elem_of_cons, H2. setoid_rewrite elem_of_cons. split.
    + intros [->|(n' & Hn & Hf)]; eauto.
    + intros (n' & [->|Hn] & Hf); [left; congruence|eauto].
  - intros n' ev' [->|Hn]%elem_of_cons Hf Ht; [by left|right; by eapply H3].
Qed.

Lemma fire_spec_once t n ev due events f r e :
  StdMap.sorted events → StdMap.find n events = Some ev → isTimer ev = false →
  fire_spec due (StdMap.erase n events) f r e → fire_spec ((t, n) :: due) events (ev :: f) r e.
Proof.
  intros Hs En Et [H0 H1 H2 H3].
  assert (∀ n', StdMap.find n' (StdMap.erase n events) =
    if decide (n' = n) then None else StdMap.find n' events) as Ef
    by (intros; by apply StdMap.find_erase).
  setoid_rewrite Ef in H1. setoid_rewrite Ef in H2. setoid_rewrite Ef in H3.
  split; [done|..]; simpl.
  - intros n' ev'. rewrite H1, not_elem_of_cons. case_decide as Hd.
    + subst. split; [by intros []|]. intros [Hf [Ht|[]]]; congruence.
    + split; intros [Hf [Ht|Hn]]; split; auto. by destruct Hn; auto.
  - intros ev'. rewrite elem_of_cons, H2. setoid_rewrite elem_of_cons. split.
    + intros [->|(n' & Hn & Hf)]; [eauto|]. exists n'. by case_decide; auto.
    + intros (n' & Hn & Hf). destruct (decide (n' = n)) as [->|Hne]; [left; congruence|].
      right. exists n'. rewrite decide_False by done. destruct Hn; [done|auto].
  - intros n' ev' Hn Hf Ht. destruct (decide (n' = n)) as [->|Hne]; [congruence|].
    apply elem_of_cons in Hn as [|Hn]; [done|]. apply (H3 n' ev'); [done| |done].
    by rewrite decide_False.
Qed.

Lemma fire_ok now due : ∀ events, StdMap.sorted events →
  let '(f, r, e) := fire now due events in fire_spec due events f r e.
Proof.
  induction due as [|[t n] due IH]; intros events Hs; simpl.
  - split; simpl; [done|..].
    + intros n ev. split; [|by intros []]. split; [done|]. right. apply not_elem_of_nil.
    + intros ev. rewrite elem_of_nil. split; [done|]. by intros (n & Hn%elem_of_nil & _).
    + by intros n ev Hn%elem_of_nil.
  - destruct (StdMap.find n events) as [ev|] eqn:En; [destruct (isTimer ev) eqn:Et|].
    + specialize (IH _ Hs). destruct (fire _ _ _) as [[f r] e]. by apply fire_spec_timer.
    + specialize (IH _ (StdMap.erase_sorted n _ Hs)). destruct (fire _ _ _) as [[f r] e].
      by apply fire_spec_once.
    + specialize (IH _ Hs). destruct (fire _ _ _) as [[f r] e]. by apply fire_spec_skip.
Qed.

(** ** What a check promises

    The due entries in the order of their times: each runs the event that is
    registered under its name, a one-shot event only at its first entry. *)
Definition due_entries (now : Z) (s : timer) : list (Z * name) :=
  filter (λ e, e.1 <= now) (_timers s).
Definition later_entries (now : Z) (s : timer) : list (Z * name) :=
  filter (λ e, now < e.1) (_timers s).

Fixpoint running (seen : list name) (due : list (Z * name)) (events : list (name * WaitEvent)) :
    list (name * WaitEvent) :=
  match due with
  | [] => []
  | (_, n) :: due =>
      match StdMap.find n events with
      | Some ev => if isTimer ev || bool_decide (n ∉ seen) then [(n, ev)] else []
      | None => []
      end ++ running (n :: seen) due events
  end.

(** Every run of a timer event gives one new entry, [interval] after [now]. *)
Definition rescheduled (now : Z) (runs : list (name * WaitEvent)) : list (Z * name) :=
  (λ e, (now + interval e.2, e.1)) <$> filter (λ e, isTimer e.2 = true) runs.

(** [cur]: the events left when the one-shots of [seen] have run. *)
Definition left_events (seen : list name) (events cur : list (name * WaitEvent)) : Prop :=
  ∀ n, StdMap.find n cur =
    match StdMap.find n events with
    | Some ev => if isTimer ev || bool_decide (n ∉ seen) then Some ev else None
    | None => None
    end.

Lemma left_events_timer seen events cur n ev :
  StdMap.find n events = Some ev → isTimer ev = true →
  left_events seen events cur → left_events (n :: seen) events cur.
Proof.
  intros En Et Hl n'. rewrite Hl. destruct (decide (n' = n)) as [->|Hne]; [by rewrite En, Et|].
  destruct (StdMap.find n' events) as [ev'|]; [|done].
  by rewrite (bool_decide_ext (n' ∉ n :: seen) (n' ∉ seen)) by set_solver.
Qed.

Lemma left_events_gone seen events cur cur' n :
  (∀ n', StdMap.find n' cur' = if decide (n' = n) then None else StdMap.find n' cur) →
  (∀ ev, StdMap.find n events = Some ev → isTimer ev = false) →
  left_events seen events cur → left_events (n :: seen) events cur'.
Proof.
  intros Ec Ht Hl n'. rewrite Ec. case_decide as Hd.
  - subst. destruct (StdMap.find n events) as [ev|] eqn:En; [|done].
    rewrite (Ht ev), bool_decide_false; [done|set_solver|done].
  - rewrite Hl. destruct (StdMap.find n' events) as [ev'|]; [|done].
    by rewrite (bool_decide_ext (n' ∉ n :: seen) (n' ∉ seen)) by set_solver.
Qed.

(** [fire], which erases as it goes, and [running], which looks back, agree. *)
Lemma fire_running now events due : ∀ seen cur,
  StdMap.sorted cur → left_events seen events cur →
  (fire now due cur).1.1 = (running seen due events).*2 ∧
  (fire now due cur).1.2 = rescheduled now (running seen due events).
Proof.
  induction due as [|[t n] due IH]; intros seen cur Hs Hl; [done|]. cbn [fire running].
  rewrite (Hl n). destruct (StdMap.find n events) as [ev|] eqn:En.
  - destruct (isTimer ev) eqn:Et; cbn [orb].
    + destruct (IH (n :: seen) cur Hs) as [IH1 IH2]; [by eapply left_events_timer|].
      rewrite Et. unfold rescheduled in *. destruct (fire now due cur) as [[f r] e]. csimpl in *.
      rewrite filter_cons, decide_True by done. csimpl. by rewrite IH1, IH2.
    + case_bool_decide as Hn.
      * destruct (IH (n :: seen) (StdMap.erase n cur)) as [IH1 IH2].
        { by apply StdMap.erase_sorted. }
        { eapply left_events_gone; [intros; by apply StdMap.find_erase| |done]. congruence. }
        rewrite Et. unfold rescheduled in *. destruct (fire now due _) as [[f r] e]. csimpl in *.
        rewrite filter_cons, decide_False by (simpl; congruence). by rewrite IH1, IH2.
      * apply IH; [done|]. eapply left_events_gone; [|congruence|done].
        intros n'. case_decide; [subst|done].
        by rewrite Hl, En, Et, bool_decide_false by (intros Hx; by apply Hx).
  - apply IH; [done|]. eapply left_events_gone; [|congruence|done].
    intros n'. case_decide; [subst|done]. by rewrite Hl, En.
Qed.

(** ** The states that clients and the timer thread reach *)

Inductive step : timer → timer → Prop :=
| step_start s : step s (start s)
| step_stop s : step s (stop s)
| step_addTimer n interval cb now s : 0 < interval → step s (addTimer n interval cb now s)
| step_delTimer n s : step s (delTimer n s)
| step_addAfter n wait cb now s : step s (addAfter n wait cb now s)
| step_delAfter n s : step s (delAfter n s)
| step_check fuel now s b cbs s' : check fuel now s = Some (b, cbs, s') → step s s'.

Definition reachable (s : timer) : Prop := rtc step construct s.

(** The containers are ordered, timers have a positive interval, and each
    event has an entry that will find it. *)
Record timer_ok (s : timer) : Prop := {
  ok_timers : StdMap.multi_sorted (_timers s);
  ok_events : StdMap.sorted (_events s);
  ok_positive : positive (_events s);
  ok_scheduled n ev : StdMap.find n (_events s) = Some ev → n ∈ (_timers s).*2;
}.

Lemma due_split now (l : list (Z * name)) :
  StdMap.multi_sorted l →
  let due := filter (λ e, e.1 <= now) l in
  let rest := filter (λ e, now < e.1) l in
  l = due ++ rest ∧ Forall (λ e, e.1 <= now) due ∧ Forall (λ e, now < e.1) rest.
Proof.
  intros Hs. split_and!.
  2,3: apply Forall_forall; by intros e [He _]%list_elem_of_filter.
  induction Hs as [|t n l Hf _ IH]; [done|]. rewrite !filter_cons. cbn [fst].
  destruct (decide (now < t)) as [Ht|Ht].
  - assert (Forall (λ e : Z * name, now < e.1) l) as Hf'.
    { eapply Forall_impl; [exact Hf|]. simpl. lia. }
    rewrite decide_False by lia.
    assert (filter (λ e, e.1 <= now) l = [] ∧ filter (λ e, now < e.1) l = l) as [-> ->]; [|done].
    clear -Hf'. induction Hf' as [|e l He _ [IH1 IH2]]; [done|].
    rewrite !filter_cons, decide_False, decide_True by lia. by rewrite IH1, IH2.
  - rewrite decide_True by lia. simpl. by f_equal.
Qed.

Lemma multi_inserts r : ∀ rest : list (Z * name),
  let m := foldl (λ m e, StdMap.multi_insert e.1 e.2 m) rest r in
  m ≡ₚ r ++ rest ∧ (StdMap.multi_sorted rest → StdMap.multi_sorted m).
Proof.
  induction r as [|[t n] r IH]; intros rest; simpl; [done|].
  destruct (IH (StdMap.multi_insert t n rest)) as [P Hs]. split.
  - rewrite P, StdMap.multi_insert_perm. solve_Permutation.
  - intros. by apply Hs, StdMap.multi_insert_sorted.
Qed.

Lemma multi_sorted_app (l m : list (Z * name)) :
  StdMap.multi_sorted (l ++ m) → StdMap.multi_sorted m.
Proof. induction l as [|[t n] l IH]; simpl; [done|]. inversion 1; auto. Qed.

Lemma elem_of_names (n : name) (l : list (Z * name)) : n ∈ l.*2 ↔ ∃ t, (t, n) ∈ l.
Proof.
  rewrite list_elem_of_fmap. split; [intros ([t n'] & -> & Hl); eauto|intros [t Hl]; by exists (t, n)].
Qed.

(** The effect of one check on a state that satisfies the invariant. *)
Record checked (now : Z) (s : timer) (cbs : list TimerCallback) (s' : timer) : Prop := {
  checked_ok : timer_ok s';
  checked_start : _start s' = _start s;
  checked_fired : ∃ f, cbs = callback <$> f ∧ ∀ ev, ev ∈ f ↔
    ∃ t n, (t, n) ∈ _timers s ∧ t <= now ∧ StdMap.find n (_events s) = Some ev;
  checked_runs : cbs = callback <$> (running [] (due_entries now s) (_events s)).*2;
  checked_timers : _timers s' =
    foldl (λ m e, StdMap.multi_insert e.1 e.2 m) (later_entries now s)
      (rescheduled now (running [] (due_entries now s) (_events s)));
  checked_later : Forall (λ e, now < e.1) (_timers s');
  checked_events n ev : StdMap.find n (_events s') = Some ev ↔
    StdMap.find n (_events s) = Some ev ∧
    (isTimer ev = true ∨ ∀ t, (t, n) ∈ _timers s → now < t);
}.

Lemma due_names now (n : name) (due rest : list (Z * name)) :
  Forall (λ e, e.1 <= now) due → Forall (λ e, now < e.1) rest →
  n ∈ due.*2 ↔ ∃ t, (t, n) ∈ due ++ rest ∧ t <= now.
Proof.
  rewrite !Forall_forall. intros Hd Hr. rewrite elem_of_names. split.
  - intros [t Ht]. exists t. split; [apply elem_of_app; auto|by apply (Hd _ Ht)].
  - intros (t & [Ht|Ht]%elem_of_app & Hle); [eauto|]. apply Hr in Ht. simpl in Ht. lia.
Qed.

Lemma check_checked fuel now s :
  timer_ok s → _start s = true → (length (_timers s) <= fuel)%nat →
  ∃ cbs s', check fuel now s = Some (true, cbs, s') ∧ checked now s cbs s'.
Proof.
  intros [Ht He Hp Hsch] Hs Hf. unfold check. rewrite Hs. simpl.
  destruct (due_split now _ Ht) as (El & Hd & Hr).
  pose proof (fire_running now (_events s) (due_entries now s) [] (_events s) He) as HR.
  fold (due_entries now s) (later_entries now s) in El, Hd, Hr.
  remember (due_entries now s) as due eqn:Ed. remember (later_entries now s) as rest eqn:Er.
  rewrite El in *.
  pose proof (fire_ok now due _ He) as HF.
  pose proof (check_loop_ok now due fuel rest (_events s) []) as HL.
  destruct (fire now due (_events s)) as [[f r] e]. destruct HF as [F1 F2 F3 F4].
  destruct HR as [HR1 HR2].
  { intros n. destruct (StdMap.find n (_events s)); [|done].
    by rewrite bool_decide_true, orb_true_r by apply not_elem_of_nil. }
  simpl in HR1, HR2.
  destruct HL as (-> & Hr' & Hp'); [|done..|]. { rewrite length_app in Hf. lia. }
  destruct (multi_inserts r rest) as [P Hm]. eexists _, _. split; [done|].
  pose proof (λ n, due_names now n due rest Hd Hr) as Hn.
  split; cbn [_timers _events _start]; rewrite ?El.
  - split; cbn [_timers _events]; [by apply Hm, (multi_sorted_app due)|done..|].
    intros n ev [Hev Hor]%F2. rewrite P, fmap_app, elem_of_app.
    destruct (decide (n ∈ due.*2)) as [Hin|Hin].
    + left. apply (F4 n ev); [done..|]. by destruct Hor.
    + right. apply Hsch in Hev. rewrite fmap_app, elem_of_app in Hev. by destruct Hev.
  - done.
  - exists f. split; [done|]. intros ev. rewrite F3. setoid_rewrite Hn. naive_solver.
  - by rewrite <- Ed, <- HR1.
  - by rewrite <- Ed, <- Er, <- HR2.
  - rewrite P. by apply Forall_app.
  - intros n ev. rewrite F2, Hn. split; intros [Hev [Hor|Hor]]; split; auto.
    + right. intros t Hin. destruct (decide (now < t)); [done|]. destruct Hor. exists t. split; [done|lia].
    + right. intros (t & Hin%Hor & Hle). lia.
Qed.

Lemma check_stopped fuel now s : _start s = false → check fuel now s = Some (false, [], s).
Proof. intros Hs. unfold check. by rewrite Hs. Qed.

(** More fuel does not change the result of the loop. *)
Lemma check_loop_more fuel now : ∀ timers events fired x fuel',
  check_loop fuel now timers events fired = Some x → (fuel <= fuel')%nat →
  check_loop fuel' now timers events fired = Some x.
Proof.
  induction fuel as [|fuel IH]; intros [|[t n] timers] events fired x [|fuel'] Hx Hf; simpl in *;
    try done; try lia; destruct (now <? t); try done.
  destruct (StdMap.find n events) as [ev|]; [destruct (isTimer ev)|]; (apply IH; [done|lia]).
Qed.

Lemma check_fuel fuel now s x :
  check fuel now s = Some x → timer_ok s → check (length (_timers s)) now s = Some x.
Proof.
  intros Hx Hok. destruct (_start s) eqn:Hs.
  - destruct (check_checked (length (_timers s)) now s) as (cbs & s' & E & _); [done..|].
    revert E Hx. unfold check. rewrite Hs. simpl.
    destruct (check_loop fuel _ _ _ _) as [y|] eqn:E1; [|done].
    destruct (check_loop (length _) _ _ _ _) as [z|] eqn:E2; [|done].
    intros _ <-. cut (z = y); [by intros ->|].
    apply (check_loop_more _ _ _ _ _ _ (fuel + length (_timers s))%nat) in E1; [|lia].
    apply (check_loop_more _ _ _ _ _ _ (fuel + length (_timers s))%nat) in E2; [|lia].
    congruence.
  - by rewrite check_stopped in Hx |- *.
Qed.

Lemma erase_ok n s :
  timer_ok s → timer_ok {| _start := _start s; _timers := _timers s;
                           _events := StdMap.erase n (_events s) |}.
Proof.
  intros [Ht He Hp Hsch]. split; cbn [_timers _events]; [done| | |].
  - by apply StdMap.erase_sorted.
  - by apply positive_erase.
  - intros n' ev. rewrite StdMap.find_erase by done. case_decide; [done|]. apply Hsch.
Qed.

Lemma assign_In (n : name) (ev : WaitEvent) m e : e ∈ StdMap.assign n ev m → e = (n, ev) ∨ e ∈ m.
Proof.
  induction m as [|[n' ev'] m IH]; simpl; [set_solver|].
  repeat case_match; rewrite ?elem_of_cons; naive_solver.
Qed.

Lemma register_ok n ev t s :
  (isTimer ev = true → 0 < interval ev) → timer_ok s →
  timer_ok {| _start := _start s; _timers := StdMap.multi_insert t n (_timers s);
              _events := StdMap.assign n ev (_events s) |}.
Proof.
  intros Hi [Ht He Hp Hsch]. split; cbn [_timers _events].
  - by apply StdMap.multi_insert_sorted.
  - by apply StdMap.assign_sorted.
  - unfold positive in *. rewrite Forall_forall in *. intros e [->|Hin]%assign_In; [done|by apply Hp].
  - intros n' ev'. rewrite StdMap.find_assign by done. rewrite StdMap.multi_insert_perm. simpl.
    rewrite elem_of_cons. case_decide; [auto|]. intros Hf%Hsch. auto.
Qed.

Lemma step_ok s s' : step s s' → timer_ok s → timer_ok s'.
Proof.
  destruct 1 as [s|s|n i cb now s Hi|n s|n w cb now s|n s|fuel now s b cbs s' E]; intros Hok.
  1,2: by destruct Hok; split.
  - by apply register_ok.
  - by apply erase_ok.
  - by apply register_ok.
  - by apply erase_ok.
  - apply check_fuel in E; [|done]. destruct (_start s) eqn:Hs.
    + destruct (check_checked (length (_timers s)) now s) as (cbs' & s'' & E' & [H' _]); [done..|].
      congruence.
    + rewrite check_stopped in E by done. congruence.
Qed.

Lemma reachable_ok s : reachable s → timer_ok s.
Proof.
  unfold reachable. intros Hr. assert (timer_ok construct) as H0.
  { split; cbn [_timers _events construct]; [constructor|constructor|constructor|done]. }
  revert H0. induction Hr as [|s1 s2 s3 Hst _ IH]; [done|]. intros H1. by eapply IH, step_ok.
Qed.

(** C23: whatever calls were made, as long as every timer was added with a
    positive interval (addTimer does not check it, and [check_diverges] shows
    what happens otherwise), a check at any time comes to an end; a stopped
    timer does nothing. A running one takes the entries that are due in the
    order of their times and runs, once for each, the callback of the event
    registered under the name, a one-shot event only at its first entry; the
    entries left are the later ones and one at [now + interval] for each run of
    a timer event. It drops the one-shot events that it ran and no other event,
    and every event stays scheduled. *)
Theorem check_fires_due s now :
  reachable s →
  if _start s
  then ∃ cbs s', check (length (_timers s)) now s = Some (true, cbs, s') ∧ checked now s cbs s'
  else check (length (_timers s)) now s = Some (false, [], s).
Proof.
  intros Hr%reachable_ok. destruct (_start s) eqn:Hs.
  - by apply check_checked.
  - by apply check_stopped.
Qed.

Example check_fires_due_witness :
  let s := start (addAfter (bytes_of "once") 5 2 3 (addTimer (bytes_of "tick") 10 1 0 construct)) in
  reachable s ∧ ∃ cbs s',
    check 2 12 s = Some (true, cbs, s') ∧ checked 12 s cbs s' ∧ cbs = [2%nat; 1%nat].
Proof.
  split.
  - repeat (eapply rtc_r; [|by constructor]). apply rtc_refl.
  - assert (reachable (start (addAfter (bytes_of "once") 5 2 3
      (addTimer (bytes_of "tick") 10 1 0 construct)))) as Hr.
    { repeat (eapply rtc_r; [|by constructor]). apply rtc_refl. }
    destruct (check_fires_due _ 12 Hr) as (cbs & s' & E & Hc).
    exists cbs, s'. split; [exact E|]. split; [exact Hc|]. vm_compute in E. congruence.
Defined.

(** A timer with an interval that is not positive never lets the check
    that finds it due come to an end, with the mutex held. *)
Theorem check_diverges s now n i cb fuel :
  StdMap.sorted (_events s) → Forall (λ e, now < e.1) (_timers s) → _start s = true → i <= 0 →
  check fuel now (addTimer n i cb now s) = None.
Proof.
  intros He Ht Hs Hi. unfold check, addTimer. cbn [_start _timers _events]. rewrite Hs. simpl.
  assert (StdMap.find n (StdMap.assign n (mk_event true i cb) (_events s)) =
    Some (mk_event true i cb)) as Ef by (rewrite StdMap.find_assign by done; by rewrite decide_True).
  assert (StdMap.multi_insert (now + i) n (_timers s) = (now + i, n) :: _timers s) as Em.
  { destruct Ht as [|[t x] l Ht _]; [done|]. simpl in *. by rewrite (proj2 (Z.ltb_lt _ _)) by lia. }
  rewrite Em. cut (∀ fired, check_loop fuel now ((now + i, n) :: _timers s)
    (StdMap.assign n (mk_event true i cb) (_events s)) fired = None); [by intros ->|].
  induction fuel as [|fuel IH]; intros fired; simpl; rewrite (proj2 (Z.ltb_ge _ _)) by lia; [done|].
  rewrite Ef. simpl. by rewrite Em.
Qed.

Example check_diverges_witness :
  check 1000 7 (addTimer (bytes_of "tick") 0 1 7 (start construct)) = None.
Proof.
  refine (check_diverges (start construct) 7 (bytes_of "tick") 0 1 1000 _ _ _ _).
  - constructor.
  - constructor.
  - reflexivity.
  - discriminate.
Defined.
End AsyncTimer.
