(* ===== verification/SortContract.v ===== *)
(** * Sorting: the contract of the routines of codeC++11/Sort.h

    All of them promise the same: the vector holds its items, duplicates
    included, in increasing order.  With a total order on the items the result
    is determined: [sort_spec], which the routines are compared with. *)
From S2P Require Import Prelude StdMap HeapContract.
Export HeapContract.

Module SortContract.
Section order.
Context {K : Type} `{KeyOrder K}.
Implicit Types (x y : K) (s : list K).

Definition sort_spec s : list K := foldr ins [] s.

Lemma sort_spec_sorted s : sorted (sort_spec s).
Proof. induction s; simpl; [constructor|by apply insd_sorted]. Qed.

Lemma sort_spec_perm s : sort_spec s ≡ₚ s.
Proof. induction s as [|x s IH]; simpl; [done|]. by rewrite ins_perm, IH. Qed.

Lemma le_total x y : le x y ∨ le y x.
Proof. destruct (le_cases x y) as [[_ ?]|[_ ?]]; auto. Qed.

(** A sorted list is determined by its items. *)
Lemma sorted_unique s t : sorted s → sorted t → s ≡ₚ t → s = t.
Proof.
  intros Hs. revert t. induction Hs as [|x s Hs IH Hx]; intros t Ht P.
  - by apply Permutation_nil_l in P as <-.
  - destruct (sorted_min x s t Ht P Hx) as (t' & -> & P' & Ht'). f_equal. by apply IH.
Qed.

Lemma sort_spec_unique s t : sorted t → t ≡ₚ s → t = sort_spec s.
Proof.
  intros Ht P. apply sorted_unique; [done|apply sort_spec_sorted|by rewrite sort_spec_perm].
Qed.

Lemma sorted_app s t :
  sorted (s ++ t) ↔ sorted s ∧ sorted t ∧ ∀ x y, x ∈ s → y ∈ t → le x y.
Proof. unfold sorted. rewrite StronglySorted_app. tauto. Qed.

Lemma sorted_snoc s x : sorted s → Forall (λ y, le y x) s → sorted (s ++ [x]).
Proof.
  intros Hs Hx. apply sorted_app. split_and!; [done|repeat constructor|].
  intros y z Hy ->%list_elem_of_singleton. rewrite Forall_forall in Hx. auto.
Qed.

Lemma sorted_singleton x : sorted [x].
Proof. repeat constructor. Qed.

Lemma sorted_short s : (length s <= 1)%nat → sorted s.
Proof.
  destruct s as [|x [|y s]]; simpl; [constructor|repeat constructor|lia].
Qed.
End order.
#[global] Arguments sort_spec : simpl never.
End SortContract.
