(* ===== verification/InsertionSort.v ===== *)
(** * Insertion sort and Shellsort: codeC++11/Sort.h

    The four insertion sorts (whole vector, subarray, iterator range with and
    without a comparison) and [shellsort].  Moving an element copies it: the
    moved-from place is overwritten before it is read.  Bounds that can be -1
    are integers, positions are naturals; [None] is an access outside of the
    vector or the end of the fuel. *)
From Stdlib Require Import ZifyNat.
From S2P Require Import Prelude StdMap HeapContract Arrays SortContract.
Import SortContract.

Module InsertionSort.

#[local] Ltac Zify.zify_post_hook ::= Z.to_euclidean_division_equations.
#[local] Arguments Nat.div : simpl never.

Section sort.
Context {K : Type} `{KeyOrder K}.
Implicit Types a b : list K.

(** The inner loop of the sorts: [gap] is 1 in the insertion sorts,
    where [j > left], and [left] is 0 in Shellsort, where [j >= gap]. *)
Fixpoint slide (fuel left gap j : nat) (tmp : K) (a : list K) : option (list K) :=
  if (left + gap <=? j)%nat then
    x ← a !! (j - gap)%nat;
    if klt tmp x then
      match fuel with
      | O => None
      | S fuel => a ← aset a j x; slide fuel left gap (j - gap) tmp a
      end
    else aset a j tmp
  else aset a j tmp.

(** The outer loop, for [n] values of [p]. *)
Fixpoint insert_loop (n left gap p : nat) (a : list K) : option (list K) :=
  match n with
  | O => Some a
  | S n =>
      tmp ← a !! p;
      a ← slide p left gap p tmp a;
      insert_loop n left gap (S p) a
  end.

Definition insertionSort (a : list K) : option (list K) := insert_loop (length a - 1) 0 1 1 a.

Definition insertionSort_range (left right : Z) (a : list K) : option (list K) :=
  insert_loop (Z.to_nat (right - left)) (Z.to_nat left) 1 (S (Z.to_nat left)) a.

(** [for( int gap = a.size( ) / 2; gap > 0; gap /= 2 )] *)
Fixpoint gap_loop (fuel gap : nat) (a : list K) : option (list K) :=
  if (gap =? 0)%nat then Some a
  else
    match fuel with
    | O => None
    | S fuel =>
        a ← insert_loop (length a - gap) 0 gap gap a;
        gap_loop fuel (gap / 2) a
    end.

Definition shellsort (a : list K) : option (list K) := gap_loop (length a) (length a / 2) a.

(** Iterators into one vector are positions in it. *)
Fixpoint slide_iter (fuel begin j : nat) (lessThan : K → K → bool) (tmp : K) (a : list K) :
    option (list K) :=
  if (j =? begin)%nat then aset a j tmp
  else
    x ← a !! (j - 1)%nat;
    if lessThan tmp x then
      match fuel with
      | O => None
      | S fuel => a ← aset a j x; slide_iter fuel begin (j - 1) lessThan tmp a
      end
    else aset a j tmp.

Fixpoint iter_loop (fuel begin end_ p : nat) (lessThan : K → K → bool) (a : list K) :
    option (list K) :=
  if (p =? end_)%nat then Some a
  else
    match fuel with
    | O => None
    | S fuel =>
        tmp ← a !! p;
        a ← slide_iter p begin p lessThan tmp a;
        iter_loop fuel begin end_ (S p) lessThan a
    end.

Definition insertionSort_by (begin end_ : nat) (lessThan : K → K → bool) (a : list K) :
    option (list K) :=
  if (begin =? end_)%nat then Some a else iter_loop (length a) begin end_ (begin + 1) lessThan a.

Definition insertionSort_iter (begin end_ : nat) (a : list K) : option (list K) :=
  insertionSort_by begin end_ klt a.

(** ** One insertion *)

(** The sorted run before the hole takes the item in. *)
Lemma slide_run fuel pre s h rest tmp :
  (length pre + length s <= fuel)%nat → sorted s →
  slide fuel (length pre) 1 (length pre + length s) tmp (pre ++ s ++ h :: rest) =
    Some (pre ++ sort_spec (tmp :: s) ++ rest).
Proof.
  revert fuel h rest. induction s as [|y s IH] using rev_ind; intros fuel h rest Hf Hs.
  - simpl in *. assert (aset (pre ++ h :: rest) (length pre + 0) tmp = Some (pre ++ tmp :: rest)) as E.
    { rewrite aset_lt by (rewrite length_app; simpl; lia).
      rewrite insert_app_r_alt, Nat.add_0_r, Nat.sub_diag by lia. done. }
    destruct fuel; simpl; rewrite (proj2 (Nat.leb_gt _ _)) by lia; done.
  - rewrite length_app in *. simpl in *. apply sorted_app in Hs as (Hs & _ & Hy).
    assert ((pre ++ (s ++ [y]) ++ h :: rest) !! (length pre + (length s + 1) - 1)%nat = Some y) as Ey.
    { rewrite lookup_app_r by lia. rewrite <- (assoc_L (++)), lookup_app_r by lia.
      by replace (length pre + (length s + 1) - 1 - length pre - length s)%nat with 0%nat by lia. }
    assert (∀ z, aset (pre ++ (s ++ [y]) ++ h :: rest) (length pre + (length s + 1)) z =
      Some (pre ++ (s ++ [y]) ++ z :: rest)) as Es.
    { intros z. rewrite aset_lt by (rewrite !length_app; simpl; lia).
      rewrite insert_app_r_alt, insert_app_r_alt by (rewrite ?length_app; simpl; lia).
      rewrite length_app. simpl.
      by replace (length pre + (length s + 1) - length pre - (length s + 1))%nat with 0%nat by lia. }
    assert (∀ t, t ≡ₚ tmp :: s ++ [y] → sorted t → t = sort_spec (tmp :: s ++ [y])) as U
      by (intros; by apply sort_spec_unique).
    destruct fuel as [|fuel]; [lia|]. cbn [slide].
    rewrite (proj2 (Nat.leb_le _ _)), Ey by lia. simpl.
    destruct (le_cases tmp y) as [[-> L]|[-> L]].
    + rewrite Es. simpl. replace (length pre + (length s + 1) - 1)%nat with (length pre + length s)%nat by lia.
      rewrite <- (assoc_L (++)). simpl. rewrite IH by (done || lia). simpl.
      f_equal. f_equal. rewrite <- (U (sort_spec (tmp :: s) ++ [y])).
      * by rewrite <- (assoc_L (++)).
      * rewrite sort_spec_perm. solve_Permutation.
      * apply sorted_snoc; [apply sort_spec_sorted|].
        rewrite sort_spec_perm. constructor; [done|]. apply Forall_forall. intros z Hz.
        apply Hy; [done|by apply list_elem_of_singleton].
    + rewrite Es. f_equal. f_equal. rewrite <- (U ((s ++ [y]) ++ [tmp])).
      * by rewrite <- (assoc_L (++) _ [tmp]).
      * solve_Permutation.
      * apply sorted_snoc.
        -- apply sorted_snoc; [done|]. apply Forall_forall. intros z Hz.
           apply Hy; [done|by apply list_elem_of_singleton].
        -- apply Forall_app. split; [|by repeat constructor]. apply Forall_forall. intros z Hz.
           apply (le_trans _ y); [|done]. apply Hy; [done|by apply list_elem_of_singleton].
Qed.

Lemma insert_loop_run pre t : ∀ s post,
  sorted s →
  insert_loop (length t) (length pre) 1 (length pre + length s) (pre ++ s ++ t ++ post) =
    Some (pre ++ sort_spec (s ++ t) ++ post).
Proof.
  induction t as [|x t IH]; intros s post Hs.
  - simpl. rewrite app_nil_r. do 3 f_equal. by apply sort_spec_unique.
  - cbn [insert_loop length].
    assert ((pre ++ s ++ (x :: t) ++ post) !! (length pre + length s)%nat = Some x) as ->.
    { rewrite lookup_app_r, lookup_app_r by lia.
      by replace (length pre + length s - length pre - length s)%nat with 0%nat by lia. }
    simpl. rewrite slide_run by (done || lia). simpl.
    assert (length (sort_spec (x :: s)) = S (length s)) as L by by rewrite sort_spec_perm.
    replace (S (length pre + length s)) with (length pre + length (sort_spec (x :: s)))%nat by lia.
    rewrite IH by apply sort_spec_sorted. do 3 f_equal.
    apply sort_spec_unique; [apply sort_spec_sorted|]. rewrite !sort_spec_perm. solve_Permutation.
Qed.

Lemma insert_loop_all pre s post :
  insert_loop (length s - 1) (length pre) 1 (S (length pre)) (pre ++ s ++ post) =
    Some (pre ++ sort_spec s ++ post).
Proof.
  destruct s as [|x t]; [done|]. cbn [length]. rewrite Nat.sub_succ, Nat.sub_0_r.
  pose proof (insert_loop_run pre t [x] post (sorted_singleton x)) as E.
  simpl in E. by rewrite Nat.add_1_r in E.
Qed.

Lemma insertionSort_range_ok pre s post left right :
  left = zlen pre → right = zlen pre + zlen s - 1 →
  insertionSort_range left right (pre ++ s ++ post) = Some (pre ++ sort_spec s ++ post).
Proof.
  intros -> ->. unfold insertionSort_range, zlen. rewrite Nat2Z.id.
  replace (Z.to_nat _) with (length s - 1)%nat by lia. apply insert_loop_all.
Qed.

Lemma insertionSort_ok a : insertionSort a = Some (sort_spec a).
Proof.
  pose proof (insert_loop_all [] a []) as E. simpl in E. by rewrite !app_nil_r in E.
Qed.

(** ** The iterator range *)

Lemma slide_iter_slide fuel begin j tmp a :
  (begin <= j)%nat → slide_iter fuel begin j klt tmp a = slide fuel begin 1 j tmp a.
Proof.
  revert j a. induction fuel as [|fuel IH]; intros j a Hj; simpl;
    (destruct (Nat.eqb_spec j begin) as [->|Hne];
      [by rewrite (proj2 (Nat.leb_gt _ _)) by lia|rewrite (proj2 (Nat.leb_le _ _)) by lia]);
    [done|].
  destruct (a !! (j - 1)%nat) as [x|]; simpl; [|done]. destruct (klt tmp x); [|done].
  destruct (aset a j x) as [b|]; simpl; [|done]. apply IH. lia.
Qed.

Lemma iter_loop_insert n fuel begin p a :
  (n <= fuel)%nat → (begin <= p)%nat →
  iter_loop fuel begin (p + n) p klt a = insert_loop n begin 1 p a.
Proof.
  revert fuel p a. induction n as [|n IH]; intros fuel p a Hf Hp.
  - rewrite Nat.add_0_r. destruct fuel; simpl; by rewrite Nat.eqb_refl.
  - destruct fuel as [|fuel]; [lia|]. cbn [iter_loop insert_loop].
    rewrite (proj2 (Nat.eqb_neq _ _)) by lia. destruct (a !! p) as [tmp|]; simpl; [|done].
    rewrite slide_iter_slide by done. destruct (slide _ _ _ _ _ _) as [b|]; simpl; [|done].
    rewrite <- (IH fuel (S p)) by lia. f_equal. lia.
Qed.

Lemma insertionSort_iter_ok pre s post :
  insertionSort_iter (length pre) (length pre + length s) (pre ++ s ++ post) =
    Some (pre ++ sort_spec s ++ post).
Proof.
  unfold insertionSort_iter, insertionSort_by. rewrite <- insert_loop_all.
  destruct (Nat.eqb_spec (length pre) (length pre + length s)) as [E|E].
  - by destruct s; [|simpl in E; lia].
  - replace (length pre + length s)%nat with ((length pre + 1) + (length s - 1))%nat by lia.
    rewrite iter_loop_insert by (rewrite ?length_app; lia). by rewrite Nat.add_1_r.
Qed.

(** ** Shellsort: the passes before the last one permute *)

Lemma slide_perm fuel left gap j tmp a :
  (0 < gap)%nat → (j <= fuel)%nat → (j < length a)%nat →
  ∃ b, slide fuel left gap j tmp a = Some b ∧ b ≡ₚ <[j := tmp]> a.
Proof.
  intros Hg. revert j a. induction fuel as [|fuel IH]; intros j a Hf Hj; cbn [slide];
    (destruct (Nat.leb_spec (left + gap) j) as [Hle|Hgt]; [|rewrite aset_lt by done; eauto]); [lia|].
  assert (is_Some (a !! (j - gap)%nat)) as [x Ex] by (apply lookup_lt_is_Some; lia).
  rewrite Ex. simpl. destruct (klt tmp x); rewrite aset_lt by done; simpl; [|eauto].
  destruct (IH (j - gap)%nat (<[j := x]> a)) as (b & -> & P); [lia|rewrite length_insert; lia|].
  exists b. split; [done|]. rewrite P.
  pose proof (populate x : Inhabited K) as I. rewrite aget_lt in Ex by lia.
  injection Ex as <-. rewrite tswap_insert by lia.
  apply tswap_perm; rewrite length_insert; lia.
Qed.

Lemma insert_loop_perm n left gap p a :
  (0 < gap)%nat → (p + n <= length a)%nat → ∃ b, insert_loop n left gap p a = Some b ∧ b ≡ₚ a.
Proof.
  intros Hg. revert p a. induction n as [|n IH]; intros p a Hl; cbn [insert_loop]; [eauto|].
  assert (is_Some (a !! p)) as [x Ex] by (apply lookup_lt_is_Some; lia).
  rewrite Ex. simpl. destruct (slide_perm p left gap p x a) as (b & -> & P); [lia..|]. simpl.
  rewrite list_insert_id in P by done. pose proof (Permutation_length P).
  destruct (IH (S p) b) as (c & -> & P'); [lia|]. exists c. split; [done|]. by rewrite P', P.
Qed.

Lemma gap_loop_ok fuel gap a :
  (gap <= fuel)%nat → (gap <= length a)%nat → (gap = 0 → length a <= 1)%nat →
  gap_loop fuel gap a = Some (sort_spec a).
Proof.
  revert gap a. induction fuel as [|fuel IH]; intros gap a Hf Hl H0; cbn [gap_loop];
    (destruct (Nat.eqb_spec gap 0) as [E|E];
      [f_equal; apply sort_spec_unique; [by apply sorted_short, H0|done]|]); [lia|].
  destruct (decide (gap = 1)%nat) as [->|Hne].
  - change (insert_loop (length a - 1) 0 1 1 a) with (insertionSort a).
    rewrite insertionSort_ok. simpl. by destruct fuel.
  - destruct (insert_loop_perm (length a - gap) 0 gap gap a) as (b & -> & P); [lia..|]. simpl.
    pose proof (Permutation_length P). rewrite IH by lia. f_equal.
    apply sort_spec_unique; [apply sort_spec_sorted|]. by rewrite sort_spec_perm.
Qed.
End sort.

(** the insertion sorts, of a vector, of a subarray and of an iterator
    range, and Shellsort never leave the vector and put exactly their part of
    it in increasing order. *)
Lemma simple_sorts_sort `{KeyOrder K} (pre s post : list K) :
  insertionSort s = Some (sort_spec s) ∧
  insertionSort_range (zlen pre) (zlen pre + zlen s - 1) (pre ++ s ++ post) =
    Some (pre ++ sort_spec s ++ post) ∧
  insertionSort_iter (length pre) (length pre + length s) (pre ++ s ++ post) =
    Some (pre ++ sort_spec s ++ post) ∧
  shellsort s = Some (sort_spec s) ∧
  sorted (sort_spec s) ∧ sort_spec s ≡ₚ s.
Proof.
  split_and!.
  - apply insertionSort_ok.
  - by apply insertionSort_range_ok.
  - apply insertionSort_iter_ok.
  - apply gap_loop_ok; lia.
  - apply sort_spec_sorted.
  - apply sort_spec_perm.
Qed.
End InsertionSort.
