(* ===== verification/HeapSort.v ===== *)
(** * Heapsort: codeC++11/Sort.h

    [heapsort] with its implicit max-heap at the positions 0, ..., n - 1: the
    children of position i are at 2i + 1 and 2i + 2.  Moving an element copies
    it.  [None] is an access outside of the vector or the end of the fuel. *)
From Stdlib Require Import ZifyNat.
From S2P Require Import Prelude StdMap HeapContract Arrays SortContract.
Import SortContract.

Module HeapSort.

#[local] Ltac Zify.zify_post_hook ::= Z.to_euclidean_division_equations.
#[local] Arguments Nat.div : simpl never.
#[local] Arguments Nat.mul : simpl never.

Definition leftChild (i : nat) : nat := (2 * i + 1)%nat.

Section sort.
Context {K : Type} `{KeyOrder K}.

(** The loop of [percDown]: the larger child moves up into the hole. *)
Fixpoint perc_down (fuel n i : nat) (tmp : K) (a : list K) : option (list K) :=
  if (leftChild i <? n)%nat then
    match fuel with
    | O => None
    | S fuel =>
        let child := leftChild i in
        child ← (if (child =? n - 1)%nat then Some child
                 else l ← a !! child; r ← a !! S child;
                      Some (if klt l r then S child else child));
        c ← a !! child;
        if klt tmp c
        then a ← aset a i c; perc_down fuel n child tmp a
        else aset a i tmp
    end
  else aset a i tmp.

Definition percDown (a : list K) (i n : nat) : option (list K) :=
  tmp ← a !! i;
  perc_down n n i tmp a.

(** [k] is the loop variable plus one. *)
Fixpoint build_loop (k : nat) (a : list K) : option (list K) :=
  match k with
  | O => Some a
  | S i => a ← percDown a i (length a); build_loop i a
  end.

Fixpoint drain_loop (j : nat) (a : list K) : option (list K) :=
  match j with
  | O => Some a
  | S j' =>
      a ← aswap a 0 j;
      a ← percDown a 0 j;
      drain_loop j' a
  end.

Definition heapsort (a : list K) : option (list K) :=
  a ← build_loop (length a / 2) a;
  drain_loop (length a - 1) a.

(** ** Heap order *)

Context `{Inhabited K}.
Implicit Types (a b : list K).

Definition parent (i : nat) : nat := ((i - 1) / 2)%nat.
#[local] Hint Unfold parent leftChild : core.
Ltac plia := unfold parent, leftChild in *; lia.

(** Every position whose parent is [k] or later is not above its parent. *)
Definition ordered_from (k n : nat) a : Prop :=
  ∀ i, (1 <= i < n)%nat → (k <= parent i)%nat → le (a !!! i) (a !!! parent i).

(** The same but for the children of [hole], which are not above the parent of
    [hole]. *)
Record down_inv (k n hole : nat) a : Prop := {
  down_order i : (1 <= i < n)%nat → (k <= parent i)%nat → parent i ≠ hole →
    le (a !!! i) (a !!! parent i);
  down_above i : (1 <= i < n)%nat → parent i = hole → (1 <= hole)%nat → (k <= parent hole)%nat →
    le (a !!! i) (a !!! parent hole);
}.

(** What a percolation makes of the array: the items before [n] are exchanged. *)
Record percolated (k n : nat) a b : Prop := {
  pc_length : length b = length a;
  pc_items : take n b ≡ₚ take n a;
  pc_rest : drop n b = drop n a;
  pc_order : ordered_from k n b;
}.

Lemma perc_swap k n hole c a :
  (k <= hole)%nat → (n <= length a)%nat → (1 <= c < n)%nat → parent c = hole →
  down_inv k n hole a → le (a !!! hole) (a !!! c) →
  (∀ i, (1 <= i < n)%nat → parent i = hole → le (a !!! i) (a !!! c)) →
  down_inv k n c (tswap a hole c).
Proof.
  intros Hk Hn Hc Hp [Ho Ha] Hle Hmax. split; intros i Hi.
  - intros Hki Hic. rewrite !lookup_tswap by plia.
    rewrite (decide_False (P := parent i = c)) by done.
    destruct (decide (parent i = hole)) as [E|E].
    + destruct (decide (i = c)) as [->|]; [done|]. rewrite decide_False by plia. by apply Hmax.
    + rewrite decide_False by (intros ->; plia). destruct (decide (i = hole)) as [->|].
      * apply Ha; [plia..|done].
      * by apply Ho.
  - intros E _ _. rewrite !lookup_tswap by plia. rewrite Hp.
    rewrite (decide_False (P := hole = c)), (decide_True (P := hole = hole)) by plia.
    rewrite decide_False, decide_False by plia. rewrite <- E. apply Ho; plia.
Qed.

Lemma perc_done k n hole a :
  down_inv k n hole a →
  (∀ i, (1 <= i < n)%nat → parent i = hole → le (a !!! i) (a !!! hole)) → ordered_from k n a.
Proof.
  intros [Ho _] Hh i Hi Hk. destruct (decide (parent i = hole)) as [E|E]; [|by apply Ho].
  rewrite E. by apply Hh.
Qed.

(** The child that the loop chooses. *)
Lemma max_child n i a :
  (leftChild i < n)%nat → (n <= length a)%nat →
  ∃ c, (if (leftChild i =? n - 1)%nat then Some (leftChild i)
        else l ← a !! leftChild i; r ← a !! S (leftChild i);
             Some (if klt l r then S (leftChild i) else leftChild i)) = Some c ∧
    (1 <= c < n)%nat ∧ parent c = i ∧
    ∀ j, (1 <= j < n)%nat → parent j = i → le (a !!! j) (a !!! c).
Proof.
  intros Hi Hn. destruct (Nat.eqb_spec (leftChild i) (n - 1)) as [E|E].
  - exists (leftChild i). split_and!; [done|plia..|]. intros j Hj Ej.
    replace j with (leftChild i) by plia. apply le_refl.
  - rewrite !aget_lt by plia. simpl. eexists. split; [done|].
    destruct (le_cases (a !!! leftChild i) (a !!! S (leftChild i))) as [[-> L]|[-> L]];
      (split; [plia|split; [plia|]]); intros j Hj Ej;
      (assert (j = leftChild i ∨ j = S (leftChild i))%nat as [-> | ->] by plia); try done;
      apply le_refl.
Qed.

Lemma perc_down_ok fuel k n i tmp a :
  (k <= i)%nat → (n <= length a)%nat → (i < n)%nat → (n <= i + fuel)%nat →
  down_inv k n i (<[i := tmp]> a) →
  ∃ b, perc_down fuel n i tmp a = Some b ∧ percolated k n (<[i := tmp]> a) b.
Proof.
  revert i a. induction fuel as [|fuel IH]; intros i a Hk Hn Hl Hf Hinv; [lia|].
  cbn [perc_down]. destruct (Nat.ltb_spec (leftChild i) n) as [Hle|Hgt].
  2:{ rewrite aset_lt by lia. eexists. split; [done|]. split; [done..|].
      apply (perc_done _ _ i); [done|]. intros; plia. }
  destruct (max_child n i a Hle Hn) as (c & E & Hc & Hp & Hmax). cbv zeta. rewrite E. simpl.
  rewrite aget_lt by lia. simpl. rewrite aset_lt by lia.
  set (b := <[i:=tmp]> a) in *.
  assert (∀ j, (j < n)%nat → j ≠ i → b !!! j = a !!! j) as Hb.
  { intros j Hj Hne. unfold b. rewrite lookup_total_insert by lia. by rewrite decide_False. }
  assert (b !!! i = tmp) as Hbh.
  { unfold b. rewrite lookup_total_insert by lia. by rewrite decide_True. }
  destruct (le_cases tmp (a !!! c)) as [[-> L]|[-> L]].
  - simpl. assert (<[c:=tmp]> (<[i:=a !!! c]> a) = tswap b i c) as Es
      by (unfold b; apply tswap_insert; plia).
    destruct (IH c (<[i := a !!! c]> a)) as (r & -> & [Lr Pr Dr Or]); rewrite ?length_insert;
      [plia..| |].
    + rewrite Es. apply perc_swap; rewrite ?Hbh, ?Hb by plia; try done.
      * unfold b. by rewrite length_insert.
      * intros j Hj Ej. rewrite Hb by plia. by apply Hmax.
    + exists r. split; [done|]. rewrite Es in *. split; [| | |done].
      * by rewrite Lr, length_tswap.
      * rewrite Pr. apply (slice_swap 0 n); unfold b; rewrite ?length_insert; lia.
      * rewrite Dr. unfold tswap. by rewrite !drop_insert_lt by plia.
  - rewrite aset_lt by lia. eexists. split; [done|]. split; [done..|].
    apply (perc_done _ _ i); [done|]. intros j Hj Ej. change (<[i:=tmp]> a) with b. rewrite Hbh, Hb by plia.
    apply (le_trans _ (a !!! c)); [|done]. by apply Hmax.
Qed.

Lemma percDown_ok k n a :
  (k < n)%nat → (n <= length a)%nat → ordered_from (S k) n a →
  ∃ b, percDown a k n = Some b ∧ percolated k n a b.
Proof.
  intros Hk Hn Ho. unfold percDown. rewrite aget_lt by lia. simpl.
  assert (<[k := a !!! k]> a = a) as E by (apply list_insert_id, aget_lt; lia).
  destruct (perc_down_ok n k n k (a !!! k) a) as (b & -> & Hb); try done; try lia.
  - rewrite E. split; [|plia]. intros i Hi Hki Hne. apply Ho; plia.
  - exists b. by rewrite E in Hb.
Qed.

Lemma heapsort_build_ok k a :
  (k <= length a)%nat → ordered_from k (length a) a →
  ∃ b, build_loop k a = Some b ∧ b ≡ₚ a ∧ ordered_from 0 (length b) b.
Proof.
  revert a. induction k as [|k IH]; intros a Hk Ho; cbn [build_loop]; [eauto|].
  destruct (percDown_ok k (length a) a) as (b & -> & [Lb Pb _ Ob]); [lia..|done|]. simpl.
  rewrite <- Lb in Pb at 1. rewrite !firstn_all in Pb. rewrite <- Lb in Ob.
  destruct (IH b) as (c & -> & Pc & Oc); [lia|done|].
  exists c. split_and!; [done|by rewrite Pc|done].
Qed.

(** The root is the largest item. *)
Lemma root_max n a i : ordered_from 0 n a → (i < n)%nat → le (a !!! i) (a !!! 0%nat).
Proof.
  intros Ho. induction i as [i IH] using lt_wf_ind. intros Hi.
  destruct (decide (i = 0)%nat) as [->|]; [apply le_refl|].
  apply (le_trans _ (a !!! parent i)); [apply Ho; plia|apply IH; plia].
Qed.

Lemma root_max_take n a x : ordered_from 0 n a → (n <= length a)%nat → x ∈ take n a → le x (a !!! 0%nat).
Proof.
  intros Ho Hn Hx. destruct (elem_of_slice 0 n a x Hn Hx) as (i & Hi & ->). apply (root_max n); [done|lia].
Qed.

Lemma drain_loop_ok j a :
  (j < length a)%nat → ordered_from 0 (S j) a → sorted (drop (S j) a) →
  (∀ x y, x ∈ take (S j) a → y ∈ drop (S j) a → le x y) →
  drain_loop j a = Some (sort_spec a).
Proof.
  revert a. induction j as [|j IH]; intros a Hj Ho Hs Hle.
  - simpl. f_equal. apply sort_spec_unique; [|done]. rewrite <- (take_drop 1 a). apply sorted_app.
    split_and!; [|done..]. apply sorted_short. rewrite length_take. lia.
  - cbn [drain_loop]. rewrite aswap_lt by lia. simpl. set (b := tswap a 0 (S j)).
    assert (length b = length a) as Lb by apply length_tswap.
    assert (drop (S j) b = a !!! 0%nat :: drop (S (S j)) a) as Db.
    { rewrite <- (take_drop_middle b (S j) (a !!! 0%nat)).
      - rewrite drop_app_length' by (rewrite length_take; lia). f_equal. unfold b, tswap.
        by rewrite !drop_insert_lt by lia.
      - rewrite aget_lt by lia. f_equal. unfold b. rewrite lookup_tswap by lia. by rewrite decide_True. }
    assert (∀ x, x ∈ take (S j) b → x ∈ take (S (S j)) a) as Tb.
    { intros x Hx. rewrite <- (slice_swap 0 (S (S j)) a 0 (S j)) by lia. fold b.
      unfold slice. rewrite drop_0. rewrite <- (take_drop (S j) (take (S (S j)) b)), take_take.
      rewrite Nat.min_l by lia. apply elem_of_app. by left. }
    destruct (percDown_ok 0 (S j) b) as (c & -> & [Lc Pc Dc Oc]); [lia..| |].
    { intros i Hi Hp. unfold b. rewrite !lookup_tswap by plia. rewrite !decide_False by plia. apply Ho; plia. }
    simpl. rewrite Db in Dc.
    assert (c ≡ₚ a) as Pca.
    { rewrite <- (take_drop (S j) c), Pc, Dc, <- Db, take_drop. apply tswap_perm; lia. }
    rewrite IH; [f_equal; apply sort_spec_unique; [apply sort_spec_sorted|by rewrite sort_spec_perm]|..].
    + lia.
    + done.
    + rewrite Dc. constructor; [done|]. apply Forall_forall. intros y Hy. apply Hle; [|done].
      destruct a as [|x a]; [simpl in Hj; lia|]. simpl. left.
    + intros x y Hx. rewrite Pc in Hx. apply Tb in Hx. rewrite Dc, elem_of_cons. intros [->|Hy].
      * by apply (root_max_take (S (S j))).
      * by apply Hle.
Qed.

Lemma heapsort_ok a : heapsort a = Some (sort_spec a).
Proof.
  unfold heapsort. destruct (heapsort_build_ok (length a / 2) a) as (b & -> & P & Ho).
  { lia. }
  { intros i Hi Hp. plia. }
  simpl. assert (sort_spec a = sort_spec b) as ->.
  { apply sort_spec_unique; [apply sort_spec_sorted|]. by rewrite sort_spec_perm, P. }
  destruct b as [|x b]; [done|]. set (l := x :: b) in *.
  assert (0 < length l)%nat by (simpl; lia).
  apply drain_loop_ok; [lia|..].
  - by replace (S (length l - 1)) with (length l) by lia.
  - rewrite drop_ge by lia. constructor.
  - intros y z _. rewrite drop_ge by lia. by intros ?%elem_of_nil.
Qed.
End sort.

(** heapsort never leaves the vector, comes to an end and puts the items
    in increasing order. *)
Lemma heapsort_sorts `{KeyOrder K} (a : list K) :
  heapsort a = Some (sort_spec a) ∧ sorted (sort_spec a) ∧ sort_spec a ≡ₚ a.
Proof.
  split; [|split; [apply sort_spec_sorted|apply sort_spec_perm]].
  destruct a as [|x a]; [done|]. by apply (heapsort_ok (H0 := populate x)).
Qed.
End HeapSort.
