(* ===== verification/MergeSort.v ===== *)
(** * Mergesort: codeC++11/Sort.h

    The recursive [mergeSort] with its scratch vector.  The bounds of a
    subarray can be -1 and are integers, positions are naturals.  Moving an
    element copies it: what is moved out of [a] is overwritten when the
    merged run comes back.  [None] is an access outside of a vector or the
    end of the fuel. *)
From Stdlib Require Import ZifyNat.
From S2P Require Import Prelude StdMap HeapContract Arrays SortContract.
Import SortContract.

Module MergeSort.

#[local] Ltac Zify.zify_post_hook ::= Z.to_euclidean_division_equations.

Section sort.
Context {K : Type} `{KeyOrder K}.

(** The main loop: [leftPos], [rightPos], [tmpPos] and the scratch vector. *)
Fixpoint merge_main (fuel leftPos leftEnd rightPos rightEnd tmpPos : nat) (a tmpArray : list K) :
    option (nat * nat * nat * list K) :=
  if (leftPos <=? leftEnd)%nat && (rightPos <=? rightEnd)%nat then
    match fuel with
    | O => None
    | S fuel =>
        x ← a !! leftPos;
        y ← a !! rightPos;
        if negb (klt y x)
        then tmpArray ← aset tmpArray tmpPos x;
             merge_main fuel (S leftPos) leftEnd rightPos rightEnd (S tmpPos) a tmpArray
        else tmpArray ← aset tmpArray tmpPos y;
             merge_main fuel leftPos leftEnd (S rightPos) rightEnd (S tmpPos) a tmpArray
    end
  else Some (leftPos, rightPos, tmpPos, tmpArray).

(** The loop that copies the rest of one half; [n] bounds its rounds. *)
Fixpoint copy_rest (n pos end_ tmpPos : nat) (a tmpArray : list K) : option (nat * list K) :=
  if (pos <=? end_)%nat then
    match n with
    | O => None
    | S n =>
        x ← a !! pos;
        tmpArray ← aset tmpArray tmpPos x;
        copy_rest n (S pos) end_ (S tmpPos) a tmpArray
    end
  else Some (tmpPos, tmpArray).

Fixpoint copy_back (numElements rightEnd : nat) (tmpArray a : list K) : option (list K) :=
  match numElements with
  | O => Some a
  | S n =>
      x ← tmpArray !! rightEnd;
      a ← aset a rightEnd x;
      copy_back n (rightEnd - 1) tmpArray a
  end.

(** The three loops that fill the scratch vector. *)
Definition merge_fill (leftPos rightPos rightEnd : nat) (a tmpArray : list K) : option (list K) :=
  let leftEnd := (rightPos - 1)%nat in
  let tmpPos := leftPos in
  let fuel := (S rightEnd - leftPos)%nat in
  match merge_main fuel leftPos leftEnd rightPos rightEnd tmpPos a tmpArray with
  | None => None
  | Some (leftPos, rightPos, tmpPos, tmpArray) =>
      '(tmpPos, tmpArray) ← copy_rest fuel leftPos leftEnd tmpPos a tmpArray;
      '(_, tmpArray) ← copy_rest fuel rightPos rightEnd tmpPos a tmpArray;
      Some tmpArray
  end.

Definition merge (a tmpArray : list K) (leftPos rightPos rightEnd : nat) :
    option (list K * list K) :=
  let numElements := (rightEnd - leftPos + 1)%nat in
  tmpArray ← merge_fill leftPos rightPos rightEnd a tmpArray;
  a ← copy_back numElements rightEnd tmpArray a;
  Some (a, tmpArray).

Fixpoint mergeSort_rec (fuel : nat) (left right : Z) (a tmpArray : list K) :
    option (list K * list K) :=
  if left <? right then
    match fuel with
    | O => None
    | S fuel =>
        let center := (left + right) / 2 in
        '(a, tmpArray) ← mergeSort_rec fuel left center a tmpArray;
        '(a, tmpArray) ← mergeSort_rec fuel (center + 1) right a tmpArray;
        merge a tmpArray (Z.to_nat left) (Z.to_nat (center + 1)) (Z.to_nat right)
    end
  else Some (a, tmpArray).

(** [dflt] is the default-constructed element. *)
Definition mergeSort (dflt : K) (a : list K) : option (list K) :=
  '(a, _) ← mergeSort_rec (length a) 0 (zlen a - 1) a (replicate (length a) dflt);
  Some a.

(** ** Merging *)

Implicit Types (a tmp r : list K).

Lemma copy_rest_ok r : ∀ n pos end_ p a tmp,
  (length r <= n)%nat → (end_ < length a)%nat → (p + length r <= length tmp)%nat →
  slice pos (S end_) a = r →
  copy_rest n pos end_ p a tmp = Some ((p + length r)%nat, put p r tmp).
Proof.
  induction r as [|x r IH]; intros n pos end_ p a tmp Hn He Hp E; simpl in Hn, Hp.
  - apply slice_empty_inv in E; [|lia]. simpl. rewrite put_nil, Nat.add_0_r.
    destruct n; simpl; by rewrite (proj2 (Nat.leb_gt _ _)) by lia.
  - apply slice_cons_inv in E as (Ex & E & Hlt). destruct n as [|n]; [lia|]. cbn [copy_rest].
    rewrite (proj2 (Nat.leb_le _ _)), Ex by lia. simpl. rewrite aset_lt by lia. simpl.
    rewrite (IH n) by (rewrite ?length_insert; done || lia). rewrite put_step by lia.
    do 2 f_equal. lia.
Qed.

Lemma merge_fill_ok fuel n : ∀ leftPos leftEnd rightPos rightEnd p a tmp r1 r2,
  (length r1 + length r2 <= fuel)%nat → (length r1 + length r2 <= n)%nat →
  (leftEnd < length a)%nat → (rightEnd < length a)%nat →
  (p + (length r1 + length r2) <= length tmp)%nat →
  slice leftPos (S leftEnd) a = r1 → slice rightPos (S rightEnd) a = r2 →
  sorted r1 → sorted r2 →
  match merge_main fuel leftPos leftEnd rightPos rightEnd p a tmp with
  | None => None
  | Some (leftPos, rightPos, p, tmp) =>
      '(p, tmp) ← copy_rest n leftPos leftEnd p a tmp;
      '(_, tmp) ← copy_rest n rightPos rightEnd p a tmp;
      Some tmp
  end = Some (put p (sort_spec (r1 ++ r2)) tmp).
Proof.
  induction fuel as [|fuel IH]; intros leftPos leftEnd rightPos rightEnd p a tmp r1 r2
    Hf Hn Hl Hr Hp E1 E2 S1 S2; cbn [merge_main].
  - destruct r1, r2; simpl in Hf; try lia. pose proof (slice_empty_inv _ _ _ Hl E1) as L1.
    rewrite (proj2 (Nat.leb_gt _ _)) by lia. simpl.
    rewrite (copy_rest_ok []) by (simpl; done || lia). simpl.
    rewrite (copy_rest_ok []); rewrite ?put_nil; simpl; try done; try lia.
    change (sort_spec []) with (@nil K). by rewrite put_nil.
  - destruct r1 as [|x r1].
    { pose proof (slice_empty_inv _ _ _ Hl E1) as L1.
      rewrite (proj2 (Nat.leb_gt _ _)) by lia. simpl.
      rewrite (copy_rest_ok []) by (simpl; done || lia). simpl. rewrite put_nil, Nat.add_0_r.
      rewrite (copy_rest_ok r2) by (simpl in *; done || lia). simpl.
      do 2 f_equal. by apply sort_spec_unique. }
    destruct r2 as [|y r2].
    { pose proof (slice_empty_inv _ _ _ Hr E2) as L2.
      rewrite (proj2 (Nat.leb_gt rightPos _)), andb_false_r by lia.
      rewrite (copy_rest_ok (x :: r1)) by (simpl in *; done || lia). cbn [mbind option_bind].
      rewrite (copy_rest_ok []).
      - cbn [mbind option_bind]. rewrite put_nil, app_nil_r. do 2 f_equal. by apply sort_spec_unique.
      - simpl in *. lia.
      - done.
      - unfold put. rewrite !length_app, length_take, length_drop. simpl in *. lia.
      - done. }
    pose proof E1 as (Ex & E1' & H1)%slice_cons_inv. pose proof E2 as (Ey & E2' & H2)%slice_cons_inv.
    simpl in Hf, Hn, Hp. rewrite !(proj2 (Nat.leb_le _ _)) by lia. simpl. rewrite Ex, Ey. simpl.
    pose proof S1 as [Hx S1']%StronglySorted_cons. pose proof S2 as [Hy S2']%StronglySorted_cons.
    destruct (le_cases y x) as [[-> L]|[-> L]]; simpl; rewrite aset_lt by lia; simpl.
    + rewrite (IH _ _ _ _ _ _ _ (x :: r1) r2); rewrite ?length_insert; simpl; try done; try lia.
      rewrite put_step by lia. do 2 f_equal.
      apply sort_spec_unique.
      * constructor; [apply sort_spec_sorted|]. rewrite sort_spec_perm.
        constructor; [done|]. apply Forall_app. split; [|done].
        eapply Forall_impl; [exact Hx|]. intros z. by apply le_trans.
      * rewrite sort_spec_perm. solve_Permutation.
    + rewrite (IH _ _ _ _ _ _ _ r1 (y :: r2)); rewrite ?length_insert; simpl; try done; try lia.
      rewrite put_step by lia. do 2 f_equal.
      apply sort_spec_unique.
      * constructor; [apply sort_spec_sorted|]. rewrite sort_spec_perm.
        apply Forall_app. split; [done|]. constructor; [done|].
        eapply Forall_impl; [exact Hy|]. intros z. by apply le_trans.
      * rewrite sort_spec_perm. solve_Permutation.
Qed.

(** ** Copying back *)

Lemma copy_back_ok n : ∀ e tmp a,
  (n <= S e)%nat → (e < length a)%nat → (e < length tmp)%nat →
  copy_back n e tmp a = Some (take (S e - n) a ++ slice (S e - n) (S e) tmp ++ drop (S e) a).
Proof.
  induction n as [|n IH]; intros e tmp a Hn Ha Ht; cbn [copy_back].
  - rewrite Nat.sub_0_r, slice_nil by lia. simpl. by rewrite (take_drop (S e)).
  - assert (is_Some (tmp !! e)) as [x Ex] by (by apply lookup_lt_is_Some). rewrite Ex. simpl.
    rewrite aset_lt by done. simpl. pose proof (populate x : Inhabited K) as I.
    destruct n as [|n].
    + simpl. rewrite aget_lt in Ex by done. injection Ex as <-.
      rewrite Nat.sub_0_r, slice_one by done. simpl.
      f_equal. rewrite insert_take_drop by done. done.
    + rewrite IH by (rewrite ?length_insert; lia).
      replace (S (e - 1)) with e by lia.
      rewrite take_insert_ge by lia.
      rewrite (slice_split (e - S n) e (S e)), slice_one by lia.
      rewrite aget_lt in Ex by done. injection Ex as <-. rewrite <- (assoc_L (++)). simpl.
      do 3 f_equal. rewrite (drop_S _ (tmp !!! e)) by (by rewrite list_lookup_insert_eq).
      by rewrite drop_insert_lt by lia.
Qed.

Lemma merge_runs_ok pre s1 s2 post tmp :
  s1 ≠ [] → s2 ≠ [] → sorted s1 → sorted s2 → length tmp = length (pre ++ s1 ++ s2 ++ post) →
  ∃ tmp', merge (pre ++ s1 ++ s2 ++ post) tmp (length pre) (length pre + length s1)
      (length pre + length s1 + length s2 - 1) =
    Some (pre ++ sort_spec (s1 ++ s2) ++ post, tmp') ∧ length tmp' = length tmp.
Proof.
  intros N1 N2 S1 S2 Ht. unfold merge, merge_fill. cbv zeta.
  rewrite !length_app in Ht.
  assert (0 < length s1)%nat by (destruct s1; simpl; [done|lia]).
  assert (0 < length s2)%nat by (destruct s2; simpl; [done|lia]).
  rewrite (merge_fill_ok _ _ _ _ _ _ _ _ _ s1 s2);
    rewrite ?length_app; try done; try lia.
  2:{ replace (S (length pre + length s1 - 1)) with (length pre + length s1)%nat by lia.
      apply slice_app_mid. }
  2:{ replace (S (length pre + length s1 + length s2 - 1))
        with (length (pre ++ s1) + length s2)%nat by (rewrite length_app; lia).
      rewrite <- length_app, (assoc_L (++)). apply slice_app_mid. }
  simpl. set (out := sort_spec (s1 ++ s2)).
  assert (length out = length s1 + length s2)%nat as Lo by (unfold out; rewrite sort_spec_perm; apply length_app).
  assert (length (put (length pre) out tmp) = length tmp) as Lp.
  { unfold put. rewrite !length_app, length_take, length_drop. lia. }
  rewrite copy_back_ok by (rewrite ?length_app; lia). simpl. eexists. split; [|exact Lp].
  replace (S (length pre + length s1 + length s2 - 1)) with (length pre + length out)%nat by lia.
  replace (length pre + length out -
    (length pre + length s1 + length s2 - 1 - length pre + 1))%nat with (length pre) by lia.
  do 2 f_equal. f_equal; [by rewrite take_app_length|]. f_equal.
  - unfold put, slice. rewrite (assoc_L (++)), take_app_le
      by (rewrite length_app, length_take; lia).
    rewrite take_ge by (rewrite length_app, length_take; lia).
    rewrite drop_app_ge, length_take by (rewrite length_take; lia).
    by replace (length pre - length pre `min` length tmp)%nat with 0%nat by lia.
  - rewrite !(assoc_L (++)). rewrite drop_app_length' by (rewrite !length_app; lia). done.
Qed.

Lemma mergeSort_rec_ok fuel : ∀ pre s post tmp left right,
  (length s <= fuel)%nat → length tmp = length (pre ++ s ++ post) →
  left = zlen pre → right = zlen pre + zlen s - 1 →
  ∃ tmp', mergeSort_rec fuel left right (pre ++ s ++ post) tmp =
    Some (pre ++ sort_spec s ++ post, tmp') ∧ length tmp' = length tmp.
Proof.
  assert (∀ s, (length s <= 1)%nat → s = sort_spec s) as Hshort.
  { intros s Hs. by apply sort_spec_unique; [apply sorted_short|]. }
  induction fuel as [|fuel IH]; intros pre s post tmp left right Hf Ht -> ->;
    cbn [mergeSort_rec]; unfold zlen in *;
    (destruct (Z.ltb_spec (Z.of_nat (length pre)) (Z.of_nat (length pre) + Z.of_nat (length s) - 1));
      [|exists tmp; split; [|done]; rewrite <- Hshort by lia; done]); [lia|].
  set (right := Z.of_nat (length pre) + Z.of_nat (length s) - 1) in *.
  set (center := (_ / 2)). set (m := (Z.to_nat center - length pre + 1)%nat).
  assert (m < length s)%nat as Hm by lia. assert (0 < m)%nat by lia.
  rewrite <- (take_drop m s). set (s1 := take m s). set (s2 := drop m s).
  assert (length s1 = m) as L1 by (unfold s1; rewrite length_take; lia).
  assert (length s2 = length s - m)%nat as L2 by apply length_drop.
  rewrite <- (assoc_L (++) s1 s2 post).
  destruct (IH pre s1 (s2 ++ post) tmp (Z.of_nat (length pre)) center) as (t1 & -> & Lt1);
    [lia| |done|lia|].
  { rewrite Ht, !length_app. lia. }
  simpl. rewrite (assoc_L (++) pre).
  assert (length (sort_spec s1) = m) as Ls1 by by rewrite sort_spec_perm.
  assert (length (sort_spec s2) = length s2) as Ls2 by by rewrite sort_spec_perm.
  destruct (IH (pre ++ sort_spec s1) s2 post t1 (center + 1) right) as (t2 & -> & Lt2);
    rewrite ?length_app; [lia|rewrite Lt1, Ht, !length_app; lia|lia|lia|].
  simpl. rewrite <- (assoc_L (++) pre).
  destruct (merge_runs_ok pre (sort_spec s1) (sort_spec s2) post t2) as (t3 & E & Lt3).
  - intros E. rewrite E in Ls1. simpl in Ls1. lia.
  - intros E. rewrite E in Ls2. simpl in Ls2. lia.
  - apply sort_spec_sorted.
  - apply sort_spec_sorted.
  - rewrite Lt2, Lt1, Ht, !length_app. lia.
  - exists t3. split; [|lia].
    replace (Z.to_nat (Z.of_nat (length pre))) with (length pre) by lia.
    replace (Z.to_nat (center + 1)) with (length pre + length (sort_spec s1))%nat by lia.
    replace (Z.to_nat _) with (length pre + length (sort_spec s1) + length (sort_spec s2) - 1)%nat by lia.
    rewrite E. do 3 f_equal. f_equal. apply sort_spec_unique; [apply sort_spec_sorted|].
    by rewrite !sort_spec_perm.
Qed.
End sort.

(** mergesort never leaves the two vectors, comes to an end and puts the
    items in increasing order. *)
Lemma mergeSort_sorts `{KeyOrder K} (dflt : K) (a : list K) :
  mergeSort dflt a = Some (sort_spec a) ∧ sorted (sort_spec a) ∧ sort_spec a ≡ₚ a.
Proof.
  split; [|split; [apply sort_spec_sorted|apply sort_spec_perm]]. unfold mergeSort.
  destruct (mergeSort_rec_ok (length a) [] a [] (replicate (length a) dflt) 0 (zlen a - 1))
    as (tmp & E & _); [lia|by rewrite app_nil_r, length_replicate|done|done|].
  simpl in E. rewrite !app_nil_r in E. by rewrite E.
Qed.
End MergeSort.
