(* ===== verification/QuickSort.v ===== *)
(** * Quicksort, quickselect and SORT: codeC++11/Sort.h

    Median-of-three partitioning with a cutoff of 10, the selection that
    recurs into one part only, and the three-way [SORT].  The bounds of a
    subarray can be -1 and are integers, positions are naturals.  The pivot is
    a reference to the element at [right - 1], which the comparisons read
    again each time.  [None] is an access outside of the vector or the end
    of the fuel. *)
From Stdlib Require Import ZifyNat.
From S2P Require Import Prelude StdMap HeapContract Arrays SortContract InsertionSort.
Import SortContract.

Module QuickSort.

#[local] Ltac Zify.zify_post_hook ::= Z.to_euclidean_division_equations.
#[local] Arguments Nat.div : simpl never.

Section sort.
Context {K : Type} `{KeyOrder K}.

(** [if( a[ j ] < a[ i ] ) std::swap( a[ i ], a[ j ] )] *)
Definition order_two (i j : nat) (a : list K) : option (list K) :=
  x ← a !! j;
  y ← a !! i;
  if klt x y then aswap a i j else Some a.

(** The pivot is left at [right - 1]. *)
Definition median3 (a : list K) (left right : nat) : option (list K) :=
  let center := ((left + right) / 2)%nat in
  a ← order_two left center a;
  a ← order_two left right a;
  a ← order_two center right a;
  aswap a center (right - 1).

(** [while( a[ ++i ] < pivot ) { }], the pivot at position [p] *)
Fixpoint scan_up (fuel i p : nat) (a : list K) : option nat :=
  match fuel with
  | O => None
  | S fuel =>
      x ← a !! S i;
      pivot ← a !! p;
      if klt x pivot then scan_up fuel (S i) p a else Some (S i)
  end.

(** [while( pivot < a[ --j ] ) { }] *)
Fixpoint scan_down (j p : nat) (a : list K) : option nat :=
  match j with
  | O => None
  | S j =>
      x ← a !! j;
      pivot ← a !! p;
      if klt pivot x then scan_down j p a else Some j
  end.

(** The loop [for( ; ; )]: the last [i] and the vector. *)
Fixpoint partition_loop (fuel i j p : nat) (a : list K) : option (nat * list K) :=
  match fuel with
  | O => None
  | S fuel =>
      i ← scan_up (length a) i p a;
      j ← scan_down j p a;
      if (i <? j)%nat then a ← aswap a i j; partition_loop fuel i j p a else Some (i, a)
  end.

(** From [median3] to the pivot's return to position [i]. *)
Definition partition (a : list K) (left right : nat) : option (nat * list K) :=
  a ← median3 a left right;
  '(i, a) ← partition_loop (length a) left (right - 1) (right - 1) a;
  a ← aswap a i (right - 1);
  Some (i, a).

Fixpoint quicksort_rec (fuel : nat) (a : list K) (left right : Z) : option (list K) :=
  if left + 10 <=? right then
    match fuel with
    | O => None
    | S fuel =>
        '(i, a) ← partition a (Z.to_nat left) (Z.to_nat right);
        a ← quicksort_rec fuel a left (Z.of_nat i - 1);
        quicksort_rec fuel a (Z.of_nat i + 1) right
    end
  else InsertionSort.insertionSort_range left right a.

Definition quicksort (a : list K) : option (list K) := quicksort_rec (length a) a 0 (zlen a - 1).

Fixpoint quickSelect_rec (fuel : nat) (a : list K) (left right k : Z) : option (list K) :=
  if left + 10 <=? right then
    match fuel with
    | O => None
    | S fuel =>
        '(i, a) ← partition a (Z.to_nat left) (Z.to_nat right);
        if k <=? Z.of_nat i then quickSelect_rec fuel a left (Z.of_nat i - 1) k
        else if Z.of_nat i + 1 <? k then quickSelect_rec fuel a (Z.of_nat i + 1) right k
        else Some a
    end
  else InsertionSort.insertionSort_range left right a.

Definition quickSelect (a : list K) (k : Z) : option (list K) :=
  quickSelect_rec (length a) a 0 (zlen a - 1) k.

(** The loop of [SORT] over the items: [push_back] to one of three vectors. *)
Definition distribute (chosenItem : K) (items : list K) : list K * list K * list K :=
  foldl (λ '(smaller, same, larger) i,
      if klt i chosenItem then (smaller ++ [i], same, larger)
      else if klt chosenItem i then (smaller, same, larger ++ [i])
      else (smaller, same ++ [i], larger))
    ([], [], []) items.

(** [std::move( begin( src ), end( src ), begin( dst ) + pos )] *)
Fixpoint move_to (src : list K) (pos : nat) (dst : list K) : option (list K) :=
  match src with
  | [] => Some dst
  | x :: src => dst ← aset dst pos x; move_to src (S pos) dst
  end.

Fixpoint SORT (fuel : nat) (items : list K) : option (list K) :=
  if (1 <? length items)%nat then
    match fuel with
    | O => None
    | S fuel =>
        chosenItem ← items !! (length items / 2)%nat;
        let '(smaller, same, larger) := distribute chosenItem items in
        smaller ← SORT fuel smaller;
        larger ← SORT fuel larger;
        items ← move_to smaller 0 items;
        items ← move_to same (length smaller) items;
        move_to larger (length items - length larger) items
    end
  else Some items.

(** ** Partitioning *)

Context `{Inhabited K}.
Implicit Types (a b s pre post : list K).

Lemma order_two_ok lo hi i j a :
  (lo <= i < hi)%nat → (lo <= j < hi)%nat → i ≠ j → (hi <= length a)%nat →
  ∃ b, order_two i j a = Some b ∧ within lo hi a b ∧ le (b !!! i) (b !!! j) ∧
    ((b !!! i = a !!! i ∧ b !!! j = a !!! j) ∨ (b !!! i = a !!! j ∧ b !!! j = a !!! i)) ∧
    ∀ k, (k < length a)%nat → k ≠ i → k ≠ j → b !!! k = a !!! k.
Proof.
  intros Hi Hj Hne Hh. unfold order_two. rewrite !aget_lt by lia. simpl.
  destruct (le_cases (a !!! j) (a !!! i)) as [[-> L]|[-> L]].
  - rewrite aswap_lt by lia. exists (tswap a i j). split; [done|]. split; [by apply within_swap|].
    rewrite !lookup_tswap by lia.
    rewrite (decide_True (P := j = j)), (decide_False (P := i = j)), (decide_True (P := i = i)) by done.
    split; [done|]. split; [by right|]. intros k Hk Hki Hkj. rewrite lookup_tswap by lia.
    by rewrite !decide_False.
  - exists a. split_and!; [done|done|done|by left|done].
Qed.

Lemma scan_up_ok fuel i j p a :
  (i < j)%nat → (j < length a)%nat → (p < length a)%nat → (j - i <= fuel)%nat →
  le (a !!! p) (a !!! j) →
  ∃ i', scan_up fuel i p a = Some i' ∧ (i < i' <= j)%nat ∧ le (a !!! p) (a !!! i') ∧
    ∀ k, (i < k < i')%nat → le (a !!! k) (a !!! p).
Proof.
  revert i. induction fuel as [|fuel IH]; intros i Hij Hj Hp Hf L; [lia|]. simpl.
  rewrite !aget_lt by lia. simpl.
  destruct (le_cases (a !!! S i) (a !!! p)) as [[E L']|[-> L']].
  - rewrite E. destruct (decide (S i = j)) as [<-|Hne]; [unfold le in L; congruence|].
    destruct (IH (S i)) as (i' & -> & Hi' & Hle & Hk); [lia..|done|].
    exists i'. split_and!; [done|lia|lia|done|]. intros k Hk'.
    destruct (decide (k = S i)) as [->|]; [done|apply Hk; lia].
  - exists (S i). split_and!; [done|lia|lia|done|]. intros; lia.
Qed.

Lemma scan_down_ok i j p a :
  (i < j)%nat → (j <= length a)%nat → (p < length a)%nat → le (a !!! i) (a !!! p) →
  ∃ j', scan_down j p a = Some j' ∧ (i <= j' < j)%nat ∧ le (a !!! j') (a !!! p) ∧
    ∀ k, (j' < k < j)%nat → le (a !!! p) (a !!! k).
Proof.
  induction j as [|j IH]; intros Hij Hj Hp L; [lia|]. simpl. rewrite !aget_lt by lia. simpl.
  destruct (le_cases (a !!! p) (a !!! j)) as [[E L']|[-> L']].
  - rewrite E. destruct (decide (i = j)) as [->|Hne]; [unfold le in L; congruence|].
    destruct IH as (j' & -> & Hj' & Hle & Hk); [lia..|done|].
    exists j'. split_and!; [done|lia|lia|done|]. intros k Hk'.
    destruct (decide (k = j)) as [->|]; [done|apply Hk; lia].
  - exists j. split_and!; [done|lia|lia|done|]. intros; lia.
Qed.

(** The loop invariant: up to [i] no item is above the pivot, from [j] on none
    is below it. *)
Record split_at (l i j p : nat) (a : list K) : Prop := {
  split_low k : (l <= k <= i)%nat → le (a !!! k) (a !!! p);
  split_high k : (j <= k <= p)%nat → le (a !!! p) (a !!! k);
}.

Lemma partition_loop_ok fuel l i j p a :
  (l <= i < j)%nat → (j <= p < length a)%nat → (j - i <= fuel)%nat → (fuel <= length a)%nat →
  split_at l i j p a →
  ∃ i' b, partition_loop fuel i j p a = Some (i', b) ∧ within l p a b ∧ (i < i' <= p)%nat ∧
    b !!! p = a !!! p ∧ (∀ k, (p < k < length a)%nat → b !!! k = a !!! k) ∧
    (∀ k, (l <= k < i')%nat → le (b !!! k) (b !!! p)) ∧
    (∀ k, (i' <= k <= p)%nat → le (b !!! p) (b !!! k)).
Proof.
  revert i j a. induction fuel as [|fuel IH]; intros i j a Hi Hj Hf Hfl [Hlo Hhi]; [lia|].
  cbn [partition_loop].
  destruct (scan_up_ok (length a) i j p a) as (i' & -> & Hi' & Li & Ki); [lia..|apply Hhi; lia|]. simpl.
  destruct (scan_down_ok i j p a) as (j' & -> & Hj' & Lj & Kj); [lia..|apply Hlo; lia|]. simpl.
  destruct (Nat.ltb_spec i' j') as [Hlt|Hge].
  - rewrite aswap_lt by lia. simpl. set (b := tswap a i' j').
    assert (within l p a b) as W by (apply within_swap; lia).
    assert (∀ k, (k < length a)%nat → b !!! k =
      if decide (k = j') then a !!! i' else if decide (k = i') then a !!! j' else a !!! k) as Hb.
    { intros. apply lookup_tswap; lia. }
    assert (b !!! p = a !!! p) as Ep by (rewrite Hb by lia; by rewrite !decide_False by lia).
    destruct W as [Lb Tb Db Pb].
    destruct (IH i' j' b) as (i'' & c & -> & Wc & Hi'' & Ec & Kc & Hlo' & Hhi'); [lia..| |].
    { split; intros k Hk; rewrite Ep, Hb by lia.
      - destruct (decide (k = j')); [lia|]. destruct (decide (k = i')); [done|].
        destruct (decide (k <= i)%nat); [apply Hlo; lia|apply Ki; lia].
      - destruct (decide (k = j')); [done|]. destruct (decide (k = i')); [lia|].
        destruct (decide (j <= k)%nat); [apply Hhi; lia|apply Kj; lia]. }
    exists i'', c. split_and!; [done| |lia|lia|by rewrite Ec| |done|done].
    + etrans; [|exact Wc]. by split.
    + intros k Hk. rewrite Kc by lia. rewrite Hb by lia. by rewrite !decide_False by lia.
  - exists i', a. split_and!; [done|done|lia|lia|done|done| |].
    + intros k Hk. destruct (decide (k <= i)%nat); [apply Hlo; lia|apply Ki; lia].
    + intros k Hk. destruct (decide (k = i')) as [->|]; [done|].
      destruct (decide (j <= k)%nat); [apply Hhi; lia|apply Kj; lia].
Qed.

Lemma median3_ok l r a :
  (l + 10 <= r)%nat → (r < length a)%nat →
  ∃ b, median3 a l r = Some b ∧ within l (S r) a b ∧
    le (b !!! l) (b !!! (r - 1)%nat) ∧ le (b !!! (r - 1)%nat) (b !!! r).
Proof.
  intros Hlr Hr. unfold median3. cbv zeta. set (c := ((l + r) / 2)%nat).
  assert (l + 5 <= c <= r - 5)%nat as Hc by (unfold c; lia).
  destruct (order_two_ok l (S r) l c a) as (b1 & -> & W1 & L1 & _ & _); [lia..|].
  simpl. pose proof (within_length _ _ _ _ W1) as N1.
  destruct (order_two_ok l (S r) l r b1) as (b2 & -> & W2 & L2 & D2 & K2); [lia..|].
  simpl. pose proof (within_length _ _ _ _ W2) as N2.
  destruct (order_two_ok l (S r) c r b2) as (b3 & -> & W3 & L3 & D3 & K3); [lia..|].
  simpl. pose proof (within_length _ _ _ _ W3) as N3.
  rewrite aswap_lt by lia. eexists. split; [done|].
  assert (le (b2 !!! l) (b2 !!! c)) as M2.
  { rewrite (K2 c) by lia. destruct D2 as [[-> _]|[_ E]]; [done|]. rewrite E in L2. by etrans. }
  assert (le (b3 !!! l) (b3 !!! c)) as M3.
  { rewrite (K3 l) by lia. by destruct D3 as [[-> _]|[-> _]]. }
  split; [|split].
  - etrans; [exact W1|]. etrans; [exact W2|]. etrans; [exact W3|]. apply within_swap; lia.
  - rewrite !lookup_tswap by lia. rewrite (decide_True (P := (r - 1 = r - 1)%nat)) by done.
    by rewrite !decide_False by lia.
  - rewrite !lookup_tswap by lia. rewrite (decide_True (P := (r - 1 = r - 1)%nat)) by done.
    by rewrite !decide_False by lia.
Qed.

Lemma partition_ok l r a :
  (l + 10 <= r)%nat → (r < length a)%nat →
  ∃ i b, partition a l r = Some (i, b) ∧ within l (S r) a b ∧ (l < i < r)%nat ∧
    (∀ k, (l <= k < i)%nat → le (b !!! k) (b !!! i)) ∧
    (∀ k, (i < k <= r)%nat → le (b !!! i) (b !!! k)).
Proof.
  intros Hlr Hr. unfold partition.
  destruct (median3_ok l r a Hlr Hr) as (b & -> & W & Ll & Lr). simpl.
  pose proof (within_length _ _ _ _ W) as Nb.
  destruct (partition_loop_ok (length b) l l (r - 1) (r - 1) b)
    as (i & c & -> & [Nc Tc Dc Pc] & Hi & Ep & Kc & Hlo & Hhi); [lia..| |].
  { split; intros k Hk; [by replace k with l by lia|].
    replace k with (r - 1)%nat by lia. apply le_refl. }
  simpl. rewrite aswap_lt by lia. simpl. exists i, (tswap c i (r - 1)). split; [done|].
  assert (within l (r - 1) b c) as Wc by by split.
  split; [|split; [lia|]].
  - etrans; [exact W|]. etrans; [|apply within_swap; lia]. apply (within_weaken _ (r - 1)); done || lia.
  - assert (∀ k, (k < length c)%nat → tswap c i (r - 1) !!! k =
      if decide (k = (r - 1)%nat) then c !!! i else
      if decide (k = i) then c !!! (r - 1)%nat else c !!! k) as Ht
      by (intros; apply lookup_tswap; lia).
    assert (tswap c i (r - 1) !!! i = c !!! (r - 1)%nat) as Ei.
    { rewrite Ht by lia. destruct (decide (i = r - 1)%nat) as [->|]; [done|]. by rewrite decide_True. }
    split; intros k Hk; rewrite Ei, Ht by lia.
    + rewrite !decide_False by lia. by apply Hlo.
    + destruct (decide (k = r - 1)%nat) as [->|]; [apply Hhi; lia|].
      rewrite decide_False by lia. destruct (decide (k = r)) as [->|].
      * by rewrite (Kc r), Ep by lia.
      * apply Hhi. lia.
Qed.

Lemma partition_lists pre s post :
  (10 < length s)%nat →
  ∃ s1 x s2, partition (pre ++ s ++ post) (length pre) (length pre + length s - 1) =
      Some ((length pre + length s1)%nat, pre ++ (s1 ++ x :: s2) ++ post) ∧
    s1 ++ x :: s2 ≡ₚ s ∧ Forall (λ y, le y x) s1 ∧ Forall (le x) s2.
Proof.
  intros Hs. set (a := pre ++ s ++ post). set (l := length pre). set (r := (l + length s - 1)%nat).
  assert (length a = l + length s + length post)%nat as La by (unfold a, l; rewrite !length_app; lia).
  destruct (partition_ok l r a) as (i & b & -> & [Nb Tb Db Pb] & Hi & Hlo & Hhi); [lia..|].
  exists (slice l i b), (b !!! i), (slice (S i) (S r) b).
  assert (slice l i b ++ b !!! i :: slice (S i) (S r) b = slice l (S r) b) as E.
  { rewrite (slice_split l i (S r)), (slice_split i (S i) (S r)), slice_one by lia. done. }
  split; [|split; [|split]].
  - rewrite length_slice, E by lia. f_equal. f_equal; [lia|].
    rewrite (slice_decomp l (S r) b) at 1 by lia. rewrite Tb, Db. unfold a. f_equal; [|f_equal].
    + unfold l. by rewrite take_app_length.
    + rewrite (assoc_L (++)). rewrite drop_app_length'; [done|]. rewrite length_app. unfold r, l. lia.
  - rewrite E, Pb. unfold a. replace (S r) with (length pre + length s)%nat by (unfold r, l; lia).
    unfold l. by rewrite slice_app_mid.
  - apply Forall_forall. intros y Hy. apply elem_of_slice in Hy as (k & Hk & ->); [|lia].
    by apply Hlo.
  - apply Forall_forall. intros y Hy. apply elem_of_slice in Hy as (k & Hk & ->); [|lia].
    apply Hhi. lia.
Qed.

(** ** The sorts *)

(** The part of a sorted list that the items of one side of a partition take. *)
Lemma sort_spec_partition s s1 x s2 :
  s1 ++ x :: s2 ≡ₚ s → Forall (λ y, le y x) s1 → Forall (le x) s2 →
  sort_spec s = sort_spec s1 ++ x :: sort_spec s2.
Proof.
  intros P F1 F2. symmetry. apply sort_spec_unique; [|by rewrite !sort_spec_perm].
  rewrite Forall_forall in F1, F2. apply sorted_app. split_and!; [apply sort_spec_sorted| |].
  - constructor; [apply sort_spec_sorted|]. rewrite sort_spec_perm. by apply Forall_forall.
  - intros y z Hy Hz. rewrite sort_spec_perm in Hy. apply F1 in Hy.
    rewrite sort_spec_perm in Hz. apply elem_of_cons in Hz as [->|Hz]; [done|].
    apply F2 in Hz. by etrans.
Qed.

Lemma quicksort_rec_ok fuel : ∀ pre s post left right,
  (length s <= fuel)%nat → left = zlen pre → right = zlen pre + zlen s - 1 →
  quicksort_rec fuel (pre ++ s ++ post) left right = Some (pre ++ sort_spec s ++ post).
Proof.
  induction fuel as [|fuel IH]; intros pre s post left right Hf El Er; cbn [quicksort_rec];
    (destruct (Z.leb_spec (left + 10) right);
      [|by apply InsertionSort.insertionSort_range_ok]); unfold zlen in *; [lia|].
  replace (Z.to_nat left) with (length pre) by lia.
  replace (Z.to_nat right) with (length pre + length s - 1)%nat by lia.
  destruct (partition_lists pre s post) as (s1 & x & s2 & -> & P & F1 & F2); [lia|].
  pose proof (Permutation_length P) as Ls. rewrite length_app in Ls. simpl in Ls.
  cbn [mbind option_bind]. rewrite <- (assoc_L (++) s1).
  rewrite (IH pre s1) by lia. cbn [mbind option_bind].
  assert (length (sort_spec s1) = length s1) as L1 by by rewrite sort_spec_perm.
  replace (pre ++ sort_spec s1 ++ (x :: s2) ++ post)
    with ((pre ++ sort_spec s1 ++ [x]) ++ s2 ++ post) by (by rewrite <- !(assoc_L (++))).
  rewrite IH; [|lia|rewrite !length_app; simpl; lia|rewrite !length_app; simpl; lia].
  rewrite (sort_spec_partition s s1 x s2) by done. by rewrite <- !(assoc_L (++)).
Qed.


Lemma quickSelect_rec_ok fuel : ∀ pre s post left right k,
  (length s <= fuel)%nat → left = zlen pre → right = zlen pre + zlen s - 1 →
  ∃ s', quickSelect_rec fuel (pre ++ s ++ post) left right k = Some (pre ++ s' ++ post) ∧
    s' ≡ₚ s ∧ (left < k <= right + 1 →
      s' !! Z.to_nat (k - 1 - left) = sort_spec s !! Z.to_nat (k - 1 - left)).
Proof.
  induction fuel as [|fuel IH]; intros pre s post left right k Hf El Er; cbn [quickSelect_rec];
    (destruct (Z.leb_spec (left + 10) right);
      [|exists (sort_spec s); split_and!;
        [by apply InsertionSort.insertionSort_range_ok|apply sort_spec_perm|done]]);
    unfold zlen in *; [lia|].
  replace (Z.to_nat left) with (length pre) by lia.
  replace (Z.to_nat right) with (length pre + length s - 1)%nat by lia.
  destruct (partition_lists pre s post) as (s1 & x & s2 & -> & P & F1 & F2); [lia|].
  pose proof (Permutation_length P) as Ls. rewrite length_app in Ls. simpl in Ls.
  cbn [mbind option_bind]. rewrite (sort_spec_partition s s1 x s2) by done.
  assert (length (sort_spec s1) = length s1) as L1 by by rewrite sort_spec_perm.
  destruct (Z.leb_spec k (Z.of_nat (length pre + length s1))) as [Hk|Hk];
    [|destruct (Z.ltb_spec (Z.of_nat (length pre + length s1) + 1) k) as [Hk'|Hk']].
  - rewrite <- (assoc_L (++) s1).
    destruct (IH pre s1 ((x :: s2) ++ post) left (Z.of_nat (length pre + length s1) - 1) k)
      as (s1' & -> & P1 & K1); [lia..|].
    pose proof (Permutation_length P1). exists (s1' ++ x :: s2). split_and!.
    + by rewrite <- !(assoc_L (++)).
    + by rewrite P1.
    + intros Hb. rewrite !lookup_app_l by lia. apply K1. lia.
  - replace (pre ++ (s1 ++ x :: s2) ++ post) with ((pre ++ s1 ++ [x]) ++ s2 ++ post)
      by (by rewrite <- !(assoc_L (++))).
    destruct (IH (pre ++ s1 ++ [x]) s2 post (Z.of_nat (length pre + length s1) + 1) right k)
      as (s2' & -> & P2 & K2); [lia|rewrite !length_app; simpl; lia..|].
    exists (s1 ++ x :: s2'). split_and!.
    + by rewrite <- !(assoc_L (++)).
    + by rewrite P2.
    + intros Hb. rewrite !lookup_app_r, L1 by lia.
      replace (Z.to_nat (k - 1 - left) - length s1)%nat
        with (S (Z.to_nat (k - 1 - (Z.of_nat (length pre + length s1) + 1)))) by lia.
      apply K2. lia.
  - exists (s1 ++ x :: s2). split_and!; [done..|]. intros Hb. rewrite !lookup_app_r, L1 by lia.
    by replace (Z.to_nat (k - 1 - left) - length s1)%nat with 0%nat by lia.
Qed.

(** ** SORT *)

Lemma distribute_ok c s :
  let '(smaller, same, larger) := distribute c s in
  smaller ++ same ++ larger ≡ₚ s ∧ Forall (λ x, klt x c = true) smaller ∧
  Forall (λ x, x = c) same ∧ Forall (λ x, klt c x = true) larger.
Proof.
  induction s as [|x s IH] using rev_ind; [split_and!; constructor|].
  unfold distribute in *. rewrite foldl_app. simpl.
  destruct (foldl _ _ s) as [[smaller same] larger]. destruct IH as (P & F1 & F2 & F3).
  destruct (klt x c) eqn:E1; [|destruct (klt c x) eqn:E2]; rewrite <- P, ?Forall_app;
    split_and!; try done; try solve_Permutation; try (by repeat constructor).
  constructor; [by apply klt_total|constructor].
Qed.

Lemma move_to_ok src : ∀ pos dst,
  (pos + length src <= length dst)%nat → move_to src pos dst = Some (put pos src dst).
Proof.
  induction src as [|x src IH]; intros pos dst Hl; simpl in Hl; cbn [move_to].
  - by rewrite put_nil.
  - rewrite aset_lt by lia. simpl. rewrite IH by (rewrite length_insert; lia).
    by rewrite put_step by lia.
Qed.

Lemma move_back_ok s1 s2 s3 items :
  length items = (length s1 + length s2 + length s3)%nat →
  (b ← move_to s1 0 items; b ← move_to s2 (length s1) b; move_to s3 (length b - length s3) b) =
    Some (s1 ++ s2 ++ s3).
Proof.
  intros Hl. rewrite move_to_ok by lia. cbn [mbind option_bind].
  assert (put 0 s1 items = s1 ++ drop (length s1) items) as -> by done.
  rewrite move_to_ok by (rewrite length_app, length_drop; lia). cbn [mbind option_bind].
  assert (put (length s1) s2 (s1 ++ drop (length s1) items) =
    (s1 ++ s2) ++ drop (length s1 + length s2) items) as ->.
  { unfold put. rewrite take_app_length, <- (assoc_L (++)). do 2 f_equal.
    rewrite drop_app_ge, drop_drop by lia. f_equal. lia. }
  rewrite move_to_ok by (rewrite !length_app, length_drop; lia).
  unfold put. rewrite !length_app, length_drop.
  rewrite take_app_length' by (rewrite !length_app; lia).
  rewrite (drop_ge (_ ++ _)) by (rewrite !length_app, length_drop; lia).
  by rewrite app_nil_r, <- (assoc_L (++)).
Qed.

Lemma SORT_ok fuel s : (length s <= fuel)%nat → SORT fuel s = Some (sort_spec s).
Proof.
  revert s. induction fuel as [|fuel IH]; intros s Hf; cbn [SORT];
    (destruct (Nat.ltb_spec 1 (length s)) as [Hl|Hl];
      [|f_equal; apply sort_spec_unique; [apply sorted_short; lia|done]]); [lia|].
  assert (is_Some (s !! (length s / 2)%nat)) as [c Ec] by (apply lookup_lt_is_Some; lia).
  rewrite Ec. cbn [mbind option_bind]. pose proof (distribute_ok c s) as D.
  destruct (distribute c s) as [[s1 s2] s3]. destruct D as (P & F1 & F2 & F3).
  pose proof (Permutation_length P) as L. rewrite !length_app in L.
  assert (0 < length s2)%nat as L2.
  { apply list_elem_of_lookup_2 in Ec. rewrite <- P, !elem_of_app in Ec.
    rewrite Forall_forall in F1, F3. destruct Ec as [Hc|[Hc|Hc]].
    - apply F1 in Hc. by rewrite klt_irrefl in Hc.
    - destruct s2; [by apply elem_of_nil in Hc|simpl; lia].
    - apply F3 in Hc. by rewrite klt_irrefl in Hc. }
  rewrite (IH s1), (IH s3) by lia. cbn [mbind option_bind].
  assert (length (sort_spec s1) = length s1) as L1 by by rewrite sort_spec_perm.
  assert (length (sort_spec s3) = length s3) as L3 by by rewrite sort_spec_perm.
  rewrite move_back_ok by lia. f_equal. apply sort_spec_unique; [|by rewrite !sort_spec_perm].
  rewrite Forall_forall in F1, F2, F3.
  apply sorted_app. split_and!; [apply sort_spec_sorted| |].
  - apply sorted_app. split_and!; [|apply sort_spec_sorted|].
    + clear -F2. induction s2 as [|x s2 IH]; [constructor|]. constructor.
      * apply IH. intros y Hy. apply F2. by right.
      * apply Forall_forall. intros y Hy. rewrite (F2 x), (F2 y) by (constructor; done).
        apply le_refl.
    + intros x y ->%F2. rewrite sort_spec_perm. intros Hy%F3. by apply lt_le.
  - intros x y. rewrite sort_spec_perm. intros Hx%F1%lt_le. rewrite elem_of_app, sort_spec_perm.
    intros [->%F2|Hy%F3%lt_le]; [done|]. by etrans.
Qed.
End sort.

(** both quicksorts, median-of-three and three-way, never leave their
    vectors, come to an end and put the items in increasing order. *)
Lemma quicksort_sorts `{KeyOrder K} (a : list K) :
  quicksort a = Some (sort_spec a) ∧ SORT (length a) a = Some (sort_spec a) ∧
  sorted (sort_spec a) ∧ sort_spec a ≡ₚ a.
Proof.
  split; [|split; [|split; [apply sort_spec_sorted|apply sort_spec_perm]]];
    (destruct a as [|x a]; [done|]); pose proof (populate x : Inhabited K) as I.
  - set (l := x :: a). unfold quicksort.
    pose proof (quicksort_rec_ok (length l) [] l [] 0 (zlen l - 1)) as E. simpl ([] ++ _) in E.
    rewrite !app_nil_r in E. apply E; unfold zlen; simpl; lia.
  - by apply SORT_ok.
Qed.

(** quickSelect comes to an end, permutes the vector and leaves in
    a[k-1] the k-th smallest item, for every k that counts an item. *)
Lemma quickSelect_selects `{KeyOrder K} (a : list K) (k : Z) :
  ∃ b, quickSelect a k = Some b ∧ b ≡ₚ a ∧
    (1 <= k <= zlen a → b !! Z.to_nat (k - 1) = sort_spec a !! Z.to_nat (k - 1)).
Proof.
  destruct a as [|x a]; [exists []; split_and!; [done..|]; unfold zlen; simpl; lia|].
  set (l := x :: a). pose proof (populate x : Inhabited K) as I.
  destruct (quickSelect_rec_ok (length l) [] l [] 0 (zlen l - 1) k) as (b & E & P & Hk);
    [done..|]. simpl ([] ++ _) in E. rewrite !app_nil_r in E.
  exists b. split_and!; [exact E|done|]. intros. rewrite Z.sub_0_r in Hk. apply Hk. lia.
Qed.
End QuickSort.
