(* ===== verification/HashContract.v ===== *)
(** * Hash sets: the contract of the hash tables of codeC++11

    SeparateChaining.h, QuadraticProbing.h and CuckooHashTable.h promise the
    same: a finite set of objects.  [HashImpl] states the promise for an
    implementation, whatever calls a client makes.  A call that makes the table
    grow searches for a prime size; the fuel of a call bounds that search,
    and the promise includes that enough fuel exists.  [Primes] is that search. *)
From Stdlib Require Import Znumtheory.
From S2P Require Import Prelude.

Module HashContract.
Section contract.
Context {K : Type} `{Countable K}.

Inductive call : Type :=
| Insert (x : K)
| InsertMove (x : K)   (** [insert( HashedObj && )] *)
| Remove (x : K)
| Contains (x : K)
| MakeEmpty.

Inductive answer : Type :=
| Answer (b : bool)
| Done.

Definition spec (c : call) (X : gset K) : answer * gset K :=
  match c with
  | Insert x | InsertMove x => (Answer (bool_decide (x ∉ X)), {[x]} ∪ X)
  | Remove x => (Answer (bool_decide (x ∈ X)), X ∖ {[x]})
  | Contains x => (Answer (bool_decide (x ∈ X)), X)
  | MakeEmpty => (Done, ∅)
  end.

Fixpoint spec_run (cs : list call) (X : gset K) : list answer * gset K :=
  match cs with
  | [] => ([], X)
  | c :: cs => let '(a, X) := spec c X in let '(r, X) := spec_run cs X in (a :: r, X)
  end.

(** An implementation over states [T]: [exec] runs a call, [None] when it
    runs into undefined behaviour or out of fuel. *)
Class HashImpl (T : Type) := {
  exec : nat → call → T → option (answer * T);
  items : T → gset K;
  ok : T → Prop;
  exec_ok c t : ok t →
    ∃ t' F, (∀ fuel, (F <= fuel)%nat → exec fuel c t = Some ((spec c (items t)).1, t')) ∧
      ok t' ∧ items t' = (spec c (items t)).2;
}.

Fixpoint exec_run `{HashImpl T} (fuel : nat) (cs : list call) (t : T) : option (list answer * T) :=
  match cs with
  | [] => Some ([], t)
  | c :: cs =>
      '(a, t) ← exec fuel c t;
      '(r, t) ← exec_run fuel cs t;
      Some (a :: r, t)
  end.

Lemma hash_run_ok `{HashImpl T} cs t :
  ok t →
  ∃ t' F, (∀ fuel, (F <= fuel)%nat → exec_run fuel cs t = Some ((spec_run cs (items t)).1, t')) ∧
    ok t' ∧ items t' = (spec_run cs (items t)).2.
Proof.
  revert t. induction cs as [|c cs IH]; intros t Ht; [by exists t, 0%nat|].
  destruct (exec_ok c t Ht) as (t1 & F1 & E1 & Ht1 & I1).
  destruct (IH t1 Ht1) as (t2 & F2 & E2 & Ht2 & I2).
  exists t2, (F1 + F2)%nat. simpl. rewrite I1 in *.
  destruct (spec c (items t)) as [a X]. simpl in *. destruct (spec_run cs X) as [r Y].
  split_and!; [|done|done]. intros fuel Hf.
  rewrite E1 by lia. simpl. by rewrite E2 by lia.
Qed.
End contract.
Arguments call K : clear implicits.
Arguments HashImpl K {_ _} T.
End HashContract.

(** ** Prime table sizes: codeC++11/QuadraticProbing.cpp, SeparateChaining.cpp

    [isPrime] and [nextPrime] on unbounded integers; the code's [int] product
    [i * i] stays in range for n up to 46340 * 46340.  The search for the next
    prime has no bound of its own: it takes fuel, and enough fuel exists. *)
Module Primes.

(** [for( int i = 3; i * i <= n; i += 2 )] *)
Fixpoint isPrime_loop (fuel : nat) (i n : Z) : option bool :=
  if i * i <=? n then
    match fuel with
    | O => None
    | S fuel => if Z.rem n i =? 0 then Some false else isPrime_loop fuel (i + 2) n
    end
  else Some true.

Definition isPrime (n : Z) : option bool :=
  if (n =? 2) || (n =? 3) then Some true
  else if (n =? 1) || (Z.rem n 2 =? 0) then Some false
  else isPrime_loop (Z.to_nat n) 3 n.

(** [for( ; !isPrime( n ); n += 2 ) ;] *)
Fixpoint nextPrime_loop (fuel : nat) (n : Z) : option Z :=
  b ← isPrime n;
  if b : bool then Some n
  else
    match fuel with
    | O => None
    | S fuel => nextPrime_loop fuel (n + 2)
    end.

Definition nextPrime (fuel : nat) (n : Z) : option Z :=
  let n := if Z.rem n 2 =? 0 then n + 1 else n in
  nextPrime_loop fuel n.

(** ** Trial division *)

(** A number without divisors up to its square root is prime. *)
Lemma prime_sqrt n i :
  2 <= n → n < i * i → 0 <= i → (∀ d, 2 <= d < i → ¬ (d | n)) → Z.prime n.
Proof.
  intros Hn Hi H0 Hd. split; [lia|]. intros d Hdn [e He].
  assert (1 < e) by nia.
  destruct (Z.le_gt_cases e d).
  - apply (Hd e); [nia|]. exists d. lia.
  - apply (Hd d); [nia|]. by exists e.
Qed.

Lemma rem_divide n i : 0 < n → 0 < i → (Z.rem n i =? 0) = true ↔ (i | n).
Proof.
  intros Hn Hi. rewrite Z.eqb_eq, Z.rem_mod_nonneg by lia. apply Z.mod_divide. lia.
Qed.

Lemma isPrime_loop_ok fuel i n :
  5 <= n → ¬ (2 | n) → 3 <= i → ¬ (2 | i) → (Z.to_nat (n + 2 - i) <= fuel)%nat →
  (∀ d, 2 <= d < i → ¬ (d | n)) →
  ∃ b, isPrime_loop fuel i n = Some b ∧ (b = true ↔ Z.prime n).
Proof.
  revert i. induction fuel as [|fuel IH]; intros i Hn Hodd Hi Hio Hf Hd; simpl;
    (destruct (Z.leb_spec (i * i) n) as [Hle|Hgt];
      [|exists true; split; [done|]; split; [intros _; apply (prime_sqrt n i); done || lia|done]]).
  - nia.
  - destruct (Z.rem n i =? 0) eqn:E.
    + apply rem_divide in E; [|lia..]. exists false. split; [done|]. split; [done|].
      intros [_ Hp]. destruct (Hp i); [nia|done].
    + apply IH; [done|done|lia| | |].
      * intros Hd2. apply Hio. replace i with (i + 2 - 2) by lia. apply Z.divide_sub_r; [done|].
        by exists 1.
      * nia.
      * intros d Hdi Hdn. destruct (decide (d < i)); [by apply (Hd d); [lia|]|].
        destruct (decide (d = i)) as [->|].
        -- apply rem_divide in Hdn; [congruence|lia..].
        -- assert (d = i + 1) as -> by lia. apply Hodd. apply Z.divide_trans with (i + 1); [|done].
           destruct (Z.Even_or_Odd i) as [[k Hk]|[k Hk]]; [destruct Hio; exists k; lia|].
           exists (k + 1). lia.
Qed.

Lemma isPrime_ok n : 0 < n → ∃ b, isPrime n = Some b ∧ (b = true ↔ Z.prime n).
Proof.
  intros Hn. unfold isPrime.
  destruct (Z.eqb_spec n 2) as [->|]; [exists true; split; [done|]; split; [intros; apply Z.prime_2|done]|].
  destruct (Z.eqb_spec n 3) as [->|]; [exists true; split; [done|]; split; [intros; apply Z.prime_3|done]|].
  cbn [orb].
  destruct (Z.eqb_spec n 1) as [->|].
  { exists false. split; [done|]. split; [done|]. intros [Hp _]. lia. }
  cbn [orb]. destruct (Z.rem n 2 =? 0) eqn:E.
  - apply rem_divide in E; [|lia..]. exists false. split; [done|]. split; [done|].
    intros [_ Hp]. destruct (Hp 2); [|done].
    destruct E as [k Hk]. lia.
  - assert (¬ (2 | n)) as Hodd.
    { intros Hd. apply rem_divide in Hd; [congruence|lia..]. }
    assert (n ≠ 4) by (intros ->; apply Hodd; by exists 2).
    apply isPrime_loop_ok; [lia|done|lia| |lia|].
    + intros [k Hk]. lia.
    + intros d Hd. by assert (d = 2) as -> by lia.
Qed.

(** ** There is a next prime *)

Lemma prime_divisor n : 2 <= n → ∃ p, Z.prime p ∧ (p | n).
Proof.
  induction n as [n IH] using (well_founded_induction (Z.lt_wf 0)). intros Hn.
  destruct (prime_dec n) as [Hp|Hp]; [by exists n; split; [apply prime_alt|]|].
  destruct (not_prime_divide n) as (d & Hd & Hdn); [lia|done|].
  destruct (IH d) as (p & Hp' & Hpd); [lia..|]. exists p. split; [done|]. by apply Z.divide_trans with d.
Qed.

(** Euclid: no bound on the primes. *)
Lemma prime_above n : 0 <= n → ∃ p, Z.prime p ∧ n < p.
Proof.
  intros Hn.
  assert (∃ f, 1 <= f ∧ ∀ d, 1 <= d <= n → (d | f)) as (f & Hf & Hd).
  { revert n Hn. apply natlike_ind.
    - exists 1. split; [done|]. lia.
    - intros n Hn (f & Hf & Hd). exists (f * Z.succ n). split; [nia|]. intros d Hd'.
      destruct (decide (d = Z.succ n)) as [->|]; [by apply Z.divide_factor_r|].
      apply Z.divide_mul_l, Hd. lia. }
  destruct (prime_divisor (f + 1)) as (p & Hp & Hpd); [lia|]. exists p. split; [done|].
  destruct (Z.lt_ge_cases n p) as [|Hle]; [done|].
  pose proof (Z.prime_ge_2 _ Hp). assert (p | f) as Hpf by (apply Hd; lia).
  assert (p | 1) as H1 by (replace 1 with (f + 1 - f) by lia; by apply Z.divide_sub_r).
  apply Z.divide_pos_le in H1; lia.
Qed.

Lemma nextPrime_loop_ok p fuel n :
  Z.prime p → 0 < n <= p → (2 | p - n) → p - n <= 2 * Z.of_nat fuel →
  ∃ q, nextPrime_loop fuel n = Some q ∧ Z.prime q ∧ n <= q.
Proof.
  intros Hp. revert n. induction fuel as [|fuel IH]; intros n Hn Heven Hf; cbn [nextPrime_loop];
    (destruct (isPrime_ok n) as (b & -> & Hb); [lia|]; simpl; destruct b;
      [exists n; split; [done|]; split; [by apply Hb|lia]|]).
  - assert (n = p) as -> by lia. by apply Hb in Hp.
  - assert (n ≠ p) by (intros ->; by apply Hb in Hp). destruct Heven as [k Hk].
    destruct (IH (n + 2)) as (q & E & Hq & Hl); [lia|exists (k - 1); lia|lia|].
    exists q. split_and!; [done..|lia].
Qed.

Lemma nextPrime_loop_more fuel n q fuel' :
  nextPrime_loop fuel n = Some q → (fuel <= fuel')%nat → nextPrime_loop fuel' n = Some q.
Proof.
  revert n fuel'. induction fuel as [|fuel IH]; intros n [|fuel'] E Hf; try done; [|lia|];
    cbn [nextPrime_loop] in *; destruct (isPrime n) as [[]|]; simpl in *; try done.
  apply IH; [done|lia].
Qed.

(** Enough fuel gives a prime that is at least [n], and not 2. *)
Lemma nextPrime_ok n :
  0 < n → ∃ q F, Z.prime q ∧ n <= q ∧ 3 <= q ∧ ∀ fuel, (F <= fuel)%nat → nextPrime fuel n = Some q.
Proof.
  intros Hn. unfold nextPrime. set (m := if _ : bool then _ else n).
  assert (n <= m ∧ ¬ (2 | m)) as [Hm Hodd].
  { unfold m. destruct (Z.rem n 2 =? 0) eqn:E.
    - apply rem_divide in E; [|lia..]. destruct E as [k ->]. split; [lia|]. intros [j Hj]. lia.
    - split; [lia|]. intros Hd. apply rem_divide in Hd; [congruence|lia..]. }
  destruct (prime_above (m + 2)) as (p & Hp & Hlt); [lia|].
  assert (2 | p - m) as Heven.
  { pose proof Hp as [_ Hnd].
    assert (¬ (2 | p)) as Hpo by (apply Hnd; lia).
    destruct (Z.Even_or_Odd p) as [[k Hk]|[k Hk]]; [destruct Hpo; exists k; lia|].
    destruct (Z.Even_or_Odd m) as [[j Hj]|[j Hj]]; [destruct Hodd; exists j; lia|].
    exists (k - j). lia. }
  destruct (nextPrime_loop_ok p (Z.to_nat p) m) as (q & E & Hq & Hl); [done|lia|done|lia|].
  exists q, (Z.to_nat p). split_and!; [done|lia| |intros; by eapply nextPrime_loop_more].
  destruct (decide (q = 2)) as [->|]; [|pose proof (Z.prime_ge_2 _ Hq); lia].
  assert (m = 1) as Em. { assert (m ≠ 2) by (intros ->; apply Hodd; by exists 1). lia. }
  rewrite Em in E. destruct (Z.to_nat p) as [|[|fuel]]; by cbn in E.
Qed.
End Primes.
