(* ===== verification/SeparateChaining.v ===== *)
(** * SeparateChaining: codeC++11/SeparateChaining.h

    The table is a vector of lists; the hash function is a library function,
    a parameter with values of an unsigned type.  The capacity is always that
    of [resize( 101 )]: the constructor does not use its argument. *)
From S2P Require Import Prelude HashContract.
Import HashContract.

Module SeparateChaining.

(** The hash routines of SeparateChaining.cpp: a char and an int become a size_t. *)
Definition hash_string (key : list Z) : N :=
  Z.to_N (foldl (λ hashVal ch, wrap 64 (37 * hashVal + wrap 64 (swrap 8 ch))) 0 key).
Definition hash_int (key : Z) : N := Z.to_N (wrap 64 key).

Example hash_string_ab : hash_string (bytes_of "ab") = 3687%N ∧ hash_string [255] = (2 ^ 64 - 1)%N ∧ hash_int (-1) = (2 ^ 64 - 1)%N.
Proof. by vm_compute. Qed.

Section table.
Context {K : Type} `{Countable K} (hf : K → N).

Record table := mk_table {
  theLists : list (list K);
  currentSize : Z;
}.

Definition construct (size : Z) : table :=
  {| theLists := replicate 101 []; currentSize := 0 |}.

Definition myhash (x : K) (t : table) : nat :=
  N.to_nat (hf x mod N.of_nat (length (theLists t))).

(** [find( begin( l ), end( l ), x ) != end( l )] *)
Fixpoint found (x : K) (l : list K) : bool :=
  match l with
  | [] => false
  | y :: l => if decide (y = x) then true else found x l
  end.

Definition contains (x : K) (t : table) : option bool :=
  whichList ← theLists t !! myhash x t;
  Some (found x whichList).

Definition makeEmpty (t : table) : table :=
  {| theLists := (λ _, []) <$> theLists t; currentSize := currentSize t |}.

(** [rehash] with the [insert] that it calls. *)
Fixpoint insert_all (ins : K → table → option (bool * table)) (xs : list K) (t : table) :
    option table :=
  match xs with
  | [] => Some t
  | x :: xs => '(_, t) ← ins x t; insert_all ins xs t
  end.

Definition rehash (fuel : nat) (ins : K → table → option (bool * table)) (t : table) :
    option table :=
  let oldLists := theLists t in
  n ← Primes.nextPrime fuel (2 * zlen (theLists t));
  insert_all ins (concat oldLists)
    {| theLists := replicate (Z.to_nat n) []; currentSize := 0 |}.

(** [insert] and [rehash] call each other; [depth] bounds the nesting. *)
Fixpoint insert_rec (depth fuel : nat) (x : K) (t : table) : option (bool * table) :=
  whichList ← theLists t !! myhash x t;
  if found x whichList then Some (false, t)
  else
    let t := {| theLists := <[myhash x t := whichList ++ [x]]> (theLists t);
                currentSize := currentSize t + 1 |} in
    if zlen (theLists t) <? currentSize t then
      match depth with
      | O => None
      | S depth => t ← rehash fuel (insert_rec depth fuel) t; Some (true, t)
      end
    else Some (true, t).

Definition insert (fuel : nat) (x : K) (t : table) : option (bool * table) := insert_rec 1 fuel x t.
(** The overload for rvalues does the same. *)
Definition insert_move (fuel : nat) (x : K) (t : table) : option (bool * table) :=
  insert_rec 1 fuel x t.

(** [whichList.erase( itr )] at the first occurrence *)
Fixpoint erase_first (x : K) (l : list K) : list K :=
  match l with
  | [] => []
  | y :: l => if decide (y = x) then l else y :: erase_first x l
  end.

Definition remove (x : K) (t : table) : option (bool * table) :=
  whichList ← theLists t !! myhash x t;
  if found x whichList
  then Some (true, {| theLists := <[myhash x t := erase_first x whichList]> (theLists t);
                      currentSize := currentSize t - 1 |})
  else Some (false, t).

Definition call_table (fuel : nat) (c : call K) (t : table) : option (answer * table) :=
  match c with
  | Insert x => '(b, t) ← insert fuel x t; Some (Answer b, t)
  | InsertMove x => '(b, t) ← insert_move fuel x t; Some (Answer b, t)
  | Remove x => '(b, t) ← remove x t; Some (Answer b, t)
  | Contains x => b ← contains x t; Some (Answer b, t)
  | MakeEmpty => Some (Done, makeEmpty t)
  end.

(** ** The invariant *)

(** Every object is in the list of its hash value, once, and counted. *)
Record placed (t : table) : Prop := {
  ok_nonempty : (0 < length (theLists t))%nat;
  ok_place i l x : theLists t !! i = Some l → x ∈ l → myhash x t = i;
  ok_nodup : NoDup (concat (theLists t));
  ok_count : zlen (concat (theLists t)) <= currentSize t;
}.

(** Between calls there are at least as many lists as [currentSize]. *)
Definition table_ok (t : table) : Prop := placed t ∧ currentSize t <= zlen (theLists t).

Definition table_items (t : table) : gset K := list_to_set (concat (theLists t)).

Lemma elem_of_items x t : x ∈ table_items t ↔ x ∈ concat (theLists t).
Proof. apply elem_of_list_to_set. Qed.

Lemma found_ok x (l : list K) : found x l = bool_decide (x ∈ l).
Proof.
  induction l as [|y l IH]; cbn [found]; [by rewrite bool_decide_false by apply not_elem_of_nil|].
  destruct (decide (y = x)) as [->|Hne]; [by rewrite bool_decide_true by left|].
  rewrite IH. apply bool_decide_ext. rewrite elem_of_cons. naive_solver.
Qed.

Lemma concat_split (ls : list (list K)) i l :
  ls !! i = Some l → ∃ r, concat ls ≡ₚ l ++ r ∧ ∀ l', concat (<[i := l']> ls) ≡ₚ l' ++ r.
Proof.
  intros Hi. exists (concat (take i ls ++ drop (S i) ls)). split.
  - rewrite <- (take_drop_middle ls i l Hi) at 1. rewrite !concat_app. simpl. solve_Permutation.
  - intros l'. rewrite insert_take_drop by by eapply lookup_lt_Some.
    rewrite !concat_app. simpl. solve_Permutation.
Qed.

Lemma myhash_lt x t : (0 < length (theLists t))%nat → (myhash x t < length (theLists t))%nat.
Proof. intros Hl. unfold myhash. pose proof (N.mod_lt (hf x) (N.of_nat (length (theLists t)))). lia. Qed.

(** The list of an object's hash value, and what it says about the table. *)
Lemma slot_ok x t :
  placed t → ∃ l, theLists t !! myhash x t = Some l ∧ (x ∈ l ↔ x ∈ table_items t).
Proof.
  intros Hok. destruct (lookup_lt_is_Some_2 _ _ (myhash_lt x t (ok_nonempty t Hok))) as [l El].
  exists l. split; [done|]. rewrite elem_of_items. split.
  - intros Hx. destruct (concat_split _ _ _ El) as (r & -> & _). apply elem_of_app. by left.
  - intros Hx%list_elem_of_In%in_concat.
    destruct Hx as (l' & Hl'%list_elem_of_In & Hx%list_elem_of_In).
    apply list_elem_of_lookup in Hl' as [i Hi]. pose proof (ok_place t Hok i l' x Hi Hx) as <-. congruence.
Qed.

(** Another list for one hash value: the new objects must belong there. *)
Lemma replace_placed t i l l' n :
  placed t → theLists t !! i = Some l → (∀ x, x ∈ l' → x ∈ l ∨ myhash x t = i) →
  let t' := {| theLists := <[i := l']> (theLists t); currentSize := n |} in
  NoDup (concat (theLists t')) → zlen (concat (theLists t')) <= n → placed t'.
Proof.
  intros Hok Hi Hl' t' Hn Hc. split; [|..|done|done]; unfold t'; cbn [theLists].
  - rewrite length_insert. apply Hok.
  - intros j k x Hj Hx. unfold myhash. cbn [theLists]. rewrite length_insert. fold (myhash x t).
    destruct (decide (i = j)) as [->|Hne].
    + rewrite list_lookup_insert_eq in Hj by by eapply lookup_lt_Some.
      injection Hj as ->. destruct (Hl' x Hx) as [Hx'|]; [by eapply ok_place|done].
    + rewrite list_lookup_insert_ne in Hj by done. by eapply ok_place.
Qed.

Definition push (x : K) (l : list K) (t : table) : table :=
  {| theLists := <[myhash x t := l ++ [x]]> (theLists t); currentSize := currentSize t + 1 |}.

Lemma push_placed x l t :
  placed t → theLists t !! myhash x t = Some l → x ∉ table_items t →
  placed (push x l t) ∧ concat (theLists (push x l t)) ≡ₚ x :: concat (theLists t).
Proof.
  intros Hok Hl Hx. rewrite elem_of_items in Hx.
  destruct (concat_split _ _ _ Hl) as (r & E & E').
  assert (concat (theLists (push x l t)) ≡ₚ x :: concat (theLists t)) as P.
  { simpl. rewrite E', E. solve_Permutation. }
  split; [|done]. apply (replace_placed t _ l); [done|done| | |].
  - intros y [Hy|Hy%list_elem_of_singleton]%elem_of_app; [by left|right; by subst].
  - change (NoDup (concat (theLists (push x l t)))). rewrite P. constructor; [done|apply Hok].
  - change (zlen (concat (theLists (push x l t))) <= currentSize t + 1).
    pose proof (ok_count t Hok) as Hc. unfold zlen in *. rewrite P. simpl. lia.
Qed.

(** An insertion below the load limit. *)
Lemma insert_small x t :
  placed t → currentSize t < zlen (theLists t) → x ∉ table_items t →
  ∃ t', (∀ depth fuel, insert_rec depth fuel x t = Some (true, t')) ∧ placed t' ∧
    concat (theLists t') ≡ₚ x :: concat (theLists t) ∧ currentSize t' = currentSize t + 1 ∧
    length (theLists t') = length (theLists t).
Proof.
  intros Hok Hs Hx. destruct (slot_ok x t Hok) as (l & El & Hl).
  destruct (push_placed x l t Hok El Hx) as [Hok' P]. exists (push x l t).
  split_and!; [|done|done|done|apply length_insert].
  intros depth fuel. destruct depth as [|depth]; cbn [insert_rec]; rewrite El; simpl;
    rewrite found_ok, bool_decide_false by (by rewrite Hl);
    rewrite (proj2 (Z.ltb_ge _ _)); try done; unfold zlen in *; rewrite length_insert; lia.
Qed.

Lemma insert_all_ok xs : ∀ t,
  placed t → currentSize t + zlen xs <= zlen (theLists t) → NoDup (xs ++ concat (theLists t)) →
  ∃ t', (∀ depth fuel, insert_all (insert_rec depth fuel) xs t = Some t') ∧ placed t' ∧
    concat (theLists t') ≡ₚ xs ++ concat (theLists t) ∧ currentSize t' = currentSize t + zlen xs ∧
    length (theLists t') = length (theLists t).
Proof.
  induction xs as [|x xs IH]; intros t Hok Hs Hn.
  { exists t. rewrite zlen_nil. split_and!; [done..|lia|done]. }
  apply NoDup_cons in Hn as [Hx Hn]. rewrite elem_of_app in Hx.
  rewrite zlen_cons in Hs. pose proof (zlen_nonneg xs).
  destruct (insert_small x t) as (t1 & E1 & Hok1 & P1 & S1 & L1); [done|lia| |].
  { rewrite elem_of_items. tauto. }
  destruct (IH t1) as (t2 & E2 & Hok2 & P2 & S2 & L2); [done| | |].
  { unfold zlen in *. rewrite S1, L1. lia. }
  { rewrite P1. rewrite <- Permutation_middle. constructor; [by rewrite elem_of_app|done]. }
  exists t2. split_and!; [|done| | |congruence].
  - intros. cbn [insert_all]. rewrite E1. simpl. apply E2.
  - rewrite P2, P1. solve_Permutation.
  - rewrite zlen_cons. lia.
Qed.

Lemma concat_replicate_nil n : concat (replicate n (@nil K)) = [].
Proof. induction n; simpl; [done|]. by rewrite IHn. Qed.

Lemma empty_placed n : (0 < n)%nat → placed {| theLists := replicate n []; currentSize := 0 |}.
Proof.
  intros Hn. split; cbn [theLists currentSize].
  - by rewrite length_replicate.
  - intros i l x [-> _]%lookup_replicate Hx. by apply elem_of_nil in Hx.
  - rewrite concat_replicate_nil. constructor.
  - by rewrite concat_replicate_nil.
Qed.

(** Rehashing keeps the objects and makes room. *)
Lemma rehash_ok t :
  placed t → currentSize t <= 1 + zlen (theLists t) →
  ∃ t' F, (∀ depth fuel, (F <= fuel)%nat → rehash fuel (insert_rec depth fuel) t = Some t') ∧
    table_ok t' ∧ table_items t' = table_items t.
Proof.
  intros Hok Hs. pose proof (ok_nonempty t Hok) as Hpos. pose proof (ok_count t Hok) as Hc.
  destruct (Primes.nextPrime_ok (2 * zlen (theLists t))) as (q & F & _ & Hq & _ & E).
  { unfold zlen. lia. }
  assert (concat (theLists t) ++ concat (replicate (Z.to_nat q) []) = concat (theLists t)) as Ec
    by by rewrite concat_replicate_nil, app_nil_r.
  destruct (insert_all_ok (concat (theLists t))
    {| theLists := replicate (Z.to_nat q) []; currentSize := 0 |}) as (t' & E' & Hok' & P & S & L).
  - apply empty_placed. unfold zlen in *. lia.
  - cbn [currentSize theLists]. unfold zlen in *. rewrite length_replicate. lia.
  - cbn [theLists]. rewrite Ec. apply Hok.
  - exists t', F. split_and!.
    + intros depth fuel Hf. unfold rehash. rewrite E by done. simpl. apply E'.
    + split; [done|]. rewrite S. cbn [currentSize theLists] in *. unfold zlen in *.
      rewrite L, length_replicate. lia.
    + unfold table_items. cbn [theLists] in P. by rewrite P, Ec.
Qed.

(** ** The public functions *)

Lemma chain_insert_ok x t :
  table_ok t →
  ∃ t' F, (∀ fuel, (F <= fuel)%nat →
      insert_rec 1 fuel x t = Some (bool_decide (x ∉ table_items t), t')) ∧
    table_ok t' ∧ table_items t' = {[x]} ∪ table_items t.
Proof.
  intros [Hok Hs]. destruct (slot_ok x t Hok) as (l & El & Hl).
  destruct (decide (x ∈ table_items t)) as [Hx|Hx].
  - exists t, 0%nat. split_and!; [|done|set_solver]. intros fuel _. cbn [insert_rec]. rewrite El. simpl.
    rewrite found_ok, bool_decide_true by (by rewrite Hl). by rewrite bool_decide_false by tauto.
  - rewrite (bool_decide_true (x ∉ _)) by done.
    destruct (push_placed x l t Hok El Hx) as [Hok' P].
    assert (table_items (push x l t) = {[x]} ∪ table_items t) as Ei.
    { unfold table_items. by rewrite P. }
    assert (∀ fuel, insert_rec 1 fuel x t =
      if zlen (theLists (push x l t)) <? currentSize (push x l t)
      then t ← rehash fuel (insert_rec 0 fuel) (push x l t); Some (true, t)
      else Some (true, push x l t)) as E.
    { intros. cbn [insert_rec]. rewrite El. simpl. by rewrite found_ok, bool_decide_false by (by rewrite Hl). }
    assert (length (theLists (push x l t)) = length (theLists t)) as L by apply length_insert.
    destruct (Z.ltb_spec (zlen (theLists (push x l t))) (currentSize (push x l t))) as [Hlt|Hge].
    + destruct (rehash_ok (push x l t) Hok') as (t' & F & E' & Hok'' & Ei').
      { simpl. unfold zlen in *. rewrite length_insert. lia. }
      exists t', F. split_and!; [|done|congruence]. intros fuel Hf. rewrite E, E' by done. done.
    + exists (push x l t), 0%nat. split_and!; [intros; by rewrite E|by split|done].
Qed.

Lemma erase_first_perm x l : x ∈ l → l ≡ₚ x :: erase_first x l.
Proof.
  induction l as [|y l IH]; simpl; [by intros ?%elem_of_nil|].
  destruct (decide (y = x)) as [->|Hne]; [done|]. intros [->|Hx]%elem_of_cons; [done|].
  rewrite (IH Hx) at 1. solve_Permutation.
Qed.

Lemma chain_remove_ok x t :
  table_ok t →
  ∃ t', remove x t = Some (bool_decide (x ∈ table_items t), t') ∧ table_ok t' ∧
    table_items t' = table_items t ∖ {[x]}.
Proof.
  intros [Hok Hs]. destruct (slot_ok x t Hok) as (l & El & Hl). unfold remove. rewrite El.
  cbn [mbind option_bind]. rewrite found_ok.
  destruct (decide (x ∈ table_items t)) as [Hx|Hx].
  2:{ exists t. rewrite !bool_decide_false by (rewrite ?Hl; done). split_and!; [done|done|set_solver]. }
  rewrite !bool_decide_true by (rewrite ?Hl; done).
  destruct (concat_split _ _ _ El) as (r & E & E').
  pose proof (erase_first_perm x l (proj2 Hl Hx)) as Pl.
  specialize (E' (erase_first x l)).
  assert (concat (theLists t) ≡ₚ x :: concat (<[myhash x t:=erase_first x l]> (theLists t))) as P
    by (rewrite E', E; rewrite Pl at 1; done).
  pose proof (ok_nodup t Hok) as Hn. rewrite P in Hn. apply NoDup_cons in Hn as [Hnx Hn].
  pose proof (ok_count t Hok) as Hc. unfold zlen in Hc. rewrite P in Hc. simpl in Hc.
  eexists. split; [done|]. split; [split|].
  - apply (replace_placed t _ l); [done|done| |done|unfold zlen; simpl; lia].
    intros y Hy. left. rewrite Pl. by right.
  - cbn [currentSize theLists]. unfold zlen in *. rewrite length_insert. lia.
  - unfold table_items. cbn [theLists]. rewrite P. simpl. set_solver.
Qed.

Lemma makeEmpty_ok t : table_ok t → table_ok (makeEmpty t) ∧ table_items (makeEmpty t) = ∅.
Proof.
  intros [Hok Hs]. unfold makeEmpty.
  assert (concat ((λ _, []) <$> theLists t) = @nil K) as E by (clear; induction (theLists t); done).
  split; [split; [split|]|]; cbn [theLists currentSize].
  - rewrite length_fmap. apply Hok.
  - intros i l x Hl Hx. apply list_lookup_fmap_Some in Hl as (? & -> & _). by apply elem_of_nil in Hx.
  - rewrite E. constructor.
  - rewrite E. pose proof (ok_count t Hok) as Hc. pose proof (zlen_nonneg (concat (theLists t))).
    rewrite zlen_nil. lia.
  - unfold zlen in *. by rewrite length_fmap.
  - unfold table_items. cbn [theLists]. by rewrite E.
Qed.

#[local] Instance chaining_impl : HashImpl K table.
Proof.
  refine {| exec := call_table; items := table_items; ok := table_ok |}.
  intros [x|x|x|x|] t Hok; cbn [spec fst snd]; simpl.
  1,2: destruct (chain_insert_ok x t Hok) as (t' & F & E & Hok' & Ei); exists t', F;
    split_and!; [|done|done]; intros fuel Hf; unfold insert, insert_move; by rewrite E.
  - destruct (chain_remove_ok x t Hok) as (t' & E & Hok' & Ei). exists t', 0%nat.
    split_and!; [|done|done]. intros. by rewrite E.
  - exists t, 0%nat. split_and!; [|done|done]. intros _ _.
    destruct (slot_ok x t (proj1 Hok)) as (l & El & Hl). unfold contains. rewrite El.
    cbn [mbind option_bind]. by rewrite found_ok, (bool_decide_ext _ _ Hl).
  - destruct (makeEmpty_ok t Hok) as [Hok' E]. by exists (makeEmpty t), 0%nat.
Defined.

Definition run (fuel : nat) (cs : list (call K)) (t : table) : option (list answer * table) :=
  exec_run fuel cs t.
End table.

(** the chained hash table is a finite set: whatever the hash function
    and the calls, with enough fuel for the searches for a prime size no
    access leaves the table, rehashing never nests, the answers are those of
    the set, and at most as many objects as lists are in the table. *)
Lemma chaining_implements_set `{Countable K} (hf : K → N) (size : Z) (cs : list (call K)) :
  ∃ t F, (∀ fuel, (F <= fuel)%nat →
      run hf fuel cs (construct size) = Some ((spec_run cs ∅).1, t)) ∧
    table_ok hf t ∧ table_items t = (spec_run cs ∅).2.
Proof.
  assert (table_ok hf (construct size)) as Hok.
  { split; [apply empty_placed; lia|done]. }
  assert (table_items (construct (K:=K) size) = ∅) as E.
  { unfold table_items, construct. cbn [theLists]. by rewrite concat_replicate_nil. }
  rewrite <- E. exact (hash_run_ok (T:=table) (H0:=chaining_impl hf) cs (construct size) Hok).
Qed.
End SeparateChaining.
