(* ===== verification/QuadraticProbing.v ===== *)
(** * QuadraticProbing: codeC++11/QuadraticProbing.h

    Open addressing with quadratic probing in a table of prime size that is
    at most half full, deleted entries included.  The hash function is a
    library function, a parameter with values of an unsigned type. *)
From Stdlib Require Import ZifyNat.
From S2P Require Import Prelude HashContract.
Import HashContract.

Module QuadraticProbing.

Inductive EntryType : Type := ACTIVE | EMPTY | DELETED.

#[export] Instance EntryType_eq_dec : EqDecision EntryType.
Proof. solve_decision. Defined.

Section table.
(** [dflt] is the default-constructed object. *)
Context {K : Type} `{Countable K} (hf : K → N) (dflt : K).

Record HashEntry := mk_entry {
  element : K;
  info : EntryType;
}.

Record table := mk_table {
  array : list HashEntry;
  currentSize : nat;
}.

(** [entry.info = EMPTY] *)
Definition clear_entry (e : HashEntry) : HashEntry := {| element := element e; info := EMPTY |}.

Definition makeEmpty (t : table) : table :=
  {| array := clear_entry <$> array t; currentSize := 0 |}.

Definition construct (fuel : nat) (size : Z) : option table :=
  n ← Primes.nextPrime fuel size;
  Some (makeEmpty {| array := replicate (Z.to_nat n) (mk_entry dflt EMPTY); currentSize := 0 |}).

Definition myhash (x : K) (arr : list HashEntry) : nat := N.to_nat (hf x mod N.of_nat (length arr)).

(** The negation of the loop condition of [findPos] *)
Definition stops (x : K) (e : HashEntry) : bool :=
  bool_decide (info e = EMPTY) || bool_decide (element e = x).

Fixpoint find_loop (fuel offset currentPos : nat) (x : K) (arr : list HashEntry) : option nat :=
  e ← arr !! currentPos;
  if stops x e then Some currentPos
  else
    match fuel with
    | O => None
    | S fuel =>
        let currentPos := (currentPos + offset)%nat in
        let offset := (offset + 2)%nat in
        let currentPos :=
          if (length arr <=? currentPos)%nat then (currentPos - length arr)%nat else currentPos in
        find_loop fuel offset currentPos x arr
    end.

Definition findPos (x : K) (t : table) : option nat :=
  find_loop (length (array t)) 1 (myhash x (array t)) x (array t).

Definition isActive (currentPos : nat) (t : table) : option bool :=
  e ← array t !! currentPos;
  Some (bool_decide (info e = ACTIVE)).

Definition contains (x : K) (t : table) : option bool :=
  pos ← findPos x t;
  isActive pos t.

(** [rehash] with the [insert] that it calls *)
Fixpoint insert_active (ins : K → table → option (bool * table)) (old : list HashEntry)
    (t : table) : option table :=
  match old with
  | [] => Some t
  | e :: old =>
      if bool_decide (info e = ACTIVE)
      then '(_, t) ← ins (element e) t; insert_active ins old t
      else insert_active ins old t
  end.

Definition rehash (fuel : nat) (ins : K → table → option (bool * table)) (t : table) :
    option table :=
  let oldArray := array t in
  n ← Primes.nextPrime fuel (2 * zlen oldArray);
  insert_active ins oldArray
    {| array := clear_entry <$> resize (Z.to_nat n) (mk_entry dflt EMPTY) oldArray;
       currentSize := 0 |}.

(** [insert] and [rehash] call each other; [depth] bounds the nesting. *)
Fixpoint insert_rec (depth fuel : nat) (x : K) (t : table) : option (bool * table) :=
  pos ← findPos x t;
  active ← isActive pos t;
  if active : bool then Some (false, t)
  else
    e ← array t !! pos;
    let t := {| array := <[pos := mk_entry x ACTIVE]> (array t);
                currentSize := if bool_decide (info e ≠ DELETED) then S (currentSize t)
                               else currentSize t |} in
    if (length (array t) / 2 <? currentSize t)%nat then
      match depth with
      | O => None
      | S depth => t ← rehash fuel (insert_rec depth fuel) t; Some (true, t)
      end
    else Some (true, t).

Definition insert (fuel : nat) (x : K) (t : table) : option (bool * table) := insert_rec 1 fuel x t.
(** The overload for rvalues leaves the same entry. *)
Definition insert_move (fuel : nat) (x : K) (t : table) : option (bool * table) :=
  insert_rec 1 fuel x t.

Definition remove (x : K) (t : table) : option (bool * table) :=
  pos ← findPos x t;
  active ← isActive pos t;
  if active : bool then
    e ← array t !! pos;
    Some (true, {| array := <[pos := mk_entry (element e) DELETED]> (array t);
                   currentSize := currentSize t |})
  else Some (false, t).

Definition call_table (fuel : nat) (c : call K) (t : table) : option (answer * table) :=
  match c with
  | Insert x => '(b, t) ← insert fuel x t; Some (Answer b, t)
  | InsertMove x => '(b, t) ← insert_move fuel x t; Some (Answer b, t)
  | Remove x => '(b, t) ← remove x t; Some (Answer b, t)
  | Contains x => b ← contains x t; Some (Answer b, t)
  | MakeEmpty => Some (Done, makeEmpty t)
  end.

(** ** The probe sequence *)

Implicit Types arr : list HashEntry.

(** The position of the [i]-th probe. *)
Definition probe (p h i : nat) : nat := ((h + i * i) mod p)%nat.

Lemma probe_lt p h i : (0 < p)%nat → (probe p h i < p)%nat.
Proof. intros. apply Nat.mod_upper_bound. lia. Qed.

Lemma probe_0 p h : (h < p)%nat → probe p h 0 = h.
Proof. intros. unfold probe. by rewrite Nat.mul_0_r, Nat.add_0_r, Nat.mod_small. Qed.

Lemma probe_step p h i :
  (2 * i + 1 <= p)%nat →
  (if p <=? probe p h i + (2 * i + 1) then probe p h i + (2 * i + 1) - p
   else probe p h i + (2 * i + 1))%nat = probe p h (S i).
Proof.
  intros Hi. unfold probe. set (a := (h + i * i)%nat).
  replace (h + S i * S i)%nat with (a + (2 * i + 1))%nat by (unfold a; lia).
  assert (p ≠ 0)%nat as Hp by lia.
  pose proof (Nat.mod_upper_bound a p Hp). pose proof (Nat.div_mod a p Hp) as E.
  destruct (Nat.leb_spec p (a mod p + (2 * i + 1))).
  - apply (Nat.mod_unique _ _ (a / p + 1)); nia.
  - apply (Nat.mod_unique _ _ (a / p)); nia.
Qed.

(** The first half of the probes hits different positions. *)
Lemma probe_inj p h i j :
  Z.prime (Z.of_nat p) → (i < j)%nat → (i + j < p)%nat → probe p h i ≠ probe p h j.
Proof.
  intros Hp Hij Hs E. unfold probe in E. apply (f_equal Z.of_nat) in E.
  rewrite !Nat2Z.inj_mod in E.
  assert (Z.of_nat p | Z.of_nat (h + j * j) - Z.of_nat (h + i * i)) as Hd.
  { apply Z.mod_divide; [lia|]. rewrite Zminus_mod, E, Z.sub_diag. by apply Z.mod_0_l; lia. }
  replace (Z.of_nat (h + j * j) - Z.of_nat (h + i * i))
    with ((Z.of_nat j - Z.of_nat i) * (Z.of_nat j + Z.of_nat i)) in Hd by lia.
  apply Z.divide_prime_mul in Hd as [Hd|Hd]; [..|done]; apply Z.divide_pos_le in Hd; lia.
Qed.

Definition nonempty (e : HashEntry) : Prop := info e ≠ EMPTY.
#[local] Instance nonempty_dec e : Decision (nonempty e).
Proof. unfold nonempty. apply _. Defined.
Definition nonempties arr : nat := length (filter nonempty arr).

(** Different positions with entries that are not empty are counted. *)
Lemma pigeonhole arr (ps : list nat) :
  NoDup ps → (∀ i, i ∈ ps → ∃ e, arr !! i = Some e ∧ nonempty e) →
  (length ps <= nonempties arr)%nat.
Proof.
  revert ps. induction arr as [|e arr IH] using rev_ind; intros ps Hn Hps.
  - destruct ps as [|i ps]; [done|]. destruct (Hps i) as (e & He & _); [by left|]. done.
  - unfold nonempties in *. rewrite filter_app, length_app.
    set (ps' := filter (λ i, i ≠ length arr) ps).
    assert (length ps' <= length (filter nonempty arr))%nat as Hl.
    { apply IH; [by apply NoDup_filter|]. intros i [Hi Hin]%list_elem_of_filter.
      destruct (Hps i Hin) as (e' & He' & Hne). exists e'. split; [|done].
      pose proof (lookup_lt_Some _ _ _ He') as Hlt. rewrite length_app in Hlt. simpl in Hlt.
      by rewrite lookup_app_l in He' by lia. }
    destruct (decide (length arr ∈ ps)) as [Hin|Hin].
    + destruct (Hps _ Hin) as (e' & He' & Hne).
      rewrite lookup_app_r, Nat.sub_diag in He' by lia. injection He' as ->.
      rewrite filter_cons_True by done. simpl.
      assert (length ps <= S (length ps'))%nat; [|lia].
      apply (submseteq_length ps (length arr :: ps')). apply NoDup_submseteq; [done|].
      intros i Hi. rewrite elem_of_cons. destruct (decide (i = length arr)); [by left|right].
      by apply list_elem_of_filter.
    + assert (length ps <= length ps')%nat; [|lia].
      apply submseteq_length, NoDup_submseteq; [done|]. intros i Hi.
      apply list_elem_of_filter. split; [by intros ->|done].
Qed.

(** ** What findPos finds *)

Definition stop_at arr (x : K) (q : nat) : bool :=
  match arr !! q with Some e => stops x e | None => true end.

(** [q] is the first position in the probe sequence of [x] that stops it. *)
Definition finds arr (x : K) (q : nat) : Prop :=
  ∃ n, (2 * n <= length arr)%nat ∧ q = probe (length arr) (myhash x arr) n ∧
    stop_at arr x q = true ∧
    ∀ k, (k < n)%nat → stop_at arr x (probe (length arr) (myhash x arr) k) = false.

Lemma least_true (f : nat → bool) n :
  f n = true → ∃ m, (m <= n)%nat ∧ f m = true ∧ ∀ k, (k < m)%nat → f k = false.
Proof.
  induction n as [n IH] using lt_wf_ind. intros Hn.
  destruct (decide (Exists (λ k, f k = true) (seq 0 n))) as [Hex|Hex].
  - apply Exists_exists in Hex as (k & Hk & Ek). apply elem_of_seq in Hk.
    destruct (IH k) as (m & Hm & ?); [lia|done|]. exists m. split; [lia|done].
  - exists n. split; [done|]. split; [done|]. intros k Hk. apply not_true_is_false. intros Ek.
    apply Hex, Exists_exists. exists k. split; [apply elem_of_seq; lia|done].
Qed.

(** The size is prime and the table at most half full. *)
Record roomy arr : Prop := {
  roomy_prime : Z.prime (zlen arr);
  roomy_size : (3 <= length arr)%nat;
  roomy_load : (nonempties arr <= length arr / 2)%nat;
}.

(** One of the first probes stops. *)
Lemma finds_some arr x : roomy arr → ∃ q, finds arr x q.
Proof.
  intros [Hp Hl Hn]. set (p := length arr) in *. set (pr := probe p (myhash x arr)).
  assert (∃ i, (i <= p / 2)%nat ∧ stop_at arr x (pr i) = true) as (i & Hi & Hs).
  { destruct (decide (Exists (λ i, stop_at arr x (pr i) = true) (seq 0 (S (p / 2))))) as [Hex|Hex].
    { apply Exists_exists in Hex as (i & Hi & Es). apply elem_of_seq in Hi. exists i. split; [lia|done]. }
    exfalso. assert (length (pr <$> seq 0 (S (p / 2))) <= nonempties arr)%nat as Hc.
    { apply pigeonhole.
      - apply NoDup_fmap_2_strong; [|apply NoDup_seq]. intros i j Hi%elem_of_seq Hj%elem_of_seq E.
        destruct (lt_eq_lt_dec i j) as [[Hlt|Heq]|Hgt]; [|done|].
        + by apply (probe_inj p (myhash x arr) i j) in E; [|done|lia|lia].
        + symmetry in E. by apply (probe_inj p (myhash x arr) j i) in E; [|done|lia|lia].
      - intros q (i & -> & Hi)%list_elem_of_fmap.
        destruct (lookup_lt_is_Some_2 arr (pr i)) as [e He]; [apply probe_lt; lia|].
        exists e. split; [done|]. intros Hne. apply Hex, Exists_exists. exists i. split; [done|].
        unfold stop_at. rewrite He. unfold stops. by rewrite (bool_decide_true (info e = EMPTY)). }
    rewrite length_fmap, length_seq in Hc. lia. }
  destruct (least_true (λ i, stop_at arr x (pr i)) i Hs) as (m & Hm & Es & Hk).
  exists (pr m), m. split_and!; [|done..]. fold p. lia.
Qed.

Lemma find_loop_run fuel arr x n i :
  (i <= n)%nat → (n - i <= fuel)%nat → (2 * n <= length arr)%nat → (0 < length arr)%nat →
  stop_at arr x (probe (length arr) (myhash x arr) n) = true →
  (∀ k, (k < n)%nat → stop_at arr x (probe (length arr) (myhash x arr) k) = false) →
  find_loop fuel (2 * i + 1) (probe (length arr) (myhash x arr) i) x arr =
    Some (probe (length arr) (myhash x arr) n).
Proof.
  revert i. induction fuel as [|fuel IH]; intros i Hi Hf Hn Hl Hs Hk; cbn [find_loop];
    (destruct (lookup_lt_is_Some_2 arr (probe (length arr) (myhash x arr) i)) as [e He];
      [by apply probe_lt|]); rewrite He; cbn [mbind option_bind];
    (destruct (decide (i = n)) as [->|Hne];
      [unfold stop_at in Hs; rewrite He in Hs; by rewrite Hs|]).
  - lia.
  - pose proof (Hk i) as Hki. unfold stop_at in Hki. rewrite He in Hki. rewrite Hki by lia.
    rewrite probe_step by lia. replace (2 * i + 1 + 2)%nat with (2 * S i + 1)%nat by lia.
    apply IH; done || lia.
Qed.

Lemma quad_myhash_lt x arr : (0 < length arr)%nat → (myhash x arr < length arr)%nat.
Proof. intros Hl. unfold myhash. pose proof (N.mod_lt (hf x) (N.of_nat (length arr))). lia. Qed.

Lemma findPos_finds x t q :
  (0 < length (array t))%nat → finds (array t) x q → findPos x t = Some q.
Proof.
  intros Hl (n & Hn & -> & Hs & Hk). unfold findPos.
  pose proof (find_loop_run (length (array t)) (array t) x n 0) as E.
  rewrite probe_0 in E by by apply quad_myhash_lt.
  apply E; done || lia.
Qed.

(** A later table finds the object at the same place when what did not stop
    the probes before does not stop them now. *)
Lemma finds_update arr arr' x q :
  finds arr x q → length arr' = length arr →
  (∀ i, stop_at arr x i = false → stop_at arr' x i = false) → stop_at arr' x q = true →
  finds arr' x q.
Proof.
  intros (n & Hn & -> & _ & Hk) Hl Hi Hs.
  assert (myhash x arr' = myhash x arr) as E by (unfold myhash; by rewrite Hl).
  exists n. rewrite Hl, E. split_and!; [done..|]. intros k Hlt. by apply Hi, Hk.
Qed.

(** ** The invariant *)

(** Every entry that is not empty is where the search for its object ends. *)
Definition placed arr : Prop :=
  ∀ q e, arr !! q = Some e → nonempty e → finds arr (element e) q.

Record table_ok (t : table) : Prop := {
  ok_roomy : roomy (array t);
  ok_placed : placed (array t);
  ok_count : nonempties (array t) = currentSize t;
}.

Definition active_object (e : HashEntry) : option K :=
  if bool_decide (info e = ACTIVE) then Some (element e) else None.
Definition table_items (t : table) : gset K := list_to_set (omap active_object (array t)).

Lemma quad_elem_of_items x t :
  x ∈ table_items t ↔ ∃ q e, array t !! q = Some e ∧ info e = ACTIVE ∧ element e = x.
Proof.
  unfold table_items. rewrite elem_of_list_to_set, list_elem_of_omap. split.
  - intros (e & He & Ha). apply list_elem_of_lookup in He as [q Hq]. exists q, e.
    unfold active_object in Ha. case_bool_decide; by simplify_eq.
  - intros (q & e & Hq & Ha & <-). exists e. split; [by eapply list_elem_of_lookup_2|].
    unfold active_object. by rewrite bool_decide_true.
Qed.

(** The search for an object: its place, and whether it is in the table. *)
Lemma search_ok x t :
  table_ok t → ∃ q e, findPos x t = Some q ∧ finds (array t) x q ∧ array t !! q = Some e ∧
    stops x e = true ∧ (info e = ACTIVE ↔ x ∈ table_items t) ∧ (nonempty e → element e = x).
Proof.
  intros [Hr Hp Hc]. destruct (finds_some _ x Hr) as [q Hq]. pose proof (roomy_size _ Hr) as Hl.
  assert (findPos x t = Some q) as Ef by (apply findPos_finds; [lia|done]).
  destruct (lookup_lt_is_Some_2 (array t) q) as [e He].
  { destruct Hq as (n & _ & -> & _). apply probe_lt. lia. }
  assert (stops x e = true) as Hs.
  { destruct Hq as (n & _ & _ & Hs & _). unfold stop_at in Hs. by rewrite He in Hs. }
  assert (nonempty e → element e = x) as Hx.
  { intros Hne. unfold stops in Hs. rewrite bool_decide_false in Hs by done.
    by apply bool_decide_eq_true in Hs. }
  exists q, e. split_and!; [done..| |done]. rewrite quad_elem_of_items. split.
  - intros Ha. exists q, e. split_and!; [done..|]. apply Hx. intros E. congruence.
  - intros (q' & e' & He' & Ha & E). assert (finds (array t) x q') as Hq'.
    { rewrite <- E. apply Hp; [done|]. intros E'. congruence. }
    apply findPos_finds in Hq'; [|lia]. congruence.
Qed.

Lemma nonempties_insert arr q e e' :
  arr !! q = Some e →
  (nonempties (<[q := e']> arr) + (if decide (nonempty e) then 1 else 0) =
   nonempties arr + (if decide (nonempty e') then 1 else 0))%nat.
Proof.
  intros He. unfold nonempties. pose proof (lookup_lt_Some _ _ _ He).
  rewrite <- (take_drop_middle arr q e He) at 2. rewrite insert_take_drop by done.
  rewrite !filter_app, !filter_cons, !length_app.
  destruct (decide (nonempty e)), (decide (nonempty e')); simpl; lia.
Qed.

Lemma stop_at_insert arr q e y i :
  (q < length arr)%nat →
  stop_at (<[q := e]> arr) y i = if decide (i = q) then stops y e else stop_at arr y i.
Proof.
  intros Hq. unfold stop_at. destruct (decide (i = q)) as [->|Hne].
  - by rewrite list_lookup_insert_eq.
  - by rewrite list_lookup_insert_ne.
Qed.

(** The entry at [q], where the search for [x] ends, becomes one of [x] that
    is not empty. *)
Lemma placed_insert arr q e x i' :
  placed arr → finds arr x q → arr !! q = Some e → (nonempty e → element e = x) → i' ≠ EMPTY →
  placed (<[q := mk_entry x i']> arr).
Proof.
  intros Hp Hf He Hx Hi. pose proof (lookup_lt_Some _ _ _ He) as Hlt.
  assert (∀ y i, nonempty e ∨ i ≠ q ∨ y = x → stop_at arr y i = false →
    stop_at (<[q := mk_entry x i']> arr) y i = false ∨ (i = q ∧ y = x)) as Hst.
  { intros y i Hor Hs. rewrite stop_at_insert by done. destruct (decide (i = q)) as [->|]; [|by left].
    destruct (decide (y = x)) as [->|Hyx]; [by right|left]. unfold stops. simpl.
    rewrite !bool_decide_false; done. }
  intros q1 e1 He1 Hne1. destruct (decide (q1 = q)) as [->|Hq].
  - rewrite list_lookup_insert_eq in He1 by done. injection He1 as <-. simpl.
    apply (finds_update arr); [done|apply length_insert| |].
    + intros i Hs. destruct (Hst x i) as [|[-> _]]; [by right; right|done|done|].
      destruct Hf as (n & _ & _ & Hs' & _). congruence.
    + rewrite stop_at_insert by done. rewrite decide_True by done. unfold stops. simpl.
      by rewrite (bool_decide_true (x = x)), orb_true_r.
  - rewrite list_lookup_insert_ne in He1 by done. pose proof (Hp q1 e1 He1 Hne1) as Hf1.
    assert (0 < length arr)%nat by lia.
    assert (element e1 ≠ x) as Hex.
    { intros E. rewrite E in Hf1. 
      pose proof (findPos_finds x (mk_table arr 0) q1) as E1.
      pose proof (findPos_finds x (mk_table arr 0) q) as E2.
      simpl in *. rewrite E1 in E2 by done. specialize (E2 ltac:(done) Hf). congruence. }
    apply (finds_update arr); [done|apply length_insert| |].
    + intros i Hs. destruct (decide (i = q)) as [->|Hiq].
      * rewrite stop_at_insert by done. rewrite decide_True by done. unfold stops. simpl.
        rewrite !bool_decide_false; done.
      * rewrite stop_at_insert by done. by rewrite decide_False.
    + rewrite stop_at_insert, decide_False by done. destruct Hf1 as (n & _ & _ & Hs & _). done.
Qed.

Lemma items_insert t q e x i' n :
  array t !! q = Some e → (nonempty e → element e = x) →
  (∀ q' e', q' ≠ q → array t !! q' = Some e' → info e' = ACTIVE → element e' ≠ x) →
  table_items {| array := <[q := mk_entry x i']> (array t); currentSize := n |} =
    if bool_decide (i' = ACTIVE) then {[x]} ∪ table_items t else table_items t ∖ {[x]}.
Proof.
  intros He Hx Hu. pose proof (lookup_lt_Some _ _ _ He) as Hlt. apply set_eq. intros y.
  assert (y ∈ table_items {| array := <[q := mk_entry x i']> (array t); currentSize := n |} ↔
    (y = x ∧ i' = ACTIVE) ∨ (y ≠ x ∧ y ∈ table_items t)) as ->.
  { rewrite !quad_elem_of_items. cbn [array]. split.
    - intros (q' & e' & He' & Ha & Ey). destruct (decide (q' = q)) as [->|Hq].
      + rewrite list_lookup_insert_eq in He' by done. injection He' as <-. left. by subst.
      + rewrite list_lookup_insert_ne in He' by done. right. subst y.
        split; [by eapply Hu|by exists q', e'].
    - intros [[-> ->]|(Hne & q' & e' & He' & Ha & Ey)].
      + exists q, (mk_entry x ACTIVE). by rewrite list_lookup_insert_eq.
      + exists q', e'. split_and!; [|done..]. rewrite list_lookup_insert_ne; [done|].
        intros ->. rewrite He in He'. injection He' as ->. rewrite Hx in Ey; [done|]. congruence. }
  case_bool_decide.
  - rewrite elem_of_union, elem_of_singleton. destruct (decide (y = x)); tauto.
  - rewrite elem_of_difference, elem_of_singleton. tauto.
Qed.

(** ** Insertion *)

Definition store (x : K) (q : nat) (e : HashEntry) (t : table) : table :=
  {| array := <[q := mk_entry x ACTIVE]> (array t);
     currentSize := if bool_decide (info e ≠ DELETED) then S (currentSize t) else currentSize t |}.

(** Only the load of the new table remains to be checked. *)
Record stored (x : K) (t t' : table) : Prop := {
  stored_placed : placed (array t');
  stored_count : nonempties (array t') = currentSize t';
  stored_size : (currentSize t' <= S (currentSize t))%nat;
  stored_length : length (array t') = length (array t);
  stored_items : table_items t' = {[x]} ∪ table_items t;
}.

Lemma unique_place t q e x :
  table_ok t → finds (array t) x q → array t !! q = Some e →
  ∀ q' e', q' ≠ q → array t !! q' = Some e' → info e' = ACTIVE → element e' ≠ x.
Proof.
  intros [Hr Hp _] Hf He q' e' Hne He' Ha E. pose proof (roomy_size _ Hr).
  assert (finds (array t) x q') as Hf' by (rewrite <- E; apply Hp; [done|intros E'; congruence]).
  apply findPos_finds in Hf, Hf'; [congruence|lia..].
Qed.

Lemma store_ok x t q e :
  table_ok t → finds (array t) x q → array t !! q = Some e → (nonempty e → element e = x) →
  info e ≠ ACTIVE → stored x t (store x q e t).
Proof.
  intros Hok Hf He Hx Ha. pose proof (unique_place t q e x Hok Hf He) as Hu.
  destruct Hok as [Hr Hp Hc]. split; cbn [store array currentSize].
  - by apply (placed_insert _ _ e).
  - pose proof (nonempties_insert (array t) q e (mk_entry x ACTIVE) He) as E.
    rewrite (decide_True (P := nonempty (mk_entry x ACTIVE))) in E by done.
    destruct (decide (info e = DELETED)) as [Ei|Ei].
    + rewrite bool_decide_false by tauto.
      rewrite decide_True in E by (intros E'; congruence). lia.
    + rewrite bool_decide_true by done. rewrite decide_False in E; [lia|].
      intros Hne. unfold nonempty in Hne. by destruct (info e).
  - case_bool_decide; lia.
  - apply length_insert.
  - unfold store. rewrite (items_insert t q e) by done. done.
Qed.

(** What [insert] does apart from the check of the load. *)
Lemma insert_cases x t :
  table_ok t →
  ((x ∈ table_items t) ∧ ∀ depth fuel, insert_rec depth fuel x t = Some (false, t)) ∨
  ((x ∉ table_items t) ∧ ∃ t', stored x t t' ∧ ∀ depth fuel, insert_rec depth fuel x t =
    if (length (array t') / 2 <? currentSize t')%nat then
      match depth with
      | O => None
      | S depth => t' ← rehash fuel (insert_rec depth fuel) t'; Some (true, t')
      end
    else Some (true, t')).
Proof.
  intros Hok. destruct (search_ok x t Hok) as (q & e & Eq & Hf & He & Hs & Ha & Hx).
  destruct (decide (x ∈ table_items t)) as [Hin|Hin]; [left|right]; (split; [done|]).
  - intros depth fuel. destruct depth; cbn [insert_rec]; rewrite Eq; cbn [mbind option_bind];
      unfold isActive; rewrite He; cbn [mbind option_bind]; by rewrite bool_decide_true by tauto.
  - exists (store x q e t). split; [apply store_ok; tauto|].
    intros depth fuel. destruct depth; cbn [insert_rec]; rewrite Eq; cbn [mbind option_bind];
      unfold isActive; rewrite He; cbn [mbind option_bind]; by rewrite bool_decide_false by tauto.
Qed.

Lemma stored_ok x t t' :
  table_ok t → stored x t t' → (currentSize t' <= length (array t) / 2)%nat → table_ok t'.
Proof.
  intros [[Hp Hs Hl] _ _] [Hp' Hc' _ L _] Hc. split; [split|done|done].
  - unfold zlen in *. by rewrite L.
  - by rewrite L.
  - by rewrite L, Hc'.
Qed.

Lemma quad_insert_small x t :
  table_ok t → (currentSize t < length (array t) / 2)%nat →
  ∃ b t', (∀ depth fuel, insert_rec depth fuel x t = Some (b, t')) ∧ table_ok t' ∧
    (currentSize t' <= S (currentSize t))%nat ∧ length (array t') = length (array t) ∧
    table_items t' = {[x]} ∪ table_items t.
Proof.
  intros Hok Hs. destruct (insert_cases x t Hok) as [[Hin E]|(Hin & t' & Ht' & E)].
  - exists false, t. split_and!; [done|done|lia|done|set_solver].
  - destruct (Ht') as [_ _ Hs' L Hi]. exists true, t'. split_and!; [|eapply stored_ok; done || lia|done..].
    intros depth fuel. rewrite E. by rewrite (proj2 (Nat.ltb_ge _ _)) by (rewrite L; lia).
Qed.

Lemma insert_active_ok old : ∀ t,
  table_ok t → (currentSize t + length (omap active_object old) <= length (array t) / 2)%nat →
  ∃ t', (∀ depth fuel, insert_active (insert_rec depth fuel) old t = Some t') ∧ table_ok t' ∧
    table_items t' = list_to_set (omap active_object old) ∪ table_items t.
Proof.
  induction old as [|e old IH]; intros t Hok Hc.
  { exists t. split_and!; [done..|set_solver]. }
  cbn [insert_active omap list_omap] in *. 
  assert (active_object e = if bool_decide (info e = ACTIVE) then Some (element e) else None) as Eo
    by done. rewrite Eo in *. clear Eo.
  destruct (bool_decide (info e = ACTIVE)); [|by apply IH]. cbn [length list_to_set] in *.
  destruct (quad_insert_small (element e) t) as (b & t1 & E1 & Hok1 & S1 & L1 & I1); [done|lia|].
  destruct (IH t1) as (t2 & E2 & Hok2 & I2); [done|rewrite L1; lia|].
  exists t2. split_and!; [|done|rewrite I2, I1; set_solver].
  intros. rewrite E1. cbn [mbind option_bind]. apply E2.
Qed.

Lemma active_le arr : (length (omap active_object arr) <= nonempties arr)%nat.
Proof.
  unfold nonempties. induction arr as [|e arr IH]; [done|]. rewrite filter_cons. cbn [omap list_omap].
  unfold active_object at 1. case_bool_decide as Ha; case_decide as Hn; simpl; try lia.
  destruct Hn. unfold nonempty. congruence.
Qed.

Lemma nonempties_clear arr : nonempties (clear_entry <$> arr) = 0%nat.
Proof.
  unfold nonempties. induction arr as [|e arr IH]; [done|]. cbn [fmap list_fmap].
  by rewrite filter_cons_False by (unfold nonempty; simpl; tauto).
Qed.

Lemma cleared_ok arr :
  Z.prime (zlen arr) → (3 <= length arr)%nat →
  let t := {| array := clear_entry <$> arr; currentSize := 0 |} in
  table_ok t ∧ table_items t = ∅.
Proof.
  intros Hp Hl t. split; [split; [split|..]|]; unfold t; cbn [array currentSize].
  - unfold zlen in *. by rewrite length_fmap.
  - by rewrite length_fmap.
  - rewrite nonempties_clear. lia.
  - intros q e He Hne. apply list_lookup_fmap_Some in He as (e' & -> & _). by destruct Hne.
  - apply nonempties_clear.
  - apply set_eq. intros x. rewrite quad_elem_of_items. split; [|set_solver]. cbn [array].
    intros (q & e & He & Ha & _). apply list_lookup_fmap_Some in He as (e' & -> & _). done.
Qed.

(** Rehashing keeps the objects and makes room. *)
Lemma quad_rehash_ok t :
  (3 <= length (array t))%nat → nonempties (array t) = currentSize t →
  (currentSize t <= S (length (array t) / 2))%nat →
  ∃ t' F, (∀ depth fuel, (F <= fuel)%nat → rehash fuel (insert_rec depth fuel) t = Some t') ∧
    table_ok t' ∧ table_items t' = table_items t.
Proof.
  intros Hl Hc Hs.
  destruct (Primes.nextPrime_ok (2 * zlen (array t))) as (q & F & Hp & Hq & _ & E).
  { unfold zlen. lia. }
  set (arr := resize (Z.to_nat q) (mk_entry dflt EMPTY) (array t)).
  assert (length arr = Z.to_nat q) as La by apply length_resize.
  unfold zlen in Hq.
  destruct (cleared_ok arr) as [Hok Hi]; [unfold zlen; rewrite La; by rewrite Z2Nat.id by lia|lia|].
  destruct (insert_active_ok (array t) _ Hok) as (t' & E' & Hok' & Ei).
  { cbn [array currentSize]. rewrite length_fmap, La. pose proof (active_le (array t)). lia. }
  exists t', F. split_and!; [|done|by rewrite Ei, Hi, (right_id_L ∅ (∪))].
  intros depth fuel Hf. unfold rehash. rewrite E by done. cbn [mbind option_bind]. apply E'.
Qed.

Lemma quad_insert_ok x t :
  table_ok t →
  ∃ t' F, (∀ fuel, (F <= fuel)%nat →
      insert_rec 1 fuel x t = Some (bool_decide (x ∉ table_items t), t')) ∧
    table_ok t' ∧ table_items t' = {[x]} ∪ table_items t.
Proof.
  intros Hok. destruct (insert_cases x t Hok) as [[Hin E]|(Hin & t' & Ht' & E)].
  { exists t, 0%nat. split_and!; [|done|set_solver]. intros. rewrite E.
    by rewrite bool_decide_false by tauto. }
  rewrite bool_decide_true by done. destruct (Ht') as [_ Hc' Hs' L Hi].
  pose proof (roomy_load _ (ok_roomy _ Hok)) as Hl. rewrite (ok_count _ Hok) in Hl.
  pose proof (roomy_size _ (ok_roomy _ Hok)).
  destruct (Nat.ltb_spec (length (array t') / 2) (currentSize t')) as [Hlt|Hge].
  - destruct (quad_rehash_ok t') as (t2 & F & E2 & Hok2 & I2); [by rewrite L|done|rewrite L; lia|].
    exists t2, F. split_and!; [|done|congruence]. intros fuel Hf. rewrite E.
    rewrite E2 by done. done.
  - exists t', 0%nat. split_and!; [intros; by rewrite E| |done]. rewrite L in Hge. by eapply stored_ok.
Qed.

Lemma quad_remove_ok x t :
  table_ok t →
  ∃ t', remove x t = Some (bool_decide (x ∈ table_items t), t') ∧ table_ok t' ∧
    table_items t' = table_items t ∖ {[x]}.
Proof.
  intros Hok. destruct (search_ok x t Hok) as (q & e & Eq & Hf & He & Hs & Ha & Hx).
  unfold remove. rewrite Eq. cbn [mbind option_bind]. unfold isActive. rewrite He.
  cbn [mbind option_bind].
  destruct (decide (x ∈ table_items t)) as [Hin|Hin].
  2:{ exists t. rewrite !bool_decide_false by tauto. split_and!; [done|done|set_solver]. }
  rewrite !bool_decide_true by tauto. eexists. split; [done|].
  assert (info e = ACTIVE) as Ea by tauto. assert (nonempty e) as Hne by (intros E; congruence).
  rewrite (Hx Hne). pose proof (unique_place t q e x Hok Hf He) as Hu.
  destruct Hok as [[Hp Hl Hlo] Hpl Hc].
  assert (nonempties (<[q := mk_entry x DELETED]> (array t)) = nonempties (array t)) as En.
  { pose proof (nonempties_insert (array t) q e (mk_entry x DELETED) He) as E.
    rewrite !decide_True in E by done. lia. }
  split; [split; [split|..]|]; cbn [array currentSize].
  - unfold zlen in *. by rewrite length_insert.
  - by rewrite length_insert.
  - by rewrite length_insert, En.
  - by apply (placed_insert _ _ e).
  - by rewrite En.
  - by rewrite (items_insert t q e).
Qed.

#[local] Instance probing_impl : HashImpl K table.
Proof.
  refine {| exec := call_table; items := table_items; ok := table_ok |}.
  intros [x|x|x|x|] t Hok; cbn [spec fst snd call_table].
  1,2: destruct (quad_insert_ok x t Hok) as (t' & F & E & Hok' & Ei); exists t', F;
    split_and!; [|done|done]; intros fuel Hf; unfold insert, insert_move; by rewrite E.
  - destruct (quad_remove_ok x t Hok) as (t' & E & Hok' & Ei). exists t', 0%nat.
    split_and!; [|done|done]. intros. by rewrite E.
  - exists t, 0%nat. split_and!; [|done|done]. intros _ _.
    destruct (search_ok x t Hok) as (q & e & Eq & _ & He & _ & Ha & _).
    unfold contains, isActive. rewrite Eq. cbn [mbind option_bind]. rewrite He.
    cbn [mbind option_bind]. by rewrite (bool_decide_ext _ _ Ha).
  - destruct (cleared_ok (array t)) as [Hok' E]; [apply Hok..|]. by exists (makeEmpty t), 0%nat.
Defined.

Definition run (fuel : nat) (cs : list (call K)) (t : table) : option (list answer * table) :=
  exec_run fuel cs t.
End table.

(** the quadratic probing table is a finite set: whatever the hash
    function, the initial size and the calls, every probe sequence ends inside
    the table, with enough fuel for the searches for a prime size rehashing
    comes to an end and never nests, and the answers are those of the set.
    The table keeps a prime size and stays at most half full. *)
Lemma probing_implements_set `{Countable K} (hf : K → N) (dflt : K) (size : Z) (cs : list (call K)) :
  0 < size →
  ∃ t0 t F, (∀ fuel, (F <= fuel)%nat →
      construct dflt fuel size = Some t0 ∧
      run hf dflt fuel cs t0 = Some ((spec_run cs ∅).1, t)) ∧
    table_ok hf t ∧ table_items t = (spec_run cs ∅).2.
Proof.
  intros Hs. destruct (Primes.nextPrime_ok size Hs) as (q & F & Hp & Hq & H3 & E).
  destruct (cleared_ok hf dflt (replicate (Z.to_nat q) (mk_entry dflt EMPTY))) as [Hok Ei].
  { unfold zlen. by rewrite length_replicate, Z2Nat.id by lia. }
  { rewrite length_replicate. lia. }
  set (t0 := mk_table _ 0) in *.
  destruct (hash_run_ok (T:=table) (H0:=probing_impl hf dflt) cs t0 Hok) as (t & F' & Er & Hok' & Ei').
  change (items t0) with (table_items t0) in *. rewrite Ei in *.
  exists t0, t, (F + F')%nat. split_and!; [|done|done]. intros fuel Hf. split.
  - unfold construct. by rewrite E by lia.
  - apply Er. lia.
Qed.
End QuadraticProbing.
