(* ===== verification/Monitor.v ===== *)
(** * Threads that share an object guarded by one mutex (Mutex.h, Condition.h)

    The classes of muduo/base that block (BlockingQueue, BoundedBlockingQueue,
    CountDownLatch, ThreadPool) have one [mutex_], one or two [Condition]s on it,
    and member functions of one shape:
<<
      MutexLockGuard lock(mutex_);
      while (...) { condition_.wait(); }
      ...
>>
    [method] is that shape, [step] interleaves any number of threads that call
    such functions, one access to the shared object at a time: a thread takes the
    mutex, evaluates the condition of its loop, waits (which gives the mutex
    back), or runs the rest of the function and gives the mutex back at the end.
    A notified thread has to take the mutex again, in competition with the
    others, and evaluates the condition again.  [spurious] wakes any waiting
    thread at any time.

    [monitor_invariant] is the proof rule for invariants of the object and the
    threads; [monitor_live] shows that under any schedule all calls return, if no
    state of the invariant leaves everyone waiting. *)
From S2P Require Import Prelude.

(** ** Counting in lists *)

Lemma sum_insert {X} (f : X → nat) (xs : list X) t x y :
  xs !! t = Some y →
  (sum_list (f <$> <[t := x]> xs) + f y = sum_list (f <$> xs) + f x)%nat.
Proof.
  revert t. induction xs as [|z xs IH]; intros [|t] Ht; simplify_eq/=; [lia|].
  specialize (IH _ Ht). lia.
Qed.

Definition count {X} (P : X → bool) (xs : list X) : nat := sum_list (Nat.b2n ∘ P <$> xs).
#[global] Arguments count : simpl never.

Lemma count_insert {X} (P : X → bool) xs t x y :
  xs !! t = Some y →
  (count P (<[t := x]> xs) + Nat.b2n (P y) = count P xs + Nat.b2n (P x))%nat.
Proof. intros Ht. exact (sum_insert (Nat.b2n ∘ P) _ _ _ _ Ht). Qed.

Lemma count_cons {X} (P : X → bool) x xs : count P (x :: xs) = (Nat.b2n (P x) + count P xs)%nat.
Proof. done. Qed.

Lemma count_zero {X} (P : X → bool) xs : Forall (λ x, P x = false) xs ↔ count P xs = 0%nat.
Proof.
  induction xs as [|x xs IH]; [by split|].
  rewrite Forall_cons, IH, count_cons. destruct (P x); cbn; naive_solver lia.
Qed.

Lemma count_pos {X} (P : X → bool) xs t x :
  xs !! t = Some x → P x = true → (0 < count P xs)%nat.
Proof.
  intros Ht Hx. destruct (count P xs) eqn:Hc; [|lia].
  apply count_zero in Hc. rewrite Forall_lookup in Hc. specialize (Hc _ _ Ht). congruence.
Qed.

(** The number of elements with [P] in the lists [xss]. *)
Definition total {X} (P : X → bool) (xss : list (list X)) : nat := sum_list (count P <$> xss).
#[global] Arguments total : simpl never.

Lemma total_insert {X} (P : X → bool) xss t xs ys :
  xss !! t = Some ys →
  (total P (<[t := xs]> xss) + count P ys = total P xss + count P xs)%nat.
Proof. intros Ht. exact (sum_insert (count P) _ _ _ _ Ht). Qed.

(** The head of a list leaves. *)
Lemma total_tail {X} (P : X → bool) xss t x xs :
  xss !! t = Some (x :: xs) →
  (total P (<[t := xs]> xss) + Nat.b2n (P x) = total P xss)%nat.
Proof.
  intros Ht. pose proof (total_insert P _ _ xs _ Ht) as Hi.
  rewrite count_cons in Hi. lia.
Qed.

Lemma total_zero {X} (P : X → bool) (xss : list (list X)) :
  Forall (λ xs, count P xs = 0%nat) xss → total P xss = 0%nat.
Proof. unfold total. induction 1 as [|xs xss Hx _ IH]; cbn; lia. Qed.

Lemma total_pos {X} (P : X → bool) xss t x xs :
  xss !! t = Some (x :: xs) → P x = true → (0 < total P xss)%nat.
Proof. intros Ht Hx. pose proof (total_tail P _ _ _ _ Ht). rewrite Hx in *. cbn in *. lia. Qed.

(** ** Specifications

    A sequential object is a function from a state and a call to the next state
    and the result; [None]: the call cannot return now.  [log_run f x l x']: the
    calls of [l], one after the other, have the results of [l] and lead from [x]
    to [x']. *)
Inductive log_run {X O R} (f : X → O → option (X * R)) : X → list (O * R) → X → Prop :=
| log_nil x : log_run f x [] x
| log_snoc x l x' o r x'' :
    log_run f x l x' → f x' o = Some (x'', r) → log_run f x (l ++ [(o, r)]) x''.

Section monitor.
Context {D C O R : Type} `{!EqDecision C}.

(** ** Member functions

    The statements after the loop, on the shared object of type [D]; [O] are the
    calls and [R] their results. *)
Inductive cmd : Type :=
| Return (r : R)
| Modify (f : D → D) (k : cmd)
| Read (k : D → cmd)
| Assert (b : D → bool) (k : cmd)
| Notify (c : C) (k : cmd)
| NotifyAll (c : C) (k : cmd)
| Undefined.

(** [blocked s] is the condition variable on which the loop waits when its
    condition holds in [s]. *)
Record method := Method { blocked : D → option C; body : cmd }.

Context (code : O → method).

(** ** Threads

    A thread has a list of calls to make.  It is outside of the mutex ([Out]: in
    between two calls, or in a call and competing for the mutex), waits on a
    condition variable, or holds the mutex: at the head of the loop, or in the
    statements after it. *)
Inductive phase := Out | Wait (c : C) | Guard | Run (p : cmd).
Record thread := Thread { todo : list O; at_ : phase }.

(** [log] lists the calls that have returned, in the order in which they gave
    the mutex back. *)
Record config := Config { shared : D; threads : list thread; log : list (O * R) }.

Definition inside (th : thread) : bool :=
  match at_ th with Guard | Run _ => true | _ => false end.
Definition waits_on (c : C) (th : thread) : bool :=
  match at_ th with Wait c' => bool_decide (c = c') | _ => false end.
Definition ready (th : thread) : bool :=
  match at_ th, todo th with Out, _ :: _ => true | _, _ => false end.
Definition is_waiting (th : thread) : bool :=
  match at_ th with Wait _ => true | _ => false end.

(** Condition::notify wakes one waiting thread, if there is one. *)
Definition wake (c : C) (ths ths' : list thread) : Prop :=
  (∃ u w, ths !! u = Some (Thread w (Wait c)) ∧ ths' = <[u := Thread w Out]> ths)
  ∨ (Forall (λ th, waits_on c th = false) ths ∧ ths' = ths).

(** Condition::notifyAll wakes all. *)
Definition wake_all (c : C) (ths : list thread) : list thread :=
  (λ th, if waits_on c th then Thread (todo th) Out else th) <$> ths.

Inductive step : config → config → Prop :=
| step_lock s ths l t o os :
    ths !! t = Some (Thread (o :: os) Out) →
    Forall (λ th, inside th = false) ths →
    step (Config s ths l) (Config s (<[t := Thread (o :: os) Guard]> ths) l)
| step_wait s ths l t o os c :
    ths !! t = Some (Thread (o :: os) Guard) →
    blocked (code o) s = Some c →
    step (Config s ths l) (Config s (<[t := Thread (o :: os) (Wait c)]> ths) l)
| step_enter s ths l t o os :
    ths !! t = Some (Thread (o :: os) Guard) →
    blocked (code o) s = None →
    step (Config s ths l)
         (Config s (<[t := Thread (o :: os) (Run (body (code o)))]> ths) l)
| step_modify s ths l t w f k :
    ths !! t = Some (Thread w (Run (Modify f k))) →
    step (Config s ths l) (Config (f s) (<[t := Thread w (Run k)]> ths) l)
| step_read s ths l t w k :
    ths !! t = Some (Thread w (Run (Read k))) →
    step (Config s ths l) (Config s (<[t := Thread w (Run (k s))]> ths) l)
| step_assert s ths l t w b k :
    ths !! t = Some (Thread w (Run (Assert b k))) →
    b s = true →
    step (Config s ths l) (Config s (<[t := Thread w (Run k)]> ths) l)
| step_notify s ths ths' l t w c k :
    ths !! t = Some (Thread w (Run (Notify c k))) →
    wake c ths ths' →
    step (Config s ths l) (Config s (<[t := Thread w (Run k)]> ths') l)
| step_notifyAll s ths l t w c k :
    ths !! t = Some (Thread w (Run (NotifyAll c k))) →
    step (Config s ths l) (Config s (<[t := Thread w (Run k)]> (wake_all c ths)) l)
| step_return s ths l t o os r :
    ths !! t = Some (Thread (o :: os) (Run (Return r))) →
    step (Config s ths l) (Config s (<[t := Thread os Out]> ths) (l ++ [(o, r)])).

Inductive spurious : config → config → Prop :=
| spurious_wakeup s ths l u w c :
    ths !! u = Some (Thread w (Wait c)) →
    spurious (Config s ths l) (Config s (<[u := Thread w Out]> ths) l).

Definition move (c c' : config) : Prop := step c c' ∨ spurious c c'.

(** The threads at the start, with the calls they are going to make. *)
Definition start (s : D) (calls : list (list O)) : config :=
  Config s ((λ w, Thread w Out) <$> calls) [].

Definition reachable (c0 c : config) : Prop := rtc move c0 c.

(** All calls have returned. *)
Definition finished (c : config) : Prop :=
  Forall (λ th, th = Thread [] Out) (threads c).

(** ** Liveness

    [eventually P n c]: whatever the scheduler does from [c], a configuration
    with [P] is reached, provided there are at most [n] spurious wake-ups.  No
    fairness is assumed: in a configuration without [P], some thread can move,
    and every move of any thread leads on. *)
Inductive eventually (P : config → Prop) : nat → config → Prop :=
| eventually_now n c : P c → eventually P n c
| eventually_later n c :
    (∃ c', step c c') →
    (∀ c', step c c' → eventually P n c') →
    (∀ n' c', n = S n' → spurious c c' → eventually P n' c') →
    eventually P n c.

(** ** Lemmas on the list of threads *)

Abbreviation none_inside ths := (Forall (λ th : thread, inside th = false) ths).

Lemma inside_only (ths : list thread) t u th x :
  none_inside ths → <[t := x]> ths !! u = Some th → inside th = true → u = t.
Proof.
  intros Hn Hu Hi. destruct (decide (u = t)) as [->|Hne]; [done|].
  rewrite list_lookup_insert_ne in Hu by done.
  rewrite Forall_lookup in Hn. apply Hn in Hu. congruence.
Qed.

Lemma none_inside_insert (ths : list thread) t x :
  none_inside ths → inside x = false → none_inside (<[t := x]> ths).
Proof. intros. by apply Forall_insert. Qed.

Lemma insert_none_inside (ths : list thread) t x y :
  ths !! t = Some y → none_inside (<[t := x]> ths) → inside x = false.
Proof.
  intros Ht Hn. rewrite Forall_lookup in Hn.
  apply (Hn t x), list_lookup_insert_eq. by eapply lookup_lt_Some.
Qed.

Lemma wake_insert c (ths : list thread) ths' t x y :
  wake c (<[t := x]> ths) ths' → ths !! t = Some y →
  inside x = true → is_waiting y = false →
  ∃ ths0, wake c ths ths0 ∧ ths' = <[t := x]> ths0.
Proof.
  intros [(u & w & Hu & ->)|[Hn ->]] Ht Hx Hy.
  - assert (u ≠ t) as Hne.
    { intros ->. rewrite list_lookup_insert_eq in Hu by (by eapply lookup_lt_Some).
      by simplify_eq. }
    rewrite list_lookup_insert_ne in Hu by done.
    exists (<[u := Thread w Out]> ths). split; [left; eauto|].
    by apply list_insert_insert_ne.
  - exists ths. split; [right; split; [|done]|done].
    rewrite Forall_lookup in Hn |- *. intros i th Hi.
    destruct (decide (i = t)) as [->|Hne].
    + simplify_eq. by destruct y as [? []].
    + apply (Hn i). by rewrite list_lookup_insert_ne.
Qed.

Lemma wake_all_lookup c (ths : list thread) i :
  wake_all c ths !! i = (λ th, if waits_on c th then Thread (todo th) Out else th) <$> ths !! i.
Proof. apply list_lookup_fmap. Qed.

Lemma wake_all_insert c (ths : list thread) t x :
  waits_on c x = false → wake_all c (<[t := x]> ths) = <[t := x]> (wake_all c ths).
Proof. intros Hx. unfold wake_all. rewrite list_fmap_insert. by rewrite Hx. Qed.

Lemma wake_lookup_out c (ths ths' : list thread) t w :
  wake c ths ths' → ths !! t = Some (Thread w Out) → ths' !! t = Some (Thread w Out).
Proof.
  intros [(u & w' & Hu & ->)|[_ ->]] Ht; [|done].
  rewrite list_lookup_insert_ne; [done|]. intros ->. congruence.
Qed.

Lemma wake_none_inside c (ths ths' : list thread) :
  wake c ths ths' → none_inside ths → none_inside ths'.
Proof. intros [(u & w & _ & ->)|[_ ->]] Hn; [by apply none_inside_insert|done]. Qed.

Lemma wake_all_none_inside c (ths : list thread) :
  none_inside ths → none_inside (wake_all c ths).
Proof.
  intros Hn. apply Forall_fmap. eapply Forall_impl; [exact Hn|].
  intros th Hth. cbn. by destruct (waits_on c th).
Qed.

(** Some thread can always be woken, or none waits. *)
Lemma wake_total c (ths : list thread) : ∃ ths', wake c ths ths'.
Proof.
  destruct (decide (Forall (λ th, waits_on c th = false) ths)) as [Hn|Hn].
  - exists ths. by right.
  - apply not_Forall_Exists in Hn; [|apply _].
    apply Exists_exists in Hn as (th & (u & Hu)%list_elem_of_lookup & Hw).
    destruct th as [w [|c'| |p]]; cbn in Hw; try done.
    case_bool_decide; [subst c'|done].
    exists (<[u := Thread w Out]> ths). left. eauto.
Qed.

(** ** The next step

    Who moves next is determined by who holds the mutex. *)

Lemma step_from_run s ths l t o os p c' :
  none_inside ths → ths !! t = Some (Thread (o :: os) Out) →
  step (Config s (<[t := Thread (o :: os) (Run p)]> ths) l) c' →
  match p with
  | Return r => c' = Config s (<[t := Thread os Out]> ths) (l ++ [(o, r)])
  | Modify f k => c' = Config (f s) (<[t := Thread (o :: os) (Run k)]> ths) l
  | Read k => c' = Config s (<[t := Thread (o :: os) (Run (k s))]> ths) l
  | Assert b k => c' = Config s (<[t := Thread (o :: os) (Run k)]> ths) l
  | Notify c k => ∃ ths', wake c ths ths' ∧ c' = Config s (<[t := Thread (o :: os) (Run k)]> ths') l
  | NotifyAll c k => c' = Config s (<[t := Thread (o :: os) (Run k)]> (wake_all c ths)) l
  | Undefined => False
  end.
Proof.
  intros Hn Ht Hs. remember (Config _ _ _) as c0 eqn:Hc0.
  assert (∀ u th, <[t := Thread (o :: os) (Run p)]> ths !! u = Some th → inside th = true →
    u = t ∧ th = Thread (o :: os) (Run p)) as Honly.
  { intros u th Hu Hi. pose proof (inside_only _ _ _ _ _ Hn Hu Hi) as ->. split; [done|].
    rewrite list_lookup_insert_eq in Hu by (by eapply lookup_lt_Some). by simplify_eq. }
  destruct Hs as [? ? ? u ? ? Hu Hni|? ? ? u ? ? ? Hu Hb|? ? ? u ? ? Hu Hb
    |? ? ? u ? ? ? Hu|? ? ? u ? ? Hu|? ? ? u ? ? ? Hu Hb|? ? ? ? u ? ? ? Hu Hw
    |? ? ? u ? ? ? Hu|? ? ? u ? ? ? Hu]; simplify_eq.
  1: by pose proof (insert_none_inside _ _ _ _ Ht Hni).
  all: destruct (Honly _ _ Hu eq_refl) as [-> Heq]; simplify_eq; rewrite ?list_insert_insert_eq; try done.
  - destruct (wake_insert _ _ _ _ _ _ Hw Ht eq_refl eq_refl) as (ths1 & Hw1 & ->).
    exists ths1. by rewrite list_insert_insert_eq.
  - by rewrite wake_all_insert, list_insert_insert_eq.
Qed.

Lemma step_from_guard s ths l t o os c' :
  none_inside ths → ths !! t = Some (Thread (o :: os) Out) →
  step (Config s (<[t := Thread (o :: os) Guard]> ths) l) c' →
  match blocked (code o) s with
  | Some c => c' = Config s (<[t := Thread (o :: os) (Wait c)]> ths) l
  | None => c' = Config s (<[t := Thread (o :: os) (Run (body (code o)))]> ths) l
  end.
Proof.
  intros Hn Ht Hs. remember (Config _ _ _) as c0 eqn:Hc0.
  assert (∀ u th, <[t := Thread (o :: os) Guard]> ths !! u = Some th → inside th = true →
    u = t ∧ th = Thread (o :: os) Guard) as Honly.
  { intros u th Hu Hi. pose proof (inside_only _ _ _ _ _ Hn Hu Hi) as ->. split; [done|].
    rewrite list_lookup_insert_eq in Hu by (by eapply lookup_lt_Some). by simplify_eq. }
  destruct Hs as [? ? ? u ? ? Hu Hni|? ? ? u ? ? ? Hu Hb|? ? ? u ? ? Hu Hb
    |? ? ? u ? ? ? Hu|? ? ? u ? ? Hu|? ? ? u ? ? ? Hu Hb|? ? ? ? u ? ? ? Hu Hw
    |? ? ? u ? ? ? Hu|? ? ? u ? ? ? Hu]; simplify_eq.
  1: by pose proof (insert_none_inside _ _ _ _ Ht Hni).
  all: destruct (Honly _ _ Hu eq_refl) as [-> Heq]; simplify_eq;
    by rewrite Hb, list_insert_insert_eq.
Qed.

Lemma step_from_out s ths l c' :
  none_inside ths → step (Config s ths l) c' →
  ∃ t o os, ths !! t = Some (Thread (o :: os) Out)
            ∧ c' = Config s (<[t := Thread (o :: os) Guard]> ths) l.
Proof.
  intros Hn Hs. remember (Config _ _ _) as c0 eqn:Hc0. rewrite Forall_lookup in Hn.
  destruct Hs as [? ? ? u ? ? Hu Hni|? ? ? u ? ? ? Hu Hb|? ? ? u ? ? Hu Hb
    |? ? ? u ? ? ? Hu|? ? ? u ? ? Hu|? ? ? u ? ? ? Hu Hb|? ? ? ? u ? ? ? Hu Hw
    |? ? ? u ? ? ? Hu|? ? ? u ? ? ? Hu]; simplify_eq.
  1: by eauto 10.
  all: by apply Hn in Hu.
Qed.

(** ** Measures: the calls that are left, and how far the threads are from
    waiting. *)

Definition work (ths : list thread) : nat := sum_list (length ∘ todo <$> ths).
#[global] Arguments work : simpl never.
Definition level (th : thread) : nat :=
  match at_ th with Out => 2 | Guard => 1 | _ => 0 end.

Lemma work_insert ths t x y :
  ths !! t = Some y → (work (<[t := x]> ths) + length (todo y) = work ths + length (todo x))%nat.
Proof. intros Ht. exact (sum_insert (length ∘ todo) _ _ _ _ Ht). Qed.

Lemma wake_work c ths ths' : wake c ths ths' → work ths' = work ths.
Proof.
  intros [(u & w & Hu & ->)|[_ ->]]; [|done].
  pose proof (work_insert _ _ (Thread w Out) _ Hu). cbn in *. lia.
Qed.

Lemma wake_all_work c ths : work (wake_all c ths) = work ths.
Proof.
  unfold work, wake_all. rewrite <-list_fmap_compose. f_equal.
  apply list_fmap_ext. intros _ th _. cbn. by destruct (waits_on c th).
Qed.

Implicit Types ths : list thread.

Lemma waits_insert_zero c ths t th x :
  ths !! t = Some th → waits_on c x = false → count (waits_on c) ths = 0%nat →
  count (waits_on c) (<[t := x]> ths) = 0%nat.
Proof.
  intros Ht Hx Hz. pose proof (count_insert (waits_on c) _ _ x _ Ht) as Hc.
  rewrite Hx in Hc. cbn in Hc. lia.
Qed.

Lemma wake_waits_zero c c' ths ths' :
  wake c ths ths' → count (waits_on c') ths = 0%nat → count (waits_on c') ths' = 0%nat.
Proof.
  intros [(u & w & Hu & ->)|[_ ->]] Hz; [|done]. by eapply waits_insert_zero.
Qed.

(** *** The calls that are left: [todo <$> ths]

    Waking changes nothing about them. *)

Lemma todo_same ths t x y :
  ths !! t = Some y → todo x = todo y → todo <$> <[t := x]> ths = todo <$> ths.
Proof.
  intros Ht Hx. rewrite list_fmap_insert, Hx. apply list_insert_id.
  by rewrite list_lookup_fmap, Ht.
Qed.

Lemma wake_todo c ths ths' : wake c ths ths' → todo <$> ths' = todo <$> ths.
Proof. intros [(u & w & Hu & ->)|[_ ->]]; [|done]. by eapply todo_same. Qed.

Lemma wake_all_todo c ths : todo <$> wake_all c ths = todo <$> ths.
Proof.
  unfold wake_all. rewrite <-list_fmap_compose. apply list_fmap_ext.
  intros _ th _. cbn. by destruct (waits_on c th).
Qed.

Lemma todo_start (calls : list (list O)) : todo <$> ((λ w, Thread w Out) <$> calls) = calls.
Proof. rewrite <-list_fmap_compose. apply list_fmap_id. Qed.

(** The call that a thread outside of the mutex is about to make. *)
Definition next_call (P : O → bool) (th : thread) : bool :=
  match at_ th, todo th with Out, o :: _ => P o | _, _ => false end.

Lemma next_call_not_ready P ths :
  Forall (λ th, ready th = false) ths → count (next_call P) ths = 0%nat.
Proof.
  intros Hr. apply count_zero. eapply Forall_impl; [exact Hr|].
  intros [[] []]; by cbn.
Qed.

(** ** No wake-up is lost

    The threads that wait on [c] all wait in a call with [P], and if there is
    one, then [n] further threads are about to make such a call: [n] is the
    number of units (items, free slots) that are to be had, and the waiting
    threads can leave them to the others. *)
Definition covered (c : C) (P : O → bool) (n : nat) (ths : list thread) : Prop :=
  ((0 < count (waits_on c) ths)%nat → (n ≤ count (next_call P) ths)%nat)
  ∧ Forall (λ th, waits_on c th = true → ∃ o os, todo th = o :: os ∧ P o = true) ths.

Lemma covered_insert c P n n' ths t x y :
  ths !! t = Some y → covered c P n ths →
  (waits_on c x = true → n' = 0%nat ∧ ∃ o os, todo x = o :: os ∧ P o = true) →
  (waits_on c x = false → n' ≠ 0 → n' + Nat.b2n (next_call P y) ≤ n + Nat.b2n (next_call P x))%nat →
  covered c P n' (<[t := x]> ths).
Proof.
  intros Ht [Hn Hw] Hx Hle. split.
  - pose proof (count_insert (waits_on c) _ _ x _ Ht) as H1'.
    pose proof (count_insert (next_call P) _ _ x _ Ht) as H2'.
    destruct (waits_on c x) eqn:Hwx; cbn in *; [destruct Hx; [done|]; lia|].
    specialize (Hle eq_refl). intros Hpos. destruct (decide (n' = 0%nat)); [lia|]. destruct (waits_on c y); cbn in *; lia.
  - apply Forall_insert; [done|]. intros Hwx. by destruct (Hx Hwx).
Qed.

Lemma covered_none c P n m ths :
  count (waits_on c) ths = 0%nat → covered c P n ths → covered c P m ths.
Proof. intros Hz [_ Hw]. split; [|done]. lia. Qed.

Lemma covered_spurious c c' P n ths u w :
  ths !! u = Some (Thread w (Wait c')) → covered c P n ths →
  covered c P n (<[u := Thread w Out]> ths).
Proof. intros Hu Hc. eapply covered_insert; [done..|]. cbn. lia. Qed.

Lemma covered_wake_any c c' P n ths ths' :
  wake c' ths ths' → covered c P n ths → covered c P n ths'.
Proof. intros [(u & w & Hu & ->)|[_ ->]] Hc; [by eapply covered_spurious|done]. Qed.

(** A notification pays for one more unit. *)
Lemma covered_wake c P n ths ths' :
  wake c ths ths' → covered c P n ths → covered c P (S n) ths'.
Proof.
  intros [(u & w & Hu & ->)|[Hz ->]] Hc.
  - eapply covered_insert; [done..|]. destruct Hc as [_ Hw].
    rewrite Forall_lookup in Hw. destruct (Hw _ _ Hu) as (o & os & Heq & HP).
    { cbn. by apply bool_decide_eq_true. }
    cbn in *. subst w. rewrite HP. cbn. lia.
  - destruct Hc as [_ Hw]. split; [|done]. apply count_zero in Hz. lia.
Qed.

Lemma covered_wake_all c c' P n ths :
  covered c P n ths → covered c P n (wake_all c' ths).
Proof.
  unfold covered, wake_all. intros [Hn Hw]. split.
  - intros Hpos. transitivity (count (next_call P) ths).
    + apply Hn. clear Hn. induction Hw as [|th ths _ _ IH]; [done|].
      rewrite fmap_cons, count_cons in Hpos. rewrite count_cons.
      destruct (waits_on c' th) eqn:Hc'; cbn in Hpos; [lia|].
      destruct (waits_on c th); cbn in *; lia.
    + clear. induction ths as [|[w a] ths IH]; [done|].
      rewrite fmap_cons, !count_cons. destruct a; cbn; lia.
  - apply Forall_fmap. eapply Forall_impl; [exact Hw|]. intros th Hth. cbn.
    by destruct (waits_on c' th).
Qed.

(** Nobody is left waiting. *)
Lemma wake_all_none c ths : count (waits_on c) (wake_all c ths) = 0%nat.
Proof.
  apply count_zero, Forall_fmap, Forall_forall. intros th _. cbn.
  destruct (waits_on c th) eqn:Hc; [done|by rewrite Hc].
Qed.

Lemma wake_all_waits_zero c c' ths :
  count (waits_on c') ths = 0%nat → count (waits_on c') (wake_all c ths) = 0%nat.
Proof.
  intros Hz%count_zero. apply count_zero, Forall_fmap. eapply Forall_impl; [exact Hz|].
  intros th Hth. cbn. by destruct (waits_on c th).
Qed.

(** If no thread can start a call, then the threads that wait do so rightly. *)
Lemma covered_stuck c P n ths t th :
  covered c P n ths → Forall (λ th, ready th = false) ths →
  ths !! t = Some th → waits_on c th = true →
  n = 0%nat ∧ ∃ o os, todo th = o :: os ∧ P o = true.
Proof.
  intros [Hn Hw] Hr Ht Hc. split; [|by eapply (proj1 (Forall_lookup _ _) Hw)].
  pose proof (count_pos (waits_on c) _ _ _ Ht Hc).
  rewrite next_call_not_ready in Hn by done. lia.
Qed.

Lemma idle_or_waiting th :
  inside th = false → ready th = false → th = Thread [] Out ∨ ∃ w c, th = Thread w (Wait c).
Proof. destruct th as [[|o os] [|c| |p]]; cbn; intros; try done; eauto. Qed.

Lemma covered_start c P n (calls : list (list O)) :
  covered c P n ((λ w, Thread w Out) <$> calls).
Proof.
  assert (Forall (λ th, waits_on c th = false) ((λ w, Thread w Out) <$> calls)) as Hz.
  { apply Forall_fmap, Forall_forall. done. }
  split.
  - apply count_zero in Hz. rewrite Hz. lia.
  - eapply Forall_impl; [exact Hz|]. cbn. congruence.
Qed.

(** ** The proof rule

    [I] speaks of the object, the threads and the log while nobody holds the
    mutex.  [wp t o os p] says of the statements [p], run by the thread [t] in
    its call [o], that they fail no assertion and that [I] holds when they return;
    the running thread counts as [Out] until then. *)

Section rule.
Context (I : D → list thread → list (O * R) → Prop).

Fixpoint wp (t : nat) (o : O) (os : list O) (p : cmd) (s : D) (ths : list thread)
    (l : list (O * R)) : Prop :=
  match p with
  | Return r => I s (<[t := Thread os Out]> ths) (l ++ [(o, r)])
  | Modify f k => wp t o os k (f s) ths l
  | Read k => wp t o os (k s) s ths l
  | Assert b k => b s = true ∧ wp t o os k s ths l
  | Notify c k => ∀ ths', wake c ths ths' → wp t o os k s ths' l
  | NotifyAll c k => wp t o os k s (wake_all c ths) l
  | Undefined => False
  end.

Record monitor_rule : Prop := MonitorRule {
  rule_spurious s ths l u w c :
    I s ths l → ths !! u = Some (Thread w (Wait c)) → I s (<[u := Thread w Out]> ths) l;
  rule_section s ths l t o os :
    I s ths l → ths !! t = Some (Thread (o :: os) Out) →
    match blocked (code o) s with
    | Some c => I s (<[t := Thread (o :: os) (Wait c)]> ths) l
    | None => wp t o os (body (code o)) s ths l
    end
}.

Context (rule : monitor_rule).

Inductive inv : config → Prop :=
| inv_out s ths l :
    none_inside ths → I s ths l → inv (Config s ths l)
| inv_guard s ths l t o os :
    none_inside ths → ths !! t = Some (Thread (o :: os) Out) → I s ths l →
    inv (Config s (<[t := Thread (o :: os) Guard]> ths) l)
| inv_run s ths l t o os p :
    none_inside ths → ths !! t = Some (Thread (o :: os) Out) → wp t o os p s ths l →
    inv (Config s (<[t := Thread (o :: os) (Run p)]> ths) l).

Lemma wp_spurious t o os p s ths l u w c :
  wp t o os p s ths l → ths !! t = Some (Thread (o :: os) Out) →
  ths !! u = Some (Thread w (Wait c)) →
  wp t o os p s (<[u := Thread w Out]> ths) l.
Proof.
  revert s ths. induction p as [r|f k IH|k IH|b k IH|c' k IH|c' k IH|];
    intros s ths Hwp Ht Hu; cbn in *; try (by eauto).
  - assert (t ≠ u) by congruence.
    rewrite list_insert_insert_ne by done.
    eapply rule_spurious; [done|exact Hwp|]. by rewrite list_lookup_insert_ne.
  - destruct Hwp as [? ?]. eauto.
  - intros ths' [(v & w' & Hv & ->)|[Hn ->]].
    + assert (v ≠ u) as Hne.
      { intros ->. rewrite list_lookup_insert_eq in Hv by (by eapply lookup_lt_Some).
        by simplify_eq. }
      rewrite list_lookup_insert_ne in Hv by done.
      rewrite list_insert_insert_ne by done.
      apply IH.
      * apply Hwp. left. eauto.
      * rewrite list_lookup_insert_ne; [done|congruence].
      * by rewrite list_lookup_insert_ne.
    + destruct (decide (c = c')) as [<-|Hc].
      * apply Hwp. left. eauto.
      * apply IH; [|done..]. apply Hwp. right. split; [|done].
        rewrite Forall_lookup in Hn |- *. intros i th Hi.
        destruct (decide (i = u)) as [->|Hne].
        -- simplify_eq. cbn. apply bool_decide_eq_false. congruence.
        -- apply (Hn i). by rewrite list_lookup_insert_ne.
  - destruct (decide (c = c')) as [<-|Hc].
    + replace (wake_all c (<[u := Thread w Out]> ths)) with (wake_all c ths); [done|].
      apply list_eq. intros i. rewrite !wake_all_lookup.
      destruct (decide (i = u)) as [->|Hne].
      * rewrite list_lookup_insert_eq by (by eapply lookup_lt_Some).
        rewrite Hu. cbn. by rewrite bool_decide_true.
      * by rewrite list_lookup_insert_ne.
    + rewrite wake_all_insert by done. apply IH; [done| |].
      * by rewrite wake_all_lookup, Ht.
      * rewrite wake_all_lookup, Hu. cbn. rewrite bool_decide_false; [done|congruence].
Qed.

Lemma inv_at_guard s ths l t w :
  inv (Config s ths l) → ths !! t = Some (Thread w Guard) →
  ∃ ths0, ths = <[t := Thread w Guard]> ths0 ∧ none_inside ths0
          ∧ ths0 !! t = Some (Thread w Out) ∧ I s ths0 l.
Proof.
  intros Hinv Ht. inversion Hinv as [s' ths' l' Hn HI|s' ths' l' t' o os Hn Ht' HI|s' ths' l' t' o os p Hn Ht' Hwp]; subst.
  - rewrite Forall_lookup in Hn. by apply Hn in Ht.
  - pose proof (inside_only _ _ _ _ _ Hn Ht eq_refl) as ->.
    rewrite list_lookup_insert_eq in Ht by (by eapply lookup_lt_Some). simplify_eq. eauto.
  - pose proof (inside_only _ _ _ _ _ Hn Ht eq_refl) as ->.
    rewrite list_lookup_insert_eq in Ht by (by eapply lookup_lt_Some). simplify_eq.
Qed.

Lemma inv_at_run s ths l t w p :
  inv (Config s ths l) → ths !! t = Some (Thread w (Run p)) →
  ∃ o os ths0, w = o :: os ∧ ths = <[t := Thread w (Run p)]> ths0 ∧ none_inside ths0
          ∧ ths0 !! t = Some (Thread w Out) ∧ wp t o os p s ths0 l.
Proof.
  intros Hinv Ht. inversion Hinv as [s' ths' l' Hn HI|s' ths' l' t' o os Hn Ht' HI|s' ths' l' t' o os p' Hn Ht' Hwp]; subst.
  - rewrite Forall_lookup in Hn. by apply Hn in Ht.
  - pose proof (inside_only _ _ _ _ _ Hn Ht eq_refl) as ->.
    rewrite list_lookup_insert_eq in Ht by (by eapply lookup_lt_Some). simplify_eq.
  - pose proof (inside_only _ _ _ _ _ Hn Ht eq_refl) as ->.
    rewrite list_lookup_insert_eq in Ht by (by eapply lookup_lt_Some). simplify_eq.
    eauto 10.
Qed.

Ltac at_run Hinv Ht :=
  destruct (inv_at_run _ _ _ _ _ _ Hinv Ht)
    as (o' & os' & ths0 & Hq & -> & Hn & Ht0 & Hwp); simplify_eq.

Lemma inv_step c c' : inv c → step c c' → inv c'.
Proof.
  intros Hinv Hs. destruct Hs as [s ths l t o os Ht Hn|s ths l t o os c Ht Hb|s ths l t o os Ht Hb
    |s ths l t w f k Ht|s ths l t w k Ht|s ths l t w b k Ht Hb|s ths ths' l t w c k Ht Hw
    |s ths l t w c k Ht|s ths l t o os r Ht].
  - apply inv_guard; [done..|].
    inversion Hinv as [? ? ? ? HI|? ? ? ? ? ? ? Ht' HI|? ? ? ? ? ? ? ? Ht' HI]; subst; [done|..];
      by pose proof (insert_none_inside _ _ _ _ Ht' Hn).
  - destruct (inv_at_guard _ _ _ _ _ Hinv Ht) as (ths0 & -> & Hn & Ht0 & HI).
    rewrite list_insert_insert_eq.
    pose proof (rule_section rule _ _ _ _ _ _ HI Ht0) as Hr. rewrite Hb in Hr.
    apply inv_out; [by apply none_inside_insert|done].
  - destruct (inv_at_guard _ _ _ _ _ Hinv Ht) as (ths0 & -> & Hn & Ht0 & HI).
    rewrite list_insert_insert_eq.
    pose proof (rule_section rule _ _ _ _ _ _ HI Ht0) as Hr. rewrite Hb in Hr.
    by apply inv_run.
  - at_run Hinv Ht. rewrite list_insert_insert_eq. by apply inv_run.
  - at_run Hinv Ht. rewrite list_insert_insert_eq. by apply inv_run.
  - at_run Hinv Ht. rewrite list_insert_insert_eq. apply inv_run; [done..|]. by destruct Hwp.
  - at_run Hinv Ht.
    destruct (wake_insert _ _ _ _ _ _ Hw Ht0 eq_refl eq_refl) as (ths1 & Hw1 & ->).
    rewrite list_insert_insert_eq. apply inv_run.
    + by eapply wake_none_inside.
    + by eapply wake_lookup_out.
    + by apply Hwp.
  - at_run Hinv Ht. rewrite wake_all_insert, list_insert_insert_eq by done. apply inv_run.
    + by apply wake_all_none_inside.
    + by rewrite wake_all_lookup, Ht0.
    + done.
  - at_run Hinv Ht. rewrite list_insert_insert_eq. apply inv_out; [by apply none_inside_insert|done].
Qed.

Lemma inv_spurious c c' : inv c → spurious c c' → inv c'.
Proof.
  intros Hinv Hs. destruct Hs as [s ths l u w c Hu].
  inversion Hinv as [s' ths' l' Hn HI|s' ths' l' t' o os Hn Ht' HI|s' ths' l' t' o os p' Hn Ht' Hwp]; subst.
  - apply inv_out; [by apply none_inside_insert|]. by eapply rule_spurious.
  - assert (u ≠ t') as Hne.
    { intros ->. rewrite list_lookup_insert_eq in Hu by (by eapply lookup_lt_Some). by simplify_eq. }
    rewrite list_lookup_insert_ne in Hu by done. rewrite list_insert_insert_ne by done.
    apply inv_guard; [by apply none_inside_insert|by rewrite list_lookup_insert_ne|].
    by eapply rule_spurious.
  - assert (u ≠ t') as Hne.
    { intros ->. rewrite list_lookup_insert_eq in Hu by (by eapply lookup_lt_Some). by simplify_eq. }
    rewrite list_lookup_insert_ne in Hu by done. rewrite list_insert_insert_ne by done.
    apply inv_run; [by apply none_inside_insert|by rewrite list_lookup_insert_ne|].
    by eapply wp_spurious.
Qed.

Lemma none_inside_start calls : none_inside ((λ w, Thread w Out) <$> calls).
Proof. apply Forall_fmap, Forall_forall. done. Qed.

Lemma reachable_inv s calls c :
  I s ((λ w, Thread w Out) <$> calls) [] → reachable (start s calls) c → inv c.
Proof.
  intros HI. apply rtc_ind_r.
  - by apply inv_out; [apply none_inside_start|].
  - intros c1 c2 _ [Hs|Hs] Hinv; [by eapply inv_step|by eapply inv_spurious].
Qed.

(** The invariant holds whenever nobody holds the mutex. *)
Lemma monitor_invariant s calls c :
  I s ((λ w, Thread w Out) <$> calls) [] → reachable (start s calls) c →
  none_inside (threads c) → I (shared c) (threads c) (log c).
Proof.
  intros HI Hr Hn. destruct (reachable_inv _ _ _ HI Hr) as [s' ths l ? ?|s' ths l t o os ? Ht|s' ths l t o os p ? Ht]; [done|..];
    by pose proof (insert_none_inside _ _ _ _ Ht Hn).
Qed.

(** *** Liveness *)

Context (stuck : ∀ s ths l,
  I s ths l → none_inside ths → Forall (λ th, ready th = false) ths →
  Forall (λ th, is_waiting th = false) ths).

Lemma live_run n s l t o os p ths :
  (∀ n' c, n = S n' → inv c → eventually finished n' c) →
  (∀ c, inv c → (work (threads c) < work ths)%nat → eventually finished n c) →
  none_inside ths → ths !! t = Some (Thread (o :: os) Out) → wp t o os p s ths l →
  eventually finished n (Config s (<[t := Thread (o :: os) (Run p)]> ths) l).
Proof.
  intros IHn. revert s ths l. induction p as [r|f k IH|k IH|b k IH|c k IH|c k IH|];
    intros s ths l IHw Hn Ht Hwp;
    (assert (∀ q, <[t := Thread (o :: os) (Run q)]> ths !! t = Some (Thread (o :: os) (Run q))) as Hat
      by (intros q; apply list_lookup_insert_eq; by eapply lookup_lt_Some));
    (apply eventually_later; [|intros c' Hs|intros n' c' Hn' Hs;
      apply (IHn _ _ Hn'); eapply inv_spurious; [|exact Hs]; by apply inv_run]);
    try (apply (step_from_run _ _ _ _ _ _ _ _ Hn Ht) in Hs; cbn in Hs, Hwp).
  - eexists. by eapply step_return.
  - subst c'. apply IHw; [by apply inv_out; [apply none_inside_insert|]|].
    pose proof (work_insert _ _ (Thread os Out) _ Ht) as Hwk. cbn in Hwk |- *. lia.
  - eexists. by eapply step_modify.
  - subst c'. by apply IH.
  - eexists. by eapply step_read.
  - subst c'. by apply IH.
  - eexists. eapply step_assert; [apply Hat|]. apply Hwp.
  - subst c'. apply IH; [done..|]. apply Hwp.
  - destruct (wake_total c (<[t := Thread (o :: os) (Run (Notify c k))]> ths)) as [ths' Hw].
    eexists. by eapply step_notify.
  - destruct Hs as (ths' & Hw & ->). apply IH.
    + by rewrite (wake_work _ _ _ Hw).
    + by eapply wake_none_inside.
    + by eapply wake_lookup_out.
    + by apply Hwp.
  - eexists. by eapply step_notifyAll.
  - subst c'. apply IH.
    + by rewrite wake_all_work.
    + by apply wake_all_none_inside.
    + by rewrite wake_all_lookup, Ht.
    + done.
  - done.
  - done.
Qed.

Lemma live_inv n c : inv c → eventually finished n c.
Proof.
  revert c. induction n as [n IHn] using lt_wf_ind. intros c.
  remember (work (threads c)) as m eqn:Hm. revert c Hm.
  induction m as [m IHm] using lt_wf_ind. intros c.
  remember (sum_list (level <$> threads c)) as v eqn:Hv. revert c Hv.
  induction v as [v IHv] using lt_wf_ind. intros c Hv Hm Hinv.
  assert (∀ n' c', n = S n' → inv c' → eventually finished n' c') as IHn'.
  { intros n' c' -> Hc'. apply IHn; [lia|done]. }
  destruct Hinv as [s ths l Hn HI|s ths l t o os Hn Ht HI|s ths l t o os p Hn Ht Hwp];
    cbn [threads] in *.
  - destruct (decide (Forall (λ th, ready th = false) ths)) as [Hd|Hd].
    + apply eventually_now. unfold finished. cbn.
      pose proof (stuck _ _ _ HI Hn Hd) as Hw.
      rewrite Forall_lookup in Hn, Hd, Hw |- *. intros i [w a] Hi.
      specialize (Hn _ _ Hi). specialize (Hd _ _ Hi). specialize (Hw _ _ Hi).
      by destruct a, w.
    + apply not_Forall_Exists in Hd; [|intros th; apply _].
      apply Exists_exists in Hd as ([w a] & (t & Ht)%list_elem_of_lookup & Hw).
      destruct a, w as [|o os]; try by destruct Hw.
      apply eventually_later; [by eexists; eapply step_lock| |].
      * intros c' (u & o' & os' & Hu & ->)%step_from_out; [|done].
        pose proof (sum_insert level _ _ (Thread (o' :: os') Guard) _ Hu) as Hlv.
        pose proof (work_insert _ _ (Thread (o' :: os') Guard) _ Hu) as Hwk. cbn in Hlv, Hwk.
        eapply IHv; cbn; [|done|lia|by apply inv_guard]. lia.
      * intros n' c' Hn' Hs. apply (IHn' _ _ Hn'). eapply inv_spurious; [|exact Hs]. by apply inv_out.
  - assert (<[t := Thread (o :: os) Guard]> ths !! t = Some (Thread (o :: os) Guard)) as Hat.
    { apply list_lookup_insert_eq. by eapply lookup_lt_Some. }
    pose proof (rule_section rule _ _ _ _ _ _ HI Ht) as Hr.
    apply eventually_later.
    + destruct (blocked (code o) s) eqn:Hb; eexists; [by eapply step_wait|by eapply step_enter].
    + intros c' Hs. apply (step_from_guard _ _ _ _ _ _ _ Hn Ht) in Hs.
      pose proof (sum_insert level _ _ (Thread (o :: os) Guard) _ Ht) as Hl1.
      pose proof (work_insert _ _ (Thread (o :: os) Guard) _ Ht) as Hw1.
      destruct (blocked (code o) s) as [c|]; subst c'.
      * pose proof (sum_insert level _ _ (Thread (o :: os) (Wait c)) _ Ht) as Hl2.
        pose proof (work_insert _ _ (Thread (o :: os) (Wait c)) _ Ht) as Hw2. cbn in Hl1, Hl2, Hw1, Hw2.
        eapply IHv; cbn; [|done|lia|by apply inv_out; [apply none_inside_insert|]]. lia.
      * apply live_run; [done| |done..]. cbn in Hw1.
        intros c' Hc' Hlt. eapply IHm; [|done|done]. lia.
    + intros n' c' Hn' Hs. apply (IHn' _ _ Hn'). eapply inv_spurious; [|exact Hs]. by apply inv_guard.
  - pose proof (work_insert _ _ (Thread (o :: os) (Run p)) _ Ht) as Hwk. cbn in Hwk.
    apply live_run; [done| |done..].
    intros c' Hc' Hlt. eapply IHm; [|done|done]. lia.
Qed.

(** From every reachable configuration, all calls return. *)
Lemma monitor_live n s calls c :
  I s ((λ w, Thread w Out) <$> calls) [] → reachable (start s calls) c →
  eventually finished n c.
Proof. intros HI Hr. by eapply live_inv, reachable_inv. Qed.

End rule.

End monitor.

Arguments cmd : clear implicits.
Arguments method : clear implicits.
Arguments phase : clear implicits.
Arguments thread : clear implicits.
Arguments config : clear implicits.
