(* ===== verification/BlockingQueue.v ===== *)
(** * BlockingQueue.h and BoundedBlockingQueue.h (muduo/base)

    The two queues as [method]s of [Monitor], one per member function; the calls
    of both are [op].  The container of BoundedBlockingQueue is
    boost::circular_buffer: a parameter, with the laws of its documentation
    ([CircularBufferLaws]). *)
From S2P Require Import Prelude Monitor.

(** ** The contract: a FIFO queue, bounded by [cap] if there is a bound *)
Section contract.
Context {T : Type}.

Inductive op := Put (x : T) | Take | Empty | Full | Size | Capacity.
Inductive res := Unit | Elem (x : T) | Bool (b : bool) | Num (n : nat).

Definition has_room (cap : option nat) (q : list T) : bool :=
  match cap with Some n => bool_decide (length q < n)%nat | None => true end.

(** [None]: the call cannot return. *)
Definition fifo_step (cap : option nat) (q : list T) (o : op) : option (list T * res) :=
  match o with
  | Put x => if has_room cap q then Some (q ++ [x], Unit) else None
  | Take => match q with x :: q' => Some (q', Elem x) | [] => None end
  | Empty => Some (q, Bool (bool_decide (length q = 0%nat)))
  | Full => Some (q, Bool (negb (has_room cap q)))
  | Size => Some (q, Num (length q))
  | Capacity => (λ n, (q, Num n)) <$> cap
  end.

Definition fifo_run (cap : option nat) : list T → list (op * res) → list T → Prop :=
  log_run (fifo_step cap).

End contract.

Arguments op : clear implicits.
Arguments res : clear implicits.

(** A thread puts or takes, but not both. *)
Definition one_role {O} (is_put is_take : O → bool) (w : list O) : Prop :=
  count is_put w = 0%nat ∨ count is_take w = 0%nat.

Lemma one_role_tail {O} (p t : O → bool) o os : one_role p t (o :: os) → one_role p t os.
Proof. unfold one_role. rewrite !count_cons. lia. Qed.

(** While takes are outnumbered, nobody takes forever: [n] items are in the
    queue, the lists [w] are the calls that are left. *)
Record balanced {O} (is_put is_take : O → bool) (n : nat) (ws : list (list O)) : Prop := {
  bal_roles : Forall (one_role is_put is_take) ws;
  bal_takes : (total is_take ws ≤ n + total is_put ws)%nat
}.

Lemma balanced_tail {O} (p k : O → bool) n n' ws t o os :
  ws !! t = Some (o :: os) → balanced p k n ws →
  (n + Nat.b2n (p o) ≤ n' + Nat.b2n (k o))%nat → balanced p k n' (<[t := os]> ws).
Proof.
  intros Ht [Hr Hb] Hn. split.
  - apply Forall_insert; [done|]. eapply one_role_tail. by apply (proj1 (Forall_lookup _ _) Hr _ _ Ht).
  - pose proof (total_tail p _ _ _ _ Ht). pose proof (total_tail k _ _ _ _ Ht). lia.
Qed.

Lemma balanced_stuck {O} (p k : O → bool) ws :
  balanced p k 0 ws → Forall (λ w, w = [] ∨ ∃ o os, w = o :: os ∧ k o = true) ws →
  Forall (λ w, w = []) ws.
Proof.
  intros [Hr Hb] Hw.
  assert (total p ws = 0%nat) as Hp.
  { apply total_zero. rewrite Forall_lookup in Hr, Hw |- *. intros t w Ht.
    destruct (Hw _ _ Ht) as [->|(o & os & -> & Hk)]; [done|].
    destruct (Hr _ _ Ht) as [Hz|Hz]; [done|]. rewrite count_cons, Hk in Hz. by cbn in Hz. }
  rewrite Forall_lookup in Hw |- *. intros t w Ht.
  destruct (Hw _ _ Ht) as [->|(o & os & -> & Hk)]; [done|].
  pose proof (total_pos _ _ _ _ _ Ht Hk). lia.
Qed.

(** If nobody can start a call, and all that wait do so for [c], then nobody waits. *)
Lemma nobody_waits {D C O R} `{!EqDecision C} (c : C) (p k : O → bool) n
    (ths : list (thread D C O R)) :
  covered c k n ths → balanced p k n (todo <$> ths) →
  Forall (λ th, inside th = false) ths → Forall (λ th, ready th = false) ths →
  Forall (λ th, is_waiting th = true → waits_on c th = true) ths →
  Forall (λ th, is_waiting th = false) ths.
Proof.
  intros Hc Hb Hn Hr Hall. apply Forall_lookup. intros t th Ht.
  destruct (is_waiting th) eqn:Hw; [exfalso|done].
  rewrite Forall_lookup in Hn, Hall.
  destruct (covered_stuck _ _ _ _ _ _ Hc Hr Ht (Hall _ _ Ht Hw)) as (-> & o & os & Heq & Hk).
  assert (Forall (λ w, w = []) (todo <$> ths)) as Hnil.
  { eapply balanced_stuck; [done|]. apply Forall_fmap, Forall_lookup. intros u th' Hu.
    destruct (idle_or_waiting _ (Hn _ _ Hu) (proj1 (Forall_lookup _ _) Hr _ _ Hu))
      as [->|(w' & c' & ->)]; [by left|right].
    destruct (covered_stuck _ _ _ _ _ _ Hc Hr Hu (Hall _ _ Hu eq_refl)) as (_ & Hd). done. }
  rewrite Forall_fmap, Forall_lookup in Hnil. specialize (Hnil _ _ Ht). cbn in *. congruence.
Qed.

(** ** BlockingQueue.h: over a std::deque *)
Module BlockingQueue.

Inductive cond := notEmpty_.
#[global] Instance cond_eq_dec : EqDecision cond.
Proof. solve_decision. Defined.

Section queue.
Context {T : Type}.

Inductive call := CPut (x : T) | CTake | CSize.

Definition put (x : T) : method (list T) cond (res T) :=
  Method (λ _, None)
    (Modify (λ q, q ++ [x])
    (Notify notEmpty_
    (Return Unit))).

Definition take : method (list T) cond (res T) :=
  Method (λ q, if bool_decide (q = []) then Some notEmpty_ else None)
    (Assert (λ q, negb (bool_decide (q = [])))
    (Read (λ q, match q with
                | front :: _ => Modify (drop 1) (Return (Elem front))
                | [] => Undefined
                end))).

Definition size : method (list T) cond (res T) :=
  Method (λ _, None) (Read (λ q, Return (Num (length q)))).

Definition code (o : call) : method (list T) cond (res T) :=
  match o with CPut x => put x | CTake => take | CSize => size end.

Definition as_op (o : call) : op T :=
  match o with CPut x => Put x | CTake => Take | CSize => Size end.

Definition call_step (q : list T) (o : call) : option (list T * res T) :=
  fifo_step None q (as_op o).

Definition is_put (o : call) : bool := match o with CPut _ => true | _ => false end.
Definition is_take (o : call) : bool := match o with CTake => true | _ => false end.

Implicit Types (q : list T) (ths : list (thread (list T) cond call (res T))).

Record I (live : Prop) q ths (l : list (call * res T)) : Prop := {
  I_fifo : log_run call_step [] l q;
  I_covered : covered notEmpty_ is_take (length q) ths;
  I_balanced : live → balanced is_put is_take (length q) (todo <$> ths)
}.

Lemma queue_return live q q' ths l t o os r :
  log_run call_step [] l q →
  call_step q o = Some (q', r) →
  ths !! t = Some (Thread (o :: os) Out) →
  covered notEmpty_ is_take (length q' + Nat.b2n (is_take o)) ths →
  (live → balanced is_put is_take (length q) (todo <$> ths)) →
  I live q' (<[t := Thread os Out]> ths) (l ++ [(o, r)]).
Proof.
  intros Hf Hs Ht Hc Hb. split.
  - by eapply log_snoc.
  - eapply covered_insert; [done..|]. cbn. destruct (is_take o); cbn; lia.
  - intros Hl. rewrite list_fmap_insert. eapply balanced_tail; [|by apply Hb|].
    + by rewrite list_lookup_fmap, Ht.
    + unfold call_step in Hs. destruct o, q; simplify_eq/=; rewrite ?length_app; cbn; lia.
Qed.

Lemma queue_rule live : monitor_rule code (I live).
Proof.
  split.
  - intros q ths l u w c [Hf Hc Hb] Hu. split; [done|by eapply covered_spurious|].
    by erewrite todo_same.
  - intros q ths l t o os [Hf Hc Hb] Ht. destruct o as [x| |]; cbn.
    + intros ths' Hw. eapply queue_return; [done..|by eapply wake_lookup_out| |].
      * rewrite length_app, Nat.add_0_r, Nat.add_1_r. by eapply covered_wake.
      * by erewrite wake_todo.
    + case_bool_decide as Hq; cbn.
      * subst q. split; [done|eapply covered_insert; [done..|by eauto|done]|].
        by erewrite todo_same.
      * destruct q as [|x q]; [done|]. cbn. split; [done|].
        eapply queue_return; [done..| |done]. cbn. by rewrite Nat.add_1_r.
    + by eapply queue_return; [..|rewrite Nat.add_0_r| ].
Qed.

Lemma queue_stuck q ths l :
  I True q ths l → Forall (λ th, inside th = false) ths → Forall (λ th, ready th = false) ths →
  Forall (λ th, is_waiting th = false) ths.
Proof.
  intros [_ Hc Hb] Hn Hr. eapply nobody_waits; [done|by apply Hb|done..|].
  apply Forall_forall. intros [w [|[]| |]] _; done.
Qed.

Lemma queue_start (live : Prop) (calls : list (list call)) :
  (live → balanced is_put is_take 0 calls) →
  I live [] ((λ w, Thread w Out) <$> calls) [].
Proof.
  intros Hb. split; [constructor|apply covered_start|]. by rewrite todo_start.
Qed.

(** C22: BlockingQueue loses no wake-up, under any schedule.  Whenever the mutex
    is free, the calls that have returned are a run of a FIFO queue that ends in
    the contents of the deque; and if every thread is a producer only or a
    consumer only and there are no more take() than put() in all, then from every reachable
    configuration all calls return, however many spurious wake-ups there are. *)
Theorem blocking_queue_live (calls : list (list call)) c n :
  reachable code (start [] calls) c →
  (Forall (λ th, inside th = false) (threads c) →
   log_run call_step [] (log c) (shared c))
  ∧ (balanced is_put is_take 0 calls → eventually code finished n c).
Proof.
  intros Hr. split.
  - intros Hn. eapply (monitor_invariant code (I False)); [apply queue_rule|by apply queue_start|done|done].
  - intros Hb. eapply (monitor_live code (I True)); [apply queue_rule|apply queue_stuck|by apply queue_start|done].
Qed.

End queue.
End BlockingQueue.
