(* ===== verification/BoundedBlockingQueue.v ===== *)
(** * BoundedBlockingQueue.h (muduo/base)

    The member functions as [method]s of [Monitor] over a boost::circular_buffer.
    The container is a parameter: [CircularBuffer] lists the members that the
    class calls, [CircularBufferLaws] what their documentation says about the
    elements.  [ListBuffer] is an instance. *)
From S2P Require Import Prelude Monitor BlockingQueue.

(** ** boost::circular_buffer *)
Class CircularBuffer (T Q : Type) := {
  cb_new : nat → Q;
  cb_capacity : Q → nat;
  cb_size : Q → nat;
  cb_empty : Q → bool;
  cb_full : Q → bool;
  cb_push_back : Q → T → Q;
  cb_front : Q → option T;
  cb_pop_front : Q → Q
}.

(** [elems] are the elements, first to last.  [push_back] on a full buffer
    overwrites the first element, [front] and [pop_front] are undefined on an
    empty one: of these cases nothing is assumed. *)
Class CircularBufferLaws (T Q : Type) `{CircularBuffer T Q} := {
  elems : Q → list T;
  elems_new n : elems (cb_new n) = [];
  capacity_new n : cb_capacity (cb_new n) = n;
  size_elems q : cb_size q = length (elems q);
  size_capacity q : (length (elems q) ≤ cb_capacity q)%nat;
  empty_elems q : cb_empty q = bool_decide (length (elems q) = 0%nat);
  full_elems q : cb_full q = bool_decide (length (elems q) = cb_capacity q);
  elems_push_back q x : cb_full q = false → elems (cb_push_back q x) = elems q ++ [x];
  capacity_push_back q x : cb_capacity (cb_push_back q x) = cb_capacity q;
  front_elems q x l : elems q = x :: l → cb_front q = Some x;
  elems_pop_front q x l : elems q = x :: l → elems (cb_pop_front q) = l;
  capacity_pop_front q : cb_empty q = false → cb_capacity (cb_pop_front q) = cb_capacity q
}.

Inductive cond := notEmpty_ | notFull_.
#[global] Instance cond_eq_dec : EqDecision cond.
Proof. solve_decision. Defined.

Module BoundedBlockingQueue.
Section queue.
Context {T Q : Type} `{CircularBuffer T Q}.

(** The calls are those of the contract. *)
Definition put (x : T) : method Q cond (res T) :=
  Method (λ q, if cb_full q then Some notFull_ else None)
    (Assert (λ q, negb (cb_full q))
    (Modify (λ q, cb_push_back q x)
    (Notify notEmpty_
    (Return Unit)))).

Definition take : method Q cond (res T) :=
  Method (λ q, if cb_empty q then Some notEmpty_ else None)
    (Assert (λ q, negb (cb_empty q))
    (Read (λ q, match cb_front q with
                | Some front => Modify cb_pop_front (Notify notFull_ (Return (Elem front)))
                | None => Undefined
                end))).

Definition empty : method Q cond (res T) :=
  Method (λ _, None) (Read (λ q, Return (Bool (cb_empty q)))).
Definition full : method Q cond (res T) :=
  Method (λ _, None) (Read (λ q, Return (Bool (cb_full q)))).
Definition size : method Q cond (res T) :=
  Method (λ _, None) (Read (λ q, Return (Num (cb_size q)))).
Definition capacity : method Q cond (res T) :=
  Method (λ _, None) (Read (λ q, Return (Num (cb_capacity q)))).

Definition code (o : op T) : method Q cond (res T) :=
  match o with
  | Put x => put x | Take => take | Empty => empty | Full => full
  | Size => size | Capacity => capacity
  end.

Context `{!CircularBufferLaws T Q}.
Context (cap : nat).

Definition is_put (o : op T) : bool := match o with Put _ => true | _ => false end.
Definition is_take (o : op T) : bool := match o with Take => true | _ => false end.

Implicit Types (q : Q) (ths : list (thread Q cond (op T) (res T))).

Abbreviation len q := (length (elems q)).

Record I (live : Prop) q ths (l : list (op T * res T)) : Prop := {
  I_cap : cb_capacity q = cap;
  I_fifo : fifo_run (Some cap) [] l (elems q);
  I_items : covered notEmpty_ is_take (len q) ths;
  I_slots : covered notFull_ is_put (cap - len q) ths;
  I_puts : live → balanced is_put is_take (len q) (todo <$> ths);
  I_takes : live → balanced is_take is_put (cap - len q) (todo <$> ths)
}.

Lemma fifo_step_len q q' o r :
  fifo_step (Some cap) (elems q) o = Some (elems q', r) → (len q ≤ cap)%nat → (len q' ≤ cap)%nat →
  (len q + Nat.b2n (is_put o) = len q' + Nat.b2n (is_take o) ∧
   cap - len q + Nat.b2n (is_take o) = cap - len q' + Nat.b2n (is_put o))%nat.
Proof.
  intros Hs Hle0 Hle.
  assert (∀ l' r', Some (l', r') = Some (elems q', r) → length l' = len q') as Heq
    by (intros ?? [= -> _]; done).
  destruct o; cbn in *; try (apply Heq in Hs; lia).
  - case_bool_decide; [|done]. apply Heq in Hs. rewrite length_app in Hs. cbn in Hs. lia.
  - destruct (elems q) as [|x l]; [done|]. apply Heq in Hs. cbn in *. lia.
Qed.

Lemma bounded_return (live : Prop) q q' ths l t o os r :
  (len q ≤ cap)%nat → cb_capacity q' = cap →
  fifo_run (Some cap) [] l (elems q) →
  fifo_step (Some cap) (elems q) o = Some (elems q', r) →
  ths !! t = Some (Thread (o :: os) Out) →
  covered notEmpty_ is_take (len q' + Nat.b2n (is_take o)) ths →
  covered notFull_ is_put (cap - len q' + Nat.b2n (is_put o)) ths →
  (live → balanced is_put is_take (len q) (todo <$> ths)) →
  (live → balanced is_take is_put (cap - len q) (todo <$> ths)) →
  I live q' (<[t := Thread os Out]> ths) (l ++ [(o, r)]).
Proof.
  intros Hle Hcap Hf Hs Ht Hc1 Hc2 Hb1 Hb2.
  destruct (fifo_step_len _ _ _ _ Hs) as [Hl1 Hl2]; [done|rewrite <-Hcap; apply size_capacity|].
  assert ((todo <$> ths) !! t = Some (o :: os)) as Ht' by by rewrite list_lookup_fmap, Ht.
  split; [done|by eapply log_snoc|..].
  - eapply covered_insert; [done..|]. cbn. destruct (is_take o); cbn; lia.
  - eapply covered_insert; [done..|]. cbn. destruct (is_put o); cbn; lia.
  - intros Hl. rewrite list_fmap_insert. eapply balanced_tail; [done|by apply Hb1|]. lia.
  - intros Hl. rewrite list_fmap_insert. eapply balanced_tail; [done|by apply Hb2|]. lia.
Qed.

Lemma bounded_rule live : monitor_rule code (I live).
Proof.
  split.
  - intros q ths l u w c [Hcap Hf Hi Hs Hb1 Hb2] Hu.
    split; [done|done|by eapply covered_spurious|by eapply covered_spurious|..];
      by erewrite todo_same.
  - intros q ths l t o os [Hcap Hf Hi Hs Hb1 Hb2] Ht.
    pose proof (size_capacity q) as Hle. rewrite Hcap in Hle.
    destruct o as [x| | | | |]; cbn.
    + destruct (cb_full q) eqn:Hfull; cbn.
      * pose proof (full_elems q) as Hfe. rewrite Hfull, Hcap in Hfe.
        symmetry in Hfe. apply bool_decide_eq_true in Hfe.
        split; [done|done| | |by erewrite todo_same|by erewrite todo_same].
        -- eapply covered_insert; [done..|]. cbn. lia.
        -- eapply covered_insert; [done..| |done]. eauto with lia.
      * split; [done|]. intros ths' Hw.
        pose proof (full_elems q) as Hfe. rewrite Hfull, Hcap in Hfe.
        symmetry in Hfe. apply bool_decide_eq_false in Hfe.
        pose proof (elems_push_back q x Hfull) as Hpush.
        eapply bounded_return; [done|by rewrite capacity_push_back|done| |by eapply wake_lookup_out| | |by erewrite wake_todo|by erewrite wake_todo].
        -- cbn. rewrite Hpush. rewrite bool_decide_true by lia. done.
        -- rewrite Hpush, length_app, Nat.add_0_r, Nat.add_1_r. by eapply covered_wake.
        -- rewrite Hpush, length_app. cbn. replace (_ - _ + 1)%nat with (cap - len q)%nat by lia.
           by eapply covered_wake_any.
    + destruct (cb_empty q) eqn:Hemp; cbn; pose proof (empty_elems q) as Hee; rewrite Hemp in Hee;
        symmetry in Hee.
      * apply bool_decide_eq_true in Hee.
        split; [done|done| | |by erewrite todo_same|by erewrite todo_same].
        -- eapply covered_insert; [done..| |done]. eauto with lia.
        -- eapply covered_insert; [done..|]. cbn. lia.
      * apply bool_decide_eq_false in Hee. split; [done|].
        destruct (elems q) as [|x xs] eqn:Hq; [done|].
        rewrite (front_elems _ _ _ Hq). cbn. intros ths' Hw.
        pose proof (elems_pop_front _ _ _ Hq) as Hpop.
        eapply bounded_return; [by rewrite Hq|by rewrite capacity_pop_front|by rewrite Hq| |by eapply wake_lookup_out| | |by rewrite Hq; erewrite wake_todo|by rewrite Hq; erewrite wake_todo].
        -- cbn. by rewrite Hq, Hpop.
        -- rewrite Hpop. cbn. rewrite Nat.add_1_r. by eapply covered_wake_any.
        -- rewrite Hpop, Nat.add_0_r. cbn in Hle.
           replace (cap - length xs)%nat with (S (cap - S (length xs))) by lia.
           by eapply covered_wake.
    + eapply bounded_return; [done|done|done| |done| | |done|done]; cbn; rewrite ?Nat.add_0_r; try done.
      by rewrite empty_elems.
    + eapply bounded_return; [done|done|done| |done| | |done|done]; cbn; rewrite ?Nat.add_0_r; try done.
      rewrite full_elems, Hcap. do 3 f_equal. repeat case_bool_decide; try done; lia.
    + eapply bounded_return; [done|done|done| |done| | |done|done]; cbn; rewrite ?Nat.add_0_r; try done.
      by rewrite size_elems.
    + eapply bounded_return; [done|done|done| |done| | |done|done]; cbn; rewrite ?Nat.add_0_r; try done.
      by rewrite Hcap.
Qed.

Lemma bounded_stuck q ths l :
  (0 < cap)%nat → I True q ths l →
  Forall (λ th, inside th = false) ths → Forall (λ th, ready th = false) ths →
  Forall (λ th, is_waiting th = false) ths.
Proof.
  intros Hcap [_ _ Hi Hs Hb1 Hb2] Hn Hr.
  destruct (decide (len q = 0%nat)) as [Hz|Hnz].
  - eapply (nobody_waits notEmpty_); [done|by apply Hb1|done..|].
    apply Forall_lookup. intros t [w [|[]| |]] Ht; try done. intros _.
    destruct (covered_stuck _ _ _ _ _ _ Hs Hr Ht eq_refl) as [? _]. lia.
  - eapply (nobody_waits notFull_); [done|by apply Hb2|done..|].
    apply Forall_lookup. intros t [w [|[]| |]] Ht; try done. intros _.
    destruct (covered_stuck _ _ _ _ _ _ Hi Hr Ht eq_refl) as [? _]. lia.
Qed.

Lemma bounded_start (live : Prop) (calls : list (list (op T))) :
  (live → balanced is_put is_take 0 calls ∧ balanced is_take is_put cap calls) →
  I live (cb_new cap) ((λ w, Thread w Out) <$> calls) [].
Proof.
  intros Hb. split; rewrite ?todo_start, ?elems_new, ?capacity_new; cbn;
    rewrite ?Nat.sub_0_r; [done|constructor|apply covered_start..|apply Hb|apply Hb].
Qed.

(** C2: BoundedBlockingQueue loses no wake-up, under any schedule.  Whenever
    the mutex is free, the calls that have returned are a run of a FIFO queue
    bounded by the capacity, which ends in the contents of the buffer; and if
    every thread is a producer or a consumer, there are no more take() than put(),
    and no more than [cap] puts remain untaken, then from every reachable
    configuration all calls return, however many spurious wake-ups there are. *)
Theorem bounded_queue_live (calls : list (list (op T))) c n :
  (0 < cap)%nat → reachable code (start (cb_new cap) calls) c →
  (Forall (λ th, inside th = false) (threads c) →
   fifo_run (Some cap) [] (log c) (elems (shared c)) ∧ (len (shared c) ≤ cap)%nat)
  ∧ (balanced is_put is_take 0 calls → balanced is_take is_put cap calls →
     eventually code finished n c).
Proof.
  intros Hcap Hr. split.
  - intros Hn.
    assert (I False (shared c) (threads c) (log c)) as [Hq Hf _ _ _ _].
    { eapply monitor_invariant; [apply bounded_rule|by apply bounded_start|done|done]. }
    split; [done|]. rewrite <-Hq. apply size_capacity.
  - intros Hb1 Hb2.
    eapply (monitor_live code (I True)); [apply bounded_rule| |by apply bounded_start|done].
    intros. by eapply bounded_stuck.
Qed.

End queue.
End BoundedBlockingQueue.

(** ** An instance of the container, and a run *)
Module ListBuffer.
Section buffer.
Context {T : Type}.

Record buffer := Buffer {
  lb_capacity : nat; lb_items : list T; lb_ok : (length lb_items ≤ lb_capacity)%nat
}.

Lemma overwrite_ok (n : nat) (l : list T) : (length (drop (length l - n) l) ≤ n)%nat.
Proof. rewrite length_drop. lia. Qed.

Lemma pop_ok (n : nat) (l : list T) : (length l ≤ n → length (drop 1 l) ≤ n)%nat.
Proof. rewrite length_drop. lia. Qed.

#[global] Instance list_buffer : CircularBuffer T buffer := {|
  cb_new n := Buffer n [] (Nat.le_0_l n);
  cb_capacity := lb_capacity;
  cb_size q := length (lb_items q);
  cb_empty q := bool_decide (length (lb_items q) = 0%nat);
  cb_full q := bool_decide (length (lb_items q) = lb_capacity q);
  cb_push_back q x := Buffer (lb_capacity q) _ (overwrite_ok (lb_capacity q) (lb_items q ++ [x]));
  cb_front q := head (lb_items q);
  cb_pop_front q := Buffer (lb_capacity q) _ (pop_ok _ _ (lb_ok q))
|}.

#[global] Instance list_buffer_laws : CircularBufferLaws T buffer.
Proof.
  refine {| elems := lb_items |}; try done.
  - intros q. apply (lb_ok q).
  - intros q x Hf. cbn in *. apply bool_decide_eq_false in Hf. pose proof (lb_ok q).
    rewrite length_app. cbn. replace (_ - _)%nat with 0%nat by lia. done.
  - intros q x l Hq. cbn. by rewrite Hq.
  - intros q x l Hq. cbn. by rewrite Hq.
Defined.

End buffer.
End ListBuffer.

Module QueueWitness.
Import BoundedBlockingQueue.

Ltac roles :=
  repeat (apply Forall_cons_2; [unfold one_role; vm_compute; auto|]); apply Forall_nil_2.

Definition calls : list (list (op Z)) := [[Put 1; Put 2]; [Take]; [Size; Take]].

Lemma bounded_queue_live_witness :
  eventually code finished 3 (start (cb_new (Q := ListBuffer.buffer) 1) calls).
Proof.
  refine (proj2 (bounded_queue_live 1 calls _ 3 _ _) _ _).
  - lia.
  - apply rtc_refl.
  - split; [|vm_compute; lia]. by roles.
  - split; [|vm_compute; lia]. by roles.
Defined.

Lemma blocking_queue_live_witness :
  eventually BlockingQueue.code finished 3
    (start [] [[BlockingQueue.CPut 1; BlockingQueue.CPut 2]; [BlockingQueue.CTake]; [BlockingQueue.CTake]]).
Proof.
  refine (proj2 (BlockingQueue.blocking_queue_live _ _ 3 _) _).
  - apply rtc_refl.
  - split; [|vm_compute; lia]. by roles.
Defined.

End QueueWitness.
