(* ===== verification/CountDownLatch.v ===== *)
(** * CountDownLatch.cc (muduo/base)

    The member functions as [method]s of [Monitor].  The count is an [int]:
    [--count_] below its minimum is undefined, and [min_int] bounds the calls
    for which the theorems hold. *)
From S2P Require Import Prelude Monitor.

Definition min_int : Z := - 2 ^ 31.

(** ** The contract *)
Inductive call := CWait | CCountDown | CGetCount.
Inductive result := Done | Count (n : Z).

(** wait() can return when the count is not positive. *)
Definition latch_step (n : Z) (o : call) : option (Z * result) :=
  match o with
  | CWait => if bool_decide (n ≤ 0) then Some (n, Done) else None
  | CCountDown => Some (n - 1, Done)
  | CGetCount => Some (n, Count n)
  end.

Definition is_wait (o : call) : bool := match o with CWait => true | _ => false end.
Definition is_countDown (o : call) : bool := match o with CCountDown => true | _ => false end.

(** A thread that waits does not count down afterwards. *)
Fixpoint waits_last (w : list call) : Prop :=
  match w with
  | [] => True
  | CWait :: w' => count is_countDown w' = 0%nat ∧ waits_last w'
  | _ :: w' => waits_last w'
  end.

(** ** The class *)
Module CountDownLatch.

Inductive cond := condition_.
#[global] Instance cond_eq_dec : EqDecision cond.
Proof. solve_decision. Defined.

Definition wait : method Z cond result :=
  Method (λ count_, if bool_decide (0 < count_) then Some condition_ else None) (Return Done).

Definition countDown : method Z cond result :=
  Method (λ _, None)
    (Read (λ count_, if bool_decide (count_ = min_int) then Undefined else
     Modify (λ n, n - 1)
    (Read (λ count_, if bool_decide (count_ = 0) then NotifyAll condition_ (Return Done)
                     else Return Done)))).

Definition getCount : method Z cond result :=
  Method (λ _, None) (Read (λ count_, Return (Count count_))).

Definition code (o : call) : method Z cond result :=
  match o with CWait => wait | CCountDown => countDown | CGetCount => getCount end.

Implicit Types (n : Z) (ths : list (thread Z cond call result)).

Record I (k : Z) (live : Prop) n ths (l : list (call * result)) : Prop := {
  I_log : log_run latch_step k l n;
  I_int : min_int ≤ n - Z.of_nat (total is_countDown (todo <$> ths));
  I_open : n ≤ 0 → count (waits_on condition_) ths = 0%nat;
  I_heads : covered condition_ is_wait 0 ths;
  I_live : live → Forall waits_last (todo <$> ths) ∧ n ≤ Z.of_nat (total is_countDown (todo <$> ths))
}.

Lemma waits_last_tail o os : waits_last (o :: os) → waits_last os.
Proof. destruct o; cbn; tauto. Qed.

Lemma latch_return k (live : Prop) n n' ths l t o os r :
  log_run latch_step k l n → latch_step n o = Some (n', r) →
  ths !! t = Some (Thread (o :: os) Out) →
  min_int ≤ n - Z.of_nat (total is_countDown (todo <$> ths)) →
  (n' ≤ 0 → count (waits_on condition_) ths = 0%nat) →
  covered condition_ is_wait 0 ths →
  (live → Forall waits_last (todo <$> ths) ∧ n ≤ Z.of_nat (total is_countDown (todo <$> ths))) →
  I k live n' (<[t := Thread os Out]> ths) (l ++ [(o, r)]).
Proof.
  intros Hl Hs Ht Hi Ho Hh Hv.
  assert ((todo <$> ths) !! t = Some (o :: os)) as Ht' by by rewrite list_lookup_fmap, Ht.
  pose proof (total_tail is_countDown _ _ _ _ Ht') as Htot.
  assert (n' = n - Z.of_nat (Nat.b2n (is_countDown o))) as Hn'.
  { destruct o; cbn in *; try case_bool_decide; simplify_eq; lia. }
  split; rewrite ?list_fmap_insert; cbn [todo].
  - by eapply log_snoc.
  - lia.
  - intros Hle. eapply waits_insert_zero; [done..|by apply Ho].
  - by eapply covered_insert.
  - intros Hlv. destruct (Hv Hlv) as [Hf Hle]. split; [|lia].
    apply Forall_insert; [done|]. eapply waits_last_tail.
    by apply (proj1 (Forall_lookup _ _) Hf _ _ Ht').
Qed.

Lemma latch_rule k live : monitor_rule code (I k live).
Proof.
  split.
  - intros n ths l u w c [Hl Hi Ho Hh Hv] Hu.
    split; rewrite ?(todo_same _ _ (Thread w Out) _ Hu eq_refl); [done|done| | |done].
    + intros Hle. eapply waits_insert_zero; [done..|by apply Ho].
    + by eapply covered_spurious.
  - intros n ths l t o os [Hl Hi Ho Hh Hv] Ht. destruct o; cbn.
    + case_bool_decide as Hn; cbn.
      * split; rewrite ?(todo_same _ _ (Thread (CWait :: os) (Wait condition_)) _ Ht eq_refl);
          [done|done|lia| |done].
        eapply covered_insert; [done..| |done]. eauto.
      * eapply latch_return; [done| |done..]. cbn. by rewrite bool_decide_true by lia.
    + assert ((todo <$> ths) !! t = Some (CCountDown :: os)) as Ht' by by rewrite list_lookup_fmap, Ht.
      pose proof (total_pos is_countDown _ _ _ _ Ht' eq_refl) as Hpos.
      rewrite bool_decide_false by lia. cbn. case_bool_decide as Hz; cbn.
      * eapply latch_return; rewrite ?wake_all_todo; [done|done| |done| | |done].
        -- by rewrite wake_all_lookup, Ht.
        -- intros _. apply wake_all_none.
        -- by apply covered_wake_all.
      * eapply latch_return; [done..| |done|done]. intros. apply Ho. lia.
    + by eapply latch_return.
Qed.

Lemma latch_stuck k n ths l :
  I k True n ths l → Forall (λ th, inside th = false) ths → Forall (λ th, ready th = false) ths →
  Forall (λ th, is_waiting th = false) ths.
Proof.
  intros [_ _ Ho Hh Hv] Hn Hr. destruct Hv as [Hf Hle]; [done|].
  assert (total is_countDown (todo <$> ths) = 0%nat) as Hz.
  { apply total_zero, Forall_fmap. rewrite Forall_fmap in Hf.
    rewrite Forall_lookup in Hn, Hr, Hf |- *. intros u th Hu.
    destruct (idle_or_waiting _ (Hn _ _ Hu) (Hr _ _ Hu)) as [->|(w & [] & ->)]; [done|].
    destruct (proj1 (Forall_lookup _ _) (proj2 Hh) _ _ Hu eq_refl) as (o & os & Heq & Hk).
    specialize (Hf _ _ Hu). cbn in *. subst w. destruct o; try done. by destruct Hf. }
  apply Forall_lookup. intros t [w [|[]| |]] Ht; try done.
  pose proof (count_pos (waits_on condition_) _ _ _ Ht eq_refl) as Hp.
  rewrite Ho in Hp by lia. lia.
Qed.

Lemma latch_start (live : Prop) k (calls : list (list call)) :
  min_int ≤ k - Z.of_nat (total is_countDown calls) →
  (live → Forall waits_last calls ∧ k ≤ Z.of_nat (total is_countDown calls)) →
  I k live k ((λ w, Thread w Out) <$> calls) [].
Proof.
  intros Hi Hv. split; rewrite ?todo_start; [constructor|done| |apply covered_start|done].
  intros _. apply count_zero, Forall_fmap, Forall_forall. done.
Qed.

(** C20: CountDownLatch: wait() returns only when the count is down, and then it
    does, for every thread.  Whenever the mutex is free, the calls that have
    returned are a run of the contract ([latch_step]: a wait() returns at a count
    that is not positive) that ends in the count, and no thread waits at a count
    that is not positive; and if there are enough countDown() calls, none of them
    behind a wait() of the same thread, then from every reachable configuration
    all calls return, however many spurious wake-ups there are.  The count may
    go below zero, but not below the minimum of [int]. *)
Theorem latch_live (k : Z) (calls : list (list call)) c m :
  min_int ≤ k - Z.of_nat (total is_countDown calls) →
  reachable code (start k calls) c →
  (Forall (λ th, inside th = false) (threads c) →
   log_run latch_step k (log c) (shared c)
   ∧ (shared c ≤ 0 → Forall (λ th, waits_on condition_ th = false) (threads c)))
  ∧ (Forall waits_last calls → k ≤ Z.of_nat (total is_countDown calls) →
     eventually code finished m c).
Proof.
  intros Hi Hr. split.
  - intros Hn.
    assert (I k False (shared c) (threads c) (log c)) as [Hl _ Ho _ _].
    { eapply monitor_invariant; [apply latch_rule|by apply latch_start|done|done]. }
    split; [done|]. intros Hle. by apply count_zero, Ho.
  - intros Hw Hk.
    eapply (monitor_live code (I k True)); [apply latch_rule|apply latch_stuck|by apply latch_start|done].
Qed.

Definition example_calls : list (list call) :=
  [[CWait; CGetCount]; [CCountDown]; [CCountDown; CWait]; [CWait]].

Lemma latch_live_witness : eventually code finished 2 (start 2 example_calls).
Proof.
  refine (proj2 (latch_live 2 example_calls _ 2 _ _) _ _).
  - vm_compute. congruence.
  - apply rtc_refl.
  - repeat (apply Forall_cons_2; [vm_compute; auto|]). apply Forall_nil_2.
  - vm_compute. congruence.
Defined.

End CountDownLatch.
