(* ===== verification/ThreadPool.v ===== *)
(** * ThreadPool.cc (muduo/base)

    The critical sections of ThreadPool as [method]s of [Monitor]: run() when the
    pool has threads, take() as the worker threads call it, the part of stop()
    under the mutex, queueSize().  The tasks are values of a type [T]: running
    them is up to the worker, after take() has returned.

    Outside of the mutex, and not modelled: the creation and joining of the
    threads, and the test of [running_] by the worker between two tasks. *)
From S2P Require Import Prelude Monitor.

(** ** The contract *)
Section contract.
Context {T : Type}.

Inductive call := CRun (task : T) | CTake | CStop | CQueueSize.
Inductive result := Done | Task (task : option T) | Num (n : nat).

Record pool := Pool { queue_ : list T; maxQueueSize_ : nat; running_ : bool }.

Definition isFull (p : pool) : bool :=
  bool_decide (0 < maxQueueSize_ p)%nat && bool_decide (maxQueueSize_ p ≤ length (queue_ p))%nat.

Definition set_queue (q : list T) (p : pool) : pool := Pool q (maxQueueSize_ p) (running_ p).
Definition set_running (b : bool) (p : pool) : pool := Pool (queue_ p) (maxQueueSize_ p) b.

(** A FIFO queue of tasks; a stopped pool hands out empty tasks at the end. *)
Definition pool_step (p : pool) (o : call) : option (pool * result) :=
  match o with
  | CRun x => if isFull p then None else Some (set_queue (queue_ p ++ [x]) p, Done)
  | CTake => match queue_ p with
             | x :: q => Some (set_queue q p, Task (Some x))
             | [] => if running_ p then None else Some (p, Task None)
             end
  | CStop => Some (set_running false p, Done)
  | CQueueSize => Some (p, Num (length (queue_ p)))
  end.

Definition is_run (o : call) : bool := match o with CRun _ => true | _ => false end.
Definition is_take (o : call) : bool := match o with CTake => true | _ => false end.
Definition is_stop (o : call) : bool := match o with CStop => true | _ => false end.

(** The thread that stops the pool is not one of its workers. *)
Definition stops_first (w : list call) : Prop := count is_stop w = 0%nat ∨ count is_take w = 0%nat.

End contract.

Arguments call : clear implicits.
Arguments result : clear implicits.
Arguments pool : clear implicits.

(** ** The class *)
Module ThreadPool.

Inductive cond := notEmpty_ | notFull_.
#[global] Instance cond_eq_dec : EqDecision cond.
Proof. solve_decision. Defined.

Section pool.
Context {T : Type}.

(** run() when [threads_] is empty runs the task in the calling thread:
    [inl]. *)
Definition run_queued (task : T) : method (pool T) cond (result T) :=
  Method (λ p, if isFull p then Some notFull_ else None)
    (Assert (λ p, negb (isFull p))
    (Modify (λ p, set_queue (queue_ p ++ [task]) p)
    (Notify notEmpty_
    (Return Done)))).

Definition run (numThreads : nat) (task : T) : T + method (pool T) cond (result T) :=
  if bool_decide (numThreads = 0%nat) then inl task else inr (run_queued task).

Definition take : method (pool T) cond (result T) :=
  Method (λ p, if bool_decide (queue_ p = []) && running_ p then Some notEmpty_ else None)
    (Read (λ p, match queue_ p with
                | task :: q =>
                    Modify (set_queue q)
                    (Read (λ p, if bool_decide (0 < maxQueueSize_ p)%nat
                                then Notify notFull_ (Return (Task (Some task)))
                                else Return (Task (Some task))))
                | [] => Return (Task None)
                end)).

Definition stop : method (pool T) cond (result T) :=
  Method (λ _, None)
    (Modify (set_running false)
    (NotifyAll notEmpty_
    (Return Done))).

Definition queueSize : method (pool T) cond (result T) :=
  Method (λ _, None) (Read (λ p, Return (Num (length (queue_ p))))).

Definition code (o : call T) : method (pool T) cond (result T) :=
  match o with
  | CRun x => run_queued x | CTake => take | CStop => stop | CQueueSize => queueSize
  end.

Implicit Types (p : pool T) (ths : list (thread (pool T) cond (call T) (result T))).

(** A pool that starts with an empty queue of bound [max]; 0 is no bound. *)
Record I (max : nat) (live : Prop) p ths (l : list (call T * result T)) : Prop := {
  I_log : log_run pool_step (Pool [] max true) l p;
  I_max : maxQueueSize_ p = max;
  I_bound : (0 < max → length (queue_ p) ≤ max)%nat;
  I_tasks : covered notEmpty_ is_take (length (queue_ p)) ths;
  I_stopped : running_ p = false → count (waits_on notEmpty_) ths = 0%nat;
  I_slots : (0 < max)%nat → covered notFull_ is_run (max - length (queue_ p)) ths;
  I_unbounded : max = 0%nat → count (waits_on notFull_) ths = 0%nat;
  I_live : live → max = 0%nat ∧ Forall stops_first (todo <$> ths)
           ∧ (running_ p = true → (0 < total is_stop (todo <$> ths))%nat)
}.

Lemma pool_return max (live : Prop) p p' ths l t o os r :
  log_run pool_step (Pool [] max true) l p → pool_step p o = Some (p', r) →
  maxQueueSize_ p' = max → (0 < max → length (queue_ p') ≤ max)%nat →
  ths !! t = Some (Thread (o :: os) Out) →
  covered notEmpty_ is_take (length (queue_ p') + Nat.b2n (is_take o)) ths →
  (running_ p' = false → count (waits_on notEmpty_) ths = 0%nat) →
  ((0 < max)%nat → covered notFull_ is_run (max - length (queue_ p') + Nat.b2n (is_run o)) ths) →
  (max = 0%nat → count (waits_on notFull_) ths = 0%nat) →
  (live → max = 0%nat ∧ Forall stops_first (todo <$> ths)
          ∧ (running_ p = true → (0 < total is_stop (todo <$> ths))%nat)) →
  I max live p' (<[t := Thread os Out]> ths) (l ++ [(o, r)]).
Proof.
  intros Hl Hs Hm Hb Ht Hc1 Hst Hc2 Hu Hv.
  assert ((todo <$> ths) !! t = Some (o :: os)) as Ht' by by rewrite list_lookup_fmap, Ht.
  split; rewrite ?list_fmap_insert; cbn [todo]; [by eapply log_snoc|done|done|..].
  - eapply covered_insert; [done..|]. cbn. destruct (is_take o); cbn; lia.
  - intros Hr. eapply waits_insert_zero; [done..|by apply Hst].
  - intros Hpos. eapply covered_insert; [done|by apply Hc2|done|]. cbn. destruct (is_run o); cbn; lia.
  - intros Hz. eapply waits_insert_zero; [done..|by apply Hu].
  - intros Hlv. destruct (Hv Hlv) as (Hz & Hf & Hp). split; [done|split].
    + apply Forall_insert; [done|]. pose proof (proj1 (Forall_lookup _ _) Hf _ _ Ht') as Ho.
      unfold stops_first in *. rewrite !count_cons in Ho. lia.
    + intros Hr. pose proof (total_tail is_stop _ _ _ _ Ht') as Htot.
      destruct o; cbn in Hs, Htot; repeat case_match; simplify_eq; cbn in Hr;
        try (specialize (Hp Hr); lia); congruence.
Qed.

Lemma pool_spurious max live p ths l u w c :
  I max live p ths l → ths !! u = Some (Thread w (Wait c)) →
  I max live p (<[u := Thread w Out]> ths) l.
Proof.
  intros [Hl Hm Hb Hc1 Hst Hc2 Hu Hv] Hw.
  split; rewrite ?(todo_same _ _ (Thread w Out) _ Hw eq_refl); try done.
  - by eapply covered_spurious.
  - intros Hr. eapply waits_insert_zero; [done..|by apply Hst].
  - intros Hpos. eapply covered_spurious; [done|by apply Hc2].
  - intros Hz. eapply waits_insert_zero; [done..|by apply Hu].
Qed.

Lemma pool_rule max live : monitor_rule code (I max live).
Proof.
  split; [intros; by eapply pool_spurious|].
  intros p ths l t o os [Hl Hm Hb Hc1 Hst Hc2 Hu Hv] Ht. destruct o as [x| | |]; cbn.
  - destruct (isFull p) eqn:Hfull; cbn.
    + apply andb_true_iff in Hfull as [Hpos Hle]. rewrite Hm in *.
      apply bool_decide_eq_true in Hpos, Hle. specialize (Hb Hpos).
      split; rewrite ?(todo_same _ _ (Thread (CRun x :: os) (Wait notFull_)) _ Ht eq_refl); try done.
      * eapply covered_insert; [done..|]. cbn. lia.
      * intros Hr. eapply waits_insert_zero; [done..|by apply Hst].
      * intros _. eapply covered_insert; [done|by apply Hc2| |done]. eauto with lia.
      * lia.
    + split; [done|]. intros ths' Hw.
      assert (0 < max → length (queue_ p) < max)%nat as Hroom.
      { intros Hpos. unfold isFull in Hfull. rewrite Hm, bool_decide_true in Hfull by done.
        apply bool_decide_eq_false in Hfull. lia. }
      eapply pool_return; [done|cbn; by rewrite Hfull|done| |by eapply wake_lookup_out| | | | |by erewrite wake_todo].
      * intros Hpos. cbn. rewrite length_app. cbn. specialize (Hroom Hpos). lia.
      * cbn. rewrite length_app, Nat.add_0_r, Nat.add_1_r. by eapply covered_wake.
      * intros Hr. by eapply wake_waits_zero, Hst.
      * intros Hpos. cbn. rewrite length_app. cbn. specialize (Hroom Hpos).
        replace (_ - _ + 1)%nat with (max - length (queue_ p))%nat by lia.
        by eapply covered_wake_any, Hc2.
      * intros Hz. by eapply wake_waits_zero, Hu.
  - destruct (queue_ p) as [|x q] eqn:Hq; cbn.
    + destruct (running_ p) eqn:Hr; cbn.
      * split; rewrite ?(todo_same _ _ (Thread (CTake :: os) (Wait notEmpty_)) _ Ht eq_refl), ?Hq; try done.
        -- eapply covered_insert; [done..| |done]. eauto.
        -- congruence.
        -- intros Hpos. eapply covered_insert; [done|by apply Hc2|done|]. cbn. lia.
        -- intros Hz. eapply waits_insert_zero; [done..|by apply Hu].
        -- by rewrite Hr.
      * eapply pool_return; rewrite ?Hq; [done| |done|cbn; lia|done| |by intros; apply Hst| |done|by rewrite Hr].
        -- cbn. by rewrite Hq, Hr.
        -- by eapply covered_none, Hc1; apply Hst.
        -- intros Hpos. cbn. rewrite Nat.add_0_r. by apply Hc2.
    + cbn.
      assert (0 < max → covered notFull_ is_run (max - S (length q)) ths)%nat as Hc2' by exact Hc2.
      assert (∀ ths', wake notFull_ ths ths' ∨ (max = 0%nat ∧ ths' = ths) →
        I max live (set_queue q p) (<[t := Thread os Out]> ths') (l ++ [(CTake, Task (Some x))])) as Hret.
      { intros ths' Hw. cbn in Hb.
        assert (todo <$> ths' = todo <$> ths) as Htodo.
        { destruct Hw as [Hw|[_ ->]]; [by eapply wake_todo|done]. }
        eapply pool_return; rewrite ?Htodo; [done|cbn; by rewrite Hq|done|cbn; lia| | | | | |done].
        - destruct Hw as [Hw|[_ ->]]; [by eapply wake_lookup_out|done].
        - cbn. rewrite Nat.add_1_r. destruct Hw as [Hw|[_ ->]]; [by eapply covered_wake_any|done].
        - intros Hr. destruct Hw as [Hw|[_ ->]]; [by eapply wake_waits_zero, Hst|by apply Hst].
        - intros Hpos. cbn. rewrite Nat.add_0_r. specialize (Hb Hpos).
          destruct Hw as [Hw|[-> _]]; [|lia].
          replace (max - length q)%nat with (S (max - S (length q))) by lia.
          by eapply covered_wake, Hc2'.
        - intros Hz. destruct Hw as [Hw|[_ ->]]; [by eapply wake_waits_zero, Hu|by apply Hu]. }
      rewrite Hm. case_bool_decide as Hpos; cbn.
      * intros ths' Hw. apply Hret. by left.
      * apply Hret. right. split; [lia|done].
  - eapply pool_return; rewrite ?wake_all_todo; [done..| | | | | |].
    + by rewrite wake_all_lookup, Ht.
    + cbn. rewrite Nat.add_0_r. by apply covered_wake_all.
    + intros _. apply wake_all_none.
    + intros Hpos. cbn. rewrite Nat.add_0_r. by apply covered_wake_all, Hc2.
    + intros Hz. by apply wake_all_waits_zero, Hu.
    + done.
  - eapply pool_return; [done..| |done| |done|done]; cbn; by rewrite ?Nat.add_0_r.
Qed.

Lemma pool_stuck max p ths l :
  I max True p ths l → Forall (λ th, inside th = false) ths → Forall (λ th, ready th = false) ths →
  Forall (λ th, is_waiting th = false) ths.
Proof.
  intros [_ _ _ Hc1 Hst _ Hu Hv] Hn Hr. destruct Hv as (Hz & Hf & Hp); [done|].
  assert (total is_stop (todo <$> ths) = 0%nat) as Hstop.
  { apply total_zero, Forall_fmap. rewrite Forall_fmap in Hf.
    rewrite Forall_lookup in Hn, Hf |- *. intros u th Hu'.
    destruct (idle_or_waiting _ (Hn _ _ Hu') (proj1 (Forall_lookup _ _) Hr _ _ Hu'))
      as [->|(w & [] & ->)]; [done| |].
    - destruct (covered_stuck _ _ _ _ _ _ Hc1 Hr Hu' eq_refl) as (_ & o & os & Heq & Hk).
      cbn in Heq. subst w. destruct (Hf _ _ Hu') as [?|Ht]; [done|].
      cbn in Ht. rewrite count_cons, Hk in Ht. cbn in Ht. lia.
    - pose proof (count_pos (waits_on notFull_) _ _ _ Hu' eq_refl). rewrite Hu in *; [lia|done]. }
  apply Forall_lookup. intros t [w [|[]| |]] Ht; try done.
  - pose proof (count_pos (waits_on notEmpty_) _ _ _ Ht eq_refl) as Hpos.
    destruct (running_ p); [specialize (Hp eq_refl)|rewrite Hst in Hpos by done]; lia.
  - pose proof (count_pos (waits_on notFull_) _ _ _ Ht eq_refl). rewrite Hu in *; [lia|done].
Qed.

Lemma pool_start max (live : Prop) (calls : list (list (call T))) :
  (live → max = 0%nat ∧ Forall stops_first calls ∧ (0 < total is_stop calls)%nat) →
  I max live (Pool [] max true) ((λ w, Thread w Out) <$> calls) [].
Proof.
  intros Hv.
  assert (∀ c, count (waits_on c) ((λ w, Thread w Out) <$> calls : list (thread (pool T) cond (call T) (result T))) = 0%nat) as Hz.
  { intros c. apply count_zero, Forall_fmap, Forall_forall. done. }
  split; cbn; rewrite ?todo_start; try done.
  - constructor.
  - lia.
  - apply covered_start.
  - intros _. apply covered_start.
  - naive_solver.
Qed.

(** C21: ThreadPool: tasks are handed out in the order in which they were put,
    each once, and no worker is left behind.  Whenever the mutex is free, the
    calls that have returned are a run of the contract ([pool_step]) that ends
    in the state of the pool, a bounded queue is within its bound, and once the
    pool is stopped no worker waits.  If the queue is unbounded and some thread
    that is not a worker calls stop(), all calls return from every reachable
    configuration. *)
Theorem thread_pool_live max (calls : list (list (call T))) c m :
  reachable code (start (Pool [] max true) calls) c →
  (Forall (λ th, inside th = false) (threads c) →
   log_run pool_step (Pool [] max true) (log c) (shared c)
   ∧ (0 < max → length (queue_ (shared c)) ≤ max)%nat
   ∧ (running_ (shared c) = false → Forall (λ th, waits_on notEmpty_ th = false) (threads c)))
  ∧ (max = 0%nat → Forall stops_first calls → (0 < total is_stop calls)%nat →
     eventually code finished m c).
Proof.
  intros Hr. split.
  - intros Hn.
    assert (I max False (shared c) (threads c) (log c)) as [Hl _ Hb _ Hst _ _ _].
    { eapply monitor_invariant; [apply pool_rule|by apply pool_start|done|done]. }
    split; [done|]. split; [done|]. intros Hrun. by apply count_zero, Hst.
  - intros Hz Hf Hp.
    eapply (monitor_live code (I max True)); [apply pool_rule|apply pool_stuck|by apply pool_start|done].
Qed.

End pool.
Definition example_calls : list (list (call Z)) := [[CRun 1; CRun 2]; [CTake; CTake]; [CTake]; [CStop]].

Lemma thread_pool_live_witness : eventually code finished 5 (start (Pool [] 0 true) example_calls).
Proof.
  refine (proj2 (thread_pool_live 0 example_calls _ 5 _) _ _ _).
  - apply rtc_refl.
  - done.
  - repeat (apply Forall_cons_2; [unfold stops_first; vm_compute; auto|]). apply Forall_nil_2.
  - vm_compute. lia.
Defined.

(** One step of thread [i], with nobody to notify. *)
Ltac by_thread i :=
  eapply rtc_l; [left; first
    [ eapply step_lock with (t := i); [reflexivity|repeat constructor]
    | eapply step_wait with (t := i); [reflexivity|reflexivity]
    | eapply step_enter with (t := i); [reflexivity|reflexivity]
    | eapply step_modify with (t := i); reflexivity
    | eapply step_read with (t := i); reflexivity
    | eapply step_assert with (t := i); [reflexivity|reflexivity]
    | eapply step_notify with (t := i); [reflexivity|right; split; [repeat constructor|reflexivity]]
    | eapply step_notifyAll with (t := i); reflexivity
    | eapply step_return with (t := i); reflexivity ]|cbn].

(** stop() forgets the threads that wait in run(): with a bounded queue, a
    producer that waits for room when the pool is stopped, and whose workers have
    left, is never woken.  In the configuration below stop() and all workers have
    returned, the producer waits in run(), and no thread can move. *)
Theorem stop_strands_producer :
  ∃ c, reachable code (start (Pool [] 1 true) [[CRun 1; CRun 2; CRun 3]; [CTake]; [CStop]]) c
    ∧ running_ (shared c) = false
    ∧ threads c = [Thread [CRun 3] (Wait notFull_); Thread [] Out; Thread [] Out]
    ∧ (∀ c', ¬ step code c c').
Proof.
  eexists. split.
  - unfold reachable, start. cbn.
    do 6 by_thread 0%nat. do 7 by_thread 1%nat. do 6 by_thread 0%nat.
    do 2 by_thread 0%nat. do 5 by_thread 2%nat. apply rtc_refl.
  - split; [done|]. split; [done|]. intros c' (t & o & os & Ht & _)%step_from_out.
    + by do 3 (destruct t as [|t]; [done|]).
    + repeat constructor.
Qed.

End ThreadPool.
