(* ===== verification/Printf.v ===== *)
(** * printf, as far as the code uses it

    [%d] of a number that is not negative, and what [snprintf] does with a
    buffer of a given size: it keeps one byte for the terminator. *)
From S2P Require Import Prelude.

Fixpoint digits (fuel : nat) (n : Z) : list Z :=
  match fuel with
  | O => []
  | S fuel => if n <? 10 then [48 + n] else digits fuel (n / 10) ++ [48 + n mod 10]
  end.
Definition printf_d (n : Z) : list Z := digits 20 n.

Definition snprintf (size : nat) (bs : list Z) : list Z := take (pred size) bs.

(** Enough fuel for [k] digits gives at most [k] digits, which denote the number. *)
Lemma digits_decimal k n : (0 < k)%nat → 0 <= n < 10 ^ Z.of_nat k →
  is_decimal n (digits k n) ∧ (length (digits k n) ≤ k)%nat.
Proof.
  revert n. induction k as [|k IH]; intros n Hk Hn; [lia|]. cbn [digits]. destruct (Z.ltb_spec n 10) as [H10|H10].
  - split; [|cbn; lia]. split.
    + repeat constructor; unfold is_digit; lia.
    + unfold dec_val. cbn [foldl]. lia.
    + by exists (48 + n), [].
  - rewrite Nat2Z.inj_succ, Z.pow_succ_r in Hn by lia.
    assert (0 < n / 10 < 10 ^ Z.of_nat k) as Hq.
    { split; [apply Z.div_str_pos; lia|apply Z.div_lt_upper_bound; lia]. }
    destruct k as [|k]; [cbn in Hq; lia|].
    destruct (IH (n / 10)) as [Hd Hl]; [lia..|]. pose proof (Z.mod_pos_bound n 10 ltac:(lia)) as Hm. split.
    + replace n with (n / 10 * 10 ^ 1 + n mod 10) at 1 by (rewrite (Z.div_mod n 10) at 3; lia).
      apply is_decimal_app; [done|apply Hq| |done|].
      * repeat constructor; unfold is_digit; lia.
      * unfold dec_val. cbn [foldl]. lia.
    + rewrite length_app. cbn [length]. lia.
Qed.

Lemma printf_d_decimal n : 0 <= n < 10 ^ 20 → is_decimal n (printf_d n).
Proof. intros H. apply (digits_decimal 20); [lia|done]. Qed.

Lemma printf_d_inj n m : 0 <= n < 10 ^ 20 → 0 <= m < 10 ^ 20 → printf_d n = printf_d m → n = m.
Proof.
  intros Hn Hm E. by rewrite <-(dec_value _ _ (printf_d_decimal n Hn)), E, (dec_value _ _ (printf_d_decimal m Hm)).
Qed.

(** More fuel does not matter. *)
Lemma digits_fuel j k n : (0 < j)%nat → 0 <= n < 10 ^ Z.of_nat j → (j ≤ k)%nat → digits k n = digits j n.
Proof.
  revert k n. induction j as [|j IH]; intros k n Hj Hn Hk; [lia|]. destruct k as [|k]; [lia|].
  cbn [digits]. destruct (Z.ltb_spec n 10); [done|]. f_equal.
  rewrite Nat2Z.inj_succ, Z.pow_succ_r in Hn by lia.
  assert (0 < n / 10 < 10 ^ Z.of_nat j) by (split; [apply Z.div_str_pos; lia|apply Z.div_lt_upper_bound; lia]).
  destruct j as [|j]; [cbn in *; lia|]. apply IH; lia.
Qed.

(** An [int] has at most ten digits. *)
Lemma printf_d_int n : 0 <= n < 2 ^ 31 → (length (printf_d n) ≤ 10)%nat.
Proof.
  intros Hn. unfold printf_d. assert (0 <= n < 10 ^ Z.of_nat 10) as H by (change (10 ^ Z.of_nat 10) with 10000000000; lia).
  rewrite (digits_fuel 10) by (lia || done). apply digits_decimal; [lia|done].
Qed.
