(* ===== verification/HttpContext.v ===== *)
(** * HttpRequest.h and HttpContext.cc (muduo/net/http)

    The parser of requests, over the [Buffer] of [NetBuffer].  [HttpRequest] is
    the object that it fills, [HttpContext] the parser: its state, its request,
    and the input buffer of the connection.  A range [begin, end) of the buffer
    is the list of its bytes. *)
From S2P Require Import Prelude StdMap NetBuffer.
Import Buffer.

(** [std::find]: the position of the first [c], or the length. *)
Fixpoint find (c : Z) (l : list Z) : nat :=
  match l with
  | [] => 0
  | d :: l => if d =? c then 0 else S (find c l)
  end.

(** ** HttpRequest.h *)
Module HttpRequest.

Inductive Method := kInvalid | kGet | kPost | kHead | kPut | kDelete.
Inductive Version := kUnknown | kHttp10 | kHttp11.

#[global] Instance Method_eq_dec : EqDecision Method.
Proof. solve_decision. Defined.
#[global] Instance Version_eq_dec : EqDecision Version.
Proof. solve_decision. Defined.

Record request := Request {
  method_ : Method;
  version_ : Version;
  path_ : list Z;
  query_ : list Z;
  receiveTime_ : Z;
  headers_ : list (list Z * list Z)
}.

Definition construct : request := Request kInvalid kUnknown [] [] 0 [].

Definition io (A : Type) : Type := act request Empty_set A.

Definition setVersion (v : Version) (r : request) : request :=
  Request (method_ r) v (path_ r) (query_ r) (receiveTime_ r) (headers_ r).
Definition setPath (p : list Z) (r : request) : request :=
  Request (method_ r) (version_ r) p (query_ r) (receiveTime_ r) (headers_ r).
Definition setQuery (q : list Z) (r : request) : request :=
  Request (method_ r) (version_ r) (path_ r) q (receiveTime_ r) (headers_ r).
Definition setReceiveTime (t : Z) (r : request) : request :=
  Request (method_ r) (version_ r) (path_ r) (query_ r) t (headers_ r).

Definition method_of (m : list Z) : Method :=
  if bool_decide (m = bytes_of "GET") then kGet
  else if bool_decide (m = bytes_of "POST") then kPost
  else if bool_decide (m = bytes_of "HEAD") then kHead
  else if bool_decide (m = bytes_of "PUT") then kPut
  else if bool_decide (m = bytes_of "DELETE") then kDelete
  else kInvalid.

Definition setMethod (m : list Z) : io bool :=
  r <- get_state ;;
  cpp_assert (bool_decide (method_ r = kInvalid)) ;;;
  put_state (Request (method_of m) (version_ r) (path_ r) (query_ r) (receiveTime_ r) (headers_ r)) ;;;
  act_ret (bool_decide (method_of m ≠ kInvalid)).

Definition methodString (r : request) : list Z :=
  match method_ r with
  | kGet => bytes_of "GET"
  | kPost => bytes_of "POST"
  | kHead => bytes_of "HEAD"
  | kPut => bytes_of "PUT"
  | kDelete => bytes_of "DELETE"
  | kInvalid => bytes_of "UNKNOWN"
  end.

(** [isspace] of a [char]: defined for the codes below 128 only, the others are
    negative. *)
Definition isspace (c : Z) : io bool :=
  if c <? 128 then act_ret ((c =? 32) || ((9 <=? c) && (c <=? 13))) else undefined.

(** The loops of addHeader, from the front and from the back. *)
Fixpoint skip_space (s : list Z) : io (list Z) :=
  match s with
  | [] => act_ret []
  | c :: s' => b <- isspace c ;; if b : bool then skip_space s' else act_ret s
  end.

Definition strip_back (s : list Z) : io (list Z) :=
  r <- skip_space (rev s) ;; act_ret (rev r).

(** [line] is the range [start, end), [colon] the offset of the colon. *)
Definition addHeader (line : list Z) (colon : nat) : io () :=
  let field := take colon line in
  value <- skip_space (drop (S colon) line) ;;
  value <- strip_back value ;;
  modify (λ r, Request (method_ r) (version_ r) (path_ r) (query_ r) (receiveTime_ r)
                       (StdMap.assign field value (headers_ r))).

Definition getHeader (field : list Z) (r : request) : list Z :=
  match StdMap.find field (headers_ r) with Some v => v | None => [] end.

End HttpRequest.

(** ** HttpContext.cc *)
Module HttpContext.
Import HttpRequest.

Inductive HttpRequestParseState := kExpectRequestLine | kExpectHeaders | kExpectBody | kGotAll.

#[global] Instance ParseState_eq_dec : EqDecision HttpRequestParseState.
Proof. solve_decision. Defined.

(** The parser and the buffer that it reads. *)
Record context := Context_ {
  buf : buffer;
  state_ : HttpRequestParseState;
  request_ : request
}.

Definition io (A : Type) : Type := act context Empty_set A.

Definition on_buf {A} (m : Buffer.io A) : io A := λ c,
  let '(a, b) := m (buf c) in (a, Context_ b (state_ c) (request_ c)).
Definition on_request {A} (m : HttpRequest.io A) : io A := λ c,
  let '(a, r) := m (request_ c) in (a, Context_ (buf c) (state_ c) r).
Definition set_state (s : HttpRequestParseState) : io () :=
  modify (λ c, Context_ (buf c) s (request_ c)).

Definition gotAll (c : context) : bool := bool_decide (state_ c = kGotAll).

Definition reset : io () :=
  set_state kExpectRequestLine ;;; on_request (put_state HttpRequest.construct).

(** [line] is the range [begin, end). *)
Definition processRequestLine (line : list Z) : HttpRequest.io bool :=
  let space := find 32 line in
  if bool_decide (space < length line)%nat then
    ok <- setMethod (take space line) ;;
    if ok : bool then
      let rest := drop (S space) line in
      let space := find 32 rest in
      if bool_decide (space < length rest)%nat then
        let target := take space rest in
        let question := find 63 target in
        (if bool_decide (question < length target)%nat
         then modify (setPath (take question target)) ;;; modify (setQuery (drop question target))
         else modify (setPath target)) ;;;
        let version := drop (S space) rest in
        if bool_decide (length version = 8%nat ∧ take 7 version = bytes_of "HTTP/1.") then
          match version !! 7%nat with
          | Some 49 => modify (setVersion kHttp11) ;;; act_ret true
          | Some 48 => modify (setVersion kHttp10) ;;; act_ret true
          | _ => act_ret false
          end
        else act_ret false
      else act_ret false
    else act_ret false
  else act_ret false.

(** One round of the loop for a line: [hasMore] after it. *)
Definition header_line (line : list Z) : io bool :=
  let colon := find 58 line in
  if bool_decide (colon < length line)%nat
  then on_request (addHeader line colon) ;;; act_ret true
  else set_state kGotAll ;;; act_ret false.

(** The bytes up to the next CRLF, and its position. *)
Definition next_line : io (option (Z * list Z)) :=
  crlf <- on_buf findCRLF ;;
  match crlf with
  | None => act_ret None
  | Some crlf =>
      c <- get_state ;;
      line <- on_buf (load_at (peek (buf c)) (crlf - peek (buf c))) ;;
      act_ret (Some (crlf, line))
  end.

(** [while (hasMore)], with fuel.  In the last two states no statement of the
    loop is executed, and it does not end. *)
Fixpoint parse_loop (fuel : nat) (receiveTime : Z) : io bool :=
  match fuel with
  | O => undefined
  | S fuel =>
      c <- get_state ;;
      match state_ c with
      | kExpectRequestLine =>
          l <- next_line ;;
          match l with
          | Some (crlf, line) =>
              ok <- on_request (processRequestLine line) ;;
              if ok : bool then
                on_request (modify (setReceiveTime receiveTime)) ;;;
                on_buf (retrieveUntil (crlf + 2)) ;;;
                set_state kExpectHeaders ;;;
                parse_loop fuel receiveTime
              else act_ret false
          | None => act_ret true
          end
      | kExpectHeaders =>
          l <- next_line ;;
          match l with
          | Some (crlf, line) =>
              hasMore <- header_line line ;;
              on_buf (retrieveUntil (crlf + 2)) ;;;
              if hasMore : bool then parse_loop fuel receiveTime else act_ret true
          | None => act_ret true
          end
      | kExpectBody | kGotAll => parse_loop fuel receiveTime
      end
  end.

(** Every round takes at least two bytes, or is the last. *)
Definition parseRequest (receiveTime : Z) : io bool :=
  c <- get_state ;;
  parse_loop (S (Z.to_nat (readableBytes (buf c)))) receiveTime.

(** readFd, as TcpConnection::handleRead calls it, then the parser. *)
Definition receive (bs : list Z) (receiveTime : Z) : io bool :=
  on_buf (readFd (ReadBytes bs)) ;;; parseRequest receiveTime.

End HttpContext.
