(* ===== verification/HttpParser.v ===== *)
(** * HttpContext reads what was printed

    The parser of [HttpContext] runs as [scans] says, on any buffer
    that holds the bytes; so it reads every request back, in whatever pieces it
    arrives. *)
From S2P Require Import Prelude StdMap NetBuffer HttpContext.

(** ** The requests that HttpContext reads

    [message] and [print]: the requests that a client may send.  [scans]: what
    the parser does with the bytes of its buffer, line by line, and that it does
    not matter in which pieces the bytes arrive. *)
Import Buffer HttpRequest HttpContext.

Definition CRLF : list Z := [13; 10].

(** What a client asks for; the query starts with its question mark. *)
Record message := Message {
  m_method : Method;
  m_path : list Z;
  m_query : list Z;
  m_version : Version;
  m_headers : list (list Z * list Z)
}.

Definition method_name (m : Method) : list Z :=
  match m with
  | kGet => bytes_of "GET" | kPost => bytes_of "POST" | kHead => bytes_of "HEAD"
  | kPut => bytes_of "PUT" | kDelete => bytes_of "DELETE" | kInvalid => bytes_of "UNKNOWN"
  end.

Definition version_digit (v : Version) : Z := match v with kHttp11 => 49 | _ => 48 end.

Definition request_line (m : message) : list Z :=
  method_name (m_method m) ++ [32] ++ (m_path m ++ m_query m) ++ [32] ++
  bytes_of "HTTP/1." ++ [version_digit (m_version m)].

Definition print_header (h : list Z * list Z) : list Z := h.1 ++ [58; 32] ++ h.2.

Definition print (m : message) : list Z :=
  request_line m ++ CRLF ++
  mjoin ((λ h, print_header h ++ CRLF) <$> m_headers m) ++ CRLF.

(** A character that is certainly no white space. *)
Definition visible (c : Z) : Prop := 33 <= c < 128.

Record header_ok (h : list Z * list Z) : Prop := {
  ok_field : (58 ∉ h.1) ∧ (13 ∉ h.1);
  ok_value : 13 ∉ h.2;
  ok_first : ∀ c, head h.2 = Some c → visible c;
  ok_last : ∀ c, last h.2 = Some c → visible c
}.

Record message_ok (m : message) : Prop := {
  ok_method : m_method m ≠ kInvalid;
  ok_version : m_version m ≠ kUnknown;
  ok_path : (32 ∉ m_path m) ∧ (63 ∉ m_path m) ∧ (13 ∉ m_path m);
  ok_query : (32 ∉ m_query m) ∧ (13 ∉ m_query m) ∧ (m_query m = [] ∨ ∃ q, m_query m = 63 :: q);
  ok_headers : Forall header_ok (m_headers m)
}.

(** The request that the parser hands over; a later header replaces an earlier
    one of the same name. *)
Definition request_of (m : message) : request :=
  Request (m_method m) (m_version m) (m_path m) (m_query m) 0
    (foldl (λ hs h, StdMap.assign h.1 h.2 hs) [] (m_headers m)).

(** ** Scanning, on the bytes: one line after the other *)

Definition line_of (q : list Z) : option (list Z * list Z) :=
  (λ i, (ztake i q, zdrop (i + 2) q)) <$> search_crlf q.

Inductive scans : HttpRequestParseState → request → list Z →
    bool → HttpRequestParseState → request → list Z → Prop :=
| scans_wait st r q :
    st = kExpectRequestLine ∨ st = kExpectHeaders →
    line_of q = None → scans st r q true st r q
| scans_bad r q line rest r' :
    line_of q = Some (line, rest) → processRequestLine line r = (Val false, r') →
    scans kExpectRequestLine r q false kExpectRequestLine r' q
| scans_request r q line rest r' ok st2 r2 q2 :
    line_of q = Some (line, rest) → processRequestLine line r = (Val true, r') →
    scans kExpectHeaders r' rest ok st2 r2 q2 →
    scans kExpectRequestLine r q ok st2 r2 q2
| scans_header r q line rest r' ok st2 r2 q2 :
    line_of q = Some (line, rest) → (find 58 line < length line)%nat →
    addHeader line (find 58 line) r = (Val tt, r') →
    scans kExpectHeaders r' rest ok st2 r2 q2 →
    scans kExpectHeaders r q ok st2 r2 q2
| scans_end r q line rest :
    line_of q = Some (line, rest) → (length line ≤ find 58 line)%nat →
    scans kExpectHeaders r q true kGotAll r rest.

Lemma find_app c l r : c ∉ l → find c (l ++ [c] ++ r) = length l.
Proof.
  induction l as [|d l IH]; intros Hn; cbn; [by rewrite Z.eqb_refl|].
  rewrite (proj2 (Z.eqb_neq d c)) by set_solver. f_equal. apply IH. set_solver.
Qed.

Lemma find_absent c l : c ∉ l → find c l = length l.
Proof.
  induction l as [|d l IH]; intros Hn; cbn; [done|].
  rewrite (proj2 (Z.eqb_neq d c)) by set_solver. f_equal. apply IH. set_solver.
Qed.

Lemma search_crlf_bound q i : search_crlf q = Some i → 0 <= i ∧ i + 2 <= zlen q.
Proof.
  revert i. induction q as [|c q IH]; intros i Hi; [done|]. cbn in Hi.
  destruct q as [|d q]; [done|]. destruct ((c =? 13) && (d =? 10)).
  - simplify_eq. rewrite !zlen_cons. pose proof (zlen_nonneg q). lia.
  - apply fmap_Some in Hi as (j & Hj & ->). apply IH in Hj. rewrite zlen_cons. lia.
Qed.

Lemma search_crlf_app q x i : search_crlf q = Some i → search_crlf (q ++ x) = Some i.
Proof.
  revert i. induction q as [|c q IH]; intros i Hi; [done|]. cbn in Hi |- *.
  destruct q as [|d q]; [done|]. cbn [app]. destruct ((c =? 13) && (d =? 10)); [done|].
  apply fmap_Some in Hi as (j & Hj & ->). apply IH in Hj. cbn [app] in Hj. by rewrite Hj.
Qed.

Lemma search_crlf_print line rest :
  13 ∉ line → search_crlf (line ++ CRLF ++ rest) = Some (zlen line).
Proof.
  induction line as [|c line IH]; intros Hn; [done|].
  cbn [app search_crlf]. rewrite IH by set_solver. cbn.
  rewrite (proj2 (Z.eqb_neq c 13)) by set_solver. rewrite zlen_cons.
  destruct (line ++ 13 :: 10 :: rest) eqn:Heq; [by destruct line|].
  cbn. f_equal. lia.
Qed.


(** *** Lines *)

Lemma line_of_inv q line rest :
  line_of q = Some (line, rest) → search_crlf q = Some (zlen line) ∧ zlen q = zlen line + 2 + zlen rest
    ∧ line = ztake (zlen line) q ∧ rest = zdrop (zlen line + 2) q.
Proof.
  unfold line_of. intros (i & Hi & Heq)%fmap_Some. simplify_eq.
  pose proof (search_crlf_bound _ _ Hi) as Hb.
  assert (zlen (ztake i q) = i) as Hz by (rewrite zlen_ztake by lia; lia). rewrite Hz.
  rewrite zlen_zdrop by lia. split_and!; [done|lia|done|done].
Qed.

Lemma line_of_app q x line rest :
  line_of q = Some (line, rest) → line_of (q ++ x) = Some (line, rest ++ x).
Proof.
  intros Hl. destruct (line_of_inv _ _ _ Hl) as (Hs & Hz & Ht & Hd).
  pose proof (zlen_nonneg line). pose proof (zlen_nonneg rest).
  unfold line_of. rewrite (search_crlf_app _ _ _ Hs). cbn. do 2 f_equal.
  - unfold ztake in *. rewrite take_app_le; [done|]. unfold zlen in *. lia.
  - unfold zdrop in *. rewrite drop_app_le; [by rewrite <-Hd|]. unfold zlen in *. lia.
Qed.

Lemma line_of_print line rest :
  13 ∉ line → line_of (line ++ CRLF ++ rest) = Some (line, rest).
Proof.
  intros Hn. unfold line_of. rewrite search_crlf_print by done. cbn [fmap option_fmap option_map].
  rewrite ztake_app by done. rewrite (assoc_L (++)). rewrite zdrop_app; [done|].
  rewrite zlen_app. done.
Qed.

(** *** Pieces *)

(** If a request is complete only with the bytes [x], then without them the
    parser waits, and goes on when they come. *)
Lemma scans_prefix st r q x st' r' rest :
  scans st r (q ++ x) true st' r' rest → st' = kGotAll → zlen rest < zlen x →
  ∃ st1 r1 q1, scans st r q true st1 r1 q1 ∧ st1 ≠ kGotAll ∧
    scans st1 r1 (q1 ++ x) true kGotAll r' rest ∧ zlen q1 <= zlen q.
Proof.
  intros Hs. remember (q ++ x) as qx eqn:Hq. remember true as ok eqn:Hok. revert q Hq.
  induction Hs as [st r qx Hst Hl|r qx line rest r' Hl Hp|r qx line rest r' ok st2 r2 q2 Hl Hp Hs IH
    |r qx line rest r' ok st2 r2 q2 Hl Hc Ha Hs IH|r qx line rest Hl Hc];
    intros q -> Hst' Hlt; simplify_eq; try (by destruct Hst; simplify_eq).
  - destruct (line_of q) as [[line' rest']|] eqn:Hl'.
    + rewrite (line_of_app _ _ _ _ Hl') in Hl. simplify_eq.
      destruct (IH eq_refl rest' eq_refl eq_refl Hlt) as (st1 & r1 & q1 & H1 & H2 & H3 & H4).
      exists st1, r1, q1. split_and!; [by eapply scans_request|done|done|].
      pose proof (line_of_inv _ _ _ Hl') as (_ & Hz & _). pose proof (zlen_nonneg line). lia.
    + exists kExpectRequestLine, r, q. split_and!; [by apply scans_wait; auto|done| |lia].
      by eapply scans_request.
  - destruct (line_of q) as [[line' rest']|] eqn:Hl'.
    + rewrite (line_of_app _ _ _ _ Hl') in Hl. simplify_eq.
      destruct (IH eq_refl rest' eq_refl eq_refl Hlt) as (st1 & r1 & q1 & H1 & H2 & H3 & H4).
      exists st1, r1, q1. split_and!; [by eapply scans_header|done|done|].
      pose proof (line_of_inv _ _ _ Hl') as (_ & Hz & _). pose proof (zlen_nonneg line). lia.
    + exists kExpectHeaders, r, q. split_and!; [by apply scans_wait; auto|done| |lia].
      by eapply scans_header.
  - destruct (line_of q) as [[line' rest']|] eqn:Hl'.
    + rewrite (line_of_app _ _ _ _ Hl') in Hl. simplify_eq. rewrite zlen_app in Hlt.
      pose proof (zlen_nonneg rest'). lia.
    + exists kExpectHeaders, r, q. split_and!; [by apply scans_wait; auto|done| |lia].
      by eapply scans_end.
Qed.

(** *** A printed request is scanned *)

Lemma skip_space_visible s r :
  (∀ c, head s = Some c → visible c) → skip_space s r = (Val s, r).
Proof.
  intros Hc. destruct s as [|c s]; [done|]. specialize (Hc c eq_refl). unfold visible in Hc.
  cbn. unfold act_bind, isspace. rewrite (proj2 (Z.ltb_lt c 128)) by lia. cbn.
  rewrite (proj2 (Z.eqb_neq c 32)) by lia.
  rewrite (proj2 (Z.leb_gt c 13)) by lia. by rewrite andb_false_r.
Qed.

Lemma strip_back_visible s r :
  (∀ c, last s = Some c → visible c) → strip_back s r = (Val s, r).
Proof.
  intros Hc. unfold strip_back, act_bind. rewrite skip_space_visible.
  - unfold act_ret. by rewrite rev_involutive.
  - intros c. rewrite rev_alt. change (rev_append s []) with (reverse s). rewrite head_reverse. apply Hc.
Qed.

Lemma addHeader_print h r :
  header_ok h →
  find 58 (print_header h) = length h.1 ∧ (length h.1 < length (print_header h))%nat ∧
  addHeader (print_header h) (length h.1) r =
    (Val tt, Request (method_ r) (version_ r) (path_ r) (query_ r) (receiveTime_ r)
                     (StdMap.assign h.1 h.2 (headers_ r))).
Proof.
  intros [[Hf _] _ Hfi Hla]. destruct h as [f v]. cbn [fst snd] in *. unfold print_header. cbn [fst snd].
  split_and!; [by apply (find_app 58 f (32 :: v))|rewrite !length_app; cbn; lia|].
  unfold addHeader. rewrite take_app_length.
  replace (drop (S (length f)) (f ++ [58; 32] ++ v)) with (32 :: v).
  2: { rewrite drop_app_ge by lia. by replace (S (length f) - length f)%nat with 1%nat by lia. }
  unfold act_bind. cbn [skip_space]. unfold act_bind. change (isspace 32 r) with (@Val Empty_set bool true, r).
  cbv iota beta. rewrite skip_space_visible by done. rewrite strip_back_visible by done. done.
Qed.

Lemma scans_headers hs r rest :
  Forall header_ok hs →
  scans kExpectHeaders r (mjoin ((λ h, print_header h ++ CRLF) <$> hs) ++ CRLF ++ rest) true kGotAll
    (Request (method_ r) (version_ r) (path_ r) (query_ r) (receiveTime_ r)
       (foldl (λ hs h, StdMap.assign h.1 h.2 hs) (headers_ r) hs)) rest.
Proof.
  intros Hok. revert r. induction Hok as [|h hs Hh Hok IH]; intros r.
  - cbn. destruct r. eapply scans_end with (line := []); [apply (line_of_print []); set_solver|done].
  - cbn [fmap list_fmap mjoin list_join]. destruct (addHeader_print h r Hh) as (Hfind & Hlt & Hadd).
    rewrite <- !(assoc_L (++)).
    eapply scans_header.
    + apply line_of_print. destruct Hh as [[_ Hf] Hv _ _]. unfold print_header. set_solver.
    + by rewrite Hfind.
    + rewrite Hfind. exact Hadd.
    + apply (IH (Request _ _ _ _ _ _)).
Qed.

Lemma drop_past {A} (l : list A) x r : drop (S (length l)) (l ++ [x] ++ r) = r.
Proof.
  rewrite drop_app_ge by lia. by replace (S (length l) - length l)%nat with 1%nat by lia.
Qed.

Lemma method_of_name m : m ≠ kInvalid → method_of (method_name m) = m ∧ (32 ∉ method_name m) ∧ (13 ∉ method_name m).
Proof.
  intros Hm. destruct m; try done; (split; [reflexivity|]);
    split; refine (bool_decide_unpack _ _); vm_compute; exact I.
Qed.

Lemma setMethod_ok m r :
  m ≠ kInvalid → method_ r = kInvalid →
  setMethod (method_name m) r =
    (Val true, Request m (version_ r) (path_ r) (query_ r) (receiveTime_ r) (headers_ r)).
Proof.
  intros Hm Hr. destruct (method_of_name _ Hm) as [Heq _].
  unfold setMethod, act_bind, get_state, cpp_assert, put_state, act_ret.
  rewrite bool_decide_true by done. rewrite Heq. by rewrite bool_decide_true.
Qed.

(** The target of the request line: path, and query if there is one. *)
Lemma target_split m r :
  message_ok m → query_ r = [] →
  (if bool_decide (find 63 (m_path m ++ m_query m) < length (m_path m ++ m_query m))%nat
   then modify (setPath (take (find 63 (m_path m ++ m_query m)) (m_path m ++ m_query m))) ;;;
        modify (setQuery (drop (find 63 (m_path m ++ m_query m)) (m_path m ++ m_query m)))
   else modify (setPath (m_path m ++ m_query m))) r
  = (@Val Empty_set () tt,
     Request (method_ r) (version_ r) (m_path m) (m_query m) (receiveTime_ r) (headers_ r)).
Proof.
  intros [_ _ (_ & Hp & _) (_ & _ & [Hq|[q Hq]]) _] Hr; rewrite Hq.
  - rewrite app_nil_r, find_absent by done. rewrite bool_decide_false by lia.
    unfold modify, setPath. by rewrite Hr.
  - pose proof (find_app 63 (m_path m) q Hp) as Hf. cbn [app] in Hf. rewrite Hf.
    rewrite bool_decide_true by (rewrite length_app; cbn; lia).
    by rewrite take_app_length, drop_app_length.
Qed.

Lemma processRequestLine_print m r :
  message_ok m → method_ r = kInvalid → query_ r = [] →
  processRequestLine (request_line m) r =
    (Val true, Request (m_method m) (m_version m) (m_path m) (m_query m) (receiveTime_ r) (headers_ r)).
Proof.
  intros Hm Hr Hqr. pose proof Hm as [Hme Hve (Hp32 & _ & _) (Hq32 & _ & _) _].
  destruct (method_of_name _ Hme) as (_ & Hn & _).
  assert (32 ∉ m_path m ++ m_query m) as Ht by set_solver.
  unfold processRequestLine, request_line. rewrite (find_app 32 (method_name _)) by done.
  rewrite bool_decide_true by (rewrite !length_app; cbn; lia).
  rewrite take_app_length, drop_past, find_app by done.
  rewrite (act_bind_val _ _ _ _ _ (setMethod_ok _ _ Hme Hr)).
  rewrite bool_decide_true by (rewrite !length_app; cbn; lia).
  rewrite take_app_length, drop_past. cbv zeta.
  rewrite (act_bind_val _ _ _ _ _ (target_split m (Request (m_method m) (version_ r) (path_ r) (query_ r) (receiveTime_ r) (headers_ r)) Hm Hqr)).
  destruct (m_version m); [done|reflexivity..].
Qed.

Lemma request_line_no_cr m : message_ok m → 13 ∉ request_line m.
Proof.
  intros [Hme Hve (_ & _ & Hp) (_ & Hq & _) _]. destruct (method_of_name _ Hme) as (_ & _ & Hn).
  unfold request_line. rewrite !not_elem_of_app. split_and!; try done; try set_solver.
  all: destruct (m_version m); refine (bool_decide_unpack _ _); vm_compute; exact I.
Qed.

(** From a new request, the bytes of [print m] make [request_of m]. *)
Lemma scans_print m rest :
  message_ok m →
  scans kExpectRequestLine construct (print m ++ rest) true kGotAll (request_of m) rest.
Proof.
  intros Hm. unfold print. rewrite <-!(assoc_L (++)).
  eapply scans_request.
  - by apply line_of_print, request_line_no_cr.
  - by apply processRequestLine_print.
  - apply (scans_headers _ (Request _ _ _ _ _ _)). apply Hm.
Qed.

Import Buffer HttpRequest HttpContext.

(** ** What does not depend on the time of receipt *)

Definition timeless {A} (m : HttpRequest.io A) : Prop :=
  ∀ t r, m (setReceiveTime t r) = ((m r).1, setReceiveTime t (m r).2).

Create HintDb timeless.

Lemma timeless_ret {A} (a : A) : timeless (act_ret a).
Proof. done. Qed.
Lemma timeless_undefined {A} : timeless (@undefined _ _ A).
Proof. done. Qed.
Lemma timeless_bind {A B} (m : HttpRequest.io A) (f : A → HttpRequest.io B) :
  timeless m → (∀ a, timeless (f a)) → timeless (act_bind m f).
Proof.
  intros Hm Hf t r. unfold act_bind. rewrite Hm. destruct (m r) as [[a|e| |] r']; cbn; try done.
  apply Hf.
Qed.
Lemma timeless_modify f :
  (∀ t r, f (setReceiveTime t r) = setReceiveTime t (f r)) → timeless (modify f).
Proof. intros Hf t r. unfold modify. by rewrite Hf. Qed.
Lemma timeless_if {A} (b : bool) (m n : HttpRequest.io A) :
  timeless m → timeless n → timeless (if b then m else n).
Proof. by destruct b. Qed.
Lemma timeless_setMethod m : timeless (setMethod m).
Proof.
  intros t r. unfold setMethod, act_bind, get_state, cpp_assert, put_state, act_ret. cbn.
  by case_bool_decide.
Qed.
#[local] Hint Resolve timeless_ret timeless_undefined timeless_bind timeless_modify timeless_if
  timeless_setMethod : timeless.

Lemma timeless_isspace c : timeless (isspace c).
Proof. unfold isspace. auto with timeless. Qed.
#[local] Hint Resolve timeless_isspace : timeless.

Lemma timeless_skip_space s : timeless (skip_space s).
Proof. induction s as [|c s IH]; cbn; auto with timeless. Qed.
#[local] Hint Resolve timeless_skip_space : timeless.

Lemma timeless_addHeader line colon : timeless (addHeader line colon).
Proof. unfold addHeader, strip_back. auto 10 with timeless. Qed.

Lemma timeless_processRequestLine line : timeless (processRequestLine line).
Proof.
  unfold processRequestLine. apply timeless_if; [|done]. apply timeless_bind; [auto with timeless|].
  intros ok. apply timeless_if; [|done]. apply timeless_if; [|done].
  apply timeless_bind; [auto 10 with timeless|]. intros _. apply timeless_if; [|done].
  repeat case_match; auto with timeless.
Qed.

(** A run with the time left out is a run. *)
Lemma timeless_run {A} (m : HttpRequest.io A) r a r' :
  timeless m → m (setReceiveTime 0 r) = (Val a, r') →
  ∃ r'', m r = (Val a, r'') ∧ setReceiveTime 0 r'' = r'.
Proof.
  intros Hm Hr. rewrite Hm in Hr. destruct (m r) as [o r''] eqn:Heq. cbn in Hr. simplify_eq. eauto.
Qed.

(** ** The parser and the scanner *)

(** The context is in state [st], has read [r], and [q] is in its buffer. *)
Record rep (c : context) (st : HttpRequestParseState) (r : request) (q : list Z) : Prop := {
  rep_buf : ∃ room, holds (buf c) q room;
  rep_state : state_ c = st;
  rep_request : setReceiveTime 0 (request_ c) = r
}.

Lemma on_buf_val {A} (m : Buffer.io A) c a b :
  m (buf c) = (Val a, b) → on_buf m c = (Val a, Context_ b (state_ c) (request_ c)).
Proof. intros Hm. unfold on_buf. by rewrite Hm. Qed.

Lemma on_request_val {A} (m : HttpRequest.io A) c a r :
  m (request_ c) = (Val a, r) → on_request m c = (Val a, Context_ (buf c) (state_ c) r).
Proof. intros Hm. unfold on_request. by rewrite Hm. Qed.

Lemma context_eta c : Context_ (buf c) (state_ c) (request_ c) = c.
Proof. by destruct c. Qed.

Lemma next_line_spec c st r q :
  rep c st r q →
  next_line c = (Val ((λ l, (peek (buf c) + zlen l.1, l.1)) <$> line_of q), c).
Proof.
  intros [[room Hb] _ _]. destruct (NetBufferRefinement.find_all_returns _ _ _ Hb) as [Hf _].
  unfold returns in Hf. unfold next_line. rewrite (act_bind_val _ _ _ _ _ (on_buf_val _ _ _ _ Hf)).
  rewrite context_eta. destruct (line_of q) as [[line rest]|] eqn:Hl.
  - destruct (line_of_inv _ _ _ Hl) as (Hs & Hz & Ht & _). rewrite Hs. cbn [fmap option_fmap option_map fst].
    act_step.
    pose proof (zlen_nonneg line). pose proof (zlen_nonneg rest).
    pose proof (load_peek _ _ _ (zlen line) Hb ltac:(lia)) as Hload. unfold returns in Hload.
    replace (peek (buf c) + 0 + zlen line - peek (buf c)) with (zlen line) by lia.
    rewrite (act_bind_val _ _ _ _ _ (on_buf_val _ _ _ _ Hload)). rewrite context_eta, <-Ht, Z.add_0_r. done.
  - unfold line_of in Hl. apply fmap_None in Hl. by rewrite Hl.
Qed.

Lemma retrieve_line c st r q line rest :
  rep c st r q → line_of q = Some (line, rest) →
  ∃ c', on_buf (retrieveUntil (peek (buf c) + zlen line + 2)) c = (Val (), c') ∧
    rep c' st r rest ∧ state_ c' = state_ c ∧ request_ c' = request_ c ∧
    zlen (buffer_ (buf c')) = zlen (buffer_ (buf c)).
Proof.
  intros [[room Hb] Hst Hr] Hl. destruct (line_of_inv _ _ _ Hl) as (Hs & Hz & _ & Hd).
  pose proof (zlen_nonneg line). pose proof (zlen_nonneg rest). pose proof (h_writer _ _ _ Hb).
  destruct (retrieve_spec _ _ _ (zlen line + 2) Hb) as (b' & Hret & Hb' & Hlen); [lia|].
  eexists. split.
  - apply on_buf_val. unfold retrieveUntil. act_step. unfold peek, beginWrite.
    rewrite assert_step by (apply Z.leb_le; lia). rewrite assert_step by (apply Z.leb_le; lia).
    replace (readerIndex_ (buf c) + zlen line + 2 - readerIndex_ (buf c)) with (zlen line + 2) by lia.
    exact Hret.
  - split_and!; try done. split; cbn; [|done..]. rewrite Hd. eauto.
Qed.

Lemma on_request_rep {A} (m : HttpRequest.io A) c st r q a r' :
  rep c st r q → timeless m → m r = (Val a, r') →
  ∃ c', on_request m c = (Val a, c') ∧ rep c' st r' q ∧ buf c' = buf c.
Proof.
  intros [Hb Hst Hr] Hm Hrun. rewrite <-Hr in Hrun.
  destruct (timeless_run _ _ _ _ Hm Hrun) as (r'' & H1 & H2).
  eexists. split; [by apply on_request_val|]. by split.
Qed.

Lemma parse_loop_scans st r q ok st' r' q' :
  scans st r q ok st' r' q' → ∀ fuel t c,
  rep c st r q → (length q < fuel)%nat →
  ∃ c', parse_loop fuel t c = (Val ok, c') ∧ rep c' st' r' q' ∧
        zlen (buffer_ (buf c')) = zlen (buffer_ (buf c)).
Proof.
  induction 1 as [st r q Hst Hl|r q line rest r' Hl Hp|r q line rest r' ok st2 r2 q2 Hl Hp Hs IH
    |r q line rest r' ok st2 r2 q2 Hl Hc Ha Hs IH|r q line rest Hl Hc]; intros fuel t c Hrep Hfuel;
    (destruct fuel as [|fuel]; [lia|]);
    cbn [parse_loop]; act_step; rewrite (rep_state _ _ _ _ Hrep);
    pose proof (next_line_spec _ _ _ _ Hrep) as Hnext; rewrite Hl in Hnext; cbn in Hnext.
  - destruct Hst as [-> | ->]; rewrite (act_bind_val _ _ _ _ _ Hnext); by exists c.
  - rewrite (act_bind_val _ _ _ _ _ Hnext).
    destruct (on_request_rep _ _ _ _ _ _ _ Hrep (timeless_processRequestLine line) Hp) as (c1 & H1 & Hr1 & Hb1).
    rewrite (act_bind_val _ _ _ _ _ H1). exists c1. by rewrite Hb1.
  - rewrite (act_bind_val _ _ _ _ _ Hnext).
    destruct (on_request_rep _ _ _ _ _ _ _ Hrep (timeless_processRequestLine line) Hp) as (c1 & H1 & Hr1 & Hb1).
    rewrite (act_bind_val _ _ _ _ _ H1).
    set (c2 := Context_ (buf c1) (state_ c1) (setReceiveTime t (request_ c1))).
    assert (rep c2 kExpectRequestLine r' q) as Hr2 by (destruct Hr1; by split).
    assert (on_request (modify (setReceiveTime t)) c1 = (Val (), c2)) as H2 by done.
    rewrite (act_bind_val _ _ _ _ _ H2).
    destruct (retrieve_line _ _ _ _ _ _ Hr2 Hl) as (c3 & H3 & Hr3 & _ & _ & Hz3).
    cbn [buf c2] in H3. rewrite Hb1 in H3. rewrite (act_bind_val _ _ _ _ _ H3). act_step.
    destruct (IH fuel t (Context_ (buf c3) kExpectHeaders (request_ c3))) as (c' & Hc' & Hr' & Hz').
    { destruct Hr3. by split. }
    { destruct (line_of_inv _ _ _ Hl) as (_ & Hz & _). pose proof (zlen_nonneg line). unfold zlen in *. lia. }
    exists c'. split; [exact Hc'|]. split; [done|]. cbn [buf] in Hz'. rewrite Hz', Hz3. cbn [c2 buf]. by rewrite Hb1.
  - rewrite (act_bind_val _ _ _ _ _ Hnext).
    destruct (on_request_rep _ _ _ _ _ _ _ Hrep (timeless_addHeader line _) Ha) as (c1 & H1 & Hr1 & Hb1).
    unfold header_line. rewrite bool_decide_true by done. rewrite act_bind_assoc.
    rewrite (act_bind_val _ _ _ _ _ H1). act_step.
    destruct (retrieve_line _ _ _ _ _ _ Hr1 Hl) as (c3 & H3 & Hr3 & _ & _ & Hz3).
    rewrite Hb1 in H3. rewrite (act_bind_val _ _ _ _ _ H3).
    destruct (IH fuel t c3 Hr3) as (c' & Hc' & Hr' & Hz').
    { destruct (line_of_inv _ _ _ Hl) as (_ & Hz & _). pose proof (zlen_nonneg line). unfold zlen in *. lia. }
    exists c'. split; [exact Hc'|]. split; [done|]. by rewrite Hz', Hz3, Hb1.
  - rewrite (act_bind_val _ _ _ _ _ Hnext).
    unfold header_line. rewrite bool_decide_false by lia. rewrite act_bind_assoc. act_step. act_step.
    set (c1 := Context_ (buf c) kGotAll (request_ c)).
    assert (rep c1 kGotAll r q) as Hr1 by (destruct Hrep; by split).
    destruct (retrieve_line _ _ _ _ _ _ Hr1 Hl) as (c3 & H3 & Hr3 & _ & _ & Hz3).
    cbn [buf c1] in H3. rewrite (act_bind_val _ _ _ _ _ H3). by exists c3.
Qed.

Lemma parseRequest_scans st r q ok st' r' q' t c :
  scans st r q ok st' r' q' → rep c st r q →
  ∃ c', parseRequest t c = (Val ok, c') ∧ rep c' st' r' q' ∧
        zlen (buffer_ (buf c')) = zlen (buffer_ (buf c)).
Proof.
  intros Hs Hrep. unfold parseRequest. act_step. eapply parse_loop_scans; [done..|].
  destruct Hrep as [[room Hb] _ _]. rewrite (readable_spec _ _ _ Hb). unfold zlen. lia.
Qed.

(** A piece of at most 64 kB arrives. *)
Lemma readFd_rep c st r q bs :
  rep c st r q → zlen bs <= extrabuf_size → zlen (buffer_ (buf c)) + zlen bs < 2 ^ 31 →
  ∃ c', on_buf (readFd (ReadBytes bs)) c = (Val (zlen bs), c') ∧ rep c' st r (q ++ bs) ∧
        zlen (buffer_ (buf c')) <= zlen (buffer_ (buf c)) + zlen bs.
Proof.
  intros [[room Hb] Hst Hr] Hbs Hm. destruct (writable_spec _ _ _ Hb) as [_ Hw].
  destruct (readFd_spec _ _ _ bs Hb Hm) as (b' & Hret & Hb' & Hlen).
  { destruct (Z.ltb_spec (writableBytes (buf c)) extrabuf_size); lia. }
  eexists. split; [by apply on_buf_val|]. split; [|done]. split; cbn; eauto.
Qed.

Lemma receive_scans c st r q bs t ok st' r' q' :
  rep c st r q → zlen bs <= extrabuf_size → zlen (buffer_ (buf c)) + zlen bs < 2 ^ 31 →
  scans st r (q ++ bs) ok st' r' q' →
  ∃ c', receive bs t c = (Val ok, c') ∧ rep c' st' r' q' ∧
        zlen (buffer_ (buf c')) <= zlen (buffer_ (buf c)) + zlen bs.
Proof.
  intros Hrep Hbs Hm Hs. destruct (readFd_rep _ _ _ _ _ Hrep Hbs Hm) as (c1 & H1 & Hr1 & Hz1).
  destruct (parseRequest_scans _ _ _ _ _ _ _ t _ Hs Hr1) as (c2 & H2 & Hr2 & Hz2).
  exists c2. unfold receive. rewrite (act_bind_val _ _ _ _ _ H1). split_and!; [done..|lia].
Qed.

(** A sequence of pieces, with their times; the answers of parseRequest. *)
Fixpoint receive_all (ps : list (list Z * Z)) : io (list (bool * bool)) :=
  match ps with
  | [] => act_ret []
  | (bs, t) :: ps =>
      ok <- receive bs t ;;
      c <- get_state ;;
      r <- receive_all ps ;;
      act_ret ((ok, gotAll c) :: r)
  end.

Definition bytes_in (ps : list (list Z * Z)) : list Z := mjoin (fst <$> ps).
#[global] Arguments bytes_in : simpl never.

Lemma bytes_in_cons b t ps : bytes_in ((b, t) :: ps) = b ++ bytes_in ps.
Proof. done. Qed.

Lemma receive_pieces ps : ∀ c st r q bs t r' rest,
  rep c st r q → st ≠ kGotAll →
  Forall (λ p, zlen p.1 <= extrabuf_size) ps → zlen bs <= extrabuf_size →
  zlen (buffer_ (buf c)) + zlen (bytes_in ps) + zlen bs < 2 ^ 31 →
  scans st r (q ++ bytes_in ps ++ bs) true kGotAll r' rest → zlen rest < zlen bs →
  ∃ c', receive_all (ps ++ [(bs, t)]) c = (Val (replicate (length ps) (true, false) ++ [(true, true)]), c')
    ∧ rep c' kGotAll r' rest.
Proof.
  induction ps as [|[b1 t1] ps IH]; intros c st r q bs t r' rest Hrep Hst Hps Hbs Hm Hs Hlt.
  - change (bytes_in []) with (@nil Z) in Hs, Hm. cbn [app] in Hs. rewrite zlen_nil in Hm.
    destruct (receive_scans _ _ _ _ _ t _ _ _ _ Hrep Hbs ltac:(lia) Hs) as (c1 & Hc1 & Hr1 & _).
    exists c1. cbn. rewrite (act_bind_val _ _ _ _ _ Hc1). act_step. act_step. split; [|done].
    unfold act_ret, gotAll. rewrite (rep_state _ _ _ _ Hr1). done.
  - apply Forall_cons in Hps as [Hb1 Hps]. cbn [fst] in Hb1.
    rewrite bytes_in_cons in Hs, Hm. rewrite <-(assoc_L (++)), (assoc_L (++) q) in Hs. rewrite zlen_app in Hm.
    pose proof (zlen_nonneg (bytes_in ps)). pose proof (zlen_nonneg bs). pose proof (zlen_nonneg b1).
    destruct (scans_prefix _ _ _ _ _ _ _ Hs eq_refl) as (st1 & r1 & q1 & Hs1 & Hst1 & Hs2 & _).
    { rewrite zlen_app. lia. }
    destruct (receive_scans _ _ _ _ _ t1 _ _ _ _ Hrep Hb1 ltac:(lia) Hs1) as (c1 & Hc1 & Hr1 & Hz1).
    destruct (IH c1 st1 r1 q1 bs t r' rest) as (c' & Hc' & Hr'); [done..|lia|done|done|].
    exists c'. cbn [receive_all app]. rewrite (act_bind_val _ _ _ _ _ Hc1). act_step.
    rewrite (act_bind_val _ _ _ _ _ Hc'). split; [|done].
    unfold act_ret, gotAll. rewrite (rep_state _ _ _ _ Hr1), bool_decide_false by done. done.
Qed.

(** A new connection. *)
Definition fresh : context := Context_ (Buffer.construct kInitialSize) kExpectRequestLine HttpRequest.construct.

Lemma fresh_rep : rep fresh kExpectRequestLine HttpRequest.construct [] ∧ zlen (buffer_ (buf fresh)) = 1032.
Proof.
  destruct (buffer_construct_holds kInitialSize) as (Hc & _ & Hz); [unfold kInitialSize; lia..|].
  split; [split; cbn; eauto|done].
Qed.

(** C4: the parser reads every well-formed request back, in whatever pieces of
    at most 64 kB its bytes arrive: every piece is accepted, the request is
    complete with the piece that brings its last byte and not before, the
    request has the method, path, query, version and headers that were sent, and
    what follows the request stays in the buffer.  No assertion fails, nothing
    undefined happens, and the loops end. *)
Theorem http_request_roundtrip m ps bs t rest :
  message_ok m →
  bytes_in ps ++ bs = print m ++ rest → zlen rest < zlen bs →
  Forall (λ p, zlen p.1 <= extrabuf_size) ps → zlen bs <= extrabuf_size →
  zlen (print m ++ rest) < 2 ^ 31 - 1032 →
  ∃ c, returns (receive_all (ps ++ [(bs, t)])) fresh
         (replicate (length ps) (true, false) ++ [(true, true)]) c
    ∧ state_ c = kGotAll ∧ setReceiveTime 0 (request_ c) = request_of m
    ∧ ∃ room, holds (buf c) rest room.
Proof.
  intros Hm Hbytes Hlt Hps Hbs Hmax. destruct fresh_rep as [Hfresh Hz].
  destruct (receive_pieces ps fresh _ _ _ bs t (request_of m) rest Hfresh) as (c & Hc & [Hb Hst Hr]).
  - done.
  - done.
  - done.
  - rewrite Hz. rewrite <-Hbytes, zlen_app in Hmax. lia.
  - rewrite app_nil_l, Hbytes. by apply scans_print.
  - done.
  - by exists c.
Qed.

Definition example : message :=
  Message kGet (bytes_of "/index.html") (bytes_of "?a=b") kHttp11
    [(bytes_of "Host", bytes_of "example.org"); (bytes_of "Accept", [])].

Lemma example_ok : message_ok example.
Proof.
  split; try done.
  - split_and!; refine (bool_decide_unpack _ _); vm_compute; exact I.
  - split_and!; [refine (bool_decide_unpack _ _); vm_compute; exact I..|right; eexists; reflexivity].
  - apply Forall_cons_2; [|apply Forall_cons_2; [|apply Forall_nil_2]].
    + split; [split; refine (bool_decide_unpack _ _); vm_compute; exact I
             |refine (bool_decide_unpack _ _); vm_compute; exact I| |];
        intros c [= <-]; unfold visible; lia.
    + split; [split; refine (bool_decide_unpack _ _); vm_compute; exact I
             |refine (bool_decide_unpack _ _); vm_compute; exact I|by intros c [=]|by intros c [=]].
Qed.

(** The request in two pieces, with the start of the next one behind it. *)
Lemma http_request_roundtrip_witness :
  ∃ c, returns (receive_all [(take 20 (print example), 5); (drop 20 (print example) ++ bytes_of "GE", 6)])
         fresh [(true, false); (true, true)] c
    ∧ state_ c = kGotAll ∧ setReceiveTime 0 (request_ c) = request_of example
    ∧ ∃ room, holds (buf c) (bytes_of "GE") room.
Proof.
  refine (http_request_roundtrip example [(take 20 (print example), 5)]
    (drop 20 (print example) ++ bytes_of "GE") 6 (bytes_of "GE") example_ok _ _ _ _ _).
  - by vm_compute.
  - by vm_compute.
  - apply Forall_cons_2; [|apply Forall_nil_2]. vm_compute. congruence.
  - vm_compute. congruence.
  - by vm_compute.
Defined.

(** ** After a bad request

    HttpServer::onMessage answers a request line that does not parse with 400 and
    shuts down its side of the connection, but it does not reset the context, and
    the line stays in the buffer.  When anything else arrives, the line is parsed
    again: if its method was good, the assertion of setMethod fails. *)
Theorem bad_request_aborts line bs t1 t2 r :
  13 ∉ line → zlen line + 2 + zlen bs <= extrabuf_size →
  processRequestLine line HttpRequest.construct = (Val false, r) → method_ r ≠ kInvalid →
  ∃ c, returns (receive (line ++ CRLF) t1) fresh false c ∧ (receive bs t2 c).1 = Abort.
Proof.
  intros Hcr Hlen Hp Hm. destruct fresh_rep as [Hfresh Hz].
  pose proof (zlen_nonneg line). pose proof (zlen_nonneg bs).
  assert (line_of (line ++ CRLF) = Some (line, [])) as Hl.
  { pose proof (line_of_print line [] Hcr) as Hl. by rewrite app_nil_r in Hl. }
  assert (zlen (line ++ CRLF) = zlen line + 2) as Hzl by (by rewrite zlen_app).
  unfold extrabuf_size in *.
  destruct (receive_scans _ _ _ _ (line ++ CRLF) t1 false kExpectRequestLine r (line ++ CRLF) Hfresh)
    as (c & Hc & Hrep & Hzc); [unfold extrabuf_size; lia|lia|by eapply scans_bad|].
  exists c. split; [done|].
  destruct (readFd_rep _ _ _ _ bs Hrep) as (c1 & Hc1 & Hrep1 & _); [unfold extrabuf_size; lia|lia|].
  unfold receive. rewrite (act_bind_val _ _ _ _ _ Hc1). unfold parseRequest. act_step.
  cbn [parse_loop]. act_step. rewrite (rep_state _ _ _ _ Hrep1).
  pose proof (next_line_spec _ _ _ _ Hrep1) as Hnext.
  rewrite (line_of_app _ _ _ _ Hl) in Hnext. cbn in Hnext.
  rewrite (act_bind_val _ _ _ _ _ Hnext).
  assert ((processRequestLine line (request_ c1)).1 = Abort) as Hab.
  { pose proof (rep_request _ _ _ _ Hrep1) as Hr1.
    assert (method_ (request_ c1) ≠ kInvalid) as Hm1 by (intros Hx; apply Hm; by rewrite <-Hr1).
    unfold processRequestLine in Hp |- *. case_bool_decide; [|by injection Hp as <-].
    unfold act_bind at 1, setMethod, act_bind at 1, get_state, act_bind at 1, cpp_assert.
    by rewrite bool_decide_false. }
  unfold act_bind at 1, on_request. destruct (processRequestLine line (request_ c1)) as [o r1].
  cbn in Hab. by subst o.
Qed.

Lemma bad_request_aborts_witness :
  ∃ c, returns (receive (bytes_of "GET x" ++ CRLF) 1) fresh false c ∧ (receive (bytes_of "!") 2 c).1 = Abort.
Proof.
  refine (bad_request_aborts (bytes_of "GET x") (bytes_of "!") 1 2
            (Request kGet kUnknown [] [] 0 []) _ _ _ _).
  - refine (bool_decide_unpack _ _). vm_compute. exact I.
  - vm_compute. congruence.
  - vm_compute. reflexivity.
  - done.
Defined.
