(* ===== verification/HttpServer.v ===== *)
(** * HttpResponse and HttpServer (muduo/net/http)

    [appendToBuffer] prints a response; [onMessage] and [onRequest] are the
    callbacks of the server on a connection: its parser and input buffer
    ([context]), and what it has been asked to do ([effect]: TcpConnection::send
    and TcpConnection::shutdown).  The user's HttpCallback is a parameter. *)
From S2P Require Import Prelude Printf StdMap NetBuffer HttpContext HttpParser.
Import Buffer HttpRequest HttpContext.

(** [snprintf] into [char buf[32]] *)
Definition truncate (bs : list Z) : list Z := snprintf 32 bs.

Module HttpResponse.

Record response := Response {
  headers_ : list (list Z * list Z);
  statusCode_ : Z;
  statusMessage_ : list Z;
  closeConnection_ : bool;
  body_ : list Z
}.

Definition construct (close : bool) : response := Response [] 0 [] close [].

Definition setStatusCode (code : Z) (r : response) : response :=
  Response (headers_ r) code (statusMessage_ r) (closeConnection_ r) (body_ r).
Definition setStatusMessage (m : list Z) (r : response) : response :=
  Response (headers_ r) (statusCode_ r) m (closeConnection_ r) (body_ r).
Definition setCloseConnection (on : bool) (r : response) : response :=
  Response (headers_ r) (statusCode_ r) (statusMessage_ r) on (body_ r).
Definition addHeader (key value : list Z) (r : response) : response :=
  Response (StdMap.assign key value (headers_ r)) (statusCode_ r) (statusMessage_ r)
    (closeConnection_ r) (body_ r).
Definition setBody (b : list Z) (r : response) : response :=
  Response (headers_ r) (statusCode_ r) (statusMessage_ r) (closeConnection_ r) b.

Definition append_header (h : list Z * list Z) : Buffer.io () :=
  append h.1 ;;; append (bytes_of ": ") ;;; append h.2 ;;; append CRLF.

Definition appendToBuffer (r : response) : Buffer.io () :=
  append (truncate (bytes_of "HTTP/1.1 " ++ printf_d (statusCode_ r) ++ bytes_of " ")) ;;;
  append (statusMessage_ r) ;;;
  append CRLF ;;;
  (if closeConnection_ r
   then append (bytes_of "Connection: close" ++ CRLF)
   else append (truncate (bytes_of "Content-Length: " ++ printf_d (zlen (body_ r)) ++ CRLF)) ;;;
        append (bytes_of "Connection: Keep-Alive" ++ CRLF)) ;;;
  act_mapM_ append_header (headers_ r) ;;;
  append CRLF ;;;
  append (body_ r).

(** The bytes of a response. *)
Definition render (r : response) : list Z :=
  truncate (bytes_of "HTTP/1.1 " ++ printf_d (statusCode_ r) ++ bytes_of " ") ++
  statusMessage_ r ++ CRLF ++
  (if closeConnection_ r
   then bytes_of "Connection: close" ++ CRLF
   else truncate (bytes_of "Content-Length: " ++ printf_d (zlen (body_ r)) ++ CRLF) ++
        bytes_of "Connection: Keep-Alive" ++ CRLF) ++
  mjoin ((λ h, h.1 ++ bytes_of ": " ++ h.2 ++ CRLF) <$> headers_ r) ++
  CRLF ++ body_ r.

(** [m] appends [bs] to any buffer. *)
Definition appends (m : Buffer.io ()) (bs : list Z) : Prop :=
  ∀ b q room, holds b q room → zlen (buffer_ b) + zlen bs < 2 ^ 31 →
  ∃ b' room', m b = (Val (), b') ∧ holds b' (q ++ bs) room' ∧
              zlen (buffer_ b') <= zlen (buffer_ b) + zlen bs.

Lemma appends_append bs : appends (append bs) bs.
Proof.
  intros b q room Hb Hm. destruct (NetBufferRefinement.append_runs b q room bs Hb Hm) as (b' & R & H' & Hz).
  eauto.
Qed.

Lemma appends_seq m1 m2 bs1 bs2 :
  appends m1 bs1 → appends m2 bs2 → appends (m1 ;;; m2) (bs1 ++ bs2).
Proof.
  intros H1 H2 b q room Hb Hm. rewrite zlen_app in Hm.
  pose proof (zlen_nonneg bs1). pose proof (zlen_nonneg bs2).
  destruct (H1 b q room Hb) as (b1 & room1 & R1 & Hb1 & Hz1); [lia|].
  destruct (H2 b1 _ room1 Hb1) as (b2 & room2 & R2 & Hb2 & Hz2); [lia|].
  exists b2, room2. rewrite (act_bind_val _ _ _ _ _ R1). rewrite (assoc_L (++)), zlen_app.
  split_and!; [done..|lia].
Qed.

Lemma appends_ret : appends (act_ret ()) [].
Proof. intros b q room Hb _. exists b, room. rewrite app_nil_r, zlen_nil. split_and!; [done..|lia]. Qed.

Lemma appends_mapM {A} (f : A → Buffer.io ()) g (l : list A) :
  (∀ x, appends (f x) (g x)) → appends (act_mapM_ f l) (mjoin (g <$> l)).
Proof.
  intros Hf. induction l as [|x l IH]; [apply appends_ret|].
  exact (appends_seq _ _ _ _ (Hf x) IH).
Qed.

Create HintDb appends.
#[local] Hint Resolve appends_append appends_seq appends_ret appends_mapM : appends.

Lemma appendToBuffer_renders r : appends (appendToBuffer r) (render r).
Proof.
  unfold appendToBuffer, render. repeat apply appends_seq; try apply appends_append.
  - destruct (closeConnection_ r); auto with appends.
  - apply appends_mapM. intros h. unfold append_header. auto 10 with appends.
Qed.

End HttpResponse.

Module HttpServer.
Import HttpResponse.

Inductive effect := Send (bs : list Z) | Shutdown.
#[global] Instance effect_eq_dec : EqDecision effect.
Proof. solve_decision. Defined.

(** One connection of the server. *)
Record session := Session { conn : context; effects : list effect }.

Definition io (A : Type) : Type := act session Empty_set A.

Definition on_context {A} (m : HttpContext.io A) : io A := λ s,
  let '(a, c) := m (conn s) in (a, Session c (effects s)).
Definition emit (e : effect) : io () := modify (λ s, Session (conn s) (effects s ++ [e])).

(** A local [Buffer]. *)
Definition with_buffer {A} (m : Buffer.io A) : io A := λ s,
  let '(a, _) := m (Buffer.construct kInitialSize) in (a, s).

Section server.
Context (httpCallback_ : request → response → response).

Definition closes (req : request) : bool :=
  let connection := getHeader (bytes_of "Connection") req in
  bool_decide (connection = bytes_of "close")
  || (bool_decide (version_ req = kHttp10) && bool_decide (connection ≠ bytes_of "Keep-Alive")).

Definition onRequest (req : request) : io () :=
  let response := httpCallback_ req (HttpResponse.construct (closes req)) in
  bs <- with_buffer (appendToBuffer response ;;; take_all) ;;
  emit (Send bs) ;;;
  (when closeConnection_ response do emit Shutdown).

Definition onMessage (receiveTime : Z) : io () :=
  ok <- on_context (parseRequest receiveTime) ;;
  (when negb ok do
     (emit (Send (bytes_of "HTTP/1.1 400 Bad Request" ++ CRLF ++ CRLF)) ;;; emit Shutdown)) ;;;
  s <- get_state ;;
  (when gotAll (conn s) do
     (onRequest (request_ (conn s)) ;;; on_context reset)).

(** TcpConnection::handleRead: bytes arrive, the message callback is called. *)
Definition arrive (bs : list Z) (receiveTime : Z) : io () :=
  on_context (on_buf (readFd (ReadBytes bs))) ;;; onMessage receiveTime.

Fixpoint arrive_all (ps : list (list Z * Z)) : io () :=
  match ps with
  | [] => act_ret ()
  | (bs, t) :: ps => arrive bs t ;;; arrive_all ps
  end.

(** What the server does for a request. *)
Definition response_to (req : request) : response :=
  httpCallback_ req (HttpResponse.construct (closes req)).
Definition answer (req : request) : list effect :=
  Send (render (response_to req)) :: (if closeConnection_ (response_to req) then [Shutdown] else []).

Lemma on_context_val {A} (m : HttpContext.io A) s a c :
  m (conn s) = (Val a, c) → on_context m s = (Val a, Session c (effects s)).
Proof. intros Hm. unfold on_context. by rewrite Hm. Qed.

Lemma onRequest_spec req s :
  zlen (render (response_to req)) < 2 ^ 31 - 1032 →
  onRequest req s = (Val (), Session (conn s) (effects s ++ answer req)).
Proof.
  intros Hm. unfold onRequest. fold (response_to req). cbv zeta.
  destruct (buffer_construct_holds kInitialSize) as (Hc & _ & Hz); [unfold kInitialSize; lia..|].
  destruct (appendToBuffer_renders (response_to req) _ _ _ Hc) as (b & room & Ha & Hb & _).
  { rewrite Hz. unfold kInitialSize. lia. }
  rewrite app_nil_l in Hb. destruct (take_all_spec _ _ _ Hb) as [b' Ht].
  assert (with_buffer (appendToBuffer (response_to req) ;;; take_all) s = (Val (render (response_to req)), s)) as Hw.
  { unfold with_buffer. rewrite (act_bind_val _ _ _ _ _ Ha). by rewrite Ht. }
  rewrite (act_bind_val _ _ _ _ _ Hw). act_step. unfold answer.
  destruct (closeConnection_ (response_to req)); [|done].
  unfold emit, modify. cbn [conn effects]. by rewrite <-(assoc_L (++)).
Qed.

Lemma arrive_waits s st r q bs t st1 r1 q1 :
  rep (conn s) st r q → zlen bs <= extrabuf_size → zlen (buffer_ (buf (conn s))) + zlen bs < 2 ^ 31 →
  scans st r (q ++ bs) true st1 r1 q1 → st1 ≠ kGotAll →
  ∃ c, arrive bs t s = (Val (), Session c (effects s)) ∧ rep c st1 r1 q1 ∧
       zlen (buffer_ (buf c)) <= zlen (buffer_ (buf (conn s))) + zlen bs.
Proof.
  intros Hrep Hbs Hm Hs Hst.
  destruct (readFd_rep _ _ _ _ _ Hrep Hbs Hm) as (c1 & Hc1 & Hr1 & Hz1).
  destruct (parseRequest_scans _ _ _ _ _ _ _ t _ Hs Hr1) as (c2 & Hc2 & Hr2 & Hz2).
  exists c2. split_and!; [|done|lia].
  unfold arrive. rewrite (act_bind_val _ _ _ _ _ (on_context_val _ _ _ _ Hc1)).
  unfold onMessage. rewrite (act_bind_val _ _ _ _ _ (on_context_val _ (Session c1 (effects s)) _ _ Hc2)).
  act_step. act_step. cbn [conn]. unfold gotAll.
  rewrite (rep_state _ _ _ _ Hr2), bool_decide_false by done. done.
Qed.

Lemma arrive_completes s st r q bs t r1 rest :
  rep (conn s) st r q → zlen bs <= extrabuf_size → zlen (buffer_ (buf (conn s))) + zlen bs < 2 ^ 31 →
  scans st r (q ++ bs) true kGotAll r1 rest →
  (∀ req, setReceiveTime 0 req = r1 → zlen (render (response_to req)) < 2 ^ 31 - 1032) →
  ∃ c req, arrive bs t s = (Val (), Session c (effects s ++ answer req)) ∧
    setReceiveTime 0 req = r1 ∧ rep c kExpectRequestLine HttpRequest.construct rest.
Proof.
  intros Hrep Hbs Hm Hs Hresp.
  destruct (readFd_rep _ _ _ _ _ Hrep Hbs Hm) as (c1 & Hc1 & Hr1 & Hz1).
  destruct (parseRequest_scans _ _ _ _ _ _ _ t _ Hs Hr1) as (c2 & Hc2 & [Hb2 Hst2 Hreq2] & Hz2).
  exists (Context_ (buf c2) kExpectRequestLine HttpRequest.construct), (request_ c2).
  split_and!; [|done|by split].
  unfold arrive. rewrite (act_bind_val _ _ _ _ _ (on_context_val _ _ _ _ Hc1)).
  unfold onMessage. rewrite (act_bind_val _ _ _ _ _ (on_context_val _ (Session c1 (effects s)) _ _ Hc2)).
  act_step. act_step. cbn [conn]. unfold gotAll. rewrite Hst2, bool_decide_true by done.
  rewrite (act_bind_val _ _ _ _ _ (onRequest_spec (request_ c2) _ (Hresp _ Hreq2))). done.
Qed.

Lemma arrive_pieces ps : ∀ s st r q bs t r1 rest,
  rep (conn s) st r q → st ≠ kGotAll →
  Forall (λ p, zlen p.1 <= extrabuf_size) ps → zlen bs <= extrabuf_size →
  zlen (buffer_ (buf (conn s))) + zlen (bytes_in ps) + zlen bs < 2 ^ 31 →
  scans st r (q ++ bytes_in ps ++ bs) true kGotAll r1 rest → zlen rest < zlen bs →
  (∀ req, setReceiveTime 0 req = r1 → zlen (render (response_to req)) < 2 ^ 31 - 1032) →
  ∃ s' req, arrive_all ps s = (Val (), s') ∧ effects s' = effects s ∧
    ∃ c, arrive bs t s' = (Val (), Session c (effects s ++ answer req)) ∧
      setReceiveTime 0 req = r1 ∧ rep c kExpectRequestLine HttpRequest.construct rest.
Proof.
  induction ps as [|[b1 t1] ps IH]; intros s st r q bs t r1 rest Hrep Hst Hps Hbs Hm Hs Hlt Hresp.
  - change (bytes_in []) with (@nil Z) in Hs, Hm. cbn [app] in Hs. rewrite zlen_nil in Hm.
    destruct (arrive_completes _ _ _ _ bs t _ _ Hrep Hbs ltac:(lia) Hs Hresp) as (c & req & Ha & Hq & Hr).
    exists s, req. split_and!; [done..|]. by exists c.
  - apply Forall_cons in Hps as [Hb1 Hps]. cbn [fst] in Hb1.
    rewrite bytes_in_cons in Hs, Hm. rewrite <-(assoc_L (++)), (assoc_L (++) q) in Hs. rewrite zlen_app in Hm.
    pose proof (zlen_nonneg (bytes_in ps)). pose proof (zlen_nonneg bs). pose proof (zlen_nonneg b1).
    destruct (scans_prefix _ _ _ _ _ _ _ Hs eq_refl) as (st1 & r2 & q1 & Hs1 & Hst1 & Hs2 & _).
    { rewrite zlen_app. lia. }
    destruct (arrive_waits _ _ _ _ _ t1 _ _ _ Hrep Hb1 ltac:(lia) Hs1 Hst1) as (c1 & Hc1 & Hr1 & Hz1).
    destruct (IH (Session c1 (effects s)) st1 r2 q1 bs t r1 rest) as (s' & req & Ha & He & Hc);
      [done..|cbn [conn]; lia|done|done|done|].
    exists s', req. split_and!; [|done|done]. cbn [arrive_all].
    by rewrite (act_bind_val _ _ _ _ _ Hc1).
Qed.


End server.

(** HttpServer.cc's default callback. *)
Definition defaultHttpCallback (req : request) (resp : response) : response :=
  setCloseConnection true (setStatusMessage (bytes_of "Not Found") (setStatusCode 404 resp)).


End HttpServer.
