(* ===== verification/TcpConnection.v ===== *)
(** * TcpConnection.cc, with Channel.cc and the functor queue of EventLoop.cc

    One connection: its object ([conn]), the channel that it owns, the functors
    that it has queued in its loop, and the socket.  One definition per member
    function; [handle] is what happens to the connection in one step: a call of
    the user, a functor that the loop runs, an event that the poller reports.
    The loop thread runs a step at a time; a call from another thread tests the
    state and queues a functor.

    The system calls are arguments of the steps: what write(2) and readv(2)
    return.  [wire] is what the kernel has taken, [shut] whether shutdown(2) was
    called.  The user's callbacks are recorded in [notices]; what they call in
    turn is a later step.  [taken] and [failed] are ghost state: the bytes that
    send() has taken over, and whether an error of the socket made it drop some. *)
From S2P Require Import Prelude NetBuffer.
Import Buffer.

(** ** poll(2) and errno *)
Definition POLLIN : Z := 1.
Definition POLLPRI : Z := 2.
Definition POLLOUT : Z := 4.
Definition POLLERR : Z := 8.
Definition POLLHUP : Z := 16.
Definition POLLNVAL : Z := 32.
Definition POLLRDHUP : Z := 8192.
Definition has (bits mask : Z) : bool := negb (Z.land bits mask =? 0).

Inductive errno := EWOULDBLOCK | EPIPE | ECONNRESET | EOTHER.
#[global] Instance errno_eq_dec : EqDecision errno.
Proof. solve_decision. Defined.

(** What write(2) does with the bytes it is given. *)
Inductive write_result := WriteOk (n : Z) | WriteError (e : errno).

(** ** Channel.h *)
Module Channel.

Definition kNoneEvent : Z := 0.
Definition kReadEvent : Z := Z.lor POLLIN POLLPRI.
Definition kWriteEvent : Z := POLLOUT.

(** [addedToLoop_]: the channel is registered with the poller. *)
Record channel := Channel { events_ : Z; addedToLoop_ : bool }.

Definition isNoneEvent (c : channel) : bool := events_ c =? kNoneEvent.
Definition isWriting (c : channel) : bool := has (events_ c) kWriteEvent.
Definition isReading (c : channel) : bool := has (events_ c) kReadEvent.

(** [update()] registers. *)
Definition enableReading (c : channel) : channel := Channel (Z.lor (events_ c) kReadEvent) true.
Definition disableReading (c : channel) : channel := Channel (Z.ldiff (events_ c) kReadEvent) true.
Definition enableWriting (c : channel) : channel := Channel (Z.lor (events_ c) kWriteEvent) true.
Definition disableWriting (c : channel) : channel := Channel (Z.ldiff (events_ c) kWriteEvent) true.
Definition disableAll (c : channel) : channel := Channel kNoneEvent true.

Definition remove : act channel Empty_set () :=
  c <- get_state ;;
  cpp_assert (isNoneEvent c) ;;;
  put_state (Channel (events_ c) false).

End Channel.

Module TcpConnection.
Import Channel.

Inductive StateE := kDisconnected | kConnecting | kConnected | kDisconnecting.
#[global] Instance StateE_eq_dec : EqDecision StateE.
Proof. solve_decision. Defined.

(** What is queued in the loop. *)
Inductive functor :=
| FSend (message : list Z)
| FShutdown
| FForceClose
| FStartRead
| FStopRead
| FWriteComplete
| FHighWaterMark (n : Z).

(** The user's callbacks: connectionCallback_ with the connection up or down,
    closeCallback_, and the others. *)
Inductive notice := Up | Down | Closed | Message | WriteComplete | HighWaterMark (n : Z).
#[global] Instance notice_eq_dec : EqDecision notice.
Proof. solve_decision. Defined.

Record socket := Socket { wire : list Z; shut : bool }.
Record loop := Loop { pendingFunctors_ : list functor; timers_ : nat }.
Record ghost := Ghost { notices : list notice; taken : list Z; failed : bool }.
Record options := Options { writeComplete : bool; highWater : bool; highWaterMark_ : Z }.

Record conn := Conn {
  state_ : StateE;
  reading_ : bool;
  channel_ : channel;
  socket_ : socket;
  inputBuffer_ : buffer;
  outputBuffer_ : buffer;
  options_ : options;
  loop_ : loop;
  ghost_ : ghost
}.

Definition io (A : Type) : Type := act conn Empty_set A.

Definition upd_state (s : StateE) (c : conn) : conn :=
  Conn s (reading_ c) (channel_ c) (socket_ c) (inputBuffer_ c) (outputBuffer_ c) (options_ c) (loop_ c) (ghost_ c).
Definition upd_reading (b : bool) (c : conn) : conn :=
  Conn (state_ c) b (channel_ c) (socket_ c) (inputBuffer_ c) (outputBuffer_ c) (options_ c) (loop_ c) (ghost_ c).
Definition upd_channel (f : channel → channel) (c : conn) : conn :=
  Conn (state_ c) (reading_ c) (f (channel_ c)) (socket_ c) (inputBuffer_ c) (outputBuffer_ c) (options_ c) (loop_ c) (ghost_ c).
Definition upd_socket (f : socket → socket) (c : conn) : conn :=
  Conn (state_ c) (reading_ c) (channel_ c) (f (socket_ c)) (inputBuffer_ c) (outputBuffer_ c) (options_ c) (loop_ c) (ghost_ c).
Definition upd_input (b : buffer) (c : conn) : conn :=
  Conn (state_ c) (reading_ c) (channel_ c) (socket_ c) b (outputBuffer_ c) (options_ c) (loop_ c) (ghost_ c).
Definition upd_output (b : buffer) (c : conn) : conn :=
  Conn (state_ c) (reading_ c) (channel_ c) (socket_ c) (inputBuffer_ c) b (options_ c) (loop_ c) (ghost_ c).
Definition upd_loop (f : loop → loop) (c : conn) : conn :=
  Conn (state_ c) (reading_ c) (channel_ c) (socket_ c) (inputBuffer_ c) (outputBuffer_ c) (options_ c) (f (loop_ c)) (ghost_ c).
Definition upd_ghost (f : ghost → ghost) (c : conn) : conn :=
  Conn (state_ c) (reading_ c) (channel_ c) (socket_ c) (inputBuffer_ c) (outputBuffer_ c) (options_ c) (loop_ c) (f (ghost_ c)).

Definition setState (s : StateE) : io () := modify (upd_state s).
Definition set_reading (b : bool) : io () := modify (upd_reading b).
Definition on_channel (f : channel → channel) : io () := modify (upd_channel f).
Definition on_socket (f : socket → socket) : io () := modify (upd_socket f).
Definition on_loop (f : loop → loop) : io () := modify (upd_loop f).
Definition on_ghost (f : ghost → ghost) : io () := modify (upd_ghost f).
Definition on_input {A} (m : Buffer.io A) : io A := λ c,
  let '(a, b) := m (inputBuffer_ c) in (a, upd_input b c).
Definition on_output {A} (m : Buffer.io A) : io A := λ c,
  let '(a, b) := m (outputBuffer_ c) in (a, upd_output b c).

Definition notify (n : notice) : io () :=
  on_ghost (λ g, Ghost (notices g ++ [n]) (taken g) (failed g)).
Definition queueInLoop (f : functor) : io () :=
  on_loop (λ l, Loop (pendingFunctors_ l ++ [f]) (timers_ l)).

(** sockets::write; the kernel takes at most what it is given. *)
Definition write (bs : list Z) (w : write_result) : io Z :=
  match w with
  | WriteOk n =>
      if (0 <=? n) && (n <=? zlen bs)
      then on_socket (λ s, Socket (wire s ++ ztake n bs) (shut s)) ;;; act_ret n
      else undefined
  | WriteError _ => act_ret (-1)
  end.

Definition faulty (w : write_result) : bool :=
  match w with
  | WriteError e => bool_decide (e ≠ EWOULDBLOCK) && (bool_decide (e = EPIPE) || bool_decide (e = ECONNRESET))
  | WriteOk _ => false
  end.

(** ** TcpConnection.cc *)

(** sendInLoop, first part: [nwrote], [remaining] and [faultError]. *)
Definition tryWrite (data : list Z) (w : write_result) : io (Z * Z * bool) :=
  c <- get_state ;;
  if negb (isWriting (channel_ c)) && (readableBytes (outputBuffer_ c) =? 0)
  then
    nwrote <- write data w ;;
    if 0 <=? nwrote
    then (when (u64 (zlen data - nwrote) =? 0) && writeComplete (options_ c)
          do queueInLoop FWriteComplete) ;;;
         act_ret (nwrote, u64 (zlen data - nwrote), false)
    else act_ret (0, zlen data, faulty w)
  else act_ret (0, zlen data, false).

(** sendInLoop, second part: what was not written goes to the output buffer. *)
Definition appendOutput (rest : list Z) (remaining : Z) : io () :=
  c <- get_state ;;
  let oldLen := readableBytes (outputBuffer_ c) in
  (when (highWaterMark_ (options_ c) <=? u64 (oldLen + remaining))
        && (oldLen <? highWaterMark_ (options_ c)) && highWater (options_ c)
   do queueInLoop (FHighWaterMark (u64 (oldLen + remaining)))) ;;;
  on_output (append rest) ;;;
  c <- get_state ;;
  (when negb (isWriting (channel_ c)) do on_channel enableWriting).

Definition sendInLoop (data : list Z) (w : write_result) : io () :=
  c <- get_state ;;
  if bool_decide (state_ c = kDisconnected) then act_ret () else
  p <- tryWrite data w ;;
  match p with
  | (nwrote, remaining, faultError) =>
      cpp_assert (remaining <=? zlen data) ;;;
      if negb faultError && (0 <? remaining)
      then appendOutput (zdrop nwrote data) remaining
      else on_ghost (λ g, Ghost (notices g) (taken g) (failed g || faultError))
  end.

Definition shutdownInLoop : io () :=
  c <- get_state ;;
  when negb (isWriting (channel_ c)) do on_socket (λ s, Socket (wire s) true).

(** [inLoop]: the caller is in the loop thread. *)
Definition send (inLoop : bool) (message : list Z) (w : write_result) : io () :=
  c <- get_state ;;
  when bool_decide (state_ c = kConnected) do
    (on_ghost (λ g, Ghost (notices g) (taken g ++ message) (failed g)) ;;;
     if inLoop then sendInLoop message w else queueInLoop (FSend message)).

Definition shutdown (inLoop : bool) : io () :=
  c <- get_state ;;
  when bool_decide (state_ c = kConnected) do
    (setState kDisconnecting ;;;
     if inLoop then shutdownInLoop else queueInLoop FShutdown).

Definition closing (s : StateE) : bool :=
  bool_decide (s = kConnected) || bool_decide (s = kDisconnecting).

Definition forceClose : io () :=
  c <- get_state ;;
  when closing (state_ c) do (setState kDisconnecting ;;; queueInLoop FForceClose).

(** The timer holds a weak pointer and calls forceClose. *)
Definition forceCloseWithDelay : io () :=
  c <- get_state ;;
  when closing (state_ c) do
    (setState kDisconnecting ;;;
     on_loop (λ l, Loop (pendingFunctors_ l) (S (timers_ l)))).

Definition handleClose : io () :=
  c <- get_state ;;
  cpp_assert (closing (state_ c)) ;;;
  setState kDisconnected ;;;
  on_channel disableAll ;;;
  notify Down ;;;
  notify Closed.

Definition forceCloseInLoop : io () :=
  c <- get_state ;;
  when closing (state_ c) do handleClose.

Definition startReadInLoop : io () :=
  c <- get_state ;;
  when negb (reading_ c) || negb (isReading (channel_ c)) do
    (on_channel enableReading ;;; set_reading true).

Definition stopReadInLoop : io () :=
  c <- get_state ;;
  when reading_ c || isReading (channel_ c) do
    (on_channel disableReading ;;; set_reading false).

Definition startRead (inLoop : bool) : io () :=
  if inLoop then startReadInLoop else queueInLoop FStartRead.
Definition stopRead (inLoop : bool) : io () :=
  if inLoop then stopReadInLoop else queueInLoop FStopRead.

Definition connectEstablished : io () :=
  c <- get_state ;;
  cpp_assert (bool_decide (state_ c = kConnecting)) ;;;
  setState kConnected ;;;
  on_channel enableReading ;;;
  notify Up.

Definition remove_channel : io () := λ c,
  let '(a, ch) := Channel.remove (channel_ c) in (a, upd_channel (λ _, ch) c).

Definition connectDestroyed : io () :=
  c <- get_state ;;
  (when bool_decide (state_ c = kConnected) do
     (setState kDisconnected ;;; on_channel disableAll ;;; notify Down)) ;;;
  remove_channel.

(** handleError only logs. *)
Definition handleRead (r : readv_result) : io () :=
  n <- on_input (readFd r) ;;
  if 0 <? n then notify Message
  else if n =? 0 then handleClose
  else act_ret ().

Definition handleWrite (w : write_result) : io () :=
  c <- get_state ;;
  if isWriting (channel_ c) then
    bs <- on_output (load_at (peek (outputBuffer_ c)) (readableBytes (outputBuffer_ c))) ;;
    n <- write bs w ;;
    if 0 <? n then
      on_output (retrieve n) ;;;
      c <- get_state ;;
      if readableBytes (outputBuffer_ c) =? 0 then
        on_channel disableWriting ;;;
        (when writeComplete (options_ c) do queueInLoop FWriteComplete) ;;;
        (when bool_decide (state_ c = kDisconnecting) do shutdownInLoop)
      else act_ret ()
    else act_ret ()
  else act_ret ().

(** Channel::handleEventWithGuard *)
Definition handleEvent (revents : Z) (r : readv_result) (w : write_result) : io () :=
  (when has revents POLLHUP && negb (has revents POLLIN) do handleClose) ;;;
  (when has revents (Z.lor POLLIN (Z.lor POLLPRI POLLRDHUP)) do handleRead r) ;;;
  (when has revents POLLOUT do handleWrite w).

(** EventLoop::doPendingFunctors, one functor at a time. *)
Definition call_functor (f : functor) (w : write_result) : io () :=
  match f with
  | FSend message => sendInLoop message w
  | FShutdown => shutdownInLoop
  | FForceClose => forceCloseInLoop
  | FStartRead => startReadInLoop
  | FStopRead => stopReadInLoop
  | FWriteComplete => notify WriteComplete
  | FHighWaterMark n => notify (HighWaterMark n)
  end.

Definition run_functor (w : write_result) : io () :=
  c <- get_state ;;
  match pendingFunctors_ (loop_ c) with
  | [] => act_ret ()
  | f :: fs => on_loop (λ l, Loop fs (timers_ l)) ;;; call_functor f w
  end.

Definition run_timer : io () :=
  c <- get_state ;;
  match timers_ (loop_ c) with
  | O => act_ret ()
  | S n => on_loop (λ l, Loop (pendingFunctors_ l) n) ;;; forceClose
  end.

(** ** Steps *)

Inductive event :=
| Established
| Send (inLoop : bool) (message : list Z) (w : write_result)
| Shutdown (inLoop : bool)
| ForceClose
| ForceCloseWithDelay
| StartRead (inLoop : bool)
| StopRead (inLoop : bool)
| Consume (n : Z)
| Functor (w : write_result)
| Timer
| Poll (revents : Z) (r : readv_result) (w : write_result)
| Destroyed.

(** [Consume]: the user takes bytes out of the input buffer. *)
Definition handle (e : event) : io () :=
  match e with
  | Established => connectEstablished
  | Send inLoop message w => send inLoop message w
  | Shutdown inLoop => shutdown inLoop
  | ForceClose => forceClose
  | ForceCloseWithDelay => forceCloseWithDelay
  | StartRead inLoop => startRead inLoop
  | StopRead inLoop => stopRead inLoop
  | Consume n => on_input (retrieve n)
  | Functor w => run_functor w
  | Timer => run_timer
  | Poll revents r w => handleEvent revents r w
  | Destroyed => connectDestroyed
  end.

Definition takes (w : write_result) (len : Z) : Prop :=
  match w with WriteOk n => 0 <= n <= len | WriteError _ => True end.

Definition reads (r : readv_result) : Prop :=
  match r with ReadBytes bs => zlen bs <= extrabuf_size | ReadError => True end.

Definition is_reading_functor (f : functor) : bool :=
  match f with FStartRead | FStopRead => true | _ => false end.

(** What the environment promises: connectEstablished and connectDestroyed are
    called once, connectDestroyed not in the state kDisconnecting; the poller
    reports events of registered channels only, reading and writing only if they
    are enabled (and no urgent data); the system calls return what they may; and
    startRead and stopRead are not called, nor run from the queue, before the
    connection is up or after it is down. *)
Definition valid (c : conn) (e : event) : Prop :=
  match e with
  | Established => state_ c = kConnecting
  | Send true message w => takes w (zlen message)
  | StartRead true | StopRead true => closing (state_ c) = true
  | Consume n => 0 <= n <= readableBytes (inputBuffer_ c)
  | Functor w =>
      match pendingFunctors_ (loop_ c) with
      | [] => True
      | f :: _ => (is_reading_functor f = true → closing (state_ c) = true)
                  ∧ match f with FSend m => takes w (zlen m) | _ => True end
      end
  | Poll revents r w =>
      addedToLoop_ (channel_ c) = true ∧ isNoneEvent (channel_ c) = false
      ∧ has revents (Z.lor POLLPRI POLLRDHUP) = false
      ∧ (has revents POLLIN = true → isReading (channel_ c) = true)
      ∧ (has revents POLLOUT = true → isWriting (channel_ c) = true)
      ∧ reads r ∧ takes w (readableBytes (outputBuffer_ c))
  | Destroyed =>
      (state_ c = kConnected ∨ state_ c = kDisconnected) ∧ addedToLoop_ (channel_ c) = true
  | _ => True
  end.

#[global] Instance takes_dec w len : Decision (takes w len).
Proof. destruct w; cbn; apply _. Defined.
#[global] Instance reads_dec r : Decision (reads r).
Proof. destruct r; cbn; apply _. Defined.
#[global] Instance valid_dec c e : Decision (valid c e).
Proof.
  destruct e as [|[]| | | |[]|[]| | | | |]; cbn; try apply _.
  destruct (pendingFunctors_ (loop_ c)) as [|[] ?]; apply _.
Defined.

(** How many bytes a step can add to the buffers. *)
Definition growth (e : event) : Z :=
  match e with
  | Send _ message _ => zlen message
  | Poll _ (ReadBytes bs) _ => zlen bs
  | _ => 0
  end.

Definition construct (o : options) : conn :=
  Conn kConnecting true (Channel kNoneEvent false) (Socket [] false)
    (Buffer.construct kInitialSize) (Buffer.construct kInitialSize) o (Loop [] 0) (Ghost [] [] false).

(** [execs c es c']: the steps [es], each allowed when its turn comes, lead from
    [c] to [c']. *)
Inductive execs : conn → list event → conn → Prop :=
| execs_nil c : execs c [] c
| execs_snoc c es c1 e c2 :
    execs c es c1 → valid c1 e → handle e c1 = (Val (), c2) → execs c (es ++ [e]) c2.

(** The same as a function; [None] if a step is not allowed or fails. *)
Fixpoint run (es : list event) (c : conn) : option conn :=
  match es with
  | [] => Some c
  | e :: es =>
      if bool_decide (valid c e) then
        match handle e c with
        | (Val _, c') => run es c'
        | _ => None
        end
      else None
  end.

End TcpConnection.
