(* ===== verification/TcpConnectionFacts.v ===== *)
(** * What TcpConnection promises

    For a connection whose user calls send() in the loop thread: nothing is lost
    or reordered on the way to the kernel, the channel asks for writing exactly
    while there are bytes to write, the write side is shut down only behind the
    last byte, and the callbacks come once each.  With send() from another
    thread, the last message can be lost. *)
From S2P Require Import Prelude NetBuffer TcpConnection.
Import Buffer Channel TcpConnection.

(** ** The events of a channel *)

Definition ev (rd wr : bool) : Z := (if rd then 3 else 0) + (if wr then 4 else 0).

Lemma ev_writing rd wr a : isWriting (Channel (ev rd wr) a) = wr.
Proof. by destruct rd, wr. Qed.
Lemma ev_reading rd wr a : isReading (Channel (ev rd wr) a) = rd.
Proof. by destruct rd, wr. Qed.
Lemma ev_enableWriting rd wr a : enableWriting (Channel (ev rd wr) a) = Channel (ev rd true) true.
Proof. by destruct rd, wr. Qed.
Lemma ev_disableWriting rd wr a : disableWriting (Channel (ev rd wr) a) = Channel (ev rd false) true.
Proof. by destruct rd, wr. Qed.
Lemma ev_enableReading rd wr a : enableReading (Channel (ev rd wr) a) = Channel (ev true wr) true.
Proof. by destruct rd, wr. Qed.
Lemma ev_disableReading rd wr a : disableReading (Channel (ev rd wr) a) = Channel (ev false wr) true.
Proof. by destruct rd, wr. Qed.

Lemma assert_step' {S E A} (c : bool) (m : act S E A) s : c = true → (cpp_assert c ;;; m) s = m s.
Proof. by intros ->. Qed.

(** ** The invariant *)

Definition is_lifecycle (n : notice) : bool :=
  match n with Up | Down | Closed => true | _ => false end.
(** The connection callbacks and the close callback, in order. *)
Definition lifecycle (c : conn) : list notice := filter is_lifecycle (notices (ghost_ c)).

Definition is_send (f : functor) : bool := match f with FSend _ => true | _ => false end.
Definition is_shutdown (f : functor) : bool := match f with FShutdown => true | _ => false end.

Definition nonempty (q : list Z) : bool := bool_decide (q ≠ []).

(** The connection is up: [q] is in the output buffer, and send() still has to
    hand over [debt]. *)
Record open (c : conn) (q debt : list Z) : Prop := {
  open_channel : ∃ rd, channel_ c = Channel (ev rd (nonempty q)) true;
  open_bytes : failed (ghost_ c) = false → taken (ghost_ c) = wire (socket_ c) ++ q ++ debt;
  open_life : lifecycle c = [Up];
  open_shut : shut (socket_ c) = true → q = [] ∧ state_ c = kDisconnecting
}.

Definition phase (c : conn) (q : list Z) : Prop :=
  match state_ c with
  | kConnecting => channel_ c = Channel 0 false ∧ q = [] ∧ socket_ c = Socket [] false
                   ∧ taken (ghost_ c) = [] ∧ lifecycle c = []
  | kConnected | kDisconnecting => open c q []
  | kDisconnected => events_ (channel_ c) = 0
                     ∧ (failed (ghost_ c) = false → wire (socket_ c) `prefix_of` taken (ghost_ c))
                     ∧ (lifecycle c = [Up; Down; Closed] ∨ lifecycle c = [Up; Down])
  end.

(** [b] holds [q], in at most [n] bytes. *)
Definition contains (b : buffer) (q : list Z) (n : Z) : Prop :=
  (∃ room, holds b q room) ∧ zlen (buffer_ b) <= n.

Definition queue_ok (c : conn) : Prop :=
  Forall (λ f, is_send f = false) (pendingFunctors_ (loop_ c))
  ∧ (state_ c = kConnecting ∨ state_ c = kConnected →
     Forall (λ f, is_shutdown f = false) (pendingFunctors_ (loop_ c))).

Record inv (n : Z) (c : conn) : Prop := {
  inv_queue : queue_ok c;
  inv_input : ∃ r, contains (inputBuffer_ c) r n;
  inv_output : ∃ q, contains (outputBuffer_ c) q n ∧ phase c q
}.

Lemma contains_le b q n n' : contains b q n → n <= n' → contains b q n'.
Proof. intros [Hb Hz] Hn. split; [done|lia]. Qed.

Lemma inv_le n n' c : inv n c → n <= n' → inv n' c.
Proof.
  intros [Hq [r Hr] [q [Hq' Hp]]] Hn.
  split; [done|exists r; by eapply contains_le|exists q; split; [by eapply contains_le|done]].
Qed.

(** The connection is not affected by what happens in the rest of its object. *)
Lemma inv_frame n c c' :
  inv n c → queue_ok c' →
  state_ c' = state_ c → channel_ c' = channel_ c → socket_ c' = socket_ c →
  inputBuffer_ c' = inputBuffer_ c → outputBuffer_ c' = outputBuffer_ c →
  taken (ghost_ c') = taken (ghost_ c) → failed (ghost_ c') = failed (ghost_ c) →
  lifecycle c' = lifecycle c → inv n c'.
Proof.
  intros [_ Hr [q [Hq Hp]]] Hqueue Hst Hch Hso Hin Hout Hta Hfa Hli.
  split; [done|by rewrite Hin|]. exists q. rewrite Hout. split; [done|].
  unfold phase in *. rewrite Hst, ?Hch, ?Hso, ?Hta, ?Hfa, ?Hli.
  destruct (state_ c) eqn:Hs; try done.
  - destruct Hp as [H1 H2 H3 H4]. split; rewrite ?Hch, ?Hso, ?Hta, ?Hfa, ?Hli, ?Hst; try done; by rewrite ?Hs in *.
  - destruct Hp as [H1 H2 H3 H4]. split; rewrite ?Hch, ?Hso, ?Hta, ?Hfa, ?Hli, ?Hst; try done; by rewrite ?Hs in *.
Qed.

Lemma open_inv n c : inv n c → closing (state_ c) = true →
  ∃ q, contains (outputBuffer_ c) q n ∧ open c q [].
Proof.
  intros [_ _ [q [Hq Hp]]] Hc. exists q. split; [done|]. unfold phase in Hp.
  by destruct (state_ c).
Qed.

Lemma closing_cases s : closing s = true → s = kConnected ∨ s = kDisconnecting.
Proof. destruct s; vm_compute; auto; done. Qed.

Lemma inv_queued n c f :
  inv n c → is_send f = false →
  (is_shutdown f = true → state_ c = kDisconnecting) →
  inv n (upd_loop (λ l, Loop (pendingFunctors_ l ++ [f]) (timers_ l)) c).
Proof.
  intros Hinv Hf Hs. eapply inv_frame; try done. destruct (inv_queue _ _ Hinv) as [Hq1 Hq2].
  split; cbn.
  - apply Forall_app. split; [done|]. by apply Forall_singleton.
  - intros Hst. apply Forall_app. split; [by apply Hq2|]. apply Forall_singleton.
    destruct (is_shutdown f); [|done]. specialize (Hs eq_refl). destruct Hst; congruence.
Qed.

Lemma inv_notice n c x :
  inv n c → is_lifecycle x = false →
  inv n (upd_ghost (λ g, Ghost (notices g ++ [x]) (taken g) (failed g)) c).
Proof.
  intros Hinv Hx. eapply inv_frame; try done; [by destruct (inv_queue _ _ Hinv)|].
  unfold lifecycle. cbn. rewrite filter_app. cbn. destruct x; try done; by rewrite app_nil_r.
Qed.

Lemma inv_disconnecting n c :
  inv n c → closing (state_ c) = true → inv n (upd_state kDisconnecting c).
Proof.
  intros Hinv Hc. destruct (open_inv _ _ Hinv Hc) as (q & Hq & [H1 H2 H3 H4]).
  split.
  - destruct (inv_queue _ _ Hinv). split; [done|]. cbn. intros [?|?]; done.
  - apply (inv_input _ _ Hinv).
  - exists q. split; [done|]. cbn. split; try done. cbn. intros Hs. by destruct (H4 Hs).
Qed.

Lemma handleClose_inv n c :
  inv n c → closing (state_ c) = true →
  ∃ c', handleClose c = (Val (), c') ∧ inv n c' ∧ outputBuffer_ c' = outputBuffer_ c.
Proof.
  intros Hinv Hc. destruct (open_inv _ _ Hinv Hc) as (q & Hq & [H1 H2 H3 H4]).
  eexists. split.
  - unfold handleClose. act_step. rewrite Hc. act_step. act_step. act_step. act_step. reflexivity.
  - split; [|done]. split.
    + destruct (inv_queue _ _ Hinv). split; [done|]. cbn. intros [?|?]; done.
    + apply (inv_input _ _ Hinv).
    + exists q. split; [done|]. cbn. split; [done|]. split.
      * intros Hf. rewrite (H2 Hf). by apply prefix_app_r.
      * left. unfold lifecycle in *. cbn. rewrite !filter_app, H3. done.
Qed.

Lemma shutdownInLoop_inv n c :
  inv n c → (closing (state_ c) = true → state_ c = kDisconnecting) → state_ c ≠ kConnecting →
  ∃ c', shutdownInLoop c = (Val (), c') ∧ inv n c'.
Proof.
  intros Hinv Hst Hne. unfold shutdownInLoop. act_step.
  destruct (isWriting (channel_ c)) eqn:Hw; cbn [negb]; [by exists c|].
  eexists. split; [reflexivity|].
  destruct (inv_output _ _ Hinv) as (q & Hq & Hp).
  split; [apply (inv_queue _ _ Hinv)|apply (inv_input _ _ Hinv)|].
  exists q. split; [done|]. unfold phase in *. cbn. destruct (state_ c) eqn:Hs; try done.
  - by specialize (Hst eq_refl).
  - destruct Hp as [[rd H1] H2 H3 H4]. split; cbn; try done; [by exists rd|].
    intros _. split; [|done]. rewrite H1, ev_writing in Hw.
    unfold nonempty in Hw. apply bool_decide_eq_false, dec_stable in Hw. done.
Qed.

Lemma faulty_nonneg w n : w = WriteOk n → faulty w = false.
Proof. by intros ->. Qed.

Lemma on_output_val {A} (m : Buffer.io A) c a b :
  m (outputBuffer_ c) = (Val a, b) → on_output m c = (Val a, upd_output b c).
Proof. intros Hm. unfold on_output. by rewrite Hm. Qed.

Lemma on_input_val {A} (m : Buffer.io A) c a b :
  m (inputBuffer_ c) = (Val a, b) → on_input m c = (Val a, upd_input b c).
Proof. intros Hm. unfold on_input. by rewrite Hm. Qed.

Lemma write_val bs w n c :
  w = WriteOk n → 0 <= n <= zlen bs →
  write bs w c = (Val n, upd_socket (λ s, Socket (wire s ++ ztake n bs) (shut s)) c).
Proof.
  intros -> Hn. unfold write. rewrite (proj2 (Z.leb_le 0 n)), (proj2 (Z.leb_le n (zlen bs))) by lia. done.
Qed.

Lemma nonempty_nil : nonempty [] = false.
Proof. done. Qed.
Lemma nonempty_true q : q ≠ [] → nonempty q = true.
Proof. intros. by apply bool_decide_true. Qed.

(** *** send() *)

(** [c] is up and in the middle of a send(): [debt] is still to be handed over. *)
Record sending (n : Z) (c : conn) (q debt : list Z) : Prop := {
  sending_state : state_ c = kConnected;
  sending_queue : queue_ok c;
  sending_input : ∃ r, contains (inputBuffer_ c) r n;
  sending_output : contains (outputBuffer_ c) q n;
  sending_open : open c q debt
}.

Lemma sending_queued n c q debt f :
  sending n c q debt → is_send f = false → is_shutdown f = false →
  sending n (upd_loop (λ l, Loop (pendingFunctors_ l ++ [f]) (timers_ l)) c) q debt.
Proof.
  intros [H1 [H2a H2b] H3 H4 [O1 O2 O3 O4]] Hf Hs. split; try done.
  split; cbn; [|intros Hst]; (apply Forall_app; split; [auto|]); by apply Forall_singleton.
Qed.

Lemma sending_done n c q : sending n c q [] → inv n c.
Proof.
  intros [H1 H2 H3 H4 H5]. split; [done|done|]. exists q. split; [done|]. unfold phase. by rewrite H1.
Qed.

Lemma readable_contains b q n : contains b q n → readableBytes b = zlen q.
Proof. intros [[room Hb] _]. by eapply readable_spec. Qed.

Lemma append_contains b q n bs :
  contains b q n → n + zlen bs < 2 ^ 31 →
  ∃ b', append bs b = (Val (), b') ∧ contains b' (q ++ bs) (n + zlen bs).
Proof.
  intros [[room Hb] Hz] Hm.
  destruct (NetBufferRefinement.append_runs b q room bs Hb) as (b' & R & H' & Hz'); [lia|].
  exists b'. split; [done|]. split; [eauto|lia].
Qed.

Lemma appendOutput_inv n c q rest remaining :
  sending n c q rest → rest ≠ [] → n + zlen rest < 2 ^ 31 →
  ∃ c', appendOutput rest remaining c = (Val (), c') ∧ inv (n + zlen rest) c'.
Proof.
  intros Hs Hrest Hm. unfold appendOutput. act_step. cbv zeta.
  match goal with |- context [when ?b do ?m] =>
    assert (∃ c1, (when b do m) c = (Val (), c1) ∧ sending n c1 q rest) as (c1 & Hc1 & Hs1) end.
  { destruct (_ && highWater _); eexists; (split; [reflexivity|]); [by apply sending_queued|done]. }
  rewrite (act_bind_val _ _ _ _ _ Hc1).
  destruct Hs1 as [H1 H2 [r H3] H4 [[rd O1] O2 O3 O4]].
  destruct (append_contains _ _ _ _ H4 Hm) as (b' & Hb' & Hq').
  rewrite (act_bind_val _ _ _ _ _ (on_output_val _ _ _ _ Hb')). act_step.
  change (channel_ (upd_output b' c1)) with (channel_ c1). rewrite O1, ev_writing.
  assert (q ++ rest ≠ []) as Hne by (destruct q; [done|discriminate]).
  set (c2 := if nonempty q then upd_output b' c1 else upd_channel enableWriting (upd_output b' c1)).
  assert ((when negb (nonempty q) do on_channel enableWriting) (upd_output b' c1) = (Val (), c2)) as Hc2
    by (unfold c2; by destruct (nonempty q)).
  exists c2. split; [exact Hc2|].
  apply (sending_done _ _ (q ++ rest)).
  assert (channel_ c2 = Channel (ev rd true) true) as Hch.
  { unfold c2. destruct (nonempty q) eqn:Hq; cbn; rewrite O1; [done|by rewrite ev_enableWriting]. }
  assert (state_ c2 = state_ c1 ∧ socket_ c2 = socket_ c1 ∧ inputBuffer_ c2 = inputBuffer_ c1 ∧
          outputBuffer_ c2 = b' ∧ loop_ c2 = loop_ c1 ∧ ghost_ c2 = ghost_ c1) as (Ea & Eb & Ec & Ed & Ee & Ef)
    by (unfold c2; by destruct (nonempty q)).
  pose proof (zlen_nonneg rest).
  split; unfold queue_ok in *; rewrite ?Ea, ?Eb, ?Ec, ?Ed, ?Ee; try done.
  - exists r. eapply contains_le; [done|lia].
  - split; unfold lifecycle in *; rewrite ?Ea, ?Eb, ?Ef, ?app_nil_r; try done.
    + exists rd. by rewrite Hch, nonempty_true.
    + intros Hsh. by destruct (O4 Hsh) as [_ ?]; congruence.
Qed.

Lemma contains_nonneg b q n : contains b q n → 0 <= n.
Proof. intros [_ Hz]. pose proof (zlen_nonneg (buffer_ b)). lia. Qed.

Lemma tryWrite_spec n c q data w :
  sending n c q data → takes w (zlen data) → zlen data < 2 ^ 31 →
  ∃ c' nwrote remaining fault, tryWrite data w c = (Val (nwrote, remaining, fault), c')
    ∧ 0 <= nwrote <= zlen data ∧ remaining = zlen data - nwrote
    ∧ sending n c' q (zdrop nwrote data).
Proof.
  intros Hs Hw Hm. pose proof (zlen_nonneg data) as Hpos. unfold tryWrite. act_step.
  destruct (open_channel _ _ _ (sending_open _ _ _ _ Hs)) as [rd Hch].
  rewrite Hch, ev_writing, (readable_contains _ _ _ (sending_output _ _ _ _ Hs)).
  destruct (negb (nonempty q) && (zlen q =? 0)) eqn:Hdirect.
  2: { exists c, 0, (zlen data), false. rewrite zdrop_0. split_and!; [done|lia|lia|lia|done]. }
  assert (q = []) as ->.
  { apply andb_true_iff in Hdirect as [Hq _]. apply negb_true_iff in Hq.
    unfold nonempty in Hq. by apply bool_decide_eq_false, dec_stable in Hq. }
  destruct w as [k|e].
  - cbn in Hw. rewrite (act_bind_val _ _ _ _ _ (write_val _ _ _ _ eq_refl Hw)).
    rewrite (proj2 (Z.leb_le 0 k)) by lia. rewrite wrap_small by ulia.
    set (c1 := upd_socket _ c).
    assert (sending n c1 [] (zdrop k data)) as Hs1.
    { destruct Hs as [H1 H2 H3 H4 [O1 O2 O3 O4]]. split; try done. split; try done.
      cbn. intros Hf. rewrite (O2 Hf). cbn. rewrite <-(assoc_L (++)). by rewrite ztake_zdrop. }
    match goal with |- context [when ?b do ?m] =>
      assert (∃ c2, (when b do m) c1 = (Val (), c2) ∧ sending n c2 [] (zdrop k data)) as (c2 & Hc2 & Hs2) end.
    { destruct (_ && writeComplete _); eexists; (split; [reflexivity|]); [by apply sending_queued|done]. }
    rewrite (act_bind_val _ _ _ _ _ Hc2). exists c2, k, (zlen data - k), false. by split_and!; try lia.
  - act_step. cbn [Z.leb Z.compare]. exists c, 0, (zlen data), (faulty (WriteError e)).
    rewrite zdrop_0. split_and!; [done|lia|lia|lia|done].
Qed.

Lemma sendInLoop_inv n c q data w :
  sending n c q data → takes w (zlen data) → n + zlen data < 2 ^ 31 →
  ∃ c', sendInLoop data w c = (Val (), c') ∧ inv (n + zlen data) c'.
Proof.
  intros Hs Hw Hm. pose proof (contains_nonneg _ _ _ (sending_output _ _ _ _ Hs)) as Hn.
  destruct (tryWrite_spec _ _ _ _ _ Hs Hw ltac:(lia)) as (c1 & k & m & fault & Ht & Hk & -> & Hs1).
  unfold sendInLoop. act_step. rewrite bool_decide_false by (rewrite (sending_state _ _ _ _ Hs); done).
  rewrite (act_bind_val _ _ _ _ _ Ht).
  rewrite assert_step' by (apply Z.leb_le; lia).
  destruct (negb fault && (0 <? zlen data - k)) eqn:Hrest.
  - apply andb_true_iff in Hrest as [_ Hrest]. apply Z.ltb_lt in Hrest.
    assert (zlen (zdrop k data) = zlen data - k) as Hz by (rewrite zlen_zdrop by lia; lia).
    destruct (appendOutput_inv n c1 q (zdrop k data) (zlen data - k) Hs1) as (c2 & Hc2 & Hi2).
    + intros Hnil. rewrite Hnil, zlen_nil in Hz. lia.
    + lia.
    + exists c2. split; [done|]. eapply inv_le; [done|lia].
  - eexists. split; [reflexivity|]. eapply inv_le with (n := n); [|pose proof (zlen_nonneg data); lia].
    destruct Hs1 as [H1 H2 H3 H4 [O1 O2 O3 O4]].
    split; [done|done|]. exists q. split; [done|]. unfold phase. cbn. rewrite H1. split; try done.
    cbn. intros Hf. apply orb_false_iff in Hf as [Hf ->]. cbn in Hrest. apply Z.ltb_ge in Hrest.
    rewrite (O2 Hf). by rewrite zdrop_all by lia.
Qed.

Lemma send_inv n c message w :
  inv n c → takes w (zlen message) → n + zlen message < 2 ^ 31 →
  ∃ c', send true message w c = (Val (), c') ∧ inv (n + zlen message) c'.
Proof.
  intros Hinv Hw Hm. pose proof (zlen_nonneg message). unfold send. act_step.
  case_bool_decide as Hst.
  2: { exists c. split; [done|]. eapply inv_le; [done|lia]. }
  destruct (open_inv _ _ Hinv) as (q & Hq & [O1 O2 O3 O4]); [by rewrite Hst|]. act_step.
  eapply sendInLoop_inv; [|done|done].
  split; [done|apply (inv_queue _ _ Hinv)|apply (inv_input _ _ Hinv)|done|].
  split; [done| |done|done]. cbn. intros Hf. rewrite (O2 Hf), app_nil_r. by rewrite (assoc_L (++)).
Qed.

(** *** Events of the poller *)

Lemma retrieve_contains b q n k :
  contains b q n → 0 <= k <= zlen q →
  ∃ b', retrieve k b = (Val (), b') ∧ contains b' (zdrop k q) n.
Proof.
  intros [[room Hb] Hz] Hk. destruct (retrieve_spec b q room k Hb Hk) as (b' & R & H' & Hz').
  exists b'. split; [done|]. split; [eauto|lia].
Qed.

Lemma load_contains b q n :
  contains b q n → load_at (peek b) (readableBytes b) b = (Val q, b).
Proof.
  intros [[room Hb] _]. rewrite (readable_spec _ _ _ Hb). pose proof (zlen_nonneg q).
  pose proof (load_peek b q room (zlen q) Hb ltac:(lia)) as Hl. by rewrite ztake_all in Hl by lia.
Qed.

Lemma writing_open n c :
  inv n c → isWriting (channel_ c) = true → closing (state_ c) = true.
Proof.
  intros [_ _ [q [_ Hp]]] Hw. unfold phase in Hp. destruct (state_ c); try done.
  - destruct Hp as [He _]. unfold isWriting in Hw. by rewrite He in Hw.
  - destruct Hp as [He _]. by rewrite He in Hw.
Qed.

Lemma handleWrite_inv n c w :
  inv n c → takes w (readableBytes (outputBuffer_ c)) →
  ∃ c', handleWrite w c = (Val (), c') ∧ inv n c'.
Proof.
  intros Hinv Hw. unfold handleWrite. act_step. destruct (isWriting (channel_ c)) eqn:Hwr; [|by exists c].
  pose proof (writing_open _ _ Hinv Hwr) as Hc.
  destruct (open_inv _ _ Hinv Hc) as (q & Hq & [[rd O1] O2 O3 O4]).
  rewrite O1, ev_writing in Hwr. unfold nonempty in Hwr. apply bool_decide_eq_true in Hwr.
  rewrite (readable_contains _ _ _ Hq) in Hw.
  rewrite (act_bind_val _ _ _ _ _ (on_output_val _ _ _ _ (load_contains _ _ _ Hq))).
  replace (upd_output (outputBuffer_ c) c) with c by (by destruct c).
  destruct w as [k|e]; cbn in Hw; [|act_step; by exists c].
  rewrite (act_bind_val _ _ _ _ _ (write_val _ _ _ _ eq_refl Hw)).
  destruct (Z.ltb_spec 0 k) as [Hk|Hk].
  2: { eexists. split; [reflexivity|]. replace k with 0 by lia. rewrite ztake_0.
       eapply inv_frame; try done; [by destruct (inv_queue _ _ Hinv)|].
       cbn. rewrite app_nil_r. by destruct (socket_ c). }
  set (c1 := upd_socket _ c).
  destruct (retrieve_contains _ _ _ k Hq Hw) as (b' & Hb' & Hq').
  rewrite (act_bind_val _ _ _ _ _ (on_output_val _ c1 _ _ Hb')). act_step.
  change (outputBuffer_ (upd_output b' c1)) with b'. rewrite (readable_contains _ _ _ Hq').
  assert (failed (ghost_ c) = false →
    taken (ghost_ c) = (wire (socket_ c) ++ ztake k q) ++ zdrop k q ++ []) as Hbytes.
  { intros Hf. rewrite (O2 Hf), !app_nil_r, <-(assoc_L (++)). by rewrite ztake_zdrop. }
  destruct (Z.eqb_spec (zlen (zdrop k q)) 0) as [Hz|Hz].
  - assert (zdrop k q = []) as Hnil by (destruct (zdrop k q); [done|rewrite zlen_cons in Hz; pose proof (zlen_nonneg l); lia]).
    rewrite Hnil in *. act_step.
    set (c2 := upd_channel disableWriting (upd_output b' c1)).
    assert (inv n c2) as Hi2.
    { split; [apply (inv_queue _ _ Hinv)|apply (inv_input _ _ Hinv)|]. exists []. split; [done|].
      assert (open c2 [] []) as Ho.
      { split; try done.
        - exists rd. cbn. rewrite O1. apply ev_disableWriting.
        - intros Hsh. destruct (O4 Hsh) as [? ?]. done. }
      unfold phase. change (state_ c2) with (state_ c). by destruct (closing_cases _ Hc) as [-> | ->]. }
    match goal with |- context [when ?b do ?m] =>
      assert (∃ c3, (when b do m) c2 = (Val (), c3) ∧ inv n c3 ∧ state_ c3 = state_ c) as (c3 & Hc3 & Hi3 & Hs3) end.
    { destruct (writeComplete _); eexists; (split; [reflexivity|]); [split; [by apply inv_queued|done]|done]. }
    rewrite (act_bind_val _ _ _ _ _ Hc3). change (state_ (upd_output b' c1)) with (state_ c).
    case_bool_decide as Hd; [|by exists c3].
    apply shutdownInLoop_inv; [done|congruence..].
  - eexists. split; [reflexivity|].
    split; [apply (inv_queue _ _ Hinv)|apply (inv_input _ _ Hinv)|]. exists (zdrop k q). split; [done|].
    assert (zdrop k q ≠ []) as Hne by (intros Hnil; by rewrite Hnil in Hz).
    assert (open (upd_output b' c1) (zdrop k q) []) as Ho.
    { split; try done.
      - exists rd. cbn. by rewrite O1, !nonempty_true.
      - intros Hsh. destruct (O4 Hsh) as [? ?]. done. }
    unfold phase. change (state_ (upd_output b' c1)) with (state_ c).
    by destruct (closing_cases _ Hc) as [-> | ->].
Qed.

Lemma readFd_contains b q n bs :
  contains b q n → zlen bs <= extrabuf_size → n + zlen bs < 2 ^ 31 →
  ∃ b', readFd (ReadBytes bs) b = (Val (zlen bs), b') ∧ contains b' (q ++ bs) (n + zlen bs).
Proof.
  intros [[room Hb] Hz] Hbs Hm. destruct (writable_spec _ _ _ Hb) as [_ Hw].
  destruct (readFd_spec b q room bs Hb) as (b' & R & H' & Hz'); [lia| |].
  { destruct (Z.ltb_spec (writableBytes b) extrabuf_size); lia. }
  exists b'. split; [done|]. split; [eauto|lia].
Qed.

Definition read_size (r : readv_result) : Z :=
  match r with ReadBytes bs => zlen bs | ReadError => 0 end.

Lemma inv_input_changed n n' c b r :
  inv n c → contains b r n' → n <= n' → inv n' (upd_input b c).
Proof.
  intros [H1 H2 [q [Hq Hp]]] Hb Hn. split; [done|by exists r|].
  exists q. split; [by eapply contains_le|]. unfold phase in *. cbn.
  destruct (state_ c) eqn:Hs; try done.
  - destruct Hp as [? ? ? ?]. by split.
  - destruct Hp as [? ? ? ?]. by split.
Qed.

Lemma handleRead_inv n c r :
  inv n c → closing (state_ c) = true → reads r → n + read_size r < 2 ^ 31 →
  ∃ c', handleRead r c = (Val (), c') ∧ inv (n + read_size r) c' ∧ outputBuffer_ c' = outputBuffer_ c.
Proof.
  intros Hinv Hc Hr Hm. destruct (inv_input _ _ Hinv) as [q Hq]. unfold handleRead.
  destruct r as [|bs]; cbn [reads read_size] in Hr, Hm |- *.
  - assert (on_input (readFd ReadError) c = (Val (-1), c)) as Hv by (by destruct c).
    rewrite (act_bind_val _ _ _ _ _ Hv). cbn. exists c. by rewrite Z.add_0_r.
  - destruct (readFd_contains _ _ _ _ Hq Hr Hm) as (b' & Hb' & Hq').
    pose proof (zlen_nonneg bs).
    rewrite (act_bind_val _ _ _ _ _ (on_input_val _ _ _ _ Hb')).
    assert (inv (n + zlen bs) (upd_input b' c)) as Hi by (eapply inv_input_changed; [done..|lia]).
    destruct (Z.ltb_spec 0 (zlen bs)).
    + eexists. split; [reflexivity|]. split; [by apply inv_notice|done].
    + replace (zlen bs =? 0) with true by (symmetry; apply Z.eqb_eq; lia).
      destruct (handleClose_inv _ _ Hi Hc) as (c' & H1 & H2 & H3). by exists c'.
Qed.

Lemma has_lor x m k : has x (Z.lor m k) = has x m || has x k.
Proof.
  unfold has. rewrite Z.land_lor_distr_r.
  destruct (Z.eqb_spec (Z.lor (Z.land x m) (Z.land x k)) 0) as [H0|H0].
  - apply Z.lor_eq_0_iff in H0 as [-> ->]. done.
  - destruct (Z.eqb_spec (Z.land x m) 0) as [H1|H1]; [|done].
    destruct (Z.eqb_spec (Z.land x k) 0) as [H2|H2]; [|done]. by rewrite H1, H2 in H0.
Qed.

Lemma registered_open n c :
  inv n c → isNoneEvent (channel_ c) = false → closing (state_ c) = true.
Proof.
  intros [_ _ [q [_ Hp]]] Hw. unfold phase in Hp. destruct (state_ c); try done.
  - destruct Hp as [He _]. unfold isNoneEvent in Hw. by rewrite He in Hw.
  - destruct Hp as [He _]. by rewrite He in Hw.
Qed.

Lemma handleEvent_inv n c revents r w :
  inv n c → isNoneEvent (channel_ c) = false → has revents (Z.lor POLLPRI POLLRDHUP) = false →
  reads r → takes w (readableBytes (outputBuffer_ c)) → n + read_size r < 2 ^ 31 →
  ∃ c', handleEvent revents r w c = (Val (), c') ∧ inv (n + read_size r) c'.
Proof.
  intros Hinv He Hpri Hr Hw Hm. pose proof (registered_open _ _ Hinv He) as Hc.
  assert (0 <= read_size r) by (destruct r; [done|apply zlen_nonneg]).
  unfold handleEvent. rewrite (has_lor revents POLLIN), Hpri, orb_false_r.
  assert (∃ c1, ((when has revents POLLHUP && negb (has revents POLLIN) do handleClose) ;;;
     (when has revents POLLIN do handleRead r)) c = (Val (), c1)
     ∧ inv (n + read_size r) c1 ∧ outputBuffer_ c1 = outputBuffer_ c) as (c1 & Hc1 & Hi1 & Ho1).
  { destruct (has revents POLLIN) eqn:Hin; cbn [negb].
    - rewrite andb_false_r. act_step. by apply handleRead_inv.
    - rewrite andb_true_r. destruct (has revents POLLHUP).
      + destruct (handleClose_inv _ _ Hinv Hc) as (c1 & H1 & H2 & H3). exists c1.
        rewrite (act_bind_val _ _ _ _ _ H1). split_and!; [done| |done]. eapply inv_le; [done|lia].
      + exists c. split_and!; [done| |done]. eapply inv_le; [done|lia]. }
  rewrite <-act_bind_assoc. rewrite (act_bind_val _ _ _ _ _ Hc1).
  destruct (has revents POLLOUT); [|by exists c1].
  apply handleWrite_inv; [done|by rewrite Ho1].
Qed.

(** *** The other steps *)

Lemma connectEstablished_inv n c :
  inv n c → state_ c = kConnecting → ∃ c', connectEstablished c = (Val (), c') ∧ inv n c'.
Proof.
  intros Hinv Hs. eexists. split.
  { unfold connectEstablished. act_step. rewrite bool_decide_true by done. do 3 act_step. reflexivity. }
  destruct (inv_output _ _ Hinv) as (q & Hq & Hp). unfold phase in Hp. rewrite Hs in Hp.
  destruct Hp as (Hch & -> & Hso & Hta & Hli).
  split; [|apply (inv_input _ _ Hinv)|].
  - destruct (inv_queue _ _ Hinv) as [H1 H2]. split; [done|]. intros _. apply H2. by left.
  - exists []. split; [done|]. unfold phase. cbn. split; cbn.
    + exists true. by rewrite Hch.
    + intros _. by rewrite Hta, Hso.
    + unfold lifecycle in *. cbn. by rewrite filter_app, Hli.
    + by rewrite Hso.
Qed.

Lemma connectDestroyed_inv n c :
  inv n c → state_ c = kConnected ∨ state_ c = kDisconnected →
  ∃ c', connectDestroyed c = (Val (), c') ∧ inv n c'.
Proof.
  intros Hinv Hs. unfold connectDestroyed. act_step.
  assert (∃ c1, (when bool_decide (state_ c = kConnected) do
     (setState kDisconnected ;;; on_channel disableAll ;;; notify Down)) c = (Val (), c1)
     ∧ inv n c1 ∧ state_ c1 = kDisconnected) as (c1 & Hc1 & Hi1 & Hs1).
  { case_bool_decide as Hcon; [|exists c; destruct Hs; done].
    destruct (open_inv _ _ Hinv) as (q & Hq & [O1 O2 O3 O4]); [by rewrite Hcon|].
    eexists. split; [do 2 act_step; reflexivity|]. split; [|done].
    split; [|apply (inv_input _ _ Hinv)|].
    - destruct (inv_queue _ _ Hinv) as [H1 H2]. split; [done|]. cbn. intros [?|?]; done.
    - exists q. split; [done|]. cbn. split; [done|]. split.
      + intros Hf. rewrite (O2 Hf). by apply prefix_app_r.
      + right. unfold lifecycle in *. cbn. by rewrite filter_app, O3. }
  rewrite (act_bind_val _ _ _ _ _ Hc1).
  destruct (inv_output _ _ Hi1) as (q & Hq & Hp). unfold phase in Hp. rewrite Hs1 in Hp.
  destruct Hp as (He & Hb & Hl).
  eexists. split.
  { unfold remove_channel, Channel.remove, act_bind, get_state, cpp_assert, put_state, isNoneEvent.
    rewrite He. reflexivity. }
  split; [apply (inv_queue _ _ Hi1)|apply (inv_input _ _ Hi1)|].
  exists q. split; [done|]. unfold phase. cbn. by rewrite Hs1.
Qed.

Lemma reading_inv n c f b :
  inv n c → closing (state_ c) = true →
  (∀ rd wr a, ∃ rd', f (Channel (ev rd wr) a) = Channel (ev rd' wr) true) →
  inv n (upd_reading b (upd_channel f c)).
Proof.
  intros Hinv Hc Hf. destruct (open_inv _ _ Hinv Hc) as (q & Hq & [[rd O1] O2 O3 O4]).
  split; [apply (inv_queue _ _ Hinv)|apply (inv_input _ _ Hinv)|].
  exists q. split; [done|].
  assert (open (upd_reading b (upd_channel f c)) q []) as Ho.
  { split; try done. cbn. rewrite O1. destruct (Hf rd (nonempty q) true) as [rd' ->]. by exists rd'. }
  unfold phase. change (state_ (upd_reading b (upd_channel f c))) with (state_ c).
  by destruct (closing_cases _ Hc) as [-> | ->].
Qed.

Lemma startReadInLoop_inv n c :
  inv n c → closing (state_ c) = true → ∃ c', startReadInLoop c = (Val (), c') ∧ inv n c'.
Proof.
  intros Hinv Hc. unfold startReadInLoop. act_step. destruct (_ || _); [|by exists c].
  eexists. split; [reflexivity|]. apply reading_inv; [done..|].
  intros. exists true. apply ev_enableReading.
Qed.

Lemma stopReadInLoop_inv n c :
  inv n c → closing (state_ c) = true → ∃ c', stopReadInLoop c = (Val (), c') ∧ inv n c'.
Proof.
  intros Hinv Hc. unfold stopReadInLoop. act_step. destruct (_ || _); [|by exists c].
  eexists. split; [reflexivity|]. apply reading_inv; [done..|].
  intros. exists false. apply ev_disableReading.
Qed.

Lemma shutdown_inv n c inLoop :
  inv n c → ∃ c', shutdown inLoop c = (Val (), c') ∧ inv n c'.
Proof.
  intros Hinv. unfold shutdown. act_step. case_bool_decide as Hs; [|by exists c].
  assert (inv n (upd_state kDisconnecting c)) as Hi by (apply inv_disconnecting; [done|by rewrite Hs]).
  act_step. destruct inLoop.
  - by apply shutdownInLoop_inv.
  - eexists. split; [reflexivity|]. by apply inv_queued.
Qed.

Lemma forceClose_inv n c : inv n c → ∃ c', forceClose c = (Val (), c') ∧ inv n c'.
Proof.
  intros Hinv. unfold forceClose. act_step. destruct (closing (state_ c)) eqn:Hs; [|by exists c].
  eexists. split; [act_step; reflexivity|]. apply inv_queued; [by apply inv_disconnecting|done..].
Qed.

Lemma inv_loop n c l :
  inv n c → pendingFunctors_ l `suffix_of` pendingFunctors_ (loop_ c) → inv n (upd_loop (λ _, l) c).
Proof.
  intros Hinv [fs Hfs]. eapply inv_frame; try done.
  destruct (inv_queue _ _ Hinv) as [H1 H2]. rewrite Hfs in H1, H2. split; cbn.
  - by apply Forall_app in H1 as [_ ?].
  - intros Hs. by apply H2, Forall_app in Hs as [_ ?].
Qed.

Lemma forceCloseWithDelay_inv n c : inv n c → ∃ c', forceCloseWithDelay c = (Val (), c') ∧ inv n c'.
Proof.
  intros Hinv. unfold forceCloseWithDelay. act_step. destruct (closing (state_ c)) eqn:Hs; [|by exists c].
  eexists. split; [act_step; reflexivity|].
  apply (inv_loop _ (upd_state kDisconnecting c) (Loop _ _)); [by apply inv_disconnecting|done].
Qed.

Lemma run_timer_inv n c : inv n c → ∃ c', run_timer c = (Val (), c') ∧ inv n c'.
Proof.
  intros Hinv. unfold run_timer. act_step. destruct (timers_ (loop_ c)) as [|k]; [by exists c|].
  act_step. apply forceClose_inv. by apply (inv_loop _ c (Loop _ k)).
Qed.

Lemma run_functor_inv n c w :
  inv n c →
  (∀ f fs, pendingFunctors_ (loop_ c) = f :: fs → is_reading_functor f = true → closing (state_ c) = true) →
  ∃ c', run_functor w c = (Val (), c') ∧ inv n c'.
Proof.
  intros Hinv Hv. unfold run_functor. act_step. destruct (pendingFunctors_ (loop_ c)) as [|f fs] eqn:Hf; [by exists c|].
  assert (inv n (upd_loop (λ l, Loop fs (timers_ l)) c)) as Hi.
  { apply (inv_loop _ c (Loop fs (timers_ (loop_ c)))); [done|]. rewrite Hf. by exists [f]. }
  act_step. specialize (Hv f fs eq_refl). destruct (inv_queue _ _ Hinv) as [H1 H2]. rewrite Hf in H1, H2.
  destruct f; cbn [call_functor].
  - apply Forall_cons in H1 as [? _]. done.
  - assert (¬ (state_ c = kConnecting ∨ state_ c = kConnected)) as Hs.
    { intros Hs. apply H2, Forall_cons in Hs as [? _]. done. }
    apply shutdownInLoop_inv; [done| |tauto].
    intros Hc. destruct (closing_cases _ Hc) as [Hx|Hx]; [|done]. tauto.
  - unfold forceCloseInLoop. act_step.
    destruct (closing (state_ (upd_loop _ c))) eqn:Hs; [|by eexists].
    destruct (handleClose_inv _ _ Hi Hs) as (c' & ? & ? & _). by exists c'.
  - apply startReadInLoop_inv; [done|]. by apply Hv.
  - apply stopReadInLoop_inv; [done|]. by apply Hv.
  - eexists. split; [reflexivity|]. by apply inv_notice.
  - eexists. split; [reflexivity|]. by apply inv_notice.
Qed.

(** ** The theorem *)

(** The user calls send() in the loop thread. *)
Definition sends_in_loop (e : event) : Prop :=
  match e with Send inLoop _ _ => inLoop = true | _ => True end.

Definition total_growth (es : list event) : Z := foldr (λ e n, growth e + n) 0 es.

Lemma growth_nonneg e : 0 <= growth e.
Proof. destruct e as [|? m ?| | | | | | | | |? [|bs] ?|]; cbn; try lia; apply zlen_nonneg. Qed.

Lemma total_growth_snoc es e : total_growth (es ++ [e]) = total_growth es + growth e.
Proof. unfold total_growth. induction es as [|e' es IH]; simpl; [lia|]. rewrite IH. lia. Qed.

Lemma handle_inv n c e :
  inv n c → valid c e → sends_in_loop e → n + growth e < 2 ^ 31 →
  ∃ c', handle e c = (Val (), c') ∧ inv (n + growth e) c'.
Proof.
  intros Hinv Hv Hl Hm. destruct e as [|inLoop m w|inLoop| | |inLoop|inLoop|k|w| |revents r w|];
    cbn [growth handle valid sends_in_loop] in *; rewrite ?Z.add_0_r in *.
  - by apply connectEstablished_inv.
  - subst inLoop. by apply send_inv.
  - by apply shutdown_inv.
  - by apply forceClose_inv.
  - by apply forceCloseWithDelay_inv.
  - destruct inLoop; [by apply startReadInLoop_inv|].
    eexists. split; [reflexivity|]. by apply inv_queued.
  - destruct inLoop; [by apply stopReadInLoop_inv|].
    eexists. split; [reflexivity|]. by apply inv_queued.
  - destruct (inv_input _ _ Hinv) as [r Hr]. rewrite (readable_contains _ _ _ Hr) in Hv.
    destruct (retrieve_contains _ _ _ _ Hr Hv) as (b' & Hb' & Hr').
    eexists. split; [by apply on_input_val|]. by eapply inv_input_changed.
  - apply run_functor_inv; [done|]. intros f fs Hf. rewrite Hf in Hv. apply Hv.
  - by apply run_timer_inv.
  - destruct Hv as (_ & He & Hp & _ & _ & Hr & Hw).
    assert (match r with ReadError => 0 | ReadBytes bs => zlen bs end = read_size r) as Heq by (by destruct r).
    rewrite Heq in *. by apply handleEvent_inv.
  - destruct Hv as [Hs _]. by apply connectDestroyed_inv.
Qed.

Lemma construct_inv o : inv 1032 (construct o).
Proof.
  destruct (buffer_construct_holds kInitialSize) as (Hc & _ & Hz); [unfold kInitialSize; lia..|].
  assert (contains (Buffer.construct kInitialSize) [] 1032) as Hb by (split; [eauto|rewrite Hz; done]).
  split; [split; [constructor|intros _; constructor]|by exists []|]. exists []. by split_and!.
Qed.

Lemma execs_inv c0 es c :
  execs c0 es c → ∀ o, c0 = construct o → Forall sends_in_loop es → total_growth es < 2 ^ 31 - 1032 →
  inv (1032 + total_growth es) c.
Proof.
  induction 1 as [c0|c0 es c1 e c2 Hex IH Hv Hh]; intros o -> Hl Hm.
  - rewrite Z.add_0_r. apply construct_inv.
  - rewrite total_growth_snoc in *. pose proof (growth_nonneg e).
    apply Forall_app in Hl as [Hl He]. apply Forall_cons in He as [He _].
    destruct (handle_inv (1032 + total_growth es) c1 e) as (c' & Hc' & Hi); [|done..|lia|].
    { eapply IH; [done..|lia]. }
    rewrite Hh in Hc'. injection Hc' as ->. by rewrite Z.add_assoc.
Qed.

(** C1: TcpConnection, with send() called in the loop thread and less than
    2^31 - 1032 bytes of traffic.  In every reachable state, every step that the
    environment may take ([valid]) succeeds: no assertion fails, no buffer is
    accessed out of bounds.  [valid] leaves out two things that the code lets
    happen and that fail an assertion: startRead and stopRead, called or run from
    the queue, when the connection is not up ([start_read_after_close_aborts]),
    and connectDestroyed in the state kDisconnecting
    ([destroy_while_disconnecting_aborts]).  While the connection
    is up, the bytes of all send() calls, in order, are those that the kernel has
    taken followed by those in the output buffer; the channel waits for writing
    exactly if there are such bytes; if the write side is shut down, there are
    none.  When the connection is down, the kernel has taken a prefix.  (As far
    as bytes go, unless a write failed with EPIPE or ECONNRESET.)  The user is
    told once that the connection is up, and once that it is down. *)
Theorem tcp_connection_sends_in_order o es c :
  execs (construct o) es c → Forall sends_in_loop es → total_growth es < 2 ^ 31 - 1032 →
  (∀ e, valid c e → sends_in_loop e → total_growth (es ++ [e]) < 2 ^ 31 - 1032 →
        ∃ c', returns (handle e) c () c') ∧
  (closing (state_ c) = true →
     ∃ q room, holds (outputBuffer_ c) q room ∧
       (failed (ghost_ c) = false → taken (ghost_ c) = wire (socket_ c) ++ q) ∧
       (isWriting (channel_ c) = true ↔ q ≠ []) ∧
       (shut (socket_ c) = true → q = []) ∧
       lifecycle c = [Up]) ∧
  (state_ c = kDisconnected →
     (failed (ghost_ c) = false → wire (socket_ c) `prefix_of` taken (ghost_ c)) ∧
     isNoneEvent (channel_ c) = true ∧
     (lifecycle c = [Up; Down; Closed] ∨ lifecycle c = [Up; Down])).
Proof.
  intros Hex Hl Hm. pose proof (execs_inv _ _ _ Hex o eq_refl Hl Hm) as Hinv. split_and!.
  - intros e Hv He Hm'. rewrite total_growth_snoc in Hm'.
    destruct (handle_inv _ _ _ Hinv Hv He) as (c' & Hc' & _); [lia|]. by exists c'.
  - intros Hc. destruct (open_inv _ _ Hinv Hc) as (q & [[room Hq] _] & [[rd O1] O2 O3 O4]).
    exists q, room. rewrite app_nil_r in O2. rewrite O1, ev_writing. split_and!; try done.
    + unfold nonempty. by rewrite bool_decide_eq_true.
    + intros Hs. by destruct (O4 Hs).
  - intros Hs. destruct (inv_output _ _ Hinv) as (q & _ & Hp). unfold phase in Hp. rewrite Hs in Hp.
    destruct Hp as (He & Hb & Hli). split_and!; [done| |done]. unfold isNoneEvent. by rewrite He.
Qed.

(** ** Runs *)

Lemma execs_app c es c1 es' c2 : execs c es c1 → execs c1 es' c2 → execs c (es ++ es') c2.
Proof.
  intros H1 H2. induction H2 as [c1|c1 es' c2 e c3 H2 IH Hv Hh]; [by rewrite app_nil_r|].
  rewrite (assoc_L (++)). eapply execs_snoc; [by apply IH|done..].
Qed.

Lemma run_execs es c c' : run es c = Some c' → execs c es c'.
Proof.
  revert c. induction es as [|e es IH]; intros c Hr; cbn in Hr; [simplify_eq; constructor|].
  case_bool_decide as Hv; [|done]. destruct (handle e c) as [[[]|?| |] c1] eqn:Hh; try done.
  apply (execs_app c [e] c1); [|by apply IH]. by apply (execs_snoc c [] c e c1); [constructor|..].
Qed.

Definition plain : options := Options false false (64 * 1024 * 1024).

(** A message in two writes, then shutdown(). *)
Definition graceful : list event :=
  [Established; Send true [97; 98] (WriteOk 1); Shutdown true; Poll POLLOUT ReadError (WriteOk 1)].

Lemma tcp_connection_sends_in_order_witness :
  ∃ c, run graceful (construct plain) = Some c ∧
    closing (state_ c) = true ∧ shut (socket_ c) = true ∧
    ∃ q room, holds (outputBuffer_ c) q room ∧
      (failed (ghost_ c) = false → taken (ghost_ c) = wire (socket_ c) ++ q) ∧
      (isWriting (channel_ c) = true ↔ q ≠ []) ∧
      (shut (socket_ c) = true → q = []) ∧
      lifecycle c = [Up].
Proof.
  destruct (run graceful (construct plain)) as [c|] eqn:Hr; [|by vm_compute in Hr].
  exists c. split; [done|].
  assert (closing (state_ c) = true ∧ shut (socket_ c) = true) as [Hc Hs].
  { change (closing (state_ (default c (Some c))) = true ∧ shut (socket_ (default c (Some c))) = true).
    rewrite <-Hr. split; vm_compute; reflexivity. }
  split; [done|]. split; [done|].
  refine (proj1 (proj2 (tcp_connection_sends_in_order plain graceful c _ _ _)) Hc).
  - by apply run_execs.
  - repeat (apply Forall_cons_2; [done|]). apply Forall_nil_2.
  - vm_compute. reflexivity.
Defined.

(** ** What can go wrong *)

(** What the state looks like from outside. *)
Definition summary (c : conn) : StateE * bool * list Z * list Z * bool :=
  (state_ c, shut (socket_ c), wire (socket_ c), taken (ghost_ c), failed (ghost_ c)).

(** Another thread sends two messages and then shuts down.  The state changes to
    kDisconnecting at once, before the functor of the second message has run; when
    the first message is drained in between, handleWrite shuts the write side
    down, and the second message meets a closed socket. *)
Theorem send_from_thread_lost :
  ∃ c, execs (construct plain)
         [Established; Send false [97; 98] (WriteOk 0); Functor (WriteOk 1);
          Send false [99] (WriteOk 0); Shutdown false; Poll POLLOUT ReadError (WriteOk 1);
          Functor (WriteError EPIPE)] c
    ∧ summary c = (kDisconnecting, true, [97; 98], [97; 98; 99], true).
Proof.
  match goal with |- ∃ c, execs _ ?es c ∧ _ => set (evs := es) end.
  destruct (run evs (construct plain)) as [c|] eqn:Hr; [|by vm_compute in Hr].
  exists c. split; [by apply run_execs|].
  change (summary (default c (Some c)) = (kDisconnecting, true, [97; 98], [97; 98; 99], true)).
  rewrite <-Hr. vm_compute. reflexivity.
Qed.

(** startRead() does not look at the state: after the connection is down it
    enables reading again, and connectDestroyed then fails the assertion of
    Channel::remove. *)
Theorem start_read_after_close_aborts c n :
  inv n c → state_ c = kDisconnected →
  ∃ c', returns (startRead true) c () c' ∧ (connectDestroyed c').1 = Abort.
Proof.
  intros Hinv Hs. destruct (inv_output _ _ Hinv) as (q & _ & Hp). unfold phase in Hp. rewrite Hs in Hp.
  destruct Hp as (He & _). eexists. split.
  { unfold returns, startRead, startReadInLoop. act_step. unfold isReading. rewrite He.
    rewrite orb_true_r. reflexivity. }
  unfold connectDestroyed. act_step. cbn [state_ upd_reading upd_channel].
  rewrite bool_decide_false by (rewrite Hs; done). act_step.
  unfold remove_channel, Channel.remove, act_bind, get_state, cpp_assert, isNoneEvent. cbn. by rewrite He.
Qed.

(** connectDestroyed of a connection that is shutting down (a server that is
    destroyed in that moment) does not disable the channel, and fails the same
    assertion. *)
Theorem destroy_while_disconnecting_aborts :
  ∃ c, execs (construct plain) [Established; Shutdown true] c ∧ (connectDestroyed c).1 = Abort.
Proof.
  eexists. split; [apply run_execs; vm_compute; reflexivity|]. vm_compute. reflexivity.
Qed.
