(* ===== verification/Date.v ===== *)
(** * Date.cc (muduo/base): the Gregorian calendar as Julian day numbers

    The arithmetic is that of [int]: [/] truncates, and [None] is an overflow in
    one of the intermediate results.  The reference is the calendar itself:
    [days_in_month] and [next_day].  Over [Z], without bounds, [jdn] counts its
    days and [ymd] is the inverse of [jdn]; the code computes both as long as no
    operand is negative and nothing overflows. *)
From S2P Require Import Prelude.

Definition ints_ok (l : list Z) : bool := forallb (λ z, (- 2 ^ 31 <=? z) && (z <? 2 ^ 31)) l.

Record YearMonthDay := Ymd { year : Z; month : Z; day : Z }.

#[export] Instance ymd_eq_dec : EqDecision YearMonthDay.
Proof. solve_decision. Defined.

Module Date.

Definition getJulianDayNumber (year month day : Z) : option Z :=
  let a := (14 - month) ÷ 12 in
  let y := year + 4800 - a in
  let m := month + 12 * a - 3 in
  if ints_ok [14 - month; year + 4800; y; 12 * a; month + 12 * a; m; 153 * m; 153 * m + 2;
              day + (153 * m + 2) ÷ 5; y * 365;
              day + (153 * m + 2) ÷ 5 + y * 365;
              day + (153 * m + 2) ÷ 5 + y * 365 + y ÷ 4;
              day + (153 * m + 2) ÷ 5 + y * 365 + y ÷ 4 - y ÷ 100;
              day + (153 * m + 2) ÷ 5 + y * 365 + y ÷ 4 - y ÷ 100 + y ÷ 400;
              day + (153 * m + 2) ÷ 5 + y * 365 + y ÷ 4 - y ÷ 100 + y ÷ 400 - 32045]
  then Some (day + (153 * m + 2) ÷ 5 + y * 365 + y ÷ 4 - y ÷ 100 + y ÷ 400 - 32045)
  else None.

Definition getYearMonthDay (julianDayNumber : Z) : option YearMonthDay :=
  let a := julianDayNumber + 32044 in
  let b := (4 * a + 3) ÷ 146097 in
  let c := a - (b * 146097) ÷ 4 in
  let d := (4 * c + 3) ÷ 1461 in
  let e := c - (1461 * d) ÷ 4 in
  let m := (5 * e + 2) ÷ 153 in
  if ints_ok [a; 4 * a; 4 * a + 3; b * 146097; c; 4 * c; 4 * c + 3; 1461 * d; e; 5 * e; 5 * e + 2;
              153 * m; 153 * m + 2; e - (153 * m + 2) ÷ 5; e - (153 * m + 2) ÷ 5 + 1;
              m + 3; 12 * (m ÷ 10); m + 3 - 12 * (m ÷ 10);
              b * 100; b * 100 + d; b * 100 + d - 4800; b * 100 + d - 4800 + m ÷ 10]
  then Some (Ymd (b * 100 + d - 4800 + m ÷ 10) (m + 3 - 12 * (m ÷ 10)) (e - (153 * m + 2) ÷ 5 + 1))
  else None.

(** [julianDayNumber_+1] does not overflow for a date that has been built. *)
Definition weekDay (julianDayNumber_ : Z) : Z := Z.rem (julianDayNumber_ + 1) 7.

End Date.

(** ** The calendar *)
Module Calendar.

Definition leap (y : Z) : bool :=
  ((y mod 4 =? 0) && negb (y mod 100 =? 0)) || (y mod 400 =? 0).

Definition days_in_month (y m : Z) : Z :=
  if m =? 2 then (if leap y then 29 else 28)
  else if (m =? 4) || (m =? 6) || (m =? 9) || (m =? 11) then 30 else 31.

Definition valid (x : YearMonthDay) : bool :=
  (1 <=? month x) && (month x <=? 12) && (1 <=? day x) && (day x <=? days_in_month (year x) (month x)).

Definition next_day (x : YearMonthDay) : YearMonthDay :=
  if day x <? days_in_month (year x) (month x) then Ymd (year x) (month x) (day x + 1)
  else if month x <? 12 then Ymd (year x) (month x + 1) 1
  else Ymd (year x + 1) 1 1.

(** *** The conversions without overflow, with division rounding down *)

Definition jdn (x : YearMonthDay) : Z :=
  let a := (14 - month x) / 12 in
  let y := year x + 4800 - a in
  let m := month x + 12 * a - 3 in
  day x + (153 * m + 2) / 5 + y * 365 + y / 4 - y / 100 + y / 400 - 32045.

Definition ymd (j : Z) : YearMonthDay :=
  let a := j + 32044 in
  let b := (4 * a + 3) / 146097 in
  let c := a - (b * 146097) / 4 in
  let d := (4 * c + 3) / 1461 in
  let e := c - (1461 * d) / 4 in
  let m := (5 * e + 2) / 153 in
  Ymd (b * 100 + d - 4800 + m / 10) (m + 3 - 12 * (m / 10)) (e - (153 * m + 2) / 5 + 1).

Definition shift (k : Z) (x : YearMonthDay) : YearMonthDay := Ymd (year x + 400 * k) (month x) (day x).

Lemma jdn_shift k x : jdn (shift k x) = jdn x + 146097 * k.
Proof.
  unfold jdn, shift. cbn [year month day]. set (a := (14 - month x) / 12).
  replace (year x + 400 * k + 4800 - a) with (year x + 4800 - a + 400 * k) by lia.
  set (y := year x + 4800 - a).
  replace ((y + 400 * k) / 4) with (y / 4 + 100 * k)
    by (replace (y + 400 * k) with (y + (100 * k) * 4) by lia; by rewrite Z.div_add by lia).
  replace ((y + 400 * k) / 100) with (y / 100 + 4 * k)
    by (replace (y + 400 * k) with (y + (4 * k) * 100) by lia; by rewrite Z.div_add by lia).
  replace ((y + 400 * k) / 400) with (y / 400 + k)
    by (replace (y + 400 * k) with (y + k * 400) by lia; by rewrite Z.div_add by lia).
  lia.
Qed.

Lemma ymd_shift k j : ymd (j + 146097 * k) = shift k (ymd j).
Proof.
  unfold ymd, shift. cbv zeta.
  replace ((4 * (j + 146097 * k + 32044) + 3) / 146097) with ((4 * (j + 32044) + 3) / 146097 + 4 * k).
  2: { replace (4 * (j + 146097 * k + 32044) + 3) with (4 * (j + 32044) + 3 + (4 * k) * 146097) by lia.
       by rewrite Z.div_add by lia. }
  set (b := (4 * (j + 32044) + 3) / 146097).
  replace (((b + 4 * k) * 146097) / 4) with ((b * 146097) / 4 + 146097 * k).
  2: { replace ((b + 4 * k) * 146097) with (b * 146097 + (146097 * k) * 4) by lia.
       by rewrite Z.div_add by lia. }
  replace (j + 146097 * k + 32044 - ((b * 146097) / 4 + 146097 * k)) with (j + 32044 - (b * 146097) / 4) by lia.
  cbn [year month day]. f_equal. lia.
Qed.

Lemma leap_shift k y : leap (y + 400 * k) = leap y.
Proof.
  unfold leap.
  replace ((y + 400 * k) mod 4) with (y mod 4)
    by (replace (y + 400 * k) with (y + (100 * k) * 4) by lia; by rewrite Z.mod_add by lia).
  replace ((y + 400 * k) mod 100) with (y mod 100)
    by (replace (y + 400 * k) with (y + (4 * k) * 100) by lia; by rewrite Z.mod_add by lia).
  replace ((y + 400 * k) mod 400) with (y mod 400)
    by (replace (y + 400 * k) with (y + k * 400) by lia; by rewrite Z.mod_add by lia).
  done.
Qed.

Lemma days_shift k y m : days_in_month (y + 400 * k) m = days_in_month y m.
Proof. unfold days_in_month. by rewrite leap_shift. Qed.

Lemma valid_shift k x : valid (shift k x) = valid x.
Proof. unfold valid, shift. cbn [year month day]. by rewrite days_shift. Qed.

Lemma next_day_shift k x : next_day (shift k x) = shift k (next_day x).
Proof.
  unfold next_day, shift. cbn [year month day]. rewrite days_shift.
  destruct (day x <? _); [done|]. destruct (month x <? 12); [done|]. cbn. f_equal. lia.
Qed.

Lemma days_bounds y m : 28 <= days_in_month y m <= 31.
Proof. unfold days_in_month. repeat case_match; lia. Qed.

Lemma next_day_valid x : valid x = true → valid (next_day x) = true ∧ year x <= year (next_day x) <= year x + 1.
Proof.
  destruct x as [y m d]. unfold valid, next_day. cbn [year month day].
  pose proof (days_bounds y (m + 1)). pose proof (days_bounds (y + 1) 1).
  case_match; [|case_match]; cbn [year month day]; lia.
Qed.

(** *** Counting the days *)

(** The days before the month [mm], the months being counted from March. *)
Lemma month_ends mm :
  0 <= mm <= 10 → (153 * (mm + 1) + 2) / 5 - (153 * mm + 2) / 5 =
  (if (mm =? 1) || (mm =? 3) || (mm =? 6) || (mm =? 8) then 30 else 31).
Proof.
  intros Hm. assert (mm = 0 ∨ mm = 1 ∨ mm = 2 ∨ mm = 3 ∨ mm = 4 ∨ mm = 5 ∨ mm = 6 ∨ mm = 7 ∨ mm = 8 ∨ mm = 9 ∨ mm = 10) by lia.
  repeat match goal with H : _ ∨ _ |- _ => destruct H end; subst; reflexivity.
Qed.

Lemma div_succ y n : 0 < n → (y + 1) / n - y / n = if (y + 1) mod n =? 0 then 1 else 0.
Proof.
  intros Hn. pose proof (Z.div_mod (y + 1) n ltac:(lia)) as Hd.
  pose proof (Z.mod_pos_bound (y + 1) n Hn) as Hb. set (r := (y + 1) mod n) in *.
  destruct (r =? 0) eqn:Hr.
  - replace y with (((y + 1) / n - 1) * n + (n - 1)) at 2 by nia.
    rewrite Z.div_add_l, (Z.div_small (n - 1)) by lia. lia.
  - replace y with ((y + 1) / n * n + (r - 1)) at 2 by nia.
    rewrite Z.div_add_l, (Z.div_small (r - 1)) by lia. lia.
Qed.

Lemma leap_year_length y :
  (y + 1) / 4 - (y + 1) / 100 + (y + 1) / 400 - (y / 4 - y / 100 + y / 400) = if leap (y + 1) then 1 else 0.
Proof.
  pose proof (div_succ y 4 ltac:(lia)). pose proof (div_succ y 100 ltac:(lia)). pose proof (div_succ y 400 ltac:(lia)).
  assert (H4100 : (y + 1) mod 100 = 0 → (y + 1) mod 4 = 0) by (Z.to_euclidean_division_equations; lia).
  assert (H100400 : (y + 1) mod 400 = 0 → (y + 1) mod 100 = 0) by (Z.to_euclidean_division_equations; lia).
  unfold leap. destruct (_ mod 4 =? 0) eqn:?, (_ mod 100 =? 0) eqn:?, (_ mod 400 =? 0) eqn:?; cbn; lia.
Qed.

Lemma jdn_next_day x : valid x = true → jdn (next_day x) = jdn x + 1.
Proof.
  destruct x as [y m d]. unfold valid, next_day. cbn [year month day]. intros Hv.
  destruct (d <? days_in_month y m) eqn:Hd; [unfold jdn; cbn [year month day]; lia|].
  assert (Hd' : d = days_in_month y m) by lia.
  assert (Hm : m = 1 ∨ m = 2 ∨ m = 12 ∨ 3 <= m <= 11) by lia.
  destruct Hm as [->|[->|[->|Hm]]].
  - subst d. unfold jdn. cbn [year month day Z.ltb Z.compare Pos.compare Pos.compare_cont].
    change ((14 - 1) / 12) with 1. change ((14 - (1 + 1)) / 12) with 1. change (days_in_month y 1) with 31.
    change ((153 * (1 + 12 * 1 - 3) + 2) / 5) with 306. change ((153 * (1 + 1 + 12 * 1 - 3) + 2) / 5) with 337. lia.
  - subst d. unfold jdn. cbn [year month day Z.ltb Z.compare Pos.compare Pos.compare_cont].
    pose proof (leap_year_length (y + 4799)) as Hl.
    replace (leap (y + 4799 + 1)) with (leap y) in Hl
      by (replace (y + 4799 + 1) with (y + 400 * 12) by lia; by rewrite leap_shift).
    unfold days_in_month. cbn [Z.eqb Pos.eqb].
    change ((14 - 2) / 12) with 1. change ((14 - (2 + 1)) / 12) with 0.
    replace (y + 4800 - 1) with (y + 4799) by lia. replace (y + 4800 - 0) with (y + 4799 + 1) by lia.
    change ((153 * (2 + 12 * 1 - 3) + 2) / 5) with 337. change ((153 * (2 + 1 + 12 * 0 - 3) + 2) / 5) with 0.
    destruct (leap y); lia.
  - subst d. unfold jdn. cbn [year month day Z.ltb Z.compare Pos.compare Pos.compare_cont].
    change ((14 - 12) / 12) with 0. change ((14 - 1) / 12) with 1.
    replace (y + 1 + 4800 - 1) with (y + 4800 - 0) by lia.
    change (days_in_month y 12) with 31.
    change ((153 * (12 + 12 * 0 - 3) + 2) / 5) with 275. change ((153 * (1 + 12 * 1 - 3) + 2) / 5) with 306. lia.
  - replace (m <? 12) with true by lia. unfold jdn. cbn [year month day].
    replace ((14 - m) / 12) with 0 by (Z.to_euclidean_division_equations; lia).
    replace ((14 - (m + 1)) / 12) with 0 by (Z.to_euclidean_division_equations; lia).
    pose proof (month_ends (m - 3) ltac:(lia)) as He.
    replace (m + 1 + 12 * 0 - 3) with (m - 3 + 1) by lia. replace (m + 12 * 0 - 3) with (m - 3) by lia.
    assert (Hdm : days_in_month y m = if (m - 3 =? 1) || (m - 3 =? 3) || (m - 3 =? 6) || (m - 3 =? 8) then 30 else 31)
      by (unfold days_in_month; repeat case_match; lia).
    lia.
Qed.

(** *** Decoding *)

(** The three steps of [ymd]: the century, the year of the century and the
    month, the days being counted from March 1. *)
Lemma decode_century q c :
  0 <= c <= (if (q + 1) mod 4 =? 0 then 36524 else 36523) →
  (4 * (c + (q * 146097) / 4) + 3) / 146097 = q.
Proof. intros Hc. symmetry. destruct (_ =? 0) eqn:Hq; Z.to_euclidean_division_equations; lia. Qed.

Lemma decode_year r doy :
  0 <= r → 0 <= doy <= (if (r + 1) mod 4 =? 0 then 365 else 364) →
  (4 * (doy + (1461 * r) / 4) + 3) / 1461 = r.
Proof. intros Hr Hc. symmetry. destruct (_ =? 0) eqn:Hq; Z.to_euclidean_division_equations; lia. Qed.

Lemma decode_month mm d :
  0 <= mm <= 11 → 0 <= d → (mm <= 10 → d < (153 * (mm + 1) + 2) / 5 - (153 * mm + 2) / 5) → (mm = 11 → d <= 28) →
  (5 * (d + (153 * mm + 2) / 5) + 2) / 153 = mm.
Proof.
  intros Hm Hd Hd1 Hd2. symmetry. Z.to_euclidean_division_equations; lia.
Qed.

(** A date as the number of its year [yy] and month [mm] from March of the
    year -4800, and the bound on the day. *)
Lemma march_calendar x :
  valid x = true →
  let a := (14 - month x) / 12 in let yy := year x + 4800 - a in let mm := month x + 12 * a - 3 in
  0 <= mm <= 11 ∧ (mm <= 10 → day x - 1 < (153 * (mm + 1) + 2) / 5 - (153 * mm + 2) / 5) ∧
  (mm = 11 → day x - 1 <= if leap (yy + 1) then 28 else 27) ∧ 1 <= day x ∧
  mm / 10 = a ∧ mm + 3 - 12 * (mm / 10) = month x.
Proof.
  destruct x as [y m d]. unfold valid. cbn [year month day]. intros Hv.
  assert (Hm : m = 1 ∨ m = 2 ∨ 3 <= m <= 12) by lia. destruct Hm as [->|[->|Hm]].
  - change (days_in_month y 1) with 31 in Hv. cbv zeta. change ((14 - 1) / 12) with 1. change (1 + 12 * 1 - 3) with 10.
    change ((153 * (10 + 1) + 2) / 5 - (153 * 10 + 2) / 5) with 31. change (10 / 10) with 1. lia.
  - cbv zeta. change ((14 - 2) / 12) with 1. change (2 + 12 * 1 - 3) with 11.
    replace (y + 4800 - 1 + 1) with (y + 400 * 12) by lia. rewrite leap_shift.
    unfold days_in_month in Hv. cbn [Z.eqb Pos.eqb] in Hv. change (11 / 10) with 1. destruct (leap y); lia.
  - cbv zeta. replace ((14 - m) / 12) with 0 by (Z.to_euclidean_division_equations; lia).
    replace (m + 12 * 0 - 3) with (m - 3) by lia.
    replace ((m - 3) / 10) with 0 by (Z.to_euclidean_division_equations; lia).
    assert (Hdm : days_in_month y m = if (m - 3 =? 1) || (m - 3 =? 3) || (m - 3 =? 6) || (m - 3 =? 8) then 30 else 31)
      by (unfold days_in_month; repeat case_match; lia).
    pose proof (month_ends (m - 3) ltac:(lia)) as He. set (l := if (_ : bool) then 30 else 31) in *.
    repeat split; try lia; intros; lia.
Qed.

Lemma ymd_jdn x : valid x = true → ymd (jdn x) = x.
Proof.
  intros Hv. pose proof (march_calendar x Hv) as Hc. unfold ymd, jdn. cbv zeta in *.
  set (a := (14 - month x) / 12) in *. set (yy := year x + 4800 - a) in *. set (mm := month x + 12 * a - 3) in *.
  clearbody mm. destruct Hc as (Hmm & Hd & Hf & Hd1 & Ha & Hmo).
  set (s := (153 * mm + 2) / 5) in *. set (q := yy / 100). set (r := yy mod 100).
  assert (Hyy : yy = 100 * q + r /\ 0 <= r < 100) by (unfold q, r; Z.to_euclidean_division_equations; lia).
  assert (H4 : yy / 4 = 25 * q + r / 4) by (Z.to_euclidean_division_equations; lia).
  assert (H400 : yy / 400 = q / 4) by (Z.to_euclidean_division_equations; lia).
  assert (Hq : q * 146097 / 4 = 36524 * q + q / 4) by (Z.to_euclidean_division_equations; lia).
  assert (Hr : 1461 * r / 4 = 365 * r + r / 4) by (Z.to_euclidean_division_equations; lia).
  set (doy := day x - 1 + s).
  assert (Hdoy : 0 <= doy <= if leap (yy + 1) then 365 else 364).
  { unfold doy, s. destruct (decide (mm = 11)) as [->|Hne]; [specialize (Hf eq_refl); change ((153 * 11 + 2) / 5) with 337; case_match; lia|].
    specialize (Hd ltac:(lia)). assert (0 <= (153 * mm + 2) / 5) by (Z.to_euclidean_division_equations; lia).
    assert ((153 * (mm + 1) + 2) / 5 <= 337) by (Z.to_euclidean_division_equations; lia). case_match; lia. }
  replace (day x + s + yy * 365 + yy / 4 - q + yy / 400 - 32045 + 32044)
    with (doy + 1461 * r / 4 + q * 146097 / 4) by lia.
  assert (Hl4 : leap (yy + 1) = true → (r + 1) mod 4 = 0)
    by (unfold leap; clear - Hyy; intros [[? _]%andb_true_iff|?]%orb_true_iff; Z.to_euclidean_division_equations; lia).
  assert (Hl99 : r = 99 → leap (yy + 1) = ((q + 1) mod 4 =? 0)).
  { unfold leap. clear - Hyy. intros. apply eq_bool_prop_intro. rewrite !Is_true_true.
    Z.to_euclidean_division_equations; lia. }
  rewrite (decode_century q).
  2:{ assert (r <= 98 \/ r = 99) as [?| ->] by lia.
      - assert (0 <= 1461 * r / 4 <= 35794) by (Z.to_euclidean_division_equations; lia). repeat case_match; lia.
      - rewrite Hl99 in Hdoy by done. change (1461 * 99 / 4) with 36159. case_match; lia. }
  replace (doy + 1461 * r / 4 + q * 146097 / 4 - q * 146097 / 4) with (doy + 1461 * r / 4) by lia.
  rewrite (decode_year r) by (try destruct ((r + 1) mod 4 =? 0) eqn:?; try case_match; lia).
  replace (doy + 1461 * r / 4 - 1461 * r / 4) with doy by lia.
  unfold doy. rewrite (decode_month mm) by (repeat case_match; lia).
  destruct x as [y m d]. cbn [year month day] in *. f_equal; lia.
Qed.

Lemma every_number j : valid (ymd j) = true ∧ jdn (ymd j) = j.
Proof.
  set (k := j / 146097). set (j0 := j mod 146097).
  assert (Hj : j = j0 + 146097 * k) by (unfold j0, k; Z.to_euclidean_division_equations; lia).
  assert (H0 : 0 <= j0) by (unfold j0; apply Z.mod_pos_bound; lia). clearbody j0 k. subst j.
  rewrite ymd_shift, valid_shift, jdn_shift.
  cut (valid (ymd j0) = true ∧ jdn (ymd j0) = j0); [intros [? ?]; split; [done|lia]|].
  pattern j0. apply natlike_ind; [by vm_compute| |done].
  intros z Hz [Hv Hn]. unfold Z.succ. rewrite <-Hn, <-jdn_next_day, ymd_jdn by (try apply next_day_valid; done).
  split; [by apply next_day_valid|done].
Qed.

(** *** The code computes them, within its range *)

Lemma quot_pos a b : 0 <= a → 0 < b → a ÷ b = a / b.
Proof. intros. apply Z.quot_div_nonneg; lia. Qed.

Lemma ints_ok_true l : Forall (λ z, - 2 ^ 31 <= z < 2 ^ 31) l → ints_ok l = true.
Proof. intros Hl. apply forallb_forall. intros z Hz%list_elem_of_In. rewrite Forall_forall in Hl. specialize (Hl z Hz). lia. Qed.

Lemma code_jdn x :
  valid x = true → -4800 < year x <= 1000001 →
  Date.getJulianDayNumber (year x) (month x) (day x) = Some (jdn x) ∧
  -32044 <= jdn x <= 366000000 + 1000000.
Proof.
  destruct x as [y m d]. unfold valid, jdn, Date.getJulianDayNumber. cbn [year month day]. intros Hv Hy.
  assert (Hd : days_in_month y m <= 31) by (unfold days_in_month; repeat case_match; lia).
  assert (Hm : 1 <= m <= 12 /\ 1 <= d <= 31) by lia. clear Hv.
  rewrite (quot_pos (14 - m)) by lia. set (a := (14 - m) / 12).
  assert (Ha : 0 <= a <= 1 /\ 0 <= m + 12 * a - 3 <= 11) by (unfold a; Z.to_euclidean_division_equations; lia).
  clearbody a. set (yy := y + 4800 - a). set (mm := m + 12 * a - 3).
  assert (Hyy : 0 <= yy <= 1004801) by lia. assert (Hmm : 0 <= mm <= 11) by lia.
  rewrite !(quot_pos _ _) by lia.
  assert (H5 : 0 <= (153 * mm + 2) / 5 <= 340) by (Z.to_euclidean_division_equations; lia).
  assert (H4 : 0 <= yy / 4 <= 251200) by (Z.to_euclidean_division_equations; lia).
  assert (H100 : 0 <= yy / 100 <= yy / 4) by (Z.to_euclidean_division_equations; lia).
  assert (H400 : 0 <= yy / 400 <= 2512) by (Z.to_euclidean_division_equations; lia).
  rewrite ints_ok_true by (repeat constructor; lia). split; [done|lia].
Qed.

Lemma code_ymd j :
  -32044 <= j <= 500000000 → Date.getYearMonthDay j = Some (ymd j).
Proof.
  intros Hj. unfold Date.getYearMonthDay, ymd.
  set (a := j + 32044). assert (Ha : 0 <= a <= 500032044) by lia. clearbody a.
  rewrite (quot_pos (4 * a + 3)) by lia. set (b := (4 * a + 3) / 146097).
  assert (Hb : 0 <= b <= 13691) by (unfold b; Z.to_euclidean_division_equations; lia).
  assert (Hb' : 146097 * b <= 4 * a + 3 < 146097 * b + 146097) by (unfold b; Z.to_euclidean_division_equations; lia).
  clearbody b.
  rewrite (quot_pos (b * 146097)) by lia. set (c := a - b * 146097 / 4).
  assert (Hc : 0 <= c <= 36525) by (unfold c; Z.to_euclidean_division_equations; lia).
  assert (Hcb : 0 <= b * 146097 / 4) by (Z.to_euclidean_division_equations; lia).
  clearbody c. rewrite (quot_pos (4 * c + 3)) by lia. set (d := (4 * c + 3) / 1461).
  assert (Hd : 0 <= d <= 100 /\ 1461 * d <= 4 * c + 3 < 1461 * d + 1461) by (unfold d; Z.to_euclidean_division_equations; lia).
  clearbody d. rewrite (quot_pos (1461 * d)) by lia. set (e := c - 1461 * d / 4).
  assert (He : 0 <= e <= 366) by (unfold e; Z.to_euclidean_division_equations; lia).
  clearbody e. rewrite (quot_pos (5 * e + 2)) by lia. set (m := (5 * e + 2) / 153).
  assert (Hm : 0 <= m <= 12) by (unfold m; Z.to_euclidean_division_equations; lia).
  clearbody m. rewrite !(quot_pos _ _) by lia.
  assert (Hm5 : 0 <= (153 * m + 2) / 5 <= 400) by (Z.to_euclidean_division_equations; lia).
  assert (Hm10 : 0 <= m / 10 <= 1) by (Z.to_euclidean_division_equations; lia).
  rewrite ints_ok_true by (repeat constructor; lia). done.
Qed.

Lemma ymd_year j : -31000 <= j <= 360000000 → -4800 < year (ymd j) <= 1000000.
Proof.
  intros Hj. unfold ymd. cbn [year]. set (a := j + 32044). assert (Ha : 1044 <= a <= 360032044) by lia. clearbody a.
  set (b := (4 * a + 3) / 146097).
  assert (Hb : 0 <= b <= 9858) by (unfold b; Z.to_euclidean_division_equations; lia).
  assert (Hb' : 146097 * b <= 4 * a + 3 < 146097 * b + 146097) by (unfold b; Z.to_euclidean_division_equations; lia).
  clearbody b. set (c := a - b * 146097 / 4).
  assert (Hc : 0 <= c <= 36525 /\ (b = 0 -> c = a)) by (unfold c; Z.to_euclidean_division_equations; lia).
  clearbody c. set (d := (4 * c + 3) / 1461).
  assert (Hd : 0 <= d <= 100 /\ 1461 * d <= 4 * c + 3 < 1461 * d + 1461) by (unfold d; Z.to_euclidean_division_equations; lia).
  clearbody d. set (e := c - 1461 * d / 4).
  assert (He : 0 <= e <= 366) by (unfold e; Z.to_euclidean_division_equations; lia).
  clearbody e. set (m := (5 * e + 2) / 153).
  assert (Hm : 0 <= m / 10 <= 1) by (unfold m; Z.to_euclidean_division_equations; lia). lia.
Qed.

Lemma jdn_nonneg x : valid x = true → -4713 < year x → 0 <= jdn x.
Proof.
  destruct x as [y m d]. unfold valid, jdn. cbn [year month day]. intros Hv Hy.
  set (a := (14 - m) / 12).
  assert (Ha : 0 <= a <= 1 /\ 0 <= m + 12 * a - 3 <= 11 /\ (a = 1 → 10 <= m + 12 * a - 3)) by (unfold a; Z.to_euclidean_division_equations; lia).
  set (mm := m + 12 * a - 3) in *. set (yy := y + 4800 - a).
  assert (Hyy : 87 <= yy /\ (yy = 87 -> a = 1)) by lia.
  assert ((153 * mm + 2) / 5 >= 30 * mm) by (Z.to_euclidean_division_equations; lia).
  assert (yy / 4 - yy / 100 >= 21) by (Z.to_euclidean_division_equations; lia).
  assert (0 <= yy / 400) by (Z.to_euclidean_division_equations; lia). lia.
Qed.

End Calendar.

(** C34: The Julian day number counts the days of the Gregorian calendar.  It is
    2440588 on 1970-01-01, a Thursday; and for every date of the calendar from
    the year -4712 to the year 1000000, no [int] overflows, the day after has
    the next number and the next day of the week, and [getYearMonthDay] gives
    the date back. *)
Theorem julian_day_counts_days x :
  Calendar.valid x = true → -4712 <= year x <= 1000000 →
  Date.getJulianDayNumber 1970 1 1 = Some 2440588 ∧ Date.weekDay 2440588 = 4 ∧
  ∃ j, Date.getJulianDayNumber (year x) (month x) (day x) = Some j ∧
       Date.getYearMonthDay j = Some x ∧
       (let x' := Calendar.next_day x in
        Date.getJulianDayNumber (year x') (month x') (day x') = Some (j + 1) ∧
        Date.weekDay (j + 1) = (Date.weekDay j + 1) mod 7).
Proof.
  intros Hv Hy. split; [done|]. split; [done|].
  pose proof (Calendar.ymd_jdn x Hv) as Hr. pose proof (Calendar.jdn_next_day x Hv) as Hn. destruct (Calendar.next_day_valid x Hv) as [Hv' Hy'].
  destruct (Calendar.code_jdn x Hv ltac:(lia)) as [Hj Hb].
  exists (Calendar.jdn x). split; [done|].
  split; [rewrite Calendar.code_ymd by lia; by rewrite Hr|]. cbv zeta.
  split; [rewrite <-Hn; apply Calendar.code_jdn; [done|lia]|].
  pose proof (Calendar.jdn_nonneg x Hv ltac:(lia)). unfold Date.weekDay.
  rewrite !Z.rem_mod_nonneg by lia. Z.to_euclidean_division_equations; lia.
Qed.

Lemma julian_day_counts_days_witness :
  Date.getYearMonthDay 2451604 = Some (Ymd 2000 2 29) ∧
  ∃ j, Date.getJulianDayNumber 2000 2 29 = Some j ∧ Date.getJulianDayNumber 2000 3 1 = Some (j + 1).
Proof.
  destruct (julian_day_counts_days (Ymd 2000 2 29) eq_refl ltac:(done)) as (_ & _ & j & Hj & _ & Hn & _).
  split; [reflexivity|]. exists j. split; [exact Hj|exact Hn].
Defined.

(** And back: every number decodes to a date of the calendar, whose number it is. *)
Theorem every_day_has_a_date j :
  -31000 <= j <= 360000000 →
  ∃ x, Date.getYearMonthDay j = Some x ∧ Calendar.valid x = true ∧
       Date.getJulianDayNumber (year x) (month x) (day x) = Some j.
Proof.
  intros Hj. exists (Calendar.ymd j). destruct (Calendar.every_number j) as [Hv Hn].
  split; [apply Calendar.code_ymd; lia|]. split; [done|].
  destruct (Calendar.code_jdn (Calendar.ymd j) Hv) as [Hc _]; [pose proof (Calendar.ymd_year j Hj); lia|].
  by rewrite Hc, Hn.
Qed.
