(* ===== verification/Hoare.v ===== *)
(** * Total correctness of computations

    [ensures m s Q]: called in the state [s], the computation [m] returns, and
    the value and the new state satisfy [Q].  The rules follow the combinators
    of the prelude; [act_auto] applies them as long as they are deterministic. *)
From S2P Require Import Prelude.

Definition ensures {S E A} (m : act S E A) (s : S) (Q : A → S → Prop) : Prop :=
  ∃ a s', m s = (Val a, s') ∧ Q a s'.

Section Ensures.
Context {S E : Type}.
Implicit Types (s : S).

Lemma ensures_ret {A} (a : A) s (Q : A → S → Prop) : Q a s → ensures (E := E) (act_ret a) s Q.
Proof. intros H. by exists a, s. Qed.

Lemma ensures_bind {A B} (m : act S E A) (f : A → act S E B) s Q :
  ensures m s (λ a s', ensures (f a) s' Q) → ensures (act_bind m f) s Q.
Proof. intros (a & s' & Hm & b & s'' & Hf & HQ). exists b, s''. unfold act_bind. by rewrite Hm. Qed.

Lemma ensures_assoc {A B C} (m : act S E A) (f : A → act S E B) (g : B → act S E C) s Q :
  ensures (act_bind m f) s (λ b s', ensures (g b) s' Q) → ensures (act_bind m (λ a, act_bind (f a) g)) s Q.
Proof. intros H. destruct (ensures_bind _ _ _ _ H) as (c & s' & Hc & HQ). exists c, s'. by rewrite <-act_bind_assoc. Qed.

Lemma ensures_weaken {A} (m : act S E A) s (Q Q' : A → S → Prop) :
  ensures m s Q → (∀ a s', Q a s' → Q' a s') → ensures m s Q'.
Proof. intros (a & s' & Hm & HQ) HQQ. exists a, s'. auto. Qed.

Lemma ensures_get s (Q : S → S → Prop) : Q s s → ensures (E := E) get_state s Q.
Proof. intros H. by exists s, s. Qed.

Lemma ensures_gets {A} (f : S → A) s (Q : A → S → Prop) : Q (f s) s → ensures (E := E) (gets f) s Q.
Proof. intros H. by exists (f s), s. Qed.

Lemma ensures_put s s' (Q : () → S → Prop) : Q () s' → ensures (E := E) (put_state s') s Q.
Proof. intros H. by exists (), s'. Qed.

Lemma ensures_modify (f : S → S) s (Q : () → S → Prop) : Q () (f s) → ensures (E := E) (modify f) s Q.
Proof. intros H. by exists (), (f s). Qed.

Lemma ensures_assert b s (Q : () → S → Prop) : b = true → Q () s → ensures (E := E) (cpp_assert b) s Q.
Proof. intros -> H. by exists (), s. Qed.

(** A list of actions keeps an invariant that is indexed by what is left. *)
Lemma ensures_mapM {A} (f : A → act S E ()) (I : list A → S → Prop) l s :
  I l s →
  (∀ x k s, I (x :: k) s → ensures (f x) s (λ _, I k)) →
  ensures (act_mapM_ f l) s (λ _, I []).
Proof.
  intros HI Hstep. revert s HI. induction l as [|x l IH]; intros s HI; [by apply ensures_ret|].
  apply ensures_bind. eapply ensures_weaken; [by apply Hstep|]. cbn. intros _ s' HI'. by apply IH.
Qed.

Lemma ensures_val {A} (m : act S E A) s Q a s' : ensures m s Q → m s = (Val a, s') → Q a s'.
Proof. intros (a' & s'' & Hm & HQ) Hm'. rewrite Hm in Hm'. by simplify_eq. Qed.
End Ensures.

Ltac act_auto :=
  repeat first
    [ apply ensures_bind | apply ensures_ret | apply ensures_get | apply ensures_gets
    | apply ensures_put | apply ensures_modify ]; cbv beta.
