(* ===== verification/TimerQueue.v ===== *)
(** * TimerQueue.cc, Timer.cc (muduo/net): the timers of an event loop

    The timers are objects in the memory of the process ([heap], by address):
    [new] and [delete] are explicit, an address can be used again, and the code
    compares addresses.  timers_ is the [std::set] of pairs of an expiration and
    an address, activeTimers_ and cancelingTimers_ are sets of pairs of an
    address and a sequence number.

    [event] is what can happen, in the loop thread or in another one: a timer is
    added or cancelled, time passes, the loop runs a queued functor, or it calls
    handleRead for the timerfd.  The timer callbacks are user code: an argument
    of handleRead says what each of them does, and what happens in other threads
    meanwhile.  [alarm] is when the timerfd will be readable; handleRead may also
    be called when it is not (it is set again between poll(2) and the callback).

    Times are microseconds; [clock] is both gettimeofday(2) and the monotonic
    clock, so the time of day is not set back.  An interval is [None] if the
    double is not positive, else what addTime makes of it; [int64_t] does not
    overflow.  [log] (newest first) is ghost state. *)
From S2P Require Import Prelude Hoare.

(** ** std::set<Entry> *)
Definition Entry : Type := Z * Z.

Definition entry_lt (x y : Entry) : bool := (x.1 <? y.1) || ((x.1 =? y.1) && (x.2 <? y.2)).

(** [insert] returns whether the element is new, [erase] how many it erased. *)
Fixpoint set_insert (e : Entry) (l : list Entry) : list Entry * bool :=
  match l with
  | [] => ([e], true)
  | x :: l' =>
      if entry_lt e x then (e :: l, true)
      else if entry_lt x e then let '(k, b) := set_insert e l' in (x :: k, b)
      else (l, false)
  end.

Fixpoint set_erase (e : Entry) (l : list Entry) : list Entry * Z :=
  match l with
  | [] => ([], 0)
  | x :: l' =>
      if entry_lt x e then let '(k, n) := set_erase e l' in (x :: k, n)
      else if entry_lt e x then (l, 0) else (l', 1)
  end.

(** The elements before [lower_bound e], and the others. *)
Fixpoint split_lower_bound (e : Entry) (l : list Entry) : list Entry * list Entry :=
  match l with
  | [] => ([], [])
  | x :: l' => if entry_lt x e then let '(a, b) := split_lower_bound e l' in (x :: a, b) else ([], l)
  end.

Module TimerQueue.

Definition kMicroSecondsPerSecond : Z := 1000 * 1000.
Definition UINTPTR_MAX : Z := 2 ^ 64 - 1.

(** ** Timer.h *)
Record timer := Timer { expiration : Z; interval_ : option Z; sequence : Z }.

Definition repeat (t : timer) : bool := bool_decide (is_Some (interval_ t)).

(** The invalid Timestamp is 0. *)
Definition restart (now : Z) (t : timer) : timer :=
  match interval_ t with
  | Some d => Timer (now + d) (interval_ t) (sequence t)
  | None => Timer 0 (interval_ t) (sequence t)
  end.

(** TimerId, and the elements of activeTimers_. *)
Definition TimerId : Type := Z * Z.

Inductive functor := FAddTimer (a : Z) | FCancel (id : TimerId).

Inductive note :=
| Inserted (id : TimerId)
| Cancelled (id : TimerId)
| Alarm (now : Z)
| Fired (id : TimerId) (due : Z).

Record queue := Queue {
  heap : gmap Z timer;
  s_numCreated_ : Z;
  timers_ : list Entry;
  activeTimers_ : gset (Z * Z);
  callingExpiredTimers_ : bool;
  cancelingTimers_ : gset (Z * Z);
  alarm : option Z;
  clock : Z;
  pendingFunctors_ : list functor;
  log : list note
}.

Definition init (now : Z) : queue := Queue ∅ 0 [] ∅ false ∅ None now [] [].

Definition io (A : Type) : Type := act queue Empty_set A.

Definition set_heap (h : gmap Z timer) (q : queue) : queue :=
  Queue h (s_numCreated_ q) (timers_ q) (activeTimers_ q) (callingExpiredTimers_ q) (cancelingTimers_ q) (alarm q) (clock q) (pendingFunctors_ q) (log q).
Definition set_numCreated (n : Z) (q : queue) : queue :=
  Queue (heap q) n (timers_ q) (activeTimers_ q) (callingExpiredTimers_ q) (cancelingTimers_ q) (alarm q) (clock q) (pendingFunctors_ q) (log q).
Definition set_timers (l : list Entry) (q : queue) : queue :=
  Queue (heap q) (s_numCreated_ q) l (activeTimers_ q) (callingExpiredTimers_ q) (cancelingTimers_ q) (alarm q) (clock q) (pendingFunctors_ q) (log q).
Definition set_active (s : gset (Z * Z)) (q : queue) : queue :=
  Queue (heap q) (s_numCreated_ q) (timers_ q) s (callingExpiredTimers_ q) (cancelingTimers_ q) (alarm q) (clock q) (pendingFunctors_ q) (log q).
Definition set_calling (b : bool) (q : queue) : queue :=
  Queue (heap q) (s_numCreated_ q) (timers_ q) (activeTimers_ q) b (cancelingTimers_ q) (alarm q) (clock q) (pendingFunctors_ q) (log q).
Definition set_canceling (s : gset (Z * Z)) (q : queue) : queue :=
  Queue (heap q) (s_numCreated_ q) (timers_ q) (activeTimers_ q) (callingExpiredTimers_ q) s (alarm q) (clock q) (pendingFunctors_ q) (log q).
Definition set_alarm (t : option Z) (q : queue) : queue :=
  Queue (heap q) (s_numCreated_ q) (timers_ q) (activeTimers_ q) (callingExpiredTimers_ q) (cancelingTimers_ q) t (clock q) (pendingFunctors_ q) (log q).
Definition set_clock (t : Z) (q : queue) : queue :=
  Queue (heap q) (s_numCreated_ q) (timers_ q) (activeTimers_ q) (callingExpiredTimers_ q) (cancelingTimers_ q) (alarm q) t (pendingFunctors_ q) (log q).
Definition set_pending (l : list functor) (q : queue) : queue :=
  Queue (heap q) (s_numCreated_ q) (timers_ q) (activeTimers_ q) (callingExpiredTimers_ q) (cancelingTimers_ q) (alarm q) (clock q) l (log q).
Definition add_log (n : note) (q : queue) : queue :=
  Queue (heap q) (s_numCreated_ q) (timers_ q) (activeTimers_ q) (callingExpiredTimers_ q) (cancelingTimers_ q) (alarm q) (clock q) (pendingFunctors_ q) (n :: log q).

Definition note_it (n : note) : io () := modify (add_log n).
Definition queueInLoop (f : functor) : io () := modify (λ q, set_pending (pendingFunctors_ q ++ [f]) q).

(** *** The memory *)

(** Read the timer at an address; [delete]. *)
Definition deref (a : Z) : io timer :=
  q <- get_state ;;
  match heap q !! a with Some t => act_ret t | None => undefined end.

Definition delete_timer (a : Z) : io () :=
  deref a ;;; modify (λ q, set_heap (delete a (heap q)) q).

(** An address that [new] may return. *)
Definition addr_free (a : Z) (q : queue) : bool :=
  (0 <? a) && (a <? UINTPTR_MAX) && bool_decide (heap q !! a = None).

(** [new Timer] at the address [a]; Timer::Timer takes the next sequence number. *)
Definition new_timer (a when_ : Z) (interval : option Z) : io () :=
  modify (λ q, set_numCreated (s_numCreated_ q + 1)
                 (set_heap (<[a := Timer when_ interval (s_numCreated_ q + 1)]> (heap q)) q)).

(** ** TimerQueue.cc *)

(** The timespec in seconds and nanoseconds. *)
Definition howMuchTimeFromNow (when_ now : Z) : Z * Z :=
  let microseconds := when_ - now in
  let microseconds := if microseconds <? 100 then 100 else microseconds in
  (microseconds ÷ kMicroSecondsPerSecond, Z.rem microseconds kMicroSecondsPerSecond * 1000).

(** timerfd_settime replaces what was set. *)
Definition resetTimerfd (expiration : Z) : io () :=
  modify (λ q, let '(tv_sec, tv_nsec) := howMuchTimeFromNow expiration (clock q) in
               set_alarm (Some (clock q + tv_sec * 1000000 + tv_nsec / 1000)) q).

(** Reading a timerfd that has not expired fails, which is logged. *)
Definition readTimerfd : io () :=
  modify (λ q, match alarm q with Some t => if t <=? clock q then set_alarm None q else q | None => q end).

Definition assert_sizes : io () :=
  q <- get_state ;;
  cpp_assert (Z.of_nat (length (timers_ q)) =? Z.of_nat (size (activeTimers_ q))).

Definition insert (timer : Z) : io bool :=
  assert_sizes ;;;
  t <- deref timer ;;
  let when_ := expiration t in
  q <- get_state ;;
  let earliestChanged := match timers_ q with [] => true | (w, _) :: _ => when_ <? w end in
  let '(l, b) := set_insert (when_, timer) (timers_ q) in
  put_state (set_timers l q) ;;;
  cpp_assert b ;;;
  q <- get_state ;;
  let active := (timer, sequence t) in
  put_state (set_active ({[active]} ∪ activeTimers_ q) q) ;;;
  cpp_assert (bool_decide (active ∉ activeTimers_ q)) ;;;
  assert_sizes ;;;
  act_ret earliestChanged.

Definition addTimerInLoop (timer : Z) : io () :=
  earliestChanged <- insert timer ;;
  t <- deref timer ;;
  note_it (Inserted (timer, sequence t)) ;;;
  (when earliestChanged do resetTimerfd (expiration t)).

Definition cancelInLoop (id : TimerId) : io () :=
  assert_sizes ;;;
  note_it (Cancelled id) ;;;
  q <- get_state ;;
  (if bool_decide (id ∈ activeTimers_ q) then
     t <- deref id.1 ;;
     let '(l, n) := set_erase (expiration t, id.1) (timers_ q) in
     put_state (set_timers l q) ;;;
     cpp_assert (n =? 1) ;;;
     delete_timer id.1 ;;;
     modify (λ q, set_active (activeTimers_ q ∖ {[id]}) q)
   else if callingExpiredTimers_ q then
     modify (λ q, set_canceling ({[id]} ∪ cancelingTimers_ q) q)
   else act_ret ()) ;;;
  assert_sizes.

(** The timers that are due leave timers_, then activeTimers_. *)
Definition erase_active (e : Entry) : io () :=
  t <- deref e.2 ;;
  q <- get_state ;;
  put_state (set_active (activeTimers_ q ∖ {[(e.2, sequence t)]}) q) ;;;
  cpp_assert (bool_decide ((e.2, sequence t) ∈ activeTimers_ q)).

Definition getExpired (now : Z) : io (list Entry) :=
  assert_sizes ;;;
  q <- get_state ;;
  let '(expired, rest) := split_lower_bound (now, UINTPTR_MAX) (timers_ q) in
  cpp_assert (match rest with [] => true | e :: _ => now <? e.1 end) ;;;
  put_state (set_timers rest q) ;;;
  act_mapM_ erase_active expired ;;;
  assert_sizes ;;;
  act_ret expired.

Definition reset_one (now : Z) (e : Entry) : io () :=
  t <- deref e.2 ;;
  q <- get_state ;;
  if repeat t && bool_decide ((e.2, sequence t) ∉ cancelingTimers_ q) then
    put_state (set_heap (<[e.2 := restart now t]> (heap q)) q) ;;;
    insert e.2 ;;;
    act_ret ()
  else delete_timer e.2.

Definition reset (expired : list Entry) (now : Z) : io () :=
  act_mapM_ (reset_one now) expired ;;;
  q <- get_state ;;
  nextExpire <- match timers_ q with
                | [] => act_ret 0
                | e :: _ => t <- deref e.2 ;; act_ret (expiration t)
                end ;;
  (when 0 <? nextExpire do resetTimerfd nextExpire).

(** ** Callers *)

(** What the user's code does, in the loop thread ([inLoop]) or in another one.
    The address and the time are choices of the environment; the step is empty
    if the choice is not possible. *)
Inductive op :=
| AddTimer (inLoop : bool) (a when_ : Z) (interval : option Z)
| Cancel (inLoop : bool) (id : TimerId)
| Elapse (d : Z).

Definition interval_ok (interval : option Z) : bool :=
  match interval with Some d => 0 <=? d | None => true end.

Definition addTimer (inLoop : bool) (a when_ : Z) (interval : option Z) : io () :=
  new_timer a when_ interval ;;;
  if inLoop then addTimerInLoop a else queueInLoop (FAddTimer a).

(** The end of addTimer: the sequence number of the TimerId that it returns. *)
Definition addTimer_return (a : Z) : io () := deref a ;;; act_ret ().

Definition cancel (inLoop : bool) (id : TimerId) : io () :=
  if inLoop then cancelInLoop id else queueInLoop (FCancel id).

Definition do_op (o : op) : io () :=
  match o with
  | AddTimer inLoop a when_ interval =>
      q <- get_state ;;
      (when addr_free a q && interval_ok interval do addTimer inLoop a when_ interval)
  | Cancel inLoop id => cancel inLoop id
  | Elapse d => (when 0 <=? d do modify (λ q, set_clock (clock q + d) q))
  end.

(** Timer::run, whose callback performs [script]. *)
Definition run (e : Entry) (script : list op) : io () :=
  t <- deref e.2 ;;
  note_it (Fired (e.2, sequence t) e.1) ;;;
  act_mapM_ do_op script.

Fixpoint run_all (expired : list Entry) (scripts : list (list op)) : io () :=
  match expired with
  | [] => act_ret ()
  | e :: expired => run e (default [] (head scripts)) ;;; run_all expired (tail scripts)
  end.

Definition handleRead (scripts : list (list op)) : io () :=
  now <- gets clock ;;
  note_it (Alarm now) ;;;
  readTimerfd ;;;
  expired <- getExpired now ;;
  modify (set_calling true) ;;;
  modify (set_canceling ∅) ;;;
  run_all expired scripts ;;;
  modify (set_calling false) ;;;
  reset expired now.

(** EventLoop::doPendingFunctors, one functor at a time. *)
Definition run_functor : io () :=
  q <- get_state ;;
  match pendingFunctors_ q with
  | [] => act_ret ()
  | f :: fs =>
      put_state (set_pending fs q) ;;;
      match f with FAddTimer a => addTimerInLoop a | FCancel id => cancelInLoop id end
  end.

(** ~TimerQueue *)
Definition destroy : io () :=
  q <- get_state ;; act_mapM_ (λ e, delete_timer e.2) (timers_ q).

Inductive event :=
| Op (o : op)
| AddTimerReturns (a : Z)
| RunFunctor
| HandleRead (scripts : list (list op)).

Definition step (e : event) : io () :=
  match e with
  | Op o => do_op o
  | AddTimerReturns a => addTimer_return a
  | RunFunctor => run_functor
  | HandleRead scripts => handleRead scripts
  end.

Definition history (es : list event) : io () := act_mapM_ step es.

End TimerQueue.
