(* ===== verification/TimerQueueSteps.v ===== *)
(** * TimerQueue: every step keeps the invariant

    One lemma per function, composed as the functions are; then the theorem about
    all histories, and three histories in which a timer is used after its
    deletion, fires although cancelled, or is not cancelled. *)
From S2P Require Import Prelude Hoare TimerQueue.

(** ** TimerQueue: the invariant, and what is promised

    [inv exp C] holds between any two steps: every timer is owned by exactly one
    of timers_, the functors of addTimer and the list [exp] of the timers that
    handleRead works on; activeTimers_ has the timers of timers_; a cancelled
    timer is in neither, and only in [exp] if it is in [C] (cancelingTimers_). *)
Import TimerQueue.

(** ** std::set<Entry> *)

Definition entry_less (x y : Entry) : Prop := entry_lt x y = true.
Abbreviation sorted := (StronglySorted entry_less).

Lemma entry_total x y : entry_lt x y = false → entry_lt y x = false → x = y.
Proof. destruct x, y. unfold entry_lt. cbn. intros. f_equal; lia. Qed.

Lemma entry_less_irrefl x : ¬ entry_less x x.
Proof. destruct x. unfold entry_less, entry_lt. cbn. lia. Qed.

Lemma entry_less_trans x y z : entry_less x y → entry_less y z → entry_less x z.
Proof. destruct x, y, z. unfold entry_less, entry_lt. cbn. lia. Qed.

Lemma sorted_head_least x l y : sorted (x :: l) → y ∈ x :: l → x.1 <= y.1.
Proof.
  intros [_ Hf]%StronglySorted_inv [->|Hy]%elem_of_cons; [lia|].
  rewrite Forall_forall in Hf. specialize (Hf y Hy). unfold entry_less, entry_lt in Hf. lia.
Qed.

Lemma set_insert_spec e l :
  sorted l → e ∉ l →
  ∃ k, set_insert e l = (k, true) ∧ sorted k ∧ k ≡ₚ e :: l ∧ (head k = Some e ∨ head k = head l).
Proof.
  induction l as [|x l IH]; intros Hs He; cbn [set_insert].
  { exists [e]. split_and!; [done|by repeat constructor|done|by left]. }
  apply StronglySorted_inv in Hs as [Hs Hf]. apply not_elem_of_cons in He as [Hne He].
  destruct (entry_lt e x) eqn:Hex.
  { exists (e :: x :: l). split_and!; [done| |done|by left]. constructor; [by constructor|].
    constructor; [done|]. eapply Forall_impl; [exact Hf|]. intros y. by apply entry_less_trans. }
  destruct (entry_lt x e) eqn:Hxe; [|exfalso; apply Hne; symmetry; by apply entry_total].
  destruct (IH Hs He) as (k & -> & Hk & Hp & Hh). exists (x :: k).
  split_and!; [done| |by rewrite Hp, perm_swap|by right].
  constructor; [done|]. rewrite Hp. by constructor.
Qed.

Lemma set_erase_spec e l :
  sorted l → e ∈ l → ∃ k, set_erase e l = (k, 1) ∧ sorted k ∧ l ≡ₚ e :: k.
Proof.
  induction l as [|x l IH]; intros Hs He; cbn [set_erase]; [by apply not_elem_of_nil in He|].
  apply StronglySorted_inv in Hs as [Hs Hf]. apply elem_of_cons in He as [->|He].
  - replace (entry_lt x x) with false by (destruct x; unfold entry_lt; cbn; lia). by exists l.
  - rewrite Forall_forall in Hf. pose proof (Hf e He) as Hxe. rewrite Hxe.
    destruct (IH Hs He) as (k & -> & Hk & Hp). exists (x :: k).
    split; [done|]. split; [|by rewrite Hp at 1; rewrite perm_swap].
    constructor; [done|]. apply Forall_forall. intros y Hy. apply Hf. rewrite Hp. by right.
Qed.

Lemma split_spec e l :
  sorted l →
  ∃ a b, split_lower_bound e l = (a, b) ∧ l = a ++ b ∧ Forall (λ x, entry_less x e) a ∧
         Forall (λ x, ¬ entry_less x e) b.
Proof.
  induction l as [|x l IH]; intros Hs; cbn [split_lower_bound]; [by exists [], []|].
  apply StronglySorted_inv in Hs as [Hs Hf]. destruct (entry_lt x e) eqn:Hx.
  - destruct (IH Hs) as (a & b & -> & -> & Ha & Hb). exists (x :: a), b. split_and!; by try constructor.
  - exists [], (x :: l). split_and!; [done|done|constructor|]. constructor; [unfold entry_less; congruence|].
    eapply Forall_impl; [exact Hf|]. intros y Hy Hye. pose proof (entry_less_trans _ _ _ Hy Hye).
    unfold entry_less in *. congruence.
Qed.

Lemma sorted_app_inv (a b : list Entry) : sorted (a ++ b) → sorted a ∧ sorted b.
Proof.
  induction a as [|x a IH]; intros Hs; [split; [constructor|done]|].
  apply StronglySorted_inv in Hs as [Hs Hf]. destruct (IH Hs) as [Ha Hb]. split; [|done].
  constructor; [done|]. by apply Forall_app in Hf as [Hf _].
Qed.

(** ** The log *)

Definition retired (id : TimerId) (l : list note) : Prop :=
  ∃ l1 l2, l = l1 ++ Cancelled id :: l2 ∧ Inserted id ∈ l2.
Definition stale (id : TimerId) (l : list note) : Prop :=
  ∃ l1 l2 now, l = l1 ++ Alarm now :: l2 ∧ retired id l2.
Definition log_ok (l : list note) : Prop :=
  ∀ l1 l2 id due, l = l1 ++ Fired id due :: l2 → ¬ stale id l2.

Definition firings (l : list note) : list (TimerId * Z) :=
  omap (λ n, match n with Fired id due => Some (id, due) | _ => None end) l.

Lemma retired_cons id n l :
  retired id (n :: l) → retired id l ∨ (n = Cancelled id ∧ Inserted id ∈ l).
Proof.
  intros ([|m l1] & l2 & Hl & Hi); simplify_eq/=; [by right|left]. by exists l1, l2.
Qed.

Lemma stale_cons id n l : stale id (n :: l) → stale id l ∨ (∃ now, n = Alarm now) ∧ retired id l.
Proof.
  intros ([|m l1] & l2 & now & Hl & Hr); simplify_eq/=; [right; eauto|left]. by exists l1, l2, now.
Qed.

Lemma retired_app id l1 l2 : retired id l2 → retired id (l1 ++ l2).
Proof. intros (k1 & k2 & -> & Hi). exists (l1 ++ k1), k2. by rewrite <-app_assoc. Qed.

Lemma stale_retired id l : stale id l → retired id l.
Proof. intros (l1 & l2 & now & -> & Hr). change (Alarm now :: l2) with ([Alarm now] ++ l2). by do 2 apply retired_app. Qed.

Lemma retired_inserted id l : retired id l → Inserted id ∈ l.
Proof. intros (l1 & l2 & -> & Hi). apply elem_of_app. right. by right. Qed.

Lemma log_ok_cons n l :
  log_ok l → (∀ id due, n = Fired id due → ¬ stale id l) → log_ok (n :: l).
Proof.
  intros Hl Hn [|m l1] l2 id due Heq; simplify_eq/=; [by eapply Hn|by eapply Hl].
Qed.

(** ** The invariant *)

Definition seqOf (h : gmap Z timer) (a : Z) : Z := match h !! a with Some t => sequence t | None => 0 end.
Definition idOf (h : gmap Z timer) (a : Z) : TimerId := (a, seqOf h a).

Definition adds (l : list functor) : list Z :=
  omap (λ f, match f with FAddTimer a => Some a | FCancel _ => None end) l.

Definition owned (exp : list Z) (q : queue) : list Z := (timers_ q).*2 ++ adds (pendingFunctors_ q) ++ exp.

Record inv (exp : list Z) (C : gset (Z * Z)) (q : queue) : Prop := Inv {
  i_sorted : sorted (timers_ q);
  i_time e : e ∈ timers_ q → expiration <$> heap q !! e.2 = Some e.1;
  i_nodup : NoDup (owned exp q);
  i_owned a : is_Some (heap q !! a) ↔ a ∈ owned exp q;
  i_active : activeTimers_ q = list_to_set (idOf (heap q) <$> (timers_ q).*2);
  i_timer a t : heap q !! a = Some t →
    0 < a < UINTPTR_MAX ∧ sequence t <= s_numCreated_ q ∧ interval_ok (interval_ t) = true;
  i_clock : 0 < clock q;
  i_inserted a s : Inserted (a, s) ∈ log q → s <= s_numCreated_ q;
  i_adds a : a ∈ adds (pendingFunctors_ q) → Inserted (idOf (heap q) a) ∉ log q;
  i_retired id : retired id (log q) →
    (id ∉ activeTimers_ q) ∧ (∀ a, a ∈ exp → idOf (heap q) a = id → id ∈ C);
  i_stale id : stale id (log q) → ∀ a, a ∈ exp → idOf (heap q) a ≠ id;
  i_log : log_ok (log q)
}.

(** The timerfd is set for the first timer; [true] asks for it also when that
    timer has a valid time. *)
Definition armed (b : bool) (q : queue) : Prop :=
  match timers_ q with
  | [] => True
  | (w, _) :: _ => (b = false ∧ 0 < w) ∨ ∃ t, alarm q = Some t ∧ t <= Z.max w (clock q + 100)
  end.

Lemma armed_mono b q q' :
  sorted (timers_ q) → armed b q → (∀ e, e ∈ timers_ q' → e ∈ timers_ q) → alarm q' = alarm q → clock q <= clock q' →
  armed b q'.
Proof.
  unfold armed. intros Hs Ha Hin Hal Hc. destruct (timers_ q') as [|[w a] l'] eqn:E'; [done|].
  specialize (Hin (w, a) (list_elem_of_here _ _)).
  destruct (timers_ q) as [|[w0 a0] l]; [by apply not_elem_of_nil in Hin|].
  pose proof (sorted_head_least _ _ _ Hs Hin) as Hle. cbn in Hle. rewrite Hal.
  destruct Ha as [[-> ?]|(t & -> & ?)]; [left; split; [done|lia]|right; exists t; split; [done|lia]].
Qed.

Lemma seqOf_lookup h a t : h !! a = Some t → seqOf h a = sequence t.
Proof. unfold seqOf. by intros ->. Qed.

Lemma ids_fmap_ext h h' (l : list Z) : (∀ a, a ∈ l → h' !! a = h !! a) → idOf h' <$> l = idOf h <$> l.
Proof. intros Hh. apply list_fmap_ext. intros i a Ha. unfold idOf, seqOf. by rewrite Hh by (eapply list_elem_of_lookup_2; exact Ha). Qed.

Lemma elem_of_ids h (l : list Z) id : id ∈ idOf h <$> l ↔ id.1 ∈ l ∧ seqOf h id.1 = id.2.
Proof.
  rewrite list_elem_of_fmap. split.
  - by intros (a & -> & Ha).
  - intros [Ha Hs]. exists id.1. destruct id. cbn in *. unfold idOf. by rewrite Hs.
Qed.

Lemma elem_of_active exp C q id :
  inv exp C q → id ∈ activeTimers_ q ↔ id.1 ∈ (timers_ q).*2 ∧ seqOf (heap q) id.1 = id.2.
Proof. intros H. by rewrite (i_active _ _ _ H), elem_of_list_to_set, elem_of_ids. Qed.

Lemma NoDup_ids h (l : list Z) : NoDup l → NoDup (idOf h <$> l).
Proof. intros Hl. apply NoDup_fmap_2_strong; [|done]. intros x y _ _ Heq. by inversion Heq. Qed.

Lemma timers_nodup exp C q : inv exp C q → NoDup (timers_ q).*2.
Proof. intros H. pose proof (i_nodup _ _ _ H) as Hd. unfold owned in Hd. by apply NoDup_app in Hd as [Hd _]. Qed.

Lemma sizes_ok exp C q : inv exp C q → assert_sizes q = (Val (), q).
Proof.
  intros H. unfold assert_sizes, act_bind, get_state, cpp_assert.
  rewrite (i_active _ _ _ H), size_list_to_set by (by apply NoDup_ids, (timers_nodup _ _ _ H)).
  by rewrite !length_fmap, Z.eqb_refl.
Qed.

Lemma deref_ok q a t : heap q !! a = Some t → deref a q = (Val t, q).
Proof. intros H. unfold deref, act_bind, get_state. by rewrite H. Qed.

Lemma timer_owned exp C q e : inv exp C q → e ∈ timers_ q → ∃ t, heap q !! e.2 = Some t ∧ expiration t = e.1.
Proof. intros H He. pose proof (i_time _ _ _ H e He) as Ht. destruct (heap q !! e.2) as [t|]; [|done]. exists t. by simplify_eq/=. Qed.

(** A timer in [exp] or in a functor has no entry. *)
Lemma exp_not_timer a exp C q : inv (a :: exp) C q → (a ∉ (timers_ q).*2) ∧ (a ∉ adds (pendingFunctors_ q)) ∧ a ∉ exp.
Proof.
  intros H. pose proof (i_nodup _ _ _ H) as Hd. unfold owned in Hd.
  rewrite <-!Permutation_middle in Hd. apply NoDup_cons in Hd as [Hn _]. set_solver.
Qed.

(** ** The steps *)

Lemma insert_ok exp C q a t :
  inv (a :: exp) C q → heap q !! a = Some t → ¬ retired (a, sequence t) (log q) →
  ∃ k b, let q' := set_active ({[(a, sequence t)]} ∪ activeTimers_ q) (set_timers k q) in
    insert a q = (Val b, q') ∧ inv exp C q' ∧ k ≡ₚ (expiration t, a) :: timers_ q ∧
    (head k = Some (expiration t, a) ∨ head k = head (timers_ q)) ∧
    b = match timers_ q with [] => true | (w, _) :: _ => expiration t <? w end.
Proof.
  intros H Ht Hr. destruct (exp_not_timer _ _ _ _ H) as (Hn1 & Hn2 & Hn3).
  assert (Hn : (expiration t, a) ∉ timers_ q).
  { intros Hin. apply Hn1. apply list_elem_of_fmap. by exists (expiration t, a). }
  destruct (set_insert_spec _ _ (i_sorted _ _ _ H) Hn) as (k & Hk & Hs & Hp & Hh).
  exists k, (match timers_ q with [] => true | (w, _) :: _ => expiration t <? w end). cbv zeta.
  set (q' := set_active _ _).
  assert (H' : inv exp C q').
  { assert (Ho : owned exp q' ≡ₚ owned (a :: exp) q)
      by (unfold owned; cbn; rewrite Hp; cbn; by rewrite <-!Permutation_middle).
    constructor.
    - done.
    - intros e. cbn. rewrite Hp. intros [->|He]%elem_of_cons; [cbn; by rewrite Ht|by apply (i_time _ _ _ H)].
    - rewrite Ho. apply (i_nodup _ _ _ H).
    - intros b. rewrite Ho. apply (i_owned _ _ _ H).
    - cbn. rewrite (i_active _ _ _ H). apply set_eq. intros id.
      rewrite elem_of_union, elem_of_singleton, !elem_of_list_to_set, Hp. cbn.
      rewrite elem_of_cons. unfold idOf at 2. by rewrite (seqOf_lookup _ _ _ Ht).
    - apply (i_timer _ _ _ H).
    - apply (i_clock _ _ _ H).
    - apply (i_inserted _ _ _ H).
    - apply (i_adds _ _ _ H).
    - cbn. intros id Hid. destruct (i_retired _ _ _ H id Hid) as [Hi1 Hi2]. split; [set_solver|].
      intros b Hb. apply Hi2. by right.
    - cbn. intros id Hid b Hb. apply (i_stale _ _ _ H id Hid). by right.
    - apply (i_log _ _ _ H). }
  split; [|done].
  unfold insert. erewrite act_bind_val by (by eapply sizes_ok).
  erewrite act_bind_val by (by apply deref_ok).
  unfold act_bind at 1. unfold get_state at 1. rewrite Hk. unfold put_state, cpp_assert, get_state.
  unfold act_bind at 1 2 3 4 5. cbv beta iota.
  replace (bool_decide _) with true.
  2: { symmetry. apply bool_decide_eq_true. change (activeTimers_ (set_timers k q)) with (activeTimers_ q).
       rewrite (elem_of_active _ _ _ _ H). cbn. tauto. }
  change (set_active _ _) with q'. erewrite act_bind_val by (by eapply sizes_ok). done.
Qed.

(** *** Pieces of the invariant that a step changes *)

Lemma idOf_eq h h' a : h' !! a = h !! a → idOf h' a = idOf h a.
Proof. unfold idOf, seqOf. by intros ->. Qed.

Lemma inv_set_alarm exp C q x : inv exp C q → inv exp C (set_alarm x q).
Proof. destruct 1. by constructor. Qed.

Lemma inv_set_calling exp C q x : inv exp C q → inv exp C (set_calling x q).
Proof. destruct 1. by constructor. Qed.

Lemma inv_set_canceling exp C q x : inv exp C q → inv exp C (set_canceling x q).
Proof. destruct 1. by constructor. Qed.

Lemma inv_set_clock exp C q x : inv exp C q → clock q <= x → inv exp C (set_clock x q).
Proof. destruct 1. constructor; try done. cbn. lia. Qed.

Lemma inv_grow exp C C' q : inv exp C q → C ⊆ C' → inv exp C' q.
Proof. intros [] HC. constructor; try done. intros id Hid. destruct (i_retired0 id Hid). split; [done|]. set_solver. Qed.

Lemma inv_inserted exp C q a :
  inv exp C q → is_Some (heap q !! a) → a ∉ adds (pendingFunctors_ q) →
  inv exp C (add_log (Inserted (idOf (heap q) a)) q).
Proof.
  intros H [t Ht] Ha. constructor; try apply H.
  - cbn. intros b s [Heq|Hi]%elem_of_cons; [|by apply (i_inserted _ _ _ H b)].
    unfold idOf in Heq. rewrite (seqOf_lookup _ _ _ Ht) in Heq. simplify_eq. by eapply (i_timer _ _ _ H).
  - cbn. intros b Hb [Heq|Hi]%elem_of_cons; [|by apply (i_adds _ _ _ H b)].
    apply Ha. unfold idOf in Heq. by simplify_eq.
  - cbn. intros id [Hr|[? _]]%retired_cons; [|done]. by apply (i_retired _ _ _ H).
  - cbn. intros id [Hr|[[? ?] _]]%stale_cons; [|done]. by apply (i_stale _ _ _ H).
  - cbn. apply log_ok_cons; [apply H|done].
Qed.

Lemma inv_cancelled exp C q id :
  inv exp C q → id ∉ activeTimers_ q → (∀ a, a ∈ exp → idOf (heap q) a = id → id ∈ C) →
  inv exp C (add_log (Cancelled id) q).
Proof.
  intros H Hid Hexp. constructor; try apply H.
  - cbn. intros b s [Heq|Hi]%elem_of_cons; [done|by apply (i_inserted _ _ _ H b)].
  - cbn. intros b Hb [Heq|Hi]%elem_of_cons; [done|by apply (i_adds _ _ _ H b)].
  - cbn. intros id' [Hr|[? _]]%retired_cons; [by apply (i_retired _ _ _ H)|]. by simplify_eq.
  - cbn. intros id' [Hr|[[? ?] _]]%stale_cons; [|done]. by apply (i_stale _ _ _ H).
  - cbn. apply log_ok_cons; [apply H|done].
Qed.

(** Firing a timer of [exp]. *)
Lemma inv_fired exp C q a due :
  inv exp C q → a ∈ exp → inv exp C (add_log (Fired (idOf (heap q) a) due) q).
Proof.
  intros H Ha. constructor; try apply H.
  - cbn. intros b s [Heq|Hi]%elem_of_cons; [done|by apply (i_inserted _ _ _ H b)].
  - cbn. intros b Hb [Heq|Hi]%elem_of_cons; [done|by apply (i_adds _ _ _ H b)].
  - cbn. intros id' [Hr|[? _]]%retired_cons; [by apply (i_retired _ _ _ H)|done].
  - cbn. intros id' [Hr|[[? ?] _]]%stale_cons; [|done]. by apply (i_stale _ _ _ H).
  - cbn. apply log_ok_cons; [apply H|]. intros id d Heq Hs. simplify_eq. by apply (i_stale _ _ _ H _ Hs a).
Qed.

Lemma inv_alarm C q now : inv [] C q → inv [] C (add_log (Alarm now) q).
Proof.
  intros H. constructor; try apply H.
  - cbn. intros b s [Heq|Hi]%elem_of_cons; [done|by apply (i_inserted _ _ _ H b)].
  - cbn. intros b Hb [Heq|Hi]%elem_of_cons; [done|by apply (i_adds _ _ _ H b)].
  - cbn. intros id' [Hr|[? _]]%retired_cons; [by apply (i_retired _ _ _ H)|done].
  - intros id' _ a Ha. by apply not_elem_of_nil in Ha.
  - cbn. apply log_ok_cons; [apply H|done].
Qed.

(** [delete] of a timer of [exp]. *)
Lemma inv_delete a exp C q : inv (a :: exp) C q → inv exp C (set_heap (delete a (heap q)) q).
Proof.
  intros H. destruct (exp_not_timer _ _ _ _ H) as (Hn1 & Hn2 & Hn3).
  assert (Hne : ∀ b, b ∈ owned exp q → delete a (heap q) !! b = heap q !! b).
  { intros b Hb. apply lookup_delete_ne. intros ->. unfold owned in Hb. set_solver. }
  assert (Ho : owned (a :: exp) q ≡ₚ a :: owned exp q) by (unfold owned; by rewrite <-!Permutation_middle).
  constructor; cbn; try apply H.
  - intros e He. rewrite Hne; [by apply (i_time _ _ _ H)|]. unfold owned. apply elem_of_app. left. by apply list_elem_of_fmap_2.
  - pose proof (i_nodup _ _ _ H) as Hd. rewrite Ho in Hd. by apply NoDup_cons in Hd as [_ Hd].
  - intros b. destruct (decide (b = a)) as [->|Hb].
    + rewrite lookup_delete_eq. split; [by intros [? ?]|]. intros Hin. unfold owned in Hin. cbn in Hin. set_solver.
    + rewrite lookup_delete_ne, (i_owned _ _ _ H), Ho by done. rewrite elem_of_cons. unfold owned. cbn. tauto.
  - rewrite (ids_fmap_ext (heap q)); [apply H|]. intros b Hb. apply Hne. unfold owned. set_solver.
  - intros b t Hb. apply (i_timer _ _ _ H). rewrite lookup_delete_Some in Hb. tauto.
  - intros b Hb. rewrite (idOf_eq (heap q)) by (apply Hne; unfold owned; set_solver). by apply (i_adds _ _ _ H).
  - intros id Hid. destruct (i_retired _ _ _ H id Hid) as [Hi1 Hi2]. split; [done|]. intros b Hb Hb'.
    rewrite (idOf_eq (heap q)) in Hb' by (apply Hne; unfold owned; set_solver). apply (Hi2 b); [by right|done].
  - intros id Hid b Hb. rewrite (idOf_eq (heap q)) by (apply Hne; unfold owned; set_solver).
    apply (i_stale _ _ _ H id Hid). by right.
Qed.

(** Taking a timer out of timers_ and activeTimers_. *)
Lemma inv_take w a exp C q k :
  inv exp C q → timers_ q ≡ₚ (w, a) :: k → sorted k → ¬ retired (idOf (heap q) a) (log q) →
  inv (a :: exp) C (set_active (activeTimers_ q ∖ {[idOf (heap q) a]}) (set_timers k q)).
Proof.
  intros H Hp Hs Hr.
  assert (Ho : owned (a :: exp) (set_timers k q) ≡ₚ owned exp q)
    by (unfold owned; cbn; rewrite Hp; cbn; by rewrite <-!Permutation_middle).
  constructor; try apply H.
  - done.
  - intros e He. apply (i_time _ _ _ H). rewrite Hp. by right.
  - change (owned _ _) with (owned (a :: exp) (set_timers k q)). rewrite Ho. apply H.
  - intros b. change (owned _ _) with (owned (a :: exp) (set_timers k q)). rewrite Ho. apply H.
  - cbn. rewrite (i_active _ _ _ H). pose proof (timers_nodup _ _ _ H) as Hd. rewrite Hp in Hd. cbn in Hd.
    apply NoDup_cons in Hd as [Hna _]. apply set_eq. intros id.
    rewrite elem_of_difference, !elem_of_list_to_set, elem_of_singleton, Hp. cbn.
    rewrite elem_of_cons, !elem_of_ids. split; [tauto|]. intros [Hin Hid]. split; [tauto|].
    intros ->. by cbn in Hin.
  - cbn. intros id Hid. destruct (i_retired _ _ _ H id Hid) as [Hi1 Hi2]. split; [set_solver|].
    intros b [->|Hb]%elem_of_cons Heq; [by subst id|by apply (Hi2 b)].
  - cbn. intros id Hid b [->|Hb]%elem_of_cons; [intros <-; by apply Hr, stale_retired|by apply (i_stale _ _ _ H)].
Qed.

Lemma inv_new a exp C q w iv :
  inv exp C q → addr_free a q = true → interval_ok iv = true →
  inv (a :: exp) C (set_numCreated (s_numCreated_ q + 1) (set_heap (<[a := Timer w iv (s_numCreated_ q + 1)]> (heap q)) q)).
Proof.
  intros H Ha Hiv. unfold addr_free in Ha. apply andb_true_iff in Ha as [Ha Hnone%bool_decide_eq_true].
  assert (Hn : a ∉ owned exp q).
  { intros Hin%(i_owned _ _ _ H). rewrite Hnone in Hin. by destruct Hin. }
  assert (Hne : ∀ b, b ∈ owned exp q → <[a := Timer w iv (s_numCreated_ q + 1)]> (heap q) !! b = heap q !! b).
  { intros b Hb. apply lookup_insert_ne. by intros ->. }
  constructor; cbn; try apply H.
  - intros e He. rewrite Hne; [by apply (i_time _ _ _ H)|]. unfold owned. apply elem_of_app. left. by apply list_elem_of_fmap_2.
  - unfold owned. cbn. rewrite <-!Permutation_middle. constructor; [done|apply H].
  - intros b. unfold owned. cbn. rewrite <-!Permutation_middle, elem_of_cons. change (_ ++ _) with (owned exp q).
    rewrite <-(i_owned _ _ _ H). destruct (decide (a = b)) as [->|Hb].
    + rewrite lookup_insert_eq. split; [by left|by eexists].
    + rewrite lookup_insert_ne by done. naive_solver.
  - rewrite (ids_fmap_ext (heap q)); [apply H|]. intros b Hb. apply Hne. unfold owned. set_solver.
  - intros b t. destruct (decide (a = b)) as [->|Hb].
    + rewrite lookup_insert_eq. intros [= <-]. cbn. split; [lia|]. split; [lia|done].
    + rewrite lookup_insert_ne by done. intros Ht. destruct (i_timer _ _ _ H b t Ht) as (? & ? & ?). split; [done|]. split; [lia|done].
  - intros b s Hi. pose proof (i_inserted _ _ _ H b s Hi). lia.
  - intros b Hb. rewrite (idOf_eq (heap q)) by (apply Hne; unfold owned; set_solver). by apply (i_adds _ _ _ H).
  - intros id Hid. destruct (i_retired _ _ _ H id Hid) as [Hi1 Hi2]. split; [done|]. intros b [->|Hb]%elem_of_cons Heq.
    + exfalso. unfold idOf, seqOf in Heq. rewrite lookup_insert_eq in Heq. subst id.
      pose proof (i_inserted _ _ _ H _ _ (retired_inserted _ _ Hid)). cbn in *. lia.
    + rewrite (idOf_eq (heap q)) in Heq by (apply Hne; unfold owned; set_solver). by apply (Hi2 b).
  - intros id Hid b [->|Hb]%elem_of_cons Heq.
    + unfold idOf, seqOf in Heq. rewrite lookup_insert_eq in Heq. subst id.
      pose proof (i_inserted _ _ _ H _ _ (retired_inserted _ _ (stale_retired _ _ Hid))). cbn in *. lia.
    + rewrite (idOf_eq (heap q)) in Heq by (apply Hne; unfold owned; set_solver). by eapply (i_stale _ _ _ H).
Qed.

Lemma adds_app l k : adds (l ++ k) = adds l ++ adds k.
Proof. apply omap_app. Qed.

Lemma inv_queue_add a exp C q :
  inv (a :: exp) C q → Inserted (idOf (heap q) a) ∉ log q →
  inv exp C (set_pending (pendingFunctors_ q ++ [FAddTimer a]) q).
Proof.
  intros H Ha.
  assert (Ho : owned exp (set_pending (pendingFunctors_ q ++ [FAddTimer a]) q) ≡ₚ owned (a :: exp) q).
  { unfold owned. cbn [timers_ set_pending pendingFunctors_]. rewrite adds_app. cbn. by rewrite <-!app_assoc. }
  constructor; try apply H.
  - rewrite Ho. apply H.
  - intros b. rewrite Ho. apply H.
  - cbn. rewrite adds_app. cbn. intros b [Hb|Hb%list_elem_of_singleton]%elem_of_app; [by apply (i_adds _ _ _ H)|by subst].
  - cbn. intros id Hid. destruct (i_retired _ _ _ H id Hid) as [Hi1 Hi2]. split; [done|]. intros b Hb. apply Hi2. by right.
  - cbn. intros id Hid b Hb. apply (i_stale _ _ _ H id Hid). by right.
Qed.

Lemma inv_run_add a fs exp C q :
  inv exp C q → pendingFunctors_ q = FAddTimer a :: fs → inv (a :: exp) C (set_pending fs q).
Proof.
  intros H Hq.
  assert (Ha : Inserted (idOf (heap q) a) ∉ log q) by (apply (i_adds _ _ _ H); rewrite Hq; left).
  assert (Ho : owned (a :: exp) (set_pending fs q) ≡ₚ owned exp q).
  { unfold owned. cbn. rewrite Hq. cbn. by rewrite <-!Permutation_middle. }
  constructor; try apply H.
  - rewrite Ho. apply H.
  - intros b. rewrite Ho. apply H.
  - cbn. intros b Hb. apply (i_adds _ _ _ H). rewrite Hq. by right.
  - cbn. intros id Hid. destruct (i_retired _ _ _ H id Hid) as [Hi1 Hi2]. split; [done|].
    intros b [->|Hb]%elem_of_cons Heq; [subst id; by apply retired_inserted in Hid|by apply (Hi2 b)].
  - cbn. intros id Hid b [->|Hb]%elem_of_cons; [|by apply (i_stale _ _ _ H)].
    intros <-. by apply stale_retired, retired_inserted in Hid.
Qed.

Lemma inv_cancel_functor id fs exp C q :
  inv exp C q → (pendingFunctors_ q = FCancel id :: fs → inv exp C (set_pending fs q)) ∧
  inv exp C (set_pending (pendingFunctors_ q ++ [FCancel id]) q).
Proof.
  intros H. split.
  - intros Hq. assert (Ho : owned exp (set_pending fs q) = owned exp q) by (unfold owned; cbn; by rewrite Hq).
    constructor; try apply H; try rewrite Ho; try apply H. cbn. intros b Hb. apply (i_adds _ _ _ H). by rewrite Hq.
  - set (q' := set_pending _ _).
    assert (Ha : adds (pendingFunctors_ q') = adds (pendingFunctors_ q)) by (cbn; by rewrite adds_app, app_nil_r).
    assert (Ho : owned exp q' = owned exp q) by (unfold owned; by rewrite Ha).
    constructor; try apply H; try rewrite Ho; try apply H. intros b. rewrite Ha. apply (i_adds _ _ _ H).
Qed.

Import TimerQueue.

(** Between two operations: [exp] are the timers that handleRead works on. *)
Record good (b : bool) (exp : list Z) (q : queue) : Prop := Good {
  g_inv : inv exp (cancelingTimers_ q) q;
  g_armed : armed b q;
  g_calling : exp = [] ∨ callingExpiredTimers_ q = true
}.

(** What an operation leaves alone. *)
Record frame (exp : list Z) (q q' : queue) : Prop := Frame {
  f_firings : firings (log q') = firings (log q);
  f_exp a : a ∈ exp → heap q' !! a = heap q !! a;
  f_calling : callingExpiredTimers_ q' = callingExpiredTimers_ q
}.

#[export] Instance frame_refl exp : Reflexive (frame exp).
Proof. by constructor. Qed.

#[export] Instance frame_trans exp : Transitive (frame exp).
Proof.
  intros q1 q2 q3 [H1 H2 H3] [H1' H2' H3']. constructor; [congruence| |congruence].
  intros a Ha. rewrite H2' by done. by apply H2.
Qed.

Lemma resetTimerfd_run w q :
  resetTimerfd w q = (Val (), set_alarm (Some (Z.max w (clock q + 100))) q).
Proof.
  unfold resetTimerfd, modify, howMuchTimeFromNow, kMicroSecondsPerSecond.
  set (m := if w - clock q <? 100 then 100 else w - clock q).
  assert (Hm : 100 <= m) by (unfold m; case_match; lia).
  do 4 f_equal. change (1000 * 1000) with 1000000.
  rewrite Z.div_mul by lia. pose proof (Z.quot_rem m 1000000 ltac:(lia)).
  unfold m in *. case_match; lia.
Qed.

(** The timer of a run of addTimerInLoop: created, and not yet in the sets. *)
Lemma addTimerInLoop_ok b exp a q :
  inv (a :: exp) (cancelingTimers_ q) q → armed b q → exp = [] ∨ callingExpiredTimers_ q = true →
  Inserted (idOf (heap q) a) ∉ log q →
  ensures (addTimerInLoop a) q (λ _ q', good b exp q' ∧ frame exp q q').
Proof.
  intros H Harm Hc Hi.
  assert (is_Some (heap q !! a)) as [t Ht].
  { apply (i_owned _ _ _ H). unfold owned. set_solver. }
  assert (Hid : idOf (heap q) a = (a, sequence t)) by (unfold idOf; by rewrite (seqOf_lookup _ _ _ Ht)).
  destruct (insert_ok _ _ _ _ _ H Ht) as (k & c & Hrun & Hinv & Hp & Hh & ->).
  { rewrite <-Hid. by intros ?%retired_inserted. }
  set (q1 := set_active _ _) in *. unfold addTimerInLoop.
  apply ensures_bind. eexists _, q1. split; [exact Hrun|].
  apply ensures_bind. exists t, q1. split; [by apply deref_ok|].
  apply ensures_bind, ensures_modify.
  assert (Hinv2 : inv exp (cancelingTimers_ q) (add_log (Inserted (a, sequence t)) q1)).
  { change (heap q !! a) with (heap q1 !! a) in Ht.
    rewrite <-Hid. change (heap q) with (heap q1). apply inv_inserted; [done|by eexists|].
    by destruct (exp_not_timer _ _ _ _ H) as (_ & ? & _). }
  assert (Hs : sorted k) by apply Hinv. unfold armed in Harm.
  destruct (match timers_ q with [] => true | (w, _) :: _ => expiration t <? w end) eqn:Hearly.
  - exists (), (set_alarm (Some (Z.max (expiration t) (clock q + 100))) (add_log (Inserted (a, sequence t)) q1)).
    split; [by rewrite resetTimerfd_run|]. split; [|by constructor].
    constructor; [by apply inv_set_alarm| |done].
    unfold armed. cbn. destruct k as [|[w0 a0] k']; [done|]. right. eexists; split; [done|].
    enough (expiration t <= w0) by lia.
    destruct Hh as [Hh|Hh]; cbn in Hh; [by simplify_eq|].
    destruct (timers_ q) as [|[w1 a1] l]; [done|]. cbn in Hh. simplify_eq. lia.
  - apply ensures_ret. split; [|by constructor]. constructor; [done| |done].
    destruct (timers_ q) as [|[w1 a1] l]; [done|]. unfold armed. cbn.
    destruct Hh as [Hh|Hh]; destruct k as [|[w0 a0] k']; simplify_eq/=; [|done].
    assert (Hle : expiration t <= w1).
    { apply (sorted_head_least (expiration t, a) k' (w1, a1) Hs). rewrite Hp. right. left. }
    replace (expiration t) with w1 by lia. done.
Qed.

Lemma cancelInLoop_ok b exp id q :
  good b exp q → ensures (cancelInLoop id) q (λ _ q', good b exp q' ∧ frame exp q q').
Proof.
  intros [H Harm Hc]. unfold cancelInLoop.
  apply ensures_bind. exists (), q. split; [by eapply sizes_ok|].
  apply ensures_bind, ensures_modify. apply ensures_bind, ensures_get. cbn [activeTimers_ add_log callingExpiredTimers_ timers_].
  destruct (bool_decide (id ∈ activeTimers_ q)) eqn:Hin; [apply bool_decide_eq_true in Hin|apply bool_decide_eq_false in Hin].
  - destruct id as [a s]. pose proof Hin as Hin'. rewrite (elem_of_active _ _ _ _ H) in Hin'.
    destruct Hin' as [Ha Hseq]. cbn in Ha, Hseq. apply list_elem_of_fmap in Ha as ([w a'] & -> & Ha). cbn in *.
    destruct (timer_owned _ _ _ _ H Ha) as (t & Ht & Hw). cbn in Ht, Hw.
    destruct (set_erase_spec _ _ (i_sorted _ _ _ H) Ha) as (k & Hk & Hs & Hp).
    assert (Hid : idOf (heap q) a' = (a', s)) by (unfold idOf; by rewrite Hseq).
    set (q' := set_heap (delete a' (heap q)) (set_active (activeTimers_ q ∖ {[(a', s)]}) (set_timers k q))).
    assert (Hinv : inv exp (cancelingTimers_ q) q').
    { apply (inv_delete a' exp _ (set_active (activeTimers_ q ∖ {[(a', s)]}) (set_timers k q))). rewrite <-Hid. eapply inv_take; [done|exact Hp|done|].
      rewrite Hid. intros Hr. by apply (i_retired _ _ _ H) in Hr as [? _]. }
    assert (Hout : a' ∉ exp).
    { pose proof (i_nodup _ _ _ H) as Hd. unfold owned in Hd. rewrite Hp in Hd. cbn in Hd.
      apply NoDup_cons in Hd as [Hn _]. set_solver. }
    assert (Hinv2 : inv exp (cancelingTimers_ q) (add_log (Cancelled (a', s)) q')).
    { apply inv_cancelled; [done|cbn; set_solver|]. intros b' Hb' Heq. unfold idOf in Heq. by simplify_eq. }
    apply ensures_bind. exists (), (add_log (Cancelled (a', s)) q'). split.
    + erewrite act_bind_val by (by apply deref_ok). rewrite Hw. cbn [snd]. rewrite Hk.
      unfold put_state, cpp_assert, delete_timer, act_bind, deref, get_state, modify. cbn. by rewrite Ht.
    + exists (), (add_log (Cancelled (a', s)) q'). split; [by eapply sizes_ok|]. split.
      * constructor; [done| |done]. eapply armed_mono; [apply H|done| |done|done].
        intros e He. rewrite Hp. by right.
      * constructor; [done| |done]. intros b' Hb'. cbn. apply lookup_delete_ne. by intros ->.
  - destruct (callingExpiredTimers_ q) eqn:Hcall.
    + apply ensures_bind, ensures_modify. set (q' := set_canceling _ _).
      assert (Hinv : inv exp (cancelingTimers_ q') q').
      { apply (inv_set_canceling exp _ (add_log (Cancelled id) q)). apply inv_cancelled; [|done|set_solver].
        eapply inv_grow; [done|]. cbn. set_solver. }
      exists (), q'. split; [by eapply sizes_ok|]. split; [|by constructor].
      constructor; [done| |by right]. eapply armed_mono; [apply H|done|done|done|done].
    + apply ensures_bind, ensures_ret. destruct Hc as [->|?]; [|done].
      assert (Hinv : inv [] (cancelingTimers_ q) (add_log (Cancelled id) q))
        by (apply inv_cancelled; [done|done|set_solver]).
      exists (), (add_log (Cancelled id) q). split; [by eapply sizes_ok|]. split; [|by constructor].
      constructor; [done| |by left]. eapply armed_mono; [apply H|done|done|done|done].
Qed.

Lemma do_op_ok b exp o q :
  good b exp q → ensures (do_op o) q (λ _ q', good b exp q' ∧ frame exp q q').
Proof.
  intros Hg. pose proof Hg as [H Harm Hc].
  destruct o as [inLoop a w iv|inLoop id|d]; cbn [do_op].
  - apply ensures_bind, ensures_get.
    destruct (addr_free a q && interval_ok iv) eqn:Hok; [|by apply ensures_ret].
    apply andb_true_iff in Hok as [Ha Hiv]. unfold addTimer, new_timer.
    apply ensures_bind, ensures_modify.
    pose proof (inv_new a exp _ q w iv H Ha Hiv) as H1. set (q1 := set_numCreated _ _) in *.
    assert (Hfr : frame exp q q1).
    { constructor; [done| |done]. intros c Hce. cbn. apply lookup_insert_ne. intros ->.
      destruct (exp_not_timer _ _ _ _ H1) as (_ & _ & Hn). done. }
    assert (Hi : Inserted (idOf (heap q1) a) ∉ log q1).
    { unfold idOf, seqOf. cbn. rewrite lookup_insert_eq. cbn.
      intros Hi%(i_inserted _ _ _ H). lia. }
    destruct inLoop.
    + eapply ensures_weaken; [by apply addTimerInLoop_ok|]. cbn. intros _ q' [Hg' Hf]. split; [done|]. by etrans.
    + apply ensures_modify. split; [|by destruct Hfr].
      constructor; [by apply inv_queue_add|done|done].
  - unfold cancel. destruct inLoop; [by apply cancelInLoop_ok|].
    apply ensures_modify. split; [|by constructor]. constructor; [|done|done].
    exact (proj2 (inv_cancel_functor id [] _ _ _ H)).
  - destruct (0 <=? d) eqn:Hd; [|by apply ensures_ret]. apply ensures_modify. split; [|by constructor].
    constructor; [apply inv_set_clock; [done|lia]| |done].
    eapply armed_mono; [apply H|done|done|done|]. cbn. lia.
Qed.

Lemma ops_ok b exp l q :
  good b exp q → ensures (act_mapM_ do_op l) q (λ _ q', good b exp q' ∧ frame exp q q').
Proof.
  intros Hg. apply (ensures_mapM do_op (λ _ q', good b exp q' ∧ frame exp q q')); [done|].
  intros o k q1 [Hg1 Hf]. eapply ensures_weaken; [by apply do_op_ok|]. cbn. intros _ q2 [Hg2 Hf2].
  split; [done|by etrans].
Qed.

(** ** handleRead *)

(** What is fired for an entry. *)
Definition firing (h : gmap Z timer) (e : Entry) : TimerId * Z := (idOf h e.2, e.1).

Lemma run_all_ok b exp l scripts q :
  good b exp q → (∀ e, e ∈ l → e.2 ∈ exp) →
  ensures (run_all l scripts) q (λ _ q', good b exp q' ∧
    callingExpiredTimers_ q' = callingExpiredTimers_ q ∧
    firings (log q') = reverse (firing (heap q) <$> l) ++ firings (log q)).
Proof.
  revert scripts q. induction l as [|e l IH]; intros scripts q Hg Hl; [by apply ensures_ret|].
  cbn [run_all]. pose proof Hg as [H Harm Hc].
  assert (He : e.2 ∈ exp) by (apply Hl; left).
  assert (is_Some (heap q !! e.2)) as [t Ht] by (apply (i_owned _ _ _ H); unfold owned; set_solver).
  assert (Hid : idOf (heap q) e.2 = (e.2, sequence t)) by (unfold idOf; by rewrite (seqOf_lookup _ _ _ Ht)).
  apply ensures_bind. unfold run.
  apply ensures_bind. exists t, q. split; [by apply deref_ok|].
  apply ensures_bind, ensures_modify. rewrite <-Hid.
  set (q1 := add_log _ q).
  assert (Hg1 : good b exp q1) by (constructor; [by apply inv_fired|done|done]).
  eapply ensures_weaken; [by apply (ops_ok b exp)|]. cbv beta. intros _ q2 [Hg2 Hf].
  eapply ensures_weaken; [apply (IH _ _ Hg2)|].
  { intros e' He'. apply Hl. by right. }
  cbv beta. intros _ q3 (Hg3 & Hcall & Hfire). split; [done|]. split; [by rewrite Hcall, (f_calling _ _ _ Hf)|].
  rewrite Hfire, (f_firings _ _ _ Hf).
  change (firings (log q1)) with (firing (heap q) e :: firings (log q)).
  rewrite fmap_cons, reverse_cons, <-app_assoc. cbn [app]. f_equal. f_equal.
  apply list_fmap_ext. intros i e' He'. unfold firing. f_equal. apply idOf_eq.
  rewrite (f_exp _ _ _ Hf); [done|]. apply Hl. right. by eapply list_elem_of_lookup_2.
Qed.

Lemma inv_perm exp exp' C q : inv exp C q → exp ≡ₚ exp' → inv exp' C q.
Proof.
  intros H Hp. assert (Ho : owned exp q ≡ₚ owned exp' q) by (unfold owned; by rewrite Hp).
  constructor; try apply H.
  - rewrite <-Ho. apply H.
  - intros a. rewrite <-Ho. apply H.
  - intros id Hid. destruct (i_retired _ _ _ H id Hid) as [? Hr]. split; [done|]. intros a. rewrite <-Hp. apply Hr.
  - intros id Hid a. rewrite <-Hp. by apply (i_stale _ _ _ H).
Qed.

Lemma inv_nil C C' q : inv [] C q → inv [] C' q.
Proof.
  intros H. constructor; try apply H. intros id Hid. destruct (i_retired _ _ _ H id Hid). split; [done|].
  intros a Ha. by apply not_elem_of_nil in Ha.
Qed.

(** getExpired, the loop over activeTimers_. *)
Definition takeAll (l k : list Entry) (q : queue) : queue :=
  set_active (activeTimers_ q ∖ list_to_set (idOf (heap q) <$> l.*2)) (set_timers k q).

Lemma erase_all_run l k q :
  NoDup l.*2 → (∀ e, e ∈ l → is_Some (heap q !! e.2) ∧ idOf (heap q) e.2 ∈ activeTimers_ q) →
  act_mapM_ erase_active l (set_timers k q) = (Val (), takeAll l k q).
Proof.
  revert q. induction l as [|e l IH]; intros q Hd Hl; cbn [act_mapM_].
  { unfold takeAll. cbn. rewrite difference_empty_L. by destruct q. }
  cbn in Hd. apply NoDup_cons in Hd as [Hn Hd]. destruct (Hl e) as [[t Ht] Hin]; [left|].
  assert (Hid : idOf (heap q) e.2 = (e.2, sequence t)) by (unfold idOf; by rewrite (seqOf_lookup _ _ _ Ht)).
  set (q1 := set_active (activeTimers_ q ∖ {[(e.2, sequence t)]}) q).
  assert (Hrun : erase_active e (set_timers k q) = (Val (), set_timers k q1)).
  { unfold erase_active. erewrite act_bind_val by (by apply deref_ok).
    unfold act_bind, get_state, put_state, cpp_assert. cbn. rewrite bool_decide_eq_true_2; [done|].
    by rewrite <-Hid. }
  erewrite act_bind_val by exact Hrun. rewrite (IH q1).
  - unfold takeAll. cbn. rewrite Hid, difference_difference_l_L. done.
  - done.
  - intros e' He'. destruct (Hl e') as [Hs Hin']; [by right|]. split; [done|]. cbn.
    apply elem_of_difference. split; [done|]. rewrite elem_of_singleton. unfold idOf. intros [= Heq _].
    apply Hn. rewrite <-Heq. by apply list_elem_of_fmap_2.
Qed.

Lemma inv_takeAll l k C exp q :
  inv exp C q → timers_ q = l ++ k → (∀ id, retired id (log q) → id ∉ idOf (heap q) <$> l.*2) →
  inv (l.*2 ++ exp) C (takeAll l k q).
Proof.
  revert exp q. induction l as [|[w a] l IH]; intros exp q H Hq Hr.
  { unfold takeAll. cbn. rewrite difference_empty_L. destruct q. cbn in *. by subst. }
  pose proof (i_sorted _ _ _ H) as Hs. rewrite Hq in Hs. cbn in Hs. apply StronglySorted_inv in Hs as [Hs _].
  assert (H1 : inv (a :: exp) C (set_active (activeTimers_ q ∖ {[idOf (heap q) a]}) (set_timers (l ++ k) q))).
  { apply (inv_take w); [done|by rewrite Hq|done|]. intros Hret. apply (Hr _ Hret). left. }
  apply IH in H1; [|done|].
  - unfold takeAll in *. cbn in *. rewrite difference_difference_l_L in H1.
    eapply inv_perm; [exact H1|]. by rewrite <-Permutation_middle.
  - cbn. intros id Hid Hin. apply (Hr id Hid). right. exact Hin.
Qed.

Lemma filter_all {A} (P : A → Prop) `{∀ x, Decision (P x)} (l : list A) : (∀ x, x ∈ l → P x) → filter P l = l.
Proof.
  induction l as [|x l IH]; intros Hl; [done|]. rewrite filter_cons_True by (apply Hl; left).
  f_equal. apply IH. intros y Hy. apply Hl. by right.
Qed.

Lemma filter_none {A} (P : A → Prop) `{∀ x, Decision (P x)} (l : list A) : (∀ x, x ∈ l → ¬ P x) → filter P l = [].
Proof.
  induction l as [|x l IH]; intros Hl; [done|]. rewrite filter_cons_False by (apply Hl; left).
  apply IH. intros y Hy. apply Hl. by right.
Qed.

(** The due timers are a prefix of timers_. *)
Definition due (now : Z) (q : queue) : list Entry := filter (λ e : Entry, e.1 <= now) (timers_ q).

Lemma split_due exp C q now :
  inv exp C q →
  ∃ k, split_lower_bound (now, UINTPTR_MAX) (timers_ q) = (due now q, k) ∧
       timers_ q = due now q ++ k ∧ Forall (λ e, now < e.1) k.
Proof.
  intros H. destruct (split_spec (now, UINTPTR_MAX) (timers_ q) (i_sorted _ _ _ H)) as (l & k & Hsp & Hq & Hl & Hk).
  assert (Hk' : Forall (λ e, now < e.1) k).
  { rewrite Forall_forall in Hk |- *. intros e He. specialize (Hk e He).
    destruct (timer_owned _ _ _ e H) as (t & Ht & _); [rewrite Hq; apply elem_of_app; by right|].
    apply (i_timer _ _ _ H) in Ht as [? _]. unfold entry_less, entry_lt in Hk. cbn in Hk. lia. }
  assert (due now q = l) as ->.
  { unfold due. rewrite Hq, filter_app. rewrite (filter_all _ l), (filter_none _ k), app_nil_r; [done| |].
    - rewrite Forall_forall in Hk'. intros e He. specialize (Hk' e He). lia.
    - rewrite Forall_forall in Hl. intros e He. specialize (Hl e He). unfold entry_less, entry_lt in Hl. cbn in Hl. lia. }
  by exists k.
Qed.

Lemma getExpired_ok now q :
  inv [] ∅ q →
  ∃ k, getExpired now q = (Val (due now q), takeAll (due now q) k q) ∧
       inv (due now q).*2 ∅ (takeAll (due now q) k q) ∧ Forall (λ e, now < e.1) k.
Proof.
  intros H. destruct (split_due _ _ _ now H) as (k & Hsp & Hq & Hk). exists k.
  assert (Hin : ∀ e, e ∈ due now q → is_Some (heap q !! e.2) ∧ idOf (heap q) e.2 ∈ activeTimers_ q).
  { intros e He. assert (Het : e ∈ timers_ q) by (rewrite Hq; apply elem_of_app; by left).
    destruct (timer_owned _ _ _ e H Het) as (t & Ht & _). split; [by eexists|].
    rewrite (elem_of_active _ _ _ _ H). cbn. split; [by apply list_elem_of_fmap_2|done]. }
  assert (Hinv : inv (due now q).*2 ∅ (takeAll (due now q) k q)).
  { rewrite <-(app_nil_r (due now q).*2). apply inv_takeAll; [done|done|].
    intros id Hid Hi. destruct (i_retired _ _ _ H id Hid) as [Hn _]. apply Hn.
    rewrite elem_of_ids in Hi. destruct Hi as [Hi Hs]. apply list_elem_of_fmap in Hi as (e & He & Hd).
    destruct (Hin e Hd) as [_ Ha]. destruct id as [a s]. cbn in *. subst a.
    unfold idOf in Ha. by rewrite Hs in Ha. }
  split; [|done]. unfold getExpired.
  erewrite act_bind_val by (by eapply sizes_ok). unfold act_bind at 1, get_state at 1. cbv beta iota.
  rewrite Hsp. unfold act_bind at 1, cpp_assert at 1.
  replace (match k with [] => true | e :: _ => now <? e.1 end) with true.
  2: { destruct k as [|e k]; [done|]. apply Forall_cons in Hk as [Hk _]. cbn in Hk. lia. }
  unfold act_bind at 1, put_state at 1. erewrite act_bind_val.
  2: { apply erase_all_run; [|done]. pose proof (timers_nodup _ _ _ H) as Hd. rewrite Hq in Hd.
       rewrite fmap_app in Hd. by apply NoDup_app in Hd as [Hd _]. }
  erewrite act_bind_val by (by eapply sizes_ok). done.
Qed.

(** A repeated timer keeps its sequence number. *)
Lemma inv_restart a exp C q t now :
  inv (a :: exp) C q → heap q !! a = Some t → inv (a :: exp) C (set_heap (<[a := restart now t]> (heap q)) q).
Proof.
  intros H Ht. destruct (exp_not_timer _ _ _ _ H) as (Hn & _ & _).
  assert (Hseq : sequence (restart now t) = sequence t ∧ interval_ (restart now t) = interval_ t)
    by (unfold restart; by destruct (interval_ t)).
  destruct Hseq as [Hseq Hiv].
  assert (Hids : ∀ b, idOf (<[a := restart now t]> (heap q)) b = idOf (heap q) b).
  { intros b. unfold idOf, seqOf. destruct (decide (a = b)) as [<-|Hb];
      [by rewrite lookup_insert_eq, Ht, Hseq|by rewrite lookup_insert_ne]. }
  constructor; cbn; try apply H.
  - intros e He. rewrite lookup_insert_ne; [by apply (i_time _ _ _ H)|]. intros ->. apply Hn. by apply list_elem_of_fmap_2.
  - intros b. rewrite lookup_insert_is_Some. change (owned _ _) with (owned (a :: exp) q). rewrite <-(i_owned _ _ _ H).
    destruct (decide (a = b)) as [<-|Hb]; [rewrite Ht; naive_solver|naive_solver].
  - replace (idOf (<[a := restart now t]> (heap q)) <$> (timers_ q).*2) with (idOf (heap q) <$> (timers_ q).*2); [apply H|].
    apply list_fmap_ext. intros; symmetry; apply Hids.
  - intros b t'. destruct (decide (a = b)) as [<-|Hb]; [|rewrite lookup_insert_ne by done; apply H].
    rewrite lookup_insert_eq. intros [= <-]. rewrite Hseq, Hiv. by apply (i_timer _ _ _ H).
  - intros b. rewrite Hids. apply (i_adds _ _ _ H).
  - intros id Hid. destruct (i_retired _ _ _ H id Hid) as [? Hr]. split; [done|]. intros b Hb. rewrite Hids. by apply Hr.
  - intros id Hid b Hb. rewrite Hids. by apply (i_stale _ _ _ H).
Qed.

(** reset, with the timers [l] still to be looked at. *)
Record resetting (now : Z) (F : list (TimerId * Z)) (l : list Entry) (q : queue) : Prop := Resetting {
  r_inv : inv l.*2 (cancelingTimers_ q) q;
  r_armed : armed false q;
  r_firings : firings (log q) = F
}.

Lemma reset_one_ok now F e l q :
  0 < now → resetting now F (e :: l) q → ensures (reset_one now e) q (λ _, resetting now F l).
Proof.
  intros Hnow [H Harm Hf]. cbn in H.
  assert (is_Some (heap q !! e.2)) as [t Ht] by (apply (i_owned _ _ _ H); unfold owned; set_solver).
  assert (Hid : idOf (heap q) e.2 = (e.2, sequence t)) by (unfold idOf; by rewrite (seqOf_lookup _ _ _ Ht)).
  unfold reset_one. apply ensures_bind. exists t, q. split; [by apply deref_ok|].
  apply ensures_bind, ensures_get.
  destruct (repeat t && bool_decide _) eqn:Hrep.
  - apply andb_true_iff in Hrep as [Hrep%bool_decide_eq_true Hc%bool_decide_eq_true].
    apply ensures_bind, ensures_put. pose proof (inv_restart _ _ _ _ _ now H Ht) as H1.
    set (q1 := set_heap _ _) in *. assert (Ht1 : heap q1 !! e.2 = Some (restart now t)) by apply lookup_insert_eq.
    assert (Hpos : sequence (restart now t) = sequence t ∧ 0 < expiration (restart now t)).
    { apply (i_timer _ _ _ H) in Ht as (_ & _ & Hok). unfold restart. destruct Hrep as [d Hd].
      rewrite Hd in Hok |- *. cbn in *. split; [done|lia]. }
    destruct Hpos as [Hs Hpos].
    destruct (insert_ok _ _ _ _ _ H1 Ht1) as (k & b & Hrun & Hinv & Hp & Hh & _).
    { rewrite Hs, <-Hid. intros Hr. destruct (i_retired _ _ _ H _ Hr) as [_ Hi]. apply Hc. rewrite <-Hid.
      apply (Hi e.2); [left|done]. }
    apply ensures_bind. eexists _, _. split; [exact Hrun|]. apply ensures_ret.
    constructor; [done| |done]. unfold armed in Harm |- *. cbn in *.
    destruct k as [|[w a] k]; [done|]. destruct Hh as [Hh|Hh]; [injection Hh as -> ->; left; split; [done|exact Hpos]|].
    destruct (timers_ q) as [|[w1 a1] l1]; [done|]. by simplify_eq.
  - exists (), (set_heap (delete e.2 (heap q)) q). split.
    + unfold delete_timer. by erewrite act_bind_val by (by apply deref_ok).
    + constructor; [by apply inv_delete|done|done].
Qed.

Lemma reset_ok now F l q :
  0 < now → resetting now F l q →
  ensures (reset l now) q (λ _ q', good true [] q' ∧ firings (log q') = F).
Proof.
  intros Hnow HR. unfold reset. apply ensures_bind.
  eapply ensures_weaken; [apply (ensures_mapM _ (resetting now F)); [done|]|].
  { intros e k q1 HR1. by apply reset_one_ok. }
  cbn. intros _ q1 [H Harm Hf]. cbn in H. apply ensures_bind, ensures_get. unfold armed in Harm.
  destruct (timers_ q1) as [|[w a] T] eqn:HT.
  { apply ensures_bind, ensures_ret. cbn. apply ensures_ret. split; [|done].
    constructor; [done| |by left]. unfold armed. by rewrite HT. }
  destruct (timer_owned _ _ _ (w, a) H) as (t & Ht & Hw); [rewrite HT; left|]. cbn in Ht, Hw.
  apply ensures_bind. exists w, q1. split.
  { cbn [snd]. erewrite act_bind_val by (by apply deref_ok). by rewrite Hw. }
  destruct (0 <? w) eqn:Hpos.
  - exists (), (set_alarm (Some (Z.max w (clock q1 + 100))) q1). split; [by rewrite resetTimerfd_run|].
    split; [|done]. constructor; [by apply inv_set_alarm| |by left]. unfold armed. cbn. rewrite HT.
    right. by eexists.
  - apply ensures_ret. split; [|done]. constructor; [done| |by left]. unfold armed. rewrite HT.
    destruct Harm as [[_ ?]|?]; [lia|by right].
Qed.

Lemma handleRead_ok scripts q :
  good true [] q →
  ensures (handleRead scripts) q (λ _ q', good true [] q' ∧
    firings (log q') = reverse (firing (heap q) <$> due (clock q) q) ++ firings (log q)).
Proof.
  intros [H Harm _]. set (now := clock q). assert (Hnow : 0 < now) by apply H.
  unfold handleRead. apply ensures_bind, ensures_gets. fold now.
  apply ensures_bind, ensures_modify. set (q1 := add_log _ q).
  assert (H1 : inv [] ∅ q1) by (eapply inv_nil, inv_alarm; exact H).
  apply ensures_bind. unfold readTimerfd. apply ensures_modify.
  set (q2 := match alarm q1 with Some t => _ | None => _ end).
  assert (Hq2 : inv [] ∅ q2 ∧ due now q2 = due now q ∧ log q2 = log q1 ∧ heap q2 = heap q).
  { unfold q2. destruct (alarm q1) as [t|]; [|done]. destruct (t <=? clock q1); [|done].
    split; [by apply inv_set_alarm|done]. }
  destruct Hq2 as (H2 & Hdue & Hlog & Hheap).
  destruct (getExpired_ok now q2 H2) as (k & Hrun & Hinv & Hk). rewrite Hdue in *.
  apply ensures_bind. eexists _, _. split; [exact Hrun|]. set (q3 := takeAll _ _ _) in *.
  apply ensures_bind, ensures_modify. apply ensures_bind, ensures_modify. set (q4 := set_canceling _ _).
  apply ensures_bind. eapply ensures_weaken; [apply (run_all_ok false (due now q).*2)|].
  - constructor; [by apply (inv_set_canceling _ _ (set_calling true q3)), inv_set_calling| |by right].
    unfold armed. cbn. destruct k as [|[w a] k]; [done|]. left. split; [done|].
    apply Forall_cons in Hk as [Hk _]. cbn in Hk. lia.
  - intros e He. by apply list_elem_of_fmap_2.
  - cbv beta. intros _ q5 (Hg5 & _ & Hf5). apply ensures_bind, ensures_modify.
    eapply ensures_weaken; [apply (reset_ok now (firings (log q5))); [done|]|].
    + destruct Hg5 as [Hi5 Ha5 _]. constructor; [by apply inv_set_calling|done|done].
    + cbv beta. intros _ q6 [Hg6 Hf6]. split; [done|]. rewrite Hf6, Hf5. cbn [heap log set_canceling set_calling q4 q3 takeAll set_active set_timers].
      change (heap q4) with (heap q2). change (log q4) with (log q2). by rewrite Hheap, Hlog.
Qed.

(** ** Steps and histories *)

Lemma run_functor_ok q : good true [] q → ensures run_functor q (λ _, good true []).
Proof.
  intros [H Harm Hc]. unfold run_functor. apply ensures_bind, ensures_get.
  destruct (pendingFunctors_ q) as [|[a|id] fs] eqn:Hq; [by apply ensures_ret| |]; apply ensures_bind, ensures_put.
  - pose proof (inv_run_add _ _ _ _ _ H Hq) as H1.
    eapply ensures_weaken; [apply (addTimerInLoop_ok true []); [done|done|by left|]|by intros _ q' [? _]].
    apply (i_adds _ _ _ H). rewrite Hq. left.
  - eapply ensures_weaken; [apply (cancelInLoop_ok true [])|by intros _ q' [? _]].
    constructor; [by eapply (proj1 (inv_cancel_functor id fs _ _ _ H))|done|by left].
Qed.

(** A thread may only read the timer that it has created while it exists. *)
Definition readable (e : event) (q : queue) : Prop := ∀ a, e = AddTimerReturns a → is_Some (heap q !! a).

Lemma timer_step_ok e q : good true [] q → readable e q → ensures (step e) q (λ _, good true []).
Proof.
  intros Hg Hr. destruct e as [o|a| |scripts]; cbn [step].
  - eapply ensures_weaken; [by apply do_op_ok|by intros _ q' [? _]].
  - destruct (Hr a eq_refl) as [t Ht]. exists (), q. split; [|done]. unfold addTimer_return.
    by erewrite act_bind_val by (by apply deref_ok).
  - by apply run_functor_ok.
  - eapply ensures_weaken; [by apply handleRead_ok|by intros _ q' [? _]].
Qed.

Lemma good_init now : 0 < now → good true [] (init now).
Proof.
  intros Hnow. constructor; [|done|by left]. constructor; try done; cbn.
  - constructor.
  - intros e He. by apply not_elem_of_nil in He.
  - constructor.
  - intros a. rewrite lookup_empty. split; [by intros [? ?]|]. intros Ha. by apply not_elem_of_nil in Ha.
  - intros a s Hi. by apply not_elem_of_nil in Hi.
  - intros a Hi. by apply not_elem_of_nil in Hi.
  - intros id (l1 & l2 & Hl & _). by destruct l1.
  - intros id Hid. apply stale_retired, retired_inserted in Hid. by apply not_elem_of_nil in Hid.
  - intros l1 l2 id d Hl. by destruct l1.
Qed.

Lemma step_val e q q' : step e q = (Val (), q') → readable e q.
Proof.
  intros Hs a ->. cbn in Hs. unfold addTimer_return, act_bind, deref, get_state in Hs. unfold act_bind in Hs.
  destruct (heap q !! a); [by eexists|done].
Qed.

Lemma history_good es q q' : good true [] q → history es q = (Val (), q') → good true [] q'.
Proof.
  revert q. induction es as [|e es IH]; intros q Hg Hh; cbn in Hh; [by unfold act_ret in Hh; simplify_eq|].
  unfold act_bind in Hh. destruct (step e q) as [[[]| | |] q1] eqn:Hs; try done.
  eapply IH; [|exact Hh]. eapply (ensures_val _ _ (λ _, good true [])); [|exact Hs]. by eapply timer_step_ok, step_val.
Qed.

Lemma elem_of_adds a l : a ∈ adds l ↔ FAddTimer a ∈ l.
Proof.
  unfold adds. rewrite list_elem_of_omap. split; [intros ([b|id] & Hin & Heq); by simplify_eq|].
  intros Hin. by exists (FAddTimer a).
Qed.

Lemma destroy_ok q :
  good true [] q →
  ensures destroy q (λ _ q', ∀ a, is_Some (heap q' !! a) ↔ FAddTimer a ∈ pendingFunctors_ q).
Proof.
  intros [H _ _]. unfold destroy. apply ensures_bind, ensures_get.
  set (P := adds (pendingFunctors_ q)).
  eapply ensures_weaken.
  - apply (ensures_mapM _ (λ l q', NoDup (l.*2 ++ P) ∧ ∀ a, is_Some (heap q' !! a) ↔ a ∈ l.*2 ++ P)).
    + pose proof (i_nodup _ _ _ H) as Hd. unfold owned in Hd. rewrite app_nil_r in Hd. split; [done|].
      intros a. rewrite (i_owned _ _ _ H). unfold owned. by rewrite app_nil_r.
    + intros e k q1 [Hd Ho]. cbn in Hd. apply NoDup_cons in Hd as [Hn Hd].
      destruct (proj2 (Ho e.2)) as [t Ht]; [left|].
      exists (), (set_heap (delete e.2 (heap q1)) q1). split.
      { unfold delete_timer. by erewrite act_bind_val by (by apply deref_ok). }
      split; [done|]. intros a. cbn. destruct (decide (a = e.2)) as [->|Hne].
      * rewrite lookup_delete_eq. split; [by intros [? ?]|done].
      * rewrite lookup_delete_ne, Ho by done. cbn. rewrite elem_of_cons. naive_solver.
  - cbn. intros _ q1 [_ Ho] a. by rewrite Ho, <-elem_of_adds.
Qed.

(** C8: After any history of calls from any thread, clock and timerfd events and
    callbacks: the next step returns (no assertion fails and no deleted timer is
    used), unless it is an addTimer of another thread that reads the timer it
    has created after the loop has deleted it.  The timerfd is set for the first
    timer, at most 100 microseconds from now.  handleRead runs exactly the timers
    that are due, in the order of their times.  A timer that was cancelled after
    its insertion does not run from the next handleRead on.  No timer leaks, and
    the destructor deletes what is not in a functor. *)
Theorem timer_queue_runs_due_timers now es q :
  0 < now → history es (init now) = (Val (), q) →
  (∀ e, readable e q → ∃ q', step e q = (Val (), q')) ∧
  sorted (timers_ q) ∧
  match timers_ q with
  | [] => True
  | (w, _) :: _ => ∃ t, alarm q = Some t ∧ t <= Z.max w (clock q + 100)
  end ∧
  (∀ scripts, ensures (handleRead scripts) q (λ _ q',
     firings (log q') = reverse (firing (heap q) <$> due (clock q) q) ++ firings (log q))) ∧
  (∀ id w now' l1 l2 l3 l4, log q = l1 ++ Fired id w :: l2 ++ Alarm now' :: l3 ++ Cancelled id :: l4 → Inserted id ∉ l4) ∧
  (∀ a, is_Some (heap q !! a) ↔ a ∈ (timers_ q).*2 ∨ FAddTimer a ∈ pendingFunctors_ q) ∧
  ensures destroy q (λ _ q', ∀ a, is_Some (heap q' !! a) ↔ FAddTimer a ∈ pendingFunctors_ q).
Proof.
  intros Hnow Hh. pose proof (history_good _ _ _ (good_init now Hnow) Hh) as Hg.
  pose proof Hg as [H Harm _]. split_and!.
  - intros e He. destruct (timer_step_ok e q Hg He) as ([] & q' & Hs & _). by exists q'.
  - apply H.
  - unfold armed in Harm. destruct (timers_ q) as [|[w a] l]; [done|]. by destruct Harm as [[? ?]|?].
  - intros scripts. eapply ensures_weaken; [by apply handleRead_ok|by intros _ q' [_ ?]].
  - intros id w now' l1 l2 l3 l4 Hl Hi. apply (i_log _ _ _ H l1 _ id w Hl).
    exists l2, (l3 ++ Cancelled id :: l4), now'. split; [done|]. by exists l3, l4.
  - intros a. rewrite (i_owned _ _ _ H). unfold owned. rewrite app_nil_r, elem_of_app. by rewrite elem_of_adds.
  - by apply destroy_ok.
Qed.

(** A repeated timer that cancels itself in its second run, and one of another thread. *)
Definition sample : list event :=
  [Op (AddTimer true 8 1100 (Some 500)); Op (AddTimer false 16 1200 None); RunFunctor; Op (Elapse 300);
   HandleRead [[Elapse 5]; []]; Op (Elapse 700); HandleRead [[Cancel true (8, 1)]]; Op (Elapse 5000)].

Lemma timer_queue_runs_due_timers_witness :
  0 < 1000 ∧ history sample (init 1000) = (Val (), (history sample (init 1000)).2) ∧
  firings (log (history sample (init 1000)).2) = [((8, 1), 1800); ((16, 2), 1200); ((8, 1), 1100)] ∧
  ensures (handleRead []) (history sample (init 1000)).2 (λ _ q',
    firings (log q') = [((8, 1), 1800); ((16, 2), 1200); ((8, 1), 1100)]).
Proof.
  split; [done|]. split; [vm_compute; reflexivity|]. split; [vm_compute; reflexivity|].
  destruct (timer_queue_runs_due_timers 1000 sample (history sample (init 1000)).2 ltac:(done) ltac:(vm_compute; reflexivity))
    as (_ & _ & _ & Hr & _).
  exact (Hr []).
Defined.

(** ** What can go wrong *)

(** addTimer of another thread: the loop runs the functor and the timer before
    the sequence number is read. *)
Theorem addTimer_reads_deleted_timer :
  ∃ es q, history es (init 1000) = (Val (), q) ∧ step (AddTimerReturns 8) q = (Ub, q).
Proof.
  exists [Op (AddTimer false 8 900 None); RunFunctor; Op (Elapse 100); HandleRead []].
  eexists. split; vm_compute; reflexivity.
Qed.

(** The callback of one timer cancels another one that is due in the same
    handleRead: it runs all the same. *)
Theorem cancelled_timer_fires :
  (history [Op (AddTimer true 8 1100 None); Op (AddTimer true 16 1200 None); Op (Elapse 300);
            HandleRead [[Cancel true (16, 2)]; []]] (init 1000)).1 = Val () ∧
  log (history [Op (AddTimer true 8 1100 None); Op (AddTimer true 16 1200 None); Op (Elapse 300);
                HandleRead [[Cancel true (16, 2)]; []]] (init 1000)).2 =
  [Fired (16, 2) 1200; Cancelled (16, 2); Fired (8, 1) 1100; Alarm 1300; Inserted (16, 2); Inserted (8, 1)].
Proof. split; vm_compute; reflexivity. Qed.

(** The loop cancels a timer of another thread before its functor has run: the
    timer is inserted afterwards, and runs. *)
Theorem cancel_before_insertion_is_lost :
  log (history [Op (AddTimer false 8 1100 None); Op (Cancel true (8, 1)); RunFunctor; Op (Elapse 200);
                HandleRead []] (init 1000)).2 =
  [Fired (8, 1) 1100; Alarm 1200; Inserted (8, 1); Cancelled (8, 1)].
Proof. vm_compute. reflexivity. Qed.
