(* ===== verification/EventLoop.v ===== *)
(** * EventLoop.cc (muduo/net): the functors of other threads

    The loop thread polls, handles events and runs the functors that were queued
    for it.  It sleeps in poll(2) until a descriptor is ready; a thread that
    queues a functor writes to wakeupFd_ so that it wakes up.  [step] takes one
    action of the loop thread or of another thread: the queue (under its mutex),
    wakeupFd_ and quit_ are what they share.

    User code is a tree of calls: a functor or an event callback calls
    queueInLoop, runInLoop and quit.  poll(2) returns the ready channels that the
    event says, among them the channel of wakeupFd_ if it was written to; it
    returns without any after kPollTimeMs.  Ghost state: [queued] and [ran] are
    the functors in order, [early] says that the loop thread has queued a functor
    outside of loop(). *)
From S2P Require Import Prelude.

Module EventLoop.

#[warnings="-register-all"]
Inductive call :=
| QueueInLoop (id : Z) (body : list call)
| RunInLoop (body : list call)
| Quit.

Definition functor : Type := Z * list call.

Inductive handler := Wakeup | Callback (body : list call).

Definition is_wakeup (h : handler) : bool := match h with Wakeup => true | Callback _ => false end.

(** Where the loop thread is: outside of loop(), before the test of quit_, in
    poll(2), with channels or with functors to handle. *)
Inductive place :=
| Outside
| Test
| Polling
| Handling (activeChannels_ : list handler)
| DoPending (functors : list functor).

Record loop := Loop {
  at_ : place;
  quit_ : bool;
  pendingFunctors_ : list functor;
  wakeupFd_ : Z;
  waking : nat;          (** threads that have stored, and will call wakeup *)
  queued : list Z;
  ran : list Z;
  early : bool
}.

Definition init : loop := Loop Outside false [] 0 0 [] [] false.

Definition set_at (p : place) (l : loop) : loop :=
  Loop p (quit_ l) (pendingFunctors_ l) (wakeupFd_ l) (waking l) (queued l) (ran l) (early l).
Definition set_quit (b : bool) (l : loop) : loop :=
  Loop (at_ l) b (pendingFunctors_ l) (wakeupFd_ l) (waking l) (queued l) (ran l) (early l).
Definition set_early (b : bool) (l : loop) : loop :=
  Loop (at_ l) (quit_ l) (pendingFunctors_ l) (wakeupFd_ l) (waking l) (queued l) (ran l) b.
Definition set_waking (n : nat) (l : loop) : loop :=
  Loop (at_ l) (quit_ l) (pendingFunctors_ l) (wakeupFd_ l) n (queued l) (ran l) (early l).

Definition looping_ (l : loop) : bool := match at_ l with Outside => false | _ => true end.
Definition eventHandling_ (l : loop) : bool := match at_ l with Handling _ => true | _ => false end.
Definition callingPendingFunctors_ (l : loop) : bool := match at_ l with DoPending _ => true | _ => false end.

(** ** The functions *)

(** The eventfd counts what is written, and handleRead reads it all. *)
Definition wakeup (l : loop) : loop :=
  Loop (at_ l) (quit_ l) (pendingFunctors_ l) (wakeupFd_ l + 1) (waking l) (queued l) (ran l) (early l).

Definition handleRead (l : loop) : loop :=
  Loop (at_ l) (quit_ l) (pendingFunctors_ l) 0 (waking l) (queued l) (ran l) (early l).

Definition push_back (f : functor) (l : loop) : loop :=
  Loop (at_ l) (quit_ l) (pendingFunctors_ l ++ [f]) (wakeupFd_ l) (waking l) (queued l ++ [f.1]) (ran l) (early l).

(** In the loop thread.  Another thread pushes, and calls wakeup in a later step. *)
Definition queueInLoop (f : functor) (l : loop) : loop :=
  let l := push_back f l in
  if callingPendingFunctors_ l then wakeup l else l.

Definition quit (l : loop) : loop := set_quit true l.

(** A call of user code in the loop thread; runInLoop runs its functor. *)
Fixpoint exec (l : loop) (c : call) : loop :=
  match c with
  | QueueInLoop id body => queueInLoop (id, body) l
  | RunInLoop body => foldl exec l body
  | Quit => quit l
  end.

Definition handleEvent (h : handler) (l : loop) : loop :=
  match h with Wakeup => handleRead l | Callback body => foldl exec l body end.

(** The start of doPendingFunctors: the queue is swapped with an empty one. *)
Definition swapPending (l : loop) : loop :=
  Loop (DoPending (pendingFunctors_ l)) (quit_ l) [] (wakeupFd_ l) (waking l) (queued l) (ran l) false.

Definition callFunctor (f : functor) (fs : list functor) (l : loop) : loop :=
  foldl exec (Loop (DoPending fs) (quit_ l) (pendingFunctors_ l) (wakeupFd_ l) (waking l) (queued l) (ran l ++ [f.1]) (early l)) f.2.

(** One step of the loop thread inside loop(), other than the return of poll(2). *)
Definition loop_step (l : loop) : option loop :=
  match at_ l with
  | Outside | Polling => None
  | Test => Some (if quit_ l then set_at Outside l else set_at Polling l)
  | Handling (h :: hs) => Some (handleEvent h (set_at (Handling hs) l))
  | Handling [] => Some (swapPending l)
  | DoPending (f :: fs) => Some (callFunctor f fs l)
  | DoPending [] => Some (set_at Test l)
  end.

Inductive event :=
| LoopThreadCalls (c : call)      (** outside of loop() *)
| EnterLoop
| LoopStep
| PollReturns (activeChannels_ : list handler)
| ThreadQueues (f : functor)      (** another thread: queueInLoop or runInLoop *)
| ThreadQuits
| ThreadWakes.

Definition step (e : event) (l : loop) : option loop :=
  match e with
  | LoopThreadCalls c => if looping_ l then None else Some (exec (set_early true l) c)
  | EnterLoop => if looping_ l then None else Some (set_at Test (set_quit false l))
  | LoopStep => loop_step l
  | PollReturns hs =>
      match at_ l with
      | Polling =>
          if Bool.eqb (existsb is_wakeup hs) (0 <? wakeupFd_ l) then Some (set_at (Handling hs) l) else None
      | _ => None
      end
  | ThreadQueues f => Some (set_waking (S (waking l)) (push_back f l))
  | ThreadQuits => Some (set_waking (S (waking l)) (quit l))
  | ThreadWakes => match waking l with O => None | S n => Some (wakeup (set_waking n l)) end
  end.

Fixpoint history (es : list event) (l : loop) : option loop :=
  match es with [] => Some l | e :: es => step e l ≫= history es end.

(** The loop alone: poll(2) only returns because of wakeupFd_. *)
Definition drive (l : loop) : option loop :=
  match at_ l with
  | Polling => if 0 <? wakeupFd_ l then step (PollReturns [Wakeup]) l else None
  | _ => loop_step l
  end.

Fixpoint drives (n : nat) (l : loop) : option loop :=
  match n with O => Some l | S n => drive l ≫= drives n end.

End EventLoop.

(** ** The work that is left *)
Module Work.
Import EventLoop.

(** The functors that a call can lead to. *)
Fixpoint csize (c : call) : nat :=
  match c with
  | QueueInLoop _ body => S (sum_list (csize <$> body))
  | RunInLoop body => sum_list (csize <$> body)
  | Quit => 0
  end.
Definition bsize (body : list call) : nat := sum_list (csize <$> body).
Definition fsize (fs : list functor) : nat := sum_list ((λ f : functor, S (bsize f.2)) <$> fs).

Section CallInd.
Variable P : call → Prop.
Hypothesis HQueue : ∀ id body, Forall P body → P (QueueInLoop id body).
Hypothesis HRun : ∀ body, Forall P body → P (RunInLoop body).
Hypothesis HQuit : P Quit.

Fixpoint call_ind' (c : call) : P c :=
  let fix all (l : list call) : Forall P l :=
    match l with [] => Forall_nil_2 P | c :: l => Forall_cons_2 P c l (call_ind' c) (all l) end in
  match c with
  | QueueInLoop id body => HQueue id body (all body)
  | RunInLoop body => HRun body (all body)
  | Quit => HQuit
  end.
End CallInd.

(** What user code does to the loop: it queues [new], which is part of the work
    that it had. *)
Record does (k : nat) (l l' : loop) : Prop := Does {
  d_at : at_ l' = at_ l;
  d_waking : waking l' = waking l;
  d_ran : ran l' = ran l;
  d_early : early l' = early l;
  d_quit : quit_ l = true → quit_ l' = true;
  d_fd : wakeupFd_ l <= wakeupFd_ l';
  d_pending : ∃ new, pendingFunctors_ l' = pendingFunctors_ l ++ new ∧ queued l' = queued l ++ new.*1 ∧
    (fsize new <= k)%nat ∧ (callingPendingFunctors_ l = true → new ≠ [] → wakeupFd_ l < wakeupFd_ l') ∧
    (new = [] → wakeupFd_ l' = wakeupFd_ l)
}.

Lemma fsize_app fs gs : fsize (fs ++ gs) = (fsize fs + fsize gs)%nat.
Proof. unfold fsize. induction fs as [|f fs IH]; cbn; [done|]. cbn in IH. lia. Qed.

Lemma does_refl l : does 0 l l.
Proof. constructor; [done..|lia|]. exists []. rewrite !app_nil_r. split_and!; done. Qed.

Lemma does_trans k1 k2 l1 l2 l3 : does k1 l1 l2 → does k2 l2 l3 → does (k1 + k2) l1 l3.
Proof.
  intros [A1 B1 C1 D1 E1 F1 (n1 & P1 & Q1 & S1 & W1 & Z1)] [A2 B2 C2 D2 E2 F2 (n2 & P2 & Q2 & S2 & W2 & Z2)].
  constructor; [congruence..|auto|lia|]. exists (n1 ++ n2).
  rewrite P2, P1, Q2, Q1, fmap_app, !app_assoc, fsize_app. split_and!; [done|done|lia| |].
  - intros Hc Hn. destruct n1 as [|f n1].
    + cbn in Hn. rewrite <-Z1 by done. apply W2; [|done]. unfold callingPendingFunctors_ in *. by rewrite A1.
    + specialize (W1 Hc ltac:(done)). lia.
  - intros [-> ->]%app_nil. by rewrite Z2, Z1.
Qed.

Lemma does_fold body :
  Forall (λ c, ∀ l, does (csize c) l (exec l c)) body → ∀ l, does (bsize body) l (foldl exec l body).
Proof.
  induction 1 as [|c body Hc _ IH]; intros l; [apply does_refl|]. cbn [foldl].
  change (bsize (c :: body)) with (csize c + bsize body)%nat. eapply does_trans; [apply Hc|apply IH].
Qed.

Lemma exec_does c l : does (csize c) l (exec l c).
Proof.
  revert l. induction c as [id body _|body IH|] using call_ind'; intros l.
  - cbn [exec]. unfold queueInLoop. change (callingPendingFunctors_ (push_back _ l)) with (callingPendingFunctors_ l).
    assert (Hs : (fsize [(id, body)] <= csize (QueueInLoop id body))%nat) by (cbn; unfold bsize; lia).
    destruct (callingPendingFunctors_ l) eqn:Hc; constructor; try done; cbn; try lia; exists [(id, body)].
    + split_and!; [done|done|done|intros; lia|done].
    + split_and!; [done|done|done| |done]. by rewrite Hc.
  - by apply does_fold.
  - constructor; [done..|cbn; lia|]. exists []. cbn. rewrite !app_nil_r. split_and!; done.
Qed.

Lemma body_does body l : does (bsize body) l (foldl exec l body).
Proof. apply does_fold, Forall_true. intros c. apply exec_does. Qed.

End Work.

(** ** The invariant *)
Module EventLoopFacts.
Import EventLoop Work.
#[local] Arguments Z.ltb : simpl never.
#[local] Arguments Nat.mul : simpl never.
#[local] Arguments fsize : simpl never.
#[local] Arguments bsize : simpl never.

Definition woken (l : loop) : Prop := 0 < wakeupFd_ l ∨ (0 < waking l)%nat.

Definition running (l : loop) : list functor := match at_ l with DoPending fs => fs | _ => [] end.

Record inv (l : loop) : Prop := Inv {
  v_order : queued l = ran l ++ (running l).*1 ++ (pendingFunctors_ l).*1;
  v_fd : 0 <= wakeupFd_ l;
  v_wake : match at_ l with
           | Polling => (pendingFunctors_ l ≠ [] → woken l ∨ early l = true) ∧ (quit_ l = true → woken l)
           | Handling _ => True
           | DoPending _ => pendingFunctors_ l ≠ [] → woken l
           | Test | Outside => pendingFunctors_ l ≠ [] → woken l ∨ early l = true
           end
}.

Lemma init_inv : inv init.
Proof. constructor; [done|done|]. by intros []. Qed.

(** User code of the loop thread. *)
Lemma does_inv k l l' :
  inv l → (at_ l = Outside → early l = true) → at_ l ≠ Test → at_ l ≠ Polling → does k l l' → inv l'.
Proof.
  intros [Ho Hf Hw] Hout Ht Hp [A B C D E F (new & P & Q & S & W & Z)].
  assert (Hwo : woken l → woken l') by (unfold woken; rewrite B; intros [?|?]; [left; lia|by right]).
  constructor; [|lia|].
  - unfold running. rewrite A, Q, Ho, C, P, fmap_app. unfold running. by rewrite <-!app_assoc.
  - rewrite A. destruct (at_ l) as [| | |hs|fs] eqn:Hat; try done.
    + intros _. right. rewrite D. by apply Hout.
    + intros Hne. destruct new as [|f new].
      * apply Hwo, Hw. by rewrite P, app_nil_r in Hne.
      * left. assert (wakeupFd_ l < wakeupFd_ l'); [|lia]. apply W; [|done].
        unfold callingPendingFunctors_. by rewrite Hat.
Qed.

Lemma loop_step_inv l l' : inv l → loop_step l = Some l' → inv l'.
Proof.
  intros Hi Hs. pose proof Hi as [Ho Hf Hw]. unfold loop_step, running in *.
  destruct (at_ l) as [| | |[|h hs]|[|f fs]] eqn:Hat; try done; simplify_eq.
  - destruct (quit_ l) eqn:Hq; constructor; cbn; rewrite ?Hat; try done. split; [done|]. by rewrite Hq.
  - constructor; cbn; try done. by rewrite app_nil_r.
  - assert (Hi1 : inv (set_at (Handling hs) l)) by (constructor; cbn; by rewrite ?Hat).
    destruct h as [|body]; cbn [handleEvent].
    + constructor; cbn; try done.
    + by eapply does_inv; [exact Hi1|done|done|done|apply body_does].
  - constructor; cbn; try done. intros Hne. by left; apply Hw.
  - unfold callFunctor. eapply does_inv; [| | | |apply body_does]; [|done..].
    constructor; cbn; try done. rewrite Ho. cbn. by rewrite <-app_assoc.
Qed.

Lemma step_inv e l l' : inv l → step e l = Some l' → inv l'.
Proof.
  intros Hi Hs. pose proof Hi as [Ho Hf Hw].
  destruct e as [c| | |hs|f| |]; cbn [step] in Hs.
  - unfold looping_ in Hs. destruct (at_ l) eqn:Hat; try done. simplify_eq.
    eapply does_inv; [| | | |apply exec_does]; [|done|cbn; by rewrite Hat..].
    constructor; cbn; unfold running in *; cbn; rewrite ?Hat in *; try done. by right.
  - unfold looping_ in Hs. destruct (at_ l) eqn:Hat; try done. simplify_eq.
    constructor; cbn; unfold running in *; rewrite ?Hat in *; done.
  - by eapply loop_step_inv.
  - destruct (at_ l) eqn:Hat; try done. destruct (Bool.eqb _ _); [|done]. simplify_eq.
    constructor; cbn; unfold running in *; rewrite ?Hat in *; done.
  - simplify_eq. constructor; cbn; unfold running in *; cbn.
    + by rewrite Ho, fmap_app, <-!app_assoc.
    + done.
    + assert (woken (set_waking (S (waking l)) (push_back f l))) by (right; cbn; lia). destruct (at_ l); naive_solver.
  - simplify_eq. assert (Hwo : woken (set_waking (S (waking l)) (quit l))) by (right; cbn; lia).
    constructor; cbn; unfold running in *; [done|done|]. destruct (at_ l); naive_solver.
  - destruct (waking l) as [|n] eqn:Hn; [done|]. simplify_eq.
    assert (Hwo : woken (wakeup (set_waking n l))) by (left; cbn; lia).
    constructor; cbn; unfold running in *; [done|lia|]. destruct (at_ l); naive_solver.
Qed.

Lemma history_inv es l l' : inv l → history es l = Some l' → inv l'.
Proof.
  revert l. induction es as [|e es IH]; intros l Hi Hh; cbn in Hh; [by simplify_eq|].
  apply bind_Some in Hh as (l1 & Hs & Hh). by eapply IH; [eapply step_inv|].
Qed.

(** ** The loop does not stop before its work is done *)

Definition hsize (h : handler) : nat := match h with Wakeup => 0 | Callback body => S (bsize body) end.

Definition work (l : loop) : nat :=
  (match at_ l with
   | Handling hs => sum_list (hsize <$> hs)
   | DoPending fs => fsize fs
   | _ => 0
   end + fsize (pendingFunctors_ l))%nat.

Definition rank (l : loop) : nat :=
  let w := 0 <? wakeupFd_ l in
  match at_ l with
  | Outside => 0
  | Polling => if w then 6 else 1
  | Test => if w then 7 else 2
  | DoPending _ => if w then 8 else 3
  | Handling hs => length hs + if w && negb (existsb is_wakeup hs) then 9 else 4
  end%nat.

Definition measure (l : loop) : nat := (10 * work l + rank l)%nat.

Lemma does_work k l l' : does k l l' → (fsize (pendingFunctors_ l') <= k + fsize (pendingFunctors_ l))%nat.
Proof. intros [_ _ _ _ _ _ (new & -> & _ & Hs & _)]. rewrite fsize_app. lia. Qed.

Lemma fsize_nil : fsize [] = 0%nat.
Proof. done. Qed.
Lemma fsize_cons f fs : fsize (f :: fs) = (S (bsize f.2) + fsize fs)%nat.
Proof. done. Qed.

Lemma drive_measure l l' : drive l = Some l' → (measure l' < measure l)%nat.
Proof.
  unfold drive, measure. intros Hd. destruct (at_ l) as [| | |[|h hs]|[|f fs]] eqn:Hat.
  - unfold loop_step in Hd. by rewrite Hat in Hd.
  - unfold loop_step in Hd. rewrite Hat in Hd. unfold work, rank. rewrite Hat.
    destruct (quit_ l); simplify_eq/=; destruct (0 <? wakeupFd_ l); lia.
  - destruct (0 <? wakeupFd_ l) eqn:Hw; [|done]. cbn [step] in Hd. rewrite Hat, Hw in Hd. cbn in Hd. simplify_eq.
    unfold work, rank. rewrite Hat. cbn. rewrite Hw. cbn. lia.
  - unfold loop_step in Hd. rewrite Hat in Hd. simplify_eq. unfold work, rank. rewrite Hat. cbn. rewrite ?fsize_nil.
    destruct (0 <? wakeupFd_ l); cbn; lia.
  - unfold loop_step in Hd. rewrite Hat in Hd. simplify_eq. unfold work, rank. rewrite Hat.
    destruct h as [|body]; cbn [handleEvent].
    + cbn. change (0 <? 0)%Z with false. destruct (0 <? wakeupFd_ l); cbn; lia.
    + pose proof (body_does body (set_at (Handling hs) l)) as Hb. pose proof (does_work _ _ _ Hb) as Hk.
      rewrite (d_at _ _ _ Hb). cbn in Hk |- *. repeat case_match; lia.
  - unfold loop_step in Hd. rewrite Hat in Hd. simplify_eq. unfold work, rank. rewrite Hat. cbn. rewrite ?fsize_nil.
    destruct (0 <? wakeupFd_ l); lia.
  - unfold loop_step in Hd. rewrite Hat in Hd. simplify_eq. unfold work, rank, callFunctor. rewrite Hat, fsize_cons.
    match goal with |- context [foldl exec ?m f.2] => pose proof (body_does f.2 m) as Hb end.
    pose proof (does_work _ _ _ Hb) as Hk. rewrite (d_at _ _ _ Hb). cbn in Hk |- *. repeat case_match; lia.
Qed.

(** What the loop keeps while it runs alone. *)
Record kept (l l' : loop) : Prop := Kept {
  k_waking : waking l' = waking l;
  k_early : early l = false → early l' = false;
  k_quit : quit_ l = true → quit_ l' = true;
  k_queued : queued l `prefix_of` queued l'
}.

#[export] Instance kept_trans : Transitive kept.
Proof. intros l1 l2 l3 [] []. constructor; [congruence|auto|auto|by etrans]. Qed.

Lemma does_kept k l l' : does k l l' → kept l l'.
Proof. intros [A B C D E F (new & P & Q & _)]. constructor; [done|by rewrite D|done|]. rewrite Q. by eexists. Qed.

Lemma drive_kept l l' : drive l = Some l' → kept l l' ∧ (at_ l' = Outside → quit_ l' = true).
Proof.
  unfold drive. intros Hd.
  assert (Hrefl : ∀ m, waking m = waking l → (early l = false → early m = false) → quit_ m = quit_ l → queued m = queued l → kept l m).
  { intros m ? ? Hq Hqu. constructor; [done|done|by rewrite Hq|by rewrite Hqu]. }
  destruct (at_ l) as [| | |[|h hs]|[|f fs]] eqn:Hat.
  - unfold loop_step in Hd. by rewrite Hat in Hd.
  - unfold loop_step in Hd. rewrite Hat in Hd. destruct (quit_ l) eqn:Hq; simplify_eq; (split; [by apply Hrefl|done]).
  - destruct (0 <? wakeupFd_ l) eqn:Hw; [|done]. cbn [step] in Hd. rewrite Hat, Hw in Hd. cbn in Hd. simplify_eq.
    split; [by apply Hrefl|done].
  - unfold loop_step in Hd. rewrite Hat in Hd. simplify_eq. split; [by apply Hrefl|done].
  - unfold loop_step in Hd. rewrite Hat in Hd. simplify_eq. destruct h as [|body]; cbn [handleEvent].
    + split; [by apply Hrefl|done].
    + pose proof (body_does body (set_at (Handling hs) l)) as Hb. split; [|by rewrite (d_at _ _ _ Hb)].
      by destruct (does_kept _ _ _ Hb).
  - unfold loop_step in Hd. rewrite Hat in Hd. simplify_eq. split; [by apply Hrefl|done].
  - unfold loop_step in Hd. rewrite Hat in Hd. simplify_eq. unfold callFunctor.
    match goal with |- context [foldl exec ?m f.2] => pose proof (body_does f.2 m) as Hb end.
    split; [|by rewrite (d_at _ _ _ Hb)]. by destruct (does_kept _ _ _ Hb).
Qed.

Lemma drive_inv l l' : inv l → drive l = Some l' → inv l'.
Proof.
  unfold drive. intros Hi Hd. destruct (at_ l) eqn:Hat; try by eapply loop_step_inv.
  destruct (0 <? wakeupFd_ l); [|done]. by eapply step_inv.
Qed.

Lemma drives_end l :
  inv l → (at_ l = Outside → quit_ l = true) →
  ∃ n l', drives n l = Some l' ∧ drive l' = None ∧ inv l' ∧ kept l l' ∧ (at_ l' = Outside → quit_ l' = true).
Proof.
  induction l as [l IH] using (induction_ltof1 _ measure). intros Hi Hq.
  destruct (drive l) as [l1|] eqn:Hd.
  - destruct (drive_kept _ _ Hd) as [Hk Hq1].
    destruct (IH l1 (drive_measure _ _ Hd) (drive_inv _ _ Hi Hd) Hq1) as (n & l' & Hn & Hend & Hi' & Hk' & Hq').
    exists (S n), l'. cbn. rewrite Hd. split_and!; [done|done|done|by etrans|done].
  - exists 0%nat, l. split_and!; [done|done|done|by constructor|done].
Qed.

(** C9: No wake-up is lost.  In every history of the loop thread and of other
    threads: functors run in the order in which they were queued, each once.
    While the loop is in poll(2), a call of quit() has written to wakeupFd_ or is
    about to, and so has a queued functor, unless the loop thread has queued one
    outside of loop() ([early]): that writes nothing and waits for another event
    ([queued_before_loop_waits]).  If loop() is running, no thread is still about
    to write and nothing was queued that way, the loop without any other event
    runs all queued functors, those that they queue too, or ends after quit(),
    which it does if quit() was called. *)
Theorem event_loop_runs_functors es l :
  history es init = Some l →
  queued l = ran l ++ (running l).*1 ++ (pendingFunctors_ l).*1 ∧
  (at_ l = Polling → (pendingFunctors_ l ≠ [] ∧ early l = false) ∨ quit_ l = true → woken l) ∧
  (looping_ l = true → waking l = 0%nat → early l = false →
   ∃ n l', drives n l = Some l' ∧ queued l `prefix_of` queued l' ∧
           ((at_ l' = Polling ∧ quit_ l = false ∧ ran l' = queued l') ∨ (at_ l' = Outside ∧ quit_ l' = true))).
Proof.
  intros Hh. pose proof (history_inv _ _ _ init_inv Hh) as Hi. pose proof Hi as [Ho Hf Hw].
  split; [done|]. split.
  - intros Hat [[Hp He]|Hq]; rewrite Hat in Hw; destruct Hw as [Hw Hwq]; [|by apply Hwq].
    destruct (Hw Hp) as [?|He']; [done|congruence].
  - intros Hloop Hwk He. unfold looping_ in Hloop.
    destruct (drives_end l Hi) as (n & l' & Hn & Hend & [Ho' Hf' Hw'] & [Kw Ke Kq Kp] & Hq').
    { intros Hat. by rewrite Hat in Hloop. }
    exists n, l'. split; [done|]. split; [done|]. specialize (Ke He).
    unfold drive, loop_step in Hend. destruct (at_ l') as [| | |[|? ?]|[|? ?]] eqn:Hat; try done; [by right; auto|].
    destruct (0 <? wakeupFd_ l') eqn:Hfd; [by cbn in Hend; rewrite Hat, Hfd in Hend|].
    left. split; [done|]. destruct Hw' as [Hw1 Hw2].
    assert (Hnw : ¬ woken l') by (unfold woken; rewrite Kw; lia).
    split; [destruct (quit_ l) eqn:Hq; [by destruct Hnw; apply Hw2, Kq|done]|].
    rewrite Ho'. unfold running. rewrite Hat. cbn.
    destruct (pendingFunctors_ l') as [|f fs]; [by rewrite app_nil_r|].
    destruct (Hw1 ltac:(done)) as [?|?]; [done|congruence].
Qed.

(** Another thread queues 1, which queues 2; the loop thread is in poll(2). *)
Definition sample : list event :=
  [EnterLoop; LoopStep; ThreadQueues (1, [QueueInLoop 2 []]); ThreadWakes].

Lemma event_loop_runs_functors_witness :
  ∃ l, history sample init = Some l ∧ at_ l = Polling ∧ woken l ∧
  ∃ n l', drives n l = Some l' ∧ queued l `prefix_of` queued l' ∧
          ((at_ l' = Polling ∧ quit_ l = false ∧ ran l' = queued l') ∨ (at_ l' = Outside ∧ quit_ l' = true)).
Proof.
  eexists. split; [vm_compute; reflexivity|].
  match goal with |- at_ ?l = _ ∧ _ =>
    destruct (event_loop_runs_functors sample l ltac:(vm_compute; reflexivity)) as (_ & Hw & Hd) end.
  split; [reflexivity|]. split; [apply Hw; [reflexivity|left; split; [discriminate|reflexivity]]|].
  apply Hd; reflexivity.
Defined.

(** What the loop thread queues before loop() waits for the first event, or for
    the end of kPollTimeMs. *)
Theorem queued_before_loop_waits :
  ∃ l, history [LoopThreadCalls (QueueInLoop 1 []); EnterLoop; LoopStep] init = Some l ∧
       at_ l = Polling ∧ (pendingFunctors_ l).*1 = [1] ∧ drive l = None.
Proof. eexists. split; [vm_compute; reflexivity|done]. Qed.

(** A quit() before loop() is forgotten, and what is queued by the last functors
    before the end is never run. *)
Theorem quit_before_loop_is_forgotten :
  ∃ l, history [ThreadQuits; ThreadWakes; EnterLoop; LoopStep; PollReturns [Wakeup]; LoopStep; LoopStep; LoopStep;
                LoopStep] init = Some l ∧ at_ l = Polling ∧ drive l = None.
Proof. eexists. split; [vm_compute; reflexivity|done]. Qed.

Theorem queued_at_the_end_is_not_run :
  ∃ l, history [EnterLoop; LoopStep; ThreadQueues (1, [Quit; QueueInLoop 2 []]); ThreadWakes; PollReturns [Wakeup];
                LoopStep; LoopStep; LoopStep; LoopStep; LoopStep] init = Some l ∧
       at_ l = Outside ∧ ran l = [1] ∧ (pendingFunctors_ l).*1 = [2].
Proof. eexists. split; [vm_compute; reflexivity|done]. Qed.

End EventLoopFacts.
