(* ===== verification/PollerContract.v ===== *)
(** * Poller.h (muduo/net): the contract of the pollers

    A poller watches the channels of one loop.  The channels are objects in the
    memory of the process; a poller keeps pointers to them and stores an index in
    them.  [PollerImpl] states the promise of an implementation to the loop, for
    every sequence of calls that the contract allows: a channel is updated while
    it has events to watch, removed when it has none, and not used afterwards;
    poll returns channels that are ready, and all of them unless there are more than
    [kInitEventListSize], which is how many it returns at least.

    The kernel is an argument of poll: [ready fd events] are the events that
    have happened, of those that are watched; [hint] is the kernel's choice
    where it has one. *)
From S2P Require Import Prelude Hoare.

Module PollerContract.

(** Channel.h: what the pollers use of a channel. *)
Record channel := Channel { fd : Z; events_ : Z; index_ : Z }.

Definition isNoneEvent (c : channel) : bool := events_ c =? 0.
Definition set_index (i : Z) (c : channel) : channel := Channel (fd c) (events_ c) i.
Definition set_events (ev : Z) (c : channel) : channel := Channel (fd c) ev (index_ c).

Definition kInitEventListSize : nat := 16.

Definition kernel : Type := Z → Z → N.
Definition activeChannels : Type := list (Z * Z).

(** ** The specification: channels by their address *)

Inductive status := New | Watched (events : Z) | Removed.
Abbreviation registry := (gmap Z (Z * status)).

#[export] Instance status_eq_dec : EqDecision status.
Proof. solve_decision. Defined.

Inductive op :=
| Create (p fd : Z)
| Destroy (p : Z)
| Update (p events : Z)
| Remove (p : Z)
| Poll (ready : kernel) (hint : activeChannels).

Definition watches (f : Z) (x : Z * status) : bool :=
  match x.2 with Watched _ => x.1 =? f | _ => false end.

Definition fd_free (f : Z) (σ : registry) : bool := forallb (λ x, negb (watches f x.2)) (map_to_list σ).

(** [None]: the contract does not allow the call. *)
Definition spec (o : op) (σ : registry) : option registry :=
  match o with
  | Create p f =>
      if (0 <=? f) && bool_decide (σ !! p = None) then Some (<[p := (f, New)]> σ) else None
  | Destroy p =>
      match σ !! p with Some (_, New) | Some (_, Removed) => Some (delete p σ) | _ => None end
  | Update p ev =>
      if negb ((0 <=? ev) && (ev <? 2 ^ 15)) then None else
      match σ !! p with
      | Some (f, New) => if negb (ev =? 0) && fd_free f σ then Some (<[p := (f, Watched ev)]> σ) else None
      | Some (f, Watched old) => if (old =? 0) && (ev =? 0) then None else Some (<[p := (f, Watched ev)]> σ)
      | _ => None
      end
  | Remove p =>
      match σ !! p with
      | Some (f, Watched ev) => if ev =? 0 then Some (<[p := (f, Removed)]> σ) else None
      | _ => None
      end
  | Poll _ _ => Some σ
  end.

(** The channels that are ready, with what has happened. *)
Definition active1 (ready : kernel) (x : Z * (Z * status)) : option (Z * Z) :=
  match x.2.2 with
  | Watched ev =>
      if negb (ev =? 0) && (0 <? ready x.2.1 ev)%N then Some (x.1, Z.of_N (ready x.2.1 ev)) else None
  | _ => None
  end.

Definition active (ready : kernel) (σ : registry) : activeChannels := omap (active1 ready) (map_to_list σ).

Definition answer_ok (o : op) (σ : registry) (l : activeChannels) : Prop :=
  match o with
  | Poll ready _ => l ⊆+ active ready σ ∧ (l ≡ₚ active ready σ ∨ (kInitEventListSize <= length l)%nat)
  | _ => l = []
  end.

(** ** Implementations *)

Class Memory (S : Type) := {
  memory : S → gmap Z channel;
  set_memory : gmap Z channel → S → S
}.

Definition deref `{Memory T} (p : Z) : act T Empty_set channel :=
  s <- get_state ;;
  match memory s !! p with Some c => act_ret c | None => undefined end.

Definition store `{Memory T} (p : Z) (c : channel) : act T Empty_set () :=
  modify (λ s, set_memory (<[p := c]> (memory s)) s).

Class Poller (S : Type) `{Memory S} := {
  updateChannel : Z → act S Empty_set ();
  removeChannel : Z → act S Empty_set ();
  poll : kernel → activeChannels → act S Empty_set activeChannels;
  empty : S
}.

Section calls.
Context {T : Type} `{Poller T}.

(** Channel::Channel, Channel::~Channel *)
Definition create (p f : Z) : act T Empty_set () := store p (Channel f 0 (-1)).
Definition destroy (p : Z) : act T Empty_set () :=
  deref p ;;; modify (λ s, set_memory (delete p (memory s)) s).

(** enableReading, disableAll, ...: the new events, and Channel::update *)
Definition update (p ev : Z) : act T Empty_set () :=
  c <- deref p ;; store p (set_events ev c) ;;; updateChannel p.

(** Channel::remove *)
Definition remove (p : Z) : act T Empty_set () :=
  c <- deref p ;; cpp_assert (isNoneEvent c) ;;; removeChannel p.

Definition exec (o : op) : act T Empty_set activeChannels :=
  match o with
  | Create p f => create p f ;;; act_ret []
  | Destroy p => destroy p ;;; act_ret []
  | Update p ev => update p ev ;;; act_ret []
  | Remove p => remove p ;;; act_ret []
  | Poll ready hint => poll ready hint
  end.

End calls.

(** The promise: a relation between the registry and the state of the poller
    that holds at the start and that every allowed call keeps. *)
Class PollerImpl (T : Type) `{Poller T} := {
  repr : registry → T → Prop;
  repr_empty : repr ∅ empty;
  exec_ok o σ σ' s :
    repr σ s → spec o σ = Some σ' → ensures (exec o) s (λ l s', repr σ' s' ∧ answer_ok o σ l)
}.

(** ** What a client may rely on *)

(** The answers of a history, against the registries that the calls lead to. *)
Inductive answers_ok : registry → list op → list activeChannels → Prop :=
| answers_nil σ : answers_ok σ [] []
| answers_cons o os σ σ' l ls :
    spec o σ = Some σ' → answer_ok o σ l → answers_ok σ' os ls → answers_ok σ (o :: os) (l :: ls).

Fixpoint allowed (os : list op) (σ : registry) : option registry :=
  match os with [] => Some σ | o :: os => spec o σ ≫= allowed os end.

Fixpoint exec_all {T : Type} `{Poller T} (os : list op) : act T Empty_set (list activeChannels) :=
  match os with
  | [] => act_ret []
  | o :: os => l <- exec o ;; ls <- exec_all os ;; act_ret (l :: ls)
  end.

Lemma exec_all_ok {T : Type} `{PollerImpl T} os σ σ' s :
  repr σ s → allowed os σ = Some σ' → ensures (exec_all os) s (λ ls s', answers_ok σ os ls ∧ repr σ' s').
Proof.
  revert σ s. induction os as [|o os IH]; intros σ s Hr Ha; cbn in *.
  - simplify_eq. apply ensures_ret. split; [constructor|done].
  - apply bind_Some in Ha as (σ1 & Ho & Ha). apply ensures_bind.
    eapply ensures_weaken; [by eapply exec_ok|]. cbv beta. intros l s1 [Hr1 Hl].
    apply ensures_bind. eapply ensures_weaken; [by apply IH|]. cbv beta. intros ls s2 [Hls Hr2].
    apply ensures_ret. split; [by econstructor|done].
Qed.

(** Two implementations answer alike. *)
Lemma answers_agree σ os ls ls' :
  answers_ok σ os ls → answers_ok σ os ls' →
  Forall2 (λ l l', l ≡ₚ l' ∨ (kInitEventListSize <= length l)%nat ∧ (kInitEventListSize <= length l')%nat) ls ls'.
Proof.
  intros H. revert ls'. induction H as [σ|o os σ σ1 l ls Ho Hl Hls IH]; intros ls' H'; inversion H' as [|? ? ? σ1' l' ls1 Ho' Hl' Hls']; subst; [constructor|].
  assert (σ1' = σ1) as -> by congruence. constructor; [|by apply IH].
  destruct o as [| | | |ready hint]; cbn in Hl, Hl'; try (left; by subst).
  destruct Hl as [Hs Hl], Hl' as [Hs' Hl']. apply submseteq_length in Hs, Hs'.
  destruct Hl as [Hl|Hl], Hl' as [Hl'|Hl'].
  - left. by rewrite Hl, Hl'.
  - right. apply Permutation_length in Hl. lia.
  - right. apply Permutation_length in Hl'. lia.
  - by right.
Qed.

(** Facts about the registry that the implementations share. *)

Lemma deref_run `{Memory T} p c (s : T) : memory s !! p = Some c → deref p s = (Val c, s).
Proof. intros Hp. unfold deref, act_bind, get_state. by rewrite Hp. Qed.

Lemma elem_of_active_channels ready σ p r :
  (p, r) ∈ active ready σ ↔
  ∃ f ev, σ !! p = Some (f, Watched ev) ∧ ev ≠ 0 ∧ (0 < ready f ev)%N ∧ r = Z.of_N (ready f ev).
Proof.
  unfold active. rewrite list_elem_of_omap. split.
  - intros ([q [f st]] & Hin%elem_of_map_to_list & Ha). unfold active1 in Ha. cbn [fst snd] in Ha.
    destruct st as [|ev|]; try done. destruct (negb (ev =? 0) && _) eqn:Hc; [|done]. simplify_eq.
    apply andb_true_iff in Hc as [Hne Hr%N.ltb_lt]. exists f, ev. split; [done|]. split; [lia|done].
  - intros (f & ev & Hp & Hne & Hr & ->). exists (p, (f, Watched ev)). split; [by apply elem_of_map_to_list|].
    unfold active1. cbn [fst snd]. replace (ev =? 0) with false by lia. by apply N.ltb_lt in Hr as ->.
Qed.

Lemma NoDup_active1 ready l : NoDup l.*1 → NoDup (omap (active1 ready) l).*1.
Proof.
  intros Hd. induction l as [|[p x] l IH]; [constructor|].
  cbn in *. apply NoDup_cons in Hd as [Hn Hd]. destruct (active1 ready (p, x)) as [[q r]|] eqn:Ha; [|by apply IH].
  assert (q = p) as -> by (unfold active1 in Ha; cbn in Ha; repeat case_match; by simplify_eq).
  cbn. constructor; [|by apply IH]. intros Hin. apply Hn. apply list_elem_of_fmap in Hin as ([q' r'] & -> & Hin).
  apply list_elem_of_omap in Hin as ([q x'] & Hin & Ha'). apply list_elem_of_fmap. exists (q, x'). split; [|done].
  unfold active1 in Ha'. cbn in Ha'. repeat case_match; by simplify_eq.
Qed.

Lemma NoDup_active ready σ : NoDup (active ready σ).*1.
Proof. apply NoDup_active1, NoDup_fst_map_to_list. Qed.

Lemma NoDup_omap_inj {A B} (f : A → option B) (l : list A) :
  NoDup l → (∀ x y z, x ∈ l → y ∈ l → f x = Some z → f y = Some z → x = y) → NoDup (omap f l).
Proof.
  intros Hd. induction Hd as [|x l Hx Hd IH]; intros Hf; [constructor|]. cbn [omap list_omap].
  assert (IH' : NoDup (omap f l)) by (apply IH; intros y z w Hy Hz; apply Hf; by right).
  destruct (f x) as [z|] eqn:Hz; [|done]. constructor; [|done]. intros (y & Hy & Hyz)%list_elem_of_omap.
  apply Hx. rewrite (Hf x y z); [done|left|by right|done|done].
Qed.

Lemma fd_free_spec f σ : fd_free f σ = true ↔ ∀ p x, σ !! p = Some x → watches f x = false.
Proof.
  unfold fd_free. rewrite forallb_forall. split.
  - intros Hf p x Hp. apply negb_true_iff, (Hf (p, x)), list_elem_of_In, elem_of_map_to_list, Hp.
  - intros Hf [p x] Hin. apply list_elem_of_In, elem_of_map_to_list in Hin. apply negb_true_iff. by eapply Hf.
Qed.

End PollerContract.
