(* ===== verification/PollPoller.v ===== *)
(** * poller/PollPoller.cc (muduo/net): the poller over poll(2)

    pollfds_ is the array that poll(2) is called with; a channel stores its
    position in it.  An entry without events is hidden from the kernel by a
    negative descriptor; removeChannel moves the last entry into the hole. *)
From S2P Require Import Prelude Hoare PollerContract.
Import PollerContract.

Module PollPoller.

Record poller := PollPoller { mem : gmap Z channel; channels_ : gmap Z Z; pollfds_ : list (Z * Z) }.

#[export] Instance poller_memory : Memory poller := {
  memory := mem;
  set_memory m s := PollPoller m (channels_ s) (pollfds_ s)
}.

Definition set_channels (c : gmap Z Z) : act poller Empty_set () := modify (λ s, PollPoller (mem s) c (pollfds_ s)).
Definition set_pollfds (l : list (Z * Z)) : act poller Empty_set () := modify (λ s, PollPoller (mem s) (channels_ s) l).

Definition size (s : poller) : Z := Z.of_nat (length (pollfds_ s)).

Definition updateChannel (p : Z) : act poller Empty_set () :=
  channel <- deref p ;;
  s <- get_state ;;
  if index_ channel <? 0 then
    cpp_assert (bool_decide (channels_ s !! fd channel = None)) ;;;
    set_pollfds (pollfds_ s ++ [(fd channel, events_ channel)]) ;;;
    store p (set_index (size s) channel) ;;;
    set_channels (<[fd channel := p]> (channels_ s))
  else
    cpp_assert (bool_decide (channels_ s !! fd channel = Some p)) ;;;
    let idx := index_ channel in
    cpp_assert ((0 <=? idx) && (idx <? size s)) ;;;
    let old := nth (Z.to_nat idx) (pollfds_ s) (0, 0) in
    cpp_assert ((old.1 =? fd channel) || (old.1 =? - fd channel - 1)) ;;;
    set_pollfds (<[Z.to_nat idx := (if isNoneEvent channel then - fd channel - 1 else fd channel, events_ channel)]>
                   (pollfds_ s)).

Definition removeChannel (p : Z) : act poller Empty_set () :=
  channel <- deref p ;;
  s <- get_state ;;
  cpp_assert (bool_decide (channels_ s !! fd channel = Some p)) ;;;
  cpp_assert (isNoneEvent channel) ;;;
  let idx := index_ channel in
  cpp_assert ((0 <=? idx) && (idx <? size s)) ;;;
  let pfd := nth (Z.to_nat idx) (pollfds_ s) (0, 0) in
  cpp_assert ((pfd.1 =? - fd channel - 1) && (pfd.2 =? events_ channel)) ;;;
  set_channels (delete (fd channel) (channels_ s)) ;;;
  if idx =? size s - 1 then set_pollfds (removelast (pollfds_ s))
  else
    let back := nth (length (pollfds_ s) - 1) (pollfds_ s) (0, 0) in
    set_pollfds (removelast (<[Z.to_nat idx := back]> (pollfds_ s))) ;;;
    let channelAtEnd := if back.1 <? 0 then - back.1 - 1 else back.1 in
    s <- get_state ;;
    match channels_ s !! channelAtEnd with
    | None => undefined
    | Some q => c <- deref q ;; store q (set_index idx c)
    end.

(** What poll(2) stores in the revents of an entry. *)
Definition revents (ready : kernel) (pfd : Z * Z) : Z :=
  if pfd.1 <? 0 then 0 else Z.of_N (ready pfd.1 pfd.2).

Fixpoint fillActiveChannels (ready : kernel) (pollfds : list (Z * Z)) (numEvents : nat) : act poller Empty_set activeChannels :=
  match pollfds, numEvents with
  | [], _ | _, O => act_ret []
  | pfd :: pollfds, S n =>
      if 0 <? revents ready pfd then
        s <- get_state ;;
        cpp_assert (bool_decide (is_Some (channels_ s !! pfd.1))) ;;;
        match channels_ s !! pfd.1 with
        | None => undefined
        | Some ch =>
            c <- deref ch ;;
            cpp_assert (fd c =? pfd.1) ;;;
            l <- fillActiveChannels ready pollfds n ;;
            act_ret ((ch, revents ready pfd) :: l)
        end
      else fillActiveChannels ready pollfds (S n)
  end.

Definition poll (ready : kernel) : act poller Empty_set activeChannels :=
  s <- get_state ;;
  let numEvents := length (filter (λ pfd, revents ready pfd ≠ 0) (pollfds_ s)) in
  if (0 <? numEvents)%nat then fillActiveChannels ready (pollfds_ s) numEvents else act_ret [].

#[export] Instance poll_poller : Poller poller := {
  updateChannel := updateChannel;
  removeChannel := removeChannel;
  poll ready _ := poll ready;
  empty := PollPoller ∅ ∅ []
}.

(** ** The registry that a poller represents *)

Definition pollfd_of (f ev : Z) : Z * Z := (if ev =? 0 then - f - 1 else f, ev).

Record rep (σ : registry) (s : poller) : Prop := Rep {
  p_none p : σ !! p = None → mem s !! p = None;
  p_new p f : σ !! p = Some (f, New) → mem s !! p = Some (Channel f 0 (-1));
  p_watched p f ev : σ !! p = Some (f, Watched ev) →
    ∃ i : nat, mem s !! p = Some (Channel f ev (Z.of_nat i)) ∧ channels_ s !! f = Some p ∧ pollfds_ s !! i = Some (pollfd_of f ev);
  p_removed p f : σ !! p = Some (f, Removed) → ∃ i, mem s !! p = Some (Channel f 0 i);
  p_channels f p : channels_ s !! f = Some p → ∃ ev, σ !! p = Some (f, Watched ev);
  p_pollfds i x : pollfds_ s !! i = Some x →
    ∃ p f ev, σ !! p = Some (f, Watched ev) ∧ mem s !! p = Some (Channel f ev (Z.of_nat i));
  p_fd p f st : σ !! p = Some (f, st) → 0 <= f
}.

Lemma poll_rep_empty : rep ∅ empty.
Proof. constructor; cbn; intros *; rewrite ?lookup_empty; done. Qed.

(** An entry has one channel. *)
Lemma same_index σ s p q f g ev ev' (i : nat) :
  rep σ s → σ !! p = Some (f, Watched ev) → σ !! q = Some (g, Watched ev') →
  mem s !! p = Some (Channel f ev (Z.of_nat i)) → mem s !! q = Some (Channel g ev' (Z.of_nat i)) → p = q.
Proof.
  intros H Hp Hq Hmp Hmq.
  destruct (p_watched _ _ H _ _ _ Hp) as (a & Ha & Hca & Hpa). destruct (p_watched _ _ H _ _ _ Hq) as (b & Hb & Hcb & Hpb).
  rewrite Hmp in Ha. rewrite Hmq in Hb. injection Ha as ->%Nat2Z.inj. injection Hb as ->%Nat2Z.inj.
  rewrite Hpa in Hpb. unfold pollfd_of in Hpb. injection Hpb as Hfd <-.
  pose proof (p_fd _ _ H _ _ _ Hp). pose proof (p_fd _ _ H _ _ _ Hq).
  assert (f = g) as <- by (destruct (ev =? 0); lia). congruence.
Qed.

Lemma watched_channels σ s p f ev : rep σ s → σ !! p = Some (f, Watched ev) → channels_ s !! f = Some p.
Proof. intros H Hp. by destruct (p_watched _ _ H _ _ _ Hp) as (i & _ & ? & _). Qed.

(** Two watched channels have two descriptors. *)
Lemma poll_same_fd σ s p q f ev ev' :
  rep σ s → σ !! p = Some (f, Watched ev) → σ !! q = Some (f, Watched ev') → p = q.
Proof. intros H Hp%(watched_channels _ _ _ _ _ H) Hq%(watched_channels _ _ _ _ _ H). congruence. Qed.

Ltac at_key a b :=
  destruct (decide (a = b)) as [<-|?]; [rewrite ?lookup_insert_eq in *|rewrite ?lookup_insert_ne in * by done].

Lemma create_ok σ s p f :
  rep σ s → 0 <= f → σ !! p = None →
  rep (<[p := (f, New)]> σ) (PollPoller (<[p := Channel f 0 (-1)]> (mem s)) (channels_ s) (pollfds_ s)).
Proof.
  intros H Hf Hp. constructor; cbn.
  - intros q Hq. at_key p q; [done|]. by apply (p_none _ _ H).
  - intros q g Hq. at_key p q; [by simplify_eq|]. by apply (p_new _ _ H).
  - intros q g ev Hq. at_key p q; [done|]. by apply (p_watched _ _ H).
  - intros q g Hq. at_key p q; [done|]. by apply (p_removed _ _ H).
  - intros g q Hq. destruct (p_channels _ _ H _ _ Hq) as [ev Hw]. exists ev. by at_key p q; [congruence|].
  - intros i x Hi. destruct (p_pollfds _ _ H _ _ Hi) as (q & g & ev & Hq & Hm). exists q, g, ev.
    by at_key p q; [congruence|].
  - intros q g st Hq. at_key p q; [by simplify_eq|]. by eapply (p_fd _ _ H).
Qed.

Lemma poll_destroy_ok σ s p f st :
  rep σ s → σ !! p = Some (f, st) → (∀ ev, st ≠ Watched ev) →
  rep (delete p σ) (PollPoller (delete p (mem s)) (channels_ s) (pollfds_ s)).
Proof.
  intros H Hp Hst. constructor; cbn.
  - intros q Hq. destruct (decide (p = q)) as [<-|Hne]; [by rewrite lookup_delete_eq|].
    rewrite lookup_delete_ne in Hq by done. rewrite lookup_delete_ne by done. by apply (p_none _ _ H).
  - intros q g [Hne Hq]%lookup_delete_Some. rewrite lookup_delete_ne by done. by apply (p_new _ _ H).
  - intros q g ev [Hne Hq]%lookup_delete_Some. rewrite lookup_delete_ne by done. by apply (p_watched _ _ H).
  - intros q g [Hne Hq]%lookup_delete_Some. rewrite lookup_delete_ne by done. by apply (p_removed _ _ H).
  - intros g q Hq. destruct (p_channels _ _ H _ _ Hq) as [ev Hw]. exists ev. rewrite lookup_delete_ne; [done|].
    intros <-. rewrite Hp in Hw. injection Hw as -> Hw. by eapply Hst.
  - intros i x Hi. destruct (p_pollfds _ _ H _ _ Hi) as (q & g & ev & Hq & Hm). exists q, g, ev.
    rewrite !lookup_delete_ne; [done|..]; intros <-; rewrite Hp in Hq; injection Hq as -> Hw; by eapply Hst.
  - intros q g st' [Hne Hq]%lookup_delete_Some. by eapply (p_fd _ _ H).
Qed.

(** updateChannel of a channel that is not yet watched. *)
Lemma add_ok σ s p f ev :
  rep σ s → σ !! p = Some (f, New) → fd_free f σ = true → ev ≠ 0 →
  rep (<[p := (f, Watched ev)]> σ)
      (PollPoller (<[p := Channel f ev (size s)]> (mem s)) (<[f := p]> (channels_ s)) (pollfds_ s ++ [(f, ev)])) ∧
  channels_ s !! f = None.
Proof.
  intros H Hp Hfree Hev. rewrite fd_free_spec in Hfree.
  assert (Hnone : channels_ s !! f = None).
  { destruct (channels_ s !! f) as [q|] eqn:Hq; [|done]. destruct (p_channels _ _ H _ _ Hq) as [ev' Hw].
    specialize (Hfree _ _ Hw). unfold watches in Hfree. cbn in Hfree. lia. }
  split; [|done]. constructor; cbn.
  - intros q Hq. at_key p q; [done|]. by apply (p_none _ _ H).
  - intros q g Hq. at_key p q; [done|]. by apply (p_new _ _ H).
  - intros q g ev' Hq. at_key p q.
    + simplify_eq. exists (length (pollfds_ s)). rewrite lookup_insert_eq. split; [done|]. split; [done|].
      rewrite lookup_app_r, Nat.sub_diag by lia. unfold pollfd_of. by replace (ev' =? 0) with false by lia.
    + destruct (p_watched _ _ H _ _ _ Hq) as (i & Hm & Hc & Hi). exists i. split; [done|]. split.
      * rewrite lookup_insert_ne; [done|]. intros ->. congruence.
      * by apply lookup_app_l_Some.
  - intros q g Hq. at_key p q; [done|]. by apply (p_removed _ _ H).
  - intros g q Hq. at_key f g; [simplify_eq; exists ev; by rewrite lookup_insert_eq|].
    destruct (p_channels _ _ H _ _ Hq) as [ev' Hw]. exists ev'. by at_key p q; [congruence|].
  - intros i x [Hi|[Hlen Hx]]%lookup_app_Some.
    + destruct (p_pollfds _ _ H _ _ Hi) as (q & g & ev' & Hq & Hm). exists q, g, ev'. by at_key p q; [congruence|].
    + apply list_lookup_singleton_Some in Hx as [Hx _]. exists p, f, ev. rewrite !lookup_insert_eq.
      split; [done|]. unfold size. do 2 f_equal. lia.
  - intros q g st Hq. at_key p q; [|by eapply (p_fd _ _ H)]. simplify_eq. by eapply (p_fd _ _ H).
Qed.

(** updateChannel of a watched channel. *)
Lemma change_ok σ s p f ev old (i : nat) :
  rep σ s → σ !! p = Some (f, Watched old) → mem s !! p = Some (Channel f old (Z.of_nat i)) →
  rep (<[p := (f, Watched ev)]> σ)
      (PollPoller (<[p := Channel f ev (Z.of_nat i)]> (mem s)) (channels_ s) (<[i := pollfd_of f ev]> (pollfds_ s))).
Proof.
  intros H Hp Hm. destruct (p_watched _ _ H _ _ _ Hp) as (i' & Hm' & Hc & Hi).
  rewrite Hm in Hm'. injection Hm' as <-%Nat2Z.inj. constructor; cbn.
  - intros q Hq. at_key p q; [done|]. by apply (p_none _ _ H).
  - intros q g Hq. at_key p q; [done|]. by apply (p_new _ _ H).
  - intros q g ev' Hq. at_key p q.
    + simplify_eq. exists i. split; [done|]. split; [done|].
      apply list_lookup_insert_eq. by eapply lookup_lt_Some.
    + destruct (p_watched _ _ H _ _ _ Hq) as (j & Hmj & Hcj & Hj). exists j. split; [done|]. split; [done|].
      rewrite list_lookup_insert_ne; [done|]. intros ->. by assert (p = q) by (eapply same_index; done).
  - intros q g Hq. at_key p q; [done|]. by apply (p_removed _ _ H).
  - intros g q Hq. destruct (p_channels _ _ H _ _ Hq) as [ev' Hw]. at_key p q; [|by exists ev'].
    exists ev. rewrite Hp in Hw. by simplify_eq.
  - intros j x Hj. destruct (decide (i = j)) as [<-|Hne].
    + exists p, f, ev. by rewrite !lookup_insert_eq.
    + rewrite list_lookup_insert_ne in Hj by done. destruct (p_pollfds _ _ H _ _ Hj) as (q & g & ev' & Hq & Hmq).
      exists q, g, ev'. at_key p q; [|done]. exfalso. rewrite Hm in Hmq. injection Hmq as _ _ ?%Nat2Z.inj. done.
  - intros q g st Hq. at_key p q; [|by eapply (p_fd _ _ H)]. simplify_eq. by eapply (p_fd _ _ H).
Qed.

(** removeChannel, with the last entry in the hole. *)
Lemma lookup_removelast {A} (l : list A) j : (j < length l - 1)%nat → removelast l !! j = l !! j.
Proof. intros Hj. rewrite removelast_firstn_len, lookup_take_lt; [done|lia]. Qed.

Lemma length_removelast' {A} (l : list A) : length (removelast l) = (length l - 1)%nat.
Proof. rewrite removelast_firstn_len, length_take. lia. Qed.

(** What both cases of removeChannel share: everything but the indices. *)
Lemma remove_common σ s p f ev q g ev' :
  rep σ s → σ !! p = Some (f, Watched ev) → q ≠ p → σ !! q = Some (g, Watched ev') →
  delete f (channels_ s) !! g = Some q.
Proof.
  intros H Hp Hne Hq. rewrite lookup_delete_ne; [by eapply watched_channels|].
  intros ->. apply Hne. by eapply poll_same_fd.
Qed.

Lemma remove_last_ok σ s p f (i : nat) :
  rep σ s → σ !! p = Some (f, Watched 0) → mem s !! p = Some (Channel f 0 (Z.of_nat i)) →
  S i = length (pollfds_ s) →
  rep (<[p := (f, Removed)]> σ) (PollPoller (mem s) (delete f (channels_ s)) (removelast (pollfds_ s))).
Proof.
  intros H Hp Hm Hlen. constructor; cbn.
  - intros q Hq. at_key p q; [done|]. by apply (p_none _ _ H).
  - intros q g Hq. at_key p q; [done|]. by apply (p_new _ _ H).
  - intros q g ev Hq. at_key p q; [done|].
    destruct (p_watched _ _ H _ _ _ Hq) as (j & Hmj & Hcj & Hj). exists j. split; [done|].
    split; [by eapply remove_common|]. rewrite lookup_removelast; [done|]. apply lookup_lt_Some in Hj as Hlt.
    assert (j ≠ i); [|lia]. intros ->. by assert (p = q) by (eapply same_index; done).
  - intros q g Hq. at_key p q; [simplify_eq; by eexists|]. by apply (p_removed _ _ H).
  - intros g q [Hne Hq]%lookup_delete_Some. destruct (p_channels _ _ H _ _ Hq) as [ev Hw]. exists ev.
    at_key p q; [congruence|done].
  - intros j x Hj. apply lookup_lt_Some in Hj as Hlt. rewrite length_removelast' in Hlt.
    rewrite lookup_removelast in Hj by done. destruct (p_pollfds _ _ H _ _ Hj) as (q & g & ev & Hq & Hmq).
    exists q, g, ev. at_key p q; [|done]. exfalso. rewrite Hm in Hmq. injection Hmq as _ _ ?%Nat2Z.inj. lia.
  - intros q g st Hq. at_key p q; [|by eapply (p_fd _ _ H)]. simplify_eq. by eapply (p_fd _ _ H).
Qed.

Lemma remove_swap_ok σ s p f q g ev (i n : nat) :
  rep σ s → σ !! p = Some (f, Watched 0) → mem s !! p = Some (Channel f 0 (Z.of_nat i)) →
  σ !! q = Some (g, Watched ev) → mem s !! q = Some (Channel g ev (Z.of_nat n)) →
  (i < n)%nat → S n = length (pollfds_ s) →
  rep (<[p := (f, Removed)]> σ)
      (PollPoller (<[q := Channel g ev (Z.of_nat i)]> (mem s)) (delete f (channels_ s))
         (removelast (<[i := pollfd_of g ev]> (pollfds_ s)))).
Proof.
  intros H Hp Hm Hq Hmq Hin Hn. assert (Hpq : p ≠ q) by (intros ->; rewrite Hm in Hmq; injection Hmq as _ _ ?%Nat2Z.inj; lia).
  constructor; cbn.
  - intros r Hr. at_key p r; [done|]. rewrite lookup_insert_ne by congruence. by apply (p_none _ _ H).
  - intros r h Hr. at_key p r; [done|]. rewrite lookup_insert_ne by congruence. by apply (p_new _ _ H).
  - intros r h ev' Hr. destruct (decide (p = r)) as [<-|Hpr]; [by rewrite lookup_insert_eq in Hr|].
    rewrite lookup_insert_ne in Hr by done. destruct (decide (q = r)) as [<-|Hqr].
    + rewrite Hq in Hr. simplify_eq. exists i. rewrite lookup_insert_eq. split; [done|].
      split; [by eapply remove_common|]. rewrite lookup_removelast by (rewrite length_insert; lia).
      apply list_lookup_insert_eq. lia.
    + destruct (p_watched _ _ H _ _ _ Hr) as (j & Hmj & Hcj & Hj). exists j. rewrite lookup_insert_ne by done.
      split; [done|]. split; [by eapply remove_common|]. apply lookup_lt_Some in Hj as Hlt.
      assert (j ≠ i) by (intros ->; by assert (p = r) by (eapply same_index; done)).
      assert (j ≠ n) by (intros ->; by assert (q = r) by (eapply same_index; done)).
      rewrite lookup_removelast by (rewrite length_insert; lia). by rewrite list_lookup_insert_ne.
  - intros r h Hr. destruct (decide (p = r)) as [<-|Hpr].
    + rewrite lookup_insert_eq in Hr. simplify_eq. exists (Z.of_nat i). by rewrite lookup_insert_ne.
    + rewrite lookup_insert_ne in Hr by done. rewrite lookup_insert_ne by congruence. by apply (p_removed _ _ H).
  - intros h r [Hne Hr]%lookup_delete_Some. destruct (p_channels _ _ H _ _ Hr) as [ev' Hw]. exists ev'.
    rewrite lookup_insert_ne; [done|congruence].
  - intros j x Hj. apply lookup_lt_Some in Hj as Hlt. rewrite length_removelast', length_insert in Hlt.
    rewrite lookup_removelast in Hj by (rewrite length_insert; lia). destruct (decide (i = j)) as [<-|Hij].
    + exists q, g, ev. rewrite lookup_insert_ne, lookup_insert_eq by done. done.
    + rewrite list_lookup_insert_ne in Hj by done. destruct (p_pollfds _ _ H _ _ Hj) as (r & h & ev' & Hr & Hmr).
      exists r, h, ev'. assert (p ≠ r) by (intros <-; rewrite Hm in Hmr; injection Hmr as _ _ ?%Nat2Z.inj; done).
      assert (q ≠ r) by (intros <-; rewrite Hmq in Hmr; injection Hmr as _ _ ?%Nat2Z.inj; lia).
      by rewrite !lookup_insert_ne.
  - intros r h st Hr. destruct (decide (p = r)) as [<-|Hpr].
    + rewrite lookup_insert_eq in Hr. simplify_eq. by eapply (p_fd _ _ H).
    + rewrite lookup_insert_ne in Hr by done. by eapply (p_fd _ _ H).
Qed.

(** ** The calls *)

Lemma update_watched_run σ s p f ev old (i : nat) :
  rep σ s → σ !! p = Some (f, Watched old) → mem s !! p = Some (Channel f old (Z.of_nat i)) →
  PollerContract.update p ev s =
  (Val (), PollPoller (<[p := Channel f ev (Z.of_nat i)]> (mem s)) (channels_ s) (<[i := pollfd_of f ev]> (pollfds_ s))).
Proof.
  intros H Hp Hm. destruct (p_watched _ _ H _ _ _ Hp) as (i' & Hm' & Hc & Hi).
  rewrite Hm in Hm'. injection Hm' as <-%Nat2Z.inj. apply lookup_lt_Some in Hi as Hlt.
  unfold PollerContract.update. erewrite act_bind_val by (by apply deref_run). unfold store.
  erewrite act_bind_val by reflexivity. cbn [PollerContract.updateChannel poll_poller]. unfold PollPoller.updateChannel.
  set (s1 := set_memory _ s). erewrite act_bind_val by (apply deref_run; apply lookup_insert_eq).
  unfold act_bind, get_state, cpp_assert, set_pollfds, modify. cbn.
  replace (Z.of_nat i <? 0) with false by lia. rewrite bool_decide_eq_true_2 by done.
  rewrite Nat2Z.id, nth_lookup, Hi. cbn.
  replace (((if old =? 0 then - f - 1 else f) =? f) || ((if old =? 0 then - f - 1 else f) =? - f - 1)) with true
    by (destruct (old =? 0); lia).
  replace ((0 <=? Z.of_nat i) && _) with true by (unfold size; cbn; lia). done.
Qed.

Lemma update_new_run σ s p f ev :
  σ !! p = Some (f, New) → rep σ s → channels_ s !! f = None →
  PollerContract.update p ev s =
  (Val (), PollPoller (<[p := Channel f ev (size s)]> (mem s)) (<[f := p]> (channels_ s)) (pollfds_ s ++ [(f, ev)])).
Proof.
  intros Hp H Hc. pose proof (p_new _ _ H _ _ Hp) as Hm.
  unfold PollerContract.update. erewrite act_bind_val by (by apply deref_run). unfold store.
  erewrite act_bind_val by reflexivity. cbn [PollerContract.updateChannel poll_poller]. unfold PollPoller.updateChannel.
  erewrite act_bind_val by (apply deref_run; apply lookup_insert_eq).
  unfold act_bind, get_state, cpp_assert, set_pollfds, set_channels, store, modify. cbn.
  rewrite bool_decide_eq_true_2 by done. cbn. by rewrite insert_insert_eq.
Qed.

Lemma poll_remove_run σ s p f :
  rep σ s → σ !! p = Some (f, Watched 0) →
  ensures (PollerContract.remove p) s (λ _ s', rep (<[p := (f, Removed)]> σ) s').
Proof.
  intros H Hp. destruct (p_watched _ _ H _ _ _ Hp) as (i & Hm & Hc & Hi). apply lookup_lt_Some in Hi as Hlt.
  unfold PollerContract.remove. apply ensures_bind. eexists _, s. split; [by apply deref_run|].
  apply ensures_bind, ensures_assert; [done|]. cbn [PollerContract.removeChannel poll_poller]. unfold PollPoller.removeChannel.
  apply ensures_bind. eexists _, s. split; [by apply deref_run|]. apply ensures_bind, ensures_get. cbn [fd events_ index_].
  apply ensures_bind, ensures_assert; [by apply bool_decide_eq_true_2|]. apply ensures_bind, ensures_assert; [done|].
  apply ensures_bind, ensures_assert; [unfold size; lia|]. rewrite Nat2Z.id, nth_lookup, Hi. cbn [default pollfd_of fst snd].
  apply ensures_bind, ensures_assert; [cbn; lia|]. apply ensures_bind, ensures_modify.
  destruct (Z.of_nat i =? size s - 1) eqn:Hlast.
  - apply ensures_modify. cbn. apply (remove_last_ok _ _ _ _ i); try done. unfold size in Hlast. lia.
  - unfold size in Hlast. set (n := (length (pollfds_ s) - 1)%nat).
    destruct (lookup_lt_is_Some_2 (pollfds_ s) n) as [x Hx]; [lia|].
    destruct (p_pollfds _ _ H _ _ Hx) as (q & g & ev & Hq & Hmq).
    destruct (p_watched _ _ H _ _ _ Hq) as (n' & Hmq' & Hcq & Hxq). rewrite Hmq in Hmq'.
    injection Hmq' as <-%Nat2Z.inj. rewrite Hx in Hxq. injection Hxq as ->.
    rewrite nth_lookup, Hx. cbn [default]. unfold id. apply ensures_bind, ensures_modify. apply ensures_bind, ensures_get.
    pose proof (p_fd _ _ H _ _ _ Hq) as Hg.
    replace (if (pollfd_of g ev).1 <? 0 then - (pollfd_of g ev).1 - 1 else (pollfd_of g ev).1) with g
      by (unfold pollfd_of; cbn; destruct (ev =? 0); cbn; case_match; lia).
    cbn [channels_ mem pollfds_]. assert (Hpq : q ≠ p) by (intros ->; rewrite Hm in Hmq; injection Hmq as _ _ ?%Nat2Z.inj; lia).
    rewrite (remove_common _ _ _ _ _ _ _ _ H Hp Hpq Hq). apply ensures_bind.
    eexists _, _. split; [by apply deref_run|]. apply ensures_modify.
    apply (remove_swap_ok σ s p f q g ev i n); try done; lia.
Qed.

(** *** poll *)

(** The channel and the events that fillActiveChannels reports for an entry. *)
Definition reported (ready : kernel) (s : poller) (x : Z * Z) : option (Z * Z) :=
  if 0 <? revents ready x then (λ ch, (ch, revents ready x)) <$> channels_ s !! x.1 else None.

Lemma poll_fill_run ready s l :
  (∀ x, x ∈ l → 0 < revents ready x → ∃ ch c, channels_ s !! x.1 = Some ch ∧ mem s !! ch = Some c ∧ fd c = x.1) →
  ∀ n, n = length (filter (λ x, revents ready x ≠ 0) l) →
  fillActiveChannels ready l n s = (Val (omap (reported ready s) l), s).
Proof.
  assert (Hnn : ∀ x, 0 <= revents ready x) by (intros x; unfold revents; case_match; lia).
  induction l as [|x l IH]; intros Hl n Hn; [by destruct n|].
  assert (IH' := IH (λ y Hy, Hl y (list_elem_of_further _ _ _ Hy))). specialize (Hnn x). cbn [omap list_omap]. unfold reported at 1.
  destruct (decide (revents ready x = 0)) as [H0|H0].
  - rewrite filter_cons_False in Hn by tauto. replace (0 <? revents ready x) with false by lia.
    destruct n as [|n]; cbn [fillActiveChannels].
    + rewrite <-(IH' 0%nat Hn). by destruct l.
    + replace (0 <? revents ready x) with false by lia. by apply IH'.
  - rewrite filter_cons_True in Hn by done. destruct n as [|n]; [done|]. cbn [fillActiveChannels].
    replace (0 <? revents ready x) with true by lia.
    destruct (Hl x (list_elem_of_here _ _)) as (ch & c & Hch & Hc & Hfd); [lia|].
    erewrite act_bind_val by reflexivity. rewrite Hch. erewrite act_bind_val by (unfold cpp_assert; by rewrite bool_decide_eq_true_2 by (by eexists)).
    erewrite act_bind_val by (by apply deref_run).
    erewrite act_bind_val by (unfold cpp_assert; by rewrite Hfd, Z.eqb_refl).
    erewrite act_bind_val by (apply IH'; cbn in Hn; lia). done.
Qed.

(** The entries, seen from the registry. *)
Lemma entry_watched σ s x :
  rep σ s → x ∈ pollfds_ s → ∃ p f ev, x = pollfd_of f ev ∧ σ !! p = Some (f, Watched ev) ∧ channels_ s !! f = Some p ∧
    (∃ i, mem s !! p = Some (Channel f ev i)) ∧ 0 <= f.
Proof.
  intros H [i Hx]%list_elem_of_lookup. destruct (p_pollfds _ _ H _ _ Hx) as (p & f & ev & Hp & Hm).
  destruct (p_watched _ _ H _ _ _ Hp) as (j & Hm' & Hc & Hj). rewrite Hm in Hm'. injection Hm' as <-%Nat2Z.inj.
  rewrite Hx in Hj. injection Hj as ->. exists p, f, ev. split_and!; try done; [by eexists|by eapply (p_fd _ _ H)].
Qed.

Lemma revents_pollfd ready f ev :
  0 <= f → 0 < revents ready (pollfd_of f ev) → (pollfd_of f ev).1 = f ∧ ev ≠ 0 ∧ revents ready (pollfd_of f ev) = Z.of_N (ready f ev).
Proof.
  intros Hf. unfold revents, pollfd_of. cbn. destruct (ev =? 0) eqn:Hev.
  - replace (- f - 1 <? 0) with true by lia. lia.
  - replace (f <? 0) with false by lia. lia.
Qed.

Lemma pollfds_nodup σ s : rep σ s → NoDup (pollfds_ s).
Proof.
  intros H. apply NoDup_alt. intros i j x Hi Hj.
  destruct (p_pollfds _ _ H _ _ Hi) as (p & f & ev & Hp & Hm). destruct (p_pollfds _ _ H _ _ Hj) as (q & g & ev' & Hq & Hmq).
  destruct (p_watched _ _ H _ _ _ Hp) as (i' & Hm' & _ & Hi'). rewrite Hm in Hm'. injection Hm' as <-%Nat2Z.inj.
  destruct (p_watched _ _ H _ _ _ Hq) as (j' & Hm' & _ & Hj'). rewrite Hmq in Hm'. injection Hm' as <-%Nat2Z.inj.
  assert (pollfd_of f ev = pollfd_of g ev') as Heq by congruence.
  pose proof (p_fd _ _ H _ _ _ Hp). pose proof (p_fd _ _ H _ _ _ Hq). unfold pollfd_of in Heq. injection Heq as Hfd ->.
  assert (f = g) as -> by (destruct (ev' =? 0); lia).
  assert (p = q) as -> by (by eapply poll_same_fd). rewrite Hm in Hmq. by injection Hmq as ?%Nat2Z.inj.
Qed.

Lemma reported_active ready σ s x : rep σ s →
  x ∈ omap (reported ready s) (pollfds_ s) ↔ x ∈ active ready σ.
Proof.
  intros H. destruct x as [p r]. rewrite elem_of_active_channels, list_elem_of_omap. split.
  - intros (x & Hx & Hr). destruct (entry_watched _ _ _ H Hx) as (q & f & ev & -> & Hq & Hc & _ & Hf).
    unfold reported in Hr. destruct (0 <? _) eqn:Hpos; [|done].
    destruct (revents_pollfd ready f ev Hf) as (Hfd & Hev & Hrv); [lia|]. rewrite Hfd, Hc, Hrv in Hr. cbn in Hr. simplify_eq.
    exists f, ev. split_and!; [done|done|lia|done].
  - intros (f & ev & Hp & Hev & Hr & ->). destruct (p_watched _ _ H _ _ _ Hp) as (i & _ & Hc & Hi).
    pose proof (p_fd _ _ H _ _ _ Hp) as Hf. exists (pollfd_of f ev). split; [by eapply list_elem_of_lookup_2|].
    assert (Hrv : revents ready (pollfd_of f ev) = Z.of_N (ready f ev)).
    { unfold revents, pollfd_of. replace (ev =? 0) with false by lia. cbn. by replace (f <? 0) with false by lia. }
    unfold reported. rewrite Hrv. replace (0 <? Z.of_N (ready f ev)) with true by lia.
    unfold pollfd_of. replace (ev =? 0) with false by lia. cbn. by rewrite Hc.
Qed.

Lemma reported_nodup ready σ s : rep σ s → NoDup (omap (reported ready s) (pollfds_ s)).
Proof.
  intros H. apply NoDup_omap_inj; [by eapply pollfds_nodup|]. intros x y [p r] Hx Hy Hrx Hry.
  assert (Hback : ∀ x, x ∈ pollfds_ s → reported ready s x = Some (p, r) → ∃ f ev, x = pollfd_of f ev ∧ σ !! p = Some (f, Watched ev)).
  { intros z Hz Hr. destruct (entry_watched _ _ _ H Hz) as (q & f & ev & -> & Hq & Hc & _ & Hf).
    unfold reported in Hr. destruct (0 <? _) eqn:Hpos; [|done].
    destruct (revents_pollfd ready f ev Hf) as (Hfd & _ & _); [lia|]. rewrite Hfd, Hc in Hr. cbn in Hr. simplify_eq. by exists f, ev. }
  destruct (Hback x Hx Hrx) as (f & ev & -> & Hp). destruct (Hback y Hy Hry) as (g & ev' & -> & Hp'). by simplify_eq.
Qed.

Lemma poll_poll_ok ready σ s :
  rep σ s → ∃ l, poll ready s = (Val l, s) ∧ l ≡ₚ active ready σ.
Proof.
  intros H. exists (omap (reported ready s) (pollfds_ s)). split.
  - assert (Hfill := poll_fill_run ready s (pollfds_ s)). unfold poll. erewrite act_bind_val by reflexivity.
    assert (Hl : fillActiveChannels ready (pollfds_ s) (length (filter (λ x, revents ready x ≠ 0) (pollfds_ s))) s =
                 (Val (omap (reported ready s) (pollfds_ s)), s)).
    { apply Hfill; [|done]. intros x Hx Hr. destruct (entry_watched _ _ _ H Hx) as (q & f & ev & -> & Hq & Hc & [i Hm] & Hf).
      destruct (revents_pollfd ready f ev Hf Hr) as (-> & _ & _). by exists q, (Channel f ev i). }
    destruct (0 <? _)%nat eqn:Hn; [done|]. apply Nat.ltb_ge in Hn.
    rewrite (proj1 (Nat.le_0_r _) Hn) in Hl. etransitivity; [|exact Hl]. by destruct (pollfds_ s).
  - apply NoDup_Permutation; [by eapply reported_nodup|by apply (NoDup_fmap_1 fst), NoDup_active|].
    intros x. by apply reported_active.
Qed.

Lemma poll_poller_exec_ok o σ σ' s :
  rep σ s → spec o σ = Some σ' → ensures (exec o) s (λ l s', rep σ' s' ∧ answer_ok o σ l).
Proof.
  intros H Ho. destruct o as [p f|p|p ev|p|ready hint]; cbn [spec exec] in *.
  - destruct (0 <=? f) eqn:Hf; [|done]. destruct (bool_decide _) eqn:Hp; [|done].
    apply bool_decide_eq_true in Hp. cbn in Ho. simplify_eq. apply ensures_bind, ensures_modify, ensures_ret.
    split; [|done]. apply create_ok; [done|lia|done].
  - destruct (σ !! p) as [[f [|ev|]]|] eqn:Hp; try done; simplify_eq.
    all: apply ensures_bind; unfold destroy; apply ensures_bind.
    + eexists _, s. split; [by apply deref_run, (p_new _ _ H)|]. apply ensures_modify, ensures_ret. split; [|done].
      by eapply poll_destroy_ok.
    + destruct (p_removed _ _ H _ _ Hp) as [i Hm]. eexists _, s. split; [by apply deref_run|].
      apply ensures_modify, ensures_ret. split; [|done]. by eapply poll_destroy_ok.
  - destruct (negb ((0 <=? ev) && (ev <? 2 ^ 15))); [done|].
    destruct (σ !! p) as [[f [|old|]]|] eqn:Hp; try done.
    + destruct (negb (ev =? 0)) eqn:Hev; [|done]. destruct (fd_free f σ) eqn:Hfree; [|done]. cbn in Ho. simplify_eq.
      destruct (add_ok _ _ _ _ ev H Hp Hfree) as [Hadd Hc]; [lia|]. apply ensures_bind.
      eexists _, _. split; [by eapply update_new_run|]. by apply ensures_ret.
    + destruct ((old =? 0) && (ev =? 0)); [done|]. simplify_eq.
      destruct (p_watched _ _ H _ _ _ Hp) as (i & Hm & _ & _). apply ensures_bind.
      eexists _, _. split; [by eapply update_watched_run|]. apply ensures_ret. split; [|done]. by eapply change_ok.
  - destruct (σ !! p) as [[f [|ev|]]|] eqn:Hp; try done. destruct (ev =? 0) eqn:Hev; [|done]. simplify_eq.
    assert (ev = 0) as -> by lia. apply ensures_bind. eapply ensures_weaken; [by apply poll_remove_run|].
    cbv beta. intros _ s' Hs'. by apply ensures_ret.
  - simplify_eq. destruct (poll_poll_ok ready _ _ H) as (l & Hl & Hperm). exists l, s. split; [done|]. split; [done|].
    split; [by rewrite Hperm|by left].
Qed.

#[export] Instance poll_poller_impl : PollerImpl poller :=
  { repr := rep; repr_empty := poll_rep_empty; exec_ok := poll_poller_exec_ok }.

End PollPoller.
