(* ===== verification/EPollPoller.v ===== *)
(** * poller/EPollPoller.cc (muduo/net): the poller over epoll(4)

    The kernel keeps the list of watched descriptors ([interest]); the index of a
    channel says whether it is in it.  epoll_wait returns as many of the ready
    channels as the array [events_] has room for, in an order of its own ([hint]);
    the array doubles when it was full.  epoll_ctl fails where the kernel does:
    the code then ends the program, except when it deletes. *)
From S2P Require Import Prelude Hoare PollerContract.
Import PollerContract.

Module EPollPoller.

Definition kNew : Z := -1.
Definition kAdded : Z := 1.
Definition kDeleted : Z := 2.

Record poller := EPollPoller {
  mem : gmap Z channel;
  channels_ : gmap Z Z;
  interest : gmap Z (Z * Z);    (** events and channel, by descriptor *)
  room : nat                    (** the size of events_ *)
}.

#[export] Instance poller_memory : Memory poller := {
  memory := mem;
  set_memory m s := EPollPoller m (channels_ s) (interest s) (room s)
}.

Definition set_channels (c : gmap Z Z) : act poller Empty_set () :=
  modify (λ s, EPollPoller (mem s) c (interest s) (room s)).
Definition set_interest (e : gmap Z (Z * Z)) : act poller Empty_set () :=
  modify (λ s, EPollPoller (mem s) (channels_ s) e (room s)).

Inductive operation := EPOLL_CTL_ADD | EPOLL_CTL_DEL | EPOLL_CTL_MOD.

(** epoll_ctl of the channel at [p], which now is [c].  An error is fatal unless
    it deletes; deleting a descriptor that is not watched fails, which is only
    logged, and changes nothing. *)
Definition update (o : operation) (p : Z) (c : channel) : act poller Empty_set () :=
  s <- get_state ;;
  match o with
  | EPOLL_CTL_ADD =>
      cpp_assert (bool_decide (interest s !! fd c = None)) ;;;
      set_interest (<[fd c := (events_ c, p)]> (interest s))
  | EPOLL_CTL_MOD =>
      cpp_assert (bool_decide (is_Some (interest s !! fd c))) ;;;
      set_interest (<[fd c := (events_ c, p)]> (interest s))
  | EPOLL_CTL_DEL => set_interest (delete (fd c) (interest s))
  end.

Definition updateChannel (p : Z) : act poller Empty_set () :=
  channel <- deref p ;;
  s <- get_state ;;
  let index := index_ channel in
  if (index =? kNew) || (index =? kDeleted) then
    (if index =? kNew then
       cpp_assert (bool_decide (channels_ s !! fd channel = None)) ;;;
       set_channels (<[fd channel := p]> (channels_ s))
     else cpp_assert (bool_decide (channels_ s !! fd channel = Some p))) ;;;
    store p (set_index kAdded channel) ;;;
    update EPOLL_CTL_ADD p channel
  else
    cpp_assert (bool_decide (channels_ s !! fd channel = Some p)) ;;;
    cpp_assert (index =? kAdded) ;;;
    if isNoneEvent channel then
      update EPOLL_CTL_DEL p channel ;;;
      store p (set_index kDeleted channel)
    else update EPOLL_CTL_MOD p channel.

Definition removeChannel (p : Z) : act poller Empty_set () :=
  channel <- deref p ;;
  s <- get_state ;;
  cpp_assert (bool_decide (channels_ s !! fd channel = Some p)) ;;;
  cpp_assert (isNoneEvent channel) ;;;
  let index := index_ channel in
  cpp_assert ((index =? kAdded) || (index =? kDeleted)) ;;;
  set_channels (delete (fd channel) (channels_ s)) ;;;
  (when index =? kAdded do update EPOLL_CTL_DEL p channel) ;;;
  store p (set_index kNew channel).

(** What the kernel has to report. *)
Definition ready1 (ready : kernel) (x : Z * (Z * Z)) : option (Z * Z) :=
  if (0 <? ready x.1 x.2.1)%N then Some (x.2.2, Z.of_N (ready x.1 x.2.1)) else None.

Definition ready_list (ready : kernel) (s : poller) : activeChannels := omap (ready1 ready) (map_to_list (interest s)).

(** epoll_wait: the kernel's choice, if it is possible. *)
Definition epoll_wait (ready : kernel) (hint : activeChannels) (s : poller) : activeChannels :=
  let l := ready_list ready s in
  if bool_decide (hint ⊆+ l) && (length hint =? Nat.min (room s) (length l))%nat then hint else take (room s) l.

Definition fill1 (e : Z * Z) : act poller Empty_set () :=
  channel <- deref e.1 ;;
  s <- get_state ;;
  cpp_assert (bool_decide (channels_ s !! fd channel = Some e.1)).

Definition fillActiveChannels (evs : activeChannels) : act poller Empty_set activeChannels :=
  s <- get_state ;;
  cpp_assert (length evs <=? room s)%nat ;;;
  act_mapM_ fill1 evs ;;;
  act_ret evs.

Definition poll (ready : kernel) (hint : activeChannels) : act poller Empty_set activeChannels :=
  s <- get_state ;;
  let evs := epoll_wait ready hint s in
  if (0 <? length evs)%nat then
    l <- fillActiveChannels evs ;;
    (when (length evs =? room s)%nat do
       modify (λ s, EPollPoller (mem s) (channels_ s) (interest s) (room s * 2))) ;;;
    act_ret l
  else act_ret [].

#[export] Instance epoll_poller : Poller poller := {
  updateChannel := updateChannel;
  removeChannel := removeChannel;
  poll := poll;
  empty := EPollPoller ∅ ∅ ∅ kInitEventListSize
}.

(** ** The registry that a poller represents *)

Record rep (σ : registry) (s : poller) : Prop := Rep {
  e_none p : σ !! p = None → mem s !! p = None;
  e_idle p f st : σ !! p = Some (f, st) → (∀ ev, st ≠ Watched ev) → mem s !! p = Some (Channel f 0 kNew);
  e_watched p f ev : σ !! p = Some (f, Watched ev) →
    mem s !! p = Some (Channel f ev (if ev =? 0 then kDeleted else kAdded)) ∧ channels_ s !! f = Some p ∧
    interest s !! f = if ev =? 0 then None else Some (ev, p);
  e_channels f p : channels_ s !! f = Some p → ∃ ev, σ !! p = Some (f, Watched ev);
  e_interest f ev p : interest s !! f = Some (ev, p) → σ !! p = Some (f, Watched ev) ∧ ev ≠ 0;
  e_room : (kInitEventListSize <= room s)%nat
}.

Lemma epoll_rep_empty : rep ∅ empty.
Proof. constructor; cbn; intros *; rewrite ?lookup_empty; done. Qed.

Lemma epoll_same_fd σ s p q f ev ev' :
  rep σ s → σ !! p = Some (f, Watched ev) → σ !! q = Some (f, Watched ev') → p = q.
Proof.
  intros H Hp Hq. destruct (e_watched _ _ H _ _ _ Hp) as (_ & ? & _). destruct (e_watched _ _ H _ _ _ Hq) as (_ & ? & _).
  congruence.
Qed.

Ltac at_key a b :=
  destruct (decide (a = b)) as [<-|?]; [rewrite ?lookup_insert_eq in *|rewrite ?lookup_insert_ne in * by done].

(** A channel that is not watched comes, goes or stays. *)
Lemma idle_ok σ s p f st :
  rep σ s → (∀ g ev, σ !! p ≠ Some (g, Watched ev)) → (∀ ev, st ≠ Watched ev) →
  rep (<[p := (f, st)]> σ) (EPollPoller (<[p := Channel f 0 kNew]> (mem s)) (channels_ s) (interest s) (room s)).
Proof.
  intros H Hp Hst. constructor; cbn.
  - intros q Hq. at_key p q; [done|]. by apply (e_none _ _ H).
  - intros q g st' Hq Hst'. at_key p q; [by simplify_eq|]. by eapply (e_idle _ _ H).
  - intros q g ev Hq. at_key p q; [simplify_eq; by destruct (Hst ev)|]. by apply (e_watched _ _ H).
  - intros g q Hq. destruct (e_channels _ _ H _ _ Hq) as [ev Hw]. exists ev. at_key p q; [by apply Hp in Hw|done].
  - intros g ev q Hq. destruct (e_interest _ _ H _ _ _ Hq) as [Hw Hev]. split; [|done]. at_key p q; [by apply Hp in Hw|done].
  - apply H.
Qed.

Lemma epoll_destroy_ok σ s p :
  rep σ s → (∀ g ev, σ !! p ≠ Some (g, Watched ev)) →
  rep (delete p σ) (EPollPoller (delete p (mem s)) (channels_ s) (interest s) (room s)).
Proof.
  intros H Hp. constructor; cbn.
  - intros q Hq. destruct (decide (p = q)) as [<-|Hne]; [by rewrite lookup_delete_eq|].
    rewrite lookup_delete_ne in Hq by done. rewrite lookup_delete_ne by done. by apply (e_none _ _ H).
  - intros q g st [Hne Hq]%lookup_delete_Some Hst. rewrite lookup_delete_ne by done. by eapply (e_idle _ _ H).
  - intros q g ev [Hne Hq]%lookup_delete_Some. rewrite lookup_delete_ne by done. by apply (e_watched _ _ H).
  - intros g q Hq. destruct (e_channels _ _ H _ _ Hq) as [ev Hw]. exists ev. rewrite lookup_delete_ne; [done|].
    intros <-. by apply Hp in Hw.
  - intros g ev q Hq. destruct (e_interest _ _ H _ _ _ Hq) as [Hw Hev]. split; [|done]. rewrite lookup_delete_ne; [done|].
    intros <-. by apply Hp in Hw.
  - apply H.
Qed.

(** A channel is watched for [ev] from now on. *)
Lemma watch_ok σ s p f ev :
  rep σ s →
  (σ !! p = Some (f, New) ∧ channels_ s !! f = None ∨ ∃ old, σ !! p = Some (f, Watched old)) →
  rep (<[p := (f, Watched ev)]> σ)
      (EPollPoller (<[p := Channel f ev (if ev =? 0 then kDeleted else kAdded)]> (mem s)) (<[f := p]> (channels_ s))
         (if ev =? 0 then delete f (interest s) else <[f := (ev, p)]> (interest s)) (room s)).
Proof.
  intros H Hp.
  assert (Hother : ∀ q g ev', σ !! q = Some (g, Watched ev') → p ≠ q → f ≠ g).
  { intros q g ev' Hq Hne ->. destruct Hp as [[Hp Hc]|[old Hp]].
    - destruct (e_watched _ _ H _ _ _ Hq) as (_ & ? & _). congruence.
    - apply Hne. by eapply epoll_same_fd. }
  constructor; cbn.
  - intros q Hq. at_key p q; [done|]. by apply (e_none _ _ H).
  - intros q g st Hq Hst. at_key p q; [simplify_eq; by destruct (Hst ev)|]. by eapply (e_idle _ _ H).
  - intros q g ev' Hq. destruct (decide (p = q)) as [<-|Hne].
    + rewrite lookup_insert_eq in Hq. simplify_eq. rewrite !lookup_insert_eq. split; [done|]. split; [done|].
      destruct (ev' =? 0); [by rewrite lookup_delete_eq|by rewrite lookup_insert_eq].
    + rewrite lookup_insert_ne in Hq by done. destruct (e_watched _ _ H _ _ _ Hq) as (Hm & Hc & Hi).
      pose proof (Hother _ _ _ Hq Hne). rewrite !lookup_insert_ne by done. split; [done|]. split; [done|].
      destruct (ev =? 0); [by rewrite lookup_delete_ne|by rewrite lookup_insert_ne].
  - intros g q Hq. destruct (decide (f = g)) as [<-|Hne].
    + rewrite lookup_insert_eq in Hq. simplify_eq. exists ev. by rewrite lookup_insert_eq.
    + rewrite lookup_insert_ne in Hq by done. destruct (e_channels _ _ H _ _ Hq) as [ev' Hw]. exists ev'.
      rewrite lookup_insert_ne; [done|]. intros <-. destruct Hp as [[Hp _]|[old Hp]]; congruence.
  - intros g ev' q Hq.
    assert (Hcase : (f = g ∧ q = p ∧ ev' = ev ∧ ev ≠ 0) ∨ (f ≠ g ∧ interest s !! g = Some (ev', q))).
    { destruct (ev =? 0) eqn:Hev; [apply lookup_delete_Some in Hq; tauto|].
      apply lookup_insert_Some in Hq as [[-> Hq]|[? ?]]; [|by right]. left. simplify_eq. split_and!; [done..|lia]. }
    destruct Hcase as [(-> & -> & -> & ?)|[Hne Hi]]; [by rewrite lookup_insert_eq|].
    destruct (e_interest _ _ H _ _ _ Hi) as [Hw ?]. split; [|done]. rewrite lookup_insert_ne; [done|].
    intros <-. destruct Hp as [[Hp _]|[old Hp]]; congruence.
  - apply H.
Qed.

Lemma unwatch_ok σ s p f :
  rep σ s → σ !! p = Some (f, Watched 0) →
  rep (<[p := (f, Removed)]> σ)
      (EPollPoller (<[p := Channel f 0 kNew]> (mem s)) (delete f (channels_ s)) (interest s) (room s)).
Proof.
  intros H Hp. constructor; cbn.
  - intros q Hq. at_key p q; [done|]. by apply (e_none _ _ H).
  - intros q g st Hq Hst. at_key p q; [by simplify_eq|]. by eapply (e_idle _ _ H).
  - intros q g ev Hq. at_key p q; [done|]. destruct (e_watched _ _ H _ _ _ Hq) as (Hm & Hc & Hi).
    split; [done|]. split; [|done]. rewrite lookup_delete_ne; [done|]. intros ->.
    by assert (p = q) by (by eapply epoll_same_fd).
  - intros g q [Hne Hq]%lookup_delete_Some. destruct (e_channels _ _ H _ _ Hq) as [ev Hw]. exists ev.
    at_key p q; [congruence|done].
  - intros g ev q Hq. destruct (e_interest _ _ H _ _ _ Hq) as [Hw Hev]. split; [|done].
    at_key p q; [rewrite Hp in Hw; by simplify_eq|done].
  - apply H.
Qed.

(** ** The calls *)

(** The state after [update p ev]. *)
Definition watching (s : poller) (p f ev : Z) : poller :=
  EPollPoller (<[p := Channel f ev (if ev =? 0 then kDeleted else kAdded)]> (mem s)) (<[f := p]> (channels_ s))
    (if ev =? 0 then delete f (interest s) else <[f := (ev, p)]> (interest s)) (room s).

(** A channel that the kernel does not know: new, or without events. *)
Lemma update_add s p f ev i :
  mem s !! p = Some (Channel f 0 i) → interest s !! f = None → ev ≠ 0 →
  (i = kNew ∧ channels_ s !! f = None ∨ i = kDeleted ∧ channels_ s !! f = Some p) →
  PollerContract.update p ev s = (Val (), watching s p f ev).
Proof.
  intros Hm Hi Hev Hc. unfold PollerContract.update. erewrite act_bind_val by (by apply deref_run). unfold store.
  erewrite act_bind_val by reflexivity. cbn [PollerContract.updateChannel epoll_poller]. unfold updateChannel.
  erewrite act_bind_val by (apply deref_run; apply lookup_insert_eq).
  unfold act_bind, get_state, cpp_assert, set_channels, store, modify, update, watching.
  replace (ev =? 0) with false by lia. destruct Hc as [[-> Hc]|[-> Hc]]; cbn.
  - rewrite (bool_decide_eq_true_2 (channels_ s !! f = None)) by done. cbn. unfold act_bind, get_state, cpp_assert, set_interest, modify. cbn.
    rewrite (bool_decide_eq_true_2 (interest s !! f = None)) by done. by rewrite insert_insert_eq.
  - rewrite (bool_decide_eq_true_2 (channels_ s !! f = Some p)) by done. cbn. unfold act_bind, get_state, cpp_assert, set_interest, modify. cbn.
    rewrite (bool_decide_eq_true_2 (interest s !! f = None)) by done. by rewrite insert_insert_eq, (insert_id (channels_ s)).
Qed.

(** A channel that the kernel watches. *)
Lemma update_change s p f ev old :
  mem s !! p = Some (Channel f old kAdded) → is_Some (interest s !! f) → channels_ s !! f = Some p →
  PollerContract.update p ev s = (Val (), watching s p f ev).
Proof.
  intros Hm Hi Hc. unfold PollerContract.update. erewrite act_bind_val by (by apply deref_run). unfold store.
  erewrite act_bind_val by reflexivity. cbn [PollerContract.updateChannel epoll_poller]. unfold updateChannel.
  erewrite act_bind_val by (apply deref_run; apply lookup_insert_eq).
  unfold act_bind, get_state, cpp_assert, set_channels, store, modify, update, watching. cbn.
  rewrite (bool_decide_eq_true_2 (channels_ s !! f = Some p)) by done. unfold isNoneEvent. cbn [events_ set_events].
  destruct (ev =? 0); unfold act_bind, get_state, cpp_assert, set_interest, modify; cbn.
  - by rewrite insert_insert_eq, (insert_id (channels_ s)).
  - rewrite (bool_decide_eq_true_2 (is_Some (interest s !! f))) by done. by rewrite (insert_id (channels_ s)).
Qed.

Lemma epoll_remove_run s p f :
  mem s !! p = Some (Channel f 0 kDeleted) → channels_ s !! f = Some p →
  PollerContract.remove p s =
  (Val (), EPollPoller (<[p := Channel f 0 kNew]> (mem s)) (delete f (channels_ s)) (interest s) (room s)).
Proof.
  intros Hm Hc. unfold PollerContract.remove. erewrite act_bind_val by (by apply deref_run).
  erewrite act_bind_val by reflexivity. cbn [PollerContract.removeChannel epoll_poller]. unfold removeChannel.
  erewrite act_bind_val by (by apply deref_run).
  unfold act_bind, get_state, cpp_assert, set_channels, store, modify, act_ret. cbn.
  by rewrite (bool_decide_eq_true_2 (channels_ s !! f = Some p)).
Qed.

(** *** poll *)

Lemma ready_list_active ready σ s : rep σ s → ready_list ready s ≡ₚ active ready σ.
Proof.
  intros H. apply NoDup_Permutation.
  - unfold ready_list. apply (NoDup_omap_inj (ready1 ready)); [apply NoDup_map_to_list|].
    intros [f [ev p]] [g [ev' q]] [z r] Hx%elem_of_map_to_list Hy%elem_of_map_to_list Hfx Hfy.
    unfold ready1 in *. cbn [fst snd] in *. repeat case_match; try done. simplify_eq.
    destruct (e_interest _ _ H _ _ _ Hx) as [Hp _]. destruct (e_interest _ _ H _ _ _ Hy) as [Hq _]. congruence.
  - by apply (NoDup_fmap_1 fst), NoDup_active.
  - intros [p r]. rewrite elem_of_active_channels. unfold ready_list. rewrite list_elem_of_omap. split.
    + intros ([f [ev q]] & Hin%elem_of_map_to_list & Hr). unfold ready1 in Hr. cbn [fst snd] in Hr.
      destruct (0 <? _)%N eqn:Hpos; [|done]. simplify_eq. destruct (e_interest _ _ H _ _ _ Hin) as [Hp Hev].
      exists f, ev. apply N.ltb_lt in Hpos. done.
    + intros (f & ev & Hp & Hev & Hr & ->). exists (f, (ev, p)).
      destruct (e_watched _ _ H _ _ _ Hp) as (_ & _ & Hi). replace (ev =? 0) with false in Hi by lia.
      split; [by apply elem_of_map_to_list|]. unfold ready1. cbn [fst snd]. by apply N.ltb_lt in Hr as ->.
Qed.

Lemma epoll_wait_spec ready hint s :
  let l := epoll_wait ready hint s in
  l ⊆+ ready_list ready s ∧ length l = Nat.min (room s) (length (ready_list ready s)).
Proof.
  unfold epoll_wait. destruct (_ && _) eqn:Hc.
  - apply andb_true_iff in Hc as [Hs%bool_decide_eq_true Hl%Nat.eqb_eq]. done.
  - split; [apply submseteq_take|apply length_take].
Qed.

Lemma epoll_fill_run σ ready l s :
  rep σ s → (length l <= room s)%nat → l ⊆+ active ready σ → fillActiveChannels l s = (Val l, s).
Proof.
  intros H Hlen Hl. unfold fillActiveChannels. erewrite act_bind_val by reflexivity.
  erewrite act_bind_val by (unfold cpp_assert; by rewrite (proj2 (Nat.leb_le _ _) Hlen)).
  assert (Hall : ∀ e, e ∈ l → fill1 e s = (Val (), s)).
  { intros [p r] He. assert (Ha : (p, r) ∈ active ready σ) by (eapply elem_of_submseteq; done).
    apply elem_of_active_channels in Ha as (f & ev & Hp & _). destruct (e_watched _ _ H _ _ _ Hp) as (Hm & Hc & _).
    unfold fill1. erewrite act_bind_val by (by apply deref_run). erewrite act_bind_val by reflexivity.
    unfold cpp_assert. by rewrite bool_decide_eq_true_2. }
  assert (Hrun : act_mapM_ fill1 l s = (Val (), s)).
  { clear Hl Hlen. induction l as [|e l IH]; [done|]. cbn [act_mapM_]. erewrite act_bind_val by (apply Hall; left).
    apply IH. intros e' He'. apply Hall. by right. }
  by erewrite act_bind_val by exact Hrun.
Qed.

Lemma epoll_poll_ok ready hint σ s :
  rep σ s → ensures (poll ready hint) s (λ l s', rep σ s' ∧ answer_ok (Poll ready hint) σ l).
Proof.
  intros H. pose proof (ready_list_active ready _ _ H) as Hperm.
  destruct (epoll_wait_spec ready hint s) as [Hsub Hlen]. set (l := epoll_wait ready hint s) in *.
  rewrite Hperm in Hsub, Hlen.
  assert (Hans : answer_ok (Poll ready hint) σ l).
  { split; [done|]. pose proof (e_room _ _ H).
    destruct (decide (length (active ready σ) <= length l)%nat); [left; by apply submseteq_length_Permutation|right; lia]. }
  unfold poll. apply ensures_bind, ensures_get. fold l. destruct (0 <? length l)%nat eqn:H0.
  - apply ensures_bind. eexists _, s. split; [eapply epoll_fill_run; [done|lia|done]|].
    apply ensures_bind. destruct (_ =? _)%nat.
    + apply ensures_modify, ensures_ret. split; [|done]. destruct H. constructor; try done. cbn. lia.
    + by apply ensures_ret, ensures_ret.
  - apply ensures_ret. split; [done|]. replace [] with l; [done|]. apply Nat.ltb_ge in H0. apply nil_length_inv. lia.
Qed.

Lemma epoll_poller_exec_ok o σ σ' s :
  rep σ s → spec o σ = Some σ' → ensures (exec o) s (λ l s', rep σ' s' ∧ answer_ok o σ l).
Proof.
  intros H Ho. destruct o as [p f|p|p ev|p|ready hint]; cbn [spec exec] in *.
  - destruct (0 <=? f) eqn:Hf; [|done]. destruct (bool_decide _) eqn:Hp; [|done].
    apply bool_decide_eq_true in Hp. cbn in Ho. simplify_eq. apply ensures_bind, ensures_modify, ensures_ret.
    split; [|done]. apply idle_ok; [done|by rewrite Hp|done].
  - destruct (σ !! p) as [[f [|ev|]]|] eqn:Hp; try done; simplify_eq.
    all: apply ensures_bind; unfold destroy; apply ensures_bind.
    all: eexists _, s; (split; [by apply deref_run; eapply (e_idle _ _ H)|]); apply ensures_modify, ensures_ret; (split; [|done]).
    all: apply epoll_destroy_ok; [done|by rewrite Hp].
  - destruct (negb ((0 <=? ev) && (ev <? 2 ^ 15))); [done|].
    assert (Hrun : ∀ r, (PollerContract.update p ev s = (Val (), r)) → rep σ' r →
      ensures (PollerContract.update p ev;;; act_ret []) s (λ l s', rep σ' s' ∧ answer_ok (Update p ev) σ l)).
    { intros r Hr Hrep. apply ensures_bind. exists (), r. split; [done|]. by apply ensures_ret. }
    destruct (σ !! p) as [[f [|old|]]|] eqn:Hp; try done.
    + destruct (negb (ev =? 0)) eqn:Hev; [|done]. destruct (fd_free f σ) eqn:Hfree; [|done]. cbn in Ho. simplify_eq.
      rewrite fd_free_spec in Hfree.
      assert (Hc : channels_ s !! f = None).
      { destruct (channels_ s !! f) as [q|] eqn:Hq; [|done]. destruct (e_channels _ _ H _ _ Hq) as [ev' Hw].
        specialize (Hfree _ _ Hw). unfold watches in Hfree. cbn in Hfree. lia. }
      assert (Hi : interest s !! f = None).
      { destruct (interest s !! f) as [[e q]|] eqn:Hq; [|done]. destruct (e_interest _ _ H _ _ _ Hq) as [Hw _].
        specialize (Hfree _ _ Hw). unfold watches in Hfree. cbn in Hfree. lia. }
      eapply Hrun; [eapply update_add; [by eapply (e_idle _ _ H)|done|lia|by left]|].
      apply watch_ok; [done|by left].
    + destruct ((old =? 0) && (ev =? 0)) eqn:H00; [done|]. simplify_eq.
      destruct (e_watched _ _ H _ _ _ Hp) as (Hm & Hc & Hi).
      eapply Hrun; [|apply watch_ok; [done|right; by exists old]].
      destruct (old =? 0) eqn:Hold.
      * assert (old = 0) as -> by lia. eapply update_add; [done|done|cbn in H00; lia|by right].
      * eapply update_change; [done|by rewrite Hi|done].
  - destruct (σ !! p) as [[f [|ev|]]|] eqn:Hp; try done. destruct (ev =? 0) eqn:Hev; [|done]. simplify_eq.
    assert (ev = 0) as -> by lia. destruct (e_watched _ _ H _ _ _ Hp) as (Hm & Hc & _). apply ensures_bind.
    eexists _, _. split; [by apply epoll_remove_run|]. apply ensures_ret. split; [|done]. by apply unwatch_ok.
  - simplify_eq. by apply epoll_poll_ok.
Qed.

#[export] Instance epoll_poller_impl : PollerImpl poller :=
  { repr := rep; repr_empty := epoll_rep_empty; exec_ok := epoll_poller_exec_ok }.

End EPollPoller.
