(* ===== verification/Pollers.v ===== *)
(** * The two pollers agree

    PollPoller and EPollPoller keep the contract of PollerContract.v.  A loop that
    keeps it too sees the same ready channels, but for the limit of epoll_wait,
    which is stated exactly ([epoll_of]); then two calls outside of the contract,
    on which they differ. *)
From S2P Require Import Prelude Hoare PollerContract PollPoller EPollPoller.
Import PollerContract.
Import (hints) PollPoller.PollPoller.
Import (hints) EPollPoller.EPollPoller.

Module Pollers.

(** ** What epoll_wait has room for *)

(** A computation that leaves the size of the array alone. *)
Definition keeps_room {A} (m : act EPollPoller.poller Empty_set A) : Prop :=
  ∀ s a s', m s = (Val a, s') → EPollPoller.room s' = EPollPoller.room s.

Lemma keeps_bind {A B} (m : act EPollPoller.poller Empty_set A) (f : A → act EPollPoller.poller Empty_set B) :
  keeps_room m → (∀ a, keeps_room (f a)) → keeps_room (act_bind m f).
Proof.
  intros Hm Hf s b s'' E. unfold act_bind in E. destruct (m s) as [[a| | |] s'] eqn:Em; try done.
  by rewrite (Hf a _ _ _ E), (Hm _ _ _ Em).
Qed.

Lemma keeps_modify f : (∀ s, EPollPoller.room (f s) = EPollPoller.room s) → keeps_room (modify f).
Proof. intros Hf s a s' [= <- <-]. apply Hf. Qed.
Lemma keeps_get : keeps_room get_state.
Proof. by intros s a s' [= <- <-]. Qed.
Lemma keeps_ret {A} (a : A) : keeps_room (act_ret a).
Proof. by intros s x s' [= <- <-]. Qed.
Lemma keeps_assert b : keeps_room (cpp_assert b).
Proof. intros s x s' E. destruct b; [by injection E as _ <-|done]. Qed.
Lemma keeps_undefined {A} : keeps_room (undefined (A := A)).
Proof. by intros s x s' E. Qed.

Create HintDb room.
#[local] Hint Resolve keeps_bind keeps_get keeps_ret keeps_assert keeps_undefined : room.

(** Follows the program text. *)
Ltac keeps :=
  repeat match goal with
  | |- keeps_room (act_bind _ _) => apply keeps_bind; [|intros ?]
  | |- keeps_room (modify _) => by apply keeps_modify
  | |- keeps_room (if _ then _ else _) => case_match
  | |- keeps_room (match _ with _ => _ end) => case_match
  | |- _ => solve [auto with room]
  end.

Lemma keeps_deref p : keeps_room (deref p).
Proof. unfold deref. keeps. Qed.
Lemma keeps_store p c : keeps_room (store p c).
Proof. unfold store. keeps. Qed.
Lemma keeps_ctl o p c : keeps_room (EPollPoller.update o p c).
Proof. unfold EPollPoller.update, EPollPoller.set_interest. keeps. Qed.
#[local] Hint Resolve keeps_deref keeps_store keeps_ctl : room.

Lemma keeps_updateChannel p : keeps_room (EPollPoller.updateChannel p).
Proof. unfold EPollPoller.updateChannel, EPollPoller.set_channels. keeps. Qed.
Lemma keeps_removeChannel p : keeps_room (EPollPoller.removeChannel p).
Proof. unfold EPollPoller.removeChannel, EPollPoller.set_channels. keeps. Qed.
#[local] Hint Resolve keeps_updateChannel keeps_removeChannel : room.

Definition is_poll (o : op) : bool := if o is Poll _ _ then true else false.

Lemma exec_keeps_room o : is_poll o = false → keeps_room (exec o : act EPollPoller.poller _ _).
Proof.
  destruct o; intros H; try done; cbn [exec]; unfold create, destroy, update, remove; cbn [updateChannel removeChannel EPollPoller.epoll_poller]; keeps.
Qed.

(** The array doubles when it was full. *)
Definition grow (room : nat) (l : activeChannels) : nat := if (length l =? room)%nat then (room * 2)%nat else room.

Lemma epoll_poll_exact ready hint σ (t : EPollPoller.poller) :
  EPollPoller.rep σ t → ∃ l t', EPollPoller.poll ready hint t = (Val l, t') ∧
    length l = Nat.min (EPollPoller.room t) (length (active ready σ)) ∧ EPollPoller.room t' = grow (EPollPoller.room t) l.
Proof.
  intros H. pose proof (EPollPoller.ready_list_active ready _ _ H) as Hp. pose proof (EPollPoller.e_room _ _ H) as Hr.
  destruct (EPollPoller.epoll_wait_spec ready hint t) as [Hsub Hlen]. rewrite Hp in Hsub, Hlen.
  unfold EPollPoller.poll. erewrite act_bind_val by reflexivity. set (l := EPollPoller.epoll_wait ready hint t) in *.
  exists l. unfold grow. destruct (0 <? length l)%nat eqn:H0.
  - rewrite (act_bind_val _ _ _ l t) by (eapply EPollPoller.epoll_fill_run; [done|lia|done]).
    destruct (length l =? EPollPoller.room t)%nat; by eexists.
  - apply Nat.ltb_ge in H0. assert (l = []) as -> by (apply nil_length_inv; lia). exists t.
    split; [done|]. split; [done|]. unfold kInitEventListSize in Hr. cbn [length]. by rewrite (proj2 (Nat.eqb_neq _ _)) by lia.
Qed.

(** How the answers of EPollPoller relate to those of PollPoller, call by call. *)
Fixpoint epoll_of (room : nat) (ls ls' : list activeChannels) : Prop :=
  match ls, ls' with
  | [], [] => True
  | l :: ls, l' :: ls' => l' ⊆+ l ∧ length l' = Nat.min room (length l) ∧ epoll_of (grow room l') ls ls'
  | _, _ => False
  end.

Lemma step_agree o σ σ' (s : PollPoller.poller) (t : EPollPoller.poller) :
  PollPoller.rep σ s → EPollPoller.rep σ t → spec o σ = Some σ' →
  ∃ l s' l' t', exec o s = (Val l, s') ∧ PollPoller.rep σ' s' ∧ answer_ok o σ l ∧
    exec o t = (Val l', t') ∧ EPollPoller.rep σ' t' ∧ answer_ok o σ l' ∧
    l' ⊆+ l ∧ length l' = Nat.min (EPollPoller.room t) (length l) ∧ EPollPoller.room t' = grow (EPollPoller.room t) l'.
Proof.
  intros Hs Ht Ho. destruct (PollPoller.poll_poller_exec_ok o σ σ' s Hs Ho) as (l & s' & Es & Hs' & Hl).
  destruct (EPollPoller.epoll_poller_exec_ok o σ σ' t Ht Ho) as (l' & t' & Et & Ht' & Hl').
  exists l, s', l', t'. do 6 (split; [done|]). destruct (is_poll o) eqn:Ep.
  - destruct o as [| | | |ready hint]; try done. cbn [spec exec poll PollPoller.poll_poller EPollPoller.epoll_poller] in *.
    destruct (PollPoller.poll_poll_ok ready σ s Hs) as (k & Ek & Hk). rewrite Es in Ek. injection Ek as <- ->.
    destruct (epoll_poll_exact ready hint σ t Ht) as (k' & t1 & Ek' & Hk' & Hr). rewrite Et in Ek'. injection Ek' as <- <-.
    destruct Hl' as [Hl' _]. rewrite Hk. by split.
  - assert (l = [] ∧ l' = []) as [-> ->] by (by destruct o).
    pose proof (EPollPoller.e_room _ _ Ht) as Hr. unfold kInitEventListSize in Hr.
    split; [done|]. split; [by rewrite Nat.min_0_r|]. rewrite (exec_keeps_room o Ep _ _ _ Et). unfold grow. cbn [length].
    by rewrite (proj2 (Nat.eqb_neq _ _)) by lia.
Qed.

Lemma run_agree os : ∀ σ σ' (s : PollPoller.poller) (t : EPollPoller.poller),
  PollPoller.rep σ s → EPollPoller.rep σ t → allowed os σ = Some σ' →
  ∃ ls s' ls' t', exec_all os s = (Val ls, s') ∧ answers_ok σ os ls ∧
    exec_all os t = (Val ls', t') ∧ answers_ok σ os ls' ∧ epoll_of (EPollPoller.room t) ls ls'.
Proof.
  induction os as [|o os IH]; intros σ σ' s t Hs Ht Ha; [exists [], s, [], t; repeat constructor|].
  cbn in Ha. apply bind_Some in Ha as (σ1 & Ho & Ha).
  destruct (step_agree o σ σ1 s t Hs Ht Ho) as (l & s1 & l' & t1 & Es & Hs1 & Hl & Et & Ht1 & Hl' & Hsub & Hlen & Hr).
  destruct (IH σ1 σ' s1 t1 Hs1 Ht1 Ha) as (ls & s2 & ls' & t2 & Es2 & Hls & Et2 & Hls' & Hof).
  exists (l :: ls), s2, (l' :: ls'), t2. cbn [exec_all].
  rewrite (act_bind_val _ _ _ _ _ Es), (act_bind_val _ _ _ _ _ Es2), (act_bind_val _ _ _ _ _ Et), (act_bind_val _ _ _ _ _ Et2).
  split; [done|]. split; [by econstructor|]. split; [done|]. split; [by econstructor|].
  cbn [epoll_of]. by rewrite <-Hr.
Qed.

(** C10: In every sequence of calls that the contract allows, no assertion of
    either poller fails, no deleted channel is used and no epoll_ctl fails.  Each
    poll returns ready channels only, each once, with what has happened.
    PollPoller returns all of them; EPollPoller returns some of the same, as many
    as the array of epoll_wait has room for: [kInitEventListSize] (16) at first,
    twice as many after every poll that fills it.  So the two return the same
    channels, in some order, whenever there is room, and may differ when more are
    ready than that. *)
Theorem pollers_agree os σ :
  allowed os ∅ = Some σ →
  ∃ ls s ls' s',
    exec_all os (empty : PollPoller.poller) = (Val ls, s) ∧ answers_ok ∅ os ls ∧
    exec_all os (empty : EPollPoller.poller) = (Val ls', s') ∧ answers_ok ∅ os ls' ∧
    epoll_of kInitEventListSize ls ls'.
Proof. apply run_agree; [apply PollPoller.poll_rep_empty|apply EPollPoller.epoll_rep_empty]. Qed.

Definition hup : kernel := λ f ev, if f =? 5 then 16%N else 0%N.

Definition sample : list op :=
  [Create 1 5; Update 1 3; Create 2 6; Update 2 7; Poll hup []; Update 1 0; Remove 1; Poll hup []; Destroy 1; Create 1 5;
   Update 1 4; Poll hup []].

Lemma pollers_agree_witness :
  is_Some (allowed sample ∅) ∧
  ∃ ls s ls' s',
    exec_all sample (empty : PollPoller.poller) = (Val ls, s) ∧ answers_ok ∅ sample ls ∧
    exec_all sample (empty : EPollPoller.poller) = (Val ls', s') ∧ answers_ok ∅ sample ls' ∧
    epoll_of kInitEventListSize ls ls'.
Proof.
  assert (H : is_Some (allowed sample ∅)) by (eexists; vm_compute; reflexivity).
  split; [exact H|]. destruct H as [σ Hσ]. exact (pollers_agree sample σ Hσ).
Defined.

(** disableAll of a channel that already is without events: EPollPoller adds it
    to the kernel's list again, and reports its hang-up. *)
Theorem second_disableAll_watches :
  allowed [Create 1 5; Update 1 3; Update 1 0; Update 1 0] ∅ = None ∧
  (exec_all [Create 1 5; Update 1 3; Update 1 0; Update 1 0; Poll hup []] (empty : PollPoller.poller)).1 = Val [[]; []; []; []; []] ∧
  (exec_all [Create 1 5; Update 1 3; Update 1 0; Update 1 0; Poll hup []] (empty : EPollPoller.poller)).1 = Val [[]; []; []; []; [(1, 16)]].
Proof. split_and!; vm_compute; reflexivity. Qed.

(** A removed channel that is used again: PollPoller has left its index as it was. *)
Theorem reused_channel_aborts :
  allowed [Create 1 5; Update 1 3; Update 1 0; Remove 1; Update 1 3] ∅ = None ∧
  (exec_all [Create 1 5; Update 1 3; Update 1 0; Remove 1; Update 1 3] (empty : PollPoller.poller)).1 = Abort ∧
  (exec_all [Create 1 5; Update 1 3; Update 1 0; Remove 1; Update 1 3] (empty : EPollPoller.poller)).1 = Val [[]; []; []; []; []].
Proof. split_and!; vm_compute; reflexivity. Qed.

End Pollers.
