(* ===== verification/Connector.v ===== *)
(** * Connector.cc (muduo/net): connecting, and again

    A connector makes one socket after the other until one is connected, and hands
    it over.  The results of the system calls are arguments of its functions.  The
    open sockets are part of the state, numbered as they are created; [timers] and
    [pendingFunctors_] are what it has left with the loop.  The steps and the
    theorem are those of its owner, in TcpClient.v. *)
From S2P Require Import Prelude Hoare.

Module Connector.

Definition kMaxRetryDelayMs : Z := 30 * 1000.
Definition kInitRetryDelayMs : Z := 500.

Inductive States := kDisconnected | kConnecting | kConnected.

#[export] Instance States_eq_dec : EqDecision States.
Proof. solve_decision. Defined.

(** What connect(2) returns: under way, an error that may pass, or another. *)
Inductive connect_result := InProgress | TryAgain | Fatal.

Inductive functor := FStartInLoop | FStopInLoop | FResetChannel.

Record connector := Connector {
  connect_ : bool;
  state_ : States;
  channel_ : option (Z * bool);     (** the socket, and whether it is watched *)
  retryDelayMs_ : Z;
  pendingFunctors_ : list functor;
  timers : list Z;                  (** the delays of runAfter(startInLoop) *)
  sockets : gset Z;
  nextSocket : Z;
  retries : nat;                    (** since the last start *)
  gaveUp : bool                     (** connect(2) failed for good *)
}.

#[export] Instance functor_eq_dec : EqDecision functor.
Proof. solve_decision. Defined.

Definition init : connector := Connector false kDisconnected None kInitRetryDelayMs [] [] ∅ 0 0 false.

Definition io (A : Type) : Type := act connector Empty_set A.

Definition set_connect (b : bool) (c : connector) : connector :=
  Connector b (state_ c) (channel_ c) (retryDelayMs_ c) (pendingFunctors_ c) (timers c) (sockets c) (nextSocket c) (retries c) (gaveUp c).
Definition set_state (s : States) (c : connector) : connector :=
  Connector (connect_ c) s (channel_ c) (retryDelayMs_ c) (pendingFunctors_ c) (timers c) (sockets c) (nextSocket c) (retries c) (gaveUp c).
Definition set_channel (ch : option (Z * bool)) (c : connector) : connector :=
  Connector (connect_ c) (state_ c) ch (retryDelayMs_ c) (pendingFunctors_ c) (timers c) (sockets c) (nextSocket c) (retries c) (gaveUp c).
Definition set_pending (l : list functor) (c : connector) : connector :=
  Connector (connect_ c) (state_ c) (channel_ c) (retryDelayMs_ c) l (timers c) (sockets c) (nextSocket c) (retries c) (gaveUp c).
Definition set_timers (l : list Z) (c : connector) : connector :=
  Connector (connect_ c) (state_ c) (channel_ c) (retryDelayMs_ c) (pendingFunctors_ c) l (sockets c) (nextSocket c) (retries c) (gaveUp c).
Definition set_sockets (s : gset Z) (n : Z) (c : connector) : connector :=
  Connector (connect_ c) (state_ c) (channel_ c) (retryDelayMs_ c) (pendingFunctors_ c) (timers c) s n (retries c) (gaveUp c).
Definition set_delay (d : Z) (n : nat) (c : connector) : connector :=
  Connector (connect_ c) (state_ c) (channel_ c) d (pendingFunctors_ c) (timers c) (sockets c) (nextSocket c) n (gaveUp c).
Definition set_gaveUp (b : bool) (c : connector) : connector :=
  Connector (connect_ c) (state_ c) (channel_ c) (retryDelayMs_ c) (pendingFunctors_ c) (timers c) (sockets c) (nextSocket c) (retries c) b.

Definition setState (s : States) : io () := modify (set_state s).
Definition queueInLoop (f : functor) : io () := modify (λ c, set_pending (pendingFunctors_ c ++ [f]) c).

(** socket(2) and close(2) *)
Definition createNonblockingOrDie : io Z :=
  c <- get_state ;;
  put_state (set_sockets ({[nextSocket c]} ∪ sockets c) (nextSocket c + 1) c) ;;;
  act_ret (nextSocket c).

Definition close (sockfd : Z) : io () := modify (λ c, set_sockets (sockets c ∖ {[sockfd]}) (nextSocket c) c).

(** ** Connector.cc *)

Definition retry (sockfd : Z) : io () :=
  close sockfd ;;;
  setState kDisconnected ;;;
  c <- get_state ;;
  (when connect_ c do
     (modify (λ c, set_timers (timers c ++ [retryDelayMs_ c]) c) ;;;
      modify (λ c, set_delay (Z.min (retryDelayMs_ c * 2) kMaxRetryDelayMs) (S (retries c)) c))).

Definition connecting (sockfd : Z) : io () :=
  setState kConnecting ;;;
  c <- get_state ;;
  cpp_assert (bool_decide (channel_ c = None)) ;;;
  modify (set_channel (Some (sockfd, true))).

Definition connect (r : connect_result) : io () :=
  sockfd <- createNonblockingOrDie ;;
  match r with
  | InProgress => connecting sockfd
  | TryAgain => retry sockfd
  | Fatal => close sockfd ;;; modify (set_gaveUp true)
  end.

Definition startInLoop (r : connect_result) : io () :=
  c <- get_state ;;
  cpp_assert (bool_decide (state_ c = kDisconnected)) ;;;
  (when connect_ c do connect r).

(** [inLoop]: called in the loop thread. *)
Definition start (inLoop : bool) (r : connect_result) : io () :=
  modify (set_connect true) ;;;
  if inLoop then startInLoop r else queueInLoop FStartInLoop.

Definition restart (r : connect_result) : io () :=
  setState kDisconnected ;;;
  modify (λ c, set_gaveUp false (set_delay kInitRetryDelayMs 0 c)) ;;;
  modify (set_connect true) ;;;
  startInLoop r.

Definition removeAndResetChannel : io Z :=
  c <- get_state ;;
  match channel_ c with
  | None => undefined
  | Some (fd, _) =>
      modify (set_channel (Some (fd, false))) ;;;
      queueInLoop FResetChannel ;;;
      act_ret fd
  end.

Definition stopInLoop : io () :=
  c <- get_state ;;
  when bool_decide (state_ c = kConnecting) do
    (setState kDisconnected ;;;
     sockfd <- removeAndResetChannel ;;
     retry sockfd).

Definition stop : io () :=
  modify (set_connect false) ;;;
  queueInLoop FStopInLoop.

(** The socket that newConnectionCallback_ is called with. *)
Definition handleWrite (err selfConnect : bool) : io (option Z) :=
  c <- get_state ;;
  if bool_decide (state_ c = kConnecting) then
    sockfd <- removeAndResetChannel ;;
    if err then retry sockfd ;;; act_ret None
    else if selfConnect then retry sockfd ;;; act_ret None
    else
      setState kConnected ;;;
      c <- get_state ;;
      if connect_ c then act_ret (Some sockfd) else close sockfd ;;; act_ret None
  else cpp_assert (bool_decide (state_ c = kDisconnected)) ;;; act_ret None.

Definition handleError : io () :=
  c <- get_state ;;
  when bool_decide (state_ c = kConnecting) do
    (sockfd <- removeAndResetChannel ;; retry sockfd).

(** Channel::handleEvent, with an error, writable, or both. *)
Definition handleEvent (error writable err selfConnect : bool) : io (option Z) :=
  (when error do handleError) ;;;
  if writable then handleWrite err selfConnect else act_ret None.

Definition resetChannel : io () := modify (set_channel None).

Definition call_functor (f : functor) (r : connect_result) : io () :=
  match f with
  | FStartInLoop => startInLoop r
  | FStopInLoop => stopInLoop
  | FResetChannel => resetChannel
  end.

End Connector.

(** ** The invariant *)
Module ConnectorFacts.
Import Connector.

Definition count (f : functor) (l : list functor) : nat := length (filter (λ g, g = f) l).

Lemma functor_count_cons f g l : count f (g :: l) = (if bool_decide (g = f) then 1 + count f l else count f l)%nat.
Proof.
  unfold count. destruct (decide (g = f)) as [->|Hne].
  - by rewrite filter_cons_True, bool_decide_eq_true_2.
  - by rewrite filter_cons_False, bool_decide_eq_false_2.
Qed.

Lemma functor_count_app f l k : count f (l ++ k) = (count f l + count f k)%nat.
Proof. unfold count. by rewrite filter_app, length_app. Qed.

Lemma functor_count_zero f l : count f l = 0%nat ↔ f ∉ l.
Proof.
  induction l as [|g l IH]; [split; [intros _; apply not_elem_of_nil|done]|].
  rewrite functor_count_cons, not_elem_of_cons. case_bool_decide; [split; [lia|naive_solver]|]. rewrite IH. naive_solver.
Qed.

(** What startInLoop is still to be called for. *)
Definition starts (c : connector) : nat := (count FStartInLoop (pendingFunctors_ c) + length (timers c))%nat.
Definition resets (c : connector) : nat := count FResetChannel (pendingFunctors_ c).

#[global] Arguments count : simpl never.

Definition delay (n : nat) : Z := Z.min (kInitRetryDelayMs * 2 ^ Z.of_nat n) kMaxRetryDelayMs.

(** The socket that is being connected. *)
Definition current (c : connector) : gset Z :=
  match state_ c, channel_ c with kConnecting, Some (fd, _) => {[fd]} | _, _ => ∅ end.

Record cinv (conn : option Z) (c : connector) : Prop := Cinv {
  v_starts : (starts c <= 1)%nat;
  v_idle : (0 < starts c)%nat → state_ c = kDisconnected ∧ conn = None;
  v_first : (0 < count FStartInLoop (pendingFunctors_ c))%nat → channel_ c = None ∧ resets c = 0%nat;
  v_channel : match state_ c with
              | kConnecting => (∃ fd, channel_ c = Some (fd, true)) ∧ resets c = 0%nat
              | _ => channel_ c = None ∧ resets c = 0%nat ∨ (∃ fd, channel_ c = Some (fd, false)) ∧ resets c = 1%nat
              end;
  v_conn : is_Some conn → state_ c = kConnected;
  v_sockets : sockets c = current c ∪ match conn with Some fd => {[fd]} | None => ∅ end;
  v_next x : x ∈ sockets c → x < nextSocket c;
  v_delay : retryDelayMs_ c = delay (retries c);
  v_timers : Forall (λ d, ∃ n, retries c = S n ∧ d = delay n) (timers c);
  v_stuck : connect_ c = true → state_ c = kDisconnected → gaveUp c = false → starts c = 1%nat
}.

Lemma delay_0 : delay 0 = kInitRetryDelayMs.
Proof. done. Qed.

Lemma delay_S n : Z.min (delay n * 2) kMaxRetryDelayMs = delay (S n).
Proof. unfold delay, kInitRetryDelayMs, kMaxRetryDelayMs. rewrite Nat2Z.inj_succ, Z.pow_succ_r by lia. lia. Qed.

(** A connector that does nothing, before connect. *)
Record rests (c : connector) : Prop := Rests {
  r_starts : starts c = 0%nat;
  r_state : state_ c = kDisconnected;
  r_channel : channel_ c = None;
  r_resets : resets c = 0%nat;
  r_sockets : sockets c = ∅;
  r_delay : retryDelayMs_ c = delay (retries c)
}.

Ltac fields := unfold starts, resets in *; cbn [connect_ state_ channel_ retryDelayMs_ pendingFunctors_ timers sockets nextSocket
  retries gaveUp set_connect set_state set_channel set_pending set_timers set_sockets set_delay set_gaveUp] in *.

(** retry, after removeAndResetChannel or of a new socket. *)
Lemma retry_ok fd c :
  starts c = 0%nat → sockets c = {[fd]} → fd < nextSocket c → retryDelayMs_ c = delay (retries c) →
  (channel_ c = None ∧ resets c = 0%nat ∨ (∃ x, channel_ c = Some (x, false)) ∧ resets c = 1%nat) →
  ensures (retry fd) c (λ _, cinv None).
Proof.
  intros Hs Hk Hlt Hd Hch. destruct c as [cn st ch dl pe ti so ne re gu]. fields. subst so dl.
  assert (Hempty : {[fd]} ∖ {[fd]} =@{gset Z} ∅) by set_solver.
  unfold retry, close, setState. apply ensures_bind, ensures_modify. apply ensures_bind, ensures_modify.
  apply ensures_bind, ensures_get. fields. destruct cn.
  - apply ensures_bind, ensures_modify. apply ensures_modify. fields.
    destruct ti as [|t ti]; [|cbn in Hs; lia]. cbn in Hs. constructor; fields; try done.
    all: try (cbn; lia).
    + rewrite Hempty. set_solver.
    + apply delay_S.
    + constructor; [|constructor]. by exists re.
  - apply ensures_ret. constructor; fields; try done.
    all: try (cbn; lia).
    all: try (rewrite Hempty; set_solver).
    destruct ti; [constructor|cbn in Hs; lia].
Qed.

Lemma connect_ok r c : rests c → ensures (Connector.connect r) c (λ _, cinv None).
Proof.
  intros [Hs Hst Hch Hr Hk Hd]. unfold Connector.connect, createNonblockingOrDie.
  apply ensures_bind, ensures_bind, ensures_get. apply ensures_bind, ensures_put. apply ensures_ret.
  set (c1 := set_sockets _ _ c).
  assert (Hk1 : sockets c1 = {[nextSocket c]}) by (cbn; rewrite Hk; set_solver).
  destruct r.
  - unfold connecting, setState. apply ensures_bind, ensures_modify. apply ensures_bind, ensures_get.
    apply ensures_bind, ensures_assert; [by apply bool_decide_eq_true_2|]. apply ensures_modify. clear Hk1. unfold c1.
    destruct c as [cn st ch dl pe ti so ne re gu]. fields. subst. constructor; fields; try done.
    all: try (cbn; lia).
    + split; [by eexists|done].
    + intros x. rewrite elem_of_union, elem_of_singleton. set_solver by lia.
    + destruct ti; [constructor|cbn in Hs; lia].
  - apply retry_ok; try done; [cbn; lia|by left].
  - unfold close. apply ensures_bind, ensures_modify. apply ensures_modify. unfold c1 in *.
    destruct c as [cn st ch dl pe ti so ne re gu]. fields. subst.
    assert (Hempty : ({[ne]} ∪ ∅) ∖ {[ne]} =@{gset Z} ∅) by set_solver. constructor; fields; try done.
    all: try (cbn; lia).
    all: try by left.
    all: try (rewrite Hempty; set_solver).
    destruct ti; [constructor|cbn in Hs; lia].
Qed.

Lemma rests_cinv c : rests c → (connect_ c = true → gaveUp c = true) → cinv None c.
Proof.
  intros [Hs Hst Hch Hr Hk Hd] Hc. constructor; try done.
  all: rewrite ?Hs, ?Hst; try lia; try done.
  - by left.
  - rewrite Hk. unfold current. rewrite Hst. set_solver.
  - rewrite Hk. set_solver.
  - unfold starts in Hs. destruct (timers c); [constructor|cbn in Hs; lia].
  - intros Hcn _ Hg. rewrite Hc in Hg; done.
Qed.

Lemma startInLoop_ok r c :
  rests c → ensures (startInLoop r) c (λ _, cinv None).
Proof.
  intros H. unfold startInLoop. apply ensures_bind, ensures_get.
  apply ensures_bind, ensures_assert; [by apply bool_decide_eq_true_2, H|].
  destruct (connect_ c) eqn:Hc; [by apply connect_ok|]. apply ensures_ret. apply rests_cinv; [done|by rewrite Hc].
Qed.

(** A connection attempt ends: the channel is taken down, then the socket closed. *)
Lemma attempt_ends conn c :
  cinv conn c → state_ c = kConnecting →
  ∃ fd, channel_ c = Some (fd, true) ∧
    let c1 := set_pending (pendingFunctors_ c ++ [FResetChannel]) (set_channel (Some (fd, false)) c) in
    removeAndResetChannel c = (Val fd, c1) ∧ conn = None ∧
    starts c1 = 0%nat ∧ sockets c1 = {[fd]} ∧ fd < nextSocket c1 ∧ retryDelayMs_ c1 = delay (retries c1) ∧
    (channel_ c1 = None ∧ resets c1 = 0%nat ∨ (∃ x, channel_ c1 = Some (x, false)) ∧ resets c1 = 1%nat).
Proof.
  intros H Hst. pose proof (v_channel _ _ H) as Hch. rewrite Hst in Hch. destruct Hch as [[fd Hch] Hr].
  assert (Hn : conn = None) by (destruct conn; [|done]; rewrite (v_conn _ _ H) in Hst by (by eexists); done).
  assert (Hs : starts c = 0%nat).
  { destruct (starts c) eqn:Hs; [done|]. destruct (v_idle _ _ H) as [? _]; [lia|congruence]. }
  pose proof (v_sockets _ _ H) as Hk. unfold current in Hk. rewrite Hst, Hch, Hn in Hk.
  exists fd. cbv zeta. split_and!; try done.
  - unfold removeAndResetChannel. erewrite act_bind_val by reflexivity. by rewrite Hch.
  - unfold starts in *. cbn. rewrite functor_count_app. change (count FStartInLoop [FResetChannel]) with 0%nat. lia.
  - cbn. rewrite Hk. set_solver.
  - apply (v_next _ _ H). rewrite Hk. set_solver.
  - apply (v_delay _ _ H).
  - right. split; [by eexists|]. unfold resets in *. cbn. rewrite functor_count_app, Hr. done.
Qed.

Lemma stopInLoop_ok conn c : cinv conn c → ensures stopInLoop c (λ _, cinv conn).
Proof.
  intros H. unfold stopInLoop. apply ensures_bind, ensures_get. case_bool_decide as Hst; [|by apply ensures_ret].
  destruct (attempt_ends _ _ H Hst) as (fd & Hch & _ & -> & Hs & Hk & Hlt & Hd & Hr). cbv zeta in *.
  unfold setState. apply ensures_bind, ensures_modify. apply ensures_bind.
  eexists fd, _. split; [unfold removeAndResetChannel; erewrite act_bind_val by reflexivity; cbn; by rewrite Hch|].
  by apply retry_ok.
Qed.

Lemma handleError_ok conn c :
  cinv conn c → ensures handleError c (λ _ c', cinv conn c' ∧ (state_ c' = state_ c ∧ channel_ c' = channel_ c ∨ state_ c' = kDisconnected)).
Proof.
  intros H. unfold handleError. apply ensures_bind, ensures_get. case_bool_decide as Hst; [|apply ensures_ret; by auto].
  destruct (attempt_ends _ _ H Hst) as (fd & Hch & Hrun & -> & Hs & Hk & Hlt & Hd & Hr). cbv zeta in *.
  apply ensures_bind. eexists fd, _. split; [exact Hrun|].
  destruct (retry_ok _ _ Hs Hk Hlt Hd Hr) as (a & c' & Hc' & Hinv). exists a, c'. split; [done|]. split; [done|]. right.
  unfold retry, act_bind, close, setState, get_state, modify, act_ret in Hc'. cbn in Hc'. case_match; by simplify_eq.
Qed.

(** The socket that is handed over is the only open one. *)
Lemma handleWrite_ok err self conn c :
  cinv conn c → state_ c ≠ kConnected →
  ensures (handleWrite err self) c (λ o c', cinv (match o with Some fd => Some fd | None => conn end) c').
Proof.
  intros H Hne. unfold handleWrite. apply ensures_bind, ensures_get. case_bool_decide as Hst.
  2: { apply ensures_bind, ensures_assert; [|by apply ensures_ret]. apply bool_decide_eq_true. by destruct (state_ c). }
  destruct (attempt_ends _ _ H Hst) as (fd & Hch & Hrun & -> & Hs & Hk & Hlt & Hd & Hr). cbv zeta in *.
  apply ensures_bind. eexists fd, _. split; [exact Hrun|]. set (c1 := set_pending _ _) in *.
  assert (Hretry : ensures (retry fd ;;; act_ret None) c1 (λ o c', cinv (match o with Some fd => Some fd | None => None end) c')).
  { apply ensures_bind. eapply ensures_weaken; [by apply retry_ok|]. cbv beta. intros _ c2 H2. by apply ensures_ret. }
  destruct err; [done|]. destruct self; [done|]. clear Hretry.
  unfold setState. apply ensures_bind, ensures_modify. apply ensures_bind, ensures_get.
  assert (Hr' : (∃ x, channel_ c1 = Some (x, false)) ∧ resets c1 = 1%nat).
  { destruct Hr as [[Hr _]|Hr]; [by cbn in Hr|done]. }
  destruct (connect_ (set_state kConnected c1)).
  - apply ensures_ret. constructor; try done.
    + change (starts (set_state kConnected c1)) with (starts c1). lia.
    + change (starts (set_state kConnected c1)) with (starts c1). lia.
    + intros Hp. unfold starts in Hs. change (pendingFunctors_ (set_state kConnected c1)) with (pendingFunctors_ c1) in Hp. lia.
    + change (sockets (set_state kConnected c1)) with (sockets c1). rewrite Hk. unfold current. cbn. set_solver.
    + change (sockets (set_state kConnected c1)) with (sockets c1). rewrite Hk. intros x Hx. cbn in Hlt |- *. set_solver.
    + unfold starts in Hs. change (timers (set_state kConnected c1)) with (timers c1).
      destruct (timers c1); [constructor|cbn in Hs; lia].
  - unfold close. apply ensures_bind, ensures_modify. apply ensures_ret. set (c2 := set_sockets _ _ _).
    assert (Hk2 : sockets c2 = ∅) by (change (sockets c2) with (sockets c1 ∖ {[fd]}); rewrite Hk; set_solver).
    constructor; try done.
    + change (starts c2) with (starts c1). lia.
    + change (starts c2) with (starts c1). lia.
    + intros Hp. unfold starts in Hs. change (pendingFunctors_ c2) with (pendingFunctors_ c1) in Hp. lia.
    + rewrite Hk2. set_solver.
    + unfold starts in Hs. change (timers c2) with (timers c1). destruct (timers c1); [constructor|cbn in Hs; lia].
Qed.

(** A connector that rests, seen from the invariant. *)
Lemma cinv_rests conn c :
  cinv conn c → state_ c = kDisconnected → starts c = 0%nat → resets c = 0%nat → rests c ∧ conn = None.
Proof.
  intros H Hst Hs Hr. assert (Hn : conn = None) by (destruct conn; [|done]; rewrite (v_conn _ _ H) in Hst by (by eexists); done).
  pose proof (v_channel _ _ H) as Hch. rewrite Hst in Hch. pose proof (v_sockets _ _ H) as Hk. unfold current in Hk.
  rewrite Hst, Hn in Hk. split; [|done]. constructor; try done.
  - destruct Hch as [[? _]|[_ ?]]; [done|congruence].
  - apply H.
Qed.

(** Functors that come and go. *)
Lemma counted f l :
  count FStartInLoop (f :: l) = (match f with FStartInLoop => 1 | _ => 0 end + count FStartInLoop l)%nat ∧
  count FResetChannel (f :: l) = (match f with FResetChannel => 1 | _ => 0 end + count FResetChannel l)%nat.
Proof. rewrite !functor_count_cons. by destruct f. Qed.

Lemma same_counts conn c l :
  cinv conn c → count FStartInLoop l = count FStartInLoop (pendingFunctors_ c) →
  count FResetChannel l = count FResetChannel (pendingFunctors_ c) → cinv conn (set_pending l c).
Proof.
  intros [] Hs Hr. unfold starts, resets in *. constructor; cbn; unfold starts, resets; cbn; rewrite ?Hs, ?Hr; done.
Qed.

Lemma stop_counts l :
  count FStartInLoop (l ++ [FStopInLoop]) = count FStartInLoop l ∧ count FResetChannel (l ++ [FStopInLoop]) = count FResetChannel l.
Proof. rewrite !functor_count_app. change (count _ [FStopInLoop]) with 0%nat. change (count FResetChannel [FStopInLoop]) with 0%nat. lia. Qed.

Lemma functor_ok conn c f fs r :
  cinv conn c → pendingFunctors_ c = f :: fs → ensures (call_functor f r) (set_pending fs c) (λ _, cinv conn).
Proof.
  intros H Hp. pose proof (v_starts _ _ H) as Hs. unfold starts in Hs. rewrite Hp in Hs.
  destruct (counted f fs) as [Hcs Hcr]. rewrite Hcs in Hs. destruct f; cbn in Hcs, Hcr, Hs; cbn [call_functor].
  - destruct (v_idle _ _ H) as [Hst ->]; [unfold starts; rewrite Hp; lia|].
    destruct (v_first _ _ H) as [Hch Hr]; [rewrite Hp; lia|]. unfold resets in Hr. rewrite Hp, Hcr in Hr.
    apply startInLoop_ok. pose proof (v_sockets _ _ H) as Hk. unfold current in Hk. rewrite Hst in Hk. constructor; try done.
    + unfold starts. cbn. lia.
    + apply H.
  - apply stopInLoop_ok, same_counts; rewrite ?Hp; done.
  - unfold resetChannel. apply ensures_modify. unfold starts, resets in *.
    pose proof (v_channel _ _ H) as Hch. pose proof (v_sockets _ _ H) as Hk. unfold current, resets in Hch, Hk.
    rewrite Hp, Hcr in Hch.
    assert (Hst : state_ c ≠ kConnecting) by (intros Hst; rewrite Hst in Hch; destruct Hch as [_ ?]; lia).
    assert (Hr : count FResetChannel fs = 0%nat) by (destruct (state_ c); [|done|]; destruct Hch as [[_ ?]|[_ ?]]; lia).
    pose proof (v_idle _ _ H) as Hi. pose proof (v_stuck _ _ H) as Hu. unfold starts in Hi, Hu. rewrite Hp, Hcs in Hi, Hu.
    constructor; unfold starts, resets; cbn; try done; try apply H.
    + destruct (state_ c); [by left|done|by left].
    + rewrite Hk. unfold current. cbn. by destruct (state_ c).
Qed.

Lemma idle_functor c f fs :
  rests c → pendingFunctors_ c = f :: fs → f = FStopInLoop ∧ rests (set_pending fs c).
Proof.
  intros [Hs Hst Hch Hr Hk Hd] Hp. unfold starts, resets in *. rewrite Hp in Hs, Hr.
  destruct (counted f fs) as [Hcs Hcr]. rewrite Hcs in Hs. rewrite Hcr in Hr.
  destruct f; cbn in Hs, Hr; try lia. split; [done|]. constructor; unfold starts, resets; cbn; done.
Qed.

Lemma restart_ok fd c r :
  cinv (Some fd) c → resets c = 0%nat →
  cinv None (set_sockets (sockets c ∖ {[fd]}) (nextSocket c) c) ∧
  ensures (restart r) (set_sockets (sockets c ∖ {[fd]}) (nextSocket c) c) (λ _, cinv None).
Proof.
  intros H Hr. pose proof (v_conn _ _ H (mk_is_Some _ _ eq_refl)) as Hst.
  assert (Hs : starts c = 0%nat).
  { destruct (starts c) eqn:Hs; [done|]. destruct (v_idle _ _ H) as [? _]; [lia|congruence]. }
  pose proof (v_sockets _ _ H) as Hk. unfold current in Hk. rewrite Hst in Hk.
  assert (Hk' : sockets c ∖ {[fd]} = ∅) by (rewrite Hk; set_solver).
  pose proof (v_channel _ _ H) as Hch. rewrite Hst in Hch.
  assert (Hch' : channel_ c = None) by (destruct Hch as [[? _]|[_ ?]]; [done|congruence]).
  rewrite Hk'. split.
  - unfold starts, resets in *. constructor; unfold starts, resets; cbn; rewrite ?Hst; try done; try apply H; try lia.
    unfold current. cbn. rewrite Hst. set_solver.
  - unfold restart, setState. apply ensures_bind, ensures_modify. apply ensures_bind, ensures_modify.
    apply ensures_bind, ensures_modify. apply startInLoop_ok. constructor; done.
Qed.

End ConnectorFacts.
