(* ===== verification/TcpClient.v ===== *)
(** * TcpClient.cc (muduo/net): a connection that is made again

    TcpClient owns a connector and the connection that it makes, and starts the
    connector again when the connection is closed, if the user wants that.  Steps
    are what the loop thread does (a functor, a timer, an event of the socket, the
    close callback of the connection) and the calls of the user from any thread. *)
From S2P Require Import Prelude Hoare Connector.

Module TcpClient.
Import Connector.

Record client := Client {
  connector_ : connector;
  retry_ : bool;
  clientConnect_ : bool;         (** connect_ of TcpClient *)
  connection_ : option Z;        (** by its socket *)
  nextConnId_ : Z;
  connects : nat                 (** calls of connect() *)
}.

Definition io (A : Type) : Type := act client Empty_set A.

Definition on_connector {A} (m : Connector.io A) : io A := λ s,
  let '(a, c) := m (connector_ s) in
  (a, Client c (retry_ s) (clientConnect_ s) (connection_ s) (nextConnId_ s) (connects s)).

Definition init : client := Client Connector.init false true None 1 0.

(** ** TcpClient.cc *)

Definition connect (inLoop : bool) (r : connect_result) : io () :=
  modify (λ s, Client (connector_ s) (retry_ s) true (connection_ s) (nextConnId_ s) (S (connects s))) ;;;
  on_connector (start inLoop r).

Definition enableRetry : io () :=
  modify (λ s, Client (connector_ s) true (clientConnect_ s) (connection_ s) (nextConnId_ s) (connects s)).

(** The connection is shut down, which does not concern the connector. *)
Definition disconnect : io () :=
  modify (λ s, Client (connector_ s) (retry_ s) false (connection_ s) (nextConnId_ s) (connects s)).

Definition stop : io () :=
  modify (λ s, Client (connector_ s) (retry_ s) false (connection_ s) (nextConnId_ s) (connects s)) ;;;
  on_connector Connector.stop.

Definition newConnection (sockfd : Z) : io () :=
  modify (λ s, Client (connector_ s) (retry_ s) (clientConnect_ s) (Some sockfd) (nextConnId_ s + 1) (connects s)).

(** The close callback of the connection.  Its socket counts as closed here; it
    is when connectDestroyed has run and the last reference is gone. *)
Definition removeConnection (conn : Z) (r : connect_result) : io () :=
  s <- get_state ;;
  cpp_assert (bool_decide (connection_ s = Some conn)) ;;;
  put_state (Client (connector_ s) (retry_ s) (clientConnect_ s) None (nextConnId_ s) (connects s)) ;;;
  on_connector (close conn) ;;;
  (when retry_ s && clientConnect_ s do on_connector (restart r)).

(** ** Steps *)

Inductive event :=
| Connect (inLoop : bool) (r : connect_result)
| EnableRetry
| Disconnect
| Stop
| RunFunctor (r : connect_result)
| TimerFires (r : connect_result)
| SocketEvent (error writable err selfConnect : bool)
| ConnectionCloses (r : connect_result).

Definition step (e : event) : io () :=
  s <- get_state ;;
  let c := connector_ s in
  match e with
  | Connect inLoop r => connect inLoop r
  | EnableRetry => enableRetry
  | Disconnect => disconnect
  | Stop => stop
  | RunFunctor r =>
      match pendingFunctors_ c with
      | [] => act_ret ()
      | f :: fs => on_connector (modify (set_pending fs)) ;;; on_connector (call_functor f r)
      end
  | TimerFires r =>
      match timers c with
      | [] => act_ret ()
      | _ :: ts => on_connector (modify (set_timers ts)) ;;; on_connector (startInLoop r)
      end
  | SocketEvent error writable err selfConnect =>
      match channel_ c with
      | Some (_, true) =>
          o <- on_connector (handleEvent error writable err selfConnect) ;;
          match o with Some sockfd => newConnection sockfd | None => act_ret () end
      | _ => act_ret ()
      end
  | ConnectionCloses r =>
      match connection_ s with Some conn => removeConnection conn r | None => act_ret () end
  end.

(** The steps of a user who calls connect() once.  The functors of an iteration
    of the loop run before the next events: so a timer that was set in it, and
    the events of a connection that was made in it, come after resetChannel if
    the iteration is shorter than the delay of the timer.  Connector.cc itself
    does not impose this order: without it, [slow_iteration_aborts]. *)
Definition allowed (e : event) (s : client) : bool :=
  match e with
  | Connect _ _ => (connects s =? 0)%nat
  | TimerFires _ | ConnectionCloses _ => bool_decide (FResetChannel ∉ pendingFunctors_ (connector_ s))
  | _ => true
  end.

Fixpoint history (es : list event) (s : client) : option client :=
  match es with
  | [] => Some s
  | e :: es => match step e s with (Val _, s') => history es s' | _ => None end
  end.

Inductive reachable : client → Prop :=
| reach_init : reachable init
| reach_step e s s' : reachable s → allowed e s = true → step e s = (Val (), s') → reachable s'.

End TcpClient.

Module TcpClientFacts.
Import Connector ConnectorFacts TcpClient.

(** ** The client *)

Record inv (s : client) : Prop := Inv {
  c_inv : cinv (connection_ s) (connector_ s);
  c_first : connects s = 0%nat → rests (connector_ s) ∧ connect_ (connector_ s) = false ∧ connection_ s = None
}.

Lemma init_ok : inv TcpClient.init.
Proof.
  assert (H : rests Connector.init) by done. constructor; [|done]. by apply rests_cinv.
Qed.

(** A connector step inside a client step. *)
Lemma on_connector_ok {A} (m : Connector.io A) s (Q : A → connector → Prop) (Q' : A → client → Prop) :
  ensures m (connector_ s) Q →
  (∀ a c, Q a c → Q' a (Client c (retry_ s) (clientConnect_ s) (connection_ s) (nextConnId_ s) (connects s))) →
  ensures (on_connector m) s Q'.
Proof. intros (a & c & Hm & HQ) HQQ. eexists a, _. split; [unfold on_connector; by rewrite Hm|]. by apply HQQ. Qed.

Lemma inv_later conn c s rt cc n :
  cinv conn c → (connects s ≠ 0)%nat → inv (Client c rt cc conn n (connects s)).
Proof. intros H Hn. by constructor. Qed.

Lemma step_inv_ok e s : inv s → allowed e s = true → ensures (step e) s (λ _, inv).
Proof.
  intros [H Hf] Ha. unfold step. apply ensures_bind, ensures_get.
  destruct e as [inLoop r| | | |r|r|er w err self|r]; cbn [allowed] in Ha.
  - apply Nat.eqb_eq in Ha. destruct (Hf Ha) as (Hr & Hc & Hn). unfold connect. apply ensures_bind, ensures_modify.
    eapply on_connector_ok with (Q := λ _, cinv None).
    2: { intros _ c Hcn. constructor; cbn; [by rewrite Hn|done]. }
    cbn. unfold start. apply ensures_bind, ensures_modify. destruct Hr as [Hrs Hst Hch Hrr Hk Hd].
    destruct inLoop; [by apply startInLoop_ok|]. unfold queueInLoop. apply ensures_modify.
    unfold starts, resets in *. constructor; unfold starts, resets; cbn; rewrite ?functor_count_app, ?Hst; try done.
    all: change (count FStartInLoop [FStartInLoop]) with 1%nat; change (count FResetChannel [FStartInLoop]) with 0%nat; try lia; try done.
    + intros _. split; [done|lia].
    + left. split; [done|lia].
    + unfold current. cbn. rewrite Hst, Hk. set_solver.
    + rewrite Hk. set_solver.
    + destruct (timers (connector_ s)); [constructor|cbn in Hrs; lia].
  - apply ensures_modify. by constructor.
  - apply ensures_modify. by constructor.
  - unfold stop. apply ensures_bind, ensures_modify. eapply on_connector_ok with (Q := λ _ c, c = set_pending (pendingFunctors_ (connector_ s) ++ [FStopInLoop]) (set_connect false (connector_ s))).
    { unfold Connector.stop, queueInLoop. cbn. apply ensures_bind, ensures_modify. by apply ensures_modify. }
    intros _ c ->. destruct (stop_counts (pendingFunctors_ (connector_ s))) as [Hcs Hcr]. constructor; cbn.
    + apply same_counts; [|done|done]. destruct H. by constructor.
    + intros H0. destruct (Hf H0) as ([] & _ & ?). split; [|done]. unfold starts, resets in *.
      constructor; unfold starts, resets; cbn; rewrite ?Hcs, ?Hcr; done.
  - destruct (pendingFunctors_ (connector_ s)) as [|f fs] eqn:Hp; [by apply ensures_ret|].
    apply ensures_bind. eapply on_connector_ok with (Q := λ _ c, c = set_pending fs (connector_ s)); [by apply ensures_modify|].
    intros _ c ->. destruct (decide (connects s = 0%nat)) as [H0|H0].
    + destruct (Hf H0) as (Hr & Hc & Hn). destruct (idle_functor _ _ _ Hr Hp) as [-> Hr'].
      eapply on_connector_ok with (Q := λ _ c, c = set_pending fs (connector_ s)).
      { cbn [call_functor connector_]. unfold stopInLoop. apply ensures_bind, ensures_get.
        rewrite bool_decide_eq_false_2; [by apply ensures_ret|]. rewrite (r_state _ Hr'). done. }
      intros _ c ->. constructor; cbn; [|done]. rewrite Hn. apply rests_cinv; [done|cbn; by rewrite Hc].
    + eapply on_connector_ok; [by eapply functor_ok|]. cbn. intros _ c Hc. by apply (inv_later _ _ s).
  - apply bool_decide_eq_true in Ha. apply functor_count_zero in Ha.
    destruct (timers (connector_ s)) as [|t ts] eqn:Ht; [by apply ensures_ret|].
    pose proof (v_starts _ _ H) as Hs. unfold starts in Hs. rewrite Ht in Hs. cbn in Hs.
    destruct (v_idle _ _ H) as [Hst Hn]; [unfold starts; rewrite Ht; cbn; lia|].
    assert (H0 : connects s ≠ 0%nat).
    { intros H0. destruct (Hf H0) as ([Hrs _ _ _ _ _] & _). unfold starts in Hrs. rewrite Ht in Hrs. cbn in Hrs. lia. }
    apply ensures_bind. eapply on_connector_ok with (Q := λ _ c, c = set_timers ts (connector_ s)); [by apply ensures_modify|].
    intros _ c ->. eapply on_connector_ok with (Q := λ _, cinv None).
    + cbn. apply startInLoop_ok. pose proof (v_channel _ _ H) as Hch. rewrite Hst in Hch. unfold resets in Hch.
      pose proof (v_sockets _ _ H) as Hk. unfold current in Hk. rewrite Hst, Hn in Hk. constructor; cbn; try done.
      * unfold starts. cbn. lia.
      * destruct Hch as [[? _]|[_ ?]]; [done|congruence].
      * apply H.
    + intros _ c Hc. cbn. rewrite Hn. by apply (inv_later _ _ s).
  - destruct (channel_ (connector_ s)) as [[fd [|]]|] eqn:Hch; try by apply ensures_ret.
    assert (H0 : connects s ≠ 0%nat) by (intros H0; destruct (Hf H0) as ([_ _ Hr _ _ _] & _); congruence).
    assert (Hst : state_ (connector_ s) = kConnecting).
    { pose proof (v_channel _ _ H) as Hc. destruct (state_ (connector_ s)); [|done|]; destruct Hc as [[Hc _]|[[x Hc] _]]; congruence. }
    apply ensures_bind.
    eapply on_connector_ok with (Q := λ o, cinv (match o with Some fd => Some fd | None => connection_ s end)).
    + unfold handleEvent. apply ensures_bind.
      assert (He : ensures (if er then handleError else act_ret ()) (connector_ s) (λ _ c, cinv (connection_ s) c ∧ state_ c ≠ kConnected)).
      { destruct er; [|apply ensures_ret; split; [done|by rewrite Hst]].
        eapply ensures_weaken; [by apply handleError_ok|]. cbv beta. intros _ c [Hc [[Hc' _]|Hc']]; (split; [done|]); rewrite Hc', ?Hst; done. }
      eapply ensures_weaken; [exact He|]. cbv beta. intros _ c [Hc Hcs]. destruct w; [by apply handleWrite_ok|by apply ensures_ret].
    + intros o c Hc. destruct o as [x|].
      * apply ensures_modify. cbn. by apply (inv_later _ _ s).
      * apply ensures_ret. by apply (inv_later _ _ s).
  - apply bool_decide_eq_true in Ha. apply functor_count_zero in Ha.
    destruct (connection_ s) as [fd|] eqn:Hn; [|apply ensures_ret; constructor; rewrite Hn; done].
    assert (H0 : connects s ≠ 0%nat) by (intros H0; destruct (Hf H0) as (_ & _ & ?); congruence).
    destruct (restart_ok fd _ r H Ha) as [H1 H2].
    unfold removeConnection. apply ensures_bind, ensures_get. apply ensures_bind, ensures_assert; [by apply bool_decide_eq_true_2|].
    apply ensures_bind, ensures_put. apply ensures_bind.
    eapply on_connector_ok with (Q := λ _ c, c = set_sockets (sockets (connector_ s) ∖ {[fd]}) (nextSocket (connector_ s)) (connector_ s));
      [by apply ensures_modify|].
    intros _ c ->. cbn. destruct (retry_ s && clientConnect_ s).
    + eapply on_connector_ok; [exact H2|]. cbn. intros _ c Hc. by apply (inv_later _ _ s).
    + apply ensures_ret. by apply (inv_later _ _ s).
Qed.

Lemma client_reachable_inv s : reachable s → inv s.
Proof.
  induction 1 as [|e s s' _ IH Ha Hs]; [apply init_ok|].
  by apply (ensures_val _ _ _ _ _ (step_inv_ok e s IH Ha) Hs).
Qed.

(** C11: In every history of a user who calls connect() once, in which no retry
    timer fires and no new connection closes while resetChannel is still queued
    ([allowed]; an iteration of the loop that lasts as long as the timer breaks
    this and fails an assertion, [slow_iteration_aborts]), the next step
    returns: no assertion of Connector or TcpClient fails.  The open sockets are
    the one that is being connected and that of the connection, so none leaks;
    there is a connection only in the state kConnected.  As long as the connector
    is to connect, it does not get stuck: while it is disconnected, and connect(2)
    has not failed for good, exactly one functor or timer will start it.  The n-th
    retry waits for 500 * 2^n milliseconds, at most 30 seconds. *)
Theorem tcp_client_keeps_connecting s :
  reachable s →
  (∀ e, allowed e s = true → ∃ s', step e s = (Val (), s')) ∧
  sockets (connector_ s) = current (connector_ s) ∪ match connection_ s with Some fd => {[fd]} | None => ∅ end ∧
  (is_Some (connection_ s) → state_ (connector_ s) = kConnected) ∧
  (connect_ (connector_ s) = true → state_ (connector_ s) = kDisconnected → gaveUp (connector_ s) = false →
   starts (connector_ s) = 1%nat) ∧
  Forall (λ d, ∃ n, retries (connector_ s) = S n ∧ d = delay n) (timers (connector_ s)).
Proof.
  intros Hr. apply client_reachable_inv in Hr as Hi. pose proof Hi as [H _]. split_and!; [|apply H..].
  intros e Ha. destruct (step_inv_ok e s Hi Ha) as ([] & s' & Hs & _). by exists s'.
Qed.

(** Refused twice, then connected, closed by the server, and connected again. *)
Definition sample : list event :=
  [EnableRetry; Connect false InProgress; RunFunctor TryAgain; TimerFires InProgress; SocketEvent true true true false;
   RunFunctor InProgress; TimerFires InProgress; SocketEvent false true false false; RunFunctor InProgress;
   ConnectionCloses InProgress].

Fixpoint all_allowed (es : list event) (s : client) : bool :=
  match es with
  | [] => true
  | e :: es => allowed e s && match step e s with (Val _, s') => all_allowed es s' | _ => false end
  end.

Lemma history_reachable es s s' : reachable s → all_allowed es s = true → history es s = Some s' → reachable s'.
Proof.
  revert s. induction es as [|e es IH]; intros s Hr Ha Hh; cbn [history all_allowed] in *; [by simplify_eq|].
  apply andb_true_iff in Ha as [Ha1 Ha2]. destruct (step e s) as [[[]| | |] s1] eqn:Hs; try done.
  eapply IH; [|exact Ha2|exact Hh]. by eapply reach_step.
Qed.

Lemma tcp_client_keeps_connecting_witness :
  ∃ s, history sample TcpClient.init = Some s ∧ state_ (connector_ s) = kConnecting ∧ sockets (connector_ s) = {[3]} ∧
  ∀ e, allowed e s = true → ∃ s', step e s = (Val (), s').
Proof.
  destruct (history sample TcpClient.init) as [s|] eqn:Hs; [|by vm_compute in Hs].
  exists s. split; [reflexivity|].
  split; [vm_compute in Hs; injection Hs as <-; reflexivity|].
  split; [vm_compute in Hs; injection Hs as <-; vm_compute; reflexivity|].
  exact (proj1 (tcp_client_keeps_connecting s (history_reachable sample _ _ reach_init eq_refl Hs))).
Defined.

(** ** A second connect *)

(** stop() leaves the timer of a retry: after another connect() it finds the
    connector connecting, and the assertion of startInLoop fails. *)
Theorem connect_after_stop_aborts :
  ∃ s, history [Connect true TryAgain; Stop; RunFunctor InProgress; Connect true InProgress] TcpClient.init = Some s ∧
       (step (TimerFires InProgress) s).1 = Abort.
Proof. eexists. split; [vm_compute; reflexivity|vm_compute; reflexivity]. Qed.

(** stop() and connect() of another thread: startInLoop runs before the functor
    that resets the channel. *)
Theorem stop_and_connect_aborts :
  ∃ s, history [Connect true InProgress; Stop; Connect false InProgress; RunFunctor InProgress] TcpClient.init = Some s ∧
       (step (RunFunctor InProgress) s).1 = Abort.
Proof. eexists. split; [vm_compute; reflexivity|vm_compute; reflexivity]. Qed.

(** connect() while connecting. *)
Theorem connect_twice_aborts :
  ∃ s, history [Connect true InProgress] TcpClient.init = Some s ∧ (step (Connect true InProgress) s).1 = Abort.
Proof. eexists. split; [vm_compute; reflexivity|vm_compute; reflexivity]. Qed.

(** The timer of a retry in the iteration of the loop that set it, if that lasts
    for the half second. *)
Theorem slow_iteration_aborts :
  ∃ s, history [Connect true InProgress; SocketEvent false true true false] TcpClient.init = Some s ∧
       allowed (TimerFires InProgress) s = false ∧ (step (TimerFires InProgress) s).1 = Abort.
Proof. eexists. split; [vm_compute; reflexivity|split; vm_compute; reflexivity]. Qed.

End TcpClientFacts.
