(* ===== verification/EventLoopThreadPool.v ===== *)
(** * EventLoopThreadPool.cc (muduo/net)

    The loops of a server: loop 0 is [baseLoop_], which the server's own thread
    runs, and loop [i] is that of the [i]-th thread.  [inits_] lists the loops on
    which the thread's callback has been called.  The start of a thread counts as
    one step: startLoop() returns when the thread has called the callback and
    entered its loop. *)
From S2P Require Import Prelude Hoare.

Module EventLoopThreadPool.

Record pool := Pool {
  started_ : bool;
  numThreads_ : Z;
  next_ : Z;
  loops_ : list nat;
  inits_ : list nat
}.

Definition io (A : Type) : Type := act pool Empty_set A.

Definition baseLoop_ : nat := 0.

Definition construct : pool := Pool false 0 0 [] [].

Definition setThreadNum (numThreads : Z) : io () :=
  modify (λ p, Pool (started_ p) numThreads (next_ p) (loops_ p) (inits_ p)).

(** EventLoop::assertInLoopThread *)
Definition assertInLoopThread (here loop : nat) : io () := cpp_assert (here =? loop)%nat.

(** EventLoopThread::startLoop, and the rest of the body of the loop. *)
Definition startThread (cb : bool) (i : nat) : io () :=
  modify (λ p, Pool (started_ p) (numThreads_ p) (next_ p) (loops_ p ++ [i])
                    (if cb then inits_ p ++ [i] else inits_ p)).

(** [here] is the thread that calls; [cb] tells whether there is a callback. *)
Definition start (here : nat) (cb : bool) : io () :=
  p <- get_state ;;
  cpp_assert (negb (started_ p)) ;;;
  assertInLoopThread here baseLoop_ ;;;
  put_state (Pool true (numThreads_ p) (next_ p) (loops_ p) (inits_ p)) ;;;
  act_mapM_ (startThread cb) (seq 1 (Z.to_nat (numThreads_ p))) ;;;
  (when (numThreads_ p =? 0) && cb do
     modify (λ p, Pool (started_ p) (numThreads_ p) (next_ p) (loops_ p) (inits_ p ++ [baseLoop_]))).

Definition set_next (n : Z) : io () :=
  modify (λ p, Pool (started_ p) (numThreads_ p) n (loops_ p) (inits_ p)).

Definition loop_at (i : Z) : io nat :=
  p <- get_state ;;
  match zget (loops_ p) i with Some l => act_ret l | None => undefined end.

Definition getNextLoop (here : nat) : io nat :=
  assertInLoopThread here baseLoop_ ;;;
  p <- get_state ;;
  cpp_assert (started_ p) ;;;
  match loops_ p with
  | [] => act_ret baseLoop_
  | _ =>
      loop <- loop_at (next_ p) ;;
      set_next (next_ p + 1) ;;;
      (when zlen (loops_ p) <=? next_ p + 1 do set_next 0) ;;;
      act_ret loop
  end.

Definition getLoopForHash (here : nat) (hashCode : Z) : io nat :=
  assertInLoopThread here baseLoop_ ;;;
  p <- get_state ;;
  match loops_ p with
  | [] => act_ret baseLoop_
  | _ => loop_at (hashCode mod zlen (loops_ p))
  end.

Definition getAllLoops (here : nat) : io (list nat) :=
  assertInLoopThread here baseLoop_ ;;;
  p <- get_state ;;
  cpp_assert (started_ p) ;;;
  act_ret (match loops_ p with [] => [baseLoop_] | _ => loops_ p end).

(** ** Facts *)

(** After [k] calls of getNextLoop() on a pool of [n] threads. *)
Definition next_loop (n k : nat) : nat := match n with O => O | _ => S (k mod n) end.

Record ready (n k : nat) (p : pool) : Prop := Ready {
  r_started : started_ p = true;
  r_loops : loops_ p = seq 1 n;
  r_next : next_ p = Z.of_nat (pred (next_loop n k))
}.

Lemma threads_started cb ns p :
  ensures (act_mapM_ (startThread cb) ns) p
    (λ _ p', p' = Pool (started_ p) (numThreads_ p) (next_ p) (loops_ p ++ ns) (if cb then inits_ p ++ ns else inits_ p)).
Proof.
  revert p. induction ns as [|i ns IH]; intros p.
  - apply ensures_ret. destruct p, cb; cbn; by rewrite ?app_nil_r.
  - apply ensures_bind, ensures_modify. eapply ensures_weaken; [apply IH|]. cbn. intros _ p' ->.
    destruct cb; by rewrite <-!(assoc_L (++)).
Qed.

(** start() in the loop thread starts the threads that were asked for, and the
    callback is called once for each loop that does the work. *)
Lemma start_ok cb p :
  started_ p = false → loops_ p = [] → inits_ p = [] → next_ p = 0 → 0 <= numThreads_ p →
  ensures (start 0 cb) p (λ _ p', let n := Z.to_nat (numThreads_ p) in
    ready n 0 p' ∧ numThreads_ p' = numThreads_ p ∧
    inits_ p' = if cb then (match n with O => [0%nat] | _ => seq 1 n end) else []).
Proof.
  intros Hs Hl Hi Hx Hn. unfold start. apply ensures_bind, ensures_get.
  apply ensures_bind, ensures_assert; [by rewrite Hs|]. apply ensures_bind, ensures_assert; [done|].
  apply ensures_bind, ensures_put. apply ensures_bind. eapply ensures_weaken; [apply threads_started|].
  cbn. intros _ p' ->. rewrite Hl, Hi, Hx.
  assert (Hr : ∀ i, ready (Z.to_nat (numThreads_ p)) 0 (Pool true (numThreads_ p) 0 (seq 1 (Z.to_nat (numThreads_ p))) i)).
  { intros i. split; cbn [started_ loops_ next_]; try done.
    destruct (Z.to_nat (numThreads_ p)) as [|m]; [done|]. cbn [next_loop pred]. by rewrite Nat.Div0.mod_0_l. }
  destruct (Z.eqb_spec (numThreads_ p) 0) as [E|E], cb; cbn [andb app].
  1: apply ensures_modify. 2-4: apply ensures_ret.
  all: split; [apply Hr|split; [done|]]; cbn; try done.
  - by rewrite E.
  - destruct (Z.to_nat (numThreads_ p)) eqn:E'; [lia|done].
Qed.

(** The loops take turns. *)
Lemma getNextLoop_ok n k p :
  ready n k p → ensures (getNextLoop 0) p (λ l p', l = next_loop n k ∧ ready n (S k) p' ∧ numThreads_ p' = numThreads_ p).
Proof.
  intros [Hs Hl Hn]. unfold getNextLoop. apply ensures_bind, ensures_assert; [done|].
  apply ensures_bind, ensures_get. apply ensures_bind, ensures_assert; [done|]. rewrite Hl.
  destruct n as [|n]; [apply ensures_ret; cbn; split_and!; try done; split; done|].
  cbn [next_loop pred] in *. cbn [seq]. change (1%nat :: seq 2 n) with (seq 1 (S n)).
  pose proof (Nat.mod_upper_bound k (S n) ltac:(done)) as Hk.
  apply ensures_bind. unfold loop_at. apply ensures_bind, ensures_get. rewrite Hl, Hn. unfold zget.
  rewrite (proj2 (Z.ltb_ge _ 0)) by lia. rewrite Nat2Z.id, lookup_seq_lt by done.
  apply ensures_ret. apply ensures_bind, ensures_modify. cbn [started_ numThreads_ loops_ inits_].
  assert (Hnext : (S k mod S n = if S n <=? S (k mod S n) then 0 else S (k mod S n))%nat).
  { rewrite <-Nat.add_1_l, <-Nat.Div0.add_mod_idemp_r. rewrite Nat.add_1_l. destruct (Nat.leb_spec (S n) (S (k mod S n))).
    - replace (S (k mod S n)) with (S n) by lia. apply Nat.Div0.mod_same.
    - by apply Nat.mod_small. }
  unfold zlen. rewrite length_seq.
  destruct (Z.leb_spec (Z.of_nat (S n)) (Z.of_nat (k mod S n) + 1)).
  - apply ensures_bind, ensures_modify, ensures_ret. split_and!; try done. split; cbn [started_ numThreads_ loops_ inits_ next_ next_loop pred]; try done.
    rewrite Hnext. by rewrite (proj2 (Nat.leb_le _ _)) by lia.
  - apply ensures_bind, ensures_ret, ensures_ret. split_and!; try done. split; cbn [started_ numThreads_ loops_ inits_ next_ next_loop pred]; try done.
    rewrite Hnext. rewrite (proj2 (Nat.leb_gt _ _)) by lia. lia.
Qed.

Lemma next_loop_bound n k : (next_loop n k ≤ n)%nat.
Proof.
  unfold next_loop. destruct n as [|n]; [done|]. pose proof (Nat.mod_upper_bound k (S n) ltac:(done)). lia.
Qed.

End EventLoopThreadPool.
