(* ===== verification/TcpServer.v ===== *)
(** * TcpServer.cc and Acceptor.cc (muduo/net)

    A server accepts connections in its own loop (loop 0) and gives each to one of
    the loops of its pool, in turn.  The connections are those of [TcpConnection];
    [members] holds all that were ever made, by the number in their name, each with
    the steps it has taken.  [pending] is what the loops have been given to run,
    in the order of the calls: loop [l] runs the entries tagged [l], first to last.

    A connection that is closed calls [removeConnection] in the thread of its loop,
    the server's loop takes it out of [connections_], and its own loop runs
    connectDestroyed.  A step is what one thread does between two entries of its
    queue: a functor, an event of the listening socket or of a connection, a call
    of the user.  The functors that a connection has queued for itself may come
    earlier or later than in the loop's one queue: all orders are steps here. *)
From S2P Require Import Prelude Printf StdMap NetBuffer TcpConnection TcpConnectionFacts EventLoopThreadPool.

Module Acceptor.

(** [descriptors]: the open files of the acceptor. *)
Record acceptor := Acceptor {
  acceptChannel_ : Channel.channel;
  listenning_ : bool;
  idleFd_ : Z;
  descriptors : gset Z
}.

Definition io (A : Type) : Type := act acceptor Empty_set A.

(** The sockets and the idle descriptor as the system calls return them. *)
Definition create (sockfd idle : Z) : acceptor :=
  Acceptor (Channel.Channel Channel.kNoneEvent false) false idle {[sockfd; idle]}.

Definition listen : io () :=
  modify (λ a, Acceptor (Channel.enableReading (acceptChannel_ a)) true (idleFd_ a) (descriptors a)).

Inductive accept_result := AcceptOk (connfd : Z) | AcceptError (emfile : bool).

Definition close (fd : Z) : io () :=
  modify (λ a, Acceptor (acceptChannel_ a) (listenning_ a) (idleFd_ a) (descriptors a ∖ {[fd]})).

(** What a call that makes a descriptor has returned: -1 for none. *)
Definition set_idle (fd : Z) : io () :=
  modify (λ a, Acceptor (acceptChannel_ a) (listenning_ a) fd
                        (if 0 <=? fd then {[fd]} ∪ descriptors a else descriptors a)).

(** [accepted] is what accept(2) returns on the descriptor that was kept idle,
    [reopened] what open(2) returns.  The result is the socket of a new
    connection: the server always sets the callback for it. *)
Definition handleRead (r : accept_result) (accepted reopened : Z) : io (option Z) :=
  match r with
  | AcceptOk connfd => act_ret (Some connfd)
  | AcceptError emfile =>
      (when emfile do
         (a <- get_state ;; close (idleFd_ a) ;;;
          set_idle accepted ;;;
          a <- get_state ;; close (idleFd_ a) ;;;
          set_idle reopened)) ;;;
      act_ret None
  end.

End Acceptor.

Module TcpServer.
Import EventLoopThreadPool.

(** [trace]: the steps of the connection so far. *)
Record member := Member {
  name_ : list Z;
  ioLoop : nat;
  object : TcpConnection.conn;
  trace : list TcpConnection.event
}.

(** Connections by their number. *)
Inductive functor :=
| FListen
| FConnectEstablished (id : Z)
| FRemoveConnection (id : Z)
| FConnectDestroyed (id : Z).
#[global] Instance functor_eq_dec : EqDecision functor.
Proof. solve_decision. Defined.

Record server := Server {
  acceptor_ : Acceptor.acceptor;
  threadPool_ : pool;
  started : bool;
  nextConnId_ : Z;
  connections_ : list (list Z * Z);
  members : gmap Z member;
  pending : list (nat * functor);
  alive : bool
}.

Definition io (A : Type) : Type := act server Empty_set A.

Definition set_acceptor a s := Server a (threadPool_ s) (started s) (nextConnId_ s) (connections_ s) (members s) (pending s) (alive s).
Definition set_pool p s := Server (acceptor_ s) p (started s) (nextConnId_ s) (connections_ s) (members s) (pending s) (alive s).
Definition set_started b s := Server (acceptor_ s) (threadPool_ s) b (nextConnId_ s) (connections_ s) (members s) (pending s) (alive s).
Definition set_nextConnId n s := Server (acceptor_ s) (threadPool_ s) (started s) n (connections_ s) (members s) (pending s) (alive s).
Definition set_connections c s := Server (acceptor_ s) (threadPool_ s) (started s) (nextConnId_ s) c (members s) (pending s) (alive s).
Definition set_members m s := Server (acceptor_ s) (threadPool_ s) (started s) (nextConnId_ s) (connections_ s) m (pending s) (alive s).
Definition set_pending q s := Server (acceptor_ s) (threadPool_ s) (started s) (nextConnId_ s) (connections_ s) (members s) q (alive s).
Definition set_alive b s := Server (acceptor_ s) (threadPool_ s) (started s) (nextConnId_ s) (connections_ s) (members s) (pending s) b.

(** A call on a part of the server. *)
Definition on_pool {A} (m : EventLoopThreadPool.io A) : io A := λ s,
  let '(a, p) := m (threadPool_ s) in (a, set_pool p s).
Definition on_acceptor {A} (m : Acceptor.io A) : io A := λ s,
  let '(a, p) := m (acceptor_ s) in (a, set_acceptor p s).

(** The functors and callbacks are bound to [this]. *)
Definition this : io () :=
  s <- get_state ;; if alive s then act_ret () else undefined.

Definition queueInLoop (l : nat) (f : functor) : io () :=
  modify (λ s, set_pending (pending s ++ [(l, f)]) s).

(** EventLoop::runInLoop, called in the thread [here]. *)
Definition runInLoop (here l : nat) (f : functor) (call : io ()) : io () :=
  if (here =? l)%nat then call else queueInLoop l f.

Definition deref (id : Z) : io member :=
  s <- get_state ;;
  match members s !! id with Some m => act_ret m | None => undefined end.

Definition is_closed (n : TcpConnection.notice) : bool :=
  match n with TcpConnection.Closed => true | _ => false end.

(** A step of a connection; the calls of its closeCallback_ are returned. *)
Definition on_member (id : Z) (e : TcpConnection.event) : io (list TcpConnection.notice) := λ s,
  match members s !! id with
  | None => (Ub, s)
  | Some m =>
      match TcpConnection.handle e (object m) with
      | (Val _, c) =>
          (Val (filter is_closed
             (drop (length (TcpConnection.notices (TcpConnection.ghost_ (object m))))
                   (TcpConnection.notices (TcpConnection.ghost_ c)))),
           set_members (<[id := Member (name_ m) (ioLoop m) c (trace m ++ [e])]> (members s)) s)
      | (Exn x, _) => (Exn x, s)
      | (Abort, _) => (Abort, s)
      | (Ub, _) => (Ub, s)
      end
  end.

(** ** TcpServer.cc *)

Definition removeConnectionInLoop (here : nat) (id : Z) : io () :=
  this ;;;
  on_pool (assertInLoopThread here baseLoop_) ;;;
  m <- deref id ;;
  s <- get_state ;;
  let n := match StdMap.find (name_ m) (connections_ s) with Some _ => 1 | None => 0 end in
  put_state (set_connections (StdMap.erase (name_ m) (connections_ s)) s) ;;;
  cpp_assert (n =? 1) ;;;
  queueInLoop (ioLoop m) (FConnectDestroyed id).

(** The close callback of a connection. *)
Definition removeConnection (here : nat) (id : Z) : io () :=
  this ;;;
  runInLoop here baseLoop_ (FRemoveConnection id) (removeConnectionInLoop here id).

(** A step of a connection in its own loop, with the close callback. *)
Definition connection_step (id : Z) (e : TcpConnection.event) : io () :=
  m <- deref id ;;
  closed <- on_member id e ;;
  act_mapM_ (λ _, removeConnection (ioLoop m) id) closed.

(** TcpConnection::connectEstablished and connectDestroyed assert that they run
    in the loop of the connection. *)
Definition connect_step (here : nat) (id : Z) (e : TcpConnection.event) : io () :=
  m <- deref id ;;
  on_pool (assertInLoopThread here (ioLoop m)) ;;;
  connection_step id e.

Section Server.
(** The name of the server and its address, the options of its connections, and
    whether there is a ThreadInitCallback. *)
Context (name ipPort : list Z) (opts : TcpConnection.options) (threadInitCallback : bool).

Definition connName (id : Z) : list Z :=
  name ++ snprintf 64 ([45] ++ ipPort ++ [35] ++ printf_d id).

Definition construct (sockfd idle : Z) : server :=
  Server (Acceptor.create sockfd idle) EventLoopThreadPool.construct false 1 [] ∅ [] true.

Definition setThreadNum (numThreads : Z) : io () :=
  cpp_assert (0 <=? numThreads) ;;;
  on_pool (EventLoopThreadPool.setThreadNum numThreads).

Definition acceptor_listen (here : nat) : io () :=
  on_pool (assertInLoopThread here baseLoop_) ;;;
  on_acceptor Acceptor.listen.

Definition start (here : nat) : io () :=
  s <- get_state ;;
  put_state (set_started true s) ;;;
  when negb (started s) do
    (on_pool (EventLoopThreadPool.start here threadInitCallback) ;;;
     s <- get_state ;;
     cpp_assert (negb (Acceptor.listenning_ (acceptor_ s))) ;;;
     runInLoop here baseLoop_ FListen (acceptor_listen here)).

Definition newConnection (here : nat) : io () :=
  on_pool (assertInLoopThread here baseLoop_) ;;;
  ioLoop <- on_pool (getNextLoop here) ;;
  s <- get_state ;;
  let id := nextConnId_ s in
  if id =? 2 ^ 31 - 1 then undefined else
  put_state (set_nextConnId (id + 1) s) ;;;
  modify (λ s, set_members (<[id := Member (connName id) ioLoop (TcpConnection.construct opts) []]> (members s)) s) ;;;
  modify (λ s, set_connections (StdMap.assign (connName id) id (connections_ s)) s) ;;;
  runInLoop here ioLoop (FConnectEstablished id) (connect_step here id TcpConnection.Established).

(** Acceptor::handleRead with the server's callback. *)
Definition acceptEvent (here : nat) (r : Acceptor.accept_result) (accepted reopened : Z) : io () :=
  connfd <- on_acceptor (Acceptor.handleRead r accepted reopened) ;;
  match connfd with Some _ => newConnection here | None => act_ret () end.

(** ~TcpServer, up to the destruction of its members. *)
Definition destroy (here : nat) : io () :=
  on_pool (assertInLoopThread here baseLoop_) ;;;
  s <- get_state ;;
  act_mapM_ (λ item : list Z * Z,
    m <- deref item.2 ;;
    runInLoop here (ioLoop m) (FConnectDestroyed item.2) (connect_step here item.2 TcpConnection.Destroyed))
    (connections_ s) ;;;
  modify (set_alive false).

(** ** Steps *)

(** EventLoop::doPendingFunctors of loop [l], one functor at a time. *)
Fixpoint take_first (l : nat) (q : list (nat * functor)) : option (functor * list (nat * functor)) :=
  match q with
  | [] => None
  | (l', f) :: q =>
      if (l =? l')%nat then Some (f, q)
      else match take_first l q with Some (g, q') => Some (g, (l', f) :: q') | None => None end
  end.

Definition call_functor (here : nat) (f : functor) : io () :=
  match f with
  | FListen => acceptor_listen here
  | FConnectEstablished id => connect_step here id TcpConnection.Established
  | FRemoveConnection id => removeConnectionInLoop here id
  | FConnectDestroyed id => connect_step here id TcpConnection.Destroyed
  end.

Definition run_functor (l : nat) : io () :=
  s <- get_state ;;
  match take_first l (pending s) with
  | Some (f, q) => put_state (set_pending q s) ;;; call_functor l f
  | None => act_ret ()
  end.

Inductive event :=
| SetThreadNum (numThreads : Z)
| Start (here : nat)
| Accept (r : Acceptor.accept_result) (accepted reopened : Z)
| Run (l : nat)
| Connection (id : Z) (e : TcpConnection.event).

Definition handle (e : event) : io () :=
  match e with
  | SetThreadNum n => setThreadNum n
  | Start here => start here
  | Accept r accepted reopened => acceptEvent baseLoop_ r accepted reopened
  | Run l => run_functor l
  | Connection id e => connection_step id e
  end.

(** The steps of a connection that the server does not make itself. *)
Definition is_own (e : TcpConnection.event) : bool :=
  match e with TcpConnection.Established | TcpConnection.Destroyed => false | _ => true end.

(** What the environment promises: the number of threads is set before start(),
    and start() is called in the server's thread the first time; the listening
    socket has events when it waits for them; there are fewer than 2^31 - 1
    connections; and a connection gets the events that it may get, with send()
    called in its loop and fewer than 2^31 - 1032 bytes in all. *)
Definition valid (s : server) (e : event) : Prop :=
  match e with
  | SetThreadNum n => 0 <= n ∧ started s = false
  | Start here => here = 0%nat ∨ started s = true
  | Accept _ _ _ => Channel.isReading (Acceptor.acceptChannel_ (acceptor_ s)) = true ∧ nextConnId_ s < 2 ^ 31 - 1
  | Run _ => True
  | Connection id e =>
      match members s !! id with
      | Some m => TcpConnection.valid (object m) e ∧ is_own e = true ∧ sends_in_loop e
                  ∧ total_growth (trace m ++ [e]) < 2 ^ 31 - 1032
      | None => False
      end
  end.

#[global] Instance sends_in_loop_dec e : Decision (sends_in_loop e).
Proof. destruct e; cbn; apply _. Defined.
#[global] Instance valid_dec s e : Decision (valid s e).
Proof. destruct e as [| | | |id e]; cbn; try apply _. destruct (members s !! id); apply _. Defined.

Inductive reachable : server → Prop :=
| reach_construct sockfd idle : reachable (construct sockfd idle)
| reach_step s e s' : reachable s → valid s e → handle e s = (Val (), s') → reachable s'.

Fixpoint run (es : list event) (s : server) : option server :=
  match es with
  | [] => Some s
  | e :: es => if bool_decide (valid s e)
               then match handle e s with (Val _, s') => run es s' | _ => None end
               else None
  end.

End Server.
End TcpServer.
