(* ===== verification/TcpServerSteps.v ===== *)
(** * The steps of TcpServer keep its invariant *)
From S2P Require Import Prelude StdMap NetBuffer Printf TcpConnection TcpConnectionFacts Hoare EventLoopThreadPool TcpServer.

(** * What TcpServer promises

    Each connection of a server is one of [TcpConnection] whose environment keeps
    its promises, and it goes through the server in one way: connected, then
    closed, then taken out of the server, then removed from its loop. *)
Import EventLoopThreadPool TcpServer.

(** ** Steps of a connection

    [evolves c c']: some callbacks were made, [k] times Down and Closed; and a
    channel that is registered stays so. *)
Module Evolution.
Import Channel TcpConnection.

Definition rounds (k : nat) : list notice := concat (replicate k [Down; Closed]).

Record evolves (k : nat) (c c' : conn) : Prop := Evolves {
  e_notices : ∃ new, notices (ghost_ c') = notices (ghost_ c) ++ new ∧ filter is_lifecycle new = rounds k;
  e_added : addedToLoop_ (channel_ c) = true → addedToLoop_ (channel_ c') = true
}.

Definition makes {A} (m : io A) : Prop := ∀ c a c', m c = (Val a, c') → ∃ k, evolves k c c'.

Lemma evolves_same c c' :
  notices (ghost_ c') = notices (ghost_ c) → addedToLoop_ (channel_ c') = addedToLoop_ (channel_ c) ∨ addedToLoop_ (channel_ c') = true →
  evolves 0 c c'.
Proof. intros Hn Ha. split; [exists []; by rewrite Hn, app_nil_r|]. destruct Ha as [-> | ->]; done. Qed.

Lemma evolves_trans k j c c' c'' : evolves k c c' → evolves j c' c'' → evolves (k + j) c c''.
Proof.
  intros [[n1 [H1 F1]] A1] [[n2 [H2 F2]] A2]. split; [|auto].
  exists (n1 ++ n2). rewrite H2, H1, (assoc_L (++)). split; [done|].
  rewrite filter_app, F1, F2. unfold rounds. by rewrite replicate_add, concat_app.
Qed.

Lemma makes_ret {A} (a : A) : makes (act_ret a).
Proof. intros c a' c' H. unfold act_ret in H. simplify_eq. exists 0%nat. apply evolves_same; auto. Qed.

Lemma makes_bind {A B} (m : io A) (f : A → io B) : makes m → (∀ a, makes (f a)) → makes (act_bind m f).
Proof.
  intros Hm Hf c b c' H. unfold act_bind in H. destruct (m c) as [[a| | |] c1] eqn:E; simplify_eq.
  destruct (Hm _ _ _ E) as [k Hk]. destruct (Hf _ _ _ _ H) as [j Hj]. exists (k + j)%nat. by eapply evolves_trans.
Qed.

Lemma makes_get : makes get_state.
Proof. intros c a c' H. unfold get_state in H. simplify_eq. exists 0%nat. apply evolves_same; auto. Qed.

Lemma makes_assert b : makes (cpp_assert b).
Proof. intros c a c' H. unfold cpp_assert in H. destruct b; simplify_eq. exists 0%nat. apply evolves_same; auto. Qed.

Lemma makes_undefined {A} : makes (A := A) undefined.
Proof. intros c a c' H. done. Qed.

Lemma makes_modify (f : conn → conn) : (∀ c, evolves 0 c (f c)) → makes (modify f).
Proof. intros Hf c a c' H. unfold modify in H. simplify_eq. by exists 0%nat. Qed.

Lemma makes_setState s : makes (setState s).
Proof. apply makes_modify. intros c. apply evolves_same; auto. Qed.
Lemma makes_set_reading b : makes (set_reading b).
Proof. apply makes_modify. intros c. apply evolves_same; auto. Qed.
Lemma makes_on_socket f : makes (on_socket f).
Proof. apply makes_modify. intros c. apply evolves_same; auto. Qed.
Lemma makes_on_loop f : makes (on_loop f).
Proof. apply makes_modify. intros c. apply evolves_same; auto. Qed.
Lemma makes_on_channel f : (∀ ch, addedToLoop_ (f ch) = true) → makes (on_channel f).
Proof. intros Hf. apply makes_modify. intros c. apply evolves_same; [done|]. right. apply Hf. Qed.
Lemma makes_on_ghost f : (∀ g, notices (f g) = notices g) → makes (on_ghost f).
Proof. intros Hf. apply makes_modify. intros c. apply evolves_same; [apply Hf|by left]. Qed.
Lemma makes_on_input {A} (m : Buffer.io A) : makes (on_input m).
Proof.
  intros c a c' H. unfold on_input in H. destruct (m (inputBuffer_ c)). simplify_eq.
  exists 0%nat. apply evolves_same; auto.
Qed.
Lemma makes_on_output {A} (m : Buffer.io A) : makes (on_output m).
Proof.
  intros c a c' H. unfold on_output in H. destruct (m (outputBuffer_ c)). simplify_eq.
  exists 0%nat. apply evolves_same; auto.
Qed.

Lemma makes_notify n : is_lifecycle n = false → makes (notify n).
Proof.
  intros Hn. apply makes_modify. intros c. split; [|done]. exists [n]. split; [done|].
  cbn. destruct n; done.
Qed.

(** handleClose makes both callbacks. *)
Lemma makes_down_closed : makes (notify Down ;;; notify Closed).
Proof.
  intros c a c' H. unfold act_bind, notify, on_ghost, modify in H. cbn in H. simplify_eq.
  exists 1%nat. split; [|done]. exists [Down; Closed]. cbn. by rewrite <-(assoc_L (++)).
Qed.

Create HintDb evolves.
#[export] Hint Resolve makes_ret makes_get makes_assert makes_undefined makes_setState makes_set_reading
  makes_on_socket makes_on_loop makes_on_input makes_on_output makes_down_closed : evolves.
#[export] Hint Extern 1 (makes (on_channel _)) => (apply makes_on_channel; done) : evolves.
#[export] Hint Extern 1 (makes (on_ghost _)) => (apply makes_on_ghost; done) : evolves.
#[export] Hint Extern 1 (makes (notify _)) => (apply makes_notify; done) : evolves.

(** Cut a body into its calls; known calls are in the hint database. *)
Ltac evolve :=
  lazymatch goal with
  | |- makes (act_bind _ _) => first [by auto with evolves | apply makes_bind; [evolve|intros ?; evolve]]
  | |- makes (match ?x with _ => _ end) => destruct x; evolve
  | |- makes _ => first [solve [auto with evolves] | progress (cbv beta; cbn zeta); evolve | idtac]
  end.

Lemma makes_handleClose : makes handleClose.
Proof. unfold handleClose. evolve. Qed.
#[export] Hint Resolve makes_handleClose : evolves.

Lemma makes_write bs w : makes (write bs w).
Proof. unfold write. evolve. Qed.
#[export] Hint Resolve makes_write : evolves.

Lemma makes_sendInLoop data w : makes (sendInLoop data w).
Proof. unfold sendInLoop, tryWrite, appendOutput, queueInLoop. evolve. Qed.
Lemma makes_shutdownInLoop : makes shutdownInLoop.
Proof. unfold shutdownInLoop. evolve. Qed.
Lemma makes_forceClose : makes forceClose.
Proof. unfold forceClose, queueInLoop. evolve. Qed.
Lemma makes_startReadInLoop : makes startReadInLoop.
Proof. unfold startReadInLoop. evolve. Qed.
Lemma makes_stopReadInLoop : makes stopReadInLoop.
Proof. unfold stopReadInLoop. evolve. Qed.
#[export] Hint Resolve makes_sendInLoop makes_shutdownInLoop makes_forceClose makes_startReadInLoop
  makes_stopReadInLoop : evolves.

Lemma makes_handleEvent revents r w : makes (handleEvent revents r w).
Proof. unfold handleEvent, handleRead, handleWrite, queueInLoop. evolve. Qed.
Lemma makes_run_functor w : makes (run_functor w).
Proof. unfold run_functor, call_functor, forceCloseInLoop. evolve. Qed.
Lemma makes_run_timer : makes run_timer.
Proof. unfold run_timer. evolve. Qed.
#[export] Hint Resolve makes_handleEvent makes_run_functor makes_run_timer : evolves.

Lemma makes_own e : is_own e = true → makes (handle e).
Proof.
  destruct e; intros He; try done; cbn [handle]; unfold send, shutdown, forceCloseWithDelay, startRead, stopRead, queueInLoop; evolve.
Qed.

End Evolution.

Module Lifecycle.
Import Channel TcpConnection Evolution.

Lemma filter_closed_rounds k new :
  filter is_lifecycle new = rounds k → filter is_closed new = replicate k Closed.
Proof.
  intros H. assert (E : filter is_closed new = filter is_closed (filter is_lifecycle new)).
  { clear H. induction new as [|x new IH]; [done|]. rewrite !filter_cons.
    destruct x; repeat case_decide; rewrite ?filter_cons; repeat case_decide; try done; by rewrite IH. }
  rewrite E, H. unfold rounds. clear. induction k as [|k IH]; [done|].
  cbn [replicate concat app]. rewrite !filter_cons. repeat case_decide; try done. by rewrite IH.
Qed.

(** Which callbacks were made tells where the connection is. *)
Lemma life_cases n c : inv n c →
  (state_ c = kConnecting ∧ lifecycle c = []) ∨
  (closing (state_ c) = true ∧ lifecycle c = [Up] ∧ addedToLoop_ (channel_ c) = true) ∨
  (state_ c = kDisconnected ∧ (lifecycle c = [Up; Down; Closed] ∨ lifecycle c = [Up; Down])).
Proof.
  intros [_ _ (q & _ & Hp)]. unfold phase in Hp. destruct (state_ c); [right; right|left|right; left..].
  - split; [done|]. apply Hp.
  - split; [done|]. apply Hp.
  - destruct Hp as [[rd ->] _ Hl _]. done.
  - destruct Hp as [[rd ->] _ Hl _]. done.
Qed.

Lemma get_bind {S E B} (f : S → act S E B) s : act_bind get_state f s = f s s.
Proof. done. Qed.
Lemma modify_bind {S E B} (g : S → S) (f : () → act S E B) s : act_bind (modify g) f s = f () (g s).
Proof. done. Qed.

(** A connection that is down leaves its channel alone. *)
Lemma down_step n c e c' :
  inv n c → state_ c = kDisconnected → valid c e → is_own e = true → handle e c = (Val (), c') →
  channel_ c' = channel_ c.
Proof.
  intros Hinv Hs Hv He Hh.
  assert (Hk : closing (state_ c) = false) by by rewrite Hs.
  assert (Hev : events_ (channel_ c) = 0).
  { destruct Hinv as [_ _ (q & _ & Hp)]. unfold phase in Hp. rewrite Hs in Hp. apply Hp. }
  destruct e as [|inLoop m w|inLoop| | |inLoop|inLoop|k|w| |revents r w|]; try done; cbn [handle valid] in *.
  - unfold send, act_bind, get_state in Hh. rewrite bool_decide_eq_false_2 in Hh by by rewrite Hs.
    cbn in Hh. unfold act_ret in Hh. by simplify_eq.
  - unfold shutdown, act_bind, get_state in Hh. rewrite bool_decide_eq_false_2 in Hh by by rewrite Hs.
    cbn in Hh. unfold act_ret in Hh. by simplify_eq.
  - unfold forceClose, act_bind, get_state in Hh. rewrite Hk in Hh. unfold act_ret in Hh. by simplify_eq.
  - unfold forceCloseWithDelay, act_bind, get_state in Hh. rewrite Hk in Hh. unfold act_ret in Hh. by simplify_eq.
  - destruct inLoop; [congruence|]. unfold startRead, queueInLoop, on_loop, modify in Hh. by simplify_eq.
  - destruct inLoop; [congruence|]. unfold stopRead, queueInLoop, on_loop, modify in Hh. by simplify_eq.
  - unfold on_input in Hh. destruct (Buffer.retrieve k (inputBuffer_ c)). by simplify_eq.
  - unfold run_functor, act_bind, get_state in Hh. destruct (pendingFunctors_ (loop_ c)) as [|f fs] eqn:Hf.
    { unfold act_ret in Hh. by simplify_eq. }
    destruct Hv as [Hr _]. set (c1 := upd_loop (λ l, Loop fs (timers_ l)) c).
    change (call_functor f w c1 = (Val (), c')) in Hh. change (state_ c) with (state_ c1) in Hs, Hk, Hr.
    change (channel_ c' = channel_ c1). clearbody c1.
    destruct f; cbn [call_functor] in Hh; try (specialize (Hr eq_refl); congruence).
    + unfold sendInLoop in Hh. rewrite get_bind, bool_decide_eq_true_2 in Hh by done. unfold act_ret in Hh. by simplify_eq.
    + unfold shutdownInLoop in Hh. rewrite get_bind in Hh.
      destruct (isWriting _); cbn in Hh; unfold act_ret, on_socket, modify in Hh; by simplify_eq.
    + unfold forceCloseInLoop in Hh. rewrite get_bind, Hk in Hh. unfold act_ret in Hh. by simplify_eq.
    + unfold notify, on_ghost, modify in Hh. by simplify_eq.
    + unfold notify, on_ghost, modify in Hh. by simplify_eq.
  - unfold run_timer in Hh. rewrite get_bind in Hh. destruct (timers_ (loop_ c)); [unfold act_ret in Hh; by simplify_eq|].
    unfold on_loop in Hh. rewrite modify_bind in Hh. unfold forceClose in Hh. rewrite get_bind in Hh.
    change (state_ (upd_loop _ c)) with (state_ c) in Hh. rewrite Hk in Hh. unfold act_ret in Hh. by simplify_eq.
  - destruct Hv as (_ & Hno & _). unfold isNoneEvent in Hno. by rewrite Hev in Hno.
Qed.

Lemma lifecycle_app c c' new :
  notices (ghost_ c') = notices (ghost_ c) ++ new → lifecycle c' = lifecycle c ++ filter is_lifecycle new.
Proof. unfold lifecycle. intros ->. by rewrite filter_app. Qed.

(** What the server sees of a step of a connection: nothing, or that it closes. *)
Record own_result (c : conn) (n : Z) (c' : conn) (closed : list notice) : Prop := OwnResult {
  o_inv : inv n c';
  o_closed : ∃ new, notices (ghost_ c') = notices (ghost_ c) ++ new ∧ filter is_closed new = closed;
  o_life : lifecycle c' = lifecycle c ∧ closed = [] ∨
           lifecycle c = [Up] ∧ lifecycle c' = [Up; Down; Closed] ∧ closed = [Closed];
  o_added : addedToLoop_ (channel_ c) = true → addedToLoop_ (channel_ c') = true;
  o_down : state_ c = kDisconnected → channel_ c' = channel_ c
}.

Lemma own_step n c e :
  inv n c → valid c e → is_own e = true → sends_in_loop e → n + growth e < 2 ^ 31 →
  ∃ c' closed, handle e c = (Val (), c') ∧ own_result c (n + growth e) c' closed.
Proof.
  intros Hinv Hv He Hl Hn. destruct (handle_inv _ _ _ Hinv Hv Hl Hn) as (c' & Hh & Hinv').
  destruct (makes_own e He _ _ _ Hh) as [k [(new & Hnew & Hf) Ha]].
  exists c', (filter is_closed new). split; [done|]. split; [done|by exists new| |done|by intros; eapply down_step].
  pose proof (lifecycle_app _ _ _ Hnew) as Hli. rewrite Hf in Hli. rewrite (filter_closed_rounds _ _ Hf).
  destruct k as [|k]; [left; by rewrite Hli, app_nil_r|right].
  pose proof (life_cases _ _ Hinv) as H1. pose proof (life_cases _ _ Hinv') as H2. unfold rounds in Hli. cbn in Hli.
  destruct H1 as [[_ E]|[(_ & E & _)|[_ [E|E]]]]; rewrite E in *; cbn in Hli;
    destruct H2 as [[_ E']|[(_ & E' & _)|[_ [E'|E']]]]; rewrite E' in Hli; try discriminate.
  destruct k; [|by cbn in Hli]. by rewrite E'.
Qed.

Lemma established_step n c :
  inv n c → lifecycle c = [] →
  ∃ c', connectEstablished c = (Val (), c') ∧ inv n c' ∧ lifecycle c' = [Up] ∧ notices (ghost_ c') = notices (ghost_ c) ++ [Up].
Proof.
  intros Hinv Hl. assert (Hs : state_ c = kConnecting).
  { destruct (life_cases _ _ Hinv) as [[? _]|[(_ & E & _)|[_ [E|E]]]]; congruence. }
  destruct (connectEstablished_inv _ _ Hinv Hs) as (c' & Hh & Hinv'). exists c'. split; [done|]. split; [done|].
  assert (Hn : notices (ghost_ c') = notices (ghost_ c) ++ [Up]).
  { unfold connectEstablished in Hh. rewrite get_bind, bool_decide_eq_true_2 in Hh by done. by injection Hh as <-. }
  split; [|done]. by rewrite (lifecycle_app _ _ _ Hn), Hl.
Qed.

Lemma destroyed_step n c :
  inv n c → state_ c = kDisconnected →
  ∃ c', connectDestroyed c = (Val (), c') ∧ inv n c' ∧ notices (ghost_ c') = notices (ghost_ c) ∧
        state_ c' = kDisconnected ∧ addedToLoop_ (channel_ c') = false.
Proof.
  intros Hinv Hs. destruct (connectDestroyed_inv _ _ Hinv (or_intror Hs)) as (c' & Hh & Hinv').
  exists c'. split; [done|]. split; [done|].
  unfold connectDestroyed in Hh. rewrite get_bind, bool_decide_eq_false_2 in Hh by by rewrite Hs.
  unfold remove_channel, Channel.remove, act_bind, get_state, cpp_assert, put_state in Hh.
  cbn in Hh. destruct (isNoneEvent (channel_ c)); [|done]. cbn in Hh. injection Hh as <-. done.
Qed.

End Lifecycle.

(** ** The invariant of TcpServer

    Where each connection is on its way through the server ([stage]), which
    functor is queued for it, and whether the server knows it. *)
Import EventLoopThreadPool TcpServer Lifecycle.

(** ** The queues *)

(** The connection that a functor is for. *)
Definition target (f : functor) : option Z :=
  match f with
  | FListen => None
  | FConnectEstablished id | FRemoveConnection id | FConnectDestroyed id => Some id
  end.

(** What is queued for connection [id], with the loops. *)
Definition queued (id : Z) (q : list (nat * functor)) : list (nat * functor) :=
  filter (λ t, target t.2 = Some id) q.

Lemma queued_app id q1 q2 : queued id (q1 ++ q2) = queued id q1 ++ queued id q2.
Proof. apply filter_app. Qed.

Lemma queued_one id l f : target f = Some id → queued id [(l, f)] = [(l, f)].
Proof. intros H. unfold queued. by rewrite filter_cons_True. Qed.

Lemma queued_other id l f : target f ≠ Some id → queued id [(l, f)] = [].
Proof. intros H. unfold queued. by rewrite filter_cons_False. Qed.

Lemma take_first_spec l q f q' :
  take_first l q = Some (f, q') → ∃ q1 q2, q = q1 ++ (l, f) :: q2 ∧ q' = q1 ++ q2.
Proof.
  revert q'. induction q as [|[l' g] q IH]; intros q' H; cbn in H; [done|].
  destruct (Nat.eqb_spec l l') as [<-|Hl]; [simplify_eq; by exists [], q'|].
  destruct (take_first l q) as [[g' q'']|]; [|done]. simplify_eq.
  destruct (IH _ eq_refl) as (q1 & q2 & -> & ->). by exists ((l', g) :: q1), q2.
Qed.

(** ** The invariant *)

Inductive stage := Connecting | Open | Closing | Removed | Gone.

Definition known (st : stage) : bool :=
  match st with Connecting | Open | Closing => true | Removed | Gone => false end.

(** What is still to be done for a connection in loop [l]. *)
Definition tokens (l : nat) (id : Z) (st : stage) : list (nat * functor) :=
  match st with
  | Connecting => [(l, FConnectEstablished id)]
  | Closing => [(baseLoop_, FRemoveConnection id)]
  | Removed => [(l, FConnectDestroyed id)]
  | Open | Gone => []
  end.

Definition life (st : stage) (c : TcpConnection.conn) : Prop :=
  match st with
  | Connecting => lifecycle c = []
  | Open => lifecycle c = [TcpConnection.Up]
  | Closing | Removed | Gone =>
      lifecycle c = [TcpConnection.Up; TcpConnection.Down; TcpConnection.Closed] ∧
      Channel.addedToLoop_ (TcpConnection.channel_ c) = match st with Gone => false | _ => true end
  end.

(** The steps that the server makes a connection take. *)
Definition calls (es : list TcpConnection.event) : list TcpConnection.event := filter (λ e, is_own e = false) es.
Definition expected (st : stage) : list TcpConnection.event :=
  match st with
  | Connecting => []
  | Gone => [TcpConnection.Established; TcpConnection.Destroyed]
  | _ => [TcpConnection.Established]
  end.

Section Inv.
Context (name ipPort : list Z) (opts : TcpConnection.options) (threadInitCallback : bool).
Abbreviation connName := (connName name ipPort).

Record history (m : member) : Prop := History {
  h_execs : TcpConnection.execs (TcpConnection.construct opts) (trace m) (object m);
  h_sends : Forall sends_in_loop (trace m);
  h_growth : total_growth (trace m) < 2 ^ 31 - 1032
}.

(** Connection [id] of a server with [n] threads. *)
Record member_ok (n : nat) (q : list (nat * functor)) (cs : list (list Z * Z)) (id : Z) (m : member) (st : stage) : Prop := MemberOk {
  m_history : history m;
  m_name : name_ m = connName id;
  m_loop : ioLoop m = next_loop n (Z.to_nat (id - 1));
  m_life : life st (object m);
  m_calls : calls (trace m) = expected st;
  m_queued : queued id q = tokens (ioLoop m) id st;
  m_known : StdMap.find (connName id) cs = if known st then Some id else None
}.

Definition members_ok (n : nat) (next : Z) (ms : gmap Z member) (q : list (nat * functor)) (cs : list (list Z * Z)) : Prop :=
  (∀ id, is_Some (ms !! id) ↔ 1 <= id < next) ∧
  (∀ id m, ms !! id = Some m → ∃ st, member_ok n q cs id m st) ∧
  Forall (λ t, ∃ id, target t.2 = Some id ∧ is_Some (ms !! id)) q ∧
  StdMap.sorted cs ∧
  (∀ k id, StdMap.find k cs = Some id → k = connName id ∧ is_Some (ms !! id)).

Record inv (n : nat) (s : server) : Prop := Inv {
  i_alive : alive s = true;
  i_next : 1 <= nextConnId_ s < 2 ^ 31;
  i_pool : if started s then ready n (Z.to_nat (nextConnId_ s - 1)) (threadPool_ s)
           else started_ (threadPool_ s) = false ∧ loops_ (threadPool_ s) = [] ∧ inits_ (threadPool_ s) = [] ∧
                next_ (threadPool_ s) = 0 ∧ 0 <= numThreads_ (threadPool_ s) ∧ n = Z.to_nat (numThreads_ (threadPool_ s)) ∧
                nextConnId_ s = 1 ∧ Acceptor.listenning_ (acceptor_ s) = false ∧
                Channel.isReading (Acceptor.acceptChannel_ (acceptor_ s)) = false;
  i_members : members_ok n (nextConnId_ s) (members s) (pending s) (connections_ s)
}.

(** *** The names *)

(** The address with its port has at most 45 + 1 + 5 characters: the buffer of
    64 bytes has just enough room for it and the number. *)
Hypothesis ipPort_short : (length ipPort ≤ 51)%nat.

Lemma connName_inj id j : 0 <= id < 2 ^ 31 → 0 <= j < 2 ^ 31 → connName id = connName j → id = j.
Proof.
  intros Hi Hj E. unfold TcpServer.connName in E. apply app_inv_head in E. unfold snprintf in E.
  pose proof (printf_d_int id Hi). pose proof (printf_d_int j Hj).
  rewrite !take_ge in E by (rewrite !length_app; cbn [length]; lia).
  rewrite !(assoc_L (++)) in E. apply app_inv_head in E. apply printf_d_inj; [lia..|done].
Qed.

(** *** One member changes *)

Lemma member_history_inv m : history m → TcpConnectionFacts.inv (1032 + total_growth (trace m)) (object m).
Proof. intros [H1 H2 H3]. by eapply execs_inv. Qed.

Lemma members_update n next ms q cs id m m' st' q' cs' :
  members_ok n next ms q cs → next <= 2 ^ 31 → ms !! id = Some m →
  member_ok n q' cs' id m' st' →
  (∀ j, j ≠ id → queued j q' = queued j q) →
  (∀ j, 1 <= j < next → j ≠ id → StdMap.find (connName j) cs' = StdMap.find (connName j) cs) →
  Forall (λ t, ∃ j, target t.2 = Some j ∧ is_Some (ms !! j)) q' →
  StdMap.sorted cs' →
  (∀ k j, StdMap.find k cs' = Some j → k = connName j ∧ is_Some (ms !! j)) →
  members_ok n next (<[id := m']> ms) q' cs'.
Proof.
  intros (Hd & Hm & Hq & Hs & Hf) Hn Hid Hok Hq' Hcs Hall Hsort Hfind.
  assert (Hsome : ∀ j, is_Some (<[id:=m']> ms !! j) ↔ is_Some (ms !! j)).
  { intros j. destruct (decide (j = id)) as [->|Hj]; [rewrite lookup_insert_eq, Hid|rewrite lookup_insert_ne by done]; naive_solver. }
  split_and!.
  - intros j. by rewrite Hsome.
  - intros j mj Hj. destruct (decide (j = id)) as [->|Hne].
    + rewrite lookup_insert_eq in Hj. simplify_eq. by exists st'.
    + rewrite lookup_insert_ne in Hj by done. destruct (Hm j mj Hj) as [st [H1 H2 H3 H4 H5 H6 H7]].
      assert (1 <= j < next) by (apply Hd; by exists mj).
      exists st. split; [done..| |]; [by rewrite Hq'|by rewrite Hcs].
  - eapply Forall_impl; [exact Hall|]. cbn. intros t (j & Hj & Hsj). exists j. by rewrite Hsome.
  - done.
  - intros k j Hk. rewrite Hsome. by apply Hfind.
Qed.

End Inv.

Import EventLoopThreadPool TcpServer Lifecycle.

(** ** What the calls do *)

Lemma on_pool_ok {A} (m : EventLoopThreadPool.io A) s (Q : A → pool → Prop) (Q' : A → server → Prop) :
  ensures m (threadPool_ s) Q → (∀ a p, Q a p → Q' a (set_pool p s)) → ensures (on_pool m) s Q'.
Proof. intros (a & p & Hm & HQ) HQ'. eexists a, _. split; [unfold on_pool; by rewrite Hm|]. auto. Qed.

Lemma in_loop_ok here l s (Q : () → server → Prop) : here = l → Q () s → ensures (on_pool (assertInLoopThread here l)) s Q.
Proof.
  intros -> HQ. eapply on_pool_ok with (Q := λ _ p, p = threadPool_ s); [apply ensures_assert; [apply Nat.eqb_refl|done]|].
  intros [] p ->. by destruct s.
Qed.

Lemma this_ok s (Q : () → server → Prop) : alive s = true → Q () s → ensures this s Q.
Proof. intros Ha HQ. apply ensures_bind, ensures_get. rewrite Ha. by apply ensures_ret. Qed.

Lemma server_deref_ok id m s (Q : member → server → Prop) : members s !! id = Some m → Q m s → ensures (deref id) s Q.
Proof. intros Hm HQ. apply ensures_bind, ensures_get. rewrite Hm. by apply ensures_ret. Qed.

(** The connection after its step. *)
Definition stepped (m : member) (e : TcpConnection.event) (c : TcpConnection.conn) : member :=
  Member (name_ m) (ioLoop m) c (trace m ++ [e]).

Lemma on_member_ok id e m c new s (Q : list TcpConnection.notice → server → Prop) :
  members s !! id = Some m → TcpConnection.handle e (object m) = (Val (), c) →
  TcpConnection.notices (TcpConnection.ghost_ c) = TcpConnection.notices (TcpConnection.ghost_ (object m)) ++ new →
  Q (filter is_closed new) (set_members (<[id := stepped m e c]> (members s)) s) →
  ensures (on_member id e) s Q.
Proof.
  intros Hm He Hn HQ. eexists _, _. split; [|exact HQ]. unfold on_member. rewrite Hm, He, Hn. by rewrite drop_app_length.
Qed.

Definition removed (id : Z) (m : member) (s : server) : server :=
  set_pending (pending s ++ [(ioLoop m, FConnectDestroyed id)]) (set_connections (StdMap.erase (name_ m) (connections_ s)) s).

Lemma removeConnectionInLoop_ok id m j s (Q : () → server → Prop) :
  alive s = true → members s !! id = Some m → StdMap.find (name_ m) (connections_ s) = Some j →
  Q () (removed id m s) → ensures (removeConnectionInLoop 0 id) s Q.
Proof.
  intros Ha Hm Hf HQ. apply ensures_bind, this_ok; [done|]. apply ensures_bind, in_loop_ok; [done|].
  apply ensures_bind. eapply server_deref_ok; [done|]. apply ensures_bind, ensures_get. rewrite Hf.
  apply ensures_bind, ensures_put, ensures_bind, ensures_assert; [done|]. by apply ensures_modify.
Qed.

Lemma removeConnection_ok id m j s (Q : () → server → Prop) :
  alive s = true → members s !! id = Some m → StdMap.find (name_ m) (connections_ s) = Some j →
  Q () (if (ioLoop m =? 0)%nat then removed id m s else set_pending (pending s ++ [(baseLoop_, FRemoveConnection id)]) s) →
  ensures (removeConnection (ioLoop m) id) s Q.
Proof.
  intros Ha Hm Hf HQ. apply ensures_bind, this_ok; [done|]. unfold runInLoop, baseLoop_.
  destruct (Nat.eqb_spec (ioLoop m) 0) as [E|E]; [|by apply ensures_modify].
  rewrite E. by eapply removeConnectionInLoop_ok.
Qed.

Lemma queued_none id q : Forall (λ t, target t.2 ≠ Some id) q → queued id q = [].
Proof. induction 1 as [|t q Ht _ IH]; [done|]. unfold queued. by rewrite filter_cons_False. Qed.

(** The only entry for a connection is the one that is taken. *)
Lemma dequeue id l l' f q1 q2 st :
  target f = Some id → queued id (q1 ++ (l, f) :: q2) = tokens l' id st →
  tokens l' id st = [(l, f)] ∧ queued id (q1 ++ q2) = [] ∧
  ∀ j, j ≠ id → queued j (q1 ++ q2) = queued j (q1 ++ (l, f) :: q2).
Proof.
  intros Ht H. rewrite queued_app in H. unfold queued in H at 2. rewrite filter_cons_True in H by done.
  change (filter _ q2) with (queued id q2) in H.
  assert (queued id q1 = [] ∧ queued id q2 = [] ∧ tokens l' id st = [(l, f)]) as (H1 & H2 & H3).
  { destruct (queued id q1) as [|? [|]], st; cbn in H; simplify_eq; try done. all: by rewrite H0. }
  split_and!; [done|by rewrite queued_app, H1, H2|].
  intros j Hj. rewrite !queued_app. f_equal. unfold queued at 2. rewrite filter_cons_False; [done|]. cbn. rewrite Ht. congruence.
Qed.

(** How many functors are still to run, those that follow from others included. *)
Definition weight (f : functor) : nat := match f with FRemoveConnection _ => 2 | _ => 1 end.
Definition work (q : list (nat * functor)) : nat := sum_list ((λ t, weight t.2) <$> q).

Lemma work_app q1 q2 : work (q1 ++ q2) = (work q1 + work q2)%nat.
Proof. unfold work. by rewrite fmap_app, sum_list_with_app. Qed.

Lemma work_cons l f q : work ((l, f) :: q) = (weight f + work q)%nat.
Proof. done. Qed.

Lemma take_first_none l q : take_first l q = None → l ∉ q.*1.
Proof.
  induction q as [|[l' f] q IH]; cbn; [intros _; apply not_elem_of_nil|].
  destruct (Nat.eqb_spec l l') as [<-|Hl]; [done|]. destruct (take_first l q) as [[]|]; [done|].
  intros _. apply not_elem_of_cons. auto.
Qed.

(** ** Preservation *)

Section Steps.
Context (name ipPort : list Z) (opts : TcpConnection.options) (threadInitCallback : bool).
Hypothesis ipPort_short : (length ipPort ≤ 51)%nat.
Abbreviation connName := (connName name ipPort).
Abbreviation member_ok := (member_ok name ipPort opts).
Abbreviation members_ok := (members_ok name ipPort opts).
Abbreviation inv := (inv name ipPort opts).
Abbreviation history := (history opts).

(** The server without its connections stays as it is. *)
Lemma inv_members n s s' :
  inv n s → alive s' = alive s → started s' = started s → threadPool_ s' = threadPool_ s →
  acceptor_ s' = acceptor_ s → nextConnId_ s' = nextConnId_ s →
  members_ok n (nextConnId_ s) (members s') (pending s') (connections_ s') → inv n s'.
Proof. intros [H1 H2 H3 _] E1 E2 E3 E4 E5 Hm. split; rewrite ?E1, ?E2, ?E3, ?E4, ?E5; done. Qed.

Lemma member_of n s id m : inv n s → members s !! id = Some m →
  1 <= id < nextConnId_ s ∧ ∃ st, member_ok n (pending s) (connections_ s) id m st.
Proof. intros [_ _ _ (Hd & Hm & _)] H. split; [apply Hd; by exists m|by apply Hm]. Qed.

Lemma history_step m e c :
  history m → TcpConnection.valid (object m) e → sends_in_loop e → total_growth (trace m ++ [e]) < 2 ^ 31 - 1032 →
  TcpConnection.handle e (object m) = (Val (), c) → history (stepped m e c).
Proof.
  intros [H1 H2 H3] Hv Hl Hg He. split; cbn; [by eapply TcpConnection.execs_snoc| |done].
  apply Forall_app. split; [done|]. by apply Forall_singleton.
Qed.

Lemma calls_snoc es e : calls (es ++ [e]) = calls es ++ if is_own e then [] else [e].
Proof. unfold calls. rewrite filter_app. f_equal. cbn. by destruct (is_own e). Qed.

(** Entries of the queue for known connections. *)
Abbreviation targets ms := (Forall (λ t : nat * functor, ∃ j, target t.2 = Some j ∧ is_Some ((ms : gmap Z member) !! j))).

Lemma targets_snoc (ms : gmap Z member) q l f id m :
  targets ms q → target f = Some id → ms !! id = Some m → targets ms (q ++ [(l, f)]).
Proof. intros Hq Ht Hm. apply Forall_app. split; [done|]. apply Forall_singleton. exists id. by rewrite Hm. Qed.

Lemma find_erase_other (cs : list (list Z * Z)) id j next :
  StdMap.sorted cs → 1 <= id < next → 1 <= j < next → next <= 2 ^ 31 → j ≠ id →
  StdMap.find (connName j) (StdMap.erase (connName id) cs) = StdMap.find (connName j) cs.
Proof.
  intros Hs Hi Hj Hn Hne. rewrite StdMap.find_erase by done. rewrite decide_False; [done|].
  intros E. apply connName_inj in E; [done|done|lia..].
Qed.

(** A connection is taken out of the server. *)
Lemma members_removed n next ms q q' cs id m m' :
  members_ok n next ms q cs → next <= 2 ^ 31 → ms !! id = Some m → name_ m = connName id →
  history m' → name_ m' = name_ m → ioLoop m' = ioLoop m → life Removed (object m') →
  calls (trace m') = [TcpConnection.Established] → ioLoop m = next_loop n (Z.to_nat (id - 1)) →
  queued id q' = [] → (∀ j, j ≠ id → queued j q' = queued j q) → targets ms q' →
  members_ok n next (<[id := m']> ms) (q' ++ [(ioLoop m, FConnectDestroyed id)]) (StdMap.erase (connName id) cs).
Proof.
  intros Hok Hn Hm Hname Hh Hname' Hloop Hlife Hcalls Hl Hq Hqo Hall. pose proof Hok as (Hd & Hms & _ & Hs & Hf).
  assert (Hid : 1 <= id < next) by (apply Hd; by exists m).
  eapply (members_update _ _ _ _ _ _ _ _ _ _ _ Removed); try done.
  - split; cbn [known expected]; rewrite ?Hname', ?Hloop; try done.
    + rewrite queued_app, Hq. by apply queued_one.
    + by rewrite StdMap.find_erase, decide_True.
  - intros j Hj. rewrite queued_app, Hqo by done. rewrite queued_other; [by rewrite app_nil_r|]. cbn. congruence.
  - intros j Hj Hne. by eapply find_erase_other.
  - by eapply targets_snoc.
  - by apply StdMap.erase_sorted.
  - intros k j Hk. rewrite StdMap.find_erase in Hk by done. case_decide; [done|]. by apply Hf.
Qed.

(** The state of a connection changes, and what is queued for it. *)
Lemma members_stepped n next ms q q' cs id m m' st st' :
  members_ok n next ms q cs → next <= 2 ^ 31 → ms !! id = Some m → member_ok n q cs id m st →
  history m' → name_ m' = name_ m → ioLoop m' = ioLoop m → life st' (object m') →
  calls (trace m') = expected st' → known st' = known st →
  queued id q' = tokens (ioLoop m) id st' → (∀ j, j ≠ id → queued j q' = queued j q) → targets ms q' →
  members_ok n next (<[id := m']> ms) q' cs.
Proof.
  intros Hok Hn Hm [_ M2 M3 _ _ _ M7] Hh Hname Hloop Hlife Hcalls Hk Hq Hqo Hall. pose proof Hok as (_ & _ & _ & Hs & Hf).
  eapply (members_update _ _ _ _ _ _ _ _ _ _ _ st'); try done.
  split; rewrite ?Hname, ?Hloop, ?Hk; done.
Qed.

(** *** A step of a connection *)

Lemma connection_ok n s id e m :
  inv n s → members s !! id = Some m → TcpConnection.valid (object m) e → is_own e = true → sends_in_loop e →
  total_growth (trace m ++ [e]) < 2 ^ 31 - 1032 →
  ensures (connection_step id e) s (λ _, inv n).
Proof.
  intros Hinv Hm Hv He Hl Hg. destruct (member_of _ _ _ _ Hinv Hm) as (Hid & st & Hok).
  pose proof Hok as [M1 M2 M3 M4 M5 M6 M7]. pose proof (member_history_inv _ _ M1) as Hci.
  destruct (own_step _ _ _ Hci Hv He Hl) as (c & closed & Hh & [_ (new & Hnew & Hcl) Hlife Hadd Hdown]).
  { rewrite total_growth_snoc in Hg. lia. }
  pose proof (i_members _ _ _ _ _ Hinv) as Hms. pose proof (i_next _ _ _ _ _ Hinv) as Hnext.
  pose proof Hms as (_ & _ & Hall & _ & _).
  assert (Hh' : history (stepped m e c)) by by apply history_step.
  unfold connection_step. apply ensures_bind. eapply server_deref_ok; [done|]. apply ensures_bind.
  eapply on_member_ok; [done..|]. rewrite Hcl.
  destruct Hlife as [[Hlc ->]|(Hl1 & Hl2 & ->)].
  - apply ensures_ret. apply (inv_members _ s); [done..|]. cbn.
    eapply (members_stepped _ _ _ _ _ _ _ _ _ st st); try done; [lia| |].
    + cbn [object stepped]. destruct st; cbn in M4 |- *; rewrite ?Hlc; try done; destruct M4 as [M4 M4']; (split; [done|]).
      * by apply Hadd.
      * by apply Hadd.
      * rewrite Hdown; [done|]. destruct (life_cases _ _ Hci) as [[_ E]|[(_ & E & _)|[E _]]]; [congruence..|done].
    + cbn [trace stepped]. by rewrite calls_snoc, He, app_nil_r.
  - apply ensures_bind.
    assert (st = Open) as ->. { destruct st; cbn in M4; [congruence|done|destruct M4; congruence..]. }
    assert (Hadd' : Channel.addedToLoop_ (TcpConnection.channel_ c) = true).
    { apply Hadd. destruct (life_cases _ _ Hci) as [[_ E]|[(_ & _ & E)|[_ [E|E]]]]; [congruence|done|congruence..]. }
    assert (Hcalls : calls (trace (stepped m e c)) = [TcpConnection.Established]).
    { cbn [trace stepped]. by rewrite calls_snoc, He, app_nil_r. }
    set (m' := stepped m e c).
    change (ioLoop m) with (ioLoop m'). eapply removeConnection_ok; cbn; [apply Hinv|by rewrite lookup_insert_eq|rewrite M2; exact M7|].
    apply ensures_ret.
    destruct (Nat.eqb_spec (ioLoop m) 0) as [E0|E0].
    + apply (inv_members _ s); [done..|]. cbn. rewrite M2.
      eapply members_removed; try done; lia.
    + apply (inv_members _ s); [done..|]. cbn.
      eapply (members_stepped _ _ _ _ _ _ _ _ _ Open Closing); try done; [lia|..].
      * by rewrite queued_app, M6, queued_one.
      * intros j Hj. rewrite queued_app, queued_other by (cbn; congruence). by rewrite app_nil_r.
      * by eapply targets_snoc.
Qed.

(** *** A functor *)

(** A call of the server on a connection, made from the queue. *)
Lemma call_ok n s id m e c q new st st' :
  inv n s → members s !! id = Some m → member_ok n (pending s) (connections_ s) id m st →
  TcpConnection.valid (object m) e → is_own e = false → TcpConnection.handle e (object m) = (Val (), c) →
  TcpConnection.notices (TcpConnection.ghost_ c) = TcpConnection.notices (TcpConnection.ghost_ (object m)) ++ new →
  filter is_closed new = [] → life st' c → expected st' = expected st ++ [e] → known st' = known st →
  queued id q = tokens (ioLoop m) id st' → (∀ j, j ≠ id → queued j q = queued j (pending s)) → targets (members s) q →
  ensures (connect_step (ioLoop m) id e) (set_pending q s) (λ _ s', inv n s' ∧ pending s' = q).
Proof.
  intros Hinv Hm Hok Hv He Hh Hnew Hcl Hlife Hexp Hk Hq Hqo Hall.
  pose proof Hok as [M1 M2 M3 M4 M5 M6 M7]. pose proof (i_next _ _ _ _ _ Hinv) as Hnext.
  unfold connect_step. apply ensures_bind. eapply server_deref_ok; [done|]. apply ensures_bind, in_loop_ok; [done|].
  apply ensures_bind. eapply server_deref_ok; [done|]. apply ensures_bind. eapply on_member_ok; [done..|]. rewrite Hcl.
  apply ensures_ret. split; [|done]. apply (inv_members _ s); [done..|]. cbn.
  eapply (members_stepped _ _ _ _ _ _ _ _ _ st st'); try done; [apply Hinv|lia| |].
  - apply history_step; try done; [by destruct e|]. rewrite total_growth_snoc. destruct M1 as [_ _ H]. destruct e; cbn in *; try done; lia.
  - cbn [trace stepped]. by rewrite calls_snoc, He, M5.
Qed.

Lemma server_functor_ok n s l f q1 q2 :
  inv n s → pending s = q1 ++ (l, f) :: q2 →
  ensures (call_functor l f) (set_pending (q1 ++ q2) s) (λ _ s', inv n s' ∧ (work (pending s') < work (pending s))%nat).
Proof.
  intros Hinv Hp.
  assert (Hw : (work (pending s) = work (q1 ++ q2) + weight f)%nat) by (rewrite Hp, !work_app, work_cons; lia). pose proof (i_members _ _ _ _ _ Hinv) as Hms. pose proof Hms as (Hd & _ & Hall & Hs & _).
  rewrite Hp in Hall. apply Forall_app in Hall as [Hall1 Hall2]. apply Forall_cons in Hall2 as [(id & Ht & [m Hm]) Hall2].
  cbn in Ht. destruct (member_of _ _ _ _ Hinv Hm) as (Hid & st & Hok). pose proof Hok as [M1 M2 M3 M4 M5 M6 M7].
  rewrite Hp in M6. destruct (dequeue _ _ _ _ _ _ _ Ht M6) as (Htok & Hq & Hqo). rewrite <-Hp in Hqo.
  assert (Hall : targets (members s) (q1 ++ q2)) by by apply Forall_app.
  pose proof (member_history_inv _ _ M1) as Hci. pose proof (i_next _ _ _ _ _ Hinv) as Hnext.
  destruct f as [|j|j|j]; cbn in Ht; simplify_eq; cbn [call_functor].
  - destruct st; cbn in Htok; simplify_eq. destruct (established_step _ _ Hci M4) as (c & Hh & _ & Hl & Hn).
    eapply ensures_weaken; [eapply (call_ok _ _ _ _ _ _ _ _ Connecting Open); try done|].
    2: { cbv beta. intros _ s' [? ->]. split; [done|]. rewrite Hw. cbn. lia. }
    cbn. destruct (life_cases _ _ Hci) as [[? _]|[(_ & E & _)|[_ [E|E]]]]; cbn in M4; [done|congruence..].
  - destruct st; cbn in Htok; simplify_eq. cbn in M7, M5.
    eapply removeConnectionInLoop_ok; [apply Hinv|done|cbn; rewrite M2; exact M7|].
    split; [|rewrite Hw; cbn [pending removed set_pending set_connections]; rewrite (work_app (q1 ++ q2)), work_cons; cbn; lia].
    apply (inv_members _ s); [done..|]. cbn. rewrite M2. rewrite <-(insert_id (members s) id m) by done.
    eapply members_removed; try done; lia.
  - destruct st; cbn in Htok; simplify_eq. destruct M4 as [M4 M4'].
    assert (Hst : TcpConnection.state_ (object m) = TcpConnection.kDisconnected).
    { destruct (life_cases _ _ Hci) as [[_ E]|[(_ & E & _)|[? _]]]; [congruence..|done]. }
    destruct (destroyed_step _ _ Hci Hst) as (c & Hh & Hci' & Hn & _ & Ha).
    eapply ensures_weaken; [eapply (call_ok _ _ _ _ _ _ _ [] Removed Gone); try done|].
    4: { cbv beta. intros _ s' [? ->]. split; [done|]. rewrite Hw. cbn. lia. }
    + cbn. auto.
    + by rewrite app_nil_r.
    + split; [|done]. rewrite <-M4. unfold lifecycle. by rewrite Hn.
Qed.

(** Loop [l] has less to do, or nothing. *)
Lemma server_run_functor_ok n s l : inv n s → ensures (run_functor l) s (λ _ s',
  inv n s' ∧ (l ∈ (pending s).*1 → (work (pending s') < work (pending s))%nat)).
Proof.
  intros Hinv. apply ensures_bind, ensures_get. destruct (take_first l (pending s)) as [[f q]|] eqn:E.
  - apply take_first_spec in E as (q1 & q2 & Hp & ->). apply ensures_bind, ensures_put.
    eapply ensures_weaken; [by apply server_functor_ok|]. cbv beta. intros _ s' [? ?]. auto.
  - apply ensures_ret. split; [done|]. by intros ?%take_first_none.
Qed.

(** *** A new connection *)

Lemma members_new n next ms q cs l :
  members_ok n next ms q cs → 1 <= next < 2 ^ 31 - 1 → l = next_loop n (Z.to_nat (next - 1)) →
  members_ok n (next + 1) (<[next := Member (connName next) l (TcpConnection.construct opts) []]> ms)
    (q ++ [(l, FConnectEstablished next)]) (StdMap.assign (connName next) next cs).
Proof.
  intros (Hd & Hm & Hq & Hs & Hf) Hn Hl. set (m0 := Member _ _ _ _).
  assert (Hnew : ms !! next = None).
  { destruct (ms !! next) as [m|] eqn:E; [|done]. assert (1 <= next < next); [apply Hd; by exists m|lia]. }
  assert (Hsome : ∀ j, is_Some (<[next:=m0]> ms !! j) ↔ j = next ∨ is_Some (ms !! j)).
  { intros j. destruct (decide (j = next)) as [->|Hj]; [rewrite lookup_insert_eq|rewrite lookup_insert_ne by done]; naive_solver. }
  assert (Hfind : ∀ k, StdMap.find k (StdMap.assign (connName next) next cs) =
                       if decide (k = connName next) then Some next else StdMap.find k cs) by (intros k; by apply StdMap.find_assign).
  assert (Hnone : queued next q = []).
  { apply queued_none. eapply Forall_impl; [exact Hq|]. cbn. intros t (j & Hj & Hjs) Htg. rewrite Htg in Hj. simplify_eq.
    rewrite Hnew in Hjs. by destruct Hjs. }
  split_and!.
  - intros j. rewrite Hsome, Hd. lia.
  - intros j m Hj. destruct (decide (j = next)) as [->|Hne].
    + rewrite lookup_insert_eq in Hj. simplify_eq. exists Connecting. split; try done.
      * split; [constructor|constructor|done].
      * rewrite queued_app, Hnone. by apply queued_one.
      * rewrite Hfind, decide_True; done.
    + rewrite lookup_insert_ne in Hj by done. destruct (Hm j m Hj) as [st [H1 H2 H3 H4 H5 H6 H7]].
      assert (1 <= j < next) by (apply Hd; by exists m). exists st. split; try done.
      * rewrite queued_app, queued_other; [by rewrite app_nil_r|]. cbn. congruence.
      * rewrite Hfind, decide_False; [done|]. intros E. apply connName_inj in E; [done|done|lia..].
  - apply Forall_app. split.
    + eapply Forall_impl; [exact Hq|]. cbn. intros t (j & Hj & Hsj). exists j. rewrite Hsome. auto.
    + apply Forall_singleton. exists next. rewrite Hsome. auto.
  - by apply StdMap.assign_sorted.
  - intros k j Hk. rewrite Hfind in Hk. rewrite Hsome. case_decide; simplify_eq; [auto|]. destruct (Hf _ _ Hk). auto.
Qed.

Lemma newConnection_ok n s :
  inv n s → started s = true → nextConnId_ s < 2 ^ 31 - 1 →
  ensures (newConnection name ipPort opts 0) s (λ _, inv n).
Proof.
  intros [Ha Hn Hp Hm] Hst Hlt. rewrite Hst in Hp. unfold newConnection. apply ensures_bind, in_loop_ok; [done|].
  apply ensures_bind. eapply on_pool_ok; [by apply getNextLoop_ok|]. cbn. intros l p (-> & Hr & _).
  apply ensures_bind, ensures_get. cbn [nextConnId_ set_pool]. rewrite (proj2 (Z.eqb_neq _ _)) by lia.
  apply ensures_bind, ensures_put, ensures_bind, ensures_modify, ensures_bind, ensures_modify.
  match goal with |- ensures _ ?s' _ => set (s1 := s') end.
  pose proof (members_new _ _ _ _ _ _ Hm ltac:(lia) eq_refl) as Hnew.
  assert (Hinv : inv n (set_pending (pending s1 ++ [(next_loop n (Z.to_nat (nextConnId_ s - 1)), FConnectEstablished (nextConnId_ s))]) s1)).
  { split; cbn; [done|lia| |done]. rewrite Hst. by replace (Z.to_nat (nextConnId_ s + 1 - 1)) with (S (Z.to_nat (nextConnId_ s - 1))) by lia. }
  unfold runInLoop. destruct (Nat.eqb_spec 0 (next_loop n (Z.to_nat (nextConnId_ s - 1)))) as [E|E].
  - rewrite <-E in Hinv. pose proof (server_functor_ok _ _ _ _ _ [] Hinv eq_refl) as H. rewrite app_nil_r in H.
    replace (set_pending (pending s1) (set_pending (pending s1 ++ _) s1)) with s1 in H by (by destruct s1).
    eapply ensures_weaken; [exact H|]. cbv beta. by intros _ s' [? _].
  - by apply ensures_modify.
Qed.

(** *** start() *)

Lemma start_server_ok n s here :
  inv n s → here = 0%nat ∨ started s = true → ensures (start threadInitCallback here) s (λ _, inv n).
Proof.
  intros [Ha Hn Hp Hm] Hh. unfold start. apply ensures_bind, ensures_get, ensures_bind, ensures_put.
  destruct (started s) eqn:Hst; cbn [negb].
  - apply ensures_ret. split; cbn; rewrite ?Hst; done.
  - destruct Hh as [->|]; [|done]. destruct Hp as (P1 & P2 & P3 & P4 & P5 & -> & P7 & P8 & P9).
    apply ensures_bind. eapply on_pool_ok; [by apply start_ok|]. cbn. intros _ p (Hr & _ & _).
    apply ensures_bind, ensures_get, ensures_bind, ensures_assert; [cbn; by rewrite P8|].
    unfold acceptor_listen. apply ensures_bind, in_loop_ok; [done|]. eexists (), _. split; [reflexivity|]. split; cbn; [done..| |done].
    by rewrite P7.
Qed.

(** ** Every step *)

Lemma members_none n n' ms q cs : members_ok n 1 ms q cs → members_ok n' 1 ms q cs.
Proof.
  intros (Hd & Hm & H). split; [done|]. split; [|done]. intros id m Hid.
  assert (1 <= id < 1) by (apply Hd; by exists m). lia.
Qed.

Lemma server_step_ok n s e :
  inv n s → valid s e → ensures (handle name ipPort opts threadInitCallback e) s (λ _ s', ∃ n', inv n' s').
Proof.
  intros Hinv Hv. destruct e as [k|here|r accepted reopened|l|id e]; cbn [handle valid] in *.
  - destruct Hv as [Hk Hst]. destruct Hinv as [Ha Hn Hp Hm]. rewrite Hst in Hp.
    destruct Hp as (P1 & P2 & P3 & P4 & P5 & -> & P7 & P8 & P9).
    unfold setThreadNum. apply ensures_bind, ensures_assert; [lia|].
    eexists (), _. split; [reflexivity|]. exists (Z.to_nat k).
    split; cbn; [done..| |]; rewrite ?Hst; [done|]. rewrite P7 in *. by eapply members_none.
  - eapply ensures_weaken; [by apply start_server_ok|]. cbv beta. eauto.
  - destruct Hv as [Hr Hlt]. assert (Hst : started s = true).
    { destruct Hinv as [_ _ Hp _]. destruct (started s); [done|]. destruct Hp as (_ & _ & _ & _ & _ & _ & _ & _ & P9). congruence. }
    unfold acceptEvent. apply ensures_bind.
    assert (Hacc : ∃ o a, on_acceptor (Acceptor.handleRead r accepted reopened) s = (Val o, set_acceptor a s)).
    { destruct r as [fd|[]]; unfold on_acceptor; cbn; by eexists _, _. }
    destruct Hacc as (o & a & Hacc). exists o, (set_acceptor a s). split; [done|].
    assert (Hinv' : inv n (set_acceptor a s)).
    { destruct Hinv as [Ha Hn Hp Hm]. split; cbn; try done. by rewrite Hst in *. }
    destruct o; [|apply ensures_ret; by exists n]. eapply ensures_weaken; [by apply newConnection_ok|]. cbv beta. eauto.
  - eapply ensures_weaken; [by apply server_run_functor_ok|]. cbv beta. intros _ s' [? _]. eauto.
  - destruct (members s !! id) as [m|] eqn:Hm; [|done]. destruct Hv as (H1 & H2 & H3 & H4).
    eapply ensures_weaken; [by eapply connection_ok|]. cbv beta. eauto.
Qed.

End Steps.
