(* ===== verification/TcpServerTheorems.v ===== *)
(** * What TcpServer promises to its user, and how it can be misused *)
From S2P Require Import Prelude Hoare Printf StdMap NetBuffer TcpConnection TcpConnectionFacts EventLoopThreadPool TcpServer TcpServerSteps.
Import EventLoopThreadPool TcpServer.

Section Reachable.
Context (name ipPort : list Z) (opts : TcpConnection.options) (threadInitCallback : bool).
Hypothesis ipPort_short : (length ipPort ≤ 51)%nat.

Lemma server_construct_inv sockfd idle : inv name ipPort opts 0 (construct sockfd idle).
Proof.
  split; cbn; [done|lia|done|]. split_and!.
  - intros id. rewrite lookup_empty. split; [by intros []|lia].
  - intros id m. by rewrite lookup_empty.
  - constructor.
  - constructor.
  - done.
Qed.

Lemma server_reachable_inv s : reachable name ipPort opts threadInitCallback s → ∃ n, inv name ipPort opts n s.
Proof.
  induction 1 as [sockfd idle|s e s' _ [n IH] Hv Hs]; [exists 0%nat; apply server_construct_inv|].
  exact (ensures_val _ _ _ _ _ (server_step_ok name ipPort opts threadInitCallback ipPort_short n s e IH Hv) Hs).
Qed.

Lemma run_one e es s1 s : valid s e → handle name ipPort opts threadInitCallback e s = (Val (), s1) →
  run name ipPort opts threadInitCallback (e :: es) s = run name ipPort opts threadInitCallback es s1.
Proof. intros Hv Hh. cbn [run]. rewrite bool_decide_eq_true_2 by done. by rewrite Hh. Qed.

Lemma drain n s : inv name ipPort opts n s →
  ∃ ls s', run name ipPort opts threadInitCallback (Run <$> ls) s = Some s' ∧ pending s' = [] ∧ inv name ipPort opts n s'.
Proof.
  remember (work (pending s)) as w eqn:Hw. revert s Hw. induction w as [w IH] using lt_wf_ind. intros s -> Hinv.
  destruct (pending s) as [|[l f] q] eqn:Hp; [by exists [], s|].
  destruct (server_run_functor_ok name ipPort opts ipPort_short n s l Hinv) as ([] & s1 & Hs1 & Hinv1 & Hlt).
  rewrite Hp in Hlt. destruct (IH _ (Hlt (list_elem_of_here _ _)) s1 eq_refl Hinv1) as (ls & s' & Hr & Hq & Hi).
  exists (l :: ls), s'. split; [|done].
  change (Run <$> l :: ls) with (Run l :: (Run <$> ls)). by rewrite (run_one _ _ s1).
Qed.

End Reachable.

(** C12: In every history of a server that keeps to [valid] (it is not destroyed,
    its first start() is in its own thread, and its connections get the events
    that [TcpConnection.valid] allows), the next step returns, in whatever order
    its threads run: no assertion fails, in the server, in the pool, or in the
    connections.  Each accepted connection is a connection of [TcpConnection] in
    which the server makes the calls connectEstablished and connectDestroyed at
    the right time; connections take turns on the loops of the pool; a connection
    is in the map, under its own name, until it is removed, and what is queued
    for it is exactly its next call.  When the loops have run what they were
    given, which takes finitely many steps, a connection is either up and in the
    map, or it is down, with one callback for each, and in neither the map nor
    its loop. *)
Theorem tcp_server_manages_connections name ipPort opts threadInitCallback s :
  (length ipPort ≤ 51)%nat → reachable name ipPort opts threadInitCallback s →
  (∀ e, valid s e → ∃ s', handle name ipPort opts threadInitCallback e s = (Val (), s')) ∧
  (∃ n, (started s = true → loops_ (threadPool_ s) = seq 1 n) ∧
    (∀ id, is_Some (members s !! id) ↔ 1 <= id < nextConnId_ s) ∧
    ∀ id m, members s !! id = Some m →
      history opts m ∧ ioLoop m = next_loop n (Z.to_nat (id - 1)) ∧
      ∃ st, life st (object m) ∧ calls (trace m) = expected st ∧
            queued id (pending s) = tokens (ioLoop m) id st ∧
            StdMap.find (connName name ipPort id) (connections_ s) = if known st then Some id else None) ∧
  (∃ ls s', run name ipPort opts threadInitCallback (Run <$> ls) s = Some s' ∧
    ∀ id m, members s' !! id = Some m → (life Open (object m) ∧ StdMap.find (name_ m) (connections_ s') = Some id) ∨
                                        (life Gone (object m) ∧ StdMap.find (name_ m) (connections_ s') = None)).
Proof.
  intros Hip Hr. destruct (server_reachable_inv _ _ _ _ Hip _ Hr) as [n Hinv]. split; [|split].
  - intros e Hv. destruct (server_step_ok name ipPort opts threadInitCallback Hip n s e Hinv Hv) as ([] & s' & Hs & _). by exists s'.
  - pose proof Hinv as [_ _ Hp (Hd & Hm & _)]. exists n. split_and!; [intros Hst; rewrite Hst in Hp; by destruct Hp|done|].
    intros id m Hid. destruct (Hm id m Hid) as [st []]. split_and!; try done. by exists st.
  - destruct (drain _ _ _ threadInitCallback Hip n s Hinv) as (ls & s' & Hrun & Hq & Hinv'). exists ls, s'. split; [done|].
    intros id m Hid. destruct (i_members _ _ _ _ _ Hinv') as (_ & Hm & _). destruct (Hm id m Hid) as [st [_ M2 _ M4 _ M6 M7]].
    rewrite Hq in M6. rewrite M2. destruct st; cbn in M6; try done; auto.
Qed.

(** ** A run: two threads, three connections, of which the second is closed by
    the peer. *)
Definition sample_name : list Z := bytes_of "srv".
Definition sample_ipPort : list Z := bytes_of "0.0.0.0:80".
Definition sample_opts : TcpConnection.options := TcpConnectionFacts.plain.
Definition peer_closes : TcpConnection.event := TcpConnection.Poll POLLIN (Buffer.ReadBytes []) (WriteOk 0).
Definition sample : list event :=
  [SetThreadNum 2; Start 0; Accept (Acceptor.AcceptOk 5) 0 0; Accept (Acceptor.AcceptOk 6) 0 0; Run 1; Run 2;
   Accept (Acceptor.AcceptOk 7) 0 0; Connection 2 peer_closes].

Lemma run_reachable name ipPort opts cb es s s' :
  reachable name ipPort opts cb s → run name ipPort opts cb es s = Some s' → reachable name ipPort opts cb s'.
Proof.
  revert s. induction es as [|e es IH]; intros s Hr Hs; cbn in Hs; [by simplify_eq|].
  case_bool_decide; [|done]. destruct (handle name ipPort opts cb e s) as [[[]| | |] s1] eqn:E; try done.
  eapply IH; [|exact Hs]. by eapply reach_step.
Qed.

Lemma tcp_server_manages_connections_witness :
  ∃ s, run sample_name sample_ipPort sample_opts true sample (construct 3 4) = Some s ∧
    pending s = [(1%nat, FConnectEstablished 3); (0%nat, FRemoveConnection 2)] ∧
    ∀ e, valid s e → ∃ s', handle sample_name sample_ipPort sample_opts true e s = (Val (), s').
Proof.
  destruct (run sample_name sample_ipPort sample_opts true sample (construct 3 4)) as [s|] eqn:Hs; [|by vm_compute in Hs].
  exists s. split; [reflexivity|]. split.
  - change (pending (default s (Some s)) = [(1%nat, FConnectEstablished 3); (0%nat, FRemoveConnection 2)]).
    rewrite <-Hs. vm_compute. reflexivity.
  - exact (proj1 (tcp_server_manages_connections sample_name sample_ipPort sample_opts true s ltac:(vm_compute; lia)
             (run_reachable _ _ _ _ sample _ _ (reach_construct _ _ _ _ 3 4) Hs))).
Defined.

(** ** Misuse *)

(** start() from another thread, for a server whose header says that this is
    thread safe: the assertion of the pool fails. *)
Theorem start_in_other_thread_aborts name ipPort opts cb sockfd idle :
  (handle name ipPort opts cb (Start 1) (construct sockfd idle)).1 = Abort.
Proof. reflexivity. Qed.

(** The server is destroyed while a connection shuts down: the assertion of
    Channel::remove fails. *)
Theorem destroy_with_half_closed_aborts :
  ∃ s, run sample_name sample_ipPort sample_opts true
         [Start 0; Accept (Acceptor.AcceptOk 5) 0 0; Connection 1 (TcpConnection.Shutdown true)] (construct 3 4) = Some s ∧
       (destroy 0 s).1 = Abort.
Proof. eexists. split; [vm_compute; reflexivity|vm_compute; reflexivity]. Qed.

(** The server is destroyed while a connection of another thread is up, and the
    peer closes it before that thread has run connectDestroyed: the close
    callback uses the destroyed server. *)
Theorem close_after_destroy_is_undefined :
  ∃ s s', run sample_name sample_ipPort sample_opts true
         [SetThreadNum 1; Start 0; Accept (Acceptor.AcceptOk 5) 0 0; Run 1] (construct 3 4) = Some s ∧
       destroy 0 s = (Val (), s') ∧ valid s' (Connection 1 peer_closes) ∧
       (handle sample_name sample_ipPort sample_opts true (Connection 1 peer_closes) s').1 = Ub.
Proof.
  eexists _, _. split; [vm_compute; reflexivity|]. split; [vm_compute; reflexivity|].
  split; [apply (bool_decide_eq_true_1 _); vm_compute; reflexivity|vm_compute; reflexivity].
Qed.

(** When the descriptors are used up, the pending connection is accepted on the
    idle descriptor and closed; the idle descriptor is there again, under the
    number that open(2) returns. *)
Theorem full_acceptor_drops_connection a accepted reopened :
  0 <= accepted → accepted ∉ Acceptor.descriptors a → 0 <= reopened →
  ∃ a', Acceptor.handleRead (Acceptor.AcceptError true) accepted reopened a = (Val None, a') ∧
    Acceptor.idleFd_ a' = reopened ∧
    Acceptor.descriptors a' = {[reopened]} ∪ (Acceptor.descriptors a ∖ {[Acceptor.idleFd_ a]}) ∖ {[accepted]}.
Proof.
  intros H1 H2 H3. eexists. split; [reflexivity|]. cbn. rewrite (proj2 (Z.leb_le 0 accepted)), (proj2 (Z.leb_le 0 reopened)) by done.
  split; [done|]. set_solver.
Qed.
