(* ===== verification/NodeStore.v ===== *)
(** * Nodes that are linked by pointers

    The memory of a linked structure: a finite map from addresses to nodes.
    [holds m cs]: the memory consists of the cells [cs], at different addresses;
    the order of the list does not matter ([holds_perm]).  The rules for a read, a
    write, an allocation and a deallocation bring the cell in question to the
    front and leave the rest alone. *)
From S2P Require Import Prelude Hoare.

Section Holds.
Context {N : Type}.
Implicit Types (m : gmap nat N) (cs : list (nat * N)).

Definition holds m cs : Prop := NoDup cs.*1 ∧ m = list_to_map cs.

Lemma holds_perm m cs cs' : holds m cs → cs ≡ₚ cs' → holds m cs'.
Proof.
  intros [Hd ->] Hp. split; [by rewrite <-Hp|]. by apply list_to_map_proper.
Qed.

Lemma holds_lookup m p n cs : holds m ((p, n) :: cs) → m !! p = Some n.
Proof. intros [_ ->]. cbn. apply lookup_insert_eq. Qed.

Lemma holds_write m p n n' cs : holds m ((p, n) :: cs) → holds (<[p := n']> m) ((p, n') :: cs).
Proof. intros [Hd ->]. split; [done|]. cbn. by rewrite insert_insert_eq. Qed.

Lemma holds_fresh m cs p : holds m cs → m !! p = None → p ∉ cs.*1.
Proof. intros [_ ->] H. by apply not_elem_of_list_to_map. Qed.

Lemma holds_alloc m p n cs : holds m cs → m !! p = None → holds (<[p := n]> m) ((p, n) :: cs).
Proof.
  intros Hm Hp. pose proof (holds_fresh _ _ _ Hm Hp) as Hf. destruct Hm as [Hd ->]. split; [by constructor|done].
Qed.

Lemma holds_free m p n cs : holds m ((p, n) :: cs) → holds (delete p m) cs.
Proof.
  intros [Hd ->]. apply NoDup_cons in Hd as [Hp Hd]. split; [done|]. cbn.
  rewrite delete_insert_id; [done|]. by apply not_elem_of_list_to_map.
Qed.

Lemma cells_size m cs : holds m cs → size m = length cs.
Proof.
  intros [Hd ->]. revert Hd. induction cs as [|[p n] cs IH]; cbn; intros Hd; [apply map_size_empty|].
  apply NoDup_cons in Hd as [Hp Hd]. rewrite map_size_insert_None, IH; [done..|]. by apply not_elem_of_list_to_map.
Qed.

Lemma holds_ne m p n q k cs : holds m ((p, n) :: (q, k) :: cs) → p ≠ q.
Proof. intros [Hd _] ->. apply NoDup_cons in Hd as [Hd _]. apply Hd. cbn. left. Qed.

End Holds.

(** ** A memory of nodes

    The addresses are positive and given out in order; 0 is the null pointer, whose
    deletion does nothing.  [held s cs]: the memory consists of the cells [cs]. *)
Module Memory.
Section Access.
Context {N E : Type}.

Record heap := Heap { store : gmap nat N; fresh : nat }.

Definition deref (p : nat) : act heap E N :=
  s <- get_state ;; match store s !! p with Some n => act_ret n | None => undefined end.
Definition assign (p : nat) (f : N → N) : act heap E () :=
  n <- deref p ;; modify (λ s, Heap (<[p := f n]> (store s)) (fresh s)).
Definition new (n : N) : act heap E nat :=
  s <- get_state ;; put_state (Heap (<[fresh s := n]> (store s)) (S (fresh s))) ;;; act_ret (fresh s).
Definition delete_node (p : nat) : act heap E () :=
  if Nat.eqb p 0 then act_ret () else
  deref p ;;; modify (λ s, Heap (delete p (store s)) (fresh s)).

Definition held (s : heap) (cs : list (nat * N)) : Prop :=
  holds (store s) cs ∧ Forall (λ p, 0 < p < fresh s)%nat cs.*1 ∧ (0 < fresh s)%nat.

Implicit Types (s : heap) (cs : list (nat * N)).

Lemma held_perm s cs cs' : held s cs → cs ≡ₚ cs' → held s cs'.
Proof. intros (H & Hf & H0) Hp. split_and!; [by eapply holds_perm| |done]. by rewrite <-Hp. Qed.

Lemma held_deref s p n cs Q : held s cs → (p, n) ∈ cs → Q n s → ensures (deref p) s Q.
Proof.
  intros (H & _) Hp HQ. apply elem_of_Permutation in Hp as [cs' Hp].
  pose proof (holds_lookup _ _ _ _ (holds_perm _ _ _ H Hp)) as El. exists n, s. split; [|done].
  unfold deref, act_bind, get_state. by rewrite El.
Qed.
Lemma held_assign s p n cs f Q : held s ((p, n) :: cs) →
  (∀ s', held s' ((p, f n) :: cs) → fresh s' = fresh s → Q () s') → ensures (assign p f) s Q.
Proof.
  intros H HQ. unfold assign. apply ensures_bind. apply (held_deref _ _ n ((p, n) :: cs)); [done|by left|].
  apply ensures_modify. apply HQ; [|done]. destruct H as (H & Hf & H0). split_and!; [by eapply holds_write|done|done].
Qed.
Lemma held_new s n cs Q : held s cs →
  (∀ s', held s' ((fresh s, n) :: cs) → fresh s' = S (fresh s) → Q (fresh s) s') → ensures (new n) s Q.
Proof.
  intros (H & Hf & H0) HQ. exists (fresh s). eexists. split; [reflexivity|]. apply HQ; [|done].
  split_and!; cbn [store fresh fmap list_fmap fst]; [|constructor; [lia|]|lia].
  - apply holds_alloc; [done|]. destruct H as [_ ->]. apply not_elem_of_list_to_map. intros Hin.
    rewrite Forall_forall in Hf. specialize (Hf _ Hin). cbn in Hf. lia.
  - eapply Forall_impl; [done|]. cbn. lia.
Qed.
Lemma held_delete s p n cs Q : held s ((p, n) :: cs) → (∀ s', held s' cs → fresh s' = fresh s → Q () s') → ensures (delete_node p) s Q.
Proof.
  intros H HQ. unfold delete_node. destruct (Nat.eqb_spec p 0) as [->|Hp].
  { destruct H as (_ & Hf & _). apply Forall_cons in Hf as [Hf _]. cbn in Hf. lia. }
  apply ensures_bind. apply (held_deref _ _ n ((p, n) :: cs)); [done|by left|]. apply ensures_modify. apply HQ; [|done].
  destruct H as (H & Hf & H0). split_and!; [by eapply holds_free| |done]. by apply Forall_cons in Hf as [_ Hf].
Qed.

Lemma held_positive s p n cs : held s cs → (p, n) ∈ cs → (0 < p)%nat.
Proof.
  intros (_ & Hf & _) Hp. rewrite Forall_forall in Hf. apply (Hf p). by apply (list_elem_of_fmap_2' fst cs (p, n)).
Qed.
End Access.
Arguments heap N : clear implicits.

(** The cells of the objects in variables. *)
Section Objects.
Context {N C : Type} (cells_of : C → list (nat * N)).

Definition all_cells (m : gmap nat C) : list (nat * N) := concat (cells_of <$> (map_to_list m).*2).

Lemma all_cells_insert m v c : m !! v = None → all_cells (<[v := c]> m) ≡ₚ cells_of c ++ all_cells m.
Proof. intros Hv. unfold all_cells. by rewrite map_to_list_insert. Qed.
Lemma all_cells_update m v c : all_cells (<[v := c]> m) ≡ₚ cells_of c ++ all_cells (delete v m).
Proof. rewrite <-insert_delete_eq. apply all_cells_insert, lookup_delete_eq. Qed.
Lemma all_cells_delete m v c : m !! v = Some c → all_cells m ≡ₚ cells_of c ++ all_cells (delete v m).
Proof. intros Hv. rewrite <-all_cells_update, insert_id; done. Qed.
End Objects.
End Memory.

(** Rearrange the cells. *)
Ltac holds_by H := eapply (holds_perm _ _ _ H); solve_Permutation.
