(* ===== verification/RedBlackTree.v ===== *)
(** * RedBlackTree.h: top-down insertion on linked nodes

    The nodes are cells of a memory ([NodeStore]); [header] and [nullNode] are
    cells too, and the pointers [current], [parent], [grand] and [great] that an
    insertion leaves behind are part of the object, as in the class.  [side]
    stands for the two fields [left] and [right].  Loops take fuel. *)
From S2P Require Import Prelude StdMap Hoare NodeStore BinTree.
Import SetContract.

Module RedBlackTree.

Inductive colour := RED | BLACK.
#[global] Instance colour_eq_dec : EqDecision colour.
Proof. solve_decision. Defined.

Inductive side := Left | Right.
#[global] Instance side_eq_dec : EqDecision side.
Proof. solve_decision. Defined.

Inductive exception := UnderflowException.

Section Class.
Context {K : Type} `{KeyOrder K}.

Record RedBlackNode := RBNode { element : K; left : nat; right : nat; color : colour }.

Record rbtree := RBTree {
  store : gmap nat RedBlackNode;
  fresh : nat;
  header : nat;
  nullNode : nat;
  current : nat;
  parent : nat;
  grand : nat;
  great : nat
}.

Definition io (A : Type) : Type := act rbtree exception A.

(** The fuel of the loops: as many rounds as there are nodes. *)
Definition nodes (s : rbtree) : nat := base.size (store s).

(** ** Pointers *)

Definition set_store m s := RBTree m (fresh s) (header s) (nullNode s) (current s) (parent s) (grand s) (great s).

Definition deref (p : nat) : io RedBlackNode :=
  s <- get_state ;; match store s !! p with Some n => act_ret n | None => undefined end.

(** A write through [p]. *)
Definition assign (p : nat) (f : RedBlackNode → RedBlackNode) : io () :=
  n <- deref p ;; modify (λ s, set_store (<[p := f n]> (store s)) s).

Definition new (n : RedBlackNode) : io nat :=
  s <- get_state ;;
  put_state (RBTree (<[fresh s := n]> (store s)) (S (fresh s)) (header s) (nullNode s) (current s) (parent s) (grand s) (great s)) ;;;
  act_ret (fresh s).

Definition delete_node (p : nat) : io () :=
  deref p ;;; modify (λ s, set_store (delete p (store s)) s).

Definition child (d : side) (n : RedBlackNode) : nat := match d with Left => left n | Right => right n end.
Definition with_child (d : side) (q : nat) (n : RedBlackNode) : RedBlackNode :=
  match d with
  | Left => RBNode (element n) q (right n) (color n)
  | Right => RBNode (element n) (left n) q (color n)
  end.
Definition with_color (c : colour) (n : RedBlackNode) : RedBlackNode := RBNode (element n) (left n) (right n) c.
Definition with_element (x : K) (n : RedBlackNode) : RedBlackNode := RBNode x (left n) (right n) (color n).
Definition opp (d : side) : side := match d with Left => Right | Right => Left end.

Definition set_child (d : side) (p q : nat) : io () := assign p (with_child d q).
Definition set_color (p : nat) (c : colour) : io () := assign p (with_color c).
Definition get_child (d : side) (p : nat) : io nat := n <- deref p ;; act_ret (child d n).

Definition set_current (p : nat) : io () :=
  modify (λ s, RBTree (store s) (fresh s) (header s) (nullNode s) p (parent s) (grand s) (great s)).
Definition set_parent (p : nat) : io () :=
  modify (λ s, RBTree (store s) (fresh s) (header s) (nullNode s) (current s) p (grand s) (great s)).

(** ** Rotations.  The argument [k2] is a reference to a field of a node:
    child [d] of node [p]. *)

Definition rotateWithLeftChild (d : side) (p : nat) : io () :=
  k2 <- get_child d p ;;
  k1 <- get_child Left k2 ;;
  b <- get_child Right k1 ;;
  set_child Left k2 b ;;;
  set_child Right k1 k2 ;;;
  set_child d p k1.

Definition rotateWithRightChild (d : side) (p : nat) : io () :=
  k1 <- get_child d p ;;
  k2 <- get_child Right k1 ;;
  b <- get_child Left k2 ;;
  set_child Right k1 b ;;;
  set_child Left k2 k1 ;;;
  set_child d p k2.

Definition rotate (item : K) (theParent : nat) : io nat :=
  n <- deref theParent ;;
  if klt item (element n) then
    c <- deref (left n) ;;
    (if klt item (element c) then rotateWithLeftChild Left theParent else rotateWithRightChild Left theParent) ;;;
    get_child Left theParent
  else
    c <- deref (right n) ;;
    (if klt item (element c) then rotateWithLeftChild Right theParent else rotateWithRightChild Right theParent) ;;;
    get_child Right theParent.

Definition handleReorient (item : K) : io () :=
  s <- get_state ;;
  set_color (current s) RED ;;;
  l <- get_child Left (current s) ;;
  set_color l BLACK ;;;
  r <- get_child Right (current s) ;;
  set_color r BLACK ;;;
  p <- deref (parent s) ;;
  (when bool_decide (color p = RED) do
     (set_color (grand s) RED ;;;
      g <- deref (grand s) ;;
      p <- deref (parent s) ;;
      (when xorb (klt item (element g)) (klt item (element p)) do
         (q <- rotate item (grand s) ;; set_parent q)) ;;;
      c <- rotate item (great s) ;;
      set_current c ;;;
      set_color c BLACK)) ;;;
  root <- get_child Right (header s) ;;
  set_color root BLACK.

(** ** insert *)

(** The pointers move down: [great = grand; grand = parent; parent = current]. *)
Definition descend (x : K) : io () :=
  s <- get_state ;;
  n <- deref (current s) ;;
  put_state (RBTree (store s) (fresh s) (header s) (nullNode s)
               (if klt x (element n) then left n else right n) (current s) (parent s) (grand s)).

Definition is_red (p : nat) : io bool := n <- deref p ;; act_ret (bool_decide (color n = RED)).

(** The body of the loop. *)
Definition insert_step (x : K) : io () :=
  descend x ;;;
  s <- get_state ;;
  l <- get_child Left (current s) ;;
  redl <- is_red l ;;
  when redl do
    (r <- get_child Right (current s) ;;
     redr <- is_red r ;;
     when redr do handleReorient x).

Fixpoint insert_loop (fuel : nat) (x : K) : io () :=
  match fuel with
  | O => undefined
  | S fuel =>
      s <- get_state ;;
      n <- deref (current s) ;;
      if bool_decide (element n = x) then act_ret () else (insert_step x ;;; insert_loop fuel x)
  end.

Definition insert (x : K) : io () :=
  s <- get_state ;;
  put_state (RBTree (store s) (fresh s) (header s) (nullNode s) (header s) (header s) (header s) (great s)) ;;;
  assign (nullNode s) (with_element x) ;;;
  insert_loop (3 * nodes s + 2) x ;;;
  s <- get_state ;;
  if bool_decide (current s = nullNode s)
  then
    c <- new (RBNode x (nullNode s) (nullNode s) BLACK) ;;
    set_current c ;;;
    p <- deref (parent s) ;;
    (if klt x (element p) then set_child Left (parent s) c else set_child Right (parent s) c) ;;;
    handleReorient x
  else act_ret ().

(** ** The other operations *)

Definition construct (negInf dflt : K) : rbtree :=
  RBTree (<[1%nat := RBNode negInf 0 0 BLACK]> {[0%nat := RBNode dflt 0 0 BLACK]}) 2 1 0 0 0 0 0.

Definition isEmpty : io bool :=
  s <- get_state ;; root <- get_child Right (header s) ;; act_ret (bool_decide (root = nullNode s)).

(** [while (itr->left != nullNode) itr = itr->left;], and the same to the right *)
Fixpoint walk (fuel : nat) (d : side) (itr : nat) : io nat :=
  match fuel with
  | O => undefined
  | S fuel =>
      s <- get_state ;;
      c <- get_child d itr ;;
      if bool_decide (c = nullNode s) then act_ret itr else walk fuel d c
  end.

Definition findMin : io K :=
  empty <- isEmpty ;;
  if empty : bool then throw UnderflowException else
  s <- get_state ;;
  root <- get_child Right (header s) ;;
  itr <- walk (nodes s) Left root ;;
  n <- deref itr ;; act_ret (element n).

Definition findMax : io K :=
  empty <- isEmpty ;;
  if empty : bool then throw UnderflowException else
  s <- get_state ;;
  root <- get_child Right (header s) ;;
  itr <- walk (nodes s) Right root ;;
  n <- deref itr ;; act_ret (element n).

Fixpoint contains_loop (fuel : nat) (x : K) (curr : nat) : io bool :=
  match fuel with
  | O => undefined
  | S fuel =>
      n <- deref curr ;;
      if klt x (element n) then contains_loop fuel x (left n)
      else if klt (element n) x then contains_loop fuel x (right n)
      else s <- get_state ;; act_ret (negb (bool_decide (curr = nullNode s)))
  end.

Definition contains (x : K) : io bool :=
  s <- get_state ;;
  assign (nullNode s) (with_element x) ;;;
  root <- get_child Right (header s) ;;
  contains_loop (nodes s) x root.

(** The lines that are printed. *)
Fixpoint print (fuel : nat) (t : nat) : io (list K) :=
  match fuel with
  | O => undefined
  | S fuel =>
      n <- deref t ;;
      if bool_decide (t = left n) then act_ret [] else
      ls <- print fuel (left n) ;;
      rs <- print fuel (right n) ;;
      act_ret (ls ++ element n :: rs)
  end.

Definition printTree : io (option (list K)) :=
  s <- get_state ;;
  root <- get_child Right (header s) ;;
  if bool_decide (root = nullNode s) then act_ret None
  else ls <- print (nodes s) root ;; act_ret (Some ls).

Fixpoint reclaimMemory (fuel : nat) (t : nat) : io () :=
  match fuel with
  | O => undefined
  | S fuel =>
      n <- deref t ;;
      if bool_decide (t = left n) then act_ret () else
      reclaimMemory fuel (left n) ;;;
      reclaimMemory fuel (right n) ;;;
      delete_node t
  end.

Definition makeEmpty : io () :=
  s <- get_state ;;
  root <- get_child Right (header s) ;;
  reclaimMemory (nodes s) root ;;;
  set_child Right (header s) (nullNode s).

(** The copy of the subtree [t] of another tree, whose null node ends it; [null]
    is the null node of the new tree. *)
Fixpoint clone (fuel : nat) (null : nat) (t : nat) : io nat :=
  match fuel with
  | O => undefined
  | S fuel =>
      n <- deref t ;;
      if bool_decide (t = left n) then act_ret null else
      l <- clone fuel null (left n) ;;
      r <- clone fuel null (right n) ;;
      new (RBNode (element n) l r (color n))
  end.

(** The copy constructor: the header and the null node of the new tree. *)
Definition copy (dflt : K) : io (nat * nat) :=
  s <- get_state ;;
  null <- new (RBNode dflt 0 0 BLACK) ;;
  set_child Left null null ;;; set_child Right null null ;;;
  h <- deref (header s) ;;
  head <- new (RBNode (element h) 0 0 BLACK) ;;
  set_child Left head null ;;;
  root <- clone (nodes s) null (right h) ;;
  set_child Right head root ;;;
  act_ret (head, null).

(** The object with another header and null node; a constructor leaves the
    pointers of insert() as they are. *)
Definition with_handles (head null : nat) (s : rbtree) : rbtree :=
  RBTree (store s) (fresh s) head null (current s) (parent s) (grand s) (great s).

(** The destructor. *)
Definition destroy : io () :=
  makeEmpty ;;;
  s <- get_state ;;
  delete_node (nullNode s) ;;; delete_node (header s).

(** remove() only prints that it is not implemented. *)
Definition remove (x : K) : io () := act_ret ().

(** ** Runs of calls *)

Definition call_tree (c : call K) : io (answer K) :=
  match c with
  | Insert x => insert x ;;; act_ret Done
  | Remove x => remove x ;;; act_ret Done
  | Contains x => b <- contains x ;; act_ret (Answer b)
  | FindMin => x <- findMin ;; act_ret (Item x)
  | FindMax => x <- findMax ;; act_ret (Item x)
  | IsEmpty => b <- isEmpty ;; act_ret (Answer b)
  | MakeEmpty => makeEmpty ;;; act_ret Done
  | PrintTree => ls <- printTree ;; act_ret (Lines ls)
  end.

(** The client catches the exception. *)
Definition exec_tree (c : call K) (s : rbtree) : option (answer K * rbtree) :=
  match call_tree c s with
  | (Val a, s') => Some (a, s')
  | (Exn UnderflowException, s') => Some (Underflow, s')
  | _ => None
  end.

Fixpoint run_tree (cs : list (call K)) (s : rbtree) : option (list (answer K) * rbtree) :=
  match cs with
  | [] => Some ([], s)
  | c :: cs =>
      '(a, s) ← exec_tree c s;
      '(r, s) ← run_tree cs s;
      Some (a :: r, s)
  end.

End Class.
End RedBlackTree.
