(* ===== verification/RedBlackHeap.v ===== *)
(** * The operations of RedBlackTree on the cells of the memory

    Each call of the class is related to the located trees below:
    what it reads is in the cells of the place where it stands, and the cells
    that it leaves are those of the new place. *)
From S2P Require Import Prelude StdMap BinTree Hoare NodeStore RedBlackTree.

(** ** The shape of a red-black tree: located trees and the path to a node

    A [ltree] is a tree whose nodes know their address and colour.  The place
    where an insertion stands is a subtree with its context, a list of [frame]s
    from the parent up to the header.  [reorient] is what handleReorient does to
    such a place.  The two sides are treated alike by [mk] and [node_of]. *)
Import SetContract RedBlackTree.

Section Shape.
Context {K : Type} `{KeyOrder K}.

Definition ltree : Type := tree (nat * colour) K.
Implicit Types (t a b : ltree) (x y : K) (d : side).

Definition col t : colour := match t with Nil => BLACK | Node (_, c) _ _ _ => c end.
Definition blacken t : ltree := match t with Nil => Nil | Node (l, _) a x b => Node (l, BLACK) a x b end.

(** [a] on side [d], [b] on the other. *)
Definition mk (d : side) (l : nat) (c : colour) (x : K) (a b : ltree) : ltree :=
  match d with Left => Node (l, c) a x b | Right => Node (l, c) b x a end.
Definition node_of (d : side) (x : K) (a b : nat) (c : colour) : RedBlackNode :=
  match d with Left => RBNode x a b c | Right => RBNode x b a c end.
Definition sub (d : side) t : ltree :=
  match t with Nil => Nil | Node _ a _ b => match d with Left => a | Right => b end end.

Record frame := Frame { f_loc : nat; f_side : side; f_color : colour; f_elem : K; f_sib : ltree }.
Implicit Types (f : frame) (ctx : list frame).

Definition plug1 f t : ltree := mk (f_side f) (f_loc f) (f_color f) (f_elem f) t (f_sib f).
Fixpoint plug ctx t : ltree := match ctx with [] => t | f :: ctx => plug ctx (plug1 f t) end.

(** ** Cells *)

Section Cells.
Context (null : nat).

Definition root t : nat := match t with Nil => null | Node (l, _) _ _ _ => l end.

Fixpoint cells t : list (nat * RedBlackNode) :=
  match t with
  | Nil => []
  | Node (l, c) a x b => (l, RBNode x (root a) (root b) c) :: cells a ++ cells b
  end.

Definition frame_cell (h : nat) f : nat * RedBlackNode :=
  (f_loc f, node_of (f_side f) (f_elem f) h (root (f_sib f)) (f_color f)).

Fixpoint cells_ctx (h : nat) ctx : list (nat * RedBlackNode) :=
  match ctx with
  | [] => []
  | f :: ctx => frame_cell h f :: cells (f_sib f) ++ cells_ctx (f_loc f) ctx
  end.

Lemma root_mk d l c x a b : root (mk d l c x a b) = l.
Proof. by destruct d. Qed.

Lemma cells_mk d l c x a b :
  cells (mk d l c x a b) ≡ₚ [(l, node_of d x (root a) (root b) c)] ++ cells a ++ cells b.
Proof. destruct d; cbn; [done|]. constructor. apply Permutation_app_comm. Qed.

Lemma cells_plug ctx t : cells (plug ctx t) ≡ₚ cells_ctx (root t) ctx ++ cells t.
Proof.
  revert t. induction ctx as [|f ctx IH]; intros t; cbn [plug cells_ctx]; [done|].
  rewrite IH. unfold plug1. rewrite root_mk, cells_mk. unfold frame_cell. solve_Permutation.
Qed.

Lemma length_cells t : length (cells t) = length (elements t).
Proof.
  induction t as [|[l c] a IHa x b IHb]; cbn [cells elements]; [done|].
  cbn [length]. rewrite !length_app. cbn [length]. lia.
Qed.
End Cells.

Lemma child_node d x (a b : nat) c : child d (node_of d x a b c) = a.
Proof. by destruct d. Qed.
Lemma child_opp_node d x (a b : nat) c : child (opp d) (node_of d x a b c) = b.
Proof. by destruct d. Qed.
Lemma with_child_node d x (a b : nat) c q : with_child d q (node_of d x a b c) = node_of d x q b c.
Proof. by destruct d. Qed.
Lemma with_child_opp_node d x (a b : nat) c q : with_child (opp d) q (node_of d x a b c) = node_of d x a q c.
Proof. by destruct d. Qed.
Lemma with_color_node d x (a b : nat) c c' : with_color c' (node_of d x a b c) = node_of d x a b c'.
Proof. by destruct d. Qed.
Lemma element_node d x (a b : nat) c : element (node_of d x a b c) = x.
Proof. by destruct d. Qed.
Lemma color_node d x (a b : nat) c : color (node_of d x a b c) = c.
Proof. by destruct d. Qed.
Lemma node_of_opp d x (a b : nat) c : node_of (opp d) x a b c = node_of d x b a c.
Proof. by destruct d. Qed.
Lemma mk_opp d l c x a b : mk (opp d) l c x a b = mk d l c x b a.
Proof. by destruct d. Qed.
Lemma opp_opp d : opp (opp d) = d.
Proof. by destruct d. Qed.
Lemma opp_ne d d' : d ≠ d' → d = opp d'.
Proof. by destruct d, d'. Qed.

(** ** The order *)

Fixpoint before ctx : list K :=
  match ctx with
  | [] => []
  | f :: ctx => before ctx ++ match f_side f with Left => [] | Right => elements (f_sib f) ++ [f_elem f] end
  end.
Fixpoint after ctx : list K :=
  match ctx with
  | [] => []
  | f :: ctx => match f_side f with Left => f_elem f :: elements (f_sib f) | Right => [] end ++ after ctx
  end.

Lemma elements_plug ctx t : elements (plug ctx t) = before ctx ++ elements t ++ after ctx.
Proof.
  revert t. induction ctx as [|f ctx IH]; intros t; cbn; [by rewrite app_nil_r|].
  rewrite IH. unfold plug1, mk. destruct (f_side f); cbn [elements]; by simplify_list_eq.
Qed.

(** The path to [x]. *)
Definition aims (x : K) f : Prop := match f_side f with Left => lt x (f_elem f) | Right => lt (f_elem f) x end.

Lemma aims_klt x f : aims x f → klt x (f_elem f) = match f_side f with Left => true | Right => false end.
Proof. unfold aims. destruct (f_side f); [done|apply lt_asym]. Qed.

Lemma aims_bounds x ctx t :
  Forall (aims x) ctx → sorted (elements (plug ctx t)) →
  Forall (λ y, lt y x) (before ctx) ∧ Forall (lt x) (after ctx).
Proof.
  revert t. induction ctx as [|f ctx IH]; intros t Ha Hs; [done|].
  apply Forall_cons in Ha as [Hf Ha]. cbn [plug] in Hs. destruct (IH _ Ha Hs) as [Hb Haf].
  rewrite elements_plug in Hs. unfold plug1, mk, aims in *. cbn [before after].
  destruct (f_side f); cbn [elements] in Hs; rewrite ?app_nil_r; cbn [app].
  - split; [done|]. apply Forall_cons. split; [done|]. apply Forall_app. split; [|done].
    rewrite <-!(assoc_L (++)) in Hs. rewrite (assoc_L (++)) in Hs. cbn in Hs.
    apply sorted_mid in Hs as (_ & _ & _ & Hs). apply Forall_app in Hs as [Hs _]. by eapply above_trans.
  - split; [|done]. apply Forall_app. split; [done|]. apply Forall_app. split; [|by apply Forall_singleton].
    rewrite <-!(assoc_L (++)) in Hs. rewrite (assoc_L (++)) in Hs. cbn in Hs.
    apply sorted_mid in Hs as (_ & _ & Hs & _). apply Forall_app in Hs as [_ Hs]. by eapply below_trans.
Qed.

(** ** The colours *)

(** Each path to the bottom meets [n] black nodes, and a red node has black
    children. *)
Fixpoint bal t (n : nat) : Prop :=
  match t with
  | Nil => n = 0%nat
  | Node (_, RED) a _ b => col a = BLACK ∧ col b = BLACK ∧ bal a n ∧ bal b n
  | Node (_, BLACK) a _ b => ∃ m, n = S m ∧ bal a m ∧ bal b m
  end.

(** A context for a subtree of colour [c] with [n] black nodes on each path; it
    ends with the header, below which the root is black. *)
Fixpoint ctx_ok (negInf : K) (hdr : nat) ctx (c : colour) (n : nat) : Prop :=
  match ctx with
  | [] => False
  | f :: ctx =>
      match ctx with
      | [] => f = Frame hdr Right BLACK negInf Nil ∧ c = BLACK
      | _ =>
          bal (f_sib f) n ∧
          match f_color f with
          | RED => c = BLACK ∧ col (f_sib f) = BLACK ∧ ctx_ok negInf hdr ctx RED n
          | BLACK => ctx_ok negInf hdr ctx BLACK (S n)
          end
      end
  end.

Lemma bal_mk_red d l x a b n :
  bal (mk d l RED x a b) n ↔ col a = BLACK ∧ col b = BLACK ∧ bal a n ∧ bal b n.
Proof. destruct d; cbn; tauto. Qed.
Lemma bal_mk_black d l x a b n : bal (mk d l BLACK x a b) (S n) ↔ bal a n ∧ bal b n.
Proof. destruct d; cbn; split; try (intros (m & E & H1 & H2); simplify_eq; done); intros [H1 H2]; by exists n. Qed.
Lemma col_mk d l c x a b : col (mk d l c x a b) = c.
Proof. by destruct d. Qed.
Lemma bal_blacken t n : bal t n → ∃ m, bal (blacken t) m ∧ (col t = RED → m = S n).
Proof.
  destruct t as [|[l []] a x b]; cbn; [intros ->; by exists 0%nat|intros (_ & _ & Ha & Hb)|intros (m & -> & Ha & Hb)].
  - exists (S n). split; [by exists n|done].
  - exists (S m). split; [by exists m|done].
Qed.
Lemma col_blacken t : col (blacken t) = BLACK.
Proof. by destruct t as [|[] ? ? ?]. Qed.
Lemma elements_blacken t : elements (blacken t) = elements t.
Proof. by destruct t as [|[] ? ? ?]. Qed.

(** ** handleReorient *)

Definition flip t : ltree :=
  match t with Nil => Nil | Node (l, _) a x b => Node (l, RED) (blacken a) x (blacken b) end.

(** The rotation about the parent [f1] and the grandparent [f2]: single on one
    side, double otherwise. *)
Definition spin f1 f2 t : ltree :=
  if decide (f_side f1 = f_side f2)
  then mk (f_side f2) (f_loc f1) BLACK (f_elem f1) t (mk (f_side f2) (f_loc f2) RED (f_elem f2) (f_sib f1) (f_sib f2))
  else
    match t with
    | Nil => Nil
    | Node (l, _) _ x _ =>
        mk (f_side f2) l BLACK x
          (mk (f_side f2) (f_loc f1) RED (f_elem f1) (f_sib f1) (sub (f_side f2) t))
          (mk (f_side f2) (f_loc f2) RED (f_elem f2) (sub (opp (f_side f2)) t) (f_sib f2))
    end.

Definition reorient ctx t : list frame * ltree :=
  match ctx with
  | f1 :: f2 :: f3 :: ctx' =>
      if decide (f_color f1 = RED) then (f3 :: ctx', spin f1 f2 t) else (ctx, t)
  | [_] => (ctx, blacken t)
  | _ => (ctx, t)
  end.

Lemma mk_sub d t : t ≠ Nil → ∃ l c x, t = mk d l c x (sub d t) (sub (opp d) t).
Proof. destruct t as [|[l c] a x b]; [done|]. intros _. exists l, c, x. by destruct d. Qed.

Lemma elements_spin f1 f2 t : t ≠ Nil → elements (spin f1 f2 t) = elements (plug1 f2 (plug1 f1 t)).
Proof.
  intros Ht. unfold spin, plug1. destruct t as [|[l c] a x b]; [done|].
  destruct f1 as [l1 [] c1 x1 s1], f2 as [l2 [] c2 x2 s2]; cbn; by simplify_list_eq.
Qed.

Lemma elements_plug1 f a b : elements a = elements b → elements (plug1 f a) = elements (plug1 f b).
Proof. unfold plug1. destruct (f_side f); cbn; congruence. Qed.

Lemma elements_reorient ctx t ctx' t' :
  reorient ctx t = (ctx', t') → t ≠ Nil → elements (plug ctx' t') = elements (plug ctx t).
Proof.
  intros Hr Ht. unfold reorient in Hr. destruct ctx as [|f1 [|f2 [|f3 ctx]]]; simplify_eq; try done.
  - cbn. unfold plug1. destruct (f_side f1); cbn; by rewrite elements_blacken.
  - case_decide; simplify_eq; [|done]. cbn [plug]. rewrite !(elements_plug _ (plug1 _ _)). f_equal. f_equal.
    by apply elements_plug1, elements_spin.
Qed.

Lemma bal_flip_kids t n : bal t n → col t = RED → t ≠ Nil ∧ ∀ d, col (sub d t) = BLACK ∧ bal (sub d t) n.
Proof. destruct t as [|[l []] a x b]; cbn; try done. intros (H1 & H2 & H3 & H4) _. split; [done|]. by intros []. Qed.

(** The red subtree [t] replaces a black one. *)
Lemma reorient_ok negInf hdr ctx t n ctx' t' :
  reorient ctx t = (ctx', t') → ctx_ok negInf hdr ctx BLACK n → bal t n → col t = RED →
  (∀ f1 f2 fs, ctx = f1 :: f2 :: fs → f_color f1 = RED → col (f_sib f2) = BLACK) →
  ∃ n', ctx_ok negInf hdr ctx' (col t') n' ∧ bal t' n'.
Proof.
  intros Hr Hc Hb Ht Hu. destruct ctx as [|f1 [|f2 fs]]; [done| |].
  - cbn in Hr. simplify_eq. destruct (bal_blacken _ _ Hb) as (m & Hm & _). exists m. split; [|done].
    rewrite col_blacken. split; [apply Hc|done].
  - specialize (Hu f1 f2 fs eq_refl). cbn in Hc. destruct Hc as [Hs1 Hc]. destruct (f_color f1) eqn:Hf1.
    + destruct Hc as (_ & Hcs1 & Hc). specialize (Hu eq_refl).
      destruct fs as [|f3 fs]; [by destruct Hc|]. cbn in Hr. rewrite decide_True in Hr by done. simplify_eq.
      cbn in Hc. destruct Hc as [Hs2 Hc]. destruct (f_color f2); [by destruct Hc|].
      destruct (bal_flip_kids _ _ Hb Ht) as [Hne Hk].
      exists (S n). unfold spin. case_decide as Hd.
      * rewrite col_mk. split; [done|]. apply bal_mk_black. split; [done|]. by apply bal_mk_red.
      * destruct (Hk (f_side f2)) as [Ca Ba]. destruct (Hk (opp (f_side f2))) as [Cb Bb].
        destruct t as [|[l c] a x b]; [done|]. rewrite col_mk. split; [done|].
        apply bal_mk_black. split; by apply bal_mk_red.
    + exists n. destruct fs as [|f3 fs]; cbn in Hr.
      * simplify_eq. cbn. rewrite Hf1. done.
      * rewrite decide_False in Hr by by rewrite Hf1. simplify_eq. cbn. rewrite Hf1. done.
Qed.

End Shape.

Import SetContract RedBlackTree.

Section Heap.
Context {K : Type} `{KeyOrder K}.
Implicit Types (s : @rbtree K) (t a b : @ltree K) (x item : K) (d : side) (f : @frame K) (ctx : list (@frame K)).

(** ** Reads and writes *)

Lemma rb_deref_ok A p n B s (Q : RedBlackNode → rbtree → Prop) :
  holds (store s) (A ++ (p, n) :: B) → Q n s → ensures (deref p) s Q.
Proof.
  intros Hm HQ. apply ensures_bind, ensures_get. rewrite (holds_lookup _ p n (A ++ B)); [by apply ensures_ret|].
  holds_by Hm.
Qed.

Lemma rb_get_ok A d p n B s (Q : nat → rbtree → Prop) :
  holds (store s) (A ++ (p, n) :: B) → Q (child d n) s → ensures (get_child d p) s Q.
Proof. intros Hm HQ. apply ensures_bind. eapply rb_deref_ok; [exact Hm|]. by apply ensures_ret. Qed.

Lemma rb_assign_ok A p n B g s (Q : () → rbtree → Prop) :
  holds (store s) (A ++ (p, n) :: B) →
  (∀ m, holds m (A ++ (p, g n) :: B) → Q () (set_store m s)) → ensures (assign p g) s Q.
Proof.
  intros Hm HQ. apply ensures_bind. eapply rb_deref_ok; [exact Hm|]. apply ensures_modify. apply HQ.
  assert (Hm' : holds (store s) ((p, n) :: A ++ B)) by holds_by Hm.
  apply (holds_write _ _ _ (g n)) in Hm'. holds_by Hm'.
Qed.

(** ** Rotations *)

(** Both rotations, the mirror images of each other. *)
Definition rotate_with (e d : side) (p : nat) : @io K () :=
  k2 <- get_child d p ;;
  k1 <- get_child e k2 ;;
  b <- get_child (opp e) k1 ;;
  set_child e k2 b ;;;
  set_child (opp e) k1 k2 ;;;
  set_child d p k1.

Lemma rotate_with_eq e d p :
  rotate_with e d p = match e with Left => rotateWithLeftChild d p | Right => rotateWithRightChild d p end.
Proof. by destruct e. Qed.

Lemma rotate_with_ok e d p k2 k1 xp x2 x1 (bp b2 a1 b1 : nat) cp c2 c1 B s (Q : () → rbtree → Prop) :
  holds (store s) ((p, node_of d xp k2 bp cp) :: (k2, node_of e x2 k1 b2 c2) :: (k1, node_of e x1 a1 b1 c1) :: B) →
  (∀ m, holds m ((p, node_of d xp k1 bp cp) :: (k2, node_of e x2 b1 b2 c2) :: (k1, node_of e x1 a1 k2 c1) :: B) →
        Q () (set_store m s)) →
  ensures (rotate_with e d p) s Q.
Proof.
  intros Hm HQ. unfold rotate_with, set_child.
  apply ensures_bind. eapply (rb_get_ok []); [exact Hm|]. rewrite child_node.
  apply ensures_bind. eapply (rb_get_ok [_]); [exact Hm|]. rewrite child_node.
  apply ensures_bind. eapply (rb_get_ok [_; _]); [exact Hm|]. rewrite child_opp_node.
  apply ensures_bind. eapply (rb_assign_ok [_]); [exact Hm|]. intros m1 H1. rewrite with_child_node in H1.
  apply ensures_bind. eapply (rb_assign_ok [_; _]); [exact H1|]. intros m2 H2. rewrite with_child_opp_node in H2.
  eapply (rb_assign_ok []); [exact H2|]. intros m3 H3. rewrite with_child_node in H3. by apply HQ.
Qed.

(** The comparisons with the item choose the sides. *)
Definition is_left (d : side) : bool := match d with Left => true | Right => false end.

Lemma rb_rotate_ok e d item p k2 k1 xp x2 x1 (bp b2 a1 b1 : nat) cp c2 c1 B s (Q : nat → rbtree → Prop) :
  holds (store s) ((p, node_of d xp k2 bp cp) :: (k2, node_of e x2 k1 b2 c2) :: (k1, node_of e x1 a1 b1 c1) :: B) →
  klt item xp = is_left d → klt item x2 = is_left e →
  (∀ m, holds m ((p, node_of d xp k1 bp cp) :: (k2, node_of e x2 b1 b2 c2) :: (k1, node_of e x1 a1 k2 c1) :: B) →
        Q k1 (set_store m s)) →
  ensures (rotate item p) s Q.
Proof.
  intros Hm Hd He HQ. unfold rotate. apply ensures_bind. eapply (rb_deref_ok []); [exact Hm|].
  rewrite element_node, Hd. pose proof (rotate_with_eq e d p) as Hr.
  assert (Hc : ensures (rotate_with e d p;;; get_child d p) s Q).
  { apply ensures_bind. eapply rotate_with_ok; [exact Hm|]. intros m H1.
    eapply (rb_get_ok []); [exact H1|]. rewrite child_node. by apply HQ. }
  destruct d; cbn [is_left];
    (apply ensures_bind; eapply (rb_deref_ok [_]); [exact Hm|]; rewrite element_node, He; destruct e; exact Hc).
Qed.

(** ** The null node *)

Definition null_cell (null : nat) x : nat * RedBlackNode := (null, RBNode x null null BLACK).

(** Colours are read below the null node as well. *)
Lemma is_red_ok null x t cs s (Q : bool → rbtree → Prop) :
  holds (store s) (cells null t ++ [null_cell null x] ++ cs) → Q (bool_decide (col t = RED)) s →
  ensures (is_red (root null t)) s Q.
Proof.
  intros Hm HQ. apply ensures_bind. destruct t as [|[l c] a y b].
  - eapply (rb_deref_ok []); [exact Hm|]. by apply ensures_ret.
  - eapply (rb_deref_ok []); [exact Hm|]. by apply ensures_ret.
Qed.

Lemma rb_blacken_ok null x t cs s (Q : () → rbtree → Prop) :
  holds (store s) (cells null t ++ [null_cell null x] ++ cs) →
  (∀ m, holds m (cells null (blacken t) ++ [null_cell null x] ++ cs) → Q () (set_store m s)) →
  ensures (set_color (root null t) BLACK) s Q.
Proof.
  intros Hm HQ. destruct t as [|[l c] a y b].
  - eapply (rb_assign_ok []); [exact Hm|]. intros m Hm'. by apply HQ.
  - eapply (rb_assign_ok []); [exact Hm|]. intros m Hm'. by apply HQ.
Qed.

Lemma root_blacken null t : root null (blacken t) = root null t.
Proof. by destruct t as [|[] ? ? ?]. Qed.

(** ** handleReorient *)

(** The memory of the tree [plug ctx t], with the null node and other cells. *)
Definition place_in m null ctx t x rest : Prop :=
  holds m (cells_ctx null (root null t) ctx ++ cells null t ++ [null_cell null x] ++ rest).
Definition place s ctx t x rest : Prop := place_in (store s) (nullNode s) ctx t x rest.

(** What the calls leave alone. *)
Definition same s s' : Prop := header s' = header s ∧ nullNode s' = nullNode s ∧ fresh s' = fresh s.

Definition set_path (cur par : nat) s : rbtree :=
  RBTree (store s) (fresh s) (header s) (nullNode s) cur par (grand s) (great s).

(** The rotations of handleReorient. *)
Definition respin item s : @io K () :=
  set_color (grand s) RED ;;;
  g <- deref (grand s) ;;
  p <- deref (parent s) ;;
  (when xorb (klt item (element g)) (klt item (element p)) do
     (q <- rotate item (grand s) ;; set_parent q)) ;;;
  c <- rotate item (great s) ;;
  set_current c ;;;
  set_color c BLACK.

Lemma xorb_sides d d' : xorb (is_left d) (is_left d') = bool_decide (d ≠ d').
Proof. by destruct d, d'. Qed.

Lemma aims_is_left x f : aims x f → klt x (f_elem f) = is_left (f_side f).
Proof. intros Ha. rewrite (aims_klt _ _ Ha). by destruct (f_side f). Qed.

Lemma node_side d d' x (p q : nat) c : d' ≠ d → node_of d' x p q c = node_of d x q p c.
Proof. intros Hd. rewrite (opp_ne _ _ Hd). apply node_of_opp. Qed.

Lemma respin_ok s s0 f1 f2 f3 ctx t x rest item (Q : () → rbtree → Prop) :
  place s (f1 :: f2 :: f3 :: ctx) t x rest → t ≠ Nil →
  aims item f1 → aims item f2 → aims item f3 →
  parent s0 = f_loc f1 → grand s0 = f_loc f2 → great s0 = f_loc f3 → parent s = f_loc f1 → f_color f1 = RED →
  (∀ m, let r := root (nullNode s) (spin f1 f2 t) in
        place_in m (nullNode s) (f3 :: ctx) (spin f1 f2 t) x rest → Q () (set_path r r (set_store m s))) →
  ensures (respin item s0) s Q.
Proof.
  intros Hm Hne A1 A2 A3 P1 P2 P3 P1' Hc1 HQ. set (null := nullNode s) in *.
  destruct (mk_sub (f_side f1) t Hne) as (l & c & y & Ht). set (ta := sub (f_side f1) t) in *. set (tb := sub (opp (f_side f1)) t) in *.
  destruct f1 as [l1 d1 c1 x1 s1], f2 as [l2 d2 c2 x2 s2], f3 as [l3 d3 c3 x3 s3]; cbn [f_loc f_side f_color f_elem f_sib] in *.
  apply aims_is_left in A1, A2, A3; cbn in A1, A2, A3.
  set (R := cells null s3 ++ cells_ctx null l3 ctx ++ cells null s1 ++ cells null s2 ++ cells null ta ++ cells null tb ++ [null_cell null x] ++ rest).
  assert (Hm0 : holds (store s) ([(l3, node_of d3 x3 l2 (root null s3) c3); (l2, node_of d2 x2 l1 (root null s2) c2);
     (l1, node_of d1 x1 l (root null s1) c1); (l, node_of d1 y (root null ta) (root null tb) c)] ++ R)).
  { eapply holds_perm; [exact Hm|]. unfold R. rewrite Ht at 1. rewrite root_mk. rewrite Ht, cells_mk.
    cbn [cells_ctx frame_cell f_loc f_side f_color f_elem f_sib]. solve_Permutation. }
  unfold respin, set_color. rewrite P2, P1, P3.
  apply ensures_bind. eapply (rb_assign_ok [_]); [exact Hm0|]. intros m1 Hm1. rewrite with_color_node in Hm1.
  apply ensures_bind. eapply (rb_deref_ok [_]); [exact Hm1|]. rewrite element_node.
  apply ensures_bind. eapply (rb_deref_ok [_; _]); [exact Hm1|]. rewrite element_node.
  rewrite A1, A2, xorb_sides. apply ensures_bind. destruct (decide (d2 = d1)) as [<-|Hd].
  - rewrite bool_decide_eq_false_2 by auto. apply ensures_ret.
    apply ensures_bind. eapply (rb_rotate_ok d2 d3); [exact Hm1|done..|]. intros m2 Hm2.
    apply ensures_bind, ensures_modify. eapply (rb_assign_ok [_; _]); [exact Hm2|]. intros m3 Hm3.
    rewrite with_color_node in Hm3.
    assert (Hspin : spin (Frame l1 d2 c1 x1 s1) (Frame l2 d2 c2 x2 s2) t =
                    mk d2 l1 BLACK x1 t (mk d2 l2 RED x2 s1 s2)).
    { unfold spin. cbn. by rewrite decide_True. }
    specialize (HQ m3). cbv zeta in HQ. rewrite Hspin, root_mk in HQ.
    unfold set_path, set_store in *. cbn in *. rewrite P1'. apply HQ. unfold place_in.
    eapply holds_perm; [exact Hm3|]. rewrite root_mk, cells_mk, cells_mk, root_mk.
    cbn [cells_ctx frame_cell f_loc f_side f_color f_elem f_sib]. unfold R. rewrite Ht, root_mk, cells_mk. fold ta tb. solve_Permutation.
  - rewrite bool_decide_eq_true_2 by done.
    assert (Hm1' : holds (store (set_store m1 s)) ((l2, node_of d2 x2 l1 (root null s2) RED) :: (l1, node_of d1 x1 l (root null s1) c1) ::
       (l, node_of d1 y (root null ta) (root null tb) c) :: (l3, node_of d3 x3 l2 (root null s3) c3) :: R)) by holds_by Hm1.
    apply ensures_bind. eapply (rb_rotate_ok d1 d2); [exact Hm1'|done..|]. intros m2 Hm2. apply ensures_modify.
    rewrite (node_side d2 d1 y) in Hm2 by auto.
    assert (Hm2' : holds m2 ((l3, node_of d3 x3 l2 (root null s3) c3) :: (l2, node_of d2 x2 l (root null s2) RED) ::
       (l, node_of d2 y l1 (root null ta) c) :: (l1, node_of d1 x1 (root null tb) (root null s1) c1) :: R)) by holds_by Hm2.
    apply ensures_bind. eapply (rb_rotate_ok d2 d3); [exact Hm2'|done..|]. intros m3 Hm3.
    apply ensures_bind, ensures_modify. eapply (rb_assign_ok [_; _]); [exact Hm3|]. intros m4 Hm4.
    rewrite with_color_node in Hm4.
    assert (Hspin : spin (Frame l1 d1 c1 x1 s1) (Frame l2 d2 c2 x2 s2) t =
                    mk d2 l BLACK y (mk d2 l1 RED x1 s1 tb) (mk d2 l2 RED x2 ta s2)).
    { unfold spin. cbn. rewrite decide_False by auto. rewrite Ht at 1.
      assert (Hta : sub (opp d2) t = ta) by (unfold ta; by rewrite (opp_ne d1 d2) by auto).
      assert (Htb : sub d2 t = tb) by (unfold tb; by rewrite (opp_ne d2 d1) by auto).
      rewrite Hta, Htb. by destruct d1. }
    specialize (HQ m4). cbv zeta in HQ. rewrite Hspin, root_mk in HQ.
    unfold set_path, set_store in *. cbn in *. apply HQ. unfold place_in.
    eapply holds_perm; [exact Hm4|]. rewrite root_mk, !cells_mk, !root_mk.
    cbn [cells_ctx frame_cell f_loc f_side f_color f_elem f_sib]. unfold R. subst c1. rewrite (node_side d2 d1 x1) by auto. solve_Permutation.
Qed.

(** The path ends with the header, above a black root. *)
Definition header_frame (negInf : K) (hdr : nat) : frame := Frame hdr Right BLACK negInf Nil.
Definition ends (negInf : K) (hdr : nat) ctx : Prop :=
  ctx = [header_frame negInf hdr] ∨ ∃ fs f, ctx = fs ++ [f; header_frame negInf hdr] ∧ f_color f = BLACK.

Lemma ctx_ok_ends negInf hdr ctx c n : ctx_ok negInf hdr ctx c n → ends negInf hdr ctx.
Proof.
  revert c n. induction ctx as [|f ctx IH]; intros c n Hc; [done|]. destruct ctx as [|g ctx].
  - destruct Hc as [-> _]. by left.
  - right. cbn in Hc. destruct Hc as [_ Hc].
    assert (Hc' : ∃ m, ctx_ok negInf hdr (g :: ctx) (f_color f) m) by (destruct (f_color f); [exists n|exists (S n)]; tauto).
    destruct Hc' as [m Hc']. destruct (IH _ _ Hc') as [E|(fs & h & E & Hh)].
    + rewrite E in Hc' |- *. destruct Hc' as [_ Hf]. by exists [], f.
    + rewrite E. by exists (f :: fs), h.
Qed.

Lemma ends_tail negInf hdr f g ctx : ends negInf hdr (f :: g :: ctx) → ends negInf hdr (g :: ctx).
Proof.
  intros [E|(fs & h & E & Hh)]; [done|]. destruct fs as [|f' fs]; simplify_eq/=; [by left|].
  right. by exists fs, h.
Qed.

Lemma cells_ctx_app null h ctx f ctx' :
  cells_ctx null h (ctx ++ f :: ctx') ≡ₚ cells_ctx null h (ctx ++ [f]) ++ cells_ctx null (f_loc f) ctx'.
Proof.
  revert h. induction ctx as [|g ctx IH]; intros h; cbn [cells_ctx app].
  - rewrite app_nil_r. solve_Permutation.
  - rewrite IH. solve_Permutation.
Qed.

Lemma root_black_ok s negInf ctx t x rest (Q : () → rbtree → Prop) :
  place s ctx t x rest → ends negInf (header s) ctx →
  (∀ m, place_in m (nullNode s) ctx (match ctx with [_] => blacken t | _ => t end) x rest → Q () (set_store m s)) →
  ensures (r <- get_child Right (header s) ;; set_color r BLACK) s Q.
Proof.
  intros Hm He HQ. unfold place in Hm. set (null := nullNode s) in *. set (hdr := header s) in *. apply ensures_bind.
  destruct He as [->|(fs & f & -> & Hf)].
  - cbn [cells_ctx frame_cell header_frame f_loc f_sib f_side f_elem f_color node_of root cells app] in Hm.
    eapply (rb_get_ok []); [exact Hm|]. cbn [child right].
    assert (Hm' : holds (store s) (cells null t ++ [null_cell null x] ++ (hdr, RBNode negInf null (root null t) BLACK) :: rest)) by holds_by Hm.
    eapply rb_blacken_ok; [exact Hm'|]. intros m H1. apply HQ. unfold place_in.
    eapply holds_perm; [exact H1|]. rewrite root_blacken. cbn. solve_Permutation.
  - assert (Hsplit : ∃ h B, cells_ctx null (root null t) (fs ++ [f]) ≡ₚ [(f_loc f, node_of (f_side f) (f_elem f) h (root null (f_sib f)) BLACK)] ++ B).
    { clear Hm HQ. generalize (root null t). induction fs as [|g fs IH]; intros h; cbn [app cells_ctx]; unfold frame_cell.
      - rewrite Hf. by eexists _, _.
      - destruct (IH (f_loc g)) as (h' & B & E). exists h', (frame_cell null h g :: cells null (f_sib g) ++ B).
        rewrite E. unfold frame_cell. solve_Permutation. }
    destruct Hsplit as (h & B & E). set (fcell := (f_loc f, node_of _ _ _ _ _)) in E.
    assert (Hc : cells_ctx null (root null t) (fs ++ [f; header_frame negInf hdr]) ≡ₚ
                 [(hdr, RBNode negInf null (f_loc f) BLACK)] ++ [fcell] ++ B).
    { rewrite (cells_ctx_app null _ fs f), E. cbn. solve_Permutation. }
    assert (Hm1 : holds (store s) ((hdr, RBNode negInf null (f_loc f) BLACK) :: fcell :: B ++ cells null t ++ [null_cell null x] ++ rest)).
    { eapply holds_perm; [exact Hm|]. rewrite Hc. solve_Permutation. }
    eapply (rb_get_ok []); [exact Hm1|]. cbn [child right]. unfold fcell in Hm1.
    eapply (rb_assign_ok [_]); [exact Hm1|]. intros m Hm2. rewrite with_color_node in Hm2. apply HQ.
    assert (Ht : match fs ++ [f; header_frame negInf hdr] with [_] => blacken t | _ => t end = t) by (by destruct fs as [|? []]).
    rewrite Ht. unfold place_in. eapply holds_perm; [exact Hm2|]. rewrite Hc. unfold fcell. solve_Permutation.
Qed.

(** The pointers above [current] that handleReorient uses. *)
Definition linked s ctx : Prop :=
  match ctx with
  | [] => False
  | f1 :: fs =>
      parent s = f_loc f1 ∧
      (f_color f1 = RED → match fs with f2 :: f3 :: _ => grand s = f_loc f2 ∧ great s = f_loc f3 | _ => False end)
  end.

Definition red_parent ctx : bool := match ctx with f :: _ => bool_decide (f_color f = RED) | [] => false end.

Lemma parent_cell null h f ctx : cells_ctx null h (f :: ctx) = frame_cell null h f :: cells null (f_sib f) ++ cells_ctx null (f_loc f) ctx.
Proof. done. Qed.

Lemma set_path_same s : set_path (current s) (parent s) s = s.
Proof. by destruct s. Qed.

Lemma handleReorient_ok negInf s ctx l c y a b x rest item (Q : () → rbtree → Prop) :
  place s ctx (Node (l, c) a y b) x rest → current s = l → ends negInf (header s) ctx → Forall (aims item) ctx → linked s ctx →
  (∀ m ctx' t', reorient ctx (flip (Node (l, c) a y b)) = (ctx', t') → place_in m (nullNode s) ctx' t' x rest →
    Q () (set_path (root (nullNode s) t') (if red_parent ctx then root (nullNode s) t' else parent s) (set_store m s))) →
  ensures (handleReorient item) s Q.
Proof.
  intros Hm Hcur Hends Haims Hl HQ. set (null := nullNode s) in *. set (t := flip (Node (l, c) a y b)) in *.
  destruct ctx as [|f1 fs]; [done|]. destruct Hl as [Hpar Hred].
  assert (Hm0 : holds (store s) ((l, RBNode y (root null a) (root null b) c) :: cells null a ++ [null_cell null x] ++
      cells null b ++ cells_ctx null l (f1 :: fs) ++ rest)).
  { eapply holds_perm; [exact Hm|]. cbn [cells root]. fold null. solve_Permutation. }
  unfold handleReorient. apply ensures_bind, ensures_get. rewrite Hcur.
  apply ensures_bind. eapply (rb_assign_ok []); [exact Hm0|]. intros m1 Hm1. cbn [with_color] in Hm1.
  apply ensures_bind. eapply (rb_get_ok []); [exact Hm1|]. cbn [child left].
  assert (Hm1' : holds m1 (cells null a ++ [null_cell null x] ++
      (l, RBNode y (root null a) (root null b) RED) :: cells null b ++ cells_ctx null l (f1 :: fs) ++ rest)) by holds_by Hm1.
  apply ensures_bind. eapply rb_blacken_ok; [exact Hm1'|]. intros m2 Hm2.
  apply ensures_bind. eapply (rb_get_ok (cells null (blacken a) ++ [null_cell null x])); [rewrite <-(assoc_L (++)); exact Hm2|]. cbn [child right].
  assert (Hm2' : holds m2 (cells null b ++ [null_cell null x] ++
      (l, RBNode y (root null a) (root null b) RED) :: cells null (blacken a) ++ cells_ctx null l (f1 :: fs) ++ rest)) by holds_by Hm2.
  apply ensures_bind. eapply rb_blacken_ok; [exact Hm2'|]. intros m3 Hm3.
  assert (Hp : place (set_store m3 s) (f1 :: fs) t x rest).
  { eapply holds_perm; [exact Hm3|]. cbn [flip t cells root]. rewrite !root_blacken. cbn. fold null. solve_Permutation. }
  change (set_store m3 (set_store m2 (set_store m1 s))) with (set_store m3 s). clear Hm1 Hm1' Hm2 Hm2' Hm3 m1 m2.
  set (s3 := set_store m3 s) in *.
  apply ensures_bind.
  assert (Hf : holds (store s3) ((f_loc f1, node_of (f_side f1) (f_elem f1) l (root null (f_sib f1)) (f_color f1)) ::
      cells null (f_sib f1) ++ cells_ctx null (f_loc f1) fs ++ cells null t ++ [null_cell null x] ++ rest)).
  { eapply holds_perm; [exact Hp|]. rewrite parent_cell. unfold frame_cell. cbn [root t flip]. solve_Permutation. }
  rewrite <-Hpar in Hf. eapply (rb_deref_ok []); [exact Hf|]. rewrite color_node. apply ensures_bind.
  destruct (decide (f_color f1 = RED)) as [Hc1|Hc1].
  - rewrite bool_decide_eq_true_2 by done. pose proof (Hred Hc1) as Hred'. destruct fs as [|f2 [|f3 fs]]; try done. destruct Hred' as [Hg Hgr].
    change (ensures (respin item s) s3 (λ _ s', ensures (r <- get_child Right (header s) ;; set_color r BLACK) s' Q)).
    apply Forall_cons in Haims as [A1 Haims]. apply Forall_cons in Haims as [A2 Haims]. apply Forall_cons in Haims as [A3 _].
    eapply (respin_ok _ _ f1 f2 f3 fs t); try done. cbv zeta. intros m4 Hm4.
    set (r := root (nullNode s3) (spin f1 f2 t)) in *.
    assert (Hr : reorient (f1 :: f2 :: f3 :: fs) t = (f3 :: fs, spin f1 f2 t)) by (cbn; by rewrite decide_True).
    change (header s) with (header (set_path r r (set_store m4 s3))).
    eapply (root_black_ok _ negInf (f3 :: fs) (spin f1 f2 t)); [exact Hm4|by eapply ends_tail, ends_tail|].
    intros m5 Hm5. specialize (HQ m5 _ _ Hr). cbn [red_parent] in HQ. rewrite bool_decide_eq_true_2 in HQ by done.
    assert (Hb : match f3 :: fs with [_] => blacken (spin f1 f2 t) | _ => spin f1 f2 t end = spin f1 f2 t).
    { destruct fs; [|done]. unfold spin. case_decide; [by destruct (f_side f2)|]. unfold t. cbn. by destruct (f_side f2). }
    rewrite Hb in Hm5. exact (HQ Hm5).
  - rewrite bool_decide_eq_false_2 by done. apply ensures_ret.
    change (header s) with (header s3).
    eapply (root_black_ok _ negInf (f1 :: fs) t); [exact Hp|done|]. intros m4 Hm4.
    set (t' := match f1 :: fs with [_] => blacken t | _ => t end) in *.
    assert (Hr : reorient (f1 :: fs) t = (f1 :: fs, t')).
    { unfold t'. cbn. destruct fs as [|f2 [|f3 fs]]; try done. by rewrite decide_False. }
    specialize (HQ m4 _ _ Hr Hm4). cbn [red_parent] in HQ. rewrite bool_decide_eq_false_2 in HQ by done.
    assert (Hroot : root null t' = l) by (unfold t'; by destruct fs).
    rewrite Hroot, <-Hcur in HQ. destruct s. exact HQ.
Qed.

End Heap.
