(* ===== verification/RedBlackInsert.v ===== *)
(** * insert: the loop that goes down

    [stands] says what holds at the head of the loop.  In three situations the
    pointers are not all right: at the start ([current] is the header); after a
    rotation ([After]), when [grand] and [great] are stale; and one step later
    ([Below]), when [grand] is.  In these the next nodes on the path have black
    children, so nothing is done with the stale pointers.  [k] bounds the rounds
    that are left. *)
From S2P Require Import Prelude StdMap Hoare NodeStore BinTree RedBlackTree RedBlackHeap.
Import SetContract RedBlackTree.

Section Insert.
Context {K : Type} `{KeyOrder K} (negInf : K).
Implicit Types (s : @rbtree K) (t a b : @ltree K) (x y : K) (d : side) (f : @frame K) (ctx : list (@frame K)).

(** ** The search path *)

(** The child on the path to [x]. *)
Definition next x t : ltree := match t with Nil => Nil | Node _ a y b => if klt x y then a else b end.
Fixpoint plen x t : nat := match t with Nil => 0 | Node _ a y b => S (if klt x y then plen x a else plen x b) end.

Lemma plen_next x t : t ≠ Nil → plen x t = S (plen x (next x t)).
Proof. destruct t as [|i a y b]; [done|]. cbn. by destruct (klt x y). Qed.

Lemma plen_size x t : (plen x t ≤ length (elements t))%nat.
Proof.
  induction t as [|i a IHa y b IHb]; cbn [plen elements]; [done|]. rewrite length_app. cbn [length].
  destruct (klt x y); lia.
Qed.

Lemma plen_blacken x t : plen x (blacken t) = plen x t.
Proof. by destruct t as [|[] ? ? ?]. Qed.

Lemma next_mk d l c x y a b : klt x y = is_left d → next x (mk d l c y a b) = a.
Proof. destruct d; cbn; by intros ->. Qed.
Lemma next_mk_opp d l c x y a b : klt x y = is_left (opp d) → next x (mk d l c y a b) = b.
Proof. destruct d; cbn; by intros ->. Qed.

Definition both_red t : Prop := col (sub Left t) = RED ∧ col (sub Right t) = RED.

(** The next node is there, and it and its children are black. *)
Definition quiet x t : Prop :=
  next x t ≠ Nil ∧ col (next x t) = BLACK ∧ ∀ d, col (sub d (next x t)) = BLACK.

(** ** The places of the loop *)

(** [parent] and [grand] are right; [great], too, where a leaf is to be added. *)
Record regular x s ctx t : Prop := Regular {
  g_parent : ∀ f1 fs, ctx = f1 :: fs → parent s = f_loc f1 ∧ (col t = RED → col (f_sib f1) = BLACK ∨ quiet x t);
  g_grand : ∀ f1 f2 fs, ctx = f1 :: f2 :: fs → grand s = f_loc f2;
  g_great : ∀ f1 f2 f3 fs, ctx = f1 :: f2 :: f3 :: fs → t = Nil → f_color f1 = RED → great s = f_loc f3 ∧ col (f_sib f2) = BLACK;
  g_kids : ¬ both_red t
}.

Inductive standing x s ctx t : nat → Prop :=
| At_header T n : ctx = [] → t = Node (header s, BLACK) Nil negInf T → bal T n → col T = BLACK → standing x s ctx t (3 * plen x t)
| In_tree n : ctx_ok negInf (header s) ctx (col t) n → bal t n → regular x s ctx t → standing x s ctx t (3 * plen x t)
| After n : ctx_ok negInf (header s) ctx (col t) n → bal t n → col t = BLACK → t ≠ Nil → col (next x t) = RED →
    quiet x (next x t) → standing x s ctx t (3 * plen x t - 4)
| Below n : ctx_ok negInf (header s) ctx (col t) n → bal t n → col t = RED → quiet x t →
    (∀ f1 fs, ctx = f1 :: fs → parent s = f_loc f1) → standing x s ctx t (3 * plen x t - 2).

Record stands x s ctx t rest k : Prop := Stands {
  st_place : place s ctx t x rest;
  st_current : current s = root (nullNode s) t;
  st_aims : Forall (aims x) ctx;
  st_standing : standing x s ctx t k
}.

(** ** One level down *)

Definition frame_of d t : frame :=
  match t with Nil => Frame 0 d BLACK negInf Nil | Node (l, c) _ y _ => Frame l d c y (sub (opp d) t) end.

Definition dir x y : side := if klt x y then Left else Right.
Lemma dir_left x y : klt x y = is_left (dir x y).
Proof. unfold dir. by destruct (klt x y). Qed.
Lemma dir_aims x f : aims x f → dir x (f_elem f) = f_side f.
Proof. intros Ha. unfold dir. rewrite (aims_is_left _ _ Ha). by destruct (f_side f). Qed.

Lemma next_sub x l c a y b : next x (Node (l, c) a y b) = sub (dir x y) (Node (l, c) a y b).
Proof. unfold dir. cbn. by destruct (klt x y). Qed.

Lemma plug1_frame d t : t ≠ Nil → plug1 (frame_of d t) (sub d t) = t.
Proof. destruct t as [|[l c] a y b]; [done|]. by destruct d. Qed.

Lemma aims_frame x l c a y b : y ≠ x → aims x (frame_of (dir x y) (Node (l, c) a y b)).
Proof.
  intros Hne. unfold aims, dir. destruct (cmp_cases x y) as [[-> ?]|[(-> & _ & ?)|(_ & _ & ?)]]; [done..|congruence].
Qed.

(** The balance of the place below. *)
Lemma ctx_ok_down hdr ctx t n d : ctx_ok negInf hdr ctx (col t) n → bal t n → t ≠ Nil →
  ∃ m, ctx_ok negInf hdr (frame_of d t :: ctx) (col (sub d t)) m ∧ bal (sub d t) m.
Proof.
  intros Hc Hb Hne. destruct t as [|[l c] a y b]; [done|]. destruct ctx as [|f ctx]; [done|].
  destruct c; cbn [col bal] in *.
  - destruct Hb as (Ca & Cb & Ba & Bb). exists n. destruct d; cbn; tauto.
  - destruct Hb as (m & -> & Ba & Bb). exists m. destruct d; cbn; tauto.
Qed.

(** ** The step *)

Lemma descend_ok x s ctx l c a y b rest (Q : () → rbtree → Prop) :
  place s ctx (Node (l, c) a y b) x rest → current s = l →
  (let t := Node (l, c) a y b in let d := dir x y in let s' := RBTree (store s) (fresh s) (header s) (nullNode s)
      (root (nullNode s) (sub d t)) l (parent s) (grand s) in
   place s' (frame_of d t :: ctx) (sub d t) x rest → Q () s') →
  ensures (descend x) s Q.
Proof.
  intros Hm Hcur HQ. unfold descend. apply ensures_bind, ensures_get. rewrite Hcur. apply ensures_bind.
  set (null := nullNode s) in *.
  eapply (rb_deref_ok [] l (RBNode y (root null a) (root null b) c) (cells null a ++ cells null b ++ cells_ctx null l ctx ++ [null_cell null x] ++ rest)).
  { eapply holds_perm; [exact Hm|]. fold null. cbn [cells root]. solve_Permutation. }
  apply ensures_put. cbn [element left right]. cbv zeta in HQ. unfold dir in *.
  destruct (klt x y); apply HQ; (eapply holds_perm; [exact Hm|]); fold null; cbn [cells root sub frame_of cells_ctx f_sib f_loc];
    unfold frame_cell; cbn [f_loc f_side f_elem f_color f_sib node_of opp nullNode sub]; fold null; solve_Permutation.
Qed.

(** The colour of a child is read, below the null node as well. *)
Lemma kid_red_ok s ctx t x rest d (Q : bool → rbtree → Prop) :
  place s ctx t x rest → Q (bool_decide (col (sub d t) = RED)) s →
  ensures (r <- get_child d (root (nullNode s) t) ;; is_red r) s Q.
Proof.
  intros Hp HQ. set (null := nullNode s) in *. apply ensures_bind. destruct t as [|[l c] a y b].
  - eapply (rb_get_ok (cells_ctx null null ctx) d null (RBNode x null null BLACK)); [exact Hp|].
    assert (Hn : child d (RBNode x null null BLACK) = root null (Nil : @ltree K)) by by destruct d. rewrite Hn.
    eapply (is_red_ok null x (Nil : @ltree K) (cells_ctx null null ctx ++ rest)); [|exact HQ]. eapply holds_perm; [exact Hp|]. fold null. cbn [cells root]. solve_Permutation.
  - eapply (rb_get_ok (cells_ctx null l ctx) d l (RBNode y (root null a) (root null b) c)); [exact Hp|].
    assert (Hn : child d (RBNode y (root null a) (root null b) c) = root null (sub d (Node (l, c) a y b))) by by destruct d.
    rewrite Hn. eapply (is_red_ok null x _ ((l, RBNode y (root null a) (root null b) c) :: cells null (sub (opp d) (Node (l, c) a y b)) ++ cells_ctx null l ctx ++ rest)); [|exact HQ]. eapply holds_perm; [exact Hp|]. fold null. cbn [cells root].
    destruct d; cbn [sub opp]; solve_Permutation.
Qed.

(** The state after the pointers have moved. *)
Definition below x t s : rbtree :=
  RBTree (store s) (fresh s) (header s) (nullNode s) (root (nullNode s) (next x t)) (current s) (parent s) (grand s).

Lemma insert_step_cases x s ctx l c a y b rest (Q : () → rbtree → Prop) :
  let t := Node (l, c) a y b in
  let ctx1 := frame_of (dir x y) t :: ctx in
  place s ctx t x rest → current s = l → Forall (aims x) ctx → y ≠ x →
  (¬ both_red (next x t) → place (below x t s) ctx1 (next x t) x rest → Q () (below x t s)) →
  (both_red (next x t) → ends negInf (header s) ctx1 ∧ linked (below x t s) ctx1 ∧
    ∀ m ctx' t', reorient ctx1 (flip (next x t)) = (ctx', t') → place_in m (nullNode s) ctx' t' x rest →
      Q () (set_path (root (nullNode s) t') (if red_parent ctx1 then root (nullNode s) t' else l) (set_store m (below x t s)))) →
  ensures (insert_step x) s Q.
Proof.
  intros t ctx1 Hm Hcur Ha Hne Hno Hyes. unfold insert_step. apply ensures_bind.
  eapply descend_ok; [exact Hm|done|]. cbv zeta. rewrite <-(next_sub x l c a y b). fold t.
  replace (RBTree (store s) (fresh s) (header s) (nullNode s) (root (nullNode s) (next x t)) l (parent s) (grand s))
    with (below x t s) by (unfold below; by rewrite Hcur).
  fold ctx1. intros Hp. set (s1 := below x t s) in *. set (null := nullNode s) in *. set (t1 := next x t) in *.
  assert (Ha1 : Forall (aims x) ctx1) by (apply Forall_cons; split; [by apply aims_frame|done]).
  apply ensures_bind, ensures_get. change (current s1) with (root (nullNode s1) t1).
  apply ensures_assoc. eapply kid_red_ok; [exact Hp|].
  destruct (decide (col (sub Left t1) = RED)) as [HL|HL].
  2: { rewrite bool_decide_eq_false_2 by done. apply ensures_ret. apply Hno; [|done]. by intros [? _]. }
  rewrite bool_decide_eq_true_2 by done.
  apply ensures_assoc. eapply kid_red_ok; [exact Hp|].
  destruct (decide (col (sub Right t1) = RED)) as [HR|HR].
  2: { rewrite bool_decide_eq_false_2 by done. apply ensures_ret. apply Hno; [|done]. by intros [_ ?]. }
  rewrite bool_decide_eq_true_2 by done.
  destruct (Hyes (conj HL HR)) as (Hends & Hlinked & Hpost).
  destruct t1 as [|[l1 c1] a1 y1 b1] eqn:E1; [done|].
  eapply (handleReorient_ok negInf s1 ctx1 l1 c1 y1 a1 b1); try done.
  - change (root null t1 = l1). by rewrite E1.
  - intros m ctx' t' Hr Hp'. specialize (Hpost m ctx' t' Hr Hp'). change (parent s1) with (current s). by rewrite Hcur.
Qed.

(** ** Two red children *)

Lemma both_red_flip x t n : bal t n → both_red t →
  col t = BLACK ∧ bal (flip t) n ∧ col (flip t) = RED ∧ flip t ≠ Nil ∧ quiet x (flip t) ∧
  plen x (flip t) = plen x t ∧ elements (flip t) = elements t.
Proof.
  intros Hb [HL HR]. destruct t as [|[l []] a y b]; [done| |]; cbn [sub] in *.
  { destruct Hb as (Ca & _). congruence. }
  destruct Hb as (m & -> & Ba & Bb). destruct a as [|[la ca] a1 ya a2]; [done|]. destruct b as [|[lb cb] b1 yb b2]; [done|].
  cbn in HL, HR. subst ca cb. cbn in Ba, Bb. destruct Ba as (? & ? & ? & ?), Bb as (? & ? & ? & ?).
  split_and!; [done| |done|done| |done|done].
  - cbn. split_and!; try done; by exists m.
  - unfold quiet. cbn. destruct (klt x y); (split_and!; [done|done|by intros []]).
Qed.

(** After the rotation the path goes through two nodes of the old one. *)
Lemma spin_path x f1 f2 t : aims x f1 → aims x f2 → t ≠ Nil → col t = RED → quiet x t →
  let r := spin f1 f2 t in
  col r = BLACK ∧ r ≠ Nil ∧ col (next x r) = RED ∧ quiet x (next x r) ∧ plen x r = S (plen x t).
Proof.
  intros A1 A2 Hne Hc Hq. cbv zeta. apply aims_is_left in A1, A2. unfold spin. case_decide as Hd.
  - rewrite Hd in A1. rewrite (plen_next x (mk _ _ _ _ _ _)) by by destruct (f_side f2).
    rewrite (next_mk _ _ _ x) by done. split_and!; try done; by destruct (f_side f2).
  - destruct t as [|[l c] a y b]; [done|]. set (t := Node (l, c) a y b) in *.
    assert (Hd1 : f_side f1 = opp (f_side f2)) by by apply opp_ne. rewrite Hd1 in A1. set (d := f_side f2) in *.
    destruct Hq as (Q1 & Q2 & Q3).
    assert (Hy : klt x y = is_left d ∧ next x t = sub d t ∨ klt x y = is_left (opp d) ∧ next x t = sub (opp d) t).
    { unfold t. cbn. destruct d, (klt x y); auto. }
    rewrite (plen_next x (mk _ _ _ _ _ _)) by by destruct d.
    destruct Hy as [[Hy Hn]|[Hy Hn]].
    + rewrite (next_mk d _ _ x) by done. rewrite !col_mk. split_and!; try done; [by destruct d| |].
      * unfold quiet. rewrite (next_mk_opp d _ _ x) by done. by rewrite <-Hn.
      * rewrite (plen_next x (mk _ _ _ _ _ _)) by by destruct d. rewrite (next_mk_opp d _ _ x) by done.
        rewrite (plen_next x t) by done. by rewrite Hn.
    + rewrite (next_mk_opp d _ _ x) by done. rewrite !col_mk. split_and!; try done; [by destruct d| |].
      * unfold quiet. rewrite (next_mk d _ _ x) by done. by rewrite <-Hn.
      * rewrite (plen_next x (mk _ _ _ _ _ _)) by by destruct d. rewrite (next_mk d _ _ x) by done.
        rewrite (plen_next x t) by done. by rewrite Hn.
Qed.

(** ** The loop goes on *)

(** The place below is balanced, in each situation. *)
Lemma standing_down x s ctx t k : standing x s ctx t k → t ≠ Nil → lt negInf x →
  (ctx = [] → ∀ l c a y b, t = Node (l, c) a y b → y = negInf) →
  ∃ l c a y b, t = Node (l, c) a y b ∧
  ∃ m, ctx_ok negInf (header s) (frame_of (dir x y) t :: ctx) (col (next x t)) m ∧ bal (next x t) m.
Proof.
  intros Hst Hne Hx _. destruct t as [|[l c] a y b]; [done|]. exists l, c, a, y, b. split; [done|].
  rewrite next_sub. destruct Hst as [T n -> Ht Hb Hc|n Hc Hb _|n Hc Hb _ _ _|n Hc Hb _ _].
  - simplify_eq. assert (Hd : dir x negInf = Right) by (unfold dir; by rewrite lt_asym). rewrite Hd. exists n. by cbn.
  - by apply (ctx_ok_down _ _ _ _ (dir x y) Hc Hb).
  - by apply (ctx_ok_down _ _ _ _ (dir x y) Hc Hb).
  - by apply (ctx_ok_down _ _ _ _ (dir x y) Hc Hb).
Qed.

(** Where two red children can be met, the pointers are right and the uncle is
    black. *)
Lemma standing_red x s ctx l c a y b k :
  let t := Node (l, c) a y b in
  standing x s ctx t k → both_red (next x t) → current s = l → lt negInf x →
  linked (below x t s) (frame_of (dir x y) t :: ctx) ∧
  (∀ f1 f2 fs, frame_of (dir x y) t :: ctx = f1 :: f2 :: fs → f_color f1 = RED → col (f_sib f2) = BLACK) ∧
  (∀ f1 fs, ctx = f1 :: fs → parent s = f_loc f1) ∧
  k = (3 * plen x t)%nat.
Proof.
  intros t Hst [HL HR] Hcur Hx. unfold t in *. destruct Hst as [T n -> Ht Hb Hc|n Hc Hb [G1 G2 G3 G4]|n Hc Hb Hcb Hne Hr Hq|n Hc Hb Hr Hq Hp].
  - simplify_eq. cbn. split; [done|]. split_and!; [by intros|by intros|done].
  - destruct ctx as [|f1 fs]; [done|]. destruct (G1 f1 fs eq_refl) as [P1 U1].
    assert (Hu : c = RED → col (f_sib f1) = BLACK).
    { intros ->. destruct (U1 eq_refl) as [?|(_ & _ & Q)]; [done|]. specialize (Q Left). congruence. }
    split; [|split; [|split; [|done]]].
    + cbn. split; [done|]. intros ->. cbn in Hc. destruct fs as [|f2 fs]; [by destruct Hc|]. split; [done|].
      by apply (G2 f1 f2 fs).
    + intros f1' f2' fs' E Hred. injection E as <- <- <-. by apply Hu.
    + intros f1' fs' E. by apply (G1 f1' fs').
  - destruct Hq as (_ & Q & _). exfalso. destruct (next x (Node (l, c) a y b)) as [|[l1 []] a1 y1 b1] eqn:E; try done.
    pose proof (ctx_ok_down _ _ _ _ (dir x y) Hc Hb Hne) as (m & _ & Hb1). rewrite <-next_sub, E in Hb1.
    cbn in Hb1, HL. destruct Hb1 as (Ca & _). congruence.
  - destruct Hq as (_ & _ & Q). specialize (Q Left). congruence.
Qed.

(** Where there are none, the next place is one of the situations. *)
Lemma standing_black x s ctx l c a y b k :
  let t := Node (l, c) a y b in
  standing x s ctx t k → ¬ both_red (next x t) → current s = l → lt negInf x → y ≠ x →
  ∃ k', standing x (below x t s) (frame_of (dir x y) t :: ctx) (next x t) k' ∧ (k' < k)%nat.
Proof.
  intros t Hst Hno Hcur Hx Hyx. assert (Hne : t ≠ Nil) by done.
  destruct (standing_down x s ctx t k Hst Hne Hx) as (l' & c' & a' & y' & b' & E & m & Hc1 & Hb1).
  { intros -> l0 c0 a0 y0 b0 E. inversion Hst as [T n _ Ht|n Hc|n Hc|n Hc]; try done. rewrite Ht in E. by simplify_eq. }
  assert (y' = y) as -> by (unfold t in E; by simplify_eq). clear E l' c' a' b'.
  pose proof (plen_next x t Hne) as Hp.
  destruct Hst as [T n Ectx Ht Hb Hc|n Hc Hb [G1 G2 G3 G4]|n Hc Hb Hcb _ Hr Hq|n Hc Hb Hr Hq Hpar]; unfold t in *.
  - exists (3 * plen x (next x (Node (l, c) a y b)))%nat. split; [|lia]. eapply In_tree; [exact Hc1|exact Hb1|]. subst ctx.
    split; [|intros; by simplify_eq..|done].
    intros f1 fs Ef. injection Ef as <- <-. split; [done|]. intros Hred. simplify_eq.
    rewrite next_sub in Hred. unfold dir in Hred. rewrite lt_asym in Hred by done. cbn in Hred. congruence.
  - exists (3 * plen x (next x (Node (l, c) a y b)))%nat. split; [|lia]. eapply In_tree; [exact Hc1|exact Hb1|]. split; [| | |done].
    + intros f1 fs Ef. injection Ef as <- <-. split; [done|]. intros Hred. left. cbn [frame_of f_sib].
      rewrite next_sub in Hred. destruct (col (sub (opp (dir x y)) (Node (l, c) a y b))) eqn:Es; [|done].
      destruct G4. destruct (dir x y); by split.
    + intros f1 f2 fs Ef. injection Ef as <- ->. cbn. by apply (G1 f2 fs).
    + intros f1 f2 f3 fs Ef Hnil Hred. injection Ef as <- ->. cbn in Hred. subst c.
      destruct (G1 f2 (f3 :: fs) eq_refl) as [_ U1]. split; [by apply (G2 f2 f3 fs)|].
      destruct (U1 eq_refl) as [?|(Q & _)]; done.
  - exists (3 * plen x (next x (Node (l, c) a y b)) - 2)%nat.
    assert (Hn1 : next x (Node (l, c) a y b) ≠ Nil) by (intros E; by rewrite E in Hr).
    pose proof (plen_next x _ Hn1) as Hp1. split; [|lia].
    eapply Below; [exact Hc1|exact Hb1|done|done|]. intros f1 fs Ef. injection Ef as <- <-. done.
  - destruct Hq as (Q1 & Q2 & Q3). exists (3 * plen x (next x (Node (l, c) a y b)))%nat. split; [|lia].
    eapply In_tree; [exact Hc1|exact Hb1|]. split.
    + intros f1 fs Ef. injection Ef as <- <-. split; [done|]. intros Hred. congruence.
    + intros f1 f2 fs Ef. injection Ef as <- ->. cbn. by apply (Hpar f2 fs).
    + intros f1 f2 f3 fs Ef Hnil. done.
    + done.
Qed.

Lemma not_both_red_flip t : ¬ both_red (flip t).
Proof. destruct t as [|[l c] a y b]; intros [HL _]; cbn in HL; [done|]. by rewrite col_blacken in HL. Qed.

Lemma insert_step_ok x s ctx l c a y b rest k :
  let t := Node (l, c) a y b in
  stands x s ctx t rest k → y ≠ x → lt negInf x →
  ensures (insert_step x) s (λ _ s', ∃ ctx' t' k', stands x s' ctx' t' rest k' ∧ (k' < k)%nat ∧
    elements (plug ctx' t') = elements (plug ctx t) ∧ same s s').
Proof.
  intros t [Hp Hcur Ha Hst] Hyx Hx. assert (Hne : t ≠ Nil) by done.
  assert (Ha1 : Forall (aims x) (frame_of (dir x y) t :: ctx)) by (apply Forall_cons; split; [by apply aims_frame|done]).
  assert (Hplug : elements (plug (frame_of (dir x y) t :: ctx) (next x t)) = elements (plug ctx t)).
  { cbn [plug]. unfold t. rewrite next_sub. by rewrite plug1_frame. }
  eapply insert_step_cases; [exact Hp|done..| |].
  - intros Hno Hp1. destruct (standing_black x s ctx l c a y b k Hst Hno Hcur Hx Hyx) as (k' & Hst' & Hk).
    exists (frame_of (dir x y) t :: ctx), (next x t), k'. split; [|done]. by split.
  - intros Hred. destruct (standing_red x s ctx l c a y b k Hst Hred Hcur Hx) as (Hl & Hu & Hpar & Hk).
    destruct (standing_down x s ctx t k Hst Hne Hx) as (l' & c' & a' & y' & b' & E & m & Hc1 & Hb1).
    { intros -> l0 c0 a0 y0 b0 E. inversion Hst as [T n _ Ht|n Hc|n Hc|n Hc]; try done. rewrite Ht in E. by simplify_eq. }
    unfold t in E. simplify_eq. fold t in Hc1, Hb1, Hl, Hu.
    destruct (both_red_flip x _ _ Hb1 Hred) as (Cb & Bf & Cf & Nf & Qf & Pf & Ef). rewrite Cb in Hc1.
    split; [by eapply ctx_ok_ends|]. split; [done|]. intros m' ctx' t' Hr Hp'.
    destruct (reorient_ok _ _ _ _ _ _ _ Hr Hc1 Bf Cf Hu) as (n' & Hc' & Hb').
    pose proof (elements_reorient _ _ _ _ Hr Nf) as Hel.
    assert (Hel' : elements (plug ctx' t') = elements (plug ctx t)).
    { rewrite <-Hplug, Hel. fold t. rewrite (elements_plug _ (flip _)), (elements_plug _ (next x t)). by rewrite Ef. }
    pose proof (plen_next x t Hne) as Hpl.
    fold t in Hr, Hel |- *. change (root (nullNode s) t) with l' in Hcur. set (f0 := frame_of (dir x y') t) in *. set (t1 := next x t) in *.
    assert (Hf0 : f_color f0 = c' ∧ f_loc f0 = l') by done. destruct Hf0 as [Hf0 Hl0].
    change (3 * plen x (Node (l', c') a' y' b'))%nat with (3 * plen x t)%nat. rewrite Hpl.
    assert (Hbelow : grand (below x t s) = parent s) by done.
    clearbody f0 t1. unfold linked in Hl. rewrite Hf0 in Hl.
    destruct c'; cbn [red_parent] in *; rewrite Hf0.
    + rewrite bool_decide_eq_true_2 by done. destruct Hl as [_ Hl]. specialize (Hl eq_refl).
      destruct ctx as [|f1 [|f2 fs]]; try done. cbn in Hr. rewrite decide_True in Hr by done. injection Hr as <- <-.
      apply Forall_cons in Ha1 as [A0 Ha1]. apply Forall_cons in Ha1 as [A1 Ha1].
      destruct (spin_path x _ f1 _ A0 A1 Nf Cf Qf) as (R1 & R2 & R3 & R4 & R5).
      eexists (f2 :: fs), _, _. split; [split|]; [exact Hp'|done|done|by eapply After|].
      split; [|done]. rewrite R5, Pf. lia.
    + rewrite bool_decide_eq_false_2 by done.
      assert (Hshape : ctx' = f0 :: ctx ∧ ¬ both_red t' ∧ t' ≠ Nil ∧ (col t' = RED → quiet x t') ∧ plen x t' = plen x t1).
      { cbn [reorient] in Hr. destruct ctx as [|f1 [|f2 fs]]; cbn in Hr; rewrite ?Hf0 in Hr; simplify_eq.
        - split; [done|]. rewrite col_blacken, plen_blacken. split_and!; try done.
          + intros Hbr. apply (not_both_red_flip t1). unfold both_red in *. by destruct (flip t1) as [|[] ? ? ?].
          + by destruct (flip t1) as [|[] ? ? ?].
        - split_and!; try done. apply not_both_red_flip.
        - rewrite decide_False in Hr by done. simplify_eq. split_and!; try done. apply not_both_red_flip. }
      destruct Hshape as (-> & S1 & S2 & S3 & S4).
      exists (f0 :: ctx), t', (3 * plen x t')%nat. split; [split|]; [exact Hp'|done|done| |split; [rewrite S4; lia|done]].
      eapply In_tree; [exact Hc'|exact Hb'|]. split; [| | |done].
      * intros f1 fs Ef1. injection Ef1 as <- <-. split; [done|]. intros Hred'. right. by apply S3.
      * intros f1 f2 fs Ef1. injection Ef1 as <- ->. cbn. by apply (Hpar f2 fs).
      * intros f1 f2 f3 fs _ Hnil. done.
Qed.

End Insert.
