(* ===== verification/RedBlackObject.v ===== *)
(** * The object between two calls, and insert() as a whole

    [rb_ok]: the memory holds the header, the tree, the null node and other cells;
    the tree is red-black and sorted.  [rb_insert_ok]: the loop reaches the item or
    the end of its path, and a new leaf is linked there. *)
From S2P Require Import Prelude StdMap Hoare NodeStore BinTree RedBlackTree RedBlackHeap RedBlackInsert.
Import SetContract RedBlackTree.

(** ** Addresses: only [new] uses a fresh one *)

Section Tame.
Context {K : Type} `{KeyOrder K}.
Implicit Types (s : @rbtree K).

Definition tame {A} (m : @io K A) : Prop :=
  ∀ s a s', m s = (Val a, s') → fresh s' = fresh s ∧ ∀ p, store s !! p = None → store s' !! p = None.

Lemma tame_ret {A} (a : A) : tame (act_ret a).
Proof. intros s a' s' E. unfold act_ret in E. by simplify_eq. Qed.
Lemma tame_bind {A B} (m : io A) (f : A → io B) : tame m → (∀ a, tame (f a)) → tame (act_bind m f).
Proof.
  intros Hm Hf s b s' E. unfold act_bind in E. destruct (m s) as [[a| | |] s1] eqn:E1; simplify_eq.
  destruct (Hm _ _ _ E1) as [F1 N1]. destruct (Hf _ _ _ _ E) as [F2 N2]. split; [congruence|auto].
Qed.
Lemma tame_get : tame get_state.
Proof. intros s a s' E. unfold get_state in E. by simplify_eq. Qed.
Lemma tame_undefined {A} : tame (A := A) undefined.
Proof. intros s a s' E. done. Qed.
Lemma tame_modify (f : rbtree → rbtree) : (∀ s, store (f s) = store s ∧ fresh (f s) = fresh s) → tame (modify f).
Proof. intros Hf s a s' E. unfold modify in E. simplify_eq. destruct (Hf s) as [-> ->]. done. Qed.
Lemma tame_deref p : tame (deref p).
Proof.
  intros s a s' E. unfold deref, act_bind, get_state in E. destruct (store s !! p); [|done].
  unfold act_ret in E. by simplify_eq.
Qed.
Lemma tame_assign p f : tame (assign p f).
Proof.
  intros s a s' E. unfold assign, act_bind, deref, get_state in E. cbn in E.
  unfold act_bind, get_state in E. destruct (store s !! p) as [n|] eqn:Ep; [|done].
  cbn in E. unfold modify in E. simplify_eq. split; [done|]. intros q Hq. cbn.
  rewrite lookup_insert_ne; [done|]. intros ->. congruence.
Qed.
Lemma tame_delete p : tame (delete_node p).
Proof.
  intros s a s' E. unfold delete_node, act_bind, deref, get_state in E. cbn in E.
  unfold act_bind, get_state in E. destruct (store s !! p) as [n|] eqn:Ep; [|done].
  cbn in E. unfold modify in E. simplify_eq. split; [done|]. intros q Hq. cbn.
  rewrite lookup_delete_None. auto.
Qed.

Create HintDb tame.
#[local] Hint Resolve tame_ret tame_get tame_undefined tame_deref tame_assign tame_delete : tame.
#[local] Hint Extern 1 (tame (modify _)) => (apply tame_modify; intros; split; reflexivity) : tame.

Ltac tame_tac :=
  lazymatch goal with
  | |- tame (act_bind _ _) => apply tame_bind; [tame_tac|intros ?; tame_tac]
  | |- tame (if ?b then _ else _) => destruct b; tame_tac
  | |- tame _ => solve [auto with tame]
  | |- _ => idtac
  end.

Lemma tame_get_child d p : tame (get_child d p).
Proof. unfold get_child. tame_tac. Qed.
Lemma tame_set_child d p q : tame (set_child d p q).
Proof. apply tame_assign. Qed.
Lemma tame_set_color p c : tame (set_color p c).
Proof. apply tame_assign. Qed.
#[local] Hint Resolve tame_get_child tame_set_child tame_set_color : tame.

Lemma tame_rotateLeft d p : tame (rotateWithLeftChild d p).
Proof. unfold rotateWithLeftChild. tame_tac. Qed.
Lemma tame_rotateRight d p : tame (rotateWithRightChild d p).
Proof. unfold rotateWithRightChild. tame_tac. Qed.
#[local] Hint Resolve tame_rotateLeft tame_rotateRight : tame.
Lemma tame_rotate x p : tame (rotate x p).
Proof. unfold rotate. tame_tac. Qed.
#[local] Hint Resolve tame_rotate : tame.
Lemma tame_handleReorient x : tame (handleReorient x).
Proof. unfold handleReorient, set_parent, set_current. tame_tac. Qed.
#[local] Hint Resolve tame_handleReorient : tame.

Lemma tame_descend x : tame (descend x).
Proof.
  intros s a s' E. unfold descend, act_bind, get_state in E. destruct (deref (current s) s) as [[n| | |] s1] eqn:Ed; simplify_eq.
  destruct (tame_deref _ _ _ _ Ed) as [F N]. unfold put_state in E. simplify_eq. cbn. auto.
Qed.
#[local] Hint Resolve tame_descend : tame.
Lemma tame_insert_step x : tame (insert_step x).
Proof. unfold insert_step, is_red. tame_tac. Qed.
#[local] Hint Resolve tame_insert_step : tame.
Lemma tame_insert_loop fuel x : tame (insert_loop fuel x).
Proof. induction fuel as [|fuel IH]; cbn [insert_loop]; tame_tac. Qed.
Lemma tame_reclaim fuel p : tame (reclaimMemory fuel p).
Proof. revert p. induction fuel as [|fuel IH]; intros p; cbn [reclaimMemory]; tame_tac. Qed.

Lemma ensures_tame {A} (m : io A) s (Q : A → rbtree → Prop) :
  tame m → ensures m s Q →
  ensures m s (λ a s', Q a s' ∧ fresh s' = fresh s ∧ ∀ p, store s !! p = None → store s' !! p = None).
Proof. intros Hm (a & s' & E & HQ). exists a, s'. split; [done|]. split; [done|]. by apply (Hm _ _ _ E). Qed.

End Tame.

(** ** insert *)

Section Insertion.
Context {K : Type} `{KeyOrder K} (negInf : K).
Implicit Types (s : @rbtree K) (t a b T : @ltree K) (x y : K) (f : @frame K) (ctx : list (@frame K)).

(** The tree with its header. *)
Definition whole hdr T : @ltree K := Node (hdr, BLACK) Nil negInf T.

(** A balanced place is a place in a red-black tree. *)
Lemma plug_whole hdr ctx t n : ctx_ok negInf hdr ctx (col t) n → bal t n →
  ∃ T m, plug ctx t = whole hdr T ∧ bal T m ∧ col T = BLACK.
Proof.
  revert t n. induction ctx as [|f ctx IH]; intros t n Hc Hb; [done|]. destruct ctx as [|g ctx].
  - destruct Hc as [-> Ht]. by exists t, n.
  - cbn in Hc. destruct Hc as [Hs Hc]. cbn [plug]. destruct f as [l d c y u]; cbn [f_sib f_color] in *.
    change (plug ctx (plug1 g (plug1 (Frame l d c y u) t))) with (plug (g :: ctx) (mk d l c y t u)). destruct c.
    + destruct Hc as (Ct & Cu & Hc). apply (IH _ n); rewrite ?col_mk; [done|]. by apply bal_mk_red.
    + apply (IH _ (S n)); rewrite ?col_mk; [done|]. by apply bal_mk_black.
Qed.

Lemma standing_whole x s ctx t k : standing negInf x s ctx t k →
  ∃ T m, plug ctx t = whole (header s) T ∧ bal T m ∧ col T = BLACK.
Proof. destruct 1 as [T n -> -> Hb Hc|n Hc Hb _|n Hc Hb _ _ _|n Hc Hb _ _]; [by exists T, n|by eapply plug_whole..]. Qed.

Lemma insert_loop_ok x fuel : lt negInf x → ∀ s ctx t rest k, stands negInf x s ctx t rest k → (k < fuel)%nat →
  ensures (insert_loop fuel x) s (λ _ s', ∃ ctx' t' k', stands negInf x s' ctx' t' rest k' ∧
    elements (plug ctx' t') = elements (plug ctx t) ∧ same s s' ∧ (t' = Nil ∨ ∃ i a b, t' = Node i a x b)).
Proof.
  intros Hx. induction fuel as [|fuel IH]; intros s ctx t rest k Hst Hk; [lia|].
  pose proof Hst as [Hp Hcur Ha Hs]. cbn [insert_loop]. apply ensures_bind, ensures_get, ensures_bind. rewrite Hcur.
  destruct t as [|[l c] a y b].
  - eapply (rb_deref_ok (cells_ctx (nullNode s) (nullNode s) ctx)); [exact Hp|]. cbn [element].
    rewrite bool_decide_eq_true_2 by done. apply ensures_ret. exists ctx, Nil, k. split_and!; try done. by left.
  - eapply (rb_deref_ok (cells_ctx (nullNode s) l ctx)); [exact Hp|]. cbn [element]. case_bool_decide as Hyx.
    + subst y. apply ensures_ret. exists ctx, (Node (l, c) a x b), k. split_and!; try done. right. by exists (l, c), a, b.
    + apply ensures_bind. eapply ensures_weaken; [by eapply insert_step_ok|]. cbv beta.
      intros _ s1 (ctx1 & t1 & k1 & Hst1 & Hk1 & He1 & Hs1).
      eapply ensures_weaken; [apply (IH s1 ctx1 t1 rest k1 Hst1); lia|]. cbv beta.
      intros _ s2 (ctx2 & t2 & k2 & Hst2 & He2 & Hs2 & Hend). exists ctx2, t2, k2. split_and!; try done; [congruence|].
      destruct Hs1 as (E1 & E2 & E3), Hs2 as (E4 & E5 & E6). split_and!; congruence.
Qed.

(** ** The object between two calls *)

Record rb_ok s T rest : Prop := RbOk {
  ok_cells : ∃ d, holds (store s) (cells (nullNode s) (whole (header s) T) ++ [null_cell (nullNode s) d] ++ rest);
  ok_fresh : ∀ p, (fresh s ≤ p)%nat → store s !! p = None;
  ok_bal : ∃ n, bal T n;
  ok_black : col T = BLACK;
  ok_order : sorted (elements (whole (header s) T))
}.

Lemma ins_whole x hdr T : lt negInf x → ins x (elements (whole hdr T)) = negInf :: ins x (elements T).
Proof. intros Hx. cbn. rewrite (lt_asym _ _ Hx). by rewrite Hx. Qed.

(** At a leaf of the path, the item belongs between the two halves. *)
Lemma ins_between x ctx : Forall (aims x) ctx → sorted (elements (plug ctx (Nil : ltree))) →
  before ctx ++ [x] ++ after ctx = ins x (elements (plug ctx (Nil : ltree))).
Proof.
  intros Ha Hs. destruct (aims_bounds x ctx Nil Ha Hs) as [Hb Haf]. rewrite elements_plug. cbn.
  by rewrite ins_below, ins_above.
Qed.

(** A new node is linked to its parent. *)
Definition attach x s (c : nat) : io () :=
  set_current c ;;;
  p <- deref (parent s) ;;
  (if klt x (element p) then set_child Left (parent s) c else set_child Right (parent s) c) ;;;
  handleReorient x.

Lemma tame_attach x s c : tame (attach x s c).
Proof.
  unfold attach, set_current. apply tame_bind; [by apply tame_modify|intros _].
  apply tame_bind; [apply tame_deref|intros p]. apply tame_bind; [|intros _; apply tame_handleReorient].
  destruct (klt x (element p)); apply tame_set_child.
Qed.

Lemma rb_attach_ok x s s0 f1 fs rest c (Q : () → rbtree → Prop) :
  holds (store s) (cells_ctx (nullNode s) (nullNode s) (f1 :: fs) ++ [null_cell (nullNode s) x] ++
                   (c, RBNode x (nullNode s) (nullNode s) BLACK) :: rest) →
  parent s0 = f_loc f1 → aims x f1 →
  (∀ m, let s' := set_path c (parent s) (set_store m s) in
        place s' (f1 :: fs) (Node (c, BLACK) Nil x Nil) x rest → ensures (handleReorient x) s' Q) →
  ensures (attach x s0 c) s Q.
Proof.
  intros Hm Hpar Ha HQ. set (null := nullNode s) in *. unfold attach. apply ensures_bind, ensures_modify.
  rewrite Hpar. apply ensures_bind.
  set (n1 := node_of (f_side f1) (f_elem f1) null (root null (f_sib f1)) (f_color f1)).
  set (B := cells null (f_sib f1) ++ cells_ctx null (f_loc f1) fs ++ [null_cell null x] ++ (c, RBNode x null null BLACK) :: rest).
  assert (Hm1 : holds (store s) ((f_loc f1, n1) :: B)).
  { eapply holds_perm; [exact Hm|]. rewrite parent_cell. unfold frame_cell, B. fold n1. solve_Permutation. }
  eapply (rb_deref_ok []); [exact Hm1|]. unfold n1 at 1. rewrite element_node, (aims_is_left _ _ Ha).
  apply ensures_bind.
  assert (Hset : ensures (set_child (f_side f1) (f_loc f1) c) (set_path c (parent s) s) (λ _ s', ensures (handleReorient x) s' Q)).
  { eapply (rb_assign_ok []); [exact Hm1|]. intros m Hm2. unfold n1 in Hm2. rewrite with_child_node in Hm2.
    apply (HQ m). eapply holds_perm; [exact Hm2|]. unfold B. cbn [cells root cells_ctx nullNode set_path set_store]. fold null.
    unfold frame_cell. solve_Permutation. }
  by destruct (f_side f1).
Qed.

Lemma rb_new_at n cs s (Q : nat → rbtree → Prop) :
  holds (store s) cs → store s !! fresh s = None →
  (holds (<[fresh s := n]> (store s)) ((fresh s, n) :: cs) →
   Q (fresh s) (RBTree (<[fresh s := n]> (store s)) (S (fresh s)) (header s) (nullNode s) (current s) (parent s) (grand s) (great s))) →
  ensures (new n) s Q.
Proof.
  intros Hm Hf HQ. unfold new. apply ensures_bind, ensures_get, ensures_bind, ensures_put, ensures_ret.
  apply HQ. by apply holds_alloc.
Qed.

(** The pointers at a leaf. *)
Lemma rb_leaf_linked x s ctx k : standing negInf x s ctx Nil k →
  ∃ f1 fs n, ctx = f1 :: fs ∧ linked s ctx ∧ ctx_ok negInf (header s) ctx BLACK n ∧ n = 0%nat ∧
  (∀ f1 f2 fs, ctx = f1 :: f2 :: fs → f_color f1 = RED → col (f_sib f2) = BLACK).
Proof.
  intros Hst. inversion Hst as [? ? ? Ht|n Hc Hb [G1 G2 G3 G4]|n Hc Hb _ Hn|n Hc Hb Hr]; [done| |done|done]. cbn in Hb. subst n.
  destruct ctx as [|f1 fs]; [done|]. exists f1, fs, 0%nat. destruct (G1 f1 fs eq_refl) as [P1 _].
  assert (Hlong : f_color f1 = RED → ∃ f2 f3 fs', fs = f2 :: f3 :: fs').
  { intros Hr. cbn in Hc. destruct fs as [|f2 fs]; [destruct Hc as [-> _]; done|]. rewrite Hr in Hc.
    destruct Hc as (_ & _ & _ & Hc). destruct fs as [|f3 fs]; [by destruct Hc|]. by exists f2, f3, fs. }
  split_and!; try done.
  - split; [done|]. intros Hr. destruct (Hlong Hr) as (f2 & f3 & fs' & ->). split; [by apply (G2 f1 f2 (f3 :: fs'))|].
    by apply (G3 f1 f2 f3 fs').
  - intros f1' f2 fs' E Hr. injection E as <- ->. destruct (Hlong Hr) as (f2' & f3 & fs'' & E). injection E as <- ->.
    by apply (G3 f1 f2 f3 fs'').
Qed.

(** The leaf is added, and the colours are repaired. *)
Lemma add_leaf_ok x s ctx k rest T0 :
  stands negInf x s ctx Nil rest k → lt negInf x →
  (∀ p, (fresh s ≤ p)%nat → store s !! p = None) →
  sorted (elements (plug ctx (Nil : ltree))) → elements (plug ctx (Nil : ltree)) = elements (whole (header s) T0) →
  ensures (c <- new (RBNode x (nullNode s) (nullNode s) BLACK) ;; attach x s c) s
    (λ _ s', ∃ T', rb_ok s' T' rest ∧ elements T' = ins x (elements T0) ∧ header s' = header s ∧ nullNode s' = nullNode s).
Proof.
  intros [Hp Hcur Ha Hst] Hx Hfr Hsort Hel. set (null := nullNode s) in *.
  destruct (rb_leaf_linked _ _ _ _ Hst) as (f1 & fs & n & -> & [Hpar Hred] & Hc & -> & Hu).
  apply ensures_bind. eapply rb_new_at; [exact Hp|by apply Hfr|]. intros Hm. set (c := fresh s) in *.
  match goal with |- ensures _ ?st _ => set (s1 := st) end.
  pose proof Ha as Ha'. apply Forall_cons in Ha' as [Ha1 _].
  pose proof (ctx_ok_ends _ _ _ _ _ Hc) as Hends.
  assert (Hr : ensures (attach x s c) s1 (λ _ s', ∃ ctx' t', reorient (f1 :: fs) (Node (c, RED) Nil x Nil) = (ctx', t') ∧
    place_in (store s') null ctx' t' x rest ∧ header s' = header s ∧ nullNode s' = null)).
  { eapply (rb_attach_ok x s1 s f1 fs rest c); [|done|done|].
    - eapply holds_perm; [exact Hm|]. cbn [root cells nullNode s1]. fold null. solve_Permutation.
    - intros m s2 Hp2. eapply (handleReorient_ok negInf s2 (f1 :: fs) c BLACK x Nil Nil x rest x); try done.
      intros m' ctx' t' Hr Hp'. by exists ctx', t'. }
  eapply ensures_weaken; [apply (ensures_tame _ _ _ (tame_attach x s c) Hr)|]. cbv beta.
  intros _ s' [(ctx' & t' & Hreo & Hp' & Hh & Hn) [Hf' Hnone]].
  destruct (reorient_ok _ _ _ _ _ _ _ Hreo Hc) as (n' & Hc' & Hb'); [by cbn|done|done|].
  destruct (plug_whole _ _ _ _ Hc' Hb') as (T' & m2 & Hw & HbT & HcT).
  pose proof (elements_reorient _ _ _ _ Hreo ltac:(done)) as Hel'.
  assert (Hins : elements (plug ctx' t') = ins x (elements (plug (f1 :: fs) (Nil : ltree)))).
  { rewrite Hel', <-ins_between by done. by rewrite (elements_plug (f1 :: fs)). }
  exists T'. split; [|split; [|done]].
  - split; rewrite ?Hh, ?Hn.
    + exists x. eapply holds_perm; [exact Hp'|]. rewrite <-Hw, cells_plug. solve_Permutation.
    + rewrite Hf'. cbn [fresh s1]. intros p Hlt. apply Hnone. cbn [store s1]. rewrite lookup_insert_ne by lia. apply Hfr. lia.
    + by exists m2.
    + done.
    + rewrite <-Hw, Hins. apply ins_sorted. exact Hsort.
  - rewrite Hw, Hel, ins_whole in Hins by done. cbn in Hins. by injection Hins.
Qed.

Lemma rb_assign_fresh_ok A p n B g s (Q : () → rbtree → Prop) :
  holds (store s) (A ++ (p, n) :: B) → (∀ q, (fresh s ≤ q)%nat → store s !! q = None) →
  (∀ m, holds m (A ++ (p, g n) :: B) → (∀ q, (fresh s ≤ q)%nat → m !! q = None) → Q () (set_store m s)) →
  ensures (assign p g) s Q.
Proof.
  intros Hm Hfr HQ.
  assert (Ha : ensures (assign p g) s (λ _ s', s' = set_store (store s') s ∧ holds (store s') (A ++ (p, g n) :: B))).
  { eapply rb_assign_ok; [exact Hm|]. by intros m Hm'. }
  eapply ensures_weaken; [apply (ensures_tame _ _ _ (tame_assign p g) Ha)|]. cbv beta.
  intros [] s' [[-> Hs] [_ Hn]]. apply HQ; [done|]. intros q Hq. by apply Hn, Hfr.
Qed.

(** insert() from the header down. *)
Lemma rb_insert_ok x s T rest : rb_ok s T rest → lt negInf x →
  ensures (insert x) s (λ _ s', ∃ T', rb_ok s' T' rest ∧ elements T' = ins x (elements T) ∧
                                      header s' = header s ∧ nullNode s' = nullNode s).
Proof.
  intros [[d Hm] Hfr [n Hb] Hc Hsort] Hx. set (null := nullNode s) in *. set (W := whole (header s) T) in *.
  unfold insert. apply ensures_bind, ensures_get, ensures_bind, ensures_put.
  match goal with |- ensures _ ?st _ => set (s1 := st) end. apply ensures_bind.
  assert (Hm' : holds (store s1) (cells null W ++ (null, RBNode d null null BLACK) :: rest)) by exact Hm.
  eapply (rb_assign_fresh_ok (cells null W) null); [exact Hm'|exact Hfr|]. intros m Hm1 Hfr2. cbn [with_element] in Hm1.
  set (s2 := set_store m s1).
  assert (Hst : stands negInf x s2 [] W rest (3 * plen x W)).
  { split; [exact Hm1|done|done|]. by eapply At_header. }
  assert (Hfuel : (3 * plen x W < 3 * nodes s + 2)%nat).
  { pose proof (plen_size x W) as Hpl. rewrite <-(length_cells null) in Hpl. unfold nodes.
    rewrite (cells_size _ _ Hm), length_app. lia. }
  pose proof (insert_loop_ok x _ Hx _ _ _ _ _ Hst Hfuel) as Hloop.
  apply ensures_bind. eapply ensures_weaken; [exact (ensures_tame _ _ _ (tame_insert_loop _ x) Hloop)|]. cbv beta. intros _ s3 [(ctx & t & k & Hst3 & Hel & (Hh & Hn & Hf) & Hend) [Hf3 Hnone3]].
  assert (Hfr3 : ∀ p, (fresh s3 ≤ p)%nat → store s3 !! p = None).
  { intros p Hlt. apply Hnone3, Hfr2. rewrite Hf3 in Hlt. exact Hlt. }
  change (header s2) with (header s) in Hh. change (nullNode s2) with null in Hn. cbn [plug] in Hel.
  assert (Hs3 : sorted (elements (plug ctx t))) by by rewrite Hel.
  apply ensures_bind, ensures_get. pose proof Hst3 as [Hp3 Hcur3 Ha3 Hsd3]. rewrite Hcur3.
  destruct Hend as [->|([l c] & a & b & ->)].
  - rewrite bool_decide_eq_true_2 by done.
    eapply ensures_weaken; [apply (add_leaf_ok x s3 ctx k rest T); [exact Hst3|done|done|exact Hs3|by rewrite Hel, Hh]|].
    cbv beta. intros _ s' (T' & H1 & H2 & H3 & H4). exists T'. split_and!; try done; congruence.
  - rewrite bool_decide_eq_false_2.
    2: { cbn [root]. rewrite Hn. apply (holds_ne (store s3) l (RBNode x (root null a) (root null b) c) null (RBNode x null null BLACK)
           (cells null a ++ cells null b ++ cells_ctx null l ctx ++ rest)).
         eapply holds_perm; [exact Hp3|]. rewrite Hn. cbn [cells root]. unfold null_cell. solve_Permutation. }
    apply ensures_ret. destruct (standing_whole _ _ _ _ _ Hsd3) as (T' & m' & Hw & HbT & HcT). exists T'.
    split; [|split; [|by split]].
    + split; [|done|by exists m'|done|by rewrite <-Hw].
      exists x. eapply holds_perm; [exact Hp3|]. rewrite <-Hw, cells_plug. solve_Permutation.
    + assert (Hx' : ins x (elements (whole (header s) T)) = elements (whole (header s) T')).
      { rewrite <-Hh, <-Hw. change (elements (whole (header s) T)) with (elements W) in *. rewrite Hh. fold W. rewrite <-Hel.
        rewrite elements_plug in *. cbn [elements] in *. rewrite <-!(assoc_L (++)) in *. cbn [app] in *.
        rewrite (assoc_L (++)) in *. by apply ins_mid. }
      rewrite ins_whole in Hx' by done. cbn in Hx'. by injection Hx'.
Qed.

End Insertion.
