(* ===== verification/RedBlackTheorems.v ===== *)
(** * RedBlackTree is a sorted set

    The calls of the class on the whole object, against the contract of the
    search-tree classes with the remove() of this class, which removes nothing;
    then runs of calls, the height of the tree, and copies. *)
From S2P Require Import Prelude StdMap BinTree Hoare NodeStore RedBlackTree RedBlackHeap RedBlackInsert RedBlackObject.

(** * The other operations of RedBlackTree on the memory

    Searches and walks change nothing but the element of the null node; makeEmpty
    frees the nodes of the tree and no others; a copy has nodes of its own. *)
Import SetContract RedBlackTree.

Section Calls.
Context {K : Type} `{KeyOrder K}.
Implicit Types (s : @rbtree K) (t T : @ltree K) (x y : K) (d : side).

(** [t] with the null node, among other cells. *)
Definition owns s t x (B : list (nat * @RedBlackNode K)) : Prop :=
  holds (store s) (cells (nullNode s) t ++ [null_cell (nullNode s) x] ++ B).

Lemma owns_root s t x B : owns s t x B → bool_decide (root (nullNode s) t = nullNode s) = is_nil t.
Proof.
  intros Hm. destruct t as [|[l c] a y b]; [by apply bool_decide_eq_true_2|]. apply bool_decide_eq_false_2. cbn [root].
  unfold owns, null_cell in Hm. cbn [cells] in Hm. refine (holds_ne (store s) l _ (nullNode s) _ (cells _ a ++ cells _ b ++ B) _).
  eapply holds_perm; [exact Hm|]. solve_Permutation.
Qed.

Lemma owns_left s i a y b x B : owns s (Node i a y b) x B → bool_decide (i.1 = root (nullNode s) a) = false.
Proof.
  intros Hm. destruct i as [l c]. apply bool_decide_eq_false_2. destruct a as [|[la ca] a1 ya a2]; cbn [root fst].
  - pose proof (owns_root _ _ _ _ Hm) as E. cbn in E. by apply bool_decide_eq_false in E.
  - unfold owns in Hm. cbn [cells root] in Hm.
    refine (holds_ne (store s) l _ la _ (cells _ a1 ++ cells _ a2 ++ cells _ b ++ [null_cell (nullNode s) x] ++ B) _).
    eapply holds_perm; [exact Hm|]. solve_Permutation.
Qed.

Lemma owns_sub s l c a y b x B d : owns s (Node (l, c) a y b) x B →
  owns s (sub d (Node (l, c) a y b)) x
    ((l, RBNode y (root (nullNode s) a) (root (nullNode s) b) c) :: cells (nullNode s) (sub (opp d) (Node (l, c) a y b)) ++ B).
Proof. intros Hm. unfold owns in *. cbn [cells] in Hm. destruct d; cbn [sub opp]; (eapply holds_perm; [exact Hm|]; solve_Permutation). Qed.

Lemma owns_deref s l c a y b x B (Q : RedBlackNode → rbtree → Prop) :
  owns s (Node (l, c) a y b) x B → Q (RBNode y (root (nullNode s) a) (root (nullNode s) b) c) s → ensures (deref l) s Q.
Proof. intros Hm HQ. eapply (rb_deref_ok []); [exact Hm|exact HQ]. Qed.

Lemma owns_deref_null s t x B (Q : RedBlackNode → rbtree → Prop) :
  owns s t x B → Q (RBNode x (nullNode s) (nullNode s) BLACK) s → ensures (deref (nullNode s)) s Q.
Proof. intros Hm HQ. eapply (rb_deref_ok (cells (nullNode s) t)); [exact Hm|exact HQ]. Qed.

(** ** Walks and searches *)

Definition outermost d t : ltree := match d with Left => leftmost t | Right => rightmost t end.

Lemma outermost_step d l c a y b :
  outermost d (Node (l, c) a y b) =
  (if is_nil (sub d (Node (l, c) a y b)) then Node (l, c) a y b else outermost d (sub d (Node (l, c) a y b)) : @ltree K).
Proof. destruct d; cbn; [by destruct a|by destruct b]. Qed.

Lemma rb_walk_ok d x s t B fuel : owns s t x B → is_nil t = false → (length (elements t) ≤ fuel)%nat →
  ensures (walk fuel d (root (nullNode s) t)) s (λ p s', s' = s ∧ ∃ n, store s !! p = Some n ∧
    root_element (outermost d t) = Some (element n)).
Proof.
  revert t B. induction fuel as [|fuel IH]; intros t B Hm Hne Hf.
  { destruct t as [|i a y b]; [done|]. cbn in Hf. rewrite length_app in Hf. cbn in Hf. lia. }
  destruct t as [|[l c] a y b]; [done|]. cbn [walk root]. apply ensures_bind, ensures_get, ensures_bind, ensures_bind.
  eapply owns_deref; [exact Hm|]. apply ensures_ret. pose proof (owns_sub _ _ _ _ _ _ _ _ d Hm) as Hs.
  assert (Hc : child d (RBNode y (root (nullNode s) a) (root (nullNode s) b) c) = root (nullNode s) (sub d (Node (l, c) a y b))) by by destruct d.
  rewrite Hc, (owns_root _ _ _ _ Hs), outermost_step. destruct (is_nil (sub d (Node (l, c) a y b))) eqn:E.
  - apply ensures_ret. split; [done|]. eexists. split; [exact (holds_lookup _ _ _ _ Hm)|done].
  - eapply IH; [exact Hs|exact E|]. cbn [elements] in Hf. rewrite length_app in Hf. cbn in Hf. destruct d; cbn [sub]; lia.
Qed.

Lemma contains_loop_ok x s t B fuel : owns s t x B → (length (elements t) < fuel)%nat →
  ensures (contains_loop fuel x (root (nullNode s) t)) s (λ r s', s' = s ∧ r = search x t).
Proof.
  revert t B. induction fuel as [|fuel IH]; intros t B Hm Hf; [lia|]. cbn [contains_loop]. apply ensures_bind.
  destruct t as [|[l c] a y b].
  - eapply owns_deref_null; [exact Hm|]. cbn [element]. rewrite klt_irrefl. apply ensures_bind, ensures_get, ensures_ret.
    cbn [root]. by rewrite bool_decide_eq_true_2.
  - pose proof (owns_root _ _ _ _ Hm) as Hnull. eapply owns_deref; [exact Hm|]. cbn [element left right search root] in *.
    cbn [elements] in Hf. rewrite length_app in Hf. cbn in Hf.
    destruct (klt x y); [|destruct (klt y x)].
    + eapply IH; [exact (owns_sub _ _ _ _ _ _ _ _ Left Hm)|cbn; lia].
    + eapply IH; [exact (owns_sub _ _ _ _ _ _ _ _ Right Hm)|cbn; lia].
    + apply ensures_bind, ensures_get, ensures_ret. by rewrite Hnull.
Qed.

Lemma rb_print_ok x s t B fuel : owns s t x B → (length (elements t) < fuel)%nat →
  ensures (print fuel (root (nullNode s) t)) s (λ ls s', s' = s ∧ ls = elements t).
Proof.
  revert t B. induction fuel as [|fuel IH]; intros t B Hm Hf; [lia|]. cbn [print]. apply ensures_bind.
  destruct t as [|[l c] a y b].
  - eapply owns_deref_null; [exact Hm|]. cbn [left root]. rewrite bool_decide_eq_true_2 by done. by apply ensures_ret.
  - pose proof (owns_left _ _ _ _ _ _ _ Hm) as Hl. eapply owns_deref; [exact Hm|]. cbn [left right element root fst] in *. rewrite Hl.
    cbn [elements] in Hf. rewrite length_app in Hf. cbn in Hf.
    apply ensures_bind. eapply ensures_weaken; [eapply IH; [exact (owns_sub _ _ _ _ _ _ _ _ Left Hm)|cbn; lia]|].
    cbv beta. intros ls s1 [-> ->]. apply ensures_bind.
    eapply ensures_weaken; [eapply IH; [exact (owns_sub _ _ _ _ _ _ _ _ Right Hm)|cbn; lia]|].
    cbv beta. intros rs s2 [-> ->]. by apply ensures_ret.
Qed.

(** ** makeEmpty *)

Lemma rb_reclaim_ok x s t B fuel : owns s t x B → (length (elements t) < fuel)%nat →
  ensures (reclaimMemory fuel (root (nullNode s) t)) s (λ _ s', s' = set_store (store s') s ∧ owns s' Nil x B).
Proof.
  revert s t B. induction fuel as [|fuel IH]; intros s t B Hm Hf; [lia|]. cbn [reclaimMemory]. apply ensures_bind.
  destruct t as [|[l c] a y b].
  - eapply owns_deref_null; [exact Hm|]. cbn [left root]. rewrite bool_decide_eq_true_2 by done. apply ensures_ret.
    split; [by destruct s|exact Hm].
  - pose proof (owns_left _ _ _ _ _ _ _ Hm) as Hl. eapply owns_deref; [exact Hm|]. cbn [left right root fst] in *. rewrite Hl.
    cbn [elements] in Hf. rewrite length_app in Hf. cbn in Hf. set (null := nullNode s) in *.
    apply ensures_bind. eapply ensures_weaken; [eapply IH; [exact (owns_sub _ _ _ _ _ _ _ _ Left Hm)|cbn; lia]|].
    cbv beta. intros _ s1 [E1 H1]. cbn [sub opp] in H1.
    assert (N1 : nullNode s1 = null) by by rewrite E1.
    assert (H1' : owns s1 b x ((l, RBNode y (root null a) (root null b) c) :: B)).
    { unfold owns in *. cbn [cells app] in H1. rewrite N1 in *. fold null in H1. eapply holds_perm; [exact H1|]. solve_Permutation. }
    apply ensures_bind. rewrite <-N1. eapply ensures_weaken; [eapply IH; [exact H1'|lia]|].
    cbv beta. intros _ s2 [E2 H2]. assert (N2 : nullNode s2 = null) by by rewrite E2.
    unfold owns in H2. cbn [cells app] in H2. rewrite N2 in H2.
    assert (H2' : holds (store s2) ((l, RBNode y (root null a) (root null b) c) :: null_cell null x :: B)) by holds_by H2.
    unfold delete_node. apply ensures_bind. eapply (rb_deref_ok []); [exact H2'|]. apply ensures_modify. split.
    + rewrite E2, E1. done.
    + unfold owns. cbn. rewrite N2. by apply holds_free in H2'.
Qed.

(** ** Copies *)

(** A tree without its addresses. *)
Fixpoint strip t : tree colour K :=
  match t with Nil => Nil | Node (_, c) a y b => Node c (strip a) y (strip b) end.

Lemma strip_elements t t' : strip t' = strip t → elements t' = elements t.
Proof.
  revert t'. induction t as [|[l c] a IHa y b IHb]; intros [|[l' c'] a' y' b']; cbn; try done.
  intros E. injection E as -> Ea -> Eb. by rewrite (IHa a'), (IHb b').
Qed.
Lemma strip_col t t' : strip t' = strip t → col t' = col t.
Proof. destruct t as [|[l c] a y b], t' as [|[l' c'] a' y' b']; cbn; congruence. Qed.
Lemma strip_bal t t' n : strip t' = strip t → bal t n → bal t' n.
Proof.
  revert t' n. induction t as [|[l c] a IHa y b IHb]; intros [|[l' c'] a' y' b'] n; cbn [strip]; try done.
  intros E. injection E as -> Ea -> Eb. cbn. rewrite (strip_col _ _ Ea), (strip_col _ _ Eb).
  destruct c; [intros (?&?&?&?); auto|]. intros (m & -> & ? & ?). exists m. auto.
Qed.

Definition fresh_ok s : Prop := ∀ p, (fresh s ≤ p)%nat → store s !! p = None.
Definition handles s s' : Prop := header s' = header s ∧ nullNode s' = nullNode s.

Lemma rb_new_ok n cs s (Q : nat → rbtree → Prop) :
  holds (store s) cs → fresh_ok s →
  (∀ s', holds (store s') ((fresh s, n) :: cs) → fresh_ok s' → handles s s' → Q (fresh s) s') →
  ensures (new n) s Q.
Proof.
  intros Hm Hf HQ. eapply rb_new_at; [exact Hm|by apply Hf|]. intros Hm'. apply HQ; [exact Hm'| |done].
  intros p Hp. cbn in *. rewrite lookup_insert_ne by lia. apply Hf. lia.
Qed.

Lemma rb_clone_ok x null s t B fuel : owns s t x B → fresh_ok s → (length (elements t) < fuel)%nat →
  ensures (clone fuel null (root (nullNode s) t)) s (λ p s', ∃ t', p = root null t' ∧ strip t' = strip t ∧
    owns s' t x (cells null t' ++ B) ∧ fresh_ok s' ∧ handles s s').
Proof.
  revert s t B. induction fuel as [|fuel IH]; intros s t B Hm Hf Hfuel; [lia|]. cbn [clone]. apply ensures_bind.
  destruct t as [|[l c] a y b].
  - eapply owns_deref_null; [exact Hm|]. cbn [left root]. rewrite bool_decide_eq_true_2 by done. apply ensures_ret.
    by exists Nil.
  - pose proof (owns_left _ _ _ _ _ _ _ Hm) as Hl. eapply owns_deref; [exact Hm|]. cbn [left right element color root fst] in *. rewrite Hl.
    cbn [elements] in Hfuel. rewrite length_app in Hfuel. cbn in Hfuel. set (nl := nullNode s) in *.
    apply ensures_bind. eapply ensures_weaken; [eapply IH; [exact (owns_sub _ _ _ _ _ _ _ _ Left Hm)|done|cbn; lia]|].
    cbv beta. intros _ s1 (a' & -> & Ea & H1 & F1 & [D1 N1]). cbn [sub opp] in H1.
    assert (H1' : owns s1 b x ((l, RBNode y (root nl a) (root nl b) c) :: cells nl a ++ cells null a' ++ B)).
    { unfold owns in *. rewrite N1 in *. fold nl in H1 |- *. eapply holds_perm; [exact H1|]. solve_Permutation. }
    apply ensures_bind. fold nl in N1. rewrite <-N1. eapply ensures_weaken; [eapply IH; [exact H1'|done|lia]|].
    cbv beta. intros _ s2 (b' & -> & Eb & H2 & F2 & [D2 N2]). rewrite N1 in N2.
    eapply rb_new_ok; [exact H2|done|]. intros s3 H3 F3 [D3 N3]. exists (Node (fresh s2, c) a' y b').
    cbn [root strip]. rewrite Ea, Eb. split_and!; [done|done| |done|split; [congruence|by rewrite N3]].
    unfold owns. rewrite N3, N2. fold nl. eapply holds_perm; [exact H3|]. rewrite N2. cbn [cells]. solve_Permutation.
Qed.

End Calls.

Import SetContract RedBlackTree.

(** The contract: items above [negInf] are stored, [negInf] itself is not. *)
Definition rb_spec {K} `{KeyOrder K} (negInf : K) (c : call K) (s : list K) : answer K * list K :=
  match c with
  | Insert x => (Done, if decide (x = negInf) then s else ins x s)
  | Remove x => (Done, s)
  | c => spec c s
  end.

Fixpoint rb_spec_run {K} `{KeyOrder K} (negInf : K) (cs : list (call K)) (s : list K) : list (answer K) * list K :=
  match cs with
  | [] => ([], s)
  | c :: cs => let '(a, s) := rb_spec negInf c s in let '(r, s) := rb_spec_run negInf cs s in (a :: r, s)
  end.

(** The precondition of the constructor: [negInf] is less than or equal to all
    items that are inserted. *)
Definition allowed {K} `{KeyOrder K} (negInf : K) (c : call K) : Prop :=
  match c with Insert x => klt x negInf = false | _ => True end.

(** The number of nodes on the longest path. *)
Fixpoint depth {A K} (t : tree A K) : nat :=
  match t with Nil => 0 | Node _ l _ r => S (depth l `max` depth r) end.

Section Object.
Context {K : Type} `{KeyOrder K} (negInf : K).
Implicit Types (s : @rbtree K) (T : @ltree K) (x : K).
Abbreviation rb_ok := (rb_ok negInf).

(** ** The height *)

Lemma bal_depth T n : bal T n → (depth T ≤ 2 * n + (if decide (col T = RED) then 1 else 0))%nat.
Proof.
  revert n. induction T as [|[l []] a IHa x b IHb]; intros n; cbn [bal col depth]; [lia| |].
  - intros (Ca & Cb & Ha & Hb). specialize (IHa _ Ha). specialize (IHb _ Hb).
    rewrite decide_False in IHa by congruence. rewrite decide_False in IHb by congruence. rewrite decide_True by done. lia.
  - intros (m & -> & Ha & Hb). specialize (IHa _ Ha). specialize (IHb _ Hb). rewrite decide_False by done.
    destruct (decide (col a = RED)), (decide (col b = RED)); lia.
Qed.

Lemma bal_size T n : bal T n → (2 ^ n ≤ S (length (elements T)))%nat.
Proof.
  revert n. induction T as [|[l []] a IHa x b IHb]; intros n; cbn [bal elements]; rewrite ?length_app; cbn [length].
  - intros ->. cbn. lia.
  - intros (_ & _ & Ha & Hb). specialize (IHa _ Ha). lia.
  - intros (m & -> & Ha & Hb). specialize (IHa _ Ha). specialize (IHb _ Hb). rewrite Nat.pow_succ_r'. lia.
Qed.

Lemma rb_depth s T rest : rb_ok s T rest → (depth T ≤ 2 * Nat.log2 (S (length (elements T))))%nat.
Proof.
  intros [_ _ [n Hb] Hc _]. pose proof (bal_depth _ _ Hb) as Hd. rewrite decide_False in Hd by by rewrite Hc.
  pose proof (Nat.log2_le_pow2 (S (length (elements T))) n ltac:(lia)) as [Hl _]. pose proof (bal_size _ _ Hb) as Hsz. specialize (Hl Hsz). lia.
Qed.

(** ** The calls *)

Definition header_cell s T : nat * RedBlackNode :=
  (header s, RBNode negInf (nullNode s) (root (nullNode s) T) BLACK).

Lemma rb_owns s T rest : rb_ok s T rest → ∃ d, owns s T d (header_cell s T :: rest).
Proof.
  intros [[d Hm] _ _ _ _]. exists d. unfold owns. eapply holds_perm; [exact Hm|].
  cbn [whole cells root app]. unfold header_cell. solve_Permutation.
Qed.

Lemma owns_rb s d T rest : owns s T d (header_cell s T :: rest) → fresh_ok s → (∃ n, bal T n) → col T = BLACK →
  sorted (negInf :: elements T) → rb_ok s T rest.
Proof.
  intros Hm Hf Hb Hc Hs. split; [|done..]. exists d. eapply holds_perm; [exact Hm|].
  cbn [whole cells root app]. unfold header_cell. solve_Permutation.
Qed.

Lemma rb_nodes s T rest : rb_ok s T rest → (length (elements T) + 2 ≤ nodes s)%nat.
Proof.
  intros Hok. destruct (rb_owns _ _ _ Hok) as [d Hm]. unfold nodes. rewrite (cells_size _ _ Hm), length_app, length_cells.
  cbn [length app]. lia.
Qed.

(** The element of the null node changes. *)
Lemma rb_null_ok x s T rest (Q : () → rbtree → Prop) : rb_ok s T rest →
  (∀ s', rb_ok s' T rest → owns s' T x (header_cell s T :: rest) → handles s s' → nodes s' = nodes s → Q () s') →
  ensures (assign (nullNode s) (with_element x)) s Q.
Proof.
  intros Hok HQ. pose proof (rb_nodes _ _ _ Hok) as Hn. destruct (rb_owns _ _ _ Hok) as [d Hm]. destruct Hok as [_ Hf Hb Hc Hs].
  eapply (rb_assign_fresh_ok (cells (nullNode s) T)); [exact Hm|exact Hf|]. intros m Hm' Hf'. cbn [with_element color left right] in Hm'.
  apply HQ; [by eapply owns_rb|exact Hm'|done|]. unfold nodes. change (store (set_store m s)) with m. rewrite (cells_size _ _ Hm'), (cells_size _ _ Hm).
  rewrite !length_app. done.
Qed.

Lemma rb_header_ok s T rest (Q : RedBlackNode → rbtree → Prop) : rb_ok s T rest →
  Q (RBNode negInf (nullNode s) (root (nullNode s) T) BLACK) s → ensures (deref (header s)) s Q.
Proof.
  intros Hok HQ. destruct (rb_owns _ _ _ Hok) as [d Hm].
  apply (rb_deref_ok (cells (nullNode s) T ++ [null_cell (nullNode s) d]) _
           (RBNode negInf (nullNode s) (root (nullNode s) T) BLACK) rest); [|exact HQ].
  eapply holds_perm; [exact Hm|]. unfold header_cell. solve_Permutation.
Qed.

Lemma rb_root_ok s T rest (Q : nat → rbtree → Prop) : rb_ok s T rest →
  Q (root (nullNode s) T) s → ensures (get_child Right (header s)) s Q.
Proof. intros Hok HQ. apply ensures_bind. eapply rb_header_ok; [exact Hok|]. by apply ensures_ret. Qed.

Lemma ensures_value {A} (m : @io K A) s v : ensures m s (λ a s', s' = s ∧ a = v) → m s = (Val v, s).
Proof. by intros (a & s' & E & -> & ->). Qed.

Lemma rb_isEmpty_ok s T rest : rb_ok s T rest → isEmpty s = (Val (is_nil T), s).
Proof.
  intros Hok. apply ensures_value. unfold isEmpty. apply ensures_bind, ensures_get, ensures_bind.
  eapply rb_root_ok; [exact Hok|]. apply ensures_ret. destruct (rb_owns _ _ _ Hok) as [d Hm].
  by rewrite (owns_root _ _ _ _ Hm).
Qed.

(** findMin() and findMax() *)
Definition extreme (d : side) : @io K K :=
  empty <- isEmpty ;;
  if empty : bool then throw UnderflowException else
  s <- get_state ;;
  root <- get_child Right (header s) ;;
  itr <- walk (nodes s) d root ;;
  n <- deref itr ;; act_ret (element n).

Lemma extreme_ok d s T rest : rb_ok s T rest →
  extreme d s = (match root_element (outermost d T) with Some x => Val x | None => Exn UnderflowException end, s).
Proof.
  intros Hok. unfold extreme. unfold act_bind at 1. rewrite (rb_isEmpty_ok _ _ _ Hok). destruct (is_nil T) eqn:E.
  { destruct T; [|done]. by destruct d. }
  destruct (rb_owns _ _ _ Hok) as [x Hm]. pose proof (rb_nodes _ _ _ Hok).
  assert (Hw : ensures (itr <- walk (nodes s) d (root (nullNode s) T) ;; n <- deref itr ;; act_ret (element n)) s
    (λ a s', s' = s ∧ Some a = root_element (outermost d T))).
  { apply ensures_bind. eapply ensures_weaken; [apply (rb_walk_ok d x s T _ _ Hm E); lia|]. cbv beta.
    intros p s1 [-> (n & Hn & Hr)]. apply ensures_bind, ensures_bind, ensures_get. rewrite Hn. by do 2 apply ensures_ret. }
  destruct Hw as (a & s' & E' & -> & Ha). rewrite <-Ha. apply ensures_value.
  apply ensures_bind, ensures_get, ensures_bind. eapply rb_root_ok; [exact Hok|]. by exists a, s.
Qed.

Lemma rb_findMin_ok s T rest : rb_ok s T rest →
  findMin s = (match head (elements T) with Some x => Val x | None => Exn UnderflowException end, s).
Proof. intros Hok. rewrite <-leftmost_element. exact (extreme_ok Left s T rest Hok). Qed.
Lemma rb_findMax_ok s T rest : rb_ok s T rest →
  findMax s = (match last (elements T) with Some x => Val x | None => Exn UnderflowException end, s).
Proof. intros Hok. rewrite <-rightmost_element. exact (extreme_ok Right s T rest Hok). Qed.

Lemma rb_printTree_ok s T rest : rb_ok s T rest → printTree s = (Val (if is_nil T then None else Some (elements T)), s).
Proof.
  intros Hok. apply ensures_value. unfold printTree. apply ensures_bind, ensures_get, ensures_bind.
  eapply rb_root_ok; [exact Hok|]. destruct (rb_owns _ _ _ Hok) as [d Hm]. rewrite (owns_root _ _ _ _ Hm).
  destruct (is_nil T); [by apply ensures_ret|]. pose proof (rb_nodes _ _ _ Hok). apply ensures_bind.
  eapply ensures_weaken; [apply (rb_print_ok d s T _ _ Hm); lia|]. cbv beta. intros ls s' [-> ->]. by apply ensures_ret.
Qed.

Lemma rb_contains_ok x s T rest : rb_ok s T rest →
  ensures (contains x) s (λ b s', b = mem x (elements T) ∧ rb_ok s' T rest ∧ handles s s').
Proof.
  intros Hok. unfold contains. apply ensures_bind, ensures_get, ensures_bind. eapply rb_null_ok; [exact Hok|].
  intros s1 Hok1 Hm1 [Hh Hn] Hnodes. rewrite <-Hnodes, <-Hh. apply ensures_bind. eapply rb_root_ok; [exact Hok1|].
  pose proof (rb_nodes _ _ _ Hok1). eapply ensures_weaken; [apply (contains_loop_ok x s1 T _ _ Hm1); lia|].
  cbv beta. intros b s2 [-> ->]. split; [|done]. apply search_elements.
  pose proof (ok_order _ _ _ _ Hok1) as Hs. cbn in Hs. by apply StronglySorted_cons in Hs as [_ Hs].
Qed.

Lemma rb_makeEmpty_ok s T rest : rb_ok s T rest →
  ensures makeEmpty s (λ _ s', rb_ok s' Nil rest ∧ handles s s').
Proof.
  intros Hok. unfold makeEmpty. apply ensures_bind, ensures_get, ensures_bind. eapply rb_root_ok; [exact Hok|].
  destruct (rb_owns _ _ _ Hok) as [d Hm]. pose proof (rb_nodes _ _ _ Hok) as Hn. apply ensures_bind.
  eapply ensures_weaken; [refine (ensures_tame _ _ _ (tame_reclaim _ _) (rb_reclaim_ok d s T _ (nodes s) Hm _)); lia|].
  cbv beta. intros _ s1 [[E1 H1] [F1 N1]].
  assert (Hh : handles s s1) by by rewrite E1. destruct Hh as [Hh Hnl]. unfold owns in H1. rewrite Hnl in H1. cbn [cells app] in H1.
  assert (Hf1 : fresh_ok s1) by (intros p Hp; apply N1, (ok_fresh _ _ _ _ Hok); by rewrite F1 in Hp).
  unfold set_child. rewrite <-Hh.
  eapply (rb_assign_fresh_ok [null_cell (nullNode s) d]); [|exact Hf1|].
  { rewrite Hh. unfold header_cell in H1. exact H1. }
  intros m H2 Hf2. cbn in H2. split; [|by split]. rewrite <-Hnl in H2.
  eapply owns_rb; [|exact Hf2|by exists 0%nat|done|repeat constructor]. exact H2.
Qed.

(** [negInf] is found in the header, and nothing is inserted. *)
Lemma insert_negInf_ok s T rest : rb_ok s T rest →
  ensures (insert negInf) s (λ _ s', rb_ok s' T rest ∧ handles s s').
Proof.
  intros Hok. unfold insert. apply ensures_bind, ensures_get, ensures_bind, ensures_put.
  match goal with |- ensures _ ?st _ => set (s1 := st) end.
  assert (Hok1 : rb_ok s1 T rest) by by destruct Hok. apply ensures_bind. change (nullNode s) with (nullNode s1).
  eapply ensures_weaken.
  { refine (ensures_tame _ _ (λ _ s', rb_ok s' T rest ∧ handles s1 s' ∧ current s' = header s) (tame_assign _ _) _).
    destruct (rb_owns _ _ _ Hok1) as [d Hm]. pose proof Hok1 as [_ Hf Hb Hc Hs].
    eapply (rb_assign_fresh_ok (cells (nullNode s1) T)); [exact Hm|exact Hf|]. intros m Hm' Hf'. split_and!; try done.
    by eapply owns_rb. }
  cbv beta. intros _ s2 [(Hok2 & [Hh Hn] & Hcur) _]. apply ensures_bind.
  rewrite Nat.add_comm. cbn [insert_loop Nat.add]. apply ensures_bind, ensures_get, ensures_bind.
  destruct (rb_owns _ _ _ Hok2) as [d Hm]. unfold header_cell in Hm. rewrite Hcur. change (header s) with (header s1). rewrite <-Hh.
  eapply rb_header_ok; [exact Hok2|]. cbn [element]. rewrite bool_decide_eq_true_2 by done. apply ensures_ret, ensures_bind, ensures_get.
  rewrite bool_decide_eq_false_2; [apply ensures_ret; split; [done|by split]|]. rewrite Hcur. change (header s) with (header s1). rewrite <-Hh.
  refine (holds_ne (store s2) _ _ _ _ (cells (nullNode s2) T ++ rest) _).
  eapply holds_perm; [exact Hm|]. unfold null_cell. solve_Permutation.
Qed.

Lemma exec_tree_ok c s T rest : rb_ok s T rest → allowed negInf c →
  ∃ s' T', exec_tree c s = Some ((rb_spec negInf c (elements T)).1, s') ∧ rb_ok s' T' rest ∧ handles s s' ∧
           elements T' = (rb_spec negInf c (elements T)).2.
Proof.
  intros Hok Ha. unfold exec_tree. destruct c as [x|x|x| | | | |]; cbn [call_tree rb_spec spec fst snd allowed] in *; unfold act_bind.
  - case_decide as Hx.
    + subst x. destruct (insert_negInf_ok s T rest Hok) as (a & s' & -> & Hok' & Hh). by exists s', T.
    + assert (Hlt : lt negInf x) by (destruct (cmp_cases x negInf) as [[E _]|[(_ & _ & E)|(_ & _ & E)]]; congruence).
      destruct (rb_insert_ok negInf x s T rest Hok Hlt) as (a & s' & -> & T' & Hok' & E & Hh). by exists s', T'.
  - by exists s, T.
  - destruct (rb_contains_ok x s T rest Hok) as (b & s' & -> & -> & Hok' & Hh). by exists s', T.
  - rewrite (rb_findMin_ok _ _ _ Hok). exists s, T. by destruct (head (elements T)).
  - rewrite (rb_findMax_ok _ _ _ Hok). exists s, T. by destruct (last (elements T)).
  - rewrite (rb_isEmpty_ok _ _ _ Hok). exists s, T. by rewrite is_nil_spec.
  - destruct (rb_makeEmpty_ok s T rest Hok) as (b & s' & -> & Hok' & Hh). by exists s', Nil.
  - rewrite (rb_printTree_ok _ _ _ Hok). exists s, T. by rewrite lines_elements.
Qed.

Lemma run_tree_ok cs s T rest : rb_ok s T rest → Forall (allowed negInf) cs →
  ∃ s' T', run_tree cs s = Some ((rb_spec_run negInf cs (elements T)).1, s') ∧ rb_ok s' T' rest ∧ handles s s' ∧
           elements T' = (rb_spec_run negInf cs (elements T)).2.
Proof.
  intros Hok Ha. revert s T Hok. induction Ha as [|c cs Hc _ IH]; intros s T Hok; [by exists s, T|].
  destruct (exec_tree_ok c s T rest Hok Hc) as (s1 & T1 & E1 & Hok1 & [Hh1 Hn1] & C1). cbn [run_tree rb_spec_run]. rewrite E1. cbn.
  destruct (IH s1 T1 Hok1) as (s2 & T2 & E2 & Hok2 & [Hh2 Hn2] & C2). rewrite E2, C1 in *. cbn.
  destruct (rb_spec negInf c (elements T)) as [a l]. cbn in *. destruct (rb_spec_run negInf cs l) as [r l'].
  exists s2, T2. split_and!; try done; [congruence..|]. split; congruence.
Qed.

(** ** Two objects in one memory *)

Definition object_cells (hdr null : nat) T (d : K) : list (nat * RedBlackNode) :=
  cells null (whole negInf hdr T) ++ [null_cell null d].

Lemma rb_object s T rest : rb_ok s T rest → ∃ d, holds (store s) (object_cells (header s) (nullNode s) T d ++ rest).
Proof. intros [[d Hm] _ _ _ _]. exists d. unfold object_cells. by rewrite <-(assoc_L (++)). Qed.

Lemma rb_of_object s hdr null T d rest : holds (store s) (object_cells hdr null T d ++ rest) → fresh_ok s →
  (∃ n, bal T n) → col T = BLACK → sorted (negInf :: elements T) → rb_ok (with_handles hdr null s) T rest.
Proof.
  intros Hm Hf Hb Hc Hs. split; [|done..]. exists d. unfold object_cells in Hm. by rewrite <-(assoc_L (++)) in Hm.
Qed.

(** The other object is among the other cells. *)
Lemma rb_switch s T hdr null T' d' rest : rb_ok s T (object_cells hdr null T' d' ++ rest) →
  (∃ n, bal T' n) → col T' = BLACK → sorted (negInf :: elements T') →
  ∃ d, rb_ok (with_handles hdr null s) T' (object_cells (header s) (nullNode s) T d ++ rest).
Proof.
  intros Hok Hb Hc Hs. destruct (rb_object _ _ _ Hok) as [d Hm]. exists d.
  apply (rb_of_object _ _ _ _ d'); [|exact (ok_fresh _ _ _ _ Hok)|done..].
  eapply holds_perm; [exact Hm|]. solve_Permutation.
Qed.

Lemma rb_assign_any A p n B g s (Q : () → rbtree → Prop) :
  holds (store s) (A ++ (p, n) :: B) → fresh_ok s →
  (∀ s', holds (store s') (A ++ (p, g n) :: B) → fresh_ok s' → handles s s' → Q () s') → ensures (assign p g) s Q.
Proof.
  intros Hm Hf HQ. eapply rb_assign_fresh_ok; [exact Hm|exact Hf|]. intros m Hm' Hf'. by apply HQ.
Qed.

Lemma rb_order s T rest : rb_ok s T rest → sorted (negInf :: elements T).
Proof. intros [_ _ _ _ Hs]. exact Hs. Qed.

Lemma rb_copy_ok dflt s T rest : rb_ok s T rest →
  ensures (copy dflt) s (λ r s', ∃ T' d, strip T' = strip T ∧ handles s s' ∧
    rb_ok (with_handles r.1 r.2 s') T' (object_cells (header s) (nullNode s) T d ++ rest)).
Proof.
  intros Hok. destruct (rb_owns _ _ _ Hok) as [d Hm]. pose proof Hok as [_ Hf [n Hb] Hc _].
  pose proof (rb_nodes _ _ _ Hok) as Hn. unfold copy. apply ensures_bind, ensures_get, ensures_bind.
  eapply rb_new_ok; [exact Hm|exact Hf|]. intros s1 H1 F1 [D1 N1]. set (null := fresh s) in *. apply ensures_bind.
  eapply (rb_assign_any []); [exact H1|exact F1|]. intros s2 H2 F2 [D2 N2]. apply ensures_bind.
  eapply (rb_assign_any []); [exact H2|exact F2|]. intros s3 H3 F3 [D3 N3]. cbn in H3. apply ensures_bind.
  eapply (rb_deref_ok ((null, RBNode dflt null null BLACK) :: cells (nullNode s) T ++ [null_cell (nullNode s) d]) (header s)
            (RBNode negInf (nullNode s) (root (nullNode s) T) BLACK) rest).
  { eapply holds_perm; [exact H3|]. unfold header_cell. solve_Permutation. }
  cbn [element right]. apply ensures_bind.
  eapply rb_new_ok; [exact H3|exact F3|]. intros s4 H4 F4 [D4 N4]. set (head := fresh s3) in *. apply ensures_bind.
  eapply (rb_assign_any []); [exact H4|exact F4|]. intros s5 H5 F5 [D5 N5]. cbn in H5. apply ensures_bind.
  assert (N : nullNode s5 = nullNode s) by congruence. assert (D : header s5 = header s) by congruence.
  rewrite <-N. eapply ensures_weaken; [eapply (rb_clone_ok d null s5 T ((head, RBNode negInf null 0 BLACK) ::
    (null, RBNode dflt null null BLACK) :: header_cell s T :: rest)); [|exact F5|lia]|].
  { unfold owns. rewrite N. eapply holds_perm; [exact H5|]. solve_Permutation. }
  cbv beta. intros _ s6 (T' & -> & Hst & H6 & F6 & [D6 N6]). unfold owns in H6. rewrite N6, N in H6.
  assert (H6' : holds (store s6) ((head, RBNode negInf null 0 BLACK) :: cells null T' ++ (null, RBNode dflt null null BLACK) ::
    cells (nullNode s) T ++ null_cell (nullNode s) d :: header_cell s T :: rest)) by holds_by H6.
  apply ensures_bind. eapply (rb_assign_any []); [exact H6'|exact F6|]. intros s7 H7 F7 [D7 N7]. cbn in H7. apply ensures_ret.
  exists T', d. split; [done|]. split; [split; congruence|]. cbn [fst snd].
  apply (rb_of_object _ _ _ _ dflt); [|exact F7|exists n; by eapply strip_bal|by rewrite (strip_col _ _ Hst)|].
  - eapply holds_perm; [exact H7|]. unfold object_cells, header_cell, null_cell. rewrite ?N. cbn [whole cells root app].
    solve_Permutation.
  - rewrite (strip_elements _ _ Hst). by eapply rb_order.
Qed.

(** The destructor frees the nodes of the object and no others. *)
Lemma rb_destroy_ok s T rest : rb_ok s T rest →
  ensures destroy s (λ _ s', holds (store s') rest ∧ fresh_ok s' ∧ handles s s').
Proof.
  intros Hok. unfold destroy. apply ensures_bind. eapply ensures_weaken; [by eapply rb_makeEmpty_ok|]. cbv beta.
  intros _ s1 [Hok1 [D1 N1]]. apply ensures_bind, ensures_get. destruct (rb_owns _ _ _ Hok1) as [d Hm].
  unfold owns in Hm. cbn [cells app] in Hm. unfold delete_node. apply ensures_bind, ensures_bind.
  eapply (rb_deref_ok []); [exact Hm|]. apply ensures_modify. apply holds_free in Hm.
  apply ensures_bind. eapply (rb_deref_ok []); [exact Hm|]. apply ensures_modify. apply holds_free in Hm.
  split; [exact Hm|]. split; [|by split]. intros p Hp. cbn. rewrite !lookup_delete_None. right. right.
  by apply (ok_fresh _ _ _ _ Hok1).
Qed.

Lemma rb_construct_ok dflt : rb_ok (construct negInf dflt) Nil [].
Proof.
  split; cbn.
  - exists dflt. split; [|done]. repeat constructor; cbn; set_solver.
  - intros p Hp. rewrite lookup_insert_ne, lookup_singleton_ne by lia. done.
  - by exists 0%nat.
  - done.
  - repeat constructor.
Qed.

End Object.

(** C24: RedBlackTree is a sorted set in which remove() does nothing: whatever
    calls a client makes with items that are not below [negInf], no pointer
    dangles, the answers are those of a sorted list without duplicates, the item
    [negInf] itself is silently not stored, and the tree stays red-black, so that
    no path has more than twice the logarithm of its size plus one nodes.  A
    copy is independent of its original: calls on either do not change the answers
    of the other, and after both destructors no node is left. *)
Theorem redblack_refines_sorted_set {K} `{KeyOrder K} (negInf dflt : K) (cs cs1 cs2 : list (call K)) :
  Forall (allowed negInf) (cs ++ cs1 ++ cs2) →
  ∃ s T, run_tree cs (construct negInf dflt) = Some ((rb_spec_run negInf cs []).1, s) ∧
    rb_ok negInf s T [] ∧ elements T = (rb_spec_run negInf cs []).2 ∧
    (depth T ≤ 2 * Nat.log2 (S (length (elements T))))%nat ∧
    ∃ h n s1 s2 s3 s4 s5, copy dflt s = (Val (h, n), s1) ∧
      run_tree cs1 (with_handles h n s1) = Some ((rb_spec_run negInf cs1 (elements T)).1, s2) ∧
      run_tree cs2 (with_handles (header s) (nullNode s) s2) = Some ((rb_spec_run negInf cs2 (elements T)).1, s3) ∧
      destroy (with_handles h n s3) = (Val (), s4) ∧
      destroy (with_handles (header s) (nullNode s) s4) = (Val (), s5) ∧ store s5 = ∅.
Proof.
  intros [Ha [Ha1 Ha2]%Forall_app]%Forall_app.
  destruct (run_tree_ok negInf cs _ _ _ (rb_construct_ok negInf dflt) Ha) as (s & T & E & Hok & _ & C).
  exists s, T. split_and!; [done..|by eapply rb_depth|].
  destruct (rb_copy_ok negInf dflt s T [] Hok) as ([h n] & s1 & Ec & T1 & d & Hst & _ & Hok1). cbn [fst snd] in Hok1.
  destruct (run_tree_ok negInf cs1 _ _ _ Hok1 Ha1) as (s2 & T2 & E2 & Hok2 & [D2 N2] & C2). cbn in D2, N2.
  rewrite (strip_elements _ _ Hst) in E2.
  destruct (rb_switch negInf s2 T2 _ _ T d [] Hok2) as [d2 Hok2']; [apply Hok..|by eapply rb_order|].
  destruct (run_tree_ok negInf cs2 _ _ _ Hok2' Ha2) as (s3 & T3 & E3 & Hok3 & [D3 N3] & C3). cbn in D3, N3.
  destruct (rb_switch negInf s3 T3 _ _ T2 d2 [] Hok3) as [d3 Hok3']; [apply Hok2..|by eapply rb_order|].
  destruct (rb_destroy_ok negInf _ _ _ Hok3') as ([] & s4 & E4 & H4 & F4 & _). rewrite D2, N2 in E4.
  assert (Hok4 : rb_ok negInf (with_handles (header s3) (nullNode s3) s4) T3 []).
  { apply (rb_of_object _ _ _ _ _ d3); [exact H4|exact F4|apply Hok3..|by eapply rb_order]. }
  destruct (rb_destroy_ok negInf _ _ _ Hok4) as ([] & s5 & E5 & [_ H5] & _). rewrite D3, N3 in E5.
  by exists h, n, s1, s2, s3, s4, s5.
Qed.

Example sample_calls : list (call Z) := [Insert 3; Insert 1; Insert 2; Insert 0; Insert 9; Remove 1; Contains 1; Contains 0; FindMin; FindMax].
Lemma redblack_refines_sorted_set_witness :
  ∃ s T, run_tree sample_calls (construct 0 7) = Some ((rb_spec_run 0 sample_calls []).1, s) ∧
    rb_ok 0 s T [] ∧ elements T = [1; 2; 3; 9] ∧ (depth T ≤ 4)%nat.
Proof.
  destruct (redblack_refines_sorted_set 0 7 sample_calls [] []) as (s & T & E & Hok & C & D & _).
  { repeat constructor. }
  exists s, T. rewrite C in D. split_and!; [exact E|exact Hok|exact C|exact D].
Defined.

(** Items below [negInf] are not found again; the constructor asks for a value
    that is less than or equal to all others. *)
Example insert_below_negInf_is_lost :
  fst <$> run_tree [Insert (-5); Contains (-5); IsEmpty; Insert 0; Contains 0] (construct 0 7) =
    Some [Done; Answer false; Answer true; Done; Answer false].
Proof. reflexivity. Qed.
