(* ===== verification/LogStream.v ===== *)
(** * LogStream.h, LogStream.cc: a log line as a bounded text

    Each operator appends the text of its argument to the buffer of the line, or
    nothing when there is no room for it; numbers are formatted in place, least
    digit first, and reversed.  A floating-point number is formatted by snprintf,
    which is a parameter. *)
From S2P Require Import Prelude Printf.

(** ** LogStream.h: FixedBuffer

    The buffer of a log line and of the asynchronous logger: an array of [SIZE]
    bytes and a cursor.  [holds_text b bs]: the bytes up to the cursor are [bs].
    append() stores all of its argument or nothing of it. *)

Module FixedBuffer.

Record FixedBuffer := Buffer { data_ : mem; cur_ : Z }.

Definition io (A : Type) : Type := act FixedBuffer Empty_set A.

Definition construct (SIZE : Z) : FixedBuffer := Buffer (mem_alloc SIZE) 0.

Definition length (b : FixedBuffer) : Z := i32 (cur_ b).
Definition avail (b : FixedBuffer) : Z := i32 (zlen (data_ b) - cur_ b).

(** Bytes stored through [current()]. *)
Definition put_current (bs : list Z) : io () :=
  b <- get_state ;;
  match mem_write (data_ b) (cur_ b) (Some <$> bs) with
  | Some m => put_state (Buffer m (cur_ b))
  | None => undefined
  end.

Definition add (len : Z) : io () := modify (λ b, Buffer (data_ b) (cur_ b + len)).

Definition append (buf : list Z) : io () :=
  b <- get_state ;;
  when zlen buf <? u64 (avail b) do (put_current buf ;;; add (zlen buf)).

Definition reset (b : FixedBuffer) : FixedBuffer := Buffer (data_ b) 0.
Definition bzero (b : FixedBuffer) : FixedBuffer := Buffer (replicate (Z.to_nat (zlen (data_ b))) (Some 0)) (cur_ b).

(** [data()] with [length()]; toString() and toStringPiece() *)
Definition toString (b : FixedBuffer) : option mem := mem_slice (data_ b) 0 (length b).

(** debugString() terminates the text in place. *)
Definition debugString : io (option mem) :=
  put_current [0] ;;; b <- get_state ;; act_ret (mem_slice (data_ b) 0 (cur_ b + 1)).

(** ** What a buffer holds *)

Record holds_text (SIZE : Z) (b : FixedBuffer) (bs : list Z) : Prop := Holds {
  ht_size : zlen (data_ b) = SIZE;
  ht_int : SIZE < 2 ^ 31;
  ht_cur : cur_ b = zlen bs;
  ht_room : zlen bs < SIZE;
  ht_text : ztake (cur_ b) (data_ b) = Some <$> bs
}.

Section facts.
Context {SIZE : Z}.
Implicit Types (b : FixedBuffer) (bs k : list Z).
Abbreviation holds_text := (holds_text SIZE).

Lemma zlen_some bs : zlen (Some <$> bs) = zlen bs.
Proof. unfold zlen. by rewrite length_fmap. Qed.

Lemma construct_text : 0 < SIZE < 2 ^ 31 → holds_text (construct SIZE) [].
Proof. intros. split; cbn; rewrite ?zlen_mem_alloc; try lia; [done|by rewrite zlen_nil; lia|by rewrite ztake_0]. Qed.

Lemma reset_text b bs : holds_text b bs → holds_text (reset b) [].
Proof. intros [H1 H2 H3 H4 H5]. pose proof (zlen_nonneg bs). split; cbn; try done; rewrite ?zlen_nil; lia. Qed.

Lemma bzero_text b : holds_text b [] → holds_text (bzero b) [].
Proof.
  intros [H1 H2 H3 H4 H5]. split; cbn; try done; [rewrite zlen_replicate; pose proof (zlen_nonneg (data_ b)); lia|]. rewrite H3, zlen_nil. by rewrite ztake_0.
Qed.

Lemma avail_text b bs : holds_text b bs → avail b = SIZE - zlen bs.
Proof.
  intros [H1 H2 H3 H4 H5]. unfold avail. pose proof (zlen_nonneg bs). rewrite H1, H3. apply swrap_small; [lia|].
  change (2 ^ (32 - 1)) with (2 ^ 31). ulia.
Qed.

Lemma length_text b bs : holds_text b bs → length b = zlen bs.
Proof.
  intros [H1 H2 H3 H4 H5]. unfold length. pose proof (zlen_nonneg bs). rewrite H3. apply swrap_small; [lia|].
  change (2 ^ (32 - 1)) with (2 ^ 31). ulia.
Qed.

Lemma toString_text b bs : holds_text b bs → toString b = Some (Some <$> bs).
Proof.
  intros Hb. unfold toString. rewrite (length_text b bs Hb). destruct Hb as [H1 H2 H3 H4 H5]. pose proof (zlen_nonneg bs).
  unfold mem_slice. rewrite bool_decide_true by lia. by rewrite zdrop_0, <-H3, H5.
Qed.

(** Bytes stored at the cursor, of which the first [n] are kept. *)
Lemma put_add_text b bs k n : holds_text b bs → zlen bs + zlen k <= SIZE → 0 <= n <= zlen k → zlen bs + n < SIZE →
  ∃ b', (put_current k ;;; add n) b = (Val (), b') ∧ holds_text b' (bs ++ ztake n k).
Proof.
  intros [H1 H2 H3 H4 H5] Hk Hn Hr. pose proof (zlen_nonneg bs). pose proof (zlen_nonneg k).
  destruct (mem_write_spec (data_ b) (cur_ b) (Some <$> k)) as (m & E & Hl & Ht & Hpre & _); [lia|rewrite zlen_some; lia|].
  exists (Buffer m (cur_ b + n)). split.
  - unfold put_current, add, act_bind, get_state. rewrite E. done.
  - rewrite zlen_some in Ht. split; cbn; rewrite ?zlen_app, ?zlen_ztake by lia; try lia.
    rewrite <-(ztake_ztake_le _ (cur_ b + zlen k)), Ht, H5 by lia. rewrite H3, fmap_app.
    unfold ztake. rewrite Z2Nat.inj_add by lia. unfold zlen at 1. rewrite Nat2Z.id.
    rewrite <-(length_fmap Some bs), take_app_add. by rewrite fmap_take.
Qed.

Lemma append_text b bs k : holds_text b bs →
  ∃ b', append k b = (Val (), b') ∧ holds_text b' (if zlen bs + zlen k <? SIZE then bs ++ k else bs).
Proof.
  intros Hb. unfold append. unfold act_bind at 1, get_state. rewrite (avail_text b bs Hb).
  pose proof (ht_room _ _ _ Hb). pose proof (ht_int _ _ _ Hb). pose proof (zlen_nonneg bs). pose proof (zlen_nonneg k).
  rewrite wrap_small by ulia. destruct (Z.ltb_spec (zlen k) (SIZE - zlen bs)), (Z.ltb_spec (zlen bs + zlen k) SIZE); try lia.
  - destruct (put_add_text b bs k (zlen k) Hb) as (b' & E & Hb'); [lia..|]. exists b'. split; [done|].
    by rewrite ztake_all in Hb' by lia.
  - by exists b.
Qed.

(** There is always room for the terminator. *)
Lemma debugString_text b bs : holds_text b bs →
  ∃ b', debugString b = (Val (Some (Some <$> (bs ++ [0]))), b') ∧ holds_text b' bs.
Proof.
  intros Hb. assert (zlen [0] = 1) as H0 by done. destruct (put_add_text b bs [0] 0 Hb) as (b' & E & Hb'); [destruct Hb; lia..|].
  rewrite ztake_0, app_nil_r in Hb'. destruct Hb as [H1 H2 H3 H4 H5]. pose proof (zlen_nonneg bs).
  destruct (mem_write_spec (data_ b) (cur_ b) (Some <$> [0])) as (m & Em & Hl & Ht & _); [lia|rewrite zlen_some; lia|].
  rewrite zlen_some, H0 in Ht. exists (Buffer m (cur_ b)).
  unfold debugString, put_current, add, act_bind, get_state, modify, put_state, act_ret in *. rewrite Em in *. cbn in *. split.
  - f_equal. f_equal. unfold mem_slice. rewrite bool_decide_true by lia. rewrite zdrop_0. f_equal.
    rewrite fmap_app, <-H5. by rewrite Ht.
  - injection E as <-. by rewrite Z.add_0_r in Hb'.
Qed.

End facts.
End FixedBuffer.

Import FixedBuffer.

Module LogStream.

Definition kSmallBuffer : Z := 4000.
Definition kMaxNumericSize : Z := 32.

Definition digits : list Z := bytes_of "9876543210123456789".
Definition zero (lsd : Z) : Z := default (-1) (zget digits (9 + lsd)).
Definition digitsHex : list Z := bytes_of "0123456789ABCDEF".

(** The loop of convert(): the characters in the order in which they are written.
    [/] and [%] round towards zero. *)
Fixpoint convert_loop (fuel : nat) (i : Z) : option (list Z) :=
  match fuel with
  | O => None
  | S fuel =>
      let lsd := Z.rem i 10 in
      let i := Z.quot i 10 in
      if i =? 0 then Some [zero lsd]
      else rest ← convert_loop fuel i; Some (zero lsd :: rest)
  end.

(** The text in the buffer, with its terminator; a 64-bit number has at most 20
    digits. *)
Definition convert (value : Z) : option (list Z) :=
  p ← convert_loop 20 value;
  Some (reverse (p ++ (if value <? 0 then [45] else [])) ++ [0]).

Fixpoint convertHex_loop (fuel : nat) (i : Z) : option (list Z) :=
  match fuel with
  | O => None
  | S fuel =>
      let lsd := default (-1) (zget digitsHex (i mod 16)) in
      let i := i / 16 in
      if i =? 0 then Some [lsd]
      else rest ← convertHex_loop fuel i; Some (lsd :: rest)
  end.

Definition convertHex (value : Z) : option (list Z) :=
  p ← convertHex_loop 16 value; Some (reverse p ++ [0]).

(** The text that snprintf stores in [size] bytes. *)
Definition snprintf_at (size : nat) (bs : list Z) : list Z := snprintf size bs ++ [0].

Section Stream.
Context {double : Type} (printf_g : double → list Z).

Definition formatted (text : option (list Z)) : io () :=
  b <- get_state ;;
  when kMaxNumericSize <=? avail b do
    match text with
    | Some bs => put_current bs ;;; add (zlen bs - 1)
    | None => undefined
    end.

Definition formatInteger (v : Z) : io () := formatted (convert v).

(** operator<<(const void* ) *)
Definition put_pointer (v : Z) : io () :=
  b <- get_state ;;
  when kMaxNumericSize <=? avail b do
    match convertHex v with
    | Some bs => put_current (bytes_of "0x" ++ bs) ;;; add (zlen bs - 1 + 2)
    | None => undefined
    end.

(** operator<<(double): the result of snprintf is added, also when it is more
    than was stored. *)
Definition put_double (v : double) : io () :=
  b <- get_state ;;
  when kMaxNumericSize <=? avail b do
    (put_current (snprintf_at 32 (printf_g v)) ;;; add (zlen (printf_g v))).

(** The arguments of operator<<: all integer types go through formatInteger. *)
Inductive item :=
| Bool (v : bool)
| Integer (v : Z)
| Pointer (p : Z)
| Double (v : double)
| Char (c : Z)
| CString (str : option (list Z))
| Text (v : list Z)
| Fmt (text : list Z).

(** Fmt's constructor asserts that its text fits into [buf_]. *)
Definition put (x : item) : io () :=
  match x with
  | Bool v => append (bytes_of (if v then "1" else "0"))
  | Integer v => formatInteger v
  | Pointer p => put_pointer p
  | Double v => put_double v
  | Char c => append [c]
  | CString (Some str) => append str
  | CString None => append (bytes_of "(null)")
  | Text v => append v
  | Fmt text => cpp_assert (zlen text <? 32) ;;; append text
  end.

Definition put_all (xs : list item) : io () := act_mapM_ put xs.

End Stream.
Arguments item double : clear implicits.

(** ** The specification: texts and the room that they need *)

Definition numeral (v : Z) : list Z := if v <? 0 then 45 :: printf_d (- v) else printf_d v.

(** [s] is [n] in base 16, without leading zeros. *)
Definition hex_value (c : Z) : Z := default (-1) (Z.of_nat ∘ fst <$> list_find (c =.) digitsHex).
Definition hex_val (s : list Z) : Z := foldl (λ a c, 16 * a + hex_value c) 0 s.
Record is_hexadecimal (n : Z) (s : list Z) : Prop := {
  hex_digits : Forall (.∈ digitsHex) s;
  hex_number : hex_val s = n;
  hex_lead : ∃ c t, s = c :: t ∧ (c = 48 → t = [])
}.

Section Spec.
Context {double : Type} (printf_g : double → list Z).

Inductive shows : item double → list Z → Prop :=
| shows_bool v : shows (Bool v) (bytes_of (if v then "1" else "0"))
| shows_integer v : shows (Integer v) (numeral v)
| shows_pointer p s : is_hexadecimal p s → shows (Pointer p) (bytes_of "0x" ++ s)
| shows_double v : shows (Double v) (printf_g v)
| shows_char c : shows (Char c) [c]
| shows_cstring s : shows (CString (Some s)) s
| shows_null : shows (CString None) (bytes_of "(null)")
| shows_text s : shows (Text s) s
| shows_fmt s : shows (Fmt s) s.

(** The room that is asked for: a number asks for the largest numeral. *)
Definition needs (x : item double) (s : list Z) : Z :=
  match x with Integer _ | Pointer _ | Double _ => kMaxNumericSize | _ => zlen s + 1 end.

(** [line x s s']: from the line [s], the item [x] makes [s']. *)
Definition line (x : item double) (s s' : list Z) : Prop :=
  ∃ k, shows x k ∧ s' = if needs x k <=? kSmallBuffer - zlen s then s ++ k else s.

Inductive lines : list (item double) → list Z → list Z → Prop :=
| lines_nil s : lines [] s s
| lines_cons x xs s s' s'' : line x s s' → lines xs s' s'' → lines (x :: xs) s s''.

(** The ranges of the C++ types; Fmt's assertion. *)
Definition valid (x : item double) : Prop :=
  match x with
  | Integer v => - 2 ^ 63 <= v < 2 ^ 64
  | Pointer p => is_uint 64 p
  | Fmt s => zlen s < 32
  | _ => True
  end.
End Spec.

(** ** Numerals *)

Lemma zero_digit r : -9 <= r <= 9 → zero r = 48 + Z.abs r.
Proof.
  intros Hr.
  assert (forallb (λ r, zero (r - 9) =? 48 + Z.abs (r - 9)) (seqZ 0 19) = true) as E by by vm_compute.
  pose proof (range_enum 19 (λ r, zero (r - 9) =? 48 + Z.abs (r - 9)) E (r + 9) ltac:(lia)) as E2.
  cbv beta in E2. apply Z.eqb_eq in E2. by replace (r + 9 - 9) with r in E2 by lia.
Qed.

Lemma convert_loop_digits k n : (0 < k)%nat → 0 <= n < 10 ^ Z.of_nat k →
  convert_loop k n = Some (reverse (Printf.digits k n)).
Proof.
  revert n. induction k as [|k IH]; intros n Hk Hn; [lia|]. cbn [convert_loop Printf.digits].
  rewrite Z.rem_mod_nonneg, Z.quot_div_nonneg by lia. pose proof (Z.mod_pos_bound n 10 ltac:(lia)).
  rewrite zero_digit, Z.abs_eq by lia. destruct (Z.ltb_spec n 10) as [H10|H10].
  - rewrite Z.div_small, Z.mod_small by lia. done.
  - assert (0 < n / 10) by (apply Z.div_str_pos; lia). rewrite (proj2 (Z.eqb_neq _ _)) by lia.
    assert (n / 10 < 10 ^ Z.of_nat k) by (rewrite Nat2Z.inj_succ, Z.pow_succ_r in Hn by lia; apply Z.div_lt_upper_bound; lia).
    destruct k as [|k]; [cbn in *; lia|]. rewrite IH by lia. cbn [mbind option_bind]. by rewrite reverse_snoc.
Qed.

Lemma convert_loop_opp k n : convert_loop k (- n) = convert_loop k n.
Proof.
  revert n. induction k as [|k IH]; intros n; [done|]. cbn [convert_loop]. rewrite Z.rem_opp_l, Z.quot_opp_l by lia.
  pose proof (Z.rem_bound_abs n 10 ltac:(lia)). rewrite IH, !zero_digit by lia. rewrite Z.abs_opp.
  destruct (Z.eqb_spec (n ÷ 10) 0), (Z.eqb_spec (- (n ÷ 10)) 0); (lia || done).
Qed.

Lemma convert_numeral v : - 2 ^ 63 <= v < 2 ^ 64 → convert v = Some (numeral v ++ [0]) ∧ zlen (numeral v) <= 21.
Proof.
  intros Hv. assert (0 <= Z.abs v < 10 ^ Z.of_nat 20) as Ha by (change (10 ^ Z.of_nat 20) with 100000000000000000000; uint_bounds; lia).
  assert (convert_loop 20 v = Some (reverse (printf_d (Z.abs v)))) as E.
  { unfold printf_d. rewrite <-(convert_loop_digits 20 (Z.abs v)) by lia. destruct (Z.abs_eq_or_opp v) as [->| ->]; [done|].
    symmetry. apply convert_loop_opp. }
  pose proof (proj2 (digits_decimal 20 (Z.abs v) ltac:(lia) Ha)) as Hl. change (Printf.digits 20) with printf_d in Hl.
  unfold convert. rewrite E. cbn [mbind option_bind]. unfold numeral. destruct (Z.ltb_spec v 0).
  - rewrite reverse_snoc, reverse_involutive. rewrite Z.abs_neq in * by lia. split; [done|]. rewrite zlen_cons. unfold zlen. lia.
  - rewrite app_nil_r, reverse_involutive. rewrite Z.abs_eq in * by lia. split; [done|]. unfold zlen. lia.
Qed.

Lemma hex_digit c : 0 <= c < 16 →
  let d := default (-1) (zget digitsHex c) in hex_value d = c ∧ d ∈ digitsHex ∧ (d = 48 → c = 0).
Proof.
  intros Hc.
  assert (forallb (λ c, let d := default (-1) (zget digitsHex c) in
    bool_decide (hex_value d = c ∧ d ∈ digitsHex ∧ (d = 48 → c = 0))) (seqZ 0 16) = true) as E by by vm_compute.
  pose proof (range_enum 16 _ E c Hc) as E2. cbv beta zeta in E2. by apply bool_decide_eq_true in E2.
Qed.

Lemma convertHex_loop_ok k n : (0 < k)%nat → 0 <= n < 16 ^ Z.of_nat k →
  ∃ l, convertHex_loop k n = Some l ∧ is_hexadecimal n (reverse l) ∧ (List.length l ≤ k)%nat.
Proof.
  revert n. induction k as [|k IH]; intros n Hk Hn; [lia|]. cbn [convertHex_loop].
  pose proof (Z.mod_pos_bound n 16 ltac:(lia)) as Hm. destruct (hex_digit _ Hm) as (Hv & Hin & Hz). cbv zeta in *.
  set (d := default (-1) (zget digitsHex (n mod 16))) in *. pose proof (Z.div_mod n 16 ltac:(lia)) as Hdm.
  destruct (Z.eqb_spec (n / 16) 0) as [H0|H0].
  - exists [d]. split; [done|]. split; [|cbn; lia]. change (reverse [d]) with [d]. split.
    + by apply Forall_singleton.
    + unfold hex_val. cbn [foldl]. rewrite Hv. lia.
    + by exists d, [].
  - assert (0 < n / 16) by (pose proof (Z.div_pos n 16); lia).
    assert (n / 16 < 16 ^ Z.of_nat k) by (rewrite Nat2Z.inj_succ, Z.pow_succ_r in Hn by lia; apply Z.div_lt_upper_bound; lia).
    destruct k as [|k]; [cbn in *; lia|]. destruct (IH (n / 16)) as (l & -> & [Hd Hn' (c & t & E & Hc)] & Hl); [lia..|].
    exists (d :: l). split; [done|]. split; [|cbn; lia]. rewrite reverse_cons. split.
    + apply Forall_app. split; [done|]. by apply Forall_singleton.
    + unfold hex_val in *. rewrite foldl_app, Hn'. cbn [foldl]. rewrite Hv. lia.
    + exists c, (t ++ [d]). rewrite E. split; [done|]. intros ->. rewrite (Hc eq_refl) in E. rewrite E in Hn'.
      exfalso. change (hex_val [48]) with 0 in Hn'. lia.
Qed.

Lemma convertHex_hexadecimal v : is_uint 64 v →
  ∃ s, convertHex v = Some (s ++ [0]) ∧ is_hexadecimal v s ∧ zlen s <= 16.
Proof.
  intros Hv. destruct (convertHex_loop_ok 16 v) as (l & E & Hh & Hl); [lia|change (16 ^ Z.of_nat 16) with (2 ^ 64); exact Hv|].
  exists (reverse l). unfold convertHex. rewrite E. split; [done|]. split; [done|]. unfold zlen. rewrite length_reverse. lia.
Qed.

(** ** The operators *)

Section Puts.
Context {double : Type} (printf_g : double → list Z).
Hypothesis printf_g_short : ∀ v, zlen (printf_g v) < 32.
Implicit Types (b : FixedBuffer) (s : list Z).
Abbreviation holds_line := (holds_text kSmallBuffer).

(** A number is stored with its terminator, and fits. *)
Lemma put_number b s text n k : holds_line b s → 0 <= n <= zlen text → zlen text <= 32 → n < 32 → ztake n text = k →
  ∃ b', (if 32 <=? avail b then put_current text ;;; add n else act_ret ()) b = (Val (), b') ∧
        holds_line b' (if 32 <=? kSmallBuffer - zlen s then s ++ k else s).
Proof.
  intros Hb Hn Ht Hn' <-. rewrite (avail_text b s Hb). destruct (Z.leb_spec 32 (kSmallBuffer - zlen s)).
  - destruct (put_add_text b s text n Hb) as (b' & E & Hb'); [lia..|]. by exists b'.
  - by exists b.
Qed.

Lemma append_line b s k : holds_line b s →
  ∃ b', append k b = (Val (), b') ∧ holds_line b' (if zlen k + 1 <=? kSmallBuffer - zlen s then s ++ k else s).
Proof.
  intros Hb. destruct (append_text b s k Hb) as (b' & E & Hb'). exists b'. split; [done|].
  destruct (Z.ltb_spec (zlen s + zlen k) kSmallBuffer), (Z.leb_spec (zlen k + 1) (kSmallBuffer - zlen s)); (lia || done).
Qed.

Lemma put_line x b s : holds_line b s → valid x →
  ∃ b' s', put printf_g x b = (Val (), b') ∧ holds_line b' s' ∧ line printf_g x s s'.
Proof.
  intros Hb Hx. unfold line. assert (zlen [0] = 1) as H1 by done.
  assert (Happ : ∀ k, shows printf_g x k → needs x k = zlen k + 1 → put printf_g x = append k → ∃ b' s', put printf_g x b = (Val (), b') ∧
    holds_line b' s' ∧ ∃ k, shows printf_g x k ∧ s' = if needs x k <=? kSmallBuffer - zlen s then s ++ k else s).
  { intros k Hk Hn ->. destruct (append_line b s k Hb) as (b' & E & Hb'). eexists b', _. split; [done|]. split; [done|].
    exists k. by rewrite Hn. }
  destruct x as [v|v|p|v|c|[str|]|v|text]; cbn [valid] in Hx.
  - eapply Happ; [constructor|done..].
  - destruct (convert_numeral v Hx) as [E Hl]. cbn [put]. unfold formatInteger, formatted. rewrite E.
    unfold act_bind at 1, get_state. pose proof (zlen_nonneg (numeral v)).
    destruct (put_number b s (numeral v ++ [0]) (zlen (numeral v ++ [0]) - 1) (numeral v) Hb) as (b' & E' & Hb');
      rewrite ?zlen_app, ?H1; try lia.
    { apply ztake_app. lia. }
    rewrite zlen_app, H1 in E'. eexists b', _. split; [exact E'|]. split; [exact Hb'|].
    exists (numeral v). split; [constructor|done].
  - destruct (convertHex_hexadecimal p Hx) as (k & E & Hk & Hl). cbn [put]. unfold put_pointer. rewrite E.
    unfold act_bind at 1, get_state. pose proof (zlen_nonneg k). assert (zlen (bytes_of "0x") = 2) as H2 by done.
    destruct (put_number b s (bytes_of "0x" ++ k ++ [0]) (zlen (k ++ [0]) - 1 + 2) (bytes_of "0x" ++ k) Hb) as (b' & E' & Hb');
      rewrite ?zlen_app, ?H1, ?H2; try lia.
    { rewrite (assoc_L (++)). apply ztake_app. rewrite zlen_app. lia. }
    rewrite zlen_app, H1 in E'. eexists b', _. split; [exact E'|]. split; [exact Hb'|].
    exists (bytes_of "0x" ++ k). split; [by constructor|done].
  - cbn [put]. unfold put_double. unfold act_bind at 1, get_state. pose proof (printf_g_short v). pose proof (zlen_nonneg (printf_g v)).
    assert (Hs : snprintf_at 32 (printf_g v) = printf_g v ++ [0]).
    { unfold snprintf_at, snprintf. rewrite take_ge; [done|]. unfold zlen in *. cbn. lia. }
    rewrite Hs. destruct (put_number b s (printf_g v ++ [0]) (zlen (printf_g v)) (printf_g v) Hb) as (b' & E' & Hb');
      rewrite ?zlen_app, ?H1; try lia.
    { by apply ztake_app. }
    eexists b', _. split; [exact E'|]. split; [exact Hb'|]. exists (printf_g v). split; [constructor|done].
  - eapply Happ; [constructor|done..].
  - eapply Happ; [constructor|done..].
  - eapply Happ; [constructor|done..].
  - eapply Happ; [constructor|done..].
  - destruct (append_line b s text Hb) as (b' & E & Hb'). exists b', (if zlen text + 1 <=? kSmallBuffer - zlen s then s ++ text else s).
    split; [|split; [done|]].
    + cbn [put]. unfold act_bind, cpp_assert. by rewrite (proj2 (Z.ltb_lt _ _)).
    + exists text. split; [constructor|done].
Qed.

Lemma put_all_lines xs b s : holds_line b s → Forall valid xs →
  ∃ b' s', put_all printf_g xs b = (Val (), b') ∧ holds_line b' s' ∧ lines printf_g xs s s'.
Proof.
  intros Hb Hx. revert b s Hb. induction Hx as [|x xs Hx _ IH]; intros b s Hb.
  { exists b, s. split; [done|]. split; [done|constructor]. }
  destruct (put_line x b s Hb Hx) as (b1 & s1 & E1 & Hb1 & Hl1). destruct (IH b1 s1 Hb1) as (b2 & s2 & E2 & Hb2 & Hl2).
  exists b2, s2. split; [|split; [done|by econstructor]]. unfold put_all. cbn [act_mapM_]. unfold act_bind. by rewrite E1.
Qed.

End Puts.

(** C31: A log line takes the texts of its items in order, each of them whole or
    not at all: a number is left out when fewer than 32 bytes are free, a text
    when it does not fit with one byte to spare.  Integers of every width print as
    decimal numerals, the minimum included, pointers as hexadecimal ones; nothing
    is written outside of the buffer, and there is always room for the terminator
    of debugString().  Assumed of snprintf: %.12g gives less than 32 characters. *)
Theorem log_stream_appends_texts {double} (printf_g : double → list Z) (xs : list (item double)) :
  (∀ v, zlen (printf_g v) < 32) → Forall valid xs →
  ∃ b s, put_all printf_g xs (construct kSmallBuffer) = (Val (), b) ∧ lines printf_g xs [] s ∧
         toString b = Some (Some <$> s) ∧ length b = zlen s ∧ zlen s < kSmallBuffer ∧
         ∃ b', debugString b = (Val (Some (Some <$> (s ++ [0]))), b') ∧ toString b' = toString b.
Proof.
  intros Hg Hx. destruct (put_all_lines printf_g Hg xs (construct kSmallBuffer) []) as (b & s & E & Hb & Hl); [|done|].
  { apply construct_text. by vm_compute. }
  exists b, s. split_and!; [done..| | | |].
  - by eapply toString_text.
  - by eapply length_text.
  - apply Hb.
  - destruct (debugString_text b s Hb) as (b' & E' & Hb'). exists b'. split; [done|].
    by rewrite (toString_text b s Hb), (toString_text b' s Hb').
Qed.

Definition sample_items : list (item ()) :=
  [Integer (- 2 ^ 63); Char 32; Pointer 48879; Char 32; Double (); Bool true; CString None; Fmt (bytes_of "07")].
Lemma log_stream_appends_texts_witness :
  ∃ b s, put_all (λ _, bytes_of "1.5") sample_items (construct kSmallBuffer) = (Val (), b) ∧
         lines (λ _, bytes_of "1.5") sample_items [] s ∧ toString b = Some (Some <$> s).
Proof.
  destruct (log_stream_appends_texts (λ _, bytes_of "1.5") sample_items) as (b & s & E & Hl & Ht & _).
  - intros _. reflexivity.
  - repeat constructor; vm_compute; congruence.
  - exists b, s. split; [exact E|split; [exact Hl|exact Ht]].
Defined.

Example sample_line :
  toString (put_all (λ _, bytes_of "1.5") sample_items (construct kSmallBuffer)).2 =
  Some (Some <$> bytes_of "-9223372036854775808 0xBEEF 1.51(null)07").
Proof. by vm_compute. Qed.

End LogStream.
