(* ===== verification/AsyncLogging.v ===== *)
(** * AsyncLogging.h, AsyncLogging.cc: the logger with two buffers on each side

    Any number of threads append lines; one thread, the backend, takes the full
    buffers and writes them.  A critical section is one step, and so is each access
    of the backend outside of it: the test of [running_], the choice of what is
    dropped, the write of one buffer, the refill.  [owner] is the thread that calls
    start() and stop().  The wait of the backend is timed: it may end at any time.
    The size of a buffer is a parameter ([kLargeBuffer] in the code). *)
From S2P Require Import Prelude Printf Hoare LogStream.
Import FixedBuffer.

Module AsyncLogging.

Definition kLargeBuffer : Z := 4000 * 1000.

Section Class.
Context (SIZE : Z).

Definition BufferPtr : Type := option FixedBuffer.

(** Where the backend is. *)
Inductive place :=
| NotStarted
| Entry
| Head
| Locking
| Waiting
| Woken
| Choosing
| Writing (k : nat)
| Refilling
| Finished.

(** Where the thread is that starts and stops the logger. *)
Inductive owner_place := Fresh | Starting | Started | Stopping | Joining | Stopped.

Record logger := Logger {
  running_ : bool;
  latch_ : Z;
  currentBuffer_ : BufferPtr;
  nextBuffer_ : BufferPtr;
  buffers_ : list BufferPtr;
  newBuffer1 : BufferPtr;
  newBuffer2 : BufferPtr;
  buffersToWrite : list BufferPtr;
  output : list mem;
  backend : place;
  owner : owner_place
}.

Definition io (A : Type) : Type := act logger Empty_set A.

Definition new_Buffer : FixedBuffer := construct SIZE.

Definition create : logger :=
  Logger false 1 (Some (bzero new_Buffer)) (Some (bzero new_Buffer)) [] None None [] [] NotStarted Fresh.

(** ** Fields *)

Definition set_front (cur next : BufferPtr) (bs : list BufferPtr) (l : logger) : logger :=
  Logger (running_ l) (latch_ l) cur next bs (newBuffer1 l) (newBuffer2 l) (buffersToWrite l) (output l) (backend l) (owner l).
Definition set_back (n1 n2 : BufferPtr) (bs : list BufferPtr) (l : logger) : logger :=
  Logger (running_ l) (latch_ l) (currentBuffer_ l) (nextBuffer_ l) (buffers_ l) n1 n2 bs (output l) (backend l) (owner l).
Definition set_output (o : list mem) (l : logger) : logger :=
  Logger (running_ l) (latch_ l) (currentBuffer_ l) (nextBuffer_ l) (buffers_ l) (newBuffer1 l) (newBuffer2 l) (buffersToWrite l) o (backend l) (owner l).
Definition set_backend (p : place) (l : logger) : logger :=
  Logger (running_ l) (latch_ l) (currentBuffer_ l) (nextBuffer_ l) (buffers_ l) (newBuffer1 l) (newBuffer2 l) (buffersToWrite l) (output l) p (owner l).
Definition set_owner (r : bool) (p : owner_place) (l : logger) : logger :=
  Logger r (latch_ l) (currentBuffer_ l) (nextBuffer_ l) (buffers_ l) (newBuffer1 l) (newBuffer2 l) (buffersToWrite l) (output l) (backend l) p.
Definition set_latch (n : Z) (l : logger) : logger :=
  Logger (running_ l) n (currentBuffer_ l) (nextBuffer_ l) (buffers_ l) (newBuffer1 l) (newBuffer2 l) (buffersToWrite l) (output l) (backend l) (owner l).

Definition deref (p : BufferPtr) : io FixedBuffer :=
  match p with Some b => act_ret b | None => undefined end.

(** A call on a buffer. *)
Definition on_buffer (m : FixedBuffer.io ()) (b : FixedBuffer) : io FixedBuffer :=
  match m b with
  | (Val _, b) => act_ret b
  | _ => undefined
  end.

(** cond_.notify(): only the backend waits. *)
Definition notify : io () :=
  modify (λ l, match backend l with Waiting => set_backend Woken l | _ => l end).

(** ** append *)

Definition append_current (logline : list Z) : io () :=
  l <- get_state ;;
  b <- deref (currentBuffer_ l) ;;
  b <- on_buffer (FixedBuffer.append logline) b ;;
  modify (λ l, set_front (Some b) (nextBuffer_ l) (buffers_ l) l).

Definition append (logline : list Z) : io () :=
  l <- get_state ;;
  b <- deref (currentBuffer_ l) ;;
  if zlen logline <? avail b then append_current logline
  else
    (modify (λ l, set_front None (nextBuffer_ l) (buffers_ l ++ [currentBuffer_ l]) l) ;;;
     l <- get_state ;;
     match nextBuffer_ l with
     | Some b => put_state (set_front (Some b) None (buffers_ l) l)
     | None => put_state (set_front (Some new_Buffer) None (buffers_ l) l)
     end ;;;
     append_current logline ;;;
     notify).

(** ** The backend *)

Definition is_empty (p : BufferPtr) : bool :=
  match p with Some b => FixedBuffer.length b =? 0 | None => false end.

(** The exchange of the buffers, at the end of the critical section. *)
Definition swap_buffers : io () :=
  modify (λ l, set_back None (newBuffer2 l) (buffers_ l ++ [currentBuffer_ l])
                 (set_front (newBuffer1 l) (nextBuffer_ l) (buffersToWrite l) l)) ;;;
  modify (λ l, match nextBuffer_ l with
               | Some _ => l
               | None => set_back (newBuffer1 l) None (buffersToWrite l) (set_front (currentBuffer_ l) (newBuffer2 l) (buffers_ l) l)
               end) ;;;
  modify (set_backend Choosing).

(** The line about dropped buffers; [now] is the formatted time. *)
Definition message (now : list Z) (n : nat) : list Z :=
  snprintf 256 (bytes_of "Dropped log messages at " ++ now ++ bytes_of ", " ++ printf_d (Z.of_nat n - 2) ++
                bytes_of " larger buffers" ++ [10]).

Definition drop_buffers (now : list Z) : io () :=
  l <- get_state ;;
  cpp_assert (0 <? zlen (buffersToWrite l)) ;;;
  when 25 <? zlen (buffersToWrite l) do
    (modify (set_output (output l ++ [Some <$> message now (List.length (buffersToWrite l))])) ;;;
     modify (λ l, set_back (newBuffer1 l) (newBuffer2 l) (take 2 (buffersToWrite l)) l)).

Definition write_buffer (k : nat) : io () :=
  l <- get_state ;;
  match buffersToWrite l !! k with
  | Some p =>
      b <- deref p ;;
      match toString b with
      | Some m => put_state (set_backend (Writing (S k)) (set_output (output l ++ [m]) l))
      | None => undefined
      end
  | None => put_state (set_backend Refilling l)
  end.

(** buffersToWrite.back() moves into the null pointer, and is reset. *)
Definition take_back : io BufferPtr :=
  l <- get_state ;;
  cpp_assert (0 <? zlen (buffersToWrite l)) ;;;
  match last (buffersToWrite l) with
  | Some p =>
      b <- deref p ;;
      modify (λ l, set_back (newBuffer1 l) (newBuffer2 l) (take (pred (List.length (buffersToWrite l))) (buffersToWrite l)) l) ;;;
      act_ret (Some (reset b))
  | None => undefined
  end.

Definition refill : io () :=
  modify (λ l, set_back (newBuffer1 l) (newBuffer2 l)
                 (if 2 <? zlen (buffersToWrite l) then take 2 (buffersToWrite l) else buffersToWrite l) l) ;;;
  l <- get_state ;;
  (when bool_decide (newBuffer1 l = None) do
     (p <- take_back ;; modify (λ l, set_back p (newBuffer2 l) (buffersToWrite l) l))) ;;;
  l <- get_state ;;
  (when bool_decide (newBuffer2 l = None) do
     (p <- take_back ;; modify (λ l, set_back (newBuffer1 l) p (buffersToWrite l) l))) ;;;
  modify (λ l, set_backend Head (set_back (newBuffer1 l) (newBuffer2 l) [] l)).

(** One step of threadFunc(). *)
Definition threadFunc (now : list Z) : io () :=
  l <- get_state ;;
  match backend l with
  | Entry =>
      cpp_assert (running_ l) ;;;
      put_state (set_backend Head (set_back (Some (bzero new_Buffer)) (Some (bzero new_Buffer)) [] (set_latch (latch_ l - 1) l)))
  | Head =>
      if running_ l then
        (cpp_assert (is_empty (newBuffer1 l)) ;;;
         cpp_assert (is_empty (newBuffer2 l)) ;;;
         cpp_assert (zlen (buffersToWrite l) =? 0) ;;;
         modify (set_backend Locking))
      else modify (set_backend Finished)
  | Locking => if zlen (buffers_ l) =? 0 then modify (set_backend Waiting) else swap_buffers
  | Woken => swap_buffers
  | Choosing => drop_buffers now ;;; modify (set_backend (Writing 0))
  | Writing k => write_buffer k
  | Refilling => refill
  | NotStarted | Waiting | Finished => undefined
  end.

(** ** The threads together *)

Inductive event :=
| Append (logline : list Z)
| Backend (now : list Z)
| Timeout
| Start
| StartReturns
| Stop
| StopNotifies
| StopReturns.

(** The event can happen now. *)
Definition enabled (e : event) (l : logger) : bool :=
  match e with
  | Append _ => true
  | Backend _ => match backend l with NotStarted | Waiting | Finished => false | _ => true end
  | Timeout => match backend l with Waiting => true | _ => false end
  | Start => match owner l with Fresh => true | _ => false end
  | StartReturns => match owner l with Starting => latch_ l =? 0 | _ => false end
  | Stop => match owner l with Started => true | _ => false end
  | StopNotifies => match owner l with Stopping => true | _ => false end
  | StopReturns => match owner l, backend l with Joining, Finished => true | _, _ => false end
  end.

Definition perform (e : event) : io () :=
  match e with
  | Append logline => append logline
  | Backend now => threadFunc now
  | Timeout => modify (set_backend Woken)
  | Start => modify (λ l, set_backend Entry (set_owner true Starting l))
  | StartReturns => modify (λ l, set_owner (running_ l) Started l)
  | Stop => modify (set_owner false Stopping)
  | StopNotifies => modify (λ l, set_owner (running_ l) Joining l) ;;; notify
  | StopReturns => modify (λ l, set_owner (running_ l) Stopped l)
  end.

(** ** What is written, round by round *)

(** The bytes of a buffer, as far as its cells are set. *)
Definition bytes (p : BufferPtr) : list Z :=
  match p with Some b => omap id (default [] (toString b)) | None => [] end.

(** A round: the buffers that the backend has taken at once, and the time. *)
Definition round : Type := list (list Z) * list Z.

Definition written (r : round) : list Z :=
  if (25 <? zlen r.1) then message r.2 (List.length r.1) ++ concat (take 2 r.1) else concat r.1.

Definition track (e : event) (l : logger) (rs : list round) : list round :=
  match e, backend l with
  | Backend now, Choosing => rs ++ [(bytes <$> buffersToWrite l, now)]
  | _, _ => rs
  end.

(** Lines that a buffer can hold. *)
Definition logged (es : list event) : list Z :=
  concat (omap (λ e, match e with Append bs => if zlen bs <? SIZE then Some bs else None | _ => None end) es).

Inductive run (l0 : logger) (rs0 : list round) : list event → logger → list round → Prop :=
| run_nil : run l0 rs0 [] l0 rs0
| run_snoc es l rs e l' :
    run l0 rs0 es l rs → enabled e l = true → perform e l = (Val (), l') → run l0 rs0 (es ++ [e]) l' (track e l rs).

(** The same, evaluated. *)
Fixpoint exec (es : list event) (l : logger) (rs : list round) : option (logger * list round) :=
  match es with
  | [] => Some (l, rs)
  | e :: es =>
      if enabled e l then match perform e l with (Val _, l') => exec es l' (track e l rs) | _ => None end else None
  end.

Definition history : list event → logger → list round → Prop := run create [].

(** Bytes in memory: appended and not taken; taken and not chosen; chosen and
    not written. *)
Definition pending (l : logger) : list Z := concat (bytes <$> buffers_ l) ++ bytes (currentBuffer_ l).
Definition taken (l : logger) : list Z :=
  match backend l with Choosing => concat (bytes <$> buffersToWrite l) | _ => [] end.
Definition inflight (l : logger) : list Z :=
  match backend l with Writing k => concat (bytes <$> drop k (buffersToWrite l)) | _ => [] end.

(** The rounds that are written completely. *)
Definition finished (rs : list round) (l : logger) : list round :=
  match backend l with Writing _ => take (pred (List.length rs)) rs | _ => rs end.

(** Steps of the backend, its wake-up included. *)
Definition tick (e : event) : nat := match e with Backend _ | Timeout => 1 | _ => 0 end.
Definition ticks (es : list event) : nat := sum_list (tick <$> es).

End Class.
End AsyncLogging.
