(* ===== verification/AsyncLoggingTheorems.v ===== *)
(** * The theorems about AsyncLogging

    Order and completeness of the output, the bound on the steps of the backend,
    and what stop() leaves behind. *)
From S2P Require Import Prelude Printf Hoare AsyncLogging LogStream.

(** ** What AsyncLogging promises

    An invariant of every history: no pointer is null where it is used, no
    assertion fails, and each accepted line is, in order, in the rounds of the
    backend or still in memory.  Then: the backend writes what is pending within
    a fixed number of its steps, and stop() loses what it does not wait for. *)
Import FixedBuffer AsyncLogging.

Section Facts.
Context (SIZE : Z) (SIZE_ok : 0 < SIZE < 2 ^ 31).
Implicit Types (l : logger) (p : BufferPtr) (bs : list Z) (es : list event) (rs : list round).
Abbreviation append := (append SIZE).
Abbreviation perform := (perform SIZE).
Abbreviation threadFunc := (threadFunc SIZE).
Abbreviation history := (history SIZE).
Abbreviation logged := (logged SIZE).

(** ** Buffers *)

Definition text p bs : Prop := ∃ b, p = Some b ∧ holds_text SIZE b bs.
Definition full p : Prop := ∃ bs, text p bs.

Lemma text_full p bs : text p bs → full p.
Proof. by exists bs. Qed.

Lemma bytes_text p bs : text p bs → bytes p = bs.
Proof.
  intros (b & -> & Hb). cbn. rewrite (toString_text b bs Hb). cbn. clear. induction bs as [|x bs IH]; [done|]. cbn. by rewrite IH.
Qed.

Lemma full_text p : full p → text p (bytes p).
Proof. intros [bs Hp]. by rewrite (bytes_text p bs Hp). Qed.

Lemma new_text : text (Some (new_Buffer SIZE)) [].
Proof. eexists. split; [done|]. by apply construct_text. Qed.

Lemma new_bzero_text : text (Some (bzero (new_Buffer SIZE))) [].
Proof. eexists. split; [done|]. by apply bzero_text, construct_text. Qed.

(** ** The parts of the object *)

(** What the appending threads use. *)
Record front_ok l : Prop := FrontOk {
  fr_cur : full (currentBuffer_ l);
  fr_next : nextBuffer_ l = None ∨ text (nextBuffer_ l) [];
  fr_taken : nextBuffer_ l = None → buffers_ l ≠ [];
  fr_buffers : Forall full (buffers_ l)
}.

(** What they leave alone. *)
Record same_back l l' : Prop := SameBack {
  sb_running : running_ l' = running_ l;
  sb_latch : latch_ l' = latch_ l;
  sb_new1 : newBuffer1 l' = newBuffer1 l;
  sb_new2 : newBuffer2 l' = newBuffer2 l;
  sb_write : buffersToWrite l' = buffersToWrite l;
  sb_output : output l' = output l;
  sb_owner : owner l' = owner l;
  sb_backend : backend l' = backend l ∨ (backend l = Waiting ∧ backend l' = Woken)
}.

Lemma append_current_ok l bs cur k : text (currentBuffer_ l) cur →
  k = (if zlen cur + zlen bs <? SIZE then cur ++ bs else cur) →
  ensures (append_current bs) l (λ _ l', ∃ p, text p k ∧ l' = set_front p (nextBuffer_ l) (buffers_ l) l).
Proof.
  intros (b & Eb & Hb) ->. unfold append_current. apply ensures_bind, ensures_get, ensures_bind. rewrite Eb. cbn [deref].
  apply ensures_ret, ensures_bind. destruct (append_text b cur bs Hb) as (b' & E & Hb'). unfold on_buffer. rewrite E.
  apply ensures_ret, ensures_modify. exists (Some b'). split; [by exists b'|done].
Qed.

Definition notified l : logger := match backend l with Waiting => set_backend Woken l | _ => l end.

Lemma notified_front l : front_ok l → front_ok (notified l).
Proof. unfold notified. destruct (backend l); try done. by intros [? ? ? ?]. Qed.
Lemma notified_pending l : pending (notified l) = pending l.
Proof. unfold notified. by destruct (backend l). Qed.
Lemma notified_same l l' : same_back l l' → backend l' = backend l → same_back l (notified l').
Proof.
  intros [E1 E2 E3 E4 E5 E6 E7 _] E. unfold notified. destruct (backend l') eqn:E'; split; try done; auto; left; congruence.
Qed.

Lemma logger_append_ok l bs : front_ok l →
  ensures (append bs) l (λ _ l', front_ok l' ∧ same_back l l' ∧
    pending l' = pending l ++ (if zlen bs <? SIZE then bs else [])).
Proof.
  intros [[cur Hcur] Hnext Hfull Hbufs]. pose proof Hcur as (b & Eb & Hb). unfold AsyncLogging.append.
  apply ensures_bind, ensures_get, ensures_bind. rewrite Eb. cbn [deref]. apply ensures_ret. rewrite (avail_text b cur Hb).
  pose proof (zlen_nonneg cur) as Hc0. assert (pending l = concat (bytes <$> buffers_ l) ++ cur) as -> by (unfold pending; by rewrite (bytes_text _ _ Hcur)).
  destruct (Z.ltb_spec (zlen bs) (SIZE - zlen cur)).
  - eapply ensures_weaken; [by eapply append_current_ok|]. cbv beta. intros _ l' (p & Hp & ->).
    rewrite (proj2 (Z.ltb_lt _ _)) in Hp by lia. split; [|split].
    + split; [by eapply text_full|done..].
    + split; try done. by left.
    + cbn. rewrite (bytes_text p _ Hp), (proj2 (Z.ltb_lt _ _)) by lia. by rewrite (assoc_L (++)).
  - apply ensures_bind, ensures_modify, ensures_bind, ensures_get. cbn [nextBuffer_ set_front].
    set (l1 := set_front None (nextBuffer_ l) (buffers_ l ++ [currentBuffer_ l]) l).
    apply ensures_bind.
    assert (Hl2 : ∀ Q : () → logger → Prop, (∀ p, text p [] → Q () (set_front p None (buffers_ l1) l1)) →
      ensures (E := Empty_set) match nextBuffer_ l with
       | Some b => put_state (set_front (Some b) None (buffers_ l1) l1)
       | None => put_state (set_front (Some (new_Buffer SIZE)) None (buffers_ l1) l1) end l1 Q).
    { intros Q HQ. destruct Hnext as [->|Hn]; [|pose proof Hn as (b' & E' & _); rewrite E' in *]; apply ensures_put, HQ; [apply new_text|done]. }
    apply Hl2. intros p2 Hp2. apply ensures_bind.
    eapply ensures_weaken; [eapply append_current_ok; [exact Hp2|done]|]. cbv beta. intros _ l3 (p & Hp & ->).
    rewrite zlen_nil, Z.add_0_l in Hp. cbn [app] in Hp.
    assert (Hbufs' : Forall full (buffers_ l ++ [currentBuffer_ l])).
    { apply Forall_app. split; [done|]. apply Forall_singleton. by eapply text_full. }
    apply ensures_modify. match goal with |- context [same_back l ?n] => change n with (notified (set_front p None (buffers_ l1) l)) end.
    rewrite notified_pending. split; [|split].
    + apply notified_front. split; cbn; [by eapply text_full|by left|intros _; by destruct (buffers_ l)|exact Hbufs'].
    + apply notified_same; [|done]. split; try done. by left.
    + unfold pending. cbn. rewrite (bytes_text p _ Hp), fmap_app, concat_app. cbn. by rewrite (bytes_text _ _ Hcur), app_nil_r.
Qed.

(** What the backend has. *)
Definition spare l : Prop := text (newBuffer1 l) [] ∧ text (newBuffer2 l) [] ∧ buffersToWrite l = [].
Definition busy l : Prop :=
  newBuffer1 l = None ∧ Forall full (buffersToWrite l) ∧ buffersToWrite l ≠ [] ∧
  (text (newBuffer2 l) [] ∨ (newBuffer2 l = None ∧ (2 ≤ List.length (buffersToWrite l))%nat)).

Definition back_ok l : Prop :=
  match backend l with
  | NotStarted | Entry => latch_ l = 1
  | Finished => latch_ l = 0
  | Head | Locking | Waiting | Woken => latch_ l = 0 ∧ spare l
  | Choosing => latch_ l = 0 ∧ busy l
  | Writing k => latch_ l = 0 ∧ busy l ∧ (k ≤ List.length (buffersToWrite l))%nat ∧ (List.length (buffersToWrite l) ≤ 25)%nat
  | Refilling => latch_ l = 0 ∧ busy l
  end.

Definition owner_ok l : Prop :=
  running_ l = match owner l with Starting | Started => true | _ => false end ∧
  match backend l with
  | NotStarted => owner l = Fresh
  | Entry => owner l = Starting
  | _ => owner l ≠ Fresh
  end.

(** The round that is being written. *)
Definition round_ok l rs : Prop :=
  match backend l with
  | Writing _ => ∃ rs' r pre, rs = rs' ++ [r] ∧ written r = pre ++ concat (bytes <$> buffersToWrite l)
  | _ => True
  end.

(** Where a step of the backend leads. *)
Definition moved l l' : Prop :=
  running_ l' = running_ l ∧
  match backend l with
  | Entry | Refilling => backend l' = Head
  | Head => backend l' = (if running_ l then Locking else Finished)
  | Locking => backend l' = Waiting ∨ (backend l' = Choosing ∧ pending l' = [])
  | Woken => backend l' = Choosing ∧ pending l' = []
  | Choosing => backend l' = Writing 0
  | Writing k =>
      if decide (k < List.length (buffersToWrite l))%nat
      then backend l' = Writing (S k) ∧ buffersToWrite l' = buffersToWrite l
      else backend l' = Refilling
  | _ => True
  end.

Record inv (log : list Z) l rs : Prop := Inv {
  inv_front : front_ok l;
  inv_back : back_ok l;
  inv_owner : owner_ok l;
  inv_log : log = concat (concat (fst <$> rs)) ++ taken l ++ pending l;
  inv_output : concat (output l) ++ (Some <$> inflight l) = Some <$> concat (written <$> rs);
  inv_round : round_ok l rs
}.

Lemma inv_create : inv [] (create SIZE) [].
Proof.
  split; try done.
  - split; cbn; [eapply text_full, new_bzero_text|right; apply new_bzero_text|done|done].
  - unfold pending, taken. cbn [currentBuffer_ create]. by rewrite (bytes_text _ _ new_bzero_text).
Qed.

(** Only the backend moves. *)
Lemma same_back_ok l l' : same_back l l' → back_ok l → back_ok l'.
Proof.
  intros [E1 E2 E3 E4 E5 E6 E7 E8]. unfold back_ok, busy, spare. rewrite E2, E3, E4, E5. destruct E8 as [->|[-> ->]]; done.
Qed.
Lemma same_owner_ok l l' : same_back l l' → owner_ok l → owner_ok l'.
Proof.
  intros [E1 E2 E3 E4 E5 E6 E7 E8]. unfold owner_ok. rewrite E1, E7. destruct E8 as [->|[-> ->]]; done.
Qed.
Lemma same_taken l l' : same_back l l' → taken l' = taken l.
Proof. intros [E1 E2 E3 E4 E5 E6 E7 E8]. unfold taken. rewrite E5. destruct E8 as [->|[-> ->]]; done. Qed.
Lemma same_inflight l l' : same_back l l' → inflight l' = inflight l.
Proof. intros [E1 E2 E3 E4 E5 E6 E7 E8]. unfold inflight. rewrite E5. destruct E8 as [->|[-> ->]]; done. Qed.

Lemma same_round l l' rs : same_back l l' → round_ok l rs → round_ok l' rs.
Proof. intros [E1 E2 E3 E4 E5 E6 E7 E8]. unfold round_ok. rewrite E5. destruct E8 as [->|[-> ->]]; done. Qed.

Lemma append_inv log l rs bs : inv log l rs →
  ensures (append bs) l (λ _ l', inv (log ++ (if zlen bs <? SIZE then bs else [])) l' rs).
Proof.
  intros [Hf Hb Ho Hl Hout Hrd]. eapply ensures_weaken; [by apply logger_append_ok|]. cbv beta. intros _ l' (Hf' & Hs & Hp). split.
  - done.
  - by eapply same_back_ok.
  - by eapply same_owner_ok.
  - rewrite (same_taken _ _ Hs), Hp, Hl. by rewrite <-!(assoc_L (++)).
  - by rewrite (same_inflight _ _ Hs), (sb_output _ _ Hs).
  - by eapply same_round.
Qed.

(** ** Steps of the backend *)

Lemma front_same l l' : front_ok l → currentBuffer_ l' = currentBuffer_ l → nextBuffer_ l' = nextBuffer_ l →
  buffers_ l' = buffers_ l → front_ok l' ∧ pending l' = pending l.
Proof. intros [H1 H2 H3 H4] E1 E2 E3. unfold pending. split; [|congruence]. split; rewrite ?E1, ?E2, ?E3; done. Qed.

Lemma swap_inv log l rs : inv log l rs → backend l = Woken ∨ (backend l = Locking ∧ buffers_ l ≠ []) →
  ensures swap_buffers l (λ _ l', inv log l' rs ∧ moved l l').
Proof.
  intros [[Hcur Hnext Htak Hbufs] Hb [Hr Ho] Hl Hout Hrd] Hp.
  assert (Hspare : latch_ l = 0 ∧ spare l) by (unfold back_ok in Hb; by destruct Hp as [E|[E _]]; rewrite E in Hb).
  assert (Hfresh : owner l ≠ Fresh) by (by destruct Hp as [E|[E _]]; rewrite E in Ho).
  assert (Ht : taken l = [] ∧ inflight l = []) by (unfold taken, inflight; by destruct Hp as [E|[E _]]; rewrite E).
  destruct Hspare as [Hlat (H1 & H2 & H3)]. destruct Ht as [Ht Hi]. unfold swap_buffers. do 2 apply ensures_bind, ensures_modify. apply ensures_modify.
  assert (Hfull : Forall full (buffers_ l ++ [currentBuffer_ l])) by (apply Forall_app; split; [done|by apply Forall_singleton]).
  assert (Hlog : log = concat (concat (fst <$> rs)) ++ concat (bytes <$> buffers_ l ++ [currentBuffer_ l]) ++ concat (bytes <$> buffersToWrite l) ++ bytes (newBuffer1 l)).
  { rewrite Hl, Ht, H3, (bytes_text _ _ H1). unfold pending. rewrite fmap_app, concat_app. cbn. by rewrite !app_nil_r. }
  assert (Hm : ∀ l', running_ l' = running_ l → backend l' = Choosing → buffers_ l' = buffersToWrite l →
    currentBuffer_ l' = newBuffer1 l → moved l l').
  { intros l' E1 E2 E3 E4. assert (pending l' = []) by (unfold pending; by rewrite E3, E4, H3, (bytes_text _ _ H1)).
    split; [done|]. destruct Hp as [-> |[-> _]]; auto. }
  rewrite Hi in Hout. cbn [nextBuffer_ set_back set_front]. destruct (nextBuffer_ l) as [b|] eqn:En; (split; [|by apply Hm]).
  - split; try done; cbn.
    + split; cbn; [by eapply text_full|exact Hnext|done|by rewrite H3].
    + split; [done|]. split; [done|]. split; [done|]. split; [by destruct (buffers_ l)|by left].
  - split; try done; cbn.
    + split; cbn; [by eapply text_full|by right|intros E; destruct H2 as (? & E2 & _); congruence|by rewrite H3].
    + split; [done|]. split; [done|]. split; [done|]. split; [by destruct (buffers_ l)|right].
      split; [done|]. cbn. rewrite length_app. cbn. destruct (buffers_ l); [by destruct Htak|]. cbn. lia.
Qed.

Lemma written_snoc (out : list mem) rs r msg bs : concat out = Some <$> concat (written <$> rs) → written r = msg ++ bs →
  concat (out ++ [Some <$> msg]) ++ (Some <$> bs) = Some <$> concat (written <$> rs ++ [r]).
Proof.
  intros E Hw. rewrite concat_app, E, (fmap_app written), concat_app, (fmap_app Some), <-(assoc_L (++)). f_equal. cbn.
  by rewrite Hw, !app_nil_r, fmap_app.
Qed.

Lemma choose_inv log l rs now : inv log l rs → backend l = Choosing →
  ensures (drop_buffers now ;;; modify (set_backend (Writing 0))) l
    (λ _ l', inv log l' (rs ++ [(bytes <$> buffersToWrite l, now)]) ∧ moved l l').
Proof.
  intros [Hf Hb [Hr Ho] Hl Hout Hrd] Hp. unfold back_ok in Hb. rewrite Hp in Hb, Ho. destruct Hb as [Hlat (H1 & H2 & H3 & H4)].
  unfold inflight in Hout. rewrite Hp in Hout. rewrite app_nil_r in Hout. unfold taken in Hl. rewrite Hp in Hl.
  assert (Hlog : log = concat (concat (fst <$> rs ++ [(bytes <$> buffersToWrite l, now)])) ++ pending l).
  { rewrite Hl, fmap_app, concat_app, concat_app. cbn. by rewrite app_nil_r, <-(assoc_L (++)). }
  apply ensures_bind. unfold drop_buffers. apply ensures_bind, ensures_get, ensures_bind, ensures_assert.
  { apply Z.ltb_lt. destruct (buffersToWrite l); [done|]. rewrite zlen_cons. pose proof (zlen_nonneg l0). lia. }
  assert (Hw : written (bytes <$> buffersToWrite l, now) =
    if 25 <? zlen (buffersToWrite l) then message now (List.length (buffersToWrite l)) ++ concat (bytes <$> take 2 (buffersToWrite l))
    else concat (bytes <$> buffersToWrite l)).
  { unfold written. cbn [fst snd]. unfold zlen. rewrite !length_fmap. by rewrite fmap_take. }
  set (msg := message now (List.length (buffersToWrite l))) in *. clearbody msg.
  assert (Hm : ∀ l', running_ l' = running_ l → backend l' = Writing 0 → moved l l').
  { intros l' E1 E2. unfold moved. by rewrite Hp. }
  unfold zlen in *. destruct (Z.ltb_spec 25 (Z.of_nat (List.length (buffersToWrite l)))) as [H25|H25].
  - apply ensures_bind, ensures_modify, ensures_modify, ensures_modify.
    assert (Hlen : List.length (take 2 (buffersToWrite l)) = 2%nat) by (rewrite length_take; lia).
    split; [|by apply Hm]. split; try done.
    + by apply (front_same l).
    + cbn. split; [done|]. split; [|split; [lia|rewrite Hlen; lia]]. split; [done|]. split; [by apply Forall_take|].
      split; [intros E; change (take 2 (buffersToWrite l) = []) in E; by rewrite E in Hlen|]. cbn [newBuffer2 set_back set_output set_backend buffersToWrite]. destruct H4 as [H4|[H4 _]]; [by left|right]. split; [done|]. by rewrite Hlen.
    + exact (written_snoc _ rs _ _ _ Hout Hw).
    + by eexists rs, _, msg.
  - apply ensures_ret, ensures_modify. split; [|by apply Hm]. split; try done.
    + by apply (front_same l).
    + cbn. split; [done|]. split; [done|]. split; lia.
    + pose proof (written_snoc _ rs _ [] _ Hout Hw) as E. cbn in E. by rewrite concat_app, app_nil_r in E.
    + by eexists rs, _, [].
Qed.

Lemma write_inv log l rs k : inv log l rs → backend l = Writing k → ensures (write_buffer k) l (λ _ l', inv log l' rs ∧ moved l l').
Proof.
  intros [Hf Hb [Hr Ho] Hl Hout Hrd] Hp. unfold back_ok in Hb. rewrite Hp in Hb, Ho. destruct Hb as [Hlat (Hbusy & Hk & H25)].
  unfold inflight in Hout. unfold taken in Hl. rewrite Hp in Hl, Hout. unfold write_buffer. apply ensures_bind, ensures_get.
  destruct (buffersToWrite l !! k) as [p|] eqn:Ek.
  - pose proof Hbusy as (_ & Hfull & _). rewrite Forall_lookup in Hfull. pose proof (full_text p (Hfull _ _ Ek)) as Ht. pose proof Ht as (b & -> & Hb).
    apply ensures_bind, ensures_ret. rewrite (toString_text b _ Hb). apply ensures_put.
    split; [|unfold moved; rewrite Hp, decide_True; [done|by eapply lookup_lt_Some]]. split; try done.
    + by apply (front_same l).
    + cbn. split; [done|]. split; [done|]. split; [|done]. by eapply lookup_lt_Some.
    + cbn. rewrite concat_app. cbn. rewrite app_nil_r, <-Hout. rewrite (drop_S _ _ _ Ek). cbn. by rewrite fmap_app, <-(assoc_L (++)).
    + unfold round_ok in Hrd. by rewrite Hp in Hrd.
  - apply lookup_ge_None in Ek. apply ensures_put.
    split; [|unfold moved; rewrite Hp, decide_False; [done|lia]]. split; try done.
    + by apply (front_same l).
    + cbn. rewrite drop_ge in Hout by done. exact Hout.
Qed.

Lemma take_back_ok l ws p (Q : BufferPtr → logger → Prop) : buffersToWrite l = ws ++ [p] → full p →
  (∀ q, text q [] → Q q (set_back (newBuffer1 l) (newBuffer2 l) ws l)) → ensures take_back l Q.
Proof.
  intros E [bs (b & -> & Hb)] HQ. unfold take_back. apply ensures_bind, ensures_get, ensures_bind. rewrite E. apply ensures_assert.
  { apply Z.ltb_lt. rewrite zlen_app, zlen_cons. pose proof (zlen_nonneg ws). pose proof (zlen_nonneg (@nil BufferPtr)). lia. }
  rewrite last_snoc. apply ensures_bind, ensures_ret, ensures_bind, ensures_modify, ensures_ret.
  rewrite E, length_app. cbn [List.length]. rewrite Nat.add_1_r. cbn [Nat.pred]. rewrite take_app_length. apply HQ.
  eexists. split; [done|]. by eapply reset_text.
Qed.

Lemma refill_inv log l rs : inv log l rs → backend l = Refilling → ensures refill l (λ _ l', inv log l' rs ∧ moved l l').
Proof.
  intros [Hf Hb [Hr Ho] Hl Hout Hrd] Hp. unfold back_ok in Hb. rewrite Hp in Hb, Ho. destruct Hb as [Hlat (H1 & H2 & H3 & H4)].
  unfold inflight in Hout. unfold taken in Hl. rewrite Hp in Hl, Hout. unfold refill. apply ensures_bind, ensures_modify, ensures_bind, ensures_get.
  set (ws := if 2 <? zlen (buffersToWrite l) then take 2 (buffersToWrite l) else buffersToWrite l).
  assert (Hws : Forall full ws ∧ (1 ≤ List.length ws)%nat ∧ (newBuffer2 l = None → (2 ≤ List.length ws)%nat)).
  { assert (1 ≤ List.length (buffersToWrite l))%nat by (destruct (buffersToWrite l); [done|cbn; lia]).
    unfold ws, zlen. destruct (Z.ltb_spec 2 (Z.of_nat (List.length (buffersToWrite l)))) as [H5|H5].
    - split; [by apply Forall_take|]. rewrite length_take. lia.
    - split; [done|]. split; [done|]. intros E. destruct H4 as [(? & E2 & _)|[_ H4]]; [congruence|done]. }
  destruct Hws as (Hfull & Hlen1 & Hlen2). cbn [newBuffer1 set_back]. rewrite H1, bool_decide_eq_true_2 by done.
  destruct ws as [|q ws' _] eqn:Ews using rev_ind; [cbn in Hlen1; lia|]. apply Forall_app in Hfull as [Hfull Hq]. rewrite Forall_singleton in Hq.
  do 2 apply ensures_bind. eapply take_back_ok; [done|exact Hq|]. intros q1 Hq1. apply ensures_modify, ensures_bind, ensures_get.
  cbn [newBuffer2 set_back set_front buffersToWrite newBuffer1].
  assert (Hend : ∀ n2 l', text n2 [] → currentBuffer_ l' = currentBuffer_ l → nextBuffer_ l' = nextBuffer_ l → buffers_ l' = buffers_ l →
    newBuffer1 l' = q1 → newBuffer2 l' = n2 → latch_ l' = latch_ l → running_ l' = running_ l → owner l' = owner l → output l' = output l →
    let l1 := set_backend Head (set_back (newBuffer1 l') (newBuffer2 l') [] l') in inv log l1 rs ∧ moved l l1).
  { intros n2 l' Hn2 E1 E2 E3 E4 E5 E6 E7 E8 E9. destruct (front_same l l' Hf E1 E2 E3) as [Hf' Hp'].
    split; [|unfold moved; by rewrite Hp]. split.
    - by apply (front_same l').
    - cbn. rewrite E6, E4, E5. split; [done|]. split; [exact Hq1|]. by split.
    - unfold owner_ok. cbn. rewrite E7, E8. by split.
    - cbn. by rewrite Hl, <-Hp'.
    - cbn. by rewrite E9.
    - done. }
  destruct (newBuffer2 l) as [b|] eqn:E2.
  - apply ensures_bind. rewrite bool_decide_eq_false_2 by done. apply ensures_ret, ensures_modify.
    destruct H4 as [H4|[H4 _]]; [|done]. by apply (Hend _ _ H4).
  - rewrite bool_decide_eq_true_2 by done. specialize (Hlen2 eq_refl). rewrite length_app in Hlen2. cbn in Hlen2.
    destruct ws' as [|q' ws'' _] using rev_ind; [cbn in Hlen2; lia|]. apply Forall_app in Hfull as [_ Hq']. rewrite Forall_singleton in Hq'.
    do 2 apply ensures_bind. eapply take_back_ok; [done|exact Hq'|]. intros q2 Hq2. apply ensures_modify, ensures_modify. by apply (Hend _ _ Hq2).
Qed.

Lemma is_empty_text p : text p [] → is_empty p = true.
Proof. intros (b & -> & Hb). cbn. by rewrite (length_text b [] Hb). Qed.

Lemma thread_inv log l rs now : inv log l rs → enabled (Backend now) l = true →
  ensures (threadFunc now) l (λ _ l', inv log l' (track (Backend now) l rs) ∧ moved l l').
Proof.
  intros Hinv He. pose proof Hinv as [Hf Hb [Hr Ho] Hl Hout Hrd]. unfold AsyncLogging.threadFunc. apply ensures_bind, ensures_get.
  unfold track. cbn [enabled] in He. unfold back_ok in Hb. unfold taken in Hl. unfold inflight in Hout.
  destruct (backend l) eqn:Hp; try done.
  - rewrite Ho in Hr. apply ensures_bind, ensures_assert; [by rewrite Hr|]. apply ensures_put. split; [|unfold moved; rewrite Hp, ?Hrun; auto]. split; try done.
    + by apply (front_same l).
    + cbn. rewrite Hb. split; [done|]. split; [apply new_bzero_text|]. split; [apply new_bzero_text|done].
    + unfold owner_ok. cbn. rewrite Ho. by split.
  - destruct Hb as [Hlat (H1 & H2 & H3)]. destruct (running_ l) eqn:Hrun.
    + apply ensures_bind, ensures_assert; [by apply is_empty_text|]. apply ensures_bind, ensures_assert; [by apply is_empty_text|].
      apply ensures_bind, ensures_assert; [by rewrite H3|]. apply ensures_modify. split; [|unfold moved; rewrite Hp, ?Hrun; auto]. split; try done.
      * by apply (front_same l).
      * split; [cbn; by rewrite Hrun|done].
    + apply ensures_modify. split; [|unfold moved; rewrite Hp, ?Hrun; auto]. split; try done.
      * by apply (front_same l).
      * split; [cbn; by rewrite Hrun|done].
  - destruct (Z.eqb_spec (zlen (buffers_ l)) 0) as [E|E].
    + apply ensures_modify. split; [|unfold moved; rewrite Hp, ?Hrun; auto]. split; try done. by apply (front_same l).
    + apply swap_inv; [done|right]. split; [done|]. intros E0. by rewrite E0 in E.
  - apply swap_inv; [done|by left].
  - by apply choose_inv.
  - by apply write_inv.
  - by apply refill_inv.
Qed.

Lemma logged_snoc es e : logged (es ++ [e]) =
  logged es ++ match e with Append bs => if zlen bs <? SIZE then bs else [] | _ => [] end.
Proof.
  unfold AsyncLogging.logged. rewrite omap_app, concat_app. f_equal. destruct e; cbn; try done.
  destruct (zlen logline <? SIZE); cbn; [by rewrite app_nil_r|done].
Qed.

Lemma woken_inv log l rs : inv log l rs → backend l = Waiting → inv log (set_backend Woken l) rs.
Proof.
  intros [Hf Hb [Hr Ho] Hl Hout Hrd] Hp. unfold back_ok, taken, inflight in *. rewrite Hp in *. split; try done.
  by apply (front_same l).
Qed.

Lemma notified_inv log l rs : inv log l rs → inv log (notified l) rs.
Proof. intros Hi. unfold notified. destruct (backend l) eqn:Hp; try done. by apply woken_inv. Qed.

Lemma owner_inv log l rs r o : inv log l rs → owner_ok (set_owner r o l) → inv log (set_owner r o l) rs.
Proof. intros [Hf Hb _ Hl Hout Hrd] Ho. split; try done. by apply (front_same l). Qed.

Lemma perform_inv es l rs e : inv (logged es) l rs → enabled e l = true →
  ensures (perform e) l (λ _ l', inv (logged (es ++ [e])) l' (track e l rs)).
Proof.
  intros Hinv He. rewrite logged_snoc. pose proof Hinv as [Hf Hb [Hr Ho] Hl Hout Hrd].
  destruct e as [bs|now| | | | | |]; rewrite ?app_nil_r; cbn [AsyncLogging.perform enabled track] in *.
  - by apply append_inv.
  - eapply ensures_weaken; [by apply thread_inv|]. by intros _ l' [Hi _].
  - destruct (backend l) eqn:Hp; try done. apply ensures_modify. by apply woken_inv.
  - unfold back_ok, taken, inflight in *. destruct (owner l) eqn:Hown; try done. apply ensures_modify.
    destruct (backend l) eqn:Hp; try done. split; try done. by apply (front_same l).
  - destruct (owner l) eqn:Hown; try done. apply Z.eqb_eq in He. apply ensures_modify, owner_inv; [done|].
    split; [done|]. unfold back_ok in Hb. cbn. destruct (backend l); try done; lia.
  - destruct (owner l) eqn:Hown; try done. apply ensures_modify, owner_inv; [done|]. split; [done|]. cbn. by destruct (backend l).
  - destruct (owner l) eqn:Hown; try done. apply ensures_bind, ensures_modify, ensures_modify, notified_inv, owner_inv; [done|].
    split; [done|]. cbn. by destruct (backend l).
  - destruct (owner l) eqn:Hown; try done. apply ensures_modify, owner_inv; [by destruct (backend l)|]. split; [done|]. cbn. by destruct (backend l).
Qed.

Lemma run_inv es0 l0 rs0 es l rs : inv (logged es0) l0 rs0 → run SIZE l0 rs0 es l rs → inv (logged (es0 ++ es)) l rs.
Proof.
  intros Hi. induction 1 as [|es l rs e l' _ IH He Hp]; [by rewrite app_nil_r|].
  destruct (perform_inv _ l rs e IH He) as (a & l2 & E & Hinv). rewrite E in Hp. simplify_eq. by rewrite (assoc_L (++)).
Qed.

Lemma logger_history_inv es l rs : history es l rs → inv (logged es) l rs.
Proof. apply (run_inv []). apply inv_create. Qed.

(** ** How long the backend needs *)

(** Steps until the next exchange of the buffers. *)
Definition to_swap l : nat :=
  match backend l with
  | Entry | Refilling => 5
  | Head => 4
  | Locking => 3
  | Waiting => 2
  | Woken => 1
  | Choosing => 32
  | Writing k => (List.length (buffersToWrite l) - k) + 6
  | NotStarted | Finished => 0
  end.

(** Steps until the first [m] bytes are in rounds that are written. *)
Definition to_write (m : nat) l rs : nat :=
  if decide (m ≤ List.length (concat (concat rs.*1)))%nat then
    match backend l with Writing k => (List.length (buffersToWrite l) - k) + 1 | _ => 0 end
  else if decide (m ≤ List.length (concat (concat rs.*1)) + List.length (taken l))%nat then 27
  else 27 + to_swap l.

Definition settled (m : nat) l rs : Prop := (m ≤ List.length (concat (concat (finished rs l).*1)))%nat.

Lemma taken_choosing l : backend l ≠ Choosing → taken l = [].
Proof. unfold taken. by destruct (backend l). Qed.

(** A step that is not one of the backend. *)
Lemma front_step m l l' rs : same_back l l' → (to_write m l' rs ≤ to_write m l rs)%nat ∧ finished rs l' = finished rs l.
Proof.
  intros Hs. unfold to_write, finished, to_swap. rewrite (same_taken _ _ Hs), (sb_write _ _ Hs).
  destruct (sb_backend _ _ Hs) as [->|[-> ->]]; repeat case_decide; split; (lia || done).
Qed.

Lemma concat_rounds rs bufs (now : list Z) :
  List.length (concat (concat (fst <$> rs ++ [(bufs, now)]))) = (List.length (concat (concat (fst <$> rs))) + List.length (concat bufs))%nat.
Proof. rewrite fmap_app, !concat_app, length_app. cbn. by rewrite app_nil_r. Qed.

(** One more step of the backend. *)
Lemma back_step m log l l' rs now : inv log l rs → running_ l = true → enabled (Backend now) l = true →
  inv log l' (track (Backend now) l rs) → moved l l' → (m ≤ List.length log)%nat →
  settled m l' (track (Backend now) l rs) ∨ (to_write m l' (track (Backend now) l rs) + 1 ≤ to_write m l rs)%nat.
Proof.
  intros Hi Hrun He Hi' [Hr Hm] Hlog. cbn [enabled] in He. unfold track in *. pose proof (inv_back _ _ _ Hi') as Hb'.
  unfold settled, to_write, to_swap, finished, taken, back_ok in *. pose proof (inv_log _ _ _ Hi') as Hl'. unfold taken in Hl'.
  destruct (backend l) eqn:Hp; try done; rewrite ?Hrun in Hm.
  - rewrite Hm. repeat case_decide; cbn in *; lia.
  - rewrite Hm. repeat case_decide; cbn in *; lia.
  - destruct Hm as [->|[Hc Hpe]]; [repeat case_decide; cbn in *; lia|]. rewrite Hc in *. rewrite Hl', Hpe, app_nil_r, length_app in Hlog.
    repeat case_decide; cbn in *; lia.
  - destruct Hm as [Hc Hpe]. rewrite Hc in *. rewrite Hl', Hpe, app_nil_r, length_app in Hlog. repeat case_decide; cbn in *; lia.
  - rewrite Hm in *. rewrite concat_rounds. destruct Hb' as (_ & _ & _ & Hb').
    rewrite length_app. cbn [List.length]. rewrite Nat.add_1_r. cbn [Nat.pred]. rewrite take_app_length.
    repeat case_decide; cbn [List.length] in *; lia.
  - destruct (decide (k < _)%nat).
    + destruct Hm as [Hc Hw]. rewrite Hc, Hw. repeat case_decide; cbn [List.length] in *; lia.
    + rewrite Hm. repeat case_decide; cbn in *; lia.
  - rewrite Hm. repeat case_decide; cbn in *; lia.
Qed.

(** What is written stays written. *)
Lemma settled_back m l l' rs now : moved l l' → enabled (Backend now) l = true →
  settled m l rs → settled m l' (track (Backend now) l rs).
Proof.
  intros [Hr Hm] He Hs. cbn [enabled] in He. unfold settled, track, finished in *.
  destruct (backend l) eqn:Hp; try done.
  - by rewrite Hm.
  - rewrite Hm. by destruct (running_ l).
  - by destruct Hm as [->|[-> _]].
  - by destruct Hm as [-> _].
  - rewrite Hm, length_app. cbn [List.length]. rewrite Nat.add_1_r. cbn [Nat.pred]. by rewrite take_app_length.
  - destruct (decide (k < _)%nat); [by destruct Hm as [-> _]|]. rewrite Hm.
    rewrite <-(take_drop (pred (List.length rs)) rs), fmap_app, !concat_app, length_app. lia.
  - by rewrite Hm.
Qed.

(** Any step but stop(). *)
Lemma step_to_write m es l rs e l' : inv (logged es) l rs → running_ l = true → owner l ≠ Fresh → e ≠ Stop →
  enabled e l = true → perform e l = (Val (), l') → (m ≤ List.length (logged es))%nat →
  running_ l' = true ∧ owner l' ≠ Fresh ∧ (settled m l rs → settled m l' (track e l rs)) ∧
  (settled m l' (track e l rs) ∨ (to_write m l' (track e l rs) + tick e ≤ to_write m l rs)%nat).
Proof.
  intros Hi Hrun Hown Hne He Hp Hm. pose proof Hi as [Hf Hb [Hr Ho] Hl Hout Hrd].
  destruct e as [bs|now| | | | | |]; try done.
  - destruct (logger_append_ok l bs Hf) as (a & l2 & E & _ & Hs & _). cbn [AsyncLogging.perform] in Hp. rewrite E in Hp. simplify_eq.
    destruct (front_step m l l' rs Hs) as [H1 H2]. unfold settled. cbn [track tick]. rewrite H2, (sb_running _ _ Hs), (sb_owner _ _ Hs).
    split_and!; try done. right. lia.
  - destruct (thread_inv _ l rs now Hi He) as (a & l2 & E & Hi' & Hmv). cbn [AsyncLogging.perform] in Hp. rewrite E in Hp. simplify_eq.
    split_and!.
    + destruct Hmv as [-> _]. done.
    + destruct (inv_owner _ _ _ Hi') as [Hr' _]. destruct Hmv as [Hmv _]. rewrite Hmv, Hrun in Hr'. by destruct (owner l').
    + by apply settled_back.
    + by eapply back_step.
  - cbn in Hp, He. destruct (backend l) eqn:Hb'; try done. injection Hp as <-.
    unfold settled, finished, to_write, to_swap, taken. cbn. rewrite Hb'. split_and!; try done.
    repeat case_decide; cbn [List.length] in *; lia.
  - cbn in He. by destruct (owner l).
  - cbn in Hp, He. injection Hp as <-. split_and!; try done. right. rewrite Nat.add_0_r. exact (Nat.le_refl _).
  - cbn in He. destruct (owner l); try done. congruence.
  - cbn in He. destruct (owner l); try done. congruence.
Qed.

Lemma run_settles m es0 l0 rs0 es l rs : inv (logged es0) l0 rs0 → running_ l0 = true → owner l0 ≠ Fresh →
  run SIZE l0 rs0 es l rs → Stop ∉ es → (m ≤ List.length (logged es0))%nat →
  running_ l = true ∧ owner l ≠ Fresh ∧ (settled m l rs ∨ (to_write m l rs + ticks es ≤ to_write m l0 rs0)%nat).
Proof.
  intros Hi Hrun Hown Hr. induction Hr as [|es l rs e l' Hr IH He Hp]; intros Hns Hm.
  { split_and!; try done. right. unfold ticks. cbn. lia. }
  rewrite elem_of_app in Hns. destruct IH as (Hrun' & Hown' & Hset); [tauto|done|].
  pose proof (run_inv _ _ _ _ _ _ Hi Hr) as Hi'.
  assert (Hm' : (m ≤ List.length (logged (es0 ++ es)))%nat).
  { unfold AsyncLogging.logged. rewrite omap_app, concat_app, length_app. unfold AsyncLogging.logged in Hm. lia. }
  destruct (step_to_write m (es0 ++ es) l rs e l' Hi' Hrun' Hown') as (H1 & H2 & H3 & H4); try done.
  { intros ->. apply Hns. right. by left. }
  split_and!; try done. destruct Hset as [Hset|Hset]; [left; auto|]. destruct H4 as [H4|H4]; [by left|right].
  unfold ticks in *. rewrite fmap_app, sum_list_with_app. cbn. lia.
Qed.

End Facts.

Import FixedBuffer AsyncLogging.

Section Ends.
Context (SIZE : Z) (SIZE_ok : 0 < SIZE < 2 ^ 31).
Implicit Types (l : logger) (es : list event) (rs : list round).

Lemma to_write_bound log m l rs : inv SIZE log l rs → (to_write m l rs ≤ 59)%nat.
Proof.
  intros Hi. pose proof (inv_back _ _ _ _ Hi) as Hb. unfold back_ok in Hb. unfold to_write, to_swap.
  destruct (backend l); repeat case_decide; lia.
Qed.

(** The rounds that are written are at the front of the output. *)
Lemma finished_output log l rs : inv SIZE log l rs →
  ∃ more, concat (output l) = (Some <$> concat (written <$> finished rs l)) ++ more.
Proof.
  intros Hi. pose proof (inv_output _ _ _ _ Hi) as Ho. pose proof (inv_round _ _ _ _ Hi) as Hr.
  unfold inflight, round_ok, finished in *. destruct (backend l) eqn:Hp.
  all: try (exists []; by rewrite <-Ho, !app_nil_r).
  destruct Hr as (rs' & r & pre & -> & Hw). rewrite length_app. cbn [List.length]. rewrite Nat.add_1_r. cbn [Nat.pred].
  rewrite take_app_length. exists (Some <$> (pre ++ concat (bytes <$> take k (buffersToWrite l)))).
  apply (app_inv_tail (Some <$> concat (bytes <$> drop k (buffersToWrite l)))). rewrite Ho.
  rewrite fmap_app, concat_app. cbn. rewrite app_nil_r, Hw, !fmap_app, <-!(assoc_L (++)). do 3 f_equal.
  by rewrite <-fmap_app, <-concat_app, <-fmap_app, take_drop.
Qed.

Lemma finished_logged log l rs : inv SIZE log l rs → ∃ more, log = concat (concat (finished rs l).*1) ++ more.
Proof.
  intros Hi. rewrite (inv_log _ _ _ _ Hi). unfold finished. destruct (backend l); try by eexists.
  generalize (pred (List.length rs)). intros n. pose proof (f_equal (λ rs, concat (concat rs.*1)) (take_drop n rs)) as E.
  cbv beta in E. rewrite fmap_app, !concat_app in E. rewrite <-E, <-!(assoc_L (++)). by eexists.
Qed.

Lemma logged_prefix es es' : ∃ more, logged SIZE (es ++ es') = logged SIZE es ++ more.
Proof. unfold logged. rewrite omap_app, concat_app. by eexists. Qed.

Lemma prefix_both {A} (a b x y c : list A) : c = a ++ x → c = b ++ y → (List.length a ≤ List.length b)%nat → ∃ z, b = a ++ z.
Proof.
  intros -> E Hl. exists (take (List.length b - List.length a) x).
  rewrite <-(take_app_length b y) at 1. rewrite <-E, take_app. by rewrite take_ge.
Qed.

Lemma backend_free log l rs now : inv SIZE log l rs → owner l ≠ Fresh → backend l ≠ Finished →
  enabled (Backend now) l = true ∨ enabled Timeout l = true.
Proof.
  intros Hi Ho Hf. pose proof (inv_owner _ _ _ _ Hi) as [_ Hb]. cbn. destruct (backend l); auto; done.
Qed.

Lemma exec_run es0 l0 rs0 es l rs l' rs' : run SIZE l0 rs0 es0 l rs → exec SIZE es l rs = Some (l', rs') →
  run SIZE l0 rs0 (es0 ++ es) l' rs'.
Proof.
  revert es0 l rs. induction es as [|e es IH]; intros es0 l rs Hr E; cbn in E.
  { simplify_eq. by rewrite app_nil_r. }
  destruct (enabled e l) eqn:He; [|done]. destruct (perform SIZE e l) as [[[]| | |] l1] eqn:Hp; try done.
  rewrite cons_middle, (assoc_L (++)). eapply IH; [|exact E]. by econstructor.
Qed.

Lemma exec_history es l rs : exec SIZE es (create SIZE) [] = Some (l, rs) → history SIZE es l rs.
Proof. intros E. by apply (exec_run [] _ _ _ _ _ _ _ (run_nil SIZE _ _)). Qed.
End Ends.

(** C18: AsyncLogging writes what is appended, in order.  In every history of the
    appending threads, the backend and the owner, no assertion fails, no null
    pointer is used and the backend is never stuck; the accepted lines are, in this
    order, in the rounds of the backend, taken by it, or pending; the output is
    what the rounds write: all buffers of a round, or, when there are more than 25,
    a message and the first two.  While nobody stops the logger, after at most 60
    steps of the backend everything that was appended before is in the rounds that
    are written. *)
Theorem async_logging_writes_in_order (SIZE : Z) (es : list event) (l : logger) (rs : list round) :
  0 < SIZE < 2 ^ 31 → history SIZE es l rs →
  (∀ e, enabled e l = true → ∃ l', perform SIZE e l = (Val (), l')) ∧
  logged SIZE es = concat (concat rs.*1) ++ taken l ++ pending l ∧
  concat (output l) ++ (Some <$> inflight l) = Some <$> concat (written <$> rs) ∧
  (owner l ≠ Fresh → backend l ≠ Finished → ∀ now, enabled (Backend now) l = true ∨ enabled Timeout l = true) ∧
  (running_ l = true → ∀ es' l' rs', run SIZE l rs es' l' rs' → Stop ∉ es' → (60 ≤ ticks es')%nat →
   ∃ more more', concat (concat (finished rs' l').*1) = logged SIZE es ++ more ∧
                 concat (output l') = (Some <$> concat (written <$> finished rs' l')) ++ more').
Proof.
  intros HS Hh. pose proof (logger_history_inv SIZE HS es l rs Hh) as Hi. split_and!.
  - intros e He. destruct (perform_inv SIZE HS es l rs e Hi He) as ([] & l' & E & _). by exists l'.
  - by eapply inv_log.
  - by eapply inv_output.
  - intros Ho Hf now. by eapply backend_free.
  - intros Hrun es' l' rs' Hr Hns Ht.
    assert (Hown : owner l ≠ Fresh) by (destruct (inv_owner _ _ _ _ Hi) as [Hr' _]; intros E; rewrite E in Hr'; congruence).
    pose proof (run_inv SIZE HS _ _ _ _ _ _ Hi Hr) as Hi'.
    destruct (run_settles SIZE HS (List.length (logged SIZE es)) es l rs es' l' rs' Hi Hrun Hown Hr Hns ltac:(done)) as (_ & _ & [Hs|Hs]).
    2: { pose proof (to_write_bound SIZE _ (List.length (logged SIZE es)) _ _ Hi). lia. }
    destruct (finished_logged SIZE _ _ _ Hi') as [y Ey]. destruct (logged_prefix SIZE es es') as [x Ex].
    destruct (finished_output SIZE _ _ _ Hi') as [w Ew]. destruct (prefix_both _ _ _ _ _ Ex Ey Hs) as [z Ez].
    by exists z, w.
Qed.

Definition sample_run : list event :=
  [Append [65]; Start; Backend []; StartReturns; Append [66; 67; 68]; Append [69; 70]; Backend []; Backend [];
   Append [71]; Backend []; Backend []; Backend []].
Lemma async_logging_writes_in_order_witness :
  ∃ l rs, exec 6 sample_run (create 6) [] = Some (l, rs) ∧ logged 6 sample_run = concat (concat rs.*1) ++ taken l ++ pending l.
Proof.
  destruct (exec 6 sample_run (create 6) []) as [[l rs]|] eqn:E; [|by vm_compute in E].
  exists l, rs. split; [done|]. by apply (async_logging_writes_in_order 6 sample_run l rs ltac:(done) (exec_history 6 _ _ _ E)).
Defined.

(** stop() while the backend writes: what was appended in the meantime is lost. *)
Definition lossy_run : list event :=
  [Start; Backend []; StartReturns; Append [65]; Backend []; Backend []; Timeout; Backend []; Backend [];
   Append [66]; Stop; StopNotifies; Backend []; Backend []; Backend []; Backend []; StopReturns].
Lemma stop_loses_lines : ∃ l rs, history 8 lossy_run l rs ∧ owner l = Stopped ∧
  logged 8 lossy_run = [65; 66] ∧ concat (output l) = [Some 65].
Proof.
  destruct (exec 8 lossy_run (create 8) []) as [[l rs]|] eqn:E; [|by vm_compute in E].
  exists l, rs. split; [by apply exec_history|]. vm_compute in E. by simplify_eq.
Qed.

(** A line that is as long as a buffer is dropped without a message. *)
Lemma long_line_is_dropped : ∃ l rs, history 4 [Append [1; 2; 3; 4]; Append [5]] l rs ∧ pending l = [5].
Proof.
  destruct (exec 4 [Append [1; 2; 3; 4]; Append [5]] (create 4) []) as [[l rs]|] eqn:E; [|by vm_compute in E].
  exists l, rs. split; [by apply exec_history|]. vm_compute in E. by simplify_eq.
Qed.
