(* ===== verification/ProtobufCodec.v ===== *)
(** * ProtobufCodecLite (muduo/net/protobuf): messages as checked frames

    A frame is its length, a tag, the serialized message and a checksum, numbers
    in network order.  [fillEmptyBuffer] writes a frame into a [Buffer];
    [onMessage] is the callback of a connection: it takes all complete frames out
    of the input buffer and delivers their messages, and stops at a bad one.  The
    generated code of a message (serialize, parse), adler32 of zlib and the raw
    callback of the user are parameters. *)
From S2P Require Import Prelude NetBuffer.
Import Endian Buffer.

Module ProtobufCodecLite.

Inductive ErrorCode :=
| kNoError | kInvalidLength | kCheckSumError | kInvalidNameLen | kUnknownMessageType | kParseError.
#[global] Instance ErrorCode_eq_dec : EqDecision ErrorCode.
Proof. solve_decision. Defined.

Definition errorCodeToString (errorCode : ErrorCode) : list Z :=
  bytes_of match errorCode with
  | kNoError => "NoError"
  | kInvalidLength => "InvalidLength"
  | kCheckSumError => "CheckSumError"
  | kInvalidNameLen => "InvalidNameLen"
  | kUnknownMessageType => "UnknownMessageType"
  | kParseError => "ParseError"
  end.

Definition kHeaderLen : Z := 4.
Definition kChecksumLen : Z := 4.
Definition kMaxMessageLen : Z := 64 * 1024 * 1024.

Section Codec.
Context {Msg : Type} (serialize : Msg → list Z) (parse_message : list Z → option Msg) (adler32 : list Z → Z).
Context (tag_ : list Z) (rawCb_ : option (list Z → bool)).

Definition kMinMessageLen : Z := zlen tag_ + kChecksumLen.

(** ** Sending *)

Definition checksum (buf : list Z) : Z := swrap 32 (adler32 buf).

Definition serializeToBuffer (message : Msg) : Buffer.io Z :=
  let byte_size := zlen (serialize message) in
  ensureWritableBytes (byte_size + kChecksumLen) ;;;
  b <- get_state ;;
  store_at (beginWrite b) (serialize message) ;;;
  hasWritten byte_size ;;;
  act_ret byte_size.

Definition fillEmptyBuffer (message : Msg) : Buffer.io () :=
  b <- get_state ;;
  cpp_assert (readableBytes b =? 0) ;;;
  append tag_ ;;;
  byte_size <- serializeToBuffer message ;;
  b <- get_state ;;
  bs <- load_at (peek b) (readableBytes b) ;;
  appendInt W32 (checksum bs) ;;;
  b <- get_state ;;
  cpp_assert (readableBytes b =? zlen tag_ + byte_size + kChecksumLen) ;;;
  prependInt W32 (i32 (readableBytes b)).

(** send(): the bytes that a connection gets. *)
Definition send (message : Msg) : outcome Empty_set (list Z) :=
  ((fillEmptyBuffer message ;;; take_all) (Buffer.construct kInitialSize)).1.

(** ** Receiving *)

(** [data]: the [len] bytes from [buf] on; [None]: a read outside of them. *)
Definition asInt32 (bs : list Z) : Z := swrap 32 (networkToHost32 (le_val bs)).

Definition validateChecksum (data : list Z) : option bool :=
  expected ← load data (zlen data - kChecksumLen) kChecksumLen;
  body ← load data 0 (zlen data - kChecksumLen);
  Some (checksum body =? asInt32 expected).

Definition parse (data : list Z) : option (Msg + ErrorCode) :=
  valid ← validateChecksum data;
  if valid : bool then
    t ← load data 0 (zlen tag_);
    if bool_decide (t = tag_) then
      body ← load data (zlen tag_) (zlen data - kChecksumLen - zlen tag_);
      Some (match parse_message body with Some m => inl m | None => inr kParseError end)
    else Some (inr kUnknownMessageType)
  else Some (inr kCheckSumError).

(** What the callbacks of the user are told. *)
Inductive effect := RawMessage (frame : list Z) | Message (m : Msg) | Failed (errorCode : ErrorCode).

Record session := Session { input : buffer; effects : list effect }.
Definition io (A : Type) : Type := act session Empty_set A.

Definition on_buf {A} (m : Buffer.io A) : io A := λ s, let '(a, b) := m (input s) in (a, Session b (effects s)).
Definition emit (e : effect) : io () := modify (λ s, Session (input s) (effects s ++ [e])).

(** The raw callback, if there is one; false: the frame is not to be parsed. *)
Definition call_raw (frame : list Z) : io bool :=
  match rawCb_ with
  | Some cb => emit (RawMessage frame) ;;; act_ret (cb frame)
  | None => act_ret true
  end.

Fixpoint onMessage_loop (fuel : nat) : io () :=
  match fuel with
  | O => undefined
  | S fuel =>
      s <- get_state ;;
      when u32 (kMinMessageLen + kHeaderLen) <=? readableBytes (input s) do
        (len <- on_buf (peekInt W32) ;;
         if (kMaxMessageLen <? len) || (len <? kMinMessageLen) then emit (Failed kInvalidLength)
         else
           when u64 (kHeaderLen + len) <=? readableBytes (input s) do
             (frame <- on_buf (load_at (peek (input s)) (kHeaderLen + len)) ;;
              wanted <- call_raw frame ;;
              if negb wanted then on_buf (retrieve (kHeaderLen + len)) ;;; onMessage_loop fuel
              else
                data <- on_buf (load_at (peek (input s) + kHeaderLen) len) ;;
                match parse data with
                | Some (inl m) => emit (Message m) ;;; on_buf (retrieve (kHeaderLen + len)) ;;; onMessage_loop fuel
                | Some (inr errorCode) => emit (Failed errorCode)
                | None => undefined
                end))
  end.

Definition onMessage : io () :=
  s <- get_state ;; onMessage_loop (S (Z.to_nat (readableBytes (input s)))).

(** TcpConnection::handleRead: bytes arrive, the message callback is called. *)
Definition arrive (bs : list Z) : io () := on_buf (readFd (ReadBytes bs)) ;;; onMessage.

Fixpoint arrive_all (ps : list (list Z)) : io () :=
  match ps with
  | [] => act_ret ()
  | bs :: ps => arrive bs ;;; arrive_all ps
  end.

Definition fresh : session := Session (Buffer.construct kInitialSize) [].

(** ** Frames *)

Definition body (m : Msg) : list Z := tag_ ++ serialize m.
Definition payload (m : Msg) : list Z := body m ++ be_bytes 4 (checksum (body m)).
Definition frame (m : Msg) : list Z := be_bytes 4 (zlen (payload m)) ++ payload m.

(** A message that can be sent, and the documented behaviour of the generated
    code: what was serialized is parsed back. *)
Record sendable (m : Msg) : Prop := Sendable {
  ok_bytes : Forall is_byte (serialize m);
  ok_size : zlen (payload m) <= kMaxMessageLen;
  ok_parse : parse_message (serialize m) = Some m
}.

(** What the user is told about a message. *)
Definition told (m : Msg) : list effect :=
  match rawCb_ with
  | Some cb => RawMessage (frame m) :: (if cb (frame m) then [Message m] else [])
  | None => [Message m]
  end.

End Codec.
End ProtobufCodecLite.
