(* ===== verification/ProtobufCodecTheorems.v ===== *)
(** * Streams of frames, and what ProtobufCodecLite promises

    Frames cut into any pieces are told in order and the incomplete rest waits;
    a bad frame is reported after the messages before it; no input makes the
    callback read outside of its buffer or fail an assertion. *)
From S2P Require Import Prelude NetBuffer ProtobufCodec.

(** ** ProtobufCodecLite delivers what was sent

    What fillEmptyBuffer writes is the frame of the message; a frame that has
    arrived is delivered and consumed, an incomplete one waits, a bad one is
    reported and stays.  Then streams of frames, cut into any pieces. *)
Import Endian Buffer ProtobufCodecLite.

Section Facts.
Context {Msg : Type} (serialize : Msg → list Z) (parse_message : list Z → option Msg) (adler32 : list Z → Z).
Context (tag_ : list Z) (rawCb_ : option (list Z → bool)).
Context (tag_bytes : Forall is_byte tag_).
Implicit Types (m : Msg) (q bs : list Z).

Abbreviation body := (body serialize tag_).
Abbreviation payload := (payload serialize adler32 tag_).
Abbreviation frame := (frame serialize adler32 tag_).
Abbreviation sendable := (sendable serialize parse_message adler32 tag_).
Abbreviation kMinMessageLen := (kMinMessageLen tag_).
Abbreviation parse := (parse parse_message adler32 tag_).
Abbreviation checksum := (checksum adler32).
Abbreviation onMessage_loop := (onMessage_loop parse_message adler32 tag_ rawCb_).
Abbreviation onMessage := (onMessage parse_message adler32 tag_ rawCb_).
Abbreviation arrive := (arrive parse_message adler32 tag_ rawCb_).
Abbreviation arrive_all := (arrive_all parse_message adler32 tag_ rawCb_).
Abbreviation told := (told serialize adler32 tag_ rawCb_).

(** ** Sizes *)

Lemma zlen_payload m : zlen (payload m) = zlen tag_ + zlen (serialize m) + 4.
Proof. unfold ProtobufCodecLite.payload, ProtobufCodecLite.body. rewrite !zlen_app, zlen_be_bytes. lia. Qed.
Lemma zlen_frame m : zlen (frame m) = 4 + zlen (payload m).
Proof. unfold ProtobufCodecLite.frame. rewrite zlen_app, zlen_be_bytes. lia. Qed.
Lemma payload_min m : kMinMessageLen <= zlen (payload m).
Proof. rewrite zlen_payload. unfold ProtobufCodecLite.kMinMessageLen, kChecksumLen. pose proof (zlen_nonneg (serialize m)). lia. Qed.

Lemma frame_bytes m : sendable m → Forall is_byte (frame m).
Proof.
  intros [Hb _ _]. unfold ProtobufCodecLite.frame, ProtobufCodecLite.payload, ProtobufCodecLite.body.
  apply Forall_app; split; [apply be_bytes_bytes|]. apply Forall_app; split; [by apply Forall_app|apply be_bytes_bytes].
Qed.

Lemma min_small m : sendable m → 4 <= kMinMessageLen <= kMaxMessageLen.
Proof.
  intros [_ Hs _]. pose proof (payload_min m). unfold ProtobufCodecLite.kMinMessageLen, kChecksumLen in *.
  pose proof (zlen_nonneg tag_). lia.
Qed.

(** ** Sending *)

Lemma serialize_runs m b q room : holds b q room → zlen (buffer_ b) + zlen (serialize m) + 4 < 2 ^ 31 →
  ∃ b', serializeToBuffer serialize m b = (Val (zlen (serialize m)), b') ∧ holds b' (q ++ serialize m) (room `min` kCheapPrepend) ∧
    zlen (buffer_ b') <= zlen (buffer_ b) + zlen (serialize m) + 4.
Proof.
  intros Hb Hm. pose proof (zlen_nonneg (serialize m)). pose proof (h_end _ _ _ Hb).
  destruct (ensure_spec b q room (zlen (serialize m) + 4)) as (b1 & R1 & H1 & Hl & Hz); [done|lia|lia|].
  destruct (write_end b1 q _ (serialize m) H1) as (v & Ev & Lv & Hv); [lia|].
  unfold serializeToBuffer. change kChecksumLen with 4. rewrite (act_bind_val _ _ _ _ _ R1). act_step.
  unfold store_at, beginWrite. rewrite act_bind_assoc. act_step. rewrite Ev. erewrite act_bind_val by reflexivity.
  unfold hasWritten. rewrite act_bind_assoc. act_step. rewrite act_bind_assoc. rewrite assert_step.
  - eexists. split; [reflexivity|]. cbn [buffer_ readerIndex_ writerIndex_].
    pose proof (h_writer _ _ _ H1). pose proof (h_max _ _ _ H1). pose proof (h_room _ _ _ H1). pose proof (zlen_nonneg q).
    rewrite wrap_small by ulia. split; [done|lia].
  - apply Z.leb_le. unfold writableBytes. cbn [buffer_ writerIndex_]. rewrite Lv.
    pose proof (h_writer _ _ _ H1). pose proof (h_max _ _ _ H1). pose proof (h_room _ _ _ H1). pose proof (zlen_nonneg q).
    rewrite wrap_small by ulia. lia.
Qed.

Lemma send_frame m : sendable m → send serialize adler32 tag_ m = Val (frame m).
Proof.
  intros Hm. pose proof (ok_size _ _ _ _ _ Hm) as Hs. rewrite zlen_payload in Hs. unfold kMaxMessageLen in Hs.
  pose proof (zlen_nonneg tag_). pose proof (zlen_nonneg (serialize m)).
  destruct (buffer_construct_holds kInitialSize) as (Hc & _ & Hz); [unfold kInitialSize; lia..|]. change (8 + kInitialSize) with 1032 in Hz.
  set (b0 := construct kInitialSize) in *. unfold send, fillEmptyBuffer.
  assert (Hf : ∃ b' room', fillEmptyBuffer serialize adler32 tag_ m b0 = (Val (), b') ∧ holds b' (frame m) room').
  { unfold fillEmptyBuffer. act_step. rewrite assert_step by (by rewrite (readable_spec _ _ _ Hc)).
    destruct (NetBufferRefinement.append_runs b0 [] 8 tag_ Hc) as (b1 & R1 & H1 & Z1); [lia|]. cbn [fst snd app] in *.
    rewrite (act_bind_val _ _ _ _ _ R1).
    destruct (serialize_runs m b1 _ _ H1) as (b2 & R2 & H2 & Z2); [lia|]. rewrite (act_bind_val _ _ _ _ _ R2). act_step.
    rewrite (readable_spec _ _ _ H2). pose proof (load_peek b2 _ _ (zlen (tag_ ++ serialize m)) H2) as Hl. rewrite ztake_all in Hl by lia.
    rewrite (act_bind_val _ _ _ _ _ (Hl ltac:(rewrite zlen_app; lia))). fold (body m).
    destruct (NetBufferRefinement.append_runs b2 _ _ (be_bytes 4 (checksum (body m))) H2) as (b3 & R3 & H3 & Z3);
      [rewrite zlen_be_bytes; lia|]. cbn [fst snd] in *.
    unfold appendInt. rewrite host_bytes. cbn [sizeof]. rewrite (act_bind_val _ _ _ _ _ R3). act_step. 
    change ((tag_ ++ serialize m) ++ be_bytes 4 (checksum (body m))) with (payload m) in H3.
    rewrite (readable_spec _ _ _ H3). rewrite assert_step by (apply Z.eqb_eq; rewrite zlen_payload; unfold kChecksumLen; lia).
    assert (Hi : i32 (zlen (payload m)) = zlen (payload m)).
    { apply swrap_small; [lia|]. rewrite zlen_payload. change (2 ^ (32 - 1)) with (2 ^ 31). lia. }
    unfold prependInt. rewrite host_bytes, Hi. cbn [sizeof].
    destruct (NetBufferRefinement.prepend_runs b3 _ _ (be_bytes 4 (zlen (payload m))) H3) as (b4 & R4 & H4 & _).
    { rewrite zlen_be_bytes. unfold kCheapPrepend. lia. }
    exists b4. eexists. split; [exact R4|exact H4]. }
  destruct Hf as (b' & room' & E & Hb'). destruct (take_all_spec _ _ _ Hb') as [b2 Ht].
  by rewrite (act_bind_val _ _ _ _ _ E), Ht.
Qed.

(** ** Parsing *)

Lemma checksum_range bs : - 2 ^ 31 <= checksum bs < 2 ^ 31.
Proof.
  unfold ProtobufCodecLite.checksum, swrap. change (2 ^ 32) with 4294967296. change (2 ^ (32 - 1)) with 2147483648. change (2 ^ 31) with 2147483648.
  pose proof (Z.mod_pos_bound (adler32 bs + 2147483648) 4294967296). lia.
Qed.

Lemma asInt32_be x : - 2 ^ 31 <= x < 2 ^ 31 → asInt32 (be_bytes 4 x) = x.
Proof.
  intros Hx. rewrite <-(be_round_trip 4 x) at 2; [|lia|done]. unfold asInt32, be_int. rewrite zlen_be_bytes. f_equal.
  apply (network_val W32); [apply be_bytes_bytes|apply length_be_bytes].
Qed.

Lemma load_mid (a b c : list Z) n : n = zlen b → load (a ++ b ++ c) (zlen a) n = Some b.
Proof. apply load_app. Qed.

(** Any data of the least size can be checked without a read outside of it. *)
Lemma parse_split (t b c : list Z) : zlen t = zlen tag_ → zlen c = 4 →
  parse (t ++ b ++ c) = Some (if checksum (t ++ b) =? asInt32 c then
    if bool_decide (t = tag_) then match parse_message b with Some m => inl m | None => inr kParseError end
    else inr kUnknownMessageType else inr kCheckSumError).
Proof.
  intros Ht Hc. unfold ProtobufCodecLite.parse, validateChecksum, kChecksumLen. rewrite !zlen_app, Hc.
  pose proof (load_mid (t ++ b) c [] 4) as L1. rewrite app_nil_r, zlen_app, <-(assoc_L (++)) in L1.
  replace (zlen t + (zlen b + 4) - 4) with (zlen t + zlen b) by lia. rewrite L1 by done. cbn [mbind option_bind].
  pose proof (load_mid [] (t ++ b) c (zlen t + zlen b)) as L2. cbn [app] in L2. change (zlen []) with 0 in L2. rewrite <-(assoc_L (++)) in L2.
  rewrite L2 by by rewrite zlen_app. cbn [mbind option_bind]. destruct (checksum (t ++ b) =? asInt32 c); [|done].
  pose proof (load_mid [] t (b ++ c) (zlen tag_)) as L3. cbn [app] in L3. change (zlen []) with 0 in L3. rewrite L3 by done. cbn [mbind option_bind].
  case_bool_decide; [|done]. rewrite <-Ht. rewrite load_mid by lia. done.
Qed.

Lemma parse_payload m : sendable m → parse (payload m) = Some (inl m).
Proof.
  intros Hm. unfold ProtobufCodecLite.payload, ProtobufCodecLite.body. rewrite <-(assoc_L (++)).
  rewrite parse_split; [|done|apply zlen_be_bytes]. rewrite asInt32_be by apply checksum_range.
  by rewrite Z.eqb_refl, bool_decide_true, (ok_parse _ _ _ _ _ Hm).
Qed.

(** ** The loop *)

Definition rep (s : @session Msg) q : Prop := Forall is_byte q ∧ ∃ room, holds (input s) q room.

Lemma on_buf_step {A B} (m : Buffer.io A) (f : A → io B) (s : @session Msg) a b :
  m (input s) = (Val a, b) → act_bind (on_buf m) f s = f a (Session b (effects s)).
Proof. intros E. unfold on_buf, act_bind. by rewrite E. Qed.

Lemma rep_readable s q : rep s q → readableBytes (input s) = zlen q.
Proof. intros [_ [room Hb]]. by eapply readable_spec. Qed.

(** The first number of a frame. *)
Lemma rep_peek s q len tail : rep s q → q = be_bytes 4 len ++ tail → - 2 ^ 31 <= len < 2 ^ 31 →
  peekInt W32 (input s) = (Val len, input s).
Proof.
  intros [Hq [room Hb]] -> Hl. pose proof (peekInt_spec (input s) _ room W32 Hb Hq) as E. cbn [sizeof] in E.
  unfold returns in E. rewrite E.
  - rewrite ztake_app by by rewrite zlen_be_bytes. rewrite be_round_trip; [done|lia|exact Hl].
  - rewrite zlen_app, zlen_be_bytes. pose proof (zlen_nonneg tail). lia.
Qed.

Lemma rep_retrieve s f q : rep s (f ++ q) → ∃ b, retrieve (zlen f) (input s) = (Val (), b) ∧ rep (Session b (effects s)) q ∧
  zlen (buffer_ b) = zlen (buffer_ (input s)).
Proof.
  intros [Hq [room Hb]]. pose proof (zlen_nonneg f). pose proof (zlen_nonneg q).
  destruct (retrieve_spec _ _ _ (zlen f) Hb) as (b & E & Hb' & Hz); [rewrite zlen_app; lia|].
  rewrite zdrop_app in Hb' by done. exists b. split; [done|]. split; [|done]. split; [by apply Forall_app in Hq as [_ ?]|].
  by eexists.
Qed.

Definition loop_ready q : Prop := kMinMessageLen + 4 <= zlen q.

(** The test of the loop. *)
Lemma loop_test s q : rep s q → 4 <= kMinMessageLen <= kMaxMessageLen →
  (u32 (kMinMessageLen + kHeaderLen) <=? readableBytes (input s)) = bool_decide (loop_ready q).
Proof.
  intros Hr Hk. rewrite (rep_readable s q Hr). unfold kHeaderLen, kMaxMessageLen, loop_ready in *.
  rewrite wrap_small by ulia. by case_bool_decide; [apply Z.leb_le|apply Z.leb_gt; lia].
Qed.

(** A complete frame of good length. *)
Lemma loop_frame fuel s data q : rep s (be_bytes 4 (zlen data) ++ data ++ q) →
  4 <= kMinMessageLen → kMinMessageLen <= zlen data <= kMaxMessageLen →
  onMessage_loop (S fuel) s =
    (let f := be_bytes 4 (zlen data) ++ data in
     wanted <- call_raw rawCb_ f ;;
     if negb wanted then on_buf (retrieve (zlen f)) ;;; onMessage_loop fuel
     else match parse data with
          | Some (inl m) => emit (Message m) ;;; on_buf (retrieve (zlen f)) ;;; onMessage_loop fuel
          | Some (inr errorCode) => emit (Failed errorCode)
          | None => undefined
          end) s.
Proof.
  intros Hr Hk Hl. pose proof Hr as [Hq [room Hb]]. unfold kMaxMessageLen in Hl. pose proof (zlen_nonneg q).
  assert (Hf : zlen (be_bytes 4 (zlen data) ++ data) = 4 + zlen data) by (rewrite zlen_app, zlen_be_bytes; lia).
  cbv zeta. rewrite Hf. cbn [ProtobufCodecLite.onMessage_loop]. act_step.
  rewrite (loop_test _ _ Hr), bool_decide_true by
    (unfold loop_ready, kMaxMessageLen; rewrite ?zlen_app, ?zlen_be_bytes; lia).
  assert (Ep : peekInt W32 (input s) = (Val (zlen data), input s)) by (eapply rep_peek; [exact Hr|done|lia]).
  rewrite (on_buf_step _ _ s _ _ Ep). assert (Hs : Session (input s) (effects s) = s) by by destruct s. rewrite Hs.
  assert (Hok : (kMaxMessageLen <? zlen data) || (zlen data <? kMinMessageLen) = false).
  { apply orb_false_iff. split; apply Z.ltb_ge; unfold kMaxMessageLen; lia. }
  rewrite Hok. rewrite (rep_readable _ _ Hr). unfold kHeaderLen. rewrite wrap_small by ulia.
  rewrite (proj2 (Z.leb_le _ _)) by (rewrite !zlen_app, zlen_be_bytes; lia).
  pose proof (load_peek _ _ _ (4 + zlen data) Hb ltac:(rewrite !zlen_app, zlen_be_bytes; lia)) as L1.
  rewrite (assoc_L (++)), ztake_app in L1 by lia. unfold returns in L1.
  rewrite (on_buf_step _ _ s _ _ L1), Hs.
  pose proof (load_at_spec _ _ _ 4 (zlen data) Hb) as L2. rewrite zdrop_app, ztake_app in L2 by (rewrite ?zlen_be_bytes; lia).
  unfold returns in L2. rewrite !zlen_app, zlen_be_bytes in L2. specialize (L2 ltac:(lia) ltac:(lia) ltac:(lia)).
  unfold call_raw. destruct rawCb_ as [cb|].
  - rewrite !act_bind_assoc. act_step. act_step. cbn [negb]. destruct (cb _); [|done]. cbn [negb].
    by rewrite (on_buf_step _ _ (Session (input s) _) _ _ L2).
  - act_step. act_step. cbn [negb]. by rewrite (on_buf_step _ _ s _ _ L2), Hs.
Qed.

(** A frame of a message: it is told and consumed. *)
Lemma loop_message fuel s m q : sendable m → rep s (frame m ++ q) →
  ∃ s', onMessage_loop (S fuel) s = onMessage_loop fuel s' ∧ rep s' q ∧ effects s' = effects s ++ told m ∧
    zlen (buffer_ (input s')) = zlen (buffer_ (input s)).
Proof.
  intros Hm Hr. assert (Hr' := Hr). unfold ProtobufCodecLite.frame in Hr. rewrite <-(assoc_L (++)) in Hr.
  rewrite (loop_frame fuel s (payload m) q Hr) by (pose proof (min_small m Hm); pose proof (payload_min m); pose proof (ok_size _ _ _ _ _ Hm); lia).
  change (be_bytes 4 (zlen (payload m)) ++ payload m) with (frame m). cbv zeta. rewrite (parse_payload m Hm).
  unfold call_raw, ProtobufCodecLite.told.
  destruct (rep_retrieve s (frame m) q Hr') as (b & E & Hb & Hz).
  destruct rawCb_ as [cb|].
  - rewrite act_bind_assoc. act_step. act_step. destruct (cb (frame m)); cbn [negb].
    + act_step. rewrite (on_buf_step _ _ _ () b) by exact E. eexists. split; [done|].
      cbn [effects input]. rewrite <-(assoc_L (++)). by split_and!.
    + rewrite (on_buf_step _ _ _ () b) by exact E. eexists. split; [done|]. by split_and!.
  - act_step. cbn [negb]. act_step. rewrite (on_buf_step _ _ _ () b) by exact E. eexists. split; [done|]. by split_and!.
Qed.

(** ** Where the loop stops *)

Lemma loop_short fuel s q : rep s q → zlen tag_ + 8 <= kMaxMessageLen → ¬ loop_ready q → onMessage_loop (S fuel) s = (Val (), s).
Proof.
  intros Hr Ht Hl. cbn [ProtobufCodecLite.onMessage_loop]. act_step. rewrite (loop_test s q Hr), bool_decide_false; [done|done|].
  pose proof (zlen_nonneg tag_). unfold ProtobufCodecLite.kMinMessageLen, kChecksumLen. lia.
Qed.

(** The head of [q] is the length [len]. *)
Lemma loop_head fuel s q len tail : rep s q → q = be_bytes 4 len ++ tail → - 2 ^ 31 <= len < 2 ^ 31 →
  zlen tag_ + 8 <= kMaxMessageLen → loop_ready q → (len < kMinMessageLen ∨ kMaxMessageLen < len) ∨ zlen tail < len →
  onMessage_loop (S fuel) s =
    (if decide (len < kMinMessageLen ∨ kMaxMessageLen < len) then emit (Failed kInvalidLength) s else (Val (), s)).
Proof.
  intros Hr Eq Hl Ht Hd Hc. cbn [ProtobufCodecLite.onMessage_loop]. act_step. pose proof (zlen_nonneg tag_).
  rewrite (loop_test s q Hr), bool_decide_true; [|done|unfold ProtobufCodecLite.kMinMessageLen, kChecksumLen; lia].
  rewrite (on_buf_step _ _ s _ _ (rep_peek s q len tail Hr Eq Hl)). assert (Hs : Session (input s) (effects s) = s) by by destruct s. rewrite Hs.
  case_decide as Hi.
  - rewrite (proj2 (orb_true_iff _ _)); [done|]. rewrite !Z.ltb_lt. tauto.
  - destruct Hc as [?|Hc]; [done|]. rewrite (proj2 (orb_false_iff _ _)) by (rewrite !Z.ltb_ge; lia).
    rewrite (rep_readable s q Hr), Eq. unfold kHeaderLen, kMaxMessageLen, ProtobufCodecLite.kMinMessageLen, kChecksumLen in *.
    rewrite wrap_small by ulia. rewrite (proj2 (Z.leb_gt _ _)); [done|]. rewrite zlen_app, zlen_be_bytes. lia.
Qed.

End Facts.

Import Endian Buffer ProtobufCodecLite.

Section Streams.
Context {Msg : Type} (serialize : Msg → list Z) (parse_message : list Z → option Msg) (adler32 : list Z → Z).
Context (tag_ : list Z) (rawCb_ : option (list Z → bool)).
Context (tag_bytes : Forall is_byte tag_) (tag_size : zlen tag_ + 8 <= kMaxMessageLen).
Implicit Types (m : Msg) (q bs : list Z) (s : @session Msg).

Abbreviation payload := (payload serialize adler32 tag_).
Abbreviation frame := (frame serialize adler32 tag_).
Abbreviation sendable := (sendable serialize parse_message adler32 tag_).
Abbreviation kMinMessageLen := (kMinMessageLen tag_).
Abbreviation checksum := (checksum adler32).
Abbreviation onMessage_loop := (onMessage_loop parse_message adler32 tag_ rawCb_).
Abbreviation onMessage := (onMessage parse_message adler32 tag_ rawCb_).
Abbreviation arrive := (arrive parse_message adler32 tag_ rawCb_).
Abbreviation arrive_all := (arrive_all parse_message adler32 tag_ rawCb_).
Abbreviation told := (told serialize adler32 tag_ rawCb_).

(** The beginning of a frame. *)
Definition partial (rest : list Z) : Prop :=
  rest = [] ∨ ∃ m tail, sendable m ∧ frame m = rest ++ tail ∧ tail ≠ [].

Lemma partial_prefix q more : partial (q ++ more) → partial q.
Proof.
  intros [E|(m & tail & Hm & E & Ht)].
  - left. by apply app_eq_nil in E as [-> _].
  - right. exists m, (more ++ tail). split; [done|]. rewrite E, (assoc_L (++)). split; [done|]. by destruct more.
Qed.

(** At [q] the loop ends, with [out] told. *)
Definition stops (q : list Z) (out : list (@effect Msg)) : Prop :=
  ∀ fuel s, rep s q → onMessage_loop (S fuel) s = (Val (), Session (input s) (effects s ++ out)).

Lemma session_same s : Session (input s) (effects s ++ []) = s.
Proof. destruct s. cbn [input effects]. by rewrite app_nil_r. Qed.

Lemma partial_stops q : partial q → stops q [].
Proof.
  intros Hp fuel s Hr. rewrite session_same.
  destruct (decide (kMinMessageLen + 4 <= zlen q)) as [Hd|]; [|by eapply loop_short].
  unfold loop_ready, ProtobufCodecLite.kMinMessageLen, kChecksumLen in Hd. pose proof (zlen_nonneg tag_).
  destruct Hp as [->|(m & tail & Hm & E & Ht)]; [change (zlen []) with 0 in Hd; lia|].
  pose proof (ok_size _ _ _ _ _ Hm) as Hs. unfold kMaxMessageLen in Hs. pose proof (zlen_nonneg (payload m)).
  unfold ProtobufCodecLite.frame in E. symmetry in E.
  apply app_eq_inv in E as [(k & -> & Ek)|(k & Ek & _)].
  - rewrite (loop_head parse_message adler32 tag_ rawCb_ fuel s _ (zlen (payload m)) k Hr); [|done|lia|done|done|].
    + rewrite decide_False; [done|]. pose proof (payload_min serialize adler32 tag_ m).
      pose proof (ok_size _ _ _ _ _ Hm). lia.
    + right. rewrite Ek, zlen_app. pose proof (zlen_nonneg tail). destruct tail; [done|]. rewrite zlen_cons in *.
      pose proof (zlen_nonneg tail). lia.
  - apply (f_equal zlen) in Ek. rewrite zlen_app, zlen_be_bytes in Ek. pose proof (zlen_nonneg k). lia.
Qed.

(** Complete frames, then where the loop ends. *)
Lemma loop_stream ms : ∀ fuel s rest out, Forall sendable ms → stops rest out → rep s (concat (frame <$> ms) ++ rest) →
  (List.length ms < fuel)%nat →
  ∃ s', onMessage_loop fuel s = (Val (), s') ∧ rep s' rest ∧ effects s' = effects s ++ concat (told <$> ms) ++ out ∧
    zlen (buffer_ (input s')) = zlen (buffer_ (input s)).
Proof.
  induction ms as [|m ms IH]; intros fuel s rest out Hms Hst Hr Hf; (destruct fuel as [|fuel]; [cbn in Hf; lia|]).
  - rewrite (Hst fuel s Hr). by eexists.
  - apply Forall_cons in Hms as [Hm Hms]. cbn [fmap list_fmap concat] in *. rewrite <-(assoc_L (++)) in Hr.
    destruct (loop_message serialize parse_message adler32 tag_ rawCb_ fuel s m _ Hm Hr) as (s1 & -> & H1 & E1 & Z1).
    destruct (IH fuel s1 rest out) as (s2 & -> & H2 & E2 & Z2); [done..|cbn in Hf; lia|].
    eexists. split; [done|]. split; [done|]. rewrite E2, E1, Z2, Z1. by rewrite <-!(assoc_L (++)).
Qed.

Lemma frames_length ms : Z.of_nat (List.length ms) <= zlen (concat (frame <$> ms)).
Proof.
  induction ms as [|m ms IH]; [done|]. rewrite fmap_cons. cbn [concat List.length]. rewrite zlen_app, zlen_frame, zlen_payload.
  pose proof (zlen_nonneg tag_). pose proof (zlen_nonneg (serialize m)). lia.
Qed.

(** Bytes arrive at a buffer. *)
Lemma arrive_stream s q bs ms rest out : rep s q → Forall is_byte bs → zlen bs <= extrabuf_size →
  zlen (buffer_ (input s)) + zlen bs < 2 ^ 31 → q ++ bs = concat (frame <$> ms) ++ rest → Forall sendable ms → stops rest out →
  ∃ s', arrive bs s = (Val (), s') ∧ rep s' rest ∧ effects s' = effects s ++ concat (told <$> ms) ++ out ∧
    zlen (buffer_ (input s')) <= zlen (buffer_ (input s)) + zlen bs.
Proof.
  intros [Hq [room Hb]] Hbs Hn Hz E Hms Hst.
  destruct (readFd_spec _ q room bs Hb Hz) as (b & Eb & Hb' & Zb); [pose proof (proj2 (writable_spec _ _ _ Hb)); case_match eqn:Ew; [lia|apply Z.ltb_ge in Ew; lia]|].
  unfold arrive. rewrite (on_buf_step _ _ _ _ _ Eb). unfold onMessage. act_step.
  assert (Hr : rep (Session b (effects s)) (concat (frame <$> ms) ++ rest)).
  { split; [by rewrite <-E; apply Forall_app|]. rewrite <-E. by eexists. }
  destruct (loop_stream ms (S (Z.to_nat (readableBytes b))) _ rest out Hms Hst Hr) as (s' & ? & ? & ? & Hs').
  { pose proof (rep_readable _ _ Hr) as Er. cbn [input] in Er. rewrite Er, zlen_app. pose proof (frames_length ms).
    pose proof (zlen_nonneg rest). lia. }
  exists s'. cbn [input effects] in *. split_and!; [done..|lia].
Qed.

(** Any cut of a stream is complete frames and the beginning of one. *)
Lemma stream_cut ms : ∀ q more rest, Forall sendable ms → partial rest → q ++ more = concat (frame <$> ms) ++ rest →
  ∃ ms1 ms2 r, ms = ms1 ++ ms2 ∧ q = concat (frame <$> ms1) ++ r ∧ partial r ∧ r ++ more = concat (frame <$> ms2) ++ rest.
Proof.
  induction ms as [|m ms IH]; intros q more rest Hms Hp E.
  - cbn [fmap list_fmap concat app] in E. exists [], [], q. rewrite <-E in Hp. split_and!; [done..| |done]. by eapply partial_prefix.
  - apply Forall_cons in Hms as [Hm Hms]. assert (E' := E). cbn [fmap list_fmap concat] in E. rewrite <-(assoc_L (++)) in E.
    apply app_eq_inv in E as [(k & -> & Ek)|(k & Ek & _)].
    + destruct (IH k more rest Hms Hp (eq_sym Ek)) as (ms1 & ms2 & r & -> & -> & Hr & Er). exists (m :: ms1), ms2, r.
      cbn [fmap list_fmap concat]. by rewrite <-(assoc_L (++)).
    + destruct (decide (k = [])) as [->|Hk].
      * rewrite app_nil_r in Ek. subst q. cbn [fmap list_fmap concat] in E'. rewrite <-(assoc_L (++)) in E'. apply app_inv_head in E'.
        exists [m], ms, []. cbn [fmap list_fmap concat app]. rewrite !app_nil_r. split_and!; [done|done|by left|done].
      * exists [], (m :: ms), q. split_and!; [done|done| |done]. right. by exists m, k.
Qed.

Lemma pieces_stream ps : ∀ s q ms rest, rep s q → Forall (Forall is_byte) ps → Forall (λ p, zlen p <= extrabuf_size) ps →
  zlen (buffer_ (input s)) + zlen (concat ps) < 2 ^ 31 → partial rest → partial q → Forall sendable ms →
  q ++ concat ps = concat (frame <$> ms) ++ rest →
  ∃ s', arrive_all ps s = (Val (), s') ∧ rep s' rest ∧ effects s' = effects s ++ concat (told <$> ms).
Proof.
  induction ps as [|bs ps IH]; intros s q ms rest Hr Hb Hn Hz Hrest Hq Hms E.
  - cbn [concat] in E. rewrite app_nil_r in E. exists s. split; [done|].
    destruct ms as [|m ms]; [cbn in E; subst; split; [done|by rewrite app_nil_r]|]. exfalso.
    assert (Hlen : ∀ m1 t, q = frame m1 ++ t → sendable m1 → False).
    { intros m1 t -> Hm1.
      pose proof (partial_stops _ Hq O s Hr) as E1. rewrite session_same in E1.
      destruct (loop_message serialize parse_message adler32 tag_ rawCb_ O s m1 t Hm1 Hr) as (s1 & E2 & _).
      rewrite E1 in E2. done. }
    apply Forall_cons in Hms as [Hm _]. apply (Hlen m (concat (frame <$> ms) ++ rest)); [|done].
    rewrite E. cbn [fmap list_fmap concat]. by rewrite <-(assoc_L (++)).
  - apply Forall_cons in Hb as [Hb Hbs]. apply Forall_cons in Hn as [Hn Hns]. cbn [concat] in *. rewrite zlen_app in Hz.
    rewrite (assoc_L (++)) in E. destruct (stream_cut ms _ _ _ Hms Hrest E) as (ms1 & ms2 & r & -> & E1 & Hp & E2).
    apply Forall_app in Hms as [Hm1 Hm2]. pose proof (zlen_nonneg (concat ps)).
    destruct (arrive_stream s q bs ms1 r [] Hr Hb Hn) as (s1 & R1 & H1 & F1 & Z1); [lia|done|done|by apply partial_stops|].
    destruct (IH s1 r ms2 rest) as (s2 & R2 & H2 & F2); try done; [lia|].
    exists s2. cbn [ProtobufCodecLite.arrive_all]. rewrite (act_bind_val _ _ _ _ _ R1). split; [done|]. split; [done|].
    rewrite F2, F1, app_nil_r, fmap_app, concat_app. by rewrite (assoc_L (++)).
Qed.

(** ** Bad frames *)

(** The raw callback lets the frame through, and what it was told. *)
Definition wanted (f : list Z) : Prop := match rawCb_ with Some cb => cb f = true | None => True end.
Definition raw_told (f : list Z) : list (@effect Msg) := match rawCb_ with Some _ => [RawMessage f] | None => [] end.

Definition whole (data : list Z) : list Z := be_bytes 4 (zlen data) ++ data.

(** What is wrong with the first frame of the input. *)
Inductive bad : list Z → list (@effect Msg) → Prop :=
| bad_length len tail : - 2 ^ 31 <= len < 2 ^ 31 → len < kMinMessageLen ∨ kMaxMessageLen < len → kMinMessageLen <= zlen tail →
    bad (be_bytes 4 len ++ tail) [Failed kInvalidLength]
| bad_checksum t b c tail : zlen t = zlen tag_ → zlen c = 4 → zlen (t ++ b ++ c) <= kMaxMessageLen → wanted (whole (t ++ b ++ c)) →
    checksum (t ++ b) ≠ asInt32 c →
    bad (whole (t ++ b ++ c) ++ tail) (raw_told (whole (t ++ b ++ c)) ++ [Failed kCheckSumError])
| bad_tag t b c tail : zlen t = zlen tag_ → zlen c = 4 → zlen (t ++ b ++ c) <= kMaxMessageLen → wanted (whole (t ++ b ++ c)) →
    checksum (t ++ b) = asInt32 c → t ≠ tag_ →
    bad (whole (t ++ b ++ c) ++ tail) (raw_told (whole (t ++ b ++ c)) ++ [Failed kUnknownMessageType])
| bad_message b c tail : zlen c = 4 → zlen (tag_ ++ b ++ c) <= kMaxMessageLen → wanted (whole (tag_ ++ b ++ c)) →
    checksum (tag_ ++ b) = asInt32 c → parse_message b = None →
    bad (whole (tag_ ++ b ++ c) ++ tail) (raw_told (whole (tag_ ++ b ++ c)) ++ [Failed kParseError]).

(** A complete frame that does not parse. *)
Lemma frame_stops t b c tail e : zlen t = zlen tag_ → zlen c = 4 → zlen (t ++ b ++ c) <= kMaxMessageLen →
  wanted (whole (t ++ b ++ c)) → ProtobufCodecLite.parse parse_message adler32 tag_ (t ++ b ++ c) = Some (inr e) →
  stops (whole (t ++ b ++ c) ++ tail) (raw_told (whole (t ++ b ++ c)) ++ [Failed e]).
Proof.
  intros Ht Hc Hs Hw Hp fuel s Hr. unfold whole in Hr. rewrite <-(assoc_L (++)) in Hr.
  rewrite (loop_frame parse_message adler32 tag_ rawCb_ fuel s _ _ Hr).
  - cbv zeta. fold (whole (t ++ b ++ c)). unfold call_raw, wanted, raw_told in *. rewrite Hp.
    destruct rawCb_ as [cb|].
    + rewrite act_bind_assoc. act_step. act_step. rewrite Hw. cbn [negb]. unfold emit, modify. cbn [effects input].
      by rewrite <-(assoc_L (++)).
    + by act_step.
  - unfold ProtobufCodecLite.kMinMessageLen, kChecksumLen. pose proof (zlen_nonneg tag_). lia.
  - unfold ProtobufCodecLite.kMinMessageLen, kChecksumLen. pose proof (zlen_nonneg b). rewrite !zlen_app in *. lia.
Qed.

Lemma bad_stops q out : bad q out → stops q out.
Proof.
  destruct 1 as [len tail Hl Hi Hn|t b c tail Ht Hc Hs Hw He|t b c tail Ht Hc Hs Hw He Hg|b c tail Hc Hs Hw He Hg].
  - intros fuel s Hr. rewrite (loop_head parse_message adler32 tag_ rawCb_ fuel s _ len tail Hr); [|done..| |by left].
    + by rewrite decide_True.
    + unfold loop_ready. rewrite zlen_app, zlen_be_bytes. lia.
  - apply frame_stops; [done..|]. rewrite parse_split by done. by rewrite (proj2 (Z.eqb_neq _ _)).
  - apply frame_stops; [done..|]. rewrite parse_split by done. by rewrite (proj2 (Z.eqb_eq _ _)), bool_decide_false.
  - apply frame_stops; [done..|]. rewrite parse_split by done. by rewrite (proj2 (Z.eqb_eq _ _)), bool_decide_true, Hg.
Qed.

(** ** Any input *)

(** A complete frame in the input, or none. *)
Lemma first_frame q : Forall is_byte q → kMinMessageLen + 4 <= zlen q →
  ∃ len tail, q = be_bytes 4 len ++ tail ∧ - 2 ^ 31 <= len < 2 ^ 31 ∧
    (((len < kMinMessageLen ∨ kMaxMessageLen < len) ∨ zlen tail < len) ∨
     ∃ t b c rest, tail = (t ++ b ++ c) ++ rest ∧ zlen t = zlen tag_ ∧ zlen c = 4 ∧ zlen (t ++ b ++ c) = len ∧
       kMinMessageLen <= len <= kMaxMessageLen).
Proof.
  intros Hq Hd. pose proof (zlen_nonneg tag_). unfold ProtobufCodecLite.kMinMessageLen, kChecksumLen in *.
  assert (El : zlen (ztake 4 q) = 4) by (rewrite zlen_ztake; lia).
  exists (be_int (ztake 4 q)), (zdrop 4 q). set (len := be_int (ztake 4 q)). split_and!.
  - pose proof (be_bytes_int (ztake 4 q)) as Eb. replace (List.length (ztake 4 q)) with 4%nat in Eb by (unfold zlen in El; lia).
    unfold len. rewrite Eb; [by rewrite ztake_zdrop|by apply Forall_take].
  - unfold len, be_int. rewrite El. unfold swrap. change (2 ^ (8 * 4)) with 4294967296. change (2 ^ (8 * 4 - 1)) with 2147483648.
    change (2 ^ 31) with 2147483648. pose proof (Z.mod_pos_bound (le_val (rev (ztake 4 q)) + 2147483648) 4294967296). lia.
  - unfold len, be_int. rewrite El. unfold swrap. change (2 ^ (8 * 4)) with 4294967296. change (2 ^ (8 * 4 - 1)) with 2147483648.
    change (2 ^ 31) with 2147483648. pose proof (Z.mod_pos_bound (le_val (rev (ztake 4 q)) + 2147483648) 4294967296). lia.
  - clearbody len. destruct (decide (zlen tag_ + 4 <= len <= kMaxMessageLen ∧ len <= zlen (zdrop 4 q))) as [[Hl Hz]|Hl]; [right|left; lia].
    set (tail := zdrop 4 q) in *. set (data := ztake len tail). assert (Ed : zlen data = len) by (unfold data; rewrite zlen_ztake; lia).
    set (x := zdrop (zlen tag_) data). assert (Ex : zlen x = len - zlen tag_) by (unfold x; rewrite zlen_zdrop; lia).
    exists (ztake (zlen tag_) data), (ztake (len - zlen tag_ - 4) x), (zdrop (len - zlen tag_ - 4) x), (zdrop len tail).
    rewrite (zlen_ztake (zlen tag_)), (zlen_zdrop _ x), (ztake_zdrop _ x) by lia. unfold x at 1 3. rewrite (ztake_zdrop _ data).
    unfold data at 1. rewrite ztake_zdrop. split_and!; [done|lia..].
Qed.

Lemma parse_total t b c : zlen t = zlen tag_ → zlen c = 4 → ∃ r, ProtobufCodecLite.parse parse_message adler32 tag_ (t ++ b ++ c) = Some r.
Proof. intros. rewrite parse_split by done. by eexists. Qed.

(** The loop ends on any input, and keeps the end of it. *)
Lemma loop_total n : ∀ fuel s q, rep s q → (List.length q <= n)%nat → (n < fuel)%nat →
  ∃ s' pre q', onMessage_loop fuel s = (Val (), s') ∧ rep s' q' ∧ q = pre ++ q'.
Proof.
  induction n as [n IH] using lt_wf_ind. intros fuel s q Hr Hn Hf. destruct fuel as [|fuel]; [lia|].
  destruct (decide (kMinMessageLen + 4 <= zlen q)) as [Hd|Hd]; [|exists s, [], q; split; [by eapply loop_short|done]].
  destruct (first_frame q (proj1 Hr) Hd) as (len & tail & -> & Hl & [Hc|(t & b & c & rest & -> & Ht & Hc & El & Hb)]).
  - rewrite (loop_head parse_message adler32 tag_ rawCb_ fuel s _ len tail Hr) by done.
    case_decide; eexists _, [], _; (split; [done|]); split; [|done| |done]; [|done].
    destruct Hr as [? [room ?]]. split; [done|]. by exists room.
  - set (data := t ++ b ++ c) in *. subst len. assert (Hr' := Hr). rewrite (assoc_L (++)) in Hr'. fold (whole data) in Hr'.
    destruct (parse_total t b c Ht Hc) as [r Er]. fold data in Er. pose proof (zlen_nonneg tag_).
    assert (Hgo : ∀ s1, input s1 = input s → ∃ s' pre q', (on_buf (retrieve (zlen (whole data))) ;;; onMessage_loop fuel) s1 = (Val (), s') ∧
      rep s' q' ∧ be_bytes 4 (zlen data) ++ data ++ rest = pre ++ q').
    { intros s1 E1. assert (Hr1 : rep s1 (whole data ++ rest)) by (unfold rep in *; by rewrite E1).
      destruct (rep_retrieve s1 _ _ Hr1) as (b1 & Eb & Hb1 & _). rewrite (on_buf_step _ _ s1 _ _ Eb).
      rewrite !length_app, length_be_bytes in Hn. 
      destruct (IH (List.length rest) ltac:(lia) fuel _ rest Hb1) as (s' & pre & q' & E & H' & ->); [lia..|].
      exists s', (whole data ++ pre), q'. split; [done|]. split; [done|]. unfold whole. by rewrite <-!(assoc_L (++)). }
    rewrite (loop_frame parse_message adler32 tag_ rawCb_ fuel s data rest Hr);
      [|unfold ProtobufCodecLite.kMinMessageLen, kChecksumLen; lia|done].
    cbv zeta. fold (whole data). rewrite Er. unfold call_raw.
    assert (Hend : ∀ e s1, input s1 = input s → ∃ s' pre q', emit (Failed e) s1 = (Val (), s') ∧
      rep s' q' ∧ be_bytes 4 (zlen data) ++ data ++ rest = pre ++ q').
    { intros e s1 E1. eexists _, [], _. split; [done|]. split; [|done]. unfold rep in *. cbn [input]. by rewrite E1. }
    destruct rawCb_ as [cb|].
    + rewrite act_bind_assoc. act_step. act_step. destruct (cb (whole data)); cbn [negb]; [|by apply Hgo].
      destruct r as [m|e]; [act_step; by apply Hgo|by apply Hend].
    + act_step. cbn [negb]. destruct r as [m|e]; [act_step; by apply Hgo|by apply Hend].
Qed.

(** C5: ProtobufCodecLite is a round trip over a byte stream, whatever the generated code, the tag, adler32 and the raw
    callback are: send() hands the frame of the message (length, tag, message and checksum) to the connection; and when the
    frames of any messages, followed by the beginning of another one, arrive in any pieces (each at most the 65536 bytes of
    the extra buffer of readFd), the callbacks are told of exactly these messages, complete and in order, and the incomplete
    rest waits in the input buffer. *)
Theorem codec_delivers_what_was_sent ms rest ps :
  Forall sendable ms → partial rest → Forall (Forall is_byte) ps → Forall (λ p, zlen p <= extrabuf_size) ps →
  zlen (concat ps) + 1032 < 2 ^ 31 → concat ps = concat (frame <$> ms) ++ rest →
  Forall (λ m, send serialize adler32 tag_ m = Val (frame m)) ms ∧
  ∃ s, arrive_all ps fresh = (Val (), s) ∧ effects s = concat (told <$> ms) ∧ ∃ room, holds (input s) rest room.
Proof using tag_bytes tag_size.
  intros Hms Hrest Hb Hn Hz E. split; [eapply Forall_impl; [exact Hms|apply send_frame]|].
  destruct (buffer_construct_holds kInitialSize) as (Hc & _ & Hc'); [unfold kInitialSize; lia..|].
  destruct (pieces_stream ps fresh [] ms rest) as (s & R & [_ Hs] & F); [|done..| |done|by left|done|done|by exists s].
  - split; [done|]. by eexists.
  - unfold fresh. cbn [input]. rewrite Hc'. unfold kInitialSize. lia.
Qed.

(** C6: onMessage of ProtobufCodecLite is total on any bytes: it returns, with no read outside of the buffer and no failed
    assertion, and what stays in the buffer is the end of what was there.  Messages before a bad frame are delivered, then
    the error callback is told what is wrong with it (length, checksum, tag or message) and the bad frame stays. *)
Theorem codec_reports_bad_frames s q : rep s q →
  (∃ s' pre q', onMessage s = (Val (), s') ∧ rep s' q' ∧ q = pre ++ q') ∧
  (∀ ms r out, Forall sendable ms → bad r out → q = concat (frame <$> ms) ++ r →
    ∃ s', onMessage s = (Val (), s') ∧ effects s' = effects s ++ concat (told <$> ms) ++ out ∧ rep s' r).
Proof using tag_bytes tag_size.
  intros Hr. assert (Hf : Z.to_nat (readableBytes (input s)) = List.length q).
  { rewrite (rep_readable s q Hr). unfold zlen. lia. }
  unfold ProtobufCodecLite.onMessage. split.
  - act_step. rewrite Hf. eapply loop_total; [done|done|lia].
  - intros ms r out Hms Hb ->. act_step. pose proof (frames_length ms). pose proof (zlen_nonneg r).
    destruct (loop_stream ms (S (Z.to_nat (readableBytes (input s)))) s r out Hms (bad_stops _ _ Hb) Hr) as (s' & R & H' & F & _).
    { rewrite Hf, length_app. unfold zlen in *. lia. }
    by exists s'.
Qed.

End Streams.

(** ** Witnesses *)

Definition byte_serialize (x : Z) : list Z := [x].
Definition byte_parse (bs : list Z) : option Z := match bs with [x] => Some x | _ => None end.
Definition sum32 (bs : list Z) : Z := foldr Z.add 1 bs.
Definition rpc_tag : list Z := bytes_of "RPC0".
Definition no_cr (f : list Z) : bool := negb (bool_decide (13 ∈ f)).

Lemma byte_sendable x : is_byte x → sendable byte_serialize byte_parse sum32 rpc_tag x.
Proof. intros Hx. split; [by apply Forall_singleton|done|done]. Qed.

Lemma codec_delivers_what_was_sent_witness :
  ∃ s, arrive_all byte_parse sum32 rpc_tag (Some no_cr)
    [[0; 0; 0; 9; 82; 80; 67; 48; 65; 0; 0; 1]; [87; 0; 0; 0; 9; 82]] fresh = (Val (), s) ∧
    effects s = [RawMessage [0; 0; 0; 9; 82; 80; 67; 48; 65; 0; 0; 1; 87]; Message 65].
Proof.
  destruct (codec_delivers_what_was_sent byte_serialize byte_parse sum32 rpc_tag (Some no_cr)
    ltac:(repeat constructor; done) ltac:(done) [65] [0; 0; 0; 9; 82]
    [[0; 0; 0; 9; 82; 80; 67; 48; 65; 0; 0; 1]; [87; 0; 0; 0; 9; 82]]) as (_ & s & R & F & _).
  - apply Forall_singleton, byte_sendable. done.
  - right. exists 7, [80; 67; 48; 7; 0; 0; 1; 29]. split; [by apply byte_sendable|]. by split; [vm_compute|].
  - repeat constructor; done.
  - repeat constructor; done.
  - done.
  - by vm_compute.
  - exists s. split; [exact R|]. by rewrite F.
Defined.

Lemma codec_reports_bad_frames_witness :
  ∃ s', onMessage byte_parse sum32 rpc_tag None (Session (Buffer.mk_buffer [0; 0; 0; 9; 82; 80; 67; 48; 65; 0; 0; 0; 0; 1] 0 14) [])
    = (Val (), s') ∧ effects s' = [Failed kCheckSumError].
Proof.
  destruct (codec_reports_bad_frames byte_serialize byte_parse sum32 rpc_tag None ltac:(repeat constructor; done) ltac:(done)
    (Session (Buffer.mk_buffer [0; 0; 0; 9; 82; 80; 67; 48; 65; 0; 0; 0; 0; 1] 0 14) []) [0; 0; 0; 9; 82; 80; 67; 48; 65; 0; 0; 0; 0; 1])
    as [_ Hbad].
  - split; [repeat constructor; done|]. exists 0. by split.
  - destruct (Hbad [] _ _ ltac:(done) (bad_checksum byte_parse sum32 rpc_tag None rpc_tag [65] [0; 0; 0; 0] [1] ltac:(done) ltac:(done)
      ltac:(done) ltac:(done) ltac:(done)) ltac:(done)) as (s' & R & F & _). by exists s'.
Defined.

