(* ===== verification/RpcChannel.v ===== *)
(** * RpcChannel (muduo/net/protorpc): calls over a connection

    A channel sends requests under fresh numbers and keeps, for each call without
    an answer, the response object and the closure of the caller; it also serves
    the requests of the other end.  [codec_.send] puts a message at the end of what
    this end has sent; [ProtobufCodecLite] delivers it.  Serialization, the
    services and their descriptors are parameters.  A call is three atomic steps
    (the number, the map under its mutex, the message), which any number of
    threads interleave; a service runs its closure when it likes. *)
From S2P Require Import Prelude.

(** ** AtomicIntegerT *)
Module AtomicInteger.

Definition io (A : Type) : Type := act Z Empty_set A.

(** The builtin wraps around; the addition of [int64_t] does not. *)
Definition getAndAdd (x : Z) : io Z := v <- get_state ;; put_state (i64 (v + x)) ;;; act_ret v.
Definition addAndGet (x : Z) : io Z :=
  v <- getAndAdd x ;;
  if decide (- 2 ^ 63 <= v + x < 2 ^ 63) then act_ret (v + x) else undefined.
Definition incrementAndGet : io Z := addAndGet 1.

Lemma increment_spec v : 0 <= v < 2 ^ 63 - 1 → incrementAndGet v = (Val (v + 1), v + 1).
Proof.
  intros Hv. unfold incrementAndGet, addAndGet, getAndAdd. rewrite act_bind_assoc. act_step. rewrite act_bind_assoc. act_step.
  act_step. rewrite decide_True by lia. by rewrite swrap_small by (try lia; change (2 ^ (64 - 1)) with (2 ^ 63); lia).
Qed.
End AtomicInteger.

Module RpcChannel.
Abbreviation bytes := (list Z).

Inductive MessageType := REQUEST | RESPONSE | ERROR.
Inductive ErrorCode := NO_ERROR | WRONG_PROTO | NO_SERVICE | NO_METHOD | INVALID_REQUEST | INVALID_RESPONSE | TIMEOUT.

Record RpcMessage := Message {
  type : MessageType;
  id : Z;
  service : option bytes;
  method : option bytes;
  request : option bytes;
  response : option bytes;
  error : option ErrorCode
}.

(** The objects of the caller, by address; either may be null. *)
Record OutstandingCall := Outstanding { out_response : option Z; out_done : option Z }.

(** What happens to the objects of the caller. *)
Inductive effect := ParseFromString (response : Z) (bs : bytes) | Run (done : Z) | Delete (response : Z).

Section Channel.
Context {Service Method Request : Type}.
Context (FindMethodByName : Service → bytes → option Method) (ParseRequest : Service → Method → bytes → option Request).

(** A call that was handed to a service: its closure holds the number. *)
Abbreviation job := (Service * Method * Request)%type.

Record channel := Channel {
  id_ : Z;
  outstandings_ : gmap Z OutstandingCall;
  services_ : option (gmap bytes Service);
  sent : list RpcMessage;
  serving : list (Z * job);
  told : list effect
}.
Definition io (A : Type) : Type := act channel Empty_set A.

Definition create (services : option (gmap bytes Service)) : channel := Channel 0 ∅ services [] [] [].

Definition on_id {A} (m : AtomicInteger.io A) : io A := λ c,
  let '(a, v) := m (id_ c) in (a, Channel v (outstandings_ c) (services_ c) (sent c) (serving c) (told c)).
Definition set_outstandings (f : gmap Z OutstandingCall → gmap Z OutstandingCall) : io () :=
  modify (λ c, Channel (id_ c) (f (outstandings_ c)) (services_ c) (sent c) (serving c) (told c)).
Definition set_sent (f : list RpcMessage → list RpcMessage) : io () :=
  modify (λ c, Channel (id_ c) (outstandings_ c) (services_ c) (f (sent c)) (serving c) (told c)).
Definition set_serving (f : list (Z * job) → list (Z * job)) : io () :=
  modify (λ c, Channel (id_ c) (outstandings_ c) (services_ c) (sent c) (f (serving c)) (told c)).
Definition emit (es : list effect) : io () :=
  modify (λ c, Channel (id_ c) (outstandings_ c) (services_ c) (sent c) (serving c) (told c ++ es)).

Definition send (m : RpcMessage) : io () := set_sent (λ ms, ms ++ [m]).

(** ** CallMethod *)

Definition CallMethod_message (service method request : bytes) : io (Z * RpcMessage) :=
  id <- on_id AtomicInteger.incrementAndGet ;;
  act_ret (id, Message REQUEST (u64 id) (Some service) (Some method) (Some request) None None).
Definition CallMethod_register (id : Z) (out : OutstandingCall) : io () := set_outstandings (λ m, <[id := out]> m).

Definition CallMethod (service method request : bytes) (out : OutstandingCall) : io () :=
  x <- CallMethod_message service method request ;;
  CallMethod_register x.1 out ;;;
  send x.2.

(** ** onRpcMessage *)

(** The service, method and request of a message, or what is missing. *)
Definition dispatch (services : option (gmap bytes Service)) (message : RpcMessage) : job + ErrorCode :=
  match services with
  | None => inr NO_SERVICE
  | Some services =>
      match services !! default [] (service message) with
      | None => inr NO_SERVICE
      | Some svc =>
          match FindMethodByName svc (default [] (method message)) with
          | None => inr NO_METHOD
          | Some meth =>
              match ParseRequest svc meth (default [] (request message)) with
              | None => inr INVALID_REQUEST
              | Some req => inl (svc, meth, req)
              end
          end
      end
  end.

Definition take_outstanding (id : Z) : io OutstandingCall :=
  c <- get_state ;;
  match outstandings_ c !! id with
  | Some out => set_outstandings (delete id) ;;; act_ret out
  | None => act_ret (Outstanding None None)
  end.

Definition complete (out : OutstandingCall) (message : RpcMessage) : io () :=
  match out_response out with
  | Some r =>
      (match response message with Some bs => emit [ParseFromString r bs] | None => act_ret () end) ;;;
      (match out_done out with Some d => emit [Run d] | None => act_ret () end) ;;;
      emit [Delete r]
  | None => act_ret ()
  end.

Definition onRpcMessage (message : RpcMessage) : io () :=
  match type message with
  | RESPONSE =>
      cpp_assert (bool_decide (is_Some (response message)) || bool_decide (is_Some (error message))) ;;;
      out <- take_outstanding (i64 (id message)) ;;
      complete out message
  | REQUEST =>
      c <- get_state ;;
      match dispatch (services_ c) message with
      | inl x => set_serving (λ l, l ++ [(i64 (id message), x)])
      | inr e => send (Message RESPONSE (id message) None None None None (Some e))
      end
  | ERROR => act_ret ()
  end.

Definition doneCallback (id : Z) (response : bytes) : io () :=
  send (Message RESPONSE (u64 id) None None None (Some response) None).

(** A service runs the closure of its [k]-th job, which it can do once, with a
    response that serializes to [bs]. *)
Definition run_done (k : nat) (bs : bytes) : io () :=
  c <- get_state ;;
  match serving c !! k with
  | Some (id, _) => set_serving (delete k) ;;; doneCallback id bs
  | None => act_ret ()
  end.

(** ** Two ends of a connection, with the threads that call *)

Record caller := Caller { c_id : Z; c_message : RpcMessage; c_out : OutstandingCall; c_registered : bool }.

(** [answered]: what the services of this end have answered, for the theorems. *)
Record endpoint := Endpoint { chan : channel; callers : list caller; answered : list (Z * job * bytes) }.

Inductive side := Left | Right.
#[global] Instance side_eq_dec : EqDecision side.
Proof. solve_decision. Defined.
Definition other (s : side) : side := match s with Left => Right | Right => Left end.

Definition system : Type := side → endpoint.

Inductive event :=
| Call (s : side) (service method request : bytes) (out : OutstandingCall)
| Go (s : side) (k : nat)
| Deliver (s : side)
| Finish (s : side) (k : nat) (bs : bytes).

Definition set_end (s : side) (e : endpoint) (sys : system) : system := λ s', if decide (s' = s) then e else sys s'.

Definition on_chan {A} (s : side) (m : io A) : act system Empty_set A := λ sys,
  let '(a, c) := m (chan (sys s)) in (a, set_end s (Endpoint c (callers (sys s)) (answered (sys s))) sys).
Definition set_callers (s : side) (f : list caller → list caller) : act system Empty_set () :=
  modify (λ sys, set_end s (Endpoint (chan (sys s)) (f (callers (sys s))) (answered (sys s))) sys).
Definition add_answer (s : side) (a : Z * job * bytes) : act system Empty_set () :=
  modify (λ sys, set_end s (Endpoint (chan (sys s)) (callers (sys s)) (answered (sys s) ++ [a])) sys).

(** An event that is not possible does nothing. *)
Definition perform (e : event) : act system Empty_set () :=
  sys <- get_state ;;
  match e with
  | Call s service method request out =>
      x <- on_chan s (CallMethod_message service method request) ;;
      set_callers s (λ l, l ++ [Caller x.1 x.2 out false])
  | Go s k =>
      match callers (sys s) !! k with
      | Some (Caller id m out false) =>
          on_chan s (CallMethod_register id out) ;;;
          set_callers s (λ l, <[k := Caller id m out true]> l)
      | Some (Caller id m out true) => on_chan s (send m) ;;; set_callers s (delete k)
      | None => act_ret ()
      end
  | Deliver s =>
      match sent (chan (sys (other s))) with
      | m :: _ => on_chan (other s) (set_sent tail) ;;; on_chan s (onRpcMessage m)
      | [] => act_ret ()
      end
  | Finish s k bs =>
      match serving (chan (sys s)) !! k with
      | Some (id, x) => on_chan s (run_done k bs) ;;; add_answer s (id, x, bs)
      | None => act_ret ()
      end
  end.

Definition init (services : side → option (gmap bytes Service)) : system := λ s, Endpoint (create (services s)) [] [].

Definition run (es : list event) : act system Empty_set () := act_mapM_ perform es.

(** ** RpcServer

    The server makes a channel when a connection comes up and deletes it when the
    connection goes down, [None]; the closures of its jobs keep its address. *)
Definition registerService (full_name : bytes) (svc : Service) (services : gmap bytes Service) : gmap bytes Service :=
  <[full_name := svc]> services.
Definition onConnection (connected : bool) (services : gmap bytes Service) : option channel :=
  if connected then Some (create (Some services)) else None.

(** A member function called through the address of a channel. *)
Definition on_address (m : io ()) : act (option channel) Empty_set () := λ c,
  match c with
  | Some c => let '(a, c) := m c in (a, Some c)
  | None => (Ub, None)
  end.
End Channel.
End RpcChannel.
