(* ===== verification/RpcChannelTheorems.v ===== *)
(** * Every call through an RpcChannel is completed once, with its own answer

    A call is in one place at a time: in the thread that makes it, in a request, at
    the service, in a response, or completed.  [Direction] is the invariant of the
    calls of one end, as tokens with a stage; each event moves one token. *)
From stdpp Require Import functions.
From S2P Require Import Prelude Hoare RpcChannel.
Import RpcChannel.

Section Calls.
Context {Service Method Request : Type}.
Context (FindMethodByName : Service → bytes → option Method) (ParseRequest : Service → Method → bytes → option Request).
Abbreviation job := (Service * Method * Request)%type.
Abbreviation dispatch := (dispatch FindMethodByName ParseRequest).
Abbreviation onRpcMessage := (onRpcMessage FindMethodByName ParseRequest).
Abbreviation perform := (perform FindMethodByName ParseRequest).
Abbreviation run := (run FindMethodByName ParseRequest).
Abbreviation channel := (@channel Service Method Request).
Abbreviation system := (@system Service Method Request).
Implicit Types (sys : system) (s : side).

(** What a user asked for. *)
Record call := Asked { a_service : bytes; a_method : bytes; a_request : bytes; a_out : OutstandingCall }.

Definition calls (s : side) (es : list event) : list call :=
  omap (λ e, match e with Call s' v m r out => if decide (s' = s) then Some (Asked v m r out) else None | _ => None end) es.

Definition request_message (id : Z) (c : call) : RpcMessage :=
  Message REQUEST (u64 id) (Some (a_service c)) (Some (a_method c)) (Some (a_request c)) None None.
Definition answer_message (id : Z) (bs : bytes) : RpcMessage := Message RESPONSE (u64 id) None None None (Some bs) None.
Definition error_message (id : Z) (e : ErrorCode) : RpcMessage := Message RESPONSE (u64 id) None None None None (Some e).

(** A completed call, with the answer of the service unless there was none, and
    what its caller was told. *)
Definition completion : Type := Z * (call * option bytes).
Definition report (x : completion) : list effect :=
  match out_response (a_out x.2.1) with
  | Some r => from_option (λ bs, [ParseFromString r bs]) [] x.2.2 ++ from_option (λ d, [Run d]) [] (out_done (a_out x.2.1)) ++ [Delete r]
  | None => []
  end.

(** ** Tokens *)

Inductive stage :=
| Calling (c : caller)
| Requested (m : RpcMessage)
| Serving (x : job)
| Responded (m : RpcMessage)
| Completed (c : call) (a : option bytes).

(** The map of the caller knows the call. *)
Definition open (st : stage) : bool :=
  match st with Calling c => c_registered c | Completed _ _ => false | _ => true end.
Section Direction.
Context (services : option (gmap bytes Service)).

(** The service of the other end gave this answer to the call, or has no such
    service, method or request. *)
Definition answers (ans : list (Z * job * bytes)) (i : Z) (c : call) (a : option bytes + ErrorCode) : Prop :=
  match a with
  | inl (Some bs) => ∃ x, dispatch services (request_message i c) = inl x ∧ (i, x, bs) ∈ ans
  | inl None => ∃ e, dispatch services (request_message i c) = inr e
  | inr e => dispatch services (request_message i c) = inr e
  end.

Definition stage_ok (ans : list (Z * job * bytes)) (i : Z) (c : call) (st : stage) : Prop :=
  match st with
  | Calling k => c_message k = request_message i c ∧ c_out k = a_out c
  | Requested m => m = request_message i c
  | Serving x => dispatch services (request_message i c) = inl x
  | Responded m => (∃ bs, m = answer_message i bs ∧ answers ans i c (inl (Some bs))) ∨
                   (∃ e, m = error_message i e ∧ answers ans i c (inr e))
  | Completed c' a => c' = c ∧ answers ans i c (inl a)
  end.

Definition the_call (cs : list call) (i : Z) : option call := cs !! Z.to_nat (i - 1).

Record direction (cs : list call) (ans : list (Z * job * bytes)) (outs : gmap Z OutstandingCall) (ts : list (Z * stage)) : Prop := {
  d_ids : ts.*1 ≡ₚ seqZ 1 (Z.of_nat (List.length cs));
  d_ok i st : (i, st) ∈ ts → ∃ c, the_call cs i = Some c ∧ stage_ok ans i c st;
  d_outs i out : outs !! i = Some out ↔ ∃ st c, (i, st) ∈ ts ∧ open st = true ∧ the_call cs i = Some c ∧ out = a_out c
}.

Lemma the_call_app cs cs' i c : the_call cs i = Some c → the_call (cs ++ cs') i = Some c.
Proof. apply lookup_app_l_Some. Qed.

Lemma direction_perm cs ans outs ts ts' : direction cs ans outs ts → ts ≡ₚ ts' → direction cs ans outs ts'.
Proof. intros [H1 H2 H3] E. split; [by rewrite <-E|intros i st; rewrite <-E; by apply H2|intros i out; setoid_rewrite <-E; apply H3]. Qed.

(** Only one token has a number. *)
Lemma direction_unique cs ans outs i st rest j st' : direction cs ans outs ((i, st) :: rest) → (j, st') ∈ rest → j ≠ i.
Proof.
  intros [H _ _] Hj ->. assert (Hn : NoDup ((i, st) :: rest).*1) by (rewrite H; apply NoDup_seqZ).
  apply NoDup_cons in Hn as [Hn _]. apply Hn. by apply (list_elem_of_fmap_2' _ _ _ _ Hj).
Qed.

Lemma stage_mono ans ans' i c st : (∀ x, x ∈ ans → x ∈ ans') → stage_ok ans i c st → stage_ok ans' i c st.
Proof. intros Ha. destruct st as [| | |m|c' [bs|]]; cbn; naive_solver. Qed.

(** A call goes on to its next place. *)
Lemma direction_move cs ans ans' outs outs' i st st' rest :
  direction cs ans outs ((i, st) :: rest) → (∀ x, x ∈ ans → x ∈ ans') →
  (∀ c, the_call cs i = Some c → stage_ok ans i c st →
     stage_ok ans' i c st' ∧ outs' = if open st' then <[i := a_out c]> outs else delete i outs) →
  direction cs ans' outs' ((i, st') :: rest).
Proof.
  intros Hd Ha Hc. destruct (d_ok _ _ _ _ Hd i st ltac:(left)) as (c & Ec & Hs). destruct (Hc c Ec Hs) as [Hs' ->].
  split.
  - by rewrite <-(d_ids _ _ _ _ Hd).
  - intros j sj [[= -> ->]|Hj]%elem_of_cons; [by exists c|].
    destruct (d_ok _ _ _ _ Hd j sj ltac:(by right)) as (cj & Ej & Hj'). exists cj. split; [done|]. by eapply stage_mono.
  - intros j out. destruct (decide (j = i)) as [->|Hji].
    + destruct (open st') eqn:Eo; rewrite ?lookup_insert_eq, ?lookup_delete_eq; (split; [intros [= <-]|]).
      * exists st', c. split_and!; [left|done..].
      * intros (sj & cj & Hj & _ & Ej & ->). by simplify_eq.
      * intros (sj & cj & [[= ->]|Hj]%elem_of_cons & Hop & _); [congruence|]. by destruct (direction_unique _ _ _ _ _ _ _ _ Hd Hj).
    + assert (E : (if open st' then <[i:=a_out c]> outs else delete i outs) !! j = outs !! j).
      { case_match; [by apply lookup_insert_ne|by apply lookup_delete_ne]. }
      rewrite E, (d_outs _ _ _ _ Hd). split; intros (sj & cj & Hj & ?); exists sj, cj; (split; [|done]);
        (apply elem_of_cons in Hj as [[= ? ?]|Hj]; [done|by right]).
Qed.

(** A new call. *)
Lemma direction_call cs ans outs ts c k : direction cs ans outs ts → c_registered k = false →
  stage_ok ans (Z.of_nat (List.length cs) + 1) c (Calling k) →
  direction (cs ++ [c]) ans outs ((Z.of_nat (List.length cs) + 1, Calling k) :: ts).
Proof.
  intros Hd Hk Hs. assert (En : the_call (cs ++ [c]) (Z.of_nat (List.length cs) + 1) = Some c).
  { unfold the_call. rewrite Z.add_simpl_r, Nat2Z.id. by rewrite lookup_app_r, Nat.sub_diag. }
  split.
  - rewrite fmap_cons. cbn [fst]. rewrite (d_ids _ _ _ _ Hd). rewrite length_app. cbn [List.length].
    replace (Z.of_nat (List.length cs + 1)) with (Z.of_nat (List.length cs) + 1) by lia. rewrite (seqZ_app 1 (Z.of_nat (List.length cs)) 1) by lia.
    rewrite Z.add_comm. cbn [seqZ]. rewrite (Permutation_app_comm (seqZ 1 _)). done.
  - intros j sj [[= -> ->]|Hj]%elem_of_cons; [by exists c|].
    destruct (d_ok _ _ _ _ Hd j sj Hj) as (cj & Ej & Hj'). exists cj. split; [by apply the_call_app|done].
  - intros j out. rewrite (d_outs _ _ _ _ Hd). split; intros (sj & cj & Hj & Ho & Ej & ->).
    + exists sj, cj. split_and!; [by right|done|by apply the_call_app|done].
    + apply elem_of_cons in Hj as [[= -> ->]|Hj]; [cbn [open] in Ho; congruence|].
      destruct (d_ok _ _ _ _ Hd j sj Hj) as (cj' & Ej' & _). pose proof (the_call_app _ [c] _ _ Ej') as E2.
      rewrite E2 in Ej. simplify_eq. by exists sj, cj.
Qed.

End Direction.

(** ** The places of the calls of an end *)

Definition request_token (m : RpcMessage) : list (Z * stage) :=
  match type m with REQUEST => [(i64 (id m), Requested m)] | _ => [] end.
Definition response_token (m : RpcMessage) : list (Z * stage) :=
  match type m with RESPONSE => [(i64 (id m), Responded m)] | _ => [] end.

Definition places (ks : list caller) (ms : list RpcMessage) (js : list (Z * job)) (rs : list RpcMessage) (f : list completion) : list (Z * stage) :=
  ((λ k, (c_id k, Calling k)) <$> ks) ++ (ms ≫= request_token) ++ ((λ j : Z * job, (j.1, Serving j.2)) <$> js) ++ (rs ≫= response_token) ++
  ((λ x : completion, (x.1, Completed x.2.1 x.2.2)) <$> f).

#[export] Instance places_proper : Proper ((≡ₚ) ==> (≡ₚ) ==> (≡ₚ) ==> (≡ₚ) ==> (≡ₚ) ==> (≡ₚ)) places.
Proof. intros ?? E1 ?? E2 ?? E3 ?? E4 ?? E5. unfold places. by rewrite E1, E2, E3, E4, E5. Qed.

Lemma places_caller k ks' ks ms js rs f : ks' ≡ₚ k :: ks → places ks' ms js rs f ≡ₚ (c_id k, Calling k) :: places ks ms js rs f.
Proof. by intros ->. Qed.
Lemma places_request m ms' ks ms js rs f : ms' ≡ₚ m :: ms → type m = REQUEST →
  places ks ms' js rs f ≡ₚ (i64 (id m), Requested m) :: places ks ms js rs f.
Proof. intros -> E. unfold places. rewrite bind_cons. unfold request_token at 1. rewrite E. solve_Permutation. Qed.
Lemma places_no_request m ms' ks ms js rs f : ms' ≡ₚ m :: ms → type m ≠ REQUEST → places ks ms' js rs f ≡ₚ places ks ms js rs f.
Proof. intros -> E. unfold places. rewrite bind_cons. unfold request_token at 1. by destruct (type m). Qed.
Lemma places_job j js' ks ms js rs f : js' ≡ₚ j :: js → places ks ms js' rs f ≡ₚ (j.1, Serving j.2) :: places ks ms js rs f.
Proof. intros ->. unfold places. rewrite fmap_cons. solve_Permutation. Qed.
Lemma places_response m rs' ks ms js rs f : rs' ≡ₚ m :: rs → type m = RESPONSE →
  places ks ms js rs' f ≡ₚ (i64 (id m), Responded m) :: places ks ms js rs f.
Proof. intros -> E. unfold places. rewrite bind_cons. unfold response_token at 1. rewrite E. solve_Permutation. Qed.
Lemma places_no_response m rs' ks ms js rs f : rs' ≡ₚ m :: rs → type m ≠ RESPONSE → places ks ms js rs' f ≡ₚ places ks ms js rs f.
Proof. intros -> E. unfold places. rewrite bind_cons. unfold response_token at 1. by destruct (type m). Qed.
Lemma places_completed x f' ks ms js rs f : f' ≡ₚ x :: f → places ks ms js rs f' ≡ₚ (x.1, Completed x.2.1 x.2.2) :: places ks ms js rs f.
Proof. intros ->. unfold places. rewrite fmap_cons. solve_Permutation. Qed.

Lemma snoc_perm {A} (x : A) l : l ++ [x] ≡ₚ x :: l.
Proof. symmetry. apply Permutation_cons_append. Qed.
Lemma insert_perm {A} (k : nat) (x y : A) l : l !! k = Some y → <[k := x]> l ≡ₚ x :: delete k l.
Proof.
  intros Hk. rewrite insert_take_drop by (by eapply lookup_lt_Some). rewrite delete_take_drop. symmetry. apply Permutation_middle.
Qed.

(** ** The invariant of the two ends *)

Section Ends.
Context (services : side → option (gmap bytes Service)).

Abbreviation endpoint := (@endpoint Service Method Request).
Implicit Types (me you : endpoint).

(** The calls of [me], made to [you]. *)
Definition tokens me you (f : list completion) : list (Z * stage) :=
  places (callers me) (sent (chan me)) (serving (chan you)) (sent (chan you)) f.

Record end_inv s (cs : list call) me you (f : list completion) : Prop := {
  e_id : id_ (chan me) = Z.of_nat (List.length cs);
  e_services : services_ (chan me) = services s;
  e_sent : Forall (λ m, type m ≠ ERROR) (sent (chan me));
  e_told : told (chan me) = f ≫= report;
  e_dir : direction (services (other s)) cs (answered you) (outstandings_ (chan me)) (tokens me you f)
}.

Definition inv (cs : side → list call) sys (fin : side → list completion) : Prop :=
  ∀ s, end_inv s (cs s) (sys s) (sys (other s)) (fin s).

Lemma other_other s : other (other s) = s.
Proof. by destruct s. Qed.
Lemma other_ne s : s ≠ other s.
Proof. by destruct s. Qed.

Lemma inv_both x cs sys fin me you : sys x = me → sys (other x) = you → end_inv x (cs x) me you (fin x) →
  end_inv (other x) (cs (other x)) you me (fin (other x)) → inv cs sys fin.
Proof. intros <- <- H1 H2 s. destruct (decide (s = x)) as [->|]; [done|]. replace s with (other x) by by destruct s, x. by rewrite other_other. Qed.

Lemma set_end_same x e sys : set_end x e sys x = e.
Proof. unfold set_end. by rewrite decide_True. Qed.
Lemma set_end_other x e sys : set_end x e sys (other x) = sys (other x).
Proof. unfold set_end. by rewrite decide_False by (by destruct x). Qed.
Lemma set_other_end x e sys : set_end (other x) e sys x = sys x.
Proof. unfold set_end. by rewrite decide_False by (by destruct x). Qed.
Lemma fn_other {T} x (t : T) (f : side → T) : <[x := t]> f (other x) = f (other x).
Proof. apply fn_lookup_insert_ne, other_ne. Qed.
Ltac fn_simpl := rewrite ?set_end_same, ?set_end_other, ?set_other_end, ?fn_lookup_insert, ?fn_other; cbn [chan callers answered].

(** The steps that the calls still need. *)
Definition caller_load (k : caller) : nat := if c_registered k then 4 else 5.
Definition message_load (m : RpcMessage) : nat := match type m with REQUEST => 3 | _ => 1 end.
Definition load (e : endpoint) : nat :=
  sum_list_with caller_load (callers e) + sum_list_with message_load (sent (chan e)) + 2 * List.length (serving (chan e)).
Definition pending sys : nat := load (sys Left) + load (sys Right).
Lemma pending_both x sys : pending sys = (load (sys x) + load (sys (other x)))%nat.
Proof. destruct x; unfold pending; cbn [other]; lia. Qed.
Ltac solve_load x := rewrite !(pending_both x); fn_simpl; unfold load; cbn [callers sent serving chan];
  rewrite ?sum_list_with_app, ?length_app; cbn [sum_list_with List.length caller_load message_load c_registered type request_message]; lia.

Lemma on_chan_val {A B} s (m : RpcChannel.io A) (f : A → act system Empty_set B) sys a c : m (chan (sys s)) = (Val a, c) →
  act_bind (on_chan s m) f sys = f a (set_end s (Endpoint c (callers (sys s)) (answered (sys s))) sys).
Proof. intros E. unfold on_chan, act_bind. by rewrite E. Qed.

Lemma id_range i : 0 <= i < 2 ^ 63 → i64 (u64 i) = i.
Proof.
  intros Hi. assert (2 ^ 64 = 2 * 2 ^ 63) by done. rewrite wrap_small by (unfold is_uint; lia).
  apply swrap_small; [lia|]. change (2 ^ (64 - 1)) with (2 ^ 63). lia.
Qed.

Lemma the_call_range cs i c : the_call cs i = Some c → (Z.to_nat (i - 1) < List.length cs)%nat.
Proof. apply lookup_lt_Some. Qed.

Lemma direction_range sv cs ans outs ts i st : direction sv cs ans outs ts → (i, st) ∈ ts → 1 <= i <= Z.of_nat (List.length cs).
Proof.
  intros Hd Hi. assert (Hin : i ∈ ts.*1) by by apply (list_elem_of_fmap_2' _ _ _ _ Hi). rewrite (d_ids _ _ _ _ _ Hd) in Hin.
  apply elem_of_seqZ in Hin. lia.
Qed.

(** A call begins. *)
Lemma step_call cs sys fin x v m r out : inv cs sys fin → Z.of_nat (List.length (cs x)) < 2 ^ 63 - 1 →
  ∃ sys', perform (Call x v m r out) sys = (Val (), sys') ∧ inv (<[x := cs x ++ [Asked v m r out]]> cs) sys' fin.
Proof.
  intros Hi Hn. pose proof (Hi x) as [E1 E2 E3 E4 E5]. set (n := Z.of_nat (List.length (cs x))) in *.
  unfold RpcChannel.perform. act_step. unfold CallMethod_message.
  set (k := Caller (n + 1) (request_message (n + 1) (Asked v m r out)) out false).
  erewrite on_chan_val; [|unfold act_bind, on_id; rewrite E1, AtomicInteger.increment_spec by lia; reflexivity].
  unfold set_callers, modify. eexists. split; [reflexivity|]. cbn [fst snd].
  eapply (inv_both x); [by fn_simpl|by fn_simpl|..]; fn_simpl.
  - split; cbn [chan id_ services_ sent told answered outstandings_]; [rewrite length_app; cbn [List.length]; lia|done..|].
    eapply direction_perm; [apply (direction_call _ _ _ _ _ (Asked v m r out) k E5 eq_refl)|]; [done|].
    symmetry. apply (places_caller k), snoc_perm.
  - destruct (Hi (other x)) as [F1 F2 F3 F4 F5]. split; rewrite ?other_other in *; done.
Qed.

(** A caller goes on: it registers its call, or sends the request. *)
Lemma step_go cs sys fin x k : inv cs sys fin → Z.of_nat (List.length (cs x)) < 2 ^ 63 →
  ∃ sys', perform (Go x k) sys = (Val (), sys') ∧ inv cs sys' fin ∧
    (is_Some (callers (sys x) !! k) → (pending sys' < pending sys)%nat).
Proof.
  intros Hi Hn. pose proof (Hi x) as [E1 E2 E3 E4 E5]. pose proof (Hi (other x)) as [F1 F2 F3 F4 F5].
  unfold RpcChannel.perform. act_step. destruct (callers (sys x) !! k) as [[i m out reg]|] eqn:Ek;
    [|eexists; split_and!; [done..|by intros [? ?]]].
  pose proof (delete_Permutation _ _ _ Ek) as Ep. pose proof (places_caller _ _ _ (sent (chan (sys x))) (serving (chan (sys (other x))))
    (sent (chan (sys (other x)))) (fin x) Ep) as Et. cbn [c_id] in Et. pose proof (direction_perm _ _ _ _ _ _ E5 Et) as E5'.
  assert (Hr : 1 <= i < 2 ^ 63). { pose proof (direction_range _ _ _ _ _ _ _ E5' ltac:(left)). lia. }
  destruct (d_ok _ _ _ _ _ E5' i _ ltac:(left)) as (c & Ec & Hm & Ho). cbn [c_message c_out] in *. subst m out.
  assert (El : sum_list_with caller_load (callers (sys x)) =
    ((if reg then 4 else 5) + sum_list_with caller_load (delete k (callers (sys x))))%nat) by (by rewrite Ep at 1).
  assert (El' : ∀ y, sum_list_with caller_load (<[k := y]> (callers (sys x))) =
    (caller_load y + sum_list_with caller_load (delete k (callers (sys x))))%nat) by (intros y; by rewrite (insert_perm _ _ _ _ Ek)).
  destruct reg; (erewrite on_chan_val by reflexivity); (eexists; split; [reflexivity|]);
    (split; [|intros _; solve_load x || (rewrite !(pending_both x); fn_simpl; unfold load; cbn [callers]; rewrite El'; cbn [caller_load c_registered chan sent serving]; lia)]);
    (eapply (inv_both x); [by fn_simpl|by fn_simpl|..]; fn_simpl).
  - split; cbn [chan id_ services_ sent told answered outstandings_]; [done..| |done|].
    + apply Forall_app; split; [done|]. by apply Forall_singleton.
    + eapply direction_perm; [eapply (direction_move _ _ _ _ _ _ _ _ (Requested (request_message i c)) _ E5'); [done|]|].
      * intros c' Ec' _. simplify_eq. split; [done|]. cbn [open]. symmetry. apply insert_id.
        apply (d_outs _ _ _ _ _ E5'). eexists _, c. by split_and!; [left|..].
      * symmetry. etrans; [eapply (places_request (request_message i c)); [apply snoc_perm|done]|].
        change (id (request_message i c)) with (u64 i). by rewrite id_range by lia.
  - split; rewrite ?other_other in *; try done. eapply direction_perm; [exact F5|]. symmetry.
    by eapply (places_no_response (request_message i c)); [apply snoc_perm|].
  - split; cbn [chan id_ services_ sent told answered outstandings_]; [done..|].
    eapply direction_perm; [eapply (direction_move _ _ _ _ _ _ _ _ (Calling (Caller i (request_message i c) (a_out c) true)) _ E5'); [done|]|].
    + intros c' Ec' _. simplify_eq. by split.
    + symmetry. eapply (places_caller (Caller i (request_message i c) (a_out c) true)). by eapply insert_perm.
  - split; rewrite ?other_other in *; done.
Qed.

(** A service answers. *)
Lemma step_finish cs sys fin x k bs : inv cs sys fin → (∀ s, Z.of_nat (List.length (cs s)) < 2 ^ 63) →
  ∃ sys', perform (Finish x k bs) sys = (Val (), sys') ∧ inv cs sys' fin ∧
    (is_Some (serving (chan (sys x)) !! k) → (pending sys' < pending sys)%nat).
Proof.
  intros Hi Hn. pose proof (Hi x) as [E1 E2 E3 E4 E5]. pose proof (Hi (other x)) as [F1 F2 F3 F4 F5]. rewrite other_other in F5.
  unfold RpcChannel.perform. act_step. destruct (serving (chan (sys x)) !! k) as [[i j]|] eqn:Ek;
    [|eexists; split_and!; [done..|by intros [? ?]]].
  pose proof (delete_Permutation _ _ _ Ek) as Ep. pose proof (places_job _ _ (callers (sys (other x))) (sent (chan (sys (other x)))) _
    (sent (chan (sys x))) (fin (other x)) Ep) as Et. cbn [fst snd] in Et. pose proof (direction_perm _ _ _ _ _ _ F5 Et) as F5'.
  assert (Hr : 1 <= i < 2 ^ 63). { pose proof (direction_range _ _ _ _ _ _ _ F5' ltac:(left)). specialize (Hn (other x)). lia. }
  destruct (d_ok _ _ _ _ _ F5' i _ ltac:(left)) as (c & Ec & Hj). cbn [stage_ok] in Hj.
  erewrite on_chan_val by (unfold run_done; act_step; rewrite Ek; reflexivity). eexists. split; [reflexivity|].
  assert (El := Permutation_length Ep). cbn [List.length] in El. split; [|intros _; solve_load x].
  eapply (inv_both x); [by fn_simpl|by fn_simpl|..]; fn_simpl.
  - split; cbn [chan id_ services_ sent told answered outstandings_]; [done..| |done|].
    + apply Forall_app; split; [done|]. by apply Forall_singleton.
    + eapply direction_perm; [exact E5|]. symmetry. by eapply (places_no_request (answer_message i bs)); [apply snoc_perm|].
  - split; rewrite ?other_other in *; [done..|]. cbn [answered].
    eapply direction_perm; [eapply (direction_move _ _ _ (answered (sys x) ++ [(i, j, bs)]) _ _ _ _ (Responded (answer_message i bs)) _ F5')|].
    + intros y Hy. apply elem_of_app. by left.
    + intros c' Ec' _. simplify_eq. split.
      * left. exists bs. split; [done|]. exists j. split; [done|]. apply elem_of_app. right. by left.
      * cbn [open]. symmetry. apply insert_id. apply (d_outs _ _ _ _ _ F5'). eexists _, c. by split_and!; [left|..].
    + symmetry. etrans; [eapply (places_response (answer_message i bs)); [apply snoc_perm|done]|].
      change (id (answer_message i bs)) with (u64 i). by rewrite id_range by lia.
Qed.

Ltac deliver_load x m Em Ht := assert (Hw : message_load m = match type m with REQUEST => 3 | _ => 1 end%nat) by done; rewrite Ht in Hw; rewrite !(pending_both x); do 2 fn_simpl; unfold load; cbn [callers sent serving chan]; rewrite Em;
  cbn [tail]; rewrite ?sum_list_with_app, ?length_app; cbn [sum_list_with List.length message_load type]; lia.

(** A request arrives: it goes to the service, or is answered with what is missing. *)
Lemma deliver_request cs sys fin x m ms : inv cs sys fin → (∀ s, Z.of_nat (List.length (cs s)) < 2 ^ 63) →
  sent (chan (sys (other x))) = m :: ms → type m = REQUEST →
  ∃ sys', perform (Deliver x) sys = (Val (), sys') ∧ inv cs sys' fin ∧ (pending sys' < pending sys)%nat.
Proof.
  intros Hi Hn Em Ht. pose proof (Hi x) as [E1 E2 E3 E4 E5]. pose proof (Hi (other x)) as [F1 F2 F3 F4 F5]. rewrite other_other in F5.
  unfold RpcChannel.perform. act_step. rewrite Em. erewrite on_chan_val by reflexivity.
  pose proof (places_request m (sent (chan (sys (other x)))) (callers (sys (other x))) ms (serving (chan (sys x)))
    (sent (chan (sys x))) (fin (other x)) ltac:(by rewrite Em) Ht) as Et. pose proof (direction_perm _ _ _ _ _ _ F5 Et) as F5'.
  set (i := i64 (id m)) in *.
  assert (Hr : 1 <= i < 2 ^ 63). { pose proof (direction_range _ _ _ _ _ _ _ F5' ltac:(left)). specialize (Hn (other x)). lia. }
  destruct (d_ok _ _ _ _ _ F5' i _ ltac:(left)) as (c & Ec & Hm). cbn [stage_ok] in Hm.
  assert (Hs : Forall (λ m, type m ≠ ERROR) ms) by (rewrite Em in F3; by apply Forall_cons in F3 as [_ ?]).
  assert (Ei : id m = u64 i) by by rewrite Hm.
  assert (Ex : tokens (sys x) (sys (other x)) (fin x) ≡ₚ places (callers (sys x)) (sent (chan (sys x))) (serving (chan (sys (other x)))) ms (fin x)).
  { unfold tokens. rewrite Em. apply (places_no_response m); [done|]. by rewrite Ht. }
  unfold on_chan, RpcChannel.onRpcMessage. rewrite Ht. unfold get_state. unfold act_bind at 1. fn_simpl.
  cbn [services_ chan]. rewrite E2. destruct (dispatch (services x) m) as [j|e] eqn:Ed.
  - eexists. split; [reflexivity|]. split; [|deliver_load x m Em Ht]. eapply (inv_both x); [by fn_simpl|by fn_simpl|..]; fn_simpl; rewrite Em; cbn [tail].
    + split; cbn [chan id_ services_ sent told answered outstandings_]; [done..|]. by eapply direction_perm; [exact E5|rewrite Ex].
    + split; rewrite ?other_other in *; cbn [chan id_ services_ sent told answered outstandings_]; [done..|].
      eapply direction_perm; [eapply (direction_move _ _ _ _ _ _ _ _ (Serving j) _ F5'); [done|]|].
      * intros c' Ec' _. simplify_eq. split; [cbn [stage_ok]; by rewrite <-Hm|].
        cbn [open]. symmetry. apply insert_id. apply (d_outs _ _ _ _ _ F5'). eexists _, c. by split_and!; [left|..].
      * symmetry. by eapply (places_job (i, j)), snoc_perm.
  - eexists. split; [reflexivity|]. split; [|deliver_load x m Em Ht]. eapply (inv_both x); [by fn_simpl|by fn_simpl|..]; fn_simpl; rewrite Em; cbn [tail].
    + split; cbn [chan id_ services_ sent told answered outstandings_]; [done..| |done|].
      * apply Forall_app; split; [done|]. by apply Forall_singleton.
      * eapply direction_perm; [exact E5|]. rewrite Ex. symmetry. by eapply (places_no_request (error_message i e)); [rewrite Ei; apply snoc_perm|].
    + split; rewrite ?other_other in *; cbn [chan id_ services_ sent told answered outstandings_]; [done..|].
      eapply direction_perm; [eapply (direction_move _ _ _ _ _ _ _ _ (Responded (error_message i e)) _ F5'); [done|]|].
      * intros c' Ec' _. simplify_eq. split; [right; exists e; split; [done|]; cbn [answers]; by rewrite <-Hm|].
        cbn [open]. symmetry. apply insert_id. apply (d_outs _ _ _ _ _ F5'). eexists _, c. by split_and!; [left|..].
      * symmetry. etrans; [eapply (places_response (error_message i e)); [rewrite Ei; apply snoc_perm|done]|].
        change (id (error_message i e)) with (u64 i). by rewrite id_range by lia.
Qed.

Lemma complete_spec c i m (ch : channel) : complete (a_out c) m ch =
  (Val (), Channel (id_ ch) (outstandings_ ch) (services_ ch) (sent ch) (serving ch) (told ch ++ report (i, (c, response m)))).
Proof.
  unfold complete, report. cbn [fst snd]. destruct (out_response (a_out c)) as [r|]; [|rewrite app_nil_r; by destruct ch].
  destruct (response m) as [bs|], (out_done (a_out c)) as [d|]; unfold emit, modify, act_bind, act_ret; cbn [told from_option];
    by rewrite <-?(assoc_L (++)).
Qed.

(** A response arrives: the call it belongs to is completed. *)
Lemma deliver_response cs sys fin x m ms : inv cs sys fin → (∀ s, Z.of_nat (List.length (cs s)) < 2 ^ 63) →
  sent (chan (sys (other x))) = m :: ms → type m = RESPONSE →
  ∃ sys' fin', perform (Deliver x) sys = (Val (), sys') ∧ inv cs sys' fin' ∧ (pending sys' < pending sys)%nat.
Proof.
  intros Hi Hn Em Ht. pose proof (Hi x) as [E1 E2 E3 E4 E5]. pose proof (Hi (other x)) as [F1 F2 F3 F4 F5]. rewrite other_other in F5.
  unfold RpcChannel.perform. act_step. rewrite Em. erewrite on_chan_val by reflexivity.
  pose proof (places_response m (sent (chan (sys (other x)))) (callers (sys x)) (sent (chan (sys x))) (serving (chan (sys (other x))))
    ms (fin x) ltac:(by rewrite Em) Ht) as Et. pose proof (direction_perm _ _ _ _ _ _ E5 Et) as E5'.
  remember (i64 (id m)) as i eqn:Hid.
  destruct (d_ok _ _ _ _ _ E5' i _ ltac:(left)) as (c & Ec & Hm). cbn [stage_ok] in Hm.
  assert (Hs : Forall (λ m, type m ≠ ERROR) ms) by (rewrite Em in F3; by apply Forall_cons in F3 as [_ ?]).
  assert (Eo : outstandings_ (chan (sys x)) !! i = Some (a_out c)).
  { apply (d_outs _ _ _ _ _ E5'). eexists _, c. by split_and!; [left|..]. }
  assert (Hok : answers (services (other x)) (answered (sys (other x))) i c (inl (response m)) ∧
    bool_decide (is_Some (response m)) || bool_decide (is_Some (error m)) = true).
  { destruct Hm as [(bs & -> & Ha)|(e & -> & Ha)]; [by split|]. split; [by exists e|done]. }
  destruct Hok as [Hok Hassert].
  unfold on_chan, RpcChannel.onRpcMessage. rewrite Ht. unfold act_bind at 1, cpp_assert. rewrite Hassert. fn_simpl.
  unfold take_outstanding. rewrite act_bind_assoc. unfold get_state. unfold act_bind at 1. cbn [outstandings_]. rewrite <-Hid, Eo.
  unfold set_outstandings, modify, act_ret. unfold act_bind at 1 2. rewrite (complete_spec c i).
  eexists _, (<[x := fin x ++ [(i, (c, response m))]]> fin). split; [reflexivity|]. split; [|deliver_load x m Em Ht].
  eapply (inv_both x); [by fn_simpl|by fn_simpl|..]; fn_simpl; rewrite Em; cbn [tail].
  - split; cbn [chan id_ services_ sent told answered outstandings_]; [done..| |].
    + rewrite bind_app, E4. cbn [mbind list_bind]. by rewrite app_nil_r.
    + eapply direction_perm; [eapply (direction_move _ _ _ _ _ _ _ _ (Completed c (response m)) _ E5'); [done|]|].
      * intros c' Ec' _. simplify_eq. by split.
      * symmetry. by eapply (places_completed (i, (c, response m))), snoc_perm.
  - split; rewrite ?other_other in *; cbn [chan id_ services_ sent told answered outstandings_]; [done..|].
    eapply direction_perm; [exact F5|]. unfold tokens at 1. rewrite Em. apply (places_no_request m); [done|]. by rewrite Ht.
Qed.

(** ** Histories *)

Lemma calls_app s es e : calls s (es ++ [e]) = calls s es ++ calls s [e].
Proof. apply omap_app. Qed.
Lemma calls_length s es : (List.length (calls s es) <= List.length es)%nat.
Proof. induction es as [|e es IH]; [done|]. unfold calls in *. cbn [omap list_omap List.length]. case_match; cbn [List.length]; lia. Qed.

(** A call goes on in this event. *)
Definition moves (e : event) sys : bool :=
  match e with
  | Call _ _ _ _ _ => false
  | Go s k => bool_decide (is_Some (callers (sys s) !! k))
  | Deliver s => negb (bool_decide (sent (chan (sys (other s))) = []))
  | Finish s k _ => bool_decide (is_Some (serving (chan (sys s)) !! k))
  end.

Lemma calls_step_inv sys fin es e : inv (λ s, calls s es) sys fin → Z.of_nat (List.length es) < 2 ^ 63 - 1 →
  ∃ sys' fin', perform e sys = (Val (), sys') ∧ inv (λ s, calls s (es ++ [e])) sys' fin' ∧
    (moves e sys = true → (pending sys' < pending sys)%nat).
Proof.
  intros Hi Hn. assert (Hcs : ∀ s, Z.of_nat (List.length (calls s es)) < 2 ^ 63 - 1) by (intros s; pose proof (calls_length s es); lia).
  assert (Hsame : (∀ s, calls s [e] = []) → ∀ sys' fin', inv (λ s, calls s es) sys' fin' → inv (λ s, calls s (es ++ [e])) sys' fin').
  { intros He sys' fin' H s. rewrite calls_app, He, app_nil_r. apply H. }
  assert (Hcs' : ∀ s, Z.of_nat (List.length (calls s es)) < 2 ^ 63) by (intros s; specialize (Hcs s); lia).
  destruct e as [x v m r out|x k|x|x k bs].
  - destruct (step_call _ _ _ x v m r out Hi (Hcs x)) as (sys' & E & H). exists sys', fin. split; [done|]. split; [|done].
    intros s. specialize (H s). rewrite calls_app. unfold calls at 2. cbn [omap list_omap].
    destruct (decide (x = s)) as [->|Hx]; [by rewrite fn_lookup_insert in H|]. by rewrite fn_lookup_insert_ne, app_nil_r in *.
  - destruct (step_go _ _ _ x k Hi (Hcs' x)) as (sys' & E & H & Hp). exists sys', fin. split; [done|]. split; [by apply Hsame|].
    intros Hm. apply Hp. by apply bool_decide_eq_true in Hm.
  - destruct (sent (chan (sys (other x)))) as [|m ms] eqn:Em.
    { exists sys, fin. split; [|split; [by apply Hsame|]].
      - unfold RpcChannel.perform. act_step. by rewrite Em.
      - cbn [moves]. by rewrite Em. }
    destruct (type m) eqn:Et.
    + destruct (deliver_request _ _ _ x m ms Hi Hcs' Em Et) as (sys' & E & H & Hp). exists sys', fin. by split_and!; [|apply Hsame|].
    + destruct (deliver_response _ _ _ x m ms Hi Hcs' Em Et) as (sys' & fin' & E & H & Hp). exists sys', fin'. by split_and!; [|apply Hsame|].
    + exfalso. pose proof (e_sent _ _ _ _ _ (Hi (other x))) as Hs. rewrite Em in Hs. by apply Forall_cons in Hs as [? _].
  - destruct (step_finish _ _ _ x k bs Hi Hcs') as (sys' & E & H & Hp). exists sys', fin. split; [done|]. split; [by apply Hsame|].
    intros Hm. apply Hp. by apply bool_decide_eq_true in Hm.
Qed.

Lemma calls_init_inv : inv (λ s, calls s []) (init services) (λ _, []).
Proof.
  intros s. split; [done..|]. split; [done| |].
  - intros i st H. by apply elem_of_nil in H.
  - intros i out. split; [done|]. intros (st & c & H & _). by apply elem_of_nil in H.
Qed.

Lemma calls_run_inv es : Z.of_nat (List.length es) < 2 ^ 63 →
  ∃ sys fin, run es (init services) = (Val (), sys) ∧ inv (λ s, calls s es) sys fin.
Proof.
  induction es as [|e es IH] using rev_ind; intros Hn.
  - exists (init services), (λ _, []). split; [done|apply calls_init_inv].
  - rewrite length_app in Hn. cbn [List.length] in Hn. destruct IH as (sys & fin & E & H); [lia|].
    destruct (calls_step_inv sys fin es e H) as (sys' & fin' & E' & H' & _); [lia|]. exists sys', fin'. split; [|done].
    unfold RpcChannel.run in *. rewrite act_mapM_app. rewrite (act_bind_val _ _ _ _ _ E). cbn [act_mapM_].
    by rewrite (act_bind_val _ _ _ _ _ E').
Qed.

(** When nothing is under way, every call is completed. *)
Lemma quiet_completed cs sys fin s : inv cs sys fin → pending sys = 0%nat →
  (fin s).*1 ≡ₚ seqZ 1 (Z.of_nat (List.length (cs s))) ∧ outstandings_ (chan (sys s)) = ∅.
Proof.
  intros Hi Hp. destruct (Hi s) as [_ _ _ _ Hd]. rewrite (pending_both s) in Hp. unfold load in Hp.
  assert (Hk : callers (sys s) = []).
  { destruct (callers (sys s)) as [|k ks]; [done|]. cbn [sum_list_with] in Hp. unfold caller_load in Hp at 1. destruct (c_registered k); lia. }
  assert (Hm : ∀ ms, sum_list_with message_load ms = 0%nat → ms = []).
  { intros [|m ms]; [done|]. cbn [sum_list_with]. unfold message_load at 1. destruct (type m); lia. }
  assert (Hj : serving (chan (sys (other s))) = []) by (apply nil_length_inv; lia).
  assert (Ht : tokens (sys s) (sys (other s)) (fin s) = (λ x : completion, (x.1, Completed x.2.1 x.2.2)) <$> fin s).
  { unfold tokens. rewrite Hk, Hj, (Hm (sent (chan (sys s)))), (Hm (sent (chan (sys (other s))))) by lia. done. }
  rewrite Ht in Hd. split.
  - rewrite <-(d_ids _ _ _ _ _ Hd). rewrite <-list_fmap_compose. done.
  - apply map_empty. intros i. destruct (outstandings_ (chan (sys s)) !! i) as [out|] eqn:Eo; [|done].
    apply (d_outs _ _ _ _ _ Hd) in Eo as (st & c & Hin & Ho & _). apply list_elem_of_fmap in Hin as ([? [? ?]] & [= -> ->] & _). done.
Qed.

(** Something that is under way can go on. *)
Lemma not_quiet_moves sys : (0 < pending sys)%nat → ∃ e, moves e sys = true.
Proof.
  intros Hp. assert (Hs : ∃ s, (0 < load (sys s))%nat) by (destruct (decide (load (sys Left) = 0%nat)); unfold pending in Hp; [exists Right|exists Left]; lia).
  destruct Hs as [s Hs]. unfold load in Hs. destruct (callers (sys s)) as [|k ks] eqn:Ek; [|exists (Go s 0%nat); cbn [moves]; by rewrite Ek].
  destruct (sent (chan (sys s))) as [|m ms] eqn:Em; [|exists (Deliver (other s)); cbn [moves]; by rewrite other_other, Em].
  destruct (serving (chan (sys s))) as [|j js] eqn:Ej; [cbn in Hs; lia|]. exists (Finish s 0%nat []). cbn [moves]. by rewrite Ej.
Qed.

Lemma completed_once cs sys fin s : inv cs sys fin → NoDup (fin s).*1 ∧
  ∀ i c a, (i, (c, a)) ∈ fin s → the_call (cs s) i = Some c ∧ answers (services (other s)) (answered (sys (other s))) i c (inl a).
Proof.
  intros Hi. destruct (Hi s) as [_ _ _ _ Hd].
  set (f := λ x : completion, (x.1, Completed x.2.1 x.2.2)).
  assert (Hsub : ∃ l, tokens (sys s) (sys (other s)) (fin s) = l ++ (f <$> fin s)).
  { eexists. unfold tokens, places. rewrite !(assoc_L (++)). reflexivity. }
  destruct Hsub as [l El]. rewrite El in Hd. split.
  - pose proof (d_ids _ _ _ _ _ Hd) as Hn. assert (H : NoDup (l ++ (f <$> fin s)).*1) by (rewrite Hn; apply NoDup_seqZ).
    rewrite fmap_app, <-list_fmap_compose in H. apply NoDup_app in H as (_ & _ & H). exact H.
  - intros i c a Hin. destruct (d_ok _ _ _ _ _ Hd i (Completed c a)) as (c' & Ec & Hs).
    + apply elem_of_app. right. by apply (list_elem_of_fmap_2' f _ _ _ Hin).
    + cbn [stage_ok] in Hs. by destruct Hs as [-> ?].
Qed.

(** C7: Every call through an RpcChannel is completed once, with the answer to its own request.  Two ends of a connection
    call each other's services from any number of threads, in any interleaving of the atomic steps of CallMethod with the
    messages that arrive and the services that answer, less than 2^63 events.  No assertion fails; the closures run so far
    are those of distinct calls, each after its response object was filled with what the service of the other end answered
    to this very request (or, when there is no such service, method or request, left alone), and the response object is
    deleted after that.  While something is under way some event is possible, each such event brings the calls closer
    to their end, and when nothing is left every call is completed and the map of outstanding calls is empty. *)
Theorem rpc_calls_complete es : Z.of_nat (List.length es) < 2 ^ 63 - 1 →
  ∃ sys fin, run es (init services) = (Val (), sys) ∧
  (∀ s, told (chan (sys s)) = fin s ≫= report ∧ NoDup (fin s).*1 ∧
    ∀ i c a, (i, (c, a)) ∈ fin s → the_call (calls s es) i = Some c ∧
      answers (services (other s)) (answered (sys (other s))) i c (inl a)) ∧
  ((0 < pending sys)%nat → ∃ e, moves e sys = true) ∧
  (∀ e, moves e sys = true → ∃ sys', perform e sys = (Val (), sys') ∧ (pending sys' < pending sys)%nat) ∧
  (pending sys = 0%nat → ∀ s, (fin s).*1 ≡ₚ seqZ 1 (Z.of_nat (List.length (calls s es))) ∧ outstandings_ (chan (sys s)) = ∅).
Proof.
  intros Hn. destruct (calls_run_inv es) as (sys & fin & E & Hi); [lia|]. exists sys, fin. split; [done|]. split_and!.
  - intros s. split; [by apply (Hi s)|]. by eapply completed_once in Hi.
  - apply not_quiet_moves.
  - intros e He. destruct (calls_step_inv sys fin es e Hi Hn) as (sys' & fin' & E' & _ & Hp). exists sys'. split; [done|by apply Hp].
  - intros Hq s. by apply (quiet_completed _ _ _ _ Hi).
Qed.

(** A thread alone: the steps of the events are CallMethod. *)
Lemma go_alone sys s i m out b : callers (sys s) = [Caller i m out b] →
  ∃ sys', perform (Go s 0%nat) sys = (Val (), sys') ∧ callers (sys' s) = (if b then [] else [Caller i m out true]) ∧
    chan (sys' s) = ((if b then send m else CallMethod_register i out) (chan (sys s))).2.
Proof.
  intros Hk. unfold RpcChannel.perform. act_step. rewrite Hk. cbn [lookup list_lookup].
  destruct b; (erewrite on_chan_val by reflexivity); (eexists; split; [reflexivity|]); do 2 fn_simpl; by rewrite Hk.
Qed.

Lemma call_steps_are_CallMethod sys s v m r out c : callers (sys s) = [] → CallMethod v m r out (chan (sys s)) = (Val (), c) →
  ∃ sys', run [Call s v m r out; Go s 0%nat; Go s 0%nat] sys = (Val (), sys') ∧ chan (sys' s) = c ∧ callers (sys' s) = [].
Proof.
  intros Hk. unfold CallMethod. destruct (CallMethod_message v m r (chan (sys s))) as [[[i msg]|[]| |] c1] eqn:Em.
  2,3: unfold act_bind at 1; by rewrite Em.
  rewrite (act_bind_val _ _ _ _ _ Em). cbn [fst snd]. intros [= <-].
  assert (Hc : ∃ sys1, perform (Call s v m r out) sys = (Val (), sys1) ∧ callers (sys1 s) = [Caller i msg out false] ∧ chan (sys1 s) = c1).
  { unfold RpcChannel.perform. act_step. erewrite on_chan_val by exact Em. eexists. split; [reflexivity|]. do 2 fn_simpl. by rewrite Hk. }
  destruct Hc as (sys1 & R1 & K1 & C1). destruct (go_alone _ _ _ _ _ _ K1) as (sys2 & R2 & K2 & C2).
  destruct (go_alone _ _ _ _ _ _ K2) as (sys3 & R3 & K3 & C3). exists sys3. unfold RpcChannel.run. cbn [act_mapM_].
  rewrite (act_bind_val _ _ _ _ _ R1), (act_bind_val _ _ _ _ _ R2), (act_bind_val _ _ _ _ _ R3).
  split; [done|]. split; [|done]. by rewrite C3, C2, C1.
Qed.

(** RpcServer deletes the channel of a connection that goes down; a service that
    answers later calls the deleted object. *)
Lemma late_answer_uses_deleted_channel (svcs : gmap bytes Service) k bs :
  (on_address (run_done k bs : RpcChannel.io (Method := Method) (Request := Request) ()) (onConnection false svcs)).1 = Ub.
Proof. done. Qed.

End Ends.
End Calls.

(** ** Witness *)

Definition echo_method (svc : Z) (name : bytes) : option Z := if decide (name = [1]) then Some 1 else None.
Definition echo_request (svc meth : Z) (bs : bytes) : option bytes := Some bs.
Definition echo_services (s : side) : option (gmap bytes Z) := match s with Left => None | Right => Some {[ [7] := 7 ]} end.
Definition echo_run : list event :=
  [Call Left [7] [1] [42] (Outstanding (Some 100) (Some 200)); Call Left [7] [2] [43] (Outstanding (Some 101) (Some 201));
   Go Left 1; Go Left 0; Go Left 1; Go Left 0; Deliver Right; Deliver Right; Finish Right 0 [42]; Deliver Left; Deliver Left].

Lemma rpc_calls_complete_witness : ∃ sys, run echo_method echo_request echo_run (init echo_services) = (Val (), sys) ∧
  outstandings_ (chan (sys Left)) = ∅ ∧
  told (chan (sys Left)) = [Run 201; Delete 101; ParseFromString 100 [42]; Run 200; Delete 100].
Proof.
  destruct (rpc_calls_complete echo_method echo_request echo_services echo_run ltac:(done)) as (sys & fin & E & _ & _ & _ & Hq).
  exists sys. split; [done|]. set (r := run echo_method echo_request echo_run (init echo_services)) in E.
  assert (Es : sys = r.2) by by rewrite E. split; [apply Hq|]; subst sys; by vm_compute.
Defined.
