(* ===== verification/DsaaTheorems.v ===== *)
(** * Data structures with the same promise: what they share and what each adds *)
From S2P Require Import Prelude StdMap BinTree BinarySearchTree SplayTree Treap.
From S2P Require Import HeapContract LeftistHeap PairingHeap BinomialQueue BinaryHeap.
From S2P Require Import HashContract SeparateChaining QuadraticProbing.
From S2P Require Import Arrays SortContract InsertionSort HeapSort MergeSort QuickSort.
Import BinTree.

(** C35: The search trees answer alike: from the empty tree, whatever calls a client makes, BinarySearchTree, SplayTree
    and Treap (whatever the generator draws below INT_MAX; its remove is implemented, the comment at the top of Treap.h
    notwithstanding) dereference no null pointer and answer as a sorted list
    without duplicates, whose items they hold; their copies are equal.  Every splay and every makeEmpty of SplayTree ends
    within the number of nodes and an item that is searched and present comes to the root; the nodes of Treap are in heap
    order of their priorities and each removal ends within twice the number of nodes. *)
Theorem search_trees_agree `{KeyOrder K} (nextInt : nat → Z) (cs : list (SetContract.call K)) (x : K) :
  (∀ n, nextInt n < Treap.INT_MAX) →
  let answers := (SetContract.spec_run cs []).1 in let its := (SetContract.spec_run cs []).2 in
  SortedSet.sorted its ∧
  (∃ root, SetContract.exec_run (Impl := BinarySearchTree.bst_set) cs (Nil : tree () K) = Some (answers, root) ∧
    elements root = its ∧ BinarySearchTree.clone root = root) ∧
  (∃ root, SetContract.exec_run (Impl := SplayTree.splay_set) cs (Nil : tree () K) = Some (answers, root) ∧
    elements root = its ∧ SplayTree.clone root = root ∧
    ∃ root', SplayTree.contains x root = Some (SortedSet.mem x its, root') ∧
      (SortedSet.mem x its = true → root_element root' = Some x)) ∧
  (∃ s, Treap.run nextInt cs Treap.construct = Some (answers, s) ∧
    elements (Treap.root s) = its ∧ Treap.heap (Treap.root s) ∧ Treap.clone (Treap.root s) = Treap.root s).
Proof.
  intros Hn. cbv zeta.
  destruct (BinarySearchTree.bst_implements_sorted_set cs) as (r1 & ? & E1 & Hs & ?).
  destruct (SplayTree.splay_implements_sorted_set cs x) as (r2 & ? & E2 & ? & ? & r2' & ? & ?).
  destruct (Treap.treap_implements_sorted_set nextInt cs Hn) as (r3 & ? & ? & ? & ? & ?).
  rewrite E1 in Hs. rewrite E2 in *. split_and!; [done|by exists r1| |by exists r3].
  exists r2. split_and!; [done..|by exists r2'].
Qed.

(** C36: The priority queues answer alike: whatever calls a client makes, LeftistHeap, PairingHeap, BinomialQueue and
    BinaryHeap (made empty or from items) use no null pointer and no index outside of their vectors, answer as a sorted list
    with duplicates, and hold its items.  Merging two leftist heaps takes log n1 + log n2 + 1 calls of the recursion and
    gives a leftist heap with the items of both; merging two binomial queues gives at most one tree of each order; the
    other queue is left empty.  decreaseKey of PairingHeap changes just the item at its position, or throws when the new
    value is larger.  BinaryHeap keeps the heap order inside its vector, with both overloads of insert. *)
Theorem priority_queues_agree `{KeyOrder K} (dflt : K) (capacity : nat) (its : list K) (cs cs' : list (HeapContract.call K)) :
  let run_spec := λ l, HeapContract.spec_run l [] in
  let answers := (run_spec cs).1 in let all := (run_spec cs).2 in let all' := (run_spec cs').2 in
  (∃ h h' m, HeapContract.exec_run (Impl := LeftistHeap.leftist_impl) cs (Nil : tree Z K) = Some (answers, h) ∧
    HeapContract.exec_run (Impl := LeftistHeap.leftist_impl) cs' (Nil : tree Z K) = Some ((run_spec cs').1, h') ∧
    elements h ≡ₚ all ∧ LeftistHeap.clone h = h ∧
    LeftistHeap.merge_heaps false h h' = Some (m, Nil) ∧ LeftistHeap.leftist m ∧ elements m ≡ₚ all ++ all' ∧
    LeftistHeap.merge (Z.to_nat (Z.log2 (size h + 1) + Z.log2 (size h' + 1) + 1)) h h' = Some m) ∧
  (∃ h : PairingHeap.heap, HeapContract.exec_run (Impl := PairingHeap.pairing_impl) cs PairingHeap.construct = Some (answers, h) ∧
    elements (PairingHeap.root h) ≡ₚ all ∧
    elements (PairingHeap.clone (PairingHeap.root h) (PairingHeap.fresh h)).1 = elements (PairingHeap.root h) ∧
    ∀ p x newVal, PairingHeap.element_at p (PairingHeap.root h) = Some x →
      if klt x newVal then PairingHeap.decreaseKey p newVal h = Some (false, h)
      else ∃ h' rest, PairingHeap.decreaseKey p newVal h = Some (true, h') ∧ PairingHeap.heap_ok h' ∧
        PairingHeap.entries (PairingHeap.root h) ≡ₚ (p, x) :: rest ∧ PairingHeap.entries (PairingHeap.root h') ≡ₚ (p, newVal) :: rest) ∧
  (∃ q q' m e : BinomialQueue.queue, HeapContract.exec_run (Impl := BinomialQueue.binomial_impl) cs BinomialQueue.construct = Some (answers, q) ∧
    HeapContract.exec_run (Impl := BinomialQueue.binomial_impl) cs' BinomialQueue.construct = Some ((run_spec cs').1, q') ∧
    BinomialQueue.tree_items (BinomialQueue.theTrees q) ≡ₚ all ∧ BinomialQueue.clone q = q ∧
    BinomialQueue.merge q q' = Some (m, e) ∧ BinomialQueue.forest 0 (BinomialQueue.theTrees m) ∧
    BinomialQueue.tree_items (BinomialQueue.theTrees m) ≡ₚ all ++ all' ∧
    BinomialQueue.isEmpty e = true ∧ BinomialQueue.tree_items (BinomialQueue.theTrees e) = []) ∧
  (∃ h h0 h1 : BinaryHeap.heap, BinaryHeap.run dflt cs (BinaryHeap.construct dflt capacity) = Some (answers, h) ∧
    BinaryHeap.construct_items dflt its = Some h0 ∧
    BinaryHeap.run dflt cs h0 = Some ((HeapContract.spec_run cs (foldr HeapContract.ins [] its)).1, h1) ∧
    BinaryHeap.heap_items h ≡ₚ all ∧ BinaryHeap.heap_items h1 ≡ₚ (HeapContract.spec_run cs (foldr HeapContract.ins [] its)).2 ∧
    BinaryHeap.heap_ok dflt h ∧ BinaryHeap.heap_ok dflt h1 ∧
    ∀ x, ∃ h', BinaryHeap.insert_move dflt x h = Some h' ∧ BinaryHeap.heap_ok dflt h' ∧
      BinaryHeap.heap_items h' ≡ₚ x :: BinaryHeap.heap_items h).
Proof.
  cbv zeta. split_and!;
    [apply LeftistHeap.leftist_implements_priority_queue|apply PairingHeap.pairing_implements_priority_queue
    |apply BinomialQueue.binomial_implements_priority_queue|apply BinaryHeap.binaryheap_implements_priority_queue].
Qed.

(** C26: The hash tables answer alike: whatever the hash function, the initial size and the calls, with enough fuel for
    the searches for a prime size, SeparateChaining and QuadraticProbing answer as a finite set, whose objects they hold,
    and no access leaves a table.  Rehashing comes to an end and never nests.  The chained table has at most as many
    objects as lists; the probing table keeps a prime size and is at most half full, so every probe sequence ends. *)
Theorem hash_tables_agree `{Countable K} (hf : K → N) (dflt : K) (size : Z) (cs : list (HashContract.call K)) :
  0 < size → let answers := (HashContract.spec_run cs ∅).1 in let X := (HashContract.spec_run cs ∅).2 in
  (∃ t F, (∀ fuel, (F <= fuel)%nat → SeparateChaining.run hf fuel cs (SeparateChaining.construct size) = Some (answers, t)) ∧
    SeparateChaining.table_ok hf t ∧ SeparateChaining.table_items t = X) ∧
  (∃ t0 t F, (∀ fuel, (F <= fuel)%nat → QuadraticProbing.construct dflt fuel size = Some t0 ∧
      QuadraticProbing.run hf dflt fuel cs t0 = Some (answers, t)) ∧
    QuadraticProbing.table_ok hf t ∧ QuadraticProbing.table_items t = X).
Proof.
  intros Hs. cbv zeta. split; [apply SeparateChaining.chaining_implements_set|by apply QuadraticProbing.probing_implements_set].
Qed.

Import SortContract InsertionSort HeapSort MergeSort QuickSort.

(** C32: Every sorting routine of Sort.h, the insertion sorts of a vector, of a
    subarray and of an iterator range, Shellsort, heapsort, mergesort, and the
    quicksorts with median of three and with three-way partition, comes to an
    end, never leaves its vectors, and gives the one sorted permutation of its part
    of the vector; quickSelect permutes the vector and leaves in a[k-1] the k-th
    smallest item, for every k that counts an item. *)
Theorem sort_routines_agree `{KeyOrder K} (dflt : K) (pre a post : list K) (k : Z) :
  insertionSort a = Some (sort_spec a) ∧
  insertionSort_range (zlen pre) (zlen pre + zlen a - 1) (pre ++ a ++ post) = Some (pre ++ sort_spec a ++ post) ∧
  insertionSort_iter (length pre) (length pre + length a) (pre ++ a ++ post) = Some (pre ++ sort_spec a ++ post) ∧
  shellsort a = Some (sort_spec a) ∧
  heapsort a = Some (sort_spec a) ∧
  mergeSort dflt a = Some (sort_spec a) ∧
  quicksort a = Some (sort_spec a) ∧
  SORT (length a) a = Some (sort_spec a) ∧
  sorted (sort_spec a) ∧ sort_spec a ≡ₚ a ∧
  ∃ b, quickSelect a k = Some b ∧ b ≡ₚ a ∧
    (1 <= k <= zlen a → b !! Z.to_nat (k - 1) = sort_spec a !! Z.to_nat (k - 1)).
Proof.
  destruct (simple_sorts_sort pre a post) as (I1 & I2 & I3 & I4 & Hs & Hp).
  destruct (quicksort_sorts a) as (Q1 & Q2 & _).
  split_and!; try done; [apply heapsort_sorts|apply mergeSort_sorts|apply quickSelect_selects].
Qed.

Lemma search_trees_agree_witness :
  ∃ s, Treap.run (λ n, Z.of_nat (n * 7 mod 5)) [SetContract.Insert 4; SetContract.Insert 2; SetContract.Insert 9; SetContract.Remove 2] Treap.construct
      = Some ((SetContract.spec_run [SetContract.Insert 4; SetContract.Insert 2; SetContract.Insert 9; SetContract.Remove 2] []).1, s) ∧
    elements (Treap.root s) = [4; 9].
Proof.
  destruct (search_trees_agree (λ n, Z.of_nat (n * 7 mod 5))
    [SetContract.Insert 4; SetContract.Insert 2; SetContract.Insert 9; SetContract.Remove 2] 4) as (_ & _ & _ & s & E & Es & _).
  - intros n. unfold Treap.INT_MAX. pose proof (Nat.mod_upper_bound (n * 7) 5 ltac:(lia)). lia.
  - exists s. split; [exact E|]. by rewrite Es.
Defined.

Lemma hash_tables_agree_witness :
  0 < 5 ∧ ∃ t0 t F, (∀ fuel, (F <= fuel)%nat → QuadraticProbing.construct 0 fuel 5 = Some t0 ∧
      QuadraticProbing.run Z.to_N 0 fuel [HashContract.Insert 7; HashContract.Insert 12; HashContract.Remove 7; HashContract.Contains 12] t0 =
        Some ([HashContract.Answer true; HashContract.Answer true; HashContract.Answer true; HashContract.Answer true], t)) ∧
    QuadraticProbing.table_items t = {[12]}.
Proof.
  split; [lia|].
  destruct (hash_tables_agree Z.to_N 0 5 [HashContract.Insert 7; HashContract.Insert 12; HashContract.Remove 7; HashContract.Contains 12])
    as (_ & t0 & t & F & Hr & _ & Hi); [lia|].
  exists t0, t, F. split; [exact Hr|]. rewrite Hi. vm_compute. reflexivity.
Defined.
