(* ===== verification/TimeZone.v ===== *)
(** * TimeZone.cc (muduo/base): local time, and the files it is read from

    A zone is a list of transitions, sorted by time, between kinds of local time.
    Reading a zone file may throw [logic_error], which the reader catches: what was
    read before it stays in the zone.  gmtime_r and timegm of libc are the calendar
    of [Date]: a year that does not fit in an [int] makes gmtime_r fail. *)
From S2P Require Import Prelude NetBuffer Date.
Import Endian.

Module TimeZone.

Record tm := Tm {
  tm_sec : Z; tm_min : Z; tm_hour : Z; tm_mday : Z; tm_mon : Z; tm_year : Z; tm_wday : Z; tm_yday : Z;
  tm_isdst : bool; tm_gmtoff : Z; tm_zone : list Z
}.
Definition zero_tm : tm := Tm 0 0 0 0 0 0 0 0 false 0 [].

Record Transition := MkTransition { gmttime : Z; localtime : Z; localtimeIdx : Z }.
Record Localtime := MkLocaltime { gmtOffset : Z; isDst : bool; arrbIdx : Z }.
Record Data := MkData { transitions : list Transition; localtimes : list Localtime; abbreviation : list Z }.
Definition no_data : Data := MkData [] [] [].

Definition kSecondsPerDay : Z := 24 * 60 * 60.
Definition kJulianDayOf1970_01_01 : Z := 2440588.

(** ** The calendar of libc *)

Definition days_of (seconds : Z) : YearMonthDay := Calendar.ymd (seconds / kSecondsPerDay + kJulianDayOf1970_01_01).

Definition gmtime (seconds : Z) : tm :=
  let r := seconds mod kSecondsPerDay in
  let x := days_of seconds in
  Tm (r mod 60) (r / 60 mod 60) (r / 3600) (day x) (month x - 1) (year x - 1900)
     ((seconds / kSecondsPerDay + 4) mod 7) (Calendar.jdn x - Calendar.jdn (Ymd (year x) 1 1)) false 0 (bytes_of "GMT").
Definition gmtime_r (seconds : Z) (result : tm) : tm :=
  if decide (- 2 ^ 31 <= year (days_of seconds) - 1900 < 2 ^ 31) then gmtime seconds else result.

(** The fields may be out of their ranges. *)
Definition timegm (t : tm) : Z :=
  (Calendar.jdn (Ymd (tm_year t + 1900 + tm_mon t / 12) (tm_mon t mod 12 + 1) 1) + tm_mday t - 1 - kJulianDayOf1970_01_01) * kSecondsPerDay
  + tm_hour t * 3600 + tm_min t * 60 + tm_sec t.

(** ** UTC, with the arithmetic of [int] *)

Definition fillHMS (seconds : Z) (utc : tm) : tm :=
  let minutes := seconds / 60 in
  Tm (seconds mod 60) (minutes mod 60) (minutes / 60) (tm_mday utc) (tm_mon utc) (tm_year utc) (tm_wday utc) (tm_yday utc)
     (tm_isdst utc) (tm_gmtoff utc) (tm_zone utc).

(** [None]: an overflow of [int]. *)
Definition toUtcTime (secondsSinceEpoch : Z) (yday : bool) : option tm :=
  let seconds := i32 (Z.rem secondsSinceEpoch kSecondsPerDay) in
  let days := i32 (secondsSinceEpoch ÷ kSecondsPerDay) in
  let '(seconds, days) := if seconds <? 0 then (seconds + kSecondsPerDay, days - 1) else (seconds, days) in
  let date := days + kJulianDayOf1970_01_01 in
  if ints_ok [days; date; date + 1] then
    ymd ← Date.getYearMonthDay date;
    startOfYear ← Date.getJulianDayNumber (year ymd) 1 1;
    if ints_ok [year ymd - 1900; month ymd - 1; date - startOfYear] then
      let utc := fillHMS seconds zero_tm in
      Some (Tm (tm_sec utc) (tm_min utc) (tm_hour utc) (day ymd) (month ymd - 1) (year ymd - 1900) (Date.weekDay date)
              (if yday then date - startOfYear else 0) false 0 (bytes_of "GMT"))
    else None
  else None.

Definition fromUtcTime_fields (year month day hour minute seconds : Z) : option Z :=
  date ← Date.getJulianDayNumber year month day;
  if ints_ok [hour * 3600; minute * 60; hour * 3600 + minute * 60; hour * 3600 + minute * 60 + seconds; date - kJulianDayOf1970_01_01]
  then Some ((date - kJulianDayOf1970_01_01) * kSecondsPerDay + (hour * 3600 + minute * 60 + seconds))
  else None.
Definition fromUtcTime (utc : tm) : option Z :=
  if ints_ok [tm_year utc + 1900; tm_mon utc + 1] then
    fromUtcTime_fields (tm_year utc + 1900) (tm_mon utc + 1) (tm_mday utc) (tm_hour utc) (tm_min utc) (tm_sec utc)
  else None.

(** ** Local time *)

Definition io (A : Type) : Type := act () Empty_set A.

(** A sum of [time_t]. *)
Definition time_t (x : Z) : io Z := if decide (- 2 ^ 63 <= x < 2 ^ 63) then act_ret x else undefined.

(** Comp *)
Definition key (compareGmt : bool) (t : Transition) : Z := if compareGmt then gmttime t else localtime t.
Definition comp (compareGmt : bool) (lhs rhs : Transition) : bool := key compareGmt lhs <? key compareGmt rhs.
Definition equal (compareGmt : bool) (lhs rhs : Transition) : bool := key compareGmt lhs =? key compareGmt rhs.

(** std::lower_bound: the first element that is not less; [None]: the range is not
    partitioned by the comparison. *)
Fixpoint lower_bound {A} (less : A → bool) (l : list A) : option nat :=
  match l with
  | [] => Some O
  | x :: l' => if less x then S <$> lower_bound less l' else if forallb (λ y, negb (less y)) l' then Some O else None
  end.

Definition localtime_at (data : Data) (i : Z) : io Localtime :=
  match localtimes data !! Z.to_nat i with Some l => act_ret l | None => undefined end.

Definition findLocaltime (data : Data) (sentry : Transition) (compareGmt : bool) : io Localtime :=
  match transitions data with
  | [] => localtime_at data 0
  | front :: _ =>
      if comp compareGmt sentry front then localtime_at data 0
      else
        match lower_bound (λ t, comp compareGmt t sentry) (transitions data) with
        | None => undefined
        | Some i =>
            match transitions data !! i with
            | Some t =>
                if equal compareGmt sentry t then localtime_at data (localtimeIdx t)
                else
                  cpp_assert (negb (i =? 0)%nat) ;;;
                  match transitions data !! (i - 1)%nat with
                  | Some t => localtime_at data (localtimeIdx t)
                  | None => undefined
                  end
            | None =>
                match last (transitions data) with
                | Some t => localtime_at data (localtimeIdx t)
                | None => undefined
                end
            end
        end
  end.

(** The C string in a text that ends with a null. *)
Fixpoint c_string (bs : list Z) : list Z :=
  match bs with [] => [] | b :: bs => if b =? 0 then [] else b :: c_string bs end.
(** [&data.abbreviation[i]] *)
Definition name_at (data : Data) (i : Z) : io (list Z) :=
  if i <=? zlen (abbreviation data) then act_ret (c_string (zdrop i (abbreviation data))) else undefined.

Definition toLocalTime (data_ : option Data) (seconds : Z) : io tm :=
  cpp_assert (bool_decide (is_Some data_)) ;;;
  match data_ with
  | None => undefined
  | Some data =>
      local <- findLocaltime data (MkTransition seconds 0 0) true ;;
      localSeconds <- time_t (seconds + gmtOffset local) ;;
      name <- name_at data (arrbIdx local) ;;
      let t := gmtime_r localSeconds zero_tm in
      act_ret (Tm (tm_sec t) (tm_min t) (tm_hour t) (tm_mday t) (tm_mon t) (tm_year t) (tm_wday t) (tm_yday t)
                 (isDst local) (gmtOffset local) name)
  end.

Definition fromLocalTime (data_ : option Data) (localTm : tm) : io Z :=
  cpp_assert (bool_decide (is_Some data_)) ;;;
  match data_ with
  | None => undefined
  | Some data =>
      let seconds := timegm localTm in
      local <- findLocaltime data (MkTransition 0 seconds 0) false ;;
      seconds <-
        (if tm_isdst localTm then
           utc <- time_t (seconds - gmtOffset local) ;;
           tryTm <- toLocalTime data_ utc ;;
           if negb (tm_isdst tryTm) && (tm_hour tryTm =? tm_hour localTm) && (tm_min tryTm =? tm_min localTm)
           then time_t (seconds - 3600)
           else act_ret seconds
         else act_ret seconds) ;;
      time_t (seconds - gmtOffset local)
  end.

(** ** Zone files *)

Record reader := Reader { input : list Z; data : Data }.
(** The exceptions are those derived from [logic_error], with their texts. *)
Definition rio (A : Type) : Type := act reader string A.

(** fread of [n] bytes; fewer are consumed as well. *)
Definition fread (n : Z) : rio (list Z) := λ s, (Val (ztake n (input s)), Reader (zdrop n (input s)) (data s)).
Definition readBytes (n : Z) : rio (list Z) :=
  if n <? 0 then undefined
  else
    buf <- fread n ;;
    if negb (zlen buf =? n) then throw "no enough data" else act_ret buf.
Definition readInt32 : rio Z :=
  x <- fread 4 ;;
  if negb (zlen x =? 4) then throw "bad int32_t data" else act_ret (i32 (bswap 4 (le_val x))).
Definition readUInt8 : rio Z :=
  x <- fread 1 ;;
  match x with [x] => act_ret x | _ => throw "bad uint8_t data" end.

Fixpoint times {A} (n : nat) (m : rio A) : rio (list A) :=
  match n with
  | O => act_ret []
  | S n => x <- m ;; l <- times n m ;; act_ret (x :: l)
  end.

Definition reserve (n : Z) : rio () := if n <? 0 then throw "vector::reserve" else act_ret ().

Definition push_localtime (l : Localtime) : rio () := modify (λ s,
  Reader (input s) (MkData (transitions (data s)) (localtimes (data s) ++ [l]) (abbreviation (data s)))).
Definition push_transition (t : Transition) : rio () := modify (λ s,
  Reader (input s) (MkData (transitions (data s) ++ [t]) (localtimes (data s)) (abbreviation (data s)))).
Definition set_abbreviation (a : list Z) : rio () := modify (λ s,
  Reader (input s) (MkData (transitions (data s)) (localtimes (data s)) a)).

Definition read_type : rio () :=
  gmtoff <- readInt32 ;;
  isdst <- readUInt8 ;;
  abbrind <- readUInt8 ;;
  push_localtime (MkLocaltime gmtoff (negb (isdst =? 0)) abbrind).

Definition make_transition (p : Z * Z) : rio () :=
  let '(trans, localIdx) := p in
  s <- get_state ;;
  match localtimes (data s) !! Z.to_nat localIdx with
  | Some l => push_transition (MkTransition trans (trans + gmtOffset l) localIdx)
  | None => undefined
  end.

Definition read_zone : rio () :=
  head <- readBytes 4 ;;
  (if decide (head = bytes_of "TZif") then act_ret () else throw "bad head") ;;;
  readBytes 1 ;;;
  readBytes 15 ;;;
  isgmtcnt <- readInt32 ;;
  isstdcnt <- readInt32 ;;
  leapcnt <- readInt32 ;;
  timecnt <- readInt32 ;;
  typecnt <- readInt32 ;;
  charcnt <- readInt32 ;;
  reserve timecnt ;;;
  trans <- times (Z.to_nat timecnt) readInt32 ;;
  locals <- times (Z.to_nat timecnt) readUInt8 ;;
  times (Z.to_nat typecnt) read_type ;;;
  act_mapM_ make_transition (zip trans locals) ;;;
  abbreviation <- readBytes charcnt ;;
  set_abbreviation abbreviation.

(** [None]: the file cannot be opened. *)
Definition readTimeZoneFile (zonefile : option (list Z)) (d : Data) : outcome Empty_set (bool * Data) :=
  match zonefile with
  | None => Val (true, d)
  | Some bytes =>
      match read_zone (Reader bytes d) with
      | (Val _, s) | (Exn _, s) => Val (true, data s)
      | (Abort, _) => Abort
      | (Ub, _) => Ub
      end
  end.

Definition from_file (zonefile : option (list Z)) : outcome Empty_set (option Data) :=
  match readTimeZoneFile zonefile no_data with
  | Val (ok, d) => Val (if ok : bool then Some d else None)
  | Exn e => Exn e
  | Abort => Abort
  | Ub => Ub
  end.
Definition fixed (eastOfUtc : Z) (name : list Z) : option Data := Some (MkData [] [MkLocaltime eastOfUtc false 0] name).

(** *** The format *)

Definition type_bytes (l : Localtime) : list Z := be_bytes 4 (gmtOffset l) ++ [if isDst l then 1 else 0; arrbIdx l].
Definition zone_bytes (d : Data) : list Z :=
  concat (be_bytes 4 ∘ gmttime <$> transitions d) ++ (localtimeIdx <$> transitions d) ++
  concat (type_bytes <$> localtimes d) ++ abbreviation d.
Definition zone_file (d : Data) (version : Z) (reserved : list Z) (isgmtcnt isstdcnt leapcnt : Z) (rest : list Z) : list Z :=
  bytes_of "TZif" ++ [version] ++ reserved ++ be_bytes 4 isgmtcnt ++ be_bytes 4 isstdcnt ++ be_bytes 4 leapcnt ++
  be_bytes 4 (zlen (transitions d)) ++ be_bytes 4 (zlen (localtimes d)) ++ be_bytes 4 (zlen (abbreviation d)) ++ zone_bytes d ++ rest.

(** What a zone file can hold. *)
Record storable (d : Data) : Prop := {
  st_trans : Forall (λ t, - 2 ^ 31 <= gmttime t < 2 ^ 31 ∧ is_byte (localtimeIdx t) ∧
    ∃ l, localtimes d !! Z.to_nat (localtimeIdx t) = Some l ∧ localtime t = gmttime t + gmtOffset l) (transitions d);
  st_types : Forall (λ l, - 2 ^ 31 <= gmtOffset l < 2 ^ 31 ∧ is_byte (arrbIdx l)) (localtimes d);
  st_text : zlen (abbreviation d) < 2 ^ 31 ∧ zlen (transitions d) < 2 ^ 31 ∧ zlen (localtimes d) < 2 ^ 31
}.

Lemma fread_app bs rest d : fread (zlen bs) (Reader (bs ++ rest) d) = (Val bs, Reader rest d).
Proof. unfold fread. cbn [input data]. by rewrite ztake_app, zdrop_app. Qed.

Lemma readBytes_app n bs rest d : n = zlen bs → readBytes n (Reader (bs ++ rest) d) = (Val bs, Reader rest d).
Proof.
  intros ->. unfold readBytes. rewrite (proj2 (Z.ltb_ge _ _)) by apply zlen_nonneg.
  rewrite (act_bind_val _ _ _ _ _ (fread_app _ _ _)). by rewrite Z.eqb_refl.
Qed.

Lemma readInt32_app x rest d : - 2 ^ 31 <= x < 2 ^ 31 → readInt32 (Reader (be_bytes 4 x ++ rest) d) = (Val x, Reader rest d).
Proof.
  intros Hx. unfold readInt32. change 4 with (zlen (be_bytes 4 x)) at 1. rewrite (act_bind_val _ _ _ _ _ (fread_app _ _ _)).
  rewrite zlen_be_bytes. cbn [negb Z.eqb]. change (Z.of_nat 4 =? 4) with true. cbn [negb].
  pose proof (bswap_val (be_bytes 4 x) (be_bytes_bytes 4 x)) as B. rewrite length_be_bytes in B. rewrite B.
  pose proof (be_round_trip 4 x ltac:(lia) Hx) as E. unfold be_int in E. rewrite zlen_be_bytes in E. change (8 * Z.of_nat 4) with 32 in E. by rewrite E.
Qed.

Lemma readUInt8_cons x rest d : readUInt8 (Reader (x :: rest) d) = (Val x, Reader rest d).
Proof. done. Qed.

Lemma times_int32 l : ∀ rest d, Forall (λ x, - 2 ^ 31 <= x < 2 ^ 31) l →
  times (List.length l) readInt32 (Reader (concat (be_bytes 4 <$> l) ++ rest) d) = (Val l, Reader rest d).
Proof.
  induction l as [|x l IH]; intros rest d Hl; [done|]. apply Forall_cons in Hl as [Hx Hl].
  cbn [times List.length]. rewrite fmap_cons. cbn [concat]. rewrite <-(assoc_L (++)).
  rewrite (act_bind_val _ _ _ _ _ (readInt32_app x _ d Hx)), (act_bind_val _ _ _ _ _ (IH rest d Hl)). done.
Qed.
Lemma times_uint8 l : ∀ rest d, times (List.length l) readUInt8 (Reader (l ++ rest) d) = (Val l, Reader rest d).
Proof.
  induction l as [|x l IH]; intros rest d; [done|]. cbn [times List.length app].
  rewrite (act_bind_val _ _ _ _ _ (readUInt8_cons x _ d)), (act_bind_val _ _ _ _ _ (IH rest d)). done.
Qed.

Lemma read_type_app l rest ts ls a : - 2 ^ 31 <= gmtOffset l < 2 ^ 31 →
  read_type (Reader (type_bytes l ++ rest) (MkData ts ls a)) = (Val (), Reader rest (MkData ts (ls ++ [l]) a)).
Proof.
  intros Hl. unfold read_type, type_bytes. rewrite <-(assoc_L (++)). rewrite (act_bind_val _ _ _ _ _ (readInt32_app _ _ _ Hl)).
  cbn [app]. rewrite (act_bind_val _ _ _ _ _ (readUInt8_cons _ _ _)), (act_bind_val _ _ _ _ _ (readUInt8_cons _ _ _)).
  unfold push_localtime, modify. cbn [input data transitions localtimes abbreviation]. do 4 f_equal. by destruct l as [? [] ?].
Qed.

Lemma times_types l : ∀ rest ts ls a, Forall (λ l, - 2 ^ 31 <= gmtOffset l < 2 ^ 31 ∧ is_byte (arrbIdx l)) l →
  ∃ r, times (List.length l) read_type (Reader (concat (type_bytes <$> l) ++ rest) (MkData ts ls a)) =
    (Val r, Reader rest (MkData ts (ls ++ l) a)).
Proof.
  induction l as [|x l IH]; intros rest ts ls a Hl; [exists []; by rewrite app_nil_r|]. apply Forall_cons in Hl as [[Hx _] Hl].
  cbn [times List.length]. rewrite fmap_cons. cbn [concat]. rewrite <-(assoc_L (++)).
  rewrite (act_bind_val _ _ _ _ _ (read_type_app x _ ts ls a Hx)). destruct (IH rest ts (ls ++ [x]) a Hl) as [r E].
  rewrite (act_bind_val _ _ _ _ _ E). eexists. by rewrite <-(assoc_L (++)).
Qed.

Lemma make_transitions l : ∀ rest ts ls a,
  Forall (λ t, ∃ x, ls !! Z.to_nat (localtimeIdx t) = Some x ∧ localtime t = gmttime t + gmtOffset x) l →
  act_mapM_ make_transition (zip (gmttime <$> l) (localtimeIdx <$> l)) (Reader rest (MkData ts ls a)) =
    (Val (), Reader rest (MkData (ts ++ l) ls a)).
Proof.
  induction l as [|t l IH]; intros rest ts ls a Hl; [by rewrite app_nil_r|]. apply Forall_cons in Hl as [(x & Ex & Et) Hl].
  rewrite !fmap_cons. cbn [zip zip_with act_mapM_]. unfold make_transition at 1. rewrite act_bind_assoc. act_step.
  cbn [data localtimes]. rewrite Ex, <-Et. unfold push_transition, modify. act_step.
  cbn [input data transitions localtimes abbreviation]. rewrite IH by done. rewrite <-(assoc_L (++)). by destruct t.
Qed.

End TimeZone.
