(* ===== verification/TimeZoneTheorems.v ===== *)
(** * TimeZone: files are read back, and local time is a round trip

    [local_of n]: the kind of local time after [n] transitions; [passed]: how many
    transitions are not later.  findLocaltime is their composition on a sorted zone. *)
From S2P Require Import Prelude NetBuffer Date TimeZone.
Import Endian TimeZone.

(** ** Zone files *)

Lemma read_zone_file d version reserved gmtcnt stdcnt leapcnt rest : storable d → zlen reserved = 15 →
  - 2 ^ 31 <= gmtcnt < 2 ^ 31 → - 2 ^ 31 <= stdcnt < 2 ^ 31 → - 2 ^ 31 <= leapcnt < 2 ^ 31 →
  read_zone (Reader (zone_file d version reserved gmtcnt stdcnt leapcnt rest) no_data) = (Val (), Reader rest d).
Proof.
  intros [Ht Hl (Ha & Hnt & Hnl)] Hr H1 H2 H3. unfold read_zone, zone_file.
  pose proof (zlen_nonneg (transitions d)). pose proof (zlen_nonneg (localtimes d)). pose proof (zlen_nonneg (abbreviation d)).
  rewrite (act_bind_val _ _ _ _ _ (readBytes_app 4 (bytes_of "TZif") _ _ eq_refl)). rewrite decide_True by done. act_step.
  rewrite (act_bind_val _ _ _ _ _ (readBytes_app 1 [version] _ _ eq_refl)).
  rewrite (act_bind_val _ _ _ _ _ (readBytes_app 15 reserved _ _ (eq_sym Hr))).
  rewrite (act_bind_val _ _ _ _ _ (readInt32_app _ _ _ H1)), (act_bind_val _ _ _ _ _ (readInt32_app _ _ _ H2)),
    (act_bind_val _ _ _ _ _ (readInt32_app _ _ _ H3)), (act_bind_val _ _ _ _ _ (readInt32_app (zlen (transitions d)) _ _ ltac:(lia))),
    (act_bind_val _ _ _ _ _ (readInt32_app (zlen (localtimes d)) _ _ ltac:(lia))),
    (act_bind_val _ _ _ _ _ (readInt32_app (zlen (abbreviation d)) _ _ ltac:(lia))).
  unfold reserve. rewrite (proj2 (Z.ltb_ge _ _)) by done. act_step.
  unfold zone_bytes. rewrite <-!(assoc_L (++)).
  assert (Hn : ∀ {A} (l : list A), Z.to_nat (zlen l) = List.length l) by (intros; unfold zlen; lia). rewrite !Hn.
  pose proof (times_int32 (gmttime <$> transitions d)) as T1. rewrite length_fmap in T1.
  rewrite list_fmap_compose. erewrite act_bind_val; [|apply T1].
  2: { apply Forall_fmap. eapply Forall_impl; [exact Ht|]. intros t (? & _). done. }
  pose proof (times_uint8 (localtimeIdx <$> transitions d)) as T2. rewrite length_fmap in T2. rewrite (act_bind_val _ _ _ _ _ (T2 _ _)).
  destruct (times_types (localtimes d) (abbreviation d ++ rest) [] [] [] Hl) as [r T3]. cbn [app] in T3.
  unfold no_data. rewrite (act_bind_val _ _ _ _ _ T3).
  rewrite (act_bind_val _ _ _ _ _ (make_transitions (transitions d) _ [] (localtimes d) [] ltac:(eapply Forall_impl; [exact Ht|]; by intros t (_ & _ & ?)))).
  rewrite (act_bind_val _ _ _ _ _ (readBytes_app _ (abbreviation d) _ _ eq_refl)). by destruct d.
Qed.

(** ** UTC *)

(** The years from -4712 to 980000. *)
Definition in_years (t : Z) : Prop := -210866803200 <= t <= 30893133196799.

Lemma days_range t : in_years t → 0 <= t / 86400 + 2440588 <= 360000000.
Proof. intros [H1 H2]. pose proof (Z.div_mod t 86400 ltac:(lia)). pose proof (Z.mod_pos_bound t 86400 ltac:(lia)). lia. Qed.

(** Division that truncates and division that rounds down. *)
Lemma quot_cases t : (t ÷ 86400 = t / 86400 ∧ Z.rem t 86400 = t mod 86400) ∨
  (t ÷ 86400 = t / 86400 + 1 ∧ Z.rem t 86400 = t mod 86400 - 86400).
Proof. Z.to_euclidean_division_equations; lia. Qed.

Definition year_start (x : YearMonthDay) : YearMonthDay := Ymd (year x) 1 1.
Lemma year_start_valid x : Calendar.valid (year_start x) = true.
Proof. done. Qed.

Lemma valid_bounds x : Calendar.valid x = true → 1 <= month x <= 12 ∧ 1 <= day x <= 31.
Proof.
  unfold Calendar.valid. rewrite !andb_true_iff, !Z.leb_le. intros [[[? ?] ?] ?]. pose proof (Calendar.days_bounds (year x) (month x)). lia.
Qed.

(** Everything about the day of a time. *)
Record the_day (t : Z) (x : YearMonthDay) : Prop := {
  td_valid : Calendar.valid x = true;
  td_year : -4800 < year x <= 1000000;
  td_jdn : Calendar.jdn x = t / 86400 + 2440588;
  td_code : Date.getYearMonthDay (t / 86400 + 2440588) = Some x;
  td_back : Date.getJulianDayNumber (year x) (month x) (day x) = Some (t / 86400 + 2440588);
  td_start : Date.getJulianDayNumber (year x) 1 1 = Some (Calendar.jdn (year_start x)) ∧ - 2 ^ 29 <= Calendar.jdn (year_start x) <= 2 ^ 29
}.
Lemma the_day_ok t : in_years t → the_day t (days_of t).
Proof.
  intros Ht. pose proof (days_range t Ht) as Hd. unfold days_of, kSecondsPerDay, kJulianDayOf1970_01_01. change (24 * 60 * 60) with 86400.
  set (j := t / 86400 + 2440588) in *. destruct (Calendar.every_number j) as [Hv Hj].
  pose proof (Calendar.ymd_year j ltac:(lia)) as Hy. destruct (Calendar.code_jdn (Calendar.ymd j) Hv ltac:(lia)) as [Hc _].
  destruct (Calendar.code_jdn (year_start (Calendar.ymd j)) (year_start_valid _) ltac:(cbn [year year_start]; lia)) as [Hs Hb].
  split; [done..|apply Calendar.code_ymd; lia|by rewrite Hc, Hj|split; [done|lia]].
Qed.

Definition with_yday (yday : bool) (t : tm) : tm :=
  Tm (tm_sec t) (tm_min t) (tm_hour t) (tm_mday t) (tm_mon t) (tm_year t) (tm_wday t) (if yday then tm_yday t else 0)
     (tm_isdst t) (tm_gmtoff t) (tm_zone t).

(** toUtcTime is gmtime. *)
Lemma toUtcTime_gmtime t yday : in_years t → toUtcTime t yday = Some (with_yday yday (gmtime t)).
Proof.
  intros Ht. pose proof (days_range t Ht) as Hd. destruct (the_day_ok t Ht) as [Hv Hy Hj Hc Hb [Hs Hs']].
  pose proof (Z.mod_pos_bound t 86400 ltac:(lia)) as Hm.
  destruct (valid_bounds _ Hv) as [Hmo Hda].
  unfold toUtcTime, gmtime, kSecondsPerDay, kJulianDayOf1970_01_01. change (24 * 60 * 60) with 86400. set (x := days_of t) in *.
  set (j := t / 86400) in *. set (r := t mod 86400) in *.
  assert (E : (if i32 (Z.rem t 86400) <? 0 then (i32 (Z.rem t 86400) + 86400, i32 (t ÷ 86400) - 1)
      else (i32 (Z.rem t 86400), i32 (t ÷ 86400))) = (r, j)).
  { destruct (quot_cases t) as [[-> ->]|[-> ->]]; fold j r; clearbody r j;
      rewrite !swrap_small by (try lia; change (2 ^ (32 - 1)) with 2147483648; lia).
    - by rewrite (proj2 (Z.ltb_ge _ _)) by lia.
    - rewrite (proj2 (Z.ltb_lt _ _)) by lia. f_equal; lia. }
  rewrite E. cbv iota beta. rewrite Calendar.ints_ok_true by (repeat constructor; lia).
  rewrite Hc. cbn [mbind option_bind]. rewrite Hs. cbn [mbind option_bind].
  rewrite Calendar.ints_ok_true by (repeat constructor; lia).
  unfold with_yday, fillHMS, zero_tm. cbn [tm_sec tm_min tm_hour tm_mday tm_mon tm_year tm_wday tm_yday tm_isdst tm_gmtoff tm_zone].
  do 2 f_equal.
  - by rewrite Z.div_div by lia.
  - unfold Date.weekDay. rewrite Z.rem_mod_nonneg by lia. replace (j + 2440588 + 1) with (j + 4 + 348655 * 7) by lia. apply Z_mod_plus_full.
  - by rewrite <-Hj.
Qed.

(** fromUtcTime goes back. *)
Lemma fromUtcTime_back t yday : in_years t → fromUtcTime (with_yday yday (gmtime t)) = Some t.
Proof.
  intros Ht. pose proof (days_range t Ht) as Hd. destruct (the_day_ok t Ht) as [Hv Hy Hj Hc Hb [Hs Hs']].
  destruct (valid_bounds _ Hv) as [Hmo Hda]. pose proof (Z.mod_pos_bound t 86400 ltac:(lia)) as Hm. pose proof (Z.div_mod t 86400 ltac:(lia)) as Et.
  unfold fromUtcTime, with_yday, gmtime, kSecondsPerDay. change (24 * 60 * 60) with 86400.
  cbn [tm_sec tm_min tm_hour tm_mday tm_mon tm_year]. set (x := days_of t) in *.
  rewrite Calendar.ints_ok_true by (repeat constructor; lia). rewrite !Z.sub_add. unfold fromUtcTime_fields. rewrite Hb. cbn [mbind option_bind].
  unfold kJulianDayOf1970_01_01, kSecondsPerDay. change (24 * 60 * 60) with 86400. set (r := t mod 86400) in *.
  assert (Hr : r / 3600 * 3600 + r / 60 mod 60 * 60 + r mod 60 = r ∧ 0 <= r / 3600 <= 24 ∧ 0 <= r / 60 mod 60 < 60 ∧ 0 <= r mod 60 < 60).
  { clearbody r. Z.to_euclidean_division_equations; lia. }
  rewrite Calendar.ints_ok_true by (repeat constructor; lia). f_equal. lia.
Qed.

(** timegm is the inverse of gmtime. *)
Lemma timegm_gmtime t : timegm (gmtime t) = t.
Proof.
  unfold timegm, gmtime, days_of, kSecondsPerDay, kJulianDayOf1970_01_01. change (24 * 60 * 60) with 86400.
  cbn [tm_sec tm_min tm_hour tm_mday tm_mon tm_year]. set (j := t / 86400 + 2440588).
  destruct (Calendar.every_number j) as [Hv Hj]. destruct (valid_bounds _ Hv) as [Hmo Hda]. set (x := Calendar.ymd j) in *.
  rewrite Z.div_small, Z.mod_small by lia. replace (year x - 1900 + 1900 + 0) with (year x) by lia. rewrite Z.sub_add.
  assert (Hd : Calendar.jdn (Ymd (year x) (month x) 1) = j + 1 - day x).
  { rewrite <-Hj. unfold Calendar.jdn. cbn [year month day]. lia. }
  rewrite Hd. pose proof (Z.mod_pos_bound t 86400 ltac:(lia)) as Hm. pose proof (Z.div_mod t 86400 ltac:(lia)) as Et.
  set (r := t mod 86400) in *.
  assert (Hr : r / 3600 * 3600 + r / 60 mod 60 * 60 + r mod 60 = r) by (clearbody r; Z.to_euclidean_division_equations; lia). lia.
Qed.

(** ** Local time *)

Section Local.
Context (d : Data).
Abbreviation ts := (transitions d).

(** The kind of local time after [n] transitions. *)
Definition local_of (n : nat) : option Localtime :=
  match n with
  | O => localtimes d !! O
  | S k => t ← ts !! k; localtimes d !! Z.to_nat (localtimeIdx t)
  end.

(** A zone with its transitions in order, an hour apart at least; the clock is
    only put back at the end of daylight saving time, by an hour. *)
Record regular : Prop := {
  rg_front : is_Some (localtimes d !! O);
  rg_trans k t : ts !! k = Some t → ∃ l, localtimes d !! Z.to_nat (localtimeIdx t) = Some l ∧ localtime t = gmttime t + gmtOffset l;
  rg_locals i l : localtimes d !! i = Some l → arrbIdx l <= zlen (abbreviation d) ∧ - 2 ^ 31 <= gmtOffset l < 2 ^ 31;
  rg_spaced k t t' : ts !! k = Some t → ts !! S k = Some t' → gmttime t + 3600 <= gmttime t' ∧ localtime t + 3600 <= localtime t';
  rg_back k l l' : local_of k = Some l → local_of (S k) = Some l' →
    gmtOffset l <= gmtOffset l' ∨ (isDst l = true ∧ isDst l' = false ∧ gmtOffset l = gmtOffset l' + 3600)
}.

Definition sorted_by (b : bool) (l : list Transition) : Prop :=
  ∀ i j ti tj, (i < j)%nat → l !! i = Some ti → l !! j = Some tj → key b ti < key b tj.

(** [n] transitions of the list are not later than [s]. *)
Definition passed (b : bool) (s : Z) (n : nat) : Prop :=
  (n <= List.length ts)%nat ∧ ∀ k t, ts !! k = Some t → (k < n)%nat ↔ key b t <= s.

Lemma passed_unique b s n m : passed b s n → passed b s m → n = m.
Proof.
  assert (H : ∀ n m, passed b s n → passed b s m → ¬ (n < m)%nat).
  { clear n m. intros n m [_ Hn] [Hm Hm'] Hlt. destruct (lookup_lt_is_Some_2 ts n ltac:(lia)) as [t Et].
    pose proof (proj1 (Hm' n t Et) Hlt) as Hk. apply (Hn n t Et) in Hk. lia. }
  intros Hn Hm. pose proof (H n m Hn Hm). pose proof (H m n Hm Hn). lia.
Qed.

Lemma lower_bound_sorted b s l : sorted_by b l → ∃ i, lower_bound (λ t, key b t <? s) l = Some i ∧ (i <= List.length l)%nat ∧
  ∀ k t, l !! k = Some t → (k < i)%nat ↔ key b t < s.
Proof.
  induction l as [|t l IH]; intros Hs; [exists O; split_and!; [done|done|by intros [|] ?]|].
  cbn [lower_bound]. destruct (key b t <? s) eqn:E; [apply Z.ltb_lt in E|apply Z.ltb_ge in E].
  - destruct IH as (i & -> & Hi & Hk). { intros i j ti tj Hij Ei Ej. by apply (Hs (S i) (S j)); [lia|..]. }
    exists (S i). split; [done|]. split; [cbn; lia|]. intros [|k] x Ex; cbn in Ex; [simplify_eq; split; [done|lia]|].
    rewrite <-(Hk k x Ex). lia.
  - assert (Hrest : ∀ k x, l !! k = Some x → s <= key b x).
    { intros k x Ex. pose proof (Hs O (S k) t x ltac:(lia) eq_refl Ex). lia. }
    rewrite (proj2 (forallb_forall _ _)).
    + exists O. split; [done|]. split; [lia|]. intros [|k] x Ex; cbn in Ex; [simplify_eq; lia|]. pose proof (Hrest k x Ex). lia.
    + intros x Hx. apply list_elem_of_In, list_elem_of_lookup in Hx as [k Ex]. pose proof (Hrest k x Ex).
      by rewrite (proj2 (Z.ltb_ge _ _)).
Qed.

Lemma local_of_some n : regular → (n <= List.length ts)%nat → is_Some (local_of n).
Proof.
  intros Hr Hn. destruct n as [|k]; [apply rg_front, Hr|]. cbn [local_of]. destruct (lookup_lt_is_Some_2 ts k ltac:(lia)) as [t Et].
  rewrite Et. destruct (rg_trans Hr k t Et) as (l & El & _). by exists l.
Qed.

Lemma localtime_at_some i l : localtimes d !! Z.to_nat i = Some l → localtime_at d i () = (Val l, ()).
Proof. intros E. unfold localtime_at. by rewrite E. Qed.

(** In order, it is enough to look at the neighbours. *)
Lemma passed_here b s n : sorted_by b ts → (n <= List.length ts)%nat →
  (∀ k t, n = S k → ts !! k = Some t → key b t <= s) → (∀ t, ts !! n = Some t → s < key b t) → passed b s n.
Proof.
  intros Hs Hn Hlo Hhi. split; [done|]. intros k t Et. split.
  - intros Hk. destruct n as [|n]; [lia|]. destruct (lookup_lt_is_Some_2 ts n ltac:(lia)) as [t' Et']. pose proof (Hlo n t' eq_refl Et').
    destruct (decide (k = n)) as [->|]; [by simplify_eq|]. pose proof (Hs k n t t' ltac:(lia) Et Et'). lia.
  - intros Hk. destruct (decide (k < n)%nat) as [|Hge]; [done|]. exfalso. destruct (decide (k = n)) as [->|]; [specialize (Hhi t Et); lia|].
    destruct (lookup_lt_is_Some_2 ts n) as [t' Et']; [apply lookup_lt_Some in Et; lia|].
    specialize (Hhi t' Et'). pose proof (Hs n k t' t ltac:(lia) Et' Et). lia.
Qed.

Lemma local_at_transition k t : regular → ts !! k = Some t → ∃ l, local_of (S k) = Some l ∧ localtime_at d (localtimeIdx t) () = (Val l, ()).
Proof.
  intros Hr Et. destruct (rg_trans Hr k t Et) as (l & El & _). exists l. cbn [local_of]. rewrite Et. split; [done|by apply localtime_at_some].
Qed.

Lemma findLocaltime_spec sentry b : regular → sorted_by b ts →
  ∃ n l, passed b (key b sentry) n ∧ local_of n = Some l ∧ findLocaltime d sentry b () = (Val l, ()).
Proof.
  intros Hr Hs. set (s := key b sentry). destruct (rg_front Hr) as [l0 El0]. unfold findLocaltime, comp, equal. fold s.
  destruct ts as [|front rest] eqn:Ets.
  { exists O, l0. rewrite (localtime_at_some 0 l0 El0). rewrite <-Ets in Hs. split_and!; [|done..].
    apply passed_here; [done|lia|done|]. intros t. by rewrite Ets. }
  rewrite <-Ets in *. assert (E0 : ts !! O = Some front) by by rewrite Ets. destruct (s <? key b front) eqn:Ec; [apply Z.ltb_lt in Ec|apply Z.ltb_ge in Ec].
  { exists O, l0. rewrite (localtime_at_some 0 l0 El0). split_and!; [|done..]. apply passed_here; [done|lia|done|]. intros t Et. by simplify_eq. }
  destruct (lower_bound_sorted b s ts Hs) as (i & Ei & Hi & Hk). rewrite Ei.
  destruct (ts !! i) as [t|] eqn:Et.
  - assert (Hge : s <= key b t) by (destruct (decide (key b t < s)) as [Hlt|]; [apply (Hk i t Et) in Hlt; lia|lia]).
    destruct (s =? key b t) eqn:Ee; [apply Z.eqb_eq in Ee|apply Z.eqb_neq in Ee].
    + destruct (local_at_transition i t Hr Et) as (l & El & ->). exists (S i), l. split_and!; [|done..].
      apply passed_here; [done|apply lookup_lt_Some in Et; lia|intros k x [= <-] Ex; simplify_eq; lia|].
      intros x Ex. pose proof (Hs i (S i) t x ltac:(lia) Et Ex). lia.
    + destruct i as [|i]; [simplify_eq; lia|]. cbn [Nat.eqb negb]. act_step. replace (S i - 1)%nat with i by lia.
      destruct (lookup_lt_is_Some_2 ts i) as [t' Et']; [apply lookup_lt_Some in Et; lia|]. rewrite Et'.
      destruct (local_at_transition i t' Hr Et') as (l & El & ->). exists (S i), l. split_and!; [|done..].
      apply passed_here; [done|lia| |intros x Ex; simplify_eq; lia]. intros k x [= <-] Ex. pose proof (proj1 (Hk i x Ex) ltac:(lia)). lia.
  - assert (Hlen : i = List.length ts) by (apply lookup_ge_None in Et; lia). rewrite last_lookup.
    assert (Hpos : (0 < List.length ts)%nat) by (rewrite Ets; cbn; lia). set (j := pred (List.length ts)) in *.
    destruct (lookup_lt_is_Some_2 ts j) as [t' Et']; [lia|]. rewrite Et'.
    destruct (local_at_transition j t' Hr Et') as (l & El & ->). exists (S j), l. split_and!; [|done..].
    apply passed_here; [done|lia| |intros x Ex; apply lookup_lt_Some in Ex; lia]. intros k x [= <-] Ex. pose proof (proj1 (Hk j x Ex) ltac:(lia)). lia.
Qed.

Lemma regular_sorted b : regular → sorted_by b ts.
Proof.
  intros Hr i j. revert i. induction j as [|j IH]; intros i ti tj Hij Ei Ej; [lia|].
  destruct (lookup_lt_is_Some_2 ts j) as [t Et]; [apply lookup_lt_Some in Ej; lia|].
  assert (Hlt : key b t < key b tj) by (destruct (rg_spaced Hr j t tj Et Ej); unfold key; destruct b; lia).
  destruct (decide (i = j)) as [->|]; [by simplify_eq|]. pose proof (IH i ti t ltac:(lia) Ei Et). lia.
Qed.

(** What toLocalTime returns. *)
Definition local_tm (l : Localtime) (s : Z) : tm :=
  let t := gmtime s in
  Tm (tm_sec t) (tm_min t) (tm_hour t) (tm_mday t) (tm_mon t) (tm_year t) (tm_wday t) (tm_yday t)
     (isDst l) (gmtOffset l) (c_string (zdrop (arrbIdx l) (abbreviation d))).

(** The years of UTC, up to an offset. *)
Definition in_local_years (t : Z) : Prop := -208719319552 <= t <= 30890985709551.

Lemma local_of_fields n l : regular → local_of n = Some l → arrbIdx l <= zlen (abbreviation d) ∧ - 2 ^ 31 <= gmtOffset l < 2 ^ 31.
Proof.
  intros Hr. destruct n as [|k]; cbn [local_of]; [apply (rg_locals Hr)|].
  destruct (ts !! k) as [t|]; [apply (rg_locals Hr)|done].
Qed.

Lemma time_t_ok x : - 2 ^ 62 <= x < 2 ^ 62 → time_t x () = (Val x, ()).
Proof. intros Hx. unfold time_t. rewrite decide_True; [done|]. change (2 ^ 63) with (2 * 2 ^ 62). lia. Qed.

Lemma timegm_local l s : timegm (local_tm l s) = s.
Proof.
  rewrite <-(timegm_gmtime s) at 2. unfold timegm, local_tm. cbv zeta. generalize (gmtime s). intros g.
  by cbn [tm_sec tm_min tm_hour tm_mday tm_mon tm_year].
Qed.

Lemma toLocalTime_place t n l : regular → -208719319552 <= t <= 30890985713151 → passed true t n → local_of n = Some l →
  toLocalTime (Some d) t () = (Val (local_tm l (t + gmtOffset l)), ()).
Proof.
  intros Hr [Ht1 Ht2] Hp Hl. destruct (local_of_fields n l Hr Hl) as [Ha Ho].
  destruct (findLocaltime_spec (MkTransition t 0 0) true Hr (regular_sorted true Hr)) as (n' & l' & Hp' & Hl' & E).
  rewrite (passed_unique _ _ _ _ Hp' Hp) in Hl'. simplify_eq. unfold toLocalTime. act_step. rewrite (act_bind_val _ _ _ _ _ E).
  rewrite (act_bind_val _ _ _ _ _ (time_t_ok (t + gmtOffset l) ltac:(lia))). unfold name_at. rewrite (proj2 (Z.leb_le _ _)) by done. act_step.
  cbv zeta. assert (Hy : in_years (t + gmtOffset l)) by (unfold in_years; lia).
  unfold gmtime_r. rewrite decide_True; [done|]. pose proof (td_year _ _ (the_day_ok _ Hy)). lia.
Qed.

(** The transitions that local time has passed are those that UTC has passed,
    or one more when the clock is put back. *)
Lemma local_place t n l m : regular → passed true t n → local_of n = Some l → passed false (t + gmtOffset l) m →
  m = n ∨ (m = S n ∧ ∃ l', local_of (S n) = Some l' ∧ isDst l = true ∧ isDst l' = false ∧
           gmtOffset l = gmtOffset l' + 3600 ∧ passed true (t + 3600) (S n)).
Proof.
  intros Hr Hp Hl Hm. pose proof Hp as [Hn Hpn]. pose proof Hm as [Hml Hpm].
  assert (Hge : (n <= m)%nat).
  { destruct n as [|k]; [lia|]. destruct (lookup_lt_is_Some_2 ts k ltac:(lia)) as [t' Et']. destruct (rg_trans Hr k t' Et') as (l' & El' & Eg).
    cbn [local_of] in Hl. rewrite Et' in Hl. cbn in Hl. simplify_eq. pose proof (proj1 (Hpn k t' Et') ltac:(lia)) as Hk. cbn [key] in Hk.
    apply (Hpm k t' Et'). cbn [key]. lia. }
  destruct (decide (m = n)) as [|Hne]; [by left|right].
  destruct (lookup_lt_is_Some_2 ts n ltac:(lia)) as [t' Et']. destruct (rg_trans Hr n t' Et') as (l' & El' & Eg).
  assert (Hl' : local_of (S n) = Some l') by (cbn [local_of]; by rewrite Et').
  pose proof (proj1 (Hpm n t' Et') ltac:(lia)) as Hloc. cbn [key] in Hloc.
  assert (Hgmt : t < gmttime t') by (destruct (decide (gmttime t' <= t)) as [Hx|]; [apply (Hpn n t' Et') in Hx; lia|lia]).
  destruct (rg_back Hr n l l' Hl Hl') as [Ho|(Hd & Hd' & Ho)]; [lia|].
  assert (Hnext : ∀ x, ts !! S n = Some x → gmttime t' + 3600 <= gmttime x ∧ localtime t' + 3600 <= localtime x) by (intros x; by apply (rg_spaced Hr n t' x)).
  split.
  - destruct (decide (m = S n)) as [|]; [done|]. exfalso. destruct (lookup_lt_is_Some_2 ts (S n) ltac:(lia)) as [x Ex].
    pose proof (proj1 (Hpm (S n) x Ex) ltac:(lia)) as Hx. cbn [key] in Hx. pose proof (Hnext x Ex). lia.
  - exists l'. split_and!; [done..|]. apply passed_here; [by apply regular_sorted|apply lookup_lt_Some in Et'; lia| |].
    + intros k x [= <-] Ex. simplify_eq. cbn [key]. lia.
    + intros x Ex. pose proof (Hnext x Ex). cbn [key]. lia.
Qed.

Lemma local_round_trip t : regular → in_local_years t →
  ∃ n l, passed true t n ∧ local_of n = Some l ∧ toLocalTime (Some d) t () = (Val (local_tm l (t + gmtOffset l)), ()) ∧
    fromLocalTime (Some d) (local_tm l (t + gmtOffset l)) () = (Val t, ()).
Proof.
  intros Hr Ht. destruct (findLocaltime_spec (MkTransition t 0 0) true Hr (regular_sorted true Hr)) as (n & l & Hp & Hl & _).
  pose proof (toLocalTime_place t n l Hr ltac:(unfold in_local_years in Ht; lia) Hp Hl) as E. exists n, l. split_and!; [done..|].
  destruct (local_of_fields n l Hr Hl) as [_ Ho]. destruct Ht as [Ht1 Ht2]. set (s := t + gmtOffset l) in *.
  unfold fromLocalTime. act_step. rewrite timegm_local. cbv zeta.
  destruct (findLocaltime_spec (MkTransition 0 s 0) false Hr (regular_sorted false Hr)) as (m & lm & Hm & Hlm & Em).
  rewrite (act_bind_val _ _ _ _ _ Em). cbn [key localtime] in Hm. cbn [local_tm tm_isdst].
  destruct (local_place t n l m Hr Hp Hl Hm) as [->|(-> & l' & Hl' & Hd & Hd' & Ho' & Hp')].
  - simplify_eq. assert (Es : s - gmtOffset l = t) by (unfold s; lia). destruct (isDst l) eqn:Ed.
    + rewrite act_bind_assoc, (act_bind_val _ _ _ _ _ (time_t_ok (s - gmtOffset l) ltac:(lia))). rewrite Es, act_bind_assoc, (act_bind_val _ _ _ _ _ E).
      cbn [local_tm tm_isdst]. rewrite Ed. cbn [negb andb]. act_step. rewrite Es. apply time_t_ok. lia.
    + act_step. rewrite Es. apply time_t_ok. lia.
  - simplify_eq. assert (Es : s - gmtOffset lm = t + 3600) by (unfold s; lia). rewrite Hd.
    rewrite act_bind_assoc, (act_bind_val _ _ _ _ _ (time_t_ok (s - gmtOffset lm) ltac:(lia))). rewrite Es.
    pose proof (toLocalTime_place (t + 3600) (S n) lm Hr) as E'. rewrite act_bind_assoc. erewrite act_bind_val; [|apply E'; [lia|done..]].
    cbn [local_tm tm_isdst]. rewrite Hd'. replace (t + 3600 + gmtOffset lm) with s by (unfold s; lia). rewrite !Z.eqb_refl. cbn [negb andb].
    rewrite (act_bind_val _ _ _ _ _ (time_t_ok (s - 3600) ltac:(lia))). replace (s - 3600 - gmtOffset lm) with t by (unfold s; lia). apply time_t_ok. lia.
Qed.

End Local.

(** C37: Times survive the conversions of TimeZone.  For every time of the years -4712 to 980000, toUtcTime gives the fields
    of the calendar without an overflow of int, and fromUtcTime gives the time back.  For the times that are 2^31 seconds
    away from the ends of these years, in a zone whose transitions are an
    hour apart and whose clock is only put back by the hour at the end of daylight saving time, toLocalTime shows the
    calendar at the offset that is in force after the transitions passed so far, and fromLocalTime gives the time back, in
    the hour that local time repeats as well, which the flag tm_isdst tells apart. *)
Theorem time_zone_round_trip (d : Data) (t : Z) (yday : bool) : in_years t →
  toUtcTime t yday = Some (with_yday yday (gmtime t)) ∧
  fromUtcTime (with_yday yday (gmtime t)) = Some t ∧
  (regular d → in_local_years t →
   ∃ n l, passed d true t n ∧ local_of d n = Some l ∧
    toLocalTime (Some d) t () = (Val (local_tm d l (t + gmtOffset l)), ()) ∧
    fromLocalTime (Some d) (local_tm d l (t + gmtOffset l)) () = (Val t, ())).
Proof.
  intros Hy. split; [by apply toUtcTime_gmtime|]. split; [by apply fromUtcTime_back|].
  intros Hr Ht. by apply local_round_trip.
Qed.

Definition summer_zone : Data :=
  MkData [MkTransition 1000000 1007200 1; MkTransition 2000000 2003600 0] [MkLocaltime 3600 false 0; MkLocaltime 7200 true 4]
    (bytes_of "CET" ++ [0] ++ bytes_of "CEST" ++ [0]).
Lemma summer_regular : regular summer_zone.
Proof.
  split.
  - by eexists.
  - intros [|[|k]] t [= <-]; by eexists.
  - intros [|[|i]] l [= <-]; by split.
  - intros [|[|k]] t t' [= <-] [= <-]. by split.
  - intros [|[|[|k]]] l l' [= <-]; cbn; (intros [= <-] || done); [left; done|right; done].
Qed.

(** The first of the two times that the clock shows 5:16:40. *)
Lemma time_zone_round_trip_witness : ∃ x, toLocalTime (Some summer_zone) 1999000 () = (Val x, ()) ∧ tm_isdst x = true ∧ tm_hour x = 5 ∧
  fromLocalTime (Some summer_zone) x () = (Val 1999000, ()).
Proof.
  destruct (time_zone_round_trip summer_zone 1999000 true ltac:(done)) as (_ & _ & Hloc).
  destruct (Hloc summer_regular ltac:(done)) as (n & l & Hp & Hl & E1 & E2). clear Hloc.
  exists (local_tm summer_zone l (1999000 + gmtOffset l)).
  assert (Hn : n = 1%nat) by (apply (passed_unique summer_zone true 1999000); [done|split; [cbn; lia|intros [|[|k]] t [= <-]; cbn; lia]]).
  subst n. injection Hl as <-. split; [exact E1|]. split; [done|]. split; [by vm_compute|exact E2].
Defined.

(** C38: A zone file is read back: from a file in the format of tzfile(5), version 1 (header, counts, transition times, their
    kinds, the kinds of local time, the abbreviations, and whatever follows), TimeZone reads exactly the zone that was
    written.  A file with another head gives a zone without data, which still counts as valid, as does a file that cannot
    be opened. *)
Theorem zone_file_read_back (d : Data) (version : Z) (reserved : list Z) (gmtcnt stdcnt leapcnt : Z) (rest : list Z) :
  storable d → zlen reserved = 15 →
  - 2 ^ 31 <= gmtcnt < 2 ^ 31 → - 2 ^ 31 <= stdcnt < 2 ^ 31 → - 2 ^ 31 <= leapcnt < 2 ^ 31 →
  from_file (Some (zone_file d version reserved gmtcnt stdcnt leapcnt rest)) = Val (Some d) ∧
  (∀ head tail, zlen head = 4 → head ≠ bytes_of "TZif" → from_file (Some (head ++ tail)) = Val (Some no_data)) ∧
  from_file None = Val (Some no_data).
Proof.
  intros Hd Hr H1 H2 H3. split_and!; [|intros head tail Hh Hne|done].
  - unfold from_file, readTimeZoneFile. by rewrite (read_zone_file d version reserved gmtcnt stdcnt leapcnt rest Hd Hr H1 H2 H3).
  - unfold from_file, readTimeZoneFile, read_zone. rewrite (act_bind_val _ _ _ _ _ (readBytes_app 4 head tail no_data (eq_sym Hh))).
    by rewrite decide_False.
Qed.

Lemma zone_file_read_back_witness : ∃ bs, from_file (Some bs) = Val (Some summer_zone) ∧ ztake 4 bs = bytes_of "TZif".
Proof.
  exists (zone_file summer_zone 0 (repeat 0 15) 0 0 0 [10]). split; [|by vm_compute].
  apply zone_file_read_back; [|done..]. split; [|repeat constructor; done|done].
  repeat constructor; try done; by eexists.
Defined.

(** A zone without data counts as valid, and its first use reads the front of an
    empty vector. *)
Lemma unreadable_zone_is_used t : from_file None = Val (Some no_data) ∧ toLocalTime (Some no_data) t () = (Ub, ()).
Proof. done. Qed.
