(* ===== verification/LogFile.v ===== *)
(** * LogFile.cc, FileUtil.cc (muduo/base): rolling log files

    A log file is a stream of stdio over a file of the disk: what fwrite accepts
    is in the buffer of the stream or on the disk.  How much each fwrite accepts
    and how much of the buffer it moves to the disk, and the readings of the
    clock, are arguments.  Files can be opened. *)
From S2P Require Import Prelude Printf NetBuffer Date TimeZone TimeZoneTheorems.
Import TimeZone.

Module LogFile.

(** An open stream, in append mode. *)
Record AppendFile := Stream { fp_name : list Z; fp_buffer : list Z; writtenBytes_ : Z }.

(** What fwrite accepts, and what it moves to the disk. *)
Record fwrite_result := Fwrite { accepts : Z; moves : Z }.

Record LogFile := Log {
  basename_ : list Z; rollSize_ : Z; flushInterval_ : Z; checkEveryN_ : Z;
  count_ : Z; startOfPeriod_ : Z; lastRoll_ : Z; lastFlush_ : Z;
  file_ : option AppendFile;
  disk : gmap (list Z) (list Z)
}.
Definition io (A : Type) : Type := act LogFile Empty_set A.

Definition kRollPerSeconds_ : Z := 60 * 60 * 24.

(** The period (day) of a time. *)
Definition period_of (t : Z) : Z := t ÷ kRollPerSeconds_ * kRollPerSeconds_.

Definition set_file (f : option AppendFile) (d : gmap (list Z) (list Z)) (l : LogFile) : LogFile :=
  Log (basename_ l) (rollSize_ l) (flushInterval_ l) (checkEveryN_ l) (count_ l) (startOfPeriod_ l) (lastRoll_ l) (lastFlush_ l) f d.
Definition set_times (start roll flush : Z) (l : LogFile) : LogFile :=
  Log (basename_ l) (rollSize_ l) (flushInterval_ l) (checkEveryN_ l) (count_ l) start roll flush (file_ l) (disk l).
Definition set_count (n : Z) (l : LogFile) : LogFile :=
  Log (basename_ l) (rollSize_ l) (flushInterval_ l) (checkEveryN_ l) n (startOfPeriod_ l) (lastRoll_ l) (lastFlush_ l) (file_ l) (disk l).

(** [file_->], which may be null. *)
Definition file : io AppendFile := l <- get_state ;; match file_ l with Some f => act_ret f | None => undefined end.

Definition on_disk (name : list Z) (d : gmap (list Z) (list Z)) : list Z := default [] (d !! name).
Definition append_disk (name bs : list Z) (d : gmap (list Z) (list Z)) : gmap (list Z) (list Z) := <[name := on_disk name d ++ bs]> d.

(** ** AppendFile *)

(** fopen, fclose and fflush of libc. *)
Definition fopen (name : list Z) : io AppendFile :=
  modify (λ l, set_file (file_ l) (append_disk name [] (disk l)) l) ;;;
  act_ret (Stream name [] 0).
Definition fclose (f : AppendFile) : io () := modify (λ l, set_file (file_ l) (append_disk (fp_name f) (fp_buffer f) (disk l)) l).
Definition flush_file : io () :=
  f <- file ;;
  modify (λ l, set_file (Some (Stream (fp_name f) [] (writtenBytes_ f))) (append_disk (fp_name f) (fp_buffer f) (disk l)) l).

Definition write (r : fwrite_result) (logline : list Z) : io Z :=
  f <- file ;;
  let n := Z.max 0 (Z.min (accepts r) (zlen logline)) in
  let buffer := fp_buffer f ++ ztake n logline in
  modify (λ l, set_file (Some (Stream (fp_name f) (zdrop (moves r) buffer) (writtenBytes_ f)))
                        (append_disk (fp_name f) (ztake (moves r) buffer) (disk l)) l) ;;;
  act_ret n.

(** The results after the last one: everything is accepted. *)
Definition next (rs : list fwrite_result) (logline : list Z) : fwrite_result := default (Fwrite (zlen logline) 0) (head rs).

Fixpoint write_rest (fuel : nat) (rs : list fwrite_result) (logline : list Z) : io () :=
  match fuel with
  | O => undefined
  | S fuel =>
      when 0 <? zlen logline do
        (x <- write (next rs logline) logline ;;
         if x =? 0 then act_ret () else write_rest fuel (tail rs) (zdrop x logline))
  end.

Definition append_file (rs : list fwrite_result) (logline : list Z) : io () :=
  n <- write (next rs logline) logline ;;
  write_rest (S (Z.to_nat (zlen logline))) (tail rs) (zdrop n logline) ;;;
  f <- file ;;
  modify (λ l, set_file (Some (Stream (fp_name f) (fp_buffer f) (writtenBytes_ f + zlen logline))) (disk l) l).

(** ** Names *)

(** Two digits of strftime. *)
Definition two (n : Z) : list Z := [48 + n / 10; 48 + n mod 10].
(** strftime with ".%Y%m%d-%H%M%S." *)
Definition timebuf (t : tm) : list Z :=
  bytes_of "." ++ printf_d (tm_year t + 1900) ++ two (tm_mon t + 1) ++ two (tm_mday t) ++ bytes_of "-" ++
  two (tm_hour t) ++ two (tm_min t) ++ two (tm_sec t) ++ bytes_of ".".

Section Process.
Context (hostname : list Z) (pid : Z).

Definition getLogFileName (basename : list Z) (now : Z) : list Z :=
  basename ++ timebuf (gmtime_r now zero_tm) ++ hostname ++ snprintf 32 (bytes_of "." ++ printf_d pid) ++ bytes_of ".log".

(** ** LogFile *)

Definition rollFile (now : Z) : io bool :=
  l <- get_state ;;
  let filename := getLogFileName (basename_ l) now in
  let start := now ÷ kRollPerSeconds_ * kRollPerSeconds_ in
  if lastRoll_ l <? now then
    modify (set_times start now now) ;;;
    f <- fopen filename ;;
    (match file_ l with Some old => fclose old | None => act_ret () end) ;;;
    modify (λ l, set_file (Some f) (disk l) l) ;;;
    act_ret true
  else act_ret false.

(** [now]: the reading of the clock in the check; [now']: the one in rollFile. *)
Definition append_unlocked (rs : list fwrite_result) (logline : list Z) (now now' : Z) : io () :=
  append_file rs logline ;;;
  f <- file ;;
  l <- get_state ;;
  if rollSize_ l <? writtenBytes_ f then rollFile now' ;;; act_ret ()
  else
    modify (set_count (count_ l + 1)) ;;;
    when checkEveryN_ l <=? count_ l + 1 do
      (modify (set_count 0) ;;;
       let thisPeriod_ := now ÷ kRollPerSeconds_ * kRollPerSeconds_ in
       if negb (thisPeriod_ =? startOfPeriod_ l) then rollFile now' ;;; act_ret ()
       else
         when flushInterval_ l <? now - lastFlush_ l do
           (modify (λ l, set_times (startOfPeriod_ l) (lastRoll_ l) now l) ;;; flush_file)).

(** The constructor, over the files that there are. *)
Definition construct (basename : list Z) (rollSize flushInterval checkEveryN now : Z) (files : gmap (list Z) (list Z))
    : outcome Empty_set () * LogFile :=
  (cpp_assert (negb (bool_decide (47 ∈ basename))) ;;; rollFile now ;;; act_ret ())
    (Log basename rollSize flushInterval checkEveryN 0 0 0 0 None files).

(** The calls of the threads, one at a time under the mutex. *)
Inductive call :=
| Append (rs : list fwrite_result) (logline : list Z) (now now' : Z)
| Flush.
Definition perform (c : call) : io () :=
  match c with
  | Append rs logline now now' => append_unlocked rs logline now now'
  | Flush => flush_file
  end.
Definition run (cs : list call) : io () := act_mapM_ perform cs.

End Process.

(** ** Names are different at different times *)

(** The years 1970 to 9999. *)
Definition in_log_years (t : Z) : Prop := 0 < t <= 253402300799.

Lemma log_years_in t : in_log_years t → in_years t.
Proof. unfold in_log_years, in_years. lia. Qed.

Lemma two_inj n m : 0 <= n < 100 → 0 <= m < 100 → two n = two m → n = m.
Proof.
  unfold two. intros Hn Hm [= H1 H2]. assert (E1 : n / 10 = m / 10) by lia. assert (E2 : n mod 10 = m mod 10) by lia.
  rewrite (Z.div_mod n 10), (Z.div_mod m 10) by lia. congruence.
Qed.

Lemma year_positive j : 2440588 <= j <= 360000000 → 0 <= year (Calendar.ymd j) <= 1000000.
Proof.
  intros Hj. split; [|apply Calendar.ymd_year; lia]. unfold Calendar.ymd. cbn [year]. set (a := j + 32044). assert (Ha : 2472632 <= a) by lia. clearbody a.
  set (b := (4 * a + 3) / 146097). assert (Hb : 67 <= b /\ b * 146097 <= 4 * a + 3) by (unfold b; Z.to_euclidean_division_equations; lia). clearbody b.
  set (c := a - b * 146097 / 4). assert (Hc : 0 <= c) by (unfold c; Z.to_euclidean_division_equations; lia). clearbody c.
  set (dd := (4 * c + 3) / 1461). assert (Hd : 0 <= dd /\ 1461 * dd <= 4 * c + 3) by (unfold dd; Z.to_euclidean_division_equations; lia). clearbody dd.
  set (e := c - 1461 * dd / 4). assert (He : 0 <= e) by (unfold e; Z.to_euclidean_division_equations; lia). clearbody e.
  assert (0 <= (5 * e + 2) / 153 / 10) by (Z.to_euclidean_division_equations; lia). lia.
Qed.

Lemma gmtime_fields t : in_log_years t → 0 <= tm_year (gmtime t) + 1900 < 10 ^ 20 ∧ 0 <= tm_mon (gmtime t) + 1 < 100 ∧
  0 <= tm_mday (gmtime t) < 100 ∧ 0 <= tm_hour (gmtime t) < 100 ∧ 0 <= tm_min (gmtime t) < 100 ∧ 0 <= tm_sec (gmtime t) < 100.
Proof.
  intros Ht. destruct (the_day_ok t (log_years_in t Ht)) as [Hv _ _ _ _ _]. destruct (valid_bounds _ Hv) as [Hm Hd].
  assert (Hy : 0 <= year (days_of t) <= 1000000).
  { apply year_positive. unfold in_log_years, kSecondsPerDay, kJulianDayOf1970_01_01 in *. change (24 * 60 * 60) with 86400.
    pose proof (Z.div_mod t 86400 ltac:(lia)). pose proof (Z.mod_pos_bound t 86400 ltac:(lia)). lia. }
  unfold gmtime, kSecondsPerDay. change (24 * 60 * 60) with 86400. cbn [tm_sec tm_min tm_hour tm_mday tm_mon tm_year].
  pose proof (Z.mod_pos_bound t 86400 ltac:(lia)). set (r := t mod 86400) in *. clearbody r. change (10 ^ 20) with 100000000000000000000.
  split; [lia|]. split; [lia|]. split; [lia|]. Z.to_euclidean_division_equations; lia.
Qed.

Lemma timebuf_inj x y : timebuf x = timebuf y →
  0 <= tm_year x + 1900 < 10 ^ 20 → 0 <= tm_mon x + 1 < 100 → 0 <= tm_mday x < 100 → 0 <= tm_hour x < 100 → 0 <= tm_min x < 100 → 0 <= tm_sec x < 100 →
  0 <= tm_year y + 1900 < 10 ^ 20 → 0 <= tm_mon y + 1 < 100 → 0 <= tm_mday y < 100 → 0 <= tm_hour y < 100 → 0 <= tm_min y < 100 → 0 <= tm_sec y < 100 →
  timegm x = timegm y.
Proof.
  unfold timebuf. intros E; intros. apply app_inj_1 in E as [_ E]; [|done].
  assert (Hl : List.length (printf_d (tm_year x + 1900)) = List.length (printf_d (tm_year y + 1900))).
  { apply (f_equal (@List.length Z)) in E. rewrite !length_app in E. cbn [List.length two] in E. lia. }
  apply app_inj_1 in E as [Ey%printf_d_inj E]; [|done..]. apply app_inj_1 in E as [Emo%two_inj E]; [|done..].
  apply app_inj_1 in E as [Ed%two_inj E]; [|done..]. apply app_inj_1 in E as [_ E]; [|done].
  apply app_inj_1 in E as [Eh%two_inj E]; [|done..]. apply app_inj_1 in E as [Emi%two_inj E]; [|done..]. apply app_inj_1 in E as [Es%two_inj _]; [|done..].
  unfold timegm. rewrite Eh, Emi, Es, Ed. replace (tm_mon x) with (tm_mon y) by lia. by replace (tm_year x) with (tm_year y) by lia.
Qed.

Section Facts.
Context (hostname : list Z) (pid : Z).
Abbreviation name := (getLogFileName hostname pid).

Lemma name_inj base t t' : in_log_years t → in_log_years t' → name base t = name base t' → t = t'.
Proof.
  intros Ht Ht' E. unfold getLogFileName in E. apply app_inv_head in E.
  assert (Hg : ∀ t, in_log_years t → gmtime_r t zero_tm = gmtime t).
  { intros u Hu. unfold gmtime_r. rewrite decide_True; [done|]. pose proof (td_year _ _ (the_day_ok u (log_years_in u Hu))). lia. }
  rewrite !Hg in E by done. apply app_inv_tail in E.
  destruct (gmtime_fields t Ht) as (?&?&?&?&?&?). destruct (gmtime_fields t' Ht') as (?&?&?&?&?&?).
  apply timebuf_inj in E; [|done..]. by rewrite !timegm_gmtime in E.
Qed.

(** ** Streams *)

(** [bs] has been written to the stream, which counts [k] more bytes. *)
Definition wrote (k : Z) (bs : list Z) (l l' : LogFile) : Prop :=
  ∃ f f' d, file_ l = Some f ∧ l' = set_file (Some f') d l ∧ fp_name f' = fp_name f ∧ writtenBytes_ f' = writtenBytes_ f + k ∧
    on_disk (fp_name f) d ++ fp_buffer f' = on_disk (fp_name f) (disk l) ++ fp_buffer f ++ bs ∧
    ∀ n, n ≠ fp_name f → d !! n = disk l !! n.

Lemma wrote_nil l f : file_ l = Some f → wrote 0 [] l l.
Proof. intros E. exists f, f, (disk l). rewrite app_nil_r, Z.add_0_r. split_and!; try done. destruct l; cbn in *. by subst. Qed.

Lemma wrote_trans k1 k2 a b l l1 l2 : wrote k1 a l l1 → wrote k2 b l1 l2 → wrote (k1 + k2) (a ++ b) l l2.
Proof.
  intros (f & f1 & d1 & E & -> & N1 & W1 & C1 & O1) (g & f2 & d2 & [= <-] & -> & N2 & W2 & C2 & O2).
  cbn [set_file disk] in *. exists f, f2, d2. split_and!; [done|done|congruence|lia| |].
  - rewrite N1 in C2. rewrite C2, !(assoc_L (++)), <-(assoc_L (++) _ (fp_buffer f)). rewrite !(assoc_L (++)) in C1. by rewrite C1, !(assoc_L (++)).
  - intros n Hn. rewrite O2 by congruence. by apply O1.
Qed.

Lemma wrote_file k bs l l' : wrote k bs l l' → ∃ f, file_ l' = Some f.
Proof. intros (f & f' & d & _ & -> & _). by exists f'. Qed.

Lemma file_get l f : file_ l = Some f → file l = (Val f, l).
Proof. intros E. unfold file. act_step. by rewrite E. Qed.

Lemma append_disk_other n name bs d : n ≠ name → append_disk name bs d !! n = d !! n.
Proof. intros. by apply lookup_insert_ne. Qed.
Lemma on_append_disk name bs d : on_disk name (append_disk name bs d) = on_disk name d ++ bs.
Proof. unfold on_disk at 1, append_disk. by rewrite lookup_insert_eq. Qed.

Lemma write_ok r line l f : file_ l = Some f →
  ∃ l', write r line l = (Val (Z.max 0 (Z.min (accepts r) (zlen line))), l') ∧ wrote 0 (ztake (Z.max 0 (Z.min (accepts r) (zlen line))) line) l l'.
Proof.
  intros E. unfold write. rewrite (act_bind_val _ _ _ _ _ (file_get _ _ E)). cbv zeta. eexists. split; [reflexivity|].
  eexists f, _, _. cbn [fp_name fp_buffer writtenBytes_]. split_and!; [done|done|done|cbn; lia| |].
  - rewrite on_append_disk, <-(assoc_L (++)). f_equal. apply ztake_zdrop.
  - intros n Hn. by apply append_disk_other.
Qed.

Definition progress (rs : list fwrite_result) : Prop := Forall (λ r, 0 < accepts r) rs.

Lemma next_accepts rs line : progress rs → 0 < zlen line → 0 < accepts (next rs line) ∧ progress (tail rs).
Proof. intros Hr Hl. destruct rs as [|r rs]; [by split|]. by apply Forall_cons in Hr. Qed.

Lemma write_rest_ok fuel : ∀ rs line l f, progress rs → file_ l = Some f → zlen line < Z.of_nat fuel →
  ∃ l', write_rest fuel rs line l = (Val (), l') ∧ wrote 0 line l l'.
Proof.
  induction fuel as [|fuel IH]; intros rs line l f Hr E Hf; [pose proof (zlen_nonneg line); lia|]. cbn [write_rest].
  destruct (0 <? zlen line) eqn:El; [apply Z.ltb_lt in El|apply Z.ltb_ge in El].
  2: { assert (line = []) as -> by (destruct line as [|b line]; [done|]; rewrite zlen_cons in El; pose proof (zlen_nonneg line); lia).
       exists l. split; [done|by eapply wrote_nil]. }
  destruct (next_accepts rs line Hr El) as [Ha Ht]. destruct (write_ok (next rs line) line l f E) as (l1 & E1 & W1).
  set (n := Z.max 0 (Z.min (accepts (next rs line)) (zlen line))) in *. assert (Hn : 0 < n <= zlen line) by lia. clearbody n.
  rewrite (act_bind_val _ _ _ _ _ E1). rewrite (proj2 (Z.eqb_neq _ _)) by lia. destruct (wrote_file _ _ _ _ W1) as [f1 E1'].
  destruct (IH (tail rs) (zdrop n line) l1 f1 Ht E1') as (l2 & E2 & W2); [rewrite zlen_zdrop; lia|].
  exists l2. split; [done|]. pose proof (wrote_trans _ _ _ _ _ _ _ W1 W2) as W. by rewrite ztake_zdrop in W.
Qed.

(** A line is written whole when every fwrite makes progress. *)
Lemma append_file_ok rs line l f : progress rs → file_ l = Some f →
  ∃ l', append_file rs line l = (Val (), l') ∧ wrote (zlen line) line l l'.
Proof.
  intros Hr E. unfold append_file. destruct (write_ok (next rs line) line l f E) as (l1 & E1 & W1).
  set (n := Z.max 0 (Z.min (accepts (next rs line)) (zlen line))) in *. pose proof (zlen_nonneg line). assert (Hn : 0 <= n <= zlen line) by lia. clearbody n.
  rewrite (act_bind_val _ _ _ _ _ E1). destruct (wrote_file _ _ _ _ W1) as [f1 E1'].
  assert (Ht : progress (tail rs)) by (destruct rs; [done|by apply Forall_cons in Hr as [_ ?]]).
  destruct (write_rest_ok (S (Z.to_nat (zlen line))) (tail rs) (zdrop n line) l1 f1 Ht E1') as (l2 & E2 & W2); [rewrite zlen_zdrop; lia|].
  rewrite (act_bind_val _ _ _ _ _ E2). destruct (wrote_file _ _ _ _ W2) as [f2 E2']. rewrite (act_bind_val _ _ _ _ _ (file_get _ _ E2')).
  unfold modify. eexists. split; [reflexivity|]. pose proof (wrote_trans _ _ _ _ _ _ _ W1 W2) as W. rewrite ztake_zdrop in W.
  replace (zlen line) with (0 + 0 + zlen line) by lia. rewrite <-(app_nil_r line) at 2. apply (wrote_trans _ _ _ _ _ _ _ W).
  exists f2. eexists _, _. split_and!; [done|done|done|done|by rewrite app_nil_r|done].
Qed.

(** ** The invariant of a history *)

Section History.
Context (base : list Z) (rollSize flushInterval checkEveryN : Z) (files : gmap (list Z) (list Z)).
Context (fresh_names : ∀ t, in_log_years t → files !! name base t = None).
Implicit Types (lines : list Z) (parts : list (Z * list Z)).

(** [parts]: the finished files by the time of their creation; [cur]: what the
    current one holds, on the disk or in its stream. *)
Record log_inv lines parts (cur : list Z) (l : LogFile) : Prop := {
  li_fields : basename_ l = base ∧ rollSize_ l = rollSize ∧ flushInterval_ l = flushInterval ∧ checkEveryN_ l = checkEveryN ∧
    startOfPeriod_ l = period_of (lastRoll_ l);
  li_file : ∃ f, file_ l = Some f ∧ fp_name f = name base (lastRoll_ l) ∧ writtenBytes_ f = zlen cur ∧
    on_disk (fp_name f) (disk l) ++ fp_buffer f = cur;
  li_text : concat parts.*2 ++ cur = lines;
  li_times : Forall in_log_years (parts.*1 ++ [lastRoll_ l]) ∧ StronglySorted Z.lt (parts.*1 ++ [lastRoll_ l]);
  li_parts t c : (t, c) ∈ parts → disk l !! name base t = Some c;
  li_others n : (∀ t, t ∈ parts.*1 ++ [lastRoll_ l] → n ≠ name base t) → disk l !! n = files !! n
}.

Lemma inv_current lines parts cur l : log_inv lines parts cur l → in_log_years (lastRoll_ l) ∧ ∀ t, t ∈ parts.*1 → in_log_years t ∧ t < lastRoll_ l.
Proof.
  intros [_ _ _ [Ht Hs] _ _]. apply Forall_app in Ht as [Hp Hl]. rewrite Forall_singleton in Hl. split; [done|].
  intros t Hin. split; [by rewrite Forall_forall in Hp; apply Hp|]. apply StronglySorted_app in Hs as (Hs & _ & _). by apply Hs; [|left].
Qed.

Lemma wrote_inv lines parts cur l bs l' : log_inv lines parts cur l → wrote (zlen bs) bs l l' → log_inv (lines ++ bs) parts (cur ++ bs) l'.
Proof.
  intros Hi (f & f' & d & E & -> & Hn & Hw & Hc & Ho). destruct (inv_current _ _ _ _ Hi) as [Hl Hp].
  destruct Hi as [Hf (g & Eg & Ng & Wg & Cg) Htx Hts Hpa Hot]. simplify_eq.
  split; cbn [set_file basename_ rollSize_ flushInterval_ checkEveryN_ startOfPeriod_ lastRoll_ file_ disk]; [done| | |done| |].
  - exists f'. split; [done|]. split; [congruence|]. split; [by rewrite zlen_app, Hw, Wg|]. by rewrite Hn, Hc, (assoc_L (++)).
  - by rewrite (assoc_L (++)).
  - intros t c Hin. rewrite Ho; [by apply Hpa|]. assert (Hin' : t ∈ parts.*1) by (by apply (list_elem_of_fmap_2' _ _ _ _ Hin)).
    destruct (Hp t Hin') as [Hy Hlt]. rewrite Ng. intros En. apply name_inj in En; [lia|done..].
  - intros n Hne. rewrite Ho; [by apply Hot|]. rewrite Ng. apply Hne. apply elem_of_app. right. by left.
Qed.

(** rollFile: a new file, when the clock has gone on. *)
Lemma rollFile_ok lines parts cur l now : log_inv lines parts cur l → in_log_years now →
  ∃ b l', rollFile hostname pid now l = (Val b, l') ∧
    (if lastRoll_ l <? now then log_inv lines (parts ++ [(lastRoll_ l, cur)]) [] l' ∧ lastRoll_ l' = now ∧ count_ l' = count_ l ∧ lastFlush_ l' = now
     else l' = l).
Proof.
  intros Hi Hnow. destruct (inv_current _ _ _ _ Hi) as [Hl Hp]. unfold rollFile. act_step. destruct (lastRoll_ l <? now) eqn:En;
    [apply Z.ltb_lt in En|by eexists _, _].
  destruct Hi as [Hf (f & Ef & Nf & Wf & Cf) Htx [Ht Hs] Hpa Hot]. destruct Hf as (Hb & Hr & Hfl & Hc & _).
  unfold fopen, fclose, modify. do 2 act_step. rewrite Ef. do 2 act_step. eexists _, _. split; [reflexivity|].
  cbn [set_file set_times basename_ rollSize_ flushInterval_ checkEveryN_ lastRoll_ file_ disk count_ lastFlush_]. split; [|done].
  assert (Hne : ∀ t, t ∈ parts.*1 ++ [lastRoll_ l] → name base now ≠ name base t).
  { intros t Hin E. apply name_inj in E; [|done|].
    - subst t. apply elem_of_app in Hin as [Hin|Hin%list_elem_of_singleton]; [destruct (Hp _ Hin); lia|lia].
    - apply elem_of_app in Hin as [Hin|Hin%list_elem_of_singleton]; [by apply Hp|by subst]. }
  rewrite Hb, Nf in *. assert (Hnew : disk l !! name base now = None) by (rewrite Hot by done; by apply fresh_names).
  assert (Hne' : name base (lastRoll_ l) ≠ name base now) by (intros E; symmetry in E; revert E; apply Hne; apply elem_of_app; right; by left).
  split; cbn [set_file set_times basename_ rollSize_ flushInterval_ checkEveryN_ startOfPeriod_ lastRoll_ file_ disk].
  - done.
  - eexists. split; [reflexivity|]. cbn [fp_name fp_buffer writtenBytes_]. split; [done|]. split; [done|].
    unfold on_disk at 1. rewrite append_disk_other by done. unfold append_disk. rewrite lookup_insert_eq. unfold on_disk. by rewrite Hnew.
  - rewrite fmap_app, concat_app. cbn [fmap list_fmap concat]. by rewrite !app_nil_r.
  - rewrite fmap_app. cbn [fmap list_fmap fst]. split.
    + apply Forall_app. split; [done|]. by apply Forall_singleton.
    + apply StronglySorted_app. split_and!; [|done|by repeat constructor].
      intros x y Hx ->%list_elem_of_singleton. apply elem_of_app in Hx as [Hx|Hx%list_elem_of_singleton]; [destruct (Hp _ Hx); lia|lia].
  - intros t c [Hin|[= -> ->]%list_elem_of_singleton]%elem_of_app.
    + assert (Hin' : t ∈ parts.*1) by (by apply (list_elem_of_fmap_2' _ _ _ _ Hin)). destruct (Hp t Hin') as [Hy Hlt].
      rewrite append_disk_other by (intros E; apply name_inj in E; [lia|done..]). rewrite append_disk_other; [by apply Hpa|].
      intros E. symmetry in E. revert E. apply Hne. apply elem_of_app. by left.
    + unfold append_disk at 1. rewrite lookup_insert_eq. unfold on_disk at 1. rewrite append_disk_other by done.
      unfold on_disk in Cf. by rewrite Cf.
  - rewrite fmap_app. cbn [fmap list_fmap fst]. intros n Hn. rewrite !append_disk_other; [apply Hot|..].
    + intros t Hin. apply Hn. apply elem_of_app. by left.
    + apply Hn. apply elem_of_app. right. by left.
    + apply Hn. apply elem_of_app. left. apply elem_of_app. right. by left.
Qed.

Lemma inv_same lines parts cur l l' : log_inv lines parts cur l →
  basename_ l' = basename_ l → rollSize_ l' = rollSize_ l → flushInterval_ l' = flushInterval_ l → checkEveryN_ l' = checkEveryN_ l →
  startOfPeriod_ l' = startOfPeriod_ l → lastRoll_ l' = lastRoll_ l → file_ l' = file_ l → disk l' = disk l → log_inv lines parts cur l'.
Proof. intros [[? [? [? [? ?]]]] ? ? ? ? ?] E1 E2 E3 E4 E5 E6 E7 E8. split; rewrite ?E1, ?E2, ?E3, ?E4, ?E5, ?E6, ?E7, ?E8; done. Qed.

Definition flushed (l : LogFile) : Prop := ∃ f, file_ l = Some f ∧ fp_buffer f = [].

Lemma flush_ok lines parts cur l : log_inv lines parts cur l → ∃ l', flush_file l = (Val (), l') ∧ log_inv lines parts cur l' ∧ flushed l' ∧
  lastRoll_ l' = lastRoll_ l ∧ lastFlush_ l' = lastFlush_ l ∧ count_ l' = count_ l.
Proof.
  intros Hi. destruct (li_file _ _ _ _ Hi) as (f & Ef & _ & _ & Cf). unfold flush_file. rewrite (act_bind_val _ _ _ _ _ (file_get _ _ Ef)).
  eexists. split; [reflexivity|]. split; [|split; [by eexists|done]]. rewrite <-(app_nil_r lines), <-(app_nil_r cur). eapply wrote_inv; [exact Hi|].
  eexists f, _, _. split; [done|]. split; [reflexivity|]. cbn [fp_name fp_buffer writtenBytes_]. split; [done|]. split; [by rewrite Z.add_0_r|].
  split; [by rewrite on_append_disk, !app_nil_r|]. intros n Hn. by apply append_disk_other.
Qed.

(** What the next line does: it makes the file too large, or it is the line at
    which the period and the flush are checked; then the file is changed or
    flushed, and the lines are counted up to the next check. *)
Definition too_large (cur line : list Z) : Prop := rollSize < zlen cur + zlen line.
Definition checks (cur line : list Z) (l : LogFile) : Prop := zlen cur + zlen line <= rollSize ∧ checkEveryN <= count_ l + 1.
Definition rolls (cur line : list Z) (l : LogFile) (now now' : Z) : Prop :=
  (too_large cur line ∨ checks cur line l ∧ period_of now ≠ period_of (lastRoll_ l)) ∧ lastRoll_ l < now'.
Definition flushes (cur line : list Z) (l : LogFile) (now : Z) : Prop :=
  checks cur line l ∧ period_of now = period_of (lastRoll_ l) ∧ flushInterval < now - lastFlush_ l.
Definition count_after (cur line : list Z) (l : LogFile) : Z :=
  if rollSize <? zlen cur + zlen line then count_ l else if checkEveryN <=? count_ l + 1 then 0 else count_ l + 1.

(** The outcome of an append for the history. *)
Record appended parts (cur line : list Z) (l : LogFile) (now now' : Z) parts' (cur' : list Z) (l' : LogFile) : Prop := {
  ap_rolls : rolls cur line l now now' → cur' = [] ∧ parts' = parts ++ [(lastRoll_ l, cur ++ line)] ∧ lastRoll_ l' = now' ∧ lastFlush_ l' = now';
  ap_stays : ¬ rolls cur line l now now' → cur' = cur ++ line ∧ parts' = parts ∧ lastRoll_ l' = lastRoll_ l;
  ap_flushes : flushes cur line l now → flushed l' ∧ lastFlush_ l' = now;
  ap_idle : ¬ rolls cur line l now now' → ¬ flushes cur line l now → lastFlush_ l' = lastFlush_ l;
  ap_count : count_ l' = count_after cur line l
}.

(** rollFile at the end of append_unlocked. *)
Lemma roll_appended lines parts cur line l l2 now now' : log_inv lines parts (cur ++ line) l2 → in_log_years now' →
  lastRoll_ l2 = lastRoll_ l → lastFlush_ l2 = lastFlush_ l → count_ l2 = count_after cur line l →
  (too_large cur line ∨ checks cur line l ∧ period_of now ≠ period_of (lastRoll_ l)) →
  ∃ l' parts' cur', (rollFile hostname pid now' ;;; act_ret ()) l2 = (Val (), l') ∧ log_inv lines parts' cur' l' ∧
    appended parts cur line l now now' parts' cur' l'.
Proof.
  intros H2 Hnow E2 F2 C2 Hx. destruct (rollFile_ok _ _ _ l2 now' H2 Hnow) as (b & l3 & E3 & H3). rewrite (act_bind_val _ _ _ _ _ E3).
  assert (Hnf : ¬ flushes cur line l now) by (unfold flushes, too_large, checks in *; intros (? & ? & _); lia).
  rewrite E2 in H3. destruct (lastRoll_ l <? now') eqn:Elt; [apply Z.ltb_lt in Elt|apply Z.ltb_ge in Elt].
  - destruct H3 as (H3 & R3 & C3 & F3). eexists l3, _, []. split; [done|]. split; [done|]. split; [done| |done| |by rewrite C3]; intros []; by split.
  - subst l3. exists l2, parts, (cur ++ line). split; [done|]. split; [done|].
    assert (Hnr : ¬ rolls cur line l now now') by (intros [_ ?]; lia). by split.
Qed.

Lemma log_append_ok lines parts cur l rs line now now' : log_inv lines parts cur l → progress rs → in_log_years now' →
  ∃ l' parts' cur', append_unlocked hostname pid rs line now now' l = (Val (), l') ∧ log_inv (lines ++ line) parts' cur' l' ∧
    appended parts cur line l now now' parts' cur' l'.
Proof.
  intros Hi Hr Hnow. destruct (li_file _ _ _ _ Hi) as (f & Ef & _). destruct (append_file_ok rs line l f Hr Ef) as (l1 & E1 & W1).
  pose proof (wrote_inv _ _ _ _ _ _ Hi W1) as H1. destruct W1 as (_ & f1 & d1 & _ & -> & _). set (l1 := set_file (Some f1) d1 l) in *.
  unfold append_unlocked. rewrite (act_bind_val _ _ _ _ _ E1). destruct (li_file _ _ _ _ H1) as (g & Eg & _ & Wg & _).
  rewrite (act_bind_val _ _ _ _ _ (file_get _ _ Eg)). act_step. destruct (li_fields _ _ _ _ H1) as (_ & Es & Efl & Ec & Ep).
  rewrite Es, Efl, Ec, Ep, Wg, zlen_app. change (lastRoll_ l1) with (lastRoll_ l). change (lastFlush_ l1) with (lastFlush_ l). change (count_ l1) with (count_ l).
  destruct (rollSize <? zlen cur + zlen line) eqn:Er; pose proof Er as Er'; [apply Z.ltb_lt in Er|apply Z.ltb_ge in Er].
  { eapply roll_appended; [exact H1|done..| |by left]. unfold count_after. by rewrite Er'. }
  unfold modify at 1. act_step. set (l2 := set_count (count_ l + 1) l1).
  assert (H2 : log_inv (lines ++ line) parts (cur ++ line) l2) by (by eapply inv_same; [exact H1|..]).
  destruct (checkEveryN <=? count_ l + 1) eqn:En; pose proof En as En'; [apply Z.leb_le in En|apply Z.leb_gt in En].
  2: { assert (¬ checks cur line l) by (intros [_ ?]; lia). exists l2, parts, (cur ++ line). split; [done|]. split; [done|].
       split; [intros [[?|[? _]] _]|done|intros [? _]|done|unfold count_after; by rewrite Er', En']; [unfold too_large in *; lia|done..]. }
  unfold modify at 1. act_step. set (l3 := set_count 0 l2). cbv zeta. fold (period_of now).
  assert (H3 : log_inv (lines ++ line) parts (cur ++ line) l3) by (by eapply inv_same; [exact H2|..]).
  assert (C3 : count_ l3 = count_after cur line l) by (unfold count_after; by rewrite Er', En').
  destruct (period_of now =? period_of (lastRoll_ l)) eqn:Ep'; [apply Z.eqb_eq in Ep'|apply Z.eqb_neq in Ep']; cbn [negb].
  2: { eapply roll_appended; [exact H3|done..|]. by right. }
  assert (Hnr : ¬ rolls cur line l now now') by (unfold rolls, too_large; intros [[?|[_ ?]] _]; [lia|done]).
  destruct (flushInterval <? now - lastFlush_ l) eqn:Ef'; [apply Z.ltb_lt in Ef'|apply Z.ltb_ge in Ef'].
  2: { exists l3, parts, (cur ++ line). split; [done|]. split; [done|]. split; try done. intros (_ & _ & ?). lia. }
  unfold modify at 1. act_step. set (l4 := set_times _ _ _ l3).
  assert (H4 : log_inv (lines ++ line) parts (cur ++ line) l4) by (by eapply inv_same; [exact H3|..]).
  destruct (flush_ok _ _ _ _ H4) as (l5 & E5 & H5 & F5 & R5 & G5 & C5). exists l5, parts, (cur ++ line). split; [done|]. split; [done|].
  split; [by intros ?%Hnr|by rewrite R5|by rewrite G5|intros _ []; by split|by rewrite C5].
Qed.

Definition call_ok (c : call) : Prop := match c with Append rs _ _ now' => progress rs ∧ in_log_years now' | Flush => True end.
Definition text (c : call) : list Z := match c with Append _ line _ _ => line | Flush => [] end.

Lemma run_keeps cs : ∀ lines parts cur l, log_inv lines parts cur l → Forall call_ok cs →
  ∃ l' parts' cur', run hostname pid cs l = (Val (), l') ∧ log_inv (lines ++ concat (text <$> cs)) parts' cur' l'.
Proof.
  induction cs as [|c cs IH]; intros lines parts cur l Hi Hc; [exists l, parts, cur; by rewrite app_nil_r|].
  apply Forall_cons in Hc as [Hc Hcs]. unfold run. cbn [act_mapM_]. rewrite fmap_cons. cbn [concat].
  assert (Hstep : ∃ l1 parts1 cur1, perform hostname pid c l = (Val (), l1) ∧ log_inv (lines ++ text c) parts1 cur1 l1).
  { destruct c as [rs line now now'|]; cbn [perform text call_ok] in *.
    - destruct Hc as [Hr Hn]. destruct (log_append_ok _ _ _ _ rs line now now' Hi Hr Hn) as (l1 & p1 & c1 & E & H & _). by exists l1, p1, c1.
    - destruct (flush_ok _ _ _ _ Hi) as (l1 & E & H & _). exists l1, parts, cur. by rewrite app_nil_r. }
  destruct Hstep as (l1 & p1 & c1 & E1 & H1). rewrite (act_bind_val _ _ _ _ _ E1). rewrite (assoc_L (++)). by eapply IH.
Qed.

Lemma log_construct_ok now : 47 ∉ base → in_log_years now →
  ∃ l, construct hostname pid base rollSize flushInterval checkEveryN now files = (Val (), l) ∧ log_inv [] [] [] l ∧ lastRoll_ l = now.
Proof.
  intros Hb Hn. unfold construct. rewrite bool_decide_false by done. act_step. unfold rollFile. rewrite act_bind_assoc. act_step.
  cbn [lastRoll_ basename_ file_]. rewrite (proj2 (Z.ltb_lt _ _)) by (unfold in_log_years in Hn; lia).
  unfold fopen, modify. eexists. split; [reflexivity|]. cbn [set_file set_times disk file_ lastRoll_]. split; [|done].
  split; cbn [set_file set_times basename_ rollSize_ flushInterval_ checkEveryN_ startOfPeriod_ lastRoll_ file_ disk].
  - done.
  - eexists. split; [reflexivity|]. cbn [fp_name fp_buffer writtenBytes_]. split_and!; [done|done|]. rewrite on_append_disk. unfold on_disk.
    by rewrite fresh_names.
  - done.
  - cbn [fmap list_fmap app]. split; [by apply Forall_singleton|by repeat constructor].
  - intros t c H. by apply elem_of_nil in H.
  - intros n H. apply append_disk_other. apply H. by left.
Qed.
End History.
End Facts.

(** C39: LogFile keeps every line.  Over files whose names are new, with the clock at times of the years 1970 to 9999 (going
    back or standing still at will) and fwrite accepting something each time, any calls of append and flush leave files
    whose texts, in the order of their creation, which is the order of the times in their names, are together the lines
    that were appended, in order; the last one is on the disk up to what its stream still holds, and no other file is
    touched.  When the next line takes the file beyond rollSize_, or it is the checkEveryN_-th one and a new day has begun
    since the last roll, and the clock has gone on since then, the old file is on the disk with the line at its end and a
    new empty file, named by the time, takes its place; otherwise the line goes to the same file.  When the line is the
    checkEveryN_-th one in the same day and the last flush is older than flushInterval_, all of the file is on the disk. *)
Theorem log_file_keeps_every_line (hostname : list Z) (pid : Z) (base : list Z) (rollSize flushInterval checkEveryN : Z)
    (files : gmap (list Z) (list Z)) (now0 : Z) (cs : list call) :
  (∀ t, in_log_years t → files !! getLogFileName hostname pid base t = None) → 47 ∉ base → in_log_years now0 → Forall call_ok cs →
  ∃ l0 l parts cur f, construct hostname pid base rollSize flushInterval checkEveryN now0 files = (Val (), l0) ∧
    run hostname pid cs l0 = (Val (), l) ∧ file_ l = Some f ∧
    concat parts.*2 ++ cur = concat (text <$> cs) ∧ StronglySorted Z.lt (parts.*1 ++ [lastRoll_ l]) ∧
    (∀ t c, (t, c) ∈ parts → disk l !! getLogFileName hostname pid base t = Some c) ∧
    on_disk (getLogFileName hostname pid base (lastRoll_ l)) (disk l) ++ fp_buffer f = cur ∧
    fp_name f = getLogFileName hostname pid base (lastRoll_ l) ∧
    (∀ n, (∀ t, t ∈ parts.*1 ++ [lastRoll_ l] → n ≠ getLogFileName hostname pid base t) → disk l !! n = files !! n) ∧
    ∀ rs line now now', progress rs → in_log_years now' →
      ∃ l' f', append_unlocked hostname pid rs line now now' l = (Val (), l') ∧ file_ l' = Some f' ∧
        (rolls rollSize checkEveryN cur line l now now' →
          writtenBytes_ f' = 0 ∧ fp_name f' = getLogFileName hostname pid base now' ∧
          on_disk (fp_name f') (disk l') = [] ∧ fp_buffer f' = [] ∧
          disk l' !! fp_name f = Some (cur ++ line) ∧ lastRoll_ l' = now' ∧ lastFlush_ l' = now') ∧
        (¬ rolls rollSize checkEveryN cur line l now now' →
          fp_name f' = fp_name f ∧ on_disk (fp_name f') (disk l') ++ fp_buffer f' = cur ++ line ∧
          writtenBytes_ f' = zlen (cur ++ line) ∧ lastRoll_ l' = lastRoll_ l ∧
          (¬ flushes rollSize flushInterval checkEveryN cur line l now → lastFlush_ l' = lastFlush_ l)) ∧
        (flushes rollSize flushInterval checkEveryN cur line l now → fp_buffer f' = [] ∧ lastFlush_ l' = now) ∧
        count_ l' = count_after rollSize checkEveryN cur line l.
Proof.
  intros Hfree Hb Hn Hcs. destruct (log_construct_ok hostname pid base rollSize flushInterval checkEveryN files Hfree now0 Hb Hn) as (l0 & E0 & H0 & _).
  destruct (run_keeps hostname pid base rollSize flushInterval checkEveryN files Hfree cs [] [] [] l0 H0 Hcs) as (l & parts & cur & E & H).
  destruct (li_file _ _ _ _ _ _ _ _ _ _ _ H) as (f & Ef & Nf & _ & Cf). exists l0, l, parts, cur, f.
  pose proof H as [_ _ Htx [_ Hs] Hpa Hot]. split_and!; try done; [by rewrite <-Nf|].
  intros rs line now now' Hr Hn'. destruct (log_append_ok hostname pid base rollSize flushInterval checkEveryN files Hfree _ _ _ _ rs line now now' H Hr Hn')
    as (l' & parts' & cur' & E' & H' & [Hroll Hstay Hflush Hidle Hcount]).
  destruct (li_file _ _ _ _ _ _ _ _ _ _ _ H') as (f' & Ef' & Nf' & Wf' & Cf'). exists l', f'. split_and!; [done|done| | | |done].
  - intros Hx. destruct (Hroll Hx) as (-> & -> & El & Efl). apply app_nil in Cf' as [Cd Cb]. rewrite Wf', Nf, Nf', El in *. split_and!; try done.
    apply (li_parts _ _ _ _ _ _ _ _ _ _ _ H'), elem_of_app. right. by left.
  - intros Hx. destruct (Hstay Hx) as (-> & _ & El). rewrite Nf, Nf', El in *. split_and!; try done. by apply Hidle.
  - intros Hx. destruct (Hflush Hx) as [(g & Eg & Bg) Hl]. by simplify_eq.
Qed.

Definition sample_calls : list call :=
  [Append [Fwrite 1 0] [65; 66; 10] 100 100; Append [] [67; 10] 101 101; Append [] [68; 10] 102 102; Flush].
Lemma log_file_keeps_every_line_witness :
  ∃ l0 l, construct (bytes_of "host") 42 (bytes_of "log") 4 3 1024 100 ∅ = (Val (), l0) ∧ run (bytes_of "host") 42 sample_calls l0 = (Val (), l) ∧
    lastRoll_ l = 101 ∧ disk l !! bytes_of "log.19700101-000140.host.42.log" = Some [65; 66; 10; 67; 10].
Proof.
  destruct (log_file_keeps_every_line (bytes_of "host") 42 (bytes_of "log") 4 3 1024 ∅ 100 sample_calls) as (l0 & l & parts & cur & f & E0 & E & _).
  - intros t _. apply lookup_empty.
  - by apply (bool_decide_unpack _).
  - done.
  - repeat constructor; done.
  - exists l0, l. split; [exact E0|]. split; [exact E|].
    apply (f_equal snd) in E0, E. change (snd (Val (), l0)) with l0 in E0. change (snd (Val (), l)) with l in E. subst l0 l.
    split; vm_compute; reflexivity.
Defined.

(** The first line that is checked on a new day ends its file, however small it is. *)
Lemma new_day_rolls : ∃ l f,
  (construct (bytes_of "host") 42 (bytes_of "log") 1000 3 2 86390 ∅).2 = l ∧
  (run (bytes_of "host") 42 [Append [] [65; 10] 86395 86395; Append [] [66; 10] 86405 86405] l).1 = Val () ∧
  file_ (run (bytes_of "host") 42 [Append [] [65; 10] 86395 86395; Append [] [66; 10] 86405 86405] l).2 = Some f ∧
  fp_name f = bytes_of "log.19700102-000005.host.42.log" ∧ writtenBytes_ f = 0 ∧
  disk (run (bytes_of "host") 42 [Append [] [65; 10] 86395 86395; Append [] [66; 10] 86405 86405] l).2 !!
    bytes_of "log.19700101-235950.host.42.log" = Some [65; 10; 66; 10].
Proof. eexists _, _. split; [reflexivity|]. split; [by vm_compute|]. split; [vm_compute; reflexivity|]. split_and!; by vm_compute. Qed.

(** When fwrite accepts nothing the rest of the line is lost, and still counted. *)
Lemma failed_write_loses_line : ∃ f d,
  append_file [Fwrite 1 1; Fwrite 0 0] [65; 66; 10] (Log [] 0 0 0 0 0 0 0 (Some (Stream [1] [] 0)) ∅) =
    (Val (), Log [] 0 0 0 0 0 0 0 (Some f) d) ∧ writtenBytes_ f = 3 ∧ on_disk [1] d = [65].
Proof. eexists _, _. split; [by vm_compute|]. done. Qed.
End LogFile.
