(* ===== verification/DisjSets.v ===== *)
(** * DisjSets.cpp: disjoint sets by rank, with path compression

    A cell is the parent of an element, or -1 minus the rank of a root.  The model
    answers [None] for an index outside of the vector and when a search does not end
    within its fuel.  [forest] is the invariant: ranks that grow towards the root,
    and sets of at least 2 to the rank elements. *)
From stdpp Require Import relations.
From S2P Require Import Prelude.

Module DisjSets.

Definition construct (numElements : nat) : list Z := replicate numElements (-1).

Definition unionSets (root1 root2 : nat) (s : list Z) : option (list Z) :=
  v2 ← s !! root2;
  v1 ← s !! root1;
  if v2 <? v1 then Some (<[root1 := Z.of_nat root2]> s)
  else
    let s := if v1 =? v2 then <[root1 := v1 - 1]> s else s in
    Some (<[root2 := Z.of_nat root1]> s).

(** find( int ) const *)
Fixpoint find_const (fuel : nat) (s : list Z) (x : nat) : option nat :=
  match fuel with
  | O => None
  | S fuel => v ← s !! x; if v <? 0 then Some x else find_const fuel s (Z.to_nat v)
  end.

(** find( int ): the cell of every element on the way is set to the root. *)
Fixpoint find (fuel : nat) (s : list Z) (x : nat) : option (nat * list Z) :=
  match fuel with
  | O => None
  | S fuel =>
      v ← s !! x;
      if v <? 0 then Some (x, s)
      else
        '(r, s) ← find fuel s (Z.to_nat v);
        Some (r, <[x := Z.of_nat r]> s)
  end.

(** ** The invariant *)

Definition class_of (root : nat → nat) (n r : nat) : list nat := filter (λ i, root i = r) (seq 0 n).

(** [root]: the root of each element; [rank]: its rank. *)
Record forest (n : nat) (s : list Z) (rank root : nat → nat) : Prop := {
  f_length : length s = n;
  f_root x : (x < n)%nat → (root x < n)%nat ∧ root (root x) = root x ∧ (rank x ≤ rank (root x))%nat;
  f_cell x : (x < n)%nat → (root x = x ∧ s !! x = Some (-1 - Z.of_nat (rank x))) ∨
    ∃ p, s !! x = Some (Z.of_nat p) ∧ (p < n)%nat ∧ root p = root x ∧ (rank x < rank p)%nat;
  f_size r : (r < n)%nat → root r = r → (2 ^ rank r ≤ length (class_of root n r))%nat
}.

Lemma cell_root n s rank root x : forest n s rank root → (x < n)%nat → root x = x → s !! x = Some (-1 - Z.of_nat (rank x)).
Proof.
  intros Hf Hx Hr. destruct (f_cell _ _ _ _ Hf x Hx) as [[_ E]|(p & E & Hp & Er & Hk)]; [done|].
  destruct (f_root _ _ _ _ Hf p Hp) as (_ & _ & Hle). rewrite Er, Hr in Hle. lia.
Qed.

Lemma construct_forest n : forest n (construct n) (λ _, O) (λ x, x).
Proof.
  split; [by unfold construct; rewrite length_replicate|done| |].
  - intros x Hx. left. split; [done|]. unfold construct. by rewrite lookup_replicate_2.
  - intros r Hr _. cbn [Nat.pow]. assert (Hin : r ∈ class_of (λ x, x) n r).
    { unfold class_of. apply list_elem_of_filter. split; [done|]. apply elem_of_seq. lia. }
    destruct (class_of (λ x, x) n r); [by apply elem_of_nil in Hin|cbn; lia].
Qed.

(** The rank of a set is at most logarithmic. *)
Lemma rank_log n s rank root x : forest n s rank root → (x < n)%nat → (rank (root x) ≤ Nat.log2 n)%nat.
Proof.
  intros Hf Hx. destruct (f_root _ _ _ _ Hf x Hx) as (Hr & Hrr & _). pose proof (f_size _ _ _ _ Hf (root x) Hr Hrr) as Hs.
  assert (Hl : (length (class_of root n (root x)) ≤ n)%nat).
  { unfold class_of. etransitivity; [apply length_filter|by rewrite length_seq]. }
  apply Nat.log2_le_pow2; lia.
Qed.

(** ** find *)

Lemma find_const_root n s rank root : forest n s rank root → ∀ fuel x, (x < n)%nat → (rank (root x) - rank x < fuel)%nat →
  find_const fuel s x = Some (root x).
Proof.
  intros Hf. induction fuel as [|fuel IH]; intros x Hx Hk; [lia|]. cbn [find_const].
  destruct (f_cell _ _ _ _ Hf x Hx) as [[Er ->]|(p & -> & Hp & Er & Hr)]; cbn [mbind option_bind].
  - rewrite (proj2 (Z.ltb_lt _ _)) by lia. by rewrite Er.
  - rewrite (proj2 (Z.ltb_ge _ _)) by lia. destruct (f_root _ _ _ _ Hf p Hp) as (_ & _ & Hle).
    rewrite Nat2Z.id, IH; [by rewrite Er|done|rewrite Er in *; lia].
Qed.

(** Setting a cell to the root keeps the forest. *)
Lemma compress n s rank root x : forest n s rank root → (x < n)%nat → root x ≠ x → (rank x < rank (root x))%nat →
  forest n (<[x := Z.of_nat (root x)]> s) rank root.
Proof.
  intros Hf Hx Hne Hk. destruct Hf as [Hl Hr Hc Hs]. split; [by rewrite length_insert|done| |done].
  intros y Hy. destruct (decide (y = x)) as [->|Hyx].
  - right. exists (root x). destruct (Hr x Hx) as (? & ? & ?). rewrite list_lookup_insert_eq by lia. by split_and!.
  - rewrite list_lookup_insert_ne by done. by apply Hc.
Qed.

Lemma find_root n rank root : ∀ fuel s x, forest n s rank root → (x < n)%nat → (rank (root x) - rank x < fuel)%nat →
  ∃ s', find fuel s x = Some (root x, s') ∧ forest n s' rank root.
Proof.
  induction fuel as [|fuel IH]; intros s x Hf Hx Hk; [lia|]. cbn [find].
  destruct (f_cell _ _ _ _ Hf x Hx) as [[Er ->]|(p & -> & Hp & Er & Hr)]; cbn [mbind option_bind].
  - rewrite (proj2 (Z.ltb_lt _ _)) by lia. rewrite Er. by exists s.
  - rewrite (proj2 (Z.ltb_ge _ _)) by lia. rewrite Nat2Z.id. destruct (f_root _ _ _ _ Hf p Hp) as (_ & _ & Hle). rewrite Er in Hle.
    destruct (IH s p Hf Hp) as (s1 & E1 & H1); [rewrite Er; lia|].
    rewrite E1. cbn [mbind option_bind]. rewrite Er. eexists. split; [reflexivity|]. apply compress; [done|done| |lia].
    intros E. rewrite E in Hle. lia.
Qed.

(** ** unionSets *)

(** The elements of two classes together. *)
Lemma class_link root n a b : a ≠ b →
  (length (class_of (λ x, if decide (root x = a) then b else root x) n b) = length (class_of root n a) + length (class_of root n b))%nat.
Proof.
  intros Hab. unfold class_of. induction (seq 0 n) as [|x l IH]; [done|]. rewrite !filter_cons.
  repeat case_decide; cbn [length]; subst; try congruence; lia.
Qed.
Lemma class_other root n a b r : r ≠ a → r ≠ b →
  class_of (λ x, if decide (root x = a) then b else root x) n r = class_of root n r.
Proof.
  intros Ha Hb. unfold class_of. apply list_filter_iff. intros x. case_decide; [|done]. split; congruence.
Qed.

(** The root [a] comes below the root [b], whose rank becomes [k]. *)
Lemma link n s rank root a b k : forest n s rank root → (a < n)%nat → (b < n)%nat → root a = a → root b = b → a ≠ b →
  (rank b ≤ k)%nat → (rank a < k)%nat → (2 ^ k ≤ length (class_of root n a) + length (class_of root n b))%nat →
  forest n (<[a := Z.of_nat b]> (<[b := -1 - Z.of_nat k]> s))
    (λ x, if decide (x = b) then k else rank x) (λ x, if decide (root x = a) then b else root x).
Proof.
  intros Hf Ha Hb Ra Rb Hab Hk Hka Hs. pose proof Hf as [Hl Hr Hc Hsz]. split.
  - by rewrite !length_insert.
  - intros x Hx. destruct (Hr x Hx) as (H1 & H2 & H3). destruct (decide (root x = a)) as [E|E].
    + rewrite (decide_False (P := root b = a)) by congruence. split_and!; [done|done|].
      rewrite (decide_True (P := b = b)) by done. case_decide; [lia|]. rewrite E in H3. lia.
    + rewrite H2, (decide_False (P := root x = a)) by done. split_and!; [done|done|]. repeat case_decide; subst; try congruence; try lia.
  - intros x Hx. destruct (decide (x = a)) as [->|Hxa].
    { right. exists b. rewrite list_lookup_insert_eq by (rewrite length_insert; lia). split; [done|]. split; [done|].
      rewrite (decide_False (P := root b = a)), (decide_True (P := root a = a)), (decide_True (P := b = b)), (decide_False (P := a = b)) by congruence.
      by split; [|lia]. }
    rewrite list_lookup_insert_ne by done. destruct (decide (x = b)) as [->|Hxb].
    { left. rewrite list_lookup_insert_eq by lia. by rewrite (decide_False (P := root b = a)) by congruence. }
    rewrite list_lookup_insert_ne by done. destruct (Hc x Hx) as [[Er Ev]|(p & Ev & Hp & Er & Hrk)].
    + left. rewrite Er, decide_False by done. done.
    + right. exists p. split; [done|]. split; [done|]. rewrite Er. split; [done|]. case_decide; [subst; lia|done].
  - intros r Hrn Hroot. destruct (decide (r = b)) as [->|Hrb]; [rewrite class_link by done; lia|].
    assert (Hra : root r ≠ a) by (intros E; rewrite decide_True in Hroot by done; congruence).
    rewrite decide_False in Hroot by done. rewrite class_other; [by apply Hsz|congruence|done].
Qed.

Lemma unionSets_forest n s rank root r1 r2 : forest n s rank root → (r1 < n)%nat → (r2 < n)%nat → root r1 = r1 → root r2 = r2 → r1 ≠ r2 →
  ∃ s' rank' root', unionSets r1 r2 s = Some s' ∧ forest n s' rank' root' ∧
    ∀ x y, root' x = root' y ↔ root x = root y ∨ (root x = r1 ∧ root y = r2) ∨ (root x = r2 ∧ root y = r1).
Proof.
  intros Hf H1 H2 R1 R2 Hne. pose proof (cell_root _ _ _ _ r1 Hf H1 R1) as E1. pose proof (cell_root _ _ _ _ r2 Hf H2 R2) as E2.
  pose proof (f_size _ _ _ _ Hf r1 H1 R1) as S1. pose proof (f_size _ _ _ _ Hf r2 H2 R2) as S2.
  assert (Hiff : ∀ a b, a ≠ b → ∀ x y, (if decide (root x = a) then b else root x) = (if decide (root y = a) then b else root y) ↔
    root x = root y ∨ (root x = a ∧ root y = b) ∨ (root x = b ∧ root y = a)).
  { intros a b Hab x y. repeat case_decide; split; intros; try (destruct_or?; destruct_and?); subst; try congruence; auto. }
  unfold unionSets. rewrite E2, E1. cbn [mbind option_bind].
  destruct (-1 - Z.of_nat (rank r2) <? -1 - Z.of_nat (rank r1)) eqn:El; [apply Z.ltb_lt in El|apply Z.ltb_ge in El].
  - eexists _, _, _. split; [reflexivity|]. split; [|apply (Hiff r1 r2 Hne)].
    rewrite <-(list_insert_id s r2 _ E2). apply link; try done; lia.
  - assert (Hiff' : ∀ x y, (if decide (root x = r2) then r1 else root x) = (if decide (root y = r2) then r1 else root y) ↔
      root x = root y ∨ (root x = r1 ∧ root y = r2) ∨ (root x = r2 ∧ root y = r1)) by (intros x y; rewrite (Hiff r2 r1) by done; tauto).
    destruct (-1 - Z.of_nat (rank r1) =? -1 - Z.of_nat (rank r2)) eqn:Ee; [apply Z.eqb_eq in Ee|apply Z.eqb_neq in Ee];
      (eexists _, _, _; split; [reflexivity|]); (split; [|exact Hiff']).
    + replace (-1 - Z.of_nat (rank r1) - 1) with (-1 - Z.of_nat (S (rank r1))) by lia.
      apply link; try done; [lia|lia|]. cbn [Nat.pow]. assert (Er : rank r1 = rank r2) by lia. rewrite Er in *. lia.
    + rewrite <-(list_insert_id s r1 _ E1). apply link; try done; lia.
Qed.

(** ** Programs *)

(** What a client calls, as the test program does: unionSets is for two different roots. *)
Definition union_of (fuel : nat) (x y : nat) (s : list Z) : option (list Z) :=
  '(set1, s) ← find fuel s x;
  '(set2, s) ← find fuel s y;
  if Nat.eqb set1 set2 then Some s else unionSets set1 set2 s.

Inductive call := Union (x y : nat) | Find (x : nat).
Definition perform (fuel : nat) (c : call) (s : list Z) : option (list Z) :=
  match c with Union x y => union_of fuel x y s | Find x => snd <$> find fuel s x end.
Fixpoint run (fuel : nat) (cs : list call) (s : list Z) : option (list Z) :=
  match cs with [] => Some s | c :: cs => s ← perform fuel c s; run fuel cs s end.

Definition call_in (n : nat) (c : call) : Prop :=
  match c with Union x y => (x < n)%nat ∧ (y < n)%nat | Find x => (x < n)%nat end.
(** The pairs that were united, and the equivalence that they generate. *)
Definition united (cs : list call) (x y : nat) : Prop := Union x y ∈ cs.
Definition connected (cs : list call) : relation nat := rtsc (united cs).

Lemma connected_sym cs x y : connected cs x y → connected cs y x.
Proof. intros H. by symmetry. Qed.
Lemma connected_mono cs cs' x y : (∀ a b, united cs a b → united cs' a b) → connected cs x y → connected cs' x y.
Proof. intros H. apply rtc_congruence with (f := λ x, x). intros a b [?|?]; [left|right]; by apply H. Qed.

Lemma connected_trans cs x y z : connected cs x y → connected cs y z → connected cs x z.
Proof. intros H ?. by trans y. Qed.

(** One more pair joins two classes. *)
Lemma connected_union cs a b x y : connected (cs ++ [Union a b]) x y ↔
  connected cs x y ∨ (connected cs x a ∧ connected cs b y) ∨ (connected cs x b ∧ connected cs a y).
Proof.
  assert (Hm : ∀ x y, connected cs x y → connected (cs ++ [Union a b]) x y).
  { intros u v. apply connected_mono. intros ??. unfold united. rewrite elem_of_app. by left. }
  assert (Hab : connected (cs ++ [Union a b]) a b).
  { apply rtc_once. left. unfold united. rewrite elem_of_app, list_elem_of_singleton. by right. }
  split.
  - intros H. induction H as [x|x z y Hxz _ IH]; [left; apply rtc_refl|].
    assert (Hs : connected cs x z ∨ (x = a ∧ z = b) ∨ (x = b ∧ z = a)).
    { destruct Hxz as [E|E]; unfold united in E; rewrite elem_of_app, list_elem_of_singleton in E; destruct E as [E|E];
        [left; apply rtc_once; by left|right; left; by simplify_eq|left; apply rtc_once; by right|right; right; by simplify_eq]. }
    pose proof (λ x, rtc_refl (sc (united cs)) x : connected cs x x) as Hrefl. pose proof (connected_sym cs) as Hsym.
    pose proof (connected_trans cs) as Htr.
    destruct Hs as [Hs|[[-> ->]|[-> ->]]]; destruct IH as [IH|[[I1 I2]|[I1 I2]]]; eauto 6.
  - intros [H|[[H1 H2]|[H1 H2]]]; [by apply Hm| |].
    + apply (connected_trans _ _ _ _ (Hm _ _ H1)). apply (connected_trans _ _ _ _ Hab). by apply Hm.
    + apply (connected_trans _ _ _ _ (Hm _ _ H1)). apply (connected_trans _ _ _ _ (connected_sym _ _ _ Hab)). by apply Hm.
Qed.

(** What holds after some calls. *)
Definition holds (n : nat) (cs : list call) (s : list Z) : Prop :=
  ∃ rank root, forest n s rank root ∧ ∀ x y, root x = root y ↔ connected cs x y.

Lemma fuel_enough n s rank root x : forest n s rank root → (x < n)%nat → (rank (root x) - rank x < S (Nat.log2 n))%nat.
Proof. intros Hf Hx. pose proof (rank_log _ _ _ _ _ Hf Hx). lia. Qed.

Lemma union_of_holds n cs s x y : holds n cs s → (x < n)%nat → (y < n)%nat →
  ∃ s', union_of (S (Nat.log2 n)) x y s = Some s' ∧ holds n (cs ++ [Union x y]) s'.
Proof.
  intros (rank & root & Hf & Hc) Hx Hy. unfold union_of.
  destruct (find_root n rank root _ s x Hf Hx (fuel_enough _ _ _ _ _ Hf Hx)) as (s1 & -> & H1). cbn [mbind option_bind].
  destruct (find_root n rank root _ s1 y H1 Hy (fuel_enough _ _ _ _ _ H1 Hy)) as (s2 & -> & H2). cbn [mbind option_bind].
  destruct (f_root _ _ _ _ Hf x Hx) as (Bx & Rx & _). destruct (f_root _ _ _ _ Hf y Hy) as (By & Ry & _).
  pose proof (connected_sym cs) as Hsym. destruct (Nat.eqb_spec (root x) (root y)) as [E|E].
  - exists s2. split; [done|]. exists rank, root. split; [done|]. intros u v. rewrite Hc, connected_union. apply Hc in E.
    split; [tauto|]. intros [H|[[Ha Hb]|[Ha Hb]]]; [done| |].
    + apply (connected_trans _ _ _ _ Ha). by apply (connected_trans _ _ _ _ E).
    + apply (connected_trans _ _ _ _ Ha). by apply (connected_trans _ _ _ _ (Hsym _ _ E)).
  - destruct (unionSets_forest _ _ _ _ _ _ H2 Bx By Rx Ry E) as (s3 & rank' & root' & E3 & H3 & Hc3).
    exists s3. split; [done|]. exists rank', root'. split; [done|]. intros u v.
    rewrite Hc3, connected_union, (Hc u v), (Hc u x), (Hc v y), (Hc u y), (Hc v x). split; intros; destruct_or?; destruct_and?; auto.
Qed.

Lemma connected_find cs x u v : connected (cs ++ [Find x]) u v ↔ connected cs u v.
Proof.
  split; apply connected_mono; intros a b; unfold united; rewrite elem_of_app, list_elem_of_singleton; [|by left].
  by intros [?|?].
Qed.

Lemma run_holds n cs : Forall (call_in n) cs → ∀ before s, holds n before s →
  ∃ s', run (S (Nat.log2 n)) cs s = Some s' ∧ holds n (before ++ cs) s'.
Proof.
  induction 1 as [|c cs Hc _ IH]; intros before s Hs; [exists s; by rewrite app_nil_r|].
  assert (H1 : ∃ s1, perform (S (Nat.log2 n)) c s = Some s1 ∧ holds n (before ++ [c]) s1).
  { destruct c as [x y|x]; [by apply union_of_holds; [|apply Hc..]|]. destruct Hs as (rank & root & Hf & Hr).
    cbn [perform call_in] in *. destruct (find_root n rank root _ s x Hf Hc (fuel_enough _ _ _ _ _ Hf Hc)) as (s1 & E1 & H1).
    rewrite E1. exists s1. split; [done|]. exists rank, root. split; [done|]. intros u v. rewrite connected_find. apply Hr. }
  destruct H1 as (s1 & E1 & H1). destruct (IH _ _ H1) as (s2 & E2 & H2). exists s2. cbn [run]. rewrite E1. cbn [mbind option_bind].
  split; [done|]. by rewrite <-app_assoc in H2.
Qed.

(** ** The theorem *)

(** C40: The searches end.  After any unions and finds of elements of the vector, each of them done by a recursion of at
    most 1 + log2 n calls, a search for any element, with path compression or without, ends within as many calls, never
    leaves the vector, and answers an element of the class: two searches give the same answer exactly when the unions
    connect the two elements.  The search with compression gives the answer of the one without, and changes no other answer. *)
Theorem searches_end (n : nat) (cs : list call) : Forall (call_in n) cs →
  let fuel := S (Nat.log2 n) in
  ∃ s, run fuel cs (construct n) = Some s ∧
    ∀ x, (x < n)%nat → ∃ r s', find_const fuel s x = Some r ∧ find fuel s x = Some (r, s') ∧ (r < n)%nat ∧ connected cs x r ∧
      length s' = n ∧ (∀ y, (y < n)%nat → find_const fuel s' y = find_const fuel s y) ∧
      ∀ y, (y < n)%nat → (find_const fuel s y = Some r ↔ connected cs x y).
Proof.
  intros Hcs fuel. assert (H0 : holds n [] (construct n)).
  { exists (λ _, O), (λ x, x). split; [apply construct_forest|]. intros x y. split; [intros ->; apply rtc_refl|].
    induction 1 as [|u v w [H|H] _ _]; [done|by apply elem_of_nil in H..]. }
  destruct (run_holds n cs Hcs [] _ H0) as (s & E & rank & root & Hf & Hc). exists s. split; [exact E|]. intros x Hx.
  assert (Hfind : ∀ s x, forest n s rank root → (x < n)%nat → find_const fuel s x = Some (root x)).
  { intros s0 z Hs0 Hz. apply (find_const_root n s0 rank root); [done..|]. by apply (fuel_enough n s0). }
  destruct (find_root n rank root fuel s x Hf Hx (fuel_enough _ _ _ _ _ Hf Hx)) as (s' & E' & H').
  destruct (f_root _ _ _ _ Hf x Hx) as (Bx & Rx & _). exists (root x), s'. split_and!; auto.
  - apply (Hc x (root x)). by rewrite Rx.
  - by apply (f_length _ _ _ _ H').
  - intros y Hy. by rewrite !Hfind.
  - intros y Hy. rewrite (Hfind s y Hf Hy), <-(Hc x y). split; [intros; by simplify_eq|by intros ->].
Qed.

Lemma searches_end_witness : ∃ s, run 4 [Union 0 1; Union 2 3; Union 1 3; Find 3; Union 4 4] (construct 8) = Some s ∧
  find_const 4 s 3 = Some O ∧ find_const 4 s 4 = Some 4%nat ∧ s = [-3; 0; 0; 0; -1; -1; -1; -1].
Proof.
  destruct (searches_end 8 [Union 0 1; Union 2 3; Union 1 3; Find 3; Union 4 4]) as (s & E & _); [repeat constructor; lia|].
  exists s. split; [exact E|]. assert (Es : s = [-3; 0; 0; 0; -1; -1; -1; -1]) by (vm_compute in E; by injection E).
  rewrite Es. split_and!; vm_compute; reflexivity.
Defined.

(** unionSets of a root with itself makes a cell its own parent, and no search for it ends. *)
Lemma union_with_itself s x : (x < length s)%nat → ∃ s', unionSets x x s = Some s' ∧ ∀ fuel, find_const fuel s' x = None.
Proof.
  intros Hx. destruct (lookup_lt_is_Some_2 s x Hx) as (v & E). unfold unionSets. rewrite E. cbn [mbind option_bind].
  rewrite Z.ltb_irrefl, Z.eqb_refl. eexists. split; [reflexivity|]. induction fuel as [|fuel IH]; [done|]. cbn [find_const].
  rewrite list_lookup_insert_eq at 1 by (rewrite length_insert; lia). cbn [mbind option_bind].
  rewrite (proj2 (Z.ltb_ge _ _)) by lia. by rewrite Nat2Z.id.
Qed.

End DisjSets.
