(* ===== verification/LinkedList.v ===== *)
(** * List.h of codeC++11: doubly linked lists with sentinel nodes

    All lists live in one memory of nodes ([NodeStore]); a list object is its three
    fields, an iterator the address of a node.  Address 0 is the null pointer.
    The contract [spec_call] keeps the lists as sequences of named items: an
    iterator stays with its item whatever is inserted or erased elsewhere. *)
From S2P Require Import Prelude Hoare NodeStore.
Import Memory.

Module LinkedList.

Section Class.
Context {K : Type} (dflt : K).

Record Node := MkNode { data : K; prev : nat; next : nat }.
Record List := MkList { theSize : Z; head : nat; tail : nat }.

Abbreviation heap := (heap Node).
Definition io (A : Type) : Type := act heap Empty_set A.

Definition set_next (q : nat) (n : Node) : Node := MkNode (data n) (prev n) q.
Definition set_prev (q : nat) (n : Node) : Node := MkNode (data n) q (next n).
Definition set_data (x : K) (n : Node) : Node := MkNode x (prev n) (next n).

(** ** Iterators *)

Definition retrieve (itr : nat) : io K := n <- deref itr ;; act_ret (data n).
Definition write (itr : nat) (x : K) : io () := assign itr (set_data x).
Definition incr (itr : nat) : io nat := n <- deref itr ;; act_ret (next n).
Definition decr (itr : nat) : io nat := n <- deref itr ;; act_ret (prev n).

(** ** The list *)

Definition init : io List :=
  h <- new (MkNode dflt 0 0) ;;
  t <- new (MkNode dflt 0 0) ;;
  assign h (set_next t) ;;; assign t (set_prev h) ;;;
  act_ret (MkList 0 h t).

Definition begin (l : List) : io nat := n <- deref (head l) ;; act_ret (next n).
Definition end_ (l : List) : nat := tail l.
Definition size (l : List) : Z := theSize l.
Definition empty (l : List) : bool := size l =? 0.

(** [p->prev = p->prev->next = new Node{ x, p->prev, p }] *)
Definition insert (itr : nat) (x : K) (l : List) : io (nat * List) :=
  p <- deref itr ;;
  n <- new (MkNode x (prev p) itr) ;;
  assign (prev p) (set_next n) ;;;
  assign itr (set_prev n) ;;;
  act_ret (n, MkList (theSize l + 1) (head l) (tail l)).

Definition erase (itr : nat) (l : List) : io (nat * List) :=
  p <- deref itr ;;
  assign (prev p) (set_next (next p)) ;;;
  assign (next p) (set_prev (prev p)) ;;;
  delete_node itr ;;;
  act_ret (next p, MkList (theSize l - 1) (head l) (tail l)).

(** [for( iterator itr = from; itr != to; ) itr = erase( itr )] *)
Fixpoint erase_loop (fuel : nat) (itr to : nat) (l : List) : io List :=
  if Nat.eqb itr to then act_ret l
  else
    match fuel with
    | O => undefined
    | S fuel => r <- erase itr l ;; erase_loop fuel r.1 to r.2
    end.
(** The fuel of the loops: as many rounds as there are nodes. *)
Definition nodes (s : heap) : nat := base.size (store s).
Definition erase_range (from to : nat) (l : List) : io (nat * List) :=
  s <- get_state ;; l <- erase_loop (nodes s) from to l ;; act_ret (to, l).

Definition push_front (x : K) (l : List) : io List := b <- begin l ;; r <- insert b x l ;; act_ret r.2.
Definition push_back (x : K) (l : List) : io List := r <- insert (end_ l) x l ;; act_ret r.2.
Definition pop_front (l : List) : io List := b <- begin l ;; r <- erase b l ;; act_ret r.2.
Definition pop_back (l : List) : io List := b <- decr (end_ l) ;; r <- erase b l ;; act_ret r.2.
Definition front (l : List) : io K := b <- begin l ;; retrieve b.
Definition back (l : List) : io K := b <- decr (end_ l) ;; retrieve b.

Fixpoint clear_loop (fuel : nat) (l : List) : io List :=
  if empty l then act_ret l
  else
    match fuel with
    | O => undefined
    | S fuel => l <- pop_front l ;; clear_loop fuel l
    end.
Definition clear (l : List) : io List := s <- get_state ;; clear_loop (nodes s) l.

(** The destructor. *)
Definition destroy (l : List) : io () := l <- clear l ;; delete_node (head l) ;;; delete_node (tail l).

(** [for( auto & x : rhs ) push_back( x )] *)
Fixpoint copy_loop (fuel : nat) (itr last : nat) (l : List) : io List :=
  if Nat.eqb itr last then act_ret l
  else
    match fuel with
    | O => undefined
    | S fuel => x <- retrieve itr ;; l <- push_back x l ;; itr <- incr itr ;; copy_loop fuel itr last l
    end.
Definition copy (rhs : List) : io List :=
  l <- init ;; b <- begin rhs ;; s <- get_state ;; copy_loop (nodes s) b (end_ rhs) l.

(** The move constructor: the new list and what is left of [rhs]. *)
Definition move (rhs : List) : List * List := (rhs, MkList 0 0 0).
(** operator=( List && ) exchanges the fields. *)
Definition move_assign (this rhs : List) : List * List := (rhs, this).

(** operator=( const List & ): [std::swap] moves three times. *)
Definition copy_assign (this rhs : List) : io List :=
  copy <- copy rhs ;;
  let '(tmp, this) := move this in
  let '(this, copy) := move_assign this copy in
  let '(copy, tmp) := move_assign copy tmp in
  destroy tmp ;;; destroy copy ;;; act_ret this.

(** ** Programs over list variables *)

Inductive call :=
| New (v : nat) | Copy (v w : nat) | Move (v w : nat) | CopyAssign (v w : nat) | MoveAssign (v w : nat) | Destroy (v : nat)
| Insert (v itr : nat) (x : K) | Erase (v itr : nat) | EraseRange (v from to : nat)
| PushFront (v : nat) (x : K) | PushBack (v : nat) (x : K) | PopFront (v : nat) | PopBack (v : nat) | Clear (v : nat)
| Front (v : nat) | Back (v : nat) | Size (v : nat) | Empty (v : nat) | Begin (v : nat) | End (v : nat)
(** The list [v] that the iterator is of matters to the contract only. *)
| Incr (v itr : nat) | Decr (v itr : nat) | Read (v itr : nat) | Write (v itr : nat) (x : K).

Inductive answer := Done | Iterator (p : nat) | Value (x : K) | Int (n : Z) | Bool (b : bool).

Abbreviation vars := (gmap nat List).
Definition var (v : nat) (vs : vars) : io List := match vs !! v with Some l => act_ret l | None => undefined end.

Definition on (v : nat) (f : List → io (answer * List)) (vs : vars) : io (answer * vars) :=
  l <- var v vs ;; r <- f l ;; act_ret (r.1, <[v := r.2]> vs).
Definition itr_of (m : io (nat * List)) : io (answer * List) := r <- m ;; act_ret (Iterator r.1, r.2).
Definition unit_of (m : io List) : io (answer * List) := l <- m ;; act_ret (Done, l).

Definition perform (c : call) (vs : vars) : io (answer * vars) :=
  match c with
  | New v => l <- init ;; act_ret (Done, <[v := l]> vs)
  | Copy v w => rhs <- var w vs ;; l <- copy rhs ;; act_ret (Done, <[v := l]> vs)
  | Move v w => rhs <- var w vs ;; let '(l, rhs) := move rhs in act_ret (Done, <[v := l]> (<[w := rhs]> vs))
  | CopyAssign v w => this <- var v vs ;; rhs <- var w vs ;; l <- copy_assign this rhs ;; act_ret (Done, <[v := l]> vs)
  | MoveAssign v w =>
      this <- var v vs ;; rhs <- var w vs ;;
      let '(this, rhs) := move_assign this rhs in act_ret (Done, <[v := this]> (<[w := rhs]> vs))
  | Destroy v => l <- var v vs ;; destroy l ;;; act_ret (Done, delete v vs)
  | Insert v itr x => on v (λ l, itr_of (insert itr x l)) vs
  | Erase v itr => on v (λ l, itr_of (erase itr l)) vs
  | EraseRange v from to => on v (λ l, itr_of (erase_range from to l)) vs
  | PushFront v x => on v (λ l, unit_of (push_front x l)) vs
  | PushBack v x => on v (λ l, unit_of (push_back x l)) vs
  | PopFront v => on v (λ l, unit_of (pop_front l)) vs
  | PopBack v => on v (λ l, unit_of (pop_back l)) vs
  | Clear v => on v (λ l, unit_of (clear l)) vs
  | Front v => l <- var v vs ;; x <- front l ;; act_ret (Value x, vs)
  | Back v => l <- var v vs ;; x <- back l ;; act_ret (Value x, vs)
  | Size v => l <- var v vs ;; act_ret (Int (size l), vs)
  | Empty v => l <- var v vs ;; act_ret (Bool (empty l), vs)
  | Begin v => l <- var v vs ;; p <- begin l ;; act_ret (Iterator p, vs)
  | End v => l <- var v vs ;; act_ret (Iterator (end_ l), vs)
  | Incr v itr => p <- incr itr ;; act_ret (Iterator p, vs)
  | Decr v itr => p <- decr itr ;; act_ret (Iterator p, vs)
  | Read v itr => x <- retrieve itr ;; act_ret (Value x, vs)
  | Write v itr x => write itr x ;;; act_ret (Done, vs)
  end.

Fixpoint run (cs : list call) (vs : vars) : io (list answer * vars) :=
  match cs with
  | [] => act_ret ([], vs)
  | c :: cs => a <- perform c vs ;; r <- run cs a.2 ;; act_ret (a.1 :: r.1, r.2)
  end.

(** ** The contract *)

(** A moved-from list, or the sentinels and the named items. *)
Inductive content := Null | Items (h t : nat) (its : list (nat * K)).
Record world := World { lists : gmap nat content; names : nat }.

Definition first_of (its : list (nat * K)) (t : nat) : nat := match its with [] => t | (p, _) :: _ => p end.
Fixpoint last_of (h : nat) (its : list (nat * K)) : nat := match its with [] => h | (p, _) :: its => last_of p its end.

(** The items before the position [p] and those from it on; [t] is the end. *)
Fixpoint split_at (p t : nat) (its : list (nat * K)) : option (list (nat * K) * list (nat * K)) :=
  match its with
  | [] => if Nat.eqb p t then Some ([], []) else None
  | (q, x) :: rest =>
      if Nat.eqb p q then Some ([], its) else '(a, b) ← split_at p t rest; Some ((q, x) :: a, b)
  end.

Definition get_items (v : nat) (A : world) : option (nat * nat * list (nat * K)) :=
  match lists A !! v with Some (Items h t its) => Some (h, t, its) | _ => None end.
Definition set_items (v h t : nat) (its : list (nat * K)) (A : world) : world := World (<[v := Items h t its]> (lists A)) (names A).
Definition more_names (n : nat) (A : world) : world := World (lists A) (names A + n).
Definition unused (v : nat) (A : world) : option () := if decide (lists A !! v = None) then Some () else None.

(** The items of a copy, with sentinels [f] and [f + 1]. *)
Definition copied (f : nat) (its : list (nat * K)) : list (nat * K) := zip (seq (f + 2) (length its)) its.*2.

(** One position of a list. *)
Definition at_pos {A : Type} (v p : nat) (w : world) (f : nat → nat → list (nat * K) → list (nat * K) → option A) : option A :=
  '(h, t, its) ← get_items v w; '(a, b) ← split_at p t its; f h t a b.

Definition spec_call (c : call) (A : world) : option (answer * world) :=
  let n := names A in
  match c with
  | New v => _ ← unused v A; Some (Done, more_names 2 (set_items v n (n + 1) [] A))
  | Copy v w =>
      _ ← unused v A; '(_, _, its) ← get_items w A;
      Some (Done, more_names (2 + length its) (set_items v n (n + 1) (copied n its) A))
  | Move v w => _ ← unused v A; s ← lists A !! w; Some (Done, World (<[v := s]> (<[w := Null]> (lists A))) n)
  | CopyAssign v w =>
      _ ← lists A !! v; '(_, _, its) ← get_items w A;
      Some (Done, more_names (2 + length its) (set_items v n (n + 1) (copied n its) A))
  | MoveAssign v w =>
      s ← lists A !! v; s' ← lists A !! w; Some (Done, World (<[v := s']> (<[w := s]> (lists A))) n)
  | Destroy v => _ ← lists A !! v; Some (Done, World (delete v (lists A)) n)
  | Insert v itr x => at_pos v itr A (λ h t a b, Some (Iterator n, more_names 1 (set_items v h t (a ++ (n, x) :: b) A)))
  | Erase v itr => at_pos v itr A (λ h t a b,
      match b with [] => None | _ :: b => Some (Iterator (first_of b t), set_items v h t (a ++ b) A) end)
  | EraseRange v from to => at_pos v from A (λ h t a b,
      '(_, c) ← split_at to t b; Some (Iterator to, set_items v h t (a ++ c) A))
  | PushFront v x => '(h, t, its) ← get_items v A; Some (Done, more_names 1 (set_items v h t ((n, x) :: its) A))
  | PushBack v x => '(h, t, its) ← get_items v A; Some (Done, more_names 1 (set_items v h t (its ++ [(n, x)]) A))
  | PopFront v => '(h, t, its) ← get_items v A; match its with [] => None | _ :: its => Some (Done, set_items v h t its A) end
  | PopBack v => '(h, t, its) ← get_items v A; _ ← last its; Some (Done, set_items v h t (removelast its) A)
  | Clear v => s ← lists A !! v; Some (Done, match s with Items h t _ => set_items v h t [] A | Null => A end)
  | Front v => '(h, t, its) ← get_items v A; '(_, x) ← hd_error its; Some (Value x, A)
  | Back v => '(h, t, its) ← get_items v A; '(_, x) ← last its; Some (Value x, A)
  | Size v => s ← lists A !! v; Some (Int (match s with Items _ _ its => zlen its | Null => 0 end), A)
  | Empty v => s ← lists A !! v; Some (Bool (match s with Items _ _ (_ :: _) => false | _ => true end), A)
  | Begin v => '(h, t, its) ← get_items v A; Some (Iterator (first_of its t), A)
  | End v => '(h, t, its) ← get_items v A; Some (Iterator t, A)
  | Incr v itr => at_pos v itr A (λ h t a b, match b with [] => None | _ :: b => Some (Iterator (first_of b t), A) end)
  | Decr v itr => at_pos v itr A (λ h t a b, match a with [] => None | _ => Some (Iterator (last_of h a), A) end)
  | Read v itr => at_pos v itr A (λ h t a b, match b with [] => None | (_, x) :: _ => Some (Value x, A) end)
  | Write v itr x => at_pos v itr A (λ h t a b,
      match b with [] => None | (p, _) :: b => Some (Done, set_items v h t (a ++ (p, x) :: b) A) end)
  end.

Fixpoint spec_run (cs : list call) (A : world) : option (list answer * world) :=
  match cs with
  | [] => Some ([], A)
  | c :: cs => '(a, A) ← spec_call c A; '(r, A) ← spec_run cs A; Some (a :: r, A)
  end.

(** ** Cells *)

(** The cells of a chain of items between the addresses [pr] and [nx]. *)
Fixpoint seg (pr : nat) (its : list (nat * K)) (nx : nat) : list (nat * Node) :=
  match its with
  | [] => []
  | (p, x) :: rest => (p, MkNode x pr (first_of rest nx)) :: seg p rest nx
  end.
Definition chain (h t : nat) (its : list (nat * K)) : list (nat * K) := (h, dflt) :: its ++ [(t, dflt)].
Definition cells_of (s : content) : list (nat * Node) :=
  match s with Null => [] | Items h t its => seg 0 (chain h t its) 0 end.
Definition obj_of (s : content) : List := match s with Null => MkList 0 0 0 | Items h t its => MkList (zlen its) h t end.

Implicit Types (its a b : list (nat * K)) (s : heap) (cs : list (nat * Node)).

Lemma first_of_app a b t : first_of (a ++ b) t = first_of a (first_of b t).
Proof. by destruct a as [|[]]. Qed.
Lemma last_of_app h a b : last_of h (a ++ b) = last_of (last_of h a) b.
Proof. revert h. induction a as [|[] a IH]; intros h; [done|]. apply IH. Qed.
Lemma seg_app pr a b nx : seg pr (a ++ b) nx = seg pr a (first_of b nx) ++ seg (last_of pr a) b nx.
Proof. revert pr. induction a as [|[p x] a IH]; intros pr; cbn [app seg last_of]; [done|]. by rewrite IH, first_of_app. Qed.

(** A cell among cells. *)
Ltac cell_in := rewrite ?elem_of_app, ?elem_of_cons; eauto 12.

(** ** Insertion and removal in a chain *)

Lemma insert_held s L R p z Y x l rest Q : L ≠ [] → R = (p, z) :: Y → held s (seg 0 (L ++ R) 0 ++ rest) →
  (∀ s', held s' (seg 0 (L ++ (fresh s, x) :: R) 0 ++ rest) → fresh s' = S (fresh s) →
    Q (fresh s, MkList (theSize l + 1) (head l) (tail l)) s') → ensures (insert p x l) s Q.
Proof.
  intros HL -> H HQ. destruct (exists_last HL) as (X & [q y] & ->).
  set (n := fresh s) in *. rewrite <-!(assoc_L (++)) in *. cbn [app] in *. rewrite seg_app in *. cbn [seg first_of] in *.
  unfold insert. apply ensures_bind. eapply held_deref; [exact H|cell_in|]. cbn [prev].
  apply ensures_bind. eapply held_new; [exact H|]. intros s1 H1 F1.
  apply ensures_bind. apply (held_assign _ q (MkNode y (last_of 0 X) p) ((n, MkNode x q p) :: (p, MkNode z q (first_of Y 0)) :: seg 0 X q ++ seg p Y 0 ++ rest)).
  { eapply held_perm; [exact H1|solve_Permutation]. } intros s2 H2 F2.
  apply ensures_bind. apply (held_assign _ p (MkNode z q (first_of Y 0)) ((q, MkNode y (last_of 0 X) n) :: (n, MkNode x q p) :: seg 0 X q ++ seg p Y 0 ++ rest)).
  { eapply held_perm; [exact H2|cbn [set_next data prev]; solve_Permutation]. } intros s3 H3 F3.
  apply ensures_ret. apply HQ; [|lia]. eapply held_perm; [exact H3|]. cbn [set_next set_prev data prev next]. solve_Permutation.
Qed.

Lemma erase_held s L R p x r w Y l rest Q : L ≠ [] → R = (r, w) :: Y → held s (seg 0 (L ++ (p, x) :: R) 0 ++ rest) →
  (∀ s', held s' (seg 0 (L ++ R) 0 ++ rest) → fresh s' = fresh s → Q (r, MkList (theSize l - 1) (head l) (tail l)) s') →
  ensures (erase p l) s Q.
Proof.
  intros HL -> H HQ. destruct (exists_last HL) as (X & [q y] & ->).
  rewrite <-!(assoc_L (++)) in *. cbn [app] in *. rewrite seg_app in *. cbn [seg first_of] in *.
  unfold erase. apply ensures_bind. eapply held_deref; [exact H|cell_in|]. cbn [prev next].
  apply ensures_bind. apply (held_assign _ q (MkNode y (last_of 0 X) p) ((p, MkNode x q r) :: (r, MkNode w p (first_of Y 0)) :: seg 0 X q ++ seg r Y 0 ++ rest)).
  { eapply held_perm; [exact H|solve_Permutation]. } intros s2 H2 F2.
  apply ensures_bind. apply (held_assign _ r (MkNode w p (first_of Y 0)) ((q, MkNode y (last_of 0 X) r) :: (p, MkNode x q r) :: seg 0 X q ++ seg r Y 0 ++ rest)).
  { eapply held_perm; [exact H2|cbn [set_next data prev]; solve_Permutation]. } intros s3 H3 F3.
  apply ensures_bind. apply (held_delete _ p (MkNode x q r) ((q, MkNode y (last_of 0 X) r) :: (r, MkNode w q (first_of Y 0)) :: seg 0 X q ++ seg r Y 0 ++ rest)).
  { eapply held_perm; [exact H3|cbn [set_prev data next]; solve_Permutation]. } intros s4 H4 F4.
  apply ensures_ret. apply HQ; [|lia]. eapply held_perm; [exact H4|]. cbn [set_next set_prev data prev next]. solve_Permutation.
Qed.

(** ** The operations of one list, beside other cells *)

Lemma seg_names pr its nx : (seg pr its nx).*1 = its.*1.
Proof. revert pr. induction its as [|[p x] its IH]; intros pr; [done|]. cbn [seg fmap list_fmap fst]. f_equal. apply IH. Qed.
Lemma chain_end b t : ∃ z Y, b ++ [(t, dflt)] = (first_of b t, z) :: Y.
Proof. destruct b as [|[p z] b]; by eexists _, _. Qed.
Lemma chain_split h t a b : chain h t (a ++ b) = ((h, dflt) :: a) ++ b ++ [(t, dflt)].
Proof. unfold chain. by rewrite <-(assoc_L (++)). Qed.
(** The cells around a position. *)
Lemma cells_split h t a b :
  cells_of (Items h t (a ++ b)) = seg 0 ((h, dflt) :: a) (first_of b t) ++ seg (last_of h a) (b ++ [(t, dflt)]) 0.
Proof.
  cbn [cells_of]. rewrite chain_split, seg_app. destruct (chain_end b t) as (z & Y & ->). done.
Qed.
Lemma cells_at h t a p x b :
  cells_of (Items h t (a ++ (p, x) :: b)) =
  seg 0 ((h, dflt) :: a) p ++ (p, MkNode x (last_of h a) (first_of b t)) :: seg p (b ++ [(t, dflt)]) 0.
Proof. rewrite cells_split. cbn [first_of app seg]. destruct (chain_end b t) as (z & Y & ->). done. Qed.

Lemma names_distinct s h t its rest : held s (cells_of (Items h t its) ++ rest) → NoDup (h :: its.*1 ++ [t]).
Proof.
  intros ([Hd _] & _). rewrite fmap_app in Hd. apply NoDup_app in Hd as (Hd & _). cbn [cells_of] in Hd. rewrite seg_names in Hd.
  unfold chain in Hd. by rewrite fmap_cons, fmap_app in Hd.
Qed.
Lemma list_insert_ok s h t a b x l rest Q : held s (cells_of (Items h t (a ++ b)) ++ rest) →
  (∀ s', held s' (cells_of (Items h t (a ++ (fresh s, x) :: b)) ++ rest) → fresh s' = S (fresh s) →
    Q (fresh s, MkList (theSize l + 1) (head l) (tail l)) s') → ensures (insert (first_of b t) x l) s Q.
Proof.
  cbn [cells_of]. rewrite !chain_split. destruct (chain_end b t) as (z & Y & E). intros H HQ.
  eapply insert_held; [|exact E|exact H|exact HQ]. done.
Qed.

Lemma list_erase_ok s h t a p x b l rest Q : held s (cells_of (Items h t (a ++ (p, x) :: b)) ++ rest) →
  (∀ s', held s' (cells_of (Items h t (a ++ b)) ++ rest) → fresh s' = fresh s →
    Q (first_of b t, MkList (theSize l - 1) (head l) (tail l)) s') → ensures (erase p l) s Q.
Proof.
  cbn [cells_of]. rewrite !chain_split. destruct (chain_end b t) as (z & Y & E). intros H HQ.
  eapply (erase_held _ ((h, dflt) :: a)); [done|exact E|exact H|exact HQ].
Qed.

Lemma list_begin_ok s h t its n rest Q : held s (cells_of (Items h t its) ++ rest) → Q (first_of its t) s → ensures (begin (MkList n h t)) s Q.
Proof.
  intros H HQ. unfold begin. apply ensures_bind. eapply held_deref; [exact H|cbn [cells_of chain seg]; cell_in|].
  apply ensures_ret. cbn [next]. destruct (chain_end its t) as (z & Y & ->). done.
Qed.
Lemma list_at_ok {A} s h t a p x b rest (f : Node → A) Q : held s (cells_of (Items h t (a ++ (p, x) :: b)) ++ rest) →
  Q (f (MkNode x (last_of h a) (first_of b t))) s → ensures (E := Empty_set) (n <- deref p ;; act_ret (f n)) s Q.
Proof. rewrite cells_at. intros H HQ. apply ensures_bind. eapply held_deref; [exact H|cell_in|]. by apply ensures_ret. Qed.
Lemma list_decr_ok s h t a b rest Q : held s (cells_of (Items h t (a ++ b)) ++ rest) → Q (last_of h a) s →
  ensures (decr (first_of b t)) s Q.
Proof.
  rewrite cells_split. intros H HQ. unfold decr. apply ensures_bind. destruct (chain_end b t) as (z & Y & E). rewrite E in H.
  cbn [seg] in H. eapply held_deref; [exact H|cell_in|]. by apply ensures_ret.
Qed.
(** The same at the end. *)
Lemma list_decr_end_ok s h t its rest Q : held s (cells_of (Items h t its) ++ rest) → Q (last_of h its) s → ensures (decr t) s Q.
Proof. intros H HQ. apply (list_decr_ok s h t its [] rest); [by rewrite app_nil_r|done]. Qed.
Lemma list_write_ok s h t a p x y b rest Q : held s (cells_of (Items h t (a ++ (p, x) :: b)) ++ rest) →
  (∀ s', held s' (cells_of (Items h t (a ++ (p, y) :: b)) ++ rest) → fresh s' = fresh s → Q () s') → ensures (write p y) s Q.
Proof.
  rewrite !cells_at. intros H HQ. unfold write.
  apply (held_assign _ p (MkNode x (last_of h a) (first_of b t)) (seg 0 ((h, dflt) :: a) p ++ seg p (b ++ [(t, dflt)]) 0 ++ rest)).
  { eapply held_perm; [exact H|solve_Permutation]. }
  intros s' H' F'. apply HQ; [|done]. eapply held_perm; [exact H'|cbn [set_data prev next]; solve_Permutation].
Qed.

Lemma list_init_ok s rest Q : held s rest →
  (∀ s', held s' (cells_of (Items (fresh s) (fresh s + 1) []) ++ rest) → fresh s' = (fresh s + 2)%nat →
    Q (MkList 0 (fresh s) (fresh s + 1)) s') → ensures init s Q.
Proof.
  intros H HQ. unfold init. apply ensures_bind. eapply held_new; [exact H|]. intros s1 H1 F1.
  apply ensures_bind. eapply held_new; [exact H1|]. intros s2 H2 F2. rewrite F1 in *.
  apply ensures_bind. apply (held_assign _ (fresh s) (MkNode dflt 0 0) ((S (fresh s), MkNode dflt 0 0) :: rest)).
  { eapply held_perm; [exact H2|solve_Permutation]. }
  intros s3 H3 F3. apply ensures_bind.
  apply (held_assign _ (S (fresh s)) (MkNode dflt 0 0) ((fresh s, MkNode dflt 0 (S (fresh s))) :: rest)).
  { eapply held_perm; [exact H3|cbn [set_next data prev]; solve_Permutation]. }
  intros s4 H4 F4. apply ensures_ret. rewrite Nat.add_1_r in HQ. apply HQ; [|lia]. eapply held_perm; [exact H4|].
  cbn [cells_of chain seg app first_of set_prev data next]. solve_Permutation.
Qed.

(** ** Loops *)

Lemma nodes_enough s h t its rest : held s (cells_of (Items h t its) ++ rest) → (length its ≤ nodes s)%nat.
Proof.
  intros (H & _). unfold nodes. rewrite (cells_size _ _ H), length_app. cbn [cells_of].
  rewrite <-(length_fmap fst (seg _ _ _)), seg_names, length_fmap. unfold chain. cbn [length]. rewrite length_app. lia.
Qed.

Lemma list_erase_loop_ok h t a c rest Q m : ∀ fuel s n, held s (cells_of (Items h t (a ++ m ++ c)) ++ rest) → (length m ≤ fuel)%nat →
  (∀ s', held s' (cells_of (Items h t (a ++ c)) ++ rest) → fresh s' = fresh s → Q (MkList (n - zlen m) h t) s') →
  ensures (erase_loop fuel (first_of (m ++ c) t) (first_of c t) (MkList n h t)) s Q.
Proof.
  induction m as [|[p x] m IH]; intros fuel s n H Hf HQ.
  { destruct fuel; cbn [erase_loop app]; rewrite Nat.eqb_refl; apply ensures_ret; rewrite <-(Z.sub_0_r n); by apply HQ. }
  destruct fuel as [|fuel]; cbn [length] in Hf; [lia|]. cbn [erase_loop app first_of].
  pose proof (names_distinct _ _ _ _ _ H) as Hd. destruct (Nat.eqb_spec p (first_of c t)) as [->|Hp].
  { exfalso. rewrite !fmap_app in Hd. cbn [app fmap list_fmap fst] in Hd.
    apply NoDup_cons in Hd as [_ Hd]. rewrite <-(assoc_L (++)) in Hd. apply NoDup_app in Hd as (_ & _ & Hd).
    apply NoDup_cons in Hd as [Hd _]. apply Hd. rewrite !elem_of_app. destruct c as [|[q z] c]; cbn; set_solver. }
  apply ensures_bind. eapply list_erase_ok; [exact H|]. intros s1 H1 F1. cbn [theSize head tail fst snd].
  apply IH; [done|lia|]. intros s2 H2 F2. replace (n - 1 - zlen m) with (n - zlen ((p, x) :: m)) by (rewrite zlen_cons; lia).
  apply HQ; [done|lia].
Qed.

Lemma list_pop_front_ok s h t n p x its rest Q : held s (cells_of (Items h t ((p, x) :: its)) ++ rest) →
  (∀ s', held s' (cells_of (Items h t its) ++ rest) → fresh s' = fresh s → Q (MkList (n - 1) h t) s') →
  ensures (pop_front (MkList n h t)) s Q.
Proof.
  intros H HQ. unfold pop_front. apply ensures_bind. eapply list_begin_ok; [exact H|]. cbn [first_of].
  apply ensures_bind. eapply (list_erase_ok _ _ _ []); [exact H|]. intros s1 H1 F1. apply ensures_ret. by apply HQ.
Qed.

Lemma list_clear_loop_ok h t rest Q its : ∀ fuel s, held s (cells_of (Items h t its) ++ rest) → (length its ≤ fuel)%nat →
  (∀ s', held s' (cells_of (Items h t []) ++ rest) → fresh s' = fresh s → Q (MkList 0 h t) s') →
  ensures (clear_loop fuel (MkList (zlen its) h t)) s Q.
Proof.
  induction its as [|[p x] its IH]; intros fuel s H Hf HQ.
  { destruct fuel; cbn [clear_loop]; apply ensures_ret; by apply HQ. }
  destruct fuel as [|fuel]; cbn [length] in Hf; [lia|]. cbn [clear_loop]. unfold empty, size. cbn [theSize].
  pose proof (zlen_nonneg its). rewrite (proj2 (Z.eqb_neq _ _)) by (rewrite zlen_cons; lia).
  apply ensures_bind. eapply list_pop_front_ok; [exact H|]. intros s1 H1 F1.
  replace (zlen ((p, x) :: its) - 1) with (zlen its) by (rewrite zlen_cons; lia).
  apply IH; [done|lia|]. intros s2 H2 F2. apply HQ; [done|lia].
Qed.
Lemma list_clear_ok s h t its rest Q : held s (cells_of (Items h t its) ++ rest) →
  (∀ s', held s' (cells_of (Items h t []) ++ rest) → fresh s' = fresh s → Q (MkList 0 h t) s') →
  ensures (clear (MkList (zlen its) h t)) s Q.
Proof. intros H HQ. unfold clear. act_auto. eapply list_clear_loop_ok; [exact H|by eapply nodes_enough|done]. Qed.

Lemma list_destroy_ok s c rest Q : held s (cells_of c ++ rest) → (∀ s', held s' rest → fresh s' = fresh s → Q () s') →
  ensures (destroy (obj_of c)) s Q.
Proof.
  intros H HQ. destruct c as [|h t its].
  { exists (), s. split; [|by apply HQ]. unfold destroy, clear, act_bind, get_state. by destruct (nodes s). }
  unfold destroy. apply ensures_bind. cbn [obj_of]. eapply list_clear_ok; [exact H|]. intros s1 H1 F1. cbn [head tail].
  cbn [cells_of chain app seg first_of] in H1. apply ensures_bind. eapply held_delete; [exact H1|]. intros s2 H2 F2.
  eapply held_delete; [exact H2|]. intros s3 H3 F3. apply HQ; [done|lia].
Qed.

Lemma list_push_back_ok s h t n x its rest Q : held s (cells_of (Items h t its) ++ rest) →
  (∀ s', held s' (cells_of (Items h t (its ++ [(fresh s, x)])) ++ rest) → fresh s' = S (fresh s) → Q (MkList (n + 1) h t) s') →
  ensures (push_back x (MkList n h t)) s Q.
Proof.
  intros H HQ. unfold push_back. apply ensures_bind. change (end_ (MkList n h t)) with (first_of [] t).
  apply (list_insert_ok s h t its [] x _ rest); [by rewrite app_nil_r|]. intros s1 H1 F1. apply ensures_ret. by apply HQ.
Qed.

Lemma list_copy_loop_ok h t h' t' rest Q b : ∀ fuel s a its' n,
  held s (cells_of (Items h' t' its') ++ cells_of (Items h t (a ++ b)) ++ rest) → (length b ≤ fuel)%nat →
  (∀ s', held s' (cells_of (Items h' t' (its' ++ zip (seq (fresh s) (length b)) b.*2)) ++ cells_of (Items h t (a ++ b)) ++ rest) →
    fresh s' = (fresh s + length b)%nat → Q (MkList (n + zlen b) h' t') s') →
  ensures (copy_loop fuel (first_of b t) t (MkList n h' t')) s Q.
Proof.
  induction b as [|[p x] b IH]; intros fuel s a its' n H Hf HQ.
  { destruct fuel; cbn [copy_loop first_of]; rewrite Nat.eqb_refl; apply ensures_ret; rewrite <-(Z.add_0_r n);
      (apply HQ; [by rewrite app_nil_r|cbn; lia]). }
  destruct fuel as [|fuel]; cbn [length] in Hf; [lia|]. cbn [copy_loop first_of].
  assert (Hsrc : ∀ s, held s (cells_of (Items h' t' its') ++ cells_of (Items h t (a ++ (p, x) :: b)) ++ rest) →
    held s (cells_of (Items h t (a ++ (p, x) :: b)) ++ cells_of (Items h' t' its') ++ rest)).
  { intros s0 H0. eapply held_perm; [exact H0|solve_Permutation]. }
  pose proof (names_distinct _ _ _ _ _ (Hsrc s H)) as Hd. destruct (Nat.eqb_spec p t) as [->|Hp].
  { exfalso. apply NoDup_cons in Hd as [_ Hd]. rewrite fmap_app, <-(assoc_L (++)) in Hd.
    apply NoDup_app in Hd as (_ & _ & Hd). cbn in Hd. apply NoDup_cons in Hd as [Hd _]. set_solver. }
  apply ensures_bind. apply (list_at_ok _ _ _ _ _ _ _ _ data _ (Hsrc s H)). cbn [data].
  apply ensures_bind. eapply list_push_back_ok; [exact H|]. intros s1 H1 F1.
  apply ensures_bind. apply (list_at_ok s1 h t a p x b (cells_of (Items h' t' (its' ++ [(fresh s, x)])) ++ rest) next).
  { eapply held_perm; [exact H1|solve_Permutation]. }
  cbn [next].
  assert (Ea : (a ++ [(p, x)]) ++ b = a ++ (p, x) :: b) by by rewrite <-(assoc_L (++)).
  pose proof (IH fuel s1 (a ++ [(p, x)]) (its' ++ [(fresh s, x)]) (n + 1)) as IH'. rewrite Ea in IH'. apply IH'; [exact H1|lia|]. rewrite F1. intros s2 H2 F2.
  replace (n + 1 + zlen b) with (n + zlen ((p, x) :: b)) by (rewrite zlen_cons; lia). apply HQ; [|cbn [length]; lia].
  cbn [length seq fmap list_fmap snd zip]. by rewrite <-!(assoc_L (++)) in H2.
Qed.

Lemma list_copy_ok s h t n its rest Q : held s (cells_of (Items h t its) ++ rest) →
  (∀ s', held s' (cells_of (Items (fresh s) (fresh s + 1) (copied (fresh s) its)) ++ cells_of (Items h t its) ++ rest) →
    fresh s' = (fresh s + (2 + length its))%nat → Q (MkList (zlen its) (fresh s) (fresh s + 1)) s') →
  ensures (copy (MkList n h t)) s Q.
Proof.
  intros H HQ. unfold copy. apply ensures_bind. eapply list_init_ok; [exact H|]. intros s1 H1 F1.
  apply ensures_bind. apply (list_begin_ok s1 h t its n (cells_of (Items (fresh s) (fresh s + 1) []) ++ rest)).
  { eapply held_perm; [exact H1|solve_Permutation]. }
  apply ensures_bind, ensures_get. change (end_ (MkList n h t)) with t.
  eapply (list_copy_loop_ok h t _ _ rest Q its _ s1 [] []); [exact H1| |].
  - apply (nodes_enough s1 h t its (cells_of (Items (fresh s) (fresh s + 1) []) ++ rest)). eapply held_perm; [exact H1|solve_Permutation].
  - rewrite F1. intros s2 H2 F2. apply HQ; [done|lia].
Qed.

(** ** All lists *)

(** The objects and the memory that stand for the contents. *)
Record rep (A : world) (vs : vars) (s : heap) : Prop := {
  rep_vars : vs = obj_of <$> lists A;
  rep_held : held s (all_cells cells_of (lists A));
  rep_names : fresh s = names A
}.

Lemma list_var_ok A vs s v c Q : rep A vs s → lists A !! v = Some c → Q (obj_of c) s → ensures (var v vs) s Q.
Proof. intros [-> _ _] Hv HQ. unfold var. rewrite lookup_fmap, Hv. by apply ensures_ret. Qed.
Lemma list_rep_at A vs s v c : rep A vs s → lists A !! v = Some c → held s (cells_of c ++ all_cells cells_of (delete v (lists A))).
Proof. intros [_ H _] Hv. eapply held_perm; [exact H|]. by apply all_cells_delete. Qed.
(** One list has changed. *)
Lemma list_rep_set A vs s s' v c n : rep A vs s → held s' (cells_of c ++ all_cells cells_of (delete v (lists A))) → fresh s' = n →
  rep (World (<[v := c]> (lists A)) n) (<[v := obj_of c]> vs) s'.
Proof. intros [-> _ _] H F. split; cbn [lists names]; [by rewrite fmap_insert|by eapply held_perm; [exact H|symmetry; apply all_cells_update]|done]. Qed.

Lemma list_split_at_ok p t its a b : split_at p t its = Some (a, b) → its = a ++ b ∧ p = first_of b t.
Proof.
  revert a b. induction its as [|[q x] its IH]; intros a b E; cbn [split_at] in E.
  - destruct (Nat.eqb_spec p t); by simplify_eq.
  - destruct (Nat.eqb_spec p q) as [->|]; [by simplify_eq|]. destruct (split_at p t its) as [[a' b']|]; [|done].
    cbn in E. simplify_eq. destruct (IH a' b eq_refl) as [-> ->]. done.
Qed.
Lemma get_items_some v A h t its : get_items v A = Some (h, t, its) ↔ lists A !! v = Some (Items h t its).
Proof. unfold get_items. destruct (lists A !! v) as [[|]|]; naive_solver. Qed.

(** One call does what the contract says. *)
Definition does (c : call) : Prop := ∀ A vs s ans A', rep A vs s → spec_call c A = Some (ans, A') →
  ensures (perform c vs) s (λ r s', r.1 = ans ∧ rep A' r.2 s').

(** Split the evaluation [E] of the contract. *)
Ltac spec_steps E :=
  unfold at_pos, unused in E; cbn [mbind option_bind] in E;
  repeat (match type of E with
  | context [get_items ?v ?A] => destruct (get_items v A) as [[[??]?]|] eqn:?; cbn [mbind option_bind] in E; [|done]
  | context [split_at ?p ?t ?l] => destruct (split_at p t l) as [[??]|] eqn:?; cbn [mbind option_bind] in E; [|done]
  | context [lists ?A !! ?v ≫= _] => destruct (lists A !! v) eqn:?; cbn [mbind option_bind] in E; [|done]
  | context [decide ?P] => destruct (decide P); cbn [mbind option_bind] in E; [|done]
  end);
  repeat match goal with
  | H : get_items _ _ = Some _ |- _ => apply get_items_some in H
  | H : split_at _ _ _ = Some _ |- _ => apply list_split_at_ok in H as [-> ->]
  end; try (injection E as <- <-).

(** A call that works on the list [v]. *)
Definition becomes (v : nat) (A : world) (ans : answer) (A' : world) (r : answer * List) (s' : heap) : Prop :=
  ∃ c, r = (ans, obj_of c) ∧ held s' (cells_of c ++ all_cells cells_of (delete v (lists A))) ∧ A' = World (<[v := c]> (lists A)) (fresh s').
Lemma list_on_does A vs s v c f ans A' : rep A vs s → lists A !! v = Some c →
  ensures (f (obj_of c)) s (becomes v A ans A') → ensures (on v f vs) s (λ r s', r.1 = ans ∧ rep A' r.2 s').
Proof.
  intros HR Hv Hf. unfold on. apply ensures_bind. eapply list_var_ok; [done..|]. apply ensures_bind.
  eapply ensures_weaken; [exact Hf|]. intros r s' (c' & -> & H' & ->). apply ensures_ret. split; [done|].
  by apply (list_rep_set _ _ s).
Qed.

(** The list [v] with its cells, as [Hh]. *)
Ltac cells_of_list v :=
  match goal with HR : rep ?A _ _, Hl : lists ?A !! v = Some _ |- _ =>
    pose proof (list_rep_at _ _ _ _ _ HR Hl) as Hh; pose proof (rep_names _ _ _ HR) as Hn end.
Ltac begin_on v := cells_of_list v; eapply (list_on_does _ _ _ v); [eassumption..|]; unfold itr_of, unit_of; cbn [obj_of]; apply ensures_bind.
Ltac begin_call E := intros A vs s ans A' HR E; cbn [spec_call] in E; spec_steps E; cbn [perform].
(** The list now has the items that [H'] says. *)
Ltac ends_with H' :=
  apply ensures_ret; refine (ex_intro _ (Items _ _ _) (conj _ (conj H' _)));
    [cbn; f_equal; f_equal; autorewrite with zlist; lia|unfold more_names, set_items; cbn; f_equal; lia].

Lemma list_insert_does v itr x : does (Insert v itr x).
Proof.
  begin_call E. begin_on v. eapply list_insert_ok; [exact Hh|]. intros s' H' F'. rewrite <-Hn. ends_with H'.
Qed.
Lemma list_erase_does v itr : does (Erase v itr).
Proof.
  begin_call E. destruct l1 as [|[p x] b]; [done|]. injection E as <- <-. begin_on v.
  eapply list_erase_ok; [exact Hh|]. intros s' H' F'. ends_with H'.
Qed.
Lemma list_erase_range_does v from to : does (EraseRange v from to).
Proof.
  begin_call E. begin_on v. unfold erase_range. apply ensures_bind, ensures_get, ensures_bind.
  eapply list_erase_loop_ok; [exact Hh| |].
  - apply nodes_enough in Hh. rewrite !length_app in Hh. lia.
  - intros s' H' F'. apply ensures_ret. ends_with H'.
Qed.
Lemma list_push_front_does v x : does (PushFront v x).
Proof.
  begin_call E. begin_on v. unfold push_front. apply ensures_bind. eapply list_begin_ok; [exact Hh|].
  apply ensures_bind. eapply (list_insert_ok _ _ _ []); [exact Hh|]. intros s' H' F'. apply ensures_ret. rewrite <-Hn. ends_with H'.
Qed.
Lemma list_push_back_does v x : does (PushBack v x).
Proof. begin_call E. begin_on v. eapply list_push_back_ok; [exact Hh|]. intros s' H' F'. rewrite <-Hn. ends_with H'. Qed.
Lemma list_pop_front_does v : does (PopFront v).
Proof.
  begin_call E. destruct l as [|[p x] its]; [done|]. injection E as <- <-. begin_on v.
  eapply list_pop_front_ok; [exact Hh|]. intros s' H' F'. ends_with H'.
Qed.
Lemma list_pop_back_does v : does (PopBack v).
Proof.
  begin_call E. destruct (last l) as [[p x]|] eqn:El; [|done]. cbn in E. injection E as <- <-.
  apply last_Some in El as [its ->]. rewrite removelast_last. begin_on v.
  unfold pop_back. apply ensures_bind. eapply list_decr_end_ok; [exact Hh|].
  rewrite last_of_app. cbn [last_of]. apply ensures_bind. eapply (list_erase_ok _ _ _ its p x []); [exact Hh|]. intros s' H' F'.
  rewrite app_nil_r in H'. apply ensures_ret. ends_with H'.
Qed.
Lemma list_clear_does v : does (Clear v).
Proof.
  begin_call E. destruct c as [|h t its].
  - cells_of_list v. eapply list_on_does; [eassumption..|]. exists (Done, MkList 0 0 0), s.
    split; [by unfold unit_of, clear, act_bind, get_state; destruct (nodes s)|]. exists Null. split_and!; [done|done|].
    rewrite insert_id by done. rewrite Hn. by destruct A.
  - begin_on v. eapply list_clear_ok; [exact Hh|]. intros s' H' F'. ends_with H'.
Qed.
(** ** Reads *)

Ltac reads v := cells_of_list v; apply ensures_bind; eapply list_var_ok; [eassumption..|]; cbn [obj_of].
Lemma list_front_does v : does (Front v).
Proof.
  begin_call E. destruct l as [|[p x] its]; [done|]. cbn in E. injection E as <- <-. reads v.
  unfold front. apply ensures_bind, ensures_bind. eapply list_begin_ok; [exact Hh|]. eapply (list_at_ok _ _ _ []); [exact Hh|].
  by apply ensures_ret.
Qed.
Lemma list_back_does v : does (Back v).
Proof.
  begin_call E. destruct (last l) as [[p x]|] eqn:El; [|done]. cbn in E. injection E as <- <-.
  apply last_Some in El as [its ->]. reads v. unfold back. apply ensures_bind, ensures_bind. eapply list_decr_end_ok; [exact Hh|].
  rewrite last_of_app. eapply list_at_ok; [exact Hh|]. by apply ensures_ret.
Qed.
Lemma list_size_does v : does (Size v).
Proof. begin_call E. reads v. apply ensures_ret. split; [|done]. by destruct c. Qed.
Lemma list_empty_does v : does (Empty v).
Proof.
  begin_call E. reads v. apply ensures_ret. split; [|done]. destruct c as [|h t [|i its]]; [done..|].
  unfold empty, size. cbn. pose proof (zlen_nonneg its). by rewrite (proj2 (Z.eqb_neq _ _)) by (rewrite zlen_cons; lia).
Qed.
Lemma list_begin_does v : does (Begin v).
Proof. begin_call E. reads v. apply ensures_bind. eapply list_begin_ok; [exact Hh|]. by apply ensures_ret. Qed.
Lemma list_end_does v : does (End v).
Proof. begin_call E. reads v. by apply ensures_ret. Qed.

Lemma list_incr_does v itr : does (Incr v itr).
Proof.
  begin_call E. destruct l1 as [|[p x] b]; [done|]. injection E as <- <-. cells_of_list v.
  apply ensures_bind. eapply list_at_ok; [exact Hh|]. by apply ensures_ret.
Qed.
Lemma list_decr_does v itr : does (Decr v itr).
Proof.
  begin_call E. destruct l0 as [|[p x] b]; [done|]. injection E as <- <-. cells_of_list v.
  apply ensures_bind. eapply list_decr_ok; [exact Hh|]. by apply ensures_ret.
Qed.
Lemma list_read_does v itr : does (Read v itr).
Proof.
  begin_call E. destruct l1 as [|[p x] b]; [done|]. injection E as <- <-. cells_of_list v.
  apply ensures_bind. eapply list_at_ok; [exact Hh|]. by apply ensures_ret.
Qed.
Lemma list_write_does v itr x : does (Write v itr x).
Proof.
  begin_call E. destruct l1 as [|[p y] b]; [done|]. injection E as <- <-. cells_of_list v.
  apply ensures_bind. eapply list_write_ok; [exact Hh|]. intros s' H' F'. apply ensures_ret. split; [done|].
  rewrite <-(insert_id vs v (obj_of (Items n n0 (l0 ++ (p, y) :: b)))).
  - replace (obj_of (Items n n0 (l0 ++ (p, y) :: b))) with (obj_of (Items n n0 (l0 ++ (p, x) :: b)));
      [|cbn; by rewrite !zlen_app, !zlen_cons]. eapply list_rep_set; [exact HR|exact H'|lia].
  - rewrite (rep_vars _ _ _ HR), lookup_fmap. by rewrite Heqo.
Qed.

(** ** Whole lists *)

Lemma list_new_does v : does (New v).
Proof.
  begin_call E. pose proof (rep_names _ _ _ HR) as Hn. apply ensures_bind. eapply list_init_ok; [exact (rep_held _ _ _ HR)|]. intros s' H' F'.
  apply ensures_ret. split; [done|]. rewrite <-Hn. 
  apply (list_rep_set A vs s s' v (Items (fresh s) (fresh s + 1) [])); [done| |cbn; lia].
  by rewrite delete_id.
Qed.
Lemma list_copy_does v w : does (Copy v w).
Proof.
  begin_call E. cells_of_list w. apply ensures_bind. eapply list_var_ok; [eassumption..|]. apply ensures_bind. cbn [obj_of].
  eapply list_copy_ok; [exact Hh|]. intros s' H' F'. apply ensures_ret. split; [done|]. rewrite <-Hn.
  replace (MkList (zlen l) (fresh s) (fresh s + 1)) with (obj_of (Items (fresh s) (fresh s + 1) (copied (fresh s) l))).
  - apply (list_rep_set A vs s); [done| |cbn; lia]. rewrite (delete_id _ v) by done.
    eapply held_perm; [exact H'|]. apply Permutation_app_head. symmetry. by apply all_cells_delete.
  - cbn. f_equal. unfold copied, zlen. rewrite length_zip_with, length_seq, length_fmap. lia.
Qed.
Lemma list_move_does v w : does (Move v w).
Proof.
  begin_call E. cells_of_list w. apply ensures_bind. eapply list_var_ok; [eassumption..|]. cbn [move]. apply ensures_ret. split; [done|].
  split; cbn [lists names snd]; [by rewrite (rep_vars _ _ _ HR), !fmap_insert| |done].
  assert (v ≠ w) by congruence.
  eapply held_perm; [exact Hh|]. rewrite all_cells_insert by (by rewrite lookup_insert_ne). by rewrite all_cells_update.
Qed.
Lemma list_copy_assign_does v w : does (CopyAssign v w).
Proof.
  begin_call E. cells_of_list w. apply ensures_bind. eapply list_var_ok; [eassumption..|]. apply ensures_bind. eapply list_var_ok; [eassumption..|].
  cbn [obj_of]. apply ensures_bind. unfold copy_assign. apply ensures_bind. eapply list_copy_ok; [exact Hh|]. intros s1 H1 F1.
  cbn [move move_assign]. apply ensures_bind. eapply (list_destroy_ok _ Null); [exact H1|]. intros s2 H2 F2.
  set (new := cells_of (Items (fresh s) _ _)) in *. apply ensures_bind.
  eapply (list_destroy_ok _ c (new ++ all_cells cells_of (delete v (lists A)))).
  { eapply held_perm; [exact H2|]. etransitivity; [apply Permutation_app_head; symmetry; by apply all_cells_delete|].
    rewrite (all_cells_delete _ _ v) by done. solve_Permutation. }
  intros s3 H3 F3. apply ensures_ret, ensures_ret. split; [done|]. rewrite <-Hn.
  replace (MkList (zlen l) (fresh s) (fresh s + 1)) with (obj_of (Items (fresh s) (fresh s + 1) (copied (fresh s) l))).
  - apply (list_rep_set A vs s); [done|done|cbn; lia].
  - cbn. f_equal. unfold copied, zlen. rewrite length_zip_with, length_seq, length_fmap. lia.
Qed.
Lemma list_move_assign_does v w : does (MoveAssign v w).
Proof.
  begin_call E. cells_of_list w. apply ensures_bind. eapply list_var_ok; [eassumption..|]. apply ensures_bind. eapply list_var_ok; [eassumption..|].
  cbn [move_assign]. apply ensures_ret. split; [done|].
  split; cbn [lists names snd]; [by rewrite (rep_vars _ _ _ HR), !fmap_insert| |done].
  destruct (decide (v = w)) as [->|Hne].
  { simplify_eq. rewrite !insert_id by (done || by rewrite insert_id). exact (rep_held _ _ _ HR). }
  eapply held_perm; [exact Hh|]. rewrite all_cells_update, (delete_insert_ne _ _ _ _ Hne), all_cells_update.
  apply Permutation_app_head. rewrite (all_cells_delete _ (delete w _) v); [by rewrite delete_delete|by rewrite lookup_delete_ne].
Qed.
Lemma list_destroy_does v : does (Destroy v).
Proof.
  begin_call E. cells_of_list v. apply ensures_bind. eapply list_var_ok; [eassumption..|]. apply ensures_bind.
  eapply list_destroy_ok; [exact Hh|]. intros s' H' F'. apply ensures_ret. split; [done|].
  split; cbn [lists names snd]; [by rewrite (rep_vars _ _ _ HR), fmap_delete|done|lia].
Qed.

Lemma list_perform_does c : does c.
Proof.
  destruct c; auto using list_new_does, list_copy_does, list_move_does, list_copy_assign_does, list_move_assign_does, list_destroy_does, list_insert_does, list_erase_does,
    list_erase_range_does, list_push_front_does, list_push_back_does, list_pop_front_does, list_pop_back_does, list_clear_does, list_front_does, list_back_does, list_size_does,
    list_empty_does, list_begin_does, list_end_does, list_incr_does, list_decr_does, list_read_does, list_write_does.
Qed.
Lemma list_run_does (cs : list call) : ∀ A vs s ans A', rep A vs s → spec_run cs A = Some (ans, A') →
  ensures (run cs vs) s (λ r s', r.1 = ans ∧ rep A' r.2 s').
Proof.
  induction cs as [|c cs IH]; intros A vs s ans A' HR E; cbn [run spec_run] in *; [simplify_eq; by apply ensures_ret|].
  destruct (spec_call c A) as [[x A1]|] eqn:E1; [|done]. cbn in E. destruct (spec_run cs A1) as [[xs A2]|] eqn:E2; [|done].
  cbn in E. simplify_eq. apply ensures_bind. eapply ensures_weaken; [by eapply list_perform_does|]. intros r s1 [<- H1].
  apply ensures_bind. eapply ensures_weaken; [by eapply IH|]. intros r2 s2 [<- H2]. by apply ensures_ret.
Qed.
End Class.

(** C28: Linked lists are sequences.  Whatever lists are made, copied, moved, assigned (also to themselves) and destroyed, and
    whatever is inserted, erased and read through iterators, as long as each iterator stands at an item or the end of its
    list: no null or deleted node is touched, every loop ends, and every call answers as on the sequences of named
    items, so that an iterator stays with its item and lists are independent of each other.  The memory consists of the
    linked sentinels and items of the lists; when all of them are destroyed it is empty. *)
Theorem lists_are_sequences {K} (dflt : K) (cs : list call) (ans : list answer) (A : world) :
  spec_run cs (World ∅ 1) = Some (ans, A) →
  ∃ vs s, run dflt cs ∅ (Heap ∅ 1) = (Val (ans, vs), s) ∧ vs = obj_of <$> lists A ∧ holds (store s) (all_cells (cells_of dflt) (lists A)) ∧
    (lists A = ∅ → store s = ∅).
Proof.
  intros E. assert (H0 : rep dflt (World ∅ 1) ∅ (Heap ∅ 1)).
  { split; cbn [lists names]; [by rewrite fmap_empty| |done]. split_and!; cbn; [split; [constructor|done]|constructor|lia]. }
  destruct (list_run_does dflt cs _ _ _ _ _ H0 E) as ([a vs] & s & Er & Ea & HR). cbn [fst snd] in *. subst a. exists vs, s.
  split_and!; [done|by apply (rep_vars _ _ _ _ HR)|by apply (rep_held _ _ _ _ HR)|].
  intros Ee. destruct (rep_held _ _ _ _ HR) as ([_ Es] & _). by rewrite Es, Ee.
Qed.

Definition sample : list (call (K:=Z)) :=
  [New 0; PushBack 0 10; PushBack 0 20; PushBack 0 30; Insert 0 4 15; Copy 1 0; Erase 0 3; Read 0 4; Incr 0 4; MoveAssign 0 1;
   EraseRange 0 10 12; Front 0; Back 0; Size 1; CopyAssign 1 1; Move 2 1; CopyAssign 0 2; Destroy 0; Destroy 1; Destroy 2].
Definition sample_answers : list answer :=
  [Done; Done; Done; Done; Iterator 6; Done; Iterator 6; Value 20; Iterator 5; Done; Iterator 12; Value 10; Value 30; Int 3;
   Done; Done; Done; Done; Done; Done].
Lemma lists_are_sequences_witness : ∃ vs s, run 0 sample ∅ (Heap ∅ 1) = (Val (sample_answers, vs), s) ∧ store s = ∅.
Proof.
  assert (E : spec_run sample (World ∅ 1) = Some (sample_answers, World ∅ 23)) by (vm_compute; reflexivity).
  destruct (lists_are_sequences 0 sample sample_answers (World ∅ 23) E) as (vs & s & Er & _ & _ & Hs).
  exists vs, s. split; [exact Er|]. by apply Hs.
Defined.

(** Outside of the contract: an iterator of another list is not noticed and leaves wrong sizes; a moved-from list has no
    sentinels; the end can be erased. *)
Lemma foreign_iterator_is_not_noticed :
  (run 0 [New 0; New 1; Insert 0 4 10; Size 0; Size 1; Begin 1] ∅ (Heap ∅ 1)).1 =
    Val ([Done; Done; Iterator 5; Int 1; Int 0; Iterator 5], {[0%nat := MkList 1 1 2; 1%nat := MkList 0 3 4]}).
Proof. by vm_compute. Qed.
Lemma moved_from_list_is_used : (run 0 [New 0; Move 1 0; PushBack 0 10] ∅ (Heap ∅ 1)).1 = Ub.
Proof. by vm_compute. Qed.
Lemma end_is_erased : (run 0 [New 0; Erase 0 2] ∅ (Heap ∅ 1)).1 = Ub.
Proof. by vm_compute. Qed.
End LinkedList.
