(* ===== verification/Vector.v ===== *)
(** * Vector.h of codeC++11: growing arrays

    An array that [new] makes is a block of the memory of [NodeStore]; a vector
    object is its three fields.  [int] is the machine type: an overflow is undefined
    behaviour.  The contract keeps a vector as its items and the spare
    elements behind them, which resize() can bring back. *)
From S2P Require Import Prelude Hoare NodeStore.
Import Memory.

Module Vector.

Inductive exception := ArrayIndexOutOfBoundsException | UnderflowException | bad_array_new_length.

Section Class.
Context {K : Type} (dflt : K).

Record Vector := MkVector { theSize : Z; theCapacity : Z; objects : nat }.
Abbreviation heap := (heap (list K)).
Definition io (A : Type) : Type := act heap exception A.

Definition SPARE_CAPACITY : Z := 2.

(** A result of int arithmetic. *)
Definition is_int (z : Z) : bool := bool_decide (- 2 ^ 31 <= z < 2 ^ 31).
Definition int (z : Z) : io Z := if is_int z then act_ret z else undefined.

(** [new Object[n]], [p[k]] and [p[k] = x] *)
Definition new_array (n : Z) : io nat := if n <? 0 then throw bad_array_new_length else new (replicate (Z.to_nat n) dflt).
Definition get (p : nat) (k : Z) : io K :=
  b <- deref p ;; if k <? 0 then undefined else match b !! Z.to_nat k with Some x => act_ret x | None => undefined end.
Definition set (p : nat) (k : Z) (x : K) : io () := get p k ;;; assign p (λ b, <[Z.to_nat k := x]> b).

(** [for( ; n != 0; ++k, --n ) to[k] = from[k]] *)
Fixpoint copy_elements (n : nat) (k : Z) (from to : nat) : io () :=
  match n with
  | O => act_ret ()
  | S n => x <- get from k ;; set to k x ;;; copy_elements n (k + 1) from to
  end.

Definition construct (initSize : Z) : io Vector :=
  c <- int (initSize + SPARE_CAPACITY) ;;
  p <- new_array c ;;
  act_ret (MkVector initSize c p).

Definition copy (rhs : Vector) : io Vector :=
  p <- new_array (theCapacity rhs) ;;
  copy_elements (Z.to_nat (theSize rhs)) 0 (objects rhs) p ;;;
  act_ret (MkVector (theSize rhs) (theCapacity rhs) p).

(** The destructor. *)
Definition destroy (v : Vector) : io () := delete_node (objects v).

(** The move constructor: the new vector and what is left of [rhs]. *)
Definition move (rhs : Vector) : Vector * Vector := (rhs, MkVector 0 0 0).
(** operator=( Vector && ) exchanges the fields. *)
Definition move_assign (this rhs : Vector) : Vector * Vector := (rhs, this).
(** operator=( const Vector & ): [std::swap] moves three times. *)
Definition copy_assign (this rhs : Vector) : io Vector :=
  copy <- copy rhs ;;
  let '(tmp, this) := move this in
  let '(this, copy) := move_assign this copy in
  let '(copy, tmp) := move_assign copy tmp in
  destroy tmp ;;; destroy copy ;;; act_ret this.

Definition size (v : Vector) : Z := theSize v.
Definition empty (v : Vector) : bool := size v =? 0.
Definition capacity (v : Vector) : Z := theCapacity v.

(** operator[]: the address of the element. *)
Definition index (i : Z) (v : Vector) : io (nat * Z) :=
  if (i <? 0) || (size v <=? i) then throw ArrayIndexOutOfBoundsException else act_ret (objects v, i).

Definition reserve (newCapacity : Z) (v : Vector) : io Vector :=
  if newCapacity <? theSize v then act_ret v
  else
    newArray <- new_array newCapacity ;;
    copy_elements (Z.to_nat (theSize v)) 0 (objects v) newArray ;;;
    delete_node (objects v) ;;;
    act_ret (MkVector (theSize v) newCapacity newArray).

Definition resize (newSize : Z) (v : Vector) : io Vector :=
  v <- (if theCapacity v <? newSize then n <- int (newSize * 2) ;; reserve n v else act_ret v) ;;
  act_ret (MkVector newSize (theCapacity v) (objects v)).

(** The argument of push_back is a reference, to an object elsewhere or to an element of an array. *)
Inductive argument := Object (x : K) | Element (p : nat) (k : Z).
Definition value (a : argument) : io K := match a with Object x => act_ret x | Element p k => get p k end.

Definition push_back (a : argument) (v : Vector) : io Vector :=
  v <- (if theSize v =? theCapacity v then n <- int (2 * theCapacity v + 1) ;; reserve n v else act_ret v) ;;
  x <- value a ;;
  n <- int (theSize v + 1) ;;
  set (objects v) (theSize v) x ;;;
  act_ret (MkVector n (theCapacity v) (objects v)).

Definition pop_back (v : Vector) : io Vector :=
  if empty v then throw UnderflowException else act_ret (MkVector (theSize v - 1) (theCapacity v) (objects v)).
Definition back (v : Vector) : io K :=
  if empty v then throw UnderflowException else get (objects v) (theSize v - 1).

(** Pointers as iterators. *)
Definition begin (v : Vector) : nat * Z := (objects v, 0).
Definition end_ (v : Vector) : nat * Z := (objects v, size v).
Fixpoint iterate (n : nat) (itr : nat * Z) : io (list K) :=
  match n with
  | O => act_ret []
  | S n => x <- get itr.1 itr.2 ;; xs <- iterate n (itr.1, itr.2 + 1) ;; act_ret (x :: xs)
  end.
(** [for( auto x : v )] *)
Definition items (v : Vector) : io (list K) := iterate (Z.to_nat ((end_ v).2 - (begin v).2)) (begin v).

(** ** Programs over vector variables *)

Inductive call :=
| New (v : nat) (initSize : Z) | Copy (v w : nat) | Move (v w : nat) | CopyAssign (v w : nat) | MoveAssign (v w : nat) | Destroy (v : nat)
| Get (v : nat) (i : Z) | Set_ (v : nat) (i : Z) (x : K)
| PushBack (v : nat) (x : K) | PushBackRef (v w : nat) (i : Z)   (** [v.push_back( w[i] )] *)
| PopBack (v : nat) | Back (v : nat) | Resize (v : nat) (newSize : Z) | Reserve (v : nat) (newCapacity : Z)
| Size (v : nat) | Capacity (v : nat) | Empty (v : nat) | ForEach (v : nat).

Inductive answer := Done | Value (x : K) | Int (n : Z) | Bool (b : bool) | Values (xs : list K) | Thrown (e : exception).

Abbreviation vars := (gmap nat Vector).
Definition var (v : nat) (vs : vars) : io Vector := match vs !! v with Some o => act_ret o | None => undefined end.
Definition on (v : nat) (f : Vector → io Vector) (vs : vars) : io (answer * vars) :=
  o <- var v vs ;; o <- f o ;; act_ret (Done, <[v := o]> vs).

Definition perform (c : call) (vs : vars) : io (answer * vars) :=
  match c with
  | New v n => o <- construct n ;; act_ret (Done, <[v := o]> vs)
  | Copy v w => rhs <- var w vs ;; o <- copy rhs ;; act_ret (Done, <[v := o]> vs)
  | Move v w => rhs <- var w vs ;; let '(o, rhs) := move rhs in act_ret (Done, <[v := o]> (<[w := rhs]> vs))
  | CopyAssign v w => this <- var v vs ;; rhs <- var w vs ;; o <- copy_assign this rhs ;; act_ret (Done, <[v := o]> vs)
  | MoveAssign v w =>
      this <- var v vs ;; rhs <- var w vs ;;
      let '(this, rhs) := move_assign this rhs in act_ret (Done, <[v := this]> (<[w := rhs]> vs))
  | Destroy v => o <- var v vs ;; destroy o ;;; act_ret (Done, delete v vs)
  | Get v i => o <- var v vs ;; a <- index i o ;; x <- get a.1 a.2 ;; act_ret (Value x, vs)
  | Set_ v i x => o <- var v vs ;; a <- index i o ;; set a.1 a.2 x ;;; act_ret (Done, vs)
  | PushBack v x => on v (push_back (Object x)) vs
  | PushBackRef v w i => o <- var w vs ;; a <- index i o ;; on v (push_back (Element a.1 a.2)) vs
  | PopBack v => on v pop_back vs
  | Back v => o <- var v vs ;; x <- back o ;; act_ret (Value x, vs)
  | Resize v n => on v (resize n) vs
  | Reserve v n => on v (reserve n) vs
  | Size v => o <- var v vs ;; act_ret (Int (size o), vs)
  | Capacity v => o <- var v vs ;; act_ret (Int (capacity o), vs)
  | Empty v => o <- var v vs ;; act_ret (Bool (empty o), vs)
  | ForEach v => o <- var v vs ;; xs <- items o ;; act_ret (Values xs, vs)
  end.

(** The client catches the exceptions. *)
Definition catch (c : call) (vs : vars) : io (answer * vars) := λ s,
  match perform c vs s with (Exn e, s) => (Val (Thrown e, vs), s) | r => r end.
Fixpoint run (cs : list call) (vs : vars) : io (list answer * vars) :=
  match cs with
  | [] => act_ret ([], vs)
  | c :: cs => a <- catch c vs ;; r <- run cs a.2 ;; act_ret (a.1 :: r.1, r.2)
  end.

(** ** The contract *)

(** The items and the elements behind them. *)
Record content := Content { vals : list K; spare : list K }.
Abbreviation world := (gmap nat content).

Definition unused (v : nat) (A : world) : option () := if decide (A !! v = None) then Some () else None.
Definition requires (P : bool) : option () := if P then Some () else None.
Definition copied (c : content) : content := Content (vals c) (replicate (length (spare c)) dflt).

Definition spec_push (x : K) (c : content) : option content :=
  match spare c with
  | [] => _ ← requires (is_int (2 * zlen (vals c) + 1)); Some (Content (vals c ++ [x]) (replicate (length (vals c)) dflt))
  | _ :: sp => _ ← requires (is_int (zlen (vals c) + 1)); Some (Content (vals c ++ [x]) sp)
  end.
Definition spec_reserve (n : Z) (c : content) : content :=
  if n <? zlen (vals c) then c else Content (vals c) (replicate (Z.to_nat n - length (vals c)) dflt).
Definition spec_resize (n : Z) (c : content) : option content :=
  _ ← requires (0 <=? n);
  if n <=? zlen (vals c ++ spare c) then Some (Content (ztake n (vals c ++ spare c)) (zdrop n (vals c ++ spare c)))
  else
    _ ← requires (is_int (n * 2));
    let all := vals c ++ replicate (Z.to_nat (n * 2) - length (vals c)) dflt in Some (Content (ztake n all) (zdrop n all)).
Definition spec_index (i : Z) (c : content) : option K := if i <? 0 then None else vals c !! Z.to_nat i.

Definition spec_call (c : call) (A : world) : option (answer * world) :=
  match c with
  | New v n =>
      _ ← unused v A; _ ← requires ((0 <=? n) && is_int (n + 2));
      Some (Done, <[v := Content (replicate (Z.to_nat n) dflt) (replicate 2 dflt)]> A)
  | Copy v w => _ ← unused v A; c ← A !! w; Some (Done, <[v := copied c]> A)
  | Move v w => _ ← unused v A; c ← A !! w; Some (Done, <[v := c]> (<[w := Content [] []]> A))
  | CopyAssign v w => _ ← A !! v; c ← A !! w; Some (Done, <[v := copied c]> A)
  | MoveAssign v w => c ← A !! v; c' ← A !! w; Some (Done, <[v := c']> (<[w := c]> A))
  | Destroy v => _ ← A !! v; Some (Done, delete v A)
  | Get v i => c ← A !! v; Some (match spec_index i c with Some x => Value x | None => Thrown ArrayIndexOutOfBoundsException end, A)
  | Set_ v i x =>
      c ← A !! v;
      Some (match spec_index i c with
            | Some _ => (Done, <[v := Content (<[Z.to_nat i := x]> (vals c)) (spare c)]> A)
            | None => (Thrown ArrayIndexOutOfBoundsException, A)
            end)
  | PushBack v x => c ← A !! v; c ← spec_push x c; Some (Done, <[v := c]> A)
  | PushBackRef v w i =>
      c ← A !! v; c' ← A !! w;
      match spec_index i c' with
      | Some x =>
          _ ← requires (negb (Nat.eqb v w && bool_decide (spare c = [])));   (* not an element of a full vector itself *)
          c ← spec_push x c; Some (Done, <[v := c]> A)
      | None => Some (Thrown ArrayIndexOutOfBoundsException, A)
      end
  | PopBack v =>
      c ← A !! v;
      Some (match last (vals c) with
            | Some x => (Done, <[v := Content (removelast (vals c)) (x :: spare c)]> A)
            | None => (Thrown UnderflowException, A)
            end)
  | Back v => c ← A !! v; Some (match last (vals c) with Some x => Value x | None => Thrown UnderflowException end, A)
  | Resize v n => c ← A !! v; c ← spec_resize n c; Some (Done, <[v := c]> A)
  | Reserve v n => c ← A !! v; Some (Done, <[v := spec_reserve n c]> A)
  | Size v => c ← A !! v; Some (Int (zlen (vals c)), A)
  | Capacity v => c ← A !! v; Some (Int (zlen (vals c ++ spare c)), A)
  | Empty v => c ← A !! v; Some (Bool (match vals c with [] => true | _ => false end), A)
  | ForEach v => c ← A !! v; Some (Values (vals c), A)
  end.

Fixpoint spec_run (cs : list call) (A : world) : option (list answer * world) :=
  match cs with
  | [] => Some ([], A)
  | c :: cs => '(a, A) ← spec_call c A; '(r, A) ← spec_run cs A; Some (a :: r, A)
  end.

(** ** Blocks *)

(** A vector and the address of its array, null for a moved-from one. *)
Definition cells_of (o : nat * content) : list (nat * list K) := if Nat.eqb o.1 0 then [] else [(o.1, vals o.2 ++ spare o.2)].
Definition obj_of (o : nat * content) : Vector := MkVector (zlen (vals o.2)) (zlen (vals o.2 ++ spare o.2)) o.1.
Definition good (o : nat * content) : Prop := o.1 = O → o.2 = Content [] [].

Implicit Types (cs rest : list (nat * list K)) (s : heap) (b : list K) (c : content).

Lemma vec_get_ok s cs p b k x Q : held s cs → (p, b) ∈ cs → b !! k = Some x → Q x s → ensures (get p (Z.of_nat k)) s Q.
Proof.
  intros H Hp Hk HQ. unfold get. apply ensures_bind. eapply held_deref; [exact H|exact Hp|].
  rewrite (proj2 (Z.ltb_ge _ _)) by lia. rewrite Nat2Z.id, Hk. by apply ensures_ret.
Qed.
Lemma vec_set_ok s cs p b k x Q : held s ((p, b) :: cs) → (k < length b)%nat →
  (∀ s', held s' ((p, <[k := x]> b) :: cs) → Q () s') → ensures (set p (Z.of_nat k) x) s Q.
Proof.
  intros H Hk HQ. destruct (lookup_lt_is_Some_2 b k Hk) as [y Hy]. unfold set. apply ensures_bind.
  eapply vec_get_ok; [exact H|by left|exact Hy|]. eapply held_assign; [exact H|]. intros s' H' _. rewrite Nat2Z.id in H'. by apply HQ.
Qed.
Lemma vec_new_array_ok s cs n Q : 0 <= n → held s cs →
  (∀ p s', (0 < p)%nat → held s' ((p, replicate (Z.to_nat n) dflt) :: cs) → Q p s') → ensures (new_array n) s Q.
Proof.
  intros Hn H HQ. unfold new_array. rewrite (proj2 (Z.ltb_ge _ _)) by lia. eapply held_new; [exact H|]. intros s' H' _.
  apply HQ; [|done]. by destruct H as (_ & _ & ?).
Qed.

Lemma vec_copy_elements_ok from to cs Q m : ∀ s (a a' c' : list K), held s ((to, a ++ c') :: cs) → length a' = length a → (length m ≤ length c')%nat →
  (m ≠ [] → ∃ d, (from, a' ++ m ++ d) ∈ cs) →
  (∀ s', held s' ((to, a ++ m ++ drop (length m) c') :: cs) → Q () s') →
  ensures (copy_elements (length m) (Z.of_nat (length a)) from to) s Q.
Proof.
  induction m as [|x m IH]; intros s a a' c' H Ha Hl Hm HQ; cbn [copy_elements length] in *.
  { apply ensures_ret. by apply HQ. }
  destruct (Hm ltac:(done)) as [d Hd]. destruct c' as [|y c']; cbn [length] in Hl; [lia|].
  apply ensures_bind. eapply (vec_get_ok _ _ _ (a' ++ (x :: m) ++ d)); [exact H|right; exact Hd| |].
  { rewrite lookup_app_r by lia. by rewrite <-Ha, Nat.sub_diag. }
  apply ensures_bind. eapply vec_set_ok; [exact H|rewrite length_app; cbn; lia|]. intros s1 H1.
  rewrite insert_app_r_alt in H1 by lia. rewrite Nat.sub_diag in H1. cbn [list_insert] in H1.
  replace (Z.of_nat (length a) + 1) with (Z.of_nat (length (a ++ [x]))) by (rewrite length_app; cbn; lia).
  apply (IH s1 (a ++ [x]) (a' ++ [x]) c'); [by rewrite <-(assoc_L (++))|by rewrite !length_app, Ha|lia| |].
  - intros _. exists d. by rewrite <-(assoc_L (++)).
  - intros s2 H2. apply HQ. by rewrite <-(assoc_L (++)) in H2.
Qed.

(** The items of [o] copied to a new array of [n] elements. *)
Lemma vec_copy_all_ok s o n rest Q : good o → zlen (vals o.2) <= n → held s (cells_of o ++ rest) →
  (∀ p s', (0 < p)%nat → held s' ((p, vals o.2 ++ replicate (Z.to_nat n - length (vals o.2)) dflt) :: cells_of o ++ rest) → Q p s') →
  ensures (new_array n) s (λ p s', ensures (copy_elements (Z.to_nat (zlen (vals o.2))) 0 o.1 p) s' (λ _, Q p)).
Proof.
  intros Hg Hn H HQ. pose proof (zlen_nonneg (vals o.2)). unfold zlen in *.
  apply (vec_new_array_ok s (cells_of o ++ rest)); [lia|done|]. intros p s1 Hp H1. rewrite Nat2Z.id.
  eapply (vec_copy_elements_ok _ _ (cells_of o ++ rest) _ _ s1 [] []); [exact H1|done|rewrite length_replicate; lia| |].
  - intros Hne. exists (spare o.2). apply elem_of_app. left. unfold cells_of. destruct (Nat.eqb_spec o.1 0) as [E|E]; [|by left].
    by rewrite (Hg E) in Hne.
  - intros s2 H2. apply HQ; [done|]. by rewrite drop_replicate in H2.
Qed.

Lemma vec_delete_ok s o rest Q : held s (cells_of o ++ rest) → (∀ s', held s' rest → Q () s') → ensures (destroy (obj_of o)) s Q.
Proof.
  intros H HQ. unfold destroy, obj_of, cells_of in *. cbn [objects]. destruct (Nat.eqb_spec o.1 0) as [E|E].
  - unfold delete_node. rewrite E. apply ensures_ret. by apply HQ.
  - eapply held_delete; [exact H|]. intros s' H' _. by apply HQ.
Qed.

Lemma good_null c : good (0%nat, c) → c = Content [] [].
Proof. intros H. exact (H eq_refl). Qed.
Lemma cells_some p c : (0 < p)%nat → cells_of (p, c) = [(p, vals c ++ spare c)].
Proof. intros Hp. unfold cells_of. cbn [fst snd]. by rewrite (proj2 (Nat.eqb_neq _ _)) by lia. Qed.
Lemma cells_content p c c' : vals c ++ spare c = vals c' ++ spare c' → cells_of (p, c) = cells_of (p, c').
Proof. intros E. unfold cells_of. cbn [fst snd]. by rewrite E. Qed.
Lemma zlen_app_replicate (l : list K) n x : zlen l <= n → zlen (l ++ replicate (Z.to_nat n - length l) x) = n.
Proof. intros H. rewrite zlen_app. unfold zlen in *. rewrite length_replicate. lia. Qed.

Lemma vec_copy_ok s o rest Q : good o → held s (cells_of o ++ rest) →
  (∀ p s', good (p, copied o.2) → held s' (cells_of (p, copied o.2) ++ cells_of o ++ rest) → Q (obj_of (p, copied o.2)) s') →
  ensures (copy (obj_of o)) s Q.
Proof.
  intros Hg H HQ. unfold copy. cbn [obj_of theCapacity theSize objects]. apply ensures_bind.
  eapply ensures_weaken; [apply (vec_copy_all_ok s o _ rest (λ p s', (0 < p)%nat ∧ held s' (cells_of (p, copied o.2) ++ cells_of o ++ rest))); [done| |done|]|].
  - rewrite zlen_app. pose proof (zlen_nonneg (spare o.2)). lia.
  - intros p s' Hp H'. split; [done|]. rewrite cells_some by done. unfold zlen in H'. rewrite Nat2Z.id, length_app in H'.
    by replace (length (vals o.2) + length (spare o.2) - length (vals o.2))%nat with (length (spare o.2)) in H' by lia.
  - cbn. intros p s' Hc. apply ensures_bind. eapply ensures_weaken; [exact Hc|]. intros _ s2 [Hp H2]. apply ensures_ret.
    replace (MkVector _ _ p) with (obj_of (p, copied o.2)).
    + apply HQ; [|done]. intros E. cbn in E. lia.
    + unfold obj_of, copied. cbn [fst snd vals spare]. by rewrite !zlen_app, zlen_replicate.
Qed.

Lemma vec_reserve_ok s o n rest Q : good o → held s (cells_of o ++ rest) →
  (∀ p s', good (p, spec_reserve n o.2) → held s' (cells_of (p, spec_reserve n o.2) ++ rest) → (zlen (vals o.2) <= n → (0 < p)%nat) →
    Q (obj_of (p, spec_reserve n o.2)) s') → ensures (reserve n (obj_of o)) s Q.
Proof.
  intros Hg H HQ. unfold reserve. cbn [obj_of theCapacity theSize objects]. unfold spec_reserve in HQ.
  destruct (Z.ltb_spec n (zlen (vals o.2))) as [Hlt|Hle].
  { apply ensures_ret. destruct o as [p c]. apply HQ; [done|done|intros Hx; cbn [snd] in *; lia]. }
  set (c := Content (vals o.2) (replicate (Z.to_nat n - length (vals o.2)) dflt)) in *. apply ensures_bind.
  eapply ensures_weaken; [apply (vec_copy_all_ok s o n rest (λ p s', (0 < p)%nat ∧ held s' (cells_of (p, c) ++ cells_of o ++ rest))); [done..|]|].
  { intros p s' Hp H'. split; [done|]. by rewrite cells_some. }
  cbn. intros p s1 Hc. apply ensures_bind. eapply ensures_weaken; [exact Hc|]. intros _ s2 [Hp H2]. apply ensures_bind.
  apply (vec_delete_ok s2 o (cells_of (p, c) ++ rest)); [eapply held_perm; [exact H2|solve_Permutation]|]. intros s3 H3. apply ensures_ret.
  replace (MkVector _ n p) with (obj_of (p, c)).
  - apply HQ; [intros E; cbn in E; lia|done|done].
  - unfold obj_of, c. cbn [fst snd vals spare]. by rewrite zlen_app_replicate.
Qed.

Lemma vec_int_ok n s Q : is_int n = true → Q n s → ensures (int n) s Q.
Proof. intros Hn HQ. unfold int. rewrite Hn. by apply ensures_ret. Qed.
Lemma requires_some (P : bool) u : requires P = Some u → P = true.
Proof. by destruct P. Qed.

Lemma vec_resize_ok s o n c' rest Q : good o → held s (cells_of o ++ rest) → spec_resize n o.2 = Some c' →
  (∀ p s', good (p, c') → held s' (cells_of (p, c') ++ rest) → Q (obj_of (p, c')) s') → ensures (resize n (obj_of o)) s Q.
Proof.
  intros Hg H E HQ. unfold spec_resize in E. destruct (requires (0 <=? n)) eqn:Hn; [|done]. cbn in E.
  apply requires_some, Z.leb_le in Hn. unfold resize. cbn [obj_of theCapacity theSize objects].
  assert (Hsplit : ∀ l : list K, n <= zlen l → zlen (ztake n l) = n ∧ zlen (ztake n l ++ zdrop n l) = zlen l).
  { intros l Hl. rewrite ztake_zdrop, zlen_ztake; lia. }
  destruct (Z.leb_spec n (zlen (vals o.2 ++ spare o.2))) as [Hle|Hlt].
  - injection E as <-. rewrite (proj2 (Z.ltb_ge _ _)) by lia. apply ensures_bind, ensures_ret, ensures_ret.
    destruct (Hsplit _ Hle) as [E1 E2]. destruct o as [p c]. cbn [fst snd objects theCapacity] in *.
    replace (MkVector n _ p) with (obj_of (p, Content (ztake n (vals c ++ spare c)) (zdrop n (vals c ++ spare c)))).
    + apply HQ.
      * intros E. cbn in E. specialize (Hg E). cbn in Hg. subst c. cbn. unfold ztake, zdrop. by rewrite take_nil, drop_nil.
      * erewrite cells_content; [exact H|]. cbn [vals spare]. by rewrite ztake_zdrop.
    + unfold obj_of. cbn [fst snd vals spare]. by rewrite E1, E2.
  - destruct (requires (is_int (n * 2))) eqn:Hi; [|done]. cbn in E. injection E as <-. apply requires_some in Hi.
    rewrite (proj2 (Z.ltb_lt _ _)) by lia. apply ensures_bind, ensures_bind, vec_int_ok; [done|].
    pose proof (zlen_nonneg (spare o.2)). rewrite zlen_app in Hlt.
    apply (vec_reserve_ok s o (n * 2) rest); [done..|]. intros p s1 Hg1 H1 Hp. unfold spec_reserve in *.
    rewrite (proj2 (Z.ltb_ge _ _)) in * by lia. specialize (Hp ltac:(lia)). apply ensures_ret.
    set (all := vals o.2 ++ replicate _ _) in *. assert (Ea : zlen all = n * 2) by (apply zlen_app_replicate; lia).
    destruct (Hsplit all ltac:(lia)) as [E1 E2]. cbn [obj_of objects theCapacity fst snd vals spare].
    replace (MkVector n _ p) with (obj_of (p, Content (ztake n all) (zdrop n all))).
    + apply HQ; [intros E; cbn in E; lia|]. erewrite cells_content; [exact H1|]. cbn [vals spare]. by rewrite ztake_zdrop.
    + unfold obj_of. cbn [fst snd vals spare]. rewrite E1, E2. done.
Qed.

(** The object that an argument of push_back refers to, in the arrays [cs]. *)
Definition refers (a : argument) (x : K) cs : Prop :=
  match a with Object y => y = x | Element p k => ∃ b i, k = Z.of_nat i ∧ (p, b) ∈ cs ∧ b !! i = Some x end.
Lemma vec_value_ok s a x cs Q : held s cs → refers a x cs → Q x s → ensures (value a) s Q.
Proof.
  intros H Ha HQ. destruct a as [y|p k]; cbn [value refers] in *; [subst; by apply ensures_ret|].
  destruct Ha as (b & i & -> & Hp & Hi). by eapply vec_get_ok.
Qed.

Lemma vec_push_back_ok s o a x c' rest Q : good o → held s (cells_of o ++ rest) → spec_push x o.2 = Some c' →
  refers a x rest ∨ (spare o.2 ≠ [] ∧ refers a x (cells_of o ++ rest)) →
  (∀ p s', good (p, c') → held s' (cells_of (p, c') ++ rest) → Q (obj_of (p, c')) s') → ensures (push_back a (obj_of o)) s Q.
Proof.
  intros Hg H E Ha HQ. unfold push_back. cbn [obj_of theCapacity theSize objects].
  (* once there is room *)
  assert (Hroom : ∀ p d y sp s1, (0 < p)%nat → vals d = vals o.2 → spare d = y :: sp → c' = Content (vals o.2 ++ [x]) sp →
    is_int (zlen (vals o.2) + 1) = true → refers a x (cells_of (p, d) ++ rest) → held s1 (cells_of (p, d) ++ rest) →
    ensures (x <- value a ;; n <- int (theSize (obj_of (p, d)) + 1) ;; set (objects (obj_of (p, d))) (theSize (obj_of (p, d))) x ;;;
      act_ret (MkVector n (theCapacity (obj_of (p, d))) (objects (obj_of (p, d))))) s1 Q).
  { intros p d y sp s1 Hp Ev Es -> Hi Hr H1. apply ensures_bind. eapply vec_value_ok; [exact H1|exact Hr|].
    cbn [obj_of theCapacity theSize objects fst snd]. rewrite Ev. apply ensures_bind, vec_int_ok; [done|]. apply ensures_bind.
    rewrite cells_some, Ev, Es in H1 by done. unfold zlen at 1. eapply vec_set_ok; [exact H1|rewrite length_app; cbn; lia|].
    intros s2 H2. apply ensures_ret. rewrite insert_app_r_alt, Nat.sub_diag in H2 by lia. cbn [list_insert] in H2.
    replace (MkVector _ _ p) with (obj_of (p, Content (vals o.2 ++ [x]) sp)).
    - apply HQ; [intros E0; cbn in E0; lia|]. rewrite cells_some by done. cbn [vals spare]. by rewrite <-(assoc_L (++)).
    - unfold obj_of. cbn [fst snd vals spare]. rewrite Es, !zlen_app, !zlen_cons, !zlen_nil. f_equal; lia. }
  unfold spec_push in E. destruct (spare o.2) as [|y sp] eqn:Es.
  - rewrite app_nil_r, Z.eqb_refl. destruct (requires _) eqn:Hi; [|done]. cbn in E. injection E as <-. apply requires_some in Hi.
    pose proof (zlen_nonneg (vals o.2)). apply ensures_bind, ensures_bind, vec_int_ok; [done|].
    replace (MkVector _ _ o.1) with (obj_of o) by (unfold obj_of; by rewrite Es, app_nil_r).
    apply (vec_reserve_ok s o (2 * zlen (vals o.2) + 1) rest); [done..|]. intros p s1 Hg1 H1 Hp. unfold spec_reserve in *.
    rewrite (proj2 (Z.ltb_ge _ _)) in * by lia. apply (Hroom p _ dflt (replicate (length (vals o.2)) dflt)); [apply Hp; lia|done| |done| | |done].
    + cbn [spare]. replace (Z.to_nat (2 * zlen (vals o.2) + 1) - length (vals o.2))%nat with (S (length (vals o.2))) by (unfold zlen; lia). done.
    + unfold is_int in *. apply bool_decide_eq_true in Hi. apply bool_decide_eq_true. lia.
    + destruct Ha as [Ha|[? _]]; [|done]. destruct a as [|q k]; [done|]. destruct Ha as (b & i & ? & Hq & ?).
      exists b, i. split_and!; [done| |done]. apply elem_of_app. by right.
  - destruct (requires _) eqn:Hi; [|done]. cbn in E. injection E as <-. apply requires_some in Hi.
    rewrite (proj2 (Z.eqb_neq _ _)) by (rewrite zlen_app, zlen_cons; pose proof (zlen_nonneg sp); lia).
    apply ensures_bind, ensures_ret. destruct o as [p c]. cbn [fst snd] in *.
    destruct (decide (p = 0%nat)) as [->|Hp]; [apply good_null in Hg as ->; done|].
    apply (Hroom p c y sp); [lia|done|done|done|done| |done].
    destruct Ha as [Ha|[_ Ha]]; [|done]. destruct a as [|q k]; [done|]. destruct Ha as (b & i & ? & Hq & ?).
    exists b, i. split_and!; [done| |done]. apply elem_of_app. by right.
Qed.

Lemma vec_iterate_ok s cs p xs : ∀ b pre sp Q, held s cs → (p, b) ∈ cs → b = pre ++ xs ++ sp → Q xs s →
  ensures (iterate (length xs) (p, Z.of_nat (length pre))) s Q.
Proof.
  induction xs as [|x xs IH]; intros b pre sp Q H Hp -> HQ; cbn [iterate length]; [by apply ensures_ret|].
  cbn [fst snd]. apply ensures_bind. eapply vec_get_ok; [exact H|exact Hp|by rewrite lookup_app_r, Nat.sub_diag by lia|].
  apply ensures_bind. replace (Z.of_nat (length pre) + 1) with (Z.of_nat (length (pre ++ [x]))) by (rewrite length_app; cbn; lia).
  eapply (IH _ (pre ++ [x]) sp); [exact H|exact Hp|by rewrite <-(assoc_L (++))|]. by apply ensures_ret.
Qed.

Lemma spec_index_some i c x : spec_index i c = Some x → ∃ k, i = Z.of_nat k ∧ vals c !! k = Some x.
Proof. unfold spec_index. destruct (Z.ltb_spec i 0); [done|]. intros E. exists (Z.to_nat i). split; [lia|done]. Qed.
Lemma vec_index_ok i p c s : index i (obj_of (p, c)) s =
  (match spec_index i c with Some _ => Val (p, i) | None => Exn ArrayIndexOutOfBoundsException end, s).
Proof.
  unfold index, spec_index, size. cbn [obj_of theSize fst snd objects]. destruct (Z.ltb_spec i 0); [done|]. cbn [orb]. unfold zlen.
  destruct (Z.leb_spec (Z.of_nat (length (vals c))) i).
  - by rewrite lookup_ge_None_2 by lia.
  - destruct (lookup_lt_is_Some_2 (vals c) (Z.to_nat i)) as [x ->]; [lia|done].
Qed.
Lemma cell_of_item s p c rest k x : good (p, c) → vals c !! k = Some x → held s (cells_of (p, c) ++ rest) →
  (p, vals c ++ spare c) ∈ cells_of (p, c) ∧ (vals c ++ spare c) !! k = Some x.
Proof.
  intros Hg Hk H. split; [|by apply lookup_app_l_Some]. destruct (decide (p = 0%nat)) as [->|Hp]; [apply good_null in Hg as ->; done|].
  rewrite cells_some by lia. by left.
Qed.

(** ** All vectors *)

(** The contents with the addresses of their arrays, the objects and the memory. *)
Record rep (W : gmap nat (nat * content)) (A : world) (vs : vars) (s : heap) : Prop := {
  rep_world : A = snd <$> W;
  rep_vars : vs = obj_of <$> W;
  rep_good : map_Forall (λ _, good) W;
  rep_held : held s (all_cells cells_of W)
}.

Lemma rep_get W A vs s v c : rep W A vs s → A !! v = Some c → ∃ p, W !! v = Some (p, c).
Proof. intros [-> _ _ _] Hv. rewrite lookup_fmap in Hv. destruct (W !! v) as [[p d]|]; [|done]. cbn in Hv. simplify_eq. by exists p. Qed.
Lemma vec_var_ok W A vs s v o Q : rep W A vs s → W !! v = Some o → Q (obj_of o) s → ensures (var v vs) s Q.
Proof. intros [_ -> _ _] Hv HQ. unfold var. rewrite lookup_fmap, Hv. by apply ensures_ret. Qed.
Lemma vec_rep_at W A vs s v o : rep W A vs s → W !! v = Some o → held s (cells_of o ++ all_cells cells_of (delete v W)).
Proof. intros [_ _ _ H] Hv. eapply held_perm; [exact H|]. by apply all_cells_delete. Qed.
Lemma vec_rep_set W A vs s s' v o : rep W A vs s → good o → held s' (cells_of o ++ all_cells cells_of (delete v W)) →
  rep (<[v := o]> W) (<[v := o.2]> A) (<[v := obj_of o]> vs) s'.
Proof.
  intros [-> -> Hg _] Ho H. split; [by rewrite fmap_insert..| |].
  - by apply map_Forall_insert_2.
  - eapply held_perm; [exact H|symmetry; apply all_cells_update].
Qed.
Lemma unused_some v A u : unused v A = Some u → A !! v = None.
Proof. unfold unused. by destruct (decide _). Qed.
Lemma rep_unused W A vs s v : rep W A vs s → A !! v = None → W !! v = None.
Proof. intros [-> _ _ _] H. rewrite lookup_fmap in H. by destruct (W !! v). Qed.

(** One call does what the contract says. *)
Definition answers (c : call) (ans : answer) (A' : world) (vs : vars) (s : heap) : Prop :=
  ensures (catch c vs) s (λ r s', r.1 = ans ∧ ∃ W, rep W A' r.2 s').
Definition does (c : call) : Prop := ∀ W A vs s ans A', rep W A vs s → spec_call c A = Some (ans, A') → answers c ans A' vs s.

Lemma returns_answer (c : call) ans A' vs s : ensures (perform c vs) s (λ r s', r.1 = ans ∧ ∃ W, rep W A' r.2 s') → answers c ans A' vs s.
Proof. intros (r & s' & E & H). exists r, s'. split; [|done]. unfold catch. by rewrite E. Qed.
Lemma throws_answer (c : call) e W A vs s : rep W A vs s → perform c vs s = (Exn e, s) → answers c (Thrown e) A vs s.
Proof. intros HR E. exists (Thrown e, vs), s. unfold catch. rewrite E. split; [done|]. split; [done|]. by exists W. Qed.
Lemma reads_answer (c : call) ans W A vs s : rep W A vs s → ensures (perform c vs) s (λ r s', r = (ans, vs) ∧ s' = s) → answers c ans A vs s.
Proof. intros HR H. apply returns_answer. eapply ensures_weaken; [exact H|]. intros r s' [-> ->]. split; [done|]. by exists W. Qed.

Ltac begin_call E := intros W A vs s ans A' HR E; cbn [spec_call] in E;
  repeat (match type of E with
  | context [unused ?v ?A] => destruct (unused v A) eqn:Hu; cbn [mbind option_bind] in E; [apply unused_some in Hu|done]
  | context [requires ?P] => destruct (requires P) eqn:Hr; cbn [mbind option_bind] in E; [apply requires_some in Hr|done]
  | context [?A !! ?v ≫= _] => destruct (A !! v) eqn:?; cbn [mbind option_bind] in E; [|done]
  end).
(** The array of the vector [v], which has the content [c]. *)
Ltac array_of v p Hp Hh Hg :=
  match goal with HR : rep ?W ?A _ _, Hl : ?A !! v = Some ?c |- _ =>
    destruct (rep_get _ _ _ _ _ _ HR Hl) as [p Hp]; pose proof (vec_rep_at _ _ _ _ _ _ HR Hp) as Hh; pose proof (rep_good _ _ _ _ HR _ _ Hp) as Hg end.

Lemma vec_on_does W A vs s v p c c' f : rep W A vs s → W !! v = Some (p, c) →
  (∀ Q : Vector → heap → Prop, (∀ p' s', good (p', c') → held s' (cells_of (p', c') ++ all_cells cells_of (delete v W)) → Q (obj_of (p', c')) s') →
    ensures (f (obj_of (p, c))) s Q) → ensures (on v f vs) s (λ r s', r.1 = Done ∧ ∃ W', rep W' (<[v := c']> A) r.2 s').
Proof.
  intros HR Hv Hf. unfold on. apply ensures_bind. eapply vec_var_ok; [done..|]. apply ensures_bind. apply Hf. intros p' s' Hg H'.
  apply ensures_ret. split; [done|]. exists (<[v := (p', c')]> W). by eapply (vec_rep_set _ _ _ s s' v (p', c')).
Qed.

Lemma vec_new_does v n : does (New v n).
Proof.
  begin_call E. injection E as <- <-. apply andb_true_iff in Hr as [Hn Hi]. apply Z.leb_le in Hn.
  apply returns_answer. cbn [perform]. unfold construct. apply ensures_bind, ensures_bind, vec_int_ok; [done|]. apply ensures_bind.
  unfold SPARE_CAPACITY. eapply vec_new_array_ok; [lia|exact (rep_held _ _ _ _ HR)|]. intros p s' Hp H'. apply ensures_ret, ensures_ret. split; [done|].
  set (c := Content (replicate (Z.to_nat n) dflt) (replicate 2 dflt)).
  assert (Er : replicate (Z.to_nat (n + 2)) dflt = vals c ++ spare c) by (cbn [c vals spare]; rewrite <-replicate_add; f_equal; lia).
  exists (<[v := (p, c)]> W). replace (MkVector n (n + 2) p) with (obj_of (p, c)).
  - apply (vec_rep_set W A vs s s' v (p, c)); [done|intros E; cbn in E; lia|]. rewrite delete_id by (by eapply rep_unused).
    rewrite cells_some by done. by rewrite Er in H'.
  - unfold obj_of. cbn [fst snd]. rewrite <-Er, zlen_replicate. cbn [c vals]. rewrite zlen_replicate. f_equal; lia.
Qed.
Lemma vec_copy_does v w : does (Copy v w).
Proof.
  begin_call E. injection E as <- <-. array_of w p Hp Hh Hg. apply returns_answer. cbn [perform]. apply ensures_bind. eapply vec_var_ok; [done..|].
  apply ensures_bind. apply (vec_copy_ok s (p, c) _ _ Hg Hh). intros q s' Hgq H'. apply ensures_ret. split; [done|].
  exists (<[v := (q, copied c)]> W). apply (vec_rep_set W A vs s s' v (q, copied c)); [done..|]. rewrite delete_id by (by eapply rep_unused).
  eapply held_perm; [exact H'|]. apply Permutation_app_head. symmetry. by apply all_cells_delete.
Qed.
Lemma vec_move_does v w : does (Move v w).
Proof.
  begin_call E. injection E as <- <-. array_of w p Hp Hh Hg. apply returns_answer. cbn [perform]. apply ensures_bind. eapply vec_var_ok; [done..|].
  cbn [move]. apply ensures_ret. split; [done|]. assert (v ≠ w) by congruence. pose proof (rep_unused _ _ _ _ _ HR Hu) as Hw.
  exists (<[v := (p, c)]> (<[w := (0%nat, Content [] [])]> W)). split; cbn [snd].
  - rewrite (rep_world _ _ _ _ HR). by rewrite !fmap_insert.
  - rewrite (rep_vars _ _ _ _ HR). by rewrite !fmap_insert.
  - by repeat apply map_Forall_insert_2; [..|apply HR].
  - eapply held_perm; [exact Hh|]. rewrite all_cells_insert by (by rewrite lookup_insert_ne). by rewrite all_cells_update.
Qed.
Lemma vec_copy_assign_does v w : does (CopyAssign v w).
Proof.
  begin_call E. injection E as <- <-. array_of v q Hq Hhq Hgq. array_of w p Hp Hh Hg. apply returns_answer. cbn [perform].
  apply ensures_bind. eapply vec_var_ok; [exact HR|exact Hq|]. apply ensures_bind. eapply vec_var_ok; [exact HR|exact Hp|]. apply ensures_bind.
  unfold copy_assign. apply ensures_bind. apply (vec_copy_ok s (p, c0) _ _ Hg Hh). intros r s1 Hgr H1. cbn [move move_assign].
  apply ensures_bind. apply (vec_delete_ok s1 (0%nat, Content [] []) _ _ H1). intros s2 H2. apply ensures_bind.
  apply (vec_delete_ok s2 (q, c) (cells_of (r, copied c0) ++ all_cells cells_of (delete v W))).
  { eapply held_perm; [exact H2|]. etransitivity; [apply Permutation_app_head; symmetry; by apply all_cells_delete|].
    rewrite (all_cells_delete _ _ v) by done. solve_Permutation. }
  intros s3 H3. apply ensures_ret, ensures_ret. split; [done|]. exists (<[v := (r, copied c0)]> W).
  by apply (vec_rep_set W A vs s s3 v (r, copied c0)).
Qed.
Lemma vec_move_assign_does v w : does (MoveAssign v w).
Proof.
  begin_call E. injection E as <- <-. array_of v q Hq Hhq Hgq. array_of w p Hp Hh Hg. apply returns_answer. cbn [perform].
  apply ensures_bind. eapply vec_var_ok; [exact HR|exact Hq|]. apply ensures_bind. eapply vec_var_ok; [exact HR|exact Hp|]. cbn [move_assign].
  apply ensures_ret. split; [done|]. exists (<[v := (p, c0)]> (<[w := (q, c)]> W)). split; cbn [snd].
  - rewrite (rep_world _ _ _ _ HR). by rewrite !fmap_insert.
  - rewrite (rep_vars _ _ _ _ HR). by rewrite !fmap_insert.
  - by repeat apply map_Forall_insert_2; [..|apply HR].
  - destruct (decide (v = w)) as [->|Hne].
    { simplify_eq. rewrite !insert_id by (done || by rewrite insert_id). exact (rep_held _ _ _ _ HR). }
    eapply held_perm; [exact Hh|]. rewrite all_cells_update, (delete_insert_ne _ _ _ _ Hne), all_cells_update.
    apply Permutation_app_head. rewrite (all_cells_delete _ (delete w _) v); [by rewrite delete_delete|by rewrite lookup_delete_ne].
Qed.
Lemma vec_destroy_does v : does (Destroy v).
Proof.
  begin_call E. injection E as <- <-. array_of v p Hp Hh Hg. apply returns_answer. cbn [perform]. apply ensures_bind. eapply vec_var_ok; [done..|].
  apply ensures_bind. apply (vec_delete_ok s (p, c) _ _ Hh). intros s' H'. apply ensures_ret. split; [done|]. exists (delete v W). split; cbn [snd].
  - rewrite (rep_world _ _ _ _ HR). by rewrite fmap_delete.
  - rewrite (rep_vars _ _ _ _ HR). by rewrite fmap_delete.
  - by apply map_Forall_delete, HR.
  - done.
Qed.

(** An exception of operator[] or of an empty vector. *)
Ltac throws HR v Hp := eapply throws_answer; [exact HR|]; cbn [perform];
  try unfold on; unfold var; rewrite (rep_vars _ _ _ _ HR), lookup_fmap, Hp; cbn [fmap option_fmap option_map].
Ltac gets_item HR Hp i := apply ensures_bind; eapply vec_var_ok; [exact HR|exact Hp|]; apply ensures_bind.

Lemma index_item s p c i x Q : spec_index i c = Some x → Q (p, i) s → ensures (index i (obj_of (p, c))) s Q.
Proof. intros E HQ. exists (p, i), s. rewrite vec_index_ok, E. done. Qed.

Lemma vec_get_does v i : does (Get v i).
Proof.
  begin_call E. injection E as <- <-. array_of v p Hp Hh Hg. destruct (spec_index i c) as [x|] eqn:Ei.
  - apply (reads_answer _ _ _ _ _ _ HR). cbn [perform]. gets_item HR Hp i. eapply index_item; [exact Ei|].
    apply spec_index_some in Ei as (k & -> & Hk). destruct (cell_of_item _ _ _ _ _ _ Hg Hk Hh) as [Hin Hb].
    apply ensures_bind. eapply vec_get_ok; [exact Hh|apply elem_of_app; left; exact Hin|exact Hb|]. by apply ensures_ret.
  - throws HR v Hp. unfold act_bind, act_ret. by rewrite vec_index_ok, Ei.
Qed.
Lemma vec_set_does v i x : does (Set_ v i x).
Proof.
  begin_call E. array_of v p Hp Hh Hg. destruct (spec_index i c) as [y|] eqn:Ei; injection E as <- <-.
  - apply returns_answer. cbn [perform]. gets_item HR Hp i. eapply index_item; [exact Ei|].
    apply spec_index_some in Ei as (k & -> & Hk). destruct (cell_of_item _ _ _ _ _ _ Hg Hk Hh) as [Hin Hb].
    assert (Hpos : (0 < p)%nat) by (destruct p; [apply good_null in Hg as ->; done|lia]). rewrite cells_some in Hh by done.
    apply ensures_bind. pose proof (lookup_lt_Some _ _ _ Hk) as Hlt.
    eapply vec_set_ok; [exact Hh|rewrite length_app; lia|]. intros s' H'. apply ensures_ret. split; [done|]. rewrite Nat2Z.id.
    rewrite insert_app_l in H' by done. set (c' := Content (<[k:=x]> (vals c)) (spare c)).
    exists (<[v := (p, c')]> W). cbn [snd]. rewrite <-(insert_id vs v (obj_of (p, c))).
    + replace (obj_of (p, c)) with (obj_of (p, c')) by (unfold obj_of, c', zlen; cbn [fst snd vals spare]; by rewrite !length_app, !length_insert).
      apply (vec_rep_set W A vs s s' v (p, c')); [done|intros E; cbn in E; lia|]. by rewrite cells_some.
    + rewrite (rep_vars _ _ _ _ HR), lookup_fmap. by rewrite Hp.
  - throws HR v Hp. unfold act_bind, act_ret. by rewrite vec_index_ok, Ei.
Qed.
Lemma vec_push_back_does v x : does (PushBack v x).
Proof.
  begin_call E. destruct (spec_push x c) as [c'|] eqn:Ec; [|done]. cbn in E. injection E as <- <-. array_of v p Hp Hh Hg.
  apply returns_answer. cbn [perform]. eapply vec_on_does; [exact HR|exact Hp|]. intros Q HQ.
  eapply vec_push_back_ok; [exact Hg|exact Hh|exact Ec|by left|exact HQ].
Qed.
Lemma vec_push_back_ref_does v w i : does (PushBackRef v w i).
Proof.
  begin_call E. array_of v p Hp Hh Hg. array_of w q Hq Hhq Hgq. destruct (spec_index i c0) as [x|] eqn:Ei.
  - destruct (requires _) eqn:Hr; [|done]. cbn in E. destruct (spec_push x c) as [c'|] eqn:Ec; [|done]. cbn in E.
    injection E as <- <-. apply requires_some, negb_true_iff, andb_false_iff in Hr.
    apply returns_answer. cbn [perform]. gets_item HR Hq i. eapply index_item; [exact Ei|]. cbn [fst snd].
    apply spec_index_some in Ei as (k & -> & Hk). destruct (cell_of_item _ _ _ _ _ _ Hgq Hk Hhq) as [Hin Hb].
    eapply vec_on_does; [exact HR|exact Hp|]. intros Q HQ. eapply vec_push_back_ok; [exact Hg|exact Hh|exact Ec| |exact HQ].
    destruct (decide (v = w)) as [->|Hne].
    + right. simplify_eq. rewrite Nat.eqb_refl in Hr. destruct Hr as [|Hr%bool_decide_eq_false]; [done|]. split; [done|].
      exists (vals c ++ spare c), k. split_and!; [done|apply elem_of_app; by left|done].
    + left. exists (vals c0 ++ spare c0), k. split_and!; [done| |done].
      rewrite (all_cells_delete _ (delete v W) w (q, c0)) by (by rewrite lookup_delete_ne). apply elem_of_app. by left.
  - injection E as <- <-. throws HR w Hq. unfold act_bind, act_ret. by rewrite vec_index_ok, Ei.
Qed.
Lemma vec_resize_does v n : does (Resize v n).
Proof.
  begin_call E. destruct (spec_resize n c) as [c'|] eqn:Ec; [|done]. cbn in E. injection E as <- <-. array_of v p Hp Hh Hg.
  apply returns_answer. cbn [perform]. eapply vec_on_does; [exact HR|exact Hp|]. intros Q HQ.
  eapply vec_resize_ok; [exact Hg|exact Hh|exact Ec|exact HQ].
Qed.
Lemma vec_reserve_does v n : does (Reserve v n).
Proof.
  begin_call E. injection E as <- <-. array_of v p Hp Hh Hg.
  apply returns_answer. cbn [perform]. eapply vec_on_does; [exact HR|exact Hp|]. intros Q HQ.
  eapply vec_reserve_ok; [exact Hg|exact Hh|]. intros p' s' Hg' H' _. by apply HQ.
Qed.

Lemma empty_vals p c : empty (obj_of (p, c)) = match vals c with [] => true | _ => false end.
Proof. unfold empty, size. cbn. destruct (vals c) as [|x l]; [done|]. apply Z.eqb_neq. rewrite zlen_cons. pose proof (zlen_nonneg l). lia. Qed.
Lemma vals_last (l : list K) : match last l with Some x => ∃ l', l = l' ++ [x] | None => l = [] end.
Proof. destruct (last l) as [x|] eqn:E; [by apply last_Some in E|by apply last_None in E]. Qed.

Lemma vec_pop_back_does v : does (PopBack v).
Proof.
  begin_call E. array_of v p Hp Hh Hg. pose proof (vals_last (vals c)) as Hl. destruct (last (vals c)) as [x|]; injection E as <- <-.
  - destruct Hl as [l El]. rewrite El, removelast_last. apply returns_answer. cbn [perform]. eapply vec_on_does; [exact HR|exact Hp|]. intros Q HQ.
    unfold pop_back. rewrite empty_vals, El. destruct (l ++ [x]) eqn:Ex; [by destruct l|]. rewrite <-Ex in *. apply ensures_ret.
    replace (MkVector _ _ _) with (obj_of (p, Content l (x :: spare c))).
    + apply HQ; [intros E; cbn in E; subst p; apply good_null in Hg as ->; by destruct l|].
      erewrite cells_content; [exact Hh|]. cbn [vals spare]. by rewrite El, <-(assoc_L (++)).
    + unfold obj_of. cbn [fst snd vals spare theSize theCapacity objects]. rewrite El, !zlen_app, zlen_cons, zlen_cons, zlen_nil. f_equal; lia.
  - throws HR v Hp. unfold act_bind, act_ret, pop_back. by rewrite empty_vals, Hl.
Qed.
Lemma vec_back_does v : does (Back v).
Proof.
  begin_call E. array_of v p Hp Hh Hg. pose proof (vals_last (vals c)) as Hl. destruct (last (vals c)) as [x|]; injection E as <- <-.
  - destruct Hl as [l El]. apply (reads_answer _ _ _ _ _ _ HR). cbn [perform]. gets_item HR Hp i. unfold back. rewrite empty_vals, El.
    destruct (l ++ [x]) eqn:Ex; [by destruct l|]. rewrite <-Ex in *.
    assert (Hk : vals c !! length l = Some x) by (by rewrite El, lookup_app_r, Nat.sub_diag by lia).
    destruct (cell_of_item _ _ _ _ _ _ Hg Hk Hh) as [Hin Hb]. cbn [obj_of theSize objects fst snd]. rewrite El.
    replace (zlen (l ++ [x]) - 1) with (Z.of_nat (length l)) by (rewrite zlen_app, zlen_cons, zlen_nil; unfold zlen; lia).
    eapply vec_get_ok; [exact Hh|apply elem_of_app; left; exact Hin|exact Hb|]. by apply ensures_ret.
  - throws HR v Hp. unfold act_bind, act_ret, back. by rewrite empty_vals, Hl.
Qed.
Lemma vec_size_does v : does (Size v).
Proof. begin_call E. injection E as <- <-. array_of v p Hp Hh Hg. apply (reads_answer _ _ _ _ _ _ HR). cbn [perform]. apply ensures_bind. eapply vec_var_ok; [exact HR|exact Hp|]. by apply ensures_ret. Qed.
Lemma vec_capacity_does v : does (Capacity v).
Proof. begin_call E. injection E as <- <-. array_of v p Hp Hh Hg. apply (reads_answer _ _ _ _ _ _ HR). cbn [perform]. apply ensures_bind. eapply vec_var_ok; [exact HR|exact Hp|]. by apply ensures_ret. Qed.
Lemma vec_empty_does v : does (Empty v).
Proof.
  begin_call E. injection E as <- <-. array_of v p Hp Hh Hg. apply (reads_answer _ _ _ _ _ _ HR). cbn [perform].
  apply ensures_bind. eapply vec_var_ok; [exact HR|exact Hp|]. apply ensures_ret. by rewrite empty_vals.
Qed.
Lemma vec_for_each_does v : does (ForEach v).
Proof.
  begin_call E. injection E as <- <-. array_of v p Hp Hh Hg. apply (reads_answer _ _ _ _ _ _ HR). cbn [perform]. gets_item HR Hp i.
  unfold items, begin, end_, size. cbn [obj_of theSize objects fst snd]. rewrite Z.sub_0_r. unfold zlen. rewrite Nat2Z.id.
  destruct (vals c) as [|x l] eqn:El; [by apply ensures_ret, ensures_ret|]. rewrite <-El in *.
  assert (Hk : vals c !! 0%nat = Some x) by by rewrite El. destruct (cell_of_item _ _ _ _ _ _ Hg Hk Hh) as [Hin _].
  eapply (vec_iterate_ok _ _ p (vals c) _ [] (spare c)); [exact Hh|apply elem_of_app; left; exact Hin|done|]. by apply ensures_ret.
Qed.

Lemma vec_call_does (c : call) : does c.
Proof.
  destruct c; auto using vec_new_does, vec_copy_does, vec_move_does, vec_copy_assign_does, vec_move_assign_does, vec_destroy_does, vec_get_does, vec_set_does,
    vec_push_back_does, vec_push_back_ref_does, vec_pop_back_does, vec_back_does, vec_resize_does, vec_reserve_does, vec_size_does, vec_capacity_does, vec_empty_does, vec_for_each_does.
Qed.
Lemma vec_run_does (cs : list call) : ∀ W A vs s ans A', rep W A vs s → spec_run cs A = Some (ans, A') →
  ensures (run cs vs) s (λ r s', r.1 = ans ∧ ∃ W', rep W' A' r.2 s').
Proof.
  induction cs as [|c cs IH]; intros W A vs s ans A' HR E; cbn [run spec_run] in *; [simplify_eq; apply ensures_ret; by eauto|].
  destruct (spec_call c A) as [[x A1]|] eqn:E1; [|done]. cbn in E. destruct (spec_run cs A1) as [[xs A2]|] eqn:E2; [|done].
  cbn in E. simplify_eq. apply ensures_bind. eapply ensures_weaken; [by eapply vec_call_does|]. intros r s1 [<- [W1 H1]].
  apply ensures_bind. eapply ensures_weaken; [by eapply IH|]. intros r2 s2 [<- H2]. by apply ensures_ret.
Qed.
End Class.

(** C29: Vectors are growing sequences.  Whatever vectors are made, copied, moved, assigned (also to themselves) and
    destroyed, and whatever is written, pushed, popped, resized and reserved, as long as no size is negative, no capacity
    leaves int and no item of a full vector is pushed back to that vector itself, which reads freed memory
    ([push_back_of_own_item]): each call answers as on sequences with spare elements; it throws ArrayIndexOutOfBoundsException or
    UnderflowException exactly when the index is outside of the items or there is none, and then changes nothing; no
    access is outside of an array, every array is freed once, and when all vectors are destroyed none is left.  An
    argument of push_back may be an item of any vector, of the same one only while it has spare elements. *)
Theorem vectors_are_growing_sequences {K} (dflt : K) (cs : list call) (ans : list answer) (A : gmap nat content) :
  spec_run dflt cs ∅ = Some (ans, A) →
  ∃ vs s W, run dflt cs ∅ (Heap ∅ 1) = (Val (ans, vs), s) ∧ vs = obj_of <$> W ∧ A = snd <$> W ∧
    holds (store s) (all_cells cells_of W) ∧ (A = ∅ → store s = ∅).
Proof.
  intros E. assert (H0 : rep (K := K) ∅ ∅ ∅ (Heap ∅ 1)).
  { split; [by rewrite fmap_empty..|apply map_Forall_empty|]. split_and!; cbn; [split; [constructor|done]|constructor|lia]. }
  destruct (vec_run_does dflt cs _ _ _ _ _ _ H0 E) as ([a vs] & s & Er & Ea & W & HR). cbn [fst snd] in *. subst a. exists vs, s, W.
  destruct HR as [Hw Hv _ [Hh _]]. split_and!; [done..|].
  intros ->. symmetry in Hw. apply fmap_empty_inv in Hw as ->. by destruct Hh as [_ ->].
Qed.

Definition sample : list (call (K:=Z)) :=
  [New 0 0; PushBack 0 10; PushBack 0 20; PushBack 0 15; PushBackRef 0 0 1; Capacity 0; Get 0 7; PopBack 0; Resize 0 4; ForEach 0; Move 1 0;
   PopBack 0; PushBack 0 5; CopyAssign 1 1; Set_ 1 0 11; Copy 2 1; MoveAssign 0 2; ForEach 0; Destroy 0; Destroy 1; Destroy 2].
Definition sample_answers : list answer :=
  [Done; Done; Done; Done; Done; Int 5; Thrown ArrayIndexOutOfBoundsException; Done; Done; Values [10; 20; 15; 20]; Done;
   Thrown UnderflowException; Done; Done; Done; Done; Done; Values [11; 20; 15; 20]; Done; Done; Done].
Lemma vectors_are_growing_sequences_witness : ∃ vs s, run 0 sample ∅ (Heap ∅ 1) = (Val (sample_answers, vs), s) ∧ store s = ∅.
Proof.
  assert (E : spec_run 0 sample ∅ = Some (sample_answers, ∅)) by (vm_compute; reflexivity).
  destruct (vectors_are_growing_sequences 0 sample sample_answers ∅ E) as (vs & s & W & Er & _ & _ & _ & Hs).
  exists vs, s. split; [exact Er|]. by apply Hs.
Defined.

(** Outside of the contract: the reference to an item of a full vector itself is read after reserve() has freed the array. *)
Lemma push_back_of_own_item : (run 0 [New 0 0; PushBack 0 10; PushBack 0 20; PushBackRef 0 0 0] ∅ (Heap ∅ 1)).1 = Ub.
Proof. by vm_compute. Qed.
End Vector.
