(* ===== verification/CuckooHashTable.v ===== *)
(** * CuckooHashTable.h of codeC++11: several hash functions and displacement

    A key is in one of the places that its hash functions give; when all are
    taken, the key in a random one of them makes room.  The family of hash
    functions is a parameter ([hash f x which]), as are the functions that
    generateNewFunctions() produces and the draws of the random generator; the
    table counts how many of each it has used.  The loops take fuel: nothing in the
    code bounds how often the table is rehashed. *)
From S2P Require Import Prelude HashContract.
Import HashContract.

Module Cuckoo.

Section table.
Context {K : Type} `{Countable K} (dflt : K).
Context {F : Type} (hash : F → K → nat → N) (numHashFunctions : nat).
Context (nextInt : nat → nat) (newFunctions : nat → F).

Record HashEntry := Entry { element : K; active : bool }.
Record table := Table {
  array : list HashEntry;
  currentSize : Z;
  rehashes : Z;
  hashFunctions : F;
  draws : nat;         (** numbers drawn from the generator [r] *)
  generations : nat    (** calls of generateNewFunctions() *)
}.

Definition COUNT_LIMIT : nat := 100.
Definition ALLOWED_REHASHES : Z := 5.

Definition set_array (arr : list HashEntry) (n : Z) (t : table) : table :=
  Table arr n (rehashes t) (hashFunctions t) (draws t) (generations t).
Definition set_rehashes (n : Z) (t : table) : table :=
  Table (array t) (currentSize t) n (hashFunctions t) (draws t) (generations t).

(** [entry.isActive = false] *)
Definition deactivate (e : HashEntry) : HashEntry := Entry (element e) false.

Definition size (t : table) : Z := currentSize t.
Definition capacity (t : table) : Z := zlen (array t).

Definition makeEmpty (t : table) : table := set_array (deactivate <$> array t) 0 t.

(** [f]: the functions that the family has at first. *)
Definition construct (fuel : nat) (f : F) (size : Z) : option table :=
  n ← Primes.nextPrime fuel size;
  Some (makeEmpty (Table (replicate (Z.to_nat n) (Entry dflt false)) 0 0 f 0 0)).

Definition myhash (x : K) (which : nat) (t : table) : nat :=
  N.to_nat (hash (hashFunctions t) x which mod N.of_nat (length (array t))).

Definition isActive (currentPos : nat) (t : table) : option bool := e ← array t !! currentPos; Some (active e).

(** The functions of the loops from [i] on. *)
Definition functions : list nat := seq 0 numHashFunctions.

(** [Some None] is -1. *)
Fixpoint find_loop (ws : list nat) (x : K) (t : table) : option (option nat) :=
  match ws with
  | [] => Some None
  | i :: ws =>
      let pos := myhash x i t in
      e ← array t !! pos;
      if active e && bool_decide (element e = x) then Some (Some pos) else find_loop ws x t
  end.
Definition findPos (x : K) (t : table) : option (option nat) := find_loop functions x t.
Definition contains (x : K) (t : table) : option bool := pos ← findPos x t; Some (bool_decide (pos ≠ None)).

Definition remove (x : K) (t : table) : option (bool * table) :=
  currentPos ← findPos x t;
  match currentPos with
  | None => Some (false, t)
  | Some pos =>
      e ← array t !! pos;
      if active e then Some (true, set_array (<[pos := deactivate e]> (array t)) (currentSize t) t) else Some (false, t)
  end.

(** ** insertHelper1 *)

(** The first place of [x] that is not taken. *)
Fixpoint free_place (ws : list nat) (x : K) (t : table) : option (option nat) :=
  match ws with
  | [] => Some None
  | i :: ws =>
      let pos := myhash x i t in
      a ← isActive pos t;
      if a : bool then free_place ws x t else Some (Some pos)
  end.

(** [do { pos = ...; } while( pos == lastPos && i++ < 5 );] with [tries] draws left after this one *)
Fixpoint pick (tries : nat) (x : K) (lastPos : option nat) (t : table) : nat * table :=
  let pos := myhash x (nextInt (draws t)) t in
  let t := Table (array t) (currentSize t) (rehashes t) (hashFunctions t) (S (draws t)) (generations t) in
  match tries with
  | O => (pos, t)
  | S tries => if bool_decide (lastPos = Some pos) then pick tries x lastPos t else (pos, t)
  end.

(** The for loop: [None] when [x] has been placed, or the key that is left. *)
Fixpoint kicks (count : nat) (x : K) (lastPos : option nat) (t : table) : option (option K * table) :=
  match count with
  | O => Some (Some x, t)
  | S count =>
      free ← free_place functions x t;
      match free with
      | Some pos => Some (None, set_array (<[pos := Entry x true]> (array t)) (currentSize t + 1) t)
      | None =>
          let '(pos, t) := pick 5 x lastPos t in
          e ← array t !! pos;
          kicks count (element e) (Some pos) (set_array (<[pos := Entry x (active e)]> (array t)) (currentSize t) t)
      end
  end.

(** Sizes are primes, so the quotient by 0.40 in floating point, and its comparison with a count, agree with the exact ones. *)
Definition expand (rehash : Z → table → option table) (t : table) : option table := rehash (zlen (array t) * 5 / 2) t.
Definition rehash_same (rehash : Z → table → option table) (t : table) : option table :=
  rehash (zlen (array t))
    (Table (array t) (currentSize t) (rehashes t) (newFunctions (generations t)) (draws t) (S (generations t))).
Definition overloaded (t : table) : bool := 2 * zlen (array t) <=? 5 * currentSize t.

(** [while( true )] *)
Fixpoint insertHelper1 (rounds : nat) (rehash : Z → table → option table) (x : K) (t : table) : option (bool * table) :=
  match rounds with
  | O => None
  | S rounds =>
      '(homeless, t) ← kicks COUNT_LIMIT x None t;
      match homeless with
      | None => Some (true, t)
      | Some x =>
          let t := set_rehashes (rehashes t + 1) t in
          if ALLOWED_REHASHES <? rehashes t
          then t ← expand rehash t; insertHelper1 rounds rehash x (set_rehashes 0 t)
          else t ← rehash_same rehash t; insertHelper1 rounds rehash x t
      end
  end.

Fixpoint insert_all (ins : K → table → option (bool * table)) (old : list HashEntry) (t : table) : option table :=
  match old with
  | [] => Some t
  | e :: old => if active e then '(_, t) ← ins (element e) t; insert_all ins old t else insert_all ins old t
  end.
(** rehash( int ) with the [insert] that it calls *)
Definition rehash (fuel : nat) (ins : K → table → option (bool * table)) (newSize : Z) (t : table) : option table :=
  let oldArray := array t in
  n ← Primes.nextPrime fuel newSize;
  insert_all ins oldArray (set_array (deactivate <$> resize (Z.to_nat n) (Entry dflt false) oldArray) 0 t).

(** [fuel] bounds the rounds, the depth of the calls and the search for a prime. *)
Fixpoint insert (fuel : nat) (x : K) (t : table) : option (bool * table) :=
  match fuel with
  | O => None
  | S fuel =>
      c ← contains x t;
      if c : bool then Some (false, t)
      else
        t ← (if overloaded t then expand (rehash fuel (insert fuel)) t else Some t);
        insertHelper1 fuel (rehash fuel (insert fuel)) x t
  end.

Definition call_table (fuel : nat) (c : call K) (t : table) : option (answer * table) :=
  match c with
  | Insert x | InsertMove x => '(b, t) ← insert fuel x t; Some (Answer b, t)
  | Remove x => '(b, t) ← remove x t; Some (Answer b, t)
  | Contains x => b ← contains x t; Some (Answer b, t)
  | MakeEmpty => Some (Done, makeEmpty t)
  end.
Fixpoint run (fuel : nat) (cs : list (call K)) (t : table) : option (list answer * table) :=
  match cs with
  | [] => Some ([], t)
  | c :: cs => '(a, t) ← call_table fuel c t; '(r, t) ← run fuel cs t; Some (a :: r, t)
  end.

(** ** The invariant *)

Definition active_object (e : HashEntry) : option K := if active e then Some (element e) else None.
Definition objects (t : table) : list K := omap active_object (array t).
Definition table_items (t : table) : gset K := list_to_set (objects t).

(** Every object is at one of its places, and at one only. *)
Record table_ok (t : table) : Prop := {
  ok_prime : Z.prime (zlen (array t));
  ok_length : (3 <= length (array t))%nat;
  ok_placed q e : array t !! q = Some e → active e = true → ∃ i, i ∈ functions ∧ q = myhash (element e) i t;
  ok_unique q q' e e' : array t !! q = Some e → array t !! q' = Some e' → active e = true → active e' = true →
    element e = element e' → q = q';
  ok_count : zlen (objects t) <= currentSize t
}.

Implicit Types (t : table) (x y : K).

Lemma elem_of_cuckoo x t : x ∈ table_items t ↔ ∃ q e, array t !! q = Some e ∧ active e = true ∧ element e = x.
Proof.
  unfold table_items, objects. rewrite elem_of_list_to_set, list_elem_of_omap. split.
  - intros (e & He & Ha). apply list_elem_of_lookup in He as [q Hq]. exists q, e. unfold active_object in Ha. destruct (active e); by simplify_eq.
  - intros (q & e & Hq & Ha & <-). exists e. split; [by eapply list_elem_of_lookup_2|]. unfold active_object. by rewrite Ha.
Qed.

(** The draws do not matter, nor does what has been counted. *)
Lemma cuckoo_ok_ext t t' : table_ok t → array t' = array t → hashFunctions t' = hashFunctions t → currentSize t <= currentSize t' →
  table_ok t' ∧ table_items t' = table_items t.
Proof.
  intros [] Ea Ef Ec. split; [split|]; unfold table_items, objects, myhash in *; rewrite ?Ea, ?Ef; eauto. lia.
Qed.

Lemma cuckoo_myhash_lt x i t : (0 < length (array t))%nat → (myhash x i t < length (array t))%nat.
Proof. intros Hl. unfold myhash. pose proof (N.mod_lt (hash (hashFunctions t) x i) (N.of_nat (length (array t)))). lia. Qed.
Lemma cuckoo_place x i t : (0 < length (array t))%nat → ∃ e, array t !! myhash x i t = Some e.
Proof. intros Hl. by apply lookup_lt_is_Some_2, cuckoo_myhash_lt. Qed.

Lemma find_loop_ok x t ws : (0 < length (array t))%nat → ∃ r, find_loop ws x t = Some r ∧
  match r with
  | Some q => ∃ e, array t !! q = Some e ∧ active e = true ∧ element e = x
  | None => ∀ i e, i ∈ ws → array t !! myhash x i t = Some e → active e = true → element e ≠ x
  end.
Proof.
  intros Hl. induction ws as [|i ws IH]; cbn [find_loop]; [exists None; split; [done|]; intros i e Hi; by apply elem_of_nil in Hi|].
  destruct (cuckoo_place x i t Hl) as [e He]. rewrite He. cbn [mbind option_bind].
  destruct (active e && bool_decide (element e = x)) eqn:Eb.
  - apply andb_true_iff in Eb as [Ha Hx%bool_decide_eq_true]. exists (Some (myhash x i t)). split; [done|]. by exists e.
  - destruct IH as (r & -> & Hr). exists r. split; [done|]. destruct r as [q|]; [done|]. intros j e' [->|Hj]%elem_of_cons He' Ha Hx; [|by eapply Hr].
    rewrite He in He'. simplify_eq. rewrite Ha in Eb. by rewrite bool_decide_true in Eb.
Qed.
Lemma findPos_ok x t : table_ok t → ∃ r, findPos x t = Some r ∧
  match r with Some q => x ∈ table_items t ∧ ∃ e, array t !! q = Some e ∧ active e = true ∧ element e = x | None => x ∉ table_items t end.
Proof.
  intros [_ Hl Hp _ _]. destruct (find_loop_ok x t functions) as (r & E & Hr); [lia|]. exists r. split; [done|]. destruct r as [q|].
  - split; [apply elem_of_cuckoo; by exists q|done].
  - intros (q & e & Hq & Ha & <-)%elem_of_cuckoo. destruct (Hp q e Hq Ha) as (i & Hi & ->). by eapply Hr.
Qed.
Lemma cuckoo_contains_ok x t : table_ok t → contains x t = Some (bool_decide (x ∈ table_items t)).
Proof.
  intros Hok. destruct (findPos_ok x t Hok) as (r & E & Hr). unfold contains. rewrite E. cbn [mbind option_bind]. f_equal.
  destruct r as [q|]; [destruct Hr as [Hr _]|]; by rewrite ?(bool_decide_true (x ∈ _)), ?(bool_decide_false (x ∈ _)) by done.
Qed.

Lemma free_place_ok x t ws : (0 < length (array t))%nat → ∃ r, free_place ws x t = Some r ∧
  match r with
  | Some q => ∃ i e, i ∈ ws ∧ q = myhash x i t ∧ array t !! q = Some e ∧ active e = false
  | None => ∀ i e, i ∈ ws → array t !! myhash x i t = Some e → active e = true
  end.
Proof.
  intros Hl. induction ws as [|i ws IH]; cbn [free_place]; [exists None; split; [done|]; intros i e Hi; by apply elem_of_nil in Hi|].
  destruct (cuckoo_place x i t Hl) as [e He]. unfold isActive at 1. rewrite He. cbn [mbind option_bind]. destruct (active e) eqn:Ha.
  - destruct IH as (r & -> & Hr). exists r. split; [done|]. destruct r as [q|].
    + destruct Hr as (j & e' & Hj & ?). exists j, e'. split; [by right|done].
    + intros j e' [->|Hj]%elem_of_cons He'; [by simplify_eq|by eapply Hr].
  - exists (Some (myhash x i t)). split; [done|]. exists i, e. split; [by left|done].
Qed.

(** ** One entry is written *)

Lemma length_objects arr q e e' : arr !! q = Some e →
  (length (omap active_object (<[q := e']> arr)) + (if active e then 1 else 0) = length (omap active_object arr) + (if active e' then 1 else 0))%nat.
Proof.
  intros Hq. pose proof (lookup_lt_Some _ _ _ Hq). rewrite <-(take_drop_middle arr q e Hq) at 2. rewrite insert_take_drop by done.
  assert (Hcons : ∀ e l, length (omap active_object (e :: l)) = ((if active e then 1 else 0) + length (omap active_object l))%nat).
  { intros d l. cbn. unfold active_object at 1. by destruct (active d). }
  rewrite !omap_app, !length_app, !Hcons. lia.
Qed.

Lemma put_ok t q e x i n : table_ok t → x ∉ table_items t → array t !! q = Some e → i ∈ functions → q = myhash x i t →
  currentSize t + (if active e then 0 else 1) <= n →
  let t' := set_array (<[q := Entry x true]> (array t)) n t in
  table_ok t' ∧ table_items t' = {[x]} ∪ (table_items t ∖ (if active e then {[element e]} else ∅)).
Proof.
  intros [Hpr Hl Hp Hu Hc] Hx Hq Hi Eq Hn t'. pose proof (lookup_lt_Some _ _ _ Hq) as Hlt.
  assert (Hget : ∀ q' e', array t' !! q' = Some e' → (q' = q ∧ e' = Entry x true) ∨ (q' ≠ q ∧ array t !! q' = Some e')).
  { intros q' e' H'. cbn [t' array set_array] in H'. destruct (decide (q' = q)) as [->|]; [left|right];
      [rewrite list_lookup_insert_eq in H' by done; by simplify_eq|by rewrite list_lookup_insert_ne in H']. }
  assert (Hh : ∀ y j, myhash y j t' = myhash y j t) by (intros; unfold myhash, t'; cbn; by rewrite length_insert).
  assert (Hxn : ∀ q' e', array t !! q' = Some e' → active e' = true → element e' ≠ x).
  { intros q' e' H' Ha E. apply Hx, elem_of_cuckoo. by exists q', e'. }
  split; [split|].
  - unfold zlen in *. cbn. by rewrite length_insert.
  - cbn. by rewrite length_insert.
  - intros q' e' H' Ha. setoid_rewrite Hh. destruct (Hget _ _ H') as [[-> ->]|[_ H1]]; [by exists i|by apply Hp].
  - intros q1 q2 e1 e2 H1 H2 A1 A2 E. destruct (Hget _ _ H1) as [[-> ->]|[? G1]], (Hget _ _ H2) as [[-> ->]|[? G2]]; cbn in E; [done| | |by eapply Hu].
    + by destruct (Hxn q2 e2).
    + by destruct (Hxn q1 e1).
  - unfold zlen, objects in *. cbn [t' set_array array currentSize]. pose proof (length_objects (array t) q e (Entry x true) Hq) as E. cbn [active] in E.
    destruct (active e); lia.
  - apply set_eq. intros y. rewrite elem_of_union, elem_of_difference, elem_of_singleton, !elem_of_cuckoo. split.
    + intros (q' & e' & H' & Ha & <-). destruct (Hget _ _ H') as [[-> ->]|[Hne H1]]; [by left|right]. split; [by exists q', e'|].
      destruct (active e) eqn:Ae; [|set_solver]. intros E%elem_of_singleton. apply Hne. by eapply Hu.
    + intros [->|[(q' & e' & H' & Ha & <-) Hne]].
      * exists q, (Entry x true). cbn. by rewrite list_lookup_insert_eq.
      * exists q', e'. split; [|done]. cbn. rewrite list_lookup_insert_ne; [done|]. intros <-. simplify_eq. rewrite Ha in Hne. set_solver.
Qed.

(** ** remove *)

Lemma remove_result x t : table_ok t →
  ∃ t', remove x t = Some (bool_decide (x ∈ table_items t), t') ∧ table_ok t' ∧ table_items t' = table_items t ∖ {[x]} ∧ size t' = size t.
Proof.
  intros Hok. destruct (findPos_ok x t Hok) as (r & E & Hr). unfold remove. rewrite E. cbn [mbind option_bind]. destruct r as [q|].
  2:{ exists t. rewrite bool_decide_false by done. split_and!; [done..|set_solver|done]. }
  destruct Hr as (Hx & e & Hq & Ha & Ex). rewrite Hq, bool_decide_true by done. cbn [mbind option_bind]. rewrite Ha.
  eexists. split; [reflexivity|]. destruct Hok as [Hpr Hl Hp Hu Hc]. pose proof (lookup_lt_Some _ _ _ Hq) as Hlt.
  set (t' := set_array _ _ _).
  assert (Hget : ∀ q' e', array t' !! q' = Some e' → active e' = true → q' ≠ q ∧ array t !! q' = Some e').
  { intros q' e' H' Ha'. cbn [t' array set_array] in H'. destruct (decide (q' = q)) as [->|];
      [rewrite list_lookup_insert_eq in H' by done; by simplify_eq|by rewrite list_lookup_insert_ne in H']. }
  assert (Hh : ∀ y j, myhash y j t' = myhash y j t) by (intros; unfold myhash, t'; cbn; by rewrite length_insert).
  split; [split|split; [|done]].
  - unfold zlen in *. cbn. by rewrite length_insert.
  - cbn. by rewrite length_insert.
  - intros q' e' H' Ha'. setoid_rewrite Hh. destruct (Hget _ _ H' Ha') as [_ ?]. by apply Hp.
  - intros q1 q2 e1 e2 H1 H2 A1 A2 Ee. destruct (Hget _ _ H1 A1), (Hget _ _ H2 A2). by eapply Hu.
  - unfold zlen, objects in *. cbn [t' set_array array currentSize]. pose proof (length_objects (array t) q e (deactivate e) Hq) as El.
    cbn [active deactivate] in El. rewrite Ha in El. lia.
  - apply set_eq. intros y. rewrite elem_of_difference, elem_of_singleton, !elem_of_cuckoo. split.
    + intros (q' & e' & H' & Ha' & <-). destruct (Hget _ _ H' Ha') as [Hne H1]. split; [by exists q', e'|]. intros Ey. apply Hne. eapply Hu; eauto. congruence.
    + intros [(q' & e' & H' & Ha' & <-) Hne]. exists q', e'. split; [|done]. cbn. rewrite list_lookup_insert_ne; [done|]. intros <-. simplify_eq.
Qed.

(** ** Displacement *)

Hypothesis draws_in_range : ∀ n, nextInt n ∈ functions.

Lemma pick_ok tries x lastPos t : ∃ i n, i ∈ functions ∧ pick tries x lastPos t =
  (myhash x i t, Table (array t) (currentSize t) (rehashes t) (hashFunctions t) n (generations t)).
Proof.
  revert t. induction tries as [|tries IH]; intros t; cbn [pick]; [by exists (nextInt (draws t)), (S (draws t))|].
  destruct (bool_decide _); [|by exists (nextInt (draws t)), (S (draws t))].
  destruct (IH (Table (array t) (currentSize t) (rehashes t) (hashFunctions t) (S (draws t)) (generations t))) as (i & n & Hi & ->).
  by exists i, n.
Qed.

(** What a round of displacements leaves alone. *)
Record kept t t' : Prop := {
  kept_length : length (array t') = length (array t);
  kept_functions : hashFunctions t' = hashFunctions t;
  kept_rehashes : rehashes t' = rehashes t;
  kept_generations : generations t' = generations t
}.

Lemma kicks_ok count : ∀ x lastPos t, table_ok t → x ∉ table_items t → ∃ r t', kicks count x lastPos t = Some (r, t') ∧ table_ok t' ∧ kept t t' ∧
  match r with
  | None => table_items t' = {[x]} ∪ table_items t ∧ currentSize t' = currentSize t + 1
  | Some y => (y ∉ table_items t') ∧ {[y]} ∪ table_items t' = {[x]} ∪ table_items t ∧ currentSize t' = currentSize t
  end.
Proof.
  induction count as [|count IH]; intros x lastPos t Hok Hx; cbn [kicks]; [by exists (Some x), t|].
  pose proof (ok_length _ Hok) as Hl. destruct (free_place_ok x t functions) as (r & -> & Hr); [lia|]. cbn [mbind option_bind]. destruct r as [q|].
  - destruct Hr as (i & e & Hi & Eq & Hq & Ha). eexists None, _. split; [reflexivity|].
    destruct (put_ok t q e x i (currentSize t + 1) Hok Hx Hq Hi Eq) as [Hok' Ei]; [rewrite Ha; lia|]. split; [done|].
    split; [split; cbn; [by rewrite length_insert|done..]|]. split; [|done]. rewrite Ei, Ha. set_solver.
  - destruct (pick_ok 5 x lastPos t) as (i & n & Hi & ->). cbn [array set_array].
    destruct (cuckoo_place x i t) as [e He]; [lia|]. rewrite He. cbn [mbind option_bind]. pose proof (Hr i e Hi He) as Ha. rewrite Ha.
    set (t1 := Table (array t) _ _ _ n _). destruct (cuckoo_ok_ext t t1 Hok) as [Hok1 E1]; [done..|].
    destruct (put_ok t1 (myhash x i t) e x i (currentSize t) Hok1) as [Hok2 E2]; [by rewrite E1|done..|rewrite Ha; cbn; lia|].
    rewrite E1, Ha in E2. set (t2 := set_array _ _ t1) in *.
    assert (Hin : element e ∈ table_items t) by (apply elem_of_cuckoo; by exists (myhash x i t), e).
    assert (Hne : element e ≠ x) by (intros E; rewrite E in Hin; done).
    assert (Hy : element e ∉ table_items t2) by (rewrite E2; set_solver).
    destruct (IH (element e) (Some (myhash x i t)) t2 Hok2 Hy) as (r & t' & Ek & Hok' & [Hlen ? ? ?] & Hr'). exists r, t'.
    assert (Hall : {[element e]} ∪ table_items t2 = {[x]} ∪ table_items t).
    { rewrite E2. apply set_eq. intros z. destruct (decide (z = element e)); set_solver. }
    split; [exact Ek|]. split; [done|]. split; [split; [cbn in Hlen; by rewrite length_insert in Hlen|done..]|].
    destruct r as [y|]; by rewrite Hall in Hr'.
Qed.

(** ** Rehashing *)

Lemma cleared_table_ok arr t : Z.prime (zlen arr) → (3 <= length arr)%nat →
  let t' := set_array (deactivate <$> arr) 0 t in table_ok t' ∧ table_items t' = ∅.
Proof.
  intros Hp Hl t'. assert (Hget : ∀ q e, array t' !! q = Some e → active e = false).
  { intros q e He. cbn in He. apply list_lookup_fmap_Some in He as (e' & -> & _). done. }
  assert (Ho : objects t' = []).
  { unfold objects. cbn. clear. induction arr as [|e arr IH]; [done|]. cbn. exact IH. }
  split; [split|unfold table_items; by rewrite Ho].
  - unfold zlen in *. cbn. by rewrite length_fmap.
  - cbn. by rewrite length_fmap.
  - intros q e He Ha. rewrite (Hget q e He) in Ha. done.
  - intros q q' e e' He _ Ha. rewrite (Hget q e He) in Ha. done.
  - rewrite Ho. done.
Qed.

Lemma nextPrime_result fuel n q : 0 < n → Primes.nextPrime fuel n = Some q → Z.prime q ∧ n <= q ∧ 3 <= q.
Proof.
  intros Hn E. destruct (Primes.nextPrime_ok n Hn) as (p & G & Hp & Hle & H3 & Ep). specialize (Ep (Nat.max G fuel) ltac:(lia)).
  unfold Primes.nextPrime in *. apply (Primes.nextPrime_loop_more _ _ _ (Nat.max G fuel)) in E; [|lia]. by simplify_eq.
Qed.

(** What [insert] does when it returns. *)
Definition inserts (ins : K → table → option (bool * table)) : Prop :=
  ∀ x t b t', table_ok t → ins x t = Some (b, t') → table_ok t' ∧ b = bool_decide (x ∉ table_items t) ∧ table_items t' = {[x]} ∪ table_items t.

Lemma insert_all_result ins old : inserts ins → ∀ t t', table_ok t → insert_all ins old t = Some t' →
  table_ok t' ∧ table_items t' = list_to_set (omap active_object old) ∪ table_items t.
Proof.
  intros Hins. induction old as [|e old IH]; intros t t' Hok E; cbn [insert_all] in E; [simplify_eq; split; [done|set_solver]|].
  assert (Hc : omap active_object (e :: old) = if active e then element e :: omap active_object old else omap active_object old).
  { cbn. unfold active_object at 1. by destruct (active e). }
  rewrite Hc. destruct (active e); [|by apply IH].
  destruct (ins (element e) t) as [[b t1]|] eqn:E1; [|done]. cbn in E. destruct (Hins _ _ _ _ Hok E1) as (Hok1 & _ & I1).
  destruct (IH _ _ Hok1 E) as [Hok2 I2]. split; [done|]. rewrite I2, I1. cbn. set_solver.
Qed.
Lemma rehash_result fuel ins n t t' : inserts ins → 0 < n → rehash fuel ins n t = Some t' → table_ok t' ∧ table_items t' = table_items t.
Proof.
  intros Hins Hn E. unfold rehash in E. destruct (Primes.nextPrime fuel n) as [q|] eqn:Eq; [|done]. cbn [mbind option_bind] in E.
  destruct (nextPrime_result _ _ _ Hn Eq) as (Hp & _ & H3).
  destruct (cleared_table_ok (resize (Z.to_nat q) (Entry dflt false) (array t)) t) as [Hok Hi].
  { unfold zlen. by rewrite length_resize, Z2Nat.id by lia. } { rewrite length_resize. lia. }
  destruct (insert_all_result _ _ Hins _ _ Hok E) as [Hok' Hi']. split; [done|]. rewrite Hi', Hi. unfold table_items, objects. set_solver.
Qed.

Lemma expand_positive arr : (3 <= length arr)%nat → 0 < zlen (A := HashEntry) arr * 5 / 2.
Proof. intros Hl. apply Z.div_str_pos. unfold zlen. lia. Qed.

Lemma insertHelper1_result fuel ins rounds : inserts ins → ∀ x t b t', table_ok t → x ∉ table_items t →
  insertHelper1 rounds (rehash fuel ins) x t = Some (b, t') → table_ok t' ∧ b = true ∧ table_items t' = {[x]} ∪ table_items t.
Proof.
  intros Hins. induction rounds as [|rounds IH]; intros x t b t' Hok Hx E; cbn [insertHelper1] in E; [done|].
  destruct (kicks_ok COUNT_LIMIT x None t Hok Hx) as (r & t1 & Ek & Hok1 & _ & Hr). rewrite Ek in E. cbn [mbind option_bind] in E.
  destruct r as [y|]; [|destruct Hr; by simplify_eq]. destruct Hr as (Hy & Hall & _). pose proof (ok_length _ Hok1) as Hl.
  assert (Hpos : 0 < zlen (array t1)) by (unfold zlen; lia).
  assert (Hgo : ∀ n t2 t3, rehash fuel ins n t2 = Some t3 → 0 < n → array t2 = array t1 → table_ok t3 ∧ (y ∉ table_items t3) ∧ {[y]} ∪ table_items t3 = {[x]} ∪ table_items t).
  { intros n t2 t3 E3 Hn Ea. destruct (rehash_result _ _ _ _ _ Hins Hn E3) as [H3 I3].
    assert (table_items t2 = table_items t1) as I2 by (unfold table_items, objects; by rewrite Ea). by rewrite I3, I2. }
  destruct (_ <? _).
  - unfold expand in E. destruct (rehash fuel ins _ _) as [t3|] eqn:E3; [|done]. cbn [mbind option_bind] in E.
    destruct (Hgo _ _ _ E3 (expand_positive (array t1) Hl) eq_refl) as (H3 & Hy3 & Hall3).
    destruct (cuckoo_ok_ext t3 (set_rehashes 0 t3) H3) as [H4 I4]; [done..|cbn; lia|].
    destruct (IH y _ _ _ H4 ltac:(by rewrite I4) E) as (? & ? & Ei). split_and!; [done..|]. by rewrite Ei, I4.
  - unfold rehash_same in E. destruct (rehash fuel ins _ _) as [t3|] eqn:E3; [|done]. cbn [mbind option_bind] in E.
    destruct (Hgo _ _ _ E3 Hpos eq_refl) as (H3 & Hy3 & Hall3).
    destruct (IH y _ _ _ H3 Hy3 E) as (? & ? & Ei). split_and!; [done..|]. by rewrite Ei.
Qed.

Lemma insert_result fuel : inserts (insert fuel).
Proof.
  induction fuel as [|fuel IH]; intros x t b t' Hok E; cbn [insert] in E; [done|]. rewrite cuckoo_contains_ok in E by done. cbn [mbind option_bind] in E.
  destruct (bool_decide (x ∈ table_items t)) eqn:Hx.
  { apply bool_decide_eq_true in Hx. simplify_eq. rewrite bool_decide_false by tauto. split_and!; [done..|set_solver]. }
  apply bool_decide_eq_false in Hx. rewrite bool_decide_true by done. destruct (overloaded t).
  - unfold expand in E. destruct (rehash fuel (insert fuel) _ t) as [t1|] eqn:E1; [|done]. cbn [mbind option_bind] in E.
    destruct (rehash_result _ _ _ _ _ IH (expand_positive _ (ok_length _ Hok)) E1) as [H1 I1].
    destruct (insertHelper1_result _ _ _ IH _ _ _ _ H1 ltac:(by rewrite I1) E) as (? & ? & Ei). split_and!; [done..|]. by rewrite Ei, I1.
  - exact (insertHelper1_result _ _ _ IH _ _ _ _ Hok Hx E).
Qed.

(** ** Calls and runs *)

Lemma call_result fuel (c : call K) t a t' : table_ok t → call_table fuel c t = Some (a, t') →
  table_ok t' ∧ (a, table_items t') = spec c (table_items t).
Proof.
  intros Hok E. destruct c as [x|x|x|x|]; cbn [call_table spec] in *.
  1,2: destruct (insert fuel x t) as [[b t1]|] eqn:E1; [|done]; cbn in E; simplify_eq;
    destruct (insert_result fuel x t b t' Hok E1) as (? & -> & ->); done.
  - destruct (remove_result x t Hok) as (t1 & E1 & H1 & I1 & _). rewrite E1 in E. cbn in E. simplify_eq. by rewrite I1.
  - rewrite cuckoo_contains_ok in E by done. cbn in E. by simplify_eq.
  - simplify_eq. destruct (cleared_table_ok (array t) t (ok_prime _ Hok) (ok_length _ Hok)) as [H1 I1]. split; [done|]. unfold makeEmpty. by rewrite I1.
Qed.
Lemma cuckoo_run_result fuel (cs : list (call K)) : ∀ t ans t', table_ok t → run fuel cs t = Some (ans, t') →
  table_ok t' ∧ (ans, table_items t') = spec_run cs (table_items t).
Proof.
  induction cs as [|c cs IH]; intros t ans t' Hok E; cbn [run spec_run] in *; [by simplify_eq|].
  destruct (call_table fuel c t) as [[a t1]|] eqn:E1; [|done]. cbn in E. destruct (run fuel cs t1) as [[r t2]|] eqn:E2; [|done].
  cbn in E. simplify_eq. destruct (call_result _ _ _ _ _ Hok E1) as [H1 S1]. destruct (IH _ _ _ H1 E2) as [H2 S2].
  split; [done|]. destruct (spec c (table_items t)) as [a' X]. simplify_eq. by rewrite <-S2.
Qed.
Lemma construct_result fuel f n t : 0 < n → construct fuel f n = Some t → table_ok t ∧ table_items t = ∅.
Proof.
  intros Hn E. unfold construct in E. destruct (Primes.nextPrime fuel n) as [q|] eqn:Eq; [|done]. cbn in E. simplify_eq.
  destruct (nextPrime_result _ _ _ Hn Eq) as (Hp & _ & H3). apply cleared_table_ok; cbn [array]; rewrite ?zlen_replicate, ?length_replicate; [|lia].
  by rewrite Z2Nat.id by lia.
Qed.

(** ** When an insertion returns *)

Lemma functions_zero : ∃ ws, functions = 0%nat :: ws.
Proof. pose proof (draws_in_range 0) as Hd. unfold functions in *. destruct numHashFunctions; [by apply elem_of_nil in Hd|by eexists]. Qed.

(** A place of the key is free. *)
Lemma insert_free fuel x t i e : table_ok t → x ∉ table_items t → overloaded t = false → i ∈ functions → array t !! myhash x i t = Some e → active e = false →
  ∃ q, insert (S (S fuel)) x t = Some (true, set_array (<[q := Entry x true]> (array t)) (currentSize t + 1) t).
Proof.
  intros Hok Hx Ho Hi He Ha. pose proof (ok_length _ Hok). destruct (free_place_ok x t functions) as (r & E & Hr); [lia|].
  cbn [insert]. rewrite cuckoo_contains_ok, bool_decide_false, Ho by done. cbn [mbind option_bind insertHelper1 COUNT_LIMIT kicks]. rewrite E. cbn [mbind option_bind].
  destruct r as [q|]; [by exists q|]. by rewrite (Hr i e) in Ha.
Qed.

(** Functions whose first one takes the keys of [X] apart. *)
Definition separates (f : F) (X : gset K) (n : nat) : Prop :=
  ∀ x y, x ∈ X → y ∈ X → (hash f x 0 mod N.of_nat n = hash f y 0 mod N.of_nat n)%N → x = y.

(** All objects are at their first places. *)
Definition at_first t : Prop := ∀ q e, array t !! q = Some e → active e = true → q = myhash (element e) 0 t.

Lemma first_free X x t : at_first t → separates (hashFunctions t) X (length (array t)) → {[x]} ∪ table_items t ⊆ X → x ∉ table_items t →
  (0 < length (array t))%nat → ∃ e, array t !! myhash x 0 t = Some e ∧ active e = false.
Proof.
  intros Hf Hs HX Hx Hl. destruct (cuckoo_place x 0 t Hl) as [e He]. exists e. split; [done|]. destruct (active e) eqn:Ha; [|done].
  exfalso. apply Hx, elem_of_cuckoo. exists (myhash x 0 t), e. split_and!; [done..|].
  pose proof (Hf _ _ He Ha) as Eq. apply (Hs (element e) x).
  - apply HX, elem_of_union. right. apply elem_of_cuckoo. by exists (myhash x 0 t), e.
  - set_solver.
  - unfold myhash in Eq. lia.
Qed.

Lemma kicks_first X x t count lastPos : at_first t → separates (hashFunctions t) X (length (array t)) → {[x]} ∪ table_items t ⊆ X → x ∉ table_items t →
  (0 < length (array t))%nat →
  kicks (S count) x lastPos t = Some (None, set_array (<[myhash x 0 t := Entry x true]> (array t)) (currentSize t + 1) t).
Proof.
  intros Hf Hs HX Hx Hl. destruct (first_free X x t) as (e & He & Ha); [done..|]. destruct functions_zero as [ws Ef]. cbn [kicks].
  rewrite Ef. cbn [free_place]. unfold isActive at 1. rewrite He. cbn [mbind option_bind]. by rewrite Ha.
Qed.

Lemma insert_first X fuel x t : table_ok t → at_first t → separates (hashFunctions t) X (length (array t)) → {[x]} ∪ table_items t ⊆ X →
  overloaded t = false → ∃ b t', insert (S (S fuel)) x t = Some (b, t') ∧ table_ok t' ∧ at_first t' ∧ kept t t' ∧
    currentSize t' <= currentSize t + 1 ∧ table_items t' = {[x]} ∪ table_items t.
Proof.
  intros Hok Hf Hs HX Ho. pose proof (ok_length _ Hok) as Hl. cbn [insert]. rewrite cuckoo_contains_ok by done. cbn [mbind option_bind].
  destruct (decide (x ∈ table_items t)) as [Hx|Hx].
  { rewrite bool_decide_true by done. exists false, t. split_and!; [done..|lia|set_solver]. }
  rewrite bool_decide_false, Ho by done. cbn [mbind option_bind insertHelper1]. unfold COUNT_LIMIT.
  rewrite (kicks_first X) by (done || lia). cbn [mbind option_bind]. eexists true, _. split; [reflexivity|].
  destruct (first_free X x t) as (e & He & Ha); [done..|lia|]. destruct functions_zero as [ws Ef].
  destruct (put_ok t (myhash x 0 t) e x 0 (currentSize t + 1) Hok Hx He) as [H1 I1]; [rewrite Ef; by left|done|rewrite Ha; lia|].
  rewrite Ha in I1. split_and!; [done| |split; cbn; by rewrite ?length_insert|cbn; lia|rewrite I1; set_solver].
  intros q e' Hq Ha'. unfold myhash at 1. cbn [array set_array hashFunctions] in *. rewrite length_insert. fold (myhash (element e') 0 t).
  destruct (decide (q = myhash x 0 t)) as [->|Hne]; [rewrite list_lookup_insert_eq in Hq by (by eapply lookup_lt_Some); by simplify_eq|].
  rewrite list_lookup_insert_ne in Hq by done. by apply Hf.
Qed.

Lemma insert_all_first X fuel old : ∀ t, table_ok t → at_first t → separates (hashFunctions t) X (length (array t)) →
  list_to_set (omap active_object old) ∪ table_items t ⊆ X → 5 * (currentSize t + zlen (omap active_object old)) < 2 * zlen (array t) →
  ∃ t', insert_all (insert (S (S fuel))) old t = Some t' ∧ table_ok t' ∧ at_first t' ∧ kept t t' ∧
    table_items t' = list_to_set (omap active_object old) ∪ table_items t.
Proof.
  induction old as [|e old IH]; intros t Hok Hf Hs HX Hc; cbn [insert_all]; [exists t; split_and!; [done..|set_solver]|].
  assert (Hco : omap active_object (e :: old) = if active e then element e :: omap active_object old else omap active_object old).
  { cbn. unfold active_object at 1. by destruct (active e). }
  rewrite Hco in *. destruct (active e); [|by apply IH]. rewrite zlen_cons in Hc. cbn [list_to_set] in *. pose proof (zlen_nonneg (omap active_object old)).
  destruct (insert_first X fuel (element e) t Hok Hf Hs) as (b & t1 & E1 & H1 & F1 & [L1 HF1 R1 G1] & C1 & I1); [clear -HX; set_solver|unfold overloaded; apply Z.leb_gt; lia|].
  rewrite E1. cbn [mbind option_bind].
  destruct (IH t1 H1 F1) as (t2 & E2 & H2 & F2 & [L2 HF2 R2 G2] & I2); [by rewrite HF1, L1|rewrite I1; clear -HX; set_solver|unfold zlen in *; rewrite L1; lia|].
  exists t2. split_and!; [done..|split; congruence|rewrite I2, I1; clear; set_solver].
Qed.

Lemma nextPrime_prime fuel n : Z.prime n → 3 <= n → Primes.nextPrime fuel n = Some n.
Proof.
  intros Hp H3. unfold Primes.nextPrime. rewrite (proj2 (Z.eqb_neq _ _)).
  - destruct (Primes.isPrime_ok n) as (b & E & Hb); [lia|]. assert (b = true) as -> by by apply Hb. destruct fuel; cbn; by rewrite E.
  - intros E. rewrite Z.rem_mod_nonneg in E by lia. apply Z.mod_divide in E; [|done]. destruct Hp as [_ Hp]. by apply (Hp 2); [lia|].
Qed.

Lemma insert_S fuel x t : insert (S fuel) x t =
  c ← contains x t;
  if c : bool then Some (false, t)
  else
    t ← (if overloaded t then expand (rehash fuel (insert fuel)) t else Some t);
    insertHelper1 fuel (rehash fuel (insert fuel)) x t.
Proof. done. Qed.

(** The next functions take the objects apart, and a rehash with them is still allowed. *)
Lemma insert_returns x t : table_ok t → x ∉ table_items t → overloaded t = false → rehashes t < ALLOWED_REHASHES →
  separates (newFunctions (generations t)) ({[x]} ∪ table_items t) (length (array t)) →
  ∀ fuel, ∃ t', insert (S (S (S (S fuel)))) x t = Some (true, t').
Proof.
  intros Hok Hx Ho Hr Hs fuel. pose proof (ok_length _ Hok) as Hl. rewrite insert_S, cuckoo_contains_ok, bool_decide_false, Ho by done. set (ins := insert (S (S (S fuel)))). cbn [mbind option_bind].
  destruct (kicks_ok COUNT_LIMIT x None t Hok Hx) as (r & t1 & E1 & H1 & [L1 HF1 R1 G1] & Hr1). cbn [insertHelper1]. rewrite E1. cbn [mbind option_bind].
  destruct r as [y|]; [|by exists t1]. destruct Hr1 as (Hy & Hall & Hc1). cbn [rehashes set_rehashes]. rewrite R1.
  rewrite (proj2 (Z.ltb_ge _ _)) by lia. unfold rehash_same. cbn [array set_rehashes currentSize rehashes hashFunctions draws generations].
  set (t2 := Table _ _ _ _ _ _). pose proof (ok_length _ H1). pose proof (ok_prime _ H1).
  unfold rehash. rewrite nextPrime_prime by (done || unfold zlen; lia). cbn [mbind option_bind].
  assert (Er : resize (Z.to_nat (zlen (array t1))) (Entry dflt false) (array t2) = array t1).
  { unfold zlen. rewrite Nat2Z.id. apply resize_all. }
  rewrite Er. destruct (cleared_table_ok (array t1) t2) as [H3 I3]; [done..|]. set (t3 := set_array _ 0 t2) in *.
  assert (Hl3 : length (array t3) = length (array t)) by (cbn; by rewrite length_fmap, L1).
  assert (Hf3 : at_first t3).
  { intros q e Hq Ha. cbn in Hq. apply list_lookup_fmap_Some in Hq as (e' & -> & _). done. }
  assert (Hs3 : separates (hashFunctions t3) ({[x]} ∪ table_items t) (length (array t3))) by (rewrite Hl3; cbn; by rewrite G1).
  assert (Hobj : list_to_set (omap active_object (array t1)) = table_items t1) by done.
  destruct (insert_all_first ({[x]} ∪ table_items t) (S fuel) (array t1) t3 H3 Hf3 Hs3) as (t4 & E4 & H4 & F4 & [L4 HF4 R4 G4] & I4).
  { rewrite I3. fold (objects t1). change (list_to_set (objects t1) : gset K) with (table_items t1). clear -Hall. set_solver. }
  { cbn [t3 set_array currentSize]. pose proof (ok_count _ H1) as Hc. unfold overloaded in Ho. apply Z.leb_gt in Ho.
    fold (objects t1). unfold zlen in *. rewrite Hl3. lia. }
  fold ins in E4. change (array t2) with (array t1). rewrite E4. cbn [mbind option_bind]. rewrite I3 in I4. fold (objects t1) in I4.
  change (list_to_set (objects t1) : gset K) with (table_items t1) in I4.
  unfold COUNT_LIMIT. rewrite (kicks_first ({[x]} ∪ table_items t)).
  - cbn [mbind option_bind]. by eexists.
  - done.
  - by rewrite HF4, L4.
  - rewrite I4. clear -Hall. set_solver.
  - rewrite I4. clear -Hy. set_solver.
  - rewrite L4, Hl3. lia.
Qed.

(** ** When it does not

    Two keys that all functions send to 0 drive each other out for ever. *)
Section Collision.
Context (u v : K).
Hypothesis distinct : u ≠ v.
Hypothesis collide : ∀ f i, hash f u i = 0%N ∧ hash f v i = 0%N.

Definition pair_of (a b : K) : Prop := (a = u ∧ b = v) ∨ (a = v ∧ b = u).
Definition idle (arr : list HashEntry) : Prop := Forall (λ e, active e = false) arr.
Definition alone (a : K) t : Prop := ∃ rest, array t = Entry a true :: rest ∧ idle rest.

Lemma myhash_zero a b i t : pair_of a b → myhash b i t = 0%nat.
Proof. intros Hab. unfold myhash. destruct (collide (hashFunctions t) i) as [E1 E2]. destruct Hab as [[-> ->]|[-> ->]]; rewrite ?E1, ?E2; by destruct (N.of_nat _). Qed.
Lemma pair_swap a b : pair_of a b → pair_of b a.
Proof. intros [[-> ->]|[-> ->]]; [by right|by left]. Qed.

Lemma alone_full ws a b t : pair_of a b → alone a t → free_place ws b t = Some None.
Proof.
  intros Hab (rest & Ea & _). induction ws as [|i ws IH]; [done|]. cbn [free_place]. unfold isActive at 1.
  rewrite (myhash_zero a b) by done. by rewrite Ea.
Qed.
Lemma alone_kicks count : ∀ a b lastPos t, pair_of a b → alone a t →
  ∃ a' b' t', kicks count b lastPos t = Some (Some b', t') ∧ pair_of a' b' ∧ alone a' t'.
Proof.
  induction count as [|count IH]; intros a b lastPos t Hab Ha; cbn [kicks]; [by exists a, b, t|].
  rewrite (alone_full _ a b) by done. cbn [mbind option_bind]. destruct (pick_ok 5 b lastPos t) as (i & n & _ & ->).
  rewrite (myhash_zero a b) by done. destruct Ha as (rest & Ea & Hr). cbn [array]. rewrite Ea. cbn [lookup list_lookup mbind option_bind element active].
  apply (IH b); [by apply pair_swap|]. exists rest. by cbn.
Qed.

Lemma insert_idle fuel a b t r t' : pair_of a b → idle (array t) → (0 < length (array t))%nat → currentSize t = 0 →
  insert fuel b t = Some (r, t') → alone b t'.
Proof.
  intros Hab Hi Hl Hc E. destruct fuel as [|fuel]; [done|]. rewrite insert_S in E. destruct (array t) as [|e arr] eqn:Ea; cbn [length] in Hl; [lia|].
  apply Forall_cons in Hi as [He Hi]. assert (Ec : contains b t = Some false).
  { assert (Ew : ∀ ws, find_loop ws b t = Some None).
    { induction ws as [|i ws IH]; [done|]. cbn [find_loop]. rewrite (myhash_zero a b), Ea by done.
      cbn [lookup list_lookup mbind option_bind]. by rewrite He. }
    unfold contains, findPos. rewrite Ew. cbn [mbind option_bind]. by rewrite bool_decide_false by tauto. }
  rewrite Ec in E. cbn [mbind option_bind] in E.
  assert (Ho : overloaded t = false) by (unfold overloaded; rewrite Ea, Hc, zlen_cons; apply Z.leb_gt; pose proof (zlen_nonneg arr); lia).
  rewrite Ho in E. cbn [mbind option_bind] in E. destruct fuel as [|fuel]; [done|]. cbn [insertHelper1] in E. unfold COUNT_LIMIT in E.
  assert (Efree : free_place functions b t = Some (Some 0%nat)).
  { destruct functions_zero as [ws ->]. cbn [free_place]. unfold isActive at 1. rewrite (myhash_zero a b), Ea by done.
    cbn [lookup list_lookup mbind option_bind]. by rewrite He. }
  cbn [kicks] in E. rewrite Efree in E. cbn [mbind option_bind] in E. rewrite Ea in E. simplify_eq. by exists arr.
Qed.
Lemma insert_all_idle ins old t : idle old → insert_all ins old t = Some t.
Proof. induction 1 as [|e old He _ IH]; [done|]. cbn [insert_all]. by rewrite He. Qed.
Lemma alone_rehash fuel fuel' n a b t t' : pair_of a b → alone a t → 0 < n → rehash fuel (insert fuel') n t = Some t' → alone a t'.
Proof.
  intros Hab (rest & Ea & Hr) Hn E. unfold rehash in E. destruct (Primes.nextPrime fuel n) as [q|] eqn:Eq; [|done]. cbn [mbind option_bind] in E.
  destruct (nextPrime_result _ _ _ Hn Eq) as (_ & _ & H3). rewrite Ea in E. cbn [insert_all active element] in E.
  destruct (insert fuel' a _) as [[r t1]|] eqn:E1; [|done]. cbn in E. rewrite insert_all_idle in E by done. simplify_eq.
  refine (insert_idle _ b a _ _ _ (pair_swap _ _ Hab) _ _ _ E1); cbn [array set_array]; [| |done].
  - apply Forall_forall. intros e He. apply list_elem_of_fmap in He as (e' & -> & _). done.
  - rewrite length_fmap, length_resize. lia.
Qed.

Lemma insertHelper1_for_ever fuel fuel' rounds : ∀ a b t, pair_of a b → alone a t → insertHelper1 rounds (rehash fuel (insert fuel')) b t = None.
Proof.
  induction rounds as [|rounds IH]; intros a b t Hab Ha; cbn [insertHelper1]; [done|].
  destruct (alone_kicks COUNT_LIMIT a b None t Hab Ha) as (a' & b' & t1 & -> & Hab' & Ha'). cbn [mbind option_bind].
  assert (Hpos : 0 < zlen (array t1)) by (destruct Ha' as (rest & Er & _); rewrite Er, zlen_cons; pose proof (zlen_nonneg rest); lia).
  unfold expand, rehash_same. destruct (_ <? _).
  - destruct (rehash fuel _ _ _) as [t2|] eqn:E2; [|done]. cbn [mbind option_bind]. destruct Ha' as (rest & Er & Hr).
    assert (H2 : alone a' t2).
    { refine (alone_rehash _ _ _ a' b' _ t2 Hab' _ _ E2); [by exists rest|]. apply Z.div_str_pos. cbn [set_rehashes array]. lia. }
    apply (IH a'); [done|]. destruct H2 as (rest' & E' & ?). by exists rest'.
  - destruct (rehash fuel _ _ _) as [t2|] eqn:E2; [|done]. cbn [mbind option_bind]. destruct Ha' as (rest & Er & Hr).
    apply (IH a'); [done|]. refine (alone_rehash _ _ _ a' b' _ t2 Hab' _ _ E2); [by exists rest|exact Hpos].
Qed.

Lemma insert_for_ever f n fuel : 0 < n → ∀ t, construct fuel f n = Some t → run fuel [Insert u; Insert v] t = None.
Proof.
  intros Hn t E. destruct (construct_result _ _ _ _ Hn E) as [Hok _]. assert (Hi : idle (array t) ∧ currentSize t = 0).
  { unfold construct in E. destruct (Primes.nextPrime fuel n) as [q|]; [|done]. cbn in E. simplify_eq. split; [|done].
    apply Forall_forall. intros e He. cbn in He. apply list_elem_of_fmap in He as (e' & -> & _). done. }
  pose proof (ok_length _ Hok). destruct Hi as [Hi Hc]. cbn [run call_table]. destruct (insert fuel u t) as [[r t1]|] eqn:E1; [|done]. cbn [mbind option_bind].
  assert (Ha : alone u t1) by (refine (insert_idle _ v u _ _ _ _ Hi _ Hc E1); [by right|lia]).
  enough (E2 : insert fuel v t1 = None) by by rewrite E2.
  assert (Hpair : pair_of u v) by by left. destruct fuel as [|fuel']; [done|]. rewrite insert_S.
  destruct (insert_result _ _ _ _ _ Hok E1) as (Hok1 & _ & I1). rewrite cuckoo_contains_ok by done. cbn [mbind option_bind].
  rewrite bool_decide_false.
  2:{ destruct Ha as (rest & Er & Hr). intros (q & e & Hq & Hact & Ee)%elem_of_cuckoo. rewrite Er in Hq. destruct q as [|q]; cbn in Hq; [by simplify_eq|].
      unfold idle in Hr. rewrite Forall_forall in Hr. rewrite (Hr e) in Hact; [done|by eapply list_elem_of_lookup_2]. }
  destruct (overloaded t1); [|by apply (insertHelper1_for_ever _ _ _ u)]. unfold expand.
  destruct (rehash fuel' _ _ t1) as [t2|] eqn:E2; [|done]. cbn [mbind option_bind]. apply (insertHelper1_for_ever _ _ _ u); [done|].
  refine (alone_rehash _ _ _ u v _ t2 Hpair Ha _ E2). by apply expand_positive, Hok1.
Qed.
End Collision.
End table.

(** ** StringHashFamily *)

Definition char_to_size (c : Z) : Z := wrap 64 (swrap 8 c).
(** [hashVal = multiplier * hashVal + ch], over the bytes of the string; the int multiplier becomes a size_t. *)
Definition string_hash (MULTIPLIERS : list Z) (x : list Z) (which : nat) : N :=
  let multiplier := default 0 (MULTIPLIERS !! which) in
  Z.to_N (foldl (λ hashVal ch, wrap 64 (wrap 64 multiplier * hashVal + char_to_size ch)) 0 x).

Lemma zero_strings_collide M i : string_hash M [] i = 0%N ∧ string_hash M [0] i = 0%N.
Proof. split; [done|]. unfold string_hash. cbn [foldl]. rewrite Z.mul_0_r. done. Qed.


(** Hash functions for the witness: the key and its sevenfold, shifted by the generation. *)
Definition sample_hash (g : nat) (x : Z) (which : nat) : N := Z.to_N (if Nat.eqb which 0 then x + Z.of_nat g else x * 7 + Z.of_nat g).
Definition sample : list (call Z) := [Insert 1; Insert 12; Insert 23; Insert 34; Insert 12; Remove 1; Contains 34; Contains 1].

(** The hash of a string of zero bytes is 0 for every multiplier. *)
Lemma zero_strings_for_ever num nextInt newFunctions M size fuel t0 : (∀ n, nextInt n < num)%nat → 0 < size →
  construct [] fuel M size = Some t0 → run [] string_hash num nextInt newFunctions fuel [Insert []; Insert [0]] t0 = None.
Proof.
  intros Hd Hs. assert (Hd' : ∀ n, nextInt n ∈ functions num) by (intros n; apply elem_of_seq; specialize (Hd n); lia).
  apply (insert_for_ever [] string_hash num nextInt newFunctions Hd' [] [0]); [done|apply zero_strings_collide|done].
Qed.

(** remove() leaves size() as it is. *)
Lemma size_after_remove : ∃ t0 t, construct 0 30 0%nat 11 = Some t0 ∧
  run 0 sample_hash 2 (λ n, n mod 2)%nat S 30 [Insert 1; Remove 1] t0 = Some ([Answer true; Answer true], t) ∧ size t = 1 ∧ objects t = [].
Proof. eexists _, _. split; [vm_compute; reflexivity|]. split; [vm_compute; reflexivity|]. split; reflexivity. Qed.
End Cuckoo.
